(* ===== verification/_CoqProject ===== *)
-Q . S2P
Prelude.v
Text.v
BTree.v
Json.v
Digest.v
Reference.v
Verdicts.v
Provenance.v
Runpin.v
Outcomes.v
Ledgers.v
Policies.v
Receipts.v
Gate.v
ToolPolicy.v
FlowDefs.v
Tape.v
Flow.v
FlowSpec.v
Budget.v
FlowResolve.v
Driver.v
FlowReplay.v
FlowSafety.v
EditText.v
Hashline.v
HashlineSpec.v
EditModes.v
Paths.v
Batch.v
Atomic.v
Selection.v
Rebase.v
Leases.v
History.v
Agent.v
AgentSpec.v
AgentRun.v
Jobs.v
Disk.v
Wire.v
WireTypes.v
WireReference.v
RecordStore.v
StoreSpec.v
LedgerStore.v
Attest.v
VerifyRunner.v
AttestSpec.v
CodeGraph.v
Navigate.v
NavigateSpec.v
RepoMap.v
Search.v
SearchSpec.v
SourceCode.v
Tree.v
Assembly.v
Sensitive.v
BuildContext.v
BuildContextSpec.v
ManageSelection.v
Transport.v
Anthropic.v
Responses.v
Xai.v
ProviderSpec.v
Approval.v
Sessions.v
SessionManager.v
SessionsSpec.v
SessionRecordSpec.v
Auth.v
AuthHost.v
AuthSpec.v
FlowJob.v
FlowJobSpec.v
Delegate.v
DelegateLive.v
DelegateSpec.v
