(* ===== verification/Prelude.v ===== *)
(** * A verification library of the nerve workspace

    Nerve is a coding-agent workstation. This library covers the parts of it whose
    correctness the rest leans on: the evidence plane, which records what agents did and
    decides whether a change may merge; the flow engine, which runs several agents as one
    workflow; the agent's own run loop; and the edit engine, which turns what an agent writes
    into changes of files. Paths below are under [src/crates/].

    ** Evidence plane

    - [Verdicts] — [nerve-proto/src/verdict.rs], [nerve-core/src/verdict.rs]: check results,
      their aggregation and the sealed verdict.
    - [Provenance] — [provenance.rs] of both crates: a run's event tape, its hash chain, the
      sealed run.
    - [Runpin] — [nerve-core/src/runpin.rs]: snapshot and toolchain digests, replay
      verification and its first divergence, the projection of OpenTelemetry spans.
    - [Outcomes] — [outcome.rs]: sealed label sets, calibration and flaky rates.
    - [Ledgers] — [ledger.rs]: the append-only log across runs and its verification.
    - [Policies] — [policy.rs]: policy documents, merge bars, sealing.
    - [Receipts] — [receipt.rs]: statements, the DSSE encoding, sealing and verification.
    - [Gate] — [nerve-core/src/receipt_gate.rs], [nerve-workstation/src/commands/gate]: the
      merge gate, from a receipt to an exit code and the effects of the command.
    - [ToolPolicy] — [nerve-workstation/src/policy]: which tool calls are allowed, asked
      about or denied.

    Hashing is one class, [Digest.Sha256]: any function from bytes to bytes. No theorem
    assumes that it is injective, which is false; those that need it take [no_collision l],
    that it does not collide on the finitely many inputs [l] the statement is about.
    Serialisation ([Json]) is a class too: the text serde_json writes is a parameter, its law
    ([SerdeJsonSpec]) is that different values have different texts. The attributes of the source
    ([default], [skip_serializing_if], renamed tags) are modelled in each type's own
    instance. [Reference] instantiates both, so that witnesses evaluate. Signatures are an
    argument of [Receipts.verify_receipt].

    ** Stores

    - [Disk]: the calls of [std::fs] a store makes, on a disk of names, inodes and contents. A program
      is a tree of calls ([Disk.io]); it runs alone under a list of fates, one a call ([Disk.exec]: done,
      refused, torn after some bytes, or a directory listed in some order), or one call at a time among
      others ([Disk.Pool.step]).
    - [Wire], [WireTypes]: what is relied on of [serde_json]'s text: a value read back is the one
      written up to the order of an object's fields, which no record sees. [WireReference] instantiates it.
    - [RecordStore] — [nerve-workstation/src/run_store.rs], [verify_store.rs], [receipt_store.rs],
      [outcome_store.rs]: one file a record, whose four copies in the source are one definition here,
      over the class [RecordStore.StoredRecord]. [StoreSpec] specifies it.
    - [LedgerStore] — [ledger_store.rs]: the ledger's log and head. [LedgerStore] specifies it
      against [Ledgers].
    - [Attest] — [policy_plane.rs], [signer.rs], [jobs/substrate.rs], [replay.rs], [commands/outcome.rs]
      and the handlers of the stores' files: the policy plane, issuing receipts, labels, replays, the
      run writer.
    - [VerifyRunner] — [verify_runner.rs], [commands/verify.rs], [commands/gate/mod.rs],
      [commands/ledger.rs]: running the org's checks, sealing the verdict, and the commands. What a
      launched command gives and when the token is cancelled are arguments ([VerifyRunner.World.t]); so is
      the clock. [AttestSpec] specifies both files.

    ** Flow engine

    - [FlowDefs] — [nerve-proto/src/flow.rs]: workflows, strategies, prompt templates.
    - [Flow] — [nerve-workstation/src/flow/mod.rs], [flow/engine.rs], [flow/engine/]: the
      pure interpreter [Flow.step] with its seven strategies.
    - [Tape] — [worker/mod.rs], [worker/ledger.rs], [worker/replay.rs]: what a worker's turn
      shows, the tape of a run, the worker that plays a tape back.
    - [Budget] — [worker/budget.rs]: the budget ledger, admission, the worker semaphore.
    - [FlowResolve] — [flow/resolve.rs], [flow/resume.rs], parts of [flow/driver/node.rs]:
      from a node's id to its step, autonomy and split item; what is left to run.
    - [Driver] — [flow/driver/mod.rs], [flow/driver/node.rs], [bounded_fan_out] of
      [subagent/mod.rs]: the loop that executes what the interpreter decides.
    - [FlowReplay] — [flow_job/replay.rs], [flow/resume.rs], the replay resolver of
      [flow/resolve.rs]: running the engine over a recorded tape.
    - [FlowSafety] — [flow/safety.rs], [flow/workflow_registry.rs], [worker/registry.rs],
      [discovery.rs]: the checks before a flow starts, and the named workers and workflows
      they look up. The files on disk and [DefaultHasher] are parameters.
    - [Leases] — [worker/lease.rs] and the turns of [flow/driver/node.rs] that take its
      locks, one thread a turn.
    - [FlowJob] — [nerve-workstation/src/flow_job/], [flow_store.rs], [worker/steer.rs]: a flow as a job of the
      daemon, the events its clients see, the registry of live flows and its commands, its files over [Disk], and
      the steering of a live branch as threads beside the engine's ([FlowJob.Steering.step]). [FlowJobSpec]
      specifies it.
    - [FlowSpec] and [Driver] hold the specifications of the interpreter and the driver.

    The interpreter is a function of the state; the driver threads a [Driver.Run.t] (state,
    tape, budget, semaphore, cancel token, effects) through it. Workers, the resolver, the
    generation of the catalog and the outside's use of the cancel token are fields of
    [Driver.Driver.t], arbitrary functions. Concurrency appears where it can be observed: the
    threads of the semaphore step one atomic operation at a time ([Budget.thread_step]), and
    the waves of a flow may report in any order ([FlowSpec.flow_step]).

    ** Agent

    - [History] — [nerve-agent/src/message.rs], [orchestrator/capabilities.rs],
      [compaction.rs], [overflow.rs], [nerve-core/src/token.rs]: the conversation and what
      keeps it within a model's window, and what is proved of it.
    - [Agent] — [orchestrator/mod.rs], [turn.rs]: the loop as steps of a state and error
      monad on [Agent.Session.t] (history, events, cancel token, truncations). The provider, the
      tools, the hooks and whoever cancels are [Agent.Host.t], functions over a state of their
      own. [AgentSpec] specifies one turn, [AgentRun] whole runs.
    - [Transport] — [nerve-agent/src/provider/retry.rs], [http.rs], [text_fallback.rs], parts of
      [provider/mod.rs] and [auth/mod.rs]: retries with back-off on a clock of checks, tries and time
      slept ([Transport.Clock.t]), the lines of an event stream, tool calls recovered from text. A
      provider's stream is a fold over events, the class [Transport.Fold].
    - [Anthropic] — [provider/anthropic/]; [Responses] — [openai_responses.rs], [openai_responses/];
      [Xai] — [provider/xai.rs]: the three providers, requests and streams. What the HTTP client answers
      to each try is an argument. [ProviderSpec] specifies all four, the streams against the law class
      [ProviderSpec.Faithful].
    - [Auth] — [nerve-agent/src/auth/]: login callbacks, token answers, the three login strategies, the store
      of credentials as the map it holds, and [ensure_fresh] as threads of [Auth.World.t] under a lock of their
      process and one of all processes, among logins and logouts. [AuthSpec] specifies it.

    ** Daemon

    - [AuthHost] — [nerve-workstation/src/auth/manager.rs], [providers.rs]: the [auth.*] commands over pending
      logins, store and events, and the registry of the providers a run can name; [AuthSpec] specifies both.

    - [Jobs] — [nerve-workstation/src/jobs/mod.rs], [nerve-proto/src/job.rs], [nerve-runtime/src/error.rs]:
      the store of jobs and the threads that start, run, cancel and finish them, as a step relation on
      [Jobs.Manager.t]; an executor returns or panics when and how it likes.
    - [Approval] — [session_manager/approval.rs], [nerve-proto/src/command/aux.rs], the gated call of
      [policy/mod.rs]: the hub of pending requests, a session's memory of decisions, and the calls as
      threads of [Approval.World.t] among clients that answer and turns that are cancelled.
    - [Sessions] — [nerve-workstation/src/session.rs], [checkpoint.rs]: the record of a session, its ids and
      times, its transcript, its store over [Disk], the working-memory note. [SessionRecordSpec] specifies it.
    - [SessionManager] — [session_manager/mod.rs], [run_config.rs], [agent_event.rs]: the live sessions under
      their lock, and each command as a thread of [SessionManager.World.t] that takes one access to what is
      shared at a time; a turn's run gives anything, and other processes may write the store.
      [SessionsSpec] specifies it, and gives [Approval] the assumption it makes on calls.
    - [Delegate] — [delegate_runtime/], [delegate_roles.rs], [delegate_session.rs], [delegate_proxy.rs],
      [jobs/delegate/seal.rs]: an external agent's command line and stream, a turn of its session over the rounds
      its reader sees ([Delegate.Round.t]), the tools it asks for, and the run it is sealed to.
    - [DelegateLive] — [delegate_live.rs], [jobs/delegate/mod.rs], [delegate_store.rs]: a live session among the
      job that started it, its follow-ups and those who close or cancel it, as threads of [DelegateLive.Live.t];
      its record over [Disk] and the commands. [DelegateSpec] specifies both.

    ** Edit engine

    - [EditText], [Hashline] — [nerve-core/src/edit/text.rs], [edit/hashline.rs]: newlines,
      content tags, the read view, and the line-number language with its staleness check.
    - [EditModes] — [edit/mod.rs], [replace.rs], [patch.rs], [apply_patch.rs]: the other edit
      languages and the dispatch over all four. A syntax node's end ([codemap/block.rs]) is
      the parameter [block_end].
    - [Paths] — [nerve-core/src/security.rs], [models.rs]: path components, a tree of files,
      directories and links with the system's resolution, and the root policy.
    - [Batch] — [dispatch/batch.rs], [catalog/memory_batch.rs]: the preflight of a batch and
      the provider in memory. [Atomic] — [nerve-fs/src/atomic.rs]: the provider on disk; each
      system call takes its fate from a list of outcomes, so it may fail or tear anywhere.
    - [Selection], [ManageSelection] — [selection.rs], [path_match.rs], [selection_auto_codemap.rs]; [Rebase] — [selection_rebase.rs]: the
      selected files and line slices, and how slices follow an edit.
    - The file [XSpec] holds what is proved of [X]; where there is none, [X] does.

    ** Code intelligence

    - [CodeGraph] — [nerve-core/src/codemap/types.rs], [codemap/block.rs], [repomap/imports.rs],
      [repomap/analysis.rs], [graph/definitions.rs], [cancel.rs]: symbols and references, operations
      that may be cancelled at each of their checks ([CodeGraph.Op]), block spans over a syntax tree,
      imports, the index of definitions.
    - [Navigate] — [nerve-core/src/navigate/]: definitions, references, bodies, the ranked symbol
      search, the call hierarchy, impact analysis and path tracing. [NavigateSpec] specifies it.
    - [RepoMap] — [nerve-core/src/repomap/], [graph/snapshot_memo.rs]: the reference graph, personalised
      page rank in [f64], the ranked map, and the memo of a snapshot's graph with its callers as
      threads. [RepoMap] specifies it.

    - [Search] — [nerve-core/src/search/], [ranking.rs]: path and content search, literal and whole-word
      matching, BM25 in [f64], the limits of a scan and the spread of hits over files. [SearchSpec]
      specifies it.
    - [SourceCode] — [codemap/language.rs], [codemap/markdown.rs], [codemap/mod.rs], [read.rs]: languages,
      fenced sources in Markdown, reading a range of lines.
    - [Tree] — [tree.rs]: the file tree, its caps, markers and budget.
    - [Assembly] — [workspace_context.rs], [workspace_context/], [recipe.rs]: the text of a selection with
      its token counts, and the cache of rendered files.
    - [BuildContext] — [build_context/]: ranking by search, map and path, the greedy allocation of a token
      budget, the expansion along references, the manifest, the scout. [BuildContextSpec] specifies it.
    - [Sensitive] — [build_context/sensitive.rs]: the scan of a selection for secrets.

    [BuildContext] composes the others: it searches ([Search.search_snapshot]), ranks the map
    ([RepoMap.get_repo_map]), reads files ([SourceCode.read_file]), renders trial selections through one
    cache ([Assembly.workspace_context_for_selection_cached]) and scans the last.

    The syntax trees and the queries over them (tree-sitter) are parameters, [CodeGraph.Provider.t]; so
    are the tables of Unicode, the regular expressions, globs and fuzzy path matches
    ([Search.World.t]), the tokenizer and the printing of a score. Files are analysed and searched in
    order: the source does it in parallel into slots it then reads in order.

    ** What the theorems show

    - The logs: a ledger verifies exactly when it was appended, each error is returned exactly
      on its cause, and a head, a run root or a label root determines what it covers
      ([Ledgers], [Provenance], [Outcomes], [Runpin]).
    - The receipt and the gate: verification means the statement and its signature, the exit
      code is the documented function of the receipt, no stage of the gate upgrades an
      earlier one, and the command exits 0 only for a verified, passing, recorded receipt.
    - The stores: whatever call fails, a record is the old one or the new one, and its readers see one
      of the two while it is being written ([StoreSpec]); an append that succeeds extends the abstract
      ledger by one fact, one that fails leaves the head and the earlier lines ([LedgerStore]).
    - Verification: a check's status is what its attempts were; [nerve verify] exits with zero only when
      every required check passed every attempt and the receipt that says so is kept and trusted
      ([AttestSpec]).
    - Tool policy: the glob matcher decides its inductive definition, a project layer can
      only tighten, tiers are monotone and unknown tools fail safe, denied calls have no
      effect.
    - The flow engine: every schedule of a flow ends in one outcome, [FlowSpec.flow_outcome]
      ([flow_confluent]), and the driver computes it ([driver_refines]); a complete run
      replays to itself ([replay_identical]); nodes start once; the checks before a start accept exactly
      the graphs of workflows without cycles and without broken references;
      nesting stops at the ceiling; admission is in declared order; slots come back; no
      schedule of threads exceeds the cap; the budget ledger is the fold of its debits;
      grants and autonomy only narrow; what resumes is what has no result. A job shows the edges its engine
      works along, ends in one event that says what it answers, and leaves a record that is as it was, begun or
      finished; a steered branch's tape is the engine's turn and then each follow-up with
      all it streamed, under every interleaving.
    - Leases: two writers are never at work on one scope, a wave cannot deadlock, and which of two
      writers goes first is open.
    - The agent: a run keeps the transcript fit for a provider, streams one final event when it has an
      outcome and none when it fails, asks
      the provider a bounded number of times, stops at exactly the failure over the limit;
      compaction elides the newest old tool outputs and no more than it must.
    - Providers: a request is tried a bounded number of times and waits a bounded time, what is streamed
      is what is answered, the turns sent to Anthropic alternate and lose no block, and calls written as
      text are recovered in order, whatever the text, with ids of their own ([ProviderSpec]).
    - Approvals: a call runs only if its policy allows it, or asks and an operator allowed the call's own
      request or the tool, in that session, once and for all; no call waits for ever ([Approval]).
    - Sessions: a session runs one turn at a time and each turn starts from what the last left, as long as
      none is opened under an id in use ([SessionsSpec]); ids sort by the time a session started
      ([SessionRecordSpec]).
    - Delegated sessions: a session's run is sealed with every turn that ended and its child is closed once; it
      waits for ever only while nobody has asked to close it; what is sealed is what the child wrote; a tool is
      allowed just when the operator said so ([DelegateSpec]).
    - Jobs: under every interleaving a live record has exactly one thread, the terminal records are
      those retained, an end is recorded once and for good, and every job comes to one.
    - Code intelligence: a traced path is a shortest chain through the first hundred callees of each symbol
      and a failed search means there is none within the depth (or the cap was met), the impact of a change is closed under dependents, a
      map ranks the best files each once when its graph is of the files it ranks, and the memo answers
      with what was built for the snapshot asked for. A search finds every match of the files its limits
      admit, each once, and leaves no file out while there is room; a read returns the lines asked for; a
      tree shows every file in scope exactly once and keeps to its budget.
    - Contexts: a context is within its budget, each ranked candidate is included or excluded and none
      is both ([BuildContextSpec]); the cache of rendered files changes nothing ([Assembly]); a secret
      is reported just when it is shown ([Sensitive]).
    - The edit engine: a plan is made only on the content its tag names; the operations of a
      section take effect at once on the original lines, each where its directive says; a hunk or a replacement lands where
      its text is; an accepted batch of fresh paths lands whole, and a batch that fails on disk
      leaves every file as it was or reports it; paths stay under the roots; a slice follows the
      lines it selected.

    ** Integers, floats, bounds and fuel

    A machine integer is [Prelude.uint w], an [N] below [2^w]; additions wrap or saturate as
    the source's do, and casts are [wrap]. [f64] is the Standard Library's [spec_float] at
    precision 53 and maximal exponent 1024, which is IEEE 754 binary64. Fuel is used in
    [ToolPolicy.glob_loop] ([glob_fuel], proved enough), [FlowDefs.TaskTemplate.render_loop]
    (the length of the text, proved enough), [Driver.fan_out_loop] (one unit per input,
    proved enough), [FlowSafety.detect_reference_cycle] (one more than the named workflows on
    disk, proved enough), [Hashline.parse_ops] and [Hashline.plan_sections] (one more than the
    lines, proved enough), [Text.split_pat] and [EditModes.Replace.splice_windows] (the
    length), [Batch.rename_cycle] (two more than the renames, proved enough), [Paths.walk] (the
    kernel's own limit on links), [Navigate.impact_fuel] and
    [Navigate.trace_fuel] (one more than the symbols, proved enough), [Search.literal_loop] (two more than
    the text, proved enough), [Search.diversify_from] (the most hits of a file, proved enough),
    [Sensitive.match_indices] (one more than the line, which has no more occurrences), [History.compact_loop] (one more than the messages, proved
    enough), [Transport.drive_from] (one more than the lines, proved enough), [Transport.sleep_slices] (the
    slices of the delay, proved enough), [Transport.collect_tagged] (one more than the text, which has no
    more calls) and [Driver.run_loop], whose fuel is the source's own [MAX_STEPS]. [Agent.turns]
    counts the turns that are left, [Approval.MAX_POLLS] the polls the time limit allows. Line numbers and lengths of lists are [nat], counts of
    tokens [N].

    ** Not modelled

    The JSON text of values (a parameter), the JSONL form of a worker tape, the order in which
    worker threads report their starts and progress, where a scope's directories are when no root is served, the key file of the signer,
    the tokenizer package, the decoding of tool arguments,
    Windows paths and races with other processes on the file system, and all I/O: files,
    processes, sockets, the HTTP client and its event bytes, the browser, random texts, user interfaces, syntax trees.
    Of delegation, the app-server protocol of codex, the in-chat tool and the sandboxes; a turn's rounds are given,
    so a child that writes for ever has no end in the model either.

    ** Files

    This file holds what the components share: machine integers, byte strings, list, map and
    sorting lemmas, tactics and the hint database [nerve]. [Text] models [str], [BTree] the
    ordered map, [Json] values and encoders, [Digest] the hash and its hex form. *)
From stdpp Require Export base list strings gmap pretty sorting.
From Stdlib Require Export Ascii.
From Stdlib Require Import Lia Eqdep_dec OrdersEx.

(** [set_solver] and [naive_solver] clear hypotheses they have already used. *)
#[export] Set Warnings "-clear-no-such-hyp".

Declare Scope nerve_scope.
Delimit Scope nerve_scope with nerve.

#[global] Arguments String.append : simpl nomatch.
#[global] Arguments String.length : simpl nomatch.
#[global] Arguments Nat.div : simpl never.
#[global] Arguments Nat.modulo : simpl never.

Create HintDb nerve discriminated.

(** * Machine integers

    An unsigned integer of width [w] is a natural number below [2^w]; the bound is a
    boolean equation, so two integers with the same value are equal. *)

Record uint (w : N) := MkUint { uval : N; uval_lt : (uval <? 2 ^ w)%N = true }.
Arguments MkUint {w} _ _.
Arguments uval {w} _.
Arguments uval_lt {w} _.

Abbreviation u8 := (uint 8).
Abbreviation u32 := (uint 32).
Abbreviation u64 := (uint 64).

Lemma uint_eq {w} (a b : uint w) : uval a = uval b -> a = b.
Proof.
  destruct a as [a Ha], b as [b Hb]; simpl; intros ->.
  f_equal. apply (UIP_dec Bool.bool_dec).
Qed.

#[export] Instance uint_eq_dec w : EqDecision (uint w).
Proof.
  intros a b. destruct (decide (uval a = uval b)) as [E|E].
  - left. by apply uint_eq.
  - right. by intros ->.
Defined.

Lemma uval_bound {w} (a : uint w) : (uval a < 2 ^ w)%N.
Proof. apply N.ltb_lt, uval_lt. Qed.

Lemma wrap_lt w n : (n mod 2 ^ w <? 2 ^ w)%N = true.
Proof. apply N.ltb_lt, N.mod_lt. by apply N.pow_nonzero. Qed.

(** Wrap-around to width [w]. The bound's proof reduces to [eq_refl] on a concrete
    number, so integers compare by computation. *)
Definition wrap (w n : N) : uint w :=
  match (n mod 2 ^ w <? 2 ^ w)%N as b return (n mod 2 ^ w <? 2 ^ w)%N = b -> uint w with
  | true => fun E => MkUint (n mod 2 ^ w)%N E
  | false => fun _ => MkUint (n mod 2 ^ w)%N (wrap_lt w n)
  end eq_refl.

Lemma uval_wrap w n : uval (wrap w n) = (n mod 2 ^ w)%N.
Proof.
  unfold wrap. generalize (@eq_refl bool (n mod 2 ^ w <? 2 ^ w)%N).
  generalize (n mod 2 ^ w <? 2 ^ w)%N at 2 3. by intros [].
Qed.

Lemma uval_wrap_small w n : (n < 2 ^ w)%N -> uval (wrap w n) = n.
Proof. intros. rewrite uval_wrap. by apply N.mod_small. Qed.

Lemma wrap_uval {w} (a : uint w) : wrap w (uval a) = a.
Proof. apply uint_eq, uval_wrap_small, uval_bound. Qed.

(** [lia] with the 64-bit modulus spelled out. *)
Ltac u64_lia := change (2 ^ 64)%N with 18446744073709551616%N in *; lia.

(** Arithmetic of a release build: addition wraps; [saturating_*] and [checked_div] are
    the standard library's methods of those names. *)
Definition uadd {w} (a b : uint w) : uint w := wrap w (uval a + uval b).
Definition usaturating_sub {w} (a b : uint w) : uint w := wrap w (uval a - uval b).
Definition usub {w} (a b : uint w) : uint w := wrap w (uval a + 2 ^ w - uval b).
Definition usaturating_add {w} (a b : uint w) : uint w :=
  wrap w (N.min (uval a + uval b) (2 ^ w - 1)).
Definition usaturating_mul {w} (a b : uint w) : uint w :=
  wrap w (N.min (uval a * uval b) (2 ^ w - 1)).
Definition uchecked_div {w} (a b : uint w) : option (uint w) :=
  if (uval b =? 0)%N then None else Some (wrap w (uval a / uval b)).

(** A [usize] is 64 bits wide; the length of a list, as [len() as u64] casts it. *)
Definition len_u64 {A} (l : list A) : u64 := wrap 64 (N.of_nat (length l)).

(** Signed 32-bit integers, with the same representation of the bound. *)
Record i32 := MkI32
  { ival : Z; ival_ok : ((- 2 ^ 31 <=? ival) && (ival <? 2 ^ 31))%Z = true }.

Lemma i32_eq (a b : i32) : ival a = ival b -> a = b.
Proof.
  destruct a as [a Ha], b as [b Hb]; simpl; intros ->.
  f_equal. apply (UIP_dec Bool.bool_dec).
Qed.

#[export] Instance i32_eq_dec : EqDecision i32.
Proof.
  intros a b. destruct (decide (ival a = ival b)) as [E|E].
  - left. by apply i32_eq.
  - right. by intros ->.
Defined.

Definition i32_of (z : Z) : option i32 :=
  match ((- 2 ^ 31 <=? z) && (z <? 2 ^ 31))%Z as b
        return ((- 2 ^ 31 <=? z) && (z <? 2 ^ 31))%Z = b -> option i32 with
  | true => fun E => Some (MkI32 z E)
  | false => fun _ => None
  end eq_refl.

Lemma i32_of_ival a : i32_of (ival a) = Some a.
Proof.
  destruct a as [z Hz]. unfold i32_of. simpl.
  generalize (@eq_refl bool ((- 2 ^ 31 <=? z) && (z <? 2 ^ 31))%Z).
  generalize ((- 2 ^ 31 <=? z) && (z <? 2 ^ 31))%Z at 2 3.
  intros [] E; [|congruence]. f_equal. by apply i32_eq.
Qed.

(** * Strings

    A Rust [String] is its UTF-8 byte sequence, which is what a Rocq [string] holds, so
    [len()] is [String.length] and [as_bytes()] is the identity. *)

Abbreviation bytes := string.

Definition nl : string := String (Ascii.ascii_of_nat 10) EmptyString.

Fixpoint concat_str (l : list string) : string :=
  match l with
  | [] => EmptyString
  | s :: l => s +:+ concat_str l
  end.

Fixpoint no_char (c : ascii) (s : string) : bool :=
  match s with
  | EmptyString => true
  | String d s => negb (bool_decide (c = d)) && no_char c s
  end.

Definition newline_free (s : string) : bool := no_char (Ascii.ascii_of_nat 10) s.

Lemma app_empty_r s : s +:+ EmptyString = s.
Proof. induction s as [|x s IH]; simpl; [done|by rewrite IH]. Qed.

Lemma app_assoc_str a b c : (a +:+ b) +:+ c = a +:+ b +:+ c.
Proof. induction a as [|x a IH]; simpl; [done|by rewrite IH]. Qed.

Lemma app_cons_str c a b : String c a +:+ b = String c (a +:+ b).
Proof. done. Qed.

Lemma app_nil_str b : EmptyString +:+ b = b.
Proof. done. Qed.

(** Right-nests the concatenations of a hypothesis. *)
Ltac app_norm H :=
  repeat first [rewrite app_assoc_str in H | rewrite app_cons_str in H | rewrite app_nil_str in H].

Lemma length_app_str a b : String.length (a +:+ b) = String.length a + String.length b.
Proof. induction a as [|x a IH]; simpl; [done|by rewrite IH]. Qed.

Lemma app_inj_length_l a b c d :
  String.length a = String.length c -> a +:+ b = c +:+ d -> a = c /\ b = d.
Proof.
  revert c; induction a as [|x a IH]; intros [|y c] L E; simpl in *; try lia; auto.
  injection E as -> E. injection L as L. by destruct (IH _ L E) as [-> ->].
Qed.

Lemma app_inj_length_r a b c d :
  String.length b = String.length d -> a +:+ b = c +:+ d -> a = c /\ b = d.
Proof.
  intros L E. apply app_inj_length_l; [|done].
  apply (f_equal String.length) in E. rewrite !length_app_str in E. lia.
Qed.

Lemma app_inj_l a b c : a +:+ b = a +:+ c -> b = c.
Proof. intros E. by eapply app_inj_length_l in E as [_ ->]. Qed.

(** Splitting at the first occurrence of a separator is unambiguous. *)
Lemma split_sep_inj c a b a' b' :
  no_char c a = true -> no_char c a' = true ->
  a +:+ String c b = a' +:+ String c b' -> a = a' /\ b = b'.
Proof.
  revert a'; induction a as [|x a IH]; intros [|y a'] Ha Ha' E; simpl in *;
    injection E; intros; subst.
  - done.
  - rewrite bool_decide_eq_true_2 in Ha' by done. done.
  - rewrite bool_decide_eq_true_2 in Ha by done. done.
  - apply andb_prop in Ha as [_ Ha], Ha' as [_ Ha'].
    by destruct (IH _ Ha Ha' H) as [-> ->].
Qed.

Lemma no_char_app c a b : no_char c (a +:+ b) = no_char c a && no_char c b.
Proof. induction a as [|x a IH]; simpl; [done|]. by rewrite IH, andb_assoc. Qed.

Lemma concat_str_app l l' : concat_str (l ++ l') = concat_str l +:+ concat_str l'.
Proof. induction l; simpl; [done|]. by rewrite IHl, app_assoc_str. Qed.

(** The first [n] characters of a UTF-8 string ([chars().take(n).collect()]): a byte of
    the form [10xxxxxx] continues the character before it. *)
Definition utf8_continuation (c : ascii) : bool :=
  match c with Ascii _ _ _ _ _ _ b6 b7 => b7 && negb b6 end.

Fixpoint take_chars (n : nat) (s : string) : string :=
  match s with
  | EmptyString => EmptyString
  | String c s' =>
      if utf8_continuation c then String c (take_chars n s')
      else match n with
           | 0 => EmptyString
           | S n' => String c (take_chars n' s')
           end
  end.

(** [chars().count()] *)
Fixpoint count_chars (s : string) : nat :=
  match s with
  | EmptyString => 0
  | String c s => if utf8_continuation c then count_chars s else S (count_chars s)
  end.

(** [slice::join] on strings, and [bool]'s [Display]. *)
Fixpoint join (sep : string) (l : list string) : string :=
  match l with
  | [] => EmptyString
  | [s] => s
  | s :: l => s +:+ sep +:+ join sep l
  end.

Lemma no_char_join c sep l :
  no_char c sep = true -> Forall (fun s => no_char c s = true) l -> no_char c (join sep l) = true.
Proof.
  intros Hs. induction 1 as [|s l Hl F IH]; simpl; [done|].
  destruct l; [done|]. by rewrite !no_char_app, Hl, Hs, IH.
Qed.

(** Joining with a separator that occurs in no part is unambiguous. *)
Lemma join_inj c l l' :
  l <> [] -> l' <> [] ->
  Forall (fun s => no_char c s = true) l -> Forall (fun s => no_char c s = true) l' ->
  join (String c EmptyString) l = join (String c EmptyString) l' -> l = l'.
Proof.
  intros N N' F. revert l' N N'. induction F as [|x l Hx F IH]; intros l' N N' F' E; [done|].
  destruct F' as [|y l' Hy F']; [done|].
  assert (forall a b, no_char c (a +:+ String c b) = false) as NC.
  { intros a b. rewrite no_char_app. simpl. rewrite bool_decide_eq_true_2 by done.
    by rewrite andb_false_r. }
  destruct l as [|x2 l], l' as [|y2 l'].
  - by simpl in E; subst.
  - cbn [join] in E. simpl in E. subst. by rewrite NC in Hx.
  - cbn [join] in E. simpl in E. subst. by rewrite NC in Hy.
  - change (x +:+ String c (join (String c EmptyString) (x2 :: l)) =
            y +:+ String c (join (String c EmptyString) (y2 :: l'))) in E.
    apply split_sep_inj in E as [-> E]; [|done..].
    f_equal. by apply IH.
Qed.

Lemma join_cons sep s l :
  join sep (s :: l) = s +:+ concat_str (l ≫= (fun x => [sep; x])).
Proof.
  revert s; induction l as [|x l IH]; intros s; [by rewrite app_empty_r|].
  change (s +:+ sep +:+ join sep (x :: l) = s +:+ concat_str ([sep; x] ++ (l ≫= (fun x => [sep; x])))).
  by rewrite IH.
Qed.

Definition show_bool (b : bool) : string := if b then "true" else "false".

Lemma map_snoc {A B} (f : A -> B) l x : map f (l ++ [x]) = map f l ++ [f x].
Proof. apply map_app. Qed.

Lemma forall_snoc {A} (P : A -> Prop) l x :
  (forall y, y ∈ l ++ [x] -> P y) <-> (forall y, y ∈ l -> P y) /\ P x.
Proof.
  setoid_rewrite elem_of_app. setoid_rewrite list_elem_of_singleton. naive_solver.
Qed.

Lemma filter_nil_all {A} (P : A -> Prop) `{forall x, Decision (P x)} l :
  filter P l = [] <-> forall x, x ∈ l -> ~ P x.
Proof.
  split.
  - intros E x Hx HP. assert (x ∈ filter P l) as F by (by apply list_elem_of_filter).
    rewrite E in F. by apply not_elem_of_nil in F.
  - intros N. induction l as [|x l IH]; [done|].
    rewrite filter_cons_False by (apply N; by left). apply IH. intros y Hy. apply N. by right.
Qed.

Lemma size_list_to_set_le `{Countable A} (l : list A) : size (list_to_set l : gset A) <= length l.
Proof.
  induction l as [|x l IH]; [done|]. cbn [list_to_set length].
  rewrite size_union_alt, size_singleton.
  assert (list_to_set l ∖ {[x]} ⊆@{gset A} list_to_set l) as S%subseteq_size by set_solver.
  cbn in *. lia.
Qed.

(** [Vec::dedup_by_key]: each element is compared with the last one kept. *)
Section dedup.
Context {A K : Type} `{EqDecision K} (key : A -> K).

Fixpoint dedup_after (kept : A) (l : list A) : list A :=
  match l with
  | [] => []
  | x :: l =>
      if bool_decide (key kept = key x) then dedup_after kept l else x :: dedup_after x l
  end.

Definition dedup_by_key (l : list A) : list A :=
  match l with [] => [] | x :: l => x :: dedup_after x l end.

Lemma in_dedup_after kept l x : In x (dedup_after kept l) -> In x l.
Proof.
  revert kept. induction l as [|y l IH]; intros kept; cbn; [done|].
  case_bool_decide; cbn; [intros I; right; by eapply IH|].
  intros [->|I]; [by left|right; by eapply IH].
Qed.

Lemma in_dedup l x : In x (dedup_by_key l) -> In x l.
Proof. destruct l; cbn; [done|]. intros [->|I]; [by left|right; by eapply in_dedup_after]. Qed.
End dedup.

(** * Ordering

    Rust orders strings by their bytes; [sort_by] is a stable sort. *)

Definition string_leb (a b : string) : bool := String.leb a b.
Definition string_ltb (a b : string) : bool := String.ltb a b.

Section sort_by.
Context {A : Type} (leb : A -> A -> bool).

Fixpoint insert_by (x : A) (l : list A) : list A :=
  match l with
  | [] => [x]
  | y :: l' => if leb x y then x :: y :: l' else y :: insert_by x l'
  end.

Fixpoint sort_by (l : list A) : list A :=
  match l with
  | [] => []
  | x :: l' => insert_by x (sort_by l')
  end.

Lemma insert_by_perm x l : Permutation (x :: l) (insert_by x l).
Proof.
  induction l as [|y l IH]; simpl; [done|].
  destruct (leb x y); [done|]. rewrite <- IH. apply perm_swap.
Qed.

Lemma sort_by_perm l : Permutation l (sort_by l).
Proof.
  induction l as [|x l IH]; simpl; [done|].
  rewrite <- insert_by_perm. by apply perm_skip.
Qed.

Context (leb_total : forall x y, leb x y = true \/ leb y x = true).

Lemma insert_by_sorted x l :
  Sorted (fun a b => leb a b = true) l -> Sorted (fun a b => leb a b = true) (insert_by x l).
Proof.
  induction 1 as [|y l HS IH HR]; simpl; [by repeat constructor|].
  destruct (leb x y) eqn:E; [by repeat constructor|].
  constructor; [done|].
  destruct (leb_total x y) as [?|Hyx]; [congruence|].
  destruct HR as [|z l' Hyz]; simpl; [by constructor|].
  destruct (leb x z); by constructor.
Qed.

Lemma sort_by_sorted l : Sorted (fun a b => leb a b = true) (sort_by l).
Proof. induction l; simpl; [constructor|by apply insert_by_sorted]. Qed.

Context (leb_trans : forall x y z, leb x y = true -> leb y z = true -> leb x z = true).

Lemma sort_by_strongly_sorted l : StronglySorted (fun a b => leb a b = true) (sort_by l).
Proof using Type*. apply Sorted_StronglySorted; [done|apply sort_by_sorted]. Qed.

Lemma strongly_sorted_unique l l' :
  (forall x y, x ∈ l -> y ∈ l -> leb x y = true -> leb y x = true -> x = y) ->
  StronglySorted (fun a b => leb a b = true) l ->
  StronglySorted (fun a b => leb a b = true) l' -> l ≡ₚ l' -> l = l'.
Proof.
  intros AS HS. revert l' AS. induction HS as [|x l HS IH HF]; intros l' AS HS' P.
  - by apply Permutation_nil_l in P as ->.
  - destruct HS' as [|y l' HS' HF']; [by apply Permutation_nil_r in P|].
    assert (x = y) as ->.
    { assert (y ∈ x :: l) as Hy by (rewrite P; by left).
      assert (x ∈ y :: l') as Hx by (rewrite <- P; by left).
      apply elem_of_cons in Hy as [->|Hy]; [done|].
      apply elem_of_cons in Hx as [->|Hx]; [done|].
      rewrite Forall_forall in HF, HF'. apply AS; [by left|by right| |]; auto. }
    f_equal. apply IH; [|done|by eapply Permutation_cons_inv].
    intros ?????. apply AS; by try right.
Qed.

(** A sort whose order separates the elements is insensitive to their order. *)
Lemma sort_by_perm_eq l l' :
  (forall x y, x ∈ l -> y ∈ l -> leb x y = true -> leb y x = true -> x = y) ->
  l ≡ₚ l' -> sort_by l = sort_by l'.
Proof using Type*.
  intros AS P. apply strongly_sorted_unique.
  - intros x y. rewrite <- !sort_by_perm. apply AS.
  - apply sort_by_strongly_sorted.
  - apply sort_by_strongly_sorted.
  - by rewrite <- !sort_by_perm.
Qed.
End sort_by.

(** Total orders as boolean functions, and the lexicographic one that the derived [Ord] of
    a tuple is. *)
Class TotalLeb {A} (leb : A -> A -> bool) : Prop := {
  leb_total x y : leb x y = true \/ leb y x = true;
  leb_trans x y z : leb x y = true -> leb y z = true -> leb x z = true;
  leb_antisym x y : leb x y = true -> leb y x = true -> x = y;
}.

Definition u_leb {w} (a b : uint w) : bool := (uval a <=? uval b)%N.

Definition lex_leb {A B} (la : A -> A -> bool) (lb : B -> B -> bool) (x y : A * B) : bool :=
  la x.1 y.1 && (negb (la y.1 x.1) || lb x.2 y.2).

Lemma string_leb_iff a b :
  string_leb a b = true <-> String_as_OT.lt a b \/ a = b.
Proof.
  unfold string_leb, String.leb.
  change (String.compare a b) with (String_as_OT.compare a b).
  destruct (String_as_OT.compare_spec a b) as [->|H|H]; split; try tauto; try done.
  intros [H' | ->]; exfalso; eapply StrictOrder_Irreflexive; [|exact H]; try exact H.
  etrans; eauto.
Qed.

#[export] Instance string_leb_total : TotalLeb string_leb.
Proof.
  split.
  - intros a b. rewrite !string_leb_iff.
    destruct (String_as_OT.compare_spec a b); subst; tauto.
  - intros a b c. rewrite !string_leb_iff. intros [H| ->] [H'| ->]; auto.
    left. by etrans.
  - intros a b. rewrite !string_leb_iff. intros [H| ->] [H'| ?]; auto.
    exfalso. apply (StrictOrder_Irreflexive (R:=String_as_OT.lt) a). by etrans.
Qed.

#[export] Instance u_leb_total w : TotalLeb (@u_leb w).
Proof.
  unfold u_leb. split; intros *; rewrite ?N.leb_le; try lia.
  intros. apply uint_eq. lia.
Qed.

#[export] Instance lex_leb_total {A B} (la : A -> A -> bool) (lb : B -> B -> bool) :
  TotalLeb la -> TotalLeb lb -> TotalLeb (lex_leb la lb).
Proof.
  intros [ta ra aa] [tb rb ab]. unfold lex_leb. split.
  - intros [x1 x2] [y1 y2]; simpl.
    destruct (ta x1 y1) as [E|E], (tb x2 y2) as [E'|E'];
      destruct (la x1 y1) eqn:?, (la y1 x1) eqn:?; simpl; try done; rewrite ?E'; auto.
  - intros [x1 x2] [y1 y2] [z1 z2]; simpl.
    rewrite !andb_true_iff, !orb_true_iff, !negb_true_iff. intros [H1 H2] [H3 H4].
    split; [by eapply ra|].
    destruct (la z1 x1) eqn:E; [right|by left].
    assert (x1 = y1) as -> by (apply aa; [done|by eapply ra]).
    assert (y1 = z1) as -> by (apply aa; done).
    destruct H2 as [?|H2]; [congruence|]. destruct H4 as [?|H4]; [congruence|].
    by eapply rb.
  - intros [x1 x2] [y1 y2]; simpl.
    rewrite !andb_true_iff, !orb_true_iff, !negb_true_iff. intros [H1 H2] [H3 H4].
    assert (x1 = y1) as -> by auto. f_equal.
    destruct H2 as [?|H2]; [congruence|]. destruct H4 as [?|H4]; [congruence|]. auto.
Qed.

#[export] Instance nat_leb_total : TotalLeb Nat.leb.
Proof. split; intros *; rewrite ?Nat.leb_le; lia. Qed.

(** [sort_by] on a key. *)
Section sort_on.
Context {A K : Type} (leb : K -> K -> bool) (key : A -> K).

Definition sort_on : list A -> list A := sort_by (fun a b => leb (key a) (key b)).

Lemma sort_on_perm l : sort_on l ≡ₚ l.
Proof. symmetry. apply sort_by_perm. Qed.

Lemma in_sort_on l x : In x (sort_on l) <-> In x l.
Proof. rewrite <- !list_elem_of_In. by rewrite sort_on_perm. Qed.

Lemma sort_on_sorted `{!TotalLeb leb} l :
  StronglySorted (fun a b => leb (key a) (key b) = true) (sort_on l).
Proof.
  apply sort_by_strongly_sorted; intros *; [apply leb_total|apply leb_trans].
Qed.
End sort_on.

(** Cuts and runs of equals of a sorted list. *)
Lemma in_take {A} n (l : list A) x : In x (take n l) -> In x l.
Proof. rewrite <- (take_drop n l) at 2. intros. apply in_app_iff. by left. Qed.

Lemma sorted_map {A B} (f : A -> B) (R : A -> A -> Prop) (R' : B -> B -> Prop) l :
  (forall a b, In a l -> In b l -> R a b -> R' (f a) (f b)) -> Sorted R l -> Sorted R' (map f l).
Proof.
  intros H S. revert H. induction S as [|a l S IH HR]; cbn; intros H; constructor.
  - apply IH. intros x y ? ?. apply H; by right.
  - destruct HR; cbn; constructor. apply H; [by left|right; by left|done].
Qed.

Lemma sorted_take {A} (R : A -> A -> Prop) n l : Sorted R l -> Sorted R (take n l).
Proof.
  intros S. revert n. induction S as [|a l S IH HR]; intros [|n]; cbn; constructor; [done|].
  destruct HR, n; cbn; by constructor.
Qed.

(** What a cut leaves out comes after what it keeps. *)
Lemma in_take_or {A} (R : A -> A -> Prop) n l x : StronglySorted R l -> In x l ->
  In x (take n l) \/ length (take n l) = n /\ forall y, In y (take n l) -> R y x.
Proof.
  intros S I. revert n. induction S as [|a l S IH F]; [done|].
  intros [|n]; [by right|]. cbn. destruct I as [->|I]; [by left; left|].
  destruct (IH I n) as [?|[L H]]; [by left; right|right]. split; [lia|].
  intros y [<-|J]; [|by apply H]. rewrite Forall_forall in F. apply F. by apply list_elem_of_In.
Qed.

Lemma in_dedup_after_id {A} `{EqDecision A} (kept : A) l x :
  In x (dedup_after id kept l) \/ x = kept <-> In x l \/ x = kept.
Proof.
  revert kept. induction l as [|y l IH]; intros kept; cbn [dedup_after In]; [done|].
  case_bool_decide as E; unfold id in E; cbn [In]; [rewrite IH; naive_solver|].
  specialize (IH y). naive_solver.
Qed.

Lemma in_dedup_id {A} `{EqDecision A} (l : list A) x : In x (dedup_by_key id l) <-> In x l.
Proof. destruct l as [|y l]; [done|]. cbn. pose proof (in_dedup_after_id y l x). naive_solver. Qed.

Lemma dedup_after_sorted {A} `{EqDecision A} (R : A -> A -> Prop) kept l :
  StronglySorted R (kept :: l) -> Sorted (fun a b => R a b /\ a <> b) (kept :: dedup_after id kept l).
Proof.
  revert kept. induction l as [|y l IH]; intros kept S; cbn [dedup_after]; [by repeat constructor|].
  apply StronglySorted_inv in S as [S F]. case_bool_decide as E; unfold id in E.
  - subst y. by apply IH.
  - constructor; [by apply IH|]. constructor. inversion F. done.
Qed.

Lemma dedup_sorted {A} `{EqDecision A} (R : A -> A -> Prop) l :
  StronglySorted R l -> Sorted (fun a b => R a b /\ a <> b) (dedup_by_key id l).
Proof. destruct l; [constructor|]. apply dedup_after_sorted. Qed.
