(* ===== verification/Text.v ===== *)
(** The parts of Rust's [str] the flow engine and the edit engine use: prefixes and suffixes,
    [split], [split_once]/[find], [replace], [trim], [split_whitespace], decimal formatting
    and [parse::<usize>]. *)
From S2P Require Import Prelude.

(** [str::strip_prefix]. *)
Fixpoint strip_prefix (p s : string) : option string :=
  match p, s with
  | EmptyString, _ => Some s
  | String a p', String b s' => if Ascii.eqb a b then strip_prefix p' s' else None
  | String _ _, EmptyString => None
  end.

(** [str::starts_with]. *)
Definition starts_with (p s : string) : bool :=
  match strip_prefix p s with Some _ => true | None => false end.

(** [str::split_once] for a non-empty pattern: the text before and after its first
    occurrence. [find] followed by the two slices is the same thing. *)
Fixpoint split_once (pat s : string) : option (string * string) :=
  match strip_prefix pat s with
  | Some rest => Some (EmptyString, rest)
  | None =>
      match s with
      | EmptyString => None
      | String c s' => prod_map (String c) id <$> split_once pat s'
      end
  end.

(** The UTF-8 encodings of the characters with the White_Space property. *)
Definition bytes_of (l : list nat) : string :=
  fold_right (fun b s => String (Ascii.ascii_of_nat b) s) EmptyString l.
Definition white_space : list string :=
  map bytes_of
    ([[9]; [10]; [11]; [12]; [13]; [32]; [194; 133]; [194; 160]; [225; 154; 128]] ++
     map (fun b => [226; 128; b]) [128; 129; 130; 131; 132; 133; 134; 135; 136; 137; 138;
                                   168; 169; 175] ++
     [[226; 129; 159]; [227; 128; 128]]).

Definition strip_one_white (s : string) : option string :=
  fold_right (fun w acc => match strip_prefix w s with Some r => Some r | None => acc end) None
    white_space.

Fixpoint trim_start (fuel : nat) (s : string) : string :=
  match fuel with
  | 0 => s
  | S fuel => match strip_one_white s with Some r => trim_start fuel r | None => s end
  end.

(** Whether the whole string is white space. *)
Definition all_white (s : string) : bool :=
  String.eqb (trim_start (String.length s) s) EmptyString.

(** Drops the longest white suffix: the first position from which everything is white. *)
Fixpoint trim_end (s : string) : string :=
  if all_white s then EmptyString
  else match s with EmptyString => EmptyString | String c s' => String c (trim_end s') end.

(** [str::trim], exact on UTF-8 text. *)
Definition trim (s : string) : string := trim_end (trim_start (String.length s) s).

Definition trim_start_all (s : string) : string := trim_start (String.length s) s.

(** [str::contains]. *)
Definition contains_str (pat s : string) : bool :=
  match split_once pat s with Some _ => true | None => false end.

(** [str::split] on one character. *)
Fixpoint split_on (c : ascii) (s : string) : list string :=
  match s with
  | EmptyString => [EmptyString]
  | String a s' =>
      if Ascii.eqb a c then EmptyString :: split_on c s'
      else match split_on c s' with
           | [] => [String a EmptyString]
           | piece :: pieces => String a piece :: pieces
           end
  end.

(** [str::split] on a non-empty pattern: the text around its leftmost non-overlapping
    occurrences, which are those of [match_indices] and [replace]. *)
Fixpoint split_pat (fuel : nat) (pat s : string) : list string :=
  match fuel with
  | 0 => [s]
  | S fuel =>
      match split_once pat s with
      | None => [s]
      | Some (a, b) => a :: split_pat fuel pat b
      end
  end.

Definition split_str (pat s : string) : list string := split_pat (String.length s) pat s.

(** [str::replace]. *)
Definition replace_str (pat new s : string) : string := join new (split_str pat s).

(** [str::split_whitespace]. *)
Fixpoint words (fuel : nat) (cur s : string) : list string :=
  let done := if String.eqb cur EmptyString then [] else [cur] in
  match fuel with
  | 0 => done
  | S fuel =>
      match strip_one_white s with
      | Some r => done ++ words fuel EmptyString r
      | None =>
          match s with
          | EmptyString => done
          | String c s' => words fuel (cur +:+ String c EmptyString) s'
          end
      end
  end.

Definition split_whitespace (s : string) : list string := words (S (String.length s)) EmptyString s.

Fixpoint rev_str (s : string) : string :=
  match s with EmptyString => EmptyString | String c s' => rev_str s' +:+ String c EmptyString end.

(** [str::strip_suffix] and, for one character, [rsplit_once]. *)
Definition strip_suffix (p s : string) : option string :=
  rev_str <$> strip_prefix (rev_str p) (rev_str s).

Definition rsplit_once (c : ascii) (s : string) : option (string * string) :=
  (fun '(b, a) => (rev_str a, rev_str b)) <$> split_once (String c EmptyString) (rev_str s).

(** [trim_end_matches] on a set of characters. *)
Fixpoint trim_end_chars (p : ascii -> bool) (s : string) : string :=
  match s with
  | EmptyString => EmptyString
  | String c s' =>
      match trim_end_chars p s' with
      | EmptyString => if p c then EmptyString else String c EmptyString
      | rest => String c rest
      end
  end.

Definition ascii_lower (c : ascii) : ascii :=
  let n := Ascii.nat_of_ascii c in
  if (65 <=? n) && (n <=? 90) then Ascii.ascii_of_nat (n + 32) else c.

Fixpoint lower (s : string) : string :=
  match s with EmptyString => EmptyString | String c s' => String (ascii_lower c) (lower s') end.

Definition eq_ignore_ascii_case (a b : string) : bool := String.eqb (lower a) (lower b).

Definition is_ascii_hexdigit (c : ascii) : bool :=
  let n := Ascii.nat_of_ascii c in
  ((48 <=? n) && (n <=? 57)) || ((65 <=? n) && (n <=? 70)) || ((97 <=? n) && (n <=? 102)).

(** [count] of one ASCII character. *)
Fixpoint count_char (c : ascii) (s : string) : nat :=
  match s with
  | EmptyString => 0
  | String a s' => (if Ascii.eqb a c then 1 else 0) + count_char c s'
  end.

(** [bytes().all]. *)
Fixpoint all_bytes (p : ascii -> bool) (s : string) : bool :=
  match s with EmptyString => true | String c s => p c && all_bytes p s end.

(** * Decimal *)

Definition show_nat (n : nat) : string := pretty (N.of_nat n).
Definition show_u {w} (n : uint w) : string := pretty (uval n).

Definition digit_of (c : ascii) : option N :=
  let n := Ascii.N_of_ascii c in
  if (48 <=? n)%N && (n <=? 57)%N then Some (n - 48)%N else None.

Fixpoint parse_digits (acc : N) (s : string) : option N :=
  match s with
  | EmptyString => Some acc
  | String c s' =>
      match digit_of c with
      | None => None
      | Some d =>
          let n := (acc * 10 + d)%N in
          if (n <? 2 ^ 64)%N then parse_digits n s' else None
      end
  end.

(** [str::parse::<usize>] on a 64-bit target: an optional plus sign, at least one digit,
    no overflow. *)
Definition parse_usize (s : string) : option nat :=
  match s with
  | EmptyString => None
  | String c s' =>
      N.to_nat <$>
      (if Ascii.eqb c "+"%char
       then match s' with EmptyString => None | _ => parse_digits 0 s' end
       else parse_digits 0 s)
  end.

(** * Lemmas *)

Lemma strip_prefix_app p s : strip_prefix p (p +:+ s) = Some s.
Proof. induction p as [|a p IH]; [done|]. simpl. by rewrite Ascii.eqb_refl. Qed.

Lemma strip_prefix_Some p s r : strip_prefix p s = Some r <-> s = p +:+ r.
Proof.
  split; [|intros ->; apply strip_prefix_app].
  revert s. induction p as [|a p IH]; intros [|b s]; simpl; try congruence.
  destruct (Ascii.eqb_spec a b) as [->|]; [|done]. intros E%IH. by rewrite E.
Qed.

Lemma strip_prefix_None p s : strip_prefix p s = None <-> forall r, s <> p +:+ r.
Proof.
  split.
  - intros E r ->. by rewrite strip_prefix_app in E.
  - intros H. destruct (strip_prefix p s) as [r|] eqn:E; [|done].
    by apply strip_prefix_Some, H in E.
Qed.

Lemma split_once_Some pat s a b :
  split_once pat s = Some (a, b) -> s = a +:+ pat +:+ b.
Proof.
  revert a. induction s as [|c s IH]; intros a.
  - simpl. destruct (strip_prefix pat EmptyString) as [r|] eqn:E; [|done].
    intros [= <- <-]. by apply strip_prefix_Some in E.
  - simpl. destruct (strip_prefix pat (String c s)) as [r|] eqn:E.
    + intros [= <- <-]. by apply strip_prefix_Some in E.
    + destruct (split_once pat s) as [[a' b']|]; [|done]. simpl.
      intros [= <- <-]. by rewrite (IH a' eq_refl).
Qed.

Lemma digit_pretty n : digit_of (pretty_N_char (n mod 10)) = Some (n mod 10)%N.
Proof.
  assert (n mod 10 < 10)%N as L by (apply N.mod_lt; lia).
  destruct (n mod 10)%N as [|p]; [done|].
  do 4 (destruct p as [p|p|]; try done); exfalso; lia.
Qed.

Lemma parse_pretty_go n s :
  (n < 2 ^ 64)%N -> parse_digits 0 (pretty_N_go n s) = parse_digits n s.
Proof.
  revert s. induction (N.lt_wf_0 n) as [n _ IH]; intros s L.
  destruct (decide (0 < n)%N) as [P|P].
  - rewrite pretty_N_go_step by done.
    assert (n / 10 < n)%N by (apply N.div_lt; lia).
    rewrite IH by lia. cbn [parse_digits]. rewrite digit_pretty. cbv zeta.
    replace (n / 10 * 10 + n mod 10)%N with n.
    + by rewrite (proj2 (N.ltb_lt n (2 ^ 64)) L).
    + pose proof (N.div_mod n 10 ltac:(lia)). lia.
  - replace n with 0%N by lia. by rewrite pretty_N_go_0.
Qed.

Lemma pretty_head (n : N) : exists c s, pretty n = String c s /\ is_Some (digit_of c).
Proof.
  unfold pretty, pretty_N. case_decide as E; [by exists "0"%char, EmptyString; split; [|eexists]|].
  assert (0 < n)%N as P by lia. clear E.
  assert (forall s, (exists c s', s = String c s' /\ is_Some (digit_of c)) \/ (0 < n)%N ->
          exists c s', pretty_N_go n s = String c s' /\ is_Some (digit_of c)) as G.
  { clear P. induction (N.lt_wf_0 n) as [n _ IH]; intros s [H|H].
    - destruct (decide (0 < n)%N) as [P|P].
      + rewrite pretty_N_go_step by done. apply IH; [apply N.div_lt; lia|].
        left. do 2 eexists. split; [done|]. rewrite digit_pretty. by eexists.
      + replace n with 0%N by lia. by rewrite pretty_N_go_0.
    - rewrite pretty_N_go_step by done. apply IH; [apply N.div_lt; lia|].
      left. do 2 eexists. split; [done|]. rewrite digit_pretty. by eexists. }
  apply G. by right.
Qed.

(** Formatting an index and parsing it back. *)
Lemma parse_show_nat n : (N.of_nat n < 2 ^ 64)%N -> parse_usize (show_nat n) = Some n.
Proof.
  intros L. unfold show_nat.
  destruct (pretty_head (N.of_nat n)) as (c & s & E & D).
  assert (parse_digits 0 (pretty (N.of_nat n)) = Some (N.of_nat n)) as P.
  { unfold pretty, pretty_N. case_decide as Z; [by rewrite Z|]. by rewrite parse_pretty_go. }
  unfold parse_usize. rewrite E. rewrite E in P.
  destruct (Ascii.eqb_spec c "+"%char) as [->|]; [by destruct D|].
  rewrite P. simpl. by rewrite Nnat.Nat2N.id.
Qed.

Lemma show_nat_inj m n : show_nat m = show_nat n -> m = n.
Proof. unfold show_nat. intros E%(inj pretty). lia. Qed.

(** A printed number contains no character that is not a digit. *)
Lemma no_char_pretty_go c n s :
  (forall k, c <> pretty_N_char k) -> no_char c s = true -> no_char c (pretty_N_go n s) = true.
Proof.
  intros Hc. revert s. induction (N.lt_wf_0 n) as [n _ IH]; intros s Hs.
  destruct (decide (0 < n)%N) as [L|L].
  - rewrite pretty_N_go_step by done. apply IH; [by apply N.div_lt|].
    simpl. by rewrite Hs, bool_decide_eq_false_2.
  - replace n with 0%N by lia. by rewrite pretty_N_go_0.
Qed.

Lemma no_char_pretty c (n : N) : digit_of c = None -> no_char c (pretty n) = true.
Proof.
  intros D.
  assert (forall k, c <> pretty_N_char k) as Hc.
  { intros k ->. unfold pretty_N_char in D. by repeat case_match. }
  unfold pretty, pretty_N. case_decide.
  - simpl. rewrite bool_decide_eq_false_2; [done|]. by intros ->.
  - by apply no_char_pretty_go.
Qed.

Lemma split_once_fresh c p s r :
  no_char c s = true -> split_once (String c p) (s +:+ String c p +:+ r) = Some (s, r).
Proof.
  induction s as [|d s IH]; cbn [no_char].
  - intros _. pose proof (strip_prefix_app (String c p) r) as E.
    change (EmptyString +:+ ?x) with x.
    destruct (String c p +:+ r) eqn:Er; [done|]. cbn [split_once]. by rewrite E.
  - rewrite andb_true_iff, negb_true_iff, bool_decide_eq_false. intros [N F].
    change (String d s +:+ ?x) with (String d (s +:+ x)). cbn [split_once strip_prefix].
    destruct (Ascii.eqb_spec c d); [done|]. by rewrite (IH F).
Qed.

Lemma split_once_absent c p s : no_char c s = true -> split_once (String c p) s = None.
Proof.
  induction s as [|d s IH]; cbn [no_char]; [done|].
  rewrite andb_true_iff, negb_true_iff, bool_decide_eq_false. intros [N F].
  cbn [split_once strip_prefix]. destruct (Ascii.eqb_spec c d); [done|]. by rewrite (IH F).
Qed.

(** ** Splitting and joining *)

Lemma split_on_nonempty c s : split_on c s <> [].
Proof. destruct s as [|a s]; [done|]. cbn. destruct (Ascii.eqb a c); [done|]. by destruct (split_on c s). Qed.

Lemma join_split_on c s : join (String c EmptyString) (split_on c s) = s.
Proof.
  induction s as [|a s IH]; [done|]. cbn [split_on]. pose proof (split_on_nonempty c s) as N.
  destruct (split_on c s) as [|p l] eqn:S; [done|].
  destruct (Ascii.eqb_spec a c) as [->|].
  - change (String c (join (String c EmptyString) (p :: l)) = String c s). by rewrite IH.
  - rewrite <- IH. by destruct l.
Qed.

Lemma split_on_fresh c s : Forall (fun p => no_char c p = true) (split_on c s).
Proof.
  induction s as [|a s IH]; [by repeat constructor|]. cbn [split_on].
  destruct (Ascii.eqb_spec a c) as [->|N]; [by constructor|].
  destruct IH as [|p l Hp F]; [|constructor; [|done]].
  - constructor; [|constructor]. cbn. by rewrite bool_decide_eq_false_2.
  - cbn. by rewrite Hp, bool_decide_eq_false_2.
Qed.

Lemma split_on_join c l :
  l <> [] -> Forall (fun p => no_char c p = true) l -> split_on c (join (String c EmptyString) l) = l.
Proof.
  intros N F. apply (join_inj c); [apply split_on_nonempty|done|apply split_on_fresh|done|].
  apply join_split_on.
Qed.

Lemma join_split_pat fuel pat s : join pat (split_pat fuel pat s) = s.
Proof.
  revert s. induction fuel as [|fuel IH]; intros s; [done|]. cbn [split_pat].
  destruct (split_once pat s) as [[a b]|] eqn:E; [|done].
  apply split_once_Some in E as ->. specialize (IH b).
  assert (split_pat fuel pat b <> []) as N
    by (destruct fuel; [done|]; cbn; by destruct (split_once pat b) as [[]|]).
  destruct (split_pat fuel pat b) as [|x l] eqn:S; [done|].
  change (join pat (a :: x :: l)) with (a +:+ pat +:+ join pat (x :: l)). by rewrite IH.
Qed.


Lemma split_on_line c a r : no_char c a = true -> split_on c (a +:+ String c r) = a :: split_on c r.
Proof.
  induction a as [|d a IH]; cbn [no_char].
  - intros _. change (EmptyString +:+ ?x) with x. cbn [split_on]. by rewrite Ascii.eqb_refl.
  - rewrite andb_true_iff, negb_true_iff, bool_decide_eq_false. intros [N F].
    change (String d a +:+ ?x) with (String d (a +:+ x)). cbn [split_on].
    destruct (Ascii.eqb_spec d c); [congruence|]. by rewrite (IH F).
Qed.

Lemma split_on_no c a : no_char c a = true -> split_on c a = [a].
Proof.
  induction a as [|d a IH]; [done|]. cbn [no_char split_on].
  rewrite andb_true_iff, negb_true_iff, bool_decide_eq_false. intros [N F].
  destruct (Ascii.eqb_spec d c); [congruence|]. by rewrite (IH F).
Qed.

Lemma split_pat_join c p l fuel :
  l <> [] -> Forall (fun s => no_char c s = true) l -> length l <= S fuel ->
  split_pat fuel (String c p) (join (String c p) l) = l.
Proof.
  revert l. induction fuel as [|fuel IH]; intros [|x l] N F L; try done.
  - destruct l; [done|cbn in L; lia].
  - inversion F as [|? ? Fx F']; subst. destruct l as [|y l].
    + cbn. by rewrite split_once_absent.
    + change (join (String c p) (x :: y :: l)) with (x +:+ String c p +:+ join (String c p) (y :: l)).
      cbn [split_pat]. rewrite split_once_fresh by done. by rewrite IH by (done || (cbn in *; lia)).
Qed.

Lemma length_join_str c p l : length l <= S (String.length (join (String c p) l)).
Proof.
  induction l as [|x l IH]; [cbn; lia|]. destruct l as [|y l]; [cbn; lia|].
  change (join (String c p) (x :: y :: l)) with (x +:+ String c (p +:+ join (String c p) (y :: l))).
  rewrite length_app_str. cbn [String.length length] in *. rewrite length_app_str. lia.
Qed.

Lemma split_str_join c p l : l <> [] -> Forall (fun s => no_char c s = true) l ->
  split_str (String c p) (join (String c p) l) = l.
Proof. intros N F. apply split_pat_join; [done|done|apply length_join_str]. Qed.

Lemma replace_str_join c p new l : l <> [] -> Forall (fun s => no_char c s = true) l ->
  replace_str (String c p) new (join (String c p) l) = join new l.
Proof. intros N F. unfold replace_str. by rewrite split_str_join. Qed.

Lemma replace_str_absent c p new s : no_char c s = true -> replace_str (String c p) new s = s.
Proof. intros F. apply (replace_str_join c p new [s]); [done|by repeat constructor]. Qed.

(** ** Reversal *)

Lemma rev_str_app a b : rev_str (a +:+ b) = rev_str b +:+ rev_str a.
Proof.
  induction a as [|c a IH]; [by rewrite app_empty_r|].
  change (rev_str (a +:+ b) +:+ String c EmptyString = rev_str b +:+ (rev_str a +:+ String c EmptyString)).
  by rewrite IH, app_assoc_str.
Qed.
Lemma rev_str_rev s : rev_str (rev_str s) = s.
Proof. induction s as [|c s IH]; [done|]. cbn [rev_str]. by rewrite rev_str_app, IH. Qed.

Lemma no_char_rev c s : no_char c (rev_str s) = no_char c s.
Proof.
  induction s as [|d s IH]; [done|]. cbn [rev_str]. rewrite no_char_app, IH. cbn.
  by rewrite andb_true_r, andb_comm.
Qed.

Lemma strip_suffix_app p s : strip_suffix p (s +:+ p) = Some s.
Proof. unfold strip_suffix. rewrite rev_str_app, strip_prefix_app. cbn. by rewrite rev_str_rev. Qed.

Lemma rsplit_once_fresh c a b :
  no_char c b = true -> rsplit_once c (a +:+ String c b) = Some (a, b).
Proof.
  intros F. unfold rsplit_once. rewrite rev_str_app. cbn [rev_str].
  rewrite app_assoc_str, split_once_fresh by (by rewrite no_char_rev). cbn. by rewrite !rev_str_rev.
Qed.
