(* ===== verification/BTree.v ===== *)
(** [BTreeMap] as the list of its pairs by strictly ascending key: the [entry] update, its
    lookups, and what a map built by folding updates holds. *)
From S2P Require Import Prelude.

Section btree.
Context {K V : Type} `{EqDecision K} (leb : K -> K -> bool) `{!TotalLeb leb}.

Definition btree := list (K * V).

(** [map.entry(k).or_insert(d)], then updated by [f]. *)
Fixpoint bt_entry (k : K) (d : V) (f : V -> V) (m : btree) : btree :=
  match m with
  | [] => [(k, f d)]
  | (k', v) :: m' =>
      if decide (k = k') then (k, f v) :: m'
      else if leb k k' then (k, f d) :: (k', v) :: m'
      else (k', v) :: bt_entry k d f m'
  end.

Fixpoint bt_get (k : K) (m : btree) : option V :=
  match m with
  | [] => None
  | (k', v) :: m' => if decide (k = k') then Some v else bt_get k m'
  end.

Definition key_lt (a b : K) : Prop := leb a b = true /\ a <> b.
Definition bt_sorted (m : btree) : Prop := StronglySorted key_lt (map fst m).

Lemma bt_get_absent k m : k ∉ map fst m -> bt_get k m = None.
Proof.
  induction m as [|[x v] m IH]; simpl; intros N; [done|].
  apply not_elem_of_cons in N as [N1 N2]. rewrite decide_False by done. auto.
Qed.

Lemma bt_entry_keys k d f m x :
  x ∈ map fst (bt_entry k d f m) <-> x = k \/ x ∈ map fst m.
Proof.
  induction m as [|[y v] m IH]; simpl; [set_solver|].
  case_decide; [subst; set_solver|]. destruct (leb k y); simpl; set_solver.
Qed.

Lemma key_lt_trans a b c : key_lt a b -> key_lt b c -> key_lt a c.
Proof using Type*.
  intros [L1 N1] [L2 N2]. split; [by eapply leb_trans|].
  intros ->. apply N1. by apply leb_antisym.
Qed.

Lemma bt_get_entry k k' d f m :
  bt_sorted m ->
  bt_get k (bt_entry k' d f m) =
  if decide (k = k') then Some (f (default d (bt_get k m))) else bt_get k m.
Proof using Type*.
  unfold bt_sorted. induction m as [|[x v] m IH]; simpl; intros S; [done|].
  apply StronglySorted_inv in S as [S F].
  destruct (decide (k' = x)) as [->|N]; simpl; [by repeat case_decide|].
  destruct (leb k' x) eqn:E; simpl; [|rewrite IH by done; by repeat case_decide; subst].
  destruct (decide (k = k')) as [->|]; [|done]. rewrite decide_False by done.
  rewrite bt_get_absent; [done|]. intros Hin.
  rewrite Forall_forall in F. destruct (F _ Hin) as [L NE].
  apply N. by apply leb_antisym.
Qed.

Lemma bt_entry_sorted k d f m : bt_sorted m -> bt_sorted (bt_entry k d f m).
Proof using Type*.
  unfold bt_sorted. induction m as [|[y v] m IH]; simpl; intros S.
  - repeat constructor.
  - apply StronglySorted_inv in S as [S F].
    case_decide; [subst; by constructor|]. destruct (leb k y) eqn:E; simpl.
    + constructor; [by constructor|]. constructor; [done|].
      eapply Forall_impl; [exact F|]. intros z. by apply key_lt_trans.
    + constructor; [by apply IH|]. apply Forall_forall. intros z.
      rewrite bt_entry_keys. intros [->|Hz].
      * destruct (leb_total k y); [congruence|]. split; [done|congruence].
      * rewrite Forall_forall in F. by apply F.
Qed.

(** A map built by one update per item. *)
Definition bt_fold (d : V) (items : list (K * (V -> V))) : btree :=
  foldl (fun m it => bt_entry it.1 d it.2 m) [] items.

Definition updates_of (k : K) (items : list (K * (V -> V))) : list (V -> V) :=
  map snd (filter (fun it => it.1 = k) items).

Definition apply_updates (d : V) (fs : list (V -> V)) : V := foldl (fun v f => f v) d fs.

Lemma bt_fold_sorted d items : bt_sorted (bt_fold d items).
Proof using Type*.
  unfold bt_fold. induction items as [|it items IH] using rev_ind; [constructor|].
  rewrite foldl_snoc. by apply bt_entry_sorted.
Qed.

Lemma bt_fold_keys d items k : k ∈ map fst (bt_fold d items) <-> k ∈ map fst items.
Proof.
  unfold bt_fold. induction items as [|it items IH] using rev_ind; [done|].
  rewrite foldl_snoc, bt_entry_keys, IH, map_app, elem_of_app. simpl. set_solver.
Qed.

Lemma bt_get_fold d items k :
  default d (bt_get k (bt_fold d items)) = apply_updates d (updates_of k items).
Proof using Type*.
  pose proof (bt_fold_sorted d) as S. unfold bt_fold, updates_of in *.
  induction items as [|it items IH] using rev_ind; [done|].
  rewrite foldl_snoc, bt_get_entry, filter_app, map_app by apply S.
  unfold apply_updates in *. rewrite foldl_app, <- IH, filter_cons, filter_nil.
  repeat case_decide; subst; simpl; congruence.
Qed.

Lemma bt_sorted_get m k v : bt_sorted m -> (k, v) ∈ m -> bt_get k m = Some v.
Proof.
  unfold bt_sorted. induction m as [|[y w] m IH]; simpl; intros S Hin; [set_solver|].
  apply StronglySorted_inv in S as [S F]. apply elem_of_cons in Hin as [[= -> ->]|Hin].
  - by rewrite decide_True.
  - rewrite decide_False; [by apply IH|]. intros <-.
    rewrite Forall_forall in F. destruct (F k) as [_ N]; [|done].
    apply (list_elem_of_fmap_2 fst) in Hin. done.
Qed.

(** The map's contents: the keys in strictly ascending order, each with the fold of its
    updates. *)
Lemma bt_fold_eq d items :
  bt_fold d items =
  map (fun k => (k, apply_updates d (updates_of k items))) (map fst (bt_fold d items)).
Proof using Type*.
  rewrite map_map. pose proof (bt_fold_sorted d items) as S.
  assert (forall kv, kv ∈ bt_fold d items ->
            kv = (kv.1, apply_updates d (updates_of kv.1 items))) as E.
  { intros [k v] Hin. simpl. f_equal.
    by rewrite <- bt_get_fold, (bt_sorted_get _ _ _ S Hin). }
  clear S. induction (bt_fold d items) as [|kv m IH]; simpl; [done|].
  rewrite <- (E kv) by left. f_equal. apply IH. intros kv' Hin. apply E. by right.
Qed.
End btree.
#[global] Arguments btree : clear implicits.

Lemma StronglySorted_map_mono {A B} (R : A -> A -> Prop) (S : B -> B -> Prop) (f : A -> B) l :
  (forall x y, R x y -> S (f x) (f y)) -> StronglySorted R l -> StronglySorted S (map f l).
Proof.
  intros M. induction 1 as [|x l HS IH HF]; simpl; constructor; [done|].
  apply Forall_map. eapply Forall_impl; [exact HF|]. intros y. apply M.
Qed.
