(* ===== verification/Json.v ===== *)
(** JSON values and the [serde] derive: how the protocol's structs and enums are written
    to JSON and read back, with the attributes the source uses ([default],
    [skip_serializing_if], [tag], [rename_all]). The text of a JSON value is [serde_json]'s
    and stays abstract ([to_vec]). *)
From S2P Require Import Prelude.

#[warnings="-register-all"]
Inductive json :=
  | JNull
  | JBool (b : bool)
  | JNum (z : Z)
  | JStr (s : string)
  | JArr (l : list json)
  | JObj (m : list (string * json)).

(** [serde_json::to_vec]: the compact text of a JSON value. [SerdeJsonSpec] states that
    the text determines the value's syntax tree. *)
Class SerdeJson := to_vec : json -> bytes.
Class SerdeJsonSpec `{SerdeJson} : Prop := to_vec_inj :: Inj (=) (=) to_vec.

(** [Serialize] and [Deserialize]: reading back what was written gives the value. No type
    of the protocol is written as [null], which [Option] relies on. *)
Class Serde (A : Type) := {
  ser : A -> json;
  de : json -> option A;
  de_ser : forall a, de (ser a) = Some a;
  ser_nonnull : forall a, ser a <> JNull;
}.
#[global] Hint Mode Serde ! : typeclass_instances.

Lemma ser_inj `{Serde A} (a b : A) : ser a = ser b -> a = b.
Proof. intros E. apply (f_equal (de (A:=A))) in E. rewrite !de_ser in E. congruence. Qed.

(** * Scalars and sequences *)

#[export, refine] Instance bool_serde : Serde bool :=
  {| ser b := JBool b; de j := match j with JBool b => Some b | _ => None end |}.
Proof. all: done. Defined.

#[export, refine] Instance string_serde : Serde string :=
  {| ser s := JStr s; de j := match j with JStr s => Some s | _ => None end |}.
Proof. all: done. Defined.

(** A number outside the width is refused. *)
Definition uint_de (w : N) (j : json) : option (uint w) :=
  match j with
  | JNum z => if ((0 <=? z) && (z <? 2 ^ Z.of_N w))%Z then Some (wrap w (Z.to_N z)) else None
  | _ => None
  end.

Lemma uint_de_ser w (n : uint w) : uint_de w (JNum (Z.of_N (uval n))) = Some n.
Proof.
  unfold uint_de. rewrite N2Z.id, wrap_uval.
  pose proof (uval_bound n) as B. apply N2Z.inj_lt in B. rewrite N2Z.inj_pow in B.
  change (Z.of_N 2) with 2%Z in B.
  rewrite (proj2 (Z.leb_le _ _) (N2Z.is_nonneg _)), (proj2 (Z.ltb_lt _ _) B). done.
Qed.

#[export, refine] Instance uint_serde w : Serde (uint w) :=
  {| ser n := JNum (Z.of_N (uval n)); de := uint_de w; de_ser := uint_de_ser w |}.
Proof. done. Defined.

#[export, refine] Instance i32_serde : Serde i32 :=
  {| ser n := JNum (ival n);
     de j := match j with JNum z => i32_of z | _ => None end;
     de_ser := i32_of_ival |}.
Proof. done. Defined.

Fixpoint de_list `{Serde A} (l : list json) : option (list A) :=
  match l with
  | [] => Some []
  | j :: l => a ← de j; r ← de_list l; Some (a :: r)
  end.

Lemma de_list_ser `{Serde A} (l : list A) : de_list (map ser l) = Some l.
Proof. induction l as [|a l IH]; simpl; [done|]. by rewrite de_ser; simpl; rewrite IH. Qed.

#[export, refine] Instance list_serde `{Serde A} : Serde (list A) :=
  {| ser l := JArr (map ser l);
     de j := match j with JArr l => de_list l | _ => None end;
     de_ser := de_list_ser |}.
Proof. done. Defined.

(** A field-less enum is written as its tag; it is read by looking its tag up among the
    enum's variants. *)
Class Tagged (A : Type) := {
  tag_of : A -> string;
  variants : list A;
  tag_complete : forall a, list_find (fun v => tag_of v = tag_of a) variants ≫= (fun p => Some p.2) = Some a;
}.

Definition of_tag `{Tagged A} (t : string) : option A :=
  list_find (fun v => tag_of v = t) variants ≫= (fun p => Some p.2).

Definition tagged_serde `{Tagged A} : Serde A :=
  {| ser a := JStr (tag_of a);
     de j := match j with JStr t => of_tag t | _ => None end;
     de_ser := tag_complete;
     ser_nonnull := fun _ E => match E with end |}.

(** * Structs

    A struct is a list of keys with the value written for each, absent when the field is
    skipped. *)

Definition fields := list (string * option json).

Fixpoint present (fs : fields) : list (string * json) :=
  match fs with
  | [] => []
  | (k, Some v) :: fs => (k, v) :: present fs
  | (_, None) :: fs => present fs
  end.

Definition obj (fs : fields) : json := JObj (present fs).

Definition fld `{Serde A} (k : string) (a : A) : string * option json := (k, Some (ser a)).
(** [skip_serializing_if = "Option::is_none"] *)
Definition fld_opt `{Serde A} (k : string) (o : option A) : string * option json :=
  (k, ser <$> o).
(** [skip_serializing_if = skip] for another predicate [skip]. *)
Definition fld_skip `{Serde A} (skip : A -> bool) (k : string) (a : A) : string * option json :=
  (k, if skip a then None else Some (ser a)).

(** The predicates the source skips by. *)
Definition is_zero {w} (n : uint w) : bool := bool_decide (n = wrap w 0).
Definition is_empty (s : string) : bool := bool_decide (s = EmptyString).

(** Reading a field: [None] when the key is repeated, which the derive refuses. *)
Fixpoint get (k : string) (m : list (string * json)) : option (option json) :=
  match m with
  | [] => Some None
  | (k', v) :: m' =>
      if decide (k = k') then
        (if decide (k ∈ map fst m') then None else Some (Some v))
      else get k m'
  end.

Definition req `{Serde A} (k : string) (m : list (string * json)) : option A :=
  match get k m with Some (Some v) => de v | _ => None end.
(** [default] with the default value [d]. *)
Definition dflt `{Serde A} (d : A) (k : string) (m : list (string * json)) : option A :=
  match get k m with Some (Some v) => de v | Some None => Some d | None => None end.
(** An [Option] field: absent and [null] are both [None]. *)
Definition opt `{Serde A} (k : string) (m : list (string * json)) : option (option A) :=
  match get k m with
  | Some (Some JNull) | Some None => Some None
  | Some (Some v) => Some <$> de v
  | None => None
  end.

Definition as_obj (j : json) : option (list (string * json)) :=
  match j with JObj m => Some m | _ => None end.

Fixpoint lookup_field (k : string) (fs : fields) : option json :=
  match fs with
  | [] => None
  | (k', o) :: fs => if decide (k = k') then o else lookup_field k fs
  end.

Lemma present_keys k fs : k ∈ map fst (present fs) -> k ∈ map fst fs.
Proof.
  induction fs as [|[k' [v|]] fs IH]; simpl; [done| |]; rewrite ?elem_of_cons; tauto.
Qed.

Lemma get_present_absent k fs : k ∉ map fst fs -> get k (present fs) = Some None.
Proof.
  induction fs as [|[k' o] fs IH]; simpl; intros N; [done|].
  apply not_elem_of_cons in N as [N1 N2].
  destruct o as [v|]; simpl; [rewrite decide_False by done|]; by apply IH.
Qed.

Lemma get_present k fs : NoDup (map fst fs) -> get k (present fs) = Some (lookup_field k fs).
Proof.
  induction fs as [|[k' [v|]] fs IH]; simpl; intros N; [done| |];
    apply NoDup_cons in N as [N1 N2]; destruct (decide (k = k')) as [->|Hne]; simpl; auto.
  - rewrite decide_False; [done|]. intros H%present_keys. done.
  - by apply get_present_absent.
Qed.

(** Field readers on a written struct whose keys are distinct. *)
Section readers.
Context `{Serde A} (k : string) (fs : fields)
  (ND : bool_decide (NoDup (map fst fs)) = true).

Lemma req_present (a : A) : lookup_field k fs = Some (ser a) -> req k (present fs) = Some a.
Proof using ND.
  intros E. unfold req. rewrite get_present by by eapply bool_decide_eq_true.
  by rewrite E, de_ser.
Qed.

Lemma dflt_present (d a : A) skip :
  (skip a = true -> a = d) ->
  lookup_field k fs = (if skip a : bool then None else Some (ser a)) ->
  dflt d k (present fs) = Some a.
Proof using ND.
  intros S E. unfold dflt. rewrite get_present by by eapply bool_decide_eq_true.
  rewrite E. destruct (skip a); [by rewrite S|]. by rewrite de_ser.
Qed.

Lemma opt_present (o : option A) : lookup_field k fs = ser <$> o -> opt k (present fs) = Some o.
Proof using ND.
  intros E. unfold opt. rewrite get_present by by eapply bool_decide_eq_true.
  rewrite E. destruct o as [a|]; simpl; [|done].
  pose proof (ser_nonnull a). destruct (ser a) eqn:Ea; [done|..];
    rewrite <- Ea, de_ser; done.
Qed.
End readers.

(** Proves [de_ser] of a struct: one field reader at a time, then the constructor. *)
Lemma bind_field {A B} (o : option A) (f : A -> option B) a r :
  o = Some a -> f a = r -> o ≫= f = r.
Proof. by intros ->. Qed.

Ltac serde_skip :=
  first
    [ done | by intros ?%bool_decide_eq_true | by intros ?%negb_true_iff
    | match goal with |- _ ?a = true -> _ => by destruct a | |- _ ?a = true -> _ => by destruct a as [[] []] end ].

Ltac serde_field :=
  match goal with
  | |- mbind _ (req ?k (present ?fs)) = _ =>
      refine (bind_field _ _ _ _ (req_present k fs eq_refl _ eq_refl) _)
  | |- mbind _ (opt ?k (present ?fs)) = _ =>
      refine (bind_field _ _ _ _ (opt_present k fs eq_refl _ eq_refl) _)
  | |- mbind _ (dflt ?d ?k (present ?fs)) = _ =>
      match fs with
      | context [ fld_skip ?skip k ?a ] =>
          refine (bind_field _ _ _ _ (dflt_present k fs eq_refl d a skip _ eq_refl) _);
          [serde_skip|]
      | context [ fld k ?a ] =>
          refine (bind_field _ _ _ _
                    (dflt_present k fs eq_refl d a (fun _ => false) _ eq_refl) _); [done|]
      end
  end; cbv beta.

Ltac serde_struct :=
  first
    [ done
    | intros []; unfold obj; cbn -[req dflt opt present wrap]; repeat serde_field; reflexivity ].

(** An internally tagged enum is an object whose [tag] field names the variant; an unknown
    variant is refused. *)
Fixpoint by_tag {A} (t : string) (arms : list (string * option A)) : option A :=
  match arms with
  | [] => None
  | (t', arm) :: arms => if String.eqb t t' then arm else by_tag t arms
  end.

Ltac serde_enum :=
  first
    [ done
    | intros []; unfold obj; cbn -[req dflt opt present wrap by_tag]; serde_field;
      cbn [by_tag String.eqb Ascii.eqb Bool.eqb]; repeat serde_field; reflexivity
    | intros []; done ].

(** * Text *)

(** [serde_json::to_vec] on a serializable value. *)
Definition json_bytes `{SerdeJson} `{Serde A} (a : A) : bytes := to_vec (ser a).

Lemma json_bytes_inj `{SerdeJson} `{!SerdeJsonSpec} `{Serde A} (a b : A) :
  json_bytes a = json_bytes b -> a = b.
Proof. intros E. apply ser_inj, to_vec_inj, E. Qed.
