(* ===== verification/Digest.v ===== *)
(** Content addresses: SHA-256 (the [sha2] crate, abstract), its lowercase-hex rendering,
    little-endian integers, and the linear hash chain that the run tape, the evidence
    ledger and the outcome corpus share. *)
From S2P Require Import Prelude Json.

(** [Sha256::digest]; feeding a hasher piecewise ([update]) and finalizing it digests the
    concatenation of the pieces. *)
Class Sha256 := sha256 : bytes -> bytes.
(** SHA-256 digests are 32 bytes long. *)
Class Sha256Spec `{Sha256} : Prop := sha256_length m : String.length (sha256 m) = 32.

(** No two of the given messages have the same digest. The theorems about tampering are
    stated relative to the messages the computations at hand really hash, since no digest
    of fixed length is injective on all messages. *)
Definition no_collision `{Sha256} (ms : list bytes) : Prop :=
  forall x y, x ∈ ms -> y ∈ ms -> sha256 x = sha256 y -> x = y.

(** * Hexadecimal *)

Definition hex_digit (n : nat) : ascii :=
  Ascii.ascii_of_nat (if n <? 10 then 48 + n else 87 + n).

(** [write!(out, "{byte:02x}")] for each byte. *)
Fixpoint hex (s : bytes) : string :=
  match s with
  | EmptyString => EmptyString
  | String c s =>
      String (hex_digit (Ascii.nat_of_ascii c / 16))
        (String (hex_digit (Ascii.nat_of_ascii c mod 16)) (hex s))
  end.

Definition digest `{Sha256} (m : bytes) : string := hex (sha256 m).

Lemma length_hex s : String.length (hex s) = 2 * String.length s.
Proof. induction s as [|c s IH]; simpl; [done|]. rewrite IH. lia. Qed.

Lemma hex_digit_inj_small : forall a b, a < 16 -> b < 16 -> hex_digit a = hex_digit b -> a = b.
Proof.
  intros a b Ha Hb E. apply (f_equal Ascii.nat_of_ascii) in E. unfold hex_digit in E.
  rewrite !Ascii.nat_ascii_embedding in E;
    repeat case_match; repeat match goal with
      | H : (_ <? _) = true |- _ => apply Nat.ltb_lt in H
      | H : (_ <? _) = false |- _ => apply Nat.ltb_ge in H end; lia.
Qed.

Lemma hex_inj s t : hex s = hex t -> s = t.
Proof.
  revert t; induction s as [|c s IH]; intros [|d t]; simpl; try done.
  intros E. injection E as E1 E2 E.
  pose proof (Ascii.nat_ascii_bounded c). pose proof (Ascii.nat_ascii_bounded d).
  apply hex_digit_inj_small in E1; [|apply Nat.Div0.div_lt_upper_bound; lia..].
  apply hex_digit_inj_small in E2; [|apply Nat.mod_upper_bound; lia..].
  assert (Ascii.nat_of_ascii c = Ascii.nat_of_ascii d) as Ecd.
  { rewrite (Nat.div_mod_eq (Ascii.nat_of_ascii c) 16),
      (Nat.div_mod_eq (Ascii.nat_of_ascii d) 16). congruence. }
  f_equal; [|by apply IH].
  by rewrite <- (Ascii.ascii_nat_embedding c), <- (Ascii.ascii_nat_embedding d), Ecd.
Qed.

Lemma hex_digit_no_nl n : n < 16 -> Ascii.ascii_of_nat 10 <> hex_digit n.
Proof.
  intros Hn E. apply (f_equal Ascii.nat_of_ascii) in E. unfold hex_digit in E.
  rewrite !Ascii.nat_ascii_embedding in E; repeat case_match; lia.
Qed.

Lemma hex_newline_free s : newline_free (hex s) = true.
Proof.
  unfold newline_free. induction s as [|c s IH]; simpl; [done|].
  pose proof (Ascii.nat_ascii_bounded c).
  rewrite !bool_decide_eq_false_2
    by (apply hex_digit_no_nl; first [apply Nat.Div0.div_lt_upper_bound; lia
                                     | apply Nat.mod_upper_bound; lia]).
  done.
Qed.

Section digest.
Context `{Sha256}.

Lemma digest_newline_free m : newline_free (digest m) = true.
Proof. apply hex_newline_free. Qed.

Lemma length_digest `{!Sha256Spec} m : String.length (digest m) = 64.
Proof. unfold digest. by rewrite length_hex, sha256_length. Qed.

Lemma digest_nonempty `{!Sha256Spec} m : digest m <> EmptyString.
Proof. intros E. pose proof (length_digest m) as L. by rewrite E in L. Qed.

Lemma digest_inj_on ms x y :
  no_collision ms -> x ∈ ms -> y ∈ ms -> digest x = digest y -> x = y.
Proof. intros NC Hx Hy E%hex_inj. by apply NC. Qed.

Lemma no_collision_mono ms ms' : ms' ⊆ ms -> no_collision ms -> no_collision ms'.
Proof. intros S NC x y Hx Hy. apply NC; by apply S. Qed.
End digest.

(** Digests of written values, taken one by one, determine the values. *)
Lemma map_digest_inj `{SerdeJson, !SerdeJsonSpec, Sha256, Serde A} ms (l l' : list A) :
  no_collision ms -> map json_bytes l ⊆ ms -> map json_bytes l' ⊆ ms ->
  map (fun a => digest (json_bytes a)) l = map (fun a => digest (json_bytes a)) l' -> l = l'.
Proof.
  intros NC. revert l'; induction l as [|a l IH]; intros [|b l'] S S' E; simpl in *; try done.
  injection E as Ea E.
  apply (digest_inj_on ms) in Ea; [|done|apply S; by left|apply S'; by left].
  apply json_bytes_inj in Ea as ->. f_equal.
  apply IH; [..|done]; intros x Hx; [apply S|apply S']; by right.
Qed.

(** * [u64::to_le_bytes] *)

Fixpoint le_bytes (n : nat) (v : N) : bytes :=
  match n with
  | 0 => EmptyString
  | S n => String (Ascii.ascii_of_N (v mod 256)) (le_bytes n (v / 256))
  end.

Definition to_le_bytes (v : u64) : bytes := le_bytes 8 (uval v).
#[global] Arguments to_le_bytes : simpl never.

Lemma length_le_bytes n v : String.length (le_bytes n v) = n.
Proof. revert v; induction n as [|n IH]; intros v; simpl; [done|by rewrite IH]. Qed.

Lemma le_bytes_inj n v w :
  (v < 256 ^ N.of_nat n)%N -> (w < 256 ^ N.of_nat n)%N -> le_bytes n v = le_bytes n w -> v = w.
Proof.
  revert v w; induction n as [|n IH]; intros v w Hv Hw E.
  - change (256 ^ N.of_nat 0)%N with 1%N in *. lia.
  - rewrite Nat2N.inj_succ, N.pow_succ_r' in Hv, Hw. simpl in E. injection E as E1 E2.
    apply IH in E2; [|apply N.Div0.div_lt_upper_bound; lia..].
    apply (f_equal Ascii.N_of_ascii) in E1.
    rewrite !Ascii.N_ascii_embedding in E1 by (apply N.mod_lt; done).
    rewrite (N.div_mod v 256), (N.div_mod w 256) by done. congruence.
Qed.

Lemma to_le_bytes_inj v w : to_le_bytes v = to_le_bytes w -> v = w.
Proof.
  intros E. apply uint_eq. pose proof (uval_bound v). pose proof (uval_bound w).
  by apply le_bytes_inj in E.
Qed.

(** * Linear hash chains

    [chained[n] = sha256(chained[n-1] || id[n])] with [chained[-1] = ""]. *)
Section chain.
Context `{Sha256}.

Definition chain (prev_hash identity : string) : string := digest (prev_hash +:+ identity).

Definition chain_head (prev : string) (ids : list string) : string := foldl chain prev ids.

(** The messages hashed while chaining [ids] onto [prev]. *)
Fixpoint chain_messages (prev : string) (ids : list string) : list bytes :=
  match ids with
  | [] => []
  | x :: ids => (prev +:+ x) :: chain_messages (chain prev x) ids
  end.

Lemma chain_head_snoc prev ids x : chain_head prev (ids ++ [x]) = chain (chain_head prev ids) x.
Proof. unfold chain_head. by rewrite foldl_snoc. Qed.

Lemma chain_messages_app prev ids ids' :
  chain_messages prev (ids ++ ids') =
  chain_messages prev ids ++ chain_messages (chain_head prev ids) ids'.
Proof.
  revert prev; induction ids as [|x ids IH]; intros prev; simpl; [done|]. by rewrite IH.
Qed.

(** One link determines both what it chains from and what it adds. *)
Lemma chain_inj ms p x q y :
  no_collision ms -> p +:+ x ∈ ms -> q +:+ y ∈ ms ->
  String.length x = String.length y -> chain p x = chain q y -> p = q /\ x = y.
Proof.
  intros NC Hp Hq L E. apply (digest_inj_on ms) in E; [|done..].
  by apply app_inj_length_r.
Qed.

(** The head commits to the whole sequence: two sequences of digests with the same head
    are equal, unless hashing them exhibits a collision. *)
Lemma chain_head_inj `{!Sha256Spec} ids ids' :
  Forall (fun x => String.length x = 64) ids ->
  Forall (fun x => String.length x = 64) ids' ->
  no_collision (chain_messages EmptyString ids ++ chain_messages EmptyString ids') ->
  chain_head EmptyString ids = chain_head EmptyString ids' -> ids = ids'.
Proof.
  revert ids'; induction ids as [|x ids IH] using rev_ind; intros ids' F F' NC E.
  - destruct ids' as [|y ids' _] using rev_ind; [done|].
    rewrite chain_head_snoc in E. symmetry in E. by apply digest_nonempty in E.
  - destruct ids' as [|y ids' _] using rev_ind.
    + rewrite chain_head_snoc in E. by apply digest_nonempty in E.
    + rewrite !chain_head_snoc in E. rewrite !chain_messages_app in NC. simpl in NC.
      apply Forall_app in F as [F Fx], F' as [F' Fy].
      rewrite Forall_singleton in Fx, Fy.
      assert (String.length x = String.length y) as L by congruence.
      pose proof (fun Hp Hq => chain_inj _ _ _ _ _ NC Hp Hq L E) as [E' ->];
        [set_solver..|].
      f_equal. apply IH; [done..| |done].
      eapply no_collision_mono, NC. set_solver.
Qed.
End chain.
