(* ===== verification/Reference.v ===== *)
(** Concrete instances of the two abstract libraries, a self-delimiting JSON text and a
    32-byte mixing hash, on which the theorems' hypotheses are shown to hold. *)
From S2P Require Import Prelude Json Digest.

(** * A JSON text *)

Fixpoint enc_string (s : string) : bytes :=
  match s with
  | EmptyString => ";"
  | String (Ascii b0 b1 b2 b3 b4 b5 b6 b7) s =>
      String (Ascii b0 b1 b2 b3 false true true false)
        (String (Ascii b4 b5 b6 b7 false true true false) (enc_string s))
  end.

Fixpoint enc_pos (p : positive) : bytes :=
  match p with
  | xI p => String "1" (enc_pos p)
  | xO p => String "0" (enc_pos p)
  | xH => ";"
  end.

Definition enc_Z (z : Z) : bytes :=
  match z with
  | Z0 => "z"
  | Zpos p => String "p" (enc_pos p)
  | Zneg p => String "m" (enc_pos p)
  end.

Fixpoint enc_json (j : json) : bytes :=
  match j with
  | JNull => "n"
  | JBool b => if b then "t" else "f"
  | JNum z => String "i" (enc_Z z)
  | JStr s => String "s" (enc_string s)
  | JArr l => String "[" (concat_str (map enc_json l) +:+ "]")
  | JObj m => String "{" (concat_str (map (fun '(k, v) => String "," (enc_string k +:+ enc_json v)) m)
                          +:+ "}")
  end.

Lemma enc_string_prefix s s' x y : enc_string s +:+ x = enc_string s' +:+ y -> s = s' /\ x = y.
Proof.
  revert s'; induction s as [|[] s IH]; intros [|[] s'] E; simpl in E; try by injection E.
  injection E; intros E'; intros; subst. by destruct (IH _ E') as [-> ->].
Qed.

Lemma enc_pos_prefix p q x y : enc_pos p +:+ x = enc_pos q +:+ y -> p = q /\ x = y.
Proof.
  revert q; induction p as [p IH|p IH|]; intros [q|q|] E; simpl in E; injection E as E;
    try discriminate E; try (destruct (IH _ E) as [-> ->]); done.
Qed.

Lemma enc_Z_prefix z w x y : enc_Z z +:+ x = enc_Z w +:+ y -> z = w /\ x = y.
Proof.
  destruct z, w; simpl; intros E; try by injection E.
  all: by injection E as [-> ->]%enc_pos_prefix.
Qed.

(** Induction over JSON values with the nested lists' hypotheses. *)
Section json_ind.
Context (P : json -> Prop).
Context (Hnull : P JNull) (Hbool : forall b, P (JBool b)) (Hnum : forall z, P (JNum z))
  (Hstr : forall s, P (JStr s)) (Harr : forall l, Forall P l -> P (JArr l))
  (Hobj : forall m, Forall (fun kv => P kv.2) m -> P (JObj m)).

Fixpoint json_nested_ind (j : json) : P j :=
  match j with
  | JNull => Hnull
  | JBool b => Hbool b
  | JNum z => Hnum z
  | JStr s => Hstr s
  | JArr l => Harr l ((fix go (l : list json) : Forall P l :=
      match l with
      | [] => Forall_nil_2 P
      | j :: l => Forall_cons_2 P j l (json_nested_ind j) (go l)
      end) l)
  | JObj m => Hobj m ((fix go (m : list (string * json)) : Forall (fun kv => P kv.2) m :=
      match m with
      | [] => Forall_nil_2 _
      | kv :: m => Forall_cons_2 _ kv m (json_nested_ind kv.2) (go m)
      end) m)
  end.
End json_ind.

Lemma enc_json_head j : exists c s, enc_json j = String c s /\ c <> "]"%char /\ c <> "}"%char.
Proof. destruct j as [|[]| | | |]; simpl; repeat esplit; done. Qed.

Lemma enc_json_prefix a b x y : enc_json a +:+ x = enc_json b +:+ y -> a = b /\ x = y.
Proof.
  revert b x y. induction a as [|b|z|s|l IH|m IH] using json_nested_ind;
    intros j x y E; try (destruct j as [|[]|z'|s'|l'|m']; try destruct b; simpl in E;
                         discriminate E || (by injection E)).
  - destruct j as [|[]|z'|s'|l'|m']; simpl in E; try discriminate E.
    by injection E as [-> ->]%enc_Z_prefix.
  - destruct j as [|[]|z'|s'|l'|m']; simpl in E; try discriminate E.
    by injection E as [-> ->]%enc_string_prefix.
  - destruct j as [|[]|z'|s'|l'|m']; simpl in E; try discriminate E.
    injection E as E. assert (l = l' /\ x = y) as [-> ->]; [|done].
    rewrite !app_assoc_str in E. revert l' E.
    induction IH as [|a l Ha _ IHl]; intros [|b l'] E; simpl in E.
    + by injection E.
    + destruct (enc_json_head b) as (c & s & Eb & Hc & _). rewrite Eb in E. simpl in E.
      injection E as E _. by subst c.
    + destruct (enc_json_head a) as (c & s & Ea & Hc & _). rewrite Ea in E. simpl in E.
      injection E as E _. by subst c.
    + rewrite !app_assoc_str in E. apply Ha in E as [-> E]. by destruct (IHl _ E) as [-> ->].
  - destruct j as [|[]|z'|s'|l'|m']; simpl in E; try discriminate E.
    injection E as E. assert (m = m' /\ x = y) as [-> ->]; [|done].
    rewrite !app_assoc_str in E. revert m' E.
    induction IH as [|[k a] m Ha _ IHm]; intros [|[k' b] m'] E; simpl in E; try by injection E.
    injection E as E. rewrite !app_assoc_str in E.
    apply enc_string_prefix in E as [-> E]. simpl in Ha. apply Ha in E as [-> E].
    by destruct (IHm _ E) as [-> ->].
Qed.

#[export] Instance ref_json : SerdeJson := enc_json.
#[export] Instance ref_json_spec : SerdeJsonSpec.
Proof.
  intros a b E. apply (enc_json_prefix a b EmptyString EmptyString). by rewrite !app_empty_r.
Qed.

(** * A hash *)

Fixpoint mix (h : N) (s : bytes) : N :=
  match s with
  | EmptyString => h
  | String c s => mix (N.land (N.lxor h (Ascii.N_of_ascii c) * 1099511628211) 18446744073709551615) s
  end.

#[export] Instance ref_sha256 : Sha256 := fun m => le_bytes 32 (mix 14695981039346656037 m).
#[export] Instance ref_sha256_spec : Sha256Spec.
Proof. intros m. apply length_le_bytes. Qed.

(** A decision procedure for [no_collision]. *)
Definition no_collisionb `{Sha256} (ms : list bytes) : bool :=
  let ds := map (fun m => (m, sha256 m)) ms in
  forallb (fun '(m, d) => forallb (fun '(m', d') => negb (String.eqb d d') || String.eqb m m') ds) ds.

Lemma no_collisionb_sound `{Sha256} ms : no_collisionb ms = true -> no_collision ms.
Proof.
  unfold no_collisionb. rewrite forallb_forall. intros H' x y Hx Hy E.
  assert (forall m, m ∈ ms -> In (m, sha256 m) (map (fun m => (m, sha256 m)) ms)) as Hin.
  { intros m Hm. apply in_map_iff. exists m. by rewrite <- list_elem_of_In. }
  pose proof (H' _ (Hin _ Hx)) as H2. simpl in H2. rewrite forallb_forall in H2.
  specialize (H2 _ (Hin _ Hy)). simpl in H2. rewrite E, String.eqb_refl in H2.
  by apply String.eqb_eq.
Qed.

(** Discharges [no_collision] of concrete messages under the reference hash. *)
Ltac no_collision_tac := apply no_collisionb_sound; vm_compute; reflexivity.
