(* ===== verification/Verdicts.v ===== *)
(** L2, the execution-grounded verdict ([nerve-proto/src/verdict.rs],
    [nerve-core/src/verdict.rs]): the results of re-running the org's own checks, their
    aggregation under a mask of required checks, and the verdict's content address. *)
From S2P Require Import Prelude Json Digest Reference.

Definition VERDICT_SCHEMA_VERSION : u32 := wrap 32 1.

(** * The vocabulary *)

Module CheckKind.
Inductive t := Test | Typecheck | Build | Lint | Property | Mutation | Contamination.
#[export] Instance eq_dec : EqDecision t.
Proof. solve_decision. Defined.
#[export, refine] Instance tagged : Tagged t := {|
  tag_of k := match k with
    | Test => "test" | Typecheck => "typecheck" | Build => "build" | Lint => "lint"
    | Property => "property" | Mutation => "mutation" | Contamination => "contamination" end;
  variants := [Test; Typecheck; Build; Lint; Property; Mutation; Contamination] |}.
Proof. by intros []. Defined.
#[export] Instance serde : Serde t := tagged_serde.
End CheckKind.

Module CheckStatus.
Inductive t := Pass | Fail | Flaky | Error.
#[export] Instance eq_dec : EqDecision t.
Proof. solve_decision. Defined.
#[export, refine] Instance tagged : Tagged t := {|
  tag_of s := match s with
    | Pass => "pass" | Fail => "fail" | Flaky => "flaky" | Error => "error" end;
  variants := [Pass; Fail; Flaky; Error] |}.
Proof. by intros []. Defined.
#[export] Instance serde : Serde t := tagged_serde.
End CheckStatus.

Module VerdictStatus.
Inductive t := Passed | Failed | Inconclusive | Error.
#[export] Instance eq_dec : EqDecision t.
Proof. solve_decision. Defined.
#[export, refine] Instance tagged : Tagged t := {|
  tag_of s := match s with
    | Passed => "passed" | Failed => "failed"
    | Inconclusive => "inconclusive" | Error => "error" end;
  variants := [Passed; Failed; Inconclusive; Error] |}.
Proof. by intros []. Defined.
#[export] Instance serde : Serde t := tagged_serde.
End VerdictStatus.
Export (hints) CheckKind CheckStatus VerdictStatus.

Module CheckResult.
Record t := Mk {
  name : string;
  kind : CheckKind.t;
  status : CheckStatus.t;
  reproducible : bool;
  exit_code : option i32;
  timed_out : bool;
  duration_ms : u64;
  output_hash : string;
  runs : u32;
  passed : u32;
}.

#[export, refine] Instance serde : Serde t := {|
  ser c := obj
    [fld "name" c.(name); fld "kind" c.(kind); fld "status" c.(status);
     fld "reproducible" c.(reproducible); fld_opt "exit_code" c.(exit_code);
     fld_skip negb "timed_out" c.(timed_out);
     fld_skip is_zero "duration_ms" c.(duration_ms);
     fld_skip is_empty "output_hash" c.(output_hash);
     fld_skip is_zero "runs" c.(runs); fld_skip is_zero "passed" c.(passed)];
  de j :=
    m ← as_obj j;
    name ← req "name" m; kind ← req "kind" m; status ← req "status" m;
    reproducible ← req "reproducible" m; exit_code ← opt "exit_code" m;
    timed_out ← dflt false "timed_out" m; duration_ms ← dflt (wrap 64 0) "duration_ms" m;
    output_hash ← dflt EmptyString "output_hash" m;
    runs ← dflt (wrap 32 0) "runs" m; passed ← dflt (wrap 32 0) "passed" m;
    Some (Mk name kind status reproducible exit_code timed_out duration_ms output_hash
            runs passed) |}.
Proof. all: serde_struct. Defined.

#[export] Instance eq_dec : EqDecision t.
Proof. solve_decision. Defined.
End CheckResult.
Export (hints) CheckResult.

Module Verdict.
Record t := Mk {
  schema_version : u32;
  verdict_id : string;
  run_id : string;
  diff_hash : option string;
  status : VerdictStatus.t;
  checkspec_hash : string;
  closure_digest : string;
  checks : list CheckResult.t;
  verified_at_ms : u64;
  verdict_hash : string;
}.

#[export, refine] Instance serde : Serde t := {|
  ser v := obj
    [fld "schema_version" v.(schema_version); fld "verdict_id" v.(verdict_id);
     fld "run_id" v.(run_id); fld_opt "diff_hash" v.(diff_hash); fld "status" v.(status);
     fld "checkspec_hash" v.(checkspec_hash);
     fld_skip is_empty "closure_digest" v.(closure_digest);
     fld "checks" v.(checks); fld_skip is_zero "verified_at_ms" v.(verified_at_ms);
     fld_skip is_empty "verdict_hash" v.(verdict_hash)];
  de j :=
    m ← as_obj j;
    schema_version ← req "schema_version" m; verdict_id ← req "verdict_id" m;
    run_id ← req "run_id" m; diff_hash ← opt "diff_hash" m; status ← req "status" m;
    checkspec_hash ← req "checkspec_hash" m;
    closure_digest ← dflt EmptyString "closure_digest" m;
    checks ← req "checks" m; verified_at_ms ← dflt (wrap 64 0) "verified_at_ms" m;
    verdict_hash ← dflt EmptyString "verdict_hash" m;
    Some (Mk schema_version verdict_id run_id diff_hash status checkspec_hash closure_digest
            checks verified_at_ms verdict_hash) |}.
Proof. all: serde_struct. Defined.
End Verdict.
Export (hints) Verdict.

(** * Aggregation *)

(** The loop's four flags. *)
Record saw := Saw
  { any_required : bool; saw_error : bool; saw_fail : bool; saw_flaky : bool }.

Definition aggregate_step (required : list bool) (f : saw) (ic : nat * CheckResult.t) : saw :=
  let '(i, check) := ic in
  if negb (default false (required !! i)) then f
  else match check.(CheckResult.status) with
       | CheckStatus.Error => Saw true true f.(saw_fail) f.(saw_flaky)
       | CheckStatus.Fail => Saw true f.(saw_error) true f.(saw_flaky)
       | CheckStatus.Flaky => Saw true f.(saw_error) f.(saw_fail) true
       | CheckStatus.Pass => Saw true f.(saw_error) f.(saw_fail) f.(saw_flaky)
       end.

Definition aggregate_status (checks : list CheckResult.t) (required : list bool)
  : VerdictStatus.t :=
  let f := foldl (aggregate_step required) (Saw false false false false) (imap pair checks) in
  if negb f.(any_required) then VerdictStatus.Inconclusive
  else if f.(saw_error) then VerdictStatus.Error
  else if f.(saw_fail) then VerdictStatus.Failed
  else if f.(saw_flaky) then VerdictStatus.Inconclusive
  else VerdictStatus.Passed.

(** * Content address and sealing *)

Section seal.
Context `{SerdeJson, Sha256}.

Definition hash_check (check : CheckResult.t) : string := digest (json_bytes check).

(** The bytes fed to the hasher, in order. *)
Definition verdict_preimage (run_id : string) (diff_hash : option string)
    (checkspec_hash closure_digest : string) (checks : list CheckResult.t) : bytes :=
  concat_str
    ([run_id; nl; default EmptyString diff_hash; nl; checkspec_hash; nl; closure_digest]
     ++ (checks ≫= (fun check => [nl; hash_check check]))).

Definition verdict_content_id (run_id : string) (diff_hash : option string)
    (checkspec_hash closure_digest : string) (checks : list CheckResult.t) : string :=
  digest (verdict_preimage run_id diff_hash checkspec_hash closure_digest checks).

Definition build_verdict (run_id : string) (diff_hash : option string)
    (checkspec_hash closure_digest : string) (checks : list CheckResult.t)
    (required : list bool) (verified_at_ms : u64) : Verdict.t :=
  let status := aggregate_status checks required in
  let content_id :=
    verdict_content_id run_id diff_hash checkspec_hash closure_digest checks in
  Verdict.Mk VERDICT_SCHEMA_VERSION content_id run_id diff_hash status checkspec_hash
    closure_digest checks verified_at_ms content_id.

Definition hash_checkspec (spec_json : json) : string := digest (to_vec spec_json).

(** The messages a verdict's content address hashes. *)
Definition verdict_messages (run_id : string) (diff_hash : option string)
    (checkspec_hash closure_digest : string) (checks : list CheckResult.t) : list bytes :=
  verdict_preimage run_id diff_hash checkspec_hash closure_digest checks
  :: map json_bytes checks.
End seal.

(** * Properties *)

(** A required check with the given status. *)
Definition required_with (checks : list CheckResult.t) (required : list bool)
    (s : CheckStatus.t) : Prop :=
  exists i c, checks !! i = Some c /\ required !! i = Some true /\ c.(CheckResult.status) = s.

Lemma required_with_snoc checks c required s :
  required_with (checks ++ [c]) required s <->
  required_with checks required s \/
  (required !! length checks = Some true /\ c.(CheckResult.status) = s).
Proof.
  unfold required_with. split.
  - intros (i & d & Hi & Hr & Hs). apply lookup_app_Some in Hi as [Hi|[Hl Hi]].
    + left. by exists i, d.
    + apply list_lookup_singleton_Some in Hi as [Hz <-]. right.
      by replace (length checks) with i by lia.
  - intros [(i & d & Hi & Hr & Hs)|[Hr Hs]].
    + exists i, d. split; [by apply lookup_app_l_Some|done].
    + exists (length checks), c. by rewrite list_lookup_middle.
Qed.

(** What the loop's flags record. *)
Lemma aggregate_loop_spec checks required :
  let f := foldl (aggregate_step required) (Saw false false false false) (imap pair checks) in
  (f.(any_required) = true <-> exists s, required_with checks required s) /\
  (f.(saw_error) = true <-> required_with checks required CheckStatus.Error) /\
  (f.(saw_fail) = true <-> required_with checks required CheckStatus.Fail) /\
  (f.(saw_flaky) = true <-> required_with checks required CheckStatus.Flaky).
Proof.
  induction checks as [|c checks IH] using rev_ind; cbn zeta.
  - assert (forall s, ~ required_with [] required s) as N by (by intros s (? & ? & ? & _)).
    simpl. repeat split; try done; intros H; [destruct H as [s H]|..]; by apply N in H.
  - rewrite imap_app, foldl_app. simpl. rewrite Nat.add_0_r.
    setoid_rewrite required_with_snoc.
    destruct IH as (IHa & IHe & IHf & IHk).
    set (f := foldl _ _ (imap pair checks)) in *. clearbody f.
    unfold aggregate_step. destruct (required !! length checks) as [[]|]; simpl;
      [destruct (c.(CheckResult.status)); simpl|..];
      rewrite ?IHa, ?IHe, ?IHf, ?IHk; naive_solver.
Qed.

(** [Error] dominates [Failed], which dominates [Inconclusive]; a verdict is [Passed]
    exactly when some check is required and every required one passed, and an advisory
    check (or one past the end of a short mask) never counts. *)
Theorem aggregate_status_spec checks required :
  let P := required_with checks required in
  (aggregate_status checks required = VerdictStatus.Error <-> P CheckStatus.Error) /\
  (aggregate_status checks required = VerdictStatus.Failed <->
     P CheckStatus.Fail /\ ~ P CheckStatus.Error) /\
  (aggregate_status checks required = VerdictStatus.Passed <->
     (exists s, P s) /\ forall s, P s -> s = CheckStatus.Pass) /\
  (aggregate_status checks required = VerdictStatus.Inconclusive <->
     ~ P CheckStatus.Error /\ ~ P CheckStatus.Fail /\
     ((forall s, ~ P s) \/ P CheckStatus.Flaky)).
Proof.
  pose proof (aggregate_loop_spec checks required) as (Ha & He & Hf & Hk).
  cbn zeta in *. unfold aggregate_status.
  set (f := foldl _ _ (imap pair checks)) in *. clearbody f.
  destruct f as [a e f k]; cbn [any_required saw_error saw_fail saw_flaky] in *.
  assert ((forall s, ~ required_with checks required s) <-> a <> true) as Hn by firstorder.
  assert ((forall s, required_with checks required s -> s = CheckStatus.Pass) <->
          e <> true /\ f <> true /\ k <> true) as Hp.
  { rewrite He, Hf, Hk. split.
    - intros H. repeat split; intros HP; by apply H in HP.
    - intros (He' & Hf' & Hk') []; tauto. }
  assert (e = true -> a = true) by (rewrite He, Ha; eauto).
  assert (f = true -> a = true) by (rewrite Hf, Ha; eauto).
  assert (k = true -> a = true) by (rewrite Hk, Ha; eauto).
  rewrite Hn, Hp, <- Ha, <- He, <- Hf, <- Hk. clear Hn Hp Ha He Hf Hk.
  destruct a, e, f, k; simpl in *; intuition congruence.
Qed.

Section content_id.
Context `{SerdeJson, !SerdeJsonSpec, Sha256}.

(** The pre-image is the newline-separated list of the fields and the check digests. *)
Lemma verdict_preimage_join run_id diff_hash checkspec_hash closure_digest checks :
  verdict_preimage run_id diff_hash checkspec_hash closure_digest checks =
  join nl (run_id :: default EmptyString diff_hash :: checkspec_hash :: closure_digest
           :: map hash_check checks).
Proof.
  rewrite join_cons. unfold verdict_preimage.
  assert ((checks ≫= (fun check => [nl; hash_check check])) =
          (map hash_check checks ≫= (fun x => [nl; x]))) as ->; [|done].
  induction checks as [|c checks IH]; csimpl; [done|]. by rewrite IH.
Qed.

Lemma verdict_content_id_inj r d s c checks r' d' s' c' checks' :
  no_collision (verdict_messages r d s c checks ++ verdict_messages r' d' s' c' checks') ->
  Forall (fun x => newline_free x = true)
    [r; default EmptyString d; s; c; r'; default EmptyString d'; s'; c'] ->
  verdict_content_id r d s c checks = verdict_content_id r' d' s' c' checks' ->
  r = r' /\ default EmptyString d = default EmptyString d' /\ s = s' /\ c = c' /\ checks = checks'.
Proof using Type*.
  intros NC F E.
  apply (digest_inj_on _ _ _ NC) in E;
    [|apply elem_of_app; left; by left|apply elem_of_app; right; by left].
  rewrite !verdict_preimage_join in E.
  rewrite !Forall_cons in F. destruct F as (? & ? & ? & ? & ? & ? & ? & ? & _).
  assert (forall l, Forall (fun x => newline_free x = true) (map hash_check l)) as Fd.
  { intros l. apply Forall_map, Forall_forall. intros ? _. apply digest_newline_free. }
  apply join_inj in E; [|done|done|by repeat constructor|by repeat constructor].
  injection E as -> Ed -> -> Ec. repeat split; [done|].
  eapply map_digest_inj; [exact NC|..|exact Ec]; unfold verdict_messages;
    intros x Hx; rewrite elem_of_app, !elem_of_cons; tauto.
Qed.
End content_id.

(** A sealed verdict's id commits to the run, the diff (an absent diff counting as the
    empty one), the checkspec, the closure and every check: when none of the four header
    fields contains a newline, two sealed verdicts with the same id agree on all of them,
    unless sealing them exhibits a SHA-256 collision. The timestamp and the mask of
    required checks may differ. *)
Theorem build_verdict_binds `{SerdeJson, !SerdeJsonSpec, Sha256}
    r d s c checks req t r' d' s' c' checks' req' t'
    (NC : no_collision (verdict_messages r d s c checks ++ verdict_messages r' d' s' c' checks'))
    (NF : Forall (fun x => newline_free x = true)
            [r; default EmptyString d; s; c; r'; default EmptyString d'; s'; c'])
    (E : (build_verdict r d s c checks req t).(Verdict.verdict_id) =
         (build_verdict r' d' s' c' checks' req' t').(Verdict.verdict_id)) :
  r = r' /\ default EmptyString d = default EmptyString d' /\ s = s' /\ c = c' /\
  checks = checks'.
Proof. by eapply verdict_content_id_inj. Qed.

Definition sample_check (name : string) (status : CheckStatus.t) : CheckResult.t :=
  CheckResult.Mk name CheckKind.Test status true (Some (MkI32 0 eq_refl)) false (wrap 64 12)
    "ab12" (wrap 32 1) (wrap 32 1).

Lemma build_verdict_binds_witness :
  let cs := [sample_check "unit" CheckStatus.Pass; sample_check "lint" CheckStatus.Fail] in
  "run-1" = "run-1" /\ default EmptyString (Some EmptyString) = default EmptyString None /\
  "spec" = "spec" /\ "closure" = "closure" /\ cs = cs.
Proof.
  intros cs.
  apply (build_verdict_binds "run-1" (Some EmptyString) "spec" "closure" cs [true] (wrap 64 1)
           "run-1" None "spec" "closure" cs [true; true] (wrap 64 2)).
  - no_collision_tac.
  - by repeat constructor.
  - vm_compute. reflexivity.
Defined.

(** Without that restriction the newline separators are ambiguous: whatever the hash
    and the JSON text, two verdicts about different runs share one content id. *)
Theorem verdict_content_id_ambiguous `{SerdeJson, Sha256} s c checks :
  exists r d r' d',
    r <> r' /\ d <> d' /\
    verdict_content_id r (Some d) s c checks = verdict_content_id r' (Some d') s c checks.
Proof.
  exists ("a" +:+ nl +:+ "b"), "c", "a", ("b" +:+ nl +:+ "c").
  split; [done|]. split; [done|]. unfold verdict_content_id, verdict_preimage.
  f_equal.
Qed.

(** The verdict's hash does not commit to its status: sealing the same failing check
    as required and as advisory gives two verdicts of different status and equal hash. *)
Theorem build_verdict_hash_omits_status `{SerdeJson, Sha256} r d s c t :
  let checks := [sample_check "unit" CheckStatus.Pass; sample_check "lint" CheckStatus.Fail] in
  let strict := build_verdict r d s c checks [true; true] t in
  let lax := build_verdict r d s c checks [true] t in
  strict.(Verdict.status) = VerdictStatus.Failed /\
  lax.(Verdict.status) = VerdictStatus.Passed /\
  strict.(Verdict.verdict_hash) = lax.(Verdict.verdict_hash).
Proof. by repeat split. Qed.
