(* ===== verification/Provenance.v ===== *)
(** L0, the run-capture tape ([nerve-proto/src/provenance.rs],
    [nerve-core/src/provenance.rs]): typed events, their content-addressed spine, and the
    sealed run. *)
From S2P Require Import Prelude Json Digest Reference.

Definition RUN_SCHEMA_VERSION : u32 := wrap 32 2.

(** * The vocabulary *)

Module Attestation.
Inductive t := Full | Partial.
#[export] Instance eq_dec : EqDecision t.
Proof. solve_decision. Defined.
#[export, refine] Instance tagged : Tagged t := {|
  tag_of a := match a with Full => "full" | Partial => "partial" end;
  variants := [Full; Partial] |}.
Proof. by intros []. Defined.
#[export] Instance serde : Serde t := tagged_serde.
End Attestation.

Module IsolationTier.
Inductive t := Unconfined | BestEffort | Contained | Hermetic.
#[export] Instance eq_dec : EqDecision t.
Proof. solve_decision. Defined.
#[export, refine] Instance tagged : Tagged t := {|
  tag_of k := match k with
    | Unconfined => "unconfined" | BestEffort => "best_effort"
    | Contained => "contained" | Hermetic => "hermetic" end;
  variants := [Unconfined; BestEffort; Contained; Hermetic] |}.
Proof. by intros []. Defined.
#[export] Instance serde : Serde t := tagged_serde.

(** The derived order: the variants in declaration order. *)
Definition rank (k : t) : nat :=
  match k with Unconfined => 0 | BestEffort => 1 | Contained => 2 | Hermetic => 3 end.
Definition le (a b : t) : bool := rank a <=? rank b.
End IsolationTier.
Export (hints) Attestation IsolationTier.

Definition is_full_attestation (a : Attestation.t) : bool :=
  bool_decide (a = Attestation.Full).
Definition is_contained (k : IsolationTier.t) : bool :=
  bool_decide (k = IsolationTier.Contained).

Module RunInputs.
Record t := Mk {
  repo_snapshot_hash : string;
  toolchain_digest : string;
  image_digest : option string;
  isolation_tier : IsolationTier.t;
}.
Definition default : t := Mk EmptyString EmptyString None IsolationTier.Contained.

#[export, refine] Instance serde : Serde t := {|
  ser r := obj
    [fld_skip is_empty "repo_snapshot_hash" r.(repo_snapshot_hash);
     fld_skip is_empty "toolchain_digest" r.(toolchain_digest);
     fld_opt "image_digest" r.(image_digest);
     fld_skip is_contained "isolation_tier" r.(isolation_tier)];
  de j :=
    m ← as_obj j;
    repo_snapshot_hash ← dflt EmptyString "repo_snapshot_hash" m;
    toolchain_digest ← dflt EmptyString "toolchain_digest" m;
    image_digest ← opt "image_digest" m;
    isolation_tier ← dflt IsolationTier.Contained "isolation_tier" m;
    Some (Mk repo_snapshot_hash toolchain_digest image_digest isolation_tier) |}.
Proof. all: serde_struct. Defined.
#[export] Instance eq_dec : EqDecision t.
Proof. solve_decision. Defined.
End RunInputs.
Export (hints) RunInputs.

Module EventKind.
Inductive t :=
  | RunStarted (agent task : string) (cwd : option string) (inputs : option RunInputs.t)
  | TurnStarted (turn : u64)
  | Output (turn : u64) (text : string)
  | UsageUpdated (turn input_tokens output_tokens cache_read_tokens cache_creation_tokens : u64)
      (cost_micro_usd : option u64)
  | TurnFinished (turn : u64) (ok : bool)
  | RunFinished (ok : bool) (exit_code : option i32) (timed_out : bool)
  | ToolStarted (turn : u64) (tool : string) (title : option string) (args_hash : string)
  | ToolFinished (turn : u64) (tool : string) (ok : bool) (title : option string)
      (output_hash : string).

Definition kind (tag : string) (fs : fields) : json := obj (fld "kind" tag :: fs).

#[export, refine] Instance serde : Serde t := {|
  ser e := match e with
    | RunStarted agent task cwd inputs =>
        kind "run_started"
          [fld "agent" agent; fld "task" task; fld_opt "cwd" cwd; fld_opt "inputs" inputs]
    | TurnStarted turn => kind "turn_started" [fld "turn" turn]
    | Output turn text => kind "output" [fld "turn" turn; fld "text" text]
    | UsageUpdated turn i o cr cc cost =>
        kind "usage_updated"
          [fld "turn" turn; fld "input_tokens" i; fld "output_tokens" o;
           fld "cache_read_tokens" cr; fld "cache_creation_tokens" cc;
           fld_opt "cost_micro_usd" cost]
    | TurnFinished turn ok => kind "turn_finished" [fld "turn" turn; fld "ok" ok]
    | RunFinished ok exit_code timed_out =>
        kind "run_finished"
          [fld "ok" ok; fld_opt "exit_code" exit_code; fld "timed_out" timed_out]
    | ToolStarted turn tool title args_hash =>
        kind "tool_started"
          [fld "turn" turn; fld "tool" tool; fld_opt "title" title; fld "args_hash" args_hash]
    | ToolFinished turn tool ok title output_hash =>
        kind "tool_finished"
          [fld "turn" turn; fld "tool" tool; fld "ok" ok; fld_opt "title" title;
           fld "output_hash" output_hash]
    end;
  de j :=
    m ← as_obj j;
    tag ← req (A:=string) "kind" m;
    by_tag tag
      [("run_started",
        agent ← req "agent" m; task ← req "task" m; cwd ← opt "cwd" m; inputs ← opt "inputs" m;
        Some (RunStarted agent task cwd inputs));
       ("turn_started", turn ← req "turn" m; Some (TurnStarted turn));
       ("output", turn ← req "turn" m; text ← req "text" m; Some (Output turn text));
       ("usage_updated",
        turn ← req "turn" m; i ← req "input_tokens" m; o ← req "output_tokens" m;
        cr ← dflt (wrap 64 0) "cache_read_tokens" m;
        cc ← dflt (wrap 64 0) "cache_creation_tokens" m;
        cost ← opt "cost_micro_usd" m; Some (UsageUpdated turn i o cr cc cost));
       ("turn_finished", turn ← req "turn" m; ok ← req "ok" m; Some (TurnFinished turn ok));
       ("run_finished",
        ok ← req "ok" m; exit_code ← opt "exit_code" m; timed_out ← dflt false "timed_out" m;
        Some (RunFinished ok exit_code timed_out));
       ("tool_started",
        turn ← req "turn" m; tool ← req "tool" m; title ← opt "title" m;
        args_hash ← req "args_hash" m; Some (ToolStarted turn tool title args_hash));
       ("tool_finished",
        turn ← req "turn" m; tool ← req "tool" m; ok ← req "ok" m; title ← opt "title" m;
        output_hash ← req "output_hash" m; Some (ToolFinished turn tool ok title output_hash))]
  |}.
Proof. all: serde_enum. Defined.
#[export] Instance eq_dec : EqDecision t.
Proof. solve_decision. Defined.
End EventKind.
Export (hints) EventKind.

Module Event.
Record t := Mk { seq : u64; kind : EventKind.t }.
#[export, refine] Instance serde : Serde t := {|
  ser e := obj [fld "seq" e.(seq); fld "kind" e.(kind)];
  de j := m ← as_obj j; seq ← req "seq" m; kind ← req "kind" m; Some (Mk seq kind) |}.
Proof. all: serde_struct. Defined.
#[export] Instance eq_dec : EqDecision t.
Proof. solve_decision. Defined.
End Event.

Module LedgerEntry.
Record t := Mk { seq : u64; event_hash : string; chained_hash : string }.
#[export, refine] Instance serde : Serde t := {|
  ser e := obj [fld "seq" e.(seq); fld "event_hash" e.(event_hash);
                fld "chained_hash" e.(chained_hash)];
  de j :=
    m ← as_obj j; seq ← req "seq" m; event_hash ← req "event_hash" m;
    chained_hash ← req "chained_hash" m; Some (Mk seq event_hash chained_hash) |}.
Proof. all: serde_struct. Defined.
End LedgerEntry.
Export (hints) Event LedgerEntry.

Module Run.
Record t := Mk {
  schema_version : u32;
  run_id : string;
  session_id : string;
  agent : string;
  root : option string;
  started_at_ms : u64;
  finished_at_ms : option u64;
  events : list Event.t;
  ledger : list LedgerEntry.t;
  root_hash : string;
  finished : bool;
  inputs : RunInputs.t;
  attestation : Attestation.t;
}.

#[export, refine] Instance serde : Serde t := {|
  ser r := obj
    [fld "schema_version" r.(schema_version); fld "run_id" r.(run_id);
     fld "session_id" r.(session_id); fld "agent" r.(agent); fld_opt "root" r.(root);
     fld "started_at_ms" r.(started_at_ms); fld_opt "finished_at_ms" r.(finished_at_ms);
     fld "events" r.(events); fld "ledger" r.(ledger); fld "root_hash" r.(root_hash);
     fld "finished" r.(finished); fld "inputs" r.(inputs);
     fld_skip is_full_attestation "attestation" r.(attestation)];
  de j :=
    m ← as_obj j;
    schema_version ← req "schema_version" m; run_id ← req "run_id" m;
    session_id ← req "session_id" m; agent ← req "agent" m; root ← opt "root" m;
    started_at_ms ← req "started_at_ms" m; finished_at_ms ← opt "finished_at_ms" m;
    events ← req "events" m; ledger ← dflt [] "ledger" m;
    root_hash ← dflt EmptyString "root_hash" m; finished ← dflt false "finished" m;
    inputs ← dflt RunInputs.default "inputs" m;
    attestation ← dflt Attestation.Full "attestation" m;
    Some (Mk schema_version run_id session_id agent root started_at_ms finished_at_ms events
            ledger root_hash finished inputs attestation) |}.
Proof. all: serde_struct. Defined.
End Run.
Export (hints) Run.

Module ReplayManifest.
Record t := Mk {
  run_id : string;
  recorded_root_hash : string;
  replayed_root_hash : string;
  matched : bool;
  event_count : u64;
  diverged_at_seq : option u64;
}.
End ReplayManifest.

(** * Content addressing and sealing *)

Section seal.
Context `{SerdeJson, Sha256}.

Definition hash_event (event : Event.t) : string := digest (json_bytes event).

Definition hash_canonical_json (value : json) : string := digest (to_vec value).

Definition ledger_step (st : list LedgerEntry.t * string) (event : Event.t)
  : list LedgerEntry.t * string :=
  let '(ledger, prev) := st in
  let event_hash := hash_event event in
  let chained_hash := digest (prev +:+ event_hash) in
  (ledger ++ [LedgerEntry.Mk event.(Event.seq) event_hash chained_hash], chained_hash).

Definition build_ledger (events : list Event.t) : list LedgerEntry.t * string :=
  foldl ledger_step ([], EmptyString) events.

Definition build_run_attested (session_id agent : string) (root : option string)
    (started_at_ms : u64) (finished_at_ms : option u64) (finished : bool)
    (events : list Event.t) (inputs : RunInputs.t) (attestation : Attestation.t) : Run.t :=
  let '(ledger, root_hash) := build_ledger events in
  Run.Mk RUN_SCHEMA_VERSION root_hash session_id agent root started_at_ms finished_at_ms events
    ledger root_hash finished inputs attestation.

Definition build_run (session_id agent : string) (root : option string)
    (started_at_ms : u64) (finished_at_ms : option u64) (finished : bool)
    (events : list Event.t) (inputs : RunInputs.t) : Run.t :=
  build_run_attested session_id agent root started_at_ms finished_at_ms finished events inputs
    Attestation.Full.

(** The messages hashed while folding a tape. *)
Definition tape_messages (events : list Event.t) : list bytes :=
  map json_bytes events ++ chain_messages EmptyString (map hash_event events).

(** The spine, entry by entry. *)
Lemma build_ledger_root events :
  (build_ledger events).2 = chain_head EmptyString (map hash_event events).
Proof.
  unfold build_ledger. induction events as [|e events IH] using rev_ind; [done|].
  rewrite foldl_snoc, map_snoc, chain_head_snoc, <- IH.
  by destruct (foldl ledger_step _ events).
Qed.

Lemma build_ledger_snoc events e :
  (build_ledger (events ++ [e])).1 =
  (build_ledger events).1 ++
    [LedgerEntry.Mk e.(Event.seq) (hash_event e)
       (chain_head EmptyString (map hash_event (events ++ [e])))].
Proof.
  rewrite map_snoc, chain_head_snoc, <- build_ledger_root. unfold build_ledger.
  rewrite foldl_snoc. by destruct (foldl ledger_step _ events).
Qed.

Lemma length_build_ledger events : length (build_ledger events).1 = length events.
Proof.
  induction events as [|e events IH] using rev_ind; [done|].
  by rewrite build_ledger_snoc, !length_app, IH.
Qed.

Lemma build_ledger_lookup events i :
  (build_ledger events).1 !! i =
  (fun e => LedgerEntry.Mk e.(Event.seq) (hash_event e)
              (chain_head EmptyString (map hash_event (take (S i) events)))) <$> events !! i.
Proof.
  induction events as [|e events IH] using rev_ind; [done|].
  rewrite build_ledger_snoc. destruct (lt_eq_lt_dec i (length events)) as [[L| ->]|L].
  - rewrite !lookup_app_l by (rewrite ?length_build_ledger; done). rewrite IH.
    by rewrite take_app_le by lia.
  - rewrite <- (length_build_ledger events) at 1.
    rewrite !list_lookup_middle by done. simpl.
    by rewrite take_ge by (rewrite length_app; simpl; lia).
  - by rewrite !lookup_ge_None_2 by (rewrite length_app, ?length_build_ledger; simpl; lia).
Qed.
Lemma build_ledger_take events i :
  take i (build_ledger events).1 = (build_ledger (take i events)).1.
Proof.
  apply list_eq. intros j. rewrite build_ledger_lookup.
  destruct (decide (j < i)) as [L|L].
  - rewrite !lookup_take_lt, build_ledger_lookup by done.
    by rewrite take_take, Nat.min_l by lia.
  - by rewrite !lookup_take_ge by lia.
Qed.

Lemma tape_messages_take events i : tape_messages (take i events) ⊆ tape_messages events.
Proof.
  unfold tape_messages. rewrite <- (take_drop i events) at 3 4.
  rewrite !map_app, chain_messages_app. intros x. rewrite !elem_of_app. tauto.
Qed.
End seal.

(** * Properties *)

Section properties.
Context `{SerdeJson, !SerdeJsonSpec, Sha256, !Sha256Spec}.

Lemma tape_root_inj events events' :
  no_collision (tape_messages events ++ tape_messages events') ->
  (build_ledger events).2 = (build_ledger events').2 -> events = events'.
Proof using Type*.
  intros NC E. rewrite !build_ledger_root in E.
  assert (forall l, Forall (fun x => String.length x = 64) (map hash_event l)) as F.
  { intros l. apply Forall_map, Forall_forall. intros ? _. apply length_digest. }
  apply chain_head_inj in E; [|done..|].
  - eapply map_digest_inj; [exact NC|..|exact E]; unfold tape_messages; set_solver.
  - eapply no_collision_mono, NC. unfold tape_messages. set_solver.
Qed.
End properties.

(** A run's root hash is a content address of its tape: two sealed runs with the same
    root have the same events, in the same order, unless hashing them exhibits a SHA-256
    collision. Host metadata (timestamps, inputs mirror, attestation) is free. *)
Theorem run_root_binds_tape `{SerdeJson, !SerdeJsonSpec, Sha256, !Sha256Spec}
    s a r t0 t1 f events i k s' a' r' t0' t1' f' events' i' k'
    (NC : no_collision (tape_messages events ++ tape_messages events'))
    (E : (build_run_attested s a r t0 t1 f events i k).(Run.root_hash) =
         (build_run_attested s' a' r' t0' t1' f' events' i' k').(Run.root_hash)) :
  events = events'.
Proof.
  unfold build_run_attested in E. apply tape_root_inj; [done|].
  by destruct (build_ledger events), (build_ledger events').
Qed.

Lemma run_root_binds_tape_witness :
  let tape := [Event.Mk (wrap 64 0) (EventKind.TurnStarted (wrap 64 0));
               Event.Mk (wrap 64 1) (EventKind.TurnFinished (wrap 64 0) true)] in
  tape = tape.
Proof.
  intros tape.
  apply (run_root_binds_tape "s" "claude" None (wrap 64 5) None true tape RunInputs.default
           Attestation.Full "s2" "codex" None (wrap 64 6) None true tape RunInputs.default
           Attestation.Partial).
  - no_collision_tac.
  - vm_compute. reflexivity.
Defined.
