(* ===== verification/Runpin.v ===== *)
(** L0c ([nerve-core/src/runpin.rs]): pinning a run's closure, verifying a replay against
    the recorded spine, and projecting an OpenTelemetry trace to an event tape. *)
From S2P Require Import Prelude Json Digest Reference Provenance.

(** * Inputs *)

(** [nerve-core/src/models.rs]; the absolute path and the snapshot's roots and diagnostics
    are not read here. *)
Module CatalogEntry.
Record t := Mk { root_id : string; rel_path : string; abs_path : string; size : u64 }.
End CatalogEntry.

Module CatalogSnapshot.
Record t := Mk { generation : u64; entries : list CatalogEntry.t }.
End CatalogSnapshot.

(** A [BTreeMap] that is only iterated is its list of pairs by ascending key. *)
Module ToolchainPin.
Record t := Mk { tools : list (string * string); lockfiles : list (string * string) }.
End ToolchainPin.

Module SpanView.
Record t := Mk {
  start_unix_nano : u64;
  span_id : string;
  gen_ai_operation : option string;
  gen_ai_system : option string;
  input_tokens : option u64;
  output_tokens : option u64;
  content_text : option string;
}.
End SpanView.

Definition US_byte : ascii := Ascii.ascii_of_nat 31.
Definition RS_byte : ascii := Ascii.ascii_of_nat 30.
Definition US : bytes := String US_byte EmptyString.
Definition RS : bytes := String RS_byte EmptyString.

(** * The closure's digests *)

Definition row := (string * string * u64)%type.
Definition row_leb : row -> row -> bool := lex_leb (lex_leb string_leb string_leb) u_leb.

Definition snapshot_rows (snapshot : CatalogSnapshot.t) : list row :=
  map (fun e => (e.(CatalogEntry.root_id), e.(CatalogEntry.rel_path), e.(CatalogEntry.size)))
    snapshot.(CatalogSnapshot.entries).

Definition row_bytes (r : row) : bytes :=
  let '(root_id, rel_path, size) := r in
  root_id +:+ US +:+ rel_path +:+ US +:+ to_le_bytes size +:+ RS.

Definition snapshot_preimage (snapshot : CatalogSnapshot.t) : bytes :=
  concat_str (map row_bytes (sort_by row_leb (snapshot_rows snapshot))).

Definition pin_bytes (tag : string) (kv : string * string) : bytes :=
  tag +:+ US +:+ kv.1 +:+ US +:+ kv.2 +:+ RS.

Definition toolchain_preimage (pin : ToolchainPin.t) : bytes :=
  concat_str (map (pin_bytes "tool") pin.(ToolchainPin.tools)) +:+
  concat_str (map (pin_bytes "lock") pin.(ToolchainPin.lockfiles)).

Definition hash_repo_snapshot `{Sha256} (snapshot : CatalogSnapshot.t) : string :=
  digest (snapshot_preimage snapshot).

Definition hash_toolchain `{Sha256} (pin : ToolchainPin.t) : string :=
  digest (toolchain_preimage pin).

Definition build_run_inputs (repo_snapshot_hash toolchain_digest : string)
    (image_digest : option string) : RunInputs.t :=
  RunInputs.Mk repo_snapshot_hash toolchain_digest image_digest
    RunInputs.default.(RunInputs.isolation_tier).

(** * Replay *)

(** The first pair of the zipped spines whose chained hashes differ. *)
Definition first_divergence (re_derived recorded : list LedgerEntry.t) : option u64 :=
  (fun p => p.2.1.(LedgerEntry.seq)) <$>
    list_find (fun p : LedgerEntry.t * LedgerEntry.t =>
                 p.1.(LedgerEntry.chained_hash) <> p.2.(LedgerEntry.chained_hash))
      (zip re_derived recorded).

Definition verify_replay `{SerdeJson, Sha256} (run : Run.t) : ReplayManifest.t :=
  let '(ledger, replayed_root_hash) := build_ledger run.(Run.events) in
  let matched := bool_decide (replayed_root_hash = run.(Run.root_hash)) in
  let diverged_at_seq :=
    if matched then None
    else match first_divergence ledger run.(Run.ledger) with
         | Some seq => Some seq
         | None => Event.seq <$> head run.(Run.events)
         end in
  ReplayManifest.Mk run.(Run.run_id) run.(Run.root_hash) replayed_root_hash matched
    (len_u64 run.(Run.events)) diverged_at_seq.

(** * OpenTelemetry projection *)

Definition span_key (s : SpanView.t) : u64 * string :=
  (s.(SpanView.start_unix_nano), s.(SpanView.span_id)).
Definition span_key_leb : u64 * string -> u64 * string -> bool := lex_leb u_leb string_leb.
#[export] Instance span_key_leb_total : TotalLeb span_key_leb := lex_leb_total _ _ _ _.
Definition span_leb (a b : SpanView.t) : bool := span_key_leb (span_key a) (span_key b).

Definition zero64 : u64 := wrap 64 0.

Definition span_events (index : nat) (span : SpanView.t) : list EventKind.t :=
  let turn := wrap 64 (N.of_nat index) in
  match span.(SpanView.content_text) with
  | Some text => [EventKind.Output turn text]
  | None => []
  end ++
  match span.(SpanView.input_tokens), span.(SpanView.output_tokens) with
  | None, None => []
  | i, o => [EventKind.UsageUpdated turn (default zero64 i) (default zero64 o) zero64 zero64 None]
  end.

Definition otel_genai_to_events (spans : list SpanView.t) : list EventKind.t :=
  match sort_by span_leb spans with
  | [] => []
  | first :: _ as sorted =>
      let agent := default "otel" first.(SpanView.gen_ai_system) in
      let task := default "chat" first.(SpanView.gen_ai_operation) in
      [EventKind.RunStarted agent task None None]
      ++ concat (imap span_events sorted)
      ++ [EventKind.RunFinished true None false]
  end.

(** * Properties *)

Lemma row_bytes_prefix r r' x y :
  no_char US_byte r.1.1 = true -> no_char US_byte r.1.2 = true ->
  no_char US_byte r'.1.1 = true -> no_char US_byte r'.1.2 = true ->
  row_bytes r +:+ x = row_bytes r' +:+ y -> r = r' /\ x = y.
Proof.
  destruct r as [[a b] n], r' as [[a' b'] n']; cbn [fst snd row_bytes]. intros Ha Hb Ha' Hb' E.
  unfold US, RS in E. app_norm E.
  apply split_sep_inj in E as [-> E]; [|done..].
  apply split_sep_inj in E as [-> E]; [|done..].
  apply app_inj_length_l in E as [En E]; [|by unfold to_le_bytes; rewrite !length_le_bytes].
  apply to_le_bytes_inj in En as ->. by injection E as ->.
Qed.

Definition us_free (r : row) : Prop :=
  no_char US_byte r.1.1 = true /\ no_char US_byte r.1.2 = true.

Lemma rows_bytes_inj l l' :
  Forall us_free l -> Forall us_free l' ->
  concat_str (map row_bytes l) = concat_str (map row_bytes l') -> l = l'.
Proof.
  intros F. revert l'. induction F as [|r l [Hr Hr2] F IH]; intros l' [|r' l'' [Hr' Hr2'] F'] E.
  - done.
  - destruct r' as [[[|? ?] ?] ?]; discriminate E.
  - destruct r as [[[|? ?] ?] ?]; discriminate E.
  - simpl in E. apply row_bytes_prefix in E as [-> E]; [|done..]. f_equal. by apply IH.
Qed.

Section properties.
Context `{SerdeJson, !SerdeJsonSpec, Sha256, !Sha256Spec}.

(** The snapshot digest is exactly the multiset of its [(root_id, rel_path, size)] rows:
    reordering the catalog never changes it, and, when no path contains the unit separator
    and the two messages do not collide, nothing else keeps it. *)
Theorem hash_repo_snapshot_spec s s'
    (U : Forall us_free (snapshot_rows s)) (U' : Forall us_free (snapshot_rows s'))
    (NC : no_collision [snapshot_preimage s; snapshot_preimage s']) :
  hash_repo_snapshot s = hash_repo_snapshot s' <-> snapshot_rows s ≡ₚ snapshot_rows s'.
Proof.
  split; intros E.
  - apply (digest_inj_on _ _ _ NC) in E; [|set_solver..].
    apply rows_bytes_inj in E; [|by rewrite <- sort_by_perm..].
    by rewrite (sort_by_perm row_leb (snapshot_rows s)), E, <- sort_by_perm.
  - unfold hash_repo_snapshot, snapshot_preimage.
    rewrite (sort_by_perm_eq row_leb leb_total leb_trans _ (snapshot_rows s')); [done| |done].
    intros x y _ _. apply leb_antisym.
Qed.

(** A run as it was sealed replays: the re-derived root is the recorded one, and nothing
    diverges. *)
Theorem verify_replay_sealed session_id agent root t0 t1 finished events inputs attestation :
  let run := build_run_attested session_id agent root t0 t1 finished events inputs attestation in
  verify_replay run =
    ReplayManifest.Mk run.(Run.root_hash) run.(Run.root_hash) run.(Run.root_hash) true
      (len_u64 events) None.
Proof.
  unfold build_run_attested, verify_replay. cbn zeta.
  destruct (build_ledger events) as [ledger root_hash] eqn:E. simpl. rewrite E.
  by rewrite bool_decide_eq_true_2 by done.
Qed.

Definition with_events (run : Run.t) (events : list Event.t) : Run.t :=
  {| Run.schema_version := run.(Run.schema_version); Run.run_id := run.(Run.run_id);
     Run.session_id := run.(Run.session_id); Run.agent := run.(Run.agent);
     Run.root := run.(Run.root); Run.started_at_ms := run.(Run.started_at_ms);
     Run.finished_at_ms := run.(Run.finished_at_ms); Run.events := events;
     Run.ledger := run.(Run.ledger); Run.root_hash := run.(Run.root_hash);
     Run.finished := run.(Run.finished); Run.inputs := run.(Run.inputs);
     Run.attestation := run.(Run.attestation) |}.

Lemma first_divergence_spec l l' i e e' :
  take i (map LedgerEntry.chained_hash l) = take i (map LedgerEntry.chained_hash l') ->
  l !! i = Some e -> l' !! i = Some e' ->
  e.(LedgerEntry.chained_hash) <> e'.(LedgerEntry.chained_hash) ->
  first_divergence l l' = Some e.(LedgerEntry.seq).
Proof.
  unfold first_divergence. revert l l'; induction i as [|i IH]; intros [|x l] [|x' l'] T L L' N;
    simpl in *; try done.
  - injection L as ->. injection L' as ->. by rewrite decide_True.
  - injection T as Tx T. rewrite decide_False by (intros F; by apply F).
    specialize (IH _ _ T L L' N).
    destruct (list_find _ (zip l l')) as [[j p]|]; simpl in *; congruence.
Qed.

(** Tampering with a sealed tape is detected and located: after its events are replaced
    by others that agree on the first [i] and differ at [i], the replay does not match and
    reports the sequence number of event [i]. *)
Theorem verify_replay_tampered session_id agent root t0 t1 finished events events' inputs
    attestation i e e'
    (NC : no_collision (tape_messages events ++ tape_messages events'))
    (T : take i events = take i events')
    (L : events !! i = Some e) (L' : events' !! i = Some e') (N : e <> e') :
  let run := build_run_attested session_id agent root t0 t1 finished events inputs attestation in
  let manifest := verify_replay (with_events run events') in
  manifest.(ReplayManifest.matched) = false /\
  manifest.(ReplayManifest.diverged_at_seq) = Some e'.(Event.seq).
Proof.
  unfold build_run_attested, verify_replay, with_events. cbn zeta.
  destruct (build_ledger events) as [ledger root_hash] eqn:B. simpl.
  destruct (build_ledger events') as [ledger' root_hash'] eqn:B'. simpl.
  rewrite (bool_decide_eq_false_2 (root_hash' = root_hash)); cycle 1.
  { intros ->. assert (events = events') as ->; [|congruence].
    apply tape_root_inj; [done|]. by rewrite B, B'. }
  split; [done|].
  pose proof (build_ledger_lookup events i) as Ei. rewrite L, B in Ei. simpl in Ei.
  pose proof (build_ledger_lookup events' i) as Ei'. rewrite L', B' in Ei'. simpl in Ei'.
  assert (take i ledger' = take i ledger) as Et.
  { pose proof (build_ledger_take events i) as Et. rewrite B, T in Et. simpl in Et.
    pose proof (build_ledger_take events' i) as Et'. rewrite B' in Et'. simpl in Et'.
    congruence. }
  assert (take i (map LedgerEntry.chained_hash ledger') =
          take i (map LedgerEntry.chained_hash ledger)) as Em by (by rewrite !firstn_map, Et).
  rewrite (first_divergence_spec _ _ _ _ _ Em Ei' Ei).
  - done.
  - simpl. rewrite <- !build_ledger_root. intros R%tape_root_inj.
    + apply (f_equal (lookup i)) in R. rewrite !lookup_take_lt in R by lia. congruence.
    + eapply no_collision_mono, NC.
      pose proof (tape_messages_take events (S i)). pose proof (tape_messages_take events' (S i)).
      set_solver.
Qed.

(** The projection does not depend on the order in which the spans arrive, when no two
    of them share both start time and id. *)
Theorem otel_reorder_invariant spans spans' (ND : NoDup (map span_key spans))
    (P : spans ≡ₚ spans') :
  otel_genai_to_events spans = otel_genai_to_events spans'.
Proof.
  unfold otel_genai_to_events.
  rewrite (sort_by_perm_eq span_leb (fun x y => leb_total (leb:=span_key_leb) _ _)
             (fun x y z => leb_trans (leb:=span_key_leb) _ _ _) spans spans'); [done| |done].
  intros x y Hx Hy Hxy Hyx. pose proof (leb_antisym (leb:=span_key_leb) _ _ Hxy Hyx) as E.
  apply list_elem_of_lookup in Hx as [i Hi], Hy as [j Hj].
  assert (i = j) as ->; [|congruence].
  eapply NoDup_lookup; [exact ND| |]; rewrite list_lookup_fmap, ?Hi, ?Hj; simpl; by rewrite ?E.
Qed.
End properties.

(** * Witnesses *)

Definition entry (root_id rel_path : string) (size : N) : CatalogEntry.t :=
  CatalogEntry.Mk root_id rel_path EmptyString (wrap 64 size).

Lemma hash_repo_snapshot_spec_witness :
  let a := entry "r" "src/b.rs" 10 in
  let b := entry "r" "src/a.rs" 300 in
  hash_repo_snapshot (CatalogSnapshot.Mk (wrap 64 1) [a; b]) =
    hash_repo_snapshot (CatalogSnapshot.Mk (wrap 64 2) [b; a]) <->
  snapshot_rows (CatalogSnapshot.Mk (wrap 64 1) [a; b]) ≡ₚ
    snapshot_rows (CatalogSnapshot.Mk (wrap 64 2) [b; a]).
Proof.
  intros a b. apply hash_repo_snapshot_spec; [by repeat constructor..|no_collision_tac].
Defined.

Definition sample_tape : list Event.t :=
  [Event.Mk (wrap 64 0) (EventKind.RunStarted "claude" "fix it" None None);
   Event.Mk (wrap 64 1) (EventKind.Output (wrap 64 0) "done");
   Event.Mk (wrap 64 2) (EventKind.RunFinished true None false)].

Definition tampered_tape : list Event.t :=
  [Event.Mk (wrap 64 0) (EventKind.RunStarted "claude" "fix it" None None);
   Event.Mk (wrap 64 1) (EventKind.Output (wrap 64 0) "undone");
   Event.Mk (wrap 64 2) (EventKind.RunFinished true None false)].

Lemma verify_replay_tampered_witness :
  let run := build_run_attested "s" "claude" None (wrap 64 5) None true sample_tape
               RunInputs.default Attestation.Full in
  let manifest := verify_replay (with_events run tampered_tape) in
  manifest.(ReplayManifest.matched) = false /\
  manifest.(ReplayManifest.diverged_at_seq) = Some (wrap 64 1).
Proof.
  apply (verify_replay_tampered "s" "claude" None (wrap 64 5) None true sample_tape tampered_tape
           RunInputs.default Attestation.Full 1
           (Event.Mk (wrap 64 1) (EventKind.Output (wrap 64 0) "done"))
           (Event.Mk (wrap 64 1) (EventKind.Output (wrap 64 0) "undone"))).
  - no_collision_tac.
  - reflexivity.
  - reflexivity.
  - reflexivity.
  - discriminate.
Defined.

Definition sample_span (start : N) (id : string) : SpanView.t :=
  SpanView.Mk (wrap 64 start) id (Some "chat") None (Some (wrap 64 7)) None (Some "hi").

Lemma otel_reorder_invariant_witness :
  otel_genai_to_events [sample_span 2 "a"; sample_span 1 "b"; sample_span 1 "a"] =
  otel_genai_to_events [sample_span 1 "a"; sample_span 1 "b"; sample_span 2 "a"].
Proof.
  apply otel_reorder_invariant.
  - refine (bool_decide_eq_true_1 _ _). vm_compute. reflexivity.
  - apply (Permutation_rev [sample_span 2 "a"; sample_span 1 "b"; sample_span 1 "a"]).
Defined.

(** The separators can be forged: a unit separator inside a path moves the field
    boundary, so, whatever the hash, two different snapshots have one digest. *)
Theorem hash_repo_snapshot_forgeable `{Sha256} :
  exists s s',
    ~ snapshot_rows s ≡ₚ snapshot_rows s' /\ hash_repo_snapshot s = hash_repo_snapshot s'.
Proof.
  exists (CatalogSnapshot.Mk (wrap 64 0) [entry ("a" +:+ US +:+ "b") "c" 1]),
    (CatalogSnapshot.Mk (wrap 64 0) [entry "a" ("b" +:+ US +:+ "c") 1]).
  split; [|reflexivity].
  intros P%Permutation_singleton_inj. discriminate P.
Qed.
