(* ===== verification/Outcomes.v ===== *)
(** L6, the outcome corpus ([nerve-proto/src/outcome.rs], [nerve-core/src/outcome.rs]): the
    append-only tape of outcome labels a run accrues, its content address, and the advisory
    statistics folded over a corpus. *)
From S2P Require Import Prelude BTree Json Digest Reference Verdicts.

Definition OUTCOME_SCHEMA_VERSION : u32 := wrap 32 1.

(** * The vocabulary *)

(** A field-less variant of an internally tagged enum is an object of the tag alone. *)
Module Outcome.
Inductive t := Merged | Reverted | Incident | ShippedNoRegress.
#[export] Instance eq_dec : EqDecision t.
Proof. solve_decision. Defined.
#[export, refine] Instance serde : Serde t := {|
  ser o := obj [fld "outcome" (match o with
    | Merged => "merged" | Reverted => "reverted" | Incident => "incident"
    | ShippedNoRegress => "shipped_no_regress" end : string)];
  de j :=
    m ← as_obj j; tag ← req (A:=string) "outcome" m;
    by_tag tag
      [("merged", Some Merged); ("reverted", Some Reverted); ("incident", Some Incident);
       ("shipped_no_regress", Some ShippedNoRegress)] |}.
Proof. all: by intros []. Defined.
End Outcome.

Module LabelSource.
Inductive t := Human | Ci | Observation.
#[export] Instance eq_dec : EqDecision t.
Proof. solve_decision. Defined.
#[export, refine] Instance serde : Serde t := {|
  ser s := obj [fld "source" (match s with
    | Human => "human" | Ci => "ci" | Observation => "observation" end : string)];
  de j :=
    m ← as_obj j; tag ← req (A:=string) "source" m;
    by_tag tag
      [("human", Some Human); ("ci", Some Ci); ("observation", Some Observation)] |}.
Proof. all: by intros []. Defined.
End LabelSource.
Export (hints) Outcome LabelSource.

Module OutcomeLabel.
Record t := Mk {
  seq : u64;
  outcome : Outcome.t;
  source : LabelSource.t;
  actor : option string;
  note : option string;
  verdict_ref : option string;
  observed_at_ms : u64;
  label_hash : string;
  chained_hash : string;
}.
#[export, refine] Instance serde : Serde t := {|
  ser l := obj
    [fld "seq" l.(seq); fld "outcome" l.(outcome); fld "source" l.(source);
     fld_opt "actor" l.(actor); fld_opt "note" l.(note); fld_opt "verdict_ref" l.(verdict_ref);
     fld "observed_at_ms" l.(observed_at_ms); fld "label_hash" l.(label_hash);
     fld "chained_hash" l.(chained_hash)];
  de j :=
    m ← as_obj j;
    seq ← req "seq" m; outcome ← req "outcome" m; source ← req "source" m;
    actor ← opt "actor" m; note ← opt "note" m; verdict_ref ← opt "verdict_ref" m;
    observed_at_ms ← req "observed_at_ms" m; label_hash ← dflt EmptyString "label_hash" m;
    chained_hash ← dflt EmptyString "chained_hash" m;
    Some (Mk seq outcome source actor note verdict_ref observed_at_ms label_hash chained_hash)
  |}.
Proof. all: serde_struct. Defined.
End OutcomeLabel.
Export (hints) OutcomeLabel.

Module OutcomeRecord.
Record t := Mk {
  schema_version : u32;
  run_id : string;
  session_id : option string;
  agent : option string;
  receipt_id : option string;
  labels : list OutcomeLabel.t;
  labels_root : string;
}.
#[export, refine] Instance serde : Serde t := {|
  ser r := obj
    [fld "schema_version" r.(schema_version); fld "run_id" r.(run_id);
     fld_opt "session_id" r.(session_id); fld_opt "agent" r.(agent);
     fld_opt "receipt_id" r.(receipt_id); fld "labels" r.(labels);
     fld "labels_root" r.(labels_root)];
  de j :=
    m ← as_obj j;
    schema_version ← req "schema_version" m; run_id ← req "run_id" m;
    session_id ← opt "session_id" m; agent ← opt "agent" m; receipt_id ← opt "receipt_id" m;
    labels ← dflt [] "labels" m; labels_root ← dflt EmptyString "labels_root" m;
    Some (Mk schema_version run_id session_id agent receipt_id labels labels_root) |}.
Proof. all: serde_struct. Defined.
End OutcomeRecord.
Export (hints) OutcomeRecord.

Module OutcomeSummary.
Record t := Mk {
  total_runs : u64;
  labeled_runs : u64;
  merged : u64;
  reverted : u64;
  incident : u64;
  shipped_no_regress : u64;
}.
End OutcomeSummary.

Module AgentCalibration.
Record t := Mk {
  agent : string;
  labeled_runs : u64;
  shipped : u64;
  regressed : u64;
  ship_permille : u64;
}.
End AgentCalibration.

Module OutcomeCalibration.
Record t := Mk {
  labeled_runs : u64;
  shipped : u64;
  regressed : u64;
  passed_and_regressed : u64;
  ship_permille : u64;
  by_agent : list AgentCalibration.t;
}.
End OutcomeCalibration.

(** [nerve-proto/src/verdict.rs] *)
Module CheckFlakyRate.
Record t := Mk {
  check_name : string;
  kind : CheckKind.t;
  runs : u64;
  flaky_runs : u64;
  fail_runs : u64;
  flaky_permille : u64;
}.
End CheckFlakyRate.

(** * Sealing *)

Definition zero64 : u64 := wrap 64 0.
Definition incr (n : u64) : u64 := uadd n (wrap 64 1).

(** The normalized clone: derived and wall-clock fields zeroed. *)
Definition label_identity (l : OutcomeLabel.t) : OutcomeLabel.t :=
  OutcomeLabel.Mk l.(OutcomeLabel.seq) l.(OutcomeLabel.outcome) l.(OutcomeLabel.source)
    l.(OutcomeLabel.actor) l.(OutcomeLabel.note) l.(OutcomeLabel.verdict_ref)
    zero64 EmptyString EmptyString.

Definition with_hashes (l : OutcomeLabel.t) (label_hash chained_hash : string)
  : OutcomeLabel.t :=
  OutcomeLabel.Mk l.(OutcomeLabel.seq) l.(OutcomeLabel.outcome) l.(OutcomeLabel.source)
    l.(OutcomeLabel.actor) l.(OutcomeLabel.note) l.(OutcomeLabel.verdict_ref)
    l.(OutcomeLabel.observed_at_ms) label_hash chained_hash.

Section seal.
Context `{SerdeJson, Sha256}.

Definition hash_label (label : OutcomeLabel.t) : string :=
  digest (json_bytes (label_identity label)).

Definition seal_step (st : list OutcomeLabel.t * string) (label : OutcomeLabel.t)
  : list OutcomeLabel.t * string :=
  let '(sealed, prev) := st in
  let label_hash := hash_label label in
  let chained_hash := digest (prev +:+ label_hash) in
  (sealed ++ [with_hashes label label_hash chained_hash], chained_hash).

Definition seal_labels (labels : list OutcomeLabel.t) : list OutcomeLabel.t * string :=
  foldl seal_step ([], EmptyString) labels.

Definition append_label (record : OutcomeRecord.t) (label : OutcomeLabel.t)
  : OutcomeRecord.t :=
  let '(labels, labels_root) := seal_labels (record.(OutcomeRecord.labels) ++ [label]) in
  OutcomeRecord.Mk record.(OutcomeRecord.schema_version) record.(OutcomeRecord.run_id)
    record.(OutcomeRecord.session_id) record.(OutcomeRecord.agent)
    record.(OutcomeRecord.receipt_id) labels labels_root.
End seal.

Definition empty_record (run_id : string) (session_id agent : option string)
  : OutcomeRecord.t :=
  OutcomeRecord.Mk OUTCOME_SCHEMA_VERSION run_id session_id agent None [] EmptyString.

(** * Statistics *)

Definition count_label (s : OutcomeSummary.t) (label : OutcomeLabel.t) : OutcomeSummary.t :=
  let 'OutcomeSummary.Mk total labeled m r i n := s in
  match label.(OutcomeLabel.outcome) with
  | Outcome.Merged => OutcomeSummary.Mk total labeled (incr m) r i n
  | Outcome.Reverted => OutcomeSummary.Mk total labeled m (incr r) i n
  | Outcome.Incident => OutcomeSummary.Mk total labeled m r (incr i) n
  | Outcome.ShippedNoRegress => OutcomeSummary.Mk total labeled m r i (incr n)
  end.

Definition count_record (s : OutcomeSummary.t) (record : OutcomeRecord.t)
  : OutcomeSummary.t :=
  let 'OutcomeSummary.Mk total labeled m r i n := s in
  let labeled' := match record.(OutcomeRecord.labels) with [] => labeled | _ => incr labeled end in
  foldl count_label (OutcomeSummary.Mk total labeled' m r i n) record.(OutcomeRecord.labels).

Definition summarize (records : list OutcomeRecord.t) : OutcomeSummary.t :=
  foldl count_record
    (OutcomeSummary.Mk (len_u64 records) zero64 zero64 zero64 zero64 zero64) records.

Module Tally.
Record t := Mk { labeled : u64; shipped : u64; regressed : u64; passed_and_regressed : u64 }.
Definition default : t := Mk zero64 zero64 zero64 zero64.
Definition add (class : bool * bool) (t : t) : Tally.t :=
  let '(positive, negative) := class in
  Mk (incr t.(labeled))
    (if positive && negb negative then incr t.(shipped) else t.(shipped))
    (if negative then incr t.(regressed) else t.(regressed))
    (if positive && negative then incr t.(passed_and_regressed) else t.(passed_and_regressed)).
End Tally.

Definition classify_label (pn : bool * bool) (label : OutcomeLabel.t) : bool * bool :=
  match label.(OutcomeLabel.outcome) with
  | Outcome.Merged | Outcome.ShippedNoRegress => (true, pn.2)
  | Outcome.Reverted | Outcome.Incident => (pn.1, true)
  end.

Definition classify (record : OutcomeRecord.t) : bool * bool :=
  foldl classify_label (false, false) record.(OutcomeRecord.labels).

Definition permille (num den : u64) : u64 :=
  default zero64 (uchecked_div (usaturating_mul num (wrap 64 1000)) den).

(** The records the calibration reads. *)
Definition is_labeled (record : OutcomeRecord.t) : bool :=
  match record.(OutcomeRecord.labels) with [] => false | _ => true end.

Definition agent_of (record : OutcomeRecord.t) : string :=
  default "unattributed" record.(OutcomeRecord.agent).

(** One iteration of the loop: an unlabeled record is skipped. *)
Definition calibrate_step (st : Tally.t * btree string Tally.t) (record : OutcomeRecord.t)
  : Tally.t * btree string Tally.t :=
  let '(overall, per_agent) := st in
  if negb (is_labeled record) then st
  else
    let class := classify record in
    (Tally.add class overall,
     bt_entry string_leb (agent_of record) Tally.default (Tally.add class) per_agent).

Definition agent_slice (p : string * Tally.t) : AgentCalibration.t :=
  let '(agent, tally) := p in
  AgentCalibration.Mk agent tally.(Tally.labeled) tally.(Tally.shipped) tally.(Tally.regressed)
    (permille tally.(Tally.shipped) tally.(Tally.labeled)).

Definition calibrate (records : list OutcomeRecord.t) : OutcomeCalibration.t :=
  let '(overall, per_agent) := foldl calibrate_step (Tally.default, []) records in
  OutcomeCalibration.Mk overall.(Tally.labeled) overall.(Tally.shipped)
    overall.(Tally.regressed) overall.(Tally.passed_and_regressed)
    (permille overall.(Tally.shipped) overall.(Tally.labeled))
    (map agent_slice per_agent).

(** [CheckKindKey] *)
Definition kind_key (kind : CheckKind.t) : u8 :=
  wrap 8 match kind with
    | CheckKind.Test => 0 | CheckKind.Typecheck => 1 | CheckKind.Build => 2
    | CheckKind.Lint => 3 | CheckKind.Property => 4 | CheckKind.Mutation => 5
    | CheckKind.Contamination => 6 end.

Definition key_kind (key : u8) : CheckKind.t :=
  match uval key with
  | 0%N => CheckKind.Test | 1%N => CheckKind.Typecheck | 2%N => CheckKind.Build
  | 3%N => CheckKind.Lint | 4%N => CheckKind.Property | 5%N => CheckKind.Mutation
  | _ => CheckKind.Contamination
  end.

Definition check_key (c : CheckResult.t) : string * u8 :=
  (c.(CheckResult.name), kind_key c.(CheckResult.kind)).
Definition check_key_leb : string * u8 -> string * u8 -> bool := lex_leb string_leb u_leb.
#[export] Instance check_key_leb_total : TotalLeb check_key_leb := lex_leb_total _ _ _ _.

Definition flaky_update (c : CheckResult.t) (t : u64 * u64 * u64) : u64 * u64 * u64 :=
  let '(runs, flaky, fail) := t in
  match c.(CheckResult.status) with
  | CheckStatus.Flaky => (incr runs, incr flaky, fail)
  | CheckStatus.Fail => (incr runs, flaky, incr fail)
  | CheckStatus.Pass | CheckStatus.Error => (incr runs, flaky, fail)
  end.

Definition flaky_rate (p : (string * u8) * (u64 * u64 * u64)) : CheckFlakyRate.t :=
  let '((check_name, kind), (runs, flaky_runs, fail_runs)) := p in
  CheckFlakyRate.Mk check_name (key_kind kind) runs flaky_runs fail_runs
    (permille flaky_runs runs).

Definition flaky_rates (verdicts : list Verdict.t) : list CheckFlakyRate.t :=
  map flaky_rate
    (foldl (fun tallies check =>
              bt_entry check_key_leb (check_key check) (zero64, zero64, zero64)
                (flaky_update check) tallies)
       [] (verdicts ≫= Verdict.checks)).

(** * Properties of sealing *)

Section sealing.
Context `{SerdeJson, !SerdeJsonSpec, Sha256, !Sha256Spec}.

Lemma seal_labels_root labels :
  (seal_labels labels).2 = chain_head EmptyString (map hash_label labels).
Proof.
  unfold seal_labels. induction labels as [|l labels IH] using rev_ind; [done|].
  rewrite foldl_snoc, map_snoc, chain_head_snoc, <- IH.
  by destruct (foldl seal_step _ labels).
Qed.

(** Sealing is incremental: one more label extends the sealed tape by one. *)
Lemma seal_labels_snoc labels l :
  seal_labels (labels ++ [l]) =
  let '(sealed, root) := seal_labels labels in
  let root' := chain root (hash_label l) in (sealed ++ [with_hashes l (hash_label l) root'], root').
Proof. unfold seal_labels. rewrite foldl_snoc. by destruct (foldl seal_step _ labels). Qed.

(** Sealing a sealed tape changes nothing, since a label's identity leaves its hashes out. *)
Lemma seal_labels_idempotent labels :
  seal_labels (seal_labels labels).1 = seal_labels labels.
Proof.
  induction labels as [|l labels IH] using rev_ind; [done|].
  rewrite (seal_labels_snoc labels l). destruct (seal_labels labels) as [sealed root] eqn:E.
  cbn [fst] in *. rewrite seal_labels_snoc, IH. by destruct l.
Qed.

(** A record whose labels and root are the ones sealing computes. *)
Definition sealed_record (r : OutcomeRecord.t) : Prop :=
  seal_labels r.(OutcomeRecord.labels) = (r.(OutcomeRecord.labels), r.(OutcomeRecord.labels_root)).

(** Appending a label to a sealed record keeps every label already there, adds the new
    one with its digest chained onto the old root, and leaves the record sealed; the run,
    session, agent and receipt it is about are untouched. *)
Theorem append_label_spec r l (S : sealed_record r) :
  let root' := chain r.(OutcomeRecord.labels_root) (hash_label l) in
  append_label r l =
    OutcomeRecord.Mk r.(OutcomeRecord.schema_version) r.(OutcomeRecord.run_id)
      r.(OutcomeRecord.session_id) r.(OutcomeRecord.agent) r.(OutcomeRecord.receipt_id)
      (r.(OutcomeRecord.labels) ++ [with_hashes l (hash_label l) root']) root' /\
  sealed_record (append_label r l).
Proof.
  unfold append_label, sealed_record in *. rewrite seal_labels_snoc, S. cbn zeta.
  split; [done|]. cbn [OutcomeRecord.labels OutcomeRecord.labels_root].
  rewrite seal_labels_snoc, S. by destruct l.
Qed.

(** The labels root commits to the labels' content: two tapes with the same root have
    the same sequence of dispositions, sources, actors, notes and verdict references,
    unless sealing them exhibits a collision; the observation times may differ. *)
Theorem labels_root_binds labels labels'
    (NC : let messages ls := map json_bytes (map label_identity ls) ++
                             chain_messages EmptyString (map hash_label ls) in
          no_collision (messages labels ++ messages labels'))
    (E : (seal_labels labels).2 = (seal_labels labels').2) :
  map label_identity labels = map label_identity labels'.
Proof.
  cbn zeta in NC. rewrite !seal_labels_root in E.
  assert (forall l, Forall (fun x => String.length x = 64) (map hash_label l)) as F.
  { intros l. apply Forall_map, Forall_forall. intros ? _. apply length_digest. }
  apply chain_head_inj in E; [|done..|].
  - eapply map_digest_inj; [exact NC|..]; [set_solver..|]. by rewrite !map_map.
  - eapply no_collision_mono, NC. set_solver.
Qed.
End sealing.

Definition sample_label (seq : N) (o : Outcome.t) (at_ms : N) : OutcomeLabel.t :=
  OutcomeLabel.Mk (wrap 64 seq) o LabelSource.Ci (Some "bot") None None (wrap 64 at_ms)
    EmptyString EmptyString.

Lemma append_label_spec_witness :
  let r := append_label (empty_record "run" None (Some "claude")) (sample_label 0 Outcome.Merged 5) in
  let l := sample_label 1 Outcome.Reverted 9 in
  let root' := chain r.(OutcomeRecord.labels_root) (hash_label l) in
  append_label r l =
    OutcomeRecord.Mk r.(OutcomeRecord.schema_version) r.(OutcomeRecord.run_id)
      r.(OutcomeRecord.session_id) r.(OutcomeRecord.agent) r.(OutcomeRecord.receipt_id)
      (r.(OutcomeRecord.labels) ++ [with_hashes l (hash_label l) root']) root' /\
  sealed_record (append_label r l).
Proof. intros r l. apply append_label_spec. vm_compute. reflexivity. Defined.

Lemma labels_root_binds_witness :
  map label_identity [sample_label 0 Outcome.Merged 5] =
  map label_identity [sample_label 0 Outcome.Merged 77].
Proof.
  apply labels_root_binds.
  - no_collision_tac.
  - vm_compute. reflexivity.
Defined.

(** * Properties of the statistics *)

(** The counters count, modulo 2^64. *)
Definition count {A} (p : A -> bool) (l : list A) : u64 :=
  wrap 64 (N.of_nat (length (filter (fun a => p a = true) l))).

Lemma count_snoc {A} (p : A -> bool) l a :
  count p (l ++ [a]) = if p a then incr (count p l) else count p l.
Proof.
  unfold count. rewrite filter_app, length_app. destruct (p a) eqn:E.
  - rewrite filter_cons_True, filter_nil by done. simpl. unfold incr, uadd.
    apply uint_eq. rewrite !uval_wrap. rewrite Nat2N.inj_add.
    change (N.of_nat 1) with 1%N. by rewrite <- N.Div0.add_mod_idemp_l, <- (N.Div0.add_mod_idemp_r _ 1).
  - rewrite filter_cons_False, filter_nil by congruence. by rewrite Nat.add_0_r.
Qed.

Lemma filter_true {A} (l : list A) : filter (fun _ : A => true = true) l = l.
Proof. induction l as [|a l IH]; [done|]. by rewrite filter_cons_True, IH. Qed.

Lemma count_nil {A} (p : A -> bool) : count p [] = zero64.
Proof. done. Qed.

Definition tally_of (classes : list (bool * bool)) : Tally.t :=
  Tally.Mk (count (fun _ => true) classes) (count (fun '(p, n) => p && negb n) classes)
    (count (fun '(p, n) => n) classes) (count (fun '(p, n) => p && n) classes).

Lemma apply_tally classes :
  apply_updates Tally.default (map Tally.add classes) = tally_of classes.
Proof.
  unfold apply_updates. induction classes as [|[p n] classes IH] using rev_ind; [done|].
  rewrite map_snoc, foldl_snoc, IH. unfold tally_of. rewrite !count_snoc. by destruct p, n.
Qed.

(** The per-agent updates of the calibration loop. *)
Definition calibrate_item (r : OutcomeRecord.t) : string * (Tally.t -> Tally.t) :=
  (agent_of r, Tally.add (classify r)).

Lemma calibrate_loop records :
  let labeled := filter (fun r => is_labeled r = true) records in
  foldl calibrate_step (Tally.default, []) records =
  (tally_of (map classify labeled), bt_fold string_leb Tally.default (map calibrate_item labeled)).
Proof.
  cbn zeta. induction records as [|r records IH] using rev_ind; [done|].
  rewrite foldl_snoc, IH, filter_app. unfold calibrate_step.
  destruct (is_labeled r) eqn:E; simpl.
  - rewrite filter_cons_True, filter_nil by done. rewrite !map_snoc.
    unfold bt_fold. rewrite foldl_snoc. f_equal.
    rewrite <- !apply_tally, map_snoc. unfold apply_updates. by rewrite foldl_snoc.
  - rewrite filter_cons_False, filter_nil by congruence. by rewrite app_nil_r.
Qed.

Lemma updates_of_calibrate a l :
  updates_of a (map calibrate_item l) =
  map Tally.add (map classify (filter (fun r => agent_of r = a) l)).
Proof.
  unfold updates_of. induction l as [|r l IH]; simpl; [done|].
  rewrite !filter_cons. simpl. case_decide; simpl; [by f_equal|done].
Qed.

(** The calibration is its reference definition: the totals count the labeled records'
    classes, and the breakdown has one slice per agent that has a labeled record, agents in
    strictly ascending order, each slice counting that agent's records. *)
Theorem calibrate_spec records :
  let labeled := filter (fun r => is_labeled r = true) records in
  let overall := tally_of (map classify labeled) in
  exists agents,
    StronglySorted (key_lt string_leb) agents /\
    (forall a, a ∈ agents <-> a ∈ map agent_of labeled) /\
    calibrate records =
      OutcomeCalibration.Mk overall.(Tally.labeled) overall.(Tally.shipped)
        overall.(Tally.regressed) overall.(Tally.passed_and_regressed)
        (permille overall.(Tally.shipped) overall.(Tally.labeled))
        (map (fun a => agent_slice
                (a, tally_of (map classify (filter (fun r => agent_of r = a) labeled))))
           agents).
Proof.
  cbn zeta. set (labeled := filter _ records).
  exists (map fst (bt_fold string_leb Tally.default (map calibrate_item labeled))).
  split; [apply bt_fold_sorted; apply _|]. split.
  - intros a. rewrite bt_fold_keys, map_map by apply _. reflexivity.
  - unfold calibrate. rewrite calibrate_loop. fold labeled. cbn zeta iota beta. f_equal.
    rewrite bt_fold_eq at 1 by apply _. rewrite !map_map. apply map_ext. intros [a t]. simpl.
    by rewrite updates_of_calibrate, apply_tally.
Qed.

Lemma permille_le num den : (uval num <= uval den)%N -> (uval (permille num den) <= 1000)%N.
Proof.
  intros L. unfold permille, uchecked_div.
  destruct (N.eqb_spec (uval den) 0); simpl; [done|].
  pose proof (uval_bound den) as B.
  unfold usaturating_mul. change (uval (wrap 64 1000)) with 1000%N.
  rewrite (uval_wrap_small 64 (N.min _ _)) by u64_lia.
  assert (N.min (uval num * 1000) (2 ^ 64 - 1) / uval den <= 1000)%N.
  { apply N.Div0.div_le_upper_bound. u64_lia. }
  rewrite uval_wrap_small; u64_lia.
Qed.

(** A corpus small enough to count never reports a rate above 1000 permille, although
    the product inside [permille] saturates. *)
Theorem calibrate_rates_bounded records (B : (N.of_nat (length records) < 2 ^ 64)%N) :
  (uval (calibrate records).(OutcomeCalibration.ship_permille) <= 1000)%N /\
  Forall (fun a => uval a.(AgentCalibration.ship_permille) <= 1000)%N
    (calibrate records).(OutcomeCalibration.by_agent).
Proof.
  destruct (calibrate_spec records) as (agents & _ & _ & ->).
  set (labeled := filter _ records).
  assert (forall l, l ⊆+ labeled ->
            (uval (permille (tally_of (map classify l)).(Tally.shipped)
                            (tally_of (map classify l)).(Tally.labeled)) <= 1000)%N) as P.
  { intros l Hl. apply permille_le. simpl. unfold count.
    assert (length l <= length records).
    { etrans; [by apply submseteq_length|]. unfold labeled. apply length_filter. }
    pose proof (length_filter (fun a : bool * bool => (let '(p, n) := a in p && negb n) = true)
                  (map classify l)) as L.
    assert (filter (fun _ : bool * bool => true = true) (map classify l) = map classify l) as ->.
    { apply filter_true. }
    rewrite length_map in *. rewrite !uval_wrap_small; u64_lia. }
  split; [by apply P|]. simpl. apply Forall_map, Forall_forall. intros a _. simpl.
  apply P, sublist_submseteq, sublist_filter.
Qed.

Definition sample_record (agent : option string) (os : list Outcome.t) : OutcomeRecord.t :=
  foldl append_label (empty_record "run" None agent) (map (fun o => sample_label 0 o 1) os).

Lemma calibrate_rates_bounded_witness :
  let c := calibrate [sample_record (Some "claude") [Outcome.Merged];
                      sample_record None [Outcome.Merged; Outcome.Reverted]] in
  (uval c.(OutcomeCalibration.ship_permille) <= 1000)%N /\
  Forall (fun a => uval a.(AgentCalibration.ship_permille) <= 1000)%N
    c.(OutcomeCalibration.by_agent).
Proof. intros c. apply calibrate_rates_bounded. reflexivity. Defined.

Lemma key_kind_key kind : key_kind (kind_key kind) = kind.
Proof. by destruct kind. Qed.

Lemma kind_key_inj kind kind' : kind_key kind = kind_key kind' -> kind = kind'.
Proof. intros E. by rewrite <- (key_kind_key kind), E, key_kind_key. Qed.

(** The reference rate of one check, counted directly. *)
Definition is_check (name : string) (kind : CheckKind.t) (c : CheckResult.t) : bool :=
  bool_decide (c.(CheckResult.name) = name /\ c.(CheckResult.kind) = kind).

Definition has_status (s : CheckStatus.t) (c : CheckResult.t) : bool :=
  bool_decide (c.(CheckResult.status) = s).

Definition rate_of (checks : list CheckResult.t) (nk : string * CheckKind.t)
  : CheckFlakyRate.t :=
  let '(name, kind) := nk in
  let all := filter (fun c => is_check name kind c = true) checks in
  let runs := count (fun _ => true) all in
  let flaky := count (has_status CheckStatus.Flaky) all in
  CheckFlakyRate.Mk name kind runs flaky (count (has_status CheckStatus.Fail) all)
    (permille flaky runs).

Definition counts (l : list CheckResult.t) : u64 * u64 * u64 :=
  (count (fun _ => true) l, count (has_status CheckStatus.Flaky) l,
   count (has_status CheckStatus.Fail) l).

Lemma apply_flaky l :
  apply_updates (zero64, zero64, zero64) (map flaky_update l) = counts l.
Proof.
  unfold apply_updates. induction l as [|c l IH] using rev_ind; [done|].
  rewrite map_snoc, foldl_snoc, IH. unfold counts. rewrite !count_snoc.
  unfold flaky_update, has_status. by destruct (c.(CheckResult.status)).
Qed.

Definition flaky_item (c : CheckResult.t) : (string * u8) * (u64 * u64 * u64 -> u64 * u64 * u64) :=
  (check_key c, flaky_update c).

Lemma updates_of_flaky name kind l :
  updates_of (name, kind_key kind) (map flaky_item l) =
  map flaky_update (filter (fun c => is_check name kind c = true) l).
Proof.
  unfold updates_of. induction l as [|c l IH]; simpl; [done|].
  rewrite !filter_cons. simpl. unfold is_check, check_key.
  destruct (decide (c.(CheckResult.name) = name /\ c.(CheckResult.kind) = kind)) as [[E E']|N].
  - rewrite !decide_True by (rewrite ?bool_decide_eq_true; subst; done). simpl. by f_equal.
  - rewrite !decide_False; [done|by rewrite bool_decide_eq_true|].
    intros [= E E'%kind_key_inj]. by apply N.
Qed.

(** The flaky-rate table is its reference definition: one row per [(name, kind)] pair
    that some verdict exercised, in strictly ascending order of name and then of the
    kind's rank, each counting the checks of that pair and how many were flaky or failed. *)
Theorem flaky_rates_spec verdicts :
  let checks := verdicts ≫= Verdict.checks in
  exists keys,
    StronglySorted (fun a b => key_lt check_key_leb (a.1, kind_key a.2) (b.1, kind_key b.2)) keys /\
    (forall nk, nk ∈ keys <->
       nk ∈ map (fun c => (c.(CheckResult.name), c.(CheckResult.kind))) checks) /\
    flaky_rates verdicts = map (rate_of checks) keys.
Proof.
  cbn zeta. unfold flaky_rates. set (checks := verdicts ≫= Verdict.checks).
  set (d := (zero64, zero64, zero64)).
  assert (foldl (fun tallies check => bt_entry check_key_leb (check_key check) d
                   (flaky_update check) tallies) [] checks =
          bt_fold check_key_leb d (map flaky_item checks)) as ->.
  { unfold bt_fold. generalize (@nil ((string * u8) * (u64 * u64 * u64))).
    induction checks as [|c l IH]; intros m; simpl; [done|apply IH]. }
  set (m := bt_fold check_key_leb d (map flaky_item checks)).
  assert (forall k, k ∈ map fst m -> exists c, c ∈ checks /\ k = check_key c) as K.
  { intros k. unfold m. rewrite bt_fold_keys, map_map by apply _.
    intros (c & -> & Hc)%list_elem_of_fmap. by exists c. }
  exists (map (fun k => (k.1, key_kind k.2)) (map fst m)). split; [|split].
  - pose proof (bt_fold_sorted check_key_leb d (map flaky_item checks)) as S.
    fold m in S. unfold bt_sorted in S. clearbody m. revert K.
    induction S as [|k ks S IH F]; simpl; intros K; constructor.
    + apply IH. intros k' Hk'. apply K. by right.
    + apply Forall_map, Forall_forall. intros k' Hk'. simpl.
      rewrite Forall_forall in F. specialize (F _ Hk').
      destruct (K k) as (c & _ & ->); [by left|]. destruct (K k') as (c' & _ & ->); [by right|].
      simpl. by rewrite !key_kind_key.
  - intros [name kind]. rewrite map_map, list_elem_of_fmap. split.
    + intros (kv & [= -> ->] & Hkv). apply (list_elem_of_fmap_2 fst) in Hkv.
      destruct (K _ Hkv) as (c & Hc & E). rewrite E. simpl. rewrite key_kind_key.
      apply list_elem_of_fmap. by exists c.
    + intros (c & [= -> ->] & Hc)%list_elem_of_fmap.
      assert (check_key c ∈ map fst m) as Hk.
      { unfold m. rewrite bt_fold_keys, map_map by apply _. by apply (list_elem_of_fmap_2 check_key). }
      apply list_elem_of_fmap in Hk as (kv & E & Hkv). exists kv.
      rewrite <- E. simpl. by rewrite key_kind_key.
  - unfold m at 1. rewrite bt_fold_eq by apply _. fold m. rewrite !map_map.
    apply map_ext_in. intros kv Hin%list_elem_of_In.
    apply (list_elem_of_fmap_2 fst) in Hin. destruct (K _ Hin) as (c & _ & ->).
    unfold check_key. rewrite updates_of_flaky, apply_flaky. simpl. by rewrite key_kind_key.
Qed.

(** The summary counts the records, those with a label, and every label of each
    disposition. *)
Theorem summarize_spec records :
  let labels := records ≫= OutcomeRecord.labels in
  let having o := count (fun l => bool_decide (l.(OutcomeLabel.outcome) = o)) labels in
  summarize records =
    OutcomeSummary.Mk (len_u64 records) (count is_labeled records) (having Outcome.Merged)
      (having Outcome.Reverted) (having Outcome.Incident) (having Outcome.ShippedNoRegress).
Proof.
  cbn zeta. unfold summarize. generalize (len_u64 records) as total. intros total.
  assert (forall l0 l total labeled,
    foldl count_label
      (OutcomeSummary.Mk total labeled
         (count (fun l => bool_decide (l.(OutcomeLabel.outcome) = Outcome.Merged)) l0)
         (count (fun l => bool_decide (l.(OutcomeLabel.outcome) = Outcome.Reverted)) l0)
         (count (fun l => bool_decide (l.(OutcomeLabel.outcome) = Outcome.Incident)) l0)
         (count (fun l => bool_decide (l.(OutcomeLabel.outcome) = Outcome.ShippedNoRegress)) l0)) l =
    OutcomeSummary.Mk total labeled
         (count (fun l => bool_decide (l.(OutcomeLabel.outcome) = Outcome.Merged)) (l0 ++ l))
         (count (fun l => bool_decide (l.(OutcomeLabel.outcome) = Outcome.Reverted)) (l0 ++ l))
         (count (fun l => bool_decide (l.(OutcomeLabel.outcome) = Outcome.Incident)) (l0 ++ l))
         (count (fun l => bool_decide (l.(OutcomeLabel.outcome) = Outcome.ShippedNoRegress)) (l0 ++ l)))
    as L.
  { intros l0 l. revert l0; induction l as [|x l IH]; intros l0 tot lab;
      [by rewrite app_nil_r|].
    rewrite cons_middle, app_assoc, <- IH, !count_snoc. simpl.
    unfold count_label. by destruct (x.(OutcomeLabel.outcome)). }
  induction records as [|r records IH] using rev_ind; [done|].
  rewrite foldl_snoc, IH, bind_app, count_snoc. simpl. rewrite app_nil_r.
  unfold count_record. rewrite L. f_equal. unfold is_labeled.
  by destruct (r.(OutcomeRecord.labels)).
Qed.
