(* ===== verification/Ledgers.v ===== *)
(** L1, the cross-run transparency log ([nerve-proto/src/ledger.rs],
    [nerve-core/src/ledger.rs]): evidence records chained onto a running head, and the
    verifier that re-derives the chain from the records alone. *)
From S2P Require Import Prelude Json Digest Reference Verdicts Outcomes.

Definition LEDGER_SCHEMA_VERSION : u32 := wrap 32 1.

(** * The vocabulary *)

Module PolicyDecisionOutcome.
Inductive t := Allow | Deny.
#[export] Instance eq_dec : EqDecision t.
Proof. solve_decision. Defined.
#[export, refine] Instance tagged : Tagged t := {|
  tag_of d := match d with Allow => "allow" | Deny => "deny" end;
  variants := [Allow; Deny] |}.
Proof. by intros []. Defined.
#[export] Instance serde : Serde t := tagged_serde.
End PolicyDecisionOutcome.
Export (hints) PolicyDecisionOutcome.

Module AdvisoryJudge.
Record t := Mk { label : string; confidence_bp : u32 }.
#[export, refine] Instance serde : Serde t := {|
  ser a := obj [fld "label" a.(label); fld "confidence_bp" a.(confidence_bp)];
  de j :=
    m ← as_obj j; label ← req "label" m; confidence_bp ← req "confidence_bp" m;
    Some (Mk label confidence_bp) |}.
Proof. all: serde_struct. Defined.
#[export] Instance eq_dec : EqDecision t.
Proof. solve_decision. Defined.
End AdvisoryJudge.
Export (hints) AdvisoryJudge.

Module LedgerKind.
Inductive t :=
  | RunRecorded (run_id run_root_hash agent task_hash : string) (event_count : u64)
  | DiffRecorded (run_id diff_hash : string) (files added removed : u64)
  | PolicyDecision (run_id policy_version capability : string)
      (decision : PolicyDecisionOutcome.t) (detail_hash : option string)
  | Verdict (run_id : string) (diff_hash : option string) (verdict : VerdictStatus.t)
      (checks : list CheckResult.t) (advisory_llm_judge : option AdvisoryJudge.t)
      (run_root_hash : option string)
  | ReceiptIssued (run_id receipt_id inputs_hash policy_version : string)
      (verdict : VerdictStatus.t) (run_root_hash verdict_id : option string)
  | OutcomeRecorded (run_id : string) (outcome : Outcome.t) (source : LabelSource.t)
      (label_hash : string).

Definition kind (tag : string) (fs : fields) : json := obj (fld "kind" tag :: fs).

#[export, refine] Instance serde : Serde t := {|
  ser k := match k with
    | RunRecorded run_id run_root_hash agent task_hash event_count =>
        kind "run_recorded"
          [fld "run_id" run_id; fld "run_root_hash" run_root_hash; fld "agent" agent;
           fld "task_hash" task_hash; fld "event_count" event_count]
    | DiffRecorded run_id diff_hash files added removed =>
        kind "diff_recorded"
          [fld "run_id" run_id; fld "diff_hash" diff_hash; fld "files" files;
           fld "added" added; fld "removed" removed]
    | PolicyDecision run_id policy_version capability decision detail_hash =>
        kind "policy_decision"
          [fld "run_id" run_id; fld "policy_version" policy_version;
           fld "capability" capability; fld "decision" decision;
           fld_opt "detail_hash" detail_hash]
    | Verdict run_id diff_hash verdict checks judge run_root_hash =>
        kind "verdict"
          [fld "run_id" run_id; fld_opt "diff_hash" diff_hash; fld "verdict" verdict;
           fld "checks" checks; fld_opt "advisory_llm_judge" judge;
           fld_opt "run_root_hash" run_root_hash]
    | ReceiptIssued run_id receipt_id inputs_hash policy_version verdict root vid =>
        kind "receipt_issued"
          [fld "run_id" run_id; fld "receipt_id" receipt_id; fld "inputs_hash" inputs_hash;
           fld "policy_version" policy_version; fld "verdict" verdict;
           fld_opt "run_root_hash" root; fld_opt "verdict_id" vid]
    | OutcomeRecorded run_id outcome source label_hash =>
        kind "outcome_recorded"
          [fld "run_id" run_id; fld "outcome" outcome; fld "source" source;
           fld "label_hash" label_hash]
    end;
  de j :=
    m ← as_obj j;
    tag ← req (A:=string) "kind" m;
    by_tag tag
      [("run_recorded",
        run_id ← req "run_id" m; run_root_hash ← req "run_root_hash" m;
        agent ← req "agent" m; task_hash ← req "task_hash" m;
        event_count ← req "event_count" m;
        Some (RunRecorded run_id run_root_hash agent task_hash event_count));
       ("diff_recorded",
        run_id ← req "run_id" m; diff_hash ← req "diff_hash" m; files ← req "files" m;
        added ← req "added" m; removed ← req "removed" m;
        Some (DiffRecorded run_id diff_hash files added removed));
       ("policy_decision",
        run_id ← req "run_id" m; policy_version ← req "policy_version" m;
        capability ← req "capability" m; decision ← req "decision" m;
        detail_hash ← opt "detail_hash" m;
        Some (PolicyDecision run_id policy_version capability decision detail_hash));
       ("verdict",
        run_id ← req "run_id" m; diff_hash ← opt "diff_hash" m; verdict ← req "verdict" m;
        checks ← req "checks" m; judge ← opt "advisory_llm_judge" m;
        run_root_hash ← opt "run_root_hash" m;
        Some (Verdict run_id diff_hash verdict checks judge run_root_hash));
       ("receipt_issued",
        run_id ← req "run_id" m; receipt_id ← req "receipt_id" m;
        inputs_hash ← req "inputs_hash" m; policy_version ← req "policy_version" m;
        verdict ← req "verdict" m; root ← opt "run_root_hash" m; vid ← opt "verdict_id" m;
        Some (ReceiptIssued run_id receipt_id inputs_hash policy_version verdict root vid));
       ("outcome_recorded",
        run_id ← req "run_id" m; outcome ← req "outcome" m; source ← req "source" m;
        label_hash ← req "label_hash" m;
        Some (OutcomeRecorded run_id outcome source label_hash))] |}.
Proof. all: serde_enum. Defined.
#[export] Instance eq_dec : EqDecision t.
Proof. solve_decision. Defined.
End LedgerKind.
Export (hints) LedgerKind.

Module LedgerRecord.
Record t := Mk {
  schema_version : u32;
  seq : u64;
  kind : LedgerKind.t;
  record_hash : string;
  prev_hash : string;
  appended_at_ms : u64;
}.
#[export, refine] Instance serde : Serde t := {|
  ser r := obj
    [fld "schema_version" r.(schema_version); fld "seq" r.(seq); fld "kind" r.(kind);
     fld "record_hash" r.(record_hash); fld "prev_hash" r.(prev_hash);
     fld "appended_at_ms" r.(appended_at_ms)];
  de j :=
    m ← as_obj j;
    schema_version ← req "schema_version" m; seq ← req "seq" m; kind ← req "kind" m;
    record_hash ← req "record_hash" m; prev_hash ← req "prev_hash" m;
    appended_at_ms ← dflt (wrap 64 0) "appended_at_ms" m;
    Some (Mk schema_version seq kind record_hash prev_hash appended_at_ms) |}.
Proof. all: serde_struct. Defined.
#[export] Instance eq_dec : EqDecision t.
Proof. solve_decision. Defined.
End LedgerRecord.
Export (hints) LedgerRecord.

Module LedgerHead.
Record t := Mk { schema_version : u32; count : u64; head_hash : string }.
#[export, refine] Instance serde : Serde t := {|
  ser h := obj [fld "schema_version" h.(schema_version); fld "count" h.(count); fld "head_hash" h.(head_hash)];
  de j :=
    m ← as_obj j;
    schema_version ← req "schema_version" m; count ← req "count" m;
    head_hash ← dflt EmptyString "head_hash" m; Some (Mk schema_version count head_hash) |}.
Proof. all: serde_struct. Defined.
#[export] Instance eq_dec : EqDecision t.
Proof. solve_decision. Defined.
End LedgerHead.
Export (hints) LedgerHead.

Module LedgerVerifyError.
Inductive t :=
  | HashMismatch (seq : u64)
  | SeqGap (expected found : u64)
  | PrevMismatch (seq : u64).
#[export] Instance eq_dec : EqDecision t.
Proof. solve_decision. Defined.
End LedgerVerifyError.
Export (hints) LedgerVerifyError.

(** * Appending and verifying *)

Definition empty_head : LedgerHead.t :=
  LedgerHead.Mk LEDGER_SCHEMA_VERSION (wrap 64 0) EmptyString.

Section log.
Context `{SerdeJson, Sha256}.

Definition hash_record_identity (seq : u64) (kind : LedgerKind.t) : string :=
  digest (to_le_bytes seq +:+ json_bytes kind).

Definition append_record (head : LedgerHead.t) (kind : LedgerKind.t) (appended_at_ms : u64)
  : LedgerRecord.t * LedgerHead.t :=
  let seq := head.(LedgerHead.count) in
  let prev_hash := head.(LedgerHead.head_hash) in
  let identity := hash_record_identity seq kind in
  let record_hash := chain prev_hash identity in
  (LedgerRecord.Mk LEDGER_SCHEMA_VERSION seq kind record_hash prev_hash appended_at_ms,
   LedgerHead.Mk LEDGER_SCHEMA_VERSION (uadd head.(LedgerHead.count) (wrap 64 1)) record_hash).

(** The loop of [verify_chain] from the record at position [index] on. *)
Fixpoint verify_from (index : nat) (prev_hash : string) (records : list LedgerRecord.t)
  : string + LedgerVerifyError.t :=
  match records with
  | [] => inl prev_hash
  | record :: records =>
      let expected_seq := wrap 64 (N.of_nat index) in
      let seq := record.(LedgerRecord.seq) in
      if negb (bool_decide (seq = expected_seq))
      then inr (LedgerVerifyError.SeqGap expected_seq seq)
      else if negb (bool_decide (record.(LedgerRecord.prev_hash) = prev_hash))
      then inr (LedgerVerifyError.PrevMismatch seq)
      else
        let identity := hash_record_identity seq record.(LedgerRecord.kind) in
        let recomputed := chain prev_hash identity in
        if negb (bool_decide (recomputed = record.(LedgerRecord.record_hash)))
        then inr (LedgerVerifyError.HashMismatch seq)
        else verify_from (S index) record.(LedgerRecord.record_hash) records
  end.

Definition verify_chain (records : list LedgerRecord.t) : LedgerHead.t + LedgerVerifyError.t :=
  match verify_from 0 EmptyString records with
  | inl prev_hash => inl (LedgerHead.Mk LEDGER_SCHEMA_VERSION (len_u64 records) prev_hash)
  | inr e => inr e
  end.

(** A host's log: facts appended one after another onto a head. *)
Fixpoint append_all (head : LedgerHead.t) (facts : list (LedgerKind.t * u64))
  : list LedgerRecord.t * LedgerHead.t :=
  match facts with
  | [] => ([], head)
  | (kind, at_ms) :: facts =>
      let '(record, head) := append_record head kind at_ms in
      let '(records, head) := append_all head facts in
      (record :: records, head)
  end.
End log.

(** * Properties *)

Definition fact_of (r : LedgerRecord.t) : LedgerKind.t * u64 :=
  (r.(LedgerRecord.kind), r.(LedgerRecord.appended_at_ms)).

Definition with_schema (r : LedgerRecord.t) : LedgerRecord.t :=
  LedgerRecord.Mk LEDGER_SCHEMA_VERSION r.(LedgerRecord.seq) r.(LedgerRecord.kind)
    r.(LedgerRecord.record_hash) r.(LedgerRecord.prev_hash) r.(LedgerRecord.appended_at_ms).

(** What the chain commits to: everything but the schema version and the timestamp. *)
Definition committed (r : LedgerRecord.t) : u64 * LedgerKind.t * string * string :=
  (r.(LedgerRecord.seq), r.(LedgerRecord.kind), r.(LedgerRecord.record_hash),
   r.(LedgerRecord.prev_hash)).

Lemma wrap_succ i : uadd (wrap 64 (N.of_nat i)) (wrap 64 1) = wrap 64 (N.of_nat (S i)).
Proof.
  apply uint_eq. unfold uadd. rewrite !uval_wrap, Nat2N.inj_succ, <- N.add_1_r.
  by rewrite <- N.Div0.add_mod.
Qed.

Section properties.
Context `{SerdeJson, !SerdeJsonSpec, Sha256, !Sha256Spec}.

Definition head_at (i : nat) (h : string) : LedgerHead.t :=
  LedgerHead.Mk LEDGER_SCHEMA_VERSION (wrap 64 (N.of_nat i)) h.

Definition identity_of (r : LedgerRecord.t) : string :=
  hash_record_identity r.(LedgerRecord.seq) r.(LedgerRecord.kind).

(** A record the verifier accepts at position [i] after [prev]. *)
Definition links (i : nat) (prev : string) (r : LedgerRecord.t) : Prop :=
  r.(LedgerRecord.seq) = wrap 64 (N.of_nat i) /\ r.(LedgerRecord.prev_hash) = prev /\
  r.(LedgerRecord.record_hash) = chain prev (identity_of r).

#[export] Instance links_dec i prev r : Decision (links i prev r).
Proof. unfold links. apply _. Defined.

Lemma verify_from_cons i prev r rs :
  links i prev r ->
  verify_from i prev (r :: rs) = verify_from (S i) r.(LedgerRecord.record_hash) rs.
Proof.
  intros (Hs & Hp & Hh). simpl. unfold identity_of in Hh.
  rewrite !bool_decide_eq_true_2 by (congruence || done). done.
Qed.

Lemma verify_from_stop i prev r rs h :
  verify_from i prev (r :: rs) = inl h -> links i prev r.
Proof.
  simpl. unfold links, identity_of.
  repeat case_bool_decide; simpl; intros; done.
Qed.

(** The verifier accepts exactly what appending produces. *)
Lemma verify_from_append i prev rs h :
  verify_from i prev rs = inl h <->
  append_all (head_at i prev) (map fact_of rs) =
    (map with_schema rs, head_at (i + length rs) h).
Proof.
  revert i prev; induction rs as [|r rs IH]; intros i prev; cbn [map append_all fact_of length].
  - simpl. rewrite Nat.add_0_r. split; [by intros [= ->]|by intros [= ->]].
  - unfold append_record at 1. cbn [LedgerHead.count LedgerHead.head_hash head_at].
    rewrite wrap_succ. fold (head_at (S i) (chain prev (hash_record_identity
      (wrap 64 (N.of_nat i)) r.(LedgerRecord.kind)))).
    rewrite <- Nat.add_succ_comm.
    destruct (decide (links i prev r)) as [L|L].
    + rewrite verify_from_cons, IH by done.
      destruct L as (Hs & Hp & Hh). unfold identity_of in Hh. rewrite Hs in Hh.
      rewrite <- Hh. destruct (append_all _ _) as [rs' h'] eqn:E.
      destruct r as [v s k rh ph t]; simpl in *. subst s ph. unfold with_schema at 2; simpl.
      split; [by intros [= -> ->]|by intros [= -> ->]].
    + split.
      * intros V. exfalso. apply L. by eapply verify_from_stop.
      * destruct (append_all _ _) as [rs' h'] eqn:E. intros [= Hs Hh Hp _ _]. exfalso.
        apply L. unfold links, identity_of. rewrite <- Hs. by rewrite <- Hh, <- Hp.
Qed.

Lemma append_all_head i prev facts :
  exists h, (append_all (head_at i prev) facts).2 = head_at (i + length facts) h.
Proof.
  revert i prev; induction facts as [|[k t] facts IH]; intros i prev; cbn [append_all length].
  - exists prev. simpl. by rewrite Nat.add_0_r.
  - unfold append_record at 1. cbn [LedgerHead.count LedgerHead.head_hash head_at].
    rewrite wrap_succ. destruct (IH (S i) (chain prev (hash_record_identity
      (wrap 64 (N.of_nat i)) k))) as [h Hh].
    exists h. rewrite <- Nat.add_succ_comm, <- Hh.
    unfold head_at. by destruct (append_all _ _).
Qed.

Lemma verify_chain_appended records head :
  verify_chain records = inl head <->
  append_all empty_head (map fact_of records) = (map with_schema records, head).
Proof.
  unfold verify_chain. change empty_head with (head_at 0 EmptyString). split.
  - destruct (verify_from 0 EmptyString records) as [h|] eqn:V; [|done].
    intros [= <-]. by apply verify_from_append.
  - intros A. destruct (append_all_head 0 EmptyString (map fact_of records)) as [h Hh].
    rewrite A, length_map in Hh. simpl in Hh. subst head.
    apply (verify_from_append 0) in A. by rewrite A.
Qed.

(** C1: the verifier accepts a log exactly when appending its facts, in order, to the empty
    log rebuilds it byte for byte, and then it returns the head that appending reaches. The
    schema version of a record is the one thing it does not look at. *)
Theorem verify_chain_iff_appended records head :
  verify_chain records = inl head <->
  append_all empty_head (map fact_of records) = (map with_schema records, head).
Proof. apply verify_chain_appended. Qed.

(** Verifying a log is verifying a prefix, then one record. *)
Lemma verify_from_app i prev rs rs' :
  verify_from i prev (rs ++ rs') =
  match verify_from i prev rs with
  | inl h => verify_from (i + length rs) h rs'
  | inr e => inr e
  end.
Proof.
  revert i prev; induction rs as [|r rs IH]; intros i prev; cbn [app length].
  - simpl. by rewrite Nat.add_0_r.
  - cbn [verify_from]. repeat (case_bool_decide; simpl; [|done]).
    rewrite <- Nat.add_succ_comm. apply IH.
Qed.

(** The first check that record [r] fails after [head]. *)
Definition first_failure (head : LedgerHead.t) (r : LedgerRecord.t)
    (e : LedgerVerifyError.t) : Prop :=
  let seq := r.(LedgerRecord.seq) in
  match e with
  | LedgerVerifyError.SeqGap expected found =>
      expected = head.(LedgerHead.count) /\ found = seq /\ found <> expected
  | LedgerVerifyError.PrevMismatch s =>
      s = seq /\ seq = head.(LedgerHead.count) /\
      r.(LedgerRecord.prev_hash) <> head.(LedgerHead.head_hash)
  | LedgerVerifyError.HashMismatch s =>
      s = seq /\ seq = head.(LedgerHead.count) /\
      r.(LedgerRecord.prev_hash) = head.(LedgerHead.head_hash) /\
      r.(LedgerRecord.record_hash) <> chain head.(LedgerHead.head_hash) (identity_of r)
  end.

Lemma first_failure_links i h r e : first_failure (head_at i h) r e -> ~ links i h r.
Proof. unfold links. destruct e; simpl; intuition congruence. Qed.

Lemma verify_from_fails i h r rs e :
  first_failure (head_at i h) r e <-> verify_from i h (r :: rs) = inr e /\ ~ links i h r.
Proof.
  unfold links, identity_of. simpl. split.
  - destruct e as [s|x f|s]; simpl; unfold identity_of; intros F;
      repeat case_bool_decide; simpl; intuition congruence.
  - intros [V L]. repeat case_bool_decide; simpl in *; try (injection V as <-; simpl; intuition congruence).
    exfalso. apply L. intuition congruence.
Qed.

(** A rejection is precise: the verifier returns an error exactly when the log is an
    accepted prefix followed by a record that fails, and the error names the first of the
    three checks that record fails, with its sequence number. *)
Theorem verify_chain_error_iff records e :
  verify_chain records = inr e <->
  exists pre r post head,
    records = pre ++ r :: post /\ verify_chain pre = inl head /\ first_failure head r e.
Proof.
  unfold verify_chain. split.
  - destruct (verify_from 0 EmptyString records) as [h|e'] eqn:V; [done|]. intros [= ->].
    change 0 with (0 + length (@nil LedgerRecord.t)) in V.
    assert (verify_from 0 EmptyString [] = inl EmptyString) as P by done.
    assert (records = [] ++ records) as E by done. revert V P E.
    generalize (@nil LedgerRecord.t) at 1 2 3 as pre. generalize EmptyString at 1 3 as h.
    generalize records at 1 3 as rest. induction rest as [|r rest IH]; intros h pre V P E; [done|].
    destruct (decide (links (length pre) h r)) as [L|L].
    + rewrite verify_from_cons in V by done.
      apply (IH r.(LedgerRecord.record_hash) (pre ++ [r])).
      * by rewrite length_app, Nat.add_1_r.
      * rewrite verify_from_app, P. simpl (0 + _). by rewrite verify_from_cons.
      * by rewrite <- app_assoc.
    + exists pre, r, rest, (head_at (length pre) h). rewrite P. repeat split; [done|].
      by eapply verify_from_fails.
  - intros (pre & r & post & head & -> & P & F).
    destruct (verify_from 0 EmptyString pre) as [h|] eqn:V; [|done]. injection P as <-.
    rewrite verify_from_app, V. simpl (0 + _).
    apply (verify_from_fails (length pre) h r post) in F as [-> _]. done.
Qed.

(** The head of an accepted log is the chain of its records' identities. *)
Lemma verify_from_chain i prev rs h :
  verify_from i prev rs = inl h -> h = chain_head prev (map identity_of rs).
Proof.
  revert i prev; induction rs as [|r rs IH]; intros i prev V; [by injection V|].
  pose proof (verify_from_stop _ _ _ _ _ V) as L. rewrite verify_from_cons in V by done.
  apply IH in V. destruct L as (_ & _ & Hh). simpl. by rewrite V, Hh.
Qed.

(** The messages hashed while verifying a log. *)
Definition identity_bytes (r : LedgerRecord.t) : bytes :=
  to_le_bytes r.(LedgerRecord.seq) +:+ json_bytes r.(LedgerRecord.kind).

Definition log_messages (rs : list LedgerRecord.t) : list bytes :=
  map identity_bytes rs ++ chain_messages EmptyString (map identity_of rs).

Lemma identity_bytes_inj r r' :
  identity_bytes r = identity_bytes r' ->
  r.(LedgerRecord.seq) = r'.(LedgerRecord.seq) /\ r.(LedgerRecord.kind) = r'.(LedgerRecord.kind).
Proof using Type*.
  unfold identity_bytes. intros E.
  apply app_inj_length_l in E as [Es Ek]; [|by unfold to_le_bytes; rewrite !length_le_bytes].
  split; [by apply to_le_bytes_inj|by apply json_bytes_inj].
Qed.

Lemma committed_inj ms i prev rs rs' h h' :
  no_collision ms -> map identity_bytes rs ⊆ ms -> map identity_bytes rs' ⊆ ms ->
  verify_from i prev rs = inl h -> verify_from i prev rs' = inl h' ->
  map identity_of rs = map identity_of rs' -> map committed rs = map committed rs'.
Proof using Type*.
  intros NC. revert i prev rs'; induction rs as [|r rs IH]; intros i prev [|r' rs'] S S' V V' E;
    try done.
  pose proof (verify_from_stop _ _ _ _ _ V) as L. rewrite verify_from_cons in V by done.
  pose proof (verify_from_stop _ _ _ _ _ V') as L'. rewrite verify_from_cons in V' by done.
  simpl in E. injection E as Er E.
  assert (identity_bytes r = identity_bytes r') as [Es Ek]%identity_bytes_inj.
  { apply (digest_inj_on ms); [done|apply S; by left|apply S'; by left|done]. }
  destruct L as (_ & Hp & Hh), L' as (_ & Hp' & Hh'). simpl. f_equal.
  - unfold committed. by rewrite Es, Ek, Hp, Hp', Hh, Hh', Er.
  - apply (IH (Datatypes.S i) r.(LedgerRecord.record_hash)); [..|done].
    + intros x Hx. apply S. by right.
    + intros x Hx. apply S'. by right.
    + done.
    + by rewrite Hh, Er, <- Hh'.
Qed.
End properties.

(** C8: the head is tamper evident: two accepted logs with the same head hash carry the same
    facts at the same positions with the same links, unless verifying them exhibits a
    SHA-256 collision. No record can be edited, dropped, inserted or reordered under an
    unchanged head. *)
Theorem ledger_head_tamper_evident `{SerdeJson, !SerdeJsonSpec, Sha256, !Sha256Spec}
    records records' head head'
    (NC : no_collision (log_messages records ++ log_messages records'))
    (V : verify_chain records = inl head) (V' : verify_chain records' = inl head')
    (E : head.(LedgerHead.head_hash) = head'.(LedgerHead.head_hash)) :
  map committed records = map committed records'.
Proof.
  unfold verify_chain in V, V'.
  destruct (verify_from 0 EmptyString records) as [h|] eqn:F; [|done].
  destruct (verify_from 0 EmptyString records') as [h'|] eqn:F'; [|done].
  injection V as <-. injection V' as <-. simpl in E. subst h'.
  assert (map identity_of records = map identity_of records') as Ei.
  { assert (forall l, Forall (fun x => String.length x = 64) (map identity_of l)) as F64.
    { intros l. apply Forall_map, Forall_forall. intros ? _. apply length_digest. }
    apply chain_head_inj; [done..| |].
    - eapply no_collision_mono, NC. unfold log_messages. set_solver.
    - apply verify_from_chain in F, F'. congruence. }
  eapply committed_inj; [exact NC|..|exact F|exact F'|exact Ei];
    unfold log_messages; set_solver.
Qed.

Definition sample_facts : list (LedgerKind.t * u64) :=
  [(LedgerKind.RunRecorded "run" "aa" "claude" "bb" (wrap 64 3), wrap 64 10);
   (LedgerKind.PolicyDecision "run" "v1" "exec" PolicyDecisionOutcome.Deny None, wrap 64 11)].

(** The same facts recorded at other times. *)
Lemma ledger_head_tamper_evident_witness :
  let '(records, _) := append_all empty_head sample_facts in
  let '(records', _) := append_all empty_head (map (fun f => (f.1, wrap 64 99)) sample_facts) in
  map committed records = map committed records'.
Proof.
  apply (ledger_head_tamper_evident
           (append_all empty_head sample_facts).1
           (append_all empty_head (map (fun f => (f.1, wrap 64 99)) sample_facts)).1
           (append_all empty_head sample_facts).2 (append_all empty_head sample_facts).2).
  - no_collision_tac.
  - vm_compute. reflexivity.
  - vm_compute. reflexivity.
  - reflexivity.
Defined.
