(* ===== verification/Policies.v ===== *)
(** L3, the policy document ([nerve-proto/src/policy.rs], [nerve-core/src/policy.rs]): the
    org's rules sealed under a version that is the content address of their body. *)
From S2P Require Import Prelude Json Digest Reference.

Definition POLICY_SCHEMA_VERSION : u32 := wrap 32 1.

Module Capability.
Inductive t := Read | Write | Egress | Exec.
Definition default : t := Exec.
#[export] Instance eq_dec : EqDecision t.
Proof. solve_decision. Defined.
#[export, refine] Instance tagged : Tagged t := {|
  tag_of c := match c with
    | Read => "read" | Write => "write" | Egress => "egress" | Exec => "exec" end;
  variants := [Read; Write; Egress; Exec] |}.
Proof. by intros []. Defined.
#[export] Instance serde : Serde t := tagged_serde.
End Capability.
Export (hints) Capability.

Module CapabilityRule.
Record t := Mk {
  tool : string; action : string; capability : Capability.t; agent : option string
}.
#[export, refine] Instance serde : Serde t := {|
  ser r := obj [fld "tool" r.(tool); fld "action" r.(action); fld "capability" r.(capability);
                fld_opt "agent" r.(agent)];
  de j :=
    m ← as_obj j;
    tool ← req "tool" m; action ← req "action" m;
    capability ← dflt Capability.default "capability" m; agent ← opt "agent" m;
    Some (Mk tool action capability agent) |}.
Proof. all: serde_struct. Defined.
#[export] Instance eq_dec : EqDecision t.
Proof. solve_decision. Defined.
End CapabilityRule.
Export (hints) CapabilityRule.

Module MergeBar.
Record t := Mk { required_checks : list string; expected_checkspec_hash : option string }.
Definition default : t := Mk [] None.
Definition is_empty (b : t) : bool :=
  match b.(required_checks), b.(expected_checkspec_hash) with [], None => true | _, _ => false end.
#[export, refine] Instance serde : Serde t := {|
  ser b := obj [fld "required_checks" b.(required_checks);
                fld_opt "expected_checkspec_hash" b.(expected_checkspec_hash)];
  de j :=
    m ← as_obj j;
    required_checks ← dflt [] "required_checks" m;
    expected_checkspec_hash ← opt "expected_checkspec_hash" m;
    Some (Mk required_checks expected_checkspec_hash) |}.
Proof. all: serde_struct. Defined.
#[export] Instance eq_dec : EqDecision t.
Proof. solve_decision. Defined.
End MergeBar.
Export (hints) MergeBar.

Module EvidenceRequirement.
Record t := Mk { kind : string }.
#[export, refine] Instance serde : Serde t := {|
  ser e := obj [fld "kind" e.(kind)];
  de j := m ← as_obj j; kind ← req "kind" m; Some (Mk kind) |}.
Proof. all: serde_struct. Defined.
#[export] Instance eq_dec : EqDecision t.
Proof. solve_decision. Defined.
End EvidenceRequirement.
Export (hints) EvidenceRequirement.

Module PolicyDoc.
Record t := Mk {
  schema_version : u32;
  policy_version : string;
  capabilities : list CapabilityRule.t;
  merge_bar : MergeBar.t;
  required_evidence : list EvidenceRequirement.t;
}.
Definition default : t := Mk (wrap 32 0) EmptyString [] MergeBar.default [].
#[export, refine] Instance serde : Serde t := {|
  ser p := obj
    [fld "schema_version" p.(schema_version); fld "policy_version" p.(policy_version);
     fld "capabilities" p.(capabilities); fld "merge_bar" p.(merge_bar);
     fld "required_evidence" p.(required_evidence)];
  de j :=
    m ← as_obj j;
    schema_version ← req "schema_version" m;
    policy_version ← dflt EmptyString "policy_version" m;
    capabilities ← dflt [] "capabilities" m; merge_bar ← dflt MergeBar.default "merge_bar" m;
    required_evidence ← dflt [] "required_evidence" m;
    Some (Mk schema_version policy_version capabilities merge_bar required_evidence) |}.
Proof. all: serde_struct. Defined.
End PolicyDoc.
Export (hints) PolicyDoc.

Module PolicyDecisionRecord.
Record t := Mk {
  schema_version : u32;
  policy_version : string;
  session_id : string;
  agent : string;
  tool : string;
  capability : Capability.t;
  decision : string;
  reason : string;
  args_hash : string;
}.
#[export, refine] Instance serde : Serde t := {|
  ser r := obj
    [fld "schema_version" r.(schema_version); fld "policy_version" r.(policy_version);
     fld "session_id" r.(session_id); fld "agent" r.(agent); fld "tool" r.(tool);
     fld "capability" r.(capability); fld "decision" r.(decision); fld "reason" r.(reason);
     fld "args_hash" r.(args_hash)];
  de j :=
    m ← as_obj j;
    schema_version ← req "schema_version" m; policy_version ← req "policy_version" m;
    session_id ← req "session_id" m; agent ← dflt EmptyString "agent" m;
    tool ← req "tool" m; capability ← req "capability" m; decision ← req "decision" m;
    reason ← req "reason" m; args_hash ← dflt EmptyString "args_hash" m;
    Some (Mk schema_version policy_version session_id agent tool capability decision reason
            args_hash) |}.
Proof. all: serde_struct. Defined.
End PolicyDecisionRecord.
Export (hints) PolicyDecisionRecord.

(** * Sealing *)

Definition with_version (doc : PolicyDoc.t) (policy_version : string) : PolicyDoc.t :=
  PolicyDoc.Mk doc.(PolicyDoc.schema_version) policy_version doc.(PolicyDoc.capabilities)
    doc.(PolicyDoc.merge_bar) doc.(PolicyDoc.required_evidence).

Section seal.
Context `{SerdeJson, Sha256}.

Definition seal_policy (doc : PolicyDoc.t) : PolicyDoc.t :=
  let doc := with_version doc EmptyString in
  with_version doc (digest (json_bytes doc)).

Definition hash_decision (record : PolicyDecisionRecord.t) : string :=
  digest (json_bytes record).

Definition hash_args (args : json) : string := digest (to_vec args).

(** The bytes a policy's version is computed over. *)
Definition policy_body (doc : PolicyDoc.t) : bytes := json_bytes (with_version doc EmptyString).
End seal.

(** * Properties *)

(** The sealed version is a content address of the policy's body and of nothing else:
    sealing is idempotent, ignores whatever version the document carried, and, unless the
    two bodies collide, gives two documents the same version only when they agree on the
    schema, the capabilities, the merge bar and the required evidence. *)
Theorem seal_policy_spec `{SerdeJson, !SerdeJsonSpec, Sha256} doc doc'
    (NC : no_collision [policy_body doc; policy_body doc']) :
  seal_policy (seal_policy doc) = seal_policy doc /\
  (forall v, seal_policy (with_version doc v) = seal_policy doc) /\
  ((seal_policy doc).(PolicyDoc.policy_version) = (seal_policy doc').(PolicyDoc.policy_version) <->
   with_version doc EmptyString = with_version doc' EmptyString).
Proof.
  split; [done|]. split; [done|]. unfold seal_policy. simpl. split.
  - intros E. apply (digest_inj_on _ _ _ NC) in E;
      [|unfold policy_body; by repeat constructor..].
    by apply json_bytes_inj in E.
  - by intros ->.
Qed.

Lemma seal_policy_spec_witness :
  let doc := PolicyDoc.Mk POLICY_SCHEMA_VERSION "stale" [] (MergeBar.Mk ["unit"] None) [] in
  let doc' := PolicyDoc.default in
  seal_policy (seal_policy doc) = seal_policy doc /\
  (forall v, seal_policy (with_version doc v) = seal_policy doc) /\
  ((seal_policy doc).(PolicyDoc.policy_version) = (seal_policy doc').(PolicyDoc.policy_version) <->
   with_version doc EmptyString = with_version doc' EmptyString).
Proof. intros doc doc'. apply seal_policy_spec. no_collision_tac. Defined.
