(* ===== verification/Receipts.v ===== *)
(** L4, the portable verification receipt ([nerve-proto/src/receipt.rs],
    [nerve-core/src/receipt.rs]): the signed statement, its canonical bytes and content id,
    the DSSE pre-authentication encoding, and the verification of a sealed receipt against
    an injected signature predicate. *)
From S2P Require Import Prelude Text Json Digest Reference Verdicts Provenance Policies.

Definition RECEIPT_SCHEMA_VERSION : u32 := wrap 32 1.
Definition RECEIPT_PREDICATE_TYPE : string :=
  "https://nerve.dev/attestations/verification-receipt/v1".

(** * The vocabulary *)

Module ReceiptCheck.
Record t := Mk {
  name : string;
  kind : CheckKind.t;
  verdict : VerdictStatus.t;
  reproducible : bool;
  evidence_hash : option string;
}.
#[export, refine] Instance serde : Serde t := {|
  ser c := obj [fld "name" c.(name); fld "kind" c.(kind); fld "verdict" c.(verdict);
                fld "reproducible" c.(reproducible); fld_opt "evidence_hash" c.(evidence_hash)];
  de j :=
    m ← as_obj j;
    name ← req "name" m; kind ← req "kind" m; verdict ← req "verdict" m;
    reproducible ← req "reproducible" m; evidence_hash ← opt "evidence_hash" m;
    Some (Mk name kind verdict reproducible evidence_hash) |}.
Proof. all: serde_struct. Defined.
End ReceiptCheck.
Export (hints) ReceiptCheck.

Module LedgerRef.
Record t := Mk { log_id : string; seq : u64; entry_hash : string; prev_hash : string }.
#[export, refine] Instance serde : Serde t := {|
  ser r := obj [fld "log_id" r.(log_id); fld "seq" r.(seq); fld "entry_hash" r.(entry_hash);
                fld "prev_hash" r.(prev_hash)];
  de j :=
    m ← as_obj j;
    log_id ← req "log_id" m; seq ← req "seq" m; entry_hash ← req "entry_hash" m;
    prev_hash ← req "prev_hash" m; Some (Mk log_id seq entry_hash prev_hash) |}.
Proof. all: serde_struct. Defined.
End LedgerRef.
Export (hints) LedgerRef.

Module ReceiptProvenance.
Record t := Mk {
  run_id : string;
  inputs_hash : string;
  toolchain_digest : option string;
  policy_version : option string;
  ledger_ref : option LedgerRef.t;
  isolation_tier : IsolationTier.t;
}.
#[export, refine] Instance serde : Serde t := {|
  ser p := obj
    [fld "run_id" p.(run_id); fld "inputs_hash" p.(inputs_hash);
     fld_opt "toolchain_digest" p.(toolchain_digest);
     fld_opt "policy_version" p.(policy_version); fld_opt "ledger_ref" p.(ledger_ref);
     fld_skip is_contained "isolation_tier" p.(isolation_tier)];
  de j :=
    m ← as_obj j;
    run_id ← req "run_id" m; inputs_hash ← req "inputs_hash" m;
    toolchain_digest ← opt "toolchain_digest" m; policy_version ← opt "policy_version" m;
    ledger_ref ← opt "ledger_ref" m;
    isolation_tier ← dflt IsolationTier.Contained "isolation_tier" m;
    Some (Mk run_id inputs_hash toolchain_digest policy_version ledger_ref isolation_tier) |}.
Proof. all: serde_struct. Defined.
End ReceiptProvenance.
Export (hints) ReceiptProvenance.

(** The receipt's replay binding ([ReceiptReplayManifest] outside its module). *)
Module ReplayBinding.
Record t := Mk {
  run_schema_version : u32;
  root_hash : string;
  event_count : u64;
  command : option string;
}.
#[export, refine] Instance serde : Serde t := {|
  ser r := obj
    [fld "run_schema_version" r.(run_schema_version); fld "root_hash" r.(root_hash);
     fld "event_count" r.(event_count); fld_opt "command" r.(command)];
  de j :=
    m ← as_obj j;
    run_schema_version ← req "run_schema_version" m; root_hash ← req "root_hash" m;
    event_count ← req "event_count" m; command ← opt "command" m;
    Some (Mk run_schema_version root_hash event_count command) |}.
Proof. all: serde_struct. Defined.
End ReplayBinding.
Export (hints) ReplayBinding.

Module ReceiptSignature.
Record t := Mk {
  payload_type : string;
  backend : string;
  keyid : string;
  sig : string;
  public_key : option string;
  bundle : option string;
}.
#[export, refine] Instance serde : Serde t := {|
  ser s := obj
    [fld "payload_type" s.(payload_type); fld "backend" s.(backend); fld "keyid" s.(keyid);
     fld "sig" s.(sig); fld_opt "public_key" s.(public_key); fld_opt "bundle" s.(bundle)];
  de j :=
    m ← as_obj j;
    payload_type ← req "payload_type" m; backend ← req "backend" m; keyid ← req "keyid" m;
    sig ← req "sig" m; public_key ← opt "public_key" m; bundle ← opt "bundle" m;
    Some (Mk payload_type backend keyid sig public_key bundle) |}.
Proof. all: serde_struct. Defined.
End ReceiptSignature.
Export (hints) ReceiptSignature.

Definition is_nil {A} (l : list A) : bool := match l with [] => true | _ => false end.

Module ReceiptStatement.
Record t := Mk {
  predicate_type : string;
  provenance : ReceiptProvenance.t;
  checks : list ReceiptCheck.t;
  verdict : VerdictStatus.t;
  replay_manifest : ReplayBinding.t;
  issued_at_ms : u64;
  checkspec_hash : option string;
  merge_bar : MergeBar.t;
  required_evidence : list EvidenceRequirement.t;
}.
#[export, refine] Instance serde : Serde t := {|
  ser s := obj
    [fld "predicate_type" s.(predicate_type); fld "provenance" s.(provenance);
     fld "checks" s.(checks); fld "verdict" s.(verdict);
     fld "replay_manifest" s.(replay_manifest); fld "issued_at_ms" s.(issued_at_ms);
     fld_opt "checkspec_hash" s.(checkspec_hash);
     fld_skip MergeBar.is_empty "merge_bar" s.(merge_bar);
     fld_skip is_nil "required_evidence" s.(required_evidence)];
  de j :=
    m ← as_obj j;
    predicate_type ← req "predicate_type" m; provenance ← req "provenance" m;
    checks ← req "checks" m; verdict ← req "verdict" m;
    replay_manifest ← req "replay_manifest" m; issued_at_ms ← req "issued_at_ms" m;
    checkspec_hash ← opt "checkspec_hash" m;
    merge_bar ← dflt MergeBar.default "merge_bar" m;
    required_evidence ← dflt [] "required_evidence" m;
    Some (Mk predicate_type provenance checks verdict replay_manifest issued_at_ms
            checkspec_hash merge_bar required_evidence) |}.
Proof. all: serde_struct. Defined.
End ReceiptStatement.
Export (hints) ReceiptStatement.

Module Receipt.
Record t := Mk {
  schema_version : u32;
  receipt_id : string;
  statement : ReceiptStatement.t;
  signature : ReceiptSignature.t;
}.
#[export, refine] Instance serde : Serde t := {|
  ser r := obj
    [fld "schema_version" r.(schema_version); fld "receipt_id" r.(receipt_id);
     fld "statement" r.(statement); fld "signature" r.(signature)];
  de j :=
    m ← as_obj j;
    schema_version ← req "schema_version" m; receipt_id ← req "receipt_id" m;
    statement ← req "statement" m; signature ← req "signature" m;
    Some (Mk schema_version receipt_id statement signature) |}.
Proof. all: serde_struct. Defined.
End Receipt.
Export (hints) Receipt.

Module ReceiptVerification.
Record t := Mk {
  statement_intact : bool; signature_valid : bool; verdict : VerdictStatus.t
}.
End ReceiptVerification.

(** * Building *)

Definition aggregate_verdict (checks : list ReceiptCheck.t) : VerdictStatus.t :=
  match checks with
  | [] => VerdictStatus.Inconclusive
  | _ =>
      if existsb (fun c => bool_decide (c.(ReceiptCheck.verdict) = VerdictStatus.Error)) checks
      then VerdictStatus.Error
      else if existsb (fun c => negb (bool_decide (c.(ReceiptCheck.verdict) = VerdictStatus.Passed)))
                checks
      then VerdictStatus.Failed
      else VerdictStatus.Passed
  end.

Definition replay_manifest_for (run : Run.t) : ReplayBinding.t :=
  ReplayBinding.Mk run.(Run.schema_version) run.(Run.root_hash) (len_u64 run.(Run.events)) None.

(** [usize::to_string]. *)
Definition show_len (s : bytes) : string := pretty (N.of_nat (String.length s)).

Definition dsse_pae (payload_type : string) (payload : bytes) : bytes :=
  "DSSEv1 " +:+ show_len payload_type +:+ " " +:+ payload_type +:+ " " +:+
  show_len payload +:+ " " +:+ payload.

Section receipt.
Context `{SerdeJson, Sha256}.

Definition hash_inputs (run : Run.t) : string := digest run.(Run.root_hash).

Definition build_statement_with_bar (run : Run.t) (checks : list ReceiptCheck.t)
    (verdict : VerdictStatus.t) (toolchain_digest policy_version : option string)
    (ledger_ref : option LedgerRef.t) (isolation_tier : IsolationTier.t) (issued_at_ms : u64)
    (checkspec_hash : option string) (merge_bar : MergeBar.t)
    (required_evidence : list EvidenceRequirement.t) : ReceiptStatement.t :=
  ReceiptStatement.Mk RECEIPT_PREDICATE_TYPE
    (ReceiptProvenance.Mk run.(Run.run_id) (hash_inputs run) toolchain_digest policy_version
       ledger_ref isolation_tier)
    checks verdict (replay_manifest_for run) issued_at_ms checkspec_hash merge_bar
    required_evidence.

Definition build_statement (run : Run.t) (checks : list ReceiptCheck.t)
    (verdict : VerdictStatus.t) (toolchain_digest policy_version : option string)
    (ledger_ref : option LedgerRef.t) (issued_at_ms : u64) : ReceiptStatement.t :=
  build_statement_with_bar run checks verdict toolchain_digest policy_version ledger_ref
    IsolationTier.Contained issued_at_ms None MergeBar.default [].

Definition canonical_statement_bytes (statement : ReceiptStatement.t) : bytes :=
  json_bytes statement.

Definition statement_id (statement : ReceiptStatement.t) : string :=
  digest (canonical_statement_bytes statement).

Definition seal_receipt (statement : ReceiptStatement.t) (signature : ReceiptSignature.t)
  : Receipt.t :=
  Receipt.Mk RECEIPT_SCHEMA_VERSION (statement_id statement) statement signature.

Definition verify_receipt (receipt : Receipt.t) (verify_sig : bytes -> bytes -> bytes -> bool)
  : ReceiptVerification.t :=
  let statement := receipt.(Receipt.statement) in
  let signature := receipt.(Receipt.signature) in
  let statement_intact := bool_decide (statement_id statement = receipt.(Receipt.receipt_id)) in
  let payload := canonical_statement_bytes statement in
  let pae := dsse_pae signature.(ReceiptSignature.payload_type) payload in
  let public_key := default EmptyString signature.(ReceiptSignature.public_key) in
  ReceiptVerification.Mk statement_intact
    (verify_sig public_key pae signature.(ReceiptSignature.sig))
    statement.(ReceiptStatement.verdict).
End receipt.

(** * Properties *)

(** ** The pre-authentication encoding *)

Lemma show_len_no_space s : no_char " " (show_len s) = true.
Proof. by apply no_char_pretty. Qed.

Lemma show_len_inj s t : show_len s = show_len t -> String.length s = String.length t.
Proof. unfold show_len. intros E%(inj pretty). lia. Qed.

Lemma pae_inj t p t' p' : dsse_pae t p = dsse_pae t' p' -> t = t' /\ p = p'.
Proof.
  unfold dsse_pae. intros E. apply app_inj_l in E.
  change " " with (String " " EmptyString) in E. app_norm E.
  apply split_sep_inj in E as [Lt E]; [|apply show_len_no_space..].
  apply show_len_inj in Lt.
  apply app_inj_length_l in E as [-> E]; [|done]. injection E as E.
  apply split_sep_inj in E as [_ ->]; [done|apply show_len_no_space..].
Qed.

(** The DSSE pre-authentication encoding is injective: a signature over it is bound to
    one payload type and one payload, whatever bytes they contain. *)
Theorem dsse_pae_inj t p t' p' (E : dsse_pae t p = dsse_pae t' p') : t = t' /\ p = p'.
Proof. by apply pae_inj. Qed.

Lemma dsse_pae_inj_witness : "a" = "a" /\ "b c" = "b c".
Proof. apply (dsse_pae_inj "a" "b c" "a" "b c"). reflexivity. Defined.

(** ** Verification *)

(** Integrity: a receipt whose id was stamped on some statement is reported intact
    exactly when it still carries that statement, unless the two collide; the signature
    predicate is consulted on the pre-authentication encoding of the carried statement
    under the signature's own payload type, and the carried verdict is echoed. *)
Theorem verify_receipt_spec `{SerdeJson, !SerdeJsonSpec, Sha256} receipt statement verify_sig
    (S : receipt.(Receipt.receipt_id) = statement_id statement)
    (NC : no_collision [canonical_statement_bytes receipt.(Receipt.statement);
                        canonical_statement_bytes statement]) :
  let v := verify_receipt receipt verify_sig in
  let sg := receipt.(Receipt.signature) in
  (v.(ReceiptVerification.statement_intact) = true <-> receipt.(Receipt.statement) = statement) /\
  v.(ReceiptVerification.signature_valid) =
    verify_sig (default EmptyString sg.(ReceiptSignature.public_key))
      (dsse_pae sg.(ReceiptSignature.payload_type)
         (canonical_statement_bytes receipt.(Receipt.statement)))
      sg.(ReceiptSignature.sig) /\
  v.(ReceiptVerification.verdict) = receipt.(Receipt.statement).(ReceiptStatement.verdict).
Proof.
  cbn zeta. split; [|done]. simpl. rewrite bool_decide_eq_true, S. split.
  - intros E. apply (digest_inj_on _ _ _ NC) in E; [|by left|by right; left].
    by apply json_bytes_inj in E.
  - by intros ->.
Qed.

(** Authenticity: if the predicate accepts, under this receipt's key and signature, only
    encodings of statements the signer signed, then a receipt whose signature is valid
    carries one of those statements, under the payload type it was signed for. *)
Theorem verify_receipt_authentic `{SerdeJson, !SerdeJsonSpec, Sha256} receipt verify_sig
    (signed : list (string * ReceiptStatement.t))
    (U : let sg := receipt.(Receipt.signature) in
         forall m,
           verify_sig (default EmptyString sg.(ReceiptSignature.public_key)) m
             sg.(ReceiptSignature.sig) = true ->
           exists ty st, (ty, st) ∈ signed /\ m = dsse_pae ty (canonical_statement_bytes st))
    (V : (verify_receipt receipt verify_sig).(ReceiptVerification.signature_valid) = true) :
  (receipt.(Receipt.signature).(ReceiptSignature.payload_type), receipt.(Receipt.statement))
    ∈ signed.
Proof.
  apply U in V as (ty & st & Hin & E). apply pae_inj in E as [-> E].
  by apply json_bytes_inj in E as ->.
Qed.

Definition sample_run : Run.t :=
  build_run "s" "claude" None (wrap 64 5) None true
    [Event.Mk (wrap 64 0) (EventKind.TurnStarted (wrap 64 0))] RunInputs.default.

Definition sample_statement (verdict : VerdictStatus.t) : ReceiptStatement.t :=
  build_statement sample_run
    [ReceiptCheck.Mk "unit" CheckKind.Test verdict true None] verdict None None None (wrap 64 9).

Definition sample_signature : ReceiptSignature.t :=
  ReceiptSignature.Mk "nerve" "ed25519" "k" "sig" (Some "pk") None.

Definition sample_receipt : Receipt.t :=
  seal_receipt (sample_statement VerdictStatus.Passed) sample_signature.

(** The sealed statement was replaced by one with another verdict. *)
Lemma verify_receipt_spec_witness :
  let failed := sample_statement VerdictStatus.Failed in
  let receipt := Receipt.Mk RECEIPT_SCHEMA_VERSION (statement_id failed)
                   (sample_statement VerdictStatus.Passed) sample_signature in
  let verify_sig := fun _ _ _ => true in
  let v := verify_receipt receipt verify_sig in
  let sg := receipt.(Receipt.signature) in
  (v.(ReceiptVerification.statement_intact) = true <-> receipt.(Receipt.statement) = failed) /\
  v.(ReceiptVerification.signature_valid) =
    verify_sig (default EmptyString sg.(ReceiptSignature.public_key))
      (dsse_pae sg.(ReceiptSignature.payload_type)
         (canonical_statement_bytes receipt.(Receipt.statement)))
      sg.(ReceiptSignature.sig) /\
  v.(ReceiptVerification.verdict) = receipt.(Receipt.statement).(ReceiptStatement.verdict).
Proof.
  intros failed receipt verify_sig. apply (verify_receipt_spec receipt failed verify_sig).
  - reflexivity.
  - no_collision_tac.
Defined.

(** A verifier that accepts one encoding. *)
Lemma verify_receipt_authentic_witness :
  ("nerve", sample_statement VerdictStatus.Passed) ∈
    [("nerve", sample_statement VerdictStatus.Passed)].
Proof.
  apply (verify_receipt_authentic sample_receipt
           (fun _ m _ => String.eqb m
              (dsse_pae "nerve" (canonical_statement_bytes (sample_statement VerdictStatus.Passed))))).
  - intros sg m E. apply String.eqb_eq in E. eexists _, _. split; [by left|exact E].
  - vm_compute. reflexivity.
Defined.

(** ** The borrowed verdict *)

(** The aggregate over receipt checks: no check is inconclusive, any errored check
    errors, and a pass means there is a check and every check passed. *)
Theorem aggregate_verdict_spec checks :
  (aggregate_verdict checks = VerdictStatus.Inconclusive <-> checks = []) /\
  (aggregate_verdict checks = VerdictStatus.Error <->
     exists c, c ∈ checks /\ c.(ReceiptCheck.verdict) = VerdictStatus.Error) /\
  (aggregate_verdict checks = VerdictStatus.Passed <->
     checks <> [] /\ forall c, c ∈ checks -> c.(ReceiptCheck.verdict) = VerdictStatus.Passed).
Proof.
  unfold aggregate_verdict. destruct checks as [|c0 cs]; [split_and!; set_solver|].
  set (l := c0 :: cs). assert (l <> []) as Hne by done. clearbody l.
  destruct (existsb (fun c => bool_decide (_ = VerdictStatus.Error)) l) eqn:Ee.
  - apply existsb_exists in Ee as (c & Hc%list_elem_of_In & Hv%bool_decide_eq_true).
    split_and!; split; try done; [by exists c|].
    intros [_ F]. rewrite F in Hv by done. done.
  - assert (forall c, c ∈ l -> c.(ReceiptCheck.verdict) <> VerdictStatus.Error) as NE.
    { intros c Hc Hv. apply not_true_iff_false in Ee. apply Ee, existsb_exists.
      exists c. by rewrite <- list_elem_of_In, bool_decide_eq_true. }
    destruct (existsb (fun c => negb (bool_decide (_ = VerdictStatus.Passed))) l) eqn:Ef.
    + apply existsb_exists in Ef as (c & Hc%list_elem_of_In & Hv%negb_true_iff%bool_decide_eq_false).
      split_and!; split; try done; [by intros (d & Hd & ?%NE)|].
      intros [_ F]. by rewrite F in Hv.
    + split_and!; split; try done; [by intros (d & Hd & ?%NE)|].
      intros _. split; [done|]. intros c Hc. apply not_true_iff_false in Ef.
      destruct (decide (c.(ReceiptCheck.verdict) = VerdictStatus.Passed)) as [?|N]; [done|].
      exfalso. apply Ef, existsb_exists. exists c. rewrite <- list_elem_of_In.
      by rewrite bool_decide_eq_false_2.
Qed.

(** ** Wire format *)

(** A receipt survives the wire, and one built without an org bar is written exactly as
    before bars, checkspec pins and isolation tiers existed: none of their keys appears,
    and reading the shorter object restores the defaults. *)
Theorem receipt_wire_additive `{SerdeJson, Sha256} run checks verdict digest version ref at_ms
    signature :
  let st := build_statement run checks verdict digest version ref at_ms in
  let r := seal_receipt st signature in
  de (ser r) = Some r /\
  ser st = obj
    [fld "predicate_type" RECEIPT_PREDICATE_TYPE;
     ("provenance", Some (obj
        [fld "run_id" run.(Run.run_id); fld "inputs_hash" (hash_inputs run);
         fld_opt "toolchain_digest" digest; fld_opt "policy_version" version;
         fld_opt "ledger_ref" ref]));
     fld "checks" checks; fld "verdict" verdict;
     fld "replay_manifest" (replay_manifest_for run); fld "issued_at_ms" at_ms].
Proof. cbn zeta. split; [apply de_ser|]. by destruct digest, version, ref. Qed.

(** The issue time is part of the statement's id: two statements that differ in it alone
    have different ids, unless they collide. *)
Theorem statement_id_binds_time `{SerdeJson, !SerdeJsonSpec, Sha256} run checks verdict digest
    version ref t t'
    (NC : no_collision
            [canonical_statement_bytes (build_statement run checks verdict digest version ref t);
             canonical_statement_bytes (build_statement run checks verdict digest version ref t')])
    (N : t <> t') :
  statement_id (build_statement run checks verdict digest version ref t) <>
  statement_id (build_statement run checks verdict digest version ref t').
Proof.
  intros E. apply (digest_inj_on _ _ _ NC) in E; [|by left|by right; left].
  apply json_bytes_inj in E. by injection E.
Qed.

Lemma statement_id_binds_time_witness :
  statement_id (build_statement sample_run [] VerdictStatus.Passed None None None (wrap 64 1)) <>
  statement_id (build_statement sample_run [] VerdictStatus.Passed None None None (wrap 64 2)).
Proof. apply statement_id_binds_time; [no_collision_tac|discriminate]. Defined.
