(* ===== verification/Gate.v ===== *)
(** L5, the merge gate ([nerve-core/src/receipt_gate.rs]): the exit code, conclusion and
    summary a receipt's verdict maps to, and the two downgrade-only enforcements layered on
    it, the co-sealed merge bar and the isolation floor. *)
From S2P Require Import Prelude Json Digest Verdicts Provenance Policies Receipts.

Module GateOutcome.
Record t := Mk { exit_code : Z; conclusion : string; summary : string }.
#[export] Instance eq_dec : EqDecision t.
Proof. solve_decision. Defined.
End GateOutcome.
Export (hints) GateOutcome.

Definition gate_outcome (receipt : Receipt.t) : GateOutcome.t :=
  match receipt.(Receipt.statement).(ReceiptStatement.verdict) with
  | VerdictStatus.Passed =>
      GateOutcome.Mk 0 "success" "verdict passed: the org's required checks cleared on replay"
  | VerdictStatus.Failed =>
      GateOutcome.Mk 1 "failure"
        "verdict failed: a required check did not clear the org's bar"
  | VerdictStatus.Inconclusive =>
      GateOutcome.Mk 2 "neutral" "verdict inconclusive: no required bar was exercised"
  | VerdictStatus.Error =>
      GateOutcome.Mk 2 "error" "verdict error: the verification harness failed to run"
  end.

(** * The bar report *)

Module BarReport.
Record t := Mk {
  missing_checks : list string;
  failed_checks : list string;
  unmet_evidence : list string;
}.

Definition is_clear (r : t) : bool :=
  is_nil r.(missing_checks) && is_nil r.(failed_checks) && is_nil r.(unmet_evidence).

Definition has_exercised_failure (r : t) : bool := negb (is_nil r.(failed_checks)).

Definition summary (r : t) : string :=
  if is_clear r then
    "merge bar cleared: all required checks passed and required evidence present"
  else
    let parts :=
      map (fun name => "missing required check '" +:+ name +:+ "'") r.(missing_checks) ++
      map (fun entry => "required check " +:+ entry) r.(failed_checks) ++
      map (fun kind => "required evidence '" +:+ kind +:+ "' absent") r.(unmet_evidence) in
    "merge bar not cleared: " +:+ join "; " parts.
End BarReport.

Definition verdict_label (status : VerdictStatus.t) : string :=
  match status with
  | VerdictStatus.Passed => "passed"
  | VerdictStatus.Failed => "failed"
  | VerdictStatus.Inconclusive => "inconclusive"
  | VerdictStatus.Error => "error"
  end.

(** The first resident check of that name. *)
Definition find_check (receipt : Receipt.t) (required : string) : option ReceiptCheck.t :=
  find (fun c => String.eqb c.(ReceiptCheck.name) required)
    receipt.(Receipt.statement).(ReceiptStatement.checks).

Definition evidence_satisfied (receipt : Receipt.t) (kind : string) : bool :=
  let statement := receipt.(Receipt.statement) in
  let provenance := statement.(ReceiptStatement.provenance) in
  if String.eqb kind "receipt" then true
  else if String.eqb kind "replay" then
    negb (is_empty statement.(ReceiptStatement.replay_manifest).(ReplayBinding.root_hash))
  else if String.eqb kind "ledger" then
    match provenance.(ReceiptProvenance.ledger_ref) with Some _ => true | None => false end
  else if String.eqb kind "policy" then
    match provenance.(ReceiptProvenance.policy_version) with Some _ => true | None => false end
  else false.

(** One required check: missing, failed, or fine. *)
Definition bar_step (receipt : Receipt.t) (acc : list string * list string) (required : string)
  : list string * list string :=
  let '(missing_checks, failed_checks) := acc in
  match find_check receipt required with
  | None => (missing_checks ++ [required], failed_checks)
  | Some check =>
      if negb (bool_decide (check.(ReceiptCheck.verdict) = VerdictStatus.Passed)) then
        (missing_checks,
         failed_checks ++
           ["'" +:+ required +:+ "' did not pass (" +:+
              verdict_label check.(ReceiptCheck.verdict) +:+ ")"])
      else (missing_checks, failed_checks)
  end.

Definition build_bar_report (receipt : Receipt.t) (bar : MergeBar.t)
    (evidence : list EvidenceRequirement.t) : BarReport.t :=
  let '(missing_checks, failed_checks) :=
    foldl (bar_step receipt) ([], []) bar.(MergeBar.required_checks) in
  let unmet_evidence :=
    foldl (fun acc requirement =>
             let kind := requirement.(EvidenceRequirement.kind) in
             if negb (evidence_satisfied receipt kind) then acc ++ [kind] else acc)
      [] evidence in
  BarReport.Mk missing_checks failed_checks unmet_evidence.

(** * Enforcement *)

Definition short_hash (hash : string) : string := take_chars 8 hash.

(** [format!("{} [{}]", base.summary, note)] under the base's exit code and conclusion. *)
Definition append_note (base : GateOutcome.t) (note : string) : GateOutcome.t :=
  GateOutcome.Mk base.(GateOutcome.exit_code) base.(GateOutcome.conclusion)
    (base.(GateOutcome.summary) +:+ " [" +:+ note +:+ "]").

Definition checkspec_mismatch_outcome (base : GateOutcome.t) (expected : string)
    (actual : option string) : GateOutcome.t :=
  let note :=
    "merge bar authored against checkspec " +:+ short_hash expected +:+
    " but receipt was verified against " +:+
    match actual with None => "none" | Some hash => short_hash hash end +:+
    " — required checks cannot be trusted" in
  if negb (base.(GateOutcome.exit_code) =? 0)%Z then append_note base note
  else GateOutcome.Mk 2 "neutral" note.

(** The name-matching part of [enforce_merge_bar], after the checkspec guard. *)
Definition enforce_bar_names (receipt : Receipt.t) : GateOutcome.t :=
  let base := gate_outcome receipt in
  let bar := receipt.(Receipt.statement).(ReceiptStatement.merge_bar) in
  let evidence := receipt.(Receipt.statement).(ReceiptStatement.required_evidence) in
  if is_nil bar.(MergeBar.required_checks) && is_nil evidence then base
  else
    let report := build_bar_report receipt bar evidence in
    if negb (base.(GateOutcome.exit_code) =? 0)%Z
    then append_note base (BarReport.summary report)
    else if BarReport.is_clear report then append_note base (BarReport.summary report)
    else
      let '(exit_code, conclusion) :=
        if BarReport.has_exercised_failure report then (1%Z, "failure") else (2%Z, "neutral") in
      GateOutcome.Mk exit_code conclusion (BarReport.summary report).

Definition enforce_merge_bar (receipt : Receipt.t) : GateOutcome.t :=
  let base := gate_outcome receipt in
  let bar := receipt.(Receipt.statement).(ReceiptStatement.merge_bar) in
  match bar.(MergeBar.expected_checkspec_hash) with
  | Some expected =>
      let actual := receipt.(Receipt.statement).(ReceiptStatement.checkspec_hash) in
      if negb (bool_decide (actual = Some expected))
      then checkspec_mismatch_outcome base expected actual
      else enforce_bar_names receipt
  | None => enforce_bar_names receipt
  end.

Definition isolation_label (tier : IsolationTier.t) : string :=
  match tier with
  | IsolationTier.Hermetic => "hermetic"
  | IsolationTier.Contained => "contained"
  | IsolationTier.BestEffort => "best-effort"
  | IsolationTier.Unconfined => "unconfined"
  end.

Definition enforce_isolation_floor (base : GateOutcome.t) (receipt : Receipt.t)
    (required : option IsolationTier.t) : GateOutcome.t :=
  match required with
  | None => base
  | Some required =>
      let actual :=
        receipt.(Receipt.statement).(ReceiptStatement.provenance).(ReceiptProvenance.isolation_tier) in
      if IsolationTier.le required actual then base
      else
        let note := "isolation tier " +:+ isolation_label actual +:+ " below required " +:+
                    isolation_label required in
        if negb (base.(GateOutcome.exit_code) =? 0)%Z then append_note base note
        else GateOutcome.Mk 2 "neutral" note
  end.

(** The gate as [nerve gate] composes it. *)
Definition gate (receipt : Receipt.t) (floor : option IsolationTier.t) : GateOutcome.t :=
  enforce_isolation_floor (enforce_merge_bar receipt) receipt floor.

(** * Properties *)

(** What the org's bar demands of a receipt. *)
Definition checkspec_matches (receipt : Receipt.t) : Prop :=
  forall expected,
    receipt.(Receipt.statement).(ReceiptStatement.merge_bar).(MergeBar.expected_checkspec_hash)
      = Some expected ->
    receipt.(Receipt.statement).(ReceiptStatement.checkspec_hash) = Some expected.

Definition check_cleared (receipt : Receipt.t) (required : string) : Prop :=
  exists c, find_check receipt required = Some c /\
            c.(ReceiptCheck.verdict) = VerdictStatus.Passed.

Definition bar_cleared (receipt : Receipt.t) : Prop :=
  let st := receipt.(Receipt.statement) in
  (forall name, name ∈ st.(ReceiptStatement.merge_bar).(MergeBar.required_checks) ->
     check_cleared receipt name) /\
  (forall e, e ∈ st.(ReceiptStatement.required_evidence) ->
     evidence_satisfied receipt e.(EvidenceRequirement.kind) = true).

Definition floor_met (receipt : Receipt.t) (floor : option IsolationTier.t) : Prop :=
  forall required, floor = Some required ->
    IsolationTier.rank required <=
    IsolationTier.rank
      receipt.(Receipt.statement).(ReceiptStatement.provenance).(ReceiptProvenance.isolation_tier).

Lemma le_rank a b : IsolationTier.le a b = true <-> IsolationTier.rank a <= IsolationTier.rank b.
Proof. apply Nat.leb_le. Qed.

Lemma is_nil_true {A} (l : list A) : is_nil l = true <-> l = [].
Proof. by destruct l. Qed.

(** What the report's lists hold. *)
Definition check_failed (receipt : Receipt.t) (required : string) : Prop :=
  exists c, find_check receipt required = Some c /\
            c.(ReceiptCheck.verdict) <> VerdictStatus.Passed.

#[export] Instance check_failed_dec receipt required : Decision (check_failed receipt required).
Proof.
  unfold check_failed. destruct (find_check receipt required) as [c|].
  - destruct (decide (c.(ReceiptCheck.verdict) = VerdictStatus.Passed)) as [P|N].
    + right. intros (c' & [= <-] & N). done.
    + left. by exists c.
  - right. by intros (c & ? & _).
Defined.

Lemma bar_step_spec receipt names :
  let '(missing, failed) := foldl (bar_step receipt) ([], []) names in
  (missing = [] <-> forall n, n ∈ names -> find_check receipt n <> None) /\
  (failed = [] <-> forall n, n ∈ names -> ~ check_failed receipt n).
Proof.
  induction names as [|n names IH] using rev_ind; simpl; [set_solver|].
  rewrite foldl_snoc. destruct (foldl _ _ names) as [missing failed].
  destruct IH as [IHm IHf].
  assert (forall X : Prop, (X <-> missing = [] /\ find_check receipt n <> None) ->
          X <-> forall m, m ∈ names ++ [n] -> find_check receipt m <> None) as Km.
  { intros X ->. rewrite IHm. symmetry. apply (forall_snoc (fun m => find_check receipt m <> None)). }
  assert (forall X : Prop, (X <-> failed = [] /\ ~ check_failed receipt n) ->
          X <-> forall m, m ∈ names ++ [n] -> ~ check_failed receipt m) as Kf.
  { intros X ->. rewrite IHf. symmetry. apply (forall_snoc (fun m => ~ check_failed receipt m)). }
  unfold bar_step. destruct (find_check receipt n) as [c|] eqn:E.
  - destruct (decide (c.(ReceiptCheck.verdict) = VerdictStatus.Passed)) as [P|P];
      [rewrite bool_decide_eq_true_2 by done|rewrite bool_decide_eq_false_2 by done];
      (split; [apply Km; naive_solver|apply Kf]).
    + split; [|tauto]. intros F. split; [done|]. intros (c' & E' & N). congruence.
    + split; [by destruct failed|]. intros [_ F]. exfalso. apply F. by exists c.
  - split; [apply Km|apply Kf].
    + split; [by destruct missing|]. by intros [_ F].
    + split; [|tauto]. intros F. split; [done|]. intros (c & E' & _). congruence.
Qed.

Lemma evidence_fold receipt evidence acc :
  foldl (fun acc requirement =>
           let kind := requirement.(EvidenceRequirement.kind) in
           if negb (evidence_satisfied receipt kind) then acc ++ [kind] else acc) acc evidence =
  acc ++ map EvidenceRequirement.kind
           (filter (fun e => evidence_satisfied receipt e.(EvidenceRequirement.kind) = false) evidence).
Proof.
  revert acc; induction evidence as [|e evidence IH]; intros acc; simpl; [by rewrite app_nil_r|].
  rewrite IH, filter_cons. destruct (evidence_satisfied receipt _) eqn:E; simpl; [done|].
  by rewrite <- app_assoc.
Qed.

(** The report is clear exactly when the bar is cleared, and shows an exercised failure
    exactly when some required check is present and did not pass. *)
Lemma bar_report_spec receipt :
  let st := receipt.(Receipt.statement) in
  let report := build_bar_report receipt st.(ReceiptStatement.merge_bar)
                  st.(ReceiptStatement.required_evidence) in
  (BarReport.is_clear report = true <-> bar_cleared receipt) /\
  (BarReport.has_exercised_failure report = true <->
   exists n, n ∈ st.(ReceiptStatement.merge_bar).(MergeBar.required_checks) /\
             check_failed receipt n).
Proof.
  cbn zeta. unfold build_bar_report, bar_cleared. cbn zeta.
  set (st := receipt.(Receipt.statement)).
  set (names := st.(ReceiptStatement.merge_bar).(MergeBar.required_checks)).
  pose proof (bar_step_spec receipt names) as B.
  destruct (foldl (bar_step receipt) ([], []) names) as [missing failed]. destruct B as [Bm Bf].
  rewrite evidence_fold. unfold BarReport.is_clear, BarReport.has_exercised_failure. simpl. split.
  - rewrite !andb_true_iff, !is_nil_true, Bm, Bf. split.
    + intros [[Fm Ff] Fe]. split.
      * intros n Hn. destruct (find_check receipt n) as [c|] eqn:E; [|by apply Fm in Hn].
        exists c. split; [done|].
        destruct (decide (c.(ReceiptCheck.verdict) = VerdictStatus.Passed)) as [?|N]; [done|].
        exfalso. apply (Ff n); [done|]. by exists c.
      * intros e He. apply fmap_nil_inv in Fe. rewrite filter_nil_all in Fe.
        apply not_false_iff_true. by apply Fe.
    + intros [Fc Fe]. split; [split|].
      * intros n (c & E & _)%Fc. congruence.
      * intros n (c & E & P)%Fc (c' & E' & N). congruence.
      * rewrite (proj2 (filter_nil_all _ _)); [done|]. intros e He. by rewrite Fe.
  - split.
    + intros N%negb_true_iff. destruct failed as [|f failed]; [done|].
      destruct (decide (Exists (check_failed receipt) names)) as [Ex|NEx].
      * apply Exists_exists in Ex as (n & Hn & F). by exists n.
      * exfalso. assert (f :: failed = []) as ?; [|done]. apply Bf. intros n Hn F.
        apply NEx, Exists_exists. by exists n.
    + intros (n & Hn & F). destruct failed; [|done]. exfalso. by apply (proj1 Bf eq_refl n).
Qed.

#[export] Instance checkspec_matches_dec receipt : Decision (checkspec_matches receipt).
Proof.
  unfold checkspec_matches.
  destruct (MergeBar.expected_checkspec_hash _) as [expected|].
  - destruct (decide (receipt.(Receipt.statement).(ReceiptStatement.checkspec_hash) = Some expected))
      as [E|N].
    + left. by intros e [= <-].
    + right. intros F. by apply N, F.
  - by left.
Defined.

(** The verdict's own code. *)
Definition base_exit (v : VerdictStatus.t) : Z :=
  match v with
  | VerdictStatus.Passed => 0 | VerdictStatus.Failed => 1
  | VerdictStatus.Inconclusive | VerdictStatus.Error => 2
  end.

Lemma gate_outcome_exit receipt :
  (gate_outcome receipt).(GateOutcome.exit_code) =
  base_exit receipt.(Receipt.statement).(ReceiptStatement.verdict).
Proof. unfold gate_outcome. by destruct (ReceiptStatement.verdict _). Qed.

(** One outcome kept or downgraded: a non-success keeps its code and label and only gains
    text; a success either keeps them too or becomes a failure or a neutral. *)
Definition downgrades (base out : GateOutcome.t) : Prop :=
  (out.(GateOutcome.exit_code) = base.(GateOutcome.exit_code) /\
   out.(GateOutcome.conclusion) = base.(GateOutcome.conclusion) /\
   exists note, out.(GateOutcome.summary) = base.(GateOutcome.summary) +:+ note) \/
  (base.(GateOutcome.exit_code) = 0%Z /\
   ((out.(GateOutcome.exit_code) = 1%Z /\ out.(GateOutcome.conclusion) = "failure") \/
    (out.(GateOutcome.exit_code) = 2%Z /\ out.(GateOutcome.conclusion) = "neutral"))).

Lemma downgrades_refl o : downgrades o o.
Proof. left. split_and!; [done..|]. exists EmptyString. by rewrite app_empty_r. Qed.

Lemma downgrades_append base note : downgrades base (append_note base note).
Proof. left. split_and!; [done..|]. by eexists. Qed.

Lemma downgrades_trans a b c : downgrades a b -> downgrades b c -> downgrades a c.
Proof.
  unfold downgrades.
  intros [(E1 & C1 & n1 & S1)|[Z1 D1]] [(E2 & C2 & n2 & S2)|[Z2 D2]].
  - left. split_and!; [congruence..|]. exists (n1 +:+ n2). by rewrite S2, S1, app_assoc_str.
  - right. split; [congruence|done].
  - right. split; [done|]. rewrite E2, C2. done.
  - right. done.
Qed.

Lemma neutral_or_append base note :
  downgrades base (if negb (base.(GateOutcome.exit_code) =? 0)%Z then append_note base note
                   else GateOutcome.Mk 2 "neutral" note).
Proof.
  destruct (Z.eqb_spec base.(GateOutcome.exit_code) 0); simpl; [|apply downgrades_append].
  right. by auto.
Qed.

Lemma enforce_bar_names_downgrades receipt :
  downgrades (gate_outcome receipt) (enforce_bar_names receipt).
Proof.
  unfold enforce_bar_names. cbn zeta. destruct (_ && _); [apply downgrades_refl|].
  set (r := build_bar_report _ _ _). clearbody r.
  destruct (Z.eqb_spec (GateOutcome.exit_code (gate_outcome receipt)) 0); simpl;
    [|apply downgrades_append].
  destruct (BarReport.is_clear r); [apply downgrades_append|].
  right. split; [done|]. destruct (BarReport.has_exercised_failure r); auto.
Qed.

(** The guard, as the matching decision. *)
Lemma enforce_merge_bar_cases receipt :
  (checkspec_matches receipt /\ enforce_merge_bar receipt = enforce_bar_names receipt) \/
  (~ checkspec_matches receipt /\ exists expected actual,
     enforce_merge_bar receipt = checkspec_mismatch_outcome (gate_outcome receipt) expected actual).
Proof.
  unfold checkspec_matches, enforce_merge_bar. cbn zeta.
  destruct (MergeBar.expected_checkspec_hash _) as [x|]; [|by left].
  case_bool_decide as E; simpl.
  - left. split; [|done]. by intros e [= <-].
  - right. split; [|by eexists _, _]. intros F. by apply E, F.
Qed.

Lemma enforce_merge_bar_downgrades receipt :
  downgrades (gate_outcome receipt) (enforce_merge_bar receipt).
Proof.
  destruct (enforce_merge_bar_cases receipt) as [[_ ->]|(_ & x & y & ->)].
  - apply enforce_bar_names_downgrades.
  - apply neutral_or_append.
Qed.

Lemma enforce_isolation_floor_downgrades base receipt floor :
  downgrades base (enforce_isolation_floor base receipt floor).
Proof.
  unfold enforce_isolation_floor. destruct floor as [k|]; [|apply downgrades_refl].
  destruct (IsolationTier.le k _); [apply downgrades_refl|]. apply neutral_or_append.
Qed.

(** The enforcements only downgrade: whatever the bar and the floor, a verdict that did
    not pass keeps its exit code and conclusion (its summary is extended, never replaced),
    and a pass is kept, or becomes a failure (1) or a neutral (2). *)
Theorem gate_never_upgrades receipt floor :
  downgrades (gate_outcome receipt) (gate receipt floor).
Proof.
  eapply downgrades_trans; [apply enforce_merge_bar_downgrades|].
  apply enforce_isolation_floor_downgrades.
Qed.

(** The bar's exit codes over a passing verdict. *)
Lemma enforce_bar_names_exit receipt :
  receipt.(Receipt.statement).(ReceiptStatement.verdict) = VerdictStatus.Passed ->
  let st := receipt.(Receipt.statement) in
  let report := build_bar_report receipt st.(ReceiptStatement.merge_bar)
                  st.(ReceiptStatement.required_evidence) in
  (enforce_bar_names receipt).(GateOutcome.exit_code) =
  (if BarReport.is_clear report then 0
   else if BarReport.has_exercised_failure report then 1 else 2)%Z.
Proof.
  intros P. cbn zeta. pose proof (gate_outcome_exit receipt) as B. rewrite P in B. simpl in B.
  unfold enforce_bar_names. cbn zeta. rewrite B. simpl.
  destruct (is_nil _ && is_nil _) eqn:E.
  - apply andb_prop in E as [Eb%is_nil_true Ee%is_nil_true].
    unfold build_bar_report. by rewrite Eb, Ee.
  - destruct (BarReport.is_clear _); [done|].
    by destruct (BarReport.has_exercised_failure _).
Qed.

(** What makes the gate pass, and what makes it fail. *)
Definition cleared (receipt : Receipt.t) (floor : option IsolationTier.t) : Prop :=
  receipt.(Receipt.statement).(ReceiptStatement.verdict) = VerdictStatus.Passed /\
  checkspec_matches receipt /\ bar_cleared receipt /\ floor_met receipt floor.

Definition bar_failed (receipt : Receipt.t) : Prop :=
  receipt.(Receipt.statement).(ReceiptStatement.verdict) = VerdictStatus.Failed \/
  (receipt.(Receipt.statement).(ReceiptStatement.verdict) = VerdictStatus.Passed /\
   checkspec_matches receipt /\
   exists n, n ∈ receipt.(Receipt.statement).(ReceiptStatement.merge_bar).(MergeBar.required_checks)
             /\ check_failed receipt n).

Lemma enforce_merge_bar_exit receipt :
  let out := enforce_merge_bar receipt in
  (out.(GateOutcome.exit_code) = 0%Z <-> cleared receipt None) /\
  (out.(GateOutcome.exit_code) = 1%Z <-> bar_failed receipt) /\
  (out.(GateOutcome.exit_code) = 0%Z \/ out.(GateOutcome.exit_code) = 1%Z \/
   out.(GateOutcome.exit_code) = 2%Z).
Proof.
  cbn zeta. unfold cleared, bar_failed, floor_met.
  pose proof (enforce_merge_bar_downgrades receipt) as D. unfold downgrades in D.
  pose proof (gate_outcome_exit receipt) as B.
  destruct (ReceiptStatement.verdict _) eqn:V; simpl in B.
  - pose proof (enforce_bar_names_exit receipt V) as X. cbn zeta in X.
    pose proof (bar_report_spec receipt) as [Rc Rf]. cbn zeta in Rc, Rf.
    assert (bar_cleared receipt -> forall n, n ∈ (ReceiptStatement.merge_bar
              (Receipt.statement receipt)).(MergeBar.required_checks) -> ~ check_failed receipt n) as NF.
    { intros [Fc _] n (c & E & P)%Fc (c' & E' & N). congruence. }
    destruct (enforce_merge_bar_cases receipt) as [[M ->]|(M & x & y & ->)].
    + rewrite X. destruct (BarReport.is_clear _); [|destruct (BarReport.has_exercised_failure _)];
        naive_solver.
    + unfold checkspec_mismatch_outcome. rewrite B. simpl. naive_solver.
  - destruct D as [(-> & _)|[? _]]; [|congruence]. rewrite B. naive_solver.
  - destruct D as [(-> & _)|[? _]]; [|congruence]. rewrite B. naive_solver.
  - destruct D as [(-> & _)|[? _]]; [|congruence]. rewrite B. naive_solver.
Qed.

Lemma gate_exit_code_all receipt floor :
  let code := (gate receipt floor).(GateOutcome.exit_code) in
  (code = 0%Z <-> cleared receipt floor) /\ (code = 1%Z <-> bar_failed receipt) /\
  (code = 0%Z \/ code = 1%Z \/ code = 2%Z).
Proof.
  cbn zeta. pose proof (enforce_merge_bar_exit receipt) as (E0 & E1 & E2).
  unfold gate, enforce_isolation_floor. destruct floor as [k|]; [|done].
  assert (floor_met receipt (Some k) <->
          IsolationTier.le k (ReceiptProvenance.isolation_tier
            (ReceiptStatement.provenance (Receipt.statement receipt))) = true) as F.
  { rewrite le_rank. unfold floor_met. split; [intros F; by apply F|by intros F r [= <-]]. }
  assert (cleared receipt (Some k) <-> cleared receipt None /\ floor_met receipt (Some k)) as C.
  { unfold cleared, floor_met at 2. naive_solver. }
  rewrite C, F, <- E0. clear C F E0.
  set (out := enforce_merge_bar receipt) in *. clearbody out.
  destruct (IsolationTier.le k _); [tauto|].
  destruct (Z.eqb_spec out.(GateOutcome.exit_code) 0) as [Z|Z]; simpl; rewrite <- E1.
  - rewrite Z. intuition lia.
  - intuition congruence.
Qed.

(** C5: the gate's exit code, exactly: 0 when the verdict passed, the receipt was verified
    against the checkspec its bar pins, every required check's first entry passed, all
    required evidence is present and the signed tier reaches the floor; 1 when the verdict
    failed, or when it passed under the right checkspec, a required check is present and did
    not pass; 2 in every other case. A floor can turn a 0 into a 2 and nothing else. *)
Theorem gate_exit_code receipt floor :
  let code := (gate receipt floor).(GateOutcome.exit_code) in
  (code = 0%Z <-> cleared receipt floor) /\ (code = 1%Z <-> bar_failed receipt) /\
  (code = 0%Z \/ code = 1%Z \/ code = 2%Z).
Proof. apply gate_exit_code_all. Qed.

(** * The [nerve gate] command ([nerve-workstation/src/commands/gate/mod.rs])

    Once the receipt is loaded and the flags are resolved: re-verify, refuse or enforce,
    record the decision, post it, exit. Posting and recording are best effort, so they are
    effects that never change the exit code. *)

Definition REFUSE_EXIT : Z := 2.

Module GateVerification.
Record t := Mk {
  statement_intact : bool;
  signature_valid : bool;
  issuer_pinned : bool;
  keyid : string;
  trusted : bool;
}.
End GateVerification.

Module GateArgs.
Record t := Mk { emit : string; sha : option string; repo : option string }.
End GateArgs.

Module GateEffect.
Inductive t :=
  | PrintRefusal
  | RecordDecision (record : PolicyDecisionRecord.t)
  | Emit (mode repo sha : string) (outcome : GateOutcome.t).
End GateEffect.

(** [select_emitter]: the three modes, anything else is an error. *)
Definition select_emitter (emit : string) : option string :=
  if String.eqb emit "none" then Some emit
  else if String.eqb emit "gh" then Some emit
  else if String.eqb emit "gitlab" then Some emit
  else None.

Definition gate_decision_record (receipt : Receipt.t) (outcome : GateOutcome.t)
  : PolicyDecisionRecord.t :=
  let provenance := receipt.(Receipt.statement).(ReceiptStatement.provenance) in
  let policy_version := default EmptyString provenance.(ReceiptProvenance.policy_version) in
  PolicyDecisionRecord.Mk POLICY_SCHEMA_VERSION policy_version
    provenance.(ReceiptProvenance.run_id) EmptyString "gate" Capability.Exec
    (if (outcome.(GateOutcome.exit_code) =? 0)%Z then "allow" else "deny")
    outcome.(GateOutcome.summary) EmptyString.

Section command.
Context `{SerdeJson, Sha256}.
(** [ed25519_verify]: public key, message, signature. *)
Context (ed25519_verify : bytes -> bytes -> bytes -> bool).

Definition verify_gate_receipt (receipt : Receipt.t) (trusted_key : option string)
  : GateVerification.t :=
  let v := verify_receipt receipt ed25519_verify in
  let signing_key := receipt.(Receipt.signature).(ReceiptSignature.public_key) in
  let self_ok := v.(ReceiptVerification.statement_intact) &&
                 v.(ReceiptVerification.signature_valid) in
  let '(issuer_pinned, key_ok) :=
    match trusted_key with
    | Some pin => let matched := bool_decide (signing_key = Some pin) in (matched, matched)
    | None => (false, true)
    end in
  GateVerification.Mk v.(ReceiptVerification.statement_intact)
    v.(ReceiptVerification.signature_valid) issuer_pinned
    (default receipt.(Receipt.signature).(ReceiptSignature.keyid) signing_key)
    (self_ok && key_ok).

(** The exit code, [None] when the command fails on an unknown [--emit] mode, and the
    effects it attempts. *)
Definition gate_command (args : GateArgs.t) (trusted_key : option string)
    (require_isolation : option IsolationTier.t) (receipt : Receipt.t)
  : option Z * list GateEffect.t :=
  let verification := verify_gate_receipt receipt trusted_key in
  if negb verification.(GateVerification.trusted)
  then (Some REFUSE_EXIT, [GateEffect.PrintRefusal])
  else
    let outcome := enforce_merge_bar receipt in
    let outcome := enforce_isolation_floor outcome receipt require_isolation in
    let recorded := [GateEffect.RecordDecision (gate_decision_record receipt outcome)] in
    match select_emitter args.(GateArgs.emit) with
    | None => (None, recorded)
    | Some mode =>
        let posted :=
          match args.(GateArgs.repo), args.(GateArgs.sha) with
          | Some repo, Some sha => [GateEffect.Emit mode repo sha outcome]
          | _, _ => []
          end in
        (Some outcome.(GateOutcome.exit_code), recorded ++ posted)
    end.

(** A receipt the gate trusts. *)
Definition trusted_receipt (receipt : Receipt.t) (trusted_key : option string) : Prop :=
  let sg := receipt.(Receipt.signature) in
  statement_id receipt.(Receipt.statement) = receipt.(Receipt.receipt_id) /\
  ed25519_verify (default EmptyString sg.(ReceiptSignature.public_key))
    (dsse_pae sg.(ReceiptSignature.payload_type)
       (canonical_statement_bytes receipt.(Receipt.statement)))
    sg.(ReceiptSignature.sig) = true /\
  (forall pin, trusted_key = Some pin -> sg.(ReceiptSignature.public_key) = Some pin).

Lemma verify_gate_receipt_trusted receipt trusted_key :
  (verify_gate_receipt receipt trusted_key).(GateVerification.trusted) = true <->
  trusted_receipt receipt trusted_key.
Proof.
  unfold verify_gate_receipt, trusted_receipt. cbn zeta.
  destruct trusted_key as [pin|]; simpl; rewrite ?andb_true_iff, ?bool_decide_eq_true.
  - split; [intros [[I V] P]; split_and!; [done..|by intros ? [= <-]]|].
    intros (I & V & P). split_and!; auto.
  - split; [by intros [[I V] _]|]. by intros (I & V & _).
Qed.
End command.

(** C9: the command admits a change (exit 0) only for a receipt it re-verified: intact,
    signed over its encoding by the embedded key, which is the pinned key when one is
    given, and clearing verdict, bar and floor. An untrusted receipt is refused with exit 2
    and nothing about it is recorded or posted. *)
Theorem gate_command_admits `{SerdeJson, Sha256} ed25519_verify args trusted_key floor receipt :
  let '(code, effects) := gate_command ed25519_verify args trusted_key floor receipt in
  (code = Some 0%Z <->
   trusted_receipt ed25519_verify receipt trusted_key /\ cleared receipt floor /\
   is_Some (select_emitter args.(GateArgs.emit))) /\
  (~ trusted_receipt ed25519_verify receipt trusted_key ->
   code = Some REFUSE_EXIT /\ effects = [GateEffect.PrintRefusal]) /\
  (trusted_receipt ed25519_verify receipt trusted_key ->
   exists posted,
     effects = GateEffect.RecordDecision (gate_decision_record receipt (gate receipt floor)) :: posted /\
     (posted = [] \/ exists mode repo sha,
        posted = [GateEffect.Emit mode repo sha (gate receipt floor)])).
Proof.
  pose proof (gate_exit_code_all receipt floor) as [G _]. cbn zeta in G.
  pose proof (verify_gate_receipt_trusted ed25519_verify receipt trusted_key) as T.
  unfold gate_command. cbn zeta. fold (gate receipt floor).
  destruct (GateVerification.trusted _); simpl.
  - destruct (select_emitter _) as [mode|]; simpl.
    + split; [|split; [by intros []; apply T|]].
      * rewrite <- G, <- T. split; [by intros [= ->]|by intros (_ & -> & _)].
      * intros _. destruct (GateArgs.repo args) as [r|], (GateArgs.sha args) as [h|];
          eexists; (split; [reflexivity|]); eauto 6.
    + split; [|split; [by intros []; apply T|by eauto]].
      split; [done|]. by intros (_ & _ & [? ?]).
  - split; [|split; [done|]].
    + split; [done|]. by intros [?%T _].
    + by intros ?%T.
Qed.
