(* ===== verification/ToolPolicy.v ===== *)
(** The tool gate ([nerve-workstation/src/policy/mod.rs], [policy/classify.rs]): the static
    risk tiers, the layered [policy.json] rules with their glob patterns, the decision under
    an approval mode, and the toolbox that enforces it. *)
From S2P Require Import Prelude Json.

(** * The vocabulary *)

(** [nerve-proto/src/risk.rs], [nerve-proto/src/command/aux.rs] *)
Module RiskTier.
Inductive t := ReadOnly | Edit | Exec.
#[export] Instance eq_dec : EqDecision t.
Proof. solve_decision. Defined.
End RiskTier.

Module ApprovalMode.
Inductive t := AlwaysAsk | Write | Yolo.
#[export] Instance eq_dec : EqDecision t.
Proof. solve_decision. Defined.
Definition max_auto_tier (m : t) : RiskTier.t :=
  match m with
  | AlwaysAsk => RiskTier.ReadOnly | Write => RiskTier.Edit | Yolo => RiskTier.Exec
  end.
End ApprovalMode.

Module PolicyAction.
Inductive t := Allow | Deny | Ask.
#[export] Instance eq_dec : EqDecision t.
Proof. solve_decision. Defined.
End PolicyAction.
Export (hints) RiskTier ApprovalMode PolicyAction.

Module PolicyRule.
Record t := Mk { tool : string; action : PolicyAction.t }.
End PolicyRule.

Module PolicyFile.
Record t := Mk { default : option PolicyAction.t; rules : list PolicyRule.t }.
End PolicyFile.

Module Policy.
Record t := Mk {
  rules : list PolicyRule.t;
  default : option PolicyAction.t;
  allow_all : bool;
}.
Definition builtin : t := Mk [] None false.
End Policy.

(** * Classification *)

Definition READONLY_TOOLS : list string :=
  ["file_search"; "read_file"; "get_code_structure"; "get_repo_map"; "goto_definition";
   "find_references"; "call_hierarchy"; "ast_search"; "build_context"; "workspace_context";
   "git"; "list_agents"].
Definition SAFE_AGENT_TOOLS : list string := ["update_checkpoint"; "remember"].
Definition EDIT_TOOLS : list string :=
  ["edit"; "write"; "delete"; "move"; "ast_edit"; "manage_selection"; "manage_workspaces"].
Definition EXEC_TOOLS : list string :=
  ["run_command"; "spawn_agent"; "web_search"; "x_search"; "xai_x_search"; "xai_responses";
   "xai_web_search"; "xai_image_generate"; "xai_video_generate"; "xai_tts"; "xai_transcribe";
   "openai_image_generate"; "delegate_agent"].

Definition contains (l : list string) (s : string) : bool := existsb (String.eqb s) l.

Definition tool_tier (name : string) : RiskTier.t :=
  if contains READONLY_TOOLS name || contains SAFE_AGENT_TOOLS name then RiskTier.ReadOnly
  else if contains EDIT_TOOLS name then RiskTier.Edit
  else if contains EXEC_TOOLS name then RiskTier.Exec
  else RiskTier.Exec.

Definition tier_rank (tier : RiskTier.t) : nat :=
  match tier with RiskTier.ReadOnly => 0 | RiskTier.Edit => 1 | RiskTier.Exec => 2 end.

(** * Glob matching *)

Definition star_byte : ascii := "*".

Section glob.
Context (pattern text : list ascii).

(** The two-pointer loop: [None] when the fuel runs out, [Some None] for [return false],
    [Some (Some p)] when the text is consumed. *)
Fixpoint glob_loop (fuel p t : nat) (star : option nat) (mark : nat) : option (option nat) :=
  match fuel with
  | 0 => None
  | S fuel =>
      if t <? length text then
        if bool_decide (pattern !! p = Some star_byte) then glob_loop fuel (S p) t (Some p) t
        else if bool_decide (pattern !! p = text !! t) then glob_loop fuel (S p) (S t) star mark
        else match star with
             | Some star_pos => glob_loop fuel (S star_pos) (S mark) (Some star_pos) (S mark)
             | None => Some None
             end
      else Some (Some p)
  end.

Fixpoint skip_stars (fuel p : nat) : nat :=
  match fuel with
  | 0 => p
  | S fuel => if bool_decide (pattern !! p = Some star_byte) then skip_stars fuel (S p) else p
  end.

Definition glob_fuel : nat := (length text + 1) * (length pattern + 2) + length pattern + 2.

Definition glob_match_bytes : option bool :=
  match glob_loop glob_fuel 0 0 None 0 with
  | Some (Some p) => Some (bool_decide (skip_stars (length pattern) p = length pattern))
  | Some None => Some false
  | None => None
  end.
End glob.

Definition glob_match (pattern text : string) : bool :=
  default false (glob_match_bytes (String.list_ascii_of_string pattern) (String.list_ascii_of_string text)).

(** * Decisions *)

Definition rule_matches (tool : string) (rule : PolicyRule.t) : bool :=
  glob_match rule.(PolicyRule.tool) tool.

Definition from_layers (global project : option PolicyFile.t) (allow_all : bool) : Policy.t :=
  let project_rules :=
    match project with
    | Some project =>
        filter (fun rule => rule.(PolicyRule.action) = PolicyAction.Deny)
          project.(PolicyFile.rules)
    | None => []
    end in
  match global with
  | Some global =>
      Policy.Mk (project_rules ++ global.(PolicyFile.rules)) global.(PolicyFile.default) allow_all
  | None => Policy.Mk project_rules None allow_all
  end.

Definition decide_with_mode (policy : Policy.t) (tool : string) (mode : ApprovalMode.t)
  : PolicyAction.t :=
  match find (rule_matches tool) policy.(Policy.rules) with
  | Some rule => rule.(PolicyRule.action)
  | None =>
      if policy.(Policy.allow_all) then PolicyAction.Allow
      else if tier_rank (tool_tier tool) <=? tier_rank (ApprovalMode.max_auto_tier mode)
      then PolicyAction.Allow
      else default PolicyAction.Ask policy.(Policy.default)
  end.

(** * Enforcement

    A tool call either reaches the inner toolbox or is answered with a tool error; the
    approver is consulted on [Ask] only. Both are code the gate calls: the trace records
    which of them ran. *)
Inductive call_event := Approve (tool : string) (args : json) | InnerCall (tool : string) (args : json).

Definition denied (tool by_whom : string) : string :=
  "permission denied: tool `" +:+ tool +:+ "` was not allowed by " +:+ by_whom.

Module ToolGate.
Record t := Mk { policy : Policy.t; mode : ApprovalMode.t; approver : string -> json -> bool }.

(** The non-interactive daemon gate: every [Ask] is denied. *)
Definition deny (policy : Policy.t) : t := Mk policy ApprovalMode.AlwaysAsk (fun _ _ => false).
Definition with_approver (policy : Policy.t) (mode : ApprovalMode.t)
    (approver : string -> json -> bool) : t := Mk policy mode approver.
(** The interactive gate, over the policy its arguments resolve to. *)
Definition cli (policy : Policy.t) (allow_all : bool) (approver : string -> json -> bool) : t :=
  Mk policy (if allow_all then ApprovalMode.Yolo else ApprovalMode.AlwaysAsk) approver.
End ToolGate.

(** [PolicyToolBox::call], over an inner toolbox that returns a value or an error. *)
Definition call {R} (gate : ToolGate.t) (inner : string -> json -> R + string)
    (name : string) (args : json) : (R + string) * list call_event :=
  match decide_with_mode gate.(ToolGate.policy) name gate.(ToolGate.mode) with
  | PolicyAction.Allow => (inner name args, [InnerCall name args])
  | PolicyAction.Deny => (inr (denied name "policy"), [])
  | PolicyAction.Ask =>
      if gate.(ToolGate.approver) name args
      then (inner name args, [Approve name args; InnerCall name args])
      else (inr (denied name "the operator"), [Approve name args])
  end.

(** * Approval previews *)

(** [Value::get] on a string key, [as_str] and [as_array]. *)
Definition jget (k : string) (v : json) : option json :=
  match v with JObj m => snd <$> find (fun kv => String.eqb k kv.1) m | _ => None end.
Definition as_str (v : json) : option string := match v with JStr s => Some s | _ => None end.
Definition as_array (v : json) : option (list json) :=
  match v with JArr l => Some l | _ => None end.

Definition string_field (args : json) (field : string) : option string :=
  jget field args ≫= as_str.

Definition command_preview (args : json) : option string :=
  match jget "command" args ≫= as_str with
  | Some command => Some command
  | None => (fun argv => join " " (omap as_str argv)) <$> (jget "argv" args ≫= as_array)
  end.

Definition delegate_preview (args : json) : option string :=
  agent ← jget "agent" args ≫= as_str;
  let task := default EmptyString (jget "task" args ≫= as_str) in
  let cwd := default "." (jget "cwd" args ≫= as_str) in
  let autonomy := default "read_only" (jget "autonomy" args ≫= as_str) in
  Some (agent +:+ ": " +:+ task +:+ " (cwd " +:+ cwd +:+ ") [" +:+ autonomy +:+ "]").

Definition move_preview (args : json) : option string :=
  match jget "path" args ≫= as_str, jget "to" args ≫= as_str with
  | Some from, Some to => Some (from +:+ " -> " +:+ to)
  | Some from, None => Some from
  | None, Some to => Some to
  | None, None => None
  end.

Definition compact_json `{SerdeJson} (args : json) : string :=
  match args with JNull => EmptyString | _ => to_vec args end.

Definition truncate_chars (text : string) (max : nat) : string :=
  if count_chars text <=? max then text else take_chars max text +:+ "…".

Definition PREVIEW_MAX : nat := 500.

Definition format_preview `{SerdeJson} (tool : string) (args : json) : string :=
  let detail :=
    if String.eqb tool "run_command" then command_preview args
    else if String.eqb tool "delegate_agent" then delegate_preview args
    else if contains ["edit"; "write"] tool then string_field args "path"
    else if String.eqb tool "delete" then string_field args "path"
    else if String.eqb tool "move" then move_preview args
    else if contains ["file_search"; "ast_search"; "build_context"; "web_search"; "x_search";
                      "xai_x_search"; "xai_web_search"] tool then string_field args "query"
    else if contains ["xai_image_generate"; "xai_video_generate"; "openai_image_generate"] tool
    then string_field args "prompt"
    else None in
  truncate_chars (default (compact_json args) detail) PREVIEW_MAX.

(** * Properties of glob matching *)

(** What a pattern means: [*] matches any run of bytes, any other byte itself. *)
Inductive Glob : list ascii -> list ascii -> Prop :=
  | Glob_nil : Glob [] []
  | Glob_star p u t : Glob p t -> Glob (star_byte :: p) (u ++ t)
  | Glob_char c p t : c <> star_byte -> Glob p t -> Glob (c :: p) (c :: t).

Lemma Glob_star_inv p t : Glob (star_byte :: p) t <-> exists n, n <= length t /\ Glob p (drop n t).
Proof.
  split.
  - inversion 1 as [|p' u t' G|]; subst; [|done]. exists (length u).
    rewrite length_app, drop_app_length. split; [lia|done].
  - intros (n & L & G). rewrite <- (take_drop n t). by constructor.
Qed.

Lemma Glob_char_inv c p t : c <> star_byte ->
  Glob (c :: p) t <-> exists t', t = c :: t' /\ Glob p t'.
Proof.
  intros N. split.
  - inversion 1; subst; [done|eauto].
  - intros (t' & -> & G). by constructor.
Qed.

Lemma Glob_nil_inv t : Glob [] t <-> t = [].
Proof. split; [by inversion 1|intros ->; constructor]. Qed.

(** Only stars match the empty text. *)
Lemma Glob_empty p : Glob p [] <-> Forall (fun c => c = star_byte) p.
Proof.
  induction p as [|c p IH]; [by rewrite Glob_nil_inv|].
  rewrite Forall_cons, <- IH. destruct (decide (c = star_byte)) as [->|N].
  - rewrite Glob_star_inv. split; [|intros [_ G]; by exists 0].
    intros (n & _ & G). split; [done|]. by rewrite drop_nil in G.
  - rewrite Glob_char_inv by done. split; [by intros (? & ? & _)|by intros []].
Qed.

(** A run of literal bytes consumes as many bytes of text. *)
Lemma Glob_literals l p t :
  Forall (fun c => c <> star_byte) l -> Glob (l ++ p) t ->
  length l <= length t /\ Glob p (drop (length l) t).
Proof.
  intros F. revert t; induction F as [|c l N F IH]; intros t G; simpl.
  - by split; [lia|rewrite drop_0].
  - apply Glob_char_inv in G as (t' & -> & G); [|done]. simpl.
    apply IH in G as [L G]. split; [lia|done].
Qed.

Section glob_proof.
Context (P T : list ascii).

Definition rest (p t : nat) : Prop := Glob (drop p P) (drop t T).

Lemma rest_star p t : P !! p = Some star_byte ->
  rest p t <-> exists t', t <= t' <= Nat.max t (length T) /\ rest (S p) t'.
Proof.
  unfold rest. intros L. erewrite (drop_S P) by done. rewrite Glob_star_inv, length_drop.
  split.
  - intros (n & Hn & G). exists (t + n). rewrite <- drop_drop. split; [lia|done].
  - intros (t' & Ht & G). exists (t' - t). rewrite drop_drop. split; [lia|].
    by replace (t + (t' - t)) with t' by lia.
Qed.

Lemma rest_literal p t : P !! p <> Some star_byte -> t < length T ->
  rest p t <-> P !! p = T !! t /\ rest (S p) (S t).
Proof.
  unfold rest. intros N Lt. destruct (lookup_lt_is_Some_2 T t Lt) as [d Hd].
  rewrite (drop_S T d t) by done. destruct (P !! p) as [c|] eqn:E.
  - rewrite (drop_S P c p), Glob_char_inv, Hd by congruence.
    split; [by intros (? & [= -> ->] & ?)|]. intros ([= ->] & G). eauto.
  - rewrite (drop_ge P) by (by apply lookup_ge_None). rewrite Glob_nil_inv, Hd.
    by split; [|intros [? _]].
Qed.

(** The invariant: since the last star, the pattern's bytes were matched literally, and the
    whole match amounts to finishing from here or restarting that star further on. *)
Definition alternatives (star : option nat) (mark : nat) : Prop :=
  exists s m, star = Some s /\ mark < m <= length T /\ rest (S s) m.

Definition run_ok (p t : nat) (star : option nat) (mark : nat) : Prop :=
  t <= length T /\ p <= length P /\
  match star with
  | None => mark = 0
  | Some s =>
      s < p /\ mark <= t /\ p - S s = t - mark /\
      Forall (fun c => c <> star_byte) (take (p - S s) (drop (S s) P))
  end.

Definition inv (p t : nat) (star : option nat) (mark : nat) : Prop :=
  run_ok p t star mark /\ (Glob P T <-> rest p t \/ alternatives star mark).

(** Restarting the last star at [m] leaves the pattern at [p] facing the text at the same
    distance past [m]. *)
Lemma alternatives_at p t star mark :
  run_ok p t star mark -> alternatives star mark ->
  exists m, t < m <= length T /\ rest p m.
Proof.
  intros (Lt & Lp & R) (s & m & -> & Hm & G). destruct R as (Ls & Lm & D & F).
  unfold rest in G. rewrite <- (take_drop (p - S s) (drop (S s) P)) in G.
  apply Glob_literals in G as [L G]; [|done].
  rewrite length_take, length_drop in L, G. rewrite length_drop in L.
  rewrite !drop_drop, Nat.min_l in * by lia.
  exists (m + (p - S s)). split; [lia|].
  unfold rest. by replace p with (S s + (p - S s)) at 1 by lia.
Qed.

Lemma inv_init : inv 0 0 None 0.
Proof.
  split; [split; [lia|split; [lia|done]]|]. unfold rest. rewrite !drop_0.
  split; [by left|]. by intros [?|(? & ? & [=] & _)].
Qed.

Lemma inv_star p t star mark :
  t < length T -> P !! p = Some star_byte -> inv p t star mark -> inv (S p) t (Some p) t.
Proof.
  intros Lt E [R I]. pose proof R as (_ & _ & _). split.
  - pose proof (lookup_lt_Some _ _ _ E). split_and!; [lia..|]. by rewrite !Nat.sub_diag.
  - rewrite I. split.
    + intros [G|A].
      * apply rest_star in G as (t' & Ht & G); [|done].
        destruct (decide (t' = t)) as [->|N]; [by left|right].
        exists p, t'. split_and!; [done|lia..|done].
      * apply (alternatives_at _ _ _ _ R) in A as (m & Hm & G).
        apply rest_star in G as (t' & Ht & G); [|done].
        right. exists p, t'. split_and!; [done|lia..|done].
    + intros G. left. apply rest_star; [done|]. destruct G as [G|(s & m & [= <-] & Hm & G)].
      * exists t. split; [lia|done].
      * exists m. split; [lia|done].
Qed.

Lemma take_S_drop k n (l : list ascii) x :
  l !! (k + n) = Some x -> take (S n) (drop k l) = take n (drop k l) ++ [x].
Proof. intros E. apply take_S_r. by rewrite lookup_drop. Qed.

Lemma inv_char p t star mark :
  t < length T -> P !! p <> Some star_byte -> P !! p = T !! t ->
  inv p t star mark -> inv (S p) (S t) star mark.
Proof.
  intros Lt N E [(Ht & Hp & R) I]. destruct (lookup_lt_is_Some_2 T t Lt) as [d Hd].
  pose proof E as Ed. rewrite Hd in Ed. pose proof (lookup_lt_Some _ _ _ Ed). split.
  - split_and!; [lia..|]. destruct star as [s|]; [|done].
    destruct R as (Ls & Lm & D & F). split_and!; [lia..|].
    replace (S p - S s) with (S (p - S s)) by lia.
    rewrite (take_S_drop _ _ _ d) by (by replace (S s + (p - S s)) with p by lia).
    apply Forall_app. split; [done|]. apply Forall_singleton. congruence.
  - rewrite I, (rest_literal p t) by done. tauto.
Qed.

Lemma inv_backtrack p t s mark :
  t < length T -> P !! p <> Some star_byte -> P !! p <> T !! t ->
  inv p t (Some s) mark -> inv (S s) (S mark) (Some s) (S mark).
Proof.
  intros Lt N E [(Ht & Hp & Ls & Lm & D & F) I]. split.
  - split_and!; [lia..|]. by rewrite Nat.sub_diag.
  - rewrite I, (rest_literal p t) by done. split.
    + intros [[? _]|(s' & m & [= <-] & Hm & G)]; [done|].
      destruct (decide (m = S mark)) as [->|Nm]; [by left|right].
      exists s, m. split_and!; [done|lia..|done].
    + intros [G|(s' & m & [= <-] & Hm & G)]; right.
      * exists s, (S mark). split_and!; [done|lia..|done].
      * exists s, m. split_and!; [done|lia..|done].
Qed.

Lemma inv_fail p t mark :
  t < length T -> P !! p <> Some star_byte -> P !! p <> T !! t ->
  inv p t None mark -> ~ Glob P T.
Proof.
  intros Lt N E [_ I]. rewrite I, (rest_literal p t) by done.
  by intros [[? _]|(? & ? & [=] & _)].
Qed.

(** When the text is consumed no restart can succeed. *)
Lemma inv_end p t star mark :
  length T <= t -> inv p t star mark -> Glob P T <-> Forall (fun c => c = star_byte) (drop p P).
Proof.
  intros Le [R I]. rewrite I. pose proof R as (Ht & _). split.
  - intros [G|A].
    + unfold rest in G. rewrite (drop_ge T) in G by lia. by apply Glob_empty.
    + apply (alternatives_at _ _ _ _ R) in A as (m & Hm & _). lia.
  - intros G%Glob_empty. left. unfold rest. by rewrite (drop_ge T) by lia.
Qed.

(** Every iteration decreases the measure, so the fuel is never exhausted, and the loop's
    answer is the meaning of the pattern. *)
Definition measure (p : nat) (star : option nat) (mark : nat) : nat :=
  (length T + 1 - mark) * (length P + 2) + (length P + 1 - p).

Lemma glob_loop_spec fuel p t star mark :
  inv p t star mark -> measure p star mark < fuel ->
  match glob_loop P T fuel p t star mark with
  | None => False
  | Some None => ~ Glob P T
  | Some (Some p') => p' <= length P /\ (Glob P T <-> Forall (fun c => c = star_byte) (drop p' P))
  end.
Proof.
  revert p t star mark; induction fuel as [|fuel IH]; intros p t star mark I M; [lia|].
  simpl. pose proof I as [(Ht & Hp & R) _].
  destruct (Nat.ltb_spec t (length T)) as [Lt|Le].
  - case_bool_decide as E1; [|case_bool_decide as E2; [|destruct star as [s|]]].
    + apply IH; [by eapply inv_star|].
      pose proof (lookup_lt_Some _ _ _ E1). unfold measure in *.
      assert (mark <= t) by (destruct star; lia).
      assert ((length T + 1 - t) * (length P + 2) <= (length T + 1 - mark) * (length P + 2))
        by (apply Nat.mul_le_mono_r; lia). lia.
    + pose proof (inv_char _ _ _ _ Lt E1 E2 I) as I'. apply IH; [done|].
      destruct I' as [(_ & Hp' & _) _]. unfold measure in *. lia.
    + apply IH; [by eapply inv_backtrack|]. unfold measure in *.
      destruct R as (Ls & Lm & _).
      replace (length T + 1 - mark) with (S (length T + 1 - S mark)) in M by lia. nia.
    + by eapply inv_fail.
  - split; [done|]. by eapply inv_end.
Qed.

Lemma skip_stars_spec fuel p :
  p <= length P -> length P - p <= fuel ->
  skip_stars P fuel p = length P <-> Forall (fun c => c = star_byte) (drop p P).
Proof.
  revert p; induction fuel as [|fuel IH]; intros p Hp L; simpl.
  - rewrite drop_ge by lia. split; [done|]. intros _. lia.
  - case_bool_decide as E.
    + pose proof (lookup_lt_Some _ _ _ E). rewrite IH by lia.
      erewrite (drop_S P _ p) by done. rewrite Forall_cons. tauto.
    + split.
      * intros ->. by rewrite drop_ge.
      * intros F. destruct (P !! p) as [c|] eqn:Ec; [|apply lookup_ge_None in Ec; lia].
        erewrite (drop_S P _ p) in F by done. apply Forall_cons in F as [-> _]. done.
Qed.

Lemma glob_match_bytes_spec :
  exists b, glob_match_bytes P T = Some b /\ (b = true <-> Glob P T).
Proof.
  unfold glob_match_bytes.
  pose proof (glob_loop_spec (glob_fuel P T) 0 0 None 0 inv_init) as L.
  assert (measure 0 None 0 < glob_fuel P T) as M by (unfold measure, glob_fuel; nia).
  specialize (L M). destruct (glob_loop _ _ _ _ _ _ _) as [[p|]|]; [..|done].
  - destruct L as [Lp L]. eexists. split; [done|].
    by rewrite bool_decide_eq_true, L, skip_stars_spec by lia.
  - exists false. split; [done|]. by split.
Qed.
End glob_proof.

(** C40: the two-pointer matcher terminates and decides the pattern's meaning: [*] stands for
    any run of bytes and every other byte for itself. *)
Theorem glob_match_correct pattern text :
  (exists b, glob_match_bytes (String.list_ascii_of_string pattern)
               (String.list_ascii_of_string text) = Some b) /\
  (glob_match pattern text = true <->
   Glob (String.list_ascii_of_string pattern) (String.list_ascii_of_string text)).
Proof.
  destruct (glob_match_bytes_spec (String.list_ascii_of_string pattern)
              (String.list_ascii_of_string text)) as (b & E & Hb).
  unfold glob_match. rewrite E. simpl. eauto.
Qed.

(** * Properties of decisions *)

Lemma find_app {A} (f : A -> bool) l l' :
  find f (l ++ l') = match find f l with Some a => Some a | None => find f l' end.
Proof. induction l as [|a l IH]; simpl; [done|]. by destruct (f a). Qed.

Lemma find_filter_deny tool rules :
  match find (rule_matches tool)
          (filter (fun rule => rule.(PolicyRule.action) = PolicyAction.Deny) rules) with
  | Some rule => rule.(PolicyRule.action) = PolicyAction.Deny /\
                 rule ∈ rules /\ rule_matches tool rule = true
  | None => forall rule, rule ∈ rules -> rule.(PolicyRule.action) = PolicyAction.Deny ->
              rule_matches tool rule = false
  end.
Proof.
  destruct (find _ _) as [rule|] eqn:E.
  - apply find_some in E as [Hin%list_elem_of_In M].
    by apply list_elem_of_filter in Hin as [? ?].
  - intros rule Hin D. apply (find_none _ _ E), list_elem_of_In, list_elem_of_filter. done.
Qed.

(** The workspace's own policy file only tightens: with it, a call is denied when one of
    its deny rules matches and is decided exactly as without it otherwise; its other rules
    and its default never count. *)
Theorem project_layer_tightens global project allow_all tool mode :
  let without := decide_with_mode (from_layers global None allow_all) tool mode in
  let with_project := decide_with_mode (from_layers global (Some project) allow_all) tool mode in
  (with_project = PolicyAction.Deny /\
   exists rule, rule ∈ project.(PolicyFile.rules) /\
     rule.(PolicyRule.action) = PolicyAction.Deny /\ rule_matches tool rule = true) \/
  (with_project = without /\
   forall rule, rule ∈ project.(PolicyFile.rules) ->
     rule.(PolicyRule.action) = PolicyAction.Deny -> rule_matches tool rule = false).
Proof.
  cbn zeta. pose proof (find_filter_deny tool project.(PolicyFile.rules)) as F.
  set (denies := filter _ project.(PolicyFile.rules)) in *.
  assert (from_layers global (Some project) allow_all =
          let p := from_layers global None allow_all in
          Policy.Mk (denies ++ p.(Policy.rules)) p.(Policy.default) p.(Policy.allow_all)) as ->.
  { unfold from_layers. fold denies. destruct global; simpl; [done|]. by rewrite app_nil_r. }
  unfold decide_with_mode. cbn [Policy.rules Policy.default Policy.allow_all].
  rewrite find_app. destruct (find _ denies) as [rule|].
  - left. destruct F as (D & Hin & M). split; [done|]. by exists rule.
  - by right.
Qed.

(** The matrix is monotone and fails safe: what is allowed without a prompt in a mode is
    allowed in every more permissive one, and a tool that no table lists (a plugin tool, a
    new one) is auto-allowed by no mode short of [Yolo] unless an operator rule or
    [--allow-all] says so. *)
Theorem decide_monotone_and_fail_safe policy tool mode mode' :
  (tier_rank (ApprovalMode.max_auto_tier mode) <= tier_rank (ApprovalMode.max_auto_tier mode') ->
   decide_with_mode policy tool mode = PolicyAction.Allow ->
   decide_with_mode policy tool mode' = PolicyAction.Allow) /\
  (contains (READONLY_TOOLS ++ SAFE_AGENT_TOOLS ++ EDIT_TOOLS) tool = false ->
   find (rule_matches tool) policy.(Policy.rules) = None ->
   policy.(Policy.allow_all) = false ->
   mode <> ApprovalMode.Yolo ->
   decide_with_mode policy tool mode = default PolicyAction.Ask policy.(Policy.default)).
Proof.
  unfold decide_with_mode. split.
  - intros L. destruct (find _ _); [done|]. destruct (Policy.allow_all policy); [done|].
    destruct (Nat.leb_spec (tier_rank (tool_tier tool)) (tier_rank (ApprovalMode.max_auto_tier mode))),
      (Nat.leb_spec (tier_rank (tool_tier tool)) (tier_rank (ApprovalMode.max_auto_tier mode')));
      done || lia.
  - intros C -> -> N. unfold contains in C. rewrite !existsb_app in C.
    apply orb_false_iff in C as [C1 [C2 C3]%orb_false_iff].
    assert (tool_tier tool = RiskTier.Exec) as ->.
    { unfold tool_tier, contains. rewrite C1, C2, C3. cbn [orb]. by destruct (existsb (String.eqb tool) EXEC_TOOLS). }
    by destruct mode.
Qed.

Lemma decide_monotone_and_fail_safe_witness :
  let policy := Policy.builtin in
  (tier_rank (ApprovalMode.max_auto_tier ApprovalMode.Write) <=
     tier_rank (ApprovalMode.max_auto_tier ApprovalMode.Yolo) ->
   decide_with_mode policy "edit" ApprovalMode.Write = PolicyAction.Allow ->
   decide_with_mode policy "edit" ApprovalMode.Yolo = PolicyAction.Allow) /\
  decide_with_mode policy "mcp__x" ApprovalMode.Write = PolicyAction.Ask.
Proof.
  intros policy. split.
  - intros L A.
    apply (decide_monotone_and_fail_safe policy "edit" ApprovalMode.Write ApprovalMode.Yolo);
      [exact L|exact A].
  - apply (decide_monotone_and_fail_safe policy "mcp__x" ApprovalMode.Write ApprovalMode.Yolo);
      [reflexivity|reflexivity|reflexivity|discriminate].
Defined.

(** Enforcement: the inner toolbox runs a call exactly when the decision allows it, or
    asks and the approver says yes; the approver is consulted exactly on an ask; and a call
    that does not run is answered with a permission error naming the tool. *)
Theorem call_gated {R} gate (inner : string -> json -> R + string) name args :
  let decision := decide_with_mode gate.(ToolGate.policy) name gate.(ToolGate.mode) in
  let '(result, trace) := call gate inner name args in
  let runs := decision = PolicyAction.Allow \/
              (decision = PolicyAction.Ask /\ gate.(ToolGate.approver) name args = true) in
  (InnerCall name args ∈ trace <-> runs) /\
  (Approve name args ∈ trace <-> decision = PolicyAction.Ask) /\
  (forall tool args', InnerCall tool args' ∈ trace -> tool = name /\ args' = args) /\
  (runs -> result = inner name args) /\
  (~ runs -> exists by_whom, result = inr (denied name by_whom)).
Proof.
  unfold call. destruct (decide_with_mode _ _ _); [..|destruct (ToolGate.approver _ _ _)];
    split_and!; try (split; set_solver); try set_solver; intros; try (by eexists); naive_solver.
Qed.

(** The daemon's gate over the built-in policy runs the read-only and agent-memory tools
    and nothing else. *)
Theorem daemon_gate_read_only {R} (inner : string -> json -> R + string) name args :
  InnerCall name args ∈ (call (ToolGate.deny Policy.builtin) inner name args).2 <->
  name ∈ READONLY_TOOLS ++ SAFE_AGENT_TOOLS.
Proof.
  assert (forall l, contains l name = true <-> name ∈ l) as C.
  { intros l. unfold contains. rewrite existsb_exists. split.
    - intros (x & Hx%list_elem_of_In & ->%String.eqb_eq). done.
    - intros Hx. exists name. by rewrite <- list_elem_of_In, String.eqb_refl. }
  rewrite elem_of_app, <- !C.
  assert (contains READONLY_TOOLS name = true \/ contains SAFE_AGENT_TOOLS name = true <->
          tool_tier name = RiskTier.ReadOnly) as ->.
  { unfold tool_tier. destruct (contains READONLY_TOOLS name), (contains SAFE_AGENT_TOOLS name);
      cbn [orb]; try tauto.
    destruct (contains EDIT_TOOLS name), (contains EXEC_TOOLS name); intuition congruence. }
  unfold call, decide_with_mode. cbn [ToolGate.policy ToolGate.deny Policy.rules Policy.builtin
    find Policy.allow_all Policy.default ToolGate.mode ToolGate.approver].
  destruct (tool_tier name); simpl; split; try done; set_solver.
Qed.

(** [--allow-all] does not short-circuit every decision: an operator's deny rule still
    denies. *)
Theorem allow_all_yields_to_rules tool mode :
  decide_with_mode
    (Policy.Mk [PolicyRule.Mk "*" PolicyAction.Deny] None true) tool mode = PolicyAction.Deny.
Proof.
  unfold decide_with_mode. simpl.
  assert (rule_matches tool (PolicyRule.Mk "*" PolicyAction.Deny) = true) as ->; [|done].
  unfold rule_matches. simpl.
  destruct (glob_match_bytes_spec (String.list_ascii_of_string "*") (String.list_ascii_of_string tool))
    as (b & E & Hb).
  unfold glob_match. rewrite E. apply Hb.
  change (String.list_ascii_of_string "*") with [star_byte].
  rewrite <- (app_nil_r (String.list_ascii_of_string tool)). apply Glob_star, Glob_nil.
Qed.

(** * Properties of previews *)

Lemma count_chars_app s t : count_chars (s +:+ t) = count_chars s + count_chars t.
Proof. induction s as [|c s IH]; simpl; [done|]. destruct (utf8_continuation c); lia. Qed.

Lemma count_take_chars n s : count_chars (take_chars n s) <= n.
Proof.
  revert n; induction s as [|c s IH]; intros n; simpl; [lia|].
  destruct (utf8_continuation c) eqn:E; simpl; [rewrite E; apply IH|].
  destruct n as [|n]; simpl; [lia|]. rewrite E. specialize (IH n). lia.
Qed.

(** An approval preview is at most 500 characters and an ellipsis, whatever the
    arguments. *)
Theorem format_preview_bounded `{SerdeJson} tool args :
  count_chars (format_preview tool args) <= PREVIEW_MAX + 1.
Proof.
  unfold format_preview. set (s := default _ _). clearbody s.
  unfold truncate_chars. destruct (Nat.leb_spec (count_chars s) PREVIEW_MAX); [lia|].
  rewrite count_chars_app. pose proof (count_take_chars PREVIEW_MAX s).
  change (count_chars "…") with 1. lia.
Qed.
