(* ===== verification/FlowDefs.v ===== *)
(** The declarative workflow vocabulary ([nerve-proto/src/flow.rs], with [DelegateAutonomy]
    of [command/delegate.rs] and [FlowDecisionKind] of [event/mod.rs]): workflows, steps,
    strategies, joins, context splits, and the task template with its renderer. *)
From Stdlib Require Import SpecFloat.
From S2P Require Import Prelude Text.

(** IEEE binary64, and the operations on it the program uses. *)
Abbreviation f64 := spec_float.
Definition fadd (a b : f64) : f64 := SFadd 53 1024 a b.
Definition fsub (a b : f64) : f64 := SFsub 53 1024 a b.
Definition fmul (a b : f64) : f64 := SFmul 53 1024 a b.
Definition fzero : f64 := S754_zero false.
Definition fgt (a b : f64) : bool := SFltb b a.
Definition fge (a b : f64) : bool := SFleb b a.
Definition fle (a b : f64) : bool := SFleb a b.
(** [f64::min] and [f64::max]: a NaN operand yields the other one. *)
Definition fmin (a b : f64) : f64 :=
  match a, b with
  | S754_nan, _ => b
  | _, S754_nan => a
  | _, _ => if SFltb b a then b else a
  end.
Definition fmax (a b : f64) : f64 :=
  match a, b with
  | S754_nan, _ => b
  | _, S754_nan => a
  | _, _ => if SFltb a b then b else a
  end.

Module DelegateAutonomy.
Inductive t := ReadOnly | Edit | Full.
Definition default : t := ReadOnly.
#[export] Instance eq_dec : EqDecision t.
Proof. solve_decision. Defined.
End DelegateAutonomy.
Export (hints) DelegateAutonomy.

Module WorkerRef.
Inductive t :=
  | Cli (name : string)
  | Provider (provider model : string)
  | Named (name : string).
#[export] Instance eq_dec : EqDecision t.
Proof. solve_decision. Defined.
End WorkerRef.
Export (hints) WorkerRef.

Module FailPolicy.
Inductive t := Abort | Continue | Retry (n : u32).
Definition default : t := Abort.
#[export] Instance eq_dec : EqDecision t.
Proof. solve_decision. Defined.
End FailPolicy.
Export (hints) FailPolicy.

Module Join.
Inductive t := All | FirstOk | Quorum (n : u32).
#[export] Instance eq_dec : EqDecision t.
Proof. solve_decision. Defined.
End Join.
Export (hints) Join.

Module ContextSplit.
Inductive t := Shards (n : u32) | Paths (groups : list (list string)).
#[export] Instance eq_dec : EqDecision t.
Proof. solve_decision. Defined.
End ContextSplit.
Export (hints) ContextSplit.

Module BudgetSpec.
Record t := Mk {
  max_total_cost_usd : option f64;
  max_total_tokens : option u64;
  max_workers : option u32;
}.
Definition default : t := Mk None None None.
End BudgetSpec.

Module TaskTemplate.
Record t := New { prompt : string }.

Definition open_braces : string := "{{".
Definition close_braces : string := "}}".

(** The [while let] of [render], on the text not yet consumed. Each round consumes at least
    the two opening braces, so the length of the prompt is enough fuel. *)
Fixpoint render_loop (fuel : nat) (lookup : string -> option string) (rest : string) : string :=
  match fuel with
  | 0 => rest
  | S fuel =>
      match split_once open_braces rest with
      | None => rest
      | Some (before, after) =>
          before +:+
          match split_once close_braces after with
          | Some (inside, rest) =>
              match lookup (trim inside) with
              | Some value => value
              | None => open_braces +:+ inside +:+ close_braces
              end +:+ render_loop fuel lookup rest
          | None => open_braces +:+ after
          end
      end
  end.

Definition render (t : t) (lookup : string -> option string) : string :=
  render_loop (String.length t.(prompt)) lookup t.(prompt).
End TaskTemplate.

Module Step.
Record t := Mk {
  worker : WorkerRef.t;
  task : TaskTemplate.t;
  autonomy : DelegateAutonomy.t;
  on_fail : FailPolicy.t;
}.
End Step.

Module Strategy.
Inductive t :=
  | Single (step : Step.t)
  | Parallel (branches : list Step.t) (join : Join.t)
  | Pipeline (stages : list Step.t)
  | MapReduce (map : Step.t) (over : ContextSplit.t) (reduce : Step.t)
  | VoteJudge (candidates : list Step.t) (judge : Step.t) (k : u32)
  | Debate (sides : list Step.t) (rounds : u32) (judge : Step.t)
  | Hierarchical (planner : Step.t) (child : t).
End Strategy.

Module WorkflowDef.
Record t := Mk {
  schema_version : u32;
  name : string;
  strategy : Strategy.t;
  budget : BudgetSpec.t;
  max_depth : u32;
}.
Definition default_max_depth : u32 := wrap 32 2.
End WorkflowDef.

(** The typed audit decisions ([FlowDecisionKind] of [event/mod.rs]). *)
Module FlowDecisionKind.
Inductive t :=
  | BudgetExhausted
  | DepthCeiling (depth max_depth : u32)
  | WorkerCeiling (live_workers max_workers : u32)
  | VoteTally (ok total k : u32) (reached : bool)
  | JudgePick (node_id : string) (ok : bool)
  | DebateRound (round sides_ok : u32).
#[export] Instance eq_dec : EqDecision t.
Proof. solve_decision. Defined.
End FlowDecisionKind.
Export (hints) FlowDecisionKind.

(** * Template rendering *)

(** A template read as literal text and placeholders. *)
Inductive segment := Literal (s : string) | Placeholder (inside : string).

Definition segment_text (g : segment) : string :=
  match g with
  | Literal s => s
  | Placeholder inside => "{{" +:+ inside +:+ "}}"
  end.

Definition segment_ok (g : segment) : Prop :=
  match g with
  | Literal s => no_char "{" s = true
  | Placeholder inside => no_char "}" inside = true
  end.

Definition segment_value (lookup : string -> option string) (g : segment) : string :=
  match g with
  | Literal s => s
  | Placeholder inside => default (segment_text g) (lookup (trim inside))
  end.

(** Rendering consumes a leading literal unchanged. *)
Lemma render_loop_literal fuel lookup s rest :
  no_char "{" s = true ->
  TaskTemplate.render_loop fuel lookup (s +:+ rest) =
  s +:+ TaskTemplate.render_loop fuel lookup rest.
Proof.
  intros F. destruct fuel as [|fuel]; [done|]. cbn [TaskTemplate.render_loop].
  unfold TaskTemplate.open_braces, TaskTemplate.close_braces.
  assert (split_once "{{" (s +:+ rest) = prod_map (String.append s) id <$> split_once "{{" rest)
    as ->.
  { induction s as [|d s IH]; [change ("" +:+ rest) with rest; by destruct (split_once "{{" rest) as [[]|]|].
    cbn [no_char] in F. rewrite andb_true_iff, negb_true_iff, bool_decide_eq_false in F.
    destruct F as [N F]. change (String d s +:+ rest) with (String d (s +:+ rest)).
    cbn [split_once strip_prefix]. destruct (Ascii.eqb_spec "{" d); [done|].
    rewrite (IH F). by destruct (split_once "{{" rest) as [[]|]. }
  destruct (split_once "{{" rest) as [[before after]|]; [|done].
  simpl. by rewrite app_assoc_str.
Qed.

Lemma render_loop_segments lookup gs fuel :
  Forall segment_ok gs -> length gs <= fuel ->
  TaskTemplate.render_loop fuel lookup (concat_str (map segment_text gs)) =
  concat_str (map (segment_value lookup) gs).
Proof.
  intros OK. revert fuel. induction OK as [|g gs G OK IH]; intros fuel L.
  { by destruct fuel. }
  cbn [length] in L. cbn [map concat_str]. destruct g as [s|inside]; cbn [segment_ok] in G.
  - cbn [segment_text segment_value]. rewrite render_loop_literal by done.
    rewrite IH by lia. done.
  - destruct fuel as [|fuel]; [lia|]. cbn [segment_text TaskTemplate.render_loop].
    unfold TaskTemplate.open_braces, TaskTemplate.close_braces. rewrite !app_assoc_str.
    match goal with |- context [split_once "{{" (?a +:+ ?r)] =>
      change (split_once "{{" (a +:+ r)) with (split_once "{{" (EmptyString +:+ "{{" +:+ r)) end.
    rewrite (split_once_fresh "{" "{" EmptyString) by done.
    rewrite (split_once_fresh "}" "}" inside) by done.
    rewrite IH by lia. simpl. by destruct (lookup (trim inside)).
Qed.

Lemma render_loop_none fuel lookup s :
  (forall name, lookup name = None) -> TaskTemplate.render_loop fuel lookup s = s.
Proof.
  intros N. revert s. induction fuel as [|fuel IH]; intros s; [done|].
  cbn [TaskTemplate.render_loop].
  destruct (split_once _ s) as [[before after]|] eqn:E; [|done].
  apply split_once_Some in E as ->. f_equal.
  destruct (split_once _ after) as [[inside rest]|] eqn:E'; [|done].
  apply split_once_Some in E' as ->. by rewrite N, IH, !app_assoc_str.
Qed.

Lemma length_segments gs :
  Forall (fun g => segment_text g <> EmptyString) gs ->
  length gs <= String.length (concat_str (map segment_text gs)).
Proof.
  induction 1 as [|g gs G _ IH]; [done|]. cbn [map concat_str length].
  rewrite length_app_str. destruct (segment_text g); [done|]. simpl. lia.
Qed.

(** Rendering is one pass over the template: literal text is kept, each placeholder whose
    trimmed name the lookup knows becomes its value, every other one stays verbatim, and a
    substituted value is never scanned again; a lookup that knows nothing renders any
    template, well formed or not, to itself. *)
Theorem render_spec gs lookup
    (OK : Forall segment_ok gs) (NE : Forall (fun g => segment_text g <> EmptyString) gs) :
  TaskTemplate.render (TaskTemplate.New (concat_str (map segment_text gs))) lookup =
    concat_str (map (segment_value lookup) gs) /\
  forall t, TaskTemplate.render t (fun _ => None) = t.(TaskTemplate.prompt).
Proof.
  split.
  - by apply render_loop_segments, length_segments.
  - intros t. by apply render_loop_none.
Qed.

Lemma render_spec_witness :
  TaskTemplate.render (TaskTemplate.New "do {{ a }} then {{b}}")
    (fun n => if String.eqb n "a" then Some "{{b}}" else None) = "do {{b}} then {{b}}".
Proof.
  apply (render_spec [Literal "do "; Placeholder " a "; Literal " then "; Placeholder "b"]).
  - repeat constructor.
  - by repeat constructor.
Defined.
