(* ===== verification/Tape.v ===== *)
(** The worker port's data ([nerve-workstation/src/worker/mod.rs]), the worker ledger that is
    at once replay tape and blackboard ([worker/ledger.rs]) and the worker that replays a
    tape ([worker/replay.rs]). *)
From S2P Require Import Prelude Json ToolPolicy FlowDefs.

(** [nerve_agent::Usage]. *)
Module Usage.
Record t := Mk {
  input_tokens : u32;
  output_tokens : u32;
  cache_read_tokens : u32;
  cache_creation_tokens : u32;
}.
Definition default : t := Mk (wrap 32 0) (wrap 32 0) (wrap 32 0) (wrap 32 0).
End Usage.

Module AgentEventKind.
Inductive t :=
  | TurnStarted (turn : u64)
  | Message (text : string)
  | Reasoning (text : string)
  | ToolStarted (tool : string) (arguments : json)
  | ToolFinished (tool : string) (ok : bool) (output : string)
  | Interrupted (reason : string)
  | Usage (input_tokens output_tokens : u64) (cache_read_tokens cache_creation_tokens : option u64).
End AgentEventKind.

Module WorkerEvent.
Inductive t :=
  | Step (kind : AgentEventKind.t)
  | Progress (text : string)
  | Approval (request_id tool : string) (args : json) (tier : RiskTier.t) (preview : string).
End WorkerEvent.

Module TurnResult.
Record t := Mk {
  ok : bool;
  text : string;
  usage : Usage.t;
  cost_usd : option f64;
  timed_out : bool;
}.
Definition failed : t := Mk false EmptyString Usage.default None false.
End TurnResult.

Module BudgetGrant.
Record t := Mk { max_cost_usd : option f64; max_tokens : option u64 }.
Definition default : t := Mk None None.
End BudgetGrant.

Module WorkerTask.
Record t := Mk {
  node_id : string;
  prompt : string;
  autonomy : DelegateAutonomy.t;
  model : option string;
  tool_filter : option (list string);
  budget : BudgetGrant.t;
}.
End WorkerTask.

(** What of the context differs between nodes; the root, the ledger and the approver are the
    driver's own. *)
Module WorkerContext.
Record t := Mk { snapshot_generation : u64; flow_id : string; node_id : string }.
End WorkerContext.

Module WorkerError.
Inductive t := Start (message : string) | Turn (message : string) | Cancelled | NotSteerable.

Definition display (e : t) : string :=
  match e with
  | Start message => "worker start failed: " +:+ message
  | Turn message => "worker turn failed: " +:+ message
  | Cancelled => "worker run was cancelled"
  | NotSteerable => "this worker is one-shot and cannot be steered"
  end.
End WorkerError.

(** What one [start] shows its caller: the events it emitted and how the turn ended. *)
Definition turn := (list WorkerEvent.t * (TurnResult.t + WorkerError.t))%type.

(** * The ledger *)

Module LedgerPayload.
Inductive t :=
  | Start (prompt : string) (snapshot_generation : u64)
  | Event (event : WorkerEvent.t)
  | Result (result : TurnResult.t).
End LedgerPayload.

Module LedgerEntry.
Record t := Mk { seq : u64; node_id : string; payload : LedgerPayload.t }.
End LedgerEntry.

Module WorkerLedger.
Record t := Mk { entries : list LedgerEntry.t; blackboard : gmap string string }.

Definition new : t := Mk [] ∅.

Definition push (inner : t) (node_id : string) (payload : LedgerPayload.t) : t :=
  let seq := len_u64 inner.(entries) in
  Mk (inner.(entries) ++ [LedgerEntry.Mk seq node_id payload]) inner.(blackboard).

Definition record_start (l : t) (node_id prompt : string) (snapshot_generation : u64) : t :=
  push l node_id (LedgerPayload.Start prompt snapshot_generation).

Definition record_event (l : t) (node_id : string) (event : WorkerEvent.t) : t :=
  push l node_id (LedgerPayload.Event event).

Definition record_result (l : t) (node_id : string) (result : TurnResult.t) : t :=
  let inner := Mk l.(entries) (<[node_id := result.(TurnResult.text)]> l.(blackboard)) in
  push inner node_id (LedgerPayload.Result result).

Definition output (l : t) (node_id : string) : option string := l.(blackboard) !! node_id.

Definition snapshot (l : t) : list LedgerEntry.t := l.(entries).

Definition node_generations (l : t) : gmap string u64 :=
  foldl (fun map entry =>
           match entry.(LedgerEntry.payload) with
           | LedgerPayload.Start _ generation => <[entry.(LedgerEntry.node_id) := generation]> map
           | _ => map
           end) ∅ l.(entries).

Definition finished_nodes (l : t) : list string :=
  foldl (fun seen entry =>
           match entry.(LedgerEntry.payload) with
           | LedgerPayload.Result _ =>
               if bool_decide (entry.(LedgerEntry.node_id) ∈ seen) then seen
               else seen ++ [entry.(LedgerEntry.node_id)]
           | _ => seen
           end) [] l.(entries).
End WorkerLedger.

(** * Replay *)

Definition no_recorded_result : TurnResult.t :=
  TurnResult.Mk false "replay: node had no recorded result" Usage.default None false.

(** One entry of the node being replayed, on the events emitted so far and the last result. *)
Definition replay_entry (st : list WorkerEvent.t * TurnResult.t) (entry : LedgerEntry.t)
  : list WorkerEvent.t * TurnResult.t :=
  let '(events, last) := st in
  match entry.(LedgerEntry.payload) with
  | LedgerPayload.Event event => (events ++ [event], last)
  | LedgerPayload.Result result => (events, result)
  | LedgerPayload.Start _ _ => (events, last)
  end.

Definition is_node (node : string) (e : LedgerEntry.t) : bool :=
  String.eqb e.(LedgerEntry.node_id) node.

(** [ReplayWorker::start]. *)
Definition replay_start (recorded : list LedgerEntry.t) (task : WorkerTask.t) : turn :=
  let node := task.(WorkerTask.node_id) in
  if negb (existsb (is_node node) recorded) then
    ([], inr (WorkerError.Start ("no recorded node `" +:+ node +:+ "` in the replay tape")))
  else
    let '(events, last) :=
      foldl replay_entry ([], no_recorded_result) (List.filter (is_node node) recorded) in
    (events, inl last).
