(* ===== verification/Flow.v ===== *)
(** The deterministic orchestration engine ([nerve-workstation/src/flow/mod.rs],
    [flow/engine.rs], [flow/engine/strategy*]): node ids, actions, the declared-order fold and
    the pure step interpreter of every strategy. *)
From S2P Require Import Prelude Text Json FlowDefs Tape.

(** * Node ids *)

Module NodeId.
Definition t := string.
Definition CHILD_PREFIX : string := "child/".
Definition single : t := "node-0".
Definition branch (index : nat) : t := "branch-" +:+ show_nat index.
Definition stage (index : nat) : t := "stage-" +:+ show_nat index.
Definition candidate (index : nat) : t := "cand-" +:+ show_nat index.
Definition judge : t := "judge".
Definition map (index : nat) : t := "map-" +:+ show_nat index.
Definition reduce : t := "reduce".
Definition debate_turn (side round : nat) : t :=
  "side-" +:+ show_nat side +:+ "-round-" +:+ show_nat round.
Definition planner : t := "planner".
Definition nested (n : t) : t := CHILD_PREFIX +:+ n.
Definition strip_nested (n : t) : option t := strip_prefix CHILD_PREFIX n.
End NodeId.

Module FlowOutcome.
Record t := Mk { ok : bool; results : list TurnResult.t; summary : string }.

Definition final_text (o : t) : string :=
  join ("
" +:+ "
") (List.filter (fun s => negb (is_empty s)) (List.map TurnResult.text o.(results))).
End FlowOutcome.

Module Action.
Inductive t :=
  | StartWorker (node : NodeId.t) (step_index : nat)
  | SteerWorker (node : NodeId.t) (message : string)
  | CloseWorker (node : NodeId.t)
  | RequestApproval (node : NodeId.t) (request_id : string)
  | Decision (node : NodeId.t) (kind : FlowDecisionKind.t)
  | Emit (outcome : FlowOutcome.t)
  | Terminate.
End Action.

(** * The declared-order fold *)

Definition count_ok (results : list TurnResult.t) : nat :=
  length (List.filter TurnResult.ok results).

(** [iter().position(|r| r.ok)], with the element found. *)
Fixpoint position_ok (i : nat) (results : list TurnResult.t) : option (nat * TurnResult.t) :=
  match results with
  | [] => None
  | r :: rest => if r.(TurnResult.ok) then Some (i, r) else position_ok (S i) rest
  end.

Definition u32_nat (n : u32) : nat := N.to_nat (uval n).

Definition fold_results (results : list TurnResult.t) (j : Join.t) : FlowOutcome.t :=
  match j with
  | Join.All =>
      FlowOutcome.Mk (forallb TurnResult.ok results) results
        ("join=all: " +:+ show_nat (count_ok results) +:+ "/" +:+ show_nat (length results) +:+
         " branches ok")
  | Join.FirstOk =>
      match position_ok 0 results with
      | Some (index, kept) =>
          FlowOutcome.Mk true [kept]
            ("join=first_ok: branch " +:+ show_nat index +:+ " (declared order)")
      | None =>
          FlowOutcome.Mk false results
            ("join=first_ok: no branch ok (" +:+ show_nat (length results) +:+ " attempted)")
      end
  | Join.Quorum n =>
      let oks := List.filter TurnResult.ok results in
      let needed := u32_nat n in
      let reached := needed <=? length oks in
      let kept := take (Nat.max needed 1) oks in
      FlowOutcome.Mk reached kept
        ("join=quorum(n=" +:+ show_u n +:+ "): " +:+ show_nat (length kept) +:+ " ok, " +:+
         (if reached then "reached" else "short"))
  end.

(** * The interpreter's state *)

Module FlowState.
Record t := Mk {
  dispatched : gset NodeId.t;
  results : gmap NodeId.t TurnResult.t;
  terminated : bool;
}.

Definition new : t := Mk ∅ ∅ false.
Definition mark_dispatched (s : t) (node : NodeId.t) : t :=
  Mk ({[ node ]} ∪ s.(dispatched)) s.(results) s.(terminated).
Definition record_result (s : t) (node : NodeId.t) (result : TurnResult.t) : t :=
  Mk s.(dispatched) (<[node := result]> s.(results)) s.(terminated).
Definition is_terminated (s : t) : bool := s.(terminated).
Definition is_dispatched (s : t) (node : NodeId.t) : bool := bool_decide (node ∈ s.(dispatched)).
Definition result (s : t) (node : NodeId.t) : option TurnResult.t := s.(results) !! node.

(** The child's view: the [child/] nodes only, one prefix stripped. *)
Definition project_child (s : t) : t :=
  Mk (list_to_set (omap NodeId.strip_nested (elements s.(dispatched))))
     (list_to_map
        (omap (fun '(node, result) => (fun inner => (inner, result)) <$> NodeId.strip_nested node)
           (map_to_list s.(results))))
     false.
End FlowState.

(** * Shared phases *)

Definition emit_and_terminate (outcome : FlowOutcome.t) : list Action.t :=
  [Action.Emit outcome; Action.Terminate].

Definition fail_outcome (summary : string) : FlowOutcome.t := FlowOutcome.Mk false [] summary.

(** The undispatched nodes of a wave, each with its index in it. *)
Definition wave_starts (state : FlowState.t) (nodes : list NodeId.t) : list Action.t :=
  List.map (fun '(step_index, node) => Action.StartWorker node step_index)
    (List.filter (fun '(_, node) => negb (FlowState.is_dispatched state node))
       (imap (fun i node => (i, node)) nodes)).

Definition dispatch_wave (state : FlowState.t) (nodes : list NodeId.t) : option (list Action.t) :=
  if forallb (FlowState.is_dispatched state) nodes then None
  else Some (wave_starts state nodes).

Definition collect_results (state : FlowState.t) (nodes : list NodeId.t)
  : option (list TurnResult.t) := mapM (FlowState.result state) nodes.

(** * Single, parallel and pipeline ([engine.rs]) *)

Definition single_outcome (result : TurnResult.t) : FlowOutcome.t :=
  FlowOutcome.Mk result.(TurnResult.ok) [result]
    ("single: node ok=" +:+ show_bool result.(TurnResult.ok) +:+ " (" +:+
     show_nat (String.length result.(TurnResult.text)) +:+ " chars)").

Definition step_single (state : FlowState.t) : list Action.t :=
  let node := NodeId.single in
  match FlowState.result state node with
  | Some result => [Action.Emit (single_outcome result); Action.Terminate]
  | None =>
      if FlowState.is_dispatched state node then []
      else [Action.StartWorker node 0]
  end.

Definition step_parallel (state : FlowState.t) (branch_count : nat) (j : Join.t)
  : list Action.t :=
  if branch_count =? 0 then
    [Action.Emit (fail_outcome "parallel: no branches"); Action.Terminate]
  else
    let nodes := List.map NodeId.branch (seq 0 branch_count) in
    if existsb (fun node => negb (FlowState.is_dispatched state node)) nodes then
      wave_starts state nodes
    else
      match collect_results state nodes with
      | None => []
      | Some results => [Action.Emit (fold_results results j); Action.Terminate]
      end.

Definition pipeline_outcome (results : list TurnResult.t) : FlowOutcome.t :=
  let last_ok := match last results with Some r => r.(TurnResult.ok) | None => false end in
  FlowOutcome.Mk last_ok results
    ("pipeline: " +:+ show_nat (length results) +:+ " stage(s) ran, " +:+
     (if last_ok then "completed" else "aborted on failure")).

(** The walk over the declared stages from [index], with the results completed so far. *)
Fixpoint pipeline_walk (state : FlowState.t) (completed : list TurnResult.t)
    (remaining index : nat) : list Action.t :=
  match remaining with
  | 0 => [Action.Emit (pipeline_outcome completed); Action.Terminate]
  | S remaining =>
      let node := NodeId.stage index in
      match FlowState.result state node with
      | Some result =>
          let completed := completed ++ [result] in
          if negb result.(TurnResult.ok)
          then [Action.Emit (pipeline_outcome completed); Action.Terminate]
          else pipeline_walk state completed remaining (S index)
      | None =>
          if FlowState.is_dispatched state node then []
          else [Action.StartWorker node index]
      end
  end.

Definition step_pipeline (state : FlowState.t) (stages : list Step.t) : list Action.t :=
  match stages with
  | [] => [Action.Emit (fail_outcome "pipeline: no stages"); Action.Terminate]
  | _ => pipeline_walk state [] (length stages) 0
  end.

(** * Vote and judge ([strategy/vote.rs]) *)

Definition judged_outcome (judge_result : TurnResult.t) (ok : u32) : FlowOutcome.t :=
  FlowOutcome.Mk judge_result.(TurnResult.ok) [judge_result]
    ("vote_judge: " +:+ show_u ok +:+ " candidate(s) ok, judge " +:+
     (if judge_result.(TurnResult.ok) then "ok" else "failed")).

Definition short_quorum_outcome (results : list TurnResult.t) (ok k : u32) : FlowOutcome.t :=
  FlowOutcome.Mk false results
    ("vote_judge: quorum short (" +:+ show_u ok +:+ "/" +:+ show_u k +:+ " ok), judge not run").

(** [as u32]. *)
Definition as_u32 (n : nat) : u32 := wrap 32 (N.of_nat n).

Definition judge_pick (result : TurnResult.t) : Action.t :=
  Action.Decision NodeId.judge (FlowDecisionKind.JudgePick NodeId.judge result.(TurnResult.ok)).

Definition step_vote_judge (state : FlowState.t) (candidate_count : nat) (k : u32)
  : list Action.t :=
  if candidate_count =? 0 then emit_and_terminate (fail_outcome "vote_judge: no candidates")
  else
    let candidates := List.map NodeId.candidate (seq 0 candidate_count) in
    match dispatch_wave state candidates with
    | Some actions => actions
    | None =>
        match collect_results state candidates with
        | None => []
        | Some results =>
            let ok := as_u32 (count_ok results) in
            let total := as_u32 candidate_count in
            let reached := u_leb k ok in
            let tally :=
              Action.Decision NodeId.judge (FlowDecisionKind.VoteTally ok total k reached) in
            if negb reached then tally :: emit_and_terminate (short_quorum_outcome results ok k)
            else
              let judge := NodeId.judge in
              match FlowState.result state judge with
              | Some judge_result =>
                  judge_pick judge_result :: emit_and_terminate (judged_outcome judge_result ok)
              | None =>
                  if FlowState.is_dispatched state judge then []
                  else [tally; Action.StartWorker judge 0]
              end
        end
    end.

(** * Map and reduce ([strategy/mapreduce.rs]) *)

Definition split_len (over : ContextSplit.t) : nat :=
  match over with
  | ContextSplit.Shards n => u32_nat n
  | ContextSplit.Paths groups => length groups
  end.

Definition split_item (over : ContextSplit.t) (index : nat) : option string :=
  match over with
  | ContextSplit.Shards n =>
      if index <? u32_nat n then Some ("shard " +:+ show_nat index +:+ "/" +:+ show_u n) else None
  | ContextSplit.Paths groups => join ", " <$> groups !! index
  end.

Definition reduced_outcome (reduce_result : TurnResult.t) (map_ok items : nat) : FlowOutcome.t :=
  FlowOutcome.Mk reduce_result.(TurnResult.ok) [reduce_result]
    ("map_reduce: " +:+ show_nat map_ok +:+ "/" +:+ show_nat items +:+
     " map shard(s) ok, reduce " +:+ (if reduce_result.(TurnResult.ok) then "ok" else "failed")).

Definition step_map_reduce (state : FlowState.t) (over : ContextSplit.t) : list Action.t :=
  let item_count := split_len over in
  if item_count =? 0 then emit_and_terminate (fail_outcome "map_reduce: empty context split")
  else
    let maps := List.map NodeId.map (seq 0 item_count) in
    match dispatch_wave state maps with
    | Some actions => actions
    | None =>
        match collect_results state maps with
        | None => []
        | Some map_results =>
            let map_ok := count_ok map_results in
            let reduce := NodeId.reduce in
            match FlowState.result state reduce with
            | Some reduce_result =>
                emit_and_terminate (reduced_outcome reduce_result map_ok item_count)
            | None =>
                if FlowState.is_dispatched state reduce then []
                else [Action.StartWorker reduce 0]
            end
        end
    end.

(** * Debate ([strategy/debate.rs]) *)

Definition verdict_outcome (verdict : TurnResult.t) : FlowOutcome.t :=
  FlowOutcome.Mk verdict.(TurnResult.ok) [verdict]
    ("debate: judge " +:+ (if verdict.(TurnResult.ok) then "ruled" else "failed")).

Definition judge_phase (state : FlowState.t) (final_round_decision : Action.t) : list Action.t :=
  let judge := NodeId.judge in
  match FlowState.result state judge with
  | Some verdict => judge_pick verdict :: emit_and_terminate (verdict_outcome verdict)
  | None =>
      if FlowState.is_dispatched state judge then []
      else [final_round_decision; Action.StartWorker judge 0]
  end.

Definition turns_for (side_count round : nat) : list NodeId.t :=
  List.map (fun side => NodeId.debate_turn side round) (seq 0 side_count).

(** The walk over the rounds from [round], of which [remaining] are left. *)
Fixpoint debate_walk (state : FlowState.t) (side_count remaining round : nat) : list Action.t :=
  match remaining with
  | 0 => []
  | S remaining =>
      let turns := turns_for side_count round in
      match dispatch_wave state turns with
      | Some actions => actions
      | None =>
          match collect_results state turns with
          | None => []
          | Some results =>
              let sides_ok := as_u32 (count_ok results) in
              let decision :=
                Action.Decision NodeId.judge
                  (FlowDecisionKind.DebateRound (as_u32 round) sides_ok) in
              match remaining with
              | 0 => judge_phase state decision
              | S _ =>
                  match dispatch_wave state (turns_for side_count (S round)) with
                  | Some actions => decision :: actions
                  | None => debate_walk state side_count remaining (S round)
                  end
              end
          end
      end
  end.

Definition step_debate (state : FlowState.t) (side_count : nat) (rounds : u32) : list Action.t :=
  if (side_count =? 0) || (uval rounds =? 0)%N then
    emit_and_terminate
      (fail_outcome ("debate: nothing to debate (" +:+ show_nat side_count +:+ " sides, " +:+
                     show_u rounds +:+ " rounds)"))
  else debate_walk state side_count (u32_nat rounds) 0.

(** * Hierarchical ([strategy/hierarchical.rs]) and the dispatcher *)

Definition hierarchical_outcome (planner_result : TurnResult.t) (child : FlowOutcome.t)
  : FlowOutcome.t :=
  FlowOutcome.Mk child.(FlowOutcome.ok) (planner_result :: child.(FlowOutcome.results))
    ("hierarchical: planner + child (" +:+ child.(FlowOutcome.summary) +:+ ")").

Definition reproject (planner_result : TurnResult.t) (action : Action.t) : list Action.t :=
  match action with
  | Action.StartWorker node step_index => [Action.StartWorker (NodeId.nested node) step_index]
  | Action.Decision node kind => [Action.Decision (NodeId.nested node) kind]
  | Action.Emit outcome => emit_and_terminate (hierarchical_outcome planner_result outcome)
  | Action.Terminate => []
  | other => [other]
  end.

Definition refused_outcome (planner_result : TurnResult.t) (child_depth max_depth : u32)
  : FlowOutcome.t :=
  FlowOutcome.Mk planner_result.(TurnResult.ok) [planner_result]
    ("hierarchical: child refused at depth ceiling (" +:+ show_u child_depth +:+ "/" +:+
     show_u max_depth +:+ "); planner only").

Definition refuse_child (planner_result : TurnResult.t) (planner : NodeId.t)
    (child_depth max_depth : u32) : list Action.t :=
  Action.Decision planner (FlowDecisionKind.DepthCeiling child_depth max_depth)
    :: emit_and_terminate (refused_outcome planner_result child_depth max_depth).

Definition child_def (parent : WorkflowDef.t) (strategy : Strategy.t) : WorkflowDef.t :=
  WorkflowDef.Mk parent.(WorkflowDef.schema_version) parent.(WorkflowDef.name) strategy
    parent.(WorkflowDef.budget) parent.(WorkflowDef.max_depth).

(** The dispatcher, with the hierarchical arm as an argument. *)
Definition step_with (hierarchical : Strategy.t -> list Action.t) (state : FlowState.t)
    (def : WorkflowDef.t) : list Action.t :=
  match def.(WorkflowDef.strategy) with
  | Strategy.Single _ => step_single state
  | Strategy.Parallel branches j => step_parallel state (length branches) j
  | Strategy.Pipeline stages => step_pipeline state stages
  | Strategy.VoteJudge candidates _ k => step_vote_judge state (length candidates) k
  | Strategy.MapReduce _ over _ => step_map_reduce state over
  | Strategy.Debate sides rounds _ => step_debate state (length sides) rounds
  | Strategy.Hierarchical _ child => hierarchical child
  end.

(** [step_at_depth] with [run_child] inlined. A hierarchical child recurses at the next depth;
    any other child goes to the dispatcher, whose hierarchical arm it never reaches. *)
Fixpoint step_at_depth (state : FlowState.t) (def : WorkflowDef.t) (child : Strategy.t)
    (depth : u32) {struct child} : list Action.t :=
  let planner := NodeId.planner in
  match FlowState.result state planner with
  | None =>
      if FlowState.is_dispatched state planner then [] else [Action.StartWorker planner 0]
  | Some planner_result =>
      let child_depth := uadd depth (wrap 32 1) in
      if u_leb def.(WorkflowDef.max_depth) child_depth
      then refuse_child planner_result planner child_depth def.(WorkflowDef.max_depth)
      else
        let sub := FlowState.project_child state in
        let actions :=
          match child with
          | Strategy.Hierarchical _ grandchild =>
              step_at_depth sub def grandchild (uadd depth (wrap 32 1))
          | _ => step_with (fun _ => []) sub (child_def def child)
          end in
        flat_map (reproject planner_result) actions
  end.

Definition step_hierarchical (state : FlowState.t) (def : WorkflowDef.t) (child : Strategy.t)
  : list Action.t := step_at_depth state def child (wrap 32 0).

Definition step (state : FlowState.t) (def : WorkflowDef.t) : list Action.t :=
  step_with (step_hierarchical state def) state def.
