(* ===== verification/FlowSpec.v ===== *)
(** What the flow engine promises: the outcome of a workflow as a function of each node's
    result alone, and the proof that every step of the interpreter waits, dispatches fresh
    nodes of the workflow, or ends with that outcome, in whatever order workers finish. *)
From S2P Require Import Prelude Text FlowDefs Tape Flow.

(** * The specification *)

(** Every node a strategy may dispatch. *)
Fixpoint nodes_of (s : Strategy.t) : list NodeId.t :=
  match s with
  | Strategy.Single _ => [NodeId.single]
  | Strategy.Parallel branches _ => map NodeId.branch (seq 0 (length branches))
  | Strategy.Pipeline stages => map NodeId.stage (seq 0 (length stages))
  | Strategy.VoteJudge candidates _ _ =>
      map NodeId.candidate (seq 0 (length candidates)) ++ [NodeId.judge]
  | Strategy.MapReduce _ over _ => map NodeId.map (seq 0 (split_len over)) ++ [NodeId.reduce]
  | Strategy.Debate sides rounds _ =>
      flat_map (turns_for (length sides)) (seq 0 (u32_nat rounds)) ++ [NodeId.judge]
  | Strategy.Hierarchical _ child => NodeId.planner :: map NodeId.nested (nodes_of child)
  end.

(** The results up to and including the first failed one. *)
Fixpoint until_failure (results : list TurnResult.t) : list TurnResult.t :=
  match results with
  | [] => []
  | r :: rest => if r.(TurnResult.ok) then r :: until_failure rest else [r]
  end.

(** The outcome of a strategy whose nodes return what [R] says. *)
Fixpoint outcome_of (max_depth : u32) (s : Strategy.t) (depth : u32)
    (R : NodeId.t -> TurnResult.t) : FlowOutcome.t :=
  match s with
  | Strategy.Single _ => single_outcome (R NodeId.single)
  | Strategy.Parallel branches j =>
      if length branches =? 0 then fail_outcome "parallel: no branches"
      else fold_results (map R (map NodeId.branch (seq 0 (length branches)))) j
  | Strategy.Pipeline stages =>
      if length stages =? 0 then fail_outcome "pipeline: no stages"
      else pipeline_outcome (until_failure (map R (map NodeId.stage (seq 0 (length stages)))))
  | Strategy.VoteJudge candidates _ k =>
      if length candidates =? 0 then fail_outcome "vote_judge: no candidates"
      else
        let results := map R (map NodeId.candidate (seq 0 (length candidates))) in
        let ok := as_u32 (count_ok results) in
        if u_leb k ok then judged_outcome (R NodeId.judge) ok
        else short_quorum_outcome results ok k
  | Strategy.MapReduce _ over _ =>
      if split_len over =? 0 then fail_outcome "map_reduce: empty context split"
      else
        let results := map R (map NodeId.map (seq 0 (split_len over))) in
        reduced_outcome (R NodeId.reduce) (count_ok results) (split_len over)
  | Strategy.Debate sides rounds _ =>
      if (length sides =? 0) || (uval rounds =? 0)%N then
        fail_outcome ("debate: nothing to debate (" +:+ show_nat (length sides) +:+ " sides, " +:+
                      show_u rounds +:+ " rounds)")
      else verdict_outcome (R NodeId.judge)
  | Strategy.Hierarchical _ child =>
      let child_depth := uadd depth (wrap 32 1) in
      if u_leb max_depth child_depth
      then refused_outcome (R NodeId.planner) child_depth max_depth
      else hierarchical_outcome (R NodeId.planner)
             (outcome_of max_depth child child_depth (fun n => R (NodeId.nested n)))
  end.

Definition flow_outcome (def : WorkflowDef.t) (R : NodeId.t -> TurnResult.t) : FlowOutcome.t :=
  outcome_of def.(WorkflowDef.max_depth) def.(WorkflowDef.strategy) (wrap 32 0) R.

Definition flow_nodes (def : WorkflowDef.t) : list NodeId.t := nodes_of def.(WorkflowDef.strategy).

(** The recorded results are those of [R]. *)
Definition agrees (R : NodeId.t -> TurnResult.t) (st : FlowState.t) : Prop :=
  forall n r, FlowState.result st n = Some r -> r = R n.

Definition is_decision (a : Action.t) : Prop :=
  match a with Action.Decision _ _ => True | _ => False end.

(** A start of a node of [nodes] that was not dispatched yet. *)
Definition fresh_start (st : FlowState.t) (nodes : list NodeId.t) (a : Action.t) : Prop :=
  match a with
  | Action.StartWorker n _ => n ∈ nodes /\ FlowState.is_dispatched st n = false
  | _ => False
  end.

Definition start_node (a : Action.t) : option NodeId.t :=
  match a with Action.StartWorker n _ => Some n | _ => None end.
Definition start_nodes (l : list Action.t) : list NodeId.t := omap start_node l.

(** The three things a step may do. *)
Inductive step_shape (st : FlowState.t) (nodes : list NodeId.t) (o : FlowOutcome.t)
  : list Action.t -> Prop :=
  | shape_wait n :
      n ∈ nodes -> FlowState.is_dispatched st n = true -> FlowState.result st n = None ->
      step_shape st nodes o []
  | shape_dispatch ds starts :
      Forall is_decision ds -> starts <> [] -> Forall (fresh_start st nodes) starts ->
      NoDup (start_nodes starts) ->
      step_shape st nodes o (ds ++ starts)
  | shape_finish ds :
      Forall is_decision ds -> step_shape st nodes o (ds ++ emit_and_terminate o).

(** * Waves *)

Lemma shape_finish_nil st nodes o : step_shape st nodes o (emit_and_terminate o).
Proof. by apply (shape_finish st nodes o []). Qed.

Lemma shape_dispatch_nil st nodes o starts :
  starts <> [] -> Forall (fresh_start st nodes) starts -> NoDup (start_nodes starts) ->
  step_shape st nodes o starts.
Proof. intros. by apply (shape_dispatch st nodes o []). Qed.

Lemma shape_incl st nodes nodes' o l :
  nodes ⊆ nodes' -> step_shape st nodes o l -> step_shape st nodes' o l.
Proof.
  intros I S. destruct S as [n N D E|ds starts D N F U|ds D].
  - by apply (shape_wait _ _ _ n); [apply I| |].
  - apply shape_dispatch; [done..| |done]. eapply Forall_impl; [exact F|].
    intros [] ?; try done. by split; [apply I|]; apply H.
  - by apply shape_finish.
Qed.

Lemma shape_decision st nodes o d l :
  is_decision d -> l <> [] -> step_shape st nodes o l -> step_shape st nodes o (d :: l).
Proof.
  intros D N S. destruct S as [n|ds starts Ds Ns F U|ds Ds]; [done|..].
  - apply (shape_dispatch st nodes o (d :: ds)); [by constructor|done..].
  - apply (shape_finish st nodes o (d :: ds)). by constructor.
Qed.

Lemma wave_starts_fresh st nodes : Forall (fresh_start st nodes) (wave_starts st nodes).
Proof.
  unfold wave_starts. apply List.Forall_map, List.Forall_forall.
  intros [i n] [I D]%List.filter_In. split; [|by apply negb_true_iff].
  apply list_elem_of_In, elem_of_lookup_imap in I as (j & m & E & L).
  injection E as -> ->. by eapply list_elem_of_lookup_2.
Qed.

Lemma wave_starts_nodes st nodes :
  start_nodes (wave_starts st nodes) =
  List.filter (fun n => negb (FlowState.is_dispatched st n)) nodes.
Proof.
  unfold wave_starts.
  assert (forall k, start_nodes (map (fun '(i, n) => Action.StartWorker n i)
    (List.filter (fun '(_, node) => negb (FlowState.is_dispatched st node))
       (imap (fun i node => (k + i, node)) nodes))) =
    List.filter (fun n => negb (FlowState.is_dispatched st n)) nodes) as G.
  2: exact (G 0).
  induction nodes as [|n nodes IH]; intros k; [done|]. cbn [imap List.filter map].
  rewrite (imap_ext _ (fun i node => (S k + i, node))); [|intros; cbn; by rewrite Nat.add_succ_r].
  destruct (FlowState.is_dispatched st n); cbn [negb]; [apply IH|].
  cbn [map]. cbn [start_nodes omap list_omap start_node]. f_equal. apply IH.
Qed.

Lemma dispatch_wave_spec st nodes :
  NoDup nodes ->
  match dispatch_wave st nodes with
  | Some actions =>
      actions <> [] /\ Forall (fresh_start st nodes) actions /\ NoDup (start_nodes actions)
  | None => forall n, n ∈ nodes -> FlowState.is_dispatched st n = true
  end.
Proof.
  intros U. unfold dispatch_wave. destruct (forallb _ nodes) eqn:E.
  - intros n I. rewrite forallb_forall in E. apply E. by apply list_elem_of_In.
  - split; [|split; [apply wave_starts_fresh|]].
    2: { rewrite wave_starts_nodes. by apply NoDup_ListNoDup, List.NoDup_filter, NoDup_ListNoDup. }
    intros N. apply not_true_iff_false in E. apply E, forallb_forall. intros n I.
    apply list_elem_of_In, list_elem_of_lookup_1 in I as [i L].
    apply not_false_iff_true. intros D.
    assert ((i, n) ∈ List.filter (fun '(_, node) => negb (FlowState.is_dispatched st node))
      (imap (fun i node => (i, node)) nodes)) as X.
    { apply list_elem_of_In, List.filter_In. split; [|by rewrite D].
      apply list_elem_of_In, elem_of_lookup_imap. by exists i, n. }
    unfold wave_starts in N. apply map_eq_nil in N. rewrite N in X. by apply elem_of_nil in X.
Qed.

Lemma collect_results_spec R st nodes :
  agrees R st ->
  match collect_results st nodes with
  | Some results => results = map R nodes
  | None => exists n, n ∈ nodes /\ FlowState.result st n = None
  end.
Proof.
  intros A. unfold collect_results.
  induction nodes as [|n nodes IH]; [done|]. cbn [mapM mbind option_bind].
  destruct (FlowState.result st n) as [r|] eqn:E; simpl.
  - destruct (mapM _ nodes) as [rs|]; simpl.
    + subst rs. by rewrite (A _ _ E).
    + destruct IH as (m & I & M). exists m. split; [by constructor|done].
  - exists n. split; [constructor|done].
Qed.

(** A wave all of whose nodes were dispatched is finished, or the step waits on one. *)
Ltac wave_wait :=
  match goal with
  | A : agrees _ ?st, D : forall n, n ∈ ?nodes -> _ |- context [collect_results ?st ?nodes] =>
      let C := fresh "C" in
      pose proof (collect_results_spec _ st nodes A) as C;
      destruct (collect_results st nodes) as [?rs|];
      [subst | destruct C as (?n & ?I & ?E); eapply shape_wait; [|apply D|]; eassumption]
  end.

Lemma shape_start st nodes o n i :
  n ∈ nodes -> FlowState.is_dispatched st n = false ->
  step_shape st nodes o [Action.StartWorker n i].
Proof.
  intros I D. apply shape_dispatch_nil; [done|by repeat constructor|apply NoDup_singleton].
Qed.

Lemma ids_nodup (f : nat -> NodeId.t) n : (forall i j, f i = f j -> i = j) -> NoDup (map f (seq 0 n)).
Proof. intros I. apply NoDup_fmap_2; [exact I|apply NoDup_seq]. Qed.

Lemma branch_ids n : NoDup (map NodeId.branch (seq 0 n)).
Proof. apply ids_nodup. by intros i j E%app_inj_l%show_nat_inj. Qed.
Lemma candidate_ids n : NoDup (map NodeId.candidate (seq 0 n)).
Proof. apply ids_nodup. by intros i j E%app_inj_l%show_nat_inj. Qed.
Lemma map_ids n : NoDup (map NodeId.map (seq 0 n)).
Proof. apply ids_nodup. by intros i j E%app_inj_l%show_nat_inj. Qed.

Lemma debate_turn_inj s r s' r' :
  NodeId.debate_turn s r = NodeId.debate_turn s' r' -> s = s' /\ r = r'.
Proof.
  unfold NodeId.debate_turn. intros E%app_inj_l.
  change (show_nat s +:+ String "-" ("round-" +:+ show_nat r) =
          show_nat s' +:+ String "-" ("round-" +:+ show_nat r')) in E.
  apply split_sep_inj in E as [E1 E2]; [|by apply no_char_pretty..].
  split; [by apply show_nat_inj|]. by apply app_inj_l, show_nat_inj in E2.
Qed.

Lemma turn_ids n r : NoDup (turns_for n r).
Proof. apply (ids_nodup (fun s => NodeId.debate_turn s r)). by intros i j [E _]%debate_turn_inj. Qed.

Lemma finish_or_run R st nodes o f n i :
  agrees R st -> n ∈ nodes -> o = f (R n) ->
  step_shape st nodes o
    match FlowState.result st n with
    | Some r => emit_and_terminate (f r)
    | None => if FlowState.is_dispatched st n then [] else [Action.StartWorker n i]
    end.
Proof.
  intros A I ->. destruct (FlowState.result st n) as [r|] eqn:E.
  - rewrite (A _ _ E). apply shape_finish_nil.
  - destruct (FlowState.is_dispatched st n) eqn:D; [by eapply shape_wait|].
    apply shape_dispatch_nil; [done|by repeat constructor|apply NoDup_singleton].
Qed.

Lemma existsb_negb {A} (f : A -> bool) l : existsb (fun x => negb (f x)) l = negb (forallb f l).
Proof. induction l as [|x l IH]; [done|]. cbn. by rewrite IH, negb_andb. Qed.

(** * Each strategy *)

Section strategies.
Context (R : NodeId.t -> TurnResult.t) (st : FlowState.t) (A : agrees R st).

Lemma single_shape :
  step_shape st [NodeId.single] (single_outcome (R NodeId.single)) (step_single st).
Proof. eapply (finish_or_run R st _ _ single_outcome); [done|constructor|done]. Qed.

Lemma parallel_shape n j :
  step_shape st (map NodeId.branch (seq 0 n))
    (if n =? 0 then fail_outcome "parallel: no branches"
     else fold_results (map R (map NodeId.branch (seq 0 n))) j)
    (step_parallel st n j).
Proof.
  unfold step_parallel. destruct (n =? 0); [apply shape_finish_nil|].
  pose proof (dispatch_wave_spec st (map NodeId.branch (seq 0 n)) (branch_ids _)) as D.
  unfold dispatch_wave in D. rewrite existsb_negb. destruct (forallb _ _); cbn [negb].
  - wave_wait. apply shape_finish_nil.
  - destruct D as (? & ? & ?). by apply shape_dispatch_nil.
Qed.

Lemma pipeline_walk_shape k : forall completed i,
  step_shape st (map NodeId.stage (seq i k))
    (pipeline_outcome (completed ++ until_failure (map R (map NodeId.stage (seq i k)))))
    (pipeline_walk st completed k i).
Proof.
  induction k as [|k IH]; intros completed i; cbn [seq map pipeline_walk until_failure].
  { rewrite app_nil_r. apply shape_finish_nil. }
  destruct (FlowState.result st (NodeId.stage i)) as [r|] eqn:E.
  - rewrite <- (A _ _ E). destruct (TurnResult.ok r) eqn:O; cbn [negb].
    + eapply shape_incl; [|rewrite cons_middle, app_assoc; apply IH]. set_solver.
    + apply shape_finish_nil.
  - destruct (FlowState.is_dispatched st (NodeId.stage i)) eqn:D.
    + eapply shape_wait; [|done..]. constructor.
    + apply shape_start; [constructor|done].
Qed.

Lemma pipeline_shape stages :
  step_shape st (map NodeId.stage (seq 0 (length stages)))
    (if length stages =? 0 then fail_outcome "pipeline: no stages"
     else pipeline_outcome (until_failure (map R (map NodeId.stage (seq 0 (length stages))))))
    (step_pipeline st stages).
Proof.
  unfold step_pipeline. destruct stages as [|s stages]; [apply shape_finish_nil|].
  apply (pipeline_walk_shape (length (s :: stages)) []).
Qed.

Lemma vote_shape n k :
  step_shape st (map NodeId.candidate (seq 0 n) ++ [NodeId.judge])
    (if n =? 0 then fail_outcome "vote_judge: no candidates"
     else
       let results := map R (map NodeId.candidate (seq 0 n)) in
       let ok := as_u32 (count_ok results) in
       if u_leb k ok then judged_outcome (R NodeId.judge) ok
       else short_quorum_outcome results ok k)
    (step_vote_judge st n k).
Proof.
  unfold step_vote_judge. destruct (n =? 0); [apply shape_finish_nil|].
  pose proof (dispatch_wave_spec st (map NodeId.candidate (seq 0 n)) (candidate_ids _)) as D.
  destruct (dispatch_wave st _) as [actions|].
  { destruct D as (? & ? & ?). eapply shape_incl; [|by apply shape_dispatch_nil]. set_solver. }
  pose proof (collect_results_spec R st (map NodeId.candidate (seq 0 n)) A) as C.
  destruct (collect_results st _) as [rs|]; [subst rs|].
  2: { destruct C as (m & M & E). apply (shape_wait _ _ _ m); [set_solver|by apply D|done]. }
  cbv zeta. destruct (u_leb k _); cbn [negb].
  - destruct (FlowState.result st NodeId.judge) as [r|] eqn:E.
    + rewrite (A _ _ E). apply shape_decision; [done..|]. apply shape_finish_nil.
    + destruct (FlowState.is_dispatched st NodeId.judge) eqn:J.
      * eapply shape_wait; [|done..]. set_solver.
      * apply shape_decision; [done..|]. apply shape_start; [set_solver|done].
  - apply shape_decision; [done..|]. apply shape_finish_nil.
Qed.

Lemma map_reduce_shape over :
  step_shape st (map NodeId.map (seq 0 (split_len over)) ++ [NodeId.reduce])
    (if split_len over =? 0 then fail_outcome "map_reduce: empty context split"
     else
       let results := map R (map NodeId.map (seq 0 (split_len over))) in
       reduced_outcome (R NodeId.reduce) (count_ok results) (split_len over))
    (step_map_reduce st over).
Proof.
  unfold step_map_reduce. destruct (_ =? 0); [apply shape_finish_nil|].
  pose proof (dispatch_wave_spec st (map NodeId.map (seq 0 (split_len over))) (map_ids _)) as D.
  destruct (dispatch_wave st _) as [actions|].
  { destruct D as (? & ? & ?). eapply shape_incl; [|by apply shape_dispatch_nil]. set_solver. }
  pose proof (collect_results_spec R st (map NodeId.map (seq 0 (split_len over))) A) as C.
  destruct (collect_results st _) as [rs|]; [subst rs|].
  2: { destruct C as (m & M & E). apply (shape_wait _ _ _ m); [set_solver|by apply D|done]. }
  cbv zeta.
  eapply (finish_or_run R st _ _ (fun r => reduced_outcome r _ _)); [done|set_solver|done].
Qed.

Lemma judge_phase_shape nodes d :
  is_decision d -> NodeId.judge ∈ nodes ->
  step_shape st nodes (verdict_outcome (R NodeId.judge)) (judge_phase st d).
Proof.
  intros D I. unfold judge_phase. destruct (FlowState.result st NodeId.judge) as [r|] eqn:E.
  - rewrite (A _ _ E). apply shape_decision; [done..|]. apply shape_finish_nil.
  - destruct (FlowState.is_dispatched st NodeId.judge) eqn:J; [by eapply shape_wait|].
    apply shape_decision; [done..|]. by apply shape_start.
Qed.

Lemma debate_walk_shape sides k : forall r,
  0 < k ->
  step_shape st (flat_map (turns_for sides) (seq r k) ++ [NodeId.judge])
    (verdict_outcome (R NodeId.judge)) (debate_walk st sides k r).
Proof.
  induction k as [|k IH]; intros r P; [lia|]. clear P. cbn [debate_walk].
  pose proof (dispatch_wave_spec st (turns_for sides r) (turn_ids _ _)) as D.
  destruct (dispatch_wave st _) as [actions|].
  { destruct D as (? & ? & ?). eapply shape_incl; [|by apply shape_dispatch_nil].
    cbn [seq flat_map]. set_solver. }
  pose proof (collect_results_spec R st (turns_for sides r) A) as C.
  destruct (collect_results st _) as [rs|]; [subst rs|].
  2: { destruct C as (m & M & E).
       apply (shape_wait _ _ _ m); [cbn [seq flat_map]; set_solver|by apply D|done]. }
  destruct k as [|k].
  - apply judge_phase_shape; [done|set_solver].
  - pose proof (dispatch_wave_spec st (turns_for sides (S r)) (turn_ids _ _)) as D'.
    destruct (dispatch_wave st (turns_for sides (S r))) as [actions|].
    + destruct D' as (? & ? & ?). apply shape_decision; [done..|].
      eapply shape_incl; [|by apply shape_dispatch_nil]. cbn [seq flat_map]. set_solver.
    + eapply shape_incl; [|apply IH; lia]. cbn [seq flat_map]. set_solver.
Qed.

Lemma debate_shape n rounds :
  step_shape st (flat_map (turns_for n) (seq 0 (u32_nat rounds)) ++ [NodeId.judge])
    (if (n =? 0) || (uval rounds =? 0)%N then
       fail_outcome ("debate: nothing to debate (" +:+ show_nat n +:+ " sides, " +:+
                     show_u rounds +:+ " rounds)")
     else verdict_outcome (R NodeId.judge))
    (step_debate st n rounds).
Proof.
  unfold step_debate. destruct (n =? 0) eqn:N; [apply shape_finish_nil|].
  destruct (N.eqb_spec (uval rounds) 0); [apply shape_finish_nil|].
  apply debate_walk_shape. unfold u32_nat. lia.
Qed.
End strategies.

(** * Nesting *)

Lemma strip_nested_Some n m : NodeId.strip_nested n = Some m <-> n = NodeId.nested m.
Proof. apply strip_prefix_Some. Qed.

Lemma nested_inj m n : NodeId.nested m = NodeId.nested n -> m = n.
Proof. apply app_inj_l. Qed.

Lemma project_result st n :
  FlowState.result (FlowState.project_child st) n = FlowState.result st (NodeId.nested n).
Proof.
  unfold FlowState.result, FlowState.project_child. cbn [FlowState.results].
  apply option_eq. intros r. rewrite <- elem_of_list_to_map'.
  - rewrite list_elem_of_omap. split.
    + intros ([m x] & I & E). apply fmap_Some in E as (y & E & [= <- <-]).
      apply strip_nested_Some in E as ->. by apply elem_of_map_to_list.
    + intros L. exists (NodeId.nested n, r). split; [by apply elem_of_map_to_list|].
      by rewrite (proj2 (strip_nested_Some _ n)).
  - intros x. rewrite !list_elem_of_omap.
    intros ([m y] & I & E) ([m' y'] & I' & E').
    apply fmap_Some in E as (a & E & [= -> ->]), E' as (b & E' & [= -> ->]).
    apply strip_nested_Some in E as ->, E' as ->.
    apply elem_of_map_to_list in I, I'. congruence.
Qed.

Lemma project_dispatched st n :
  FlowState.is_dispatched (FlowState.project_child st) n =
  FlowState.is_dispatched st (NodeId.nested n).
Proof.
  unfold FlowState.is_dispatched, FlowState.project_child. cbn [FlowState.dispatched].
  apply bool_decide_ext. rewrite elem_of_list_to_set, list_elem_of_omap. split.
  - intros (m & I & ->%strip_nested_Some). by apply elem_of_elements.
  - intros I. exists (NodeId.nested n). split; [by apply elem_of_elements|].
    by apply strip_nested_Some.
Qed.

Lemma project_agrees R st :
  agrees R st -> agrees (fun n => R (NodeId.nested n)) (FlowState.project_child st).
Proof. intros A n r. rewrite project_result. apply A. Qed.

Lemma reproject_decisions pr ds :
  Forall is_decision ds -> Forall is_decision (flat_map (reproject pr) ds).
Proof.
  induction 1 as [|[] ds D _ IH]; simpl in *; try done. by constructor.
Qed.

Lemma reproject_starts pr st nodes starts :
  Forall (fresh_start (FlowState.project_child st) nodes) starts ->
  Forall (fresh_start st (map NodeId.nested nodes)) (flat_map (reproject pr) starts) /\
  (starts <> [] -> flat_map (reproject pr) starts <> []) /\
  start_nodes (flat_map (reproject pr) starts) = map NodeId.nested (start_nodes starts).
Proof.
  induction 1 as [|[n i|? ?|?|? ?|? ?|?|] starts F _ (IH & _ & IH')]; try done.
  destruct F as [I D]. split_and!; [|done|exact (f_equal (cons _) IH')].
  constructor; [|done].
  split; [by apply list_elem_of_fmap_2|by rewrite <- project_dispatched].
Qed.

Lemma shape_reproject st nodes o l pr :
  step_shape (FlowState.project_child st) nodes o l ->
  step_shape st (map NodeId.nested nodes) (hierarchical_outcome pr o)
    (flat_map (reproject pr) l).
Proof.
  intros S. destruct S as [n I D E|ds starts D N F U|ds D].
  - rewrite project_dispatched in D. rewrite project_result in E.
    apply (shape_wait _ _ _ (NodeId.nested n)); [by apply list_elem_of_fmap_2|done..].
  - rewrite flat_map_app. apply (reproject_starts pr) in F as (F & NE & E).
    apply shape_dispatch; [by apply reproject_decisions|by apply NE|done|].
    rewrite E. apply NoDup_fmap_2; [exact nested_inj|done].
  - rewrite flat_map_app. apply shape_finish, reproject_decisions, D.
Qed.

(** * The whole interpreter *)

(** The strategies other than the hierarchical one. *)
Lemma step_with_shape R st def h depth :
  agrees R st ->
  match def.(WorkflowDef.strategy) with Strategy.Hierarchical _ _ => False | _ => True end ->
  step_shape st (flow_nodes def)
    (outcome_of def.(WorkflowDef.max_depth) def.(WorkflowDef.strategy) depth R)
    (step_with h st def).
Proof.
  intros A N. unfold step_with, flow_nodes. destruct (WorkflowDef.strategy def); [..|done].
  - by apply single_shape.
  - by apply parallel_shape.
  - by apply pipeline_shape.
  - by apply map_reduce_shape.
  - by apply vote_shape.
  - by apply debate_shape.
Qed.

(** [run_child] interprets the child over the projected state, one level deeper. *)
Definition child_actions (sub : FlowState.t) (def : WorkflowDef.t) (child : Strategy.t)
    (depth : u32) : list Action.t :=
  match child with
  | Strategy.Hierarchical _ grandchild => step_at_depth sub def grandchild depth
  | _ => step_with (fun _ => []) sub (child_def def child)
  end.

Lemma step_at_depth_eq st def child depth :
  step_at_depth st def child depth =
  match FlowState.result st NodeId.planner with
  | None =>
      if FlowState.is_dispatched st NodeId.planner then []
      else [Action.StartWorker NodeId.planner 0]
  | Some r =>
      let child_depth := uadd depth (wrap 32 1) in
      if u_leb def.(WorkflowDef.max_depth) child_depth
      then refuse_child r NodeId.planner child_depth def.(WorkflowDef.max_depth)
      else flat_map (reproject r)
             (child_actions (FlowState.project_child st) def child child_depth)
  end.
Proof. by destruct child. Qed.

Definition child_ok (def : WorkflowDef.t) (child : Strategy.t) : Prop :=
  forall R st depth, agrees R st ->
  step_shape st (nodes_of child) (outcome_of def.(WorkflowDef.max_depth) child depth R)
    (child_actions st def child depth).

Lemma step_at_depth_shape def child planner R st depth :
  child_ok def child -> agrees R st ->
  step_shape st (nodes_of (Strategy.Hierarchical planner child))
    (outcome_of def.(WorkflowDef.max_depth) (Strategy.Hierarchical planner child) depth R)
    (step_at_depth st def child depth).
Proof.
  intros C A. rewrite step_at_depth_eq. cbn [nodes_of].
  destruct (FlowState.result st NodeId.planner) as [r|] eqn:E.
  - cbn [outcome_of]. cbv zeta. rewrite <- (A _ _ E). destruct (u_leb _ _).
    + apply shape_decision; [done..|]. apply shape_finish_nil.
    + eapply shape_incl; [|apply shape_reproject, C, project_agrees, A].
      intros x X. by right.
  - destruct (FlowState.is_dispatched st NodeId.planner) eqn:D.
    + eapply shape_wait; [constructor|done..].
    + apply shape_start; [constructor|done].
Qed.

Lemma child_actions_shape def child : child_ok def child.
Proof.
  induction child as [| | | | | |planner child IH]; intros R st depth A.
  7: by apply step_at_depth_shape.
  all: match goal with |- context [child_actions _ _ ?c _] =>
         exact (step_with_shape R st (child_def def c) (fun _ => []) depth A I) end.
Qed.

Lemma step_ok R st def :
  agrees R st -> step_shape st (flow_nodes def) (flow_outcome def R) (step st def).
Proof.
  intros A. unfold step.
  destruct (WorkflowDef.strategy def) eqn:S; try (apply step_with_shape; [done|by rewrite S]).
  unfold step_with, flow_nodes, flow_outcome. rewrite S.
  apply step_at_depth_shape; [apply child_actions_shape|done].
Qed.

(** * Executions *)

(** The environment runs the engine: dispatching what a step asks for, and completing the
    dispatched nodes in any order. *)
Inductive flow_step (def : WorkflowDef.t) (R : NodeId.t -> TurnResult.t)
  : FlowState.t -> FlowState.t -> Prop :=
  | flow_dispatch st :
      start_nodes (step st def) <> [] ->
      flow_step def R st (foldl FlowState.mark_dispatched st (start_nodes (step st def)))
  | flow_complete st n :
      FlowState.is_dispatched st n = true -> FlowState.result st n = None ->
      flow_step def R st (FlowState.record_result st n (R n)).

Lemma marks_results st l :
  FlowState.results (foldl FlowState.mark_dispatched st l) = FlowState.results st.
Proof. revert st. induction l as [|n l IH]; intros st; [done|]. cbn [foldl]. by rewrite IH. Qed.

Lemma marks_dispatched st l :
  FlowState.dispatched (foldl FlowState.mark_dispatched st l) =
  list_to_set l ∪ FlowState.dispatched st.
Proof.
  revert st. induction l as [|n l IH]; intros st; cbn [foldl]; [set_solver|].
  rewrite IH. cbn. set_solver.
Qed.

Lemma is_dispatched_true st n :
  FlowState.is_dispatched st n = true <-> n ∈ FlowState.dispatched st.
Proof. apply bool_decide_eq_true. Qed.

Lemma start_nodes_app l l' : start_nodes (l ++ l') = start_nodes l ++ start_nodes l'.
Proof. apply omap_app. Qed.

Lemma start_nodes_decisions ds : Forall is_decision ds -> start_nodes ds = [].
Proof. induction 1 as [|[] ds D _ IH]; done. Qed.

Lemma elem_of_start_nodes n l : n ∈ start_nodes l <-> exists i, Action.StartWorker n i ∈ l.
Proof.
  unfold start_nodes. rewrite list_elem_of_omap. split.
  - intros ([m i| | | | | |] & I & E); try done. injection E as ->. by exists i.
  - intros [i I]. by exists (Action.StartWorker n i).
Qed.

(** A step starts nodes of the workflow that were not dispatched, each once. *)
Lemma step_starts st def :
  NoDup (start_nodes (step st def)) /\
  forall n, n ∈ start_nodes (step st def) ->
    n ∈ flow_nodes def /\ FlowState.is_dispatched st n = false.
Proof.
  pose (R n := default TurnResult.failed (FlowState.result st n)).
  assert (agrees R st) as A by (intros n r E; unfold R; by rewrite E).
  pose proof (step_ok R st def A) as S.
  inversion S as [n I D E Q|ds starts D N F U Q|ds D Q].
  - split; [constructor|]. intros m []%elem_of_nil.
  - rewrite start_nodes_app, (start_nodes_decisions ds) by done. split; [done|].
    intros n [i I]%elem_of_start_nodes. rewrite Forall_forall in F. apply (F _ I).
  - rewrite start_nodes_app, (start_nodes_decisions ds) by done.
    split; [constructor|]. intros m []%elem_of_nil.
Qed.

Record flow_inv (def : WorkflowDef.t) (R : NodeId.t -> TurnResult.t) (st : FlowState.t) : Prop := {
  inv_agrees : agrees R st;
  inv_known : FlowState.dispatched st ⊆ list_to_set (flow_nodes def);
  inv_results : dom (FlowState.results st) ⊆ FlowState.dispatched st;
}.

Lemma flow_inv_new def R : flow_inv def R FlowState.new.
Proof.
  split; [|apply empty_subseteq|cbn; by rewrite dom_empty_L].
  intros n r E. unfold FlowState.result in E. cbn in E. by rewrite lookup_empty in E.
Qed.

Lemma flow_inv_step def R st st' : flow_step def R st st' -> flow_inv def R st -> flow_inv def R st'.
Proof.
  intros [s N|s n D E] [A K S].
  - split.
    + intros n r. unfold FlowState.result. rewrite marks_results. apply A.
    + rewrite marks_dispatched. intros n. rewrite elem_of_union, !elem_of_list_to_set.
      intros [I|I]; [apply (proj2 (step_starts s def)), I|]. apply K in I. by rewrite elem_of_list_to_set in I.
    + rewrite marks_results, marks_dispatched. set_solver.
  - apply is_dispatched_true in D. split.
    + intros m r. unfold FlowState.result. cbn. rewrite lookup_insert_Some.
      intros [[<- <-]|[_ L]]; [done|exact (A _ _ L)].
    + done.
    + cbn. rewrite dom_insert_L. set_solver.
Qed.

Definition progress (st : FlowState.t) : nat :=
  size (FlowState.dispatched st) + size (dom (FlowState.results st)).

Lemma flow_step_progress def R st st' :
  flow_step def R st st' -> flow_inv def R st -> progress st < progress st'.
Proof.
  intros [s N|s n D E] [A K S]; unfold progress.
  - rewrite marks_results, marks_dispatched.
    destruct (start_nodes (step s def)) as [|n l] eqn:L; [done|].
    assert (n ∉ FlowState.dispatched s) as F.
    { rewrite <- is_dispatched_true, (proj2 (proj2 (step_starts s def) n ltac:(rewrite L; left))).
      done. }
    assert (FlowState.dispatched s ⊂ list_to_set (n :: l) ∪ FlowState.dispatched s) as P
      by set_solver.
    apply subset_size in P. lia.
  - cbn. rewrite dom_insert_L.
    rewrite size_union, size_singleton; [lia|].
    apply disjoint_singleton_l. by apply not_elem_of_dom.
Qed.

Lemma progress_bound def R st : flow_inv def R st -> progress st <= 2 * length (flow_nodes def).
Proof.
  intros [_ K S]. unfold progress.
  pose proof (subseteq_size _ _ K). pose proof (subseteq_size _ _ S).
  pose proof (size_list_to_set_le (flow_nodes def)). lia.
Qed.

(** * Properties *)

Lemma flow_inv_reachable def R k st :
  nsteps (flow_step def R) k FlowState.new st -> flow_inv def R st /\ k <= progress st.
Proof.
  intros H. remember FlowState.new as st0 eqn:E0.
  assert (flow_inv def R st0) as I by (subst; apply flow_inv_new).
  assert (progress st0 = 0) as P by (by subst).
  clear E0. cut (flow_inv def R st /\ k + progress st0 <= progress st); [intros []; split; [done|lia]|].
  clear P. induction H as [s|k s s' s'' S H IH]; [split; [done|lia]|].
  destruct (IH (flow_inv_step _ _ _ _ S I)). pose proof (flow_step_progress _ _ _ _ S I).
  split; [done|lia].
Qed.

Lemma step_progress def R st :
  flow_inv def R st ->
  (exists st', flow_step def R st st') \/
  (exists ds, Forall is_decision ds /\
              step st def = ds ++ emit_and_terminate (flow_outcome def R)).
Proof.
  intros I. pose proof (step_ok R st def (inv_agrees _ _ _ I)) as S.
  inversion S as [n N D E Q|ds starts D N F U Q|ds D Q].
  - left. eexists. by apply (flow_complete _ _ _ n).
  - left. eexists. apply flow_dispatch. rewrite <- Q, start_nodes_app, start_nodes_decisions by done.
    destruct F as [|[] starts]; done.
  - right. by exists ds.
Qed.

Lemma emitted_outcome def R st o :
  agrees R st -> Action.Emit o ∈ step st def -> o = flow_outcome def R.
Proof.
  intros A E. pose proof (step_ok R st def A) as S.
  inversion S as [n N D L Q|ds starts D N F U Q|ds D Q]; rewrite <- Q in E.
  - by apply elem_of_nil in E.
  - rewrite Forall_forall in D, F.
    apply elem_of_app in E as [E|E]; [by apply D in E|by apply F in E].
  - rewrite Forall_forall in D. apply elem_of_app in E as [E|E]; [by apply D in E|].
    apply list_elem_of_In in E. destruct E as [[= E]|[?|[]]]; done.
Qed.

(** C3: whatever the order in which the dispatched workers finish, an execution of a workflow
    is finite (at most two transitions per node), never stuck before the interpreter emits,
    and emits one outcome only, the one its definition gives to the nodes' results: the fold
    is over declared order, never over completion order. *)
Theorem flow_confluent def R k st (H : nsteps (flow_step def R) k FlowState.new st) :
  k <= 2 * length (flow_nodes def) /\
  ((exists st', flow_step def R st st') \/
   (exists ds, Forall is_decision ds /\
               step st def = ds ++ emit_and_terminate (flow_outcome def R))) /\
  (forall o, Action.Emit o ∈ step st def -> o = flow_outcome def R).
Proof.
  apply flow_inv_reachable in H as [I P]. split_and!.
  - pose proof (progress_bound _ _ _ I). lia.
  - by apply step_progress.
  - intros o. apply emitted_outcome, I.
Qed.

(** A step starts only nodes of the workflow, none that was already dispatched and none
    twice, so no worker ever runs twice. *)
Theorem step_dispatches_once st def :
  NoDup (start_nodes (step st def)) /\
  forall n i, Action.StartWorker n i ∈ step st def ->
    n ∈ flow_nodes def /\ FlowState.is_dispatched st n = false.
Proof.
  destruct (step_starts st def) as [U F]. split; [done|].
  intros n i I. apply F, elem_of_start_nodes. by exists i.
Qed.

(** ** The depth ceiling *)

(** A node [d] hierarchy levels down. *)
Definition at_level (d : nat) (n : NodeId.t) : Prop :=
  exists m, n = Nat.iter d NodeId.nested m /\ NodeId.strip_nested m = None.

Lemma leaf_level def n :
  match def.(WorkflowDef.strategy) with Strategy.Hierarchical _ _ => False | _ => True end ->
  n ∈ flow_nodes def -> at_level 0 n.
Proof.
  intros L I. exists n. split; [done|]. unfold flow_nodes in I.
  destruct (WorkflowDef.strategy def); cbn [nodes_of] in I; try done;
    rewrite ?elem_of_app, ?list_elem_of_singleton, ?list_elem_of_fmap in I.
  - by subst.
  - by destruct I as (i & -> & _).
  - by destruct I as (i & -> & _).
  - by destruct I as [(i & -> & _)| ->].
  - by destruct I as [(i & -> & _)| ->].
  - destruct I as [I| ->]; [|done]. apply list_elem_of_In, in_flat_map in I as (r & _ & I).
    apply in_map_iff in I as (s & <- & _). done.
Qed.

Lemma reproject_start pr l n i :
  Action.StartWorker n i ∈ flat_map (reproject pr) l ->
  exists m, n = NodeId.nested m /\ Action.StartWorker m i ∈ l.
Proof.
  rewrite !list_elem_of_In, in_flat_map. intros ([m j|? ?|?|? ?|? ?|?|] & I & E); simpl in E.
  all: repeat destruct E as [E|E]; try done.
  injection E as <- <-. exists m. by rewrite list_elem_of_In.
Qed.

Lemma uadd_one_bounded (d m : u32) :
  u_leb m (uadd d (wrap 32 1)) = false -> (uval d < uval m)%N ->
  uval (uadd d (wrap 32 1)) = (uval d + 1)%N.
Proof.
  intros _ L. pose proof (uval_bound m). unfold uadd. rewrite !uval_wrap.
  rewrite (N.mod_small 1) by done. apply N.mod_small. lia.
Qed.

Definition bounded_start (def : WorkflowDef.t) (depth : u32) (l : list Action.t) : Prop :=
  forall n i, Action.StartWorker n i ∈ l ->
    exists d, at_level d n /\
      (d = 0 \/ (uval depth + N.of_nat d < uval def.(WorkflowDef.max_depth))%N).

Lemma bounded_at_depth def child depth st :
  (forall st depth, (uval depth < uval def.(WorkflowDef.max_depth))%N ->
     bounded_start def depth (child_actions st def child depth)) ->
  (uval depth = 0 \/ uval depth < uval def.(WorkflowDef.max_depth))%N ->
  bounded_start def depth (step_at_depth st def child depth).
Proof.
  intros C B n i. rewrite step_at_depth_eq.
  destruct (FlowState.result st NodeId.planner) as [r|].
  - cbv zeta. destruct (u_leb _ _) eqn:G.
    + intros E%list_elem_of_In. by repeat destruct E as [E|E].
    + intros (m & -> & I)%reproject_start.
      assert (uval (uadd depth (wrap 32 1)) < uval (WorkflowDef.max_depth def))%N as L
        by by apply N.leb_gt.
      assert (uval (uadd depth (wrap 32 1)) = uval depth + 1)%N as E.
      { destruct B as [Z|B]; [|by eapply uadd_one_bounded].
        unfold uadd. rewrite !uval_wrap, Z. done. }
      destruct (C _ _ L _ _ I) as (d & (m' & -> & F) & D).
      exists (S d). split; [by exists m'|]. right. lia.
  - destruct (FlowState.is_dispatched st NodeId.planner).
    + by intros E%elem_of_nil.
    + intros E%list_elem_of_singleton. injection E as -> ->. exists 0.
      split; [by exists NodeId.planner|by left].
Qed.

Lemma bounded_leaf def st h depth :
  match def.(WorkflowDef.strategy) with Strategy.Hierarchical _ _ => False | _ => True end ->
  bounded_start def depth (step_with h st def).
Proof.
  intros L n i I. exists 0. split; [|by left]. apply (leaf_level def); [done|].
  apply (step_starts st def), elem_of_start_nodes. exists i.
  unfold step, step_with in *. by destruct (WorkflowDef.strategy def).
Qed.

Lemma bounded_child def child : forall st depth,
  (uval depth < uval def.(WorkflowDef.max_depth))%N ->
  bounded_start def depth (child_actions st def child depth).
Proof.
  induction child as [| | | | | |planner child IH]; intros st depth L.
  7: by apply bounded_at_depth; [|right].
  all: match goal with |- context [child_actions _ _ ?c _] =>
         exact (bounded_leaf (child_def def c) st (fun _ => []) depth I) end.
Qed.

(** The depth ceiling holds however deep the definition nests: the interpreter never starts
    a node [d] hierarchy levels down unless [d] is below [max_depth] (the root level always
    runs), and the level counter does not overflow on the way. *)
Theorem hierarchy_bounded st def n i (H : Action.StartWorker n i ∈ step st def) :
  exists d, at_level d n /\ (d = 0 \/ (N.of_nat d < uval def.(WorkflowDef.max_depth))%N).
Proof.
  assert (bounded_start def (wrap 32 0) (step st def)) as B.
  { unfold step. destruct (WorkflowDef.strategy def) eqn:S;
      try (apply bounded_leaf; by rewrite S).
    unfold step_with. rewrite S. apply bounded_at_depth; [apply bounded_child|by left]. }
  destruct (B n i H) as (d & L & D). exists d. split; [done|]. exact D.
Qed.

(** ** The fold *)

Lemma position_ok_spec results : forall k,
  match position_ok k results with
  | Some (i, r) =>
      exists before after, results = before ++ r :: after /\ i = k + length before /\
        r.(TurnResult.ok) = true /\ Forall (fun r' => r'.(TurnResult.ok) = false) before
  | None => Forall (fun r => r.(TurnResult.ok) = false) results
  end.
Proof.
  induction results as [|r results IH]; intros k; [constructor|]. cbn [position_ok].
  destruct (TurnResult.ok r) eqn:O.
  - exists [], results. split_and!; [done|simpl; lia|done|constructor].
  - specialize (IH (S k)). destruct (position_ok (S k) results) as [[i r']|].
    + destruct IH as (b & a & -> & -> & O' & F). exists (r :: b), a.
      split_and!; [done|simpl; lia|done|by constructor].
    + by constructor.
Qed.

(** What a join keeps and when it succeeds. *)
Definition join_ok (j : Join.t) (results : list TurnResult.t) : Prop :=
  match j with
  | Join.All => Forall (fun r => r.(TurnResult.ok) = true) results
  | Join.FirstOk => Exists (fun r => r.(TurnResult.ok) = true) results
  | Join.Quorum n => u32_nat n <= count_ok results
  end.

Definition join_kept (j : Join.t) (results kept : list TurnResult.t) : Prop :=
  match j with
  | Join.All => kept = results
  | Join.FirstOk =>
      (exists before r after, results = before ++ r :: after /\ kept = [r] /\
         r.(TurnResult.ok) = true /\ Forall (fun r' => r'.(TurnResult.ok) = false) before) \/
      (Forall (fun r => r.(TurnResult.ok) = false) results /\ kept = results)
  | Join.Quorum n => kept = take (Nat.max (u32_nat n) 1) (List.filter TurnResult.ok results)
  end.

Lemma filter_sublist (f : TurnResult.t -> bool) l : List.filter f l `sublist_of` l.
Proof. induction l as [|x l IH]; [done|]. simpl. destruct (f x); by constructor. Qed.

(** The fold succeeds and keeps what its join says (every branch; the first success in
    declared order, or everything when nothing succeeded; the first successes up to the
    quorum, and one even for a quorum of zero), and it never reorders: what it keeps is a
    subsequence of the branches' results. *)
Theorem fold_results_spec results j :
  let o := fold_results results j in
  (o.(FlowOutcome.ok) = true <-> join_ok j results) /\
  join_kept j results o.(FlowOutcome.results) /\
  o.(FlowOutcome.results) `sublist_of` results.
Proof.
  destruct j as [| |n]; cbn zeta.
  - cbn. rewrite forallb_forall, Forall_forall. split_and!; [|done|done].
    by setoid_rewrite list_elem_of_In.
  - unfold fold_results. pose proof (position_ok_spec results 0) as P.
    destruct (position_ok 0 results) as [[i r]|]; cbn.
    + destruct P as (b & a & -> & _ & O & F). split_and!.
      * rewrite Exists_app, Exists_cons. split; [by right; left|done].
      * left. by exists b, r, a.
      * apply sublist_inserts_l, sublist_skip, sublist_nil_l.
    + split_and!; [|by right|done]. split; [done|].
      intros (r & I & O)%Exists_exists. rewrite Forall_forall in P. by rewrite (P _ I) in O.
  - cbn. rewrite Nat.leb_le. split_and!; [done|done|].
    etransitivity; [apply sublist_take|apply filter_sublist].
Qed.

(** * Witnesses *)

Definition sample_step : Step.t :=
  Step.Mk (WorkerRef.Cli "claude") (TaskTemplate.New "do it") DelegateAutonomy.ReadOnly
    FailPolicy.Abort.
Definition sample_def (s : Strategy.t) : WorkflowDef.t :=
  WorkflowDef.Mk (wrap 32 1) "sample" s BudgetSpec.default (wrap 32 2).
Definition sample_result (ok : bool) (text : string) : TurnResult.t :=
  TurnResult.Mk ok text Usage.default None false.

Definition race : WorkflowDef.t :=
  sample_def (Strategy.Parallel [sample_step; sample_step] Join.FirstOk).
Definition race_results (n : NodeId.t) : TurnResult.t := sample_result true n.
(** The second branch finishes first. *)
Definition race_end : FlowState.t :=
  FlowState.record_result
    (FlowState.record_result
       (foldl FlowState.mark_dispatched FlowState.new (start_nodes (step FlowState.new race)))
       "branch-1" (race_results "branch-1"))
    "branch-0" (race_results "branch-0").

Lemma flow_confluent_witness :
  flow_outcome race race_results =
    FlowOutcome.Mk true [race_results "branch-0"] "join=first_ok: branch 0 (declared order)" /\
  forall o, Action.Emit o ∈ step race_end race -> o = flow_outcome race race_results.
Proof.
  split; [reflexivity|].
  refine (proj2 (proj2 (flow_confluent race race_results 3 race_end _))).
  eapply nsteps_l; [apply flow_dispatch; vm_compute; discriminate|].
  eapply nsteps_l; [apply (flow_complete _ _ _ "branch-1"); vm_compute; reflexivity|].
  eapply nsteps_l; [apply (flow_complete _ _ _ "branch-0"); vm_compute; reflexivity|].
  apply nsteps_O.
Defined.

Definition nest : WorkflowDef.t :=
  sample_def (Strategy.Hierarchical sample_step (Strategy.Single sample_step)).

Lemma hierarchy_bounded_witness :
  exists d, at_level d "child/node-0" /\ (d = 0 \/ (N.of_nat d < 2)%N).
Proof.
  refine (hierarchy_bounded
    (FlowState.record_result (FlowState.mark_dispatched FlowState.new NodeId.planner)
       NodeId.planner (sample_result true "plan")) nest _ 0 _).
  apply list_elem_of_In. vm_compute. by left.
Defined.
