(* ===== verification/Budget.v ===== *)
(** Per-flow budget governance ([nerve-workstation/src/worker/budget.rs]): the budget fold over
    finished nodes, the spawn envelope, the worker semaphore as a concurrent state machine, and
    the monotone narrowing of grants and autonomy. *)
From Stdlib Require Import SpecFloat.
From S2P Require Import Prelude Text FlowDefs Tape.

(** [0.80], as the nearest binary64. *)
Definition WARN_FRACTION : f64 := S754_finite false 7205759403792794 (-53).

Module BudgetDecision.
Inductive t := Within | Warn (limit_usd : f64) | Exhausted.
End BudgetDecision.

Module BudgetState.
Record t := Mk { spent_usd : f64; spent_tokens : u64; warned : bool; exhausted : bool }.
Definition default : t := Mk fzero (wrap 64 0) false false.
End BudgetState.

Module BudgetSnapshot.
Record t := Mk { spent_usd : f64; spent_tokens : u64; exhausted : bool }.
End BudgetSnapshot.

Definition opt_is_some_and {A} (o : option A) (p : A -> bool) : bool :=
  match o with Some a => p a | None => false end.

(** All the tokens a worker reports, widened to 64 bits. *)
Definition widen (n : u32) : u64 := wrap 64 (uval n).
Definition reported_tokens (result : TurnResult.t) : u64 :=
  let u := result.(TurnResult.usage) in
  uadd (uadd (uadd (widen u.(Usage.input_tokens)) (widen u.(Usage.output_tokens)))
             (widen u.(Usage.cache_read_tokens)))
       (widen u.(Usage.cache_creation_tokens)).

Module BudgetLedger.
Record t := Mk { spec : BudgetSpec.t; state : BudgetState.t }.

Definition new (spec : BudgetSpec.t) : t := Mk spec BudgetState.default.

(** Fail-closed: an unreported cost is the whole ceiling. *)
Definition node_cost (spec : BudgetSpec.t) (result : TurnResult.t) : f64 :=
  match result.(TurnResult.cost_usd) with
  | Some cost => cost
  | None => default fzero spec.(BudgetSpec.max_total_cost_usd)
  end.

(** Fail-closed: no reported token is the whole ceiling. *)
Definition node_tokens (spec : BudgetSpec.t) (result : TurnResult.t) : u64 :=
  let reported := reported_tokens result in
  if (0 <? uval reported)%N then reported
  else default (wrap 64 0) spec.(BudgetSpec.max_total_tokens).

Definition over_hard_cap (spec : BudgetSpec.t) (spent_usd : f64) (spent_tokens : u64) : bool :=
  opt_is_some_and spec.(BudgetSpec.max_total_cost_usd) (fun limit => fgt spent_usd limit) ||
  opt_is_some_and spec.(BudgetSpec.max_total_tokens)
    (fun limit => (uval limit <? uval spent_tokens)%N).

Definition debit (l : t) (result : TurnResult.t) : BudgetDecision.t * t :=
  let tokens := node_tokens l.(spec) result in
  let usd := node_cost l.(spec) result in
  let s := l.(state) in
  let spent_usd := fadd s.(BudgetState.spent_usd) usd in
  let spent_tokens := uadd s.(BudgetState.spent_tokens) tokens in
  let put warned exhausted := Mk l.(spec) (BudgetState.Mk spent_usd spent_tokens warned exhausted) in
  if s.(BudgetState.exhausted) then
    (BudgetDecision.Exhausted, put s.(BudgetState.warned) true)
  else if over_hard_cap l.(spec) spent_usd spent_tokens then
    (BudgetDecision.Exhausted, put s.(BudgetState.warned) true)
  else
    match l.(spec).(BudgetSpec.max_total_cost_usd) with
    | Some limit =>
        if negb s.(BudgetState.warned) && fge spent_usd (fmul limit WARN_FRACTION)
        then (BudgetDecision.Warn limit, put true false)
        else (BudgetDecision.Within, put s.(BudgetState.warned) false)
    | None => (BudgetDecision.Within, put s.(BudgetState.warned) false)
    end.

Definition snapshot (l : t) : BudgetSnapshot.t :=
  let s := l.(state) in
  BudgetSnapshot.Mk s.(BudgetState.spent_usd) s.(BudgetState.spent_tokens)
    s.(BudgetState.exhausted).

Definition is_exhausted (l : t) : bool :=
  let s := l.(state) in
  if s.(BudgetState.exhausted) then true
  else
    let usd_dry := opt_is_some_and l.(spec).(BudgetSpec.max_total_cost_usd)
                     (fun limit => fge s.(BudgetState.spent_usd) limit) in
    let tokens_dry := opt_is_some_and l.(spec).(BudgetSpec.max_total_tokens)
                        (fun limit => u_leb limit s.(BudgetState.spent_tokens)) in
    usd_dry || tokens_dry.

Definition remaining_usd (l : t) : option f64 :=
  (fun limit => fmax (fsub limit l.(state).(BudgetState.spent_usd)) fzero)
    <$> l.(spec).(BudgetSpec.max_total_cost_usd).

Definition remaining_tokens (l : t) : option u64 :=
  (fun limit => usaturating_sub limit l.(state).(BudgetState.spent_tokens))
    <$> l.(spec).(BudgetSpec.max_total_tokens).
End BudgetLedger.

Module SpawnRefusal.
Inductive t :=
  | Depth (depth max_depth : u32)
  | Workers (live_workers max_workers : u32)
  | Budget.
End SpawnRefusal.

(** * The worker semaphore *)

Module WorkerSemaphore.
Record t := Mk { live : u32; max : option u32 }.
Definition new (max : option u32) : t := Mk (wrap 32 0) max.

Definition would_refuse (s : t) : option SpawnRefusal.t :=
  match s.(max) with
  | None => None
  | Some max => if u_leb max s.(live) then Some (SpawnRefusal.Workers s.(live) max) else None
  end.

(** [acquire] run without interference: the first load is current and the exchange succeeds. *)
Definition acquire (s : t) : t + SpawnRefusal.t :=
  match s.(max) with
  | None => inl (Mk (uadd s.(live) (wrap 32 1)) None)
  | Some max =>
      if u_leb max s.(live) then inr (SpawnRefusal.Workers s.(live) max)
      else inl (Mk (uadd s.(live) (wrap 32 1)) (Some max))
  end.

(** [release], likewise: saturating at zero. *)
Definition release (s : t) : t := Mk (usaturating_sub s.(live) (wrap 32 1)) s.(max).

(** A thread that acquires a slot, holds it for its worker's lifetime and releases it. *)
Inductive thread :=
  | AcquireLoad
  | AcquireCas (observed : u32)
  | Holding
  | Refused (refusal : SpawnRefusal.t)
  | ReleaseLoad
  | ReleaseCas (observed : u32)
  | Released.

(** One atomic step of one thread on the shared counter. A weak exchange may fail even when
    the counter holds the expected value. *)
Inductive thread_step (max : option u32) : u32 -> thread -> u32 -> thread -> Prop :=
  | fetch_add live :
      max = None -> thread_step max live AcquireLoad (uadd live (wrap 32 1)) Holding
  | acquire_load live m :
      max = Some m -> thread_step max live AcquireLoad live (AcquireCas live)
  | acquire_refuse live observed m :
      max = Some m -> u_leb m observed = true ->
      thread_step max live (AcquireCas observed) live (Refused (SpawnRefusal.Workers observed m))
  | acquire_win live m :
      max = Some m -> u_leb m live = false ->
      thread_step max live (AcquireCas live) (uadd live (wrap 32 1)) Holding
  | acquire_retry live observed m :
      max = Some m -> u_leb m observed = false ->
      thread_step max live (AcquireCas observed) live (AcquireCas live)
  | drop_slot live : thread_step max live Holding live ReleaseLoad
  | release_load live : thread_step max live ReleaseLoad live (ReleaseCas live)
  | release_zero live observed :
      uval observed = 0%N -> thread_step max live (ReleaseCas observed) live Released
  | release_win live :
      uval live <> 0%N ->
      thread_step max live (ReleaseCas live) (usaturating_sub live (wrap 32 1)) Released
  | release_retry live observed :
      uval observed <> 0%N -> thread_step max live (ReleaseCas observed) live (ReleaseCas live).

(** Any thread of the pool moves. *)
Inductive pool_step (max : option u32) : u32 * list thread -> u32 * list thread -> Prop :=
  | pool_thread live ts i t live' t' :
      ts !! i = Some t -> thread_step max live t live' t' ->
      pool_step max (live, ts) (live', <[i := t']> ts).
End WorkerSemaphore.

(** * The spawn envelope *)

(** The smaller of two optional caps; an absent cap defers to the other. *)
Definition intersect_min_f64 (a b : option f64) : option f64 :=
  match a, b with
  | Some a, Some b => Some (fmin a b)
  | Some a, None => Some a
  | None, b => b
  end.

Definition umin {w} (a b : uint w) : uint w := if u_leb a b then a else b.

Definition intersect_min_u64 (a b : option u64) : option u64 :=
  match a, b with
  | Some a, Some b => Some (umin a b)
  | Some a, None => Some a
  | None, b => b
  end.

(** The envelope's own fields; the semaphore it shares with every envelope of the tree is
    passed alongside. *)
Module FleetBudget.
Record t := Mk {
  depth : u32;
  max_depth : u32;
  remaining_usd : option f64;
  remaining_tokens : option u64;
}.

Definition root (max_depth : u32) (max_workers : option u32) (remaining_usd : option f64)
    (remaining_tokens : option u64) : t * WorkerSemaphore.t :=
  (Mk (wrap 32 0) max_depth remaining_usd remaining_tokens, WorkerSemaphore.new max_workers).

Definition may_spawn (b : t) (sem : WorkerSemaphore.t) : unit + SpawnRefusal.t :=
  if u_leb b.(max_depth) b.(depth) then inr (SpawnRefusal.Depth b.(depth) b.(max_depth))
  else
    match WorkerSemaphore.would_refuse sem with
    | Some refusal => inr refusal
    | None =>
        if opt_is_some_and b.(remaining_usd) (fun usd => fle usd fzero)
           || opt_is_some_and b.(remaining_tokens) (fun t => (uval t =? 0)%N)
        then inr SpawnRefusal.Budget
        else inl tt
    end.

Definition acquire (b : t) (sem : WorkerSemaphore.t) : WorkerSemaphore.t + SpawnRefusal.t :=
  WorkerSemaphore.acquire sem.

Definition child (b : t) (latest_usd : option f64) (latest_tokens : option u64) : t :=
  Mk (uadd b.(depth) (wrap 32 1)) b.(max_depth)
     (intersect_min_f64 b.(remaining_usd) latest_usd)
     (intersect_min_u64 b.(remaining_tokens) latest_tokens).
End FleetBudget.

(** * Monotone de-escalation *)

Definition intersect (g parent : BudgetGrant.t) : BudgetGrant.t :=
  BudgetGrant.Mk
    (intersect_min_f64 g.(BudgetGrant.max_cost_usd) parent.(BudgetGrant.max_cost_usd))
    (intersect_min_u64 g.(BudgetGrant.max_tokens) parent.(BudgetGrant.max_tokens)).

Definition autonomy_rank (autonomy : DelegateAutonomy.t) : nat :=
  match autonomy with
  | DelegateAutonomy.ReadOnly => 0
  | DelegateAutonomy.Edit => 1
  | DelegateAutonomy.Full => 2
  end.

Definition intersect_autonomy (child parent : DelegateAutonomy.t) : DelegateAutonomy.t :=
  if autonomy_rank child <=? autonomy_rank parent then child else parent.

(** * The fold *)

Section fold.
Context (spec : BudgetSpec.t).

(** The ledger after a sequence of results. *)
Definition debit_all (rs : list TurnResult.t) : BudgetLedger.t :=
  foldl (fun l r => (BudgetLedger.debit l r).2) (BudgetLedger.new spec) rs.

(** The totals, the two thresholds at the end of a sequence, and whether a proper or improper
    prefix reached one. *)
Definition total_usd (rs : list TurnResult.t) : f64 :=
  foldl fadd fzero (map (BudgetLedger.node_cost spec) rs).
Definition total_tokens (rs : list TurnResult.t) : u64 :=
  foldl uadd (wrap 64 0) (map (BudgetLedger.node_tokens spec) rs).

Definition over_cap (rs : list TurnResult.t) : bool :=
  BudgetLedger.over_hard_cap spec (total_usd rs) (total_tokens rs).
Definition near_cap (rs : list TurnResult.t) : bool :=
  opt_is_some_and spec.(BudgetSpec.max_total_cost_usd)
    (fun limit => fge (total_usd rs) (fmul limit WARN_FRACTION)).

Definition some_prefix (p : list TurnResult.t -> bool) (rs : list TurnResult.t) : bool :=
  existsb (fun i => p (take (S i) rs)) (seq 0 (length rs)).

Lemma existsb_ext_in {A} (f g : A -> bool) l :
  (forall x, In x l -> f x = g x) -> existsb f l = existsb g l.
Proof.
  induction l as [|x l IH]; intros H; [done|]. cbn. rewrite H by by left.
  f_equal. apply IH. intros y I. apply H. by right.
Qed.

Lemma some_prefix_snoc p rs r : some_prefix p (rs ++ [r]) = some_prefix p rs || p (rs ++ [r]).
Proof.
  unfold some_prefix. rewrite length_app, seq_app, existsb_app. cbn. rewrite orb_false_r. f_equal.
  - apply existsb_ext_in. intros i [_ L]%in_seq. by rewrite take_app_le by lia.
  - by rewrite take_ge by (rewrite length_app; cbn; lia).
Qed.

Lemma total_usd_snoc rs r :
  total_usd (rs ++ [r]) = fadd (total_usd rs) (BudgetLedger.node_cost spec r).
Proof. unfold total_usd. by rewrite map_snoc, foldl_snoc. Qed.

Lemma total_tokens_snoc rs r :
  total_tokens (rs ++ [r]) = uadd (total_tokens rs) (BudgetLedger.node_tokens spec r).
Proof. unfold total_tokens. by rewrite map_snoc, foldl_snoc. Qed.

(** The decision the fold is meant to take on [r] after [rs]. *)
Definition budget_decision (rs : list TurnResult.t) (r : TurnResult.t) : BudgetDecision.t :=
  if some_prefix over_cap (rs ++ [r]) then BudgetDecision.Exhausted
  else
    match spec.(BudgetSpec.max_total_cost_usd) with
    | Some limit =>
        if near_cap (rs ++ [r]) && negb (some_prefix near_cap rs)
        then BudgetDecision.Warn limit else BudgetDecision.Within
    | None => BudgetDecision.Within
    end.

Definition folded (rs : list TurnResult.t) (l : BudgetLedger.t) : Prop :=
  l.(BudgetLedger.spec) = spec /\
  l.(BudgetLedger.state).(BudgetState.spent_usd) = total_usd rs /\
  l.(BudgetLedger.state).(BudgetState.spent_tokens) = total_tokens rs /\
  l.(BudgetLedger.state).(BudgetState.exhausted) = some_prefix over_cap rs /\
  (some_prefix over_cap rs = false ->
   l.(BudgetLedger.state).(BudgetState.warned) = some_prefix near_cap rs).

Lemma debit_step rs r l :
  folded rs l ->
  (BudgetLedger.debit l r).1 = budget_decision rs r /\
  folded (rs ++ [r]) (BudgetLedger.debit l r).2.
Proof.
  destruct l as [sp [usd tok w x]]. unfold folded. cbn.
  intros (-> & -> & -> & -> & W). unfold BudgetLedger.debit, budget_decision. cbn.
  rewrite <- total_usd_snoc, <- total_tokens_snoc, !some_prefix_snoc.
  change (BudgetLedger.over_hard_cap spec (total_usd (rs ++ [r])) (total_tokens (rs ++ [r])))
    with (over_cap (rs ++ [r])).
  destruct (some_prefix over_cap rs) eqn:X; cbn; [done|].
  destruct (over_cap (rs ++ [r])); cbn; [done|].
  rewrite W by done. destruct (BudgetSpec.max_total_cost_usd spec) as [limit|] eqn:U.
  - replace (fge (total_usd (rs ++ [r])) (fmul limit WARN_FRACTION)) with (near_cap (rs ++ [r]))
      by (unfold near_cap; by rewrite U).
    rewrite andb_comm. by destruct (near_cap (rs ++ [r])), (some_prefix near_cap rs).
  - replace (near_cap (rs ++ [r])) with false by (unfold near_cap; by rewrite U).
    by rewrite orb_false_r.
Qed.

Lemma debit_all_folded rs : folded rs (debit_all rs).
Proof.
  induction rs as [|r rs IH] using rev_ind; [done|].
  unfold debit_all. rewrite foldl_snoc. by apply debit_step.
Qed.
End fold.

(** ** The semaphore *)

Definition holds (t : WorkerSemaphore.thread) : bool :=
  match t with
  | WorkerSemaphore.Holding | WorkerSemaphore.ReleaseLoad | WorkerSemaphore.ReleaseCas _ => true
  | _ => false
  end.

Definition holders (ts : list WorkerSemaphore.thread) : nat := length (List.filter holds ts).

(** What a thread's local state says about the counter it loaded. *)
Definition thread_ok (max : option u32) (t : WorkerSemaphore.thread) : Prop :=
  match t with
  | WorkerSemaphore.ReleaseCas observed => uval observed <> 0%N
  | WorkerSemaphore.Refused (SpawnRefusal.Workers live m) => max = Some m /\ (uval m <= uval live)%N
  | WorkerSemaphore.Refused _ => False
  | _ => True
  end.

Record pool_inv (max : option u32) (s : u32 * list WorkerSemaphore.thread) : Prop := {
  pool_count : uval s.1 = N.of_nat (holders s.2);
  pool_cap : forall m, max = Some m -> (uval s.1 <= uval m)%N;
  pool_ok : Forall (thread_ok max) s.2;
}.

Lemma holders_insert ts i t t' :
  ts !! i = Some t ->
  holders (<[i := t']> ts) + Nat.b2n (holds t) = holders ts + Nat.b2n (holds t').
Proof.
  unfold holders. revert i. induction ts as [|u ts IH]; intros [|i]; cbn; try done.
  - intros [= ->]. destruct (holds t) eqn:E1, (holds t') eqn:E2; cbn; lia.
  - intros L. specialize (IH i L). destruct (holds u); cbn; [f_equal|]; exact IH.
Qed.

Lemma holders_le ts : holders ts <= length ts.
Proof. unfold holders. induction ts as [|t ts IH]; [done|]. cbn. destruct (holds t); cbn; lia. Qed.

Lemma pool_inv_step max s s' :
  (N.of_nat (length s.2) < 2 ^ 32)%N ->
  WorkerSemaphore.pool_step max s s' -> pool_inv max s -> pool_inv max s'.
Proof.
  intros B S. revert B. destruct S as [live ts i t live' t' L T]. intros B [C M O].
  cbn [fst snd] in *.
  pose proof (holders_insert ts i t t' L) as H. pose proof (holders_le (<[i := t']> ts)) as HL.
  rewrite length_insert in HL. change (2 ^ 32)%N with 4294967296%N in *.
  pose proof (lookup_lt_Some _ _ _ L) as I.
  assert (thread_ok max t) as Ot by (rewrite Forall_lookup in O; by apply (O i)).
  assert (Nat.b2n (holds t) <= holders ts) as P.
  { destruct (holds t) eqn:Ht; [|cbn; lia]. unfold holders.
    assert (t ∈ List.filter holds ts) as It.
    { apply list_elem_of_In, List.filter_In. split; [|done].
      apply list_elem_of_In. by eapply list_elem_of_lookup_2. }
    destruct (List.filter holds ts); [by apply elem_of_nil in It|]. cbn. lia. }
  assert (uval live' = N.of_nat (holders (<[i := t']> ts)) /\
          (forall m, max = Some m -> (uval live' <= uval m)%N) /\ thread_ok max t')
    as (C' & M' & O').
  { destruct T; cbn [holds Nat.b2n thread_ok] in *; rewrite ?Nat.add_0_r in H;
      unfold uadd, usaturating_sub; rewrite ?uval_wrap, ?(N.mod_small 1) by done;
      repeat match goal with
        | E : u_leb _ _ = true |- _ => apply N.leb_le in E
        | E : u_leb _ _ = false |- _ => apply N.leb_gt in E
        end;
      split_and!; try done; try (intros ? E; specialize (M _ E)).
    all: change (2 ^ 32)%N with 4294967296%N in *;
      try (rewrite N.mod_small by lia); simplify_eq; lia. }
  split; cbn [fst snd]; [done|done|]. by apply Forall_insert.
Qed.

Lemma pool_inv_start max n :
  pool_inv max (wrap 32 0, repeat WorkerSemaphore.AcquireLoad n).
Proof.
  assert (holders (repeat WorkerSemaphore.AcquireLoad n) = 0) as E.
  { unfold holders. induction n as [|n IH]; [done|exact IH]. }
  split; cbn [fst snd].
  - by rewrite E.
  - intros m _. change (uval (wrap 32 0)) with 0%N. lia.
  - apply Forall_forall. intros t I%list_elem_of_In%repeat_spec. by subst.
Qed.

Lemma pool_step_length max s s' :
  WorkerSemaphore.pool_step max s s' -> length s'.2 = length s.2.
Proof. intros [live ts i t live' t' L T]. apply length_insert. Qed.

Lemma pool_inv_reachable max s s' :
  (N.of_nat (length s.2) < 2 ^ 32)%N -> pool_inv max s ->
  rtc (WorkerSemaphore.pool_step max) s s' -> pool_inv max s' /\ length s'.2 = length s.2.
Proof.
  intros B I H. revert B I. induction H as [s|s s' s'' S H IH]; intros B I; [done|].
  pose proof (pool_step_length _ _ _ S) as L.
  destruct (IH ltac:(by rewrite L) (pool_inv_step _ _ _ B S I)) as [I' L'].
  split; [done|congruence].
Qed.

(** * Properties *)

(** The debit is a pure fold over the results: the running totals are their sums, the
    brake is on exactly from the first result whose totals exceed a cap and never comes off,
    and the warning is given once, by the first result that reaches 80% of the USD limit,
    unless the brake came first. *)
Theorem budget_debit_spec spec rs r :
  let l := debit_all spec rs in
  (BudgetLedger.debit l r).1 = budget_decision spec rs r /\
  BudgetLedger.snapshot l =
    BudgetSnapshot.Mk (total_usd spec rs) (total_tokens spec rs)
      (some_prefix (over_cap spec) rs) /\
  (some_prefix (over_cap spec) rs = true -> (BudgetLedger.debit l r).1 = BudgetDecision.Exhausted).
Proof.
  cbn zeta. pose proof (debit_all_folded spec rs) as F.
  destruct (debit_step spec rs r _ F) as [D _]. destruct F as (_ & U & T & X & _).
  split_and!; [done|unfold BudgetLedger.snapshot; by rewrite U, T, X|].
  intros E. rewrite D. unfold budget_decision. by rewrite some_prefix_snoc, E.
Qed.

Lemma budget_debit_spec_witness :
  let spec := BudgetSpec.Mk None (Some (wrap 64 10)) None in
  let r := TurnResult.Mk true "x" (Usage.Mk (wrap 32 6) (wrap 32 0) (wrap 32 0) (wrap 32 0))
             None false in
  (BudgetLedger.debit (debit_all spec [r; r]) r).1 = BudgetDecision.Exhausted.
Proof. apply budget_debit_spec. reflexivity. Defined.

(** A worker that reports no usage is never free under a token budget: the second such
    worker always trips the brake, whatever the cap, as long as twice the cap fits in 64
    bits. *)
Theorem silent_workers_exhaust spec cap r r'
    (C : spec.(BudgetSpec.max_total_tokens) = Some cap) (P : (0 < uval cap < 2 ^ 63)%N)
    (S : uval (reported_tokens r) = 0%N) (S' : uval (reported_tokens r') = 0%N) :
  (BudgetLedger.debit (debit_all spec [r]) r').1 = BudgetDecision.Exhausted.
Proof.
  pose proof (debit_all_folded spec [r]) as F.
  destruct (debit_step spec [r] r' _ F) as [-> _]. unfold budget_decision.
  rewrite some_prefix_snoc. replace (over_cap spec ([r] ++ [r'])) with true;
    [by rewrite orb_true_r|].
  symmetry. unfold over_cap, BudgetLedger.over_hard_cap. apply orb_true_iff. right.
  rewrite C. cbn [opt_is_some_and]. apply N.ltb_lt.
  unfold total_tokens, BudgetLedger.node_tokens. cbn [app map foldl].
  rewrite S, S', C. cbn. unfold uadd. change (2 ^ 63)%N with 9223372036854775808%N in P.
  rewrite !uval_wrap. change (2 ^ 64)%N with 18446744073709551616%N.
  change (0 mod 18446744073709551616)%N with 0%N. rewrite N.add_0_l.
  rewrite (N.mod_small (uval cap)) by lia. rewrite N.mod_small by lia. lia.
Qed.

Definition silent : TurnResult.t := TurnResult.Mk true "x" Usage.default None false.

Lemma silent_workers_exhaust_witness :
  (BudgetLedger.debit (debit_all (BudgetSpec.Mk None (Some (wrap 64 1000)) None) [silent])
     silent).1 = BudgetDecision.Exhausted.
Proof. by apply (silent_workers_exhaust _ (wrap 64 1000)). Defined.

(** C32: the worker ceiling holds under every interleaving of the compare-exchange loops, lost
    races and spurious failures included: however many threads contend, the counter is the
    number of slots held, it never exceeds the maximum, a refusal reports a full semaphore,
    and once every thread is done the counter is back at zero. *)
Theorem semaphore_safe max n live ts
    (B : (N.of_nat n < 2 ^ 32)%N)
    (H : rtc (WorkerSemaphore.pool_step max)
           (wrap 32 0, repeat WorkerSemaphore.AcquireLoad n) (live, ts)) :
  uval live = N.of_nat (holders ts) /\
  (forall m, max = Some m -> (N.of_nat (holders ts) <= uval m)%N) /\
  (forall i refusal, ts !! i = Some (WorkerSemaphore.Refused refusal) ->
     exists l m, refusal = SpawnRefusal.Workers l m /\ max = Some m /\ (uval m <= uval l)%N) /\
  (Forall (fun t => t = WorkerSemaphore.Released \/
                    exists r, t = WorkerSemaphore.Refused r) ts -> live = wrap 32 0).
Proof.
  apply pool_inv_reachable in H as [[C M O] _]; cbn [fst snd] in *.
  - split_and!; [done|intros m E; rewrite <- C; by apply M| |].
    + intros i [|l m|] L; rewrite Forall_lookup in O; apply O in L as L'; try done.
      by exists l, m.
    + intros D. apply uint_eq. rewrite C. assert (holders ts = 0) as ->; [|done].
      unfold holders. clear -D. induction D as [|t ts [->|[r ->]] D IH]; done.
  - by rewrite repeat_length.
  - apply pool_inv_start.
Qed.

(** Two threads race for the only slot: one wins, the other retries and is refused. *)
Lemma semaphore_safe_witness :
  holders [WorkerSemaphore.Holding;
           WorkerSemaphore.Refused (SpawnRefusal.Workers (wrap 32 1) (wrap 32 1))] = 1 /\
  uval (wrap 32 1) = 1%N.
Proof.
  split; [reflexivity|].
  refine (proj1 (semaphore_safe (Some (wrap 32 1)) 2 (wrap 32 1)
    [WorkerSemaphore.Holding;
     WorkerSemaphore.Refused (SpawnRefusal.Workers (wrap 32 1) (wrap 32 1))] _ _));
    [reflexivity|].
  eapply rtc_l; [eapply (WorkerSemaphore.pool_thread _ _ _ 0); [reflexivity|];
    by eapply WorkerSemaphore.acquire_load|].
  eapply rtc_l; [eapply (WorkerSemaphore.pool_thread _ _ _ 1); [reflexivity|];
    by eapply WorkerSemaphore.acquire_load|].
  eapply rtc_l; [eapply (WorkerSemaphore.pool_thread _ _ _ 0); [reflexivity|];
    by eapply WorkerSemaphore.acquire_win|].
  eapply rtc_l; [eapply (WorkerSemaphore.pool_thread _ _ _ 1); [reflexivity|];
    by eapply WorkerSemaphore.acquire_retry|].
  eapply rtc_l; [eapply (WorkerSemaphore.pool_thread _ _ _ 1); [reflexivity|];
    by eapply WorkerSemaphore.acquire_refuse|].
  apply rtc_refl.
Defined.

(** [b] is at most [a] as a cap: an absent cap is unlimited. *)
Definition cap_le (b a : option u64) : Prop :=
  match a, b with
  | None, _ => True
  | Some _, None => False
  | Some a, Some b => (uval b <= uval a)%N
  end.

Lemma intersect_min_narrows a b :
  cap_le (intersect_min_u64 a b) a /\ cap_le (intersect_min_u64 a b) b.
Proof.
  destruct a as [a|], b as [b|]; cbn; try (split; done || lia).
  unfold umin. destruct (u_leb a b) eqn:E; [apply N.leb_le in E|apply N.leb_gt in E]; lia.
Qed.

Lemma autonomy_fold own ancestors :
  Forall (fun a => autonomy_rank (foldl intersect_autonomy own ancestors) <= autonomy_rank a)
    (own :: ancestors).
Proof.
  revert own. induction ancestors as [|a l IH]; intros x; [by constructor|].
  cbn [foldl]. specialize (IH (intersect_autonomy x a)). apply Forall_cons in IH as [L F].
  assert (autonomy_rank (intersect_autonomy x a) <= autonomy_rank x /\
          autonomy_rank (intersect_autonomy x a) <= autonomy_rank a) as [].
  { unfold intersect_autonomy. destruct (Nat.leb_spec (autonomy_rank x) (autonomy_rank a)); lia. }
  constructor; [lia|]. constructor; [lia|done].
Qed.

(** Authority only narrows: a grant's token cap is at most its own and its parent's, a
    child envelope's token headroom at most its parent's and the ledger's, and an autonomy
    intersected with any list of ancestors ranks at most with itself and with each. *)
Theorem grants_narrow g parent fleet usd tokens own ancestors :
  cap_le (intersect g parent).(BudgetGrant.max_tokens) g.(BudgetGrant.max_tokens) /\
  cap_le (intersect g parent).(BudgetGrant.max_tokens) parent.(BudgetGrant.max_tokens) /\
  cap_le (FleetBudget.child fleet usd tokens).(FleetBudget.remaining_tokens)
    fleet.(FleetBudget.remaining_tokens) /\
  cap_le (FleetBudget.child fleet usd tokens).(FleetBudget.remaining_tokens) tokens /\
  Forall (fun a => autonomy_rank (foldl intersect_autonomy own ancestors) <= autonomy_rank a)
    (own :: ancestors).
Proof.
  split_and!; try apply intersect_min_narrows. apply autonomy_fold.
Qed.
