(* ===== verification/FlowResolve.v ===== *)
(** Decoding node ids against a workflow ([flow/resolve.rs], the pure part of
    [flow/driver/node.rs]) and the nodes left to run ([flow/resume.rs]). *)
From S2P Require Import Prelude Text FlowDefs Tape Flow FlowSpec Budget.

(** Parse [prefix{i}] to [i]. *)
Definition index_suffix (node prefix : string) : option nat :=
  strip_prefix prefix node ≫= parse_usize.

(** Parse [side-{s}-round-{r}] to [s]. *)
Definition debate_side (node : string) : option nat :=
  rest ← strip_prefix "side-" node;
  '(side, _) ← split_once "-round-" rest;
  parse_usize side.

Fixpoint step_in_strategy (s : Strategy.t) (node : string) : option Step.t :=
  match strip_prefix NodeId.CHILD_PREFIX node with
  | Some child =>
      match s with
      | Strategy.Hierarchical _ inner => step_in_strategy inner child
      | _ => None
      end
  | None =>
      match s with
      | Strategy.Single step => if String.eqb node "node-0" then Some step else None
      | Strategy.Parallel branches _ => i ← index_suffix node "branch-"; branches !! i
      | Strategy.Pipeline stages => i ← index_suffix node "stage-"; stages !! i
      | Strategy.VoteJudge candidates judge _ =>
          if String.eqb node "judge" then Some judge
          else i ← index_suffix node "cand-"; candidates !! i
      | Strategy.MapReduce map _ reduce =>
          if String.eqb node "reduce" then Some reduce
          else if starts_with "map-" node then Some map
          else None
      | Strategy.Debate sides _ judge =>
          if String.eqb node "judge" then Some judge
          else i ← debate_side node; sides !! i
      | Strategy.Hierarchical planner _ =>
          if String.eqb node "planner" then Some planner else None
      end
  end.

Definition step_for_node (def : WorkflowDef.t) (node : NodeId.t) : option Step.t :=
  step_in_strategy def.(WorkflowDef.strategy) node.

(** The planners' autonomies down the node's path, outermost first. *)
Fixpoint collect_ancestor_planners (s : Strategy.t) (node : string) : list DelegateAutonomy.t :=
  match strip_prefix NodeId.CHILD_PREFIX node with
  | None => []
  | Some inner =>
      match s with
      | Strategy.Hierarchical planner child =>
          planner.(Step.autonomy) :: collect_ancestor_planners child inner
      | _ => []
      end
  end.

Definition ancestor_planner_autonomies (s : Strategy.t) (node : string)
  : list DelegateAutonomy.t := collect_ancestor_planners s node.

Definition effective_autonomy (def : WorkflowDef.t) (node : NodeId.t) : DelegateAutonomy.t :=
  let own :=
    match step_for_node def node with
    | Some step => step.(Step.autonomy)
    | None => DelegateAutonomy.ReadOnly
    end in
  foldl intersect_autonomy own (ancestor_planner_autonomies def.(WorkflowDef.strategy) node).

Definition is_pipeline (def : WorkflowDef.t) : bool :=
  match def.(WorkflowDef.strategy) with Strategy.Pipeline _ => true | _ => false end.

Definition is_steerable_strategy (s : Strategy.t) : bool :=
  match s with Strategy.Single _ | Strategy.Pipeline _ => true | _ => false end.

Definition provider_model (worker_ref : WorkerRef.t) : option string :=
  match worker_ref with
  | WorkerRef.Provider _ model => Some model
  | WorkerRef.Cli _ | WorkerRef.Named _ => None
  end.

Definition failed_result (reason : string) : TurnResult.t :=
  TurnResult.Mk false ("worker failed: " +:+ reason) Usage.default None false.

Definition refused_result (refusal : SpawnRefusal.t) : TurnResult.t :=
  let reason :=
    match refusal with
    | SpawnRefusal.Depth depth max_depth =>
        "spawn refused at depth ceiling (" +:+ show_u depth +:+ "/" +:+ show_u max_depth +:+ ")"
    | SpawnRefusal.Workers live_workers max_workers =>
        "spawn refused at worker ceiling (" +:+ show_u live_workers +:+ "/" +:+
        show_u max_workers +:+ ")"
    | SpawnRefusal.Budget => "spawn refused: fleet budget exhausted"
    end in
  TurnResult.Mk false reason Usage.default None false.

Definition cancelled_outcome : FlowOutcome.t := FlowOutcome.Mk false [] "flow cancelled".
Definition terminated_without_emit : FlowOutcome.t :=
  FlowOutcome.Mk false [] "flow terminated without emitting an outcome".

(** The split item of a map node ([driver/node.rs]). *)
Fixpoint split_item_in_strategy (s : Strategy.t) (node : string) : option string :=
  match strip_prefix NodeId.CHILD_PREFIX node with
  | Some inner =>
      match s with
      | Strategy.Hierarchical _ child => split_item_in_strategy child inner
      | _ => None
      end
  | None =>
      match s with
      | Strategy.MapReduce _ over _ =>
          rest ← strip_prefix "map-" node;
          index ← parse_usize rest;
          split_item over index
      | _ => None
      end
  end.

Definition map_split_item (def : WorkflowDef.t) (node : NodeId.t) : option string :=
  split_item_in_strategy def.(WorkflowDef.strategy) node.

(** * Pending nodes *)

Section pending.
Context (finished : list string).

Definition unfinished (nodes : list string) : list string :=
  List.filter (fun n => negb (existsb (String.eqb n) finished)) nodes.

Fixpoint pending_in (s : Strategy.t) (prefix : string) : list string :=
  let id node := prefix +:+ node in
  match s with
  | Strategy.Single _ => unfinished [id "node-0"]
  | Strategy.Parallel branches _ =>
      unfinished (map (fun i => id ("branch-" +:+ show_nat i)) (seq 0 (length branches)))
  | Strategy.Pipeline stages =>
      unfinished (map (fun i => id ("stage-" +:+ show_nat i)) (seq 0 (length stages)))
  | Strategy.VoteJudge candidates _ _ =>
      unfinished (map (fun i => id ("cand-" +:+ show_nat i)) (seq 0 (length candidates)) ++
                  [id "judge"])
  | Strategy.MapReduce _ over _ =>
      unfinished (map (fun i => id ("map-" +:+ show_nat i)) (seq 0 (split_len over)) ++
                  [id "reduce"])
  | Strategy.Debate sides rounds _ =>
      unfinished
        (map (fun '(s, r) => id ("side-" +:+ show_nat s +:+ "-round-" +:+ show_nat r))
           (flat_map (fun r => map (fun s => (s, r)) (seq 0 (length sides)))
              (seq 0 (u32_nat rounds))) ++
         [id "judge"])
  | Strategy.Hierarchical _ child =>
      unfinished [id "planner"] ++ pending_in child (prefix +:+ "child/")
  end.
End pending.

Definition pending_nodes (def : WorkflowDef.t) (finished : list string) : list string :=
  pending_in finished def.(WorkflowDef.strategy) "".

(** * Properties *)

(** ** Every node of a workflow has a step *)

(** The declared step behind each node of [nodes_of], in the same order. *)
Fixpoint steps_of_nodes (s : Strategy.t) : list (NodeId.t * Step.t) :=
  match s with
  | Strategy.Single step => [(NodeId.single, step)]
  | Strategy.Parallel branches _ => imap (fun i b => (NodeId.branch i, b)) branches
  | Strategy.Pipeline stages => imap (fun i b => (NodeId.stage i, b)) stages
  | Strategy.VoteJudge candidates judge _ =>
      imap (fun i b => (NodeId.candidate i, b)) candidates ++ [(NodeId.judge, judge)]
  | Strategy.MapReduce m over reduce =>
      map (fun i => (NodeId.map i, m)) (seq 0 (split_len over)) ++ [(NodeId.reduce, reduce)]
  | Strategy.Debate sides rounds judge =>
      flat_map (fun r => imap (fun i b => (NodeId.debate_turn i r, b)) sides)
        (seq 0 (u32_nat rounds)) ++ [(NodeId.judge, judge)]
  | Strategy.Hierarchical planner child =>
      (NodeId.planner, planner) ::
      map (fun '(n, b) => (NodeId.nested n, b)) (steps_of_nodes child)
  end.

(** No list of the strategy is longer than an address space. *)
Fixpoint addressable (s : Strategy.t) : Prop :=
  match s with
  | Strategy.Single _ => True
  | Strategy.Parallel l _ | Strategy.Pipeline l | Strategy.VoteJudge l _ _
  | Strategy.Debate l _ _ => (N.of_nat (length l) < 2 ^ 64)%N
  | Strategy.MapReduce _ _ _ => True
  | Strategy.Hierarchical _ child => addressable child
  end.

Lemma imap_fst {A} (f : nat -> NodeId.t) (l : list A) :
  map fst (imap (fun i b => (f i, b)) l) = map f (seq 0 (length l)).
Proof.
  assert (forall k, map fst (imap (fun i b => (f (k + i), b)) l) = map f (seq k (length l))) as G.
  2: exact (G 0).
  induction l as [|x l IH]; intros k; [done|]. cbn [imap map length seq fst].
  rewrite Nat.add_0_r. f_equal. rewrite <- IH. f_equal. apply imap_ext. intros.
  cbn. by rewrite Nat.add_succ_r.
Qed.

Lemma steps_of_nodes_nodes s : map fst (steps_of_nodes s) = nodes_of s.
Proof.
  induction s as [| | |m over reduce| |sides rounds judge|planner child IH];
    cbn [steps_of_nodes nodes_of];
    rewrite ?map_app, ?imap_fst, ?map_map; try done.
  - f_equal. induction (seq 0 (u32_nat rounds)) as [|r l IH]; [done|]. cbn [flat_map].
    by rewrite map_app, IH, (imap_fst (fun i => NodeId.debate_turn i r)).
  - cbn [map fst]. f_equal. rewrite <- IH, !map_map. apply map_ext. by intros [].
Qed.

Lemma index_suffix_id prefix i :
  (N.of_nat i < 2 ^ 64)%N -> index_suffix (prefix +:+ show_nat i) prefix = Some i.
Proof. intros L. unfold index_suffix. rewrite strip_prefix_app. by apply parse_show_nat. Qed.

Lemma debate_side_id s r :
  (N.of_nat s < 2 ^ 64)%N -> debate_side (NodeId.debate_turn s r) = Some s.
Proof.
  intros L. unfold debate_side, NodeId.debate_turn. rewrite strip_prefix_app. cbn [mbind option_bind].
  rewrite (split_once_fresh "-" "round-") by by apply no_char_pretty.
  cbn. by apply parse_show_nat.
Qed.

Lemma lookup_bound {A} (l : list A) i x :
  l !! i = Some x -> (N.of_nat (length l) < 2 ^ 64)%N -> (N.of_nat i < 2 ^ 64)%N.
Proof. intros L%lookup_lt_Some B. lia. Qed.

(** A node that is not a child's is matched against the strategy itself. *)
Ltac flat_node :=
  cbn [step_in_strategy];
  match goal with |- context [strip_prefix NodeId.CHILD_PREFIX ?n] =>
    change (strip_prefix NodeId.CHILD_PREFIX n) with (@None string) end;
  cbv iota.

Lemma step_in_strategy_nodes s : addressable s ->
  forall n b, (n, b) ∈ steps_of_nodes s -> step_in_strategy s n = Some b.
Proof.
  induction s as [step|branches j|stages|m over reduce|cands judge k|sides rounds judge|planner child IH];
    cbn [addressable steps_of_nodes]; intros B n b.
  - intros [= -> ->]%list_elem_of_singleton. done.
  - intros (i & x & [= -> ->] & L)%elem_of_lookup_imap.
    flat_node. unfold NodeId.branch. rewrite (index_suffix_id "branch-") by by eapply lookup_bound. exact L.
  - intros (i & x & [= -> ->] & L)%elem_of_lookup_imap.
    flat_node. unfold NodeId.stage. rewrite (index_suffix_id "stage-") by by eapply lookup_bound. exact L.
  - rewrite elem_of_app, list_elem_of_fmap, list_elem_of_singleton.
    intros [(i & [= -> ->] & _)|[= -> ->]]; done.
  - rewrite elem_of_app, list_elem_of_singleton.
    intros [(i & x & [= -> ->] & L)%elem_of_lookup_imap|[= -> ->]]; [|done].
    flat_node. change (String.eqb (NodeId.candidate i) "judge") with false.
    unfold NodeId.candidate. rewrite (index_suffix_id "cand-") by by eapply lookup_bound. exact L.
  - rewrite elem_of_app, list_elem_of_singleton. intros [I|[= -> ->]]; [|done].
    apply list_elem_of_In, in_flat_map in I as (r & _ & I). apply list_elem_of_In in I.
    apply elem_of_lookup_imap in I as (i & x & [= -> ->] & L).
    flat_node.
    change (String.eqb (NodeId.debate_turn i r) "judge") with false.
    rewrite debate_side_id by by eapply lookup_bound. exact L.
  - rewrite elem_of_cons, list_elem_of_fmap. intros [[= -> ->]|([m x] & [= -> ->] & I)]; [done|].
    cbn [step_in_strategy]. unfold NodeId.nested. rewrite strip_prefix_app. by apply IH.
Qed.

(** Ids are decoded by the inverse of how they were made: every node the interpreter can
    start resolves to the step declared for it (a candidate to its candidate, every map node to
    the map step, every turn of a side to that side, a child's node to the child's step), so
    no dispatched node is ever without a step. *)
Theorem step_for_node_correct def n (A : addressable def.(WorkflowDef.strategy))
    (I : n ∈ flow_nodes def) :
  exists b, step_for_node def n = Some b /\ (n, b) ∈ steps_of_nodes def.(WorkflowDef.strategy).
Proof.
  unfold flow_nodes in I. rewrite <- steps_of_nodes_nodes in I.
  apply list_elem_of_fmap in I as ([m b] & -> & I). exists b.
  split; [by apply step_in_strategy_nodes|done].
Qed.

Lemma step_for_node_correct_witness :
  exists b, step_for_node nest "child/node-0" = Some b /\
    ("child/node-0", b) ∈ steps_of_nodes nest.(WorkflowDef.strategy).
Proof. apply step_for_node_correct; [done|]. by right; left. Defined.

(** ** Autonomy *)

(** The planners above a node, by its level. *)
Fixpoint planners_above (d : nat) (s : Strategy.t) : list DelegateAutonomy.t :=
  match d, s with
  | S d, Strategy.Hierarchical planner child => planner.(Step.autonomy) :: planners_above d child
  | _, _ => []
  end.

Lemma ancestors_at_level d s m :
  NodeId.strip_nested m = None ->
  collect_ancestor_planners s (Nat.iter d NodeId.nested m) = planners_above d s.
Proof.
  intros L. revert s. induction d as [|d IH]; intros s.
  - cbn [Nat.iter nat_rect]. unfold NodeId.strip_nested in L. destruct s;
      cbn [collect_ancestor_planners planners_above]; by rewrite L.
  - cbn [Nat.iter nat_rect]. change (Nat.iter (S d) NodeId.nested m)
      with (NodeId.nested (Nat.iter d NodeId.nested m)).
    destruct s; cbn [collect_ancestor_planners planners_above]; unfold NodeId.nested;
      rewrite strip_prefix_app; [done..|]. f_equal. apply IH.
Qed.

(** Monotone de-escalation down the hierarchy: a node runs with an autonomy no higher than
    the one its own step declares and no higher than that of any planner above it; one
    read-only planner makes its whole subtree read-only. *)
Theorem effective_autonomy_narrows def n d m
    (N : n = Nat.iter d NodeId.nested m) (L : NodeId.strip_nested m = None) :
  Forall (fun a => autonomy_rank (effective_autonomy def n) <= autonomy_rank a)
    (match step_for_node def n with
     | Some b => b.(Step.autonomy)
     | None => DelegateAutonomy.ReadOnly
     end :: planners_above d def.(WorkflowDef.strategy)).
Proof.
  unfold effective_autonomy, ancestor_planner_autonomies. subst n.
  rewrite ancestors_at_level by done. apply autonomy_fold.
Qed.

Lemma effective_autonomy_narrows_witness :
  effective_autonomy
    (sample_def (Strategy.Hierarchical sample_step
       (Strategy.Single (Step.Mk (WorkerRef.Cli "codex") (TaskTemplate.New "edit")
          DelegateAutonomy.Full FailPolicy.Abort)))) "child/node-0" = DelegateAutonomy.ReadOnly /\
  Forall (fun a => autonomy_rank (effective_autonomy nest "child/node-0") <= autonomy_rank a)
    [DelegateAutonomy.ReadOnly; DelegateAutonomy.ReadOnly].
Proof.
  split; [reflexivity|].
  by apply (effective_autonomy_narrows nest "child/node-0" 1 "node-0").
Defined.

(** ** Resume *)

Lemma unfinished_app finished l l' :
  unfinished finished (l ++ l') = unfinished finished l ++ unfinished finished l'.
Proof. apply List.filter_app. Qed.

Lemma pending_in_nodes finished s : forall prefix,
  pending_in finished s prefix =
  unfinished finished (map (fun n => prefix +:+ n) (nodes_of s)).
Proof.
  induction s as [| | | | |sides rounds judge|planner child IH]; intros prefix;
    cbn [pending_in nodes_of]; rewrite ?map_app, ?map_map; try done.
  - f_equal. f_equal. induction (seq 0 (u32_nat rounds)) as [|r l IH]; [done|].
    cbn [flat_map]. rewrite !map_app, IH. f_equal. unfold turns_for. by rewrite !map_map.
  - rewrite IH, <- unfinished_app. cbn [map app]. do 2 f_equal. rewrite map_map.
    apply map_ext. intros n. by rewrite app_assoc_str.
Qed.

(** The nodes a resumed flow still has to run are the workflow's nodes without a recorded
    result, in declared order, and they are enough: whatever a continuation of the flow
    starts next is one of them. *)
Theorem pending_nodes_spec def finished :
  pending_nodes def finished = unfinished finished (flow_nodes def) /\
  forall st, Forall (fun n => FlowState.is_dispatched st n = true) finished ->
    forall n i, Action.StartWorker n i ∈ step st def -> n ∈ pending_nodes def finished.
Proof.
  assert (pending_nodes def finished = unfinished finished (flow_nodes def)) as E.
  { unfold pending_nodes. rewrite pending_in_nodes. f_equal. apply map_id. }
  split; [done|]. intros st F n i I. rewrite E.
  assert (n ∈ start_nodes (step st def)) as S by (apply elem_of_start_nodes; by exists i).
  apply (proj2 (step_starts st def)) in S as [N D].
  apply list_elem_of_In, List.filter_In. split; [by apply list_elem_of_In|].
  apply negb_true_iff, not_true_iff_false. intros (m & M & ->%String.eqb_eq)%existsb_exists.
  rewrite Forall_forall in F. apply list_elem_of_In, F in M. congruence.
Qed.

Lemma pending_nodes_spec_witness :
  pending_nodes nest ["planner"] = ["child/node-0"] /\
  "child/node-0" ∈ pending_nodes nest ["planner"].
Proof.
  split; [reflexivity|].
  refine (proj2 (pending_nodes_spec nest ["planner"])
    (FlowState.record_result (FlowState.mark_dispatched FlowState.new NodeId.planner)
       NodeId.planner (sample_result true "plan")) _ "child/node-0" 0 _).
  - by repeat constructor.
  - apply list_elem_of_In. vm_compute. by left.
Defined.
