(* ===== verification/Driver.v ===== *)
(** The flow driver ([nerve-workstation/src/flow/driver/mod.rs], [driver/node.rs]) and the
    fan-out it dispatches through ([subagent/mod.rs]): the loop that applies the engine's
    actions, admits each wave under the budget, runs its workers and folds their results into
    the tape in declared order.

    Then what is proved of it. What the flow driver promises: the fan-out keeps declared order, the loop refines the
    engine's specification on every run no worker panics in, the tape replays to itself, and
    where these promises stop. *)

From S2P Require Import Prelude Text Json FlowDefs Tape Flow FlowSpec Budget FlowResolve.
(** * Bounded fan-out *)

Section fan_out.
Context {I R St : Type} (concurrency : nat) (is_cancelled : St -> bool * St)
  (work : I -> option R) (on_cancelled : I -> R) (on_panic : R).

(** The [loop]: one wave of at most [cap] threads per round, joined in spawn order. A thread
    that panics ([work] is [None]) is replaced by [on_panic]. *)
Fixpoint fan_out_loop (fuel : nat) (remaining : list I) (results : list R) (s : St)
  : list R * St :=
  match fuel with
  | 0 => (results, s)
  | S fuel =>
      let cap := Nat.max concurrency 1 in
      let wave := take cap remaining in
      let remaining := drop cap remaining in
      match wave with
      | [] => (results, s)
      | _ =>
          let '(cancelled, s) := is_cancelled s in
          if cancelled then fan_out_loop fuel remaining (results ++ map on_cancelled wave) s
          else
            let done := map (fun item => default on_panic (work item)) wave in
            fan_out_loop fuel remaining (results ++ done) s
      end
  end.

(** Each round takes at least one input. *)
Definition bounded_fan_out (inputs : list I) (s : St) : list R * St :=
  fan_out_loop (S (length inputs)) inputs [] s.
End fan_out.

(** * The driver *)

(** A worker: what one [start] on a task shows, [None] when its thread panics. *)
Definition worker := WorkerTask.t -> WorkerContext.t -> option turn.

(** The host's half: everything outside the engine. The resolver is asked once per node, so
    its answer may depend on the node as well; [external] says at which polls of the token
    something outside the run has cancelled it. *)
Module Driver.
Record t := Mk {
  resolver : NodeId.t -> WorkerRef.t -> worker + WorkerError.t;
  generation : option (WorkflowDef.t -> string -> u64);
  external : nat -> bool;
  concurrency : nat;
  steer : bool;
  flow_id : string;
  fleet : option FleetBudget.t;
}.
End Driver.

(** What an observer, the session and the steer registry see, in the order of the engine
    thread. (Node starts and progress lines come from the worker threads, in no fixed order.) *)
Module Effect.
Inductive t :=
  | Decided (node : NodeId.t) (kind : FlowDecisionKind.t)
  | SpawnRefused (node : NodeId.t) (refusal : SpawnRefusal.t)
  | NodeFinished (node : NodeId.t) (result : TurnResult.t)
  | BudgetDebited (snapshot : BudgetSnapshot.t) (decision : BudgetDecision.t)
  | SessionRegistered (node : NodeId.t)
  | SessionClosed (node : NodeId.t)
  | RegistryClosed.
End Effect.

(** The state of one run: the interpreter's state, the tape, the budget ledger, the shared
    semaphore, and the cancel token with the number of times it was polled. *)
Module Run.
Record t := Mk {
  state : FlowState.t;
  ledger : WorkerLedger.t;
  budget : option BudgetLedger.t;
  semaphore : WorkerSemaphore.t;
  cancelled : bool;
  polls : nat;
  log : list Effect.t;
}.

Definition with_state (r : t) (s : FlowState.t) : t :=
  Mk s r.(ledger) r.(budget) r.(semaphore) r.(cancelled) r.(polls) r.(log).
Definition with_ledger (r : t) (l : WorkerLedger.t) : t :=
  Mk r.(state) l r.(budget) r.(semaphore) r.(cancelled) r.(polls) r.(log).
Definition with_semaphore (r : t) (s : WorkerSemaphore.t) : t :=
  Mk r.(state) r.(ledger) r.(budget) s r.(cancelled) r.(polls) r.(log).
Definition emit (r : t) (e : Effect.t) : t :=
  Mk r.(state) r.(ledger) r.(budget) r.(semaphore) r.(cancelled) r.(polls) (r.(log) ++ [e]).
End Run.

Module NodeRun.
Record t := Mk {
  result : TurnResult.t;
  events : list WorkerEvent.t;
  session : bool;
  slot : bool;
  start : option (string * u64);
}.
Definition failed (reason : string) : t := Mk (failed_result reason) [] false false None.
Definition cancelled : t := failed "cancelled".
End NodeRun.

Module NodeResult.
Record t := Mk { node : NodeId.t; run : NodeRun.t }.
End NodeResult.

(** A dispatch the budget admitted: the node, its step index, and whether it holds a slot. *)
Definition admitted := (NodeId.t * nat * bool)%type.

(** [CancelToken::is_cancelled]: once true, always true. *)
Definition is_cancelled (d : Driver.t) (r : Run.t) : bool * Run.t :=
  let c := r.(Run.cancelled) || d.(Driver.external) r.(Run.polls) in
  (c, Run.Mk r.(Run.state) r.(Run.ledger) r.(Run.budget) r.(Run.semaphore) c
        (S r.(Run.polls)) r.(Run.log)).

Section driver.
Context (d : Driver.t) (def : WorkflowDef.t).

(** ** One node ([driver/node.rs]) *)

Definition node_grant (r : Run.t) : BudgetGrant.t :=
  match r.(Run.budget) with
  | Some budget =>
      intersect (BudgetGrant.Mk (BudgetLedger.remaining_usd budget)
                   (BudgetLedger.remaining_tokens budget)) BudgetGrant.default
  | None => BudgetGrant.default
  end.

Definition build_task (r : Run.t) (step_def : Step.t) (node : NodeId.t) (step_index : nat)
    (autonomy : DelegateAutonomy.t) : WorkerTask.t :=
  let output := WorkerLedger.output r.(Run.ledger) in
  let prev_node :=
    if is_pipeline def && (0 <? step_index) then Some (NodeId.stage (step_index - 1)) else None in
  let split := map_split_item def node in
  let lookup name :=
    if String.eqb name "prev" then prev_node ≫= output
    else if String.eqb name "split" then split
    else output name in
  WorkerTask.Mk node (TaskTemplate.render step_def.(Step.task) lookup) autonomy
    (provider_model step_def.(Step.worker)) None (node_grant r).

Definition worker_context (node : NodeId.t) (wave_generation : u64) : WorkerContext.t :=
  WorkerContext.Mk wave_generation d.(Driver.flow_id) node.

Definition pin_wave_generation (first_node : NodeId.t) : u64 :=
  match d.(Driver.generation) with
  | Some provider => provider def first_node
  | None => wrap 64 0
  end.

(** [None] when the worker's thread panics. *)
Definition run_node (r : Run.t) (node : NodeId.t) (step_index : nat) (slot : bool)
    (wave_generation : u64) : option NodeRun.t :=
  match step_for_node def node with
  | None => Some (NodeRun.failed ("no step for node `" +:+ node +:+ "`"))
  | Some step_def =>
      match d.(Driver.resolver) node step_def.(Step.worker) with
      | inr err => Some (NodeRun.failed ("resolve failed: " +:+ WorkerError.display err))
      | inl worker =>
          let autonomy := effective_autonomy def node in
          let task := build_task r step_def node step_index autonomy in
          let ctx := worker_context node wave_generation in
          let start :=
            Some (task.(WorkerTask.prompt), ctx.(WorkerContext.snapshot_generation)) in
          match worker task ctx with
          | None => None
          | Some (events, inl result) => Some (NodeRun.Mk result events true slot start)
          | Some (events, inr WorkerError.Cancelled) =>
              Some (NodeRun.Mk (failed_result "cancelled") events false slot start)
          | Some (events, inr err) =>
              Some (NodeRun.Mk (failed_result (WorkerError.display err)) events false slot start)
          end
      end
  end.

(** ** One wave ([driver/mod.rs]) *)

(** The partition's loop body, on the semaphore and the two lists so far. *)
Definition partition_step (fleet : FleetBudget.t)
    (st : WorkerSemaphore.t * list admitted * list (NodeId.t * SpawnRefusal.t))
    (start : NodeId.t * nat) : WorkerSemaphore.t * list admitted * list (NodeId.t * SpawnRefusal.t) :=
  let '(sem, admitted, refused) := st in
  let '(node, step_index) := start in
  match FleetBudget.may_spawn fleet sem with
  | inr refusal => (sem, admitted, refused ++ [(node, refusal)])
  | inl _ =>
      match FleetBudget.acquire fleet sem with
      | inl sem => (sem, admitted ++ [(node, step_index, true)], refused)
      | inr refusal => (sem, admitted, refused ++ [(node, refusal)])
      end
  end.

Definition partition_by_budget (sem : WorkerSemaphore.t) (starts : list (NodeId.t * nat))
  : WorkerSemaphore.t * list admitted * list (NodeId.t * SpawnRefusal.t) :=
  match d.(Driver.fleet) with
  | None => (sem, map (fun '(node, step_index) => (node, step_index, false)) starts, [])
  | Some fleet => foldl (partition_step fleet) (sem, [], []) starts
  end.

Definition debit_budget (r : Run.t) (result : TurnResult.t) : Run.t :=
  match r.(Run.budget) with
  | None => r
  | Some budget =>
      let '(decision, budget) := BudgetLedger.debit budget result in
      let cancelled :=
        match decision with BudgetDecision.Exhausted => true | _ => r.(Run.cancelled) end in
      Run.Mk r.(Run.state) r.(Run.ledger) (Some budget) r.(Run.semaphore) cancelled r.(Run.polls)
        (r.(Run.log) ++ [Effect.BudgetDebited (BudgetLedger.snapshot budget) decision])
  end.

Definition handle_live_session (r : Run.t) (steerable : bool) (node : NodeId.t) (session : bool)
  : Run.t :=
  if negb session then r
  else if steerable && d.(Driver.steer)
  then Run.emit (Run.emit r Effect.RegistryClosed) (Effect.SessionRegistered node)
  else Run.emit r (Effect.SessionClosed node).

(** A node refused by the budget. *)
Definition record_refused (r : Run.t) (entry : NodeId.t * SpawnRefusal.t) : Run.t :=
  let '(node, refusal) := entry in
  let r := Run.emit r (Effect.SpawnRefused node refusal) in
  let result := refused_result refusal in
  let r := Run.with_ledger r (WorkerLedger.record_result r.(Run.ledger) node result) in
  Run.with_state r (FlowState.record_result r.(Run.state) node result).

(** The tape entries of one node: its start if it has one, its events, its result. *)
Definition record_node (l : WorkerLedger.t) (node : NodeId.t) (run : NodeRun.t)
  : WorkerLedger.t :=
  let l :=
    match run.(NodeRun.start) with
    | Some (prompt, generation) => WorkerLedger.record_start l node prompt generation
    | None => l
    end in
  let l := foldl (fun l event => WorkerLedger.record_event l node event) l run.(NodeRun.events) in
  WorkerLedger.record_result l node run.(NodeRun.result).

(** The declared-order fold of one node's run. *)
Definition finish_node (steerable : bool) (r : Run.t) (node_result : NodeResult.t) : Run.t :=
  let node := node_result.(NodeResult.node) in
  let run := node_result.(NodeResult.run) in
  let result := run.(NodeRun.result) in
  let r := Run.with_ledger r (record_node r.(Run.ledger) node run) in
  let r := Run.emit r (Effect.NodeFinished node result) in
  let r := debit_budget r result in
  let r := handle_live_session r steerable node run.(NodeRun.session) in
  let r :=
    if run.(NodeRun.slot)
    then Run.with_semaphore r (WorkerSemaphore.release r.(Run.semaphore)) else r in
  Run.with_state r (FlowState.record_result r.(Run.state) node result).

Definition holds_slot (a : admitted) : bool := a.2.

(** Slots that are dropped before the fold: a node that failed, was cancelled or panicked
    returns no slot with its run. *)
Definition drop_lost_slots (admitted : list admitted) (results : list NodeResult.t) (r : Run.t)
  : Run.t :=
  let held := length (List.filter holds_slot admitted) in
  let returned := length (List.filter (fun n => n.(NodeResult.run).(NodeRun.slot)) results) in
  Run.with_semaphore r (Nat.iter (held - returned) WorkerSemaphore.release r.(Run.semaphore)).

Definition dispatch_wave (starts : list (NodeId.t * nat)) (r : Run.t) : Run.t :=
  let r := Run.with_state r (foldl FlowState.mark_dispatched r.(Run.state) (map fst starts)) in
  let '(sem, admitted, refused) := partition_by_budget r.(Run.semaphore) starts in
  let r := Run.with_semaphore r sem in
  let r := foldl record_refused r refused in
  match admitted with
  | [] => r
  | (first_node, _, _) :: _ =>
      let wave_generation := pin_wave_generation first_node in
      let steerable :=
        (length admitted =? 1) && is_steerable_strategy def.(WorkflowDef.strategy) in
      let work := fun '(node, step_index, slot) =>
        NodeResult.Mk node <$> run_node r node step_index slot wave_generation in
      let on_cancelled := fun '(node, _, _) => NodeResult.Mk node NodeRun.cancelled in
      let on_panic := NodeResult.Mk NodeId.single (NodeRun.failed "worker thread panicked") in
      let '(results, r) :=
        bounded_fan_out d.(Driver.concurrency) (is_cancelled d) work on_cancelled on_panic
          admitted r in
      foldl (finish_node steerable) (drop_lost_slots admitted results r) results
  end.

(** ** The loop *)

Definition MAX_STEPS : nat := N.to_nat 10000.

Definition unwrap_or_else (emitted : option FlowOutcome.t) : FlowOutcome.t :=
  default terminated_without_emit emitted.

(** One batch of actions: the outcome at [Terminate], or the starts and emission collected. *)
Fixpoint apply_actions (actions : list Action.t) (starts : list (NodeId.t * nat))
    (emitted : option FlowOutcome.t) (r : Run.t)
  : (FlowOutcome.t * Run.t) + (list (NodeId.t * nat) * option FlowOutcome.t * Run.t) :=
  match actions with
  | [] => inr (starts, emitted, r)
  | action :: actions =>
      match action with
      | Action.StartWorker node step_index =>
          apply_actions actions (starts ++ [(node, step_index)]) emitted r
      | Action.Decision node kind =>
          apply_actions actions starts emitted (Run.emit r (Effect.Decided node kind))
      | Action.Emit outcome => apply_actions actions starts (Some outcome) r
      | Action.Terminate => inl (unwrap_or_else emitted, r)
      | Action.SteerWorker _ _ | Action.CloseWorker _ | Action.RequestApproval _ _ =>
          apply_actions actions starts emitted r
      end
  end.

Fixpoint run_loop (fuel : nat) (emitted : option FlowOutcome.t) (r : Run.t)
  : FlowOutcome.t * Run.t :=
  match fuel with
  | 0 => (unwrap_or_else emitted, r)
  | S fuel =>
      let '(cancelled, r) := is_cancelled d r in
      if cancelled then (cancelled_outcome, r)
      else
        let actions := step r.(Run.state) def in
        match actions with
        | [] => (unwrap_or_else emitted, r)
        | _ =>
            match apply_actions actions [] emitted r with
            | inl done => done
            | inr (starts, emitted, r) =>
                let r := match starts with [] => r | _ => dispatch_wave starts r end in
                run_loop fuel emitted r
            end
        end
  end.

(** A fresh run over a budget ledger and a semaphore. *)
Definition start_run (budget : option BudgetLedger.t) (sem : WorkerSemaphore.t) : Run.t :=
  Run.Mk FlowState.new WorkerLedger.new budget sem false 0 [].

Definition run (budget : option BudgetLedger.t) (sem : WorkerSemaphore.t)
  : FlowOutcome.t * Run.t :=
  let '(outcome, r) := run_loop MAX_STEPS None (start_run budget sem) in
  (outcome, if d.(Driver.steer) then Run.emit r Effect.RegistryClosed else r).
End driver.

(** * Fan-out *)

Section fan_out.
Context {I R St : Type} (concurrency : nat) (is_cancelled : St -> bool * St)
  (work : I -> option R) (on_cancelled : I -> R) (on_panic : R).

Definition ran (item : I) : R := default on_panic (work item).

(** A token that fired stays fired. *)
Definition sticky : Prop :=
  forall s, (is_cancelled s).1 = true -> (is_cancelled (is_cancelled s).2).1 = true.

Lemma fan_out_cancelled (K : sticky) fuel : forall remaining results s,
  (is_cancelled s).1 = true -> length remaining < fuel ->
  (fan_out_loop concurrency is_cancelled work on_cancelled on_panic fuel remaining results s).1 =
  results ++ map on_cancelled remaining.
Proof.
  induction fuel as [|fuel IH]; intros remaining results s C L; [lia|]. cbn [fan_out_loop].
  set (cap := Nat.max concurrency 1). destruct (take cap remaining) as [|x w] eqn:W.
  - destruct remaining; [by rewrite app_nil_r|]. unfold cap in W. by destruct concurrency.
  - pose proof (K s C) as C'. destruct (is_cancelled s) as [c s'] eqn:P. cbn in C, C'. subst c.
    rewrite IH; [|done|].
    + rewrite <- app_assoc, <- map_app, <- W. by rewrite take_drop.
    + assert (0 < length remaining) by (destruct remaining; [by rewrite take_nil in W|cbn; lia]).
      rewrite length_drop. unfold cap. lia.
Qed.

Lemma fan_out_loop_ordered (K : sticky) fuel : forall remaining results s,
  length remaining < fuel ->
  exists k, k <= length remaining /\
  (fan_out_loop concurrency is_cancelled work on_cancelled on_panic fuel remaining results s).1 =
  results ++ map ran (take k remaining) ++ map on_cancelled (drop k remaining).
Proof.
  induction fuel as [|fuel IH]; intros remaining results s L; [lia|].
  destruct (is_cancelled s) as [[|] s'] eqn:P.
  { exists 0. split; [lia|]. apply fan_out_cancelled; [done|by rewrite P|done]. }
  cbn [fan_out_loop]. set (cap := Nat.max concurrency 1).
  destruct (take cap remaining) as [|x w] eqn:W.
  - exists 0. destruct remaining; [split; [lia|by rewrite app_nil_r]|].
    unfold cap in W. by destruct concurrency.
  - rewrite P. assert (0 < length remaining) by (destruct remaining; [by rewrite take_nil in W|cbn; lia]).
    destruct (IH (drop cap remaining) (results ++ map (fun item => default on_panic (work item)) (x :: w)) s')
      as (k & B & ->); [rewrite length_drop; unfold cap; lia|].
    exists (Nat.min (cap + k) (length remaining)). split; [lia|].
    rewrite <- W, <- app_assoc. f_equal.
    change (map (fun item => default on_panic (work item)) (take cap remaining))
      with (map ran (take cap remaining)).
    rewrite length_drop in B.
    destruct (decide (cap + k <= length remaining)).
    + rewrite Nat.min_l by lia. rewrite app_assoc, <- map_app, take_take_drop.
      by rewrite drop_drop.
    + assert (k = 0) as -> by lia. rewrite Nat.min_r by lia.
      rewrite (take_ge remaining cap) by lia.
      rewrite take_0, firstn_all, skipn_all, drop_0. cbn. rewrite drop_ge by lia. done.
Qed.

(** A part of the state that polling does not touch is not touched by the fan-out. *)
Lemma fan_out_preserves {X} (f : St -> X) fuel :
  (forall s, f (is_cancelled s).2 = f s) -> forall remaining results s,
  f (fan_out_loop concurrency is_cancelled work on_cancelled on_panic fuel remaining results s).2 = f s.
Proof.
  intros F. induction fuel as [|fuel IH]; intros remaining results s; [done|].
  cbn [fan_out_loop]. destruct (take _ _); [done|].
  specialize (F s). destruct (is_cancelled s) as [[|] s']; by rewrite IH.
Qed.

(** The fan-out returns one result per input, in input order, however its threads are
    scheduled: the first [k] inputs ran (a panicking one contributing the substitute), and the
    rest, from the round at which the token was seen cancelled on, were not run at all. *)
Theorem bounded_fan_out_ordered inputs s (K : sticky) :
  exists k, k <= length inputs /\
  (bounded_fan_out concurrency is_cancelled work on_cancelled on_panic inputs s).1 =
  map ran (take k inputs) ++ map on_cancelled (drop k inputs).
Proof.
  destruct (fan_out_loop_ordered K (S (length inputs)) inputs [] s) as (k & B & E); [lia|].
  by exists k.
Qed.
End fan_out.

(** Three inputs, two at a time, the second panicking, the token cancelled after one round. *)
Lemma bounded_fan_out_ordered_witness :
  exists k, k <= 3 /\
  (bounded_fan_out 2 (fun n => (1 <=? n, S n))
     (fun i : nat => if i =? 2 then None else Some (i * 10)) (fun _ => 0) 7 [1; 2; 3] 0).1 =
  map (ran (fun i => if i =? 2 then None else Some (i * 10)) 7) (take k [1; 2; 3]) ++
  map (fun _ => 0) (drop k [1; 2; 3]).
Proof.
  refine (bounded_fan_out_ordered 2 (fun n => (1 <=? n, S n)) _ _ _ [1; 2; 3] 0 _). by intros [|n].
Defined.

(** * One wave *)

Section wave.
Context (d : Driver.t) (def : WorkflowDef.t).

Lemma is_cancelled_sticky : sticky (is_cancelled d).
Proof. intros r C. cbn in *. by rewrite C. Qed.

Lemma debit_budget_state r res : (debit_budget r res).(Run.state) = r.(Run.state).
Proof. unfold debit_budget. destruct (Run.budget r); [|done]. by destruct (BudgetLedger.debit _ _). Qed.
Lemma debit_budget_ledger r res : (debit_budget r res).(Run.ledger) = r.(Run.ledger).
Proof. unfold debit_budget. destruct (Run.budget r); [|done]. by destruct (BudgetLedger.debit _ _). Qed.

Lemma session_state r s n b : (handle_live_session d r s n b).(Run.state) = r.(Run.state).
Proof. unfold handle_live_session. by repeat case_match. Qed.
Lemma session_ledger r s n b : (handle_live_session d r s n b).(Run.ledger) = r.(Run.ledger).
Proof. unfold handle_live_session. by repeat case_match. Qed.

Definition run_result (nr : NodeResult.t) : NodeId.t * TurnResult.t :=
  (nr.(NodeResult.node), nr.(NodeResult.run).(NodeRun.result)).

Definition record_results (s : FlowState.t) (l : list (NodeId.t * TurnResult.t)) : FlowState.t :=
  foldl (fun s '(n, res) => FlowState.record_result s n res) s l.

Lemma finish_node_state steerable r nr :
  (finish_node d steerable r nr).(Run.state) =
  FlowState.record_result r.(Run.state) nr.(NodeResult.node) nr.(NodeResult.run).(NodeRun.result).
Proof.
  unfold finish_node. cbn. f_equal. destruct (NodeRun.slot _); cbn;
    by rewrite session_state, debit_budget_state.
Qed.

Lemma finish_node_ledger steerable r nr :
  (finish_node d steerable r nr).(Run.ledger) =
  record_node r.(Run.ledger) nr.(NodeResult.node) nr.(NodeResult.run).
Proof.
  unfold finish_node. cbn. destruct (NodeRun.slot _); cbn;
    by rewrite session_ledger, debit_budget_ledger.
Qed.

Lemma finish_nodes_state steerable rs : forall r,
  (foldl (finish_node d steerable) r rs).(Run.state) =
  record_results r.(Run.state) (map run_result rs).
Proof.
  induction rs as [|nr rs IH]; intros r; [done|]. cbn [foldl map].
  by rewrite IH, finish_node_state.
Qed.

Lemma finish_nodes_ledger steerable rs : forall r,
  (foldl (finish_node d steerable) r rs).(Run.ledger) =
  foldl (fun l nr => record_node l nr.(NodeResult.node) nr.(NodeResult.run)) r.(Run.ledger) rs.
Proof.
  induction rs as [|nr rs IH]; intros r; [done|]. cbn [foldl].
  by rewrite IH, finish_node_ledger.
Qed.

Definition refused_entry (e : NodeId.t * SpawnRefusal.t) : NodeId.t * TurnResult.t :=
  (e.1, refused_result e.2).

Lemma record_refused_state es : forall r,
  (foldl record_refused r es).(Run.state) = record_results r.(Run.state) (map refused_entry es).
Proof.
  induction es as [|[n e] es IH]; intros r; [done|]. cbn [foldl map]. by rewrite IH.
Qed.

(** The partition keeps every start, each once. *)
Definition admitted_node (a : admitted) : NodeId.t := a.1.1.

Lemma partition_nodes sem starts :
  let '(_, adm, ref) := partition_by_budget d sem starts in
  map admitted_node adm ++ map fst ref ≡ₚ map fst starts.
Proof.
  unfold partition_by_budget. destruct (Driver.fleet d) as [fleet|].
  2: { cbn. rewrite app_nil_r, map_map. apply Permutation_refl', map_ext. by intros []. }
  assert (forall adm ref,
    let '(_, adm', ref') := foldl (partition_step fleet) (sem, adm, ref) starts in
    map admitted_node adm' ++ map fst ref' ≡ₚ
    map admitted_node adm ++ map fst ref ++ map fst starts) as G.
  2: exact (G [] []).
  revert sem. induction starts as [|[n i] starts IH]; intros sem adm ref; cbn [foldl map].
  { by rewrite app_nil_r. }
  unfold partition_step at 2.
  destruct (FleetBudget.may_spawn fleet sem); [destruct (FleetBudget.acquire fleet sem)|];
    match goal with |- context [foldl _ (?s, ?a, ?r) _] =>
      specialize (IH s a r); destruct (foldl _ (s, a, r) _) as [[? ?] ?] end;
    rewrite IH, ?map_app; cbn; rewrite <- ?app_assoc; cbn; try done.
  by rewrite Permutation_middle.
Qed.

(** No worker's thread panics. *)
Definition no_panic : Prop :=
  forall node ref w task ctx, d.(Driver.resolver) node ref = inl w -> w task ctx <> None.

Lemma run_node_some (N : no_panic) r node i slot g :
  exists run, run_node d def r node i slot g = Some run.
Proof.
  unfold run_node. destruct (step_for_node def node) as [st|]; [|by eexists].
  destruct (Driver.resolver d node _) as [w|] eqn:E; [|by eexists].
  pose proof (N _ _ _ (build_task def r st node i (effective_autonomy def node))
    (worker_context d node g) E).
  destruct (w _ _) as [[events [res|[]]]|]; [by eexists..|done].
Qed.

(** The results of a wave, for the nodes it admitted, in order. *)
Lemma wave_results (N : no_panic) (adm : list admitted) g r r0 :
  map NodeResult.node
    (bounded_fan_out d.(Driver.concurrency) (is_cancelled d)
       (fun '(node, step_index, slot) => NodeResult.Mk node <$> run_node d def r0 node step_index slot g)
       (fun '(node, _, _) => NodeResult.Mk node NodeRun.cancelled)
       (NodeResult.Mk NodeId.single (NodeRun.failed "worker thread panicked")) adm r).1 =
  map admitted_node adm.
Proof.
  destruct (fan_out_loop_ordered (Driver.concurrency d) (is_cancelled d)
    (fun '(node, step_index, slot) => NodeResult.Mk node <$> run_node d def r0 node step_index slot g)
    (fun '(node, _, _) => NodeResult.Mk node NodeRun.cancelled)
    (NodeResult.Mk NodeId.single (NodeRun.failed "worker thread panicked"))
    is_cancelled_sticky (S (length adm)) adm [] r) as (k & _ & E); [apply Nat.lt_succ_diag_r|].
  etransitivity; [apply (f_equal (map NodeResult.node)), E|].
  cbn. rewrite map_app, !map_map.
  rewrite <- (take_drop k adm) at 3. rewrite map_app. f_equal.
  - apply map_ext. intros [[n i] s]. unfold ran.
    by destruct (run_node_some N r0 n i s g) as [run ->].
  - apply map_ext. by intros [[n i] s].
Qed.

Lemma record_results_dispatched s l :
  (record_results s l).(FlowState.dispatched) = s.(FlowState.dispatched).
Proof. revert s. induction l as [|[n x] l IH]; intros s; [done|]. exact (IH (FlowState.record_result s n x)). Qed.

Lemma record_results_app s l l' :
  record_results s (l ++ l') = record_results (record_results s l) l'.
Proof. apply foldl_app. Qed.

Lemma record_results_results s l n :
  FlowState.result (record_results s l) n <> None <->
  n ∈ map fst l \/ FlowState.result s n <> None.
Proof.
  revert s. induction l as [|[m x] l IH]; intros s; cbn [record_results foldl map fst].
  { rewrite elem_of_nil. tauto. }
  rewrite IH, elem_of_cons. unfold FlowState.result, FlowState.record_result. cbn.
  destruct (decide (m = n)) as [->|E].
  - rewrite lookup_insert_eq. naive_solver.
  - rewrite lookup_insert_ne by done. naive_solver.
Qed.

(** A wave marks its nodes and records one result for each. *)
Lemma dispatch_wave_state (N : no_panic) starts r :
  exists outs,
    (dispatch_wave d def starts r).(Run.state) =
      record_results (foldl FlowState.mark_dispatched r.(Run.state) (map fst starts)) outs /\
    map fst outs ≡ₚ map fst starts.
Proof.
  unfold dispatch_wave.
  pose proof (partition_nodes (Run.semaphore r) starts) as P.
  cbn [Run.semaphore Run.with_state].
  destruct (partition_by_budget d (Run.semaphore r) starts) as [[sem adm] ref].
  destruct adm as [|[[first i0] s0] adm0] eqn:A.
  - exists (map refused_entry ref). rewrite record_refused_state. split; [done|].
    by rewrite <- P, map_map.
  - rewrite <- A in *. set (r0 := foldl record_refused _ ref).
    pose proof (wave_results N adm (pin_wave_generation d def first) r0 r0) as W.
    set (out := bounded_fan_out _ _ _ _ _ _ _) in *.
    change (bounded_fan_out _ _ _ _ _ _ _) with out.
    assert (Run.state out.2 = Run.state r0) as S by by apply (fan_out_preserves _ _ _ _ _ Run.state).
    destruct out as [results r1]. cbn in W, S.
    exists (map refused_entry ref ++ map run_result results).
    rewrite finish_nodes_state, record_results_app. cbn [drop_lost_slots Run.with_semaphore Run.state].
    rewrite S. unfold r0 at 1. rewrite record_refused_state. split; [done|].
    rewrite <- P, map_app, !map_map, Permutation_app_comm. f_equiv; [|done].
    apply Permutation_refl'. exact W.
Qed.

(** ** The loop *)

Definition closed (s : FlowState.t) : Prop :=
  forall n, FlowState.is_dispatched s n = true -> FlowState.result s n <> None.

Definition known (s : FlowState.t) : Prop :=
  s.(FlowState.dispatched) ⊆ list_to_set (flow_nodes def).

Definition recorded (s : FlowState.t) (n : NodeId.t) : TurnResult.t :=
  default TurnResult.failed (FlowState.result s n).

Lemma recorded_agrees s : agrees (recorded s) s.
Proof. intros n r E. unfold recorded. by rewrite E. Qed.

Lemma dispatch_wave_closed (N : no_panic) starts r :
  closed r.(Run.state) -> known r.(Run.state) -> Forall (fun n => n ∈ flow_nodes def) (map fst starts) ->
  closed (dispatch_wave d def starts r).(Run.state) /\ known (dispatch_wave d def starts r).(Run.state) /\
  (dispatch_wave d def starts r).(Run.state).(FlowState.dispatched) =
    list_to_set (map fst starts) ∪ r.(Run.state).(FlowState.dispatched).
Proof.
  intros C K F. destruct (dispatch_wave_state N starts r) as (outs & E & P).
  assert ((dispatch_wave d def starts r).(Run.state).(FlowState.dispatched) =
    list_to_set (map fst starts) ∪ r.(Run.state).(FlowState.dispatched)) as D
    by (by rewrite E, record_results_dispatched, marks_dispatched).
  split_and!; [|unfold known; rewrite D; rewrite Forall_forall in F; set_solver|done].
  intros n. rewrite is_dispatched_true, D, elem_of_union, elem_of_list_to_set, E.
  rewrite record_results_results, P. intros [I|I]; [by left|]. right.
  unfold FlowState.result. rewrite marks_results. apply C. by apply is_dispatched_true.
Qed.

(** The starts a batch of actions asks for, when it does not terminate. *)
Definition start_pair (a : Action.t) : option (NodeId.t * nat) :=
  match a with Action.StartWorker n i => Some (n, i) | _ => None end.

Lemma apply_decisions ds : Forall is_decision ds -> forall l starts emitted r,
  exists r', apply_actions (ds ++ l) starts emitted r = apply_actions l starts emitted r' /\
    Run.state r' = Run.state r /\ Run.ledger r' = Run.ledger r /\ Run.budget r' = Run.budget r /\
    Run.semaphore r' = Run.semaphore r /\ Run.cancelled r' = Run.cancelled r /\
    Run.polls r' = Run.polls r.
Proof.
  induction 1 as [|[] ds D _ IH]; intros l starts emitted r; try done; [by exists r|].
  cbn [app apply_actions].
  destruct (IH l starts emitted (Run.emit r (Effect.Decided node kind))) as (r' & -> & H).
  by exists r'.
Qed.

Lemma apply_starts l st nodes : Forall (fresh_start st nodes) l -> forall starts emitted r,
  apply_actions l starts emitted r = inr (starts ++ omap start_pair l, emitted, r).
Proof.
  induction 1 as [|[] l F _ IH]; intros starts emitted r; try done.
  - by rewrite app_nil_r.
  - cbn [apply_actions]. rewrite IH. by rewrite <- app_assoc.
Qed.

Lemma start_pairs l : map fst (omap start_pair l) = start_nodes l.
Proof. induction l as [|[] l IH]; cbn; [done|by f_equal|done..]. Qed.

Lemma known_size s : known s -> size (FlowState.dispatched s) <= length (flow_nodes def).
Proof.
  intros K%subseteq_size. pose proof (size_list_to_set_le (flow_nodes def)). lia.
Qed.

Lemma marks_grow (s : gset NodeId.t) n l :
  n ∉ s -> size s < size (list_to_set (n :: l) ∪ s).
Proof. intros F. apply subset_size. set_solver. Qed.

(** The batch of a step: it waits for nothing when every dispatched node has its result. *)
Inductive batch (r : Run.t) (emitted : option FlowOutcome.t) : Prop :=
  | batch_starts starts r' :
      apply_actions (step r.(Run.state) def) [] emitted r = inr (starts, emitted, r') ->
      Run.state r' = Run.state r -> Run.ledger r' = Run.ledger r ->
      Run.budget r' = Run.budget r -> Run.semaphore r' = Run.semaphore r ->
      Run.cancelled r' = Run.cancelled r -> Run.polls r' = Run.polls r ->
      starts <> [] -> NoDup (map fst starts) ->
      Forall (fun n => n ∈ flow_nodes def /\ FlowState.is_dispatched (Run.state r) n = false)
        (map fst starts) ->
      batch r emitted
  | batch_done r' :
      apply_actions (step r.(Run.state) def) [] emitted r =
        inl (flow_outcome def (recorded r.(Run.state)), r') ->
      Run.state r' = Run.state r -> Run.ledger r' = Run.ledger r ->
      Run.budget r' = Run.budget r -> Run.cancelled r' = Run.cancelled r ->
      batch r emitted.

Lemma step_batch r emitted : closed r.(Run.state) -> batch r emitted /\ step r.(Run.state) def <> [].
Proof.
  intros C. pose proof (step_ok _ _ def (recorded_agrees r.(Run.state))) as S.
  inversion S as [n N D E Q|ds starts D N F U Q|ds D Q].
  - by destruct (C n D).
  - split; [|by destruct ds, starts].
    destruct (apply_decisions ds D starts [] emitted r) as (r' & E & H1 & H2 & H3 & H4 & H5 & H6).
    apply (batch_starts r emitted (omap start_pair starts) r'); try done.
    + rewrite <- Q, E. by rewrite (apply_starts _ _ _ F).
    + destruct F as [|[] starts F1 F2]; done.
    + by rewrite start_pairs.
    + rewrite start_pairs. apply Forall_forall. intros n [i I]%elem_of_start_nodes.
      rewrite Forall_forall in F. apply (F _ I).
  - split; [|by destruct ds].
    destruct (apply_decisions ds D (emit_and_terminate (flow_outcome def (recorded (Run.state r))))
      [] emitted r) as (r' & E & H1 & H2 & H3 & H4 & H5 & H6).
    apply (batch_done r emitted r'); try done. by rewrite <- Q, E.
Qed.

(** Enough fuel for every node to be dispatched once and for the last step. *)
Lemma run_loop_outcome (N : no_panic) fuel : forall emitted r,
  closed r.(Run.state) -> known r.(Run.state) ->
  length (flow_nodes def) < fuel + size r.(Run.state).(FlowState.dispatched) ->
  let '(o, rf) := run_loop d def fuel emitted r in
  (rf.(Run.cancelled) = true /\ o = cancelled_outcome) \/
  (rf.(Run.cancelled) = false /\ o = flow_outcome def (recorded rf.(Run.state))).
Proof.
  induction fuel as [|fuel IH]; intros emitted r C K L.
  { pose proof (known_size _ K). lia. }
  cbn [run_loop]. destruct (is_cancelled d r) as [c r1] eqn:P.
  assert (Run.state r1 = Run.state r /\ Run.cancelled r1 = c) as [S1 Cc]
    by (unfold is_cancelled in P; injection P as <- <-; done).
  destruct c; [by left|].
  rewrite <- S1 in C, K, L. destruct (step_batch r1 emitted C) as [B NE].
  destruct (step (Run.state r1) def) as [|a l] eqn:St; [done|]. rewrite <- St in *.
  destruct B as [starts r' -> H1 _ _ _ _ _ Ns U F|r' -> H1 _ _ H5].
  - destruct starts as [|[n i] starts]; [done|]. cbn [map fst] in F. clear Cc.
    rewrite <- H1 in C, K, L, F.
    destruct (dispatch_wave_closed N ((n, i) :: starts) r' C K) as (C' & K' & D').
    { eapply Forall_impl; [exact F|]. by intros ? []. }
    apply IH; [done..|]. rewrite D'. apply Forall_cons in F as [[_ F] _].
    assert (n ∉ FlowState.dispatched (Run.state r')) as X
      by (rewrite <- is_dispatched_true, F; done).
    pose proof (marks_grow _ n (map fst starts) X). cbn [map fst] in *. lia.
  - right. by rewrite H1, H5.
Qed.

(** ** The token *)

(** Who has cancelled the run: the outside, at a poll there was, or a budget that a turn exhausted. *)
Definition was_cancelled (r : Run.t) : Prop :=
  (exists k, k < r.(Run.polls) /\ d.(Driver.external) k = true) \/
  exists snapshot, Effect.BudgetDebited snapshot BudgetDecision.Exhausted ∈ r.(Run.log).

Definition token_ok (r : Run.t) : Prop := r.(Run.cancelled) = true <-> was_cancelled r.

Lemma token_same r r' :
  token_ok r -> Run.cancelled r' = Run.cancelled r -> Run.polls r' = Run.polls r ->
  (forall snapshot, Effect.BudgetDebited snapshot BudgetDecision.Exhausted ∈ Run.log r' <->
     Effect.BudgetDebited snapshot BudgetDecision.Exhausted ∈ Run.log r) -> token_ok r'.
Proof. unfold token_ok, was_cancelled. intros T -> -> L. rewrite T. by setoid_rewrite L. Qed.

Lemma token_emit r e :
  token_ok r -> (forall snapshot, e <> Effect.BudgetDebited snapshot BudgetDecision.Exhausted) -> token_ok (Run.emit r e).
Proof.
  intros T N. apply (token_same r); [done..|]. intros snapshot. cbn. rewrite elem_of_app, list_elem_of_singleton.
  specialize (N snapshot). split; [intros [?|?]; [done|congruence]|by left].
Qed.

Lemma token_poll r : token_ok r -> token_ok (is_cancelled d r).2.
Proof.
  unfold token_ok, was_cancelled. cbn. intros T. rewrite orb_true_iff, T. split.
  - intros [[(k & L & E)|E]|E]; [left; exists k; split; [lia|done]|by right|left; exists (Run.polls r); split; [lia|done]].
  - intros [(k & L & E)|E]; [|by left; right]. destruct (decide (k = Run.polls r)) as [->|N]; [by right|].
    left. left. exists k. split; [lia|done].
Qed.

Lemma token_debit r res : token_ok r -> token_ok (debit_budget r res).
Proof.
  intros T. unfold debit_budget. destruct (Run.budget r) as [budget|]; [|done].
  destruct (BudgetLedger.debit budget res) as [decision budget']. unfold token_ok, was_cancelled in *. cbn.
  setoid_rewrite elem_of_app. setoid_rewrite list_elem_of_singleton. destruct decision; cbn; [rewrite T|rewrite T|]; split;
    try (intros [?|[sn [?|E]]]; [by left|right; by exists sn|discriminate E]);
    try (intros [?|[sn ?]]; [by left|right; exists sn; by left]); [|done].
  intros _. right. exists (BudgetLedger.snapshot budget'). by right.
Qed.

Lemma token_finish steerable r nr : token_ok r -> token_ok (finish_node d steerable r nr).
Proof.
  intros T. unfold finish_node. cbv zeta.
  match goal with |- context [handle_live_session _ ?r0 _ _ _] =>
    assert (token_ok (handle_live_session d r0 steerable (NodeResult.node nr) (NodeRun.session (NodeResult.run nr)))) as H end.
  { unfold handle_live_session.
    assert (forall r', token_ok r' -> token_ok (if negb (NodeRun.session (NodeResult.run nr)) then r'
      else if steerable && d.(Driver.steer)
      then Run.emit (Run.emit r' Effect.RegistryClosed) (Effect.SessionRegistered (NodeResult.node nr))
      else Run.emit r' (Effect.SessionClosed (NodeResult.node nr)))) as S.
    { intros r' T'. repeat case_match; [done|..]; repeat (apply token_emit; [|done]); done. }
    apply S, token_debit, token_emit; [|done]. by apply (token_same r). }
  apply (token_same _ _ H); [by destruct (NodeRun.slot _)..|]. intros sn. by destruct (NodeRun.slot _).
Qed.

Lemma token_foldl {A} (f : Run.t -> A -> Run.t) (S : forall r a, token_ok r -> token_ok (f r a)) l :
  forall r, token_ok r -> token_ok (foldl f r l).
Proof. induction l as [|a l IH]; intros r T; [done|]. apply IH. by apply S. Qed.

Lemma token_fan_out {I R} cap (work : I -> option R) oc op fuel : forall inputs results r,
  token_ok r -> token_ok (fan_out_loop cap (is_cancelled d) work oc op fuel inputs results r).2.
Proof.
  induction fuel as [|fuel IH]; intros inputs results r T; [done|]. cbn [fan_out_loop].
  destruct (take (Nat.max cap 1) inputs); [done|]. apply token_poll in T.
  destruct (is_cancelled d r) as [[] r']; by apply IH.
Qed.

Lemma token_wave starts r : token_ok r -> token_ok (dispatch_wave d def starts r).
Proof.
  intros T. unfold dispatch_wave. cbv zeta. destruct (partition_by_budget _ _ _) as [[sem adm] ref].
  assert (token_ok (foldl record_refused (Run.with_semaphore (Run.with_state r
    (foldl FlowState.mark_dispatched (Run.state r) (map fst starts))) sem) ref)) as T0.
  { apply token_foldl; [|by apply (token_same r)]. intros r' [n e] T'.
    apply (token_same (Run.emit r' (Effect.SpawnRefused n e))); [by apply token_emit|done..]. }
  set (r0 := foldl record_refused _ ref) in *. destruct adm as [|[[first i0] s0] adm]; [done|].
  unfold bounded_fan_out. match goal with |- context [fan_out_loop ?c ?i ?w ?oc ?op ?f ?x ?y ?r] =>
    pose proof (token_fan_out c w oc op f x y r T0) as T1; destruct (fan_out_loop c i w oc op f x y r) as [results r1] end.
  apply token_foldl; [apply token_finish|]. by apply (token_same r1).
Qed.

Lemma token_actions l : forall starts emitted r, token_ok r ->
  match apply_actions l starts emitted r with
  | inl (_, r') | inr (_, _, r') => token_ok r'
  end.
Proof.
  induction l as [|[] l IH]; intros starts emitted r T; cbn [apply_actions]; try done; try by apply IH.
  by apply IH, token_emit.
Qed.

Lemma token_loop fuel : forall emitted r, token_ok r -> token_ok (run_loop d def fuel emitted r).2.
Proof.
  induction fuel as [|fuel IH]; intros emitted r T; [done|]. cbn [run_loop]. apply token_poll in T.
  destruct (is_cancelled d r) as [c r1]. destruct c; [done|]. cbv zeta. destruct (step _ _) as [|a l]; [done|].
  pose proof (token_actions (a :: l) [] emitted r1 T) as A.
  destruct (apply_actions _ _ _ _) as [[o r2]|[[starts em] r2]]; [done|].
  apply IH. destruct starts; [done|]. by apply token_wave.
Qed.

(** ** Runs nothing cancels *)

Definition quiet (r : Run.t) : Prop := r.(Run.budget) = None /\ r.(Run.cancelled) = false.

Lemma finish_nodes_quiet steerable rs : forall r,
  quiet r -> quiet (foldl (finish_node d steerable) r rs).
Proof.
  induction rs as [|nr rs IH]; intros r Q; [done|]. cbn [foldl]. apply IH.
  destruct Q as [B Cn]. unfold finish_node, debit_budget. cbn. rewrite B.
  unfold handle_live_session, quiet. by repeat case_match.
Qed.

Lemma refused_quiet es : forall r, quiet r -> quiet (foldl record_refused r es).
Proof. induction es as [|[n e] es IH]; intros r Q; [done|]. cbn [foldl]. by apply IH. Qed.

Lemma dispatch_wave_quiet (X : forall k, d.(Driver.external) k = false) starts r :
  quiet r -> quiet (dispatch_wave d def starts r).
Proof.
  intros Q. unfold dispatch_wave. destruct (partition_by_budget _ _ _) as [[sem adm] ref].
  assert (quiet (foldl record_refused (Run.with_semaphore (Run.with_state r
    (foldl FlowState.mark_dispatched (Run.state r) (map fst starts))) sem) ref)) as Q0
    by by apply refused_quiet.
  set (r0 := foldl record_refused _ ref) in *. destruct adm as [|[[first i0] s0] adm]; [done|].
  set (out := bounded_fan_out _ _ _ _ _ _ _).
  assert (quiet out.2) as Q1.
  { assert ((Run.budget out.2, Run.cancelled out.2) = (Run.budget r0, Run.cancelled r0)) as E.
    - apply (fan_out_preserves _ _ _ _ _ (fun r => (Run.budget r, Run.cancelled r))).
      intros s. cbn. by rewrite X, orb_false_r.
    - destruct Q0 as [Q1 Q2]. rewrite Q1, Q2 in E. by injection E. }
  destruct out as [results r1]. by apply finish_nodes_quiet.
Qed.

Lemma run_loop_quiet (N : no_panic) (X : forall k, d.(Driver.external) k = false) fuel :
  forall emitted r, closed r.(Run.state) -> known r.(Run.state) -> quiet r ->
  quiet (run_loop d def fuel emitted r).2.
Proof.
  induction fuel as [|fuel IH]; intros emitted r C K Q; [done|].
  cbn [run_loop]. destruct (is_cancelled d r) as [c r1] eqn:P.
  assert (Run.state r1 = Run.state r /\ quiet r1 /\ c = false) as (S1 & Q1 & ->).
  { unfold is_cancelled in P. destruct Q as [Q1 Q2]. rewrite X, Q2 in P.
    injection P as <- <-. done. }
  rewrite <- S1 in C, K. destruct (step_batch r1 emitted C) as [B NE].
  destruct (step (Run.state r1) def) as [|a l] eqn:St; [done|]. rewrite <- St in *.
  destruct B as [starts r' -> H1 _ H3 _ H5 _ Ns U F|r' -> H1 _ H3 H5].
  - destruct starts as [|[n i] starts]; [done|].
    assert (quiet r') as Q' by (unfold quiet; by rewrite H3, H5).
    rewrite <- H1 in C, K, F.
    destruct (dispatch_wave_closed N ((n, i) :: starts) r' C K) as (C' & K' & D').
    { eapply Forall_impl; [exact F|]. by intros ? []. }
    apply IH; [done..|]. by apply dispatch_wave_quiet.
  - cbn. unfold quiet. by rewrite H3, H5.
Qed.
End wave.

(** C2: the driver implements the engine's specification: when no worker's thread panics and
    the workflow has fewer nodes than the step cap, a run ends, and its outcome is the one the
    definition gives to the results it recorded, whatever the budget refused and whatever the
    workers returned, unless the run was cancelled: then it is the cancelled outcome. It was
    cancelled just when the token was found cancelled from outside at one of the polls the run
    made, or a finished turn exhausted the budget. One that is cancelled before it starts
    dispatches nothing; one with no budget that nothing cancels gets its definition's outcome. *)
Theorem driver_refines d def budget sem
    (N : no_panic d) (B : length (flow_nodes def) < MAX_STEPS) :
  let '(o, r) := run d def budget sem in
  o = (if r.(Run.cancelled) then cancelled_outcome else flow_outcome def (recorded r.(Run.state))) /\
  (r.(Run.cancelled) = true <->
   (exists k, k < r.(Run.polls) /\ d.(Driver.external) k = true) \/
   exists snapshot, Effect.BudgetDebited snapshot BudgetDecision.Exhausted ∈ r.(Run.log)) /\
  (d.(Driver.external) 0 = true -> o = cancelled_outcome /\ r.(Run.state) = FlowState.new) /\
  (budget = None -> (forall k, d.(Driver.external) k = false) ->
   o = flow_outcome def (recorded r.(Run.state))).
Proof.
  unfold run. revert B. generalize MAX_STEPS as cap. intros cap B.
  assert (closed FlowState.new) as C by (intros n I%is_dispatched_true; set_solver).
  assert (known def FlowState.new) as K by (unfold known; cbn; set_solver).
  pose proof (run_loop_outcome d def N cap None (start_run budget sem) C K ltac:(lia)) as O.
  pose proof (fun X => run_loop_quiet d def N X cap None (start_run budget sem) C K) as Q.
  assert (token_ok d (start_run budget sem)) as T.
  { split; [done|]. intros [(k & L & _)|[sn E]]; [by apply Nat.nlt_0_r in L|by apply elem_of_nil in E]. }
  apply (token_loop d def cap None) in T.
  assert (d.(Driver.external) 0 = true ->
    exists r', run_loop d def cap None (start_run budget sem) = (cancelled_outcome, r') /\
      Run.state r' = FlowState.new) as Z.
  { intros E. destruct cap as [|fuel]; [lia|]. cbn [run_loop]. unfold is_cancelled. cbn. rewrite E. by eexists. }
  destruct (run_loop d def cap None (start_run budget sem)) as [o r]. cbn [snd] in *. split_and!.
  - destruct (Driver.steer d); destruct O as [[E ->]|[E ->]]; cbn; by rewrite E.
  - destruct (Driver.steer d); [|exact T]. by apply token_emit.
  - intros (r' & [= -> ->] & E)%Z. by destruct (Driver.steer d).
  - intros -> X. destruct (Q X) as [_ F]; [done|]. cbn in F.
    destruct O as [[G _]|[_ ->]]; [congruence|]. by destruct (Driver.steer d).
Qed.

(** A worker that answers with its prompt. *)
Definition echo : worker := fun task _ =>
  Some ([WorkerEvent.Progress "working"],
        inl (sample_result true (task.(WorkerTask.node_id) +:+ ": " +:+ task.(WorkerTask.prompt)))).
Definition sample_driver (w : worker) : Driver.t :=
  Driver.Mk (fun _ _ => inl w) None (fun _ => false) 4 false "flow-1" None.

Lemma driver_refines_witness :
  (run (sample_driver echo) race None (WorkerSemaphore.new None)).1 =
    FlowOutcome.Mk true [sample_result true "branch-0: do it"]
      "join=first_ok: branch 0 (declared order)" /\
  length (flow_nodes race) < MAX_STEPS /\
  let '(o, r) := run (sample_driver echo) race None (WorkerSemaphore.new None) in
  o = (if r.(Run.cancelled) then cancelled_outcome else flow_outcome race (recorded r.(Run.state))) /\
  (r.(Run.cancelled) = true <->
   (exists k, k < r.(Run.polls) /\ (sample_driver echo).(Driver.external) k = true) \/
   exists snapshot, Effect.BudgetDebited snapshot BudgetDecision.Exhausted ∈ r.(Run.log)) /\
  ((sample_driver echo).(Driver.external) 0 = true -> o = cancelled_outcome /\ r.(Run.state) = FlowState.new) /\
  (@None BudgetLedger.t = None -> (forall k, (sample_driver echo).(Driver.external) k = false) ->
   o = flow_outcome race (recorded r.(Run.state))).
Proof.
  split; [vm_compute; reflexivity|].
  assert (length (flow_nodes race) < MAX_STEPS) as L.
  { apply Nat.ltb_lt. vm_compute. reflexivity. }
  split; [exact L|]. apply driver_refines; [|exact L].
  intros node ref w task ctx [= <-]. done.
Defined.

(** * Admission and slots *)

Lemma umax_ok (m : u32) live : (live < uval m)%N -> uval (wrap 32 live) = live.
Proof. intros L. pose proof (uval_bound m). apply uval_wrap_small. lia. Qed.

Lemma acquire_below live m :
  (uval live < uval m)%N ->
  WorkerSemaphore.acquire (WorkerSemaphore.Mk live (Some m)) =
    inl (WorkerSemaphore.Mk (wrap 32 (uval live + 1)) (Some m)) /\
  uval (wrap 32 (uval live + 1)) = (uval live + 1)%N.
Proof.
  intros L. unfold WorkerSemaphore.acquire. cbn. pose proof (uval_bound m).
  replace (u_leb m live) with false by (symmetry; by apply N.leb_gt).
  split; [done|]. apply uval_wrap_small. lia.
Qed.

(** The depth and the headroom let a spawn through; only the semaphore may refuse it. *)
Definition headroom (fleet : FleetBudget.t) : Prop :=
  u_leb fleet.(FleetBudget.max_depth) fleet.(FleetBudget.depth) = false /\
  opt_is_some_and fleet.(FleetBudget.remaining_usd) (fun usd => fle usd fzero) = false /\
  opt_is_some_and fleet.(FleetBudget.remaining_tokens) (fun t => (uval t =? 0)%N) = false.

Lemma partition_admits fleet m starts : headroom fleet -> forall live adm ref,
  (uval live <= uval m)%N ->
  foldl (partition_step fleet) (WorkerSemaphore.Mk live (Some m), adm, ref) starts =
  let k := N.to_nat (uval m - uval live) in
  (WorkerSemaphore.Mk (wrap 32 (uval live + N.of_nat (length (take k starts)))) (Some m),
   adm ++ map (fun '(n, i) => (n, i, true)) (take k starts),
   ref ++ map (fun '(n, _) => (n, SpawnRefusal.Workers m m)) (drop k starts)).
Proof.
  intros (D & U & T). induction starts as [|[n i] starts IH]; intros live adm ref L; cbv zeta.
  { rewrite take_nil, drop_nil. cbn. by rewrite N.add_0_r, wrap_uval, !app_nil_r. }
  cbn [foldl]. unfold partition_step at 2, FleetBudget.may_spawn, FleetBudget.acquire.
  rewrite D. unfold WorkerSemaphore.would_refuse. cbn [WorkerSemaphore.max WorkerSemaphore.live].
  destruct (u_leb m live) eqn:E.
  - apply N.leb_le in E. assert (live = m) as -> by (apply uint_eq; lia).
    rewrite IH by lia. rewrite N.sub_diag. cbn [N.to_nat take drop map length].
    by rewrite <- !app_assoc.
  - apply N.leb_gt in E. rewrite U, T. cbn [orb].
    destruct (acquire_below live m E) as [-> W]. rewrite IH by lia. rewrite W.
    replace (N.to_nat (uval m - uval live)) with (S (N.to_nat (uval m - (uval live + 1)))) by lia.
    cbn [take drop map length]. cbv zeta. rewrite <- !app_assoc. cbn [app].
    do 3 f_equal. f_equal. lia.
Qed.

(** Admission is decided in declared order: with headroom left and [live] of [m] slots
    taken, a wave's first [m - live] nodes are admitted with a slot each, and every later one
    is refused with the full semaphore it met, so the cut does not depend on scheduling. *)
Theorem admission_declared_order d fleet m live starts
    (F : d.(Driver.fleet) = Some fleet) (H : headroom fleet) (L : (uval live <= uval m)%N) :
  let k := N.to_nat (uval m - uval live) in
  partition_by_budget d (WorkerSemaphore.Mk live (Some m)) starts =
  (WorkerSemaphore.Mk (wrap 32 (uval live + N.of_nat (length (take k starts)))) (Some m),
   map (fun '(n, i) => (n, i, true)) (take k starts),
   map (fun '(n, _) => (n, SpawnRefusal.Workers m m)) (drop k starts)).
Proof. unfold partition_by_budget. rewrite F. by apply (partition_admits fleet m starts H live [] []). Qed.

Definition small_fleet : FleetBudget.t := FleetBudget.Mk (wrap 32 0) (wrap 32 2) None None.
Definition budgeted_driver (w : worker) : Driver.t :=
  Driver.Mk (fun _ _ => inl w) None (fun _ => false) 4 false "flow-1" (Some small_fleet).

Lemma admission_declared_order_witness :
  partition_by_budget (budgeted_driver echo) (WorkerSemaphore.new (Some (wrap 32 1)))
    [("branch-0", 0); ("branch-1", 1)] =
  (WorkerSemaphore.Mk (wrap 32 1) (Some (wrap 32 1)), [("branch-0", 0, true)],
   [("branch-1", SpawnRefusal.Workers (wrap 32 1) (wrap 32 1))]).
Proof.
  refine (admission_declared_order (budgeted_driver echo) small_fleet (wrap 32 1) (wrap 32 0)
    [("branch-0", 0); ("branch-1", 1)] _ _ _); [reflexivity|by repeat split|].
  vm_compute. discriminate.
Defined.

(** ** Slots come back *)

Definition slots (adm : list admitted) : nat := length (List.filter holds_slot adm).
Definition run_slots (rs : list NodeResult.t) : nat :=
  length (List.filter (fun n => n.(NodeResult.run).(NodeRun.slot)) rs).

Lemma partition_slots d m starts live :
  (uval live <= uval m)%N ->
  let '(sem, adm, _) := partition_by_budget d (WorkerSemaphore.Mk live (Some m)) starts in
  sem.(WorkerSemaphore.max) = Some m /\
  uval sem.(WorkerSemaphore.live) = (uval live + N.of_nat (slots adm))%N /\
  (uval sem.(WorkerSemaphore.live) <= uval m)%N.
Proof.
  intros L. unfold partition_by_budget. destruct (Driver.fleet d) as [fleet|].
  2: { cbn. split_and!; [done| |done]. unfold slots.
       replace (List.filter holds_slot _) with (@nil admitted); [cbn; lia|].
       induction starts as [|[n i] starts IH]; [done|exact IH]. }
  assert (forall live adm ref, (uval live <= uval m)%N ->
    let '(sem, adm', _) :=
      foldl (partition_step fleet) (WorkerSemaphore.Mk live (Some m), adm, ref) starts in
    sem.(WorkerSemaphore.max) = Some m /\
    (uval sem.(WorkerSemaphore.live) + N.of_nat (slots adm) = uval live + N.of_nat (slots adm'))%N /\
    (uval sem.(WorkerSemaphore.live) <= uval m)%N) as G.
  2: { specialize (G live [] [] L). destruct (foldl _ _ _) as [[sem adm] ref]. cbn in G.
       destruct G as (? & ? & ?). split_and!; [done|lia|done]. }
  clear L live. induction starts as [|[n i] starts IH]; intros live adm ref L; [by cbn; split_and!|].
  cbn [foldl]. unfold partition_step at 2.
  destruct (FleetBudget.may_spawn fleet _) as [u|e] eqn:E; [|by apply IH].
  assert (uval live < uval m)%N as B.
  { unfold FleetBudget.may_spawn, WorkerSemaphore.would_refuse in E. cbn in E.
    destruct (u_leb (FleetBudget.max_depth fleet) _); [done|].
    destruct (u_leb m live) eqn:G; [done|by apply N.leb_gt]. }
  unfold FleetBudget.acquire. destruct (acquire_below live m B) as [-> W].
  specialize (IH (wrap 32 (uval live + 1)) (adm ++ [(n, i, true)]) ref ltac:(lia)).
  destruct (foldl _ _ _) as [[sem adm'] ref']. destruct IH as (? & H & ?).
  split_and!; [done| |done]. unfold slots in *. rewrite List.filter_app, length_app, W in H.
  cbn in H. lia.
Qed.

Lemma releases k sem :
  uval (Nat.iter k WorkerSemaphore.release sem).(WorkerSemaphore.live) =
    (uval sem.(WorkerSemaphore.live) - N.of_nat k)%N /\
  (Nat.iter k WorkerSemaphore.release sem).(WorkerSemaphore.max) = sem.(WorkerSemaphore.max).
Proof.
  induction k as [|k [IH IH']]; cbn [Nat.iter nat_rect]; [split; [lia|done]|].
  change (nat_rect (fun _ => WorkerSemaphore.t) sem (fun _ => WorkerSemaphore.release) k)
    with (Nat.iter k WorkerSemaphore.release sem). cbn. split; [|done].
  pose proof (uval_bound (Nat.iter k WorkerSemaphore.release sem).(WorkerSemaphore.live)).
  unfold usaturating_sub. rewrite uval_wrap_small; change (uval (wrap 32 1)) with 1%N; lia.
Qed.

Lemma finish_node_semaphore d steerable r nr :
  (finish_node d steerable r nr).(Run.semaphore) =
  if nr.(NodeResult.run).(NodeRun.slot) then WorkerSemaphore.release r.(Run.semaphore)
  else r.(Run.semaphore).
Proof.
  unfold finish_node, handle_live_session, debit_budget. cbn.
  destruct (Run.budget r); [destruct (BudgetLedger.debit _ _)|];
    by repeat case_match.
Qed.

Lemma finish_nodes_semaphore d steerable rs : forall r,
  (foldl (finish_node d steerable) r rs).(Run.semaphore) =
  Nat.iter (run_slots rs) WorkerSemaphore.release r.(Run.semaphore).
Proof.
  induction rs as [|nr rs IH]; intros r; [done|]. cbn [foldl].
  rewrite IH, finish_node_semaphore. unfold run_slots. cbn [List.filter].
  destruct (NodeRun.slot _); [|done]. cbn [length]. by rewrite Nat.iter_succ_r.
Qed.

Lemma run_node_slot d def r node i slot g run :
  run_node d def r node i slot g = Some run -> NodeRun.slot run = true -> slot = true.
Proof.
  unfold run_node. intros E S. repeat case_match; try done; by injection E as <-.
Qed.

Lemma run_slots_le (f : admitted -> NodeResult.t) adm :
  (forall a, NodeRun.slot (NodeResult.run (f a)) = true -> holds_slot a = true) ->
  run_slots (map f adm) <= slots adm.
Proof.
  intros F. unfold run_slots, slots. induction adm as [|a adm IH]; [done|]. cbn [map List.filter].
  specialize (F a). destruct (NodeRun.slot _), (holds_slot a); cbn; try lia; by discriminate F.
Qed.

Lemma run_slots_app l l' : run_slots (l ++ l') = run_slots l + run_slots l'.
Proof. unfold run_slots. by rewrite List.filter_app, length_app. Qed.

Lemma slots_app l l' : slots (l ++ l') = slots l + slots l'.
Proof. unfold slots. by rewrite List.filter_app, length_app. Qed.

(** A wave never leaks a worker slot: whatever happens to its nodes (refused, failed before
    or during their turn, cancelled, panicked), the shared semaphore ends where it started. *)
Theorem wave_returns_slots d def starts r m
    (M : r.(Run.semaphore).(WorkerSemaphore.max) = Some m)
    (L : (uval r.(Run.semaphore).(WorkerSemaphore.live) <= uval m)%N) :
  (dispatch_wave d def starts r).(Run.semaphore) = r.(Run.semaphore).
Proof.
  destruct (Run.semaphore r) as [live mx] eqn:Sem. cbn in M, L. subst mx.
  unfold dispatch_wave. cbn [Run.semaphore Run.with_state]. rewrite Sem.
  pose proof (partition_slots d m starts live L) as P.
  destruct (partition_by_budget d _ starts) as [[sem adm] ref]. destruct P as (Mx & Lv & _).
  assert (forall es r, (foldl record_refused r es).(Run.semaphore) = r.(Run.semaphore)) as Rf.
  { intros es. induction es as [|[n e] es IH]; intros x; [done|]. cbn [foldl]. by rewrite IH. }
  destruct adm as [|[[first i0] s0] adm0] eqn:A.
  { rewrite Rf. cbn. destruct sem as [lv mx]. cbn in *. subst mx. f_equal. apply uint_eq. lia. }
  rewrite <- A in *. set (r0 := foldl record_refused _ ref). set (g := pin_wave_generation d def first).
  set (work := fun '(node, step_index, slot) =>
    NodeResult.Mk node <$> run_node d def r0 node step_index slot g).
  set (oc := fun '(node, _, _) => NodeResult.Mk node NodeRun.cancelled).
  set (op := NodeResult.Mk NodeId.single (NodeRun.failed "worker thread panicked")).
  set (out := bounded_fan_out (Driver.concurrency d) (is_cancelled d) work oc op adm r0).
  assert (Run.semaphore out.2 = Run.semaphore r0) as S1
    by by apply (fan_out_preserves _ _ _ _ _ Run.semaphore).
  assert (run_slots out.1 <= slots adm) as B.
  { destruct (fan_out_loop_ordered (Driver.concurrency d) (is_cancelled d) work oc op
      (is_cancelled_sticky d) (S (length adm)) adm [] r0) as (k & _ & E);
      [apply Nat.lt_succ_diag_r|].
    change (out.1 = map (ran work op) (take k adm) ++ map oc (drop k adm)) in E.
    rewrite E, run_slots_app.
    replace (slots adm) with (slots (take k adm) + slots (drop k adm))
      by (rewrite <- slots_app; by rewrite take_drop).
    apply Nat.add_le_mono; apply run_slots_le; intros [[n i] s]; [|done].
    unfold ran, work. destruct (run_node d def r0 n i s g) as [run|] eqn:Rn; [|done].
    cbn. by eapply run_node_slot. }
  destruct out as [results r1]. cbn [fst snd] in S1, B. cbn [fst snd].
  rewrite finish_nodes_semaphore. unfold drop_lost_slots. cbn [Run.semaphore Run.with_semaphore].
  fold (slots adm) (run_slots results). rewrite S1, <- Nat.iter_add.
  replace (run_slots results + (slots adm - run_slots results)) with (slots adm) by lia.
  unfold r0. rewrite Rf. cbn [Run.semaphore Run.with_semaphore].
  destruct (releases (slots adm) sem) as [E1 E2].
  destruct (Nat.iter _ _ sem) as [lv mx]. cbn in E1, E2. subst mx. rewrite Mx. f_equal.
  apply uint_eq. lia.
Qed.

Lemma wave_returns_slots_witness :
  (dispatch_wave (budgeted_driver (fun _ _ => None)) race [("branch-0", 0); ("branch-1", 1)]
     (start_run None (WorkerSemaphore.new (Some (wrap 32 1))))).(Run.semaphore) =
  WorkerSemaphore.new (Some (wrap 32 1)).
Proof.
  refine (wave_returns_slots (budgeted_driver (fun _ _ => None)) race
    [("branch-0", 0); ("branch-1", 1)] (start_run None (WorkerSemaphore.new (Some (wrap 32 1))))
    (wrap 32 1) _ _); [reflexivity|]. vm_compute. discriminate.
Defined.

(** * Where the loop stops short *)

(** A worker that panics in a wave takes the whole flow down: its result is recorded under
    [node-0], so its own node never finishes, the interpreter waits for it, and the run falls
    through to "terminated without emitting", although the sibling succeeded and the same
    flow, with the panic folded as a failure of its node, succeeds. *)
Theorem panicked_branch_loses_flow :
  let panics : worker := fun task ctx =>
    if String.eqb task.(WorkerTask.node_id) "branch-0" then None else echo task ctx in
  let '(o, r) := run (sample_driver panics) race None (WorkerSemaphore.new None) in
  o = terminated_without_emit /\
  FlowState.result r.(Run.state) "branch-1" = Some (sample_result true "branch-1: do it") /\
  FlowState.result r.(Run.state) "branch-0" = None /\
  FlowState.result r.(Run.state) NodeId.single =
    Some (failed_result "worker thread panicked") /\
  flow_outcome race (fun n =>
    if String.eqb n "branch-0" then failed_result "worker thread panicked"
    else recorded r.(Run.state) n) =
  FlowOutcome.Mk true [sample_result true "branch-1: do it"]
    "join=first_ok: branch 1 (declared order)".
Proof. vm_compute. by split_and!. Qed.
