(* ===== verification/FlowReplay.v ===== *)
(** Replay ([nerve-workstation/src/flow/resolve.rs], [flow_job/replay.rs], [flow/resume.rs]):
    running the same engine over a recorded tape gives the recorded tape back, and the two
    ways in which it does not. *)
From S2P Require Import Prelude Text Json FlowDefs Tape Flow FlowSpec Budget FlowResolve Driver.

(** [ReplayResolver]: every reference resolves to a worker that plays the tape. *)
Definition ReplayResolver (recorded : WorkerLedger.t) : NodeId.t -> WorkerRef.t -> worker + WorkerError.t :=
  fun _ _ => inl (fun task _ => Some (replay_start (WorkerLedger.snapshot recorded) task)).

Definition replay_generation_provider (recorded : WorkerLedger.t) : WorkflowDef.t -> string -> u64 :=
  let generations := WorkerLedger.node_generations recorded in
  fun _ node => default (wrap 64 0) (generations !! node).

Definition DEFAULT_FLOW_CONCURRENCY : nat := 4.

(** The budget envelope a flow job derives from the definition. *)
Definition flow_envelope (def : WorkflowDef.t) : BudgetLedger.t * (FleetBudget.t * WorkerSemaphore.t) :=
  let budget := BudgetLedger.new def.(WorkflowDef.budget) in
  (budget, FleetBudget.root def.(WorkflowDef.max_depth)
             def.(WorkflowDef.budget).(BudgetSpec.max_workers)
             (BudgetLedger.remaining_usd budget) (BudgetLedger.remaining_tokens budget)).

(** The driver of a replay: no steering, no flow id, the recorded generations; [cancel] is
    when something outside cancels it. *)
Definition replay_driver (recorded : WorkerLedger.t) (cancel : nat -> bool)
    (fleet : option FleetBudget.t) : Driver.t :=
  Driver.Mk (ReplayResolver recorded) (Some (replay_generation_provider recorded)) cancel
    DEFAULT_FLOW_CONCURRENCY false "" fleet.

(** [run_flow_replay] once the definition and the tape are loaded. *)
Definition run_flow_replay (def : WorkflowDef.t) (recorded : WorkerLedger.t)
    (cancel : nat -> bool) : FlowOutcome.t * Run.t :=
  let '(budget, (fleet, sem)) := flow_envelope def in
  run (replay_driver recorded cancel (Some fleet)) def (Some budget) sem.

(** [replay_to_boundary]: the same without a budget, on a token nobody cancels. *)
Definition replay_to_boundary (def : WorkflowDef.t) (recorded : WorkerLedger.t) : WorkerLedger.t :=
  (run (replay_driver recorded (fun _ => false) None) def None (WorkerSemaphore.new None)).2.(Run.ledger).

(** * What a node leaves on the tape *)

Definition payloads (n : string) (l : WorkerLedger.t) : list LedgerPayload.t :=
  map LedgerEntry.payload (List.filter (is_node n) l.(WorkerLedger.entries)).

Definition run_payloads (run : NodeRun.t) : list LedgerPayload.t :=
  match run.(NodeRun.start) with
  | Some (prompt, generation) => [LedgerPayload.Start prompt generation]
  | None => []
  end ++ map LedgerPayload.Event run.(NodeRun.events) ++ [LedgerPayload.Result run.(NodeRun.result)].

(** The parts of an association list under one name. *)
Definition pick {A} (n : string) (f : A -> list LedgerPayload.t) (l : list (string * A))
  : list LedgerPayload.t :=
  flat_map (fun '(m, x) => if String.eqb m n then f x else []) l.

Lemma pick_fresh {A} n (f : A -> list LedgerPayload.t) l : n ∉ map fst l -> pick n f l = [].
Proof.
  induction l as [|[m x] l IH]; cbn [map fst pick flat_map]; [done|].
  rewrite not_elem_of_cons. intros [N F]. fold (pick n f l). rewrite IH by done.
  by destruct (String.eqb_spec m n) as [->|].
Qed.

Lemma pick_in {A} n (f : A -> list LedgerPayload.t) l x :
  NoDup (map fst l) -> (n, x) ∈ l -> pick n f l = f x.
Proof.
  induction l as [|[m y] l IH]; cbn [map fst pick flat_map]; [by intros _ ?%not_elem_of_nil|].
  fold (pick n f l). rewrite NoDup_cons, elem_of_cons. intros [F U] [[= <- <-]|I].
  - by rewrite String.eqb_refl, pick_fresh, app_nil_r.
  - rewrite IH by done. destruct (String.eqb_spec m n) as [->|]; [|done].
    destruct F. change n with (n, x).1. by apply list_elem_of_fmap_2.
Qed.

Lemma payloads_push n m p l :
  payloads n (WorkerLedger.push l m p) = payloads n l ++ if String.eqb m n then [p] else [].
Proof.
  unfold payloads, WorkerLedger.push. cbn. rewrite List.filter_app, map_app. cbn.
  by destruct (String.eqb m n).
Qed.

Lemma payloads_record_result n m res l :
  payloads n (WorkerLedger.record_result l m res) =
  payloads n l ++ if String.eqb m n then [LedgerPayload.Result res] else [].
Proof. unfold WorkerLedger.record_result. by rewrite payloads_push. Qed.

Lemma payloads_events n m evs : forall l,
  payloads n (foldl (fun l event => WorkerLedger.record_event l m event) l evs) =
  payloads n l ++ if String.eqb m n then map LedgerPayload.Event evs else [].
Proof.
  induction evs as [|e evs IH]; intros l; cbn [foldl map].
  { by destruct (String.eqb m n); rewrite app_nil_r. }
  rewrite IH. unfold WorkerLedger.record_event. rewrite payloads_push, <- app_assoc.
  by destruct (String.eqb m n).
Qed.

Lemma payloads_record_node n m run l :
  payloads n (record_node l m run) =
  payloads n l ++ if String.eqb m n then run_payloads run else [].
Proof.
  unfold record_node, run_payloads. rewrite payloads_record_result, payloads_events.
  destruct (NodeRun.start run) as [[prompt g]|]; unfold WorkerLedger.record_start;
    rewrite ?payloads_push, <- ?app_assoc; by destruct (String.eqb m n); rewrite ?app_nil_r.
Qed.

Definition node_run (nr : NodeResult.t) : NodeId.t * NodeRun.t :=
  (nr.(NodeResult.node), nr.(NodeResult.run)).

Lemma payloads_record_nodes n rs : forall l,
  payloads n (foldl (fun l nr => record_node l nr.(NodeResult.node) nr.(NodeResult.run)) l rs) =
  payloads n l ++ pick n run_payloads (map node_run rs).
Proof.
  induction rs as [|nr rs IH]; intros l; [by rewrite app_nil_r|]. cbn [foldl map].
  by rewrite IH, payloads_record_node, <- app_assoc.
Qed.

Lemma payloads_refused n es : forall r,
  payloads n (foldl record_refused r es).(Run.ledger) =
  payloads n r.(Run.ledger) ++ pick n (fun e => [LedgerPayload.Result (refused_result e)]) es.
Proof.
  induction es as [|[m e] es IH]; intros r; [by rewrite app_nil_r|]. cbn [foldl].
  rewrite IH. cbn [record_refused Run.ledger Run.with_state Run.with_ledger Run.emit].
  rewrite payloads_record_result. cbn [pick flat_map]. by rewrite <- app_assoc.
Qed.

(** * Playing a node back *)

Definition play (st : list WorkerEvent.t * TurnResult.t) (p : LedgerPayload.t)
  : list WorkerEvent.t * TurnResult.t :=
  match p with
  | LedgerPayload.Event event => (st.1 ++ [event], st.2)
  | LedgerPayload.Result result => (st.1, result)
  | LedgerPayload.Start _ _ => st
  end.

Lemma replay_start_payloads l task :
  payloads task.(WorkerTask.node_id) l <> [] ->
  replay_start (WorkerLedger.snapshot l) task =
    let '(events, last) :=
      foldl play ([], no_recorded_result) (payloads task.(WorkerTask.node_id) l) in
    (events, inl last).
Proof.
  unfold replay_start, payloads, WorkerLedger.snapshot. set (n := WorkerTask.node_id task).
  intros NE. replace (existsb (is_node n) (WorkerLedger.entries l)) with true; cbn [negb].
  - assert (forall es st, foldl replay_entry st es = foldl play st (map LedgerEntry.payload es)) as G.
    { induction es as [|e es IH]; intros [evs last]; [done|]. cbn [foldl map]. rewrite IH.
      unfold replay_entry. by destruct (LedgerEntry.payload e). }
    by rewrite G.
  - symmetry. apply existsb_exists. destruct (List.filter _ _) as [|e es] eqn:F; [done|].
    assert (In e (List.filter (is_node n) (WorkerLedger.entries l))) as I by (rewrite F; by left).
    apply filter_In in I. by exists e.
Qed.

Lemma play_run start evs res st :
  foldl play st (match start with Some (p, g) => [LedgerPayload.Start p g] | None => [] end ++
                 map LedgerPayload.Event evs ++ [LedgerPayload.Result res]) = (st.1 ++ evs, res).
Proof.
  rewrite foldl_app.
  replace (foldl play st _) with st by by destruct start as [[]|].
  revert st. induction evs as [|e evs IH]; intros [es last]; cbn [map app foldl play fst snd].
  - by rewrite app_nil_r.
  - rewrite IH. cbn. by rewrite <- app_assoc.
Qed.

Lemma replay_start_run l task run :
  payloads task.(WorkerTask.node_id) l = run_payloads run ->
  replay_start (WorkerLedger.snapshot l) task = (run.(NodeRun.events), inl run.(NodeRun.result)).
Proof.
  intros E. rewrite replay_start_payloads, E.
  - unfold run_payloads. by rewrite play_run.
  - rewrite E. unfold run_payloads. destruct (NodeRun.start run) as [[]|], (NodeRun.events run); done.
Qed.

Definition last_generation (acc : option u64) (p : LedgerPayload.t) : option u64 :=
  match p with LedgerPayload.Start _ g => Some g | _ => acc end.

Lemma node_generations_payloads l n :
  WorkerLedger.node_generations l !! n = foldl last_generation None (payloads n l).
Proof.
  unfold WorkerLedger.node_generations, payloads. destruct l as [es bb]. cbn. clear bb.
  induction es as [|e es IH] using rev_ind; [done|].
  rewrite foldl_app, List.filter_app, map_app, foldl_app, <- IH. cbn. unfold is_node.
  destruct e as [sq m p]. cbn. destruct (String.eqb_spec m n) as [->|N], p; cbn; try done.
  - by rewrite lookup_insert_eq.
  - by rewrite lookup_insert_ne.
Qed.

Lemma generation_run l n run p g :
  payloads n l = run_payloads run -> run.(NodeRun.start) = Some (p, g) ->
  WorkerLedger.node_generations l !! n = Some g.
Proof.
  rewrite node_generations_payloads. intros -> E. unfold run_payloads. rewrite E. cbn.
  rewrite foldl_app. cbn. by induction (NodeRun.events run) as [|e es IH].
Qed.

(** * The part of a run a replay reproduces *)

Definition core (r : Run.t) :=
  (r.(Run.state), r.(Run.ledger), r.(Run.budget), r.(Run.semaphore), r.(Run.cancelled)).

(** Runs of a node that differ at most in whether a live session is left. *)
Definition same_run (a b : NodeResult.t) : Prop :=
  let ra := a.(NodeResult.run) in let rb := b.(NodeResult.run) in
  a.(NodeResult.node) = b.(NodeResult.node) /\ ra.(NodeRun.result) = rb.(NodeRun.result) /\
  ra.(NodeRun.events) = rb.(NodeRun.events) /\ ra.(NodeRun.slot) = rb.(NodeRun.slot) /\
  ra.(NodeRun.start) = rb.(NodeRun.start).

Lemma core_eq r r' : (core r = core r') <->
  Run.state r = Run.state r' /\ Run.ledger r = Run.ledger r' /\ Run.budget r = Run.budget r' /\
  Run.semaphore r = Run.semaphore r' /\ Run.cancelled r = Run.cancelled r'.
Proof. unfold core. split; [by intros [= -> -> -> -> ->]|by intros (-> & -> & -> & -> & ->)]. Qed.

Lemma core_session d r s n b : core (handle_live_session d r s n b) = core r.
Proof. unfold handle_live_session. by repeat case_match. Qed.

Lemma core_debit r r' res : core r = core r' -> core (debit_budget r res) = core (debit_budget r' res).
Proof.
  intros (Es & El & Eb & Em & Ec)%core_eq. unfold debit_budget. rewrite <- Eb.
  destruct (Run.budget r) as [b|] eqn:Ebr; [|by apply core_eq; rewrite Ebr].
  destruct (BudgetLedger.debit b res) as [dec b']. unfold core. cbn. by rewrite Es, El, Em, Ec.
Qed.

Lemma core_finish d d' s s' a b r r' :
  same_run a b -> core r = core r' -> core (finish_node d s r a) = core (finish_node d' s' r' b).
Proof.
  intros (En & Er & Ee & Es & Est) C. unfold finish_node. rewrite <- En, <- Er, <- Es.
  assert (record_node (Run.ledger r') (NodeResult.node a) (NodeResult.run b) =
          record_node (Run.ledger r) (NodeResult.node a) (NodeResult.run a)) as ->.
  { apply core_eq in C as (_ & -> & _). unfold record_node. by rewrite Er, Ee, Est. }
  set (n := NodeResult.node a). set (res := NodeRun.result (NodeResult.run a)).
  set (l := record_node _ _ _).
  set (x := handle_live_session d _ _ _ _). set (y := handle_live_session d' _ _ _ _).
  assert (core x = core y) as (E1 & E2 & E3 & E4 & E5)%core_eq.
  { unfold x, y. rewrite !core_session. apply core_debit. unfold core. cbn.
    by apply core_eq in C as (-> & _ & -> & -> & ->). }
  destruct (NodeRun.slot _); unfold core; cbn; by rewrite E1, E2, E3, E4, E5.
Qed.

Lemma core_finishes d d' s s' l l' : Forall2 same_run l l' -> forall r r',
  core r = core r' -> core (foldl (finish_node d s) r l) = core (foldl (finish_node d' s') r' l').
Proof.
  induction 1 as [|a b l l' S _ IH]; intros r r' C; [done|]. cbn [foldl].
  by apply IH, core_finish.
Qed.

Lemma core_refused es : forall r r', core r = core r' ->
  core (foldl record_refused r es) = core (foldl record_refused r' es).
Proof.
  induction es as [|[n e] es IH]; intros r r' C; [done|]. cbn [foldl]. apply IH.
  apply core_eq in C as (E1 & E2 & E3 & E4 & E5). unfold core. cbn. by rewrite E1, E2, E3, E4, E5.
Qed.

Lemma core_lost adm l l' r r' : Forall2 same_run l l' -> core r = core r' ->
  core (drop_lost_slots adm l r) = core (drop_lost_slots adm l' r').
Proof.
  intros F (E1 & E2 & E3 & E4 & E5)%core_eq.
  assert (run_slots l = run_slots l') as S.
  { unfold run_slots. induction F as [|a b l l' (_ & _ & _ & S & _) _ IH]; [done|].
    cbn [List.filter]. rewrite S. destruct (NodeRun.slot (NodeResult.run b)); cbn [length]; by rewrite IH. }
  unfold run_slots in S. unfold drop_lost_slots, core. cbn. by rewrite E1, E2, E3, E4, E5, S.
Qed.

Lemma core_actions acts : forall starts em r r', core r = core r' ->
  match apply_actions acts starts em r, apply_actions acts starts em r' with
  | inl (o, x), inl (o', x') => o' = o /\ core x = core x'
  | inr (st, em, x), inr (st', em', x') => st' = st /\ em' = em /\ core x = core x'
  | _, _ => False
  end.
Proof.
  induction acts as [|a acts IH]; intros starts em r r' C; [done|].
  destruct a; cbn [apply_actions]; try by apply IH. done.
Qed.

(** * A wave of a run that nothing outside cancels *)

Section wave.
Context (d : Driver.t) (def : WorkflowDef.t) (X : forall k, d.(Driver.external) k = false).

Lemma fan_out_uncancelled {I R} c (work : I -> option R) oc op fuel : forall l rs (r : Run.t),
  Run.cancelled r = false -> length l < fuel ->
  let '(out, r') := fan_out_loop c (is_cancelled d) work oc op fuel l rs r in
  out = rs ++ map (ran work op) l /\ core r' = core r.
Proof.
  induction fuel as [|fuel IH]; intros l rs r C L; [lia|]. cbn [fan_out_loop].
  set (cap := Nat.max c 1). destruct (take cap l) as [|x w] eqn:W.
  - destruct l; [by rewrite app_nil_r|]. unfold cap in W. by destruct c.
  - unfold is_cancelled at 1. rewrite X, C. cbn [orb].
    assert (0 < length l) by (destruct l; [by rewrite take_nil in W|cbn; lia]).
    set (r1 := Run.Mk _ _ _ _ _ _ _).
    specialize (IH (drop cap l) (rs ++ map (fun item => default op (work item)) (x :: w)) r1).
    destruct (fan_out_loop _ _ _ _ _ fuel _ _ _) as [out r'].
    destruct IH as [-> ->]; [done|rewrite length_drop; unfold cap; lia|]. split.
    + rewrite <- W, <- app_assoc. f_equal.
      change (map (fun item => default op (work item)) (take cap l))
        with (map (ran work op) (take cap l)).
      by rewrite <- map_app, take_drop.
    + unfold core, r1. cbn. by rewrite C.
Qed.

(** What the node [a] of a wave dispatched from [r] returns. *)
Definition wave_node (r : Run.t) (g : u64) (a : admitted) : NodeResult.t :=
  ran (fun '(node, step_index, slot) => NodeResult.Mk node <$> run_node d def r node step_index slot g)
    (NodeResult.Mk NodeId.single (NodeRun.failed "worker thread panicked")) a.

Definition wave_generation (adm : list admitted) : u64 :=
  match adm with [] => wrap 64 0 | (first, _, _) :: _ => pin_wave_generation d def first end.

(** The run with a wave's nodes marked, and its slots and refusals settled. *)
Definition settle (starts : list (NodeId.t * nat)) (r : Run.t)
  : Run.t * list admitted * list (NodeId.t * SpawnRefusal.t) :=
  let '(sem, adm, ref) := partition_by_budget d (Run.semaphore r) starts in
  let marked := foldl FlowState.mark_dispatched r.(Run.state) (map fst starts) in
  (foldl record_refused (Run.with_semaphore (Run.with_state r marked) sem) ref, adm, ref).

Lemma refused_cancelled es : forall r, Run.cancelled (foldl record_refused r es) = Run.cancelled r.
Proof. induction es as [|[n e] es IH]; intros r; [done|]. cbn [foldl]. by rewrite IH. Qed.

Lemma same_run_refl l : Forall2 same_run l l.
Proof. induction l; constructor; [by repeat split|done]. Qed.

Lemma dispatch_wave_core starts r : Run.cancelled r = false ->
  let '(r0, adm, ref) := settle starts r in
  let rs := map (wave_node r0 (wave_generation adm)) adm in
  core (dispatch_wave d def starts r) =
  core (foldl (finish_node d false) (drop_lost_slots adm rs r0) rs).
Proof.
  intros C. unfold dispatch_wave, settle. cbn [Run.semaphore Run.with_state].
  destruct (partition_by_budget d (Run.semaphore r) starts) as [[sem adm] ref].
  pose proof (refused_cancelled ref (Run.with_semaphore (Run.with_state r
    (foldl FlowState.mark_dispatched (Run.state r) (map fst starts))) sem)) as C0.
  set (r0 := foldl record_refused _ ref) in *. cbn in C0. rewrite C in C0.
  destruct adm as [|[[first i0] s0] adm0] eqn:A; [by apply core_eq|]. rewrite <- A.
  unfold bounded_fan_out.
  pose proof (fan_out_uncancelled (Driver.concurrency d)
    (fun '(node, step_index, slot) => NodeResult.Mk node <$> run_node d def r0 node step_index slot
       (pin_wave_generation d def first))
    (fun '(node, _, _) => NodeResult.Mk node NodeRun.cancelled)
    (NodeResult.Mk NodeId.single (NodeRun.failed "worker thread panicked"))
    (S (length adm)) adm [] r0 C0 (Nat.lt_succ_diag_r _)) as F.
  destruct (fan_out_loop _ _ _ _ _ _ _ _ _) as [out r1]. destruct F as [-> E].
  replace (wave_generation adm) with (pin_wave_generation d def first) by by rewrite A.
  cbn [app]. apply core_finishes; [apply same_run_refl|].
  by apply core_lost; [apply same_run_refl|].
Qed.

(** What a wave adds to the tape, node by node. *)
Lemma dispatch_wave_payloads starts r n : Run.cancelled r = false ->
  let '(r0, adm, ref) := settle starts r in
  payloads n (dispatch_wave d def starts r).(Run.ledger) =
  payloads n r.(Run.ledger) ++ pick n (fun e => [LedgerPayload.Result (refused_result e)]) ref ++
  pick n run_payloads (map node_run (map (wave_node r0 (wave_generation adm)) adm)).
Proof.
  intros C. pose proof (dispatch_wave_core starts r C) as E. unfold settle in *.
  destruct (partition_by_budget d (Run.semaphore r) starts) as [[sem adm] ref].
  apply core_eq in E as (_ & -> & _). rewrite finish_nodes_ledger, payloads_record_nodes.
  cbn [drop_lost_slots Run.with_semaphore Run.ledger]. by rewrite payloads_refused, <- app_assoc.
Qed.
End wave.

(** * Lockstep *)

Lemma Forall2_map_each {A B} (R : B -> B -> Prop) (f g : A -> B) l :
  (forall a, a ∈ l -> R (f a) (g a)) -> Forall2 R (map f l) (map g l).
Proof.
  induction l as [|a l IH]; intros H; [constructor|].
  constructor; [apply H; constructor|]. apply IH. intros b I. apply H. by constructor.
Qed.

Section lockstep.
Context (d : Driver.t) (def : WorkflowDef.t) (T : WorkerLedger.t)
  (X : forall k, d.(Driver.external) k = false) (N : no_panic d)
  (Rs : forall n ref, exists w, d.(Driver.resolver) n ref = inl w)
  (A : addressable def.(WorkflowDef.strategy)).

(** The replay's driver, over the final tape [T] of the run it replays. *)
Let d' : Driver.t := replay_driver T (fun _ => false) d.(Driver.fleet).

Lemma prompt_core r r' st n i au : core r = core r' ->
  WorkerTask.prompt (build_task def r st n i au) = WorkerTask.prompt (build_task def r' st n i au).
Proof. intros (_ & E & _)%core_eq. unfold build_task. cbn. by rewrite E. Qed.

Lemma run_node_started r n i slot g run : n ∈ flow_nodes def ->
  run_node d def r n i slot g = Some run -> exists p, NodeRun.start run = Some (p, g).
Proof.
  intros I. destruct (step_for_node_correct def n A I) as (st & S & _). unfold run_node. rewrite S.
  destruct (Rs n (Step.worker st)) as [w ->]. cbn.
  destruct (w _ _) as [[evs [res|[]]]|]; intros [= <-]; by eexists.
Qed.

Lemma replay_node r r' n i slot g run : n ∈ flow_nodes def -> core r = core r' ->
  run_node d def r n i slot g = Some run -> payloads n T = run_payloads run ->
  exists run', run_node d' def r' n i slot g = Some run' /\
    same_run (NodeResult.Mk n run) (NodeResult.Mk n run').
Proof.
  intros I C R P. destruct (step_for_node_correct def n A I) as (st & S & _).
  unfold run_node in *. rewrite S in *. destruct (Rs n (Step.worker st)) as [w W]. rewrite W in R.
  cbn [d' replay_driver Driver.resolver ReplayResolver].
  rewrite (replay_start_run T _ run) by exact P.
  exists (NodeRun.Mk (NodeRun.result run) (NodeRun.events run) true slot
    (Some (WorkerTask.prompt (build_task def r st n i (effective_autonomy def n)), g))).
  split; [by rewrite (prompt_core r r')|].
  destruct (w _ _) as [[evs [res|[]]]|]; try discriminate R; injection R as <-; by repeat split.
Qed.

Lemma wave_node_run r g a : exists run,
  run_node d def r (admitted_node a) a.1.2 a.2 g = Some run /\
  wave_node d def r g a = NodeResult.Mk (admitted_node a) run.
Proof.
  destruct a as [[n i] s]. destruct (run_node_some d def N r n i s g) as [run E].
  exists run. split; [done|]. unfold wave_node, ran. cbn. by rewrite E.
Qed.

Lemma wave_nodes r g adm :
  map fst (map node_run (map (wave_node d def r g) adm)) = map admitted_node adm.
Proof.
  rewrite !map_map. apply map_ext. intros a. by destruct (wave_node_run r g a) as (run & _ & ->).
Qed.

(** After a wave from a tape without its nodes, each node it ran has the entries of its run. *)
Lemma wave_payloads starts r a : Run.cancelled r = false -> NoDup (map fst starts) ->
  (forall n, n ∈ map fst starts -> payloads n r.(Run.ledger) = []) ->
  let '(r0, adm, ref) := settle d starts r in
  a ∈ adm -> exists run,
    run_node d def r0 (admitted_node a) a.1.2 a.2 (wave_generation d def adm) = Some run /\
    payloads (admitted_node a) (dispatch_wave d def starts r).(Run.ledger) = run_payloads run.
Proof.
  intros C U F. pose proof (fun n => dispatch_wave_payloads d def X starts r n C) as P.
  pose proof (partition_nodes d (Run.semaphore r) starts) as Q. unfold settle in *.
  destruct (partition_by_budget d (Run.semaphore r) starts) as [[sem adm] ref].
  set (r0 := foldl record_refused _ ref) in *. set (g := wave_generation d def adm) in *.
  intros I. destruct (wave_node_run r0 g a) as (run & R & W). exists run. split; [done|].
  rewrite <- Q in U. apply NoDup_app in U as (U1 & D & _).
  assert (admitted_node a ∈ map admitted_node adm) as Ia by by apply list_elem_of_fmap_2.
  rewrite P, F, pick_fresh; cbn [app].
  - apply pick_in; [by rewrite wave_nodes|].
    rewrite map_map. apply list_elem_of_fmap. exists a. by rewrite W.
  - by apply D.
  - rewrite <- Q. apply elem_of_app. by left.
Qed.

Lemma wave_replay starts r r' : core r = core r' -> Run.cancelled r = false ->
  NoDup (map fst starts) -> Forall (fun n => n ∈ flow_nodes def) (map fst starts) ->
  (forall n, n ∈ map fst starts -> payloads n r.(Run.ledger) = []) ->
  (forall n, n ∈ map fst starts ->
     payloads n T = payloads n (dispatch_wave d def starts r).(Run.ledger)) ->
  core (dispatch_wave d def starts r) = core (dispatch_wave d' def starts r').
Proof.
  intros E C U K F FT. assert (Run.cancelled r' = false) as C'
    by by apply core_eq in E as (_ & _ & _ & _ & <-).
  rewrite Forall_forall in K.
  pose proof (dispatch_wave_core d def X starts r C) as W.
  pose proof (dispatch_wave_core d' def (fun _ => eq_refl) starts r' C') as W'.
  pose proof (fun a => wave_payloads starts r a C U F) as P.
  pose proof (partition_nodes d (Run.semaphore r) starts) as Q. unfold settle in *.
  assert (partition_by_budget d' (Run.semaphore r') starts =
          partition_by_budget d (Run.semaphore r) starts) as Pe
    by by apply core_eq in E as (_ & _ & _ & <- & _).
  rewrite Pe in W'.
  destruct (partition_by_budget d (Run.semaphore r) starts) as [[sem adm] ref].
  set (r0 := foldl record_refused _ ref) in *.
  set (r0' := foldl record_refused (Run.with_semaphore (Run.with_state r' _) _) ref) in *.
  assert (core r0 = core r0') as E0.
  { apply core_refused. apply core_eq in E as (E1 & E2 & E3 & E4 & E5).
    unfold core. cbn. by rewrite E1, E2, E3, E5. }
  assert (forall a, a ∈ adm -> admitted_node a ∈ map fst starts) as I.
  { intros a Ia. rewrite <- Q. apply elem_of_app. left. by apply list_elem_of_fmap_2. }
  assert (wave_generation d' def adm = wave_generation d def adm) as G.
  { destruct adm as [|[[first i0] s0] adm']; [done|].
    assert ((first, i0, s0) ∈ (first, i0, s0) :: adm') as If by constructor.
    destruct (P _ If) as (run & R & Pr). pose proof (I _ If) as Ist. cbn in R, Pr, Ist.
    destruct (run_node_started _ _ _ _ _ _ (K _ Ist) R) as [p St].
    cbn. unfold pin_wave_generation at 1. cbn. unfold replay_generation_provider.
    rewrite (generation_run T first run p _ ltac:(by rewrite FT) St). done. }
  rewrite W, W', G. set (g := wave_generation d def adm) in *.
  assert (Forall2 same_run (map (wave_node d def r0 g) adm) (map (wave_node d' def r0' g) adm)) as S.
  { apply Forall2_map_each. intros a Ia. destruct (P a Ia) as (run & R & Pr).
    pose proof (I a Ia) as Ist.
    destruct (replay_node r0 r0' (admitted_node a) a.1.2 a.2 g run) as (run' & R' & S);
      [by apply K|done|done|by rewrite FT|].
    destruct a as [[n i] s]. unfold wave_node, ran. cbn in *. by rewrite R, R'. }
  apply core_finishes; [done|]. by apply core_lost.
Qed.

(** ** The loop *)

Lemma wave_other starts r n : Run.cancelled r = false -> n ∉ map fst starts ->
  payloads n (dispatch_wave d def starts r).(Run.ledger) = payloads n r.(Run.ledger).
Proof.
  intros C F. pose proof (dispatch_wave_payloads d def X starts r n C) as P.
  pose proof (partition_nodes d (Run.semaphore r) starts) as Q. unfold settle in *.
  destruct (partition_by_budget d (Run.semaphore r) starts) as [[sem adm] ref].
  rewrite <- Q, not_elem_of_app in F. destruct F as [F1 F2].
  rewrite P, (pick_fresh _ _ ref F2), pick_fresh, !app_nil_r; [done|]. by rewrite wave_nodes.
Qed.

(** A node that has not started is not on the tape. *)
Definition tape_ok (r : Run.t) : Prop :=
  forall n, FlowState.is_dispatched r.(Run.state) n = false -> payloads n r.(Run.ledger) = [].

Definition loop_inv (r : Run.t) : Prop :=
  closed r.(Run.state) /\ known def r.(Run.state) /\ tape_ok r.

Lemma undispatched_iff s n : FlowState.is_dispatched s n = false <-> n ∉ s.(FlowState.dispatched).
Proof. rewrite <- is_dispatched_true. by destruct (FlowState.is_dispatched s n). Qed.

Lemma loop_inv_core r r' : core r = core r' -> loop_inv r -> loop_inv r'.
Proof. unfold loop_inv, tape_ok. by intros (<- & <- & _)%core_eq. Qed.

Lemma loop_inv_wave starts r : loop_inv r -> Run.cancelled r = false ->
  Forall (fun n => n ∈ flow_nodes def /\ FlowState.is_dispatched (Run.state r) n = false)
    (map fst starts) ->
  loop_inv (dispatch_wave d def starts r) /\
  (dispatch_wave d def starts r).(Run.state).(FlowState.dispatched) =
    list_to_set (map fst starts) ∪ r.(Run.state).(FlowState.dispatched).
Proof.
  intros (Cl & K & O) C F.
  destruct (dispatch_wave_closed d def N starts r Cl K) as (Cl' & K' & D').
  { eapply Forall_impl; [exact F|]. by intros ? []. }
  split; [|done]. split_and!; [done..|]. intros n. rewrite undispatched_iff, D'. intros U.
  rewrite wave_other by (done || set_solver). apply O, undispatched_iff. set_solver.
Qed.

(** Nothing is ever added to the tape of a node that has started. *)
Lemma run_loop_tape fuel n : forall emitted r, loop_inv r ->
  FlowState.is_dispatched r.(Run.state) n = true ->
  payloads n (run_loop d def fuel emitted r).2.(Run.ledger) = payloads n r.(Run.ledger).
Proof.
  induction fuel as [|fuel IH]; intros emitted r I D; [done|]. cbn [run_loop].
  unfold is_cancelled. rewrite X, orb_false_r. set (r1 := Run.Mk _ _ _ _ _ _ _).
  assert (core r1 = core r) as E1 by done.
  destruct (Run.cancelled r) eqn:C; [done|].
  change (payloads n (Run.ledger r)) with (payloads n (Run.ledger r1)).
  change (FlowState.is_dispatched (Run.state r1) n = true) in D.
  apply (loop_inv_core r r1) in I; [|done].
  assert (Run.cancelled r1 = false) as C1 by done. clearbody r1. clear E1 C r.
  destruct (step_batch def r1 emitted (proj1 I)) as [B NE].
  destruct (step (Run.state r1) def) as [|a l] eqn:St; [done|]. rewrite <- St in *.
  destruct B as [starts r2 -> H1 H2 H3 H4 H5 _ Ns U F|r2 -> H1 H2 H3 H5].
  - destruct starts as [|s starts]; [done|].
    assert (core r1 = core r2) as E2 by by apply core_eq.
    apply (loop_inv_core r1 r2) in I; [|done]. rewrite <- H1 in D, F. rewrite <- H2.
    assert (Run.cancelled r2 = false) as C2 by by rewrite H5.
    destruct (loop_inv_wave (s :: starts) r2 I C2 F) as [I' D']. rewrite IH; [|done|].
    + apply wave_other; [done|]. intros J. rewrite Forall_forall in F. by destruct (F n J); congruence.
    + rewrite is_dispatched_true, D'. apply is_dispatched_true in D. set_solver.
  - cbn. by rewrite H2.
Qed.

Lemma run_loop_replay fuel : forall emitted r r', loop_inv r -> core r = core r' ->
  T = (run_loop d def fuel emitted r).2.(Run.ledger) ->
  (run_loop d' def fuel emitted r').1 = (run_loop d def fuel emitted r).1 /\
  core (run_loop d' def fuel emitted r').2 = core (run_loop d def fuel emitted r).2.
Proof.
  induction fuel as [|fuel IH]; intros emitted r r' I E HT; [done|]. cbn [run_loop] in *.
  unfold is_cancelled in *. cbn [d' replay_driver Driver.external]. rewrite X in *.
  rewrite !orb_false_r in *. set (r1 := Run.Mk (Run.state r) _ _ _ _ _ _) in *.
  set (r1' := Run.Mk (Run.state r') _ _ _ _ _ _) in *.
  assert (core r1 = core r1') as E1 by exact E.
  replace (Run.cancelled r') with (Run.cancelled r) by by apply core_eq in E as (_ & _ & _ & _ & ->).
  apply (loop_inv_core r r1) in I; [|done].
  destruct (Run.cancelled r) eqn:C; [done|]. assert (Run.cancelled r1 = false) as C1 by done.
  clearbody r1 r1'. clear E C r r'.
  replace (Run.state r1') with (Run.state r1) by by apply core_eq in E1 as [? _].
  destruct (step_batch def r1 emitted (proj1 I)) as [B NE].
  pose proof (core_actions (step (Run.state r1) def) [] emitted r1 r1' E1) as Ac.
  destruct (step (Run.state r1) def) as [|a l] eqn:St; [done|]. rewrite <- St in *.
  destruct B as [starts r2 Eq H1 H2 H3 H4 H5 _ Ns U F|r2 Eq H1 H2 H3 H5]; rewrite Eq in *.
  - destruct (apply_actions _ [] emitted r1') as [[o x]|[[st em] r2']]; [done|].
    destruct Ac as (-> & -> & E2). destruct starts as [|s starts]; [done|].
    assert (core r1 = core r2) as E3 by by apply core_eq.
    apply (loop_inv_core r1 r2) in I; [|done]. rewrite <- H1 in F.
    assert (Run.cancelled r2 = false) as C2 by by rewrite H5.
    destruct (loop_inv_wave (s :: starts) r2 I C2 F) as [I' D'].
    apply IH; [done| |done]. rewrite Forall_forall in F. apply wave_replay; try done.
    + apply Forall_forall. intros n J. apply (F n J).
    + intros n J. apply I. apply (F n J).
    + intros n J. rewrite HT. apply run_loop_tape; [done|].
      rewrite is_dispatched_true, D'. set_solver.
  - destruct (apply_actions _ [] emitted r1') as [[o x]|[[st em] r2']]; [|done].
    by destruct Ac as [-> E2].
Qed.
End lockstep.

(** C4: replay is the identity on complete runs: a flow run under the envelope of its
    definition, in which every worker resolves, none panics and nothing outside cancels it,
    replays (from its tape alone, with no worker called) to the same outcome, the same tape
    entry for entry (each node's prompt, pinned generation, events and result), the same
    refusals and the same budget, whatever the workers answered and however waves were
    chunked; and a run without a budget is rebuilt entirely by [replay_to_boundary]. *)
Theorem replay_identical d def
    (X : forall k, d.(Driver.external) k = false) (N : no_panic d)
    (Rs : forall n ref, exists w, d.(Driver.resolver) n ref = inl w)
    (A : addressable def.(WorkflowDef.strategy)) :
  let env := flow_envelope def in
  (d.(Driver.fleet) = Some env.2.1 ->
   let '(o, r) := run d def (Some env.1) env.2.2 in
   let '(o', r') := run_flow_replay def r.(Run.ledger) (fun _ => false) in
   o' = o /\ core r' = core r) /\
  (d.(Driver.fleet) = None ->
   let '(_, r) := run d def None (WorkerSemaphore.new None) in
   replay_to_boundary def r.(Run.ledger) = r.(Run.ledger)).
Proof.
  assert (forall budget sem,
    let '(o, r) := run d def budget sem in
    let '(o', r') := run (replay_driver r.(Run.ledger) (fun _ => false) d.(Driver.fleet)) def budget sem in
    o' = o /\ core r' = core r) as G.
  { intros budget sem. unfold run. set (r0 := start_run budget sem).
    assert (loop_inv def r0) as I.
    { split_and!; [intros n J%is_dispatched_true; set_solver|unfold known; cbn; set_solver|done]. }
    pose proof (run_loop_replay d def (run_loop d def MAX_STEPS None r0).2.(Run.ledger) X N Rs A
      MAX_STEPS None r0 r0 I eq_refl eq_refl) as L.
    destruct (run_loop d def MAX_STEPS None r0) as [o r].
    replace (Run.ledger (if Driver.steer d then _ else _)) with (Run.ledger r)
      by by destruct (Driver.steer d).
    cbn [fst snd] in L.
    destruct (run_loop (replay_driver _ _ _) def MAX_STEPS None r0) as [o' r'].
    destruct L as [L1 L2]. cbn in L1, L2. subst o'. split; [done|].
    change (core r' = core (if Driver.steer d then Run.emit r Effect.RegistryClosed else r)).
    rewrite L2. by destruct (Driver.steer d). }
  cbv zeta. split; intros F.
  - specialize (G (Some (flow_envelope def).1) (flow_envelope def).2.2).
    rewrite F in G. exact G.
  - specialize (G None (WorkerSemaphore.new None)). rewrite F in G.
    destruct (run d def None _) as [o r]. unfold replay_to_boundary.
    destruct (run (replay_driver _ _ _) def None _) as [o' r'].
    destruct G as [_ G]. apply core_eq in G as (_ & G & _). exact G.
Qed.

(** A job's driver: a live generation, steering, its own concurrency. *)
Definition job_driver (w : worker) (def : WorkflowDef.t) : Driver.t :=
  Driver.Mk (fun _ _ => inl w) (Some (fun _ n => wrap 64 (if String.eqb n "branch-0" then 7 else 9)))
    (fun _ => false) 1 true "flow-1" (Some (flow_envelope def).2.1).

Lemma replay_identical_witness :
  let env := flow_envelope race in
  let d := job_driver echo race in
  (let '(o, r) := run d race (Some env.1) env.2.2 in
   o.(FlowOutcome.ok) = true /\
   WorkerLedger.node_generations r.(Run.ledger) !! "branch-1" = Some (wrap 64 7) /\
   length r.(Run.ledger).(WorkerLedger.entries) = 6) /\
  (let '(o, r) := run d race (Some env.1) env.2.2 in
   let '(o', r') := run_flow_replay race r.(Run.ledger) (fun _ => false) in
   o' = o /\ core r' = core r).
Proof.
  split; [vm_compute; by split_and!|].
  refine (proj1 (replay_identical (job_driver echo race) race (fun _ => eq_refl) _ _ _) eq_refl).
  - intros node ref w task ctx [= <-]. done.
  - intros n ref. by exists echo.
  - by vm_compute.
Defined.

(** * Where replay is not the identity *)

(** A node whose reference does not resolve leaves a result and no start; its replay starts,
    under generation 0, which becomes its whole wave's: the tape that comes back is longer,
    and its other entries changed. *)
Theorem replay_unresolved :
  let broken : NodeId.t -> WorkerRef.t -> worker + WorkerError.t := fun n _ =>
    if String.eqb n "branch-0" then inr (WorkerError.Start "no such worker") else inl echo in
  let d := Driver.Mk broken (Some (fun _ _ => wrap 64 7)) (fun _ => false) 4 false "" None in
  let recorded := (run d race None (WorkerSemaphore.new None)).2.(Run.ledger) in
  let replayed := replay_to_boundary race recorded in
  length (WorkerLedger.entries recorded) = 4 /\ length (WorkerLedger.entries replayed) = 5 /\
  WorkerLedger.node_generations recorded !! "branch-1" = Some (wrap 64 7) /\
  WorkerLedger.node_generations replayed !! "branch-1" = Some (wrap 64 0).
Proof. vm_compute. by split_and!. Qed.

(** The tape of a steered turn ([SteerRegistry::steer]): its events and its result, under the
    live node. *)
Definition record_steered (l : WorkerLedger.t) (node : NodeId.t) (events : list WorkerEvent.t)
    (result : TurnResult.t) : WorkerLedger.t :=
  WorkerLedger.record_result
    (foldl (fun l event => WorkerLedger.record_event l node event) l events) node result.

(** A replay collapses a node's turns into one, with the last result: after a steered turn the
    tape that comes back lacks the first result, and the outcome is another. *)
Theorem replay_steered :
  let def := sample_def (Strategy.Single sample_step) in
  let '(o, r) := run (sample_driver echo) def None (WorkerSemaphore.new None) in
  let tape := record_steered r.(Run.ledger) NodeId.single [WorkerEvent.Progress "more"]
                (sample_result true "steered") in
  let '(o', r') := run (replay_driver tape (fun _ => false) None) def None (WorkerSemaphore.new None) in
  o.(FlowOutcome.results) = [sample_result true "node-0: do it"] /\
  o'.(FlowOutcome.results) = [sample_result true "steered"] /\
  length (WorkerLedger.entries tape) = 5 /\
  length (WorkerLedger.entries r'.(Run.ledger)) = 4.
Proof. vm_compute. by split_and!. Qed.
