(* ===== verification/FlowSafety.v ===== *)
(** Static checks before a flow starts ([nerve-workstation/src/flow/safety.rs],
    [flow/workflow_registry.rs]) and the registries they consult ([worker/registry.rs],
    [discovery.rs]): structure, fork loops, named workers, and cycles of named workflows. *)
From S2P Require Import Prelude Text FlowDefs Tape.

(** * Discovery *)

Module CapabilitySource.
Inductive t := Project | Global | BuiltIn | Inline.
End CapabilitySource.

Definition name_char (c : ascii) : bool :=
  let n := Ascii.nat_of_ascii c in
  (48 <=? n) && (n <=? 57) || (65 <=? n) && (n <=? 90) || (97 <=? n) && (n <=? 122) ||
  (n =? 45) || (n =? 95).

Definition validate_name (name : string) : unit + string :=
  if negb (String.eqb name EmptyString) && forallb name_char (String.list_ascii_of_string name)
  then inl tt
  else inr ("invalid capability name '" +:+ name +:+ "': use only letters, digits, '-' and '_'").

(** The files of one kind under each base, by name: absent, or what reading and parsing one
    gives. *)
Definition bases (T : Type) := list (CapabilitySource.t * (string -> option (T + string))).

Fixpoint first_file {T} (b : bases T) (name : string) : option (CapabilitySource.t * (T + string)) :=
  match b with
  | [] => None
  | (source, file) :: b =>
      match file name with Some value => Some (source, value) | None => first_file b name end
  end.

Definition load_json {T} (b : bases T) (kind name : string) (builtins : list (string * (T + string)))
  : (T * CapabilitySource.t) + string :=
  match validate_name name with
  | inr e => inr e
  | inl _ =>
      match first_file b name with
      | Some (source, inl value) => inl (value, source)
      | Some (_, inr e) => inr e
      | None =>
          match find (fun '(entry, _) => String.eqb entry name) builtins with
          | Some (_, inl value) => inl (value, CapabilitySource.BuiltIn)
          | Some (_, inr e) => inr e
          | None => inr ("unknown " +:+ kind +:+ " '" +:+ name +:+ "': not found in project (.nerve/" +:+
                         kind +:+ "), global, or built-ins")
          end
      end
  end.

(** * Registries *)

Module WorkerDefKind.
Inductive t :=
  | Cli (name : string)
  | Provider (provider model : string)
  | Remote (endpoint : string)
  | Mcp (server : string).
End WorkerDefKind.

Module WorkerDef.
Record t := Mk {
  kind : WorkerDefKind.t;
  autonomy : option DelegateAutonomy.t;
  tool_filter : option (list string);
  model : option string;
}.
End WorkerDef.

Definition BUILTIN_WORKERS : list (string * (WorkerDef.t + string)) :=
  [("codex", inl (WorkerDef.Mk (WorkerDefKind.Cli "codex") None None None));
   ("claude", inl (WorkerDef.Mk (WorkerDefKind.Cli "claude") None None None))].

Module ResolvedWorker.
Record t := Mk { def : WorkerDef.t; source : CapabilitySource.t; name : string }.

Definition inline (worker_ref : WorkerRef.t) : t :=
  let '(kind, name) :=
    match worker_ref with
    | WorkerRef.Cli name => (WorkerDefKind.Cli name, name)
    | WorkerRef.Provider provider model => (WorkerDefKind.Provider provider model, provider)
    | WorkerRef.Named name => (WorkerDefKind.Cli name, name)
    end in
  Mk (WorkerDef.Mk kind None None None) CapabilitySource.Inline name.
End ResolvedWorker.

Definition load_def (workers : bases WorkerDef.t) (name : string)
  : (WorkerDef.t * CapabilitySource.t) + WorkerError.t :=
  match load_json workers "workers" name BUILTIN_WORKERS with
  | inl found => inl found
  | inr err => inr (WorkerError.Start err)
  end.

Definition resolve_named (workers : bases WorkerDef.t) (name : string)
  : ResolvedWorker.t + WorkerError.t :=
  match load_def workers name with
  | inl (def, source) => inl (ResolvedWorker.Mk def source name)
  | inr err => inr err
  end.

Definition resolve (workers : bases WorkerDef.t) (worker_ref : WorkerRef.t)
  : ResolvedWorker.t + WorkerError.t :=
  match worker_ref with
  | WorkerRef.Cli name => inl (ResolvedWorker.inline (WorkerRef.Cli name))
  | WorkerRef.Provider provider model =>
      inl (ResolvedWorker.inline (WorkerRef.Provider provider model))
  | WorkerRef.Named name => resolve_named workers name
  end.

Definition BUILTIN_WORKFLOWS : list (string * (WorkflowDef.t + string)) := [].

(** [WorkflowRegistry]. *)
Definition resolve_workflow (workflows : bases WorkflowDef.t) (workflow_ref : string)
  : WorkflowDef.t + string :=
  match load_json workflows "workflows" workflow_ref BUILTIN_WORKFLOWS with
  | inl (def, _) => inl def
  | inr e => inr e
  end.

Definition has_definition (workflows : bases WorkflowDef.t) (workflow_ref : string)
  : bool + string :=
  match validate_name workflow_ref with
  | inr e => inr e
  | inl _ =>
      inl (existsb (fun '(_, file) => match file workflow_ref with Some _ => true | None => false end)
             workflows ||
           existsb (fun '(name, _) => String.eqb name workflow_ref) BUILTIN_WORKFLOWS)
  end.

Definition resolve_if_present (workflows : bases WorkflowDef.t) (workflow_ref : string)
  : option WorkflowDef.t + string :=
  match has_definition workflows workflow_ref with
  | inr e => inr e
  | inl false => inl None
  | inl true =>
      match resolve_workflow workflows workflow_ref with
      | inl def => inl (Some def)
      | inr e => inr e
      end
  end.

(** * Named references *)

Definition steps_of (strategy : Strategy.t) : list Step.t :=
  match strategy with
  | Strategy.Single step => [step]
  | Strategy.Parallel branches _ => branches
  | Strategy.Pipeline stages => stages
  | Strategy.VoteJudge candidates judge _ => candidates ++ [judge]
  | Strategy.MapReduce map _ reduce => [map; reduce]
  | Strategy.Debate sides _ judge => sides ++ [judge]
  | Strategy.Hierarchical planner _ => [planner]
  end.

Definition named_of (step : Step.t) : option string :=
  match step.(Step.worker) with WorkerRef.Named name => Some name | _ => None end.

Fixpoint collect_named (strategy : Strategy.t) : list string :=
  omap named_of (steps_of strategy) ++
  match strategy with Strategy.Hierarchical _ child => collect_named child | _ => [] end.

Definition reachable_named_workers (def : WorkflowDef.t) : list string :=
  collect_named def.(WorkflowDef.strategy).

(** * The checks *)

Module WorkflowError.
Inductive t :=
  | ZeroDepthHierarchy
  | NamedWorkerUnresolvable (name reason : string)
  | PlannerForkLoop (depth : u32)
  | NamedWorkflowInvalid (name reason : string)
  | ReferenceCycle (cycle : list string).
End WorkflowError.

Module InstructionTrail.
Record t := Mk { hashes : list u64 }.
Definition new : t := Mk [].
End InstructionTrail.

Section safety.
(** [DefaultHasher], whose algorithm is unspecified, on an instruction. *)
Context (hash_instruction : string -> u64).

Definition repeats (trail : InstructionTrail.t) (instruction : string) : bool :=
  bool_decide (hash_instruction instruction ∈ trail.(InstructionTrail.hashes)).

Definition extend (trail : InstructionTrail.t) (instruction : string) : InstructionTrail.t :=
  InstructionTrail.Mk (trail.(InstructionTrail.hashes) ++ [hash_instruction instruction]).

Fixpoint validate_strategy (strategy : Strategy.t) (trail : InstructionTrail.t) (depth : u32)
  : unit + WorkflowError.t :=
  match strategy with
  | Strategy.Hierarchical planner child =>
      let instruction := planner.(Step.task).(TaskTemplate.prompt) in
      if repeats trail instruction then inr (WorkflowError.PlannerForkLoop depth)
      else validate_strategy child (extend trail instruction) (uadd depth (wrap 32 1))
  | _ => inl tt
  end.

Definition is_hierarchical (strategy : Strategy.t) : bool :=
  match strategy with Strategy.Hierarchical _ _ => true | _ => false end.

Definition validate_workflow (def : WorkflowDef.t) : unit + WorkflowError.t :=
  if is_hierarchical def.(WorkflowDef.strategy) && (uval def.(WorkflowDef.max_depth) =? 0)%N
  then inr WorkflowError.ZeroDepthHierarchy
  else validate_strategy def.(WorkflowDef.strategy) InstructionTrail.new (wrap 32 0).

Context (workflows : bases WorkflowDef.t) (workers : bases WorkerDef.t).

Fixpoint resolve_names (names : list string) : unit + WorkflowError.t :=
  match names with
  | [] => inl tt
  | name :: names =>
      match resolve workers (WorkerRef.Named name) with
      | inr err => inr (WorkflowError.NamedWorkerUnresolvable name (WorkerError.display err))
      | inl _ => resolve_names names
      end
  end.

Definition resolve_named_workers (def : WorkflowDef.t) : unit + WorkflowError.t :=
  resolve_names (reachable_named_workers def).

(** The search, [None] when the fuel runs out; on success it returns the names seen. *)
Fixpoint detect_reference_cycle (fuel : nat) (def : WorkflowDef.t) (on_stack : list string)
    (seen : gset string) : option (gset string + WorkflowError.t) :=
  match fuel with
  | 0 => None
  | S fuel =>
      (fix each (names : list string) (seen : gset string) : option (gset string + WorkflowError.t) :=
         match names with
         | [] => Some (inl seen)
         | name :: names =>
             match resolve_if_present workflows name with
             | inr reason => Some (inr (WorkflowError.NamedWorkflowInvalid name reason))
             | inl None => each names seen
             | inl (Some child) =>
                 if bool_decide (name ∈ on_stack)
                 then Some (inr (WorkflowError.ReferenceCycle (on_stack ++ [name])))
                 else if bool_decide (name ∈ seen) then each names seen
                 else
                   match validate_workflow child with
                   | inr e => Some (inr e)
                   | inl _ =>
                       match resolve_named_workers child with
                       | inr e => Some (inr e)
                       | inl _ =>
                           match detect_reference_cycle fuel child (on_stack ++ [name])
                                   ({[name]} ∪ seen) with
                           | Some (inl seen) => each names seen
                           | other => other
                           end
                       end
                   end
             end
         end) (reachable_named_workers def) seen
  end.

Definition validate_workflow_refs (fuel : nat) (def : WorkflowDef.t)
  : option (unit + WorkflowError.t) :=
  match validate_workflow def with
  | inr e => Some (inr e)
  | inl _ =>
      match resolve_named_workers def with
      | inr e => Some (inr e)
      | inl _ =>
          match detect_reference_cycle fuel def [def.(WorkflowDef.name)]
                  {[def.(WorkflowDef.name)]} with
          | Some (inl _) => Some (inl tt)
          | Some (inr e) => Some (inr e)
          | None => None
          end
      end
  end.
End safety.

(** * Properties *)

Section properties.
Context (hash : string -> u64).

(** ** Fork loops *)

(** The instructions of the nested planners, outermost first. *)
Fixpoint planner_prompts (s : Strategy.t) : list string :=
  match s with
  | Strategy.Hierarchical planner child =>
      planner.(Step.task).(TaskTemplate.prompt) :: planner_prompts child
  | _ => []
  end.

Lemma validate_strategy_spec s : forall trail depth,
  match validate_strategy hash s trail depth with
  | inl _ => NoDup (map hash (planner_prompts s)) /\
      forall h, h ∈ map hash (planner_prompts s) -> h ∉ trail.(InstructionTrail.hashes)
  | inr e => exists i p, e = WorkflowError.PlannerForkLoop (wrap 32 (uval depth + N.of_nat i)) /\
      planner_prompts s !! i = Some p /\
      hash p ∈ trail.(InstructionTrail.hashes) ++ map hash (take i (planner_prompts s)) /\
      NoDup (map hash (take i (planner_prompts s))) /\
      forall h, h ∈ map hash (take i (planner_prompts s)) -> h ∉ trail.(InstructionTrail.hashes)
  end.
Proof.
  induction s as [| | | | | |planner child IH]; intros trail depth;
    try (split; [constructor|by intros h ?%not_elem_of_nil]).
  cbn [validate_strategy planner_prompts]. set (p := TaskTemplate.prompt _).
  unfold repeats. case_bool_decide as R.
  { exists 0, p. rewrite N.add_0_r, wrap_uval. cbn. rewrite app_nil_r.
    split_and!; [done|done|done|constructor|by intros h ?%not_elem_of_nil]. }
  assert (forall l, (forall h, h ∈ map hash l -> h ∉ InstructionTrail.hashes (extend hash trail p)) ->
    NoDup (map hash l) -> NoDup (map hash (p :: l)) /\
    forall h, h ∈ map hash (p :: l) -> h ∉ InstructionTrail.hashes trail) as G.
  { intros l F U. cbn in F. cbn [map]. split.
    - apply NoDup_cons. split; [|done]. intros I. apply (F _ I). set_solver.
    - intros h. rewrite elem_of_cons. intros [->|I]; [done|]. specialize (F _ I). set_solver. }
  specialize (IH (extend hash trail p) (uadd depth (wrap 32 1))).
  destruct (validate_strategy hash child _ _) as [u|e].
  - destruct IH as [U F]. by apply G.
  - destruct IH as (i & q & -> & L & I & U & F). exists (S i), q. cbn [lookup list_lookup take].
    split; [|split; [done|split; [|by apply G]]].
    + f_equal. apply uint_eq. unfold uadd. rewrite !uval_wrap.
      change (1 mod 2 ^ 32)%N with 1%N. rewrite Nat2N.inj_succ.
      rewrite N.Div0.add_mod_idemp_l. f_equal. lia.
    + cbn in I. rewrite <- app_assoc in I. exact I.
Qed.

(** The structural check is exact: it accepts a workflow when its hierarchy has room for a
    child and no nested planner repeats an ancestor's instruction; otherwise it names the
    first failing level, where the repeated instruction is one with an ancestor's hash. *)
Theorem validate_workflow_spec def :
  let s := def.(WorkflowDef.strategy) in
  let prompts := planner_prompts s in
  let no_room := is_hierarchical s = true /\ uval def.(WorkflowDef.max_depth) = 0%N in
  match validate_workflow hash def with
  | inl _ => ~ no_room /\ NoDup prompts
  | inr WorkflowError.ZeroDepthHierarchy => no_room
  | inr (WorkflowError.PlannerForkLoop depth) =>
      ~ no_room /\
      exists i j p q, j < i /\ depth = wrap 32 (N.of_nat i) /\ prompts !! i = Some p /\
        prompts !! j = Some q /\ hash p = hash q /\ NoDup (take i prompts)
  | inr _ => False
  end.
Proof.
  cbv zeta. unfold validate_workflow. set (s := WorkflowDef.strategy def).
  destruct (is_hierarchical s && _) eqn:Z.
  { apply andb_true_iff in Z as [H Z]. by apply N.eqb_eq in Z. }
  assert (~ (is_hierarchical s = true /\ uval (WorkflowDef.max_depth def) = 0%N)) as R.
  { intros [H E]. rewrite H, E in Z. done. }
  pose proof (validate_strategy_spec s InstructionTrail.new (wrap 32 0)) as S.
  destruct (validate_strategy hash s _ _) as [u|e].
  - split; [done|]. by eapply NoDup_fmap_1, S.
  - destruct S as (i & p & -> & L & I & U & _). split; [done|].
    cbn in I. apply list_elem_of_fmap in I as (q & E & I).
    apply list_elem_of_lookup_1 in I as [j J]. exists i, j, p, q.
    apply lookup_take_Some in J as [J B].
    split_and!; [done|by rewrite uval_wrap_small|done..|]. by eapply NoDup_fmap_1.
Qed.

(** ** Reference cycles *)

Context (workflows : bases WorkflowDef.t) (workers : bases WorkerDef.t) (root : WorkflowDef.t).

(** The named workflow a reference leads to. *)
Definition leads (name : string) (c : WorkflowDef.t) : Prop :=
  resolve_if_present workflows name = inl (Some c).

(** The chains of references from the root: the names along one, the root's first, and the
    workflow it ends at. *)
Inductive walk : list string -> WorkflowDef.t -> Prop :=
  | walk_root : walk [root.(WorkflowDef.name)] root
  | walk_ref p w n c :
      walk p w -> n ∈ reachable_named_workers w -> leads n c -> walk (p ++ [n]) c.

(** What is wrong with the workflow [w] at the end of the chain [p], and its error. *)
Inductive problem (p : list string) (w : WorkflowDef.t) : WorkflowError.t -> Prop :=
  | problem_structure e : validate_workflow hash w = inr e -> problem p w e
  | problem_worker n err :
      n ∈ reachable_named_workers w -> resolve workers (WorkerRef.Named n) = inr err ->
      problem p w (WorkflowError.NamedWorkerUnresolvable n (WorkerError.display err))
  | problem_file n reason :
      n ∈ reachable_named_workers w -> resolve_if_present workflows n = inr reason ->
      problem p w (WorkflowError.NamedWorkflowInvalid n reason)
  | problem_cycle n c :
      n ∈ reachable_named_workers w -> leads n c -> n ∈ p ->
      problem p w (WorkflowError.ReferenceCycle (p ++ [n])).

Lemma resolve_names_spec names :
  match resolve_names workers names with
  | inl _ => forall n err, n ∈ names -> resolve workers (WorkerRef.Named n) <> inr err
  | inr e => exists n err, n ∈ names /\ resolve workers (WorkerRef.Named n) = inr err /\
      e = WorkflowError.NamedWorkerUnresolvable n (WorkerError.display err)
  end.
Proof.
  induction names as [|n names IH]; [by intros n err ?%not_elem_of_nil|]. cbn [resolve_names].
  destruct (resolve workers (WorkerRef.Named n)) as [w|err] eqn:E.
  - destruct (resolve_names workers names).
    + intros m err [->|I]%elem_of_cons; [by rewrite E|by apply IH].
    + destruct IH as (m & err & I & R). exists m, err. split; [by constructor|done].
  - exists n, err. split; [constructor|done].
Qed.

(** A workflow without a problem of its own, apart from cycles. *)
Definition sound (w : WorkflowDef.t) : Prop :=
  (exists u, validate_workflow hash w = inl u) /\
  (forall n err, n ∈ reachable_named_workers w -> resolve workers (WorkerRef.Named n) <> inr err).

Definition readable (w : WorkflowDef.t) : Prop :=
  forall n reason, n ∈ reachable_named_workers w -> resolve_if_present workflows n <> inr reason.

(** A name below which nothing is wrong: being inductive, it rules out cycles. *)
Inductive clear (n : string) : Prop :=
  | clear_intro c :
      n <> root.(WorkflowDef.name) -> leads n c -> sound c -> readable c ->
      (forall m c', m ∈ reachable_named_workers c -> leads m c' -> clear m) -> clear n.

Definition checked (w : WorkflowDef.t) : Prop :=
  readable w /\ forall m c, m ∈ reachable_named_workers w -> leads m c -> clear m.

Definition covered (on_stack : list string) (seen : gset string) : Prop :=
  forall n, n ∈ seen -> n ∈ on_stack \/ clear n.

(** The search answers truly. *)
Lemma detect_spec fuel : forall def on_stack seen,
  walk on_stack def -> root.(WorkflowDef.name) ∈ on_stack -> covered on_stack seen ->
  match detect_reference_cycle hash workflows workers fuel def on_stack seen with
  | None => True
  | Some (inr e) => exists p w, walk p w /\ problem p w e
  | Some (inl seen') => covered on_stack seen' /\ checked def
  end.
Proof.
  induction fuel as [|fuel IH]; intros def on_stack seen W R C; [done|].
  cbn [detect_reference_cycle]. unfold checked, readable.
  assert (forall n, n ∈ reachable_named_workers def -> n ∈ reachable_named_workers def) as Sub by done.
  revert Sub. generalize (reachable_named_workers def) at 1 3 4 5 as names.
  intros names. revert seen C. induction names as [|n names IHn]; intros seen C Sub.
  { split; [done|]. split; [by intros ? ? ?%not_elem_of_nil|by intros ? ? ?%not_elem_of_nil]. }
  assert (n ∈ reachable_named_workers def) as In by (apply Sub; constructor).
  assert (forall m, m ∈ names -> m ∈ reachable_named_workers def) as Sub'
    by (intros; apply Sub; by constructor).
  set (each := fix each (names : list string) (seen : gset string) {struct names} := _) in *.
  assert (forall seen', covered on_stack seen' ->
    (forall reason, resolve_if_present workflows n <> inr reason) ->
    (forall c, leads n c -> clear n) ->
    match each names seen' with
    | None => True
    | Some (inr e) => exists p w, walk p w /\ problem p w e
    | Some (inl seen') => covered on_stack seen' /\
        (forall m reason, m ∈ n :: names -> resolve_if_present workflows m <> inr reason) /\
        (forall m c, m ∈ n :: names -> leads m c -> clear m)
    end) as Next.
  { intros seen' C' Rd Cl. specialize (IHn seen' C' Sub').
    destruct (each names seen') as [[s|e]|]; [|done|done].
    destruct IHn as (C2 & R2 & K2). split_and!; [done| |].
    - intros m reason [->|I]%elem_of_cons; [apply Rd|by apply R2].
    - intros m c [->|I]%elem_of_cons; [apply Cl|by apply K2]. }
  cbn [each]. destruct (resolve_if_present workflows n) as [[child|]|reason] eqn:E.
  - case_bool_decide as S; [exists on_stack, def; split; [done|by eapply problem_cycle]|].
    case_bool_decide as Se; [apply Next; [done..|]; intros c _; by destruct (C n Se)|].
    assert (walk (on_stack ++ [n]) child) as W' by by eapply walk_ref.
    destruct (validate_workflow hash child) as [u|e] eqn:V;
      [|exists (on_stack ++ [n]), child; split; [done|by apply problem_structure]].
    pose proof (resolve_names_spec (reachable_named_workers child)) as N. unfold resolve_named_workers.
    destruct (resolve_names workers _) as [u'|e]; cycle 1.
    { destruct N as (m & err & I & Rm & ->). exists (on_stack ++ [n]), child.
      split; [done|by apply problem_worker]. }
    specialize (IH child (on_stack ++ [n]) ({[n]} ∪ seen) W' ltac:(set_solver)).
    destruct (detect_reference_cycle _ _ _ fuel _ _ _) as [[s|e]|].
    + destruct IH as (C' & Rd & K).
      { intros m [->%elem_of_singleton|I]%elem_of_union; [set_solver|].
        destruct (C m I); [left; set_solver|by right]. }
      assert (clear n) as Cl.
      { apply (clear_intro n child); [by intros ->|done|split; [by exists u|done]|done|done]. }
      apply Next; [|done|done]. intros m I. destruct (C' m I) as [J|J]; [|by right].
      apply elem_of_app in J as [J| ->%list_elem_of_singleton]; [by left|by right].
    + apply IH. intros m [->%elem_of_singleton|I]%elem_of_union; [set_solver|].
      destruct (C m I); [left; set_solver|by right].
    + done.
  - apply Next; [done..|]. intros c L. unfold leads in L. congruence.
  - exists on_stack, def. split; [done|by apply problem_file].
Qed.

(** It ends once the fuel exceeds the number of named workflows not yet seen. *)
Lemma detect_total (names : gset string) (F : forall n c, leads n c -> n ∈ names) fuel :
  forall def on_stack seen, size (names ∖ seen) < fuel ->
  match detect_reference_cycle hash workflows workers fuel def on_stack seen with
  | None => False
  | Some (inl seen') => seen ⊆ seen'
  | Some (inr _) => True
  end.
Proof.
  induction fuel as [|fuel IH]; intros def on_stack seen L; [lia|].
  cbn [detect_reference_cycle]. revert seen L. generalize (reachable_named_workers def) as l.
  set (each := fix each (names : list string) (seen : gset string) {struct names} := _).
  intros l. induction l as [|n l IHl]; intros seen L; [cbn; done|]. cbn [each].
  destruct (resolve_if_present workflows n) as [[child|]|reason] eqn:E; [|by apply IHl|exact I].
  case_bool_decide; [exact I|]. case_bool_decide; [by apply IHl|].
  destruct (validate_workflow hash child) as [u|e]; [|exact I].
  destruct (resolve_named_workers workers child) as [u'|e]; [|exact I].
  assert (size (names ∖ ({[n]} ∪ seen)) < size (names ∖ seen)) as G.
  { apply subset_size. pose proof (F n child E). set_solver. }
  specialize (IH child (on_stack ++ [n]) ({[n]} ∪ seen) ltac:(lia)).
  destruct (detect_reference_cycle _ _ _ fuel _ _ _) as [[s|e]|]; [|exact I|done].
  assert (size (names ∖ s) <= size (names ∖ seen)) as G' by (apply subseteq_size; set_solver).
  specialize (IHl s ltac:(lia)). destruct (each l s) as [[s'|e]|]; [set_solver|exact I|done].
Qed.

(** ** What a cleared root rules out *)

Definition refers (n m : string) : Prop :=
  exists c c', leads n c /\ m ∈ reachable_named_workers c /\ leads m c'.

Lemma leads_fun n c c' : leads n c -> leads n c' -> c = c'.
Proof. unfold leads. congruence. Qed.

Lemma clear_acyclic n : clear n -> ~ tc refers n n.
Proof.
  induction 1 as [n c Nr L _ _ K IH]. intros T.
  assert (exists x, refers n x /\ tc refers x x) as (x & (c1 & cx & L1 & I & Lx) & Tx).
  { inversion T as [? ? S|? x ? S Tx]; subst; [by exists n|]. exists x. split; [done|].
    by eapply tc_r. }
  rewrite (leads_fun n c1 c L1 L) in I. by apply (IH x cx).
Qed.

(** Along a chain from a checked root, every name is clear, and new. *)
Lemma walk_clear p w : checked root -> walk p w ->
  exists q, p = root.(WorkflowDef.name) :: q /\ checked w /\ NoDup p /\
    match last q with
    | None => w = root
    | Some n => clear n /\ leads n w /\ Forall (fun x => x = n \/ tc refers x n) q
    end.
Proof.
  intros R W. induction W as [|p w n c W (q & -> & [Rd K] & U & E) I L].
  { exists []. split_and!; [done|done|apply NoDup_singleton|done]. }
  pose proof (K n c I L) as Cn. exists (q ++ [n]).
  assert (Forall (fun x => tc refers x n) q) as Q.
  { destruct (last q) as [m|] eqn:La.
    - destruct E as (_ & Lm & F). assert (refers m n) as S by by exists w, c.
      eapply Forall_impl; [exact F|]. intros x [->|T]; [by apply tc_once|by eapply tc_r].
    - apply last_None in La as ->. constructor. }
  split; [done|]. split; [|split].
  - inversion Cn as [c' Nr L' S Rd' K']. rewrite (leads_fun n c c' L L'). done.
  - apply NoDup_app. split; [done|]. split; [|apply NoDup_singleton].
    intros x Ix ->%list_elem_of_singleton. apply elem_of_cons in Ix as [->|Ix].
    + by inversion Cn.
    + rewrite Forall_forall in Q. by apply (clear_acyclic n Cn), Q.
  - rewrite last_snoc. split_and!; [done|done|]. apply Forall_app. split.
    + eapply Forall_impl; [exact Q|]. by right.
    + constructor; [by left|constructor].
Qed.

(** The checks before a flow starts are sound and complete over the whole graph of named
    workflows: with finitely many of them on disk the search ends; when it accepts, every
    chain of references from the root is free of repeats and ends at a workflow that is well
    structured, whose named workers resolve and whose named workflows can be read; when it
    refuses, the error is that of an actual chain: a reported cycle is one. *)
Theorem validate_workflow_refs_spec (names : gset string) fuel
    (F : forall n c, leads n c -> n ∈ names) (B : size names < fuel) :
  exists r, validate_workflow_refs hash workflows workers fuel root = Some r /\
  match r with
  | inl _ => forall p w, walk p w -> NoDup p /\ forall e, ~ problem p w e
  | inr e => exists p w, walk p w /\ problem p w e
  end.
Proof.
  unfold validate_workflow_refs. set (name := WorkflowDef.name root).
  destruct (validate_workflow hash root) as [u|e] eqn:V; cycle 1.
  { eexists. split; [done|]. exists [name], root. split; [constructor|by apply problem_structure]. }
  pose proof (resolve_names_spec (reachable_named_workers root)) as N. unfold resolve_named_workers.
  destruct (resolve_names workers _) as [u'|e]; cycle 1.
  { eexists. split; [done|]. destruct N as (n & err & I & R & ->). exists [name], root.
    split; [constructor|by apply problem_worker]. }
  assert (size (names ∖ {[name]}) <= size names) as G by (apply subseteq_size; set_solver).
  pose proof (detect_total names F fuel root [name] {[name]} ltac:(lia)) as T.
  pose proof (detect_spec fuel root [name] {[name]} walk_root ltac:(constructor)) as D.
  destruct (detect_reference_cycle _ _ _ _ _ _ _) as [[s|e]|]; [| |done].
  - eexists. split; [done|]. destruct D as [_ R].
    { intros n ->%elem_of_singleton. left. constructor. }
    intros p w W. destruct (walk_clear p w R W) as (q & -> & [Rd K] & U & E). split; [done|].
    assert (sound w) as [[x X] Sw].
    { destruct (last q) as [n|]; [|subst w; split; [by exists u|done]].
      destruct E as (Cn & L & _). inversion Cn as [c _ L' Sc _ _]. by rewrite (leads_fun n w c L L'). }
    intros e []; [congruence|by eapply Sw|by eapply Rd|].
    match goal with I : ?n ∈ reachable_named_workers w, L : leads ?n ?c |- _ =>
      destruct (walk_clear _ _ R (walk_ref _ _ n c W I L)) as (_ & _ & _ & U' & _) end.
    apply NoDup_app in U' as (_ & U' & _). by eapply U'; [|constructor].
  - eexists. split; [done|]. apply D. intros n ->%elem_of_singleton. left. constructor.
Qed.
End properties.

(** Two workflows that name each other, in one project. *)
Definition naming (name ref : string) : WorkflowDef.t :=
  WorkflowDef.Mk (wrap 32 1) name
    (Strategy.Single (Step.Mk (WorkerRef.Named ref) (TaskTemplate.New "go") DelegateAutonomy.ReadOnly
       FailPolicy.Abort))
    BudgetSpec.default (wrap 32 2).
Definition project_flows : bases WorkflowDef.t :=
  [(CapabilitySource.Project, fun name =>
     if String.eqb name "codex" then Some (inl (naming "codex" "claude"))
     else if String.eqb name "claude" then Some (inl (naming "claude" "codex")) else None)].

Lemma validate_workflow_refs_spec_witness :
  validate_workflow_refs (fun _ => wrap 64 0) project_flows [] 3 (naming "main" "codex") =
    Some (inr (WorkflowError.ReferenceCycle ["main"; "codex"; "claude"; "codex"])) /\
  exists r,
    validate_workflow_refs (fun _ => wrap 64 0) project_flows [] 3 (naming "main" "codex") = Some r /\
    match r with
    | inl _ => forall p w, walk project_flows (naming "main" "codex") p w ->
        NoDup p /\ forall e, ~ problem (fun _ => wrap 64 0) project_flows [] p w e
    | inr e => exists p w, walk project_flows (naming "main" "codex") p w /\
        problem (fun _ => wrap 64 0) project_flows [] p w e
    end.
Proof.
  split; [vm_compute; reflexivity|].
  apply (validate_workflow_refs_spec (fun _ => wrap 64 0) project_flows [] (naming "main" "codex")
    {["codex"; "claude"]} 3); [|vm_compute; lia].
  intros n c L. unfold leads, resolve_if_present, resolve_workflow, load_json, has_definition in L.
  destruct (validate_name n); [|done]. cbn in L.
  destruct (String.eqb_spec n "codex") as [->|]; [set_solver|].
  destruct (String.eqb_spec n "claude") as [->|]; [set_solver|done].
Defined.
