(* ===== verification/EditText.v ===== *)
(** The edit engine's shared vocabulary ([nerve-core/src/edit/mod.rs], [edit/text.rs]): planned
    changes, errors, newline handling and the content tag that guards against stale edits. *)
From S2P Require Import Prelude Text.

(** Reads a file by its path; [None] if it is absent. *)
Definition FileReader := string -> option string.

Module FileChange.
Inductive t :=
  | Create (path content : string)
  | Update (path content : string)
  | Delete (path : string)
  | Rename (from to content : string).
End FileChange.

Module EditError.
Inductive t :=
  | Empty
  | Parse (mode detail : string)
  | NotFound (snippet : string)
  | Ambiguous (occurrences : nat) (snippet : string)
  | ContextNotFound (snippet : string)
  | MissingFile (path : string)
  | FileExists (path : string)
  | LineOutOfRange (line total : nat)
  | StaleHash (path expected actual reread_hint : string).
End EditError.

Definition bind {A B} (r : A + EditError.t) (f : A -> B + EditError.t) : B + EditError.t :=
  match r with inl a => f a | inr e => inr e end.
Notation "'let?' x := r 'in' k" := (bind r (fun x => k))
  (at level 10, x binder, r at level 200, k at level 200) : nerve_scope.

(** * [text.rs] *)

Definition dquote : string := String "034" EmptyString.
Definition LF : ascii := "010".
Definition CR : ascii := "013".
Definition lf : string := String LF EmptyString.
Definition cr : string := String CR EmptyString.
Definition crlf : string := cr +:+ lf.

(** The UTF-8 byte order mark and the horizontal ellipsis. *)
Definition bom : string := bytes_of [239; 187; 191].
Definition ellipsis : string := bytes_of [226; 128; 166].

Module Newline.
Inductive t := Lf | Crlf.
#[export] Instance eq_dec : EqDecision t.
Proof. solve_decision. Defined.
End Newline.

Definition detect_newline (text : string) : Newline.t :=
  if contains_str crlf text then Newline.Crlf else Newline.Lf.

Definition normalize (text : string) : string :=
  let text := default text (strip_prefix bom text) in
  replace_str cr lf (replace_str crlf lf text).

Definition restore_newline (text : string) (newline : Newline.t) : string :=
  match newline with
  | Newline.Lf => text
  | Newline.Crlf => replace_str lf crlf text
  end.

Definition FNV_OFFSET : u64 := wrap 64 14695981039346656037.
Definition FNV_PRIME : N := 1099511628211.

Definition mix (hash : u64) (byte : ascii) : u64 :=
  wrap 64 (N.lxor (uval hash) (Ascii.N_of_ascii byte) * FNV_PRIME).

Definition hash_line (hash : u64) (line : string) : u64 :=
  let blank c := Ascii.eqb c " " || Ascii.eqb c "009" in
  mix (foldl mix hash (String.list_ascii_of_string (trim_end_chars blank line))) LF.

Definition upper_hex_digit (n : N) : ascii :=
  Ascii.ascii_of_N (if (n <? 10)%N then 48 + n else 55 + n).

(** [{:016X}]. *)
Fixpoint upper_hex (digits : nat) (n : N) : string :=
  match digits with
  | 0 => EmptyString
  | S digits => upper_hex digits (n / 16) +:+ String (upper_hex_digit (n mod 16)) EmptyString
  end.

Definition content_hash (normalized : string) : string :=
  upper_hex 16 (uval (foldl hash_line FNV_OFFSET (split_on LF normalized))).

(** [lines().next()], up to the trailing carriage return that [trim] drops anyway. *)
Definition first_line (text : string) : string :=
  match split_on LF text with line :: _ => line | [] => EmptyString end.

Definition MAX : nat := 60.

Definition preview (text : string) : string :=
  let line := trim (first_line text) in
  if MAX <? count_chars line then take_chars (MAX - 1) line +:+ ellipsis else line.

(** * [mod.rs] *)

Definition snapshot_tag (content : string) : string := content_hash (normalize content).

Definition drop_last_empty (lines : list string) : list string :=
  match last lines with
  | Some EmptyString => removelast lines
  | _ => lines
  end.

Definition hashline_view (path content : string) : string :=
  let normalized := normalize content in
  let tag := content_hash normalized in
  "[" +:+ path +:+ "#" +:+ tag +:+ "]" +:+ lf +:+
  concat_str (imap (fun number line => show_nat (number + 1) +:+ ":" +:+ line +:+ lf)
                (drop_last_empty (split_on LF normalized))).
