(* ===== verification/Hashline.v ===== *)
(** Line-anchored edits bound to a content tag ([nerve-core/src/edit/hashline.rs]): parsing a
    patch, rejecting stale sections, resolving each operation to a splice of the original
    lines, and applying the splices bottom-up. *)
From S2P Require Import Prelude Text EditText.
Open Scope nerve_scope.

Definition BEGIN : string := "*** Begin Patch".
Definition END_ : string := "*** End Patch".

Module Op.
Inductive t :=
  | Replace (start end_ : nat) (body : list string)
  | Delete (start end_ : nat)
  | InsertBefore (line : nat) (body : list string)
  | InsertAfter (line : nat) (body : list string)
  | InsertHead (body : list string)
  | InsertTail (body : list string)
  | ReplaceBlock (start : nat) (body : list string)
  | DeleteBlock (start : nat)
  | InsertBlockAfter (start : nat) (body : list string).
End Op.

Definition parse_err (detail : string) : EditError.t := EditError.Parse "hashline" detail.

(** * Parsing *)

Definition parse_header (line : string) : option (string * string) :=
  inner ← strip_prefix "[" line ≫= strip_suffix "]";
  '(path, hash) ← rsplit_once "#" inner;
  if String.eqb path EmptyString || negb (String.length hash =? 16) ||
     negb (forallb is_ascii_hexdigit (String.list_ascii_of_string hash))
  then None else Some (path, hash).

Definition strip_colon (rest : string) : string + EditError.t :=
  match strip_suffix ":" rest with
  | Some r => inl r
  | None => inr (parse_err ("op must end with ':' — got " +:+ preview rest))
  end.

Definition parse_lid (value : string) : nat + EditError.t :=
  let value := trim value in
  match parse_usize value with
  | None => inr (parse_err ("invalid line number: " +:+ preview value))
  | Some 0 => inr (parse_err "line numbers are 1-based")
  | Some parsed => inl parsed
  end.

Definition parse_range (value : string) : (nat * nat) + EditError.t :=
  match split_once ".=" (trim value) with
  | None => inr (parse_err ("expected range `A.=B`, got " +:+ preview value))
  | Some (start, end_) =>
      let? start := parse_lid start in
      let? end_ := parse_lid end_ in
      inl (start, end_)
  end.

(** The body rows at the head of the remaining lines, and the lines after them. *)
Fixpoint collect_body (lines : list string) : list string * list string :=
  match lines with
  | line :: rest =>
      match strip_prefix "+" line with
      | Some row => let '(body, rest) := collect_body rest in (row :: body, rest)
      | None => ([], lines)
      end
  | [] => ([], [])
  end.

(** The operation a directive names, given the lines that follow it, and what remains. *)
Definition parse_op (directive : string) (lines : list string) : (Op.t * list string) + EditError.t :=
  let body := collect_body lines in
  match strip_prefix "SWAP.BLK " directive with
  | Some rest =>
      let? rest := strip_colon rest in
      let? start := parse_lid rest in
      inl (Op.ReplaceBlock start body.1, body.2)
  | None =>
  match strip_prefix "SWAP " directive with
  | Some rest =>
      let? rest := strip_colon rest in
      let? '(start, end_) := parse_range rest in
      inl (Op.Replace start end_ body.1, body.2)
  | None =>
  match strip_prefix "INS.BLK.POST " directive with
  | Some rest =>
      let? rest := strip_colon rest in
      let? start := parse_lid rest in
      inl (Op.InsertBlockAfter start body.1, body.2)
  | None =>
  match strip_prefix "INS.PRE " directive with
  | Some rest =>
      let? rest := strip_colon rest in
      let? line := parse_lid rest in
      inl (Op.InsertBefore line body.1, body.2)
  | None =>
  match strip_prefix "INS.POST " directive with
  | Some rest =>
      let? rest := strip_colon rest in
      let? line := parse_lid rest in
      inl (Op.InsertAfter line body.1, body.2)
  | None =>
  if String.eqb directive "INS.HEAD:" then inl (Op.InsertHead body.1, body.2)
  else if String.eqb directive "INS.TAIL:" then inl (Op.InsertTail body.1, body.2)
  else
  match strip_prefix "DEL.BLK " directive with
  | Some rest =>
      let? start := parse_lid (trim rest) in
      inl (Op.DeleteBlock start, lines)
  | None =>
  match strip_prefix "DEL " directive with
  | Some rest =>
      let? '(start, end_) := parse_range (trim rest) in
      inl (Op.Delete start end_, lines)
  | None => inr (parse_err ("unknown hashline op: " +:+ preview directive))
  end end end end end end end.

(** * Splices *)

Module Splice.
Record t := Mk { at_ : nat; remove : nat; body : list string }.
End Splice.

Definition check_range (start end_ total : nat) : unit + EditError.t :=
  if (start =? 0) || (end_ <? start) || (total <? end_)
  then inr (EditError.LineOutOfRange (if total <? end_ then end_ else start) total)
  else inl tt.

Definition check_line (line total : nat) : unit + EditError.t :=
  if (line =? 0) || (total <? line) then inr (EditError.LineOutOfRange line total) else inl tt.

(** [count]'s difference between opening and closing braces. *)
Definition net_braces (line : string) : Z :=
  Z.of_nat (count_char "{" line) - Z.of_nat (count_char "}" line).

Definition indent (line : string) : nat := String.length line - String.length (trim_start_all line).

(** The brace scan: the lines from [cursor] on are consumed while the depth is positive. *)
Fixpoint brace_scan (lines : list string) (cursor : nat) (depth : Z) : nat :=
  match lines with
  | [] => cursor
  | line :: lines =>
      if (0 <? depth)%Z then brace_scan lines (S cursor) (depth + net_braces line) else cursor
  end.

(** The indentation scan: blank lines are skipped, more indented ones belong to the block. *)
Fixpoint indent_scan (lines : list string) (base cursor end_ : nat) : nat :=
  match lines with
  | [] => end_
  | line :: lines =>
      if all_white line then indent_scan lines base (S cursor) end_
      else if base <? indent line then indent_scan lines base (S cursor) (S cursor)
      else end_
  end.

Section hashline.
(** Where the tree-sitter node that starts on a line of a file ends, when the language has a
    grammar and such a node exists. *)
Context (block_end : string -> string -> nat -> option nat).

(** [codemap/block.rs]: the block starts where it was asked for. *)
Definition block_span (path source : string) (start_line : nat) : option (nat * nat) :=
  (fun end_ => (start_line, end_)) <$> block_end path source start_line.

Definition clamp (n lo hi : nat) : nat := if n <? lo then lo else if hi <? n then hi else n.

Definition resolve_block (path original : string) (lines : list string) (start : nat)
  : (nat * nat) + EditError.t :=
  let total := length lines in
  if (start =? 0) || (total <? start) then inr (EditError.LineOutOfRange start total)
  else
    match block_span path original start with
    | Some (block_start, block_end) => inl (block_start, clamp block_end block_start total)
    | None =>
        let first := nth (start - 1) lines EmptyString in
        let rest := drop start lines in
        if (0 <? net_braces first)%Z then inl (start, brace_scan rest start (net_braces first))
        else inl (start, indent_scan rest (indent first) start start)
    end.

Definition to_splice (op : Op.t) (path original : string) (lines : list string)
    (total tail_pos : nat) : Splice.t + EditError.t :=
  match op with
  | Op.Replace start end_ body =>
      let? _ := check_range start end_ total in
      inl (Splice.Mk (start - 1) (end_ - start + 1) body)
  | Op.Delete start end_ =>
      let? _ := check_range start end_ total in
      inl (Splice.Mk (start - 1) (end_ - start + 1) [])
  | Op.InsertBefore line body =>
      let? _ := check_line line total in inl (Splice.Mk (line - 1) 0 body)
  | Op.InsertAfter line body =>
      let? _ := check_line line total in inl (Splice.Mk line 0 body)
  | Op.InsertHead body => inl (Splice.Mk 0 0 body)
  | Op.InsertTail body => inl (Splice.Mk tail_pos 0 body)
  | Op.ReplaceBlock start body =>
      let? '(block_start, block_end) := resolve_block path original lines start in
      inl (Splice.Mk (block_start - 1) (block_end - block_start + 1) body)
  | Op.DeleteBlock start =>
      let? '(block_start, block_end) := resolve_block path original lines start in
      inl (Splice.Mk (block_start - 1) (block_end - block_start + 1) [])
  | Op.InsertBlockAfter start body =>
      let? '(_, block_end) := resolve_block path original lines start in
      inl (Splice.Mk block_end 0 body)
  end.

Fixpoint to_splices (ops : list Op.t) (path original : string) (lines : list string)
    (total tail_pos : nat) : list Splice.t + EditError.t :=
  match ops with
  | [] => inl []
  | op :: ops =>
      let? splice := to_splice op path original lines total tail_pos in
      let? splices := to_splices ops path original lines total tail_pos in
      inl (splice :: splices)
  end.

Definition ranges_of (splices : list Splice.t) : list (nat * nat) :=
  omap (fun s => if 0 <? s.(Splice.remove)
                 then Some (s.(Splice.at_), s.(Splice.at_) + s.(Splice.remove)) else None) splices.

Definition range_leb (a b : nat * nat) : bool := (a.1 <? b.1) || (a.1 =? b.1) && (a.2 <=? b.2).

(** [windows(2)]: a pair that overlaps its successor. *)
Fixpoint overlapping (ranges : list (nat * nat)) : bool :=
  match ranges with
  | a :: (b :: _) as rest => (b.1 <? a.2) || overlapping rest
  | _ => false
  end.

Definition swallowed (ranges : list (nat * nat)) (splice : Splice.t) : bool :=
  (splice.(Splice.remove) =? 0) &&
  existsb (fun '(open, close) => (open <? splice.(Splice.at_)) && (splice.(Splice.at_) <? close)) ranges.

(** One splice: [split_off], which panics past the end, then [truncate] and two extends. *)
Definition apply_splice (out : list string) (splice : Splice.t) : option (list string) :=
  let end_ := splice.(Splice.at_) + splice.(Splice.remove) in
  if length out <? end_ then None
  else Some (take splice.(Splice.at_) (take end_ out) ++ splice.(Splice.body) ++ drop end_ out).

Definition by_at_desc (a b : Splice.t) : bool := b.(Splice.at_) <=? a.(Splice.at_).

(** [None] when it panics. *)
Definition apply_ops (path original : string) (ops : list Op.t) : option (string + EditError.t) :=
  let lines := split_on LF original in
  let total := length lines in
  let tail_pos := match last lines with Some EmptyString => total - 1 | _ => total end in
  match to_splices ops path original lines total tail_pos with
  | inr e => Some (inr e)
  | inl splices =>
      let ranges := sort_by range_leb (ranges_of splices) in
      if overlapping ranges then Some (inr (parse_err "overlapping operations on the same lines"))
      else if existsb (swallowed ranges) splices
      then Some (inr (parse_err "overlapping operations on the same lines"))
      else
        (fun out => inl (join lf out)) <$>
        foldl (fun out splice => out ≫= fun out => apply_splice out splice) (Some lines)
          (sort_by by_at_desc splices)
  end.

(** * Planning *)

(** The operations of one section, up to the next header or the end marker. *)
Fixpoint parse_ops (fuel : nat) (lines : list string) : (list Op.t * list string) + EditError.t :=
  match fuel with
  | 0 => inl ([], lines)
  | S fuel =>
      match lines with
      | [] => inl ([], [])
      | line :: rest =>
          if String.eqb line END_ || starts_with "[" line then inl ([], lines)
          else if all_white line then parse_ops fuel rest
          else
            let? '(op, rest) := parse_op line rest in
            let? '(ops, rest) := parse_ops fuel rest in
            inl (op :: ops, rest)
      end
  end.

Definition REREAD_HINT : string := "re-read the file with read_file view=" +:+ dquote +:+ "hashline" +:+ dquote.

(** One section from its header line and the lines after it. *)
Definition plan_section (reader : FileReader) (line : string) (rest : list string)
  : option ((FileChange.t * list string) + EditError.t) :=
  match parse_header line with
  | None => Some (inr (parse_err ("expected `[PATH#HASH]`, got " +:+ preview line)))
  | Some (path, expected) =>
      match reader path with
      | None => Some (inr (EditError.MissingFile path))
      | Some original =>
          let newline := detect_newline original in
          let normalized_original := normalize original in
          let actual := content_hash normalized_original in
          if negb (eq_ignore_ascii_case actual expected)
          then Some (inr (EditError.StaleHash path expected actual REREAD_HINT))
          else
            match parse_ops (S (length rest)) rest with
            | inr e => Some (inr e)
            | inl ([], _) => Some (inr (parse_err ("section for " +:+ path +:+ " has no operations")))
            | inl (ops, rest) =>
                match apply_ops path normalized_original ops with
                | None => None
                | Some (inr e) => Some (inr e)
                | Some (inl updated) =>
                    Some (inl (FileChange.Update path (restore_newline updated newline), rest))
                end
            end
      end
  end.

(** The sections, with the changes planned so far. *)
Fixpoint plan_sections (fuel : nat) (reader : FileReader) (lines : list string)
    (changes : list FileChange.t) : option (list FileChange.t + EditError.t) :=
  match fuel with
  | 0 => Some (inr (parse_err ("patch is missing `" +:+ END_ +:+ "`")))
  | S fuel =>
      match lines with
      | [] => Some (inr (parse_err ("patch is missing `" +:+ END_ +:+ "`")))
      | line :: rest =>
          if String.eqb line END_
          then Some (match changes with [] => inr EditError.Empty | _ => inl changes end)
          else if all_white line then plan_sections fuel reader rest changes
          else
            match plan_section reader line rest with
            | None => None
            | Some (inr e) => Some (inr e)
            | Some (inl (change, rest)) => plan_sections fuel reader rest (changes ++ [change])
            end
      end
  end.

Fixpoint skip_blank (lines : list string) : list string :=
  match lines with
  | line :: rest => if all_white line then skip_blank rest else lines
  | [] => []
  end.

Definition plan (text : string) (reader : FileReader) : option (list FileChange.t + EditError.t) :=
  match skip_blank (split_on LF (normalize text)) with
  | line :: rest =>
      if String.eqb line BEGIN then plan_sections (S (length rest)) reader rest []
      else Some (inr (parse_err ("patch must start with `" +:+ BEGIN +:+ "`")))
  | [] => Some (inr (parse_err ("patch must start with `" +:+ BEGIN +:+ "`")))
  end.
End hashline.
