(* ===== verification/HashlineSpec.v ===== *)
(** What a hashline edit does: its operations act on the original lines all at once, stale
    sections are refused, the read view carries the tag an edit needs, and the order of
    operations at one line that breaks the first of these. *)
From S2P Require Import Prelude Text EditText Hashline.

(** * All splices at once *)

Definition covers (p : nat) (s : Splice.t) : bool :=
  (s.(Splice.at_) <=? p) && (p <? s.(Splice.at_) + s.(Splice.remove)).

(** What the splices put before the line [p]: a later one goes first. *)
Definition put_at (p : nat) (splices : list Splice.t) : list string :=
  flat_map Splice.body (rev (List.filter (fun s => s.(Splice.at_) =? p) splices)).

(** The line [p], unless a splice removes it. *)
Definition kept (lines : list string) (p : nat) (splices : list Splice.t) : list string :=
  if existsb (covers p) splices then [] else match lines !! p with Some line => [line] | None => [] end.

Definition edit_at (lines : list string) (splices : list Splice.t) (p : nat) : list string :=
  put_at p splices ++ kept lines p splices.

(** The edited file: every position of the original, from top to bottom. *)
Definition simultaneous (lines : list string) (splices : list Splice.t) : list string :=
  flat_map (edit_at lines splices) (seq 0 (S (length lines))).

(** At one position, whatever removes lines comes first. *)
Definition ordered (splices : list Splice.t) : Prop :=
  ForallOrdPairs (fun a b => a.(Splice.at_) = b.(Splice.at_) -> b.(Splice.remove) = 0) splices.

Definition apart (a b : nat * nat) : Prop := a.2 <= b.1 \/ b.2 <= a.1.

(** No two splices remove the same line, and none inserts strictly inside what another removes. *)
Definition compatible (splices : list Splice.t) : Prop :=
  ForallOrdPairs apart (ranges_of splices) /\
  forall s t, s ∈ splices -> t ∈ splices -> t.(Splice.remove) = 0 ->
    ~ (s.(Splice.at_) < t.(Splice.at_) < s.(Splice.at_) + s.(Splice.remove)).

(** * Sorting *)

Lemma FOP_perm {A} (R : A -> A -> Prop) (S : forall a b, R a b -> R b a) l l' :
  l ≡ₚ l' -> ForallOrdPairs R l -> ForallOrdPairs R l'.
Proof.
  induction 1 as [|x l l' P IH|x y l|l l' l'' _ IH1 _ IH2]; intros F; [done| | |by apply IH2, IH1].
  - inversion F as [|? ? Fx F']; subst. constructor; [|by apply IH].
    rewrite <- P. done.
  - inversion F as [|? ? Fy F1]; subst. inversion F1 as [|? ? Fx F2]; subst.
    apply Forall_cons in Fy as [Ryx Fy]. constructor; [|by constructor].
    constructor; [by apply S|done].
Qed.

Lemma FOP_snoc {A} (R : A -> A -> Prop) l x :
  ForallOrdPairs R (l ++ [x]) -> ForallOrdPairs R l /\ Forall (fun y => R y x) l.
Proof.
  induction l as [|y l IH]; cbn [app]; intros F; [by split; constructor|].
  inversion F as [|? ? Fy F']; subst. apply Forall_app in Fy as [Fy Fx].
  inversion Fx; subst. destruct (IH F') as [F1 F2]. by split; constructor.
Qed.

Lemma insert_at_filter p x l :
  StronglySorted (fun a b => by_at_desc a b = true) l ->
  List.filter (fun s => s.(Splice.at_) =? p) (insert_by by_at_desc x l) =
  List.filter (fun s => s.(Splice.at_) =? p) (x :: l).
Proof.
  induction l as [|y l IH]; intros S; [done|]. inversion S as [|? ? S' F]; subst. cbn [insert_by].
  destruct (by_at_desc x y) eqn:L; [done|]. cbn [List.filter]. rewrite IH by done. cbn [List.filter].
  unfold by_at_desc in L. apply Nat.leb_gt in L.
  destruct (Nat.eqb_spec (Splice.at_ x) p), (Nat.eqb_spec (Splice.at_ y) p); done || lia.
Qed.

Lemma by_at_desc_total a b : by_at_desc a b = true \/ by_at_desc b a = true.
Proof. unfold by_at_desc. rewrite !Nat.leb_le. lia. Qed.
Lemma by_at_desc_trans a b c :
  by_at_desc a b = true -> by_at_desc b c = true -> by_at_desc a c = true.
Proof. unfold by_at_desc. rewrite !Nat.leb_le. lia. Qed.

(** The sort is stable: it keeps the order of the splices at one position. *)
Lemma sort_at_filter p l :
  List.filter (fun s => s.(Splice.at_) =? p) (sort_by by_at_desc l) =
  List.filter (fun s => s.(Splice.at_) =? p) l.
Proof.
  induction l as [|x l IH]; [done|]. cbn [sort_by].
  rewrite insert_at_filter by (apply sort_by_strongly_sorted;
    [apply by_at_desc_total|apply by_at_desc_trans]).
  cbn [List.filter]. by rewrite IH.
Qed.

Lemma existsb_perm {A} (f : A -> bool) l l' : l ≡ₚ l' -> existsb f l = existsb f l'.
Proof.
  induction 1 as [|x l l' _ IH|x y l|l l' l'' _ IH1 _ IH2]; cbn; [done|by rewrite IH| |congruence].
  by destruct (f x), (f y).
Qed.

Lemma simultaneous_sort lines l :
  simultaneous lines (sort_by by_at_desc l) = simultaneous lines l.
Proof.
  unfold simultaneous. apply flat_map_ext. intros p. unfold edit_at, put_at, kept.
  rewrite sort_at_filter. by rewrite (existsb_perm _ _ l) by (symmetry; apply sort_by_perm).
Qed.

(** * One splice at a time, bottom-up *)

Lemma put_at_snoc p P s :
  put_at p (P ++ [s]) = (if s.(Splice.at_) =? p then s.(Splice.body) else []) ++ put_at p P.
Proof.
  unfold put_at. rewrite List.filter_app, rev_app_distr, flat_map_app. f_equal. cbn [List.filter].
  destruct (s.(Splice.at_) =? p); cbn; by rewrite ?app_nil_r.
Qed.

Lemma kept_snoc lines p P s : covers p s = false -> kept lines p (P ++ [s]) = kept lines p P.
Proof. unfold kept. rewrite existsb_app. cbn. intros ->. by rewrite !orb_false_r. Qed.

Lemma edit_at_other lines P s p :
  s.(Splice.at_) <> p -> covers p s = false -> edit_at lines (P ++ [s]) p = edit_at lines P p.
Proof.
  intros N C. unfold edit_at. rewrite put_at_snoc, kept_snoc by done.
  by destruct (Nat.eqb_spec (Splice.at_ s) p).
Qed.

Lemma flat_map_ext_in' {A B} (f g : A -> list B) l :
  (forall a, a ∈ l -> f a = g a) -> flat_map f l = flat_map g l.
Proof.
  induction l as [|a l IH]; intros H; [done|]. cbn. rewrite H by constructor. f_equal.
  apply IH. intros b I. apply H. by constructor.
Qed.

Lemma put_at_none p P : Forall (fun t => p < t.(Splice.at_)) P -> put_at p P = [].
Proof.
  intros F. unfold put_at. replace (List.filter _ P) with (@nil Splice.t); [done|].
  symmetry. induction F as [|t P B F IH]; [done|]. cbn [List.filter].
  by destruct (Nat.eqb_spec (Splice.at_ t) p); [lia|].
Qed.

(** Above every splice the lines are the original's. *)
Lemma edit_at_plain lines P p :
  Forall (fun t => p < t.(Splice.at_)) P -> p < length lines ->
  edit_at lines P p = take 1 (drop p lines).
Proof.
  intros F L. unfold edit_at, kept. rewrite put_at_none by done.
  replace (existsb (covers p) P) with false; cycle 1.
  { symmetry. induction F as [|t P B F IH]; [done|]. cbn [existsb]. rewrite IH. unfold covers.
    by destruct (Nat.leb_spec (Splice.at_ t) p); [lia|]. }
  destruct (lines !! p) as [line|] eqn:E; [|apply lookup_ge_None in E; lia].
  by rewrite (drop_S _ line).
Qed.

Lemma edits_plain lines P k : forall a,
  Forall (fun t => a + k <= t.(Splice.at_)) P -> a + k <= length lines ->
  flat_map (edit_at lines P) (seq a k) = take k (drop a lines).
Proof.
  induction k as [|k IH]; intros a F L; [done|]. cbn [seq flat_map].
  rewrite edit_at_plain; [|eapply Forall_impl; [exact F|]; cbn; lia|lia].
  rewrite IH; [|eapply Forall_impl; [exact F|]; cbn; lia|lia].
  replace (drop (S a) lines) with (drop 1 (drop a lines)) by (rewrite drop_drop; f_equal; lia).
  by rewrite take_take_drop.
Qed.

Lemma simultaneous_split lines P a : a <= length lines ->
  Forall (fun t => a <= t.(Splice.at_)) P ->
  simultaneous lines P =
    take a lines ++ flat_map (edit_at lines P) (seq a (S (length lines) - a)).
Proof.
  intros L F. unfold simultaneous. replace (S (length lines)) with (a + (S (length lines) - a)) at 1 by lia.
  rewrite seq_app, flat_map_app. cbn [Nat.add]. by rewrite (edits_plain lines P a 0).
Qed.

Lemma edits_below lines P s b m :
  s.(Splice.at_) < b -> s.(Splice.at_) + s.(Splice.remove) <= b ->
  flat_map (edit_at lines (P ++ [s])) (seq b m) = flat_map (edit_at lines P) (seq b m).
Proof.
  intros A B. apply flat_map_ext_in'. intros p I%elem_of_seq. apply edit_at_other; [lia|].
  unfold covers. apply andb_false_iff. right. apply Nat.ltb_ge. lia.
Qed.

Lemma edit_at_covered lines P s p : covers p s = true ->
  Forall (fun t => p < t.(Splice.at_)) P ->
  edit_at lines (P ++ [s]) p = if s.(Splice.at_) =? p then s.(Splice.body) else [].
Proof.
  intros C F. unfold edit_at, kept. rewrite put_at_snoc, put_at_none, existsb_app by done. cbn.
  by rewrite C, orb_true_r, !app_nil_r.
Qed.

Lemma edits_covered lines P s :
  0 < s.(Splice.remove) ->
  Forall (fun t => s.(Splice.at_) + s.(Splice.remove) <= t.(Splice.at_)) P ->
  flat_map (edit_at lines (P ++ [s])) (seq s.(Splice.at_) s.(Splice.remove)) = s.(Splice.body).
Proof.
  intros R F.
  assert (forall p, s.(Splice.at_) <= p < s.(Splice.at_) + s.(Splice.remove) ->
    edit_at lines (P ++ [s]) p = if s.(Splice.at_) =? p then s.(Splice.body) else []) as E.
  { intros p B. apply edit_at_covered.
    - unfold covers. apply andb_true_iff. split; [apply Nat.leb_le|apply Nat.ltb_lt]; lia.
    - eapply Forall_impl; [exact F|]. cbn. lia. }
  destruct (Splice.remove s) as [|k]; [lia|]. cbn [seq flat_map].
  rewrite E, Nat.eqb_refl by lia.
  rewrite (flat_map_ext_in' _ (fun _ => [])); cycle 1.
  { intros p I%elem_of_seq. rewrite E by lia. by destruct (Nat.eqb_spec (Splice.at_ s) p); [lia|]. }
  replace (flat_map _ _) with (@nil string); [by rewrite app_nil_r|].
  by induction (seq (S (Splice.at_ s)) k).
Qed.

(** A splice at or above all those applied acts on the result as it does on the original. *)
Lemma apply_splice_step lines P s :
  s.(Splice.at_) + s.(Splice.remove) <= length lines ->
  Forall (fun t => s.(Splice.at_) + s.(Splice.remove) <= t.(Splice.at_)) P ->
  apply_splice (simultaneous lines P) s = Some (simultaneous lines (P ++ [s])).
Proof.
  intros L F. pose proof (edits_covered lines P s) as Cov.
  pose proof (edits_below lines P s) as Bel.
  set (a := Splice.at_ s) in *. set (k := Splice.remove s) in *. set (n := length lines) in *.
  assert (Forall (fun t => a <= t.(Splice.at_)) P) as Fa by (eapply Forall_impl; [exact F|]; cbn; lia).
  assert (Forall (fun t => a <= t.(Splice.at_)) (P ++ [s])) as Fs
    by (apply Forall_app; split; [done|by repeat constructor]).
  rewrite (simultaneous_split lines (P ++ [s]) a) by (done || lia).
  rewrite (simultaneous_split lines P a) by (done || lia). fold n.
  replace (S n - a) with (k + (S n - (a + k))) by lia.
  rewrite !seq_app, !flat_map_app. rewrite (edits_plain lines P k a) by done.
  set (rest := flat_map (edit_at lines P) (seq (a + k) _)).
  assert (length (take a lines ++ take k (drop a lines)) = a + k) as Ln.
  { rewrite length_app, !length_take, length_drop. fold n. lia. }
  unfold apply_splice. fold a k. rewrite app_assoc, length_app, Ln.
  destruct (Nat.ltb_spec (a + k + length rest) (a + k)); [lia|]. f_equal.
  rewrite (drop_app_length' _ _ (a + k)) by done. rewrite (take_app_length' _ _ (a + k)) by done.
  rewrite take_app_length' by (rewrite length_take; fold n; lia). f_equal. subst rest.
  destruct (Nat.eq_dec k 0) as [K|K].
  - rewrite K. cbn [seq flat_map app]. rewrite Nat.add_0_r. replace (S n - a) with (S (n - a)) by lia.
    cbn [seq flat_map]. rewrite (Bel (S a)) by lia. rewrite app_assoc. f_equal.
    unfold edit_at. rewrite put_at_snoc, kept_snoc.
    + fold a. by rewrite Nat.eqb_refl, app_assoc.
    + unfold covers. fold a k. rewrite K, Nat.add_0_r, Nat.ltb_irrefl. apply andb_false_r.
  - by rewrite Cov, Bel by (done || lia).
Qed.

(** * Splices stay inside the file *)

Lemma brace_scan_bounds lines cursor depth :
  cursor <= brace_scan lines cursor depth <= cursor + length lines.
Proof.
  revert cursor depth. induction lines as [|line lines IH]; intros cursor depth; cbn; [lia|].
  destruct (0 <? depth)%Z; [|lia]. specialize (IH (S cursor) (depth + net_braces line)%Z). lia.
Qed.

Lemma indent_scan_bounds lines base cursor e : e <= cursor ->
  e <= indent_scan lines base cursor e <= cursor + length lines.
Proof.
  revert cursor e. induction lines as [|line lines IH]; intros cursor e L; cbn [indent_scan length]; [lia|].
  destruct (all_white line).
  - specialize (IH (S cursor) e ltac:(lia)). lia.
  - destruct (base <? indent line); [|lia]. specialize (IH (S cursor) (S cursor) ltac:(lia)). lia.
Qed.

Lemma clamp_bounds n lo hi : lo <= hi -> lo <= clamp n lo hi <= hi.
Proof. unfold clamp. destruct (Nat.ltb_spec n lo), (Nat.ltb_spec hi n); lia. Qed.

Section spec.
Context (block_end : string -> string -> nat -> option nat).

Lemma resolve_block_bounds path original lines start a b :
  resolve_block block_end path original lines start = inl (a, b) ->
  1 <= a <= b /\ b <= length lines.
Proof.
  unfold resolve_block, block_span.
  destruct (Nat.eqb_spec start 0), (Nat.ltb_spec (length lines) start); try done.
  destruct (block_end path original start) as [e|]; cbn [orb fmap option_fmap option_map].
  - intros [= <- <-]. pose proof (clamp_bounds e start (length lines)). lia.
  - pose proof (length_drop lines start).
    pose proof (brace_scan_bounds (drop start lines) start
      (net_braces (nth (start - 1) lines EmptyString))).
    pose proof (indent_scan_bounds (drop start lines)
      (indent (nth (start - 1) lines EmptyString)) start start).
    destruct (0 <? _)%Z; intros [= <- <-]; lia.
Qed.

Lemma to_splice_bounds op path original lines tail_pos s : tail_pos <= length lines ->
  to_splice block_end op path original lines (length lines) tail_pos = inl s ->
  s.(Splice.at_) + s.(Splice.remove) <= length lines.
Proof.
  intros T. unfold to_splice, check_range, check_line.
  destruct op as [st en b|st en|l b|l b|b|b|st b|st|st b].
  1-2: destruct (Nat.eqb_spec st 0), (Nat.ltb_spec en st), (Nat.ltb_spec (length lines) en);
    cbn; try done; intros [= <-]; cbn; lia.
  1-2: destruct (Nat.eqb_spec l 0), (Nat.ltb_spec (length lines) l); cbn; try done; intros [= <-]; cbn; lia.
  1-2: intros [= <-]; cbn; lia.
  all: destruct (resolve_block _ _ _ _ _) as [[x y]|] eqn:R; cbn; try done; intros [= <-]; cbn;
    apply resolve_block_bounds in R; lia.
Qed.

Lemma to_splices_bounds ops path original lines tail_pos l : tail_pos <= length lines ->
  to_splices block_end ops path original lines (length lines) tail_pos = inl l ->
  Forall (fun s => s.(Splice.at_) + s.(Splice.remove) <= length lines) l.
Proof.
  intros T. revert l. induction ops as [|op ops IH]; intros l; cbn.
  { intros [= <-]. constructor. }
  destruct (to_splice _ _ _ _ _ _ _) as [s|] eqn:E; cbn; [|done].
  destruct (to_splices _ _ _ _ _ _ _) as [l'|] eqn:E'; cbn; [|done].
  intros [= <-]. constructor; [by eapply to_splice_bounds|by apply IH].
Qed.
End spec.

(** * Conflicts *)

Lemma range_leb_total a b : range_leb a b = true \/ range_leb b a = true.
Proof.
  unfold range_leb. destruct (Nat.ltb_spec a.1 b.1), (Nat.ltb_spec b.1 a.1),
    (Nat.eqb_spec a.1 b.1), (Nat.eqb_spec b.1 a.1), (Nat.leb_spec a.2 b.2), (Nat.leb_spec b.2 a.2);
    cbn; auto; lia.
Qed.

Lemma range_leb_fst a b : range_leb a b = true -> a.1 <= b.1.
Proof.
  unfold range_leb. destruct (Nat.ltb_spec a.1 b.1), (Nat.eqb_spec a.1 b.1); cbn; (lia || done).
Qed.

Lemma range_leb_trans a b c : range_leb a b = true -> range_leb b c = true -> range_leb a c = true.
Proof.
  unfold range_leb. rewrite !orb_true_iff, !andb_true_iff, !Nat.ltb_lt, !Nat.eqb_eq, !Nat.leb_le. lia.
Qed.

(** Comparing each range with the next is enough once they are sorted and none is empty. *)
Lemma overlapping_sorted l :
  StronglySorted (fun a b => range_leb a b = true) l -> Forall (fun r => r.1 < r.2) l ->
  overlapping l = false <-> ForallOrdPairs apart l.
Proof.
  induction l as [|a l IH]; intros S N; [split; [constructor|done]|].
  inversion S as [|? ? S' F]; subst. inversion N as [|? ? Na N']; subst.
  specialize (IH S' N'). destruct l as [|b l]; [split; [by repeat constructor|done]|].
  change (overlapping (a :: b :: l)) with ((b.1 <? a.2) || overlapping (b :: l)).
  inversion F as [|? ? Lab Fl]; subst. inversion N' as [|? ? Nb Nl]; subst.
  inversion S' as [|? ? S'' Fb]; subst. apply range_leb_fst in Lab as Lab'.
  rewrite orb_false_iff, IH, Nat.ltb_ge. split.
  - intros [Lt O]. constructor; [|done]. constructor; [by left|].
    eapply Forall_impl; [exact Fb|]. cbn. intros c Lbc%range_leb_fst. left. lia.
  - intros O. inversion O as [|? ? A O']; subst. split; [|done].
    inversion A as [|? ? [?|?] _]; subst; lia.
Qed.

Lemma apart_sym a b : apart a b -> apart b a.
Proof. unfold apart. tauto. Qed.

Lemma ranges_of_nonempty splices : Forall (fun r => r.1 < r.2) (ranges_of splices).
Proof.
  unfold ranges_of. induction splices as [|s l IH]; cbn -[Nat.ltb]; [constructor|].
  destruct (Nat.ltb_spec 0 (Splice.remove s)); [|done]. constructor; [cbn; lia|done].
Qed.

Lemma elem_ranges_of r splices :
  r ∈ ranges_of splices <-> exists s, s ∈ splices /\ 0 < s.(Splice.remove) /\
    r = (s.(Splice.at_), s.(Splice.at_) + s.(Splice.remove)).
Proof.
  unfold ranges_of. rewrite list_elem_of_omap. split; intros (s & I & H); exists s.
  - destruct (Nat.ltb_spec 0 (Splice.remove s)); [|done]. by injection H as <-.
  - destruct H as [P ->]. apply Nat.ltb_lt in P. by rewrite P.
Qed.

(** The two conflict checks of [apply_ops]. *)
Definition conflicting (splices : list Splice.t) : bool :=
  let ranges := sort_by range_leb (ranges_of splices) in
  overlapping ranges || existsb (swallowed ranges) splices.

Lemma conflicting_spec splices : conflicting splices = false <-> compatible splices.
Proof.
  unfold conflicting, compatible. rewrite orb_false_iff.
  set (rs := sort_by range_leb (ranges_of splices)).
  assert (rs ≡ₚ ranges_of splices) as P by (symmetry; apply sort_by_perm).
  apply Morphisms_Prop.and_iff_morphism.
  - rewrite overlapping_sorted.
    + split; intros H; (eapply FOP_perm; [exact apart_sym| |exact H]); [done|by symmetry].
    + apply sort_by_strongly_sorted; [apply range_leb_total|apply range_leb_trans].
    + rewrite P. apply ranges_of_nonempty.
  - split.
    + intros H s t Is It Z B.
      assert (existsb (swallowed rs) splices = true) as E; [|congruence].
      apply existsb_exists. exists t. split; [by apply list_elem_of_In|].
      unfold swallowed. rewrite Z, Nat.eqb_refl. apply existsb_exists.
      exists (Splice.at_ s, Splice.at_ s + Splice.remove s). split.
      * apply list_elem_of_In. rewrite P. apply elem_ranges_of. exists s. split_and!; [done|lia|done].
      * apply andb_true_intro. split; apply Nat.ltb_lt; lia.
    + intros H. apply not_true_iff_false. intros (t & It & E)%existsb_exists.
      unfold swallowed in E. apply andb_true_iff in E as [Z%Nat.eqb_eq E].
      apply existsb_exists in E as ([o c] & Ir & [E1%Nat.ltb_lt E2%Nat.ltb_lt]%andb_true_iff).
      apply list_elem_of_In in Ir. rewrite P in Ir. apply elem_ranges_of in Ir as (s & Is & Ps & [= -> ->]).
      apply (H s t); [done|by apply list_elem_of_In|done|done].
Qed.

(** * The whole section *)

(** [t], applied before [s], leaves the lines [s] names where they were. *)
Definition clear_of (t s : Splice.t) : Prop := s.(Splice.at_) + s.(Splice.remove) <= t.(Splice.at_).

Definition apply_splices (lines : list string) (splices : list Splice.t) : option (list string) :=
  foldl (fun out splice => out ≫= fun out => apply_splice out splice) (Some lines) splices.

Lemma simultaneous_nil lines : simultaneous lines [] = lines.
Proof.
  rewrite (simultaneous_split lines [] (length lines)) by (done || constructor).
  replace (S (length lines) - length lines) with 1 by lia. cbn. unfold edit_at, kept. cbn.
  by rewrite lookup_ge_None_2, firstn_all, app_nil_r by lia.
Qed.

Lemma apply_splices_from lines l : forall P,
  Forall (fun s => s.(Splice.at_) + s.(Splice.remove) <= length lines) l ->
  ForallOrdPairs clear_of l -> Forall (fun s => Forall (fun t => clear_of t s) P) l ->
  apply_splices (simultaneous lines P) l = Some (simultaneous lines (P ++ l)).
Proof.
  induction l as [|s l IH]; intros P B F C.
  { by rewrite app_nil_r. }
  inversion B as [|? ? Bs B']; subst. inversion F as [|? ? Fs F']; subst.
  inversion C as [|? ? Cs C']; subst.
  unfold apply_splices. cbn [foldl mbind option_bind].
  rewrite apply_splice_step by done.
  replace (P ++ s :: l) with ((P ++ [s]) ++ l) by (by rewrite <- app_assoc).
  apply IH; [done|done|]. rewrite Forall_forall in *. intros t I.
  apply Forall_app. split; [by apply C'|]. constructor; [by apply Fs|constructor].
Qed.

(** Pairs at one position are in order exactly when each position's sublist is. *)
Lemma FOP_keyed (R : Splice.t -> Splice.t -> Prop) l :
  ForallOrdPairs (fun a b => a.(Splice.at_) = b.(Splice.at_) -> R a b) l <->
  forall p, ForallOrdPairs R (List.filter (fun s => s.(Splice.at_) =? p) l).
Proof.
  induction l as [|a l IH]; [split; constructor|]. cbn [List.filter]. split.
  - intros F p. inversion F as [|? ? Fa F']; subst. pose proof (proj1 IH F' p) as Fp.
    destruct (Nat.eqb_spec (Splice.at_ a) p) as [<-|]; [|done]. constructor; [|done].
    rewrite Forall_forall in *. intros b I. apply list_elem_of_In, filter_In in I as [I E%Nat.eqb_eq].
    apply Fa; [by apply list_elem_of_In|done].
  - intros F. constructor.
    + specialize (F a.(Splice.at_)). rewrite Nat.eqb_refl in F. inversion F as [|? ? Fa _]; subst.
      rewrite Forall_forall in *. intros b I E. apply Fa.
      apply list_elem_of_In, filter_In. split; [by apply list_elem_of_In|by apply Nat.eqb_eq].
    + apply IH. intros p. specialize (F p). destruct (Splice.at_ a =? p); [|done].
      by inversion F.
Qed.

Lemma ordered_sort l : ordered l -> ordered (sort_by by_at_desc l).
Proof.
  unfold ordered. rewrite !(FOP_keyed (fun a b => b.(Splice.remove) = 0)).
  intros F p. by rewrite sort_at_filter.
Qed.

Lemma FOP_impl_in {A} (R S : A -> A -> Prop) l :
  (forall a b, a ∈ l -> b ∈ l -> R a b -> S a b) -> ForallOrdPairs R l -> ForallOrdPairs S l.
Proof.
  induction l as [|x l IH]; intros H F; [constructor|]. inversion F as [|? ? Fx F']; subst.
  constructor.
  - rewrite Forall_forall in *. intros y I. apply H; [by left|by right|by apply Fx].
  - apply IH; [|done]. intros a b Ia Ib. apply H; by right.
Qed.

Lemma FOP_and {A} (R S : A -> A -> Prop) l :
  ForallOrdPairs R l -> ForallOrdPairs S l -> ForallOrdPairs (fun a b => R a b /\ S a b) l.
Proof.
  induction 1 as [|x l Fx F IH]; intros G; inversion G as [|? ? Gx G']; subst; constructor.
  - by apply Forall_and.
  - by apply IH.
Qed.

Lemma sorted_FOP {A} (R : A -> A -> Prop) l : StronglySorted R l -> ForallOrdPairs R l.
Proof. induction 1; by constructor. Qed.

Lemma sorted_by_at l :
  ForallOrdPairs (fun a b => b.(Splice.at_) <= a.(Splice.at_)) (sort_by by_at_desc l).
Proof.
  eapply FOP_impl_in, sorted_FOP, sort_by_strongly_sorted;
    [|apply by_at_desc_total|apply by_at_desc_trans].
  intros a b _ _ L. by apply Nat.leb_le in L.
Qed.

(** Splices that remove lines, seen through their ranges. *)
Lemma FOP_ranges_of l : ForallOrdPairs apart (ranges_of l) <->
  ForallOrdPairs (fun a b => 0 < a.(Splice.remove) -> 0 < b.(Splice.remove) ->
    apart (a.(Splice.at_), a.(Splice.at_) + a.(Splice.remove))
          (b.(Splice.at_), b.(Splice.at_) + b.(Splice.remove))) l.
Proof.
  induction l as [|a l IH]; [split; constructor|].
  unfold ranges_of. cbn -[Nat.ltb]. fold (ranges_of l).
  destruct (Nat.ltb_spec 0 (Splice.remove a)) as [L|L].
  - split; intros F; inversion F as [|? ? Fa F']; subst; (constructor; [|by apply IH]);
      apply Forall_forall.
    + intros b I _ Lb. eapply Forall_forall in Fa; [exact Fa|]. apply elem_ranges_of. eauto.
    + intros r (b & I & Lb & ->)%elem_ranges_of. eapply Forall_forall in Fa; [|exact I]. auto.
  - rewrite IH. split; [|by inversion 1]. intros F. constructor; [|done].
    apply Forall_forall. intros b _ La. lia.
Qed.

Lemma compatible_perm l l' : l ≡ₚ l' -> compatible l -> compatible l'.
Proof.
  intros P [C1 C2]. split.
  - eapply FOP_perm; [exact apart_sym| |exact C1]. unfold ranges_of. by apply omap_Permutation.
  - intros s t. rewrite <- P. apply C2.
Qed.

Lemma FOP_elem {A} (R : A -> A -> Prop) l : ForallOrdPairs R l ->
  ForallOrdPairs (fun a b => a ∈ l /\ b ∈ l /\ R a b) l.
Proof. apply FOP_impl_in. auto. Qed.

Lemma compatible_pairs l : compatible l ->
  ForallOrdPairs (fun a b => b.(Splice.at_) <= a.(Splice.at_) ->
    (a.(Splice.at_) = b.(Splice.at_) -> b.(Splice.remove) = 0 \/ a.(Splice.remove) = 0) /\
    (a.(Splice.at_) <> b.(Splice.at_) -> clear_of a b)) l.
Proof.
  intros [C1 C2]. apply FOP_ranges_of in C1. eapply FOP_impl_in; [|exact C1].
  cbn. unfold apart, clear_of. cbn. intros a b Ia Ib A L.
  destruct (Nat.eq_dec (Splice.remove a) 0) as [Za|Za].
  - pose proof (C2 b a Ib Ia Za). lia.
  - destruct (Nat.eq_dec (Splice.remove b) 0); lia.
Qed.

Lemma elem_sort s l : s ∈ sort_by by_at_desc l <-> s ∈ l.
Proof. by rewrite <- (sort_by_perm by_at_desc l). Qed.

(** Splices in order and apart, applied bottom-up, act as if all at once. *)
Lemma apply_sorted lines l :
  Forall (fun s => s.(Splice.at_) + s.(Splice.remove) <= length lines) l ->
  compatible l -> ordered l ->
  apply_splices lines (sort_by by_at_desc l) = Some (simultaneous lines l).
Proof.
  intros B C O. rewrite <- (simultaneous_nil lines) at 1.
  rewrite apply_splices_from; [cbn [app]; by rewrite simultaneous_sort| | |].
  - by rewrite <- (sort_by_perm by_at_desc l).
  - apply (compatible_perm _ (sort_by by_at_desc l)), compatible_pairs in C; [|apply sort_by_perm].
    eapply FOP_impl_in; [|apply FOP_and; [exact C|apply FOP_and; [apply ordered_sort, O|apply sorted_by_at]]].
    cbn. intros a b _ _ (H & Z & L). destruct (H L) as [_ N].
    destruct (Nat.eq_dec (Splice.at_ a) (Splice.at_ b)) as [E|]; [|by apply N].
    unfold clear_of. rewrite (Z E). lia.
  - apply Forall_forall. intros s _. constructor.
Qed.

(** The out-of-bounds panic of [split_off] does not happen, whatever the order at a line. *)
Lemma apply_splices_total l : forall out,
  Forall (fun s => s.(Splice.at_) + s.(Splice.remove) <= length out) l ->
  ForallOrdPairs (fun a b => a.(Splice.remove) = 0 \/ clear_of a b) l ->
  exists out', apply_splices out l = Some out'.
Proof.
  induction l as [|s l IH]; intros out B F; [by eexists|].
  inversion B as [|? ? Bs B']; subst. inversion F as [|? ? Fs F']; subst.
  unfold apply_splices. cbn -[Nat.ltb]. unfold apply_splice at 2.
  destruct (Nat.ltb_spec (length out) (Splice.at_ s + Splice.remove s)); [lia|].
  apply IH; [|done]. apply Forall_forall. intros t I.
  eapply Forall_forall in Fs; [|exact I]. eapply Forall_forall in B'; [|exact I]. cbn in Fs, B'.
  rewrite !length_app, !length_take, length_drop. unfold clear_of in Fs. lia.
Qed.

Section apply.
Context (block_end : string -> string -> nat -> option nat).

Definition tail_of (lines : list string) : nat :=
  match last lines with Some EmptyString => length lines - 1 | _ => length lines end.

Definition splices_of (path original : string) (ops : list Op.t) : list Splice.t + EditError.t :=
  let lines := split_on LF original in
  to_splices block_end ops path original lines (length lines) (tail_of lines).

Lemma splices_of_bounds path original ops l : splices_of path original ops = inl l ->
  Forall (fun s => s.(Splice.at_) + s.(Splice.remove) <= length (split_on LF original)) l.
Proof.
  apply to_splices_bounds. unfold tail_of. destruct (last _) as [[|]|]; lia.
Qed.

Lemma apply_ops_unfold path original ops :
  apply_ops block_end path original ops =
  match splices_of path original ops with
  | inr e => Some (inr e)
  | inl splices =>
      if conflicting splices then Some (inr (parse_err "overlapping operations on the same lines"))
      else (fun out => inl (join lf out)) <$>
             apply_splices (split_on LF original) (sort_by by_at_desc splices)
  end.
Proof.
  unfold apply_ops, splices_of, conflicting, apply_splices, tail_of. cbn zeta.
  destruct (to_splices _ _ _ _ _ _ _) as [l|e]; [|done]. by destruct (overlapping _).
Qed.

Lemma apply_ops_total path original ops :
  exists r, apply_ops block_end path original ops = Some r.
Proof.
  rewrite apply_ops_unfold. destruct (splices_of path original ops) as [l|e] eqn:E; [|eauto].
  apply splices_of_bounds in E. pose proof (conflicting_spec l) as C.
  destruct (conflicting l); [eauto|]. assert (compatible l) as Cl by by apply C. clear C.
  destruct (apply_splices_total (sort_by by_at_desc l) (split_on LF original)) as [out ->]; [| |eauto].
  - by rewrite <- (sort_by_perm by_at_desc l).
  - apply (compatible_perm _ (sort_by by_at_desc l)), compatible_pairs in Cl; [|apply sort_by_perm].
    eapply FOP_impl_in; [|apply FOP_and; [exact Cl|apply sorted_by_at]].
    cbn. intros a b _ _ (H & L). destruct (H L) as [Z N]. unfold clear_of in *.
    destruct (Nat.eq_dec (Splice.at_ a) (Splice.at_ b)) as [Eq|Ne]; [|by right; apply N].
    destruct (Z Eq) as [Zb|Za]; [right; lia|by left].
Qed.
End apply.


(** * What the operations mean

    Lines are numbered from one; the place after line [0] is the top of the file. *)

Module Effect.
Inductive t :=
  | TakesOut (first last : nat) (body : list string)
  | PutsAfter (line : nat) (body : list string).
Definition body (e : t) : list string := match e with TakesOut _ _ body | PutsAfter _ body => body end.
(** The line its text comes after. *)
Definition after (e : t) : nat := match e with TakesOut first _ _ => first - 1 | PutsAfter line _ => line end.
Definition takes (e : t) (n : nat) : bool :=
  match e with TakesOut first last _ => (first <=? n) && (n <=? last) | PutsAfter _ _ => false end.
End Effect.

(** The text of some lines opens more braces than it closes. *)
Definition opens (lines : list string) (first last : nat) : Prop :=
  let text := concat_str (take (last - first + 1) (drop (first - 1) lines)) in
  count_char "}" text < count_char "{" text.

Definition line_no (lines : list string) (n : nat) : string := nth (n - 1) lines EmptyString.
Definition blank (lines : list string) (n : nat) : Prop := all_white (line_no lines n) = true.
Definition deeper (lines : list string) (start n : nat) : Prop :=
  indent (line_no lines start) < indent (line_no lines n).

Section meaning.
Context (block_end : string -> string -> nat -> option nat) (path original : string).
#[local] Abbreviation lines := (split_on LF original).

(** The last line of the block that starts on a line: where its syntax node ends, within the file; with no
    such node, where the braces that the line opens are closed; with none opened, the last of the more
    indented lines that follow, blank ones between them. *)
Inductive block_to (start : nat) : nat -> Prop :=
  | node_end e : block_end path original start = Some e ->
      block_to start (start `max` (e `min` length lines))
  | braces_closed last : block_end path original start = None -> opens lines start start ->
      start <= last <= length lines ->
      (forall n, start <= n < last -> opens lines start n) ->
      last = length lines \/ ~ opens lines start last -> block_to start last
  | indented last : block_end path original start = None -> ~ opens lines start start ->
      start <= last <= length lines ->
      (forall n, start < n <= last -> blank lines n \/ deeper lines start n) ->
      last = start \/ ~ blank lines last ->
      (forall n, last < n <= length lines -> (forall m, last < m < n -> blank lines m) ->
         blank lines n \/ ~ deeper lines start n) ->
      block_to start last.

(** What an operation does, in the original's lines. *)
Inductive means : Op.t -> Effect.t -> Prop :=
  | replaces first last body : means (Op.Replace first last body) (Effect.TakesOut first last body)
  | deletes first last : means (Op.Delete first last) (Effect.TakesOut first last [])
  | puts_before line body : means (Op.InsertBefore line body) (Effect.PutsAfter (line - 1) body)
  | puts_after line body : means (Op.InsertAfter line body) (Effect.PutsAfter line body)
  | puts_first body : means (Op.InsertHead body) (Effect.PutsAfter 0 body)
  | puts_last body : last lines <> Some EmptyString ->
      means (Op.InsertTail body) (Effect.PutsAfter (length lines) body)
  | puts_before_end body : last lines = Some EmptyString ->
      means (Op.InsertTail body) (Effect.PutsAfter (length lines - 1) body)
  | replaces_block first last body : block_to first last ->
      means (Op.ReplaceBlock first body) (Effect.TakesOut first last body)
  | deletes_block first last : block_to first last ->
      means (Op.DeleteBlock first) (Effect.TakesOut first last [])
  | puts_after_block first last body : block_to first last ->
      means (Op.InsertBlockAfter first body) (Effect.PutsAfter last body).

Definition in_file (n : nat) : Prop := 1 <= n <= length lines.

(** An operation on a line the file does not have, or whose lines end before they start, and the line it is
    refused for. *)
Definition misplaced (op : Op.t) (line : nat) : Prop :=
  match op with
  | Op.Replace first last _ | Op.Delete first last =>
      (length lines < last /\ line = last) \/
      (last <= length lines /\ (first = 0 \/ last < first) /\ line = first)
  | Op.InsertBefore n _ | Op.InsertAfter n _
  | Op.ReplaceBlock n _ | Op.DeleteBlock n | Op.InsertBlockAfter n _ => ~ in_file n /\ line = n
  | Op.InsertHead _ | Op.InsertTail _ => False
  end.
End meaning.

(** What is put after line [n]: the text of a later operation goes first. *)
Definition text_after (effects : list Effect.t) (n : nat) : list string :=
  flat_map Effect.body (rev (List.filter (fun e => Effect.after e =? n) effects)).

Definition left_of_line (lines : list string) (effects : list Effect.t) (n : nat) : list string :=
  if existsb (fun e => Effect.takes e n) effects then [] else option_list (lines !! (n - 1)).

(** The edited file: what is put after each line, then the next line unless it is taken out. *)
Definition edited (lines : list string) (effects : list Effect.t) : list string :=
  flat_map (fun n => text_after effects n ++ left_of_line lines effects (S n)) (seq 0 (S (length lines))).

(** No two operations take out a common line, and none puts text between two lines that one takes out. *)
Definition at_peace (effects : list Effect.t) : Prop :=
  ForallOrdPairs (fun a b => forall n, ~ (Effect.takes a n = true /\ Effect.takes b n = true)) effects /\
  forall a n body, a ∈ effects -> Effect.PutsAfter n body ∈ effects ->
    ~ (Effect.takes a n = true /\ Effect.takes a (S n) = true).

(** An operation that takes lines out is written before those that put text in front of its first line. *)
Definition in_turn (effects : list Effect.t) : Prop :=
  ForallOrdPairs (fun a b => Effect.after a = Effect.after b -> exists n body, b = Effect.PutsAfter n body) effects.

(** ** The splices do what the operations mean *)

Definition splice_of (e : Effect.t) : Splice.t :=
  match e with
  | Effect.TakesOut first last body => Splice.Mk (first - 1) (last - first + 1) body
  | Effect.PutsAfter line body => Splice.Mk line 0 body
  end.

Lemma count_char_app c a b : count_char c (a +:+ b) = count_char c a + count_char c b.
Proof.
  induction a as [|x a IH]; [done|]. change (String x a +:+ b) with (String x (a +:+ b)). cbn.
  rewrite IH. lia.
Qed.

Definition net (lines : list string) : Z := foldr (fun line n => net_braces line + n)%Z 0%Z lines.

Lemma net_concat lines : (net lines =
  Z.of_nat (count_char "{" (concat_str lines)) - Z.of_nat (count_char "}" (concat_str lines)))%Z.
Proof.
  induction lines as [|line lines IH]; [done|]. cbn [net foldr concat_str]. fold (net lines).
  rewrite !count_char_app, IH. unfold net_braces. lia.
Qed.

Lemma opens_net lines first last :
  opens lines first last <-> (0 < net (take (last - first + 1) (drop (first - 1) lines)))%Z.
Proof. unfold opens. cbn zeta. rewrite net_concat. lia. Qed.

(** [brace_scan] stops where the depth falls to nothing, or at the end. *)
Lemma brace_scan_stops lines : forall cursor depth,
  let stop := brace_scan lines cursor depth in
  (forall n, cursor <= n < stop -> (0 < depth + net (take (n - cursor) lines))%Z) /\
  (stop = cursor + length lines \/ (depth + net (take (stop - cursor) lines) <= 0)%Z).
Proof.
  induction lines as [|line lines IH]; intros cursor depth; cbn [brace_scan length].
  - split; [lia|]. left. lia.
  - destruct (Z.ltb_spec 0 depth) as [L|L]; [|split; [lia|right; rewrite Nat.sub_diag; cbn; lia]].
    specialize (IH (S cursor) (depth + net_braces line)%Z). cbn zeta in IH.
    pose proof (brace_scan_bounds lines (S cursor) (depth + net_braces line)%Z) as B.
    set (stop := brace_scan lines (S cursor) (depth + net_braces line)%Z) in *. destruct IH as [IH1 IH2]. split.
    + intros n Ln. destruct (Nat.eq_dec n cursor) as [->|Ne]; [rewrite Nat.sub_diag; cbn; lia|].
      replace (n - cursor) with (S (n - S cursor)) by lia. specialize (IH1 n ltac:(lia)).
      cbn [take net foldr]. fold (net (take (n - S cursor) lines)). lia.
    + destruct IH2 as [->|IH2]; [left; lia|right]. replace (stop - cursor) with (S (stop - S cursor)) by lia.
      cbn [take net foldr]. fold (net (take (stop - S cursor) lines)). lia.
Qed.

(** [indent_scan] stops after the last deeper line before one that is neither deeper nor blank. *)
Lemma indent_scan_stops lines base : forall cursor e, e <= cursor ->
  let stop := indent_scan lines base cursor e in
  let row n := nth (n - S cursor) lines EmptyString in
  (forall n, cursor < n <= stop -> all_white (row n) = true \/ base < indent (row n)) /\
  (stop = e \/ cursor < stop /\ all_white (row stop) = false) /\
  (forall n, cursor < n <= cursor + length lines -> stop < n ->
     (forall m, cursor < m < n -> stop < m -> all_white (row m) = true) ->
     all_white (row n) = true \/ ~ base < indent (row n)).
Proof.
  induction lines as [|line lines IH]; intros cursor e L stop row; subst stop.
  { cbn [indent_scan length]. split_and!; [lia|by left|lia]. }
  assert (forall n, S cursor < n -> row n = nth (n - S (S cursor)) lines EmptyString) as R.
  { intros n Ln. unfold row. by replace (n - S cursor) with (S (n - S (S cursor))) by lia. }
  assert (row (S cursor) = line) as R0 by (unfold row; by rewrite Nat.sub_diag).
  cbn [indent_scan length]. destruct (all_white line) eqn:W.
  - specialize (IH (S cursor) e ltac:(lia)). cbn zeta in IH.
    set (stop := indent_scan lines base (S cursor) e) in *. destruct IH as (H1 & H2 & H3). split_and!.
    + intros n Ln. destruct (Nat.eq_dec n (S cursor)) as [->|Ne]; [left; by rewrite R0|].
      rewrite R by lia. apply H1. lia.
    + destruct H2 as [H2|[H2 H2']]; [by left|right]. split; [lia|]. by rewrite R by lia.
    + intros n Ln Ls B. destruct (Nat.eq_dec n (S cursor)) as [->|Ne]; [left; by rewrite R0|].
      rewrite R by lia. apply H3; [lia|done|]. intros m Lm Lt. rewrite <- R by lia. apply B; lia.
  - destruct (Nat.ltb_spec base (indent line)) as [D|D].
    + pose proof (indent_scan_bounds lines base (S cursor) (S cursor) ltac:(lia)) as Bd.
      specialize (IH (S cursor) (S cursor) ltac:(lia)). cbn zeta in IH.
      set (stop := indent_scan lines base (S cursor) (S cursor)) in *. destruct IH as (H1 & H2 & H3). split_and!.
      * intros n Ln. destruct (Nat.eq_dec n (S cursor)) as [->|Ne]; [right; by rewrite R0|].
        rewrite R by lia. apply H1. lia.
      * right. split; [lia|]. destruct H2 as [->|[H2 H2']]; [by rewrite R0|]. by rewrite R by lia.
      * intros n Ln Ls B. rewrite R by lia. apply H3; [lia|done|]. intros m Lm Lt. rewrite <- R by lia.
        apply B; lia.
    + split_and!; [lia|by left|]. intros n Ln Ls B. destruct (Nat.eq_dec n (S cursor)) as [->|Ne].
      * right. rewrite R0. lia.
      * specialize (B (S cursor) ltac:(lia) ltac:(lia)). rewrite R0 in B. congruence.
Qed.

Lemma nth_drop {A} n k (l : list A) d : nth n (drop k l) d = nth (k + n) l d.
Proof. revert l. induction k as [|k IH]; intros [|x l]; cbn; [done|done|by destruct n|apply IH]. Qed.

Section bridge.
Context (block_end : string -> string -> nat -> option nat) (path original : string).
#[local] Abbreviation lines := (split_on LF original).
#[local] Abbreviation total := (length lines).

Lemma take_from {A} (l : list A) start n d : 1 <= start <= n -> start <= length l ->
  take (n - start + 1) (drop (start - 1) l) = nth (start - 1) l d :: take (n - start) (drop start l).
Proof.
  intros Ls L. replace (n - start + 1) with (S (n - start)) by lia.
  destruct (lookup_lt_is_Some_2 l (start - 1)) as [x E]; [lia|].
  rewrite (drop_S _ x) by done. replace (S (start - 1)) with start by lia. cbn [take]. f_equal.
  symmetry. by apply nth_lookup_Some.
Qed.

Lemma opens_line start : 1 <= start <= total ->
  opens lines start start <-> (0 < net_braces (nth (start - 1) lines EmptyString))%Z.
Proof.
  intros L. rewrite opens_net, (take_from _ _ _ EmptyString) by lia. rewrite Nat.sub_diag. cbn.
  by rewrite Z.add_0_r.
Qed.

Lemma resolve_block_means start :
  match resolve_block block_end path original lines start with
  | inl (first, last) => first = start /\ block_to block_end path original start last /\ in_file original start /\
      start <= last
  | inr e => ~ in_file original start /\ e = EditError.LineOutOfRange start total
  end.
Proof.
  unfold resolve_block, in_file. destruct (Nat.eqb_spec start 0) as [|Z]; [cbn [orb]; split; [lia|done]|].
  destruct (Nat.ltb_spec total start) as [|L]; cbn [orb]; [split; [lia|done]|].
  unfold block_span. destruct (block_end path original start) as [e|] eqn:E; cbn [fmap option_fmap option_map].
  - replace (clamp e start total) with (start `max` (e `min` total)).
    + split_and!; [done|by apply node_end|lia..].
    + unfold clamp. destruct (Nat.ltb_spec e start), (Nat.ltb_spec total e); lia.
  - pose proof (length_drop lines start) as Ld. pose proof (opens_line start ltac:(lia)) as O.
    destruct (Z.ltb_spec 0 (net_braces (nth (start - 1) lines EmptyString))) as [N|N].
    + pose proof (brace_scan_bounds (drop start lines) start (net_braces (nth (start - 1) lines EmptyString))) as B.
      pose proof (brace_scan_stops (drop start lines) start (net_braces (nth (start - 1) lines EmptyString))) as S.
      set (stop := brace_scan _ _ _) in *. cbn zeta in S. destruct S as [S1 S2].
      split_and!; [done| |lia..]. apply braces_closed; [done|by apply O|lia| |].
      * intros n Ln. rewrite opens_net, (take_from _ _ _ EmptyString) by lia. cbn [net foldr]. by apply S1.
      * destruct S2 as [S2|S2]; [left; lia|right].
        rewrite opens_net, (take_from _ _ _ EmptyString) by lia. cbn [net foldr].
        fold (net (take (stop - start) (drop start lines))). lia.
    + pose proof (indent_scan_bounds (drop start lines) (indent (nth (start - 1) lines EmptyString)) start start
        ltac:(lia)) as B.
      pose proof (indent_scan_stops (drop start lines) (indent (nth (start - 1) lines EmptyString)) start start
        ltac:(lia)) as S.
      set (stop := indent_scan _ _ _ _) in *. cbn zeta in S. destruct S as (S1 & S2 & S3).
      assert (forall n, start < n -> nth (n - S start) (drop start lines) EmptyString = line_no lines n) as R.
      { intros n Ln. rewrite nth_drop. unfold line_no. f_equal. lia. }
      split_and!; [done| |lia..]. apply indented; [done|rewrite O; lia|lia| | |].
      * intros n Ln. unfold blank, deeper. rewrite <- R by lia. by apply S1.
      * destruct S2 as [->|[S2 S2']]; [by left|right]. unfold blank. rewrite <- R by lia. by rewrite S2'.
      * intros n Ln Bm. unfold blank, deeper. rewrite <- R by lia. apply S3; [lia..|].
        intros m Lm Lt. rewrite R by lia. apply Bm. lia.
Qed.

Definition sound (e : Effect.t) : Prop :=
  match e with Effect.TakesOut first last _ => 1 <= first <= last | Effect.PutsAfter _ _ => True end.

Lemma to_splice_means op :
  match to_splice block_end op path original lines total (tail_of lines) with
  | inl splice => (forall line, ~ misplaced original op line) /\
      exists e, means block_end path original op e /\ sound e /\ splice = splice_of e
  | inr err => exists line, misplaced original op line /\ err = EditError.LineOutOfRange line total
  end.
Proof.
  assert (forall first last, match check_range first last total with
    | inl _ => 1 <= first <= last /\ last <= total
    | inr err => (total < last /\ err = EditError.LineOutOfRange last total) \/
        (last <= total /\ (first = 0 \/ last < first) /\ err = EditError.LineOutOfRange first total) end) as CR.
  { intros first last. unfold check_range. destruct (Nat.eqb_spec first 0), (Nat.ltb_spec last first),
      (Nat.ltb_spec total last); cbn [orb]; try lia; auto. }
  assert (forall line, match check_line line total with
    | inl _ => in_file original line
    | inr err => ~ in_file original line /\ err = EditError.LineOutOfRange line total end) as CL.
  { intros line. unfold check_line, in_file. destruct (Nat.eqb_spec line 0), (Nat.ltb_spec total line);
      cbn [orb]; split; lia || done. }
  destruct op as [f l b|f l|n b|n b|b|b|n b|n|n b]; cbn [to_splice misplaced].
  1-2: specialize (CR f l); destruct (check_range f l total) as [[]|err]; cbn;
    [split; [intros m; lia|eexists; split_and!; [constructor|cbn; lia|done]]|
     destruct CR as [[L ->]|(L & K & ->)]; eauto 10].
  1-2: specialize (CL n); destruct (check_line n total) as [[]|err]; cbn;
    [split; [by intros m [? _]|eexists; split_and!; [constructor|done|done]]|
     destruct CL as [L ->]; eauto].
  - split; [intros m []|]. eexists. split_and!; [constructor|done|done].
  - split; [intros m []|]. unfold tail_of. destruct (last lines) as [x|] eqn:E.
    + destruct x as [|c x].
      * exists (Effect.PutsAfter (total - 1) b). split_and!; [by apply puts_before_end|done|done].
      * exists (Effect.PutsAfter total b). split_and!; [apply puts_last; congruence|done|done].
    + exists (Effect.PutsAfter total b). split_and!; [apply puts_last; congruence|done|done].
  - pose proof (resolve_block_means n) as R. destruct (resolve_block _ _ _ _ _) as [[x y]|err]; cbn.
    + destruct R as (-> & B & I & L). split; [by intros m [? _]|].
      exists (Effect.TakesOut n y b). split_and!; [by constructor|cbn; unfold in_file in I; lia..|done].
    + destruct R as [I ->]. eauto.
  - pose proof (resolve_block_means n) as R. destruct (resolve_block _ _ _ _ _) as [[x y]|err]; cbn.
    + destruct R as (-> & B & I & L). split; [by intros m [? _]|].
      exists (Effect.TakesOut n y []). split_and!; [by constructor|cbn; unfold in_file in I; lia..|done].
    + destruct R as [I ->]. eauto.
  - pose proof (resolve_block_means n) as R. destruct (resolve_block _ _ _ _ _) as [[x y]|err]; cbn.
    + destruct R as (-> & B & I & L). split; [by intros m [? _]|].
      exists (Effect.PutsAfter y b). split_and!; [by econstructor|done..].
    + destruct R as [I ->]. eauto.
Qed.

Lemma to_splices_means ops :
  match to_splices block_end ops path original lines total (tail_of lines) with
  | inl splices => (forall op line, op ∈ ops -> ~ misplaced original op line) /\
      exists effects, Forall2 (means block_end path original) ops effects /\ Forall sound effects /\
        splices = map splice_of effects
  | inr err => exists before op after line, ops = before ++ op :: after /\
      (forall op' line', op' ∈ before -> ~ misplaced original op' line') /\
      misplaced original op line /\ err = EditError.LineOutOfRange line total
  end.
Proof.
  induction ops as [|op ops IH]; cbn [to_splices].
  { split; [by intros ? ? ?%not_elem_of_nil|]. exists []. by repeat constructor. }
  pose proof (to_splice_means op) as O. destruct (to_splice _ _ _ _ _ _ _) as [s|err]; cbn.
  - destruct O as [O (e & M & S & ->)]. destruct (to_splices _ _ _ _ _ _ _) as [l|err]; cbn.
    + destruct IH as [H (effects & Ms & Ss & ->)]. split.
      * intros op' line [->|I]%elem_of_cons; [apply O|by apply H].
      * exists (e :: effects). split_and!; [by constructor..|done].
    + destruct IH as (before & op' & after & line & -> & H & Mp & ->).
      exists (op :: before), op', after, line. split_and!; try done.
      intros o l [->|I]%elem_of_cons; [apply O|by apply H].
  - destruct O as (line & Mp & ->). exists [], op, ops, line. split_and!; try done.
    by intros ? ? ?%not_elem_of_nil.
Qed.
End bridge.

Lemma splice_after e : Splice.at_ (splice_of e) = Effect.after e.
Proof. by destruct e. Qed.
Lemma splice_body e : Splice.body (splice_of e) = Effect.body e.
Proof. by destruct e. Qed.

Lemma splice_covers e n : sound e -> covers n (splice_of e) = Effect.takes e (S n).
Proof.
  destruct e as [f l b|k b]; unfold covers; cbn [splice_of Splice.at_ Splice.remove Effect.takes sound].
  - intros L. apply eq_true_iff_eq. rewrite !andb_true_iff, !Nat.leb_le, Nat.ltb_lt. lia.
  - intros _. rewrite Nat.add_0_r. apply andb_false_iff. destruct (Nat.leb_spec k n); [right|by left].
    by apply Nat.ltb_ge.
Qed.

Lemma FOP_map {A B} (R : B -> B -> Prop) (g : A -> B) l :
  ForallOrdPairs R (map g l) <-> ForallOrdPairs (fun a b => R (g a) (g b)) l.
Proof.
  induction l as [|a l IH]; cbn; [split; constructor|].
  assert (Forall (R (g a)) (map g l) <-> Forall (fun b => R (g a) (g b)) l) as E by apply Forall_map.
  split; intros F; inversion F; subst; constructor; tauto.
Qed.

Lemma simultaneous_edited lines effects : Forall sound effects ->
  simultaneous lines (map splice_of effects) = edited lines effects.
Proof.
  intros So. unfold simultaneous, edited. apply flat_map_ext. intros n. unfold edit_at. f_equal.
  - unfold put_at, text_after. induction effects as [|e effects IH] using rev_ind; [done|].
    apply Forall_app in So as [So _]. rewrite map_app, !List.filter_app, !rev_app_distr, !flat_map_app, IH by done.
    f_equal. cbn [map List.filter]. rewrite splice_after. destruct (_ =? n); [|done].
    cbn. by rewrite splice_body.
  - unfold kept, left_of_line. replace (S n - 1) with n by lia.
    replace (existsb (covers n) (map splice_of effects)) with (existsb (fun e => Effect.takes e (S n)) effects).
    + by destruct (lines !! n).
    + induction So as [|e effects Se So IH]; [done|]. cbn. by rewrite IH, splice_covers.
Qed.

Lemma compatible_at_peace effects : Forall sound effects ->
  compatible (map splice_of effects) <-> at_peace effects.
Proof.
  intros S. rewrite Forall_forall in S. unfold compatible, at_peace. apply Morphisms_Prop.and_iff_morphism.
  - rewrite FOP_ranges_of, FOP_map. split; apply FOP_impl_in; intros a b Ia Ib; apply S in Ia, Ib;
      destruct a as [f l x|k x], b as [f' l' x'|k' x']; unfold apart; cbn [splice_of Splice.at_ Splice.remove fst snd Effect.takes sound] in *;
      try (intros; lia); try (intros _ n []; done).
    + intros H n. rewrite !andb_true_iff, !Nat.leb_le. lia.
    + intros H _ _. pose proof (H (f `max` f')) as N. rewrite !andb_true_iff, !Nat.leb_le in N. lia.
  - split.
    + intros H a n body Ia In [T1 T2]. pose proof (S _ Ia) as Sa. destruct a as [f l x|]; [|done].
      apply (H (splice_of (Effect.TakesOut f l x)) (splice_of (Effect.PutsAfter n body)));
        [by apply list_elem_of_fmap_2|by apply list_elem_of_fmap_2|done|].
      cbn [Effect.takes] in T1, T2. apply andb_true_iff in T1 as [T1%Nat.leb_le _], T2 as [_ T2%Nat.leb_le].
      cbn in *. lia.
    + intros H s t Is It Z. apply list_elem_of_fmap in Is as (a & -> & Ia). apply list_elem_of_fmap in It as (b & -> & Ib).
      destruct b as [f l x|n body]; [cbn in Z; lia|]. pose proof (S _ Ia) as Sa.
      destruct a as [f l x|k x]; cbn [splice_of Splice.at_ Splice.remove sound] in *; [|lia].
      intros L. apply (H _ _ _ Ia Ib). cbn [Effect.takes]. rewrite !andb_true_iff, !Nat.leb_le. lia.
Qed.

Lemma in_turn_ordered effects : in_turn effects -> ordered (map splice_of effects).
Proof.
  unfold in_turn, ordered. rewrite FOP_map. apply FOP_impl_in. intros a b _ _ H.
  rewrite !splice_after. intros E. by destruct (H E) as (n & body & ->).
Qed.

Section simultaneous.
Context (block_end : string -> string -> nat -> option nat).

(** C39: the operations of a hashline section act on the original lines all at once, each as its directive
    says: taking out lines, or those of the block that starts on one, and putting text in their place, before
    or after a line, after a block, or at the top or the bottom of the file. The first operation on a line the
    file does not have is the section's error. Otherwise, when two operations take out a common line, or one
    puts text between two lines that another takes out, the section is refused; and when none do, provided an
    operation that takes lines out is written before those that put text in front of its first line, the
    result has, from the top on, what was put after each line of the original, a later operation's text first,
    then the next line unless it was taken out. *)
Theorem apply_ops_simultaneous path original ops :
  let lines := split_on LF original in
  (exists before op after line, ops = before ++ op :: after /\
     (forall op' line', op' ∈ before -> ~ misplaced original op' line') /\ misplaced original op line /\
     apply_ops block_end path original ops = Some (inr (EditError.LineOutOfRange line (length lines)))) \/
  (forall op line, op ∈ ops -> ~ misplaced original op line) /\
  exists effects, Forall2 (means block_end path original) ops effects /\
    (~ at_peace effects -> apply_ops block_end path original ops =
       Some (inr (parse_err "overlapping operations on the same lines"))) /\
    (at_peace effects -> in_turn effects -> apply_ops block_end path original ops =
       Some (inl (join lf (edited lines effects)))).
Proof.
  intros lines. rewrite apply_ops_unfold. pose proof (to_splices_means block_end path original ops) as M.
  fold (splices_of block_end path original ops) in M.
  destruct (splices_of block_end path original ops) as [l|e] eqn:E.
  - right. destruct M as [H (effects & Ms & Ss & ->)]. split; [done|]. exists effects. split; [done|].
    apply splices_of_bounds in E. pose proof (conflicting_spec (map splice_of effects)) as C.
    rewrite compatible_at_peace in C by done. destruct (conflicting _); split; intros P.
    + done.
    + by apply C in P.
    + exfalso. by apply P, C.
    + intros O. rewrite apply_sorted; [by rewrite simultaneous_edited|done|by apply compatible_at_peace|
        by apply in_turn_ordered].
  - left. destruct M as (before & op & after & line & -> & H & Mp & ->). by exists before, op, after, line.
Qed.
End simultaneous.

(** * Reading a patch *)

Definition suffix_of (rest lines : list string) : Prop := exists done, lines = done ++ rest.

Lemma suffix_refl l : suffix_of l l.
Proof. by exists []. Qed.
Lemma suffix_cons x r l : suffix_of r l -> suffix_of r (x :: l).
Proof. intros [d ->]. by exists (x :: d). Qed.
Lemma suffix_trans a b c : suffix_of a b -> suffix_of b c -> suffix_of a c.
Proof. intros [d ->] [d' ->]. exists (d' ++ d). by rewrite app_assoc. Qed.
Lemma suffix_length a b : suffix_of a b -> length a <= length b.
Proof. intros [d ->]. rewrite length_app. lia. Qed.
Lemma suffix_elem x a b : suffix_of a b -> x ∈ a -> x ∈ b.
Proof. intros [d ->] I. apply elem_of_app. by right. Qed.

Create HintDb suffix.
#[local] Hint Resolve suffix_refl suffix_cons suffix_trans : suffix.

Lemma collect_body_suffix lines : suffix_of (collect_body lines).2 lines.
Proof.
  induction lines as [|line lines IH]; [apply suffix_refl|]. cbn [collect_body].
  destruct (strip_prefix "+" line); [|apply suffix_refl].
  destruct (collect_body lines). by apply suffix_cons.
Qed.

Lemma parse_op_suffix directive lines op rest :
  parse_op directive lines = inl (op, rest) -> suffix_of rest lines.
Proof.
  unfold parse_op. intros H.
  repeat case_match; simplify_eq; try apply collect_body_suffix;
    repeat match type of H with
    | context [strip_colon ?r] => destruct (strip_colon r); cbn in H; [|done]
    | context [parse_lid ?r] => destruct (parse_lid r); cbn in H; [|done]
    | context [parse_range ?r] => destruct (parse_range r) as [[]|]; cbn in H; [|done]
    end; injection H as _ <-; eauto using suffix_refl, collect_body_suffix.
Qed.

Lemma parse_ops_suffix fuel : forall lines ops rest,
  parse_ops fuel lines = inl (ops, rest) -> suffix_of rest lines.
Proof.
  induction fuel as [|fuel IH]; intros lines ops rest; cbn.
  { intros [= <- <-]. apply suffix_refl. }
  destruct lines as [|line lines]; [intros [= <- <-]; apply suffix_refl|].
  destruct (_ || _); [intros [= <- <-]; apply suffix_refl|].
  destruct (all_white line); [intros H%IH; by apply suffix_cons|].
  destruct (parse_op line lines) as [[op r]|] eqn:P; cbn; [|done].
  destruct (parse_ops fuel r) as [[os r']|] eqn:Q; cbn; [|done].
  intros [= <- <-]. apply IH in Q. apply parse_op_suffix in P. eauto with suffix.
Qed.

Lemma parse_ops_fuel f1 : forall f2 lines, length lines <= f1 -> length lines <= f2 ->
  parse_ops f1 lines = parse_ops f2 lines.
Proof.
  induction f1 as [|f1 IH]; intros [|f2] [|line lines]; cbn [length]; intros; try done || lia.
  cbn. destruct (_ || _); [done|]. destruct (all_white line); [apply IH; lia|].
  destruct (parse_op line lines) as [[op r]|] eqn:P; cbn; [|done].
  apply parse_op_suffix, suffix_length in P. by rewrite (IH f2) by lia.
Qed.

Section plan.
Context (block_end : string -> string -> nat -> option nat).
#[local] Notation plan_section := (plan_section block_end).
#[local] Notation plan_sections := (plan_sections block_end).
#[local] Notation plan := (plan block_end).

(** What one section of an accepted patch plans: the tag of the file as it is now. *)
Definition fresh_update (reader : FileReader) (headers : list string) (change : FileChange.t) : Prop :=
  exists header path expected old ops updated,
    header ∈ headers /\ parse_header header = Some (path, expected) /\
    reader path = Some old /\ eq_ignore_ascii_case (snapshot_tag old) expected = true /\
    ops <> [] /\ apply_ops block_end path (normalize old) ops = Some (inl updated) /\
    change = FileChange.Update path (restore_newline updated (detect_newline old)).

Lemma plan_section_total reader line rest : exists r, plan_section reader line rest = Some r.
Proof.
  unfold Hashline.plan_section. destruct (parse_header line) as [[path expected]|]; [|eauto].
  destruct (reader path) as [old|]; [|eauto]. destruct (negb _); [eauto|].
  destruct (parse_ops _ _) as [[[|op ops] r]|]; [eauto| |eauto].
  destruct (apply_ops_total block_end path (normalize old) (op :: ops)) as [[|] ->]; eauto.
Qed.

Lemma plan_section_inl reader line rest change rest' :
  plan_section reader line rest = Some (inl (change, rest')) ->
  suffix_of rest' rest /\ fresh_update reader (line :: rest) change.
Proof.
  unfold Hashline.plan_section. destruct (parse_header line) as [[path expected]|] eqn:H; [|done].
  destruct (reader path) as [old|] eqn:R; [|done]. destruct (negb _) eqn:T; [done|].
  apply negb_false_iff in T. destruct (parse_ops _ _) as [[[|op ops] r]|] eqn:P; [done| |done].
  destruct (apply_ops _ _ _ _) as [[updated|]|] eqn:A; [|done|done]. intros [= <- <-].
  split; [by eapply parse_ops_suffix|].
  exists line, path, expected, old, (op :: ops), updated. split_and!; (done || by left).
Qed.

Lemma fresh_update_mono reader l l' change :
  suffix_of l l' -> fresh_update reader l change -> fresh_update reader l' change.
Proof.
  intros S (h & p & e & o & ops & u & I & H). exists h, p, e, o, ops, u.
  split; [by eapply suffix_elem|done].
Qed.

Lemma plan_sections_total reader fuel : forall lines changes,
  exists r, plan_sections fuel reader lines changes = Some r.
Proof.
  induction fuel as [|fuel IH]; intros lines changes; [by eexists|]. cbn [Hashline.plan_sections].
  destruct lines as [|line rest]; [by eexists|]. destruct (String.eqb line END_); [by eexists|].
  destruct (all_white line); [apply IH|].
  destruct (plan_section_total reader line rest) as [[[change rest']|e] ->]; [apply IH|by eexists].
Qed.

Lemma plan_sections_fuel reader f1 : forall f2 lines changes,
  length lines <= f1 -> length lines <= f2 ->
  plan_sections f1 reader lines changes = plan_sections f2 reader lines changes.
Proof.
  induction f1 as [|f1 IH]; intros [|f2] [|line rest] changes; cbn [length]; intros; try done || lia.
  cbn [Hashline.plan_sections]. destruct (String.eqb line END_); [done|].
  destruct (all_white line); [apply IH; lia|].
  destruct (plan_section reader line rest) as [[[change rest']|e]|] eqn:P; [|done|done].
  apply plan_section_inl in P as [S%suffix_length _]. apply IH; lia.
Qed.

Lemma plan_sections_fresh reader fuel : forall lines changes planned,
  plan_sections fuel reader lines changes = Some (inl planned) ->
  planned <> [] /\ exists new, planned = changes ++ new /\ Forall (fresh_update reader lines) new.
Proof.
  induction fuel as [|fuel IH]; intros lines changes planned; cbn [Hashline.plan_sections]; [done|].
  destruct lines as [|line rest]; [done|]. destruct (String.eqb line END_).
  { destruct changes; [done|]. intros [= <-]. split; [done|]. exists []. by rewrite app_nil_r. }
  destruct (all_white line).
  { intros (N & new & -> & F)%IH. split; [done|]. exists new. split; [done|].
    eapply Forall_impl; [exact F|]. intros c. apply fresh_update_mono. eauto with suffix. }
  destruct (plan_section reader line rest) as [[[change rest']|e]|] eqn:P; [|done|done].
  apply plan_section_inl in P as [S C]. intros (N & new & -> & F)%IH. split; [done|].
  exists (change :: new). rewrite <- app_assoc. split; [done|]. constructor; [done|].
  eapply Forall_impl; [exact F|]. intros c. apply fresh_update_mono. eauto with suffix.
Qed.

Lemma skip_blank_suffix lines : suffix_of (skip_blank lines) lines.
Proof.
  induction lines as [|line lines IH]; [apply suffix_refl|]. cbn.
  destruct (all_white line); [by apply suffix_cons|apply suffix_refl].
Qed.

(** Planning a hashline patch always ends with changes or an error, never with the panic of
    a splice past the end of the file, and no file is changed on a stale view: a planned patch
    is one update at least, and each update is of a file some section's header names with the
    tag (letter case aside) of the content the file has now, and holds that content, in its
    own line ends, with the section's operations applied. *)
Theorem plan_fresh text reader :
  match plan text reader with
  | Some (inl changes) =>
      changes <> [] /\ Forall (fresh_update reader (split_on LF (normalize text))) changes
  | Some (inr _) => True
  | None => False
  end.
Proof.
  unfold Hashline.plan. pose proof (skip_blank_suffix (split_on LF (normalize text))) as S.
  destruct (skip_blank _) as [|line rest]; [done|]. destruct (String.eqb line BEGIN); [|done].
  destruct (plan_sections_total reader (Datatypes.S (length rest)) rest []) as [[planned|] E];
    rewrite E; [|done].
  apply plan_sections_fresh in E as (N & new & -> & F). split; [done|].
  eapply Forall_impl; [exact F|]. intros c. apply fresh_update_mono. eauto with suffix.
Qed.
End plan.

(** * The view that carries the tag *)

Definition digits_16 : list N := map N.of_nat (seq 0 16).

Lemma digits_16_spec n : (n < 16)%N -> n ∈ digits_16.
Proof.
  intros L. apply list_elem_of_In, in_map_iff. exists (N.to_nat n). rewrite in_seq. lia.
Qed.

Lemma hex_digit_ok n : (n < 16)%N ->
  is_ascii_hexdigit (upper_hex_digit n) = true /\ no_char "#" (String (upper_hex_digit n) EmptyString) = true.
Proof.
  intros L.
  assert (Forall (fun n => is_ascii_hexdigit (upper_hex_digit n) = true /\
    no_char "#" (String (upper_hex_digit n) EmptyString) = true) digits_16) as F
    by (repeat constructor).
  rewrite Forall_forall in F. by apply F, digits_16_spec.
Qed.

Lemma upper_hex_ok digits : forall n,
  String.length (upper_hex digits n) = digits /\ no_char "#" (upper_hex digits n) = true /\
  forallb is_ascii_hexdigit (String.list_ascii_of_string (upper_hex digits n)) = true.
Proof.
  induction digits as [|d IH]; intros n; [done|]. cbn [upper_hex].
  destruct (IH (n / 16)%N) as (L & F & H).
  destruct (hex_digit_ok (n mod 16)) as [X Y]; [by apply N.mod_lt|].
  rewrite length_app_str, no_char_app, F, Y, L. split; [cbn; lia|]. split; [done|].
  assert (forall a b, String.list_ascii_of_string (a +:+ b) =
    String.list_ascii_of_string a ++ String.list_ascii_of_string b) as A.
  { intros a b. induction a as [|c a IHa]; [done|]. change (String c a +:+ b) with (String c (a +:+ b)).
    cbn. by rewrite IHa. }
  rewrite A, forallb_app, H. cbn. by rewrite X.
Qed.

Lemma parse_header_spec path tag :
  path <> EmptyString -> String.length tag = 16 -> no_char "#" tag = true ->
  forallb is_ascii_hexdigit (String.list_ascii_of_string tag) = true ->
  parse_header ("[" +:+ path +:+ "#" +:+ tag +:+ "]") = Some (path, tag).
Proof.
  intros P L F H. unfold parse_header. rewrite strip_prefix_app.
  change (Some ?x ≫= ?f) with (f x).
  replace (path +:+ "#" +:+ tag +:+ "]") with ((path +:+ String "#" tag) +:+ "]")
    by (by rewrite app_assoc_str).
  rewrite strip_suffix_app. change (Some ?x ≫= ?f) with (f x). cbn beta.
  rewrite rsplit_once_fresh by done. change (Some ?x ≫= ?f) with (f x). cbn beta iota.
  rewrite L, H. destruct (String.eqb_spec path EmptyString); [done|]. done.
Qed.

Lemma lower_app a b : lower (a +:+ b) = lower a +:+ lower b.
Proof.
  induction a as [|c a IH]; [done|].
  change (String (ascii_lower c) (lower (a +:+ b)) = String (ascii_lower c) (lower a +:+ lower b)).
  by rewrite IH.
Qed.
Lemma length_lower s : String.length (lower s) = String.length s.
Proof. induction s as [|c s IH]; [done|]. cbn. by rewrite IH. Qed.

Lemma app_inj_len a b x y : String.length a = String.length b ->
  a +:+ x = b +:+ y -> a = b /\ x = y.
Proof.
  revert b. induction a as [|c a IH]; intros [|d b] L E; try done.
  change (String c (a +:+ x) = String d (b +:+ y)) in E. injection E as -> E.
  injection L as L. by destruct (IH b L E) as [-> ->].
Qed.

(** No two upper-case digits differ in case alone. *)
Lemma lower_digit_inj n m : (n < 16)%N -> (m < 16)%N ->
  ascii_lower (upper_hex_digit n) = ascii_lower (upper_hex_digit m) ->
  upper_hex_digit n = upper_hex_digit m.
Proof.
  intros Ln Lm.
  assert (Forall (fun n => Forall (fun m =>
    (ascii_lower (upper_hex_digit n) =? ascii_lower (upper_hex_digit m))%char =
    (upper_hex_digit n =? upper_hex_digit m)%char)
    digits_16) digits_16) as F by (repeat constructor).
  rewrite Forall_forall in F. specialize (F n (digits_16_spec n Ln)). rewrite Forall_forall in F.
  specialize (F m (digits_16_spec m Lm)). intros E. rewrite E, Ascii.eqb_refl in F.
  by apply Ascii.eqb_eq.
Qed.

Lemma lower_upper_hex_inj d : forall n m,
  lower (upper_hex d n) = lower (upper_hex d m) -> upper_hex d n = upper_hex d m.
Proof.
  induction d as [|d IH]; intros n m; [done|]. cbn [upper_hex]. rewrite !lower_app. intros E.
  apply app_inj_len in E as [E1%IH E2].
  - rewrite E1. f_equal. injection E2 as E2. f_equal.
    apply lower_digit_inj; [by apply N.mod_lt|by apply N.mod_lt|done].
  - rewrite !length_lower. destruct (upper_hex_ok d (n / 16)%N) as [-> _].
    by destruct (upper_hex_ok d (m / 16)%N) as [-> _].
Qed.

Lemma tag_eq_ignore_case a b :
  eq_ignore_ascii_case (snapshot_tag a) (snapshot_tag b) = bool_decide (snapshot_tag a = snapshot_tag b).
Proof.
  unfold eq_ignore_ascii_case. apply eq_true_iff_eq. rewrite String.eqb_eq, bool_decide_eq_true.
  split; [apply lower_upper_hex_inj|by intros ->].
Qed.

(** The rows of the view: the lines of the file, numbered from one. *)
Definition view_header (path content : string) : string :=
  "[" +:+ path +:+ "#" +:+ snapshot_tag content +:+ "]".

Lemma parse_view_header path content :
  path <> EmptyString -> parse_header (view_header path content) = Some (path, snapshot_tag content).
Proof. intros P. destruct (upper_hex_ok 16 (uval (foldl hash_line FNV_OFFSET (split_on LF (normalize content))))) as (?&?&?). by apply parse_header_spec. Qed.

Lemma no_lf_upper_hex d n : no_char LF (upper_hex d n) = true.
Proof.
  revert n. induction d as [|d IH]; intros n; [done|]. cbn [upper_hex].
  rewrite no_char_app, IH.
  assert (Forall (fun n => no_char LF (String (upper_hex_digit n) EmptyString) = true)
    digits_16) as F by (repeat constructor).
  rewrite Forall_forall in F. by apply F, digits_16_spec, N.mod_lt.
Qed.

Section view.
Context (block_end : string -> string -> nat -> option nat).

(** The first line of the hashline view of a file is a section header for that file's path
    and content tag, and whether it can be used depends on the file's content at the time of
    the edit alone: against a content with another tag the section is refused as stale,
    naming both tags, and against one with that tag its operations are the planned change. *)
Theorem view_header_binds path content reader current rest :
  path <> EmptyString -> newline_free path = true -> reader path = Some current ->
  (exists rows, split_on LF (hashline_view path content) = view_header path content :: rows) /\
  (snapshot_tag current <> snapshot_tag content ->
     plan_section block_end reader (view_header path content) rest =
       Some (inr (EditError.StaleHash path (snapshot_tag content) (snapshot_tag current) REREAD_HINT))) /\
  (snapshot_tag current = snapshot_tag content -> forall ops rest' updated,
     parse_ops (S (length rest)) rest = inl (ops, rest') -> ops <> [] ->
     apply_ops block_end path (normalize current) ops = Some (inl updated) ->
     plan_section block_end reader (view_header path content) rest =
       Some (inl (FileChange.Update path (restore_newline updated (detect_newline current)), rest'))).
Proof.
  intros P N R. split; [|split].
  - unfold hashline_view. fold (snapshot_tag content).
    set (rows := concat_str _). exists (split_on LF rows).
    change (lf +:+ rows) with (String LF rows).
    replace ("[" +:+ path +:+ "#" +:+ snapshot_tag content +:+ "]" +:+ String LF rows)
      with (view_header path content +:+ String LF rows)
      by (unfold view_header; by rewrite !app_assoc_str).
    apply split_on_line. unfold view_header. change (no_char LF path = true) in N.
    rewrite !no_char_app, N. unfold snapshot_tag, content_hash. by rewrite no_lf_upper_hex.
  - intros D. unfold plan_section. rewrite parse_view_header, R by done. cbn zeta.
    fold (snapshot_tag current). rewrite tag_eq_ignore_case, bool_decide_eq_false_2 by done. done.
  - intros E ops rest' updated O NE A. unfold plan_section. rewrite parse_view_header, R by done.
    cbn zeta. fold (snapshot_tag current).
    rewrite tag_eq_ignore_case, bool_decide_eq_true_2 by done. cbn [negb]. rewrite O.
    destruct ops; [done|]. by rewrite A.
Qed.
End view.

(** * Concrete sections *)

Definition no_blocks (path source : string) (line : nat) : option nat := None.
Definition abcd : string := join lf ["a"; "b"; "c"; "d"].

Definition swap_then_insert : list Op.t := [Op.Replace 3 3 ["Y"]; Op.InsertBefore 3 ["X"]].
Definition insert_then_swap : list Op.t := [Op.InsertBefore 3 ["X"]; Op.Replace 3 3 ["Y"]].

Lemma apply_ops_simultaneous_witness :
  apply_ops no_blocks "f" abcd swap_then_insert = Some (inl (join lf ["a"; "b"; "X"; "Y"; "d"])).
Proof.
  destruct (apply_ops_simultaneous no_blocks "f" abcd swap_then_insert)
    as [(before & op & after & line & E & _ & M & _)|[_ (effects & Ms & _ & H)]].
  - assert (op ∈ swap_then_insert) as I by (rewrite E; apply elem_of_app; right; by left).
    apply elem_of_cons in I as [->|[->|[]%not_elem_of_nil]%elem_of_cons]; exfalso; revert M.
    + intros [[L _]|(_ & [F|L] & _)]; [cbn in L; lia|discriminate F|lia].
    + intros [N _]. apply N. unfold in_file. cbn. lia.
  - assert (effects = [Effect.TakesOut 3 3 ["Y"]; Effect.PutsAfter 2 ["X"]]) as ->.
    { inversion Ms as [|? ? ? ? M1 Ms1]; subst. inversion Ms1 as [|? ? ? ? M2 Ms2]; subst.
      inversion M1; subst. inversion M2; subst. by inversion Ms2. }
    apply H.
    + split.
      * repeat constructor. by intros n [_ ?].
      * intros a n body Ia In. apply elem_of_cons in In as [?|[[= -> ->]|[]%not_elem_of_nil]%elem_of_cons]; [done|].
        intros [T _]. by apply elem_of_cons in Ia as [->|[->|[]%not_elem_of_nil]%elem_of_cons].
    + repeat constructor. intros _. by eexists _, _.
Defined.

Lemma view_header_binds_witness :
  plan_section no_blocks (fun p => if String.eqb p "f" then Some abcd else None)
    (view_header "f" abcd) ["DEL 1.=2"; END_] =
  Some (inl (FileChange.Update "f" (join lf ["c"; "d"]), [END_])).
Proof.
  refine (proj2 (proj2 (view_header_binds no_blocks "f" abcd
    (fun p => if String.eqb p "f" then Some abcd else None) abcd ["DEL 1.=2"; END_] _ _ _)) _
    [Op.Delete 1 2] [END_] _ _ _ _); done.
Defined.

(** Written the other way round, the insertion at the head of a replaced line is lost and the
    line it should replace is kept. *)
Lemma insert_then_swap_loses :
  apply_ops no_blocks "f" abcd insert_then_swap = Some (inl (join lf ["a"; "b"; "Y"; "c"; "d"])) /\
  apply_ops no_blocks "f" abcd swap_then_insert = Some (inl (join lf ["a"; "b"; "X"; "Y"; "d"])).
Proof. split; vm_compute; reflexivity. Qed.
