(* ===== verification/EditModes.v ===== *)
(** The other edit languages: string replacement ([edit/replace.rs]), anchored hunks
    ([edit/patch.rs]), the multi-file envelope ([edit/apply_patch.rs]), and the dispatch over
    all four ([edit/mod.rs]).

    Then what is proved of it. What the edit languages promise: a hunk or a replacement is applied at the one place it
    fits and refused otherwise; a plan is grounded in the files it was made against; line ends
    survive an edit. *)

From S2P Require Import Prelude Text EditText Hashline HashlineSpec.
Open Scope nerve_scope.

Module ReplaceEdit.
Record t := Mk { old_text : string; new_text : string; all : bool }.
End ReplaceEdit.

(** * [replace.rs] *)

Module Replace.

(** Whether the normalized lines from [start] on are the needle. *)
Definition window_at (norm : string -> string) (lines needle : list string) (start : nat) : bool :=
  forallb (fun offset => String.eqb (norm (nth (start + offset) lines EmptyString))
                           (nth offset needle EmptyString)) (seq 0 (length needle)).

Definition squeeze (line : string) : string := join " " (split_whitespace line).

(** The output loop, from line [index]; it stops after [fuel] rounds. *)
Fixpoint splice_windows (fuel : nat) (lines new_lines : list string) (selected : list nat)
    (window index : nat) : list string :=
  match fuel with
  | 0 => []
  | S fuel =>
      match lines !! index with
      | None => []
      | Some line =>
          if existsb (Nat.eqb index) selected
          then new_lines ++ splice_windows fuel lines new_lines selected window (index + window)
          else line :: splice_windows fuel lines new_lines selected window (index + 1)
      end
  end.

Definition fuzzy_replace (content : string) (edit : ReplaceEdit.t) : string + EditError.t :=
  let lines := split_on LF content in
  let old_lines := split_on LF edit.(ReplaceEdit.old_text) in
  let window := length old_lines in
  if (window =? 0) || (length lines <? window)
  then inr (EditError.NotFound (preview edit.(ReplaceEdit.old_text)))
  else
    let needle := map squeeze old_lines in
    let starts := List.filter (window_at squeeze lines needle) (seq 0 (S (length lines - window))) in
    match starts with
    | [] => inr (EditError.NotFound (preview edit.(ReplaceEdit.old_text)))
    | first :: _ =>
        if (1 <? length starts) && negb edit.(ReplaceEdit.all)
        then inr (EditError.Ambiguous (length starts) (preview edit.(ReplaceEdit.old_text)))
        else
          let new_lines := split_on LF edit.(ReplaceEdit.new_text) in
          let selected := if edit.(ReplaceEdit.all) then starts else [first] in
          inl (join lf (splice_windows (S (length lines)) lines new_lines selected window 0))
    end.

(** [match_indices] finds one occurrence fewer than the pieces of [split_str]. *)
Definition apply_one (content : string) (edit : ReplaceEdit.t) : string + EditError.t :=
  if String.eqb edit.(ReplaceEdit.old_text) EmptyString
  then inr (EditError.Parse "replace" "old_text must not be empty")
  else
    let pieces := split_str edit.(ReplaceEdit.old_text) content in
    let exact := length pieces - 1 in
    if 0 <? exact then
      if (1 <? exact) && negb edit.(ReplaceEdit.all)
      then inr (EditError.Ambiguous exact (preview edit.(ReplaceEdit.old_text)))
      else inl (if edit.(ReplaceEdit.all)
                then replace_str edit.(ReplaceEdit.old_text) edit.(ReplaceEdit.new_text) content
                else match split_once edit.(ReplaceEdit.old_text) content with
                     | Some (before, after) => before +:+ edit.(ReplaceEdit.new_text) +:+ after
                     | None => content
                     end)
    else fuzzy_replace content edit.

Fixpoint apply_all (content : string) (edits : list ReplaceEdit.t) : string + EditError.t :=
  match edits with
  | [] => inl content
  | edit :: edits => let? content := apply_one content edit in apply_all content edits
  end.

Definition apply (original : string) (edits : list ReplaceEdit.t) : string + EditError.t :=
  match edits with
  | [] => inr EditError.Empty
  | _ => apply_all original edits
  end.
End Replace.

(** * [patch.rs] *)

Module HunkLine.
Inductive t := Context (text : string) | Add (text : string) | Remove (text : string).

Definition before (line : t) : option string :=
  match line with Context text | Remove text => Some text | Add _ => None end.
Definition after (line : t) : option string :=
  match line with Context text | Add text => Some text | Remove _ => None end.
Definition is_change (line : t) : bool :=
  match line with Context _ => false | _ => true end.
End HunkLine.

Module Hunk.
Record t := Mk { anchor : option string; lines : list HunkLine.t }.
End Hunk.

Module Patch.
Definition parse_err (detail : string) : EditError.t := EditError.Parse "patch" detail.

Definition parse_line (raw : string) : HunkLine.t + EditError.t :=
  match raw with
  | EmptyString => inl (HunkLine.Context EmptyString)
  | String c rest =>
      if Ascii.eqb c " " then inl (HunkLine.Context rest)
      else if Ascii.eqb c "+" then inl (HunkLine.Add rest)
      else if Ascii.eqb c "-" then inl (HunkLine.Remove rest)
      else inr (parse_err ("invalid hunk line: " +:+ preview raw))
  end.

(** The loop: the hunks closed so far and the open one. *)
Fixpoint collect_hunks (raws : list string) (hunks : list Hunk.t) (current : option Hunk.t)
  : list Hunk.t + EditError.t :=
  match raws with
  | [] => inl (hunks ++ from_option (fun hunk => [hunk]) [] current)
  | raw :: raws =>
      match strip_prefix "@@" raw with
      | Some rest =>
          let anchor := trim rest in
          collect_hunks raws (hunks ++ from_option (fun hunk => [hunk]) [] current)
            (Some (Hunk.Mk (if String.eqb anchor EmptyString then None else Some anchor) []))
      | None =>
          match current with
          | None =>
              if all_white raw then collect_hunks raws hunks None
              else inr (parse_err "hunk body appears before any @@ header")
          | Some hunk =>
              let? line := parse_line raw in
              collect_hunks raws hunks
                (Some (Hunk.Mk hunk.(Hunk.anchor) (hunk.(Hunk.lines) ++ [line])))
          end
      end
  end.

Definition parse_hunks (diff : string) : list Hunk.t + EditError.t :=
  let? hunks := collect_hunks (split_on LF diff) [] None in
  match hunks with
  | [] => inr (parse_err "diff contains no @@ hunks")
  | _ =>
      if forallb (fun hunk => existsb HunkLine.is_change hunk.(Hunk.lines)) hunks
      then inl hunks else inr (parse_err "hunk has no +/- change")
  end.

Definition line_eq (fuzzy : bool) (a b : string) : bool :=
  if fuzzy then String.eqb (trim a) (trim b) else String.eqb a b.

Definition find_matches (lines before : list string) (from : nat) (fuzzy : bool) : list nat :=
  if (length before =? 0) || (length lines <? length before) || (length lines - length before <? from)
  then []
  else
    List.filter (fun start => forallb (fun offset =>
        line_eq fuzzy (nth (start + offset) lines EmptyString) (nth offset before EmptyString))
      (seq 0 (length before)))
      (seq from (S (length lines - length before) - from)).

Fixpoint position (f : string -> bool) (lines : list string) : option nat :=
  match lines with
  | [] => None
  | line :: lines => if f line then Some 0 else S <$> position f lines
  end.

Definition hunk_before (hunk : Hunk.t) : list string := omap HunkLine.before hunk.(Hunk.lines).
Definition hunk_after (hunk : Hunk.t) : list string := omap HunkLine.after hunk.(Hunk.lines).

(** Where the search for the hunk starts. *)
Definition search_from (lines : list string) (hunk : Hunk.t) : nat + EditError.t :=
  match hunk.(Hunk.anchor) with
  | Some anchor =>
      match position (contains_str anchor) lines with
      | Some from => inl from
      | None => inr (EditError.ContextNotFound (preview anchor))
      end
  | None => inl 0
  end.

Definition apply_hunk (lines : list string) (hunk : Hunk.t) : list string + EditError.t :=
  let before := hunk_before hunk in
  let after := hunk_after hunk in
  match before with
  | [] => inr (parse_err "hunk needs context or removed lines to anchor the change")
  | _ =>
      let? from := search_from lines hunk in
      let starts := find_matches lines before from false in
      let starts := match starts with [] => find_matches lines before from true | _ => starts end in
      match starts with
      | [] => inr (EditError.ContextNotFound (preview (join lf before)))
      | [start] => inl (take start lines ++ after ++ drop (start + length before) lines)
      | many => inr (EditError.Ambiguous (length many) (preview (join lf before)))
      end
  end.

Fixpoint apply_each (lines : list string) (hunks : list Hunk.t) : list string + EditError.t :=
  match hunks with
  | [] => inl lines
  | hunk :: hunks => let? lines := apply_hunk lines hunk in apply_each lines hunks
  end.

Definition apply_hunks (original diff : string) : string + EditError.t :=
  let? hunks := parse_hunks diff in
  let? lines := apply_each (split_on LF original) hunks in
  inl (join lf lines).
End Patch.

(** A file's content with a diff applied, in the file's own line ends. *)
Definition patched (original diff : string) : string + EditError.t :=
  let? updated := Patch.apply_hunks (normalize original) diff in
  inl (restore_newline updated (detect_newline original)).

(** * [apply_patch.rs] *)

Module ApplyPatch.
Definition END_OF_FILE : string := "*** End of File".
Definition parse_err (detail : string) : EditError.t := EditError.Parse "apply-patch" detail.

(** The lines before the next envelope line, and that line with what follows it. *)
Fixpoint take_body (lines : list string) : list string * list string :=
  match lines with
  | line :: rest =>
      if starts_with "*** " line then ([], lines)
      else let '(body, rest) := take_body rest in (line :: body, rest)
  | [] => ([], [])
  end.

Definition add_file (reader : FileReader) (path : string) (rest : list string)
  : (FileChange.t * list string) + EditError.t :=
  let '(body, rest) := take_body rest in
  let body := map (fun line => default line (strip_prefix "+" line)) body in
  match reader path with
  | Some _ => inr (EditError.FileExists path)
  | None =>
      let content := match body with [] => EmptyString | _ => join lf body +:+ lf end in
      inl (FileChange.Create path content, rest)
  end.

Definition delete_file (reader : FileReader) (path : string) (rest : list string)
  : (FileChange.t * list string) + EditError.t :=
  match reader path with
  | None => inr (EditError.MissingFile path)
  | Some _ => inl (FileChange.Delete path, rest)
  end.

Definition take_move (rest : list string) : option string * list string :=
  match rest with
  | line :: rest' =>
      match strip_prefix "*** Move to: " line with
      | Some to => (Some (trim to), rest')
      | None => (None, rest)
      end
  | [] => (None, rest)
  end.

Definition skip_end_of_file (rest : list string) : list string :=
  match rest with
  | line :: rest' => if String.eqb line END_OF_FILE then rest' else rest
  | [] => rest
  end.

Definition update_file (reader : FileReader) (path : string) (rest : list string)
  : (FileChange.t * list string) + EditError.t :=
  let '(move_to, rest) := take_move rest in
  let '(hunk_lines, rest) := take_body rest in
  let rest := skip_end_of_file rest in
  match reader path with
  | None => inr (EditError.MissingFile path)
  | Some original =>
      let? content := patched original (join lf hunk_lines) in
      inl (match move_to with
           | Some to => FileChange.Rename path to content
           | None => FileChange.Update path content
           end, rest)
  end.

Definition plan_section (reader : FileReader) (line : string) (rest : list string)
  : (FileChange.t * list string) + EditError.t :=
  match strip_prefix "*** Add File: " line with
  | Some path => add_file reader (trim path) rest
  | None =>
  match strip_prefix "*** Delete File: " line with
  | Some path => delete_file reader (trim path) rest
  | None =>
  match strip_prefix "*** Update File: " line with
  | Some path => update_file reader (trim path) rest
  | None => inr (parse_err ("unexpected line in patch: " +:+ preview line))
  end end end.

Fixpoint plan_sections (fuel : nat) (reader : FileReader) (lines : list string)
    (changes : list FileChange.t) : list FileChange.t + EditError.t :=
  match fuel with
  | 0 => inr (parse_err ("patch is missing `" +:+ END_ +:+ "`"))
  | S fuel =>
      match lines with
      | [] => inr (parse_err ("patch is missing `" +:+ END_ +:+ "`"))
      | line :: rest =>
          if String.eqb line END_
          then match changes with [] => inr EditError.Empty | _ => inl changes end
          else if all_white line then plan_sections fuel reader rest changes
          else
            let? '(change, rest) := plan_section reader line rest in
            plan_sections fuel reader rest (changes ++ [change])
      end
  end.

Definition plan (text : string) (reader : FileReader) : list FileChange.t + EditError.t :=
  match skip_blank (split_on LF (normalize text)) with
  | line :: rest =>
      if String.eqb line BEGIN then plan_sections (S (length rest)) reader rest []
      else inr (parse_err ("patch must start with `" +:+ BEGIN +:+ "`"))
  | [] => inr (parse_err ("patch must start with `" +:+ BEGIN +:+ "`"))
  end.
End ApplyPatch.

(** * [mod.rs] *)

Module PatchEntry.
Inductive t :=
  | Update (rename : option string) (diff : string)
  | Create (diff : string)
  | Delete.
End PatchEntry.

Module EditRequest.
Inductive t :=
  | Replace (path : string) (edits : list ReplaceEdit.t)
  | Patch (path : string) (entries : list PatchEntry.t)
  | ApplyPatch (patch : string)
  | Hashline (patch : string).
End EditRequest.

(** One entry: the change it plans, the path and the file after it. *)
Definition patch_entry (path : string) (current : option (Newline.t * string)) (entry : PatchEntry.t)
  : (FileChange.t * (string * option (Newline.t * string))) + EditError.t :=
  match entry with
  | PatchEntry.Create diff =>
      match current with
      | Some _ => inr (EditError.FileExists path)
      | None =>
          let content := normalize diff in
          inl (FileChange.Create path content, (path, Some (Newline.Lf, content)))
      end
  | PatchEntry.Delete =>
      match current with
      | None => inr (EditError.MissingFile path)
      | Some _ => inl (FileChange.Delete path, (path, None))
      end
  | PatchEntry.Update rename diff =>
      match current with
      | None => inr (EditError.MissingFile path)
      | Some (newline, content) =>
          let? updated := Patch.apply_hunks content diff in
          let restored := restore_newline updated newline in
          inl (match rename with
               | Some new_path =>
                   (FileChange.Rename path new_path restored, (new_path, Some (newline, updated)))
               | None => (FileChange.Update path restored, (path, Some (newline, updated)))
               end)
      end
  end.

Fixpoint patch_entries (path : string) (current : option (Newline.t * string))
    (entries : list PatchEntry.t) : list FileChange.t + EditError.t :=
  match entries with
  | [] => inl []
  | entry :: entries =>
      let? '(change, (path, current)) := patch_entry path current entry in
      let? changes := patch_entries path current entries in
      inl (change :: changes)
  end.

Definition patch_dispatch (path : string) (entries : list PatchEntry.t) (reader : FileReader)
  : list FileChange.t + EditError.t :=
  match entries with
  | [] => inr EditError.Empty
  | _ => patch_entries path
           ((fun content => (detect_newline content, normalize content)) <$> reader path) entries
  end.

Section apply.
Context (block_end : string -> string -> nat -> option nat).

(** [None] when it panics. *)
Definition apply (request : EditRequest.t) (reader : FileReader)
  : option (list FileChange.t + EditError.t) :=
  match request with
  | EditRequest.Replace path edits =>
      match reader path with
      | None => Some (inr (EditError.MissingFile path))
      | Some original =>
          Some (let? updated := Replace.apply (normalize original) edits in
                inl [FileChange.Update path (restore_newline updated (detect_newline original))])
      end
  | EditRequest.Patch path entries => Some (patch_dispatch path entries reader)
  | EditRequest.ApplyPatch patch => Some (ApplyPatch.plan patch reader)
  | EditRequest.Hashline patch => Hashline.plan block_end patch reader
  end.
End apply.

(** * Windows of lines *)

(** The lines from [start] on match the needle, each under [eqv]. *)
Definition fits (eqv : string -> string -> bool) (lines needle : list string) (start : nat) : Prop :=
  exists mid, take (length needle) (drop start lines) = mid /\
    Forall2 (fun a b => eqv a b = true) mid needle.

Lemma fits_bound eqv lines needle start :
  fits eqv lines needle start -> length needle <> 0 -> start + length needle <= length lines.
Proof.
  intros (mid & E & F) N. apply Forall2_length in F. rewrite <- E in F.
  rewrite length_take, length_drop in F. lia.
Qed.

Lemma forallb_map {A B} (f : B -> bool) (g : A -> B) l :
  forallb f (map g l) = forallb (fun a => f (g a)) l.
Proof. induction l as [|a l IH]; [done|]. cbn. by rewrite IH. Qed.

Lemma forallb_ext' {A} (f g : A -> bool) l : (forall a, f a = g a) -> forallb f l = forallb g l.
Proof. intros H. induction l as [|a l IH]; [done|]. cbn. by rewrite H, IH. Qed.

Lemma forallb_window (eqv : string -> string -> bool) lines needle : forall start,
  start + length needle <= length lines ->
  forallb (fun offset => eqv (nth (start + offset) lines EmptyString) (nth offset needle EmptyString))
    (seq 0 (length needle)) = true <-> fits eqv lines needle start.
Proof.
  induction needle as [|x needle IH]; intros start L.
  { split; [|done]. intros _. exists []. by split; [rewrite take_0|constructor]. }
  cbn [length] in *. cbn [seq forallb]. rewrite <- seq_shift, forallb_map.
  destruct (drop start lines) as [|y rest] eqn:D.
  { apply (f_equal length) in D. rewrite length_drop in D. cbn in D. lia. }
  assert (nth (start + 0) lines EmptyString = y) as ->.
  { rewrite Nat.add_0_r. rewrite <- (take_drop start lines), D, app_nth2;
      rewrite length_take; [|lia]. by rewrite Nat.min_l, Nat.sub_diag by lia. }
  assert (drop (S start) lines = rest) as D'.
  { replace (S start) with (start + 1) by lia. by rewrite <- drop_drop, D. }
  specialize (IH (S start)). rewrite andb_true_iff. cbn [nth].
  replace (forallb (fun x0 => eqv (nth (start + S x0) lines EmptyString) (nth x0 needle EmptyString))
      (seq 0 (length needle)))
    with (forallb (fun offset => eqv (nth (S start + offset) lines EmptyString)
      (nth offset needle EmptyString)) (seq 0 (length needle)))
    by (apply forallb_ext'; intros; do 2 f_equal; lia).
  rewrite IH by lia. unfold fits. rewrite D, D'. cbn [length take]. split.
  - intros (E & mid & <- & F). eexists. split; [done|]. by constructor.
  - intros (mid & <- & F). inversion F; subst. eauto.
Qed.

Lemma find_matches_spec lines before from fuzzy start : before <> [] ->
  start ∈ Patch.find_matches lines before from fuzzy <->
  from <= start /\ fits (Patch.line_eq fuzzy) lines before start.
Proof.
  intros N. unfold Patch.find_matches.
  assert (length before <> 0) as N' by (by destruct before).
  destruct (Nat.eqb_spec (length before) 0); [done|].
  destruct (Nat.ltb_spec (length lines) (length before)).
  { cbn. split; [by intros []%not_elem_of_nil|]. intros [_ F%fits_bound]; [lia|done]. }
  destruct (Nat.ltb_spec (length lines - length before) from).
  { cbn. split; [by intros []%not_elem_of_nil|]. intros [? F%fits_bound]; [lia|done]. }
  cbn [orb]. rewrite list_elem_of_In, filter_In, in_seq. split.
  - intros [I F]. split; [lia|]. apply forallb_window; [lia|done].
  - intros [L F]. pose proof (fits_bound _ _ _ _ F N'). split; [lia|]. by apply forallb_window.
Qed.

Lemma find_matches_nodup lines before from fuzzy : NoDup (Patch.find_matches lines before from fuzzy).
Proof.
  unfold Patch.find_matches. destruct (_ || _); [constructor|].
  apply NoDup_ListNoDup, List.NoDup_filter, List.seq_NoDup.
Qed.

(** * Hunks *)

(** Where the hunk fits: exactly where it can, up to surrounding blanks otherwise. *)
Definition hunk_fits (lines : list string) (hunk : Hunk.t) (from start : nat) : Prop :=
  from <= start /\
  (fits (Patch.line_eq false) lines (Patch.hunk_before hunk) start \/
   (forall exact, from <= exact -> ~ fits (Patch.line_eq false) lines (Patch.hunk_before hunk) exact) /\
   fits (Patch.line_eq true) lines (Patch.hunk_before hunk) start).

Lemma starts_spec lines hunk from : Patch.hunk_before hunk <> [] ->
  exists starts, NoDup starts /\ (forall start, start ∈ starts <-> hunk_fits lines hunk from start) /\
    match Patch.find_matches lines (Patch.hunk_before hunk) from false with
    | [] => Patch.find_matches lines (Patch.hunk_before hunk) from true
    | _ => Patch.find_matches lines (Patch.hunk_before hunk) from false
    end = starts.
Proof.
  intros N. set (before := Patch.hunk_before hunk) in *. eexists. split; [|split; [|reflexivity]].
  - destruct (Patch.find_matches lines before from false) eqn:E; [apply find_matches_nodup|].
    rewrite <- E. apply find_matches_nodup.
  - intros start. unfold hunk_fits. fold before.
    destruct (Patch.find_matches lines before from false) as [|s l] eqn:E.
    + rewrite find_matches_spec by done. split.
      * intros [L F]. split; [done|]. right. split; [|done]. intros exact Le Fe.
        assert (exact ∈ Patch.find_matches lines before from false) as I by by apply find_matches_spec.
        rewrite E in I. by apply not_elem_of_nil in I.
      * intros [L [F|[_ F]]]; [|done]. exfalso.
        assert (start ∈ Patch.find_matches lines before from false) as I by by apply find_matches_spec.
        rewrite E in I. by apply not_elem_of_nil in I.
    + rewrite <- E, find_matches_spec by done. split; [intros [L F]; by split; [|left]|].
      intros [L [F|[X _]]]; [done|]. exfalso.
      assert (s ∈ Patch.find_matches lines before from false) as I by (rewrite E; by left).
      apply find_matches_spec in I as [Ls Fs]; [|done]. by apply (X s).
Qed.

Lemma position_spec f lines n : Patch.position f lines = Some n <->
  exists line, lines !! n = Some line /\ f line = true /\
    forall m other, m < n -> lines !! m = Some other -> f other = false.
Proof.
  revert n. induction lines as [|line lines IH]; intros n; cbn [Patch.position].
  { split; [done|]. by intros (? & ? & _). }
  destruct (f line) eqn:E.
  - split.
    + intros [= <-]. exists line. split_and!; [done|done|lia].
    + intros (l & H & _ & M). destruct n as [|n]; [done|]. specialize (M 0 line ltac:(lia) eq_refl).
      congruence.
  - rewrite fmap_Some. split.
    + intros (m & (l & H & T & M)%IH & ->). exists l. split_and!; [done|done|].
      intros [|k] o L; [by intros [= <-]|]. apply M. lia.
    + intros (l & H & T & M). destruct n as [|n]; [cbn in H; congruence|]. exists n.
      split; [|done]. apply IH. exists l. split_and!; [done|done|].
      intros k o L. apply (M (S k)). lia.
Qed.

(** A hunk changes the file exactly when it has lines to be found by, its anchor, if it has
    one, occurs in the file, and from the anchor's first line on its context and removed lines
    fit at one place only (exactly, or with surrounding blanks ignored when they fit exactly
    nowhere); then those lines become its context and added lines and all others stay. With
    no place it is refused as not found, with more as ambiguous, with their number. *)
Theorem apply_hunk_spec lines hunk :
  let before := Patch.hunk_before hunk in
  match Patch.search_from lines hunk with
  | inr e => before <> [] -> Patch.apply_hunk lines hunk = inr e
  | inl from =>
      (forall out, Patch.apply_hunk lines hunk = inl out <->
         before <> [] /\ exists start, hunk_fits lines hunk from start /\
           (forall other, hunk_fits lines hunk from other -> other = start) /\
           out = take start lines ++ Patch.hunk_after hunk ++ drop (start + length before) lines) /\
      (before <> [] -> (forall start, ~ hunk_fits lines hunk from start) ->
         Patch.apply_hunk lines hunk = inr (EditError.ContextNotFound (preview (join lf before)))) /\
      (before <> [] -> forall a b, hunk_fits lines hunk from a -> hunk_fits lines hunk from b -> a <> b ->
         exists n, 1 < n /\
           Patch.apply_hunk lines hunk = inr (EditError.Ambiguous n (preview (join lf before))))
  end.
Proof.
  unfold Patch.apply_hunk. destruct (Patch.search_from lines hunk) as [from|e] eqn:S.
  2: { intros N. by destruct (Patch.hunk_before hunk). }
  destruct (Patch.hunk_before hunk) as [|b bs] eqn:B.
  { split_and!; try done. intros out. split; [done|by intros []]. }
  cbn [bind]. cbv zeta. rewrite <- B. assert (Patch.hunk_before hunk <> []) as N by (by rewrite B).
  destruct (starts_spec lines hunk from N) as (starts & D & I & ->).
  destruct starts as [|start [|start' starts]].
  - split_and!.
    + intros out. split; [done|]. intros (_ & start & F & _). by apply I, not_elem_of_nil in F.
    + done.
    + intros _ x y F. by apply I, not_elem_of_nil in F.
  - split_and!.
    + intros out. split.
      * intros [= <-]. split; [done|]. exists start. split_and!; [apply I; by left| |done].
        intros other F%I. by apply list_elem_of_singleton in F.
      * intros (_ & s & F & U & ->). apply I, list_elem_of_singleton in F as ->. done.
    + intros _ X. exfalso. eapply X, I. by left.
    + intros _ x y Fx%I%list_elem_of_singleton Fy%I%list_elem_of_singleton Ne. congruence.
  - split_and!.
    + intros out. split; [done|]. intros (_ & s & F & U & _).
      assert (start = s) by (apply U, I; by left).
      assert (start' = s) by (apply U, I; right; by left).
      subst. inversion D as [|? ? X _]; subst. exfalso. apply X. by left.
    + intros _ X. exfalso. eapply X, I. by left.
    + intros _ x y _ _ _. eexists. split; [|reflexivity]. cbn. lia.
Qed.

(** * Replacements *)

Lemma split_once_shorter pat s a b : pat <> EmptyString ->
  split_once pat s = Some (a, b) -> String.length b < String.length s.
Proof.
  intros N E. apply split_once_Some in E as ->. rewrite !length_app_str.
  destruct pat; [done|]. cbn. lia.
Qed.

Lemma split_str_none pat s : contains_str pat s = false -> split_str pat s = [s].
Proof.
  unfold contains_str, split_str. intros C. destruct (String.length s); [done|]. cbn.
  by destruct (split_once pat s).
Qed.

Lemma split_pat_fuel pat f1 : forall f2 s, pat <> EmptyString ->
  String.length s <= f1 -> String.length s <= f2 -> split_pat f1 pat s = split_pat f2 pat s.
Proof.
  induction f1 as [|f1 IH]; intros f2 s N L1 L2.
  - destruct s; [|cbn in L1; lia]. destruct pat; [done|]. by destruct f2.
  - destruct f2 as [|f2].
    + destruct s; [|cbn in L2; lia]. by destruct pat.
    + cbn. destruct (split_once pat s) as [[a b]|] eqn:E; [|done].
      apply split_once_shorter in E; [|done]. f_equal. apply IH; (done || lia).
Qed.

Lemma split_str_some pat s a b : pat <> EmptyString ->
  split_once pat s = Some (a, b) -> split_str pat s = a :: split_str pat b.
Proof.
  intros N E. unfold split_str. pose proof (split_once_shorter _ _ _ _ N E) as L.
  destruct (String.length s) as [|n] eqn:Ln; [lia|]. cbn. rewrite E. f_equal.
  apply split_pat_fuel; (done || lia).
Qed.

Lemma split_str_cons pat s : exists p l, split_str pat s = p :: l.
Proof.
  unfold split_str. destruct (String.length s); cbn; [by eexists _, _|].
  destruct (split_once pat s) as [[a b]|]; by eexists _, _.
Qed.

Module ReplaceSpec.
Import Replace.

Lemma splice_windows_plain lines new sel w fuel : forall index,
  length lines - index < fuel -> (forall i, i ∈ sel -> i < index) ->
  splice_windows fuel lines new sel w index = drop index lines.
Proof.
  induction fuel as [|fuel IH]; intros index L F; [lia|]. cbn.
  destruct (lines !! index) as [line|] eqn:E.
  2: { apply lookup_ge_None in E. by rewrite drop_ge. }
  assert (existsb (Nat.eqb index) sel = false) as ->.
  { apply not_true_iff_false. intros (i & I & ->%Nat.eqb_eq)%existsb_exists.
    apply list_elem_of_In, F in I. lia. }
  pose proof (lookup_lt_Some _ _ _ E). rewrite IH; [|lia|intros i I%F; lia].
  rewrite (drop_S _ _ _ E). by rewrite Nat.add_1_r.
Qed.

Lemma splice_windows_one lines new w start fuel : forall index,
  0 < w -> index <= start -> start + w <= length lines -> length lines - index < fuel ->
  splice_windows fuel lines new [start] w index =
    take (start - index) (drop index lines) ++ new ++ drop (start + w) lines.
Proof.
  induction fuel as [|fuel IH]; intros index W L B F; [lia|]. cbn.
  destruct (lookup_lt_is_Some_2 lines index) as [line E]; [lia|]. rewrite E.
  destruct (Nat.eqb_spec index start) as [->|N]; cbn [orb existsb].
  - rewrite Nat.sub_diag, take_0. cbn [app]. f_equal. apply splice_windows_plain; [lia|].
    intros i ->%list_elem_of_singleton. lia.
  - rewrite IH by lia. rewrite (drop_S _ _ _ E). rewrite Nat.add_1_r.
    by replace (start - index) with (S (start - S index)) by lia.
Qed.

Definition squeezed (a b : string) : bool := String.eqb (squeeze a) (squeeze b).

Lemma window_at_spec lines old start : start + length old <= length lines ->
  window_at squeeze lines (map squeeze old) start = true <-> fits squeezed lines old start.
Proof.
  intros L. rewrite <- (forallb_window squeezed) by done. unfold window_at, squeezed.
  rewrite length_map.
  erewrite forallb_ext'; [reflexivity|]. intros o. cbn. f_equal.
  destruct (Nat.lt_ge_cases o (length old)).
  - rewrite (nth_indep _ EmptyString (squeeze EmptyString)) by (by rewrite length_map).
    apply map_nth.
  - rewrite !nth_overflow by (rewrite ?length_map; done). done.
Qed.

(** Where the lines of [old] fit, blanks aside. *)
Definition fuzzy_fits (content old : string) (start : nat) : Prop :=
  fits squeezed (split_on LF content) (split_on LF old) start.

Definition starts_of (content old : string) : list nat :=
  List.filter (window_at squeeze (split_on LF content) (map squeeze (split_on LF old)))
    (seq 0 (S (length (split_on LF content) - length (split_on LF old)))).

Lemma starts_of_spec content old start :
  length (split_on LF old) <= length (split_on LF content) ->
  start ∈ starts_of content old <-> fuzzy_fits content old start.
Proof.
  intros L. unfold starts_of, fuzzy_fits. rewrite list_elem_of_In, filter_In, in_seq.
  assert (length (split_on LF old) <> 0) as N.
  { pose proof (split_on_nonempty LF old). by destruct (split_on LF old). }
  split.
  - intros [I W]. apply window_at_spec in W; [done|lia].
  - intros F. pose proof (fits_bound _ _ _ _ F N). split; [lia|]. apply window_at_spec; [lia|done].
Qed.

Lemma fuzzy_spec content old new out :
  fuzzy_replace content (ReplaceEdit.Mk old new false) = inl out <->
  exists start, fuzzy_fits content old start /\
    (forall other, fuzzy_fits content old other -> other = start) /\
    out = join lf (take start (split_on LF content) ++ split_on LF new ++
                   drop (start + length (split_on LF old)) (split_on LF content)).
Proof.
  unfold fuzzy_replace. cbn [ReplaceEdit.old_text ReplaceEdit.new_text ReplaceEdit.all negb].
  fold (starts_of content old). set (lines := split_on LF content). set (w := length (split_on LF old)).
  assert (w <> 0) as N.
  { pose proof (split_on_nonempty LF old). subst w. by destruct (split_on LF old). }
  destruct (Nat.eqb_spec w 0); [done|]. cbn [orb]. destruct (Nat.ltb_spec (length lines) w) as [Lt|Le].
  { split; [done|]. intros (start & F & _). apply fits_bound in F; [|done]. fold lines w in F. lia. }
  pose proof (fun s => starts_of_spec content old s Le) as I.
  assert (NoDup (starts_of content old)) as D
    by apply NoDup_ListNoDup, List.NoDup_filter, List.seq_NoDup.
  destruct (starts_of content old) as [|start [|start' l]]; cbn -[splice_windows].
  - split; [done|]. intros (s & F%I & _). by apply not_elem_of_nil in F.
  - assert (fuzzy_fits content old start) as F by (apply I; by left).
    assert (start + w <= length lines) as B by (by eapply fits_bound in F).
    rewrite splice_windows_one by lia. rewrite Nat.sub_0_r, drop_0. split.
    + intros [= <-]. exists start. split_and!; [done| |done].
      intros other Fo%I. by apply list_elem_of_singleton in Fo.
    + intros (s & Fs%I & _ & ->). by apply list_elem_of_singleton in Fs as ->.
  - split; [done|]. intros (s & _ & U & _). exfalso.
    assert (start = s) by (apply U, I; by left). assert (start' = s) by (apply U, I; right; by left).
    subst. inversion D as [|? ? X _]; subst. apply X. by left.
Qed.

(** One replacement without [all] succeeds in two cases only. Either its text occurs in the
    content and not again after its first occurrence, and that occurrence alone is replaced; or
    it occurs nowhere and, comparing lines with their blanks squeezed, its lines fit at exactly
    one place, and the lines there alone are replaced by those of the new text. *)
Theorem replace_one_spec content old new out :
  apply_one content (ReplaceEdit.Mk old new false) = inl out <->
  old <> EmptyString /\
  ((exists before after, split_once old content = Some (before, after) /\
      contains_str old after = false /\ out = before +:+ new +:+ after) \/
   (contains_str old content = false /\ exists start, fuzzy_fits content old start /\
      (forall other, fuzzy_fits content old other -> other = start) /\
      out = join lf (take start (split_on LF content) ++ split_on LF new ++
                     drop (start + length (split_on LF old)) (split_on LF content)))).
Proof.
  unfold apply_one. cbn [ReplaceEdit.old_text ReplaceEdit.new_text ReplaceEdit.all negb].
  destruct (String.eqb_spec old EmptyString) as [->|N]; [by split; [|intros [? _]]|].
  destruct (split_once old content) as [[a b]|] eqn:E.
  - rewrite (split_str_some _ _ _ _ N E). cbn [length]. rewrite Nat.sub_succ, Nat.sub_0_r.
    assert (contains_str old content = true) as C by (unfold contains_str; by rewrite E).
    destruct (contains_str old b) eqn:Cb.
    + unfold contains_str in Cb. destruct (split_once old b) as [[a' b']|] eqn:E'; [|done].
      rewrite (split_str_some _ _ _ _ N E'). destruct (split_str_cons old b') as (p & l & ->). cbn.
      split; [done|]. intros [_ [(x & y & [= <- <-] & Cy & _)|[Cc _]]]; [|congruence].
      unfold contains_str in Cy. by rewrite E' in Cy.
    + rewrite (split_str_none old b) by done. cbn. split.
      * intros [= <-]. split; [done|]. left. by exists a, b.
      * intros [_ [(x & y & [= <- <-] & _ & ->)|[Cc _]]]; [done|congruence].
  - assert (contains_str old content = false) as C by (unfold contains_str; by rewrite E).
    rewrite split_str_none by done. cbn. rewrite fuzzy_spec. rewrite C. split.
    + intros H. split; [done|]. by right.
    + intros [_ [(? & ? & ? & _)|[_ H]]]; done.
Qed.
End ReplaceSpec.

(** * Grounded plans *)

(** What a change takes for granted of the files it is made against. *)
Definition grounded (reader : FileReader) (change : FileChange.t) : Prop :=
  match change with
  | FileChange.Create path _ => reader path = None
  | FileChange.Update path _ | FileChange.Delete path => is_Some (reader path)
  | FileChange.Rename from _ _ => is_Some (reader from)
  end.

(** The files after a change. *)
Definition after (reader : FileReader) (change : FileChange.t) : FileReader := fun p =>
  match change with
  | FileChange.Create path content | FileChange.Update path content =>
      if String.eqb p path then Some content else reader p
  | FileChange.Delete path => if String.eqb p path then None else reader p
  | FileChange.Rename from to content =>
      if String.eqb p to then Some content else if String.eqb p from then None else reader p
  end.

Fixpoint grounded_in_turn (reader : FileReader) (changes : list FileChange.t) : Prop :=
  match changes with
  | [] => True
  | change :: changes => grounded reader change /\ grounded_in_turn (after reader change) changes
  end.

Lemma patch_entry_grounded reader path current entry change path' current' :
  is_Some current <-> is_Some (reader path) ->
  patch_entry path current entry = inl (change, (path', current')) ->
  grounded reader change /\ (is_Some current' <-> is_Some (after reader change path')).
Proof.
  assert (forall A B (x : A) (y : B), is_Some (Some x) <-> is_Some (Some y)) as SS by (split; eauto).
  assert (forall A B, is_Some (@None A) <-> is_Some (@None B)) as NN by (split; intros [? [=]]).
  intros C. unfold patch_entry. destruct entry as [rename diff|diff|], current as [[nl content]|];
    try done.
  - destruct (Patch.apply_hunks content diff) as [updated|]; [|done]. cbn [bind].
    assert (is_Some (reader path)) by (apply C; eauto).
    destruct rename as [new|]; intros [= <- <- <-]; split; (done || cbn; rewrite String.eqb_refl; apply SS).
  - intros [= <- <- <-]. split; [|cbn; rewrite String.eqb_refl; apply SS].
    cbn. destruct (reader path); [|done]. destruct C as [_ C]. destruct (C ltac:(eauto)). done.
  - intros [= <- <- <-]. split; [apply C; eauto|]. cbn. rewrite String.eqb_refl. apply NN.
Qed.

Lemma patch_entries_grounded entries : forall reader path current changes,
  is_Some current <-> is_Some (reader path) ->
  patch_entries path current entries = inl changes ->
  length changes = length entries /\ grounded_in_turn reader changes.
Proof.
  induction entries as [|entry entries IH]; intros reader path current changes C; cbn.
  { by intros [= <-]. }
  destruct (patch_entry path current entry) as [[change [path' current']]|] eqn:E; [|done]. cbn.
  destruct (patch_entries path' current' entries) as [rest|] eqn:R; [|done].
  intros [= <-]. eapply patch_entry_grounded in E as [G C']; [|exact C].
  cbn. destruct (IH _ _ _ _ C' R) as [-> T]. done.
Qed.

Lemma plan_section_grounded reader line rest change rest' :
  ApplyPatch.plan_section reader line rest = inl (change, rest') -> grounded reader change.
Proof.
  unfold ApplyPatch.plan_section.
  destruct (strip_prefix "*** Add File: " line) as [p|].
  { unfold ApplyPatch.add_file. destruct (ApplyPatch.take_body rest) as [body r].
    destruct (reader (trim p)) eqn:R; [done|]. by intros [= <- _]. }
  destruct (strip_prefix "*** Delete File: " line) as [p|].
  { unfold ApplyPatch.delete_file. destruct (reader (trim p)) eqn:R; [|done].
    intros [= <- _]. by eexists. }
  destruct (strip_prefix "*** Update File: " line) as [p|]; [|done].
  unfold ApplyPatch.update_file. destruct (ApplyPatch.take_move rest) as [m r].
  destruct (ApplyPatch.take_body r) as [h r']. destruct (reader (trim p)) as [o|] eqn:R; [|done].
  destruct (patched o (join lf h)) as [c|]; [|done]. cbn. intros [= <- _].
  destruct m; by eexists.
Qed.

Lemma apply_patch_grounded reader fuel : forall lines changes planned,
  Forall (grounded reader) changes ->
  ApplyPatch.plan_sections fuel reader lines changes = inl planned ->
  planned <> [] /\ Forall (grounded reader) planned.
Proof.
  induction fuel as [|fuel IH]; intros lines changes planned G; cbn; [done|].
  destruct lines as [|line rest]; [done|]. destruct (String.eqb line END_).
  { destruct changes; [done|]. by intros [= <-]. }
  destruct (all_white line); [by apply IH|].
  destruct (ApplyPatch.plan_section reader line rest) as [[change rest']|] eqn:P; [|done].
  cbn. apply IH, Forall_app. split; [done|]. constructor; [|constructor].
  by eapply plan_section_grounded.
Qed.

Section grounded.
Context (block_end : string -> string -> nat -> option nat).

(** Planning an edit never panics and never plans on a guess: it ends with an error or with
    at least one change, and every change is grounded in the files: what it creates does not
    exist, what it updates, deletes or renames does. The changes of a patch-entry request, which
    follow one evolving path, are grounded in the files as the changes before them leave them;
    those of the other requests in the files as they are. *)
Theorem apply_grounded request reader :
  match apply block_end request reader with
  | Some (inl changes) => changes <> [] /\
      match request with
      | EditRequest.Patch _ _ => grounded_in_turn reader changes
      | _ => Forall (grounded reader) changes
      end
  | Some (inr _) => True
  | None => False
  end.
Proof.
  destruct request as [path edits|path entries|patch|patch]; unfold apply.
  - destruct (reader path) as [original|] eqn:R; [|done].
    destruct (Replace.apply (normalize original) edits) as [u|]; [|done]. cbn.
    split; [done|]. constructor; [by eexists|constructor].
  - destruct entries as [|entry entries]; [done|]. cbn [patch_dispatch].
    destruct (patch_entries _ _ (entry :: entries)) as [changes|] eqn:E; [|done].
    apply (patch_entries_grounded _ reader) in E as [L G]; [|by rewrite fmap_is_Some].
    split; [by destruct changes|done].
  - unfold ApplyPatch.plan. destruct (skip_blank _) as [|line rest]; [done|].
    destruct (String.eqb line BEGIN); [|done].
    destruct (ApplyPatch.plan_sections _ reader rest []) as [planned|] eqn:E; [|done].
    by apply apply_patch_grounded in E.
  - pose proof (plan_fresh block_end patch reader) as F.
    destruct (plan block_end patch reader) as [[changes|]|]; [|done|done].
    destruct F as [N F]. split; [done|]. eapply Forall_impl; [exact F|].
    intros c (h & p & e & o & ops & u & _ & _ & R & _ & _ & _ & ->). by eexists.
Qed.
End grounded.

(** * Line ends *)

(** The line ends of a file survive an edit that leaves its lines alone: text without a byte
    order mark whose lines all end alike, in a line feed or in a carriage return and line feed,
    is restored byte for byte from its normal form. *)
Theorem newlines_restored newline lines :
  let text := restore_newline (join lf lines) newline in
  Forall (fun line => no_char LF line = true /\ no_char CR line = true) lines ->
  strip_prefix bom text = None ->
  1 < length lines ->
  normalize text = join lf lines /\ detect_newline text = newline /\
  restore_newline (normalize text) (detect_newline text) = text.
Proof.
  intros text F B L. assert (lines <> []) as N by (intros ->; cbn in L; lia).
  apply Forall_and in F as [FL FC].
  assert (no_char CR (join lf lines) = true) as NC by (apply no_char_join; [reflexivity|exact FC]).
  assert (text = join (match newline with Newline.Lf => lf | Newline.Crlf => crlf end) lines) as E.
  { subst text. destruct newline; [done|]. cbn [restore_newline].
    by apply (replace_str_join LF EmptyString). }
  assert (normalize text = join lf lines) as H1.
  { unfold normalize. rewrite B. cbn [default from_option id]. rewrite E. destruct newline.
    - rewrite (replace_str_absent CR lf) by done. by apply (replace_str_absent CR EmptyString).
    - unfold crlf at 1, crlf at 1. change (cr +:+ lf) with (String CR lf).
      rewrite (replace_str_join CR lf) by done. by apply (replace_str_absent CR EmptyString). }
  assert (detect_newline text = newline) as H2.
  { unfold detect_newline, contains_str. rewrite E. destruct newline.
    - change crlf with (String CR lf). by rewrite split_once_absent.
    - destruct lines as [|x [|y l]]; [done|cbn in L; lia|].
      inversion FC; subst. change (join crlf (x :: y :: l)) with (x +:+ String CR lf +:+ join crlf (y :: l)).
      change crlf with (String CR lf). by rewrite split_once_fresh. }
  split_and!; [done|done|]. by rewrite H1, H2.
Qed.

Lemma newlines_restored_witness :
  let text := "a" +:+ crlf +:+ "b" +:+ crlf in
  restore_newline (normalize text) (detect_newline text) = text.
Proof.
  refine (proj2 (proj2 (newlines_restored Newline.Crlf ["a"; "b"; ""] _ _ _))).
  - repeat constructor.
  - reflexivity.
  - cbn. lia.
Defined.

(** * What context lines do *)

(** A hunk found with blanks ignored rewrites its context lines too, in the hunk's own blanks. *)
Lemma patch_rewrites_context :
  Patch.apply_hunks (join lf ["    keep"; "    old"]) (join lf ["@@"; " keep"; "-old"; "+new"]) =
  inl (join lf ["keep"; "new"]).
Proof. vm_compute. reflexivity. Qed.

(** A created file does not hold its text verbatim. *)
Lemma create_normalizes path : exists change,
  patch_dispatch path [PatchEntry.Create ("a" +:+ crlf)] (fun _ => None) = inl [change] /\
  change = FileChange.Create path ("a" +:+ lf).
Proof. eexists. split; reflexivity. Qed.
