(* ===== verification/Paths.v ===== *)
(** Paths and the file system under them: [std::path]'s components, a tree of files,
    directories and symbolic links with the resolution the system calls perform, the kernel's
    errors, and the root policy that confines every access ([nerve-core/src/security.rs]).

    Proved below. Confinement: what the root policy resolves is a real path under a root, and a write to it
    lands there; except through a link that leads nowhere yet. *)
From stdpp Require Import gmap strings.
From S2P Require Import Prelude Text.
Open Scope nerve_scope.

Module Component.
Inductive t := RootDir | CurDir | ParentDir | Normal (part : string).
#[global] Instance eq_dec : EqDecision t.
Proof. solve_decision. Defined.
End Component.

(** [Path::components] on Unix: repeated separators and inner dots vanish. *)
Definition component_of (index : nat) (piece : string) : option Component.t :=
  if String.eqb piece EmptyString then None
  else if String.eqb piece "." then (if index =? 0 then Some Component.CurDir else None)
  else if String.eqb piece ".." then Some Component.ParentDir
  else Some (Component.Normal piece).

Definition components (path : string) : list Component.t :=
  (if starts_with "/" path then [Component.RootDir] else []) ++
  omap id (imap component_of (split_on "/" path)).

(** [NerveError], of [models.rs]: paths as their pieces, the sources of the library errors as
    text, and the error that failed a batch itself for its text. *)
Module NerveError.
Inductive t :=
  | Cancelled
  | NoRoots
  | AmbiguousWorkspace
  | UnknownWorkspace (name : string)
  | ManageWorkspacesUnsupported
  | MissingWorkspaceName
  | OutsideRoots (path : list string)
  | PathTraversal (path : string)
  | EntryLimitExceeded (limit : nat)
  | InvalidRegex (source : string)
  | InvalidGlob (source : string)
  | Io (path : list string)
  | WritesUnsupported
  | AtomicBatchUnsupported
  | AtomicBatchFailed (detail : t) (applied_paths rollback_failed_paths : list (list string)).
End NerveError.

(** * The file system *)

Module Node.
Inductive t := File (content : string) | Dir | Link (target : string).
End Node.

(** Absolute names to nodes; the root directory is implicit. *)
Notation Fs := (gmap (list string) Node.t).

Definition is_absolute (path : string) : bool := starts_with "/" path.

(** The pieces that name no entry of a directory. *)
Definition dotted (piece : string) : bool :=
  String.eqb piece EmptyString || String.eqb piece "." || String.eqb piece "..".

(** Path resolution from the directory [resolved], following at most [links] links. *)
Fixpoint walk (fs : Fs) (links : nat) : list string -> list string -> option (list string) :=
  fix go (resolved pending : list string) {struct pending} : option (list string) :=
    match pending with
    | [] => Some resolved
    | piece :: rest =>
        if String.eqb piece EmptyString || String.eqb piece "." then go resolved rest
        else if String.eqb piece ".." then go (removelast resolved) rest
        else
          match fs !! (resolved ++ [piece]) with
          | None => None
          | Some Node.Dir => go (resolved ++ [piece]) rest
          | Some (Node.File _) => match rest with [] => Some (resolved ++ [piece]) | _ => None end
          | Some (Node.Link target) =>
              match links with
              | 0 => None
              | S links =>
                  walk fs links (if is_absolute target then [] else resolved)
                    (split_on "/" target ++ rest)
              end
          end
    end.

(** The kernel's limit on links in one resolution. *)
Definition MAX_LINKS : nat := 40.

(** [Path::canonicalize] of an absolute path. *)
Definition canonicalize (fs : Fs) (pieces : list string) : option (list string) :=
  walk fs MAX_LINKS [] pieces.

Definition exists_ (fs : Fs) (pieces : list string) : bool :=
  match canonicalize fs pieces with Some _ => true | None => false end.

Definition node_at (fs : Fs) (name : list string) : option Node.t :=
  match name with [] => Some Node.Dir | _ => fs !! name end.

Definition is_dir (fs : Fs) (pieces : list string) : bool :=
  match canonicalize fs pieces with
  | Some name => match node_at fs name with Some Node.Dir => true | _ => false end
  | None => false
  end.

(** Where opening a path to write, creating it if need be, ends: a link in last place is
    followed even when nothing is there yet. *)
Fixpoint write_target (fs : Fs) (links : nat) (dir : list string) (pieces : list string)
    : option (list string) :=
  match walk fs links dir (removelast pieces), last pieces with
  | Some parent, Some name =>
      if dotted name then None
      else
      match node_at fs parent with
      | Some Node.Dir =>
          match fs !! (parent ++ [name]) with
          | None | Some (Node.File _) => Some (parent ++ [name])
          | Some Node.Dir => None
          | Some (Node.Link target) =>
              match links with
              | 0 => None
              | S links =>
                  write_target fs links (if is_absolute target then [] else parent)
                    (split_on "/" target)
              end
          end
      | _ => None
      end
  | _, _ => None
  end.

(** [fs::create_dir_all] of the name [made ++ rest], when [made] is a directory already. *)
Fixpoint create_dirs (fs : Fs) (made rest : list string) : option Fs :=
  match rest with
  | [] => Some fs
  | piece :: rest =>
      if is_dir fs (made ++ [piece]) then create_dirs fs (made ++ [piece]) rest
      else
        match canonicalize fs made with
        | Some parent =>
            if is_dir fs parent then
              match fs !! (parent ++ [piece]) with
              | None => create_dirs (<[parent ++ [piece] := Node.Dir]> fs) (made ++ [piece]) rest
              | Some _ => None
              end
            else None
        | None => None
        end
  end.

Definition create_dir_all (fs : Fs) (name : list string) : option Fs := create_dirs fs [] name.

(** [fs::write], when nothing fails. *)
Definition fs_write (fs : Fs) (name : list string) (content : string) : option Fs :=
  (fun target => <[target := Node.File content]> fs) <$> write_target fs MAX_LINKS [] name.

(** * [security.rs] *)

Module RootPolicy.
Record t := Mk { roots : list (list string) }.
End RootPolicy.

Definition reject_traversal (path : string) : unit + NerveError.t :=
  if existsb (fun c => match c with Component.ParentDir => true | _ => false end) (components path)
  then inr (NerveError.PathTraversal path) else inl tt.

(** [Path::starts_with], by components. *)
Fixpoint starts_under (root path : list string) : bool :=
  match root, path with
  | [], _ => true
  | r :: root, p :: path => String.eqb r p && starts_under root path
  | _, [] => false
  end.

(** [root.join(path)], or the path itself when it is absolute. *)
Definition candidate (root : list string) (path : string) : list string :=
  if is_absolute path then split_on "/" path else root ++ split_on "/" path.

(** The named components of a path free of [..]. *)
Definition names (pieces : list string) : list string :=
  List.filter (fun piece => negb (String.eqb piece EmptyString || String.eqb piece ".")) pieces.

(** The nearest ancestor that exists, from one with [k] components up; the root is last. *)
Fixpoint existing_ancestor (fs : Fs) (pieces : list string) (k : nat) : option nat :=
  if exists_ fs (take k pieces) then Some k
  else match k with 0 => None | S k => existing_ancestor fs pieces k end.

Section policy.
Context (fs : Fs).

Definition contained (policy : RootPolicy.t) (path : list string) : (list string) + NerveError.t :=
  if existsb (fun root => starts_under root path) policy.(RootPolicy.roots)
  then inl path else inr (NerveError.OutsideRoots path).

Definition resolve_allowed (policy : RootPolicy.t) (path : string) : (list string) + NerveError.t :=
  match policy.(RootPolicy.roots) with
  | [] => inr NerveError.NoRoots
  | root :: _ =>
      match reject_traversal path with
      | inr e => inr e
      | inl _ =>
          let candidate := candidate root path in
          match canonicalize fs candidate with
          | None => inr (NerveError.Io candidate)
          | Some canonical => contained policy canonical
          end
      end
  end.

Definition resolve_for_write (policy : RootPolicy.t) (path : string) : (list string) + NerveError.t :=
  match policy.(RootPolicy.roots) with
  | [] => inr NerveError.NoRoots
  | root :: _ =>
      match reject_traversal path with
      | inr e => inr e
      | inl _ =>
          let candidate := candidate root path in
          match canonicalize fs candidate with
          | Some canonical => contained policy canonical
          | None =>
              let parts := names candidate in
              match existing_ancestor fs parts (length parts - 1) with
              | None => inr (NerveError.OutsideRoots candidate)
              | Some k =>
                  match canonicalize fs (take k parts) with
                  | None => inr (NerveError.Io (take k parts))
                  | Some canonical_ancestor =>
                      if negb (is_dir fs canonical_ancestor)
                      then inr (NerveError.Io canonical_ancestor)
                      else contained policy (canonical_ancestor ++ drop k parts)
                  end
              end
          end
      end
  end.

(** [RootPolicy::new]: every root canonical. *)
Fixpoint new_roots (paths : list (list string)) : (list (list string)) + NerveError.t :=
  match paths with
  | [] => inl []
  | path :: paths =>
      match reject_traversal (join "/" path) with
      | inr e => inr e
      | inl _ =>
          match canonicalize fs path with
          | None => inr (NerveError.Io path)
          | Some canonical =>
              match new_roots paths with
              | inr e => inr e
              | inl rest => inl (canonical :: rest)
              end
          end
      end
  end.

Definition new (paths : list (list string)) : RootPolicy.t + NerveError.t :=
  match new_roots paths with inl roots => inl (RootPolicy.Mk roots) | inr e => inr e end.
End policy.

(** A directory reached through directories alone, and a node in one. *)
Inductive real_dir (fs : Fs) : list string -> Prop :=
  | real_root : real_dir fs []
  | real_sub dir piece : real_dir fs dir -> dotted piece = false ->
      fs !! (dir ++ [piece]) = Some Node.Dir -> real_dir fs (dir ++ [piece]).

Inductive real (fs : Fs) : list string -> Prop :=
  | real_of_dir dir : real_dir fs dir -> real fs dir
  | real_file dir piece content : real_dir fs dir -> dotted piece = false ->
      fs !! (dir ++ [piece]) = Some (Node.File content) -> real fs (dir ++ [piece]).

(** Every entry is in a directory. *)
Definition well_formed (fs : Fs) : Prop :=
  forall dir piece node, fs !! (dir ++ [piece]) = Some node -> node_at fs dir = Some Node.Dir.

Lemma real_dir_up fs dir : real_dir fs dir -> real_dir fs (removelast dir).
Proof. intros [|d x R _ _]; [constructor|]. by rewrite removelast_last. Qed.

Lemma real_dir_node fs dir : real_dir fs dir -> node_at fs dir = Some Node.Dir.
Proof. intros [|d x _ _ N]; [done|]. by destruct d. Qed.

Lemma dotted_false piece : dotted piece = false ->
  String.eqb piece EmptyString = false /\ String.eqb piece "." = false /\ String.eqb piece ".." = false.
Proof. unfold dotted. rewrite !orb_false_iff. tauto. Qed.

Lemma walk_nil fs links resolved : walk fs links resolved [] = Some resolved.
Proof. by destruct links. Qed.

Lemma walk_cons fs links resolved piece rest :
  walk fs links resolved (piece :: rest) =
  if String.eqb piece EmptyString || String.eqb piece "." then walk fs links resolved rest
  else if String.eqb piece ".." then walk fs links (removelast resolved) rest
  else
    match fs !! (resolved ++ [piece]) with
    | None => None
    | Some Node.Dir => walk fs links (resolved ++ [piece]) rest
    | Some (Node.File _) => match rest with [] => Some (resolved ++ [piece]) | _ => None end
    | Some (Node.Link target) =>
        match links with
        | 0 => None
        | S links => walk fs links (if is_absolute target then [] else resolved)
                       (split_on "/" target ++ rest)
        end
    end.
Proof. by destruct links. Qed.

Lemma walk_real fs links : forall pending resolved p,
  real_dir fs resolved -> walk fs links resolved pending = Some p -> real fs p.
Proof.
  induction links as [|links IHl]; induction pending as [|piece rest IH]; intros resolved p R;
    rewrite ?walk_nil, ?walk_cons; try (intros [= <-]; by constructor).
  all: destruct (String.eqb piece EmptyString || String.eqb piece ".") eqn:D1; [by apply IH|].
  all: destruct (String.eqb piece "..") eqn:D2; [apply IH; by apply real_dir_up|].
  all: assert (dotted piece = false) as D by (unfold dotted; by rewrite D1, D2).
  all: destruct (fs !! (resolved ++ [piece])) as [[content| |target]|] eqn:N; try done.
  all: try (destruct rest; [intros [= <-]; by eapply real_file|done]).
  all: try (apply IH; by constructor).
  apply IHl. destruct (is_absolute target); [constructor|done].
Qed.

Lemma walk_real_dir fs links dir : real_dir fs dir -> forall rest,
  walk fs links [] (dir ++ rest) = walk fs links dir rest.
Proof.
  induction 1 as [|d x R IH D N]; intros rest; [done|].
  apply dotted_false in D as (D1 & D2 & D3).
  rewrite <- app_assoc, IH. cbn [app]. rewrite walk_cons, D1, D2, D3, N. done.
Qed.

Lemma real_canonical fs p : real fs p -> canonicalize fs p = Some p.
Proof.
  unfold canonicalize. intros [d R|d x c R D N].
  - rewrite <- (app_nil_r d) at 1. rewrite walk_real_dir by done. apply walk_nil.
  - rewrite walk_real_dir by done. apply dotted_false in D as (D1 & D2 & D3).
    by rewrite walk_cons, D1, D2, D3, N.
Qed.

Lemma canonicalize_real fs pieces p : canonicalize fs pieces = Some p -> real fs p.
Proof. apply walk_real. constructor. Qed.

(** A canonical path under one of the policy's roots. *)
Definition under_root (policy : RootPolicy.t) (path : list string) : Prop :=
  exists root, root ∈ policy.(RootPolicy.roots) /\ exists rest, path = root ++ rest.

Lemma starts_under_spec root path : starts_under root path = true <-> exists rest, path = root ++ rest.
Proof.
  revert path. induction root as [|r root IH]; intros path; cbn.
  { split; [by exists path|done]. }
  destruct path as [|p path]; [split; [done|by intros [? [=]]]|].
  rewrite andb_true_iff, String.eqb_eq, IH. split.
  - intros [-> [rest ->]]. by exists rest.
  - intros [rest [= -> ->]]. split; [done|by exists rest].
Qed.

Lemma contained_spec policy path p : contained policy path = inl p <-> p = path /\ under_root policy path.
Proof.
  unfold contained, under_root. destruct (existsb _ _) eqn:E.
  - split; [|by intros [-> _]]. intros [= <-]. split; [done|].
    apply existsb_exists in E as (root & I & S). exists root.
    split; [by apply list_elem_of_In|by apply starts_under_spec].
  - split; [done|]. intros (_ & root & I & S). exfalso.
    apply not_true_iff_false in E. apply E, existsb_exists. exists root.
    split; [by apply list_elem_of_In|by apply starts_under_spec].
Qed.

(** Whatever path it is given, the policy resolves a path for reading only to a real one:
    it exists, no link is on the way to it, it lies under one of the roots, and resolving it
    again yields itself, so that what is opened is what was checked. *)
Theorem resolve_allowed_confined fs policy path p :
  resolve_allowed fs policy path = inl p ->
  real fs p /\ canonicalize fs p = Some p /\ under_root policy p.
Proof.
  unfold resolve_allowed. destruct (RootPolicy.roots policy) as [|root roots] eqn:R; [done|].
  destruct (reject_traversal path); [|done].
  destruct (canonicalize fs (candidate root path)) as [c|] eqn:C; [|done].
  intros [-> U]%contained_spec. apply canonicalize_real in C.
  split_and!; [done|by apply real_canonical|done].
Qed.

Lemma existing_ancestor_spec fs pieces k n : existing_ancestor fs pieces k = Some n ->
  n <= k /\ exists_ fs (take n pieces) = true /\
  forall m, n < m <= k -> exists_ fs (take m pieces) = false.
Proof.
  revert n. induction k as [|k IH]; intros n; cbn [existing_ancestor].
  - destruct (exists_ fs (take 0 pieces)) eqn:E; [|done]. intros [= <-].
    split_and!; [lia|done|lia].
  - destruct (exists_ fs (take (S k) pieces)) eqn:E.
    + intros [= <-]. split_and!; [lia|done|lia].
    + intros (L & X & M)%IH. split_and!; [lia|done|]. intros m B.
      destruct (decide (m = S k)) as [->|]; [done|]. apply M. lia.
Qed.

(** * Writing *)

Lemma is_dir_real fs p : real fs p -> is_dir fs p = true -> real_dir fs p.
Proof.
  intros R. unfold is_dir. rewrite real_canonical by done. destruct R as [d R|d x c R D N]; [done|].
  unfold node_at. destruct (d ++ [x]) eqn:E; [by destruct d|]. by rewrite N.
Qed.

Lemma real_dir_is_dir fs d : real_dir fs d -> is_dir fs d = true.
Proof.
  intros R. unfold is_dir. rewrite real_canonical by by constructor. by rewrite real_dir_node.
Qed.

Lemma walk_entry fs links d x : real_dir fs d -> dotted x = false ->
  walk fs links [] (d ++ [x]) =
  match fs !! (d ++ [x]) with
  | None => None
  | Some (Node.Link target) =>
      match links with
      | 0 => None
      | S links => walk fs links (if is_absolute target then [] else d) (split_on "/" target)
      end
  | Some _ => Some (d ++ [x])
  end.
Proof.
  intros R D. rewrite walk_real_dir by done. apply dotted_false in D as (D1 & D2 & D3).
  rewrite walk_cons, D1, D2, D3. destruct (fs !! (d ++ [x])) as [[c| |t]|]; [done| | |done].
  - cbn [orb]. apply walk_nil.
  - destruct links; [done|]. by rewrite app_nil_r.
Qed.

Lemma real_dir_insert fs d q node : fs !! q = None -> real_dir fs d -> real_dir (<[q := node]> fs) d.
Proof.
  intros N. induction 1 as [|d x R IH D E]; [constructor|]. constructor; [done|done|].
  by rewrite lookup_insert_ne by congruence.
Qed.

Lemma app_snoc_inj {A} (a b : list A) x y : a ++ [x] = b ++ [y] -> a = b /\ x = y.
Proof. intros E. by apply app_inj_tail in E. Qed.

Lemma real_dir_plain fs d : real_dir fs d -> Forall (fun x => dotted x = false) d.
Proof. induction 1; [constructor|]. by apply Forall_app; repeat constructor. Qed.

Lemma well_formed_child fs q y : well_formed fs -> q <> [] -> fs !! q = None -> fs !! (q ++ [y]) = None.
Proof.
  intros W NE N. destruct (fs !! (q ++ [y])) eqn:E; [|done].
  apply W in E. unfold node_at in E. destruct q; [done|congruence].
Qed.

Lemma well_formed_insert fs d x : well_formed fs -> real_dir fs d -> fs !! (d ++ [x]) = None ->
  well_formed (<[d ++ [x] := Node.Dir]> fs).
Proof.
  intros W R N e y node. rewrite lookup_insert_Some. intros [[E <-]|[NE H]].
  - apply app_snoc_inj in E as [<- _]. apply real_dir_node.
    by apply real_dir_insert.
  - apply W in H. unfold node_at in *. destruct e as [|z e]; [done|].
    destruct (decide (d ++ [x] = z :: e)) as [->|NE']; [by rewrite lookup_insert_eq|].
    by rewrite lookup_insert_ne.
Qed.

Lemma create_dirs_real fs d rest : real_dir fs d -> create_dirs fs [] (d ++ rest) = create_dirs fs d rest.
Proof.
  intros R. revert rest. induction R as [|d x R IH D N]; intros rest; [done|].
  rewrite <- app_assoc, IH. cbn [app create_dirs]. rewrite real_dir_is_dir; [done|by constructor].
Qed.

Lemma create_dirs_new fs names : forall d,
  well_formed fs -> real_dir fs d -> Forall (fun x => dotted x = false) names ->
  (forall x, head names = Some x -> fs !! (d ++ [x]) = None) ->
  exists fs', create_dirs fs d names = Some fs' /\ real_dir fs' (d ++ names) /\
    forall y, fs' !! ((d ++ names) ++ [y]) = match names with [] => fs !! (d ++ [y]) | _ => None end.
Proof.
  revert fs. induction names as [|x names IH]; intros fs d W R P N; cbn [create_dirs].
  { exists fs. rewrite app_nil_r. done. }
  inversion P as [|? ? Px P']; subst. specialize (N x eq_refl).
  assert (is_dir fs (d ++ [x]) = false) as ->.
  { unfold is_dir, canonicalize. by rewrite walk_entry, N. }
  rewrite real_canonical by by constructor. rewrite real_dir_is_dir, N by done.
  set (fs1 := <[d ++ [x] := Node.Dir]> fs).
  assert (real_dir fs1 (d ++ [x])) as R1.
  { constructor; [by apply real_dir_insert|done|]. subst fs1. by rewrite lookup_insert_eq. }
  assert (forall y, fs1 !! ((d ++ [x]) ++ [y]) = None) as N1.
  { intros y. subst fs1. rewrite lookup_insert_ne.
    - apply well_formed_child; [done|by destruct d|done].
    - intros E. apply (f_equal length) in E. rewrite !length_app in E. cbn in E. lia. }
  destruct (IH fs1 (d ++ [x])) as (fs' & C & R' & H); [by apply well_formed_insert|done|done|auto|].
  exists fs'. rewrite <- app_assoc in *. cbn [app] in *. split_and!; [done|done|].
  intros y. rewrite H. destruct names; [by rewrite N1|done].
Qed.

Lemma names_plain pieces : existsb (String.eqb "..") pieces = false ->
  Forall (fun x => dotted x = false) (names pieces).
Proof.
  intros E. apply Forall_forall. intros x I. apply list_elem_of_In, filter_In in I as [I D].
  unfold dotted. apply negb_true_iff in D. rewrite D. cbn. apply String.eqb_neq. intros ->.
  apply not_true_iff_false in E. apply E, existsb_exists. exists "..". by split.
Qed.

(** Roots without dots, as [RootPolicy::new] leaves them. *)
Definition well_rooted (policy : RootPolicy.t) : Prop :=
  Forall (Forall (fun x => dotted x = false)) policy.(RootPolicy.roots).

Lemma real_plain fs p : real fs p -> Forall (fun x => dotted x = false) p.
Proof.
  intros [d R|d x c R D N]; [by apply real_dir_plain in R|].
  apply Forall_app. split; [by apply real_dir_plain in R|by repeat constructor].
Qed.

Lemma new_well_rooted fs paths policy : new fs paths = inl policy ->
  well_rooted policy /\ Forall (real fs) policy.(RootPolicy.roots).
Proof.
  unfold new, well_rooted. destruct (new_roots fs paths) as [roots|] eqn:E; [|done].
  intros [= <-]. cbn. revert roots E. induction paths as [|path paths IH]; intros roots; cbn [new_roots].
  { intros [= <-]. split; constructor. }
  destruct (reject_traversal _); [|done]. destruct (canonicalize fs path) as [c|] eqn:C; [|done].
  destruct (new_roots fs paths) as [rest|]; [|done]. intros [= <-].
  destruct (IH rest eq_refl) as [W R]. apply canonicalize_real in C.
  split; constructor; [by eapply real_plain|done|done|done].
Qed.

Lemma reject_traversal_spec path :
  reject_traversal path = inl tt <-> existsb (String.eqb "..") (split_on "/" path) = false.
Proof.
  unfold reject_traversal, components.
  set (f := fun c => match c with Component.ParentDir => true | _ => false end).
  assert (forall n l, existsb f (omap id (imap (fun i => component_of (n + i)) l)) =
    existsb (String.eqb "..") l) as H.
  { intros n l. revert n. induction l as [|x l IH]; intros n; [done|]. cbn [imap existsb].
    rewrite Nat.add_0_r. specialize (IH (S n)).
    rewrite (imap_ext _ (fun i => component_of (S n + i))) by (intros; cbn; by rewrite Nat.add_succ_r).
    unfold component_of at 1. cbn [omap list_omap id].
    destruct (String.eqb_spec x EmptyString) as [->|]; [done|].
    destruct (String.eqb_spec x ".") as [->|]; [by destruct (n =? 0)|].
    destruct (String.eqb_spec x "..") as [->|]; [done|].
    destruct (String.eqb_spec ".." x); [congruence|]. done. }
  rewrite existsb_app. replace (existsb f (if starts_with "/" path then _ else _)) with false
    by (by destruct (starts_with "/" path)).
  specialize (H 0 (split_on "/" path)). cbn [Nat.add] in H. cbn [orb].
  rewrite <- H. change (fun i => component_of i) with component_of. by destruct (existsb f _).
Qed.

Lemma walk_dots fs links pieces : Forall (fun x => x = EmptyString \/ x = ".") pieces ->
  forall resolved, walk fs links resolved pieces = Some resolved.
Proof.
  induction 1 as [|x l H _ IH]; intros resolved; [apply walk_nil|].
  rewrite walk_cons. destruct H as [-> | ->]; apply IH.
Qed.

Lemma names_nil pieces : names pieces = [] -> Forall (fun x => x = EmptyString \/ x = ".") pieces.
Proof.
  unfold names. induction pieces as [|x l IH]; [constructor|]. cbn.
  destruct (String.eqb_spec x EmptyString), (String.eqb_spec x "."); cbn; try done;
    constructor; auto.
Qed.

Lemma real_dir_not_file fs d x content :
  real_dir fs (d ++ [x]) -> fs !! (d ++ [x]) <> Some (Node.File content).
Proof. intros R%real_dir_node. unfold node_at in R. destruct d; cbn in *; congruence. Qed.

Lemma walk_app fs b links : forall a resolved q,
  walk fs links resolved a = Some q -> real_dir fs q ->
  exists links', walk fs links resolved (a ++ b) = walk fs links' q b.
Proof.
  induction links as [|links IHl]; induction a as [|piece a IH]; intros resolved q;
    cbn [app]; rewrite ?walk_nil, ?walk_cons; try (intros [= <-]; by eexists).
  all: destruct (String.eqb piece EmptyString || String.eqb piece "."); [by apply IH|].
  all: destruct (String.eqb piece ".."); [by apply IH|].
  all: destruct (fs !! (resolved ++ [piece])) as [[content| |target]|] eqn:N; try done.
  all: try (destruct a; [intros [= <-] R; by apply (real_dir_not_file _ _ _ content) in R|done]).
  all: try (by apply IH).
  intros W R. rewrite app_assoc. by apply IHl.
Qed.

Lemma candidate_no_up root path : Forall (fun x => dotted x = false) root ->
  reject_traversal path = inl tt -> existsb (String.eqb "..") (candidate root path) = false.
Proof.
  intros Pr T%reject_traversal_spec. unfold candidate. destruct (is_absolute path); [done|].
  rewrite existsb_app, T, orb_false_r.
  apply not_true_iff_false. intros (x & I & <-%String.eqb_eq)%existsb_exists.
  rewrite Forall_forall in Pr. apply list_elem_of_In, Pr in I. done.
Qed.

(** What is resolved for writing: a real path, or a name under a real directory. *)
Lemma resolve_for_write_cases fs policy path p : well_rooted policy ->
  resolve_for_write fs policy path = inl p ->
  under_root policy p /\
  (real fs p \/ exists dir new last, p = dir ++ new ++ [last] /\ real_dir fs dir /\
     Forall (fun x => dotted x = false) (new ++ [last]) /\
     forall x, head new = Some x ->
       fs !! (dir ++ [x]) = None \/ exists target, fs !! (dir ++ [x]) = Some (Node.Link target)).
Proof.
  intros WR. unfold resolve_for_write.
  unfold well_rooted in WR. destruct (RootPolicy.roots policy) as [|root roots] eqn:Ro; [done|].
  destruct (reject_traversal path) as [[]|] eqn:T; [|done]. apply reject_traversal_spec in T.
  set (c := candidate root path). destruct (canonicalize fs c) as [q|] eqn:C.
  { intros [-> U]%contained_spec. split; [done|]. left. by eapply canonicalize_real. }
  destruct (existing_ancestor _ _ _) as [k|] eqn:A; [|done].
  apply existing_ancestor_spec in A as (Lk & X & M).
  destruct (canonicalize fs (take k (names c))) as [anc|] eqn:CA; [|done].
  destruct (is_dir fs anc) eqn:D; [|done]. cbn [negb].
  intros [-> U]%contained_spec. split; [done|]. right.
  apply canonicalize_real in CA as RA. apply is_dir_real in RA; [|done].
  assert (names c <> []) as NE.
  { intros E%names_nil. unfold canonicalize in C. by rewrite walk_dots in C. }
  assert (existsb (String.eqb "..") c = false) as Tc
    by (apply candidate_no_up; [by inversion WR|by apply reject_traversal_spec]).
  apply names_plain in Tc. set (parts := names c) in *.
  assert (length (drop k parts) <> 0) as Ld.
  { rewrite length_drop. assert (length parts <> 0) by (by destruct parts). lia. }
  destruct (exists_last (l := drop k parts)) as (new & last & E); [by destruct (drop k parts)|].
  assert (Forall (fun x => dotted x = false) (new ++ [last])) as Tx.
  { rewrite <- E. rewrite <- (take_drop k parts) in Tc. by apply Forall_app in Tc as [_ ?]. }
  exists anc, new, last. rewrite E. split_and!; [done|done|done|].
  - intros x H. destruct new as [|y new]; [done|]. cbn in H. injection H as ->.
    assert (S k <= length parts - 1) as L'.
    { apply (f_equal length) in E. rewrite length_drop in E. cbn in E.
      rewrite length_app in E. cbn in E. lia. }
    specialize (M (S k) ltac:(lia)). unfold exists_ in M.
    assert (take (S k) parts = take k parts ++ [x]) as Tk.
    { apply take_S_r. rewrite <- (Nat.add_0_r k), <- lookup_drop, E. done. }
    rewrite Tk in M. unfold canonicalize in M.
    destruct (walk_app fs [x] MAX_LINKS (take k parts) [] anc) as [links W]; [done|done|].
    rewrite W in M. apply Forall_cons_1 in Tx as [Px _].
    apply dotted_false in Px as (D1 & D2 & D3). rewrite walk_cons, D1, D2, D3 in M.
    destruct (fs !! (anc ++ [x])) as [[content| |target]|]; cbn in M; try done.
    + by rewrite walk_nil in M.
    + right. by eexists.
    + by left.
Qed.

Lemma write_target_entry fs links d x : real_dir fs d -> dotted x = false ->
  fs !! (d ++ [x]) = None \/ (exists content, fs !! (d ++ [x]) = Some (Node.File content)) ->
  write_target fs links [] (d ++ [x]) = Some (d ++ [x]).
Proof.
  intros R D N. assert (walk fs links [] d = Some d) as W.
  { rewrite <- (app_nil_r d) at 1. rewrite walk_real_dir by done. apply walk_nil. }
  destruct links; cbn [write_target]; rewrite removelast_last, last_snoc, W, D, real_dir_node by done;
    by destruct N as [-> | [c ->]].
Qed.

(** C38: whatever path it is given, the policy resolves a path for writing only to one under one
    of the roots; and unless a link has one of the names on it, creating the directories it
    lacks and writing it reaches that very path: no file outside the roots is written. *)
Theorem resolve_for_write_confined fs policy path p :
  well_formed fs -> well_rooted policy -> resolve_for_write fs policy path = inl p ->
  under_root policy p /\
  ((forall name rest target, p = name ++ rest -> fs !! name <> Some (Node.Link target)) ->
   is_dir fs p = false ->
   exists fs', create_dir_all fs (removelast p) = Some fs' /\
               write_target fs' MAX_LINKS [] p = Some p).
Proof.
  intros W WR H. apply resolve_for_write_cases in H as [U C]; [|done]. split; [done|].
  intros L ND. unfold create_dir_all.
  destruct C as [R|(d & new & last & -> & R & P & N)].
  - destruct R as [d R|d x c R D N]; [by rewrite real_dir_is_dir in ND|].
    rewrite removelast_last. exists fs. split.
    + rewrite <- (app_nil_r d). by rewrite create_dirs_real.
    + apply write_target_entry; [done|done|]. right. by eexists.
  - rewrite app_assoc, removelast_last. rewrite create_dirs_real by done.
    apply Forall_app in P as [Pn Pl]. apply Forall_cons_1 in Pl as [Pl _].
    destruct (create_dirs_new fs new d) as (fs' & C & R' & E); [done|done|done| |].
    { intros x Hx. destruct (N x Hx) as [|[t T]]; [done|]. exfalso.
      destruct new as [|y new]; [done|]. cbn in Hx. injection Hx as ->.
      apply (L (d ++ [x]) (new ++ [last]) t); [by rewrite <- !app_assoc|done]. }
    exists fs'. split; [done|]. apply write_target_entry; [done|done|]. rewrite E.
    destruct new as [|y new]; [|by left]. cbn [app] in *.
    destruct (fs !! (d ++ [last])) as [[content| |target]|] eqn:Nd; [right; by eexists| | |by left].
    + rewrite real_dir_is_dir in ND; [done|by constructor].
    + exfalso. apply (L (d ++ [last]) [] target); [by rewrite app_nil_r|done].
Qed.

(** * A workspace with links out of it *)

Definition workspace : Fs :=
  list_to_map [(["w"], Node.Dir); (["etc"], Node.Dir); (["etc"; "passwd"], Node.File "root");
               (["w"; "out"], Node.Link "/etc/passwd"); (["w"; "new"], Node.Link "/etc/new");
               (["w"; "a"], Node.File "A")].
Definition workspace_policy : RootPolicy.t := RootPolicy.Mk [["w"]].

Lemma resolve_for_write_confined_witness :
  exists fs', create_dir_all workspace ["w"; "d"] = Some fs' /\
    write_target fs' MAX_LINKS [] ["w"; "d"; "b"] = Some ["w"; "d"; "b"].
Proof.
  refine (proj2 (resolve_for_write_confined workspace workspace_policy "d/b" ["w"; "d"; "b"] _ _ _) _ _).
  - intros d x node H%elem_of_list_to_map_2.
    rewrite !elem_of_cons in H.
    destruct_or! H; try (by apply not_elem_of_nil in H);
      injection H as H _; (destruct d as [|y [|z d]]; [reflexivity| |]); cbn in H;
      injection H as E H; subst; try reflexivity; try discriminate; by destruct d.
  - repeat constructor.
  - reflexivity.
  - intros name rest target E. destruct name as [|a [|b [|c [|? ?]]]]; try done;
      injection E; intros; subst; vm_compute; discriminate.
  - reflexivity.
Defined.

Lemma resolve_allowed_confined_witness :
  real workspace ["w"; "a"] /\ canonicalize workspace ["w"; "a"] = Some ["w"; "a"] /\
  under_root workspace_policy ["w"; "a"].
Proof. refine (resolve_allowed_confined workspace workspace_policy "./a" ["w"; "a"] _). reflexivity. Defined.

(** A trailing separator hides a link to a file outside from the check, and a link to nothing
    yet is not seen at all: both paths are accepted, and writing them changes [/etc]. *)
Lemma write_escapes_through_links :
  resolve_allowed workspace workspace_policy "out" = inr (NerveError.OutsideRoots ["etc"; "passwd"]) /\
  resolve_for_write workspace workspace_policy "out" = inr (NerveError.OutsideRoots ["etc"; "passwd"]) /\
  resolve_for_write workspace workspace_policy "out/" = inl ["w"; "out"] /\
  write_target workspace MAX_LINKS [] ["w"; "out"] = Some ["etc"; "passwd"] /\
  resolve_for_write workspace workspace_policy "new" = inl ["w"; "new"] /\
  write_target workspace MAX_LINKS [] ["w"; "new"] = Some ["etc"; "new"].
Proof. repeat split; vm_compute; reflexivity. Qed.
