(* ===== verification/Batch.v ===== *)
(** A batch of planned changes: the preflight that refuses conflicting ones
    ([nerve-core/src/dispatch/batch.rs]) and the in-memory provider that applies them
    ([catalog/memory.rs], [catalog/memory_batch.rs]).

    Proved below. What the preflight of a batch guarantees: a batch it accepts is applied in full, to the
    files it should be, with two exceptions shown at the end. *)
From stdpp Require Import gmap strings.
From S2P Require Import Prelude Text EditText Paths EditModes.
Open Scope nerve_scope.

Module DispatchError.
Inductive t := Edit (error : EditError.t) | Core (error : NerveError.t).
End DispatchError.

Definition guard {E} (r : unit + E) {A} (k : A + E) : A + E :=
  match r with inl _ => k | inr e => inr e end.
Notation "r ;; k" := (guard r k) (at level 100, k at level 200, right associativity,
  only parsing) : nerve_scope.

Definition then_ {A B E} (r : A + E) (k : A -> B + E) : B + E :=
  match r with inl a => k a | inr e => inr e end.

(** What a batch asks of the provider that holds the files. *)
Class CatalogProvider := {
  read_bytes : string -> string + NerveError.t;
  validate_write_path : string -> unit + NerveError.t }.

(** * [batch.rs] *)

Definition preflight_error (detail : string) : DispatchError.t :=
  DispatchError.Edit (EditError.Parse "edit-preflight" detail).

Definition reject (condition : bool) (label path : string) : unit + DispatchError.t :=
  if condition then inr (preflight_error (label +:+ ": " +:+ path)) else inl tt.

Definition core {A} (r : A + NerveError.t) : A + DispatchError.t :=
  match r with inl a => inl a | inr e => inr (DispatchError.Core e) end.

(** The named parts of a path, refused at its first parent component. *)
Fixpoint key_parts (cs : list Component.t) : option (list string) :=
  match cs with
  | [] => Some []
  | Component.Normal part :: cs => cons part <$> key_parts cs
  | (Component.CurDir | Component.RootDir) :: cs => key_parts cs
  | Component.ParentDir :: _ => None
  end.

Definition path_key (path : string) : string + DispatchError.t :=
  match key_parts (components path) with
  | None => inr (preflight_error ("path is not batch-safe: " +:+ path))
  | Some [] => inr (preflight_error ("path is empty: " +:+ path))
  | Some parts => inl (join "/" parts)
  end.

(** The state of the checks: the keys written and deleted, and the renames in key order. *)
Module Seen.
Record t := Mk { writes : gset string; deletes : gset string; renames : gmap string string }.
Definition empty : t := Mk ∅ ∅ ∅.
End Seen.

Section preflight.
Context `{CatalogProvider}.

Definition readable (path : string) : bool :=
  match read_bytes path with inl _ => true | inr _ => false end.

Definition ensure_readable (path : string) : unit + DispatchError.t :=
  match read_bytes path with inl _ => inl tt | inr e => inr (DispatchError.Core e) end.

Definition preflight_create (path : string) (seen : Seen.t) : Seen.t + DispatchError.t :=
  then_ (path_key path) (fun key =>
  reject (bool_decide (key ∈ seen.(Seen.writes))) "duplicate create/update target" path ;;
  core (validate_write_path path) ;;
  reject (readable path) "destination already exists" path ;;
  inl (Seen.Mk ({[key]} ∪ seen.(Seen.writes)) seen.(Seen.deletes) seen.(Seen.renames))).

Definition preflight_update (path : string) (seen : Seen.t) : Seen.t + DispatchError.t :=
  ensure_readable path ;;
  then_ (path_key path) (fun key =>
  reject (bool_decide (key ∈ seen.(Seen.deletes))) "delete+update conflict" path ;;
  reject (bool_decide (key ∈ seen.(Seen.writes))) "duplicate update/create target" path ;;
  inl (Seen.Mk ({[key]} ∪ seen.(Seen.writes)) seen.(Seen.deletes) seen.(Seen.renames))).

Definition preflight_delete (path : string) (seen : Seen.t) : Seen.t + DispatchError.t :=
  ensure_readable path ;;
  then_ (path_key path) (fun key =>
  reject (bool_decide (key ∈ seen.(Seen.writes))) "delete+update conflict" path ;;
  reject (bool_decide (key ∈ seen.(Seen.deletes))) "duplicate delete" path ;;
  inl (Seen.Mk seen.(Seen.writes) ({[key]} ∪ seen.(Seen.deletes)) seen.(Seen.renames))).

Definition preflight_rename (from to : string) (seen : Seen.t) : Seen.t + DispatchError.t :=
  ensure_readable from ;;
  then_ (path_key from) (fun from_key =>
  then_ (path_key to) (fun to_key =>
  reject (String.eqb from_key to_key) "rename source equals destination" from ;;
  reject (bool_decide (from_key ∈ seen.(Seen.writes))) "source already updated" from ;;
  reject (bool_decide (from_key ∈ seen.(Seen.deletes))) "source already deleted" from ;;
  reject (bool_decide (to_key ∈ seen.(Seen.writes))) "duplicate destination" to ;;
  core (validate_write_path to) ;;
  reject (readable to) "destination already exists" to ;;
  reject (bool_decide (is_Some (seen.(Seen.renames) !! from_key))) "duplicate rename source" from ;;
  inl (Seen.Mk ({[to_key]} ∪ seen.(Seen.writes)) seen.(Seen.deletes)
         (<[from_key := to_key]> seen.(Seen.renames))))).

Definition preflight_change (change : FileChange.t) (seen : Seen.t) : Seen.t + DispatchError.t :=
  match change with
  | FileChange.Create path _ => preflight_create path seen
  | FileChange.Update path _ => preflight_update path seen
  | FileChange.Delete path => preflight_delete path seen
  | FileChange.Rename from to _ => preflight_rename from to seen
  end.

Fixpoint preflight_all (changes : list FileChange.t) (seen : Seen.t) : Seen.t + DispatchError.t :=
  match changes with
  | [] => inl seen
  | change :: changes => then_ (preflight_change change seen) (preflight_all changes)
  end.

(** One walk along the renames; [true] when it meets [start] or a key for the second time. *)
Fixpoint rename_cycle (fuel : nat) (renames : gmap string string) (start current : string)
    (visited : gset string) : bool :=
  match fuel with
  | 0 => true
  | S fuel =>
      match renames !! current with
      | None => false
      | Some next =>
          String.eqb next start || bool_decide (current ∈ visited) ||
          rename_cycle fuel renames start next ({[current]} ∪ visited)
      end
  end.

Definition reject_rename_cycles (renames : gmap string string) : unit + DispatchError.t :=
  match List.filter (fun start => rename_cycle (S (S (size renames))) renames start start ∅)
          (sort_by string_leb (map fst (map_to_list renames))) with
  | [] => inl tt
  | start :: _ => inr (preflight_error ("rename cycle involving " +:+ start))
  end.

Definition preflight_changes (changes : list FileChange.t) : unit + DispatchError.t :=
  then_ (preflight_all changes Seen.empty) (fun seen => reject_rename_cycles seen.(Seen.renames)).
End preflight.

(** * The in-memory provider *)

Module Memory.
Definition DEFAULT_ROOT_NAME : string := "host".

Notation Files := (gmap string string).

Fixpoint host_parts (normalized : list string) (cs : list Component.t) : option (list string) :=
  match cs with
  | [] => Some normalized
  | Component.Normal part :: cs =>
      if bool_decide (normalized = []) && String.eqb part DEFAULT_ROOT_NAME
      then host_parts normalized cs
      else host_parts (normalized ++ [part]) cs
  | (Component.CurDir | Component.RootDir) :: cs => host_parts normalized cs
  | Component.ParentDir :: _ => None
  end.

Definition normalize_host_path (path : string) : string + NerveError.t :=
  match host_parts [] (components path) with
  | None => inr (NerveError.PathTraversal path)
  | Some [] => inr (NerveError.OutsideRoots [path])
  | Some parts => inl (join "/" parts)
  end.

Definition read_bytes (files : Files) (path : string) : string + NerveError.t :=
  then_ (normalize_host_path path) (fun key =>
  match files !! key with Some bytes => inl bytes | None => inr (NerveError.OutsideRoots [path]) end).

Definition validate_write_path (path : string) : unit + NerveError.t :=
  then_ (normalize_host_path path) (fun _ => inl tt).

#[export] Instance provider (files : Files) : CatalogProvider :=
  {| Batch.read_bytes := read_bytes files; Batch.validate_write_path := validate_write_path |}.

Definition apply_change (files : Files) (change : FileChange.t) : Files + NerveError.t :=
  match change with
  | FileChange.Create path content =>
      then_ (normalize_host_path path) (fun key =>
      match files !! key with
      | Some _ => inr (NerveError.Io [key])
      | None => inl (<[key := content]> files)
      end)
  | FileChange.Update path content =>
      then_ (normalize_host_path path) (fun key => inl (<[key := content]> files))
  | FileChange.Delete path =>
      then_ (normalize_host_path path) (fun key =>
      match files !! key with
      | None => inr (NerveError.Io [key])
      | Some _ => inl (delete key files)
      end)
  | FileChange.Rename from to content =>
      then_ (normalize_host_path from) (fun from_key =>
      then_ (normalize_host_path to) (fun to_key =>
      match files !! from_key with
      | None => inr (NerveError.Io [from_key])
      | Some _ => inl (<[to_key := content]> (delete from_key files))
      end))
  end.

Fixpoint apply_each (files : Files) (changes : list FileChange.t) : Files + NerveError.t :=
  match changes with
  | [] => inl files
  | change :: changes => then_ (apply_change files change) (fun next => apply_each next changes)
  end.

(** [apply_file_batch]: the changes are made on a copy, kept only if all succeed. *)
Definition apply_file_batch (files : Files) (changes : list FileChange.t) : Files * (unit + NerveError.t) :=
  match apply_each files changes with
  | inl next => (next, inl tt)
  | inr e => (files, inr e)
  end.
End Memory.

(** * The walk along the renames ends *)

Lemma rename_cycle_fuel renames start f1 : forall f2 current visited,
  visited ⊆ dom renames ->
  size (dom renames ∖ visited) < f1 -> size (dom renames ∖ visited) < f2 ->
  rename_cycle f1 renames start current visited = rename_cycle f2 renames start current visited.
Proof.
  induction f1 as [|f1 IH]; intros [|f2] current visited V L1 L2; try lia. cbn [rename_cycle].
  destruct (renames !! current) as [next|] eqn:N; [|done].
  destruct (String.eqb next start); [done|]. cbn [orb].
  destruct (bool_decide_reflect (current ∈ visited)) as [I|I]; [done|]. cbn [orb].
  assert (current ∈ dom renames) as D by (by apply elem_of_dom_2 in N).
  assert (size (dom renames ∖ ({[current]} ∪ visited)) < size (dom renames ∖ visited)) as S.
  { apply subset_size. set_solver. }
  apply IH; [set_solver|lia|lia].
Qed.

(** * What a batch means *)

(** A path the preflight and the provider give one key. *)
Definition plain (path key : string) : Prop :=
  path_key path = inl key /\ Memory.normalize_host_path path = inl key.

Definition key_of (path : string) : string :=
  match Memory.normalize_host_path path with inl key => key | inr _ => EmptyString end.

Definition paths_of (change : FileChange.t) : list string :=
  match change with
  | FileChange.Create path _ | FileChange.Update path _ | FileChange.Delete path => [path]
  | FileChange.Rename from to _ => [from; to]
  end.

(** The contents a batch writes and the keys it takes away. *)
Module Effect.
Record t := Mk { written : gmap string string; gone : gset string }.
Definition empty : t := Mk ∅ ∅.
End Effect.

Definition effect (e : Effect.t) (change : FileChange.t) : Effect.t :=
  let '(Effect.Mk written gone) := e in
  match change with
  | FileChange.Create path content | FileChange.Update path content =>
      Effect.Mk (<[key_of path := content]> written) gone
  | FileChange.Delete path => Effect.Mk written ({[key_of path]} ∪ gone)
  | FileChange.Rename from to content =>
      Effect.Mk (<[key_of to := content]> written) ({[key_of from]} ∪ gone)
  end.

(** The files it should leave: what it writes holds what it says, whatever else is gone is gone,
    and nothing else changes. *)
Definition leaves (files : Memory.Files) (e : Effect.t) : Memory.Files :=
  e.(Effect.written) ∪ filter (fun '(key, _) => key ∉ e.(Effect.gone)) files.

#[local] Arguments leaves : simpl never.
#[local] Arguments then_ : simpl never.

Definition source_of (change : FileChange.t) : option string :=
  match change with FileChange.Rename from _ _ => Some (key_of from) | _ => None end.
Definition delete_of (change : FileChange.t) : option string :=
  match change with FileChange.Delete path => Some (key_of path) | _ => None end.

(** No rename takes away what a later change deletes. *)
Definition keeps_sources (changes : list FileChange.t) : Prop :=
  ForallOrdPairs (fun a b => forall key, source_of a = Some key -> delete_of b <> Some key) changes.

(** Every path has one key, for the preflight and the provider alike. *)
Definition plain_batch (changes : list FileChange.t) : Prop :=
  Forall (fun change => Forall (fun path => plain path (key_of path)) (paths_of change)) changes.

(** * Step by step *)

Lemma leaves_lookup files e key : leaves files e !! key =
  match e.(Effect.written) !! key with
  | Some content => Some content
  | None => if decide (key ∈ e.(Effect.gone)) then None else files !! key
  end.
Proof.
  unfold leaves. rewrite lookup_union.
  destruct (Effect.written e !! key); [by rewrite union_Some_l|]. rewrite (left_id_L None) by apply _.
  destruct (decide (key ∈ Effect.gone e)) as [I|I].
  - apply map_lookup_filter_None. right. by intros x _ N.
  - destruct (files !! key) as [x|] eqn:F.
    + by apply map_lookup_filter_Some.
    + apply map_lookup_filter_None. by left.
Qed.

Lemma leaves_write files w g key content : <[key := content]> (leaves files (Effect.Mk w g)) =
  leaves files (Effect.Mk (<[key := content]> w) g).
Proof. unfold leaves. cbn. by rewrite insert_union_l. Qed.

Lemma leaves_gone files w g key : w !! key = None ->
  delete key (leaves files (Effect.Mk w g)) = leaves files (Effect.Mk w ({[key]} ∪ g)).
Proof.
  intros N. apply map_eq. intros k. rewrite lookup_delete, !leaves_lookup. cbn.
  destruct (decide (key = k)) as [<-|NE].
  - rewrite N. rewrite decide_True by set_solver. done.
  - destruct (w !! k); [done|]. destruct (decide (k ∈ g)) as [I|I].
    + by rewrite decide_True by set_solver.
    + by rewrite decide_False by set_solver.
Qed.

(** The preflight's state follows the effect of the changes it has accepted. *)
Record tracked (seen : Seen.t) (e : Effect.t) : Prop := {
  tr_writes : seen.(Seen.writes) = dom e.(Effect.written);
  tr_gone : seen.(Seen.deletes) ∪ dom seen.(Seen.renames) = e.(Effect.gone) }.

Lemma guard_inl {E B} (r : unit + E) (k : B + E) b : guard r k = inl b -> (exists a, r = inl a) /\ k = inl b.
Proof. destruct r; [eauto|done]. Qed.

Lemma reject_inl c label path u : reject c label path = inl u -> c = false.
Proof. unfold reject. by destruct c. Qed.

Lemma ensure_readable_inl files path key u : plain path key ->
  @ensure_readable (Memory.provider files) path = inl u -> exists content, files !! key = Some content.
Proof.
  intros [_ K]. unfold ensure_readable. cbn. unfold Memory.read_bytes. rewrite K. unfold then_.
  destruct (files !! key); [eauto|done].
Qed.

Lemma not_readable files path key : plain path key ->
  @readable (Memory.provider files) path = false -> files !! key = None.
Proof.
  intros [_ K]. unfold readable. cbn. unfold Memory.read_bytes. rewrite K. unfold then_.
  by destruct (files !! key).
Qed.

Ltac split_guards H :=
  repeat (apply guard_inl in H as [[? ?%reject_inl%bool_decide_eq_false] H]).

Lemma plain_then {A} path key (k : string -> A + DispatchError.t) : plain path key ->
  then_ (path_key path) k = k key.
Proof. by intros [-> _]. Qed.

Lemma plain_host {A} path key (k : string -> A + NerveError.t) : plain path key ->
  then_ (Memory.normalize_host_path path) k = k key.
Proof. by intros [_ ->]. Qed.

Lemma step_create files cur seen e path content :
  plain path (key_of path) -> cur = leaves files e -> tracked seen e -> forall seen',
  @preflight_create (Memory.provider files) path seen = inl seen' ->
  Memory.apply_change cur (FileChange.Create path content) =
    inl (leaves files (effect e (FileChange.Create path content))) /\
  tracked seen' (effect e (FileChange.Create path content)) /\
  seen'.(Seen.renames) = seen.(Seen.renames).
Proof.
  intros P -> [TW TG] seen'. unfold preflight_create. rewrite (plain_then _ _ _ P). intros H.
  apply guard_inl in H as [[? W%reject_inl%bool_decide_eq_false] H].
  apply guard_inl in H as [_ H]. apply guard_inl in H as [[? R%reject_inl] [= <-]].
  apply (not_readable files path _ P) in R. destruct e as [w g]. cbn in *.
  rewrite (plain_host _ _ _ P), leaves_lookup. cbn.
  rewrite TW, not_elem_of_dom in W. rewrite W, R.
  assert ((if decide (key_of path ∈ g) then None else None) = @None string) as -> by (by destruct (decide _)).
  rewrite leaves_write. split_and!; [done| |done].
  constructor; cbn; [by rewrite dom_insert_L, TW|done].
Qed.

Lemma step_update files cur seen e path content :
  plain path (key_of path) -> cur = leaves files e -> tracked seen e -> forall seen',
  @preflight_update (Memory.provider files) path seen = inl seen' ->
  Memory.apply_change cur (FileChange.Update path content) =
    inl (leaves files (effect e (FileChange.Update path content))) /\
  tracked seen' (effect e (FileChange.Update path content)) /\
  seen'.(Seen.renames) = seen.(Seen.renames).
Proof.
  intros P -> [TW TG] seen'. unfold preflight_update. intros H.
  apply guard_inl in H as [_ H]. rewrite (plain_then _ _ _ P) in H.
  apply guard_inl in H as [_ H]. apply guard_inl in H as [_ [= <-]].
  destruct e as [w g]. cbn in *. rewrite (plain_host _ _ _ P), leaves_write.
  split_and!; [done| |done]. constructor; cbn; [by rewrite dom_insert_L, TW|done].
Qed.

Lemma step_delete files cur seen e path :
  plain path (key_of path) -> cur = leaves files e -> tracked seen e ->
  seen.(Seen.renames) !! key_of path = None -> forall seen',
  @preflight_delete (Memory.provider files) path seen = inl seen' ->
  Memory.apply_change cur (FileChange.Delete path) =
    inl (leaves files (effect e (FileChange.Delete path))) /\
  tracked seen' (effect e (FileChange.Delete path)) /\
  seen'.(Seen.renames) = seen.(Seen.renames).
Proof.
  intros P -> [TW TG] N seen'. unfold preflight_delete. intros H.
  apply guard_inl in H as [[u R] H]. rewrite (plain_then _ _ _ P) in H.
  apply guard_inl in H as [[? W%reject_inl%bool_decide_eq_false] H].
  apply guard_inl in H as [[? D%reject_inl%bool_decide_eq_false] [= <-]].
  apply (ensure_readable_inl files path _ _ P) in R as [content F].
  destruct e as [w g]. cbn in *. rewrite (plain_host _ _ _ P), leaves_lookup. cbn.
  rewrite TW, not_elem_of_dom in W. rewrite W.
  assert (key_of path ∉ g) as G.
  { rewrite <- TG. apply not_elem_of_dom in N. set_solver. }
  rewrite decide_False, F, leaves_gone by done. split_and!; [done| |done].
  constructor; cbn; [done|]. rewrite <- TG. set_solver.
Qed.

Lemma step_rename files cur seen e from to content :
  plain from (key_of from) -> plain to (key_of to) -> cur = leaves files e -> tracked seen e ->
  forall seen', @preflight_rename (Memory.provider files) from to seen = inl seen' ->
  Memory.apply_change cur (FileChange.Rename from to content) =
    inl (leaves files (effect e (FileChange.Rename from to content))) /\
  tracked seen' (effect e (FileChange.Rename from to content)) /\
  seen'.(Seen.renames) = <[key_of from := key_of to]> seen.(Seen.renames) /\
  (exists content, files !! key_of from = Some content) /\ files !! key_of to = None.
Proof.
  intros P P' -> [TW TG] seen'. unfold preflight_rename. intros H.
  apply guard_inl in H as [[u R] H]. rewrite (plain_then _ _ _ P), (plain_then _ _ _ P') in H.
  apply guard_inl in H as [[? NE%reject_inl] H].
  apply guard_inl in H as [[? W%reject_inl%bool_decide_eq_false] H].
  apply guard_inl in H as [[? D%reject_inl%bool_decide_eq_false] H].
  apply guard_inl in H as [[? W'%reject_inl%bool_decide_eq_false] H].
  apply guard_inl in H as [_ H]. apply guard_inl in H as [[? R'%reject_inl] H].
  apply guard_inl in H as [[? S%reject_inl%bool_decide_eq_false] [= <-]].
  apply (ensure_readable_inl files from _ _ P) in R as [old F].
  apply (not_readable files to _ P') in R'.
  destruct e as [w g]. cbn in *. rewrite (plain_host _ _ _ P), (plain_host _ _ _ P'), leaves_lookup. cbn.
  rewrite TW, not_elem_of_dom in W. rewrite W.
  assert (key_of from ∉ g) as G.
  { rewrite <- TG. rewrite not_elem_of_union, not_elem_of_dom. split; [done|]. by apply eq_None_not_Some. }
  rewrite decide_False, F, leaves_gone, leaves_write by done. split_and!; [done| |done|by eexists|done].
  constructor; cbn; [by rewrite dom_insert_L, TW|]. rewrite dom_insert_L, <- TG. set_solver.
Qed.

(** What every accepted rename satisfies: its source is there and its destination is not. *)
Definition fresh_renames (files : Memory.Files) (renames : gmap string string) : Prop :=
  map_Forall (fun from to => is_Some (files !! from) /\ files !! to = None) renames.

Lemma land files changes : forall cur seen e seen',
  plain_batch changes -> cur = leaves files e -> tracked seen e ->
  Forall (fun change => forall key, is_Some (seen.(Seen.renames) !! key) -> delete_of change <> Some key)
    changes ->
  keeps_sources changes -> fresh_renames files seen.(Seen.renames) ->
  @preflight_all (Memory.provider files) changes seen = inl seen' ->
  Memory.apply_each cur changes = inl (leaves files (foldl effect e changes)) /\
  fresh_renames files seen'.(Seen.renames).
Proof.
  induction changes as [|change changes IH]; intros cur seen e seen' P C T S K F; cbn [preflight_all].
  { intros [= <-]. by subst. }
  inversion P as [|? ? Pc P']; subst. inversion S as [|? ? Sc S']; subst.
  inversion K as [|? ? Kc K']; subst.
  destruct (preflight_change change seen) as [seen1|] eqn:E; [|done]. cbn [then_]. unfold then_ at 1.
  intros H. cbn [Memory.apply_each foldl].
  assert (Memory.apply_change (leaves files e) change = inl (leaves files (effect e change)) /\
    tracked seen1 (effect e change) /\ fresh_renames files seen1.(Seen.renames) /\
    (forall key, is_Some (seen1.(Seen.renames) !! key) ->
       is_Some (seen.(Seen.renames) !! key) \/ source_of change = Some key)) as (A & T' & F' & R).
  { destruct change as [path c|path c|path|from to c]; cbn in Pc.
    - apply Forall_cons_1 in Pc as [Pp _]. eapply step_create in E as (A & T' & ->); eauto.
    - apply Forall_cons_1 in Pc as [Pp _]. eapply step_update in E as (A & T' & ->); eauto.
    - apply Forall_cons_1 in Pc as [Pp _]. eapply step_delete in E as (A & T' & ->); eauto.
      apply eq_None_not_Some. intros Q. by apply (Sc _ Q).
    - apply Forall_cons_1 in Pc as [Pf [Pt _]%Forall_cons_1].
      eapply step_rename in E as (A & T' & -> & Ff & Ft); eauto. split_and!; [done|done| |].
      + apply map_Forall_insert_2; [|done]. split; [by destruct Ff as [x ->]; eexists|done].
      + intros key. rewrite lookup_insert_is_Some. intros [<-|[_ ?]]; auto. }
  rewrite A. unfold then_. eapply IH; eauto.
  apply Forall_forall. intros b I key Q. apply R in Q as [Q|Q].
  - rewrite Forall_forall in S'. by apply S'.
  - rewrite Forall_forall in Kc. by apply (Kc b I key).
Qed.

(** A batch of changes that the preflight accepts lands whole: applied to the files it was
    checked against, none of its changes fails, every file it creates, updates or renames to
    holds what it says, every other file it deletes or renames away is gone, and all other
    files are as they were, whatever the order of the changes. Its paths must name files the
    same way for both sides, and it must not delete a file that it has renamed away. *)
Theorem preflight_lands files changes :
  plain_batch changes -> keeps_sources changes ->
  @preflight_changes (Memory.provider files) changes = inl tt ->
  Memory.apply_file_batch files changes =
    (leaves files (foldl effect Effect.empty changes), inl tt).
Proof.
  intros P K H. unfold preflight_changes in H.
  destruct (preflight_all changes Seen.empty) as [seen|] eqn:E; [|done].
  unfold Memory.apply_file_batch.
  eapply (land files changes files Seen.empty Effect.empty) in E as [-> _]; [done|done| | | |done|].
  - apply map_eq. intros k. rewrite leaves_lookup. cbn. rewrite lookup_empty.
    by rewrite decide_False by set_solver.
  - constructor; cbn; [by rewrite dom_empty_L|rewrite dom_empty_L; set_solver].
  - apply Forall_forall. intros c _ key [v V]. cbn in V. by rewrite lookup_empty in V.
  - apply map_Forall_empty.
Qed.

(** The cycle check never refuses what the checks before it let through. *)
Lemma fresh_renames_acyclic files renames : fresh_renames files renames ->
  reject_rename_cycles renames = inl tt.
Proof.
  intros F. unfold reject_rename_cycles.
  assert (forall start, rename_cycle (S (S (size renames))) renames start start ∅ = false) as N.
  { intros start. cbn [rename_cycle]. destruct (renames !! start) as [next|] eqn:E; [|done].
    destruct (F _ _ E) as [[c Fs] Fn].
    destruct (String.eqb_spec next start) as [->|]; [congruence|]. cbn [orb].
    rewrite bool_decide_eq_false_2 by set_solver. cbn [orb].
    destruct (renames !! next) as [next'|] eqn:E'; [|done].
    destruct (F _ _ E') as [[c' Fs'] _]. congruence. }
  replace (List.filter _ _) with (@nil string); [done|].
  induction (sort_by _ _) as [|x l IH]; [done|]. cbn [List.filter]. by rewrite N.
Qed.

(** * Concrete batches *)

Definition ab : Memory.Files := {[ "a" := "A"; "b" := "B" ]}.
Definition swap_out : list FileChange.t :=
  [FileChange.Rename "a" "c" "A2"; FileChange.Delete "b"; FileChange.Create "d/e" "E"].

Lemma preflight_lands_witness :
  Memory.apply_file_batch ab swap_out =
  (leaves ab (foldl effect Effect.empty swap_out), inl tt).
Proof.
  apply preflight_lands.
  - repeat constructor.
  - repeat (constructor; cbn); intros key; congruence.
  - vm_compute. reflexivity.
Defined.

(** A file renamed away and then deleted passes the preflight, and the batch fails on its second
    change. *)
Lemma rename_then_delete_accepted :
  let changes := [FileChange.Rename "a" "c" "A"; FileChange.Delete "a"] in
  @preflight_changes (Memory.provider ab) changes = inl tt /\
  (exists next, Memory.apply_each ab [FileChange.Rename "a" "c" "A"] = inl next) /\
  Memory.apply_file_batch ab changes = (ab, inr (NerveError.Io ["a"])).
Proof. split_and!; [vm_compute; reflexivity|eexists; vm_compute; reflexivity|vm_compute; reflexivity]. Qed.

(** Two names of one file are two keys to the preflight: both updates are accepted, and the
    second undoes the first. *)
Lemma aliases_accepted :
  let changes := [FileChange.Update "a" "first"; FileChange.Update "host/a" "second"] in
  @preflight_changes (Memory.provider ab) changes = inl tt /\
  (Memory.apply_file_batch ab changes).1 !! "a" = Some "second".
Proof. split; vm_compute; reflexivity. Qed.

(** Two updates of one path are always refused: a patch-entry request with two updates in place
    is planned but cannot land. *)
Lemma two_updates_refused `{CatalogProvider} path first second :
  exists e, preflight_changes [FileChange.Update path first; FileChange.Update path second] = inr e.
Proof.
  unfold preflight_changes. cbn [preflight_all preflight_change]. unfold preflight_update.
  destruct (ensure_readable path) as [[]|e]; [|by eexists]. cbn [guard].
  destruct (path_key path) as [key|e]; [|by eexists]. unfold reject, then_. cbn.
  repeat (case_bool_decide; cbn; try set_solver); by eexists.
Qed.
