(* ===== verification/Atomic.v ===== *)
(** An atomic batch on the file system, with its rollback ([nerve-fs/src/atomic.rs]). Every call
    to the system may be refused or torn half-way: a run takes the outcomes of its calls, in
    order, from a list.

    Then what is proved of it. The rollback of an atomic batch: in a tree without links, a batch that fails and reports no
    path it could not roll back has left every file as it was. *)
From stdpp Require Import gmap strings.
From S2P Require Import Prelude Text EditText Paths.
Open Scope nerve_scope.

(** * Calls that may fail *)

Module Outcome.
Inductive t := Done | Refused | Torn (written : string).
End Outcome.

(** The file system and the outcomes still to come; past the end all calls are done. *)
Module World.
Record t := Mk { fs : Fs; outcomes : list Outcome.t }.
End World.

Definition M (A : Type) : Type := World.t -> World.t * (A + NerveError.t).

Definition ret {A} (a : A) : M A := fun w => (w, inl a).
Definition fail {A} (e : NerveError.t) : M A := fun w => (w, inr e).
Definition bindM {A B} (m : M A) (k : A -> M B) : M B := fun w =>
  match m w with
  | (w, inl a) => k a w
  | (w, inr e) => (w, inr e)
  end.
Notation "'do!' x := m 'in' k" := (bindM m (fun x => k))
  (at level 10, x binder, m at level 200, k at level 200) : nerve_scope.

(** The result of a call, error or not, for the caller to inspect. *)
Definition caught {A} (m : M A) : M (A + NerveError.t) := fun w => let '(w, r) := m w in (w, inl r).

Definition get_fs : M Fs := fun w => (w, inl w.(World.fs)).
Definition lift {A} (r : A + NerveError.t) : M A := fun w => (w, r).

(** A call with its effect, [None] when the system refuses it, and what a torn one leaves. *)
Definition call {A} (effect : Fs -> option (Fs * A)) (torn : string -> Fs -> Fs) (e : NerveError.t)
    : M A := fun w =>
  let '(World.Mk fs outcomes) := w in
  let done outcomes :=
    match effect fs with
    | Some (fs, a) => (World.Mk fs outcomes, inl a)
    | None => (World.Mk fs outcomes, inr e)
    end in
  match outcomes with
  | [] => done []
  | Outcome.Done :: outcomes => done outcomes
  | Outcome.Refused :: outcomes => (World.Mk fs outcomes, inr e)
  | Outcome.Torn written :: outcomes => (World.Mk (torn written fs) outcomes, inr e)
  end.

(** * [std::fs] *)

Definition unharmed (_ : string) (fs : Fs) : Fs := fs.

(** The directory entry a name stands for, its last link not followed. *)
Definition entry (fs : Fs) (name : list string) : option (list string) :=
  match canonicalize fs (removelast name), last name with
  | Some parent, Some piece => if is_dir fs parent then Some (parent ++ [piece]) else None
  | _, _ => None
  end.

(** The contents of a file, as open and read give them. *)
Definition read_file (fs : Fs) (name : list string) : option string :=
  match canonicalize fs name with
  | Some name => match node_at fs name with Some (Node.File content) => Some content | _ => None end
  | None => None
  end.

Definition make_dirs (name : list string) : M unit :=
  call (fun fs => (fun fs => (fs, tt)) <$> create_dir_all fs name)
    (fun written fs => default fs (create_dir_all fs (take (String.length written) name)))
    (NerveError.Io name).

(** Open with [create_new]; it does not follow a link. *)
Definition create_new (name : list string) : M unit :=
  call (fun fs => e ← entry fs name;
                  match fs !! e with None => Some (<[e := Node.File EmptyString]> fs, tt) | Some _ => None end)
    unharmed (NerveError.Io name).

Definition overwrite (fs : Fs) (name : list string) (content : string) : option Fs :=
  e ← entry fs name;
  match fs !! e with Some (Node.File _) => Some (<[e := Node.File content]> fs) | _ => None end.

(** [write_all] on the file just created. *)
Definition write_all (name : list string) (content : string) : M unit :=
  call (fun fs => (fun fs => (fs, tt)) <$> overwrite fs name content)
    (fun written fs => default fs (overwrite fs name written)) (NerveError.Io name).

Definition write (name : list string) (content : string) : M unit :=
  call (fun fs => (fun fs => (fs, tt)) <$> fs_write fs name content)
    (fun written fs => default fs (fs_write fs name written)) (NerveError.Io name).

Definition remove_file (name : list string) : M unit :=
  call (fun fs => e ← entry fs name;
                  match fs !! e with
                  | Some (Node.File _ | Node.Link _) => Some (delete e fs, tt)
                  | _ => None
                  end)
    unharmed (NerveError.Io name).

(** [fs::rename] of a file or a link: it replaces a file or a link. *)
Definition rename (source destination : list string) : M unit :=
  call (fun fs => from ← entry fs source; to ← entry fs destination;
                  match fs !! from, fs !! to with
                  | Some (Node.File _ | Node.Link _), Some Node.Dir => None
                  | Some ((Node.File _ | Node.Link _) as node), _ => Some (<[to := node]> (delete from fs), tt)
                  | _, _ => None
                  end)
    unharmed (NerveError.Io destination).

Definition read (name : list string) : M string :=
  call (fun fs => (fun content => (fs, content)) <$> read_file fs name) unharmed (NerveError.Io name).

(** [fs::copy]: the source's contents into the target, made or overwritten. *)
Definition copy (source target : list string) : M unit :=
  call (fun fs => content ← read_file fs source; (fun fs => (fs, tt)) <$> fs_write fs target content)
    (fun written fs => default fs (fs_write fs target written)) (NerveError.Io target).

(** * [atomic.rs] *)

Module FsBackup.
Record t := Mk { target : list string; backup : option (list string) }.
End FsBackup.

Definition MARK : string := ".ctx-bak-".

Section atomic.
Context (policy : RootPolicy.t) (process_id : nat).

Definition resolve_allowed (path : string) : M (list string) :=
  do! fs := get_fs in lift (Paths.resolve_allowed fs policy path).
Definition resolve_for_write (path : string) : M (list string) :=
  do! fs := get_fs in lift (Paths.resolve_for_write fs policy path).

Definition change_targets (change : FileChange.t) : M (list (list string)) :=
  match change with
  | FileChange.Create path _ => do! target := resolve_for_write path in ret [target]
  | FileChange.Update path _ | FileChange.Delete path =>
      do! target := resolve_allowed path in ret [target]
  | FileChange.Rename from to _ =>
      do! from := resolve_allowed from in
      do! to := resolve_for_write to in
      ret [from; to]
  end.

Definition write_text (target : list string) (content : string) : M unit :=
  do! _ := make_dirs (removelast target) in write target content.

Definition write_new_text (target : list string) (content : string) : M unit :=
  do! _ := make_dirs (removelast target) in
  do! _ := create_new target in
  write_all target content.

Definition apply_change (change : FileChange.t) : M unit :=
  match change with
  | FileChange.Create path content =>
      do! target := resolve_for_write path in write_new_text target content
  | FileChange.Update path content =>
      do! target := resolve_for_write path in write_text target content
  | FileChange.Delete path =>
      do! target := resolve_allowed path in remove_file target
  | FileChange.Rename from to content =>
      do! source := resolve_allowed from in
      do! destination := resolve_for_write to in
      do! _ := make_dirs (removelast destination) in
      do! _ := rename source destination in
      write_text destination content
  end.

Definition backup_path (target : list string) (seed attempt : nat) : list string :=
  let name := default EmptyString (last target) in
  removelast target ++
  ["." +:+ name +:+ MARK +:+ show_nat process_id +:+ "-" +:+ show_nat seed +:+ "-" +:+ show_nat attempt].

(** The attempts left, from number [attempt]. *)
Fixpoint copy_to_unique_backup (attempts : nat) (target : list string) (seed attempt : nat)
    : M (list string) :=
  match attempts with
  | 0 => fail (NerveError.Io target)
  | S attempts =>
      let backup := backup_path target seed attempt in
      do! fs := get_fs in
      do! opened := caught (create_new backup) in
      match opened with
      | inl _ =>
          do! bytes := read target in
          do! _ := write_all backup bytes in
          ret backup
      | inr e =>
          match entry fs backup ≫= fun e => fs !! e with
          | Some _ => copy_to_unique_backup attempts target seed (attempt + 1)
          | None => fail e
          end
      end
  end.

(** [Path::exists] takes no fate: it answers what the tree says (the source's says no when it cannot look). *)
Definition backup_target (target : list string) (seed : nat) : M FsBackup.t :=
  do! fs := get_fs in
  if exists_ fs target then
    do! backup := copy_to_unique_backup 32 target seed 0 in
    ret (FsBackup.Mk target (Some backup))
  else ret (FsBackup.Mk target None).

Definition rollback_one (backup : FsBackup.t) : M unit :=
  match backup.(FsBackup.backup) with
  | Some saved => copy saved backup.(FsBackup.target)
  | None =>
      do! fs := get_fs in
      if exists_ fs backup.(FsBackup.target) then remove_file backup.(FsBackup.target) else ret tt
  end.

(** The latest backup first; what fails is reported and the rest goes on. *)
Fixpoint rollback_backups (latest_first : list FsBackup.t) : M (list (list string)) :=
  match latest_first with
  | [] => ret []
  | backup :: rest =>
      do! result := caught (rollback_one backup) in
      do! failed := rollback_backups rest in
      ret (match result with inl _ => failed | inr _ => backup.(FsBackup.target) :: failed end)
  end.

Fixpoint cleanup_backups (backups : list FsBackup.t) : M unit :=
  match backups with
  | [] => ret tt
  | backup :: rest =>
      match backup.(FsBackup.backup) with
      | Some saved => do! _ := caught (remove_file saved) in cleanup_backups rest
      | None => cleanup_backups rest
      end
  end.

Definition fail_atomic {A} (e : NerveError.t) (applied : list (list string)) (backups : list FsBackup.t)
    : M A :=
  do! failed := rollback_backups (rev backups) in
  do! _ := cleanup_backups backups in
  fail (NerveError.AtomicBatchFailed e applied failed).

Definition change_display_paths (change : FileChange.t) : list (list string) :=
  match change with
  | FileChange.Create path _ | FileChange.Update path _ | FileChange.Delete path => [[path]]
  | FileChange.Rename from to _ => [[from]; [to]]
  end.

(** The backups of one change's targets, on top of those there are. *)
Fixpoint backup_targets (targets : list (list string)) (index : nat) (backups : list FsBackup.t)
    : M (list FsBackup.t * option NerveError.t) :=
  match targets with
  | [] => ret (backups, None)
  | target :: targets =>
      do! result := caught (backup_target target (length backups + index)) in
      match result with
      | inl backup => backup_targets targets index (backups ++ [backup])
      | inr e => ret (backups, Some e)
      end
  end.

Fixpoint apply_from (changes : list FileChange.t) (index : nat) (backups : list FsBackup.t)
    (applied : list (list string)) : M unit :=
  match changes with
  | [] => cleanup_backups backups
  | change :: changes =>
      do! targets := caught (change_targets change) in
      match targets with
      | inr e => fail_atomic e applied backups
      | inl targets =>
          do! saved := backup_targets targets index backups in
          match saved with
          | (backups, Some e) => fail_atomic e applied backups
          | (backups, None) =>
              do! result := caught (apply_change change) in
              match result with
              | inr e => fail_atomic e applied backups
              | inl _ =>
                  apply_from changes (S index) backups (applied ++ change_display_paths change)
              end
          end
      end
  end.

Definition apply_atomic_batch (changes : list FileChange.t) : M unit := apply_from changes 0 [] [].

(** [apply_file_batch] without [atomic]: the changes in order, no way back. *)
Fixpoint apply_file_batch (changes : list FileChange.t) : M unit :=
  match changes with
  | [] => ret tt
  | change :: changes => do! _ := apply_change change in apply_file_batch changes
  end.
End atomic.

(** * Trees without links *)

Definition link_free (fs : Fs) : Prop := forall name target, fs !! name <> Some (Node.Link target).
Definition sound (fs : Fs) : Prop := well_formed fs /\ link_free fs.

Definition plain_name (name : list string) : Prop := Forall (fun x => dotted x = false) name.

Definition contents (fs : Fs) (name : list string) : option string :=
  match fs !! name with Some (Node.File content) => Some content | _ => None end.

(** The names backups have. *)
Definition backup_name (name : list string) : bool :=
  match last name with Some piece => contains_str MARK piece | None => false end.

Lemma walk_link_free fs links : link_free fs -> forall pieces resolved q,
  existsb (String.eqb "..") pieces = false ->
  walk fs links resolved pieces = Some q -> q = resolved ++ names pieces.
Proof.
  intros L. induction pieces as [|x l IH]; intros resolved q; rewrite ?walk_nil, ?walk_cons.
  { intros _ [= <-]. by rewrite app_nil_r. }
  cbn [existsb names List.filter]. rewrite orb_false_iff. intros [D E].
  fold (names l). destruct (String.eqb x EmptyString || String.eqb x ".") eqn:X; cbn [negb].
  { by apply IH. }
  destruct (String.eqb_spec x "..") as [->|]; [done|].
  destruct (fs !! (resolved ++ [x])) as [[c| |t]|] eqn:N; [| |by apply L in N|done].
  - destruct l; [|done]. by intros [= <-].
  - intros H. apply IH in H; [|done]. by rewrite H, <- app_assoc.
Qed.

Lemma plain_no_up name : plain_name name -> existsb (String.eqb "..") name = false.
Proof.
  induction 1 as [|x l D _ IH]; [done|]. cbn [existsb]. rewrite IH, orb_false_r.
  apply dotted_false in D as (_ & _ & D). by rewrite String.eqb_sym.
Qed.

Lemma plain_names name : plain_name name -> names name = name.
Proof.
  induction 1 as [|x l D _ IH]; [done|]. unfold names in *. cbn.
  apply dotted_false in D as (-> & -> & _). cbn. by rewrite IH.
Qed.

Lemma canonicalize_plain fs name q : link_free fs -> plain_name name ->
  canonicalize fs name = Some q -> q = name.
Proof.
  intros L P W. apply walk_link_free in W; [|done|by apply plain_no_up].
  by rewrite plain_names in W.
Qed.

(** Every name that is in the tree is reached. *)
Lemma sound_real_dir fs name : well_formed fs -> plain_name name ->
  node_at fs name = Some Node.Dir -> real_dir fs name.
Proof.
  intros W. induction name as [|x name IH] using rev_ind; intros P N; [constructor|].
  apply Forall_app in P as [P Px]. apply Forall_cons_1 in Px as [Px _].
  assert (fs !! (name ++ [x]) = Some Node.Dir) as E by (by destruct name).
  constructor; [|done|done]. apply IH; [done|]. by eapply W.
Qed.

Lemma sound_entry fs dir x node : well_formed fs -> plain_name (dir ++ [x]) ->
  fs !! (dir ++ [x]) = Some node -> real_dir fs dir /\ dotted x = false.
Proof.
  intros W P N. apply Forall_app in P as [P Px]. apply Forall_cons_1 in Px as [Px _].
  split; [|done]. apply sound_real_dir; [done|done|]. by eapply W.
Qed.

Lemma contents_exists fs name c : well_formed fs -> plain_name name -> name <> [] ->
  contents fs name = Some c -> exists_ fs name = true /\ read_file fs name = Some c.
Proof.
  intros W P NE C. destruct (exists_last NE) as (dir & x & ->).
  unfold contents in C. destruct (fs !! (dir ++ [x])) as [[c'| |]|] eqn:N; try done.
  injection C as ->. destruct (sound_entry _ _ _ _ W P N) as [R D].
  assert (real fs (dir ++ [x])) as Re by (by eapply real_file).
  apply real_canonical in Re. unfold exists_, read_file. rewrite Re. split; [done|].
  unfold node_at. destruct (dir ++ [x]) eqn:E; [by destruct dir|]. by rewrite N.
Qed.

Lemma entry_plain fs name e : link_free fs -> plain_name name -> entry fs name = Some e ->
  e = name /\ name <> [] /\ node_at fs (removelast name) = Some Node.Dir.
Proof.
  intros L P. unfold entry. destruct (canonicalize fs (removelast name)) as [parent|] eqn:C; [|done].
  destruct (last name) as [x|] eqn:X; [|done].
  apply last_Some in X as [dir ->]. rewrite removelast_last in *.
  apply Forall_app in P as [P _]. apply canonicalize_plain in C as ->; [|done|done].
  destruct (is_dir fs dir) eqn:D; [|done]. intros [= <-]. split_and!; [done|by destruct dir|].
  unfold is_dir in D. destruct (canonicalize fs dir) as [q|] eqn:C; [|done].
  apply canonicalize_plain in C as ->; [|done|done]. by destruct (node_at fs dir) as [[]|].
Qed.

Lemma write_target_plain fs links name q : link_free fs -> plain_name name ->
  write_target fs links [] name = Some q ->
  q = name /\ name <> [] /\ node_at fs (removelast name) = Some Node.Dir /\ fs !! name <> Some Node.Dir.
Proof.
  intros L P.
  assert (forall links, walk fs links [] (removelast name) = None \/
    walk fs links [] (removelast name) = Some (removelast name)) as W.
  { intros l. destruct (walk fs l [] (removelast name)) as [r|] eqn:E; [|by left]. right. f_equal.
    assert (plain_name (removelast name)) as P'.
    { destruct name as [|a name]; [done|]. destruct (exists_last (l := a :: name)) as (d & x & E'); [done|].
      rewrite E' in *. rewrite removelast_last. by apply Forall_app in P as [? _]. }
    apply walk_link_free in E; [|done|by apply plain_no_up]. by rewrite plain_names in E. }
  specialize (W links).
  destruct (last name) as [x|] eqn:X; cycle 1.
  { destruct links; cbn [write_target]; rewrite X; by destruct (walk _ _ _ _). }
  apply last_Some in X as [dir ->]. rewrite removelast_last in *. apply Forall_app in P as [_ Px].
  apply Forall_cons_1 in Px as [Px _].
  destruct links; cbn [write_target]; rewrite removelast_last, last_snoc;
    (destruct W as [-> | ->]; [done|]); rewrite Px;
    (destruct (node_at fs dir) as [[| |]|] eqn:N; try done);
    destruct (fs !! (dir ++ [x])) as [[c| |t]|] eqn:E; try done; try (by apply L in E);
    intros [= <-]; split_and!; (done || by destruct dir).
Qed.

(** * What a call may change *)

(** The trees a call on [fs] may leave when only the names in [T] are its to change. *)
Definition touches (T : list string -> Prop) (fs fs' : Fs) : Prop :=
  sound fs' /\ forall name, ~ T name -> contents fs' name = contents fs name.

Lemma touches_refl T fs : sound fs -> touches T fs fs.
Proof. by split. Qed.

Lemma touches_trans T a b c : touches T a b -> touches T b c -> touches T a c.
Proof. intros [_ H] [S H']. split; [done|]. intros n N. by rewrite H', H. Qed.

Lemma touches_mono (T T' : list string -> Prop) a b :
  (forall name, T name -> T' name) -> touches T a b -> touches T' a b.
Proof. intros I [S H]. split; [done|]. intros n N. apply H. auto. Qed.

Lemma contents_insert fs name node q : contents (<[name := node]> fs) q =
  if decide (q = name) then match node with Node.File c => Some c | _ => None end else contents fs q.
Proof.
  unfold contents. destruct (decide (q = name)) as [->|N].
  - by rewrite lookup_insert_eq.
  - by rewrite lookup_insert_ne.
Qed.

Lemma contents_delete fs name q :
  contents (delete name fs) q = if decide (q = name) then None else contents fs q.
Proof.
  unfold contents. destruct (decide (q = name)) as [->|N].
  - by rewrite lookup_delete_eq.
  - by rewrite lookup_delete_ne.
Qed.

Lemma link_free_insert fs name node : link_free fs -> (forall t, node <> Node.Link t) ->
  link_free (<[name := node]> fs).
Proof.
  intros L N q t. rewrite lookup_insert_Some. intros [[_ E]|[_ E]]; [by apply (N t)|by apply L in E].
Qed.

Lemma sound_insert_file fs name content : sound fs -> name <> [] ->
  node_at fs (removelast name) = Some Node.Dir -> fs !! name <> Some Node.Dir ->
  sound (<[name := Node.File content]> fs).
Proof.
  intros [W L] NE D ND. split; [|by apply link_free_insert].
  intros dir x node. rewrite lookup_insert_Some. intros [[E _]|[_ E]].
  - rewrite E, removelast_last in D. unfold node_at in *. destruct dir as [|y dir]; [done|].
    rewrite lookup_insert_ne; [done|]. rewrite E. intros E'. apply (f_equal length) in E'.
    rewrite length_app in E'. cbn in E'. lia.
  - apply W in E. unfold node_at in *. destruct dir as [|y dir]; [done|].
    rewrite lookup_insert_ne; [done|]. intros ->. done.
Qed.

Lemma sound_delete_file fs name content : sound fs -> fs !! name = Some (Node.File content) ->
  sound (delete name fs).
Proof.
  intros [W L] F. split.
  - intros dir x node. rewrite lookup_delete_Some. intros [_ E]. apply W in E.
    unfold node_at in *. destruct dir as [|y dir]; [done|].
    rewrite lookup_delete_ne; [done|]. intros ->. congruence.
  - intros q t. rewrite lookup_delete_Some. intros [_ E]. by apply L in E.
Qed.

Lemma touches_file fs name content : sound fs -> name <> [] ->
  node_at fs (removelast name) = Some Node.Dir -> fs !! name <> Some Node.Dir ->
  touches (eq name) fs (<[name := Node.File content]> fs).
Proof.
  intros S NE D ND. split; [by apply sound_insert_file|]. intros q N. rewrite contents_insert.
  by rewrite decide_False by congruence.
Qed.

Lemma touches_delete fs name content : sound fs -> fs !! name = Some (Node.File content) ->
  touches (eq name) fs (delete name fs).
Proof.
  intros S F. split; [by eapply sound_delete_file|]. intros q N. rewrite contents_delete.
  by rewrite decide_False by congruence.
Qed.

Lemma sound_insert_dir fs d x : sound fs -> node_at fs d = Some Node.Dir ->
  fs !! (d ++ [x]) = None -> sound (<[d ++ [x] := Node.Dir]> fs).
Proof.
  intros [W L] D N. split; [|by apply link_free_insert].
  intros e y node. rewrite lookup_insert_Some. intros [[E _]|[_ E]].
  - apply app_snoc_inj in E as [<- _]. unfold node_at in *. destruct d as [|z d]; [done|].
    rewrite lookup_insert_ne; [done|]. intros E. apply (f_equal length) in E.
    rewrite length_app in E. cbn in E. lia.
  - apply W in E. unfold node_at in *. destruct e as [|z e]; [done|].
    destruct (decide (d ++ [x] = z :: e)) as [->|NE]; [by rewrite lookup_insert_eq|].
    by rewrite lookup_insert_ne.
Qed.

Lemma touches_dirs fs rest : forall made fs', sound fs -> create_dirs fs made rest = Some fs' ->
  touches (fun _ => False) fs fs'.
Proof.
  revert fs. induction rest as [|x rest IH]; intros fs made fs' S; cbn [create_dirs].
  { intros [= <-]. by apply touches_refl. }
  destruct (is_dir fs (made ++ [x])); [by apply IH|].
  destruct (canonicalize fs made) as [parent|] eqn:C; [|done].
  destruct (is_dir fs parent) eqn:D; [|done].
  destruct (fs !! (parent ++ [x])) eqn:N; [done|]. intros H.
  assert (sound (<[parent ++ [x] := Node.Dir]> fs)) as S'.
  { apply sound_insert_dir; [done| |done]. apply canonicalize_real in C.
    unfold is_dir in D. rewrite real_canonical in D by done. by destruct (node_at fs parent) as [[]|]. }
  eapply touches_trans; [|by eapply IH]. split; [done|]. intros q _. rewrite contents_insert.
  destruct (decide (q = parent ++ [x])) as [->|]; [|done]. unfold contents. by rewrite N.
Qed.

Lemma touches_write fs name content fs' : sound fs -> plain_name name ->
  fs_write fs name content = Some fs' -> touches (eq name) fs fs' /\ contents fs' name = Some content.
Proof.
  intros S P. unfold fs_write. destruct (write_target fs MAX_LINKS [] name) as [q|] eqn:W; [|done].
  destruct S as [W' L]. apply write_target_plain in W as (-> & NE & D & ND); [|done|done].
  intros [= <-]. split; [by apply touches_file|]. rewrite contents_insert. by rewrite decide_True.
Qed.

(** * What an operation may change *)

Definition frames {A} (T : list string -> Prop) (m : M A) : Prop :=
  forall fs outcomes w r, sound fs -> m (World.Mk fs outcomes) = (w, r) -> touches T fs w.(World.fs).

Create HintDb frames.

Lemma frames_ret {A} T (a : A) : frames T (ret a).
Proof. intros fs os w r S [= <- <-]. by apply touches_refl. Qed.
Lemma frames_fail {A} T e : frames T (@fail A e).
Proof. intros fs os w r S [= <- <-]. by apply touches_refl. Qed.
Lemma frames_lift {A} T (a : A + NerveError.t) : frames T (lift a).
Proof. intros fs os w r S [= <- <-]. by apply touches_refl. Qed.
Lemma frames_get_fs T : frames T get_fs.
Proof. intros fs os w r S [= <- <-]. by apply touches_refl. Qed.

Lemma frames_bind {A B} T (m : M A) (k : A -> M B) :
  frames T m -> (forall a, frames T (k a)) -> frames T (bindM m k).
Proof.
  intros Fm Fk fs os w r S. unfold bindM. destruct (m (World.Mk fs os)) as [[fs1 os1] [a|e]] eqn:E.
  - apply Fm in E as T1; [|done]. intros H. apply Fk in H; [|apply T1]. by eapply touches_trans.
  - intros [= <- <-]. by apply Fm in E.
Qed.

Lemma frames_caught {A} T (m : M A) : frames T m -> frames T (caught m).
Proof.
  intros F fs os w r S. unfold caught. destruct (m (World.Mk fs os)) as [w' r'] eqn:E.
  intros [= <- <-]. by apply F in E.
Qed.

Lemma frames_mono {A} (T T' : list string -> Prop) (m : M A) :
  (forall name, T name -> T' name) -> frames T m -> frames T' m.
Proof. intros I F fs os w r S E. eapply touches_mono; [exact I|]. by eapply F. Qed.

Lemma frames_call {A} (T : list string -> Prop) (effect : Fs -> option (Fs * A)) torn e :
  (forall fs fs' a, sound fs -> effect fs = Some (fs', a) -> touches T fs fs') ->
  (forall written fs, sound fs -> touches T fs (torn written fs)) ->
  frames T (call effect torn e).
Proof.
  intros Fe Ft fs os w r S. unfold call.
  assert (forall os, (match effect fs with
    | Some (fs, a) => (World.Mk fs os, inl a) | None => (World.Mk fs os, inr e) end) = (w, r) ->
    touches T fs w.(World.fs)) as D.
  { intros os'. destruct (effect fs) as [[fs' a]|] eqn:E; intros [= <- <-]; [by eapply Fe|].
    by apply touches_refl. }
  destruct os as [|[| |written] os]; try apply D.
  - intros [= <- <-]. by apply touches_refl.
  - intros [= <- <-]. by apply Ft.
Qed.

#[export] Hint Resolve frames_ret frames_fail frames_lift frames_get_fs frames_bind frames_caught : frames.

Lemma frames_make_dirs T name : frames T (make_dirs name).
Proof.
  apply (frames_mono (fun _ => False)); [done|]. apply frames_call.
  - intros fs fs' a S. destruct (create_dir_all fs name) eqn:E; [|done]. intros [= <- <-].
    by eapply touches_dirs.
  - intros w fs S. destruct (create_dir_all fs (take _ name)) eqn:E; [|by apply touches_refl].
    by eapply touches_dirs.
Qed.

Lemma frames_write name content : plain_name name -> frames (eq name) (write name content).
Proof.
  intros P. apply frames_call.
  - intros fs fs' a S. destruct (fs_write fs name content) eqn:E; [|done]. intros [= <- <-].
    by eapply touches_write.
  - intros w fs S. destruct (fs_write fs name w) eqn:E; [|by apply touches_refl].
    by eapply touches_write.
Qed.

Lemma frames_copy source target : plain_name target -> frames (eq target) (copy source target).
Proof.
  intros P. apply frames_call.
  - intros fs fs' a S. destruct (read_file fs source) as [c|]; [|done]. cbn [mbind option_bind].
    destruct (fs_write fs target c) eqn:E; [|done]. intros [= <- <-]. by eapply touches_write.
  - intros w fs S. destruct (fs_write fs target w) eqn:E; [|by apply touches_refl].
    by eapply touches_write.
Qed.

Lemma frames_create_new name : plain_name name -> frames (eq name) (create_new name).
Proof.
  intros P. apply frames_call; [|intros; by apply touches_refl].
  intros fs fs' a S. destruct (entry fs name) as [e|] eqn:E; [|done]. cbn.
  apply entry_plain in E as (-> & NE & D); [|by destruct S|done].
  destruct (fs !! name) eqn:N; [done|]. intros [= <- <-]. apply touches_file; congruence || done.
Qed.

Lemma touches_overwrite fs name content fs' : sound fs -> plain_name name ->
  overwrite fs name content = Some fs' -> touches (eq name) fs fs' /\ contents fs' name = Some content.
Proof.
  intros S P. unfold overwrite. destruct (entry fs name) as [e|] eqn:E; [|done]. cbn.
  apply entry_plain in E as (-> & NE & D); [|by destruct S|done].
  destruct (fs !! name) as [[c| |]|] eqn:N; try done. intros [= <-].
  split; [apply touches_file; congruence || done|]. rewrite contents_insert. by rewrite decide_True.
Qed.

Lemma frames_write_all name content : plain_name name -> frames (eq name) (write_all name content).
Proof.
  intros P. apply frames_call.
  - intros fs fs' a S. destruct (overwrite fs name content) eqn:E; [|done]. intros [= <- <-].
    by eapply touches_overwrite.
  - intros w fs S. destruct (overwrite fs name w) eqn:E; [|by apply touches_refl].
    by eapply touches_overwrite.
Qed.

Lemma frames_remove_file name : plain_name name -> frames (eq name) (remove_file name).
Proof.
  intros P. apply frames_call; [|intros; by apply touches_refl].
  intros fs fs' a S. destruct (entry fs name) as [e|] eqn:E; [|done]. cbn.
  apply entry_plain in E as (-> & NE & D); [|by destruct S|done].
  destruct (fs !! name) as [[c| |t]|] eqn:N; try done.
  - intros [= <- <-]. by eapply touches_delete.
  - destruct S as [_ L]. by apply L in N.
Qed.

Lemma frames_rename source destination : plain_name source -> plain_name destination ->
  frames (fun name => name = source \/ name = destination) (rename source destination).
Proof.
  intros Ps Pd. apply frames_call; [|intros; by apply touches_refl].
  intros fs fs' a S. destruct (entry fs source) as [e|] eqn:E; [|done]. cbn.
  destruct (entry fs destination) as [e'|] eqn:E'; [|done]. cbn.
  apply entry_plain in E as (-> & NEs & Ds); [|by destruct S|done].
  apply entry_plain in E' as (-> & NEd & Dd); [|by destruct S|done].
  destruct (fs !! source) as [[c| |t]|] eqn:N; try done; cycle 1.
  { destruct S as [_ L]. by apply L in N. }
  intros H. assert (<[destination := Node.File c]> (delete source fs) = fs' /\
    fs !! destination <> Some Node.Dir) as [<- ND].
  { destruct (fs !! destination) as [[| |]|]; try done; injection H as <- <-; by split. }
  clear H. apply (touches_trans _ _ (delete source fs)).
  - eapply touches_mono; [|by eapply touches_delete]. intros n <-. by left.
  - eapply touches_mono; [|apply touches_file]; [intros n <-; by right|by eapply sound_delete_file|done| |].
    + unfold node_at in *. destruct (removelast destination) as [|y d] eqn:Ed; [done|].
      rewrite lookup_delete_ne; [done|]. intros ->. congruence.
    + rewrite lookup_delete_Some. by intros [_ ?].
Qed.

(** * Where a change goes *)

(** The name a path stands for when no link is in the way. *)
Definition target_of (policy : RootPolicy.t) (path : string) : list string :=
  match policy.(RootPolicy.roots) with
  | root :: _ => names (candidate root path)
  | [] => []
  end.

Lemma contained_target policy path p : contained policy path = inl p -> p = path.
Proof. by intros [-> _]%contained_spec. Qed.

Lemma resolved_target fs policy path t : link_free fs -> well_rooted policy ->
  Paths.resolve_allowed fs policy path = inl t \/ Paths.resolve_for_write fs policy path = inl t ->
  t = target_of policy path /\ plain_name t.
Proof.
  intros L WR. unfold Paths.resolve_allowed, Paths.resolve_for_write, target_of.
  unfold well_rooted in WR. destruct (RootPolicy.roots policy) as [|root roots]; [by intros [?|?]|].
  destruct (reject_traversal path) as [[]|] eqn:T; [|by intros [?|?]].
  apply (candidate_no_up root) in T; [|by inversion WR].
  set (c := candidate root path) in *. pose proof (names_plain c T) as P.
  assert (forall q, canonicalize fs c = Some q -> q = names c) as C.
  { intros q W. by apply walk_link_free in W. }
  destruct (canonicalize fs c) as [q|].
  { specialize (C q eq_refl) as ->. intros [->%contained_target | ->%contained_target]; done. }
  intros [H|H]; [done|].
  destruct (existing_ancestor _ _ _) as [k|]; [|done].
  destruct (canonicalize fs (take k (names c))) as [anc|] eqn:A; [|done].
  destruct (negb _); [done|]. apply contained_target in H as ->.
  apply canonicalize_plain in A as ->; [|done|by apply Forall_take].
  by rewrite take_drop.
Qed.

Definition paths_of (change : FileChange.t) : list string :=
  match change with
  | FileChange.Create path _ | FileChange.Update path _ | FileChange.Delete path => [path]
  | FileChange.Rename from to _ => [from; to]
  end.

Definition change_names (policy : RootPolicy.t) (change : FileChange.t) : list (list string) :=
  map (target_of policy) (paths_of change).

Section frames.
Context (policy : RootPolicy.t) (WR : well_rooted policy).

Lemma frames_resolve {A} (T : list string -> Prop) path (k : list string -> M A) m :
  m = resolve_allowed policy path \/ m = resolve_for_write policy path ->
  (forall t, t = target_of policy path -> plain_name t -> frames T (k t)) ->
  frames T (bindM m k).
Proof.
  intros [-> | ->] F fs os w r S; unfold bindM, resolve_allowed, resolve_for_write, bindM, get_fs, lift; cbn.
  - destruct (Paths.resolve_allowed fs policy path) as [t|] eqn:R.
    + destruct (resolved_target fs policy path t) as [Et Pt]; [by destruct S|done|by left|].
      by apply (F t Et Pt).
    + intros [= <- <-]. by apply touches_refl.
  - destruct (Paths.resolve_for_write fs policy path) as [t|] eqn:R.
    + destruct (resolved_target fs policy path t) as [Et Pt]; [by destruct S|done|by right|].
      by apply (F t Et Pt).
    + intros [= <- <-]. by apply touches_refl.
Qed.

Lemma frames_eq {A} (T : list string -> Prop) name (m : M A) : T name -> frames (eq name) m -> frames T m.
Proof. intros I. apply frames_mono. by intros n <-. Qed.

Lemma frames_write_text (T : list string -> Prop) name content : plain_name name -> T name ->
  frames T (write_text name content).
Proof.
  intros P I. apply frames_bind; [apply frames_make_dirs|]. intros _.
  eapply frames_eq; [done|by apply frames_write].
Qed.

Lemma frames_apply_change change :
  frames (fun name => name ∈ change_names policy change) (apply_change policy change).
Proof.
  destruct change as [path c|path c|path|from to c]; unfold apply_change, change_names; cbn [paths_of map];
    (eapply frames_resolve; [by auto|]); intros t -> P.
  - apply frames_bind; [apply frames_make_dirs|]. intros _.
    apply frames_bind; [|intros _]; (eapply frames_eq; [by left|]);
      [by apply frames_create_new|by apply frames_write_all].
  - apply frames_write_text; [done|by left].
  - eapply frames_eq; [by left|by apply frames_remove_file].
  - eapply frames_resolve; [by auto|]. intros t' -> P'.
    apply frames_bind; [apply frames_make_dirs|]. intros _. apply frames_bind.
    + eapply frames_mono; [|by apply frames_rename]. intros n [-> | ->]; [by left|right; by left].
    + intros _. apply frames_write_text; [done|]. right. by left.
Qed.
End frames.

(** * Backups *)

Lemma contains_str_mid pat a b : contains_str pat (a +:+ pat +:+ b) = true.
Proof.
  unfold contains_str. induction a as [|c a IH].
  - change (EmptyString +:+ ?x) with x. destruct (pat +:+ b) as [|d s] eqn:E.
    + destruct pat; [done|done].
    + cbn [split_once]. pose proof (strip_prefix_app pat b) as P. rewrite E in P. by rewrite P.
  - change (String c a +:+ ?x) with (String c (a +:+ x)). cbn [split_once].
    destruct (strip_prefix pat _); [done|]. by destruct (split_once pat _) as [[]|].
Qed.

Lemma dotted_long s : 2 < String.length s -> dotted s = false.
Proof.
  intros L. unfold dotted. rewrite !orb_false_iff.
  split_and!; apply String.eqb_neq; intros ->; cbn in L; lia.
Qed.

Lemma backup_path_ok pid target seed attempt : plain_name target ->
  plain_name (backup_path pid target seed attempt) /\
  backup_name (backup_path pid target seed attempt) = true.
Proof.
  intros P. unfold backup_path, backup_name. rewrite last_snoc. split.
  - apply Forall_app. split.
    + destruct target as [|x l] using rev_ind; [done|]. rewrite removelast_last.
      by apply Forall_app in P as [P _].
    + constructor; [|done]. apply dotted_long. rewrite !length_app_str. cbn. lia.
  - rewrite <- app_assoc_str. apply contains_str_mid.
Qed.

Lemma read_file_contents fs name c : link_free fs -> plain_name name -> read_file fs name = Some c ->
  contents fs name = Some c.
Proof.
  intros L P. unfold read_file. destruct (canonicalize fs name) as [q|] eqn:C; [|done].
  apply canonicalize_plain in C as ->; [|done|done]. unfold node_at, contents.
  destruct name; [done|]. destruct (fs !! (s :: name)) as [[]|]; try done.
Qed.

Lemma call_inl {A} (effect : Fs -> option (Fs * A)) torn e fs os w a :
  call effect torn e (World.Mk fs os) = (w, inl a) -> effect fs = Some (w.(World.fs), a).
Proof.
  unfold call. intros H.
  assert (forall os, (match effect fs with
    | Some (fs, a) => (World.Mk fs os, inl a) | None => (World.Mk fs os, inr e) end) = (w, inl a) ->
    effect fs = Some (w.(World.fs), a)) as D.
  { intros os'. destruct (effect fs) as [[fs' a']|]; by intros [= <- <-]. }
  destruct os as [|[| |written] os]; try done; by eapply D.
Qed.

Lemma call_unharmed {A} (effect : Fs -> option (Fs * A)) e fs os w e' :
  call effect unharmed e (World.Mk fs os) = (w, inr e') -> w.(World.fs) = fs.
Proof.
  unfold call, unharmed. intros H. destruct os as [|[| |written] os];
    try destruct (effect fs) as [[fs' a']|]; by simplify_eq.
Qed.

(** What making a backup leaves of the tree: files other than backups, and all backups so far. *)
Definition kept (fs fs' : Fs) : Prop :=
  sound fs' /\ (forall name, backup_name name = false -> contents fs' name = contents fs name) /\
  forall name c, contents fs name = Some c -> contents fs' name = Some c.

Lemma kept_refl fs : sound fs -> kept fs fs.
Proof. intros S. split; [done|]. split; auto. Qed.
Lemma kept_trans a b c : kept a b -> kept b c -> kept a c.
Proof.
  intros (_ & H1 & H2) (S & H3 & H4). split; [done|]. split; [|by auto].
  intros n N. by rewrite H3, H1.
Qed.

Lemma kept_fresh fs fs' name : backup_name name = true -> fs !! name = None ->
  touches (eq name) fs fs' -> kept fs fs'.
Proof.
  intros B N [S H]. split; [done|]. split.
  - intros n Bn. apply H. intros ->. congruence.
  - intros n c C. rewrite H; [done|]. intros ->. unfold contents in C. by rewrite N in C.
Qed.

Lemma create_new_inl name fs os w u : sound fs -> plain_name name ->
  create_new name (World.Mk fs os) = (w, inl u) -> fs !! name = None /\ touches (eq name) fs w.(World.fs).
Proof.
  intros S P H. pose proof (frames_create_new name P fs os w (inl u) S H) as T.
  split; [|done]. apply call_inl in H. destruct (entry fs name) as [e|] eqn:E; [|done]. cbn in H.
  apply entry_plain in E as (-> & _ & _); [|by destruct S|done]. by destruct (fs !! name).
Qed.

Lemma write_all_inl name content fs os w u : sound fs -> plain_name name ->
  write_all name content (World.Mk fs os) = (w, inl u) -> contents w.(World.fs) name = Some content.
Proof.
  intros S P H. apply call_inl in H.
  destruct (overwrite fs name content) as [fs'|] eqn:E; [|done]. injection H as <-.
  by apply touches_overwrite in E as [_ E].
Qed.

Lemma copy_backup_spec pid attempts : forall target seed attempt fs os w r,
  sound fs -> plain_name target -> backup_name target = false ->
  copy_to_unique_backup pid attempts target seed attempt (World.Mk fs os) = (w, r) ->
  kept fs w.(World.fs) /\
  forall b, r = inl b -> backup_name b = true /\ plain_name b /\
    exists c, contents fs target = Some c /\ contents w.(World.fs) b = Some c.
Proof.
  induction attempts as [|attempts IH]; intros target seed attempt fs os w r S P B;
    cbn [copy_to_unique_backup].
  { intros [= <- <-]. split; [by apply kept_refl|done]. }
  destruct (backup_path_ok pid target seed attempt P) as [Pb Bb].
  set (b := backup_path pid target seed attempt) in *.
  unfold bindM at 1, get_fs. cbn [World.fs]. unfold bindM at 1, caught.
  destruct (create_new b (World.Mk fs os)) as [[fs1 os1] [[]|e]] eqn:C.
  - apply create_new_inl in C as [N T1]; [|done|done]. cbn [World.fs] in T1.
    pose proof (kept_fresh _ _ _ Bb N T1) as K1.
    unfold bindM at 1. destruct (read target (World.Mk fs1 os1)) as [[fs2 os2] [bytes|e]] eqn:R.
    + apply call_inl in R. cbn [World.fs] in R.
      destruct (read_file fs1 target) as [c|] eqn:RF; [|done]. injection R as <- <-.
      apply read_file_contents in RF; [|by destruct T1 as [[]]|done].
      unfold bindM. destruct (write_all b c (World.Mk fs1 os2)) as [[fs3 os3] [[]|e]] eqn:Wr.
      * intros [= <- <-]. cbn. pose proof (frames_write_all b c Pb _ _ _ _ (proj1 T1) Wr) as T3.
        apply write_all_inl in Wr; [|by apply T1|done].
        split; [by eapply kept_fresh, touches_trans|].
        intros b' [= <-]. split_and!; [done|done|]. exists c. split; [|done].
        destruct K1 as (_ & H & _). by rewrite <- H.
      * intros [= <- <-]. cbn. pose proof (frames_write_all b c Pb _ _ _ _ (proj1 T1) Wr) as T3.
        split; [by eapply kept_fresh, touches_trans|done].
    + intros [= <- <-]. apply call_unharmed in R. cbn in *. subst fs2. done.
  - apply call_unharmed in C. cbn in C. subst fs1.
    destruct (entry fs b ≫= _) as [n|]; [by apply IH|].
    intros [= <- <-]. split; [by apply kept_refl|done].
Qed.

(** What a backup holds: the target's contents when it was made. *)
Definition holds (fs : Fs) (backup : FsBackup.t) (c : option string) : Prop :=
  match backup.(FsBackup.backup) with
  | None => c = None
  | Some saved => backup_name saved = true /\ plain_name saved /\ exists x, c = Some x /\ contents fs saved = Some x
  end.

Lemma holds_kept fs fs' b c : kept fs fs' -> holds fs b c -> holds fs' b c.
Proof.
  intros (_ & _ & K). unfold holds. destruct (FsBackup.backup b) as [s|]; [|done].
  intros (B & P & x & -> & C). split_and!; [done|done|]. exists x. auto.
Qed.

Lemma holds_touches (T : list string -> Prop) fs fs' b c :
  (forall name, T name -> backup_name name = false) -> touches T fs fs' -> holds fs b c -> holds fs' b c.
Proof.
  intros I [_ K]. unfold holds. destruct (FsBackup.backup b) as [s|]; [|done].
  intros (B & P & x & -> & C). split_and!; [done|done|]. exists x. split; [done|].
  rewrite K; [done|]. intros H%I. congruence.
Qed.

Lemma backup_target_spec pid target seed fs os w r : sound fs -> plain_name target ->
  backup_name target = false ->
  backup_target pid target seed (World.Mk fs os) = (w, r) ->
  kept fs w.(World.fs) /\
  forall b, r = inl b -> b.(FsBackup.target) = target /\ holds w.(World.fs) b (contents fs target).
Proof.
  intros S P B. unfold backup_target, bindM, get_fs. cbn [World.fs].
  destruct (exists_ fs target) eqn:E.
  - destruct (copy_to_unique_backup pid 32 target seed 0 (World.Mk fs os)) as [[fs1 os1] [b|e]] eqn:C;
      apply copy_backup_spec in C as [K H]; try done.
    + intros [= <- <-]. split; [done|]. intros b' [= <-]. cbn. split; [done|].
      destruct (H b eq_refl) as (Bb & Pb & c & Ct & Cb). unfold holds. cbn.
      split_and!; [done|done|]. by exists c.
    + intros [= <- <-]. by split.
  - intros [= <- <-]. split; [by apply kept_refl|]. intros b' [= <-]. split; [done|].
    unfold holds. cbn. destruct (contents fs target) as [c|] eqn:C; [|done].
    assert (target <> []) as NE.
    { intros ->. done. }
    destruct S as [Wf _]. apply contents_exists in C as [X _]; [|done|done|done]. congruence.
Qed.

(** * Restoring *)

(** The contents after the backups are restored, the latest first. *)
Fixpoint restored (bs : list FsBackup.t) (cs : list (option string)) (F : list string -> option string)
    : list string -> option string :=
  match bs, cs with
  | b :: bs, c :: cs => fun name => if decide (name = b.(FsBackup.target)) then c else restored bs cs F name
  | _, _ => F
  end.

Lemma restored_snoc bs b c : forall cs F, length bs = length cs ->
  restored (bs ++ [b]) (cs ++ [c]) F =
  restored bs cs (fun name => if decide (name = b.(FsBackup.target)) then c else F name).
Proof.
  induction bs as [|b' bs IH]; intros [|c' cs] F L; try done. cbn. injection L as L. by rewrite IH.
Qed.

Lemma restored_ext bs (F G : list string -> option string) name : forall cs, length bs = length cs ->
  (name ∉ map FsBackup.target bs -> F name = G name) ->
  restored bs cs F name = restored bs cs G name.
Proof.
  induction bs as [|b bs IH]; intros [|c cs] L H; try done; cbn.
  - apply H. cbn. apply not_elem_of_nil.
  - destruct (decide _) as [|N]; [done|]. injection L as L. apply IH; [done|]. intros I. apply H.
    cbn. by apply not_elem_of_cons.
Qed.

(** The backups restore the files as they were at the start. *)
Record invariant (fs0 fs : Fs) (bs : list FsBackup.t) (cs : list (option string)) : Prop := {
  inv_sound : sound fs;
  inv_holds : Forall2 (holds fs) bs cs;
  inv_targets : Forall (fun b => plain_name b.(FsBackup.target) /\ backup_name b.(FsBackup.target) = false) bs;
  inv_restored name : backup_name name = false -> restored bs cs (contents fs) name = contents fs0 name }.

Lemma invariant_kept fs0 fs fs' bs cs : kept fs fs' -> invariant fs0 fs bs cs -> invariant fs0 fs' bs cs.
Proof.
  intros K [S H T R]. pose proof (Forall2_length _ _ _ H) as L. constructor; [by destruct K| |done|].
  - eapply Forall2_impl; [exact H|]. intros b c. by apply holds_kept.
  - intros name B. rewrite <- (R name B). apply restored_ext; [done|]. intros _.
    destruct K as (_ & K & _). by apply K.
Qed.

Lemma invariant_touches fs0 fs fs' bs cs :
  touches (fun name => name ∈ map FsBackup.target bs) fs fs' ->
  invariant fs0 fs bs cs -> invariant fs0 fs' bs cs.
Proof.
  intros K [S H T R]. pose proof (Forall2_length _ _ _ H) as L. constructor; [by destruct K| |done|].
  - eapply Forall2_impl; [exact H|]. intros b c. eapply holds_touches; [|exact K].
    cbn. intros name I. apply list_elem_of_fmap in I as (b' & -> & I).
    rewrite Forall_forall in T. by apply T.
  - intros name B. rewrite <- (R name B). apply restored_ext; [done|]. intros N.
    destruct K as [_ K]. by apply K.
Qed.

Lemma copy_inl saved target c fs os w u : sound fs -> plain_name saved -> plain_name target ->
  saved <> [] -> contents fs saved = Some c ->
  copy saved target (World.Mk fs os) = (w, inl u) ->
  touches (eq target) fs w.(World.fs) /\ contents w.(World.fs) target = Some c.
Proof.
  intros S Ps Pt NE C H. apply call_inl in H. destruct S as [W L].
  pose proof (contents_exists _ _ _ W Ps NE C) as [_ R]. rewrite R in H. cbn [mbind option_bind] in H.
  destruct (fs_write fs target c) as [fs'|] eqn:F; [|done]. injection H as <-.
  by apply touches_write in F.
Qed.

Lemma remove_inl name fs os w u : sound fs -> plain_name name ->
  remove_file name (World.Mk fs os) = (w, inl u) -> contents w.(World.fs) name = None.
Proof.
  intros [W L] P H. apply call_inl in H. destruct (entry fs name) as [e|] eqn:E; [|done]. cbn in H.
  apply entry_plain in E as (-> & _ & _); [|done|done].
  destruct (fs !! name) as [[c| |t]|]; try done; injection H as <-; unfold contents; by rewrite lookup_delete_eq.
Qed.

Lemma frames_rollback_one b : plain_name b.(FsBackup.target) ->
  frames (eq b.(FsBackup.target)) (rollback_one b).
Proof.
  intros P. unfold rollback_one. destruct (FsBackup.backup b) as [s|]; [by apply frames_copy|].
  apply frames_bind; [apply frames_get_fs|]. intros fs.
  destruct (exists_ fs _); [by apply frames_remove_file|apply frames_ret].
Qed.

Lemma backup_name_nonempty name : backup_name name = true -> name <> [].
Proof. by intros B ->. Qed.

(** A backup restored without error puts back what the target held. *)
Lemma rollback_one_inl b c fs os w u : sound fs -> plain_name b.(FsBackup.target) -> holds fs b c ->
  rollback_one b (World.Mk fs os) = (w, inl u) -> contents w.(World.fs) b.(FsBackup.target) = c.
Proof.
  intros S P H. unfold rollback_one, holds in *. destruct (FsBackup.backup b) as [s|].
  - destruct H as (B & Ps & x & -> & C). intros R.
    apply (copy_inl _ _ x) in R as [_ R]; try done. by apply backup_name_nonempty.
  - subst c. unfold bindM, get_fs. cbn [World.fs].
    destruct (exists_ fs (FsBackup.target b)) eqn:E; [by apply remove_inl|].
    intros [= <- _]. cbn. destruct (contents fs (FsBackup.target b)) as [c|] eqn:C; [|done].
    destruct S as [W _]. apply contents_exists in C as [X _]; try done; [congruence|].
    by intros N; rewrite N in E.
Qed.

Lemma rollback_spec fs0 bs : forall cs fs os w, invariant fs0 fs bs cs ->
  rollback_backups (rev bs) (World.Mk fs os) = (w, inl []) ->
  sound w.(World.fs) /\
  forall name, backup_name name = false -> contents w.(World.fs) name = contents fs0 name.
Proof.
  induction bs as [|b bs IH] using rev_ind; intros cs fs os w I.
  { intros [= <-]. destruct I as [S H _ R]. inversion H; subst. done. }
  destruct I as [S H T R]. apply Forall2_app_inv_l in H as (cs' & cl & H & Hl & ->).
  inversion Hl as [|? c ? ? Hb Hn]; subst. inversion Hn; subst.
  apply Forall_app in T as [T Tb]. apply Forall_cons_1 in Tb as [[Pb Bb] _].
  pose proof (Forall2_length _ _ _ H) as L.
  rewrite rev_app_distr. cbn [rev app rollback_backups]. unfold bindM at 1, caught.
  destruct (rollback_one b (World.Mk fs os)) as [[fs1 os1] res] eqn:E. unfold bindM.
  destruct (rollback_backups (rev bs) (World.Mk fs1 os1)) as [w' [failed|e]] eqn:E'; [|done].
  destruct res as [u|e]; [|by intros [= _ ?]]. intros [= <- ->].
  pose proof (frames_rollback_one b Pb _ _ _ _ S E) as K. cbn [World.fs] in K.
  pose proof (rollback_one_inl _ _ _ _ _ _ S Pb Hb E) as C. cbn [World.fs] in C.
  eapply IH in E'; [done|]. clear IH. constructor.
  - apply K.
  - eapply Forall2_impl; [exact H|]. intros b' c'. eapply holds_touches; [|exact K].
    by intros name <-.
  - done.
  - intros name B. rewrite <- (R name B), restored_snoc by done.
    apply restored_ext; [done|]. intros _. destruct (decide (name = FsBackup.target b)) as [->|N]; [done|].
    destruct K as [_ K]. apply K. congruence.
Qed.

Lemma frames_cleanup fs bs cs : Forall2 (holds fs) bs cs ->
  frames (fun name => backup_name name = true) (cleanup_backups bs).
Proof.
  induction 1 as [|b c bs cs H _ IH]; [apply frames_ret|]. cbn [cleanup_backups].
  unfold holds in H. destruct (FsBackup.backup b) as [s|]; [|done].
  destruct H as (B & P & _). apply frames_bind; [|done].
  apply frames_caught. eapply frames_mono; [|by apply frames_remove_file]. by intros n <-.
Qed.

Lemma rollback_inl bs : forall w, exists w' failed, rollback_backups bs w = (w', inl failed).
Proof.
  induction bs as [|b bs IH]; intros w; [by eexists _, _|]. cbn. unfold bindM, caught.
  destruct (rollback_one b w) as [w1 r]. destruct (IH w1) as (w2 & failed & ->). by eexists _, _.
Qed.

(** The names of the files are the same, backups aside. *)
Definition same_files (fs fs' : Fs) : Prop :=
  forall name, backup_name name = false -> contents fs' name = contents fs name.

Lemma fail_atomic_spec {A} fs0 fs os bs cs e applied w d ap :
  invariant fs0 fs bs cs ->
  @fail_atomic A e applied bs (World.Mk fs os) = (w, inr (NerveError.AtomicBatchFailed d ap [])) ->
  same_files fs0 w.(World.fs).
Proof.
  intros I. unfold fail_atomic, bindM.
  destruct (rollback_inl (rev bs) (World.Mk fs os)) as ([fs1 os1] & failed & E). rewrite E.
  destruct (cleanup_backups bs (World.Mk fs1 os1)) as [w2 [u|e']] eqn:C; [|].
  - intros [= <- _ _ ->]. destruct (rollback_spec _ _ _ _ _ _ I E) as [S R]. cbn [World.fs] in *.
    apply (frames_cleanup fs bs cs) in C as [_ C]; [|by destruct I|done].
    intros name B. rewrite C, R; [done|done|congruence].
  - exfalso. clear -C. revert fs1 os1 C. induction bs as [|b bs IH]; intros fs1 os1; [done|].
    cbn. destruct (FsBackup.backup b); [|apply IH]. unfold bindM, caught.
    destruct (remove_file l (World.Mk fs1 os1)) as [[fs2 os2] r]. apply IH.
Qed.

Lemma invariant_push fs0 fs fs' bs cs b : invariant fs0 fs bs cs -> kept fs fs' ->
  plain_name b.(FsBackup.target) -> backup_name b.(FsBackup.target) = false ->
  holds fs' b (contents fs b.(FsBackup.target)) ->
  invariant fs0 fs' (bs ++ [b]) (cs ++ [contents fs b.(FsBackup.target)]).
Proof.
  intros I K P B Hb. apply (invariant_kept _ _ _ _ _ K) in I. destruct I as [S H T R]. constructor; [done| | |].
  - apply Forall2_app; [done|by repeat constructor].
  - apply Forall_app. split; [done|by repeat constructor].
  - intros name Bn. pose proof (Forall2_length _ _ _ H) as L. rewrite restored_snoc by done.
    rewrite <- (R name Bn). apply restored_ext; [done|]. intros _.
    destruct (decide (name = FsBackup.target b)) as [->|]; [|done].
    destruct K as (_ & K & _). symmetry. by apply K.
Qed.

Lemma backup_targets_spec pid fs0 index targets : forall bs cs fs os w r,
  Forall (fun name => plain_name name /\ backup_name name = false) targets ->
  invariant fs0 fs bs cs ->
  backup_targets pid targets index bs (World.Mk fs os) = (w, r) ->
  exists bs' cs' err, r = inl (bs', err) /\ invariant fs0 w.(World.fs) bs' cs' /\
    (forall name, name ∈ map FsBackup.target bs -> name ∈ map FsBackup.target bs') /\
    (err = None -> forall name, name ∈ targets -> name ∈ map FsBackup.target bs').
Proof.
  induction targets as [|t targets IH]; intros bs cs fs os w r F I; cbn [backup_targets].
  { intros [= <- <-]. exists bs, cs, None. split_and!; [done|done|done|].
    intros _ name H. by apply not_elem_of_nil in H. }
  inversion F as [|? ? [Pt Bt] F']; subst. unfold bindM, caught.
  destruct (backup_target pid t (length bs + index) (World.Mk fs os)) as [[fs1 os1] res] eqn:E.
  apply backup_target_spec in E as [K H]; [|by destruct I|done|done]. cbn [World.fs] in *.
  destruct res as [b|e].
  - destruct (H b eq_refl) as [Tb Hb]. subst t.
    intros E. eapply IH in E as (bs' & cs' & err & -> & I' & Sub & All); [|done|by eapply invariant_push].
    exists bs', cs', err. split_and!; [done|done| |].
    + intros name N. apply Sub. rewrite map_app. apply elem_of_app. by left.
    + intros N name [->|M]%elem_of_cons; [|by apply All].
      apply Sub. rewrite map_app. apply elem_of_app. right. by left.
  - intros [= <- <-]. exists bs, cs, (Some e). split_and!; [done|by eapply invariant_kept|done|done].
Qed.

Section batch.
Context (policy : RootPolicy.t) (WR : well_rooted policy) (pid : nat).

Lemma change_targets_spec change fs os w r : sound fs ->
  change_targets policy change (World.Mk fs os) = (w, r) ->
  w.(World.fs) = fs /\ forall ts, r = inl ts -> ts = change_names policy change /\ Forall plain_name ts.
Proof.
  intros [_ L]. unfold change_targets, change_names, resolve_allowed, resolve_for_write, bindM, get_fs, lift, ret.
  destruct change as [path c|path c|path|from to c]; cbn [paths_of map World.fs].
  - destruct (Paths.resolve_for_write fs policy path) as [t|] eqn:R; intros [= <- <-]; split; try done.
    intros ts [= <-]. destruct (resolved_target fs policy path t) as [-> P]; auto.
  - destruct (Paths.resolve_allowed fs policy path) as [t|] eqn:R; intros [= <- <-]; split; try done.
    intros ts [= <-]. destruct (resolved_target fs policy path t) as [-> P]; auto.
  - destruct (Paths.resolve_allowed fs policy path) as [t|] eqn:R; intros [= <- <-]; split; try done.
    intros ts [= <-]. destruct (resolved_target fs policy path t) as [-> P]; auto.
  - destruct (Paths.resolve_allowed fs policy from) as [t|] eqn:R; [|by intros [= <- <-]].
    destruct (Paths.resolve_for_write fs policy to) as [t'|] eqn:R'; intros [= <- <-]; split; try done.
    intros ts [= <-]. destruct (resolved_target fs policy from t) as [-> P]; [done|done|by left|].
    destruct (resolved_target fs policy to t') as [-> P']; [done|done|by right|]. auto.
Qed.

(** No change names a file the way backups are named. *)
Definition unmarked (changes : list FileChange.t) : Prop :=
  Forall (fun change => Forall (fun name => backup_name name = false) (change_names policy change)) changes.

Lemma apply_from_spec fs0 changes : forall index bs cs applied fs os w d ap,
  unmarked changes -> invariant fs0 fs bs cs ->
  apply_from policy pid changes index bs applied (World.Mk fs os) =
    (w, inr (NerveError.AtomicBatchFailed d ap [])) ->
  same_files fs0 w.(World.fs).
Proof.
  induction changes as [|change changes IH]; intros index bs cs applied fs os w d ap U I; cbn [apply_from].
  { intros C. exfalso. clear -C. revert fs os C. induction bs as [|b bs IH]; intros fs os; [done|].
    cbn. destruct (FsBackup.backup b); [|apply IH]. unfold bindM, caught.
    destruct (remove_file l (World.Mk fs os)) as [[fs2 os2] r]. apply IH. }
  inversion U as [|? ? Uc U']; subst. unfold bindM at 1, caught.
  destruct (change_targets policy change (World.Mk fs os)) as [[fs1 os1] res] eqn:C.
  apply change_targets_spec in C as [E T]; [|by destruct I]. cbn in E. subst fs1.
  destruct res as [ts|e]; [|by apply fail_atomic_spec with (cs := cs)].
  destruct (T ts eq_refl) as [-> P]. clear T. unfold bindM at 1.
  destruct (backup_targets pid (change_names policy change) index bs (World.Mk fs os1)) as [[fs2 os2] res] eqn:B.
  eapply backup_targets_spec in B as (bs' & cs' & err & -> & I' & _ & All); [| |exact I];
    [|apply Forall_and; by split]. cbn [World.fs] in I'.
  destruct err as [e|]; [by apply fail_atomic_spec with (cs := cs')|].
  unfold bindM at 1, caught.
  destruct (apply_change policy change (World.Mk fs2 os2)) as [[fs3 os3] res] eqn:A.
  apply (frames_apply_change policy WR) in A; [|by destruct I']. cbn [World.fs] in A.
  assert (invariant fs0 fs3 bs' cs') as I3.
  { eapply invariant_touches; [|exact I']. eapply touches_mono; [|exact A]. cbn. by apply All. }
  destruct res as [u|e]; [by apply IH with (cs := cs')|by apply fail_atomic_spec with (cs := cs')].
Qed.

(** C37: an atomic batch that fails leaves nothing behind. Whichever of its calls to the system are
    refused or torn half-way, if the failed batch reports no path it could not roll back then
    every file has the contents it had at the start and no file is new, backup files aside; in
    a tree without links and for changes that do not name backups. *)
Theorem atomic_batch_rolls_back changes fs outcomes w detail applied :
  sound fs -> unmarked changes ->
  apply_atomic_batch policy pid changes (World.Mk fs outcomes) =
    (w, inr (NerveError.AtomicBatchFailed detail applied [])) ->
  same_files fs w.(World.fs).
Proof.
  intros S U. apply apply_from_spec with (cs := []); [done|]. by constructor.
Qed.
End batch.

(** * A batch torn half-way *)

Definition tree : Fs := list_to_map [(["w"], Node.Dir); (["w"; "a"], Node.File "A"); (["w"; "b"], Node.File "B")].
Definition tree_policy : RootPolicy.t := RootPolicy.Mk [["w"]].
Definition rewrite_both : list FileChange.t :=
  [FileChange.Update "a" "AA"; FileChange.Rename "b" "c/d" "BB"].

(** Backup of [a], its write, backup of [b], the directory, the rename; the last write is torn. *)
Definition torn_write : list Outcome.t := repeat Outcome.Done 11 ++ [Outcome.Torn "B"].

Lemma atomic_batch_rolls_back_witness :
  same_files tree (apply_atomic_batch tree_policy 7 rewrite_both (World.Mk tree torn_write)).1.(World.fs).
Proof.
  refine (atomic_batch_rolls_back tree_policy _ 7 rewrite_both tree torn_write _
    (NerveError.Io ["w"; "c"; "d"]) [["a"]] _ _ _).
  - repeat constructor.
  - split.
    + intros d x node H%elem_of_list_to_map_2. rewrite !elem_of_cons in H.
      destruct_or! H; try (by apply not_elem_of_nil in H); injection H as H _;
        (destruct d as [|y [|z d]]; [reflexivity| |]); cbn in H;
        injection H as E H; subst; try reflexivity; try discriminate; by destruct d.
    + intros name target H%elem_of_list_to_map_2. rewrite !elem_of_cons in H.
      destruct_or! H; try (by apply not_elem_of_nil in H); discriminate.
  - repeat constructor.
  - vm_compute. reflexivity.
Defined.

(** A link that leads nowhere is not backed up: a failed rename onto it removes it for good, and
    the failure reports nothing that was not rolled back. *)
Lemma rollback_loses_link :
  let fs := <[["w"; "l"] := Node.Link "/w/nowhere"]> tree in
  let w := apply_atomic_batch tree_policy 7 [FileChange.Rename "a" "l" "AA"]
             (World.Mk fs (repeat Outcome.Done 5 ++ [Outcome.Refused])) in
  w.2 = inr (NerveError.AtomicBatchFailed (NerveError.Io ["w"]) [] []) /\
  fs !! ["w"; "l"] = Some (Node.Link "/w/nowhere") /\ w.1.(World.fs) !! ["w"; "l"] = None.
Proof. split_and!; vm_compute; reflexivity. Qed.
