(* ===== verification/Selection.v ===== *)
(** The selection of files and line slices, and its rebase across an edit
    ([nerve-core/src/selection.rs], [selection_rebase.rs], [path_match.rs]).

    Proved below. What a selection request does to the selection. *)
From stdpp Require Import gmap strings.
From S2P Require Import Prelude Text EditText Paths.
Open Scope nerve_scope.

(** The catalog: roots and entries, absolute paths by their components. *)
Module RootRef.
Record t := Mk { id : string; path : string }.
End RootRef.

Module CatalogEntry.
Record t := Mk { root_id : string; rel_path : string; abs_path : string; size : nat }.
End CatalogEntry.

Module CatalogSnapshot.
Record t := Mk { generation : nat; roots : list RootRef.t; entries : list CatalogEntry.t }.
End CatalogSnapshot.

(** * [path_match.rs] *)

Module PathMatchInput.
Record t := Mk { rel : string; canonical : option string }.
End PathMatchInput.

(** [trim_start_matches] on a non-empty pattern. *)
Fixpoint trim_start_matches (fuel : nat) (pat s : string) : string :=
  match fuel with
  | 0 => s
  | S fuel => match strip_prefix pat s with Some rest => trim_start_matches fuel pat rest | None => s end
  end.

Definition backslash : string := String "092" EmptyString.

Definition normalize_path_text (path : string) : string :=
  let raw := replace_str backslash "/" path in
  trim_end_chars (Ascii.eqb "/") (trim_start_matches (String.length raw) "./" raw).

(** Equality and [starts_with] of paths, by components. *)
Definition path_eqb (a b : string) : bool := bool_decide (components a = components b).

Definition path_under (root path : string) : bool :=
  bool_decide (take (length (components root)) (components path) = components root).

Definition rel_exact (entry : CatalogEntry.t) (rel : string) : bool :=
  negb (String.eqb rel EmptyString) && String.eqb entry.(CatalogEntry.rel_path) rel.

Definition rel_child (entry : CatalogEntry.t) (rel : string) : bool :=
  negb (String.eqb rel EmptyString) && starts_with (rel +:+ "/") entry.(CatalogEntry.rel_path).

Definition literal_exact (input : PathMatchInput.t) (entry : CatalogEntry.t) : bool :=
  rel_exact entry input.(PathMatchInput.rel) ||
  match input.(PathMatchInput.canonical) with
  | Some abs => path_eqb entry.(CatalogEntry.abs_path) abs
  | None => false
  end.

Definition literal_child (input : PathMatchInput.t) (entry : CatalogEntry.t) : bool :=
  rel_child entry input.(PathMatchInput.rel) ||
  match input.(PathMatchInput.canonical) with
  | Some abs => path_under abs entry.(CatalogEntry.abs_path)
  | None => false
  end.

Definition root_name (path : string) : string :=
  match last (components path) with Some (Component.Normal part) => part | _ => EmptyString end.

Definition scoped_rel (entry : CatalogEntry.t) (snapshot : CatalogSnapshot.t) (rel : string)
    : option string :=
  let '(prefix, remainder) := default (rel, EmptyString) (split_once "/" rel) in
  if String.eqb prefix EmptyString then None
  else if String.eqb prefix entry.(CatalogEntry.root_id) then Some remainder
  else
    match List.filter (fun root => String.eqb (root_name root.(RootRef.path)) prefix)
            snapshot.(CatalogSnapshot.roots) with
    | [root] => if String.eqb root.(RootRef.id) entry.(CatalogEntry.root_id) then Some remainder else None
    | _ => None
    end.

Definition entry_exact_match (snapshot : CatalogSnapshot.t) (input : PathMatchInput.t)
    (entry : CatalogEntry.t) : bool :=
  if existsb (literal_exact input) snapshot.(CatalogSnapshot.entries) then literal_exact input entry
  else match scoped_rel entry snapshot input.(PathMatchInput.rel) with
       | Some rel => rel_exact entry rel
       | None => false
       end.

Definition entry_child_match (snapshot : CatalogSnapshot.t) (input : PathMatchInput.t)
    (entry : CatalogEntry.t) : bool :=
  if existsb (literal_child input) snapshot.(CatalogSnapshot.entries) then literal_child input entry
  else match scoped_rel entry snapshot input.(PathMatchInput.rel) with
       | Some rel => rel_child entry rel
       | None => false
       end.

Definition entry_matches (snapshot : CatalogSnapshot.t) (input : PathMatchInput.t)
    (entry : CatalogEntry.t) : bool :=
  entry_exact_match snapshot input entry || entry_child_match snapshot input entry.

(** * [selection.rs] *)

Module LineRange.
Record t := Mk { start_line : nat; end_line : nat; label : option string }.
#[global] Instance eq_dec : EqDecision t.
Proof. solve_decision. Defined.
End LineRange.

Module SelectionMode.
Inductive t := Full | Slices (ranges : list LineRange.t) | CodemapOnly.
#[global] Instance eq_dec : EqDecision t.
Proof. solve_decision. Defined.
End SelectionMode.

(** Root id and path. *)
Notation SelectionKey := (string * string)%type.
Notation Selection := (gmap SelectionKey SelectionMode.t).

Module ManageSelectionOp.
Inductive t := Get | Add | Remove | Set_ | Clear | Preview | Promote | Demote.
End ManageSelectionOp.

Module ManageSelectionMode.
Inductive t := Full | Slices | CodemapOnly.
End ManageSelectionMode.

Module SelectionSliceArg.
Record t := Mk { path : string; ranges : list LineRange.t }.
End SelectionSliceArg.

Module ManageSelectionRequest.
Record t := Mk { op : ManageSelectionOp.t; paths : list string; mode : option ManageSelectionMode.t;
  slices : list SelectionSliceArg.t; auto_codemap : bool }.
End ManageSelectionRequest.

Definition selection_key (entry : CatalogEntry.t) : SelectionKey :=
  (entry.(CatalogEntry.root_id), entry.(CatalogEntry.rel_path)).

Definition has_selection_targets (request : ManageSelectionRequest.t) : bool :=
  match request.(ManageSelectionRequest.paths), request.(ManageSelectionRequest.slices) with
  | [], [] => false
  | _, _ => true
  end.

Definition mode_from_arg (mode : ManageSelectionMode.t) (ranges : list LineRange.t) : SelectionMode.t :=
  match mode with
  | ManageSelectionMode.Full => SelectionMode.Full
  | ManageSelectionMode.Slices => SelectionMode.Slices ranges
  | ManageSelectionMode.CodemapOnly => SelectionMode.CodemapOnly
  end.

Section select.
(** [Path::canonicalize] on the machine. *)
Context (canonicalize : string -> option string).

Definition from_path (path : string) : PathMatchInput.t :=
  PathMatchInput.Mk (normalize_path_text path) (canonicalize path).

(** The entries some path matches, in the order of the snapshot. *)
Definition select_entries (snapshot : CatalogSnapshot.t) (paths : list string) : list CatalogEntry.t :=
  List.filter (fun entry => existsb (fun path => entry_matches snapshot (from_path path) entry) paths)
    snapshot.(CatalogSnapshot.entries).

Definition selection_key_for_path (snapshot : CatalogSnapshot.t) (path : string) : option SelectionKey :=
  let input := from_path path in
  match List.filter (entry_exact_match snapshot input) snapshot.(CatalogSnapshot.entries),
        List.filter (entry_child_match snapshot input) snapshot.(CatalogSnapshot.entries) with
  | entry :: _, _ | [], entry :: _ => Some (selection_key entry)
  | [], [] => None
  end.

Definition add_targets (snapshot : CatalogSnapshot.t) (request : ManageSelectionRequest.t)
    (selection : Selection) : Selection :=
  let default_mode :=
    mode_from_arg (default ManageSelectionMode.Full request.(ManageSelectionRequest.mode)) [] in
  let selection :=
    foldl (fun files entry => <[selection_key entry := default_mode]> files) selection
      (select_entries snapshot request.(ManageSelectionRequest.paths)) in
  foldl (fun files slice =>
      foldl (fun files entry =>
          <[selection_key entry := SelectionMode.Slices slice.(SelectionSliceArg.ranges)]> files) files
        (select_entries snapshot [slice.(SelectionSliceArg.path)]))
    selection request.(ManageSelectionRequest.slices).

Definition target_keys (snapshot : CatalogSnapshot.t) (request : ManageSelectionRequest.t)
    (selection : Selection) : gset SelectionKey :=
  if negb (has_selection_targets request) then dom selection
  else
    list_to_set (map selection_key (select_entries snapshot request.(ManageSelectionRequest.paths))) ∪
    ⋃ map (fun slice => list_to_set (map selection_key
                          (select_entries snapshot [slice.(SelectionSliceArg.path)])))
        request.(ManageSelectionRequest.slices).

(** Sets every selected target to one mode. *)
Definition retarget (mode : SelectionMode.t) (keys : gset SelectionKey) (selection : Selection) : Selection :=
  map_imap (fun key old => Some (if decide (key ∈ keys) then mode else old)) selection.

Definition remove_targets (snapshot : CatalogSnapshot.t) (request : ManageSelectionRequest.t)
    (selection : Selection) : Selection :=
  filter (fun '(key, _) => key ∉ target_keys snapshot request selection) selection.

Definition promote_targets (snapshot : CatalogSnapshot.t) (request : ManageSelectionRequest.t)
    (selection : Selection) : Selection :=
  retarget SelectionMode.Full (target_keys snapshot request selection) selection.

Definition demote_targets (snapshot : CatalogSnapshot.t) (request : ManageSelectionRequest.t)
    (selection : Selection) : Selection :=
  retarget SelectionMode.CodemapOnly (target_keys snapshot request selection) selection.

(** The selection after the request, and whether it is to be kept. *)
Definition apply_selection_request (snapshot : CatalogSnapshot.t) (request : ManageSelectionRequest.t)
    (selection : Selection) : Selection * bool :=
  match request.(ManageSelectionRequest.op) with
  | ManageSelectionOp.Get => (selection, true)
  | ManageSelectionOp.Preview =>
      (if has_selection_targets request then add_targets snapshot request selection else selection, false)
  | ManageSelectionOp.Clear => (∅, true)
  | ManageSelectionOp.Add => (add_targets snapshot request selection, true)
  | ManageSelectionOp.Set_ => (add_targets snapshot request ∅, true)
  | ManageSelectionOp.Remove => (remove_targets snapshot request selection, true)
  | ManageSelectionOp.Promote => (promote_targets snapshot request selection, true)
  | ManageSelectionOp.Demote => (demote_targets snapshot request selection, true)
  end.
End select.

Definition mode_name (mode : SelectionMode.t) : string :=
  match mode with
  | SelectionMode.Full => "full"
  | SelectionMode.Slices _ => "slices"
  | SelectionMode.CodemapOnly => "codemap_only"
  end.

Definition mode_ranges (mode : SelectionMode.t) : list LineRange.t :=
  match mode with SelectionMode.Slices ranges => ranges | _ => [] end.

(** [split_inclusive] on a line feed: every line with its end, and no empty last one. *)
Definition split_inclusive (text : string) : list string :=
  let pieces := split_on LF text in
  match last pieces with
  | Some EmptyString => map (fun line => line +:+ lf) (removelast pieces)
  | Some rest => map (fun line => line +:+ lf) (removelast pieces) ++ [rest]
  | None => []
  end.

Definition slice_text (text : string) (ranges : list LineRange.t) : string :=
  let segments := split_inclusive text in
  match segments with
  | [] => EmptyString
  | _ =>
      concat_str (map (fun range =>
        let start := Nat.min (Nat.max range.(LineRange.start_line) 1) (length segments) in
        let end_ := Nat.min (Nat.max range.(LineRange.end_line) start) (length segments) in
        concat_str (take (end_ - (start - 1)) (drop (start - 1) segments))) ranges)
  end.

Section requests.
Context (canonicalize : string -> option string).

Lemma fold_insert_lookup (mode : SelectionMode.t) entries : forall (files : Selection) key,
  let files' := foldl (fun files entry => <[selection_key entry := mode]> files) files entries in
  (key ∈ map selection_key entries -> files' !! key = Some mode) /\
  (key ∉ map selection_key entries -> files' !! key = files !! key).
Proof.
  induction entries as [|entry entries IH]; intros files key; cbn -[lookup insert selection_key].
  { split; [by intros ?%not_elem_of_nil|done]. }
  destruct (IH (<[selection_key entry:=mode]> files) key) as [H1 H2]. rewrite elem_of_cons.
  destruct (decide (key ∈ map selection_key entries)) as [I|I].
  { split; [intros _; by apply H1|tauto]. }
  rewrite H2 by done. split; [intros [->|?]; [apply lookup_insert_eq|done]|].
  intros N. apply lookup_insert_ne. intros <-. tauto.
Qed.

Definition slice_targets (snapshot : CatalogSnapshot.t) (slice : SelectionSliceArg.t) : list SelectionKey :=
  map selection_key (select_entries canonicalize snapshot [slice.(SelectionSliceArg.path)]).

Definition path_targets (snapshot : CatalogSnapshot.t) (request : ManageSelectionRequest.t) : list SelectionKey :=
  map selection_key (select_entries canonicalize snapshot request.(ManageSelectionRequest.paths)).

Lemma target_keys_elem snapshot request selection key : has_selection_targets request = true ->
  key ∈ target_keys canonicalize snapshot request selection <->
  key ∈ path_targets snapshot request \/
  Exists (fun slice => key ∈ slice_targets snapshot slice) request.(ManageSelectionRequest.slices).
Proof.
  intros T. unfold target_keys. rewrite T. cbn [negb].
  rewrite elem_of_union, elem_of_list_to_set, elem_of_union_list, Exists_exists.
  apply or_iff_compat_l. unfold slice_targets. split.
  - intros (X & (slice & -> & I)%list_elem_of_fmap & H). rewrite elem_of_list_to_set in H. eauto.
  - intros (slice & I & H). eexists. rewrite list_elem_of_fmap. split; [by exists slice|].
    by rewrite elem_of_list_to_set.
Qed.

Lemma slices_fold_lookup snapshot slices : forall (files : Selection) key,
  let files' := foldl (fun files slice =>
      foldl (fun files entry =>
          <[selection_key entry := SelectionMode.Slices slice.(SelectionSliceArg.ranges)]> files) files
        (select_entries canonicalize snapshot [slice.(SelectionSliceArg.path)])) files slices in
  Exists (fun slice => key ∈ slice_targets snapshot slice /\
    files' !! key = Some (SelectionMode.Slices slice.(SelectionSliceArg.ranges))) slices \/
  Forall (fun slice => key ∉ slice_targets snapshot slice) slices /\ files' !! key = files !! key.
Proof.
  induction slices as [|slice slices IH]; intros files key; cbn -[lookup insert selection_key select_entries].
  { by right. }
  match goal with |- context [foldl _ ?f slices] => destruct (IH f key) as [H|[N ->]] end.
  { left. by right. }
  edestruct (fold_insert_lookup (SelectionMode.Slices slice.(SelectionSliceArg.ranges))
    (select_entries canonicalize snapshot [slice.(SelectionSliceArg.path)]) files key) as [F1 F2].
  destruct (decide (key ∈ slice_targets snapshot slice)) as [I|I].
  - left. left. split; [done|]. by apply F1.
  - right. split; [by constructor|]. by apply F2.
Qed.

Lemma add_targets_lookup snapshot request selection key :
  let selection' := add_targets canonicalize snapshot request selection in
  Exists (fun slice => key ∈ slice_targets snapshot slice /\
    selection' !! key = Some (SelectionMode.Slices slice.(SelectionSliceArg.ranges)))
    request.(ManageSelectionRequest.slices) \/
  Forall (fun slice => key ∉ slice_targets snapshot slice) request.(ManageSelectionRequest.slices) /\
  selection' !! key =
    if decide (key ∈ path_targets snapshot request)
    then Some (mode_from_arg (default ManageSelectionMode.Full request.(ManageSelectionRequest.mode)) [])
    else selection !! key.
Proof.
  intros selection'. unfold selection', add_targets.
  match goal with |- context [foldl _ ?f request.(ManageSelectionRequest.slices)] =>
    destruct (slices_fold_lookup snapshot request.(ManageSelectionRequest.slices) f key) as [H|[N ->]] end;
    [by left|right]. split; [done|].
  edestruct (fold_insert_lookup (mode_from_arg (default ManageSelectionMode.Full
    request.(ManageSelectionRequest.mode)) []) (select_entries canonicalize snapshot
    request.(ManageSelectionRequest.paths)) selection key) as [F1 F2].
  destruct (decide _) as [I|I]; [by apply F1|by apply F2].
Qed.

Lemma has_targets_false request : has_selection_targets request = false ->
  request.(ManageSelectionRequest.paths) = [] /\ request.(ManageSelectionRequest.slices) = [].
Proof.
  unfold has_selection_targets.
  destruct request.(ManageSelectionRequest.paths), request.(ManageSelectionRequest.slices); done.
Qed.

Lemma select_no_paths snapshot : select_entries canonicalize snapshot [] = [].
Proof. unfold select_entries. induction snapshot.(CatalogSnapshot.entries); done. Qed.

Lemma add_targets_spec snapshot request selection key :
  let targets := target_keys canonicalize snapshot request selection in
  let selection' := add_targets canonicalize snapshot request selection in
  (key ∉ targets -> selection' !! key = selection !! key) /\
  (key ∈ targets -> is_Some (selection' !! key)) /\
  (Exists (fun slice => key ∈ slice_targets snapshot slice) request.(ManageSelectionRequest.slices) ->
   Exists (fun slice => selection' !! key = Some (SelectionMode.Slices slice.(SelectionSliceArg.ranges)))
     request.(ManageSelectionRequest.slices)).
Proof.
  intros targets selection'. destruct (has_selection_targets request) eqn:T.
  2: { apply has_targets_false in T as T'. unfold selection', add_targets, targets, target_keys.
       rewrite T. destruct T' as [-> ->]. rewrite select_no_paths. cbn -[lookup].
       rewrite elem_of_dom. split_and!; [done|done|by intros ?%Exists_nil]. }
  unfold targets, selection'. rewrite target_keys_elem by done.
  destruct (add_targets_lookup snapshot request selection key) as [E|[F ->]].
  - assert (Exists (fun slice => key ∈ slice_targets snapshot slice) request.(ManageSelectionRequest.slices))
      as X by (eapply Exists_impl; [exact E|]; by intros ? []).
    split_and!; [tauto| |].
    + intros _. apply Exists_exists in E as (s & _ & _ & ->). done.
    + intros _. eapply Exists_impl; [exact E|]; by intros ? [].
  - assert (~ Exists (fun slice => key ∈ slice_targets snapshot slice) request.(ManageSelectionRequest.slices))
      as X by (by apply Forall_not_Exists).
    destruct (decide _); split_and!; tauto || done.
Qed.

Lemma retarget_lookup mode keys selection key :
  retarget mode keys selection !! key =
    if decide (key ∈ keys) then (fun _ => mode) <$> selection !! key else selection !! key.
Proof. unfold retarget. rewrite map_lookup_imap. by destruct (selection !! key), (decide _). Qed.

(** A selection request changes its targets and nothing else. Outside the targets, every
    operation but clear and set leaves each file as it was selected; on a target, remove unselects,
    promote and demote change the mode of what was selected and select nothing new, and add selects
    it, as the slices of a slice argument when one names it; a request with no target means the
    whole selection for remove, promote and demote and nothing for add; only a preview is not to be
    kept. *)
Theorem apply_selection_request_spec (snapshot : CatalogSnapshot.t) (request : ManageSelectionRequest.t)
    (selection : Selection) (key : SelectionKey) :
  let targets := target_keys canonicalize snapshot request selection in
  let '(selection', keep) := apply_selection_request canonicalize snapshot request selection in
  (keep = false <-> request.(ManageSelectionRequest.op) = ManageSelectionOp.Preview) /\
  (has_selection_targets request = false -> targets = dom selection) /\
  match request.(ManageSelectionRequest.op) with
  | ManageSelectionOp.Get => selection' = selection
  | ManageSelectionOp.Clear => selection' = ∅
  | ManageSelectionOp.Remove =>
      selection' !! key = if decide (key ∈ targets) then None else selection !! key
  | ManageSelectionOp.Promote =>
      selection' !! key = if decide (key ∈ targets) then (fun _ => SelectionMode.Full) <$> selection !! key
                          else selection !! key
  | ManageSelectionOp.Demote =>
      selection' !! key = if decide (key ∈ targets) then (fun _ => SelectionMode.CodemapOnly) <$> selection !! key
                          else selection !! key
  | ManageSelectionOp.Add | ManageSelectionOp.Preview =>
      (key ∉ targets -> selection' !! key = selection !! key) /\
      (key ∈ targets -> is_Some (selection' !! key)) /\
      (Exists (fun slice => key ∈ slice_targets snapshot slice) request.(ManageSelectionRequest.slices) ->
       Exists (fun slice => selection' !! key = Some (SelectionMode.Slices slice.(SelectionSliceArg.ranges)))
         request.(ManageSelectionRequest.slices))
  | ManageSelectionOp.Set_ =>
      is_Some (selection' !! key) <-> key ∈ targets /\ has_selection_targets request = true
  end.
Proof.
  intros targets. unfold apply_selection_request.
  assert (has_selection_targets request = false -> targets = dom selection) as D.
  { intros T. unfold targets, target_keys. by rewrite T. }
  destruct (add_targets_spec snapshot request selection key) as (A1 & A2 & A3). fold targets in A1, A2.
  destruct request.(ManageSelectionRequest.op) eqn:Op; (split; [done|]); (split; [done|]).
  - done.
  - done.
  - unfold remove_targets. fold targets. destruct (decide (key ∈ targets)).
    + apply map_lookup_filter_None. right. intros m _ N. done.
    + destruct (selection !! key) eqn:S; [by apply map_lookup_filter_Some|].
      apply map_lookup_filter_None. by left.
  - destruct (add_targets_spec snapshot request ∅ key) as (E1 & E2 & _).
    destruct (has_selection_targets request) eqn:T.
    + unfold targets in *. rewrite target_keys_elem in * by done. rewrite <- target_keys_elem with (selection := selection) in * by done.
      split; [|tauto]. intros [m M]. split; [|done].
      destruct (decide (key ∈ target_keys canonicalize snapshot request selection)) as [|N]; [done|].
      rewrite E1, lookup_empty in M by done. done.
    + split; [|by intros []]. intros [m M]. exfalso.
      unfold add_targets in M. destruct (has_targets_false _ T) as [P S]. rewrite P, S, select_no_paths in M.
      done.
  - done.
  - destruct (has_selection_targets request) eqn:T; [done|].
    rewrite D in * by done. split_and!; [done|by rewrite elem_of_dom|].
    destruct (has_targets_false _ T) as [_ ->]. by intros ?%Exists_nil.
  - apply retarget_lookup.
  - apply retarget_lookup.
Qed.
End requests.
