(* ===== verification/Rebase.v ===== *)
(** Rebasing the selected line slices of a file across an edit
    ([nerve-core/src/selection_rebase.rs]).

    Proved below. A rebased slice begins and ends at the lines it began and ended at; an edit that changes
    nothing changes no slice. *)
From stdpp Require Import gmap strings.
From S2P Require Import Prelude Text EditText Selection.
Open Scope nerve_scope.

Module SliceRebaseResult.
Record t := Mk { rebased : list LineRange.t; dropped : list LineRange.t; did_change : bool }.
End SliceRebaseResult.

Definition normalized_lines (text : string) : list string :=
  let normalized := replace_str cr lf (replace_str crlf lf text) in
  if String.eqb normalized EmptyString then []
  else drop_last_empty (split_on LF normalized).

Definition clamp_range (range : LineRange.t) (line_count : nat) : LineRange.t :=
  let start := Nat.min (Nat.max range.(LineRange.start_line) 1) line_count in
  let end_ := Nat.min (Nat.max range.(LineRange.end_line) start) line_count in
  LineRange.Mk start end_ range.(LineRange.label).

Definition range_key_leb (a b : LineRange.t) : bool :=
  (a.(LineRange.start_line) <? b.(LineRange.start_line)) ||
  (a.(LineRange.start_line) =? b.(LineRange.start_line)) &&
  (a.(LineRange.end_line) <=? b.(LineRange.end_line)).

(** The loop of [merge_ranges]: [last] is the range at the end of the output so far. *)
Fixpoint merge_from (last : LineRange.t) (ranges : list LineRange.t) : list LineRange.t :=
  match ranges with
  | [] => [last]
  | range :: ranges =>
      if (range.(LineRange.start_line) <=? last.(LineRange.end_line) + 1) &&
         bool_decide (range.(LineRange.label) = last.(LineRange.label))
      then merge_from (LineRange.Mk last.(LineRange.start_line)
                         (Nat.max last.(LineRange.end_line) range.(LineRange.end_line))
                         last.(LineRange.label)) ranges
      else last :: merge_from range ranges
  end.

Definition merge_ranges (ranges : list LineRange.t) : list LineRange.t :=
  match ranges with [] => [] | first :: rest => merge_from first rest end.

Definition normalize_ranges (ranges : list LineRange.t) (line_count : nat) : list LineRange.t :=
  if line_count =? 0 then []
  else merge_ranges (sort_by range_key_leb (map (fun range => clamp_range range line_count) ranges)).

Fixpoint common_prefix_len (old_lines new_lines : list string) : nat :=
  match old_lines, new_lines with
  | old :: old_lines, new :: new_lines =>
      if String.eqb old new then S (common_prefix_len old_lines new_lines) else 0
  | _, _ => 0
  end.

Definition common_suffix_len (old_tail new_tail : list string) : nat :=
  common_prefix_len (rev old_tail) (rev new_tail).

Definition shift_line (line : nat) (delta : Z) : nat :=
  if (delta <? 0)%Z then Nat.max (line - Z.to_nat (- delta)) 1 else line + Z.to_nat delta.

Definition shift_range (range : LineRange.t) (delta : Z) : LineRange.t :=
  LineRange.Mk (shift_line range.(LineRange.start_line) delta)
    (shift_line range.(LineRange.end_line) delta) range.(LineRange.label).

(** * Anchoring *)

Definition window_starts (boundary len line_count : nat) : list nat :=
  if (boundary =? 0) || (line_count <? boundary) || (line_count <? len) then []
  else
    let min_start := Nat.max (boundary - (len - 1)) 1 in
    let max_start := Nat.min boundary (line_count - len + 1) in
    seq min_start (S max_start - min_start).

(** The positions, from one, of the lines equal to the window. *)
Fixpoint find_window (position : nat) (new_lines window : list string) : list nat :=
  match new_lines with
  | [] => []
  | _ :: rest =>
      (if (length window <=? length new_lines) && bool_decide (take (length window) new_lines = window) &&
          String.eqb (snapshot_tag (join lf (take (length window) new_lines)))
            (snapshot_tag (join lf window))
       then [position] else []) ++ find_window (S position) rest window
  end.

(** A [BTreeSet] of numbers. *)
Fixpoint set_insert (n : nat) (set : list nat) : list nat :=
  match set with
  | [] => [n]
  | m :: rest => if n <? m then n :: set else if n =? m then set else m :: set_insert n rest
  end.

Definition window_candidates (old_lines new_lines : list string) (boundary len start : nat) : list nat :=
  let window := take len (drop (start - 1) old_lines) in
  match window with
  | [] => []
  | _ => map (fun matched => matched + (boundary - start)) (find_window 1 new_lines window)
  end.

Definition boundary_candidates (old_lines new_lines : list string) (boundary : nat) : list nat :=
  foldl (fun set n => set_insert n set) []
    (flat_map (fun len => flat_map (window_candidates old_lines new_lines boundary len)
                            (window_starts boundary len (length old_lines))) [3; 2; 1]).

Definition abs_diff (a b : nat) : nat := (a - b) + (b - a).

(** The derived order of a triple. *)
Definition triple_ltb (a b : nat * nat * nat) : bool :=
  let '(a1, a2, a3) := a in let '(b1, b2, b3) := b in
  (a1 <? b1) || (a1 =? b1) && ((a2 <? b2) || (a2 =? b2) && (a3 <? b3)).

Definition anchor_step (range : LineRange.t) (best : option (nat * nat * nat)) (pair : nat * nat)
    : option (nat * nat * nat) :=
  let '(start, end_) := pair in
  if end_ <? start then best
  else
    let distance := abs_diff start range.(LineRange.start_line) + abs_diff end_ range.(LineRange.end_line) in
    let candidate := (distance, start, end_) in
    match best with
    | None => Some candidate
    | Some current => if triple_ltb candidate current then Some candidate else best
    end.

Definition anchor_rebase (range : LineRange.t) (old_lines new_lines : list string) : option LineRange.t :=
  let starts := boundary_candidates old_lines new_lines range.(LineRange.start_line) in
  let ends := boundary_candidates old_lines new_lines range.(LineRange.end_line) in
  (fun '(_, start, end_) =>
     clamp_range (LineRange.Mk start end_ range.(LineRange.label)) (length new_lines)) <$>
  foldl (anchor_step range) None (list_prod starts ends).

(** * The rebase *)

(** Where one range goes: it stays above the change, moves below it, or is anchored in it. *)
Definition place (old_lines new_lines : list string) (range : LineRange.t) : option LineRange.t :=
  let prefix := common_prefix_len old_lines new_lines in
  let suffix := common_suffix_len (drop prefix old_lines) (drop prefix new_lines) in
  let old_changed_end := length old_lines - suffix in
  let delta := (Z.of_nat (length new_lines) - Z.of_nat (length old_lines))%Z in
  if range.(LineRange.end_line) <=? prefix then Some range
  else if old_changed_end <? range.(LineRange.start_line)
  then Some (clamp_range (shift_range range delta) (length new_lines))
  else anchor_rebase range old_lines new_lines.

Definition rebase_ranges (old_text new_text : string) (ranges : list LineRange.t) : SliceRebaseResult.t :=
  let old_lines := normalized_lines old_text in
  let new_lines := normalized_lines new_text in
  let normalized := normalize_ranges ranges (length old_lines) in
  match normalized, new_lines with
  | [], _ => SliceRebaseResult.Mk [] [] false
  | _, [] => SliceRebaseResult.Mk [] normalized true
  | _, _ =>
      let rebased := normalize_ranges (omap (place old_lines new_lines) normalized) (length new_lines) in
      let dropped := List.filter (fun range =>
        match place old_lines new_lines range with Some _ => false | None => true end) normalized in
      SliceRebaseResult.Mk rebased dropped
        (negb (bool_decide (rebased = normalized)) || negb (bool_decide (dropped = [])))
  end.

(** * The stored selection across an edit *)

Module SelectionMutation.
Record t := Mk { old_path : string; new_path : option string; mode_before : string;
  mode_after : option string; ranges_before : list LineRange.t; ranges_after : list LineRange.t;
  dropped : list LineRange.t; did_change : bool }.
End SelectionMutation.

Definition selection_report (old_path new_path mode_before : string) (mode_after : option string)
    (ranges_before ranges_after dropped : list LineRange.t) (did_change : bool) : SelectionMutation.t :=
  SelectionMutation.Mk (normalize_path_text old_path)
    (if String.eqb old_path new_path then None else Some (normalize_path_text new_path))
    mode_before mode_after ranges_before ranges_after dropped did_change.

Definition preserve_report (old_path new_path : string) (mode : SelectionMode.t) : SelectionMutation.t :=
  selection_report old_path new_path (mode_name mode) (Some (mode_name mode)) (mode_ranges mode)
    (mode_ranges mode) [] true.

Definition fallback_key (before_key : SelectionKey) (path : string) : SelectionKey :=
  (before_key.1, normalize_path_text path).

(** The selection after it and what is reported. *)
Definition update_selection_for_content (before_key after_key : option SelectionKey)
    (old_path new_path old_text new_text : string) (selection : Selection)
    : Selection * option SelectionMutation.t :=
  match before_key with
  | None => (selection, None)
  | Some before_key =>
      let after_key := default (fallback_key before_key new_path) after_key in
      match selection !! before_key with
      | None => (selection, None)
      | Some mode =>
          let selection := delete before_key selection in
          let key_changed := negb (bool_decide (before_key = after_key)) in
          match mode with
          | SelectionMode.Slices ranges =>
              let result := rebase_ranges old_text new_text ranges in
              let kept := match result.(SliceRebaseResult.rebased) with [] => false | _ => true end in
              (if kept then <[after_key := SelectionMode.Slices result.(SliceRebaseResult.rebased)]> selection
               else selection,
               Some (selection_report old_path new_path "slices" (if kept then Some "slices" else None)
                       ranges result.(SliceRebaseResult.rebased) result.(SliceRebaseResult.dropped)
                       (result.(SliceRebaseResult.did_change) || key_changed)))
          | other =>
              (<[after_key := other]> selection,
               if key_changed then Some (preserve_report old_path new_path other) else None)
          end
      end
  end.

Definition remove_selection (before_key : option SelectionKey) (selection : Selection)
    : Selection * option SelectionMutation.t :=
  match before_key with
  | None => (selection, None)
  | Some before_key =>
      match selection !! before_key with
      | None => (selection, None)
      | Some mode =>
          (delete before_key selection,
           Some (selection_report before_key.2 before_key.2 (mode_name mode) None (mode_ranges mode) []
                   (mode_ranges mode) true))
      end
  end.

Definition transfer_selection (before_key after_key : option SelectionKey) (old_path new_path : string)
    (selection : Selection) : Selection * option SelectionMutation.t :=
  match before_key with
  | None => (selection, None)
  | Some before_key =>
      let after_key := default (fallback_key before_key new_path) after_key in
      match selection !! before_key with
      | None => (selection, None)
      | Some mode =>
          (<[after_key := mode]> (delete before_key selection),
           if bool_decide (before_key = after_key) then None
           else Some (preserve_report old_path new_path mode))
      end
  end.

(** The line numbered [n], from one. *)
Definition line_at (lines : list string) (n : nat) : option string := lines !! (n - 1).

Definition in_file (r : LineRange.t) (count : nat) : Prop :=
  1 <= r.(LineRange.start_line) <= r.(LineRange.end_line) /\ r.(LineRange.end_line) <= count.

(** * Candidates *)

Lemma find_window_spec new : forall window position m, m ∈ find_window position new window ->
  position <= m /\ take (length window) (drop (m - position) new) = window.
Proof.
  induction new as [|x new IH]; intros window position m; cbn [find_window].
  { by intros ?%not_elem_of_nil. }
  rewrite elem_of_app. intros [I|I].
  - destruct ((length window <=? length (x :: new)) && bool_decide _ && _) eqn:E; [|by apply not_elem_of_nil in I].
    apply list_elem_of_singleton in I as ->. rewrite Nat.sub_diag, drop_0. split; [done|].
    apply andb_true_iff in E as [[_ E%bool_decide_eq_true]%andb_true_iff _]. done.
  - apply IH in I as [L E]. split; [lia|]. by replace (m - position) with (S (m - S position)) by lia.
Qed.

Lemma window_starts_spec boundary len count start : len <> 0 -> start ∈ window_starts boundary len count ->
  1 <= start <= boundary /\ boundary - start < len /\ boundary <= count /\ start + len <= count + 1.
Proof.
  intros L. unfold window_starts.
  destruct (Nat.eqb_spec boundary 0), (Nat.ltb_spec count boundary), (Nat.ltb_spec count len); cbn [orb];
    try (by intros ?%not_elem_of_nil).
  intros [I1 I2]%elem_of_seq. lia.
Qed.

Lemma window_candidates_spec old new boundary len start c : len <> 0 ->
  start ∈ window_starts boundary len (length old) ->
  c ∈ window_candidates old new boundary len start ->
  1 <= c /\ line_at new c = line_at old boundary /\ is_Some (line_at old boundary).
Proof.
  intros N S. apply window_starts_spec in S as (S1 & S2 & S3 & S4); [|done].
  unfold window_candidates. destruct (take len (drop (start - 1) old)) as [|x w] eqn:W.
  { by intros ?%not_elem_of_nil. }
  intros (m & -> & I)%list_elem_of_fmap. apply find_window_spec in I as [L E].
  assert (is_Some (line_at old boundary)) as B by (apply lookup_lt_is_Some_2; lia).
  split; [lia|]. split; [|done].
  assert (forall i, i < length (x :: w) -> new !! (m - 1 + i) = old !! (start - 1 + i)) as H.
  { intros i Li. rewrite <- (lookup_drop new), <- (lookup_drop old).
    rewrite <- (lookup_take_lt _ (length (x :: w))) by done. rewrite E, <- W.
    apply lookup_take_lt. apply (f_equal length) in W. rewrite length_take in W. lia. }
  unfold line_at. replace (m + (boundary - start) - 1) with (m - 1 + (boundary - start)) by lia.
  rewrite H; [f_equal; lia|]. rewrite <- W, length_take, length_drop. lia.
Qed.

Lemma set_insert_elem x n set : x ∈ set_insert n set -> x = n \/ x ∈ set.
Proof.
  induction set as [|m set IH]; cbn -[Nat.ltb].
  - rewrite list_elem_of_singleton. auto.
  - destruct (n <? m), (n =? m); rewrite ?elem_of_cons; try tauto; intros [?|?%IH]; tauto.
Qed.

Lemma set_fold_elem x l : forall set, x ∈ foldl (fun set n => set_insert n set) set l -> x ∈ l \/ x ∈ set.
Proof.
  induction l as [|n l IH]; intros set; cbn; [auto|]. intros [I|I]%IH; [left; by right|].
  apply set_insert_elem in I as [->|I]; [left; by left|auto].
Qed.

Lemma boundary_candidates_spec old new boundary c : c ∈ boundary_candidates old new boundary ->
  1 <= c <= length new /\ line_at new c = line_at old boundary.
Proof.
  intros I. apply set_fold_elem in I as [I|I]; [|by apply not_elem_of_nil in I].
  apply list_elem_of_In, in_flat_map in I as (len & Il & I).
  apply in_flat_map in I as (start & Is & I). rewrite <- list_elem_of_In in Is, I.
  assert (len <> 0) as N by (cbn in Il; lia).
  destruct (window_candidates_spec _ _ _ _ _ _ N Is I) as (L & E & B).
  split; [|done]. rewrite <- E in B. apply lookup_lt_is_Some_1 in B. lia.
Qed.

(** * Placing one range *)

Lemma anchor_fold_spec range l : forall best d s e,
  foldl (anchor_step range) best l = Some (d, s, e) ->
  best = Some (d, s, e) \/ (s, e) ∈ l /\ s <= e.
Proof.
  induction l as [|[s' e'] l IH]; intros best d s e; cbn [foldl]; [auto|].
  intros [H|[I L]]%IH; [|right; split; [by right|done]].
  unfold anchor_step in H. destruct (Nat.ltb_spec e' s'); [auto|].
  destruct best as [current|].
  - destruct (triple_ltb _ current); [|auto]. injection H as _ <- <-. right. split; [by left|done].
  - injection H as _ <- <-. right. split; [by left|done].
Qed.

Lemma clamp_in_file r count : in_file r count -> clamp_range r count = r.
Proof. unfold in_file, clamp_range. destruct r as [s e l]. cbn. intros. f_equal; lia. Qed.

Lemma anchor_spec range old new p : anchor_rebase range old new = Some p ->
  in_file p (length new) /\ p.(LineRange.label) = range.(LineRange.label) /\
  line_at new p.(LineRange.start_line) = line_at old range.(LineRange.start_line) /\
  line_at new p.(LineRange.end_line) = line_at old range.(LineRange.end_line).
Proof.
  unfold anchor_rebase. destruct (foldl _ _ _) as [[[d s] e]|] eqn:F; [|done].
  cbn [fmap option_fmap option_map]. intros [= <-].
  apply anchor_fold_spec in F as [F|[I L]]; [done|]. apply list_elem_of_In, in_prod_iff in I as [Is Ie].
  apply list_elem_of_In, boundary_candidates_spec in Is as [Bs Es].
  apply list_elem_of_In, boundary_candidates_spec in Ie as [Be Ee].
  rewrite clamp_in_file by (unfold in_file; cbn; lia). unfold in_file. cbn. split_and!; (done || lia).
Qed.

Lemma common_prefix_spec old : forall new,
  common_prefix_len old new <= length old /\ common_prefix_len old new <= length new /\
  forall i, i < common_prefix_len old new -> old !! i = new !! i.
Proof.
  induction old as [|x old IH]; intros [|y new]; cbn [common_prefix_len length];
    try (split_and!; lia).
  destruct (String.eqb_spec x y) as [->|]; [|split_and!; lia].
  destruct (IH new) as (L1 & L2 & E). split_and!; [lia|lia|]. intros [|i] L; [done|]. apply E. lia.
Qed.

Lemma common_suffix_spec old new :
  common_suffix_len old new <= length old /\ common_suffix_len old new <= length new /\
  forall i, i < common_suffix_len old new -> old !! (length old - S i) = new !! (length new - S i).
Proof.
  unfold common_suffix_len.
  assert (forall l : list string, rev l = reverse l) as R by (intros; apply rev_alt).
  rewrite !R. destruct (common_prefix_spec (reverse old) (reverse new)) as (L1 & L2 & E).
  rewrite !length_reverse in L1, L2. split_and!; [done|done|]. intros i L. specialize (E i L).
  rewrite !reverse_lookup in E by lia. done.
Qed.

(** The range and what [place] makes of it have one label and one length, and every line of the
    one is the line of the other. *)
Definition same_lines (old new : list string) (r p : LineRange.t) : Prop :=
  p.(LineRange.end_line) - p.(LineRange.start_line) = r.(LineRange.end_line) - r.(LineRange.start_line) /\
  forall i, i <= r.(LineRange.end_line) - r.(LineRange.start_line) ->
    line_at new (p.(LineRange.start_line) + i) = line_at old (r.(LineRange.start_line) + i).

Definition outside_change (old new : list string) (r : LineRange.t) : Prop :=
  let prefix := common_prefix_len old new in
  r.(LineRange.end_line) <= prefix \/
  length old - common_suffix_len (drop prefix old) (drop prefix new) < r.(LineRange.start_line).

Definition faithful (old new : list string) (r p : LineRange.t) : Prop :=
  in_file p (length new) /\ p.(LineRange.label) = r.(LineRange.label) /\
  line_at new p.(LineRange.start_line) = line_at old r.(LineRange.start_line) /\
  line_at new p.(LineRange.end_line) = line_at old r.(LineRange.end_line) /\
  (outside_change old new r -> same_lines old new r p).

Lemma same_lines_faithful old new r p : in_file r (length old) -> in_file p (length new) ->
  p.(LineRange.label) = r.(LineRange.label) -> same_lines old new r p -> faithful old new r p.
Proof.
  intros R P L [E S]. unfold in_file in *. split_and!; try done.
  - rewrite <- (Nat.add_0_r p.(LineRange.start_line)), S by lia. by rewrite Nat.add_0_r.
  - replace p.(LineRange.end_line) with
      (p.(LineRange.start_line) + (r.(LineRange.end_line) - r.(LineRange.start_line))) by lia.
    rewrite S by lia. f_equal. lia.
Qed.

Lemma above_same old new r : in_file r (length old) ->
  r.(LineRange.end_line) <= common_prefix_len old new -> faithful old new r r.
Proof.
  intros R L. destruct (common_prefix_spec old new) as (L1 & L2 & E). unfold in_file in *.
  apply same_lines_faithful; [done|unfold in_file; lia|done|]. split; [done|].
  intros i Li. symmetry. apply E. lia.
Qed.

Lemma suffix_lookup old new n : let prefix := common_prefix_len old new in
  let suffix := common_suffix_len (drop prefix old) (drop prefix new) in
  length old - suffix < n <= length old ->
  suffix <= length new - prefix /\ suffix <= length old - prefix /\
  line_at new (n + length new - length old) = line_at old n.
Proof.
  intros prefix suffix L. destruct (common_prefix_spec old new) as (P1 & P2 & _).
  destruct (common_suffix_spec (drop prefix old) (drop prefix new)) as (S1 & S2 & E).
  fold prefix in P1, P2. fold suffix in S1, S2, E. rewrite !length_drop in *.
  split_and!; [done|done|]. specialize (E (length old - n) ltac:(lia)).
  rewrite !lookup_drop in E. unfold line_at. symmetry.
  replace (n - 1) with (prefix + (length old - prefix - S (length old - n))) by lia.
  rewrite E. f_equal. lia.
Qed.

Lemma below_same old new r : let prefix := common_prefix_len old new in
  in_file r (length old) ->
  length old - common_suffix_len (drop prefix old) (drop prefix new) < r.(LineRange.start_line) ->
  faithful old new r (clamp_range
    (shift_range r (Z.of_nat (length new) - Z.of_nat (length old))) (length new)).
Proof.
  intros prefix R L. unfold in_file in R.
  destruct (suffix_lookup old new r.(LineRange.start_line)) as (S1 & S2 & _); [subst prefix; lia|].
  destruct (common_prefix_spec old new) as (P1 & P2 & _).
  assert (forall n, r.(LineRange.start_line) <= n <= r.(LineRange.end_line) ->
    shift_line n (Z.of_nat (length new) - Z.of_nat (length old)) = n + length new - length old /\
    1 <= n + length new - length old <= length new) as Sh.
  { intros n Ln. unfold shift_line. subst prefix. destruct (Z.ltb_spec
      (Z.of_nat (length new) - Z.of_nat (length old)) 0); lia. }
  destruct (Sh r.(LineRange.start_line) ltac:(lia)) as [Es Bs].
  destruct (Sh r.(LineRange.end_line) ltac:(lia)) as [Ee Be].
  assert (in_file (shift_range r (Z.of_nat (length new) - Z.of_nat (length old))) (length new)) as I.
  { unfold in_file, shift_range. cbn [LineRange.start_line LineRange.end_line]. rewrite Es, Ee. lia. }
  rewrite clamp_in_file by done. apply same_lines_faithful; [done|done|done|].
  unfold same_lines, shift_range. cbn [LineRange.start_line LineRange.end_line]. rewrite Es, Ee.
  split; [lia|]. intros i Li.
  destruct (suffix_lookup old new (r.(LineRange.start_line) + i)) as (_ & _ & E); [subst prefix; lia|].
  rewrite <- E. f_equal. lia.
Qed.

Lemma place_faithful old new r p : in_file r (length old) -> place old new r = Some p ->
  faithful old new r p.
Proof.
  intros R. unfold place. case_match eqn:E1; [intros [= <-]; apply above_same; [done|by apply Nat.leb_le]|].
  case_match eqn:E2; [intros [= <-]; apply below_same; [done|by apply Nat.ltb_lt]|].
  intros (I & L & S & E)%anchor_spec. split_and!; try done.
  apply Nat.leb_gt in E1. apply Nat.ltb_ge in E2. unfold outside_change. lia.
Qed.

(** * Normal form *)

(** Some range with the label covers the line. *)
Definition covered (ranges : list LineRange.t) (label : option string) (n : nat) : Prop :=
  exists r, r ∈ ranges /\ r.(LineRange.label) = label /\
    r.(LineRange.start_line) <= n <= r.(LineRange.end_line).

(** Ranges [merge_ranges] leaves as they are. *)
Definition apart (a b : LineRange.t) : Prop :=
  range_key_leb a b = true /\
  (b.(LineRange.start_line) <= a.(LineRange.end_line) + 1 -> b.(LineRange.label) <> a.(LineRange.label)).

Definition normal (ranges : list LineRange.t) (count : nat) : Prop :=
  Forall (fun r => in_file r count) ranges /\ Sorted apart ranges.

Lemma range_key_spec a b : range_key_leb a b = true <->
  a.(LineRange.start_line) < b.(LineRange.start_line) \/
  a.(LineRange.start_line) = b.(LineRange.start_line) /\ a.(LineRange.end_line) <= b.(LineRange.end_line).
Proof.
  unfold range_key_leb. rewrite orb_true_iff, andb_true_iff, Nat.ltb_lt, Nat.eqb_eq, Nat.leb_le. done.
Qed.

Lemma range_key_total a b : range_key_leb a b = true \/ range_key_leb b a = true.
Proof. rewrite !range_key_spec. lia. Qed.

Lemma covered_cons r ranges label n : covered (r :: ranges) label n <->
  (r.(LineRange.label) = label /\ r.(LineRange.start_line) <= n <= r.(LineRange.end_line)) \/
  covered ranges label n.
Proof.
  unfold covered. split.
  - intros (o & [->|I]%elem_of_cons & H); [by left|right; eauto].
  - intros [H|(o & I & H)]; [exists r|exists o]; rewrite elem_of_cons; auto.
Qed.

Notation sorted_keys := (Sorted (fun a b => range_key_leb a b = true)).

Lemma merge_from_head last ranges : exists rest last',
  merge_from last ranges = last' :: rest /\
  last'.(LineRange.start_line) = last.(LineRange.start_line) /\
  last.(LineRange.end_line) <= last'.(LineRange.end_line) /\
  last'.(LineRange.label) = last.(LineRange.label).
Proof.
  revert last. induction ranges as [|r ranges IH]; intros last; cbn [merge_from]; [by eauto 7|].
  case_match; [|by eauto 7]. edestruct IH as (rest & last' & -> & E & L & Lb).
  cbn [LineRange.start_line LineRange.end_line] in *. eexists _, _. split_and!; [done|done|lia|done].
Qed.

(** The range [last] becomes when it takes [r] in. *)
Notation widened last r := (LineRange.Mk last.(LineRange.start_line)
  (Nat.max last.(LineRange.end_line) r.(LineRange.end_line)) last.(LineRange.label)).

Lemma widened_sorted last r ranges :
  sorted_keys (last :: r :: ranges) -> sorted_keys (widened last r :: ranges).
Proof.
  intros [[S H2]%Sorted_inv H1]%Sorted_inv. constructor; [done|].
  apply HdRel_inv in H1. destruct H2 as [|b ranges H2]; constructor.
  rewrite range_key_spec in *. cbn [LineRange.start_line LineRange.end_line]. lia.
Qed.

Lemma merge_covered ranges : forall last label n, sorted_keys (last :: ranges) ->
  covered (merge_from last ranges) label n <-> covered (last :: ranges) label n.
Proof.
  induction ranges as [|r ranges IH]; intros last label n S; cbn [merge_from]; [done|].
  assert (sorted_keys (r :: ranges)) as Sr by (by apply Sorted_inv in S as [? _]).
  destruct (Nat.leb_spec r.(LineRange.start_line) (last.(LineRange.end_line) + 1)) as [L|L]; cbn [andb].
  2: { rewrite covered_cons, IH by done. by rewrite <- covered_cons. }
  case_bool_decide as E.
  2: { rewrite covered_cons, IH by done. by rewrite <- covered_cons. }
  rewrite IH by (by apply widened_sorted). rewrite !covered_cons.
  apply Sorted_inv in S as [_ S%HdRel_inv%range_key_spec].
  cbn [LineRange.start_line LineRange.end_line LineRange.label]. rewrite E.
  split; [|intros [[H1 H2]|[[H1 H2]|H]]; auto; left; (split; [done|lia])].
  intros [[H1 H2]|H]; [|auto]. destruct (decide (n <= last.(LineRange.end_line))); [left|right; left];
    (split; [done|lia]).
Qed.

Lemma merge_apart ranges : forall last, sorted_keys (last :: ranges) ->
  Sorted apart (merge_from last ranges).
Proof.
  induction ranges as [|r ranges IH]; intros last S; cbn [merge_from]; [by repeat constructor|].
  destruct (_ && _) eqn:M; [apply IH; by apply widened_sorted|].
  apply Sorted_inv in S as [Sr S%HdRel_inv]. constructor; [by apply IH|].
  destruct (merge_from_head r ranges) as (rest & last' & -> & E & L & Lb). constructor. split.
  - rewrite range_key_spec in *. lia.
  - rewrite E, Lb. intros C E'. apply andb_false_iff in M as [M|M]; [apply Nat.leb_gt in M; lia|].
    by apply bool_decide_eq_false in M.
Qed.

Lemma merge_from_forall (P : LineRange.t -> Prop) ranges :
  (forall a b, P a -> P b -> range_key_leb a b = true -> P (widened a b)) ->
  forall last, sorted_keys (last :: ranges) -> Forall P (last :: ranges) -> Forall P (merge_from last ranges).
Proof.
  intros W. induction ranges as [|r ranges IH]; intros last S F; cbn [merge_from]; [done|].
  inversion F as [|? ? Pl Fr]; subst. inversion Fr as [|? ? Pr Frest]; subst.
  case_match.
  - apply IH; [by apply widened_sorted|]. constructor; [|done].
    apply W; [done|done|]. by apply Sorted_inv in S as [_ S%HdRel_inv].
  - constructor; [done|]. apply IH; [by apply Sorted_inv in S as [? _]|done].
Qed.

Lemma clamp_range_in_file r count : count <> 0 -> in_file (clamp_range r count) count.
Proof. unfold in_file, clamp_range. cbn [LineRange.start_line LineRange.end_line]. lia. Qed.

(** What is normalized covers, under each label, the lines the clamped ranges cover. *)
Lemma normalize_spec ranges count : normal (normalize_ranges ranges count) count /\
  (count <> 0 -> forall label n, covered (normalize_ranges ranges count) label n <->
     covered (map (fun r => clamp_range r count) ranges) label n).
Proof.
  unfold normalize_ranges, normal. destruct (Nat.eqb_spec count 0) as [->|N].
  { split; [repeat constructor|done]. }
  pose proof (sort_by_sorted range_key_leb range_key_total (map (fun r => clamp_range r count) ranges)) as S.
  pose proof (sort_by_perm range_key_leb (map (fun r => clamp_range r count) ranges)) as P.
  assert (Forall (fun r => in_file r count) (map (fun r => clamp_range r count) ranges)) as F.
  { apply Forall_map, Forall_forall. intros r _. by apply clamp_range_in_file. }
  rewrite P in F. set (sorted := sort_by _ _) in *.
  assert (forall label n, covered sorted label n <->
    covered (map (fun r => clamp_range r count) ranges) label n) as C.
  { intros label n. unfold covered. by setoid_rewrite P. }
  unfold merge_ranges. destruct sorted as [|r rest].
  { split; [repeat constructor|done]. } split; [split|].
  - apply merge_from_forall; [|done|done]. intros a b A B _. unfold in_file in *.
    cbn [LineRange.start_line LineRange.end_line]. lia.
  - by apply merge_apart.
  - intros _ label n. rewrite merge_covered by done. apply C.
Qed.

Lemma sort_sorted l : sorted_keys l -> sort_by range_key_leb l = l.
Proof.
  induction 1 as [|r l S IH H]; [done|]. cbn [sort_by]. rewrite IH.
  destruct H as [|r' l H]; cbn [insert_by]; [done|]. by rewrite H.
Qed.

Lemma merge_apart_id ranges : forall last, Sorted apart (last :: ranges) ->
  merge_from last ranges = last :: ranges.
Proof.
  induction ranges as [|r ranges IH]; intros last [S H]%Sorted_inv; cbn [merge_from]; [done|].
  apply HdRel_inv in H as [_ H]. destruct (Nat.leb_spec r.(LineRange.start_line) (last.(LineRange.end_line) + 1));
    cbn [andb]; [rewrite bool_decide_false by auto|]; by rewrite IH.
Qed.

Lemma normalize_normal ranges count : normal ranges count -> normalize_ranges ranges count = ranges.
Proof.
  intros [F S]. unfold normalize_ranges. destruct (Nat.eqb_spec count 0) as [->|N].
  { destruct F as [|r ranges I _]; [done|]. unfold in_file in I. lia. }
  replace (map (fun r => clamp_range r count) ranges) with ranges.
  - rewrite sort_sorted.
    + destruct ranges; [done|]. by apply merge_apart_id.
    + clear F. induction S as [|r l S IH H]; constructor; [done|].
      destruct H as [|r' l [H _]]; by constructor.
  - clear S. induction F as [|r ranges I F IH]; [done|]. cbn [map]. rewrite clamp_in_file by done. by f_equal.
Qed.

(** * The rebase *)

Lemma prefix_refl l : common_prefix_len l l = length l.
Proof. induction l as [|x l IH]; [done|]. cbn [common_prefix_len length]. by rewrite String.eqb_refl, IH. Qed.

Lemma place_refl lines r : in_file r (length lines) -> place lines lines r = Some r.
Proof.
  intros I. unfold place. rewrite prefix_refl, leb_correct by (unfold in_file in I; lia). done.
Qed.

Lemma rebase_split old new ranges :
  let oldl := normalized_lines old in
  let newl := normalized_lines new in
  let normalized := normalize_ranges ranges (length oldl) in
  let res := rebase_ranges old new ranges in
  newl <> [] -> normalized <> [] ->
  res.(SliceRebaseResult.rebased) = normalize_ranges (omap (place oldl newl) normalized) (length newl) /\
  (forall r, r ∈ res.(SliceRebaseResult.dropped) <-> r ∈ normalized /\ place oldl newl r = None).
Proof.
  intros oldl newl normalized res N1 N2. subst res. unfold rebase_ranges.
  fold oldl newl. fold normalized. destruct normalized as [|r0 rs]; [done|].
  destruct newl as [|l0 ls]; [done|]. cbn [SliceRebaseResult.rebased SliceRebaseResult.dropped].
  split; [done|]. intros r. rewrite !list_elem_of_In, filter_In. destruct (place _ _ r); naive_solver.
Qed.

(** An edit moves a slice only to lines it can account for. Every normalized slice is dropped
    or placed, within the new file, where its first and its last line are the lines they were (and
    all its lines are, for a slice outside the changed region); and the rebased slices, themselves
    in normal form, cover under each label the lines of the placed ones and no others. *)
Theorem rebase_ranges_spec (old new : string) (ranges : list LineRange.t) :
  let oldl := normalized_lines old in
  let newl := normalized_lines new in
  let normalized := normalize_ranges ranges (length oldl) in
  let res := rebase_ranges old new ranges in
  normal res.(SliceRebaseResult.rebased) (length newl) /\
  (forall r, r ∈ normalized -> r ∈ res.(SliceRebaseResult.dropped) \/
     exists p, place oldl newl r = Some p /\ faithful oldl newl r p) /\
  forall label n, covered res.(SliceRebaseResult.rebased) label n <->
    exists r p, r ∈ normalized /\ r ∉ res.(SliceRebaseResult.dropped) /\
      place oldl newl r = Some p /\ faithful oldl newl r p /\
      p.(LineRange.label) = label /\ p.(LineRange.start_line) <= n <= p.(LineRange.end_line).
Proof.
  intros oldl newl normalized res.
  destruct (decide (normalized = [])) as [E|N].
  { subst res. unfold rebase_ranges. fold oldl newl. fold normalized. rewrite E.
    split_and!; [repeat constructor|by intros r ?%not_elem_of_nil|].
    split; [by intros (r & ?%not_elem_of_nil & _)|by intros (r & p & ?%not_elem_of_nil & _)]. }
  assert (forall r, r ∈ normalized -> in_file r (length oldl)) as F.
  { apply Forall_forall. apply (normalize_spec ranges (length oldl)). }
  destruct (decide (newl = [])) as [E|N'].
  { subst res. unfold rebase_ranges. fold oldl newl. fold normalized. rewrite E.
    destruct normalized as [|r0 rs]; [done|]. cbn [SliceRebaseResult.rebased SliceRebaseResult.dropped].
    split_and!; [repeat constructor|by left|].
    split; [by intros (r & ?%not_elem_of_nil & _)|by intros (r & p & I & [] & _)]. }
  destruct (rebase_split old new ranges N' N) as [R D]. fold oldl newl normalized res in R, D.
  assert (length newl <> 0) as L by (intros E; by apply N', length_zero_iff_nil).
  destruct (normalize_spec (omap (place oldl newl) normalized) (length newl)) as [Nm C]. rewrite <- R in *.
  split_and!; [done| |].
  - intros r I. destruct (place oldl newl r) as [p|] eqn:P; [right|left; by apply D].
    exists p. split; [done|]. apply place_faithful; auto.
  - intros label n. rewrite C by done. split.
    + intros (o & (p & -> & I)%list_elem_of_fmap & H). apply list_elem_of_omap in I as (r & I & P).
      assert (faithful oldl newl r p) as Fp by (apply place_faithful; auto).
      rewrite clamp_in_file in H by apply Fp. exists r, p.
      split_and!; try done; try apply H. intros [_ P']%D. congruence.
    + intros (r & p & I & _ & P & Fp & Lb & B). exists p. split; [|done].
      apply list_elem_of_fmap. exists p. rewrite clamp_in_file by apply Fp.
      split; [done|]. apply list_elem_of_omap. eauto.
Qed.

(** An edit that changes no line changes no slice: the rebase gives back the normalized
    ranges, drops none and reports no change. *)
Theorem rebase_identity (old new : string) (ranges : list LineRange.t) :
  normalized_lines old = normalized_lines new ->
  rebase_ranges old new ranges =
    SliceRebaseResult.Mk (normalize_ranges ranges (length (normalized_lines old))) [] false.
Proof.
  intros E. unfold rebase_ranges. rewrite <- E. set (lines := normalized_lines old).
  destruct (normalize_spec ranges (length lines)) as [N _].
  set (normalized := normalize_ranges ranges (length lines)) in *.
  assert (omap (place lines lines) normalized = normalized) as O.
  { destruct N as [F _]. induction F as [|r rs I F IH]; [done|]. cbn. rewrite place_refl by done. by f_equal. }
  rewrite O, (normalize_normal normalized) by done.
  assert (List.filter (fun r => match place lines lines r with Some _ => false | None => true end)
    normalized = []) as D.
  { clear O. destruct N as [F _]. induction F as [|r rs I F IH]; [done|]. cbn [List.filter].
    by rewrite place_refl. }
  rewrite D. destruct normalized as [|r rs] eqn:Z; [done|].
  destruct lines as [|l ls]; [|by rewrite !bool_decide_true].
  destruct N as [F _]. inversion F as [|? ? I]. unfold in_file in I. cbn [length] in I. lia.
Qed.

Lemma rebase_identity_witness :
  normalized_lines ("a" +:+ crlf +:+ "b") = normalized_lines ("a" +:+ lf +:+ "b" +:+ lf) /\
  rebase_ranges ("a" +:+ crlf +:+ "b") ("a" +:+ lf +:+ "b" +:+ lf) [LineRange.Mk 2 9 None; LineRange.Mk 0 1 None] =
    SliceRebaseResult.Mk [LineRange.Mk 1 2 None] [] false.
Proof.
  split; [by vm_compute|]. rewrite rebase_identity; [by vm_compute|by vm_compute].
Defined.
