(* ===== verification/Leases.v ===== *)
(** Writer-node path leases ([nerve-workstation/src/worker/lease.rs]) and the turns that take
    them ([flow/driver/node.rs]): a writer's turn holds the lock of its scope, a reader's turn
    holds nothing. *)
From stdpp Require Import gmap strings.
From S2P Require Import Prelude FlowDefs.
Open Scope nerve_scope.

Definition is_writer (autonomy : DelegateAutonomy.t) : bool :=
  match autonomy with
  | DelegateAutonomy.Edit | DelegateAutonomy.Full => true
  | DelegateAutonomy.ReadOnly => false
  end.

(** The registry: the lock of each scope, a lock being known by its number. *)
Module PathLeases.
Record t := Mk { scopes : gmap string nat }.

Definition new : t := Mk ∅.

Definition scope_key (root : option string) : string := default "<root>" root.

(** Runs under the registry's own lock; an unknown scope gets a lock of its own. *)
Definition lease_for (l : t) (autonomy : DelegateAutonomy.t) (root : option string) : t * option nat :=
  if negb (is_writer autonomy) then (l, None)
  else
    let key := scope_key root in
    match l.(scopes) !! key with
    | Some scope => (l, Some scope)
    | None =>
        let scope := size l.(scopes) in
        (Mk (<[key := scope]> l.(scopes)), Some scope)
    end.
End PathLeases.

(** How far [run_node] has come in its thread. *)
Module Turn.
Inductive phase :=
  | Starting
  | Waiting (scope : nat)
  | Running (lease : option nat)
  | Finished.
Record t := Mk { autonomy : DelegateAutonomy.t; root : option string; at_ : phase }.
Definition with_phase (turn : t) (p : phase) : t := Mk turn.(autonomy) turn.(root) p.
End Turn.

(** The registry, the turn that holds each lock, and the turns of the wave. *)
Module World.
Record t := Mk { leases : PathLeases.t; held : gmap nat nat; turns : list Turn.t }.

Definition start (turns : list (DelegateAutonomy.t * option string)) : t :=
  Mk PathLeases.new ∅ (map (fun '(autonomy, root) => Turn.Mk autonomy root Turn.Starting) turns).

Definition release (held : gmap nat nat) (lease : option nat) : gmap nat nat :=
  match lease with Some scope => delete scope held | None => held end.

(** One step of one thread: it looks its lease up, locks it when nobody holds it, or ends its turn,
    by returning or by a panic ([lock_recover] takes a poisoned lock all the same). *)
Inductive step : t -> t -> Prop :=
  | step_lookup w i turn leases lease :
      w.(turns) !! i = Some turn -> turn.(Turn.at_) = Turn.Starting ->
      PathLeases.lease_for w.(World.leases) turn.(Turn.autonomy) turn.(Turn.root) = (leases, lease) ->
      step w (Mk leases w.(held) (<[i := Turn.with_phase turn
        (match lease with Some scope => Turn.Waiting scope | None => Turn.Running None end)]> w.(turns)))
  | step_lock w i turn scope :
      w.(turns) !! i = Some turn -> turn.(Turn.at_) = Turn.Waiting scope ->
      w.(held) !! scope = None ->
      step w (Mk w.(leases) (<[scope := i]> w.(held))
        (<[i := Turn.with_phase turn (Turn.Running (Some scope))]> w.(turns)))
  | step_finish w i turn lease :
      w.(turns) !! i = Some turn -> turn.(Turn.at_) = Turn.Running lease ->
      step w (Mk w.(leases) (release w.(held) lease)
        (<[i := Turn.with_phase turn Turn.Finished]> w.(turns))).
End World.

(** * The invariant *)

Definition writes (turn : Turn.t) : Prop := is_writer turn.(Turn.autonomy) = true.
Definition running (turn : Turn.t) : Prop := exists lease, turn.(Turn.at_) = Turn.Running lease.
Definition finished (turn : Turn.t) : Prop := turn.(Turn.at_) = Turn.Finished.

(** Distinct scopes have distinct locks, numbered below the size of the registry. *)
Record scopes_ok (scopes : gmap string nat) : Prop := {
  scopes_bound key scope : scopes !! key = Some scope -> scope < size scopes;
  scopes_inj key key' scope : scopes !! key = Some scope -> scopes !! key' = Some scope -> key = key' }.

Definition phase_ok (scopes : gmap string nat) (held : gmap nat nat) (i : nat) (turn : Turn.t) : Prop :=
  match turn.(Turn.at_) with
  | Turn.Starting | Turn.Finished => True
  | Turn.Waiting scope =>
      writes turn /\ scopes !! PathLeases.scope_key turn.(Turn.root) = Some scope
  | Turn.Running None => ~ writes turn
  | Turn.Running (Some scope) =>
      writes turn /\ scopes !! PathLeases.scope_key turn.(Turn.root) = Some scope /\
      held !! scope = Some i
  end.

Record inv (w : World.t) : Prop := {
  inv_scopes : scopes_ok w.(World.leases).(PathLeases.scopes);
  inv_turns i turn : w.(World.turns) !! i = Some turn ->
    phase_ok w.(World.leases).(PathLeases.scopes) w.(World.held) i turn;
  inv_held scope i : w.(World.held) !! scope = Some i ->
    exists turn, w.(World.turns) !! i = Some turn /\ turn.(Turn.at_) = Turn.Running (Some scope) }.

Lemma lease_for_spec l autonomy root l' lease : scopes_ok l.(PathLeases.scopes) ->
  PathLeases.lease_for l autonomy root = (l', lease) ->
  scopes_ok l'.(PathLeases.scopes) /\ l.(PathLeases.scopes) ⊆ l'.(PathLeases.scopes) /\
  match lease with
  | Some scope => is_writer autonomy = true /\
      l'.(PathLeases.scopes) !! PathLeases.scope_key root = Some scope
  | None => is_writer autonomy = false
  end.
Proof.
  intros [B I]. unfold PathLeases.lease_for. destruct (is_writer autonomy); cbn [negb]; [|by intros [= <- <-]].
  destruct (_ !! _) as [scope|] eqn:E; intros [= <- <-]; [done|]. cbn [PathLeases.scopes].
  split_and!; [split|by apply insert_subseteq|done|apply lookup_insert_eq].
  - intros key scope H. rewrite map_size_insert_None by done.
    apply lookup_insert_Some in H as [[_ <-]|[_ H]]; [lia|]. apply B in H. lia.
  - intros key key' scope H H'.
    apply lookup_insert_Some in H as [[<- <-]|[N H]], H' as [[<- E']|[N' H']]; try done.
    + apply B in H'. lia.
    + apply B in H. lia.
    + by eapply I.
Qed.

Lemma inv_start turns : inv (World.start turns).
Proof.
  split; cbn.
  - split; [intros ??|intros ???]; by rewrite lookup_empty.
  - intros i turn H. apply list_lookup_fmap_Some in H as ([a r] & -> & _). done.
  - intros ??. by rewrite lookup_empty.
Qed.

Lemma phase_ok_mono scopes scopes' held held' i turn : scopes ⊆ scopes' ->
  (forall scope, turn.(Turn.at_) = Turn.Running (Some scope) -> held !! scope = held' !! scope) ->
  phase_ok scopes held i turn -> phase_ok scopes' held' i turn.
Proof.
  intros S H. unfold phase_ok. destruct turn.(Turn.at_) as [|scope|[scope|]|]; try done.
  - intros [W K]. split; [done|]. by eapply lookup_weaken.
  - intros (W & K & Hd). split_and!; [done|by eapply lookup_weaken|]. by rewrite <- H.
Qed.

Lemma inv_step w w' : inv w -> World.step w w' -> inv w'.
Proof.
  intros I St. revert I.
  destruct St as [w i turn leases lease Li P E|w i turn scope Li P Free|w i turn lease Li P]; intros [S T H].
  - destruct (lease_for_spec _ _ _ _ _ S E) as (S' & Sub & L). split; cbn; [done| |].
    + intros j turn' Lj. apply list_lookup_insert_Some in Lj as [(<- & <- & _)|[N Lj]].
      * unfold phase_ok, writes. cbn. destruct lease; [done|by rewrite L].
      * eapply phase_ok_mono; [done|done|by apply T].
    + intros scope j Hj. destruct (H _ _ Hj) as (turn' & Lj & R). exists turn'. split; [|done].
      rewrite list_lookup_insert_ne; [done|]. intros <-. simplify_eq. congruence.
  - pose proof (T _ _ Li) as Pi. unfold phase_ok in Pi. rewrite P in Pi. split; cbn; [done| |].
    + intros j turn' Lj. apply list_lookup_insert_Some in Lj as [(<- & <- & _)|[N Lj]].
      * unfold phase_ok, writes. cbn. split_and!; [apply Pi|apply Pi|apply lookup_insert_eq].
      * eapply phase_ok_mono; [done| |by apply T]. intros scope' R. rewrite lookup_insert_ne; [done|].
        intros <-. pose proof (T _ _ Lj) as Pj. unfold phase_ok in Pj. rewrite R in Pj.
        destruct Pj as (_ & _ & Pj). congruence.
    + intros scope' j Hj. apply lookup_insert_Some in Hj as [[<- <-]|[N Hj]].
      * eexists. split; [by eapply list_lookup_insert_eq, lookup_lt_Some|done].
      * destruct (H _ _ Hj) as (turn' & Lj & R). exists turn'. split; [|done].
        rewrite list_lookup_insert_ne; [done|]. intros <-. simplify_eq. congruence.
  - pose proof (T _ _ Li) as Pi. unfold phase_ok in Pi. rewrite P in Pi. split; cbn; [done| |].
    + intros j turn' Lj. apply list_lookup_insert_Some in Lj as [(<- & <- & _)|[N Lj]]; [done|].
      eapply phase_ok_mono; [done| |by apply T]. intros scope' R.
      destruct lease as [scope|]; [|done]. cbn. rewrite lookup_delete_ne; [done|]. intros <-.
      pose proof (T _ _ Lj) as Pj. unfold phase_ok in Pj. rewrite R in Pj. naive_solver congruence.
    + intros scope' j Hj. assert (w.(World.held) !! scope' = Some j /\ Some scope' <> lease) as [Hj' N].
      { destruct lease as [scope|]; cbn in Hj; [|done]. apply lookup_delete_Some in Hj as [? ?]. split; congruence. }
      destruct (H _ _ Hj') as (turn' & Lj & R). exists turn'. split; [|done].
      rewrite list_lookup_insert_ne; [done|]. intros <-. simplify_eq. congruence.
Qed.

Lemma inv_reachable turns w : rtc World.step (World.start turns) w -> inv w.
Proof.
  intros R. pose proof (inv_start turns) as I. induction R as [|w w' w'' St R IH]; [done|].
  apply IH. by eapply inv_step.
Qed.

(** * Exclusion and progress *)

(** C35: Two writers are never at work on one scope. In every reachable state of a wave, whatever the
    order its threads move in and whether turns return or panic, two running turns of writers
    have different scopes; and a turn that waits is a writer's, so readers are never blocked. *)
Theorem lease_exclusion (turns : list (DelegateAutonomy.t * option string)) (w : World.t)
    (R : rtc World.step (World.start turns) w) :
  (forall i j a b, w.(World.turns) !! i = Some a -> w.(World.turns) !! j = Some b -> i <> j ->
     writes a -> writes b -> running a -> running b ->
     PathLeases.scope_key a.(Turn.root) <> PathLeases.scope_key b.(Turn.root)) /\
  (forall i a scope, w.(World.turns) !! i = Some a -> a.(Turn.at_) = Turn.Waiting scope -> writes a).
Proof.
  apply inv_reachable in R as [S T H]. split.
  - intros i j a b La Lb N Wa Wb [la Ra] [lb Rb] E. pose proof (T _ _ La) as Pa. pose proof (T _ _ Lb) as Pb.
    unfold phase_ok in Pa, Pb. rewrite Ra in Pa. rewrite Rb in Pb.
    destruct la as [sa|], lb as [sb|]; [|tauto..]. destruct Pa as (_ & Ka & Ha), Pb as (_ & Kb & Hb).
    rewrite E in Ka. assert (sa = sb) as -> by congruence. congruence.
  - intros i a scope La Ra. pose proof (T _ _ La) as Pa. unfold phase_ok in Pa. rewrite Ra in Pa. apply Pa.
Qed.

(** A writer at work, a reader at work, and a second writer on the scope that waits. *)
Definition busy_wave : World.t :=
  World.Mk (PathLeases.Mk {["/p" := 0]}) {[0 := 0]}
    [Turn.Mk DelegateAutonomy.Edit (Some "/p") (Turn.Running (Some 0));
     Turn.Mk DelegateAutonomy.ReadOnly (Some "/p") (Turn.Running None);
     Turn.Mk DelegateAutonomy.Full (Some "/p") (Turn.Waiting 0)].

Definition busy_start : World.t := World.start
  [(DelegateAutonomy.Edit, Some "/p"); (DelegateAutonomy.ReadOnly, Some "/p");
   (DelegateAutonomy.Full, Some "/p")].

Ltac lookup_step n :=
  eapply nsteps_l; [eapply World.step_lookup with (i := n); [reflexivity|reflexivity|reflexivity]|].

Lemma busy_reachable : nsteps World.step 4 busy_start busy_wave.
Proof.
  lookup_step 0.
  eapply nsteps_l; [eapply World.step_lock with (i := 0); reflexivity|].
  lookup_step 1. lookup_step 2. apply nsteps_O.
Qed.

Lemma lease_exclusion_witness :
  rtc World.step busy_start busy_wave /\
  writes (Turn.Mk DelegateAutonomy.Full (Some "/p") (Turn.Waiting 0)).
Proof.
  assert (rtc World.step busy_start busy_wave) as R by (eapply rtc_nsteps_2, busy_reachable).
  split; [exact R|]. refine (proj2 (lease_exclusion _ busy_wave R) 2 _ 0 _ _); reflexivity.
Defined.

Definition to_go (turn : Turn.t) : nat :=
  match turn.(Turn.at_) with
  | Turn.Starting => 3 | Turn.Waiting _ => 2 | Turn.Running _ => 1 | Turn.Finished => 0
  end.

Definition work_left (w : World.t) : nat := sum_list_with to_go w.(World.turns).

Lemma sum_insert (f : Turn.t -> nat) l i x y : l !! i = Some x -> f y < f x ->
  sum_list_with f (<[i := y]> l) < sum_list_with f l.
Proof.
  revert i. induction l as [|z l IH]; intros [|i] L F; [done|done| |].
  - injection L as ->. cbn. lia.
  - specialize (IH i L F). change (f z + sum_list_with f (<[i:=y]> l) < f z + sum_list_with f l). lia.
Qed.

Lemma step_works w w' : World.step w w' -> work_left w' < work_left w.
Proof.
  unfold work_left. destruct 1 as [w i turn leases lease Li P E|w i turn scope Li P Free|w i turn lease Li P];
    cbn [World.turns]; eapply sum_insert; try done; unfold to_go; rewrite P; cbn; [destruct lease|..]; cbn; lia.
Qed.

(** A wave with an unfinished turn can move. *)
Lemma can_step w : inv w -> Forall finished w.(World.turns) \/ exists w', World.step w w'.
Proof.
  intros [S T H].
  destruct (decide (Exists (fun turn => to_go turn = 3 \/ to_go turn = 1) w.(World.turns))) as [E|E].
  - right. apply Exists_exists in E as (turn & I & E). apply list_elem_of_lookup in I as [i Li].
    unfold to_go in E. destruct turn.(Turn.at_) eqn:P; try (exfalso; lia).
    + destruct (PathLeases.lease_for w.(World.leases) turn.(Turn.autonomy) turn.(Turn.root)) as [l lease] eqn:L.
      eexists. by eapply World.step_lookup.
    + eexists. by eapply World.step_finish.
  - rewrite <- Forall_Exists_neg in E.
    destruct (decide (Exists (fun turn => to_go turn = 2) w.(World.turns))) as [E2|E2].
    + right. apply Exists_exists in E2 as (turn & I & E2). apply list_elem_of_lookup in I as [i Li].
      unfold to_go in E2. destruct turn.(Turn.at_) as [|scope| |] eqn:P; try done.
      eexists. eapply World.step_lock; [done..|]. destruct (_ !! scope) as [j|] eqn:Hj; [|done]. exfalso.
      destruct (H _ _ Hj) as (turn' & Lj & Rj). rewrite Forall_lookup in E.
      apply (E _ _ Lj). unfold to_go. rewrite Rj. by right.
    + rewrite <- Forall_Exists_neg in E2. left. apply Forall_lookup. intros i turn Li.
      rewrite Forall_lookup in E, E2. specialize (E _ _ Li). specialize (E2 _ _ Li). cbn in E, E2.
      unfold finished, to_go in *. destruct turn.(Turn.at_); tauto.
Qed.

(** C36: Leases cannot deadlock a wave. No run of a wave of [n] turns is longer than [3 n] steps of
    its threads, and one that cannot go on has finished every turn and holds no lock. *)
Theorem lease_progress (turns : list (DelegateAutonomy.t * option string)) (k : nat) (w : World.t)
    (R : nsteps World.step k (World.start turns) w) :
  k <= 3 * length turns /\
  (Forall finished w.(World.turns) /\ w.(World.held) = ∅ \/ exists w', World.step w w').
Proof.
  assert (work_left (World.start turns) = 3 * length turns) as W.
  { clear R. unfold work_left. cbn [World.start World.turns]. induction turns as [|[a r] turns IH]; [done|].
    cbn [map sum_list_with length]. rewrite IH. cbn. lia. }
  assert (k + work_left w <= work_left (World.start turns)) as B.
  { clear W. induction R as [|k w w' w'' St R IH]; [done|]. apply step_works in St. lia. }
  split; [lia|]. assert (inv w) as I by (by eapply inv_reachable, rtc_nsteps_2).
  destruct (can_step w I) as [F|]; [left|by right]. split; [done|].
  apply map_empty. intros scope. destruct (_ !! scope) as [i|] eqn:Hi; [|done].
  destruct (inv_held _ I _ _ Hi) as (turn & Li & P). rewrite Forall_lookup in F.
  specialize (F _ _ Li). unfold finished in F. congruence.
Qed.

Lemma lease_progress_witness :
  nsteps World.step 4 busy_start busy_wave /\ 4 <= 9 /\ exists w', World.step busy_wave w'.
Proof.
  split; [exact busy_reachable|]. destruct (lease_progress _ 4 busy_wave busy_reachable) as [B [[_ H]|E]].
  - exfalso. apply (f_equal (fun m => m !! 0)) in H. discriminate H.
  - split; [exact B|exact E].
Defined.

(** * The order of writers *)

(** A turn runs from start to end while the other threads wait. *)
Lemma solo_run w i turn l scope : w.(World.turns) !! i = Some turn -> turn.(Turn.at_) = Turn.Starting ->
  PathLeases.lease_for w.(World.leases) turn.(Turn.autonomy) turn.(Turn.root) = (l, Some scope) ->
  w.(World.held) !! scope = None ->
  exists held, rtc World.step w (World.Mk l held (<[i := Turn.with_phase turn Turn.Finished]> w.(World.turns))).
Proof.
  intros Li P L Free. assert (i < length w.(World.turns)) as B by (by eapply lookup_lt_Some).
  eexists. eapply rtc_l; [by eapply World.step_lookup|].
  eapply rtc_l; [eapply World.step_lock with (i := i); [by apply list_lookup_insert_eq|done|done]|].
  eapply rtc_l; [eapply World.step_finish with (i := i);
    [cbn [World.turns]; rewrite list_insert_insert_eq; by apply list_lookup_insert_eq|reflexivity]|].
  cbn [World.turns World.leases]. rewrite !list_insert_insert_eq. apply rtc_refl.
Qed.

(** Leases serialize writers but do not order them: of two writers on one scope either, the one
    declared last included, can finish its turn before the other has started, so the order of their
    mutations is not a function of declared order. *)
Theorem lease_order_open (root : option string) (a b : DelegateAutonomy.t) (first : nat)
    (Wa : is_writer a = true) (Wb : is_writer b = true) (F : first < 2) :
  exists w, rtc World.step (World.start [(a, root); (b, root)]) w /\
    Turn.at_ <$> w.(World.turns) !! first = Some Turn.Finished /\
    Turn.at_ <$> w.(World.turns) !! (1 - first) = Some Turn.Starting.
Proof.
  assert (forall autonomy, is_writer autonomy = true -> exists l,
    PathLeases.lease_for PathLeases.new autonomy root = (l, Some 0)) as L.
  { intros autonomy W. unfold PathLeases.lease_for. rewrite W. by eexists. }
  assert (first = 0 \/ first = 1) as [-> | ->] by lia.
  - destruct (L a Wa) as [l E].
    edestruct (solo_run (World.start [(a, root); (b, root)]) 0) as [held R]; [reflexivity|reflexivity|exact E|reflexivity|].
    eexists. split; [exact R|]. by split.
  - destruct (L b Wb) as [l E].
    edestruct (solo_run (World.start [(a, root); (b, root)]) 1) as [held R]; [reflexivity|reflexivity|exact E|reflexivity|].
    eexists. split; [exact R|]. by split.
Qed.

Lemma lease_order_open_witness :
  is_writer DelegateAutonomy.Edit = true /\ is_writer DelegateAutonomy.Full = true /\ 1 < 2 /\
  exists w, rtc World.step (World.start [(DelegateAutonomy.Edit, Some "/p"); (DelegateAutonomy.Full, Some "/p")]) w /\
    Turn.at_ <$> w.(World.turns) !! 1 = Some Turn.Finished /\
    Turn.at_ <$> w.(World.turns) !! 0 = Some Turn.Starting.
Proof.
  split_and!; [done|done|lia|].
  exact (lease_order_open (Some "/p") DelegateAutonomy.Edit DelegateAutonomy.Full 1 eq_refl eq_refl
    ltac:(lia)).
Defined.
