(* ===== verification/History.v ===== *)
(** The agent's conversation ([nerve-agent/src/message.rs]) and how it is kept within a model's
    context window: the capability table ([orchestrator/capabilities.rs]), the stub pass
    ([compaction.rs]) and the recovery from an overflow ([overflow.rs]).

    Proved below. Compaction elides the newest old tool outputs and no more than it must; the recovery from an
    overflow elides one. *)
From Stdlib Require Import SpecFloat.
From S2P Require Import Prelude Text Json FlowDefs Tape.
(** * Messages *)

Module Role.
Inductive t := System | User | Assistant | Tool.
#[global] Instance eq_dec : EqDecision t.
Proof. solve_decision. Defined.
End Role.

Module ToolSpec.
Record t := Mk { name : string; description : string; input_schema : json }.
End ToolSpec.

Module ToolCall.
Record t := Mk { id : string; name : string; arguments : json }.
End ToolCall.

Module Reasoning.
Record t := Mk { text : string; signature : option string }.
End Reasoning.

Module Message.
Record t := Mk {
  role : Role.t;
  content : string;
  reasoning : option Reasoning.t;
  tool_calls : list ToolCall.t;
  tool_call_id : option string;
  name : option string;
}.

Definition plain (role : Role.t) (content : string) : t := Mk role content None [] None None.
Definition user (content : string) : t := plain Role.User content.
Definition tool (tool_call_id name content : string) : t :=
  Mk Role.Tool content None [] (Some tool_call_id) (Some name).
Definition with_content (m : t) (content : string) : t :=
  Mk m.(role) content m.(reasoning) m.(tool_calls) m.(tool_call_id) m.(name).
End Message.

Module FinishReason.
Inductive t := Stop | ToolUse | Length | Other (reason : string).
#[global] Instance eq_dec : EqDecision t.
Proof. solve_decision. Defined.
End FinishReason.

Module ChatDelta.
Inductive t := Text (text : string) | Reasoning (text : string) | ToolCall (call : ToolCall.t).
End ChatDelta.

Module ChatResponse.
Record t := Mk {
  content : string;
  reasoning : option string;
  reasoning_signature : option string;
  tool_calls : list ToolCall.t;
  finish_reason : FinishReason.t;
  usage : Usage.t;
}.
End ChatResponse.

Abbreviation f32 := spec_float.

Module ChatRequest.
Record t := Mk {
  model : string;
  system : option string;
  messages : list Message.t;
  tools : list ToolSpec.t;
  temperature : option f32;
  max_tokens : option u32;
  reasoning_effort : option string;
}.
End ChatRequest.

Module AgentError.
Inductive t :=
  | Http (msg : string)
  | Provider (msg : string)
  | Auth (msg : string)
  | Parse (msg : string)
  | Tool (msg : string)
  | Config (msg : string)
  | Cancelled
  | Unimplemented.

Definition display (e : t) : string :=
  match e with
  | Http msg => "http error: " +:+ msg
  | Provider msg => "provider error: " +:+ msg
  | Auth msg => "auth error: " +:+ msg
  | Parse msg => "parse error: " +:+ msg
  | Tool msg => "tool error: " +:+ msg
  | Config msg => "config error: " +:+ msg
  | Cancelled => "cancelled"
  | Unimplemented => "unimplemented"
  end.
End AgentError.

(** * Capabilities *)

Module ModelCapabilities.
Record t := Mk { context_window : u64; max_output_tokens : u32 }.
Definition sized (window output : N) : t := Mk (wrap 64 window) (wrap 32 output).
Definition default : t := sized 128000 8192.

Definition TABLE : list (string * t) :=
  [("opus-4-8[1m]", sized 1000000 32000); ("haiku", sized 200000 8192); ("sonnet", sized 200000 64000);
   ("opus", sized 200000 32000); ("claude", sized 200000 32000); ("gpt-5", sized 400000 128000);
   ("gpt-4.1", sized 1000000 32768); ("gpt-4o", sized 128000 16384); ("grok", sized 256000 32768)].

(** The first needle the lowercased model holds. *)
Definition for_model (model : string) : t :=
  match List.find (fun '(needle, _) => contains_str needle (lower model)) TABLE with
  | Some (_, caps) => caps
  | None => default
  end.
End ModelCapabilities.

(** * Compaction *)

Definition HISTORY_KEEP_PREFIX : nat := 2.
Definition HISTORY_KEEP_RECENT : nat := 8.
Definition ELIDED_TOOL_OUTPUT : string := "[tool output elided to fit context]".
(** [0.70], as the nearest binary64. *)
Definition COMPACT_FRACTION : f64 := S754_finite false 6305039478318694 (-53).

(** [as f64] on a [usize] and [as usize] on a float, which truncates and saturates. *)
Definition f64_of_u64 (n : u64) : f64 := binary_normalize 53 1024 (Z.of_N (uval n)) 0 false.

Definition u64_of_f64 (x : f64) : u64 :=
  match x with
  | S754_finite false m e =>
      let z := (if 0 <=? e then Z.pos m * 2 ^ e else Z.pos m / 2 ^ (- e))%Z in
      wrap 64 (N.min (Z.to_N z) (2 ^ 64 - 1))
  | S754_infinity false => wrap 64 (2 ^ 64 - 1)
  | _ => wrap 64 0
  end.

Definition compact_threshold_tokens (caps : ModelCapabilities.t) : N :=
  let window := caps.(ModelCapabilities.context_window) in
  let soft := u64_of_f64 (fmul (f64_of_u64 window) COMPACT_FRACTION) in
  let reserve := uval caps.(ModelCapabilities.max_output_tokens) in
  N.max (uval soft - reserve) (uval window / 4).

Definition middle_window (len : nat) : option (nat * nat) :=
  if len <? HISTORY_KEEP_RECENT then None
  else
    let recent_end := len - HISTORY_KEEP_RECENT in
    if recent_end <=? HISTORY_KEEP_PREFIX then None else Some (HISTORY_KEEP_PREFIX, recent_end).

Definition is_elidable_tool (msg : Message.t) : bool :=
  bool_decide (msg.(Message.role) = Role.Tool) &&
  negb (String.eqb msg.(Message.content) ELIDED_TOOL_OUTPUT).

Definition elide (msg : Message.t) : Message.t := Message.with_content msg ELIDED_TOOL_OUTPUT.

(** [rposition]: the last index whose message satisfies [p]. *)
Fixpoint rposition (p : Message.t -> bool) (l : list Message.t) : option nat :=
  match l with
  | [] => None
  | m :: l =>
      match rposition p l with
      | Some i => Some (S i)
      | None => if p m then Some 0 else None
      end
  end.

Section tokens.
Context `{SerdeJson}.
(** The tokenizer of the [tiktoken_rs] package, when its tables load. *)
Context (tokenizer : option (string -> N)).

Definition estimate_tokens (text : string) : N :=
  let chars := N.of_nat (count_chars text) in
  if (chars =? 0)%N then 0%N else N.max ((chars + 3) / 4) 1.

Definition count_tokens (text : string) : N :=
  match tokenizer with Some encode => encode text | None => estimate_tokens text end.

Definition message_tokens (msg : Message.t) : N :=
  (foldl (fun tokens call =>
      tokens + count_tokens call.(ToolCall.name) + count_tokens (to_vec call.(ToolCall.arguments)))
    (count_tokens msg.(Message.content)) msg.(Message.tool_calls) + 4)%N.

Definition history_tokens (history : list Message.t) : N :=
  foldl N.add 0%N (map message_tokens history).

(** The [while] loop; each round elides one message of the middle. *)
Fixpoint compact_loop (fuel : nat) (middle_start middle_end : nat) (history : list Message.t)
    (threshold_tokens : N) : list Message.t :=
  match fuel with
  | 0 => history
  | S fuel =>
      if (history_tokens history <=? threshold_tokens)%N then history
      else
        match rposition is_elidable_tool
                (take (middle_end - middle_start) (drop middle_start history)) with
        | None => history
        | Some offset =>
            compact_loop fuel middle_start middle_end
              (alter elide (middle_start + offset) history) threshold_tokens
        end
  end.

Definition compact_history (history : list Message.t) (threshold_tokens : N) : list Message.t :=
  match middle_window (length history) with
  | None => history
  | Some (middle_start, middle_end) =>
      compact_loop (S (length history)) middle_start middle_end history threshold_tokens
  end.
End tokens.

(** * Overflow *)

Definition OVERFLOW_MARKERS : list string :=
  ["context_length_exceeded"; "context length exceeded"; "maximum context length";
   "prompt is too long"; "too many tokens"; "exceeds the maximum"; "reduce the length";
   "input is too long"].

Definition is_context_overflow (error : AgentError.t) : bool :=
  match error with
  | AgentError.Http msg | AgentError.Provider msg =>
      contains_str "http 413:" (lower msg) ||
      existsb (fun marker => contains_str marker (lower msg)) OVERFLOW_MARKERS
  | _ => false
  end.

Definition is_truncatable (msg : Message.t) : bool :=
  bool_decide (msg.(Message.role) = Role.Tool) &&
  negb (String.eqb msg.(Message.content) ELIDED_TOOL_OUTPUT) &&
  negb (String.eqb msg.(Message.content) EmptyString).

(** [max_by_key]: of the largest, the last. *)
Fixpoint largest_from (i : nat) (best : option (nat * nat)) (l : list Message.t) : option (nat * nat) :=
  match l with
  | [] => best
  | m :: l =>
      let len := String.length m.(Message.content) in
      let best :=
        if is_truncatable m then
          match best with
          | Some (j, size) => if len <? size then best else Some (i, len)
          | None => Some (i, len)
          end
        else best in
      largest_from (S i) best l
  end.

(** [None] when nothing can be truncated. *)
Definition truncate_largest_tool_result (history : list Message.t) : option (list Message.t) :=
  (fun '(idx, _) => alter elide idx history) <$> largest_from 0 None history.

Open Scope nerve_scope.

(** The history with the elidable messages from [cut] to [end_] elided. *)
Definition elided (cut end_ : nat) (history : list Message.t) : list Message.t :=
  imap (fun i msg => if (cut <=? i) && (i <? end_) && is_elidable_tool msg then elide msg else msg) history.

Lemma elided_lookup cut end_ history i : elided cut end_ history !! i =
  (fun msg => if (cut <=? i) && (i <? end_) && is_elidable_tool msg then elide msg else msg) <$> history !! i.
Proof. apply list_lookup_imap. Qed.

Lemma elide_not_elidable msg : is_elidable_tool (elide msg) = false.
Proof. unfold is_elidable_tool, elide. cbn. by rewrite andb_false_r. Qed.

Lemma elided_end end_ history : elided end_ end_ history = history.
Proof.
  apply list_eq. intros i. rewrite elided_lookup. destruct (history !! i); [|done]. cbn [fmap option_fmap option_map].
  destruct (Nat.leb_spec end_ i), (Nat.ltb_spec i end_); cbn [andb]; (done || lia).
Qed.

Lemma rposition_Some p l i : rposition p l = Some i ->
  (exists m, l !! i = Some m /\ p m = true) /\ forall j m, i < j -> l !! j = Some m -> p m = false.
Proof.
  revert i. induction l as [|x l IH]; intros i; cbn [rposition]; [done|].
  destruct (rposition p l) as [k|] eqn:R.
  - intros [= <-]. destruct (IH k eq_refl) as [H1 H2]. split; [exact H1|].
    intros [|j] m L Lj; [lia|]. apply (H2 j); [lia|done].
  - destruct (p x) eqn:X; [|done]. intros [= <-]. split; [eauto|].
    intros [|j] m L Lj; [lia|]. cbn in Lj. clear IH L. revert j Lj R.
    induction l as [|y l IH]; intros j Lj R; [done|]. cbn [rposition] in R.
    destruct (rposition p l) eqn:R'; [done|]. destruct (p y) eqn:Y; [done|].
    destruct j as [|j]; [cbn in Lj; congruence|]. by apply (IH j).
Qed.

Lemma rposition_None p l : rposition p l = None -> forall j m, l !! j = Some m -> p m = false.
Proof.
  induction l as [|y l IH]; intros R j m Lj; [done|]. cbn [rposition] in R.
  destruct (rposition p l) eqn:R'; [done|]. destruct (p y) eqn:Y; [done|].
  destruct j as [|j]; [cbn in Lj; congruence|]. by apply (IH eq_refl j).
Qed.

Lemma middle_lookup start end_ (l : list Message.t) j : start + j < end_ ->
  take (end_ - start) (drop start l) !! j = l !! (start + j).
Proof. intros L. rewrite lookup_take_lt by lia. apply lookup_drop. Qed.

Section compaction.
Context `{SerdeJson} (tokenizer : option (string -> N)).

(** Nothing in the middle can be elided any more. *)
Definition spent (start end_ : nat) (history : list Message.t) : Prop :=
  forall i msg, start <= i < end_ -> history !! i = Some msg -> is_elidable_tool msg = false.

Lemma compact_loop_spec start end_ history threshold fuel : forall cut,
  start <= cut <= end_ -> cut - start < fuel ->
  exists cut', start <= cut' <= cut /\
    compact_loop tokenizer fuel start end_ (elided cut end_ history) threshold = elided cut' end_ history /\
    ((history_tokens tokenizer (elided cut' end_ history) <= threshold)%N \/
     spent start end_ (elided cut' end_ history)) /\
    forall c, cut' < c <= cut -> (threshold < history_tokens tokenizer (elided c end_ history))%N.
Proof.
  induction fuel as [|fuel IH]; intros cut B F; [lia|]. cbn [compact_loop].
  destruct (N.leb_spec (history_tokens tokenizer (elided cut end_ history)) threshold) as [T|T].
  { exists cut. split_and!; [lia|lia|done|by left|lia]. }
  destruct (rposition _ _) as [offset|] eqn:R.
  2: { exists cut. split_and!; [lia|lia|done| |lia]. right. intros i msg Bi Li.
       eapply (rposition_None _ _ R (i - start)). rewrite middle_lookup by lia. rewrite <- Li. f_equal. lia. }
  apply rposition_Some in R as [(msg & Lo & P) Last].
  assert (start + offset < end_) as Bo.
  { apply lookup_lt_Some in Lo. rewrite length_take in Lo. lia. }
  rewrite middle_lookup in Lo by done. rewrite elided_lookup in Lo.
  destruct (history !! (start + offset)) as [m|] eqn:Lm; [|done]. cbn [fmap option_fmap option_map] in Lo.
  assert (start + offset < cut) as Lt.
  { destruct (Nat.leb_spec cut (start + offset)) as [L|L]; [|done]. exfalso. injection Lo as <-. revert P.
    rewrite (proj2 (Nat.ltb_lt _ _) Bo). cbn [andb].
    destruct (is_elidable_tool m) eqn:Em; [by rewrite elide_not_elidable|congruence]. }
  assert (forall j m', start + offset < j < cut -> history !! j = Some m' -> is_elidable_tool m' = false) as Gap.
  { intros j m' Bj Lj. apply (Last (j - start)); [lia|]. rewrite middle_lookup by lia.
    replace (start + (j - start)) with j by lia. rewrite elided_lookup, Lj. cbn [fmap option_fmap option_map].
    by rewrite (proj2 (Nat.leb_gt _ _)) by lia. }
  assert (is_elidable_tool m = true) as Em.
  { injection Lo as <-. revert P. rewrite (proj2 (Nat.leb_gt _ _)) by lia. done. }
  assert (alter elide (start + offset) (elided cut end_ history) = elided (start + offset) end_ history) as ->.
  { apply list_eq. intros i. destruct (decide (start + offset = i)) as [<-|N].
    - rewrite list_lookup_alter_eq, !elided_lookup, Lm. cbn [fmap option_fmap option_map].
      rewrite (proj2 (Nat.leb_gt _ _)) by lia. rewrite Nat.leb_refl, (proj2 (Nat.ltb_lt _ _) Bo), Em. done.
    - rewrite list_lookup_alter_ne by done. rewrite !elided_lookup.
      destruct (history !! i) as [m'|] eqn:Li; [|done]. cbn [fmap option_fmap option_map].
      destruct (Nat.leb_spec cut i), (Nat.leb_spec (start + offset) i); try done; [lia|].
      cbn [andb]. rewrite (Gap i m') by (done || lia). by rewrite andb_false_r. }
  assert (forall c, start + offset < c <= cut -> elided c end_ history = elided cut end_ history) as Same.
  { intros c Bc. apply list_eq. intros i. rewrite !elided_lookup.
    destruct (history !! i) as [m'|] eqn:Li; [|done]. cbn [fmap option_fmap option_map].
    destruct (Nat.leb_spec cut i), (Nat.leb_spec c i); try done; [lia|].
    cbn [andb]. rewrite (Gap i m') by (done || lia). by rewrite andb_false_r. }
  destruct (IH (start + offset)) as (cut' & B' & E & D & Min); [lia|lia|].
  exists cut'. split_and!; [lia|lia|done|done|]. intros c Bc.
  destruct (decide (c <= start + offset)); [apply Min; lia|]. rewrite Same by lia. done.
Qed.

Lemma middle_window_Some len start end_ : middle_window len = Some (start, end_) ->
  start = HISTORY_KEEP_PREFIX /\ end_ = len - HISTORY_KEEP_RECENT /\ start < end_ /\ end_ < len.
Proof.
  unfold middle_window, HISTORY_KEEP_PREFIX, HISTORY_KEEP_RECENT.
  destruct (Nat.ltb_spec len 8); [done|]. destruct (Nat.leb_spec (len - 8) 2); [done|].
  intros [= <- <-]. lia.
Qed.

(** Compaction elides the newest tool outputs of the middle of the history, as many as the budget
    asks for and no more: from some point of the middle on, every tool output there is elided and
    nothing else changes, so the cached prefix and the recent messages stay as they are; then the
    history is within the threshold or has nothing left to elide; and with any less elided it was
    above the threshold. A history too short to have a middle is left alone. *)
Theorem compact_history_spec (history : list Message.t) (threshold : N) :
  let result := compact_history tokenizer history threshold in
  let end_ := length history - HISTORY_KEEP_RECENT in
  (length history <= HISTORY_KEEP_PREFIX + HISTORY_KEEP_RECENT -> result = history) /\
  (HISTORY_KEEP_PREFIX + HISTORY_KEEP_RECENT < length history ->
   exists cut, HISTORY_KEEP_PREFIX <= cut <= end_ /\ result = elided cut end_ history /\
     ((history_tokens tokenizer result <= threshold)%N \/ spent HISTORY_KEEP_PREFIX end_ result) /\
     forall c, cut < c <= end_ -> (threshold < history_tokens tokenizer (elided c end_ history))%N).
Proof.
  intros result end_. unfold result, compact_history. split; intros L.
  - destruct (middle_window (length history)) as [[start e]|] eqn:M; [|done].
    apply middle_window_Some in M as (-> & -> & M1 & M2). lia.
  - unfold HISTORY_KEEP_PREFIX, HISTORY_KEEP_RECENT in *.
    destruct (middle_window (length history)) as [[start e]|] eqn:M.
    + apply middle_window_Some in M as (-> & -> & M1 & M2).
      unfold HISTORY_KEEP_PREFIX, HISTORY_KEEP_RECENT in *. fold end_ in M1, M2 |- *.
      destruct (compact_loop_spec 2 end_ history threshold (S (length history)) end_)
        as (cut & B & E & D & Min); [lia|lia|]. rewrite elided_end in E. rewrite E.
      exists cut. split_and!; [lia|lia|done|done|done].
    + exfalso. unfold middle_window, HISTORY_KEEP_PREFIX, HISTORY_KEEP_RECENT in M.
      destruct (Nat.ltb_spec (length history) 8); [lia|]. destruct (Nat.leb_spec (length history - 8) 2); [lia|done].
Qed.

(** Compaction changes nothing but contents of tool messages. *)
Definition same_shape (a b : Message.t) : Prop :=
  a = b \/ a.(Message.role) = Role.Tool /\ b = elide a.

Lemma compact_same_shape history threshold :
  Forall2 same_shape history (compact_history tokenizer history threshold).
Proof.
  destruct (compact_history_spec history threshold) as [H1 H2].
  destruct (decide (length history <= HISTORY_KEEP_PREFIX + HISTORY_KEEP_RECENT)) as [L|L].
  { rewrite H1 by done. apply Forall_Forall2_diag, Forall_true. by left. }
  destruct H2 as (cut & _ & -> & _); [lia|]. apply Forall2_same_length_lookup_2.
  { unfold elided. by rewrite length_imap. }
  intros i a b La Lb. rewrite elided_lookup, La in Lb. injection Lb as <-.
  destruct (_ && _) eqn:C; [right|by left]. split; [|done].
  apply andb_true_iff in C as [_ C]. unfold is_elidable_tool in C.
  by apply andb_true_iff in C as [C%bool_decide_eq_true _].
Qed.
End compaction.

(** * Overflow *)

Lemma largest_from_spec l : forall i best,
  largest_from i best l = best \/
  exists j m, l !! j = Some m /\ is_truncatable m = true /\
    largest_from i best l = Some (i + j, String.length m.(Message.content)).
Proof.
  induction l as [|m l IH]; intros i best; cbn [largest_from]; [by left|].
  match goal with |- context [largest_from (S i) ?b l] => destruct (IH (S i) b) as [E|(j & m' & L & T & E)] end.
  - rewrite E. destruct (is_truncatable m) eqn:T; [|by left].
    destruct best as [[j size]|]; [destruct (_ <? _); [by left|]|]; right; exists 0, m; rewrite Nat.add_0_r; done.
  - right. exists (S j), m'. rewrite E, Nat.add_succ_r. done.
Qed.

Lemma largest_from_max l : forall i best,
  match largest_from i best l with
  | Some (_, size) =>
      (forall j m, l !! j = Some m -> is_truncatable m = true -> String.length m.(Message.content) <= size) /\
      match best with Some (_, s) => s <= size | None => True end
  | None => best = None /\ forall j m, l !! j = Some m -> is_truncatable m = false
  end.
Proof.
  induction l as [|m l IH]; intros i best; cbn [largest_from].
  { destruct best as [[j s]|]; split; done. }
  match goal with |- context [largest_from (S i) ?b l] => specialize (IH (S i) b) end.
  destruct (largest_from _ _ l) as [[k size]|].
  - destruct IH as [H1 H2]. split.
    + intros [|j] m' L T; [|by eapply H1]. injection L as ->. rewrite T in H2.
      destruct best as [[j s]|]; [destruct (Nat.ltb_spec (String.length m'.(Message.content)) s)|]; lia.
    + destruct best as [[j s]|]; [|done]. destruct (is_truncatable m); [|done].
      destruct (Nat.ltb_spec (String.length m.(Message.content)) s); lia.
  - destruct IH as [H1 H2]. destruct (is_truncatable m) eqn:T.
    + destruct best as [[j s]|]; [destruct (_ <? _)|]; done.
    + split; [done|]. intros [|j] m' L; [by injection L as ->|by eapply H2].
Qed.

(** The recovery from an overflow elides exactly one tool output, none longer, recent or not, and
    says it cannot when no tool message has an output left. *)
Theorem truncate_largest_spec (history : list Message.t) :
  match truncate_largest_tool_result history with
  | Some history' => exists i m, history !! i = Some m /\ is_truncatable m = true /\
      history' = <[i := elide m]> history /\
      forall j m', history !! j = Some m' -> is_truncatable m' = true ->
        String.length m'.(Message.content) <= String.length m.(Message.content)
  | None => forall j m, history !! j = Some m -> is_truncatable m = false
  end.
Proof.
  unfold truncate_largest_tool_result.
  pose proof (largest_from_max history 0 None) as M.
  destruct (largest_from_spec history 0 None) as [E|(j & m & L & T & E)]; rewrite E in M |- *; cbn.
  - apply M.
  - exists j, m. split_and!; [done|done| |apply M]. apply list_eq. intros i.
    destruct (decide (j = i)) as [<-|N].
    + rewrite list_lookup_alter_eq, L, list_lookup_insert_eq by (by eapply lookup_lt_Some). done.
    + by rewrite list_lookup_alter_ne, list_lookup_insert_ne.
Qed.
