(* ===== verification/Agent.v ===== *)
(** The agent's loop ([nerve-agent/src/orchestrator/mod.rs], [turn.rs]): provider turns,
    tool dispatch, guardrails, cancellation and the lifecycle hooks. *)
From Stdlib Require Import SpecFloat.
From S2P Require Import Prelude Text Json FlowDefs Tape History.

Definition COMPLETION_VERIFY_PROMPT : string :=
  "Before finishing: double-check that you actually accomplished the task — re-verify the key result against the original request. If anything is incomplete or unverified, keep working (call tools to finish or check); if it is genuinely done, give your final answer.".

Definition TURN_BUDGET_WARN : N := 3.

Module AgentDef.
Record t := Mk {
  system_prompt : string;
  model : string;
  max_turns : u32;
  max_requests_per_turn : option u32;
  max_tool_failures : option u32;
  temperature : option f32;
  reasoning_effort : option string;
  tool_filter : option (list string);
  verify_completion : bool;
}.

Definition default : t := Mk EmptyString EmptyString (wrap 32 40) None (Some (wrap 32 3)) None None None false.
End AgentDef.

Module AgentEvent.
Inductive t :=
  | TurnStarted (turn : u32)
  | AssistantText (text : string)
  | Reasoning (text : string)
  | ToolStarted (name : string) (args : json)
  | ToolFinished (name : string) (ok : bool) (output : string)
  | Interrupted (reason : string)
  | Usage (input_tokens output_tokens cache_read_tokens cache_creation_tokens : u32)
  | ToolCallDelta (name : string) (arguments : json)
  | Done (reason : string).
End AgentEvent.

Module RunOutcome.
Record t := Mk { reason : string; turns : u32; final_text : string; usage : Usage.t }.
End RunOutcome.

Module ResumeState.
Record t := Mk { history : list Message.t; truncations : u32 }.
Definition default : t := Mk [] (wrap 32 0).
End ResumeState.

(** What is outside the loop, over a state [E] of its own: the provider, the tools, what happens
    to the cancel token between two polls, and the hooks' answers. The provider and the tools see
    the token; what they stream or return is theirs. *)
Module Host.
Record t (E : Type) := Mk {
  chat : E -> bool -> ChatRequest.t -> E * list ChatDelta.t * (ChatResponse.t + AgentError.t);
  specs : E -> list ToolSpec.t;
  call : E -> bool -> string -> json -> E * (json + AgentError.t);
  poll : E -> E * bool;
  on_start : list (E -> string -> E * string);
  on_request : list (E -> ChatRequest.t -> E * ChatRequest.t);
}.
Arguments Mk {E}.
Arguments chat {E}.
Arguments specs {E}.
Arguments call {E}.
Arguments poll {E}.
Arguments on_start {E}.
Arguments on_request {E}.
End Host.

(** The orchestrator's own state with the token and what it streamed: the hooks' [on_event] and
    the sink both see [log]. *)
Module Session.
Record t (E : Type) := Mk {
  env : E;
  cancelled : bool;
  log : list AgentEvent.t;
  history : list Message.t;
  truncations : u32;
}.
Arguments Mk {E}.
Arguments env {E}.
Arguments cancelled {E}.
Arguments log {E}.
Arguments history {E}.
Arguments truncations {E}.

Section session.
Context {E : Type}.
Definition with_env (s : t E) (e : E) : t E :=
  Mk e s.(cancelled) s.(log) s.(history) s.(truncations).
Definition emit (s : t E) (event : AgentEvent.t) : t E :=
  Mk s.(env) s.(cancelled) (s.(log) ++ [event]) s.(history) s.(truncations).
Definition with_history (s : t E) (history : list Message.t) : t E :=
  Mk s.(env) s.(cancelled) s.(log) history s.(truncations).
Definition push (s : t E) (message : Message.t) : t E := with_history s (s.(history) ++ [message]).
Definition truncated (s : t E) : t E :=
  Mk s.(env) s.(cancelled) s.(log) s.(history) (uadd s.(truncations) (wrap 32 1)).
End session.
End Session.

(** A step on the session that may fail; what it did stays done when it fails. *)
Definition Agent (E A : Type) := Session.t E -> Session.t E * (A + AgentError.t).

Definition fail {E A} (err : AgentError.t) : Agent E A := fun s => (s, inr err).

Definition ret {E A} (a : A) : Agent E A := fun s => (s, inl a).
Definition bind {E A B} (m : Agent E A) (k : A -> Agent E B) : Agent E B := fun s =>
  match m s with
  | (s, inl a) => k a s
  | (s, inr err) => (s, inr err)
  end.

Notation "'do' x <~ m ; k" := (bind m (fun x => k))
  (at level 10, x name, m at level 100, k at level 200) : nerve_scope.
Notation "'do_' m ; k" := (bind m (fun _ => k))
  (at level 10, m at level 100, k at level 200) : nerve_scope.
Open Scope nerve_scope.

Definition modify {E} (f : Session.t E -> Session.t E) : Agent E unit := fun s => (f s, inl tt).
Definition emits {E} (event : AgentEvent.t) : Agent E unit := modify (fun s => Session.emit s event).
Definition pushes {E} (message : Message.t) : Agent E unit := modify (fun s => Session.push s message).

(** * Pure helpers ([turn.rs]) *)

Definition turn_budget_prompt (system : string) (remaining max_turns : u32) : string :=
  if (uval max_turns <=? TURN_BUDGET_WARN)%N || (TURN_BUDGET_WARN <? uval remaining)%N then system
  else
    system +:+ nl +:+ nl +:+ "[" +:+ show_u remaining +:+
    " turn(s) left before this run ends. Prioritize finishing and reporting the task; don't start work you can't complete in time.]".

Definition failure_feedback (output : string) (consecutive_failures : u32) (limit : option u32) : string :=
  if (uval consecutive_failures <? 2)%N then output
  else
    match limit with
    | Some limit =>
        output +:+ nl +:+ nl +:+ "[" +:+ show_u consecutive_failures +:+ " consecutive tool failures; " +:+
        show_u (usub (uadd limit (wrap 32 1)) consecutive_failures) +:+
        " attempt(s) left before this run aborts. Try a DIFFERENT approach — do not repeat the same call.]"
    | None =>
        output +:+ nl +:+ nl +:+ "[" +:+ show_u consecutive_failures +:+
        " consecutive tool failures; try a DIFFERENT approach rather than repeating the same call.]"
    end.

Definition reasoning_from (response : ChatResponse.t) : option Reasoning.t :=
  (fun text => Reasoning.Mk text response.(ChatResponse.reasoning_signature)) <$>
    response.(ChatResponse.reasoning).

Definition accumulate_usage (total delta : Usage.t) : Usage.t :=
  Usage.Mk (usaturating_add total.(Usage.input_tokens) delta.(Usage.input_tokens))
    (usaturating_add total.(Usage.output_tokens) delta.(Usage.output_tokens))
    (usaturating_add total.(Usage.cache_read_tokens) delta.(Usage.cache_read_tokens))
    (usaturating_add total.(Usage.cache_creation_tokens) delta.(Usage.cache_creation_tokens)).

Definition assistant_message (response : ChatResponse.t) : Message.t :=
  Message.Mk Role.Assistant response.(ChatResponse.content) (reasoning_from response)
    response.(ChatResponse.tool_calls) None None.

Definition delta_event (delta : ChatDelta.t) : AgentEvent.t :=
  match delta with
  | ChatDelta.Text text => AgentEvent.AssistantText text
  | ChatDelta.Reasoning text => AgentEvent.Reasoning text
  | ChatDelta.ToolCall call => AgentEvent.ToolCallDelta call.(ToolCall.name) call.(ToolCall.arguments)
  end.

(** What the loop carries from turn to turn. *)
Module Progress.
Record t := Mk {
  usage : Usage.t;
  final_text : string;
  consecutive_failures : u32;
  requests : u32;
  verified : bool;
}.
Definition start : t := Mk Usage.default EmptyString (wrap 32 0) (wrap 32 0) false.
End Progress.

Section orchestrator.
Context `{SerdeJson} {E : Type} (tokenizer : option (string -> N)).
Context (host : Host.t E) (def : AgentDef.t).

Definition caps : ModelCapabilities.t := ModelCapabilities.for_model def.(AgentDef.model).

Definition value_to_string (value : json) : string :=
  match value with JStr text => text | other => to_vec other end.

(** Once the token is set it stays set. *)
Definition is_cancelled : Agent E bool := fun s =>
  let '(e, raised) := host.(Host.poll) s.(Session.env) in
  let cancelled := s.(Session.cancelled) || raised in
  (Session.Mk e cancelled s.(Session.log) s.(Session.history) s.(Session.truncations), inl cancelled).

Definition check_cancelled : Agent E unit :=
  do cancelled <~ is_cancelled; if cancelled then fail AgentError.Cancelled else ret tt.

Definition filtered_tools : Agent E (list ToolSpec.t) := fun s =>
  let specs := host.(Host.specs) s.(Session.env) in
  (s, inl (match def.(AgentDef.tool_filter) with
           | None => specs
           | Some allow =>
               List.filter (fun spec => existsb (String.eqb spec.(ToolSpec.name)) allow) specs
           end)).

Definition send_request (system_prompt : string) (tools : list ToolSpec.t) : Agent E ChatResponse.t := fun s =>
  let req := ChatRequest.Mk def.(AgentDef.model) (Some system_prompt) s.(Session.history) tools
               def.(AgentDef.temperature) (Some caps.(ModelCapabilities.max_output_tokens))
               def.(AgentDef.reasoning_effort) in
  let '(e, req) := foldl (fun '(e, req) hook => hook e req) (s.(Session.env), req) host.(Host.on_request) in
  let '(e, deltas, result) := host.(Host.chat) e s.(Session.cancelled) req in
  (foldl (fun s delta => Session.emit s (delta_event delta)) (Session.with_env s e) deltas, result).

Definition send_with_overflow_retry (system_prompt : string) (tools : list ToolSpec.t)
    : Agent E ChatResponse.t := fun s =>
  match send_request system_prompt tools s with
  | (s, inr err) =>
      if is_context_overflow err then
        match truncate_largest_tool_result s.(Session.history) with
        | Some history =>
            send_request system_prompt tools (Session.truncated (Session.with_history s history))
        | None => (s, inr err)
        end
      else (s, inr err)
  | done => done
  end.

Definition preempt_overflow : Agent E unit := modify (fun s =>
  let ceiling := (uval caps.(ModelCapabilities.context_window) -
                  uval caps.(ModelCapabilities.max_output_tokens))%N in
  if (ceiling <? history_tokens tokenizer s.(Session.history))%N
  then Session.with_history s (compact_history tokenizer s.(Session.history) ceiling)
  else s).

Definition compact : Agent E unit := modify (fun s =>
  Session.with_history s
    (compact_history tokenizer s.(Session.history) (compact_threshold_tokens caps))).

Definition execute_turn (system_prompt : string) (tools : list ToolSpec.t) : Agent E ChatResponse.t :=
  do_ preempt_overflow;
  do response <~ send_with_overflow_retry system_prompt tools;
  do_ check_cancelled;
  do_ pushes (assistant_message response);
  ret response.

Definition call_tool (call : ToolCall.t) : Agent E (bool * string) := fun s =>
  let '(e, result) :=
    host.(Host.call) s.(Session.env) s.(Session.cancelled) call.(ToolCall.name) call.(ToolCall.arguments) in
  (Session.with_env s e,
   inl (match result with
        | inl value => (true, value_to_string value)
        | inr err => (false, "error: " +:+ AgentError.display err)
        end)).

(** The failures so far and, when the guardrail trips, the reason. *)
Fixpoint dispatch_tool_calls (calls : list ToolCall.t) (consecutive_failures : u32)
    : Agent E (u32 * option string) :=
  match calls with
  | [] => ret (consecutive_failures, None)
  | call :: calls =>
      let answer := Message.tool call.(ToolCall.id) call.(ToolCall.name) in
      do_ check_cancelled;
      do_ emits (AgentEvent.ToolStarted call.(ToolCall.name) call.(ToolCall.arguments));
      do finished <~ call_tool call;
      let '(ok, output) := finished in
      do_ emits (AgentEvent.ToolFinished call.(ToolCall.name) ok output);
      if ok then
        do_ pushes (answer output);
        dispatch_tool_calls calls (wrap 32 0)
      else
        let consecutive_failures := uadd consecutive_failures (wrap 32 1) in
        match def.(AgentDef.max_tool_failures) with
        | Some limit =>
            if (uval limit <? uval consecutive_failures)%N then
              do_ pushes (answer output);
              ret (consecutive_failures,
                   Some ("max_tool_failures (" +:+ show_u limit +:+ ") exceeded"))
            else
              do_ pushes (answer (failure_feedback output consecutive_failures (Some limit)));
              dispatch_tool_calls calls consecutive_failures
        | None =>
            do_ pushes (answer (failure_feedback output consecutive_failures None));
            dispatch_tool_calls calls consecutive_failures
        end
  end.

Definition usage_event (usage : Usage.t) : AgentEvent.t :=
  AgentEvent.Usage usage.(Usage.input_tokens) usage.(Usage.output_tokens)
    usage.(Usage.cache_read_tokens) usage.(Usage.cache_creation_tokens).

Definition outcome (reason : string) (turn : u32) (p : Progress.t) : RunOutcome.t :=
  RunOutcome.Mk reason turn p.(Progress.final_text) p.(Progress.usage).

(** What the loop keeps of a response: the request count, the usage and the last text. *)
Definition observe (p : Progress.t) (response : ChatResponse.t) : Progress.t :=
  Progress.Mk (accumulate_usage p.(Progress.usage) response.(ChatResponse.usage))
    (if String.eqb response.(ChatResponse.content) EmptyString then p.(Progress.final_text)
     else response.(ChatResponse.content))
    p.(Progress.consecutive_failures) (uadd p.(Progress.requests) (wrap 32 1)) p.(Progress.verified).

Definition with_failures (p : Progress.t) (consecutive_failures : u32) : Progress.t :=
  Progress.Mk p.(Progress.usage) p.(Progress.final_text) consecutive_failures p.(Progress.requests)
    p.(Progress.verified).

Definition with_verified (p : Progress.t) : Progress.t :=
  Progress.Mk p.(Progress.usage) p.(Progress.final_text) p.(Progress.consecutive_failures)
    p.(Progress.requests) true.

(** One turn: the outcome when the run ends in it, what is carried on otherwise. *)
Definition turn_step (system_prompt : string) (tools : list ToolSpec.t) (turn : u32) (p : Progress.t)
    : Agent E (RunOutcome.t + Progress.t) :=
  do_ check_cancelled;
  do_ emits (AgentEvent.TurnStarted turn);
  let remaining := uadd (usub def.(AgentDef.max_turns) turn) (wrap 32 1) in
  let turn_system := turn_budget_prompt system_prompt remaining def.(AgentDef.max_turns) in
  do response <~ execute_turn turn_system tools;
  let p := observe p response in
  do_ emits (usage_event response.(ChatResponse.usage));
  if bool_decide (response.(ChatResponse.tool_calls) = []) &&
     bool_decide (response.(ChatResponse.finish_reason) = FinishReason.Stop)
  then
    if def.(AgentDef.verify_completion) && negb p.(Progress.verified) then
      do_ pushes (Message.user COMPLETION_VERIFY_PROMPT);
      do_ compact;
      ret (inr (with_verified p))
    else
      do_ emits (AgentEvent.Done "completed");
      ret (inl (outcome "completed" turn p))
  else
    do dispatched <~ dispatch_tool_calls response.(ChatResponse.tool_calls) p.(Progress.consecutive_failures);
    let '(consecutive_failures, guard) := dispatched in
    let p := with_failures p consecutive_failures in
    let interrupt reason :=
      do_ emits (AgentEvent.Interrupted reason);
      ret (inl (outcome reason turn p)) in
    match guard with
    | Some reason => interrupt reason
    | None =>
        match def.(AgentDef.max_requests_per_turn) with
        | Some limit =>
            if (uval limit <=? uval p.(Progress.requests))%N
            then interrupt ("max_requests_per_turn (" +:+ show_u limit +:+ ") reached")
            else do_ compact; ret (inr p)
        | None => do_ compact; ret (inr p)
        end
    end.

(** The remaining turns, from [turn]. *)
Fixpoint turns (remaining : nat) (system_prompt : string) (tools : list ToolSpec.t) (turn : N) (p : Progress.t)
    : Agent E RunOutcome.t :=
  match remaining with
  | 0 =>
      do_ emits (AgentEvent.Done "max_turns");
      ret (outcome "max_turns" def.(AgentDef.max_turns) p)
  | S remaining =>
      do next <~ turn_step system_prompt tools (wrap 32 turn) p;
      match next with
      | inl outcome => ret outcome
      | inr p => turns remaining system_prompt tools (turn + 1) p
      end
  end.

Definition run_loop (task system_prompt : string) : Agent E RunOutcome.t :=
  do_ pushes (Message.user task);
  do tools <~ filtered_tools;
  turns (N.to_nat (uval def.(AgentDef.max_turns))) system_prompt tools 1 Progress.start.

(** [on_end] sees the outcome that is returned. *)
Definition run (task : string) : Agent E RunOutcome.t := fun s =>
  let '(e, system_prompt) :=
    foldl (fun '(e, prompt) hook => hook e prompt) (s.(Session.env), def.(AgentDef.system_prompt))
      host.(Host.on_start) in
  run_loop task system_prompt (Session.with_env s e).
End orchestrator.

(** [new] and [resume]: a session without events, its token as the caller left it. *)
Definition resume {E} (state : ResumeState.t) (e : E) (cancelled : bool) : Session.t E :=
  Session.Mk e cancelled [] state.(ResumeState.history) state.(ResumeState.truncations).

Definition new {E} (e : E) (cancelled : bool) : Session.t E := resume ResumeState.default e cancelled.
