(* ===== verification/AgentSpec.v ===== *)
(** What a run leaves behind: the transcript it builds, the events it streams, the usage it
    reports and the guardrails that end it. *)
From S2P Require Import Prelude Text Json FlowDefs Tape History Agent.
Open Scope nerve_scope.

(** * Transcripts *)

(** A tool message answers a call. *)
Definition answers (call : ToolCall.t) (msg : Message.t) : Prop :=
  msg.(Message.role) = Role.Tool /\ msg.(Message.tool_call_id) = Some call.(ToolCall.id) /\
  msg.(Message.name) = Some call.(ToolCall.name).

(** A history a provider takes: every call of an assistant message is answered, in order, by the
    messages right after it, and no tool message stands elsewhere. *)
Inductive Transcript : list Message.t -> Prop :=
  | transcript_nil : Transcript []
  | transcript_plain history msg :
      Transcript history -> msg.(Message.role) <> Role.Tool -> msg.(Message.tool_calls) = [] ->
      Transcript (history ++ [msg])
  | transcript_exchange history msg results :
      Transcript history -> msg.(Message.role) = Role.Assistant ->
      Forall2 answers msg.(Message.tool_calls) results ->
      Transcript (history ++ msg :: results).

(** A history that stops between the calls of its last assistant message: [left] is unanswered. *)
Definition OpenTranscript (history : list Message.t) (left : list ToolCall.t) : Prop :=
  exists before msg done results, Transcript before /\ msg.(Message.role) = Role.Assistant /\
    msg.(Message.tool_calls) = done ++ left /\ Forall2 answers done results /\
    history = before ++ msg :: results.


Definition open_or_closed (history : list Message.t) : Prop :=
  Transcript history \/ exists left, OpenTranscript history left.

(** A condition on histories that a run keeps: plain messages, answered exchanges and the rewriting
    of tool results preserve it. *)
Class Growing (closed : list Message.t -> Prop) := {
  growing_plain history msg : closed history -> msg.(Message.role) <> Role.Tool ->
    msg.(Message.tool_calls) = [] -> closed (history ++ [msg]);
  growing_exchange history msg results : closed history -> msg.(Message.role) = Role.Assistant ->
    Forall2 answers msg.(Message.tool_calls) results -> closed (history ++ msg :: results);
  growing_shape history history' : Forall2 same_shape history history' -> closed history -> closed history'
}.

(** A history that stops between the calls of its last assistant message, over such a condition. *)
Definition stops_at (closed : list Message.t -> Prop) (history : list Message.t) (left : list ToolCall.t) : Prop :=
  exists before msg done results, closed before /\ msg.(Message.role) = Role.Assistant /\
    msg.(Message.tool_calls) = done ++ left /\ Forall2 answers done results /\
    history = before ++ msg :: results.

Definition stopped (closed : list Message.t -> Prop) (history : list Message.t) : Prop :=
  closed history \/ exists left, stops_at closed history left.

Lemma stops_closed closed `{!Growing closed} history : stops_at closed history [] -> closed history.
Proof.
  intros (before & msg & done & results & T & R & C & F & ->). rewrite app_nil_r in C.
  apply growing_exchange; [done|done|]. by rewrite C.
Qed.

Lemma same_shape_fields a b : same_shape a b ->
  b.(Message.role) = a.(Message.role) /\ b.(Message.tool_calls) = a.(Message.tool_calls) /\
  b.(Message.tool_call_id) = a.(Message.tool_call_id) /\ b.(Message.name) = a.(Message.name).
Proof. by intros [->|[_ ->]]. Qed.

Lemma same_shape_transcript h h' : Forall2 same_shape h h' -> Transcript h -> Transcript h'.
Proof.
  intros F T. revert h' F. induction T as [|h m T IH R C|h m results T IH R A]; intros h' F.
  - inversion F. constructor.
  - apply Forall2_app_inv_l in F as (h1 & h2 & F1 & F2 & ->).
    apply Forall2_cons_inv_l in F2 as (m' & ? & S & F2 & ->). apply Forall2_nil_inv_l in F2 as ->.
    apply same_shape_fields in S as (Sr & Sc & _). apply transcript_plain; [by apply IH|by rewrite Sr|by rewrite Sc].
  - apply Forall2_app_inv_l in F as (h1 & h2 & F1 & F2 & ->).
    apply Forall2_cons_inv_l in F2 as (m' & results' & S & F2 & ->).
    apply same_shape_fields in S as (Sr & Sc & _).
    apply transcript_exchange; [by apply IH|by rewrite Sr|]. rewrite Sc.
    clear -A F2. revert results' F2. induction A as [|c r cs rs A _ IH]; intros results' F2.
    + apply Forall2_nil_inv_l in F2 as ->. constructor.
    + apply Forall2_cons_inv_l in F2 as (r' & rs' & S & F2 & ->).
      apply same_shape_fields in S as (Sr & _ & Si & Sn). constructor; [|by apply IH].
      unfold answers in *. by rewrite Sr, Si, Sn.
Qed.

#[export] Instance growing_transcript : Growing Transcript.
Proof.
  split; [exact transcript_plain|exact transcript_exchange|].
  intros h h' S. by apply same_shape_transcript.
Qed.

(** The condition that asks nothing, for the claims that need no transcript. *)
#[export] Instance growing_any : Growing (fun _ => True).
Proof. by split. Qed.

Lemma truncate_growing closed `{!Growing closed} h h' :
  truncate_largest_tool_result h = Some h' -> closed h -> closed h'.
Proof.
  intros E. pose proof (truncate_largest_spec h) as S. rewrite E in S.
  destruct S as (i & m & L & T & -> & _). apply growing_shape.
  apply Forall2_same_length_lookup_2; [by rewrite length_insert|]. intros j a b La Lb.
  destruct (decide (i = j)) as [<-|N].
  - rewrite list_lookup_insert_eq in Lb by (by eapply lookup_lt_Some). rewrite L in La. simplify_eq.
    right. split; [|done]. unfold is_truncatable in T.
    by apply andb_true_iff in T as [[T%bool_decide_eq_true _]%andb_true_iff _].
  - rewrite list_lookup_insert_ne in Lb by done. left. congruence.
Qed.

(** * Events *)

Definition turns_of : list AgentEvent.t -> list N :=
  omap (fun e => match e with AgentEvent.TurnStarted t => Some (uval t) | _ => None end).
Definition usages : list AgentEvent.t -> list Usage.t :=
  omap (fun e => match e with AgentEvent.Usage a b c d => Some (Usage.Mk a b c d) | _ => None end).
Definition oks : list AgentEvent.t -> list bool :=
  omap (fun e => match e with AgentEvent.ToolFinished _ ok _ => Some ok | _ => None end).
Definition finals : list AgentEvent.t -> list AgentEvent.t :=
  omap (fun e => match e with AgentEvent.Done _ | AgentEvent.Interrupted _ => Some e | _ => None end).
Definition tool_events : list AgentEvent.t -> list AgentEvent.t :=
  omap (fun e => match e with AgentEvent.ToolStarted _ _ | AgentEvent.ToolFinished _ _ _ => Some e | _ => None end).

Lemma turns_of_app l l' : turns_of (l ++ l') = turns_of l ++ turns_of l'.
Proof. apply omap_app. Qed.
Lemma usages_app l l' : usages (l ++ l') = usages l ++ usages l'.
Proof. apply omap_app. Qed.
Lemma oks_app l l' : oks (l ++ l') = oks l ++ oks l'.
Proof. apply omap_app. Qed.
Lemma finals_app l l' : finals (l ++ l') = finals l ++ finals l'.
Proof. apply omap_app. Qed.
Lemma tool_events_app l l' : tool_events (l ++ l') = tool_events l ++ tool_events l'.
Proof. apply omap_app. Qed.

(** Every started tool is finished before anything else starts. *)
Inductive paired : list AgentEvent.t -> Prop :=
  | paired_nil : paired []
  | paired_cons name args ok output events :
      paired events ->
      paired (AgentEvent.ToolStarted name args :: AgentEvent.ToolFinished name ok output :: events).

Lemma paired_app l l' : paired l -> paired l' -> paired (l ++ l').
Proof. induction 1; intros P; [done|]. cbn. constructor. auto. Qed.

(** Streamed deltas. *)
Definition is_delta (e : AgentEvent.t) : Prop := exists delta, e = delta_event delta.

Lemma delta_projections l : Forall is_delta l ->
  turns_of l = [] /\ usages l = [] /\ oks l = [] /\ finals l = [] /\ tool_events l = [].
Proof. induction 1 as [|e l [[] ->] F IH]; done. Qed.

(** * Running a step *)

Section agent.
Context `{SerdeJson} {E : Type} (tokenizer : option (string -> N)).
Context (host : Host.t E) (def : AgentDef.t).
Context (closed : list Message.t -> Prop) `{!Growing closed}.

Notation Session := (Session.t E).

(** The step ends in a state and a result that satisfy [Q]. *)
Definition ends {A} (m : Agent E A) (s : Session) (Q : Session -> A + AgentError.t -> Prop) : Prop :=
  let '(s', r) := m s in Q s' r.

Lemma ends_bind {A B} (m : Agent E A) (k : A -> Agent E B) s (Q : Session -> B + AgentError.t -> Prop) :
  ends m s (fun s' r => match r with inl a => ends (k a) s' Q | inr err => Q s' (inr err) end) ->
  ends (bind m k) s Q.
Proof. unfold ends, bind. by destruct (m s) as [s' [a|err]]. Qed.

Lemma ends_mono {A} (m : Agent E A) s (P Q : Session -> A + AgentError.t -> Prop) :
  ends m s P -> (forall s' r, P s' r -> Q s' r) -> ends m s Q.
Proof. unfold ends. destruct (m s). auto. Qed.

(** The events a step added and the history it left. *)
Definition adds (s s' : Session) (events : list AgentEvent.t) : Prop :=
  s'.(Session.log) = s.(Session.log) ++ events.

Lemma adds_refl s : adds s s [].
Proof. unfold adds. by rewrite app_nil_r. Qed.

Lemma adds_trans s1 s2 s3 ev ev' : adds s1 s2 ev -> adds s2 s3 ev' -> adds s1 s3 (ev ++ ev').
Proof. unfold adds. intros H1 H2. by rewrite H2, H1, app_assoc. Qed.

Lemma adds_emit s e : adds s (Session.emit s e) [e].
Proof. done. Qed.

Lemma check_cancelled_ends (s : Session) :
  ends (check_cancelled host) s (fun s' r =>
    s'.(Session.log) = s.(Session.log) /\ s'.(Session.history) = s.(Session.history) /\
    match r with inl _ => True | inr err => err = AgentError.Cancelled end).
Proof.
  unfold ends, check_cancelled, bind, is_cancelled. destruct (host.(Host.poll) _) as [e raised].
  by destruct (_ || _).
Qed.

Lemma emits_fold (s : Session) deltas :
  (foldl (fun s delta => Session.emit s (delta_event delta)) s deltas).(Session.log) =
    s.(Session.log) ++ map delta_event deltas /\
  (foldl (fun s delta => Session.emit s (delta_event delta)) s deltas).(Session.history) =
    s.(Session.history).
Proof.
  revert s. induction deltas as [|d deltas IH]; intros s; cbn [foldl map]; [by rewrite app_nil_r|].
  destruct (IH (Session.emit s (delta_event d))) as [-> ->]. cbn. by rewrite <- app_assoc.
Qed.

Lemma send_request_ends prompt tools (s : Session) :
  ends (send_request host def prompt tools) s (fun s' _ => exists ev, adds s s' ev /\
    Forall is_delta ev /\ s'.(Session.history) = s.(Session.history)).
Proof.
  unfold ends, send_request. destruct (foldl _ _ _) as [e req].
  destruct (host.(Host.chat) e _ req) as [[e' deltas] result].
  destruct (emits_fold (Session.with_env s e') deltas) as [L Hh].
  exists (map delta_event deltas). split_and!; [exact L| |exact Hh].
  apply Forall_map, Forall_true. intros d. by exists d.
Qed.

Lemma send_retry_ends prompt tools (s : Session) : closed s.(Session.history) ->
  ends (send_with_overflow_retry host def prompt tools) s (fun s' _ => exists ev, adds s s' ev /\
    Forall is_delta ev /\ closed s'.(Session.history)).
Proof.
  intros T. pose proof (send_request_ends prompt tools s) as H1. unfold ends, send_with_overflow_retry in *.
  destruct (send_request host def prompt tools s) as [s1 [resp|err]].
  { destruct H1 as (ev & A & F & ->). eauto. }
  destruct H1 as (ev & A & F & Hh). rewrite <- Hh in T.
  destruct (is_context_overflow err); [|eauto].
  destruct (truncate_largest_tool_result _) as [h|] eqn:Tr; [|eauto].
  apply (truncate_growing closed) in Tr; [|done].
  pose proof (send_request_ends prompt tools (Session.truncated (Session.with_history s1 h))) as H2.
  unfold ends in H2. destruct (send_request _ _ _ _ _) as [s2 r].
  destruct H2 as (ev' & A' & F' & Hh'). exists (ev ++ ev'). split_and!.
  - unfold adds in *. rewrite A'. cbn. by rewrite A, app_assoc.
  - by apply Forall_app.
  - by rewrite Hh'.
Qed.

Lemma execute_turn_ends prompt tools (s : Session) : closed s.(Session.history) ->
  ends (execute_turn tokenizer host def prompt tools) s (fun s' r => exists ev, adds s s' ev /\
    Forall is_delta ev /\
    match r with
    | inl response => exists before, closed before /\
        s'.(Session.history) = before ++ [assistant_message response]
    | inr _ => closed s'.(Session.history)
    end).
Proof.
  intros T. unfold execute_turn. apply ends_bind. unfold preempt_overflow, ends at 1, modify.
  match goal with |- context [if ?c then ?a else s] => set (s1 := if c then a else s) end.
  assert (s1.(Session.log) = s.(Session.log) /\ closed s1.(Session.history)) as [L1 T1].
  { subst s1. case_match; [|done]. split; [done|]. cbn. by eapply growing_shape, T; apply compact_same_shape. }
  apply ends_bind. eapply ends_mono; [by apply send_retry_ends|]. intros s2 [response|err] (ev & A & F & T2).
  2: { exists ev. split_and!; [|done|done]. unfold adds in *. by rewrite A, L1. }
  apply ends_bind. eapply ends_mono; [apply check_cancelled_ends|]. intros s3 r (L3 & H3 & R).
  destruct r as [[]|err].
  - apply ends_bind. unfold pushes, modify, ends, ret. cbn. exists ev. split_and!; [|done|].
    + unfold adds in *. cbn. by rewrite L3, A, L1.
    + exists s2.(Session.history). by rewrite H3.
  - exists ev. split_and!; [|done|by rewrite H3]. unfold adds in *. by rewrite L3, A, L1.
Qed.

(** * Dispatch *)

Definition next_failures (n : u32) (ok : bool) : u32 := if ok then wrap 32 0 else uadd n (wrap 32 1).
Definition trail (n : u32) (results : list bool) : u32 := foldl next_failures n results.

(** The failures in a row have stayed within the limit so far. *)
Fixpoint within (n : u32) (results : list bool) : Prop :=
  match results with
  | [] => True
  | ok :: results =>
      (forall limit, def.(AgentDef.max_tool_failures) = Some limit ->
         (uval (next_failures n ok) <= uval limit)%N) /\
      within (next_failures n ok) results
  end.

Lemma within_app n l l' : within n (l ++ l') <-> within n l /\ within (trail n l) l'.
Proof. revert n. induction l as [|ok l IH]; intros n; cbn; [tauto|]. rewrite IH. unfold trail. cbn. tauto. Qed.

Definition guard_reason (limit : u32) : string := "max_tool_failures (" +:+ show_u limit +:+ ") exceeded".

(** The events of a dispatch. *)
Definition tool_run (ev : list AgentEvent.t) : Prop :=
  turns_of ev = [] /\ usages ev = [] /\ finals ev = [] /\ paired (tool_events ev).

(** The guardrail trips at the last of the results and at none before. *)
Definition tripped (n : u32) (results : list bool) (reason : string) : Prop :=
  exists before limit, results = before ++ [false] /\ within n before /\
    def.(AgentDef.max_tool_failures) = Some limit /\ reason = guard_reason limit /\
    (uval limit < uval (trail n results))%N.

Lemma tripped_cons n ok results reason : within n [ok] ->
  tripped (next_failures n ok) results reason -> tripped n (ok :: results) reason.
Proof.
  intros [W _] (before & limit & -> & Wb & L & R & T). exists (ok :: before), limit.
  split_and!; done.
Qed.

Definition dispatch_post (calls : list ToolCall.t) (n : u32) (s s' : Session)
    (r : u32 * option string + AgentError.t) : Prop :=
  exists ev done left results, adds s s' ev /\ tool_run ev /\ calls = done ++ left /\
    Forall2 answers done results /\ s'.(Session.history) = s.(Session.history) ++ results /\
    match r with
    | inl (n', None) => left = [] /\ n' = trail n (oks ev) /\ within n (oks ev)
    | inl (n', Some reason) => tripped n (oks ev) reason
    | inr err => err = AgentError.Cancelled
    end.

Lemma answers_tool call output :
  answers call (Message.tool call.(ToolCall.id) call.(ToolCall.name) output).
Proof. done. Qed.

(** One call is run and answered, then the rest is dispatched. *)
Lemma dispatch_post_cons call calls n ok output answer (s s1 s2 : Session) r :
  adds s s1 [AgentEvent.ToolStarted call.(ToolCall.name) call.(ToolCall.arguments);
             AgentEvent.ToolFinished call.(ToolCall.name) ok output] ->
  s1.(Session.history) = s.(Session.history) ++ [Message.tool call.(ToolCall.id) call.(ToolCall.name) answer] ->
  within n [ok] ->
  dispatch_post calls (next_failures n ok) s1 s2 r -> dispatch_post (call :: calls) n s s2 r.
Proof.
  intros A1 H1 W (ev & done & left & results & A & (T1 & T2 & T3 & T4) & -> & F & H2 & R).
  eexists _, (call :: done), left, (_ :: results).
  split; [by eapply adds_trans|]. split; [split_and!; try done; by constructor|].
  split; [done|]. split; [constructor; [apply answers_tool|exact F]|]. split; [by rewrite H2, H1, <- app_assoc|].
  cbn [app oks omap list_omap]. fold (oks ev).
  destruct r as [[n' [reason|]]|err]; [by apply tripped_cons| |done].
  destruct R as (-> & -> & Wn). split_and!; [done|done|]. split; [apply W|done].
Qed.

Lemma dispatch_post_nothing calls n (s s' : Session) r :
  s'.(Session.log) = s.(Session.log) -> s'.(Session.history) = s.(Session.history) ->
  match r with
  | inl (n', None) => calls = [] /\ n' = n
  | inl (_, Some _) => False
  | inr err => err = AgentError.Cancelled
  end -> dispatch_post calls n s s' r.
Proof.
  intros L Hh R. exists [], [], calls, []. split; [unfold adds; by rewrite app_nil_r|].
  split; [split_and!; (done || constructor)|]. split; [done|]. split; [constructor|].
  split; [by rewrite app_nil_r|]. destruct r as [[n' [reason|]]|err]; [done| |done]. by destruct R as [-> ->].
Qed.

Lemma call_tool_ends call (s : Session) :
  ends (call_tool host call) s (fun s' r => s'.(Session.log) = s.(Session.log) /\
    s'.(Session.history) = s.(Session.history) /\ exists ok output, r = inl (ok, output)).
Proof.
  unfold ends, call_tool. destruct (host.(Host.call) _ _ _ _) as [e [value|err]]; cbn; eauto 6.
Qed.

Lemma dispatch_ends calls : forall (n : u32) (s : Session),
  ends (dispatch_tool_calls host def calls n) s (dispatch_post calls n s).
Proof.
  induction calls as [|call calls IH]; intros n s; cbn [dispatch_tool_calls].
  { unfold ends, ret. by apply dispatch_post_nothing. }
  apply ends_bind. eapply ends_mono; [apply check_cancelled_ends|]. intros s1 [[]|err] (L1 & H1 & R1).
  2: by apply dispatch_post_nothing.
  apply ends_bind. unfold emits, modify, ends at 1. apply ends_bind.
  eapply ends_mono; [apply call_tool_ends|]. intros s2 ? (L2 & H2 & ok & output & ->).
  apply ends_bind. unfold ends at 1.
  assert (forall answer, adds s (Session.push (Session.emit s2 (AgentEvent.ToolFinished call.(ToolCall.name) ok output)) answer)
    [AgentEvent.ToolStarted call.(ToolCall.name) call.(ToolCall.arguments);
     AgentEvent.ToolFinished call.(ToolCall.name) ok output]) as A.
  { intros answer. unfold adds. cbn. rewrite L2. cbn. by rewrite L1, <- app_assoc. }
  assert (forall answer, (Session.push (Session.emit s2 (AgentEvent.ToolFinished call.(ToolCall.name) ok output)) answer).(Session.history) =
    s.(Session.history) ++ [answer]) as Hh.
  { intros answer. cbn. by rewrite H2; cbn; rewrite H1. }
  assert (forall answer n', n' = next_failures n ok -> within n [ok] ->
    ends (do_ pushes (Message.tool call.(ToolCall.id) call.(ToolCall.name) answer);
          dispatch_tool_calls host def calls n')
      (Session.emit s2 (AgentEvent.ToolFinished call.(ToolCall.name) ok output))
      (dispatch_post (call :: calls) n s)) as Go.
  { intros answer n' -> W. apply ends_bind. unfold ends at 1. eapply ends_mono; [apply IH|].
    intros s3 r D. by eapply dispatch_post_cons. }
  destruct ok; [apply Go; [done|by split; [intros; apply N.le_0_l|]]|].
  destruct def.(AgentDef.max_tool_failures) as [limit|] eqn:Lim; [|apply Go; [done|split; [intros l E'; congruence|done]]].
  destruct (N.ltb_spec (uval limit) (uval (uadd n (wrap 32 1)))) as [T|T].
  - apply ends_bind. unfold ends, pushes, modify, ret. eexists _, [call], calls, [_].
    split; [apply A|]. split; [split_and!; try done; repeat constructor|]. split; [done|].
    split; [apply Forall2_cons; split; [apply answers_tool|done]|]. split; [apply Hh|].
    exists [], limit. by split_and!.
  - apply Go; [done|]. split; [|done]. intros l E'. rewrite Lim in E'. by injection E' as <-.
Qed.

(** * One turn *)

(** The four ways a run ends with an outcome. *)
Inductive Ending := Completed | OutOfTurns | Failures (limit : u32) | Requests (limit : u32).

Definition ending_reason (ending : Ending) : string :=
  match ending with
  | Completed => "completed"
  | OutOfTurns => "max_turns"
  | Failures limit => guard_reason limit
  | Requests limit => "max_requests_per_turn (" +:+ show_u limit +:+ ") reached"
  end.

Definition ending_event (ending : Ending) : AgentEvent.t :=
  match ending with
  | Completed | OutOfTurns => AgentEvent.Done (ending_reason ending)
  | Failures _ | Requests _ => AgentEvent.Interrupted (ending_reason ending)
  end.

(** What the guardrail on failures and the transcript say of an ending, after the results [done]
    of the run's tools. *)
Definition ending_ok (ending : Ending) (n : u32) (done : list bool) (history : list Message.t) : Prop :=
  match ending with
  | Failures limit => tripped n done (guard_reason limit) /\ stopped closed history
  | _ => within n done /\ closed history
  end.

Definition turn_post (turn : u32) (p : Progress.t) (s s' : Session)
    (r : RunOutcome.t + Progress.t + AgentError.t) : Prop :=
  exists ev, adds s s' ev /\ paired (tool_events ev) /\
  match r with
  | inr err => finals ev = [] /\ (turns_of ev = [] \/ turns_of ev = [uval turn]) /\
      stopped closed s'.(Session.history) /\
      (closed s'.(Session.history) \/ err = AgentError.Cancelled)
  | inl (inl o) => turns_of ev = [uval turn] /\ o.(RunOutcome.turns) = turn /\
      o.(RunOutcome.usage) = foldl accumulate_usage p.(Progress.usage) (usages ev) /\
      exists ending, o.(RunOutcome.reason) = ending_reason ending /\ ending <> OutOfTurns /\
        finals ev = [ending_event ending] /\ last ev = Some (ending_event ending) /\
        ending_ok ending p.(Progress.consecutive_failures) (oks ev) s'.(Session.history)
  | inl (inr p') => turns_of ev = [uval turn] /\ finals ev = [] /\
      p'.(Progress.usage) = foldl accumulate_usage p.(Progress.usage) (usages ev) /\
      p'.(Progress.consecutive_failures) = trail p.(Progress.consecutive_failures) (oks ev) /\
      within p.(Progress.consecutive_failures) (oks ev) /\ closed s'.(Session.history) /\
      p'.(Progress.requests) = uadd p.(Progress.requests) (wrap 32 1) /\
      (p'.(Progress.verified) = p.(Progress.verified) /\
       (forall limit, def.(AgentDef.max_requests_per_turn) = Some limit ->
          (uval p'.(Progress.requests) < uval limit)%N) \/
       def.(AgentDef.verify_completion) = true /\ p.(Progress.verified) = false /\
       p'.(Progress.verified) = true)
  end.

(** The events of a turn up to its response, the usage event included. *)
Definition opening (turn : u32) (usage : Usage.t) (ev : list AgentEvent.t) : Prop :=
  exists deltas, Forall is_delta deltas /\
    ev = AgentEvent.TurnStarted turn :: deltas ++ [usage_event usage].

Lemma opening_app turn usage ev ev' : opening turn usage ev ->
  turns_of (ev ++ ev') = uval turn :: turns_of ev' /\ usages (ev ++ ev') = usage :: usages ev' /\
  oks (ev ++ ev') = oks ev' /\ finals (ev ++ ev') = finals ev' /\
  tool_events (ev ++ ev') = tool_events ev'.
Proof.
  intros (deltas & (D1 & D2 & D3 & D4 & D5)%delta_projections & ->).
  unfold turns_of, usages, oks, finals, tool_events in *.
  rewrite <- app_comm_cons, <- app_assoc. cbn [omap list_omap].
  rewrite !omap_app, D1, D2, D3, D4, D5. by destruct usage.
Qed.

Lemma compact_log s : ends (compact tokenizer def) s (fun s' r =>
  s'.(Session.log) = s.(Session.log) /\ r = inl () /\
  (closed s.(Session.history) -> closed s'.(Session.history))).
Proof.
  unfold ends, compact, modify. cbn. split_and!; [done|done|].
  apply growing_shape, compact_same_shape.
Qed.

Lemma growing_user history content : closed history -> closed (history ++ [Message.user content]).
Proof. intros T. by apply growing_plain. Qed.

Lemma assistant_closed before response : closed before -> response.(ChatResponse.tool_calls) = [] ->
  closed (before ++ [assistant_message response]).
Proof. intros T C. by apply growing_plain. Qed.

(** The end of a turn whose response was not final. *)
Lemma finish_turn (turn : u32) (p : Progress.t) (response : ChatResponse.t) before ev (s0 s : Session) :
  closed before -> s.(Session.history) = before ++ [assistant_message response] ->
  adds s0 s ev -> opening turn response.(ChatResponse.usage) ev ->
  ends (do dispatched <~ dispatch_tool_calls host def response.(ChatResponse.tool_calls)
             (observe p response).(Progress.consecutive_failures);
    let '(consecutive_failures, guard) := dispatched in
    let p := with_failures (observe p response) consecutive_failures in
    let interrupt reason :=
      do_ emits (AgentEvent.Interrupted reason);
      ret (inl (outcome reason turn p)) in
    match guard with
    | Some reason => interrupt reason
    | None =>
        match def.(AgentDef.max_requests_per_turn) with
        | Some limit =>
            if (uval limit <=? uval p.(Progress.requests))%N
            then interrupt ("max_requests_per_turn (" +:+ show_u limit +:+ ") reached")
            else do_ compact tokenizer def; ret (inr p)
        | None => do_ compact tokenizer def; ret (inr p)
        end
    end) s (turn_post turn p s0).
Proof.
  intros T Hh A O. apply ends_bind. eapply ends_mono; [apply dispatch_ends|].
  intros s1 r (ev1 & done & left & results & A1 & (T1 & U1 & F1 & P1) & C & F & H1 & R).
  assert (stops_at closed s1.(Session.history) left) as Op.
  { exists before, (assistant_message response), done, results. rewrite H1, Hh, <- app_assoc. done. }
  assert (adds s0 s1 (ev ++ ev1)) as A2 by (by eapply adds_trans).
  destruct (opening_app _ _ _ ev1 O) as (E1 & E2 & E3 & E4 & E5).
  destruct r as [[n' guard]|err].
  2: { exists (ev ++ ev1). rewrite E1, E4, E5, T1, F1. split_and!; try done; [by right|by right; exists left|by right]. }
  assert (forall reason ending, reason = ending_reason ending ->
    ending_event ending = AgentEvent.Interrupted reason -> ending <> OutOfTurns ->
    ending_ok ending p.(Progress.consecutive_failures) (oks ev1) s1.(Session.history) ->
    ends (do_ emits (AgentEvent.Interrupted reason);
          ret (inl (outcome reason turn (with_failures (observe p response) n')))) s1 (turn_post turn p s0)) as Stop.
  { intros reason ending Er Ee N1 Ok. unfold ends, bind, emits, modify, ret.
    exists (ev ++ ev1 ++ [AgentEvent.Interrupted reason]).
    destruct (opening_app _ _ _ (ev1 ++ [AgentEvent.Interrupted reason]) O) as (G1 & G2 & G3 & G4 & G5).
    rewrite G1, G2, G4, G5, turns_of_app, usages_app, finals_app, tool_events_app, T1, U1, F1, app_nil_r.
    split; [unfold adds in *; cbn; rewrite A2; by rewrite <- ?app_assoc|]. split; [done|].
    split_and!; [done|done|done|]. exists ending. rewrite G3, oks_app, app_nil_r, Ee.
    split_and!; [done|done|done|by rewrite app_assoc, last_snoc|done]. }
  destruct guard as [reason|].
  { destruct R as (before' & limit & R1 & R2 & R3 & R4 & R5). apply (Stop reason (Failures limit)); [done|by rewrite R4|done|].
    split; [by exists before', limit|right; by exists left]. }
  destruct R as (-> & -> & W). apply (stops_closed closed) in Op.
  assert (forall Q : Prop, (forall limit, def.(AgentDef.max_requests_per_turn) = Some limit ->
      (uval (uadd p.(Progress.requests) (wrap 32 1)) < uval limit)%N) ->
    ends (do_ compact tokenizer def; ret (inr (with_failures (observe p response)
      (trail (observe p response).(Progress.consecutive_failures) (oks ev1))))) s1 (turn_post turn p s0)) as Go.
  { intros _ Lim. apply ends_bind. eapply ends_mono; [apply compact_log|]. intros s2 r (L2 & -> & T2).
    unfold ends, ret. exists (ev ++ ev1). rewrite E1, E2, E3, E4, E5, T1, U1, F1.
    split; [unfold adds in *; by rewrite L2|]. split; [done|]. split_and!; try done; [by apply T2|].
    left. by split. }
  destruct def.(AgentDef.max_requests_per_turn) as [limit|] eqn:Lim; [|by apply (Go True)].
  cbv zeta. destruct (N.leb_spec (uval limit) (uval (with_failures (observe p response)
    (trail (observe p response).(Progress.consecutive_failures) (oks ev1))).(Progress.requests))) as [L|L].
  - apply (Stop (ending_reason (Requests limit)) (Requests limit)); done.
  - apply (Go True). intros l [= <-]. exact L.
Qed.

Lemma turn_step_ends prompt tools turn p (s : Session) : closed s.(Session.history) ->
  ends (turn_step tokenizer host def prompt tools turn p) s (turn_post turn p s).
Proof.
  intros T. unfold turn_step. apply ends_bind. eapply ends_mono; [apply check_cancelled_ends|].
  intros s1 [[]|err] (L1 & H1 & R1).
  2: { exists []. split; [unfold adds; by rewrite app_nil_r|]. split; [constructor|].
       split_and!; [done|by left|left; by rewrite H1|by right]. }
  apply ends_bind. unfold emits at 1, modify, ends at 1. apply ends_bind.
  eapply ends_mono; [apply execute_turn_ends; cbn; by rewrite H1|].
  intros s2 [response|err] (deltas & A2 & D & H2).
  2: { destruct (delta_projections _ D) as (D1 & D2 & D3 & D4 & D5).
       exists (AgentEvent.TurnStarted turn :: deltas). split; [unfold adds in *; rewrite A2; cbn; by rewrite L1, <- app_assoc|].
       unfold tool_events, finals, turns_of in *. cbn [omap list_omap]. rewrite D1, D4, D5.
       split_and!; [constructor|done|by right|by left|by left]. }
  destruct H2 as (before & T2 & H2). apply ends_bind. unfold emits at 1, modify, ends at 1.
  set (s3 := Session.emit s2 (usage_event response.(ChatResponse.usage))).
  set (ev := AgentEvent.TurnStarted turn :: deltas ++ [usage_event response.(ChatResponse.usage)]).
  assert (opening turn response.(ChatResponse.usage) ev) as O by (by exists deltas).
  assert (adds s s3 ev) as A.
  { subst s3 ev. unfold adds in *. cbn. rewrite A2. cbn. by rewrite L1, <- !app_assoc. }
  assert (s3.(Session.history) = before ++ [assistant_message response]) as H3 by done.
  destruct (bool_decide _ && bool_decide _) eqn:Fin; [|by eapply finish_turn].
  apply andb_true_iff in Fin as [C%bool_decide_eq_true _].
  assert (closed s3.(Session.history)) as T3 by (rewrite H3; by apply assistant_closed).
  destruct (def.(AgentDef.verify_completion) && negb (observe p response).(Progress.verified)) eqn:V.
  - apply andb_true_iff in V as [V1 V2%negb_true_iff]. apply ends_bind. unfold pushes, modify, ends at 1.
    apply ends_bind. eapply ends_mono; [apply compact_log|]. intros s4 r (L4 & -> & T4). unfold ends, ret.
    exists ev. destruct (opening_app _ _ _ [] O) as (E1 & E2 & E3 & E4 & E5). rewrite !app_nil_r in *.
    rewrite E1, E2, E3, E4, E5. split; [unfold adds in *; by rewrite L4|]. split; [constructor|].
    split_and!; try done; [apply T4; cbn; by apply growing_user|]. right. by split_and!.
  - unfold ends, bind, emits, modify, ret. exists (ev ++ [AgentEvent.Done "completed"]).
    destruct (opening_app _ _ _ [AgentEvent.Done "completed"] O) as (E1 & E2 & E3 & E4 & E5).
    rewrite E1, E2, E4, E5. split; [by eapply adds_trans; [exact A|]|]. split; [constructor|].
    split_and!; [done|done|done|]. exists Completed. rewrite E3, last_snoc. by split_and!.
Qed.

(** * The run *)

Lemma tripped_app n done results reason : within n done ->
  tripped (trail n done) results reason -> tripped n (done ++ results) reason.
Proof.
  intros W (before & limit & -> & Wb & L & R & T). exists (done ++ before), limit.
  split_and!; [by rewrite app_assoc|by apply within_app|done|done|].
  unfold trail in *. by rewrite foldl_app.
Qed.

Lemma ending_ok_app ending n done results history : within n done ->
  ending_ok ending (trail n done) results history -> ending_ok ending n (done ++ results) history.
Proof.
  intros W. destruct ending; cbn; rewrite ?within_app; try tauto.
  intros [T O]. split; [by apply tripped_app|done].
Qed.

(** The cap on requests still allows this turn: at most one turn, the self-check, is over it. *)
Definition paced (turn : N) (p : Progress.t) (limit : u32) : Prop :=
  (turn <= N.max 1 (uval limit))%N \/
  p.(Progress.verified) = true /\ def.(AgentDef.verify_completion) = true /\
  (turn <= N.max 1 (uval limit) + 1)%N.

Definition turn_cap (limit : u32) : N :=
  (N.max 1 (uval limit) + (if def.(AgentDef.verify_completion) then 1 else 0))%N.

Lemma paced_cap turn p limit : paced turn p limit -> (turn <= turn_cap limit)%N.
Proof. unfold paced, turn_cap. intros [L|(_ & -> & L)]; destruct (AgentDef.verify_completion def); lia. Qed.

(** The turns numbered from [turn] on. *)
Definition turn_numbers (turn : N) (k : nat) : list N := map (fun i => (turn + N.of_nat i)%N) (seq 0 k).

Lemma turn_numbers_cons turn k : turn_numbers turn (S k) = turn :: turn_numbers (turn + 1) k.
Proof.
  unfold turn_numbers. cbn [seq map]. f_equal; [lia|]. rewrite <- seq_shift, map_map.
  apply map_ext. intros. lia.
Qed.

Definition run_post (turn : N) (remaining : nat) (p : Progress.t) (s s' : Session)
    (r : RunOutcome.t + AgentError.t) : Prop :=
  exists ev k, adds s s' ev /\ paired (tool_events ev) /\ turns_of ev = turn_numbers turn k /\
  k <= remaining /\
  match r with
  | inr err => finals ev = [] /\ stopped closed s'.(Session.history) /\
      (closed s'.(Session.history) \/ err = AgentError.Cancelled)
  | inl o => (uval o.(RunOutcome.turns) + 1 = turn + N.of_nat k)%N /\
      o.(RunOutcome.usage) = foldl accumulate_usage p.(Progress.usage) (usages ev) /\
      (forall limit, def.(AgentDef.max_requests_per_turn) = Some limit -> paced turn p limit ->
         p.(Progress.requests) = wrap 32 (turn - 1) -> (uval o.(RunOutcome.turns) <= turn_cap limit)%N) /\
      exists ending, o.(RunOutcome.reason) = ending_reason ending /\
        (ending = OutOfTurns -> k = remaining) /\ finals ev = [ending_event ending] /\
        last ev = Some (ending_event ending) /\
        ending_ok ending p.(Progress.consecutive_failures) (oks ev) s'.(Session.history)
  end.

Lemma turn_wrap turn : (turn <= uval def.(AgentDef.max_turns))%N -> uval (wrap 32 turn) = turn.
Proof.
  intros L. apply uval_wrap_small. pose proof (uval_bound def.(AgentDef.max_turns)). lia.
Qed.

Lemma request_count turn : (1 <= turn)%N -> (turn <= uval def.(AgentDef.max_turns))%N ->
  uadd (wrap 32 (turn - 1)) (wrap 32 1) = wrap 32 turn.
Proof.
  intros L M. unfold uadd. rewrite (turn_wrap (turn - 1)) by lia. change (uval (wrap 32 1)) with 1%N.
  f_equal. lia.
Qed.

Lemma last_app_some {A} (l l' : list A) x : last l' = Some x -> last (l ++ l') = Some x.
Proof. intros L. by rewrite last_app, L. Qed.

Lemma turns_ends prompt tools remaining : forall turn p (s : Session), closed s.(Session.history) ->
  (1 <= turn)%N -> (turn + N.of_nat remaining = uval def.(AgentDef.max_turns) + 1)%N ->
  ends (turns tokenizer host def remaining prompt tools turn p) s (run_post turn remaining p s).
Proof.
  induction remaining as [|remaining IH]; intros turn p s T L M; cbn [turns].
  { unfold ends, bind, emits, modify, ret. exists [AgentEvent.Done "max_turns"], 0.
    split; [done|]. split; [constructor|]. split; [done|]. split; [done|]. cbn [outcome RunOutcome.turns RunOutcome.usage].
    split; [lia|]. split; [done|]. split.
    - intros limit _ P _. apply paced_cap in P. lia.
    - exists OutOfTurns. by split_and!. }
  apply ends_bind. eapply ends_mono; [by apply turn_step_ends|].
  intros s1 r (ev & A & P & R). rewrite turn_wrap in R by lia. destruct r as [[o|p']|err].
  - destruct R as (R1 & R2 & R3 & ending & E1 & E2 & E3 & E4 & E5). unfold ends, ret. exists ev, 1.
    rewrite R2, turn_wrap by lia. split; [done|]. split; [done|]. split; [by rewrite R1, turn_numbers_cons|].
    split; [lia|]. split; [lia|]. split; [done|]. split.
    + intros limit _ Pc _. by apply paced_cap in Pc.
    + exists ending. by split_and!.
  - destruct R as (R1 & R2 & R3 & R4 & R5 & R6 & R7 & R8).
    eapply ends_mono; [apply IH; [done|lia|lia]|].
    intros s2 r (ev' & k & A' & P' & T' & K' & R'). exists (ev ++ ev'), (S k).
    rewrite turns_of_app, finals_app, usages_app, oks_app, tool_events_app, R1, R2, T'.
    split; [by eapply adds_trans|]. split; [by apply paired_app|]. split; [by rewrite turn_numbers_cons|].
    split; [lia|]. destruct r as [o|err]; [|done].
    destruct R' as (O1 & O2 & O3 & ending & E1 & E2 & E3 & E4 & E5).
    split; [lia|]. split; [by rewrite O2, R3, foldl_app|]. split.
    + intros limit Lim Pc Rq. apply (O3 limit Lim); [|rewrite R7, Rq].
      * unfold paced in *.
        destruct R8 as [[V Rl]|(V1 & V2 & V3)].
        -- specialize (Rl limit Lim). rewrite R7, Rq, request_count in Rl by lia.
           rewrite turn_wrap in Rl by lia. left. lia.
        -- right. split_and!; [done|done|]. destruct Pc as [Pc|(Pc & _)]; [lia|congruence].
      * rewrite request_count by lia. f_equal. lia.
    + exists ending. split_and!; [done| |done|by apply last_app_some|].
      * intros Eo. by rewrite E2.
      * apply ending_ok_app; [done|]. by rewrite <- R4.
  - destruct R as (R1 & R2 & R3 & R4).
    assert (exists k, turns_of ev = turn_numbers turn k /\ k <= S remaining) as (k & Ek & Lk).
    { destruct R2 as [E2|E2]; [exists 0|exists 1]; rewrite E2; (split; [|lia]); [done|by rewrite turn_numbers_cons]. }
    exists ev, k. by split_and!.
Qed.

Lemma run_ends task (s : Session) : closed s.(Session.history) ->
  ends (run tokenizer host def task) s
    (run_post 1 (N.to_nat (uval def.(AgentDef.max_turns))) Progress.start s).
Proof.
  intros T. unfold ends, run. destruct (foldl _ _ _) as [e prompt]. unfold run_loop.
  change (ends (bind (pushes (Message.user task)) (fun _ =>
    do tools <~ filtered_tools host def;
    turns tokenizer host def (N.to_nat (uval def.(AgentDef.max_turns))) prompt tools 1 Progress.start))
    (Session.with_env s e) (run_post 1 (N.to_nat (uval def.(AgentDef.max_turns))) Progress.start s)).
  apply ends_bind. unfold pushes, modify, ends at 1. apply ends_bind. unfold filtered_tools, ends at 1.
  eapply ends_mono; [apply turns_ends; [cbn; by apply growing_user|lia|lia]|].
  intros s' r (ev & k & A & R). by exists ev, k.
Qed.

End agent.
