(* ===== verification/AgentRun.v ===== *)
(** The properties of a whole agent run, and runs of concrete hosts. *)
From S2P Require Import Prelude Text Json FlowDefs Tape History Agent AgentSpec.
Open Scope nerve_scope.

Section runs.
Context `{SerdeJson} {E : Type} (tokenizer : option (string -> N)).
Context (host : Host.t E) (def : AgentDef.t).

(** C6: A run keeps the transcript fit for a provider. Started on a history in which every tool call is
    answered, in order, right after its message, a run ends with such a history again, whatever the
    provider, the tools and the hooks do, compaction and overflow recovery included, unless the limit
    on failures or a cancellation stopped it between the calls of its last message; all but that
    message's calls are answered even then. *)
Theorem run_transcript (task : string) (s s' : Session.t E) (r : RunOutcome.t + AgentError.t)
    (T : Transcript s.(Session.history)) (R : run tokenizer host def task s = (s', r)) :
  open_or_closed s'.(Session.history) /\
  match r with
  | inl o => (forall limit, o.(RunOutcome.reason) <> guard_reason limit) -> Transcript s'.(Session.history)
  | inr err => err <> AgentError.Cancelled -> Transcript s'.(Session.history)
  end.
Proof.
  pose proof (run_ends tokenizer host def Transcript task s T) as H0. unfold ends in H0. rewrite R in H0.
  destruct H0 as (ev & k & _ & _ & _ & _ & P). destruct r as [o|err].
  - destruct P as (_ & _ & _ & ending & E1 & _ & _ & _ & E5). rewrite E1.
    destruct ending as [| |limit|limit]; cbn in E5; try (destruct E5; split; [by left|done]).
    split; [apply E5|]. intros N. by destruct (N limit).
  - destruct P as (_ & O & C). split; [done|]. intros N. by destruct C.
Qed.

(** C7: Every run ends, within its turns, and says so once, on whatever history it starts. It starts
    the turns 1, 2, ... up to one it reports, at most [max_turns]; starts no tool before the one before
    has finished; and a run with an outcome streams one final event, its last, with the outcome's
    reason: done when the task completed or the turns ran out (and then all of them were used),
    interrupted when a guardrail stopped it. A run that ends with an error, a cancelled run among them,
    streams no final event. *)
Theorem run_events (task : string) (s s' : Session.t E) (r : RunOutcome.t + AgentError.t)
    (R : run tokenizer host def task s = (s', r)) :
  exists events k, s'.(Session.log) = s.(Session.log) ++ events /\
    turns_of events = turn_numbers 1 k /\ (N.of_nat k <= uval def.(AgentDef.max_turns))%N /\
    paired (tool_events events) /\
    match r with
    | inl o => uval o.(RunOutcome.turns) = N.of_nat k /\
        exists ending, o.(RunOutcome.reason) = ending_reason ending /\
          finals events = [ending_event ending] /\ last events = Some (ending_event ending) /\
          (ending = OutOfTurns -> N.of_nat k = uval def.(AgentDef.max_turns))
    | inr _ => finals events = []
    end.
Proof.
  pose proof (run_ends tokenizer host def (fun _ => True) task s I) as H0. unfold ends in H0. rewrite R in H0.
  destruct H0 as (ev & k & A & P & N & L & Q). exists ev, k. split_and!; [done|done|lia|done|].
  destruct r as [o|err]; [|apply Q]. destruct Q as (Q1 & _ & _ & ending & E1 & E2 & E3 & E4 & _).
  split; [lia|]. exists ending. split_and!; [done|done|done|]. intros Eo. specialize (E2 Eo). lia.
Qed.

(** The usage of an outcome is the sum, field by field and saturating, of the usages of the
    responses the run received, each of which is streamed once. *)
Theorem run_usage (task : string) (s s' : Session.t E) (o : RunOutcome.t)
    (R : run tokenizer host def task s = (s', inl o)) :
  exists events, s'.(Session.log) = s.(Session.log) ++ events /\
    o.(RunOutcome.usage) = foldl accumulate_usage Usage.default (usages events).
Proof.
  pose proof (run_ends tokenizer host def (fun _ => True) task s I) as H0. unfold ends in H0. rewrite R in H0.
  destruct H0 as (ev & k & A & _ & _ & _ & _ & U & _). by exists ev.
Qed.

(** The limit on failures is exact. A run with an outcome is stopped for its failures when and only
    when the tools of the run, whatever turns they ran in, failed more often in a row than the limit
    allows; it stops at the failure that exceeds the limit, and a success starts the count again. *)
Theorem run_failures (task : string) (s s' : Session.t E) (o : RunOutcome.t)
    (R : run tokenizer host def task s = (s', inl o)) :
  exists events, s'.(Session.log) = s.(Session.log) ++ events /\
    ((exists limit, o.(RunOutcome.reason) = guard_reason limit /\
        tripped def (wrap 32 0) (oks events) (guard_reason limit)) \/
     (forall limit, o.(RunOutcome.reason) <> guard_reason limit) /\ within def (wrap 32 0) (oks events)).
Proof.
  pose proof (run_ends tokenizer host def (fun _ => True) task s I) as H0. unfold ends in H0. rewrite R in H0.
  destruct H0 as (ev & k & A & _ & _ & _ & _ & _ & _ & ending & E1 & _ & E3 & _ & E5). exists ev.
  split; [done|]. destruct ending as [| |limit|limit]; cbn in E5.
  1,2,4: right; split; [|apply E5]; intros l; rewrite E1; by intros [=].
  left. exists limit. split; [done|apply E5].
Qed.

(** [max_requests_per_turn] caps the run and not a turn: with it set, a run with an outcome has at
    most that many turns (one, if it is zero), and one more for the self-check. *)
Theorem requests_cap_spans_run (task : string) (s s' : Session.t E) (o : RunOutcome.t) (limit : u32)
    (L : def.(AgentDef.max_requests_per_turn) = Some limit)
    (R : run tokenizer host def task s = (s', inl o)) :
  (uval o.(RunOutcome.turns) <= turn_cap def limit)%N.
Proof.
  pose proof (run_ends tokenizer host def (fun _ => True) task s I) as H0. unfold ends in H0. rewrite R in H0.
  destruct H0 as (ev & k & A & _ & _ & _ & _ & _ & C & _). apply (C limit L); [left; lia|done].
Qed.

(** * Provider calls *)

(** A step that makes at most [n] provider calls, as [calls] counts them. *)
Definition spends {A} (calls : E -> N) (n : N) (m : Agent E A) : Prop :=
  forall s, (calls (m s).1.(Session.env) <= calls s.(Session.env) + n)%N.

Lemma spends_bind {A B} calls n1 n2 (m : Agent E A) (k : A -> Agent E B) :
  spends calls n1 m -> (forall a, spends calls n2 (k a)) -> spends calls (n1 + n2) (bind m k).
Proof.
  intros Hm Hk s. unfold bind. specialize (Hm s). destruct (m s) as [s1 [a|err]]; cbn [fst] in *; [|lia].
  specialize (Hk a s1). lia.
Qed.

Lemma spends_free {A B} calls n (m : Agent E A) (k : A -> Agent E B) :
  spends calls 0 m -> (forall a, spends calls n (k a)) -> spends calls n (bind m k).
Proof. intros Hm Hk. change n with (0 + n)%N. by apply spends_bind. Qed.

Lemma spends_ret {A} calls n (a : A) : spends calls n (ret a).
Proof. intros s. cbn. lia. Qed.

Lemma spends_modify calls f : (forall s : Session.t E, (f s).(Session.env) = s.(Session.env)) ->
  spends calls 0 (modify f).
Proof. intros Hf s. cbn. rewrite Hf. lia. Qed.

Lemma spends_emits calls e : spends calls 0 (emits e).
Proof. by apply spends_modify. Qed.

Lemma spends_pushes calls m : spends calls 0 (pushes m).
Proof. by apply spends_modify. Qed.

Lemma spends_compact calls : spends calls 0 (compact tokenizer def).
Proof. by apply spends_modify. Qed.

(** The counter goes up by one with each request the provider gets and with nothing else. *)
Record counts_chats (calls : E -> N) : Prop := {
  chat_counts e cancelled req : calls (host.(Host.chat) e cancelled req).1.1 = (calls e + 1)%N;
  call_keeps e cancelled name args : calls (host.(Host.call) e cancelled name args).1 = calls e;
  poll_keeps e : calls (host.(Host.poll) e).1 = calls e;
  start_keeps hook e prompt : hook ∈ host.(Host.on_start) -> calls (hook e prompt).1 = calls e;
  request_keeps hook e req : hook ∈ host.(Host.on_request) -> calls (hook e req).1 = calls e }.

Lemma hooks_keep {X} (calls : E -> N) (hooks : list (E -> X -> E * X)) :
  (forall hook e x, hook ∈ hooks -> calls (hook e x).1 = calls e) ->
  forall e x, calls (foldl (fun '(e, x) hook => hook e x) (e, x) hooks).1 = calls e.
Proof.
  intros K. induction hooks as [|hook hooks IH]; intros e x; [done|]. cbn [foldl].
  destruct (hook e x) as [e' x'] eqn:Hx. rewrite IH by (intros; apply K; by right).
  specialize (K hook e x ltac:(by left)). by rewrite Hx in K.
Qed.

Section counted.
Context (calls : E -> N) (C : counts_chats calls).

Lemma spends_check : spends calls 0 (check_cancelled host).
Proof.
  unfold check_cancelled. apply spends_free; [|intros []; intros s; cbn; lia].
  intros s. unfold is_cancelled. pose proof (poll_keeps _ C s.(Session.env)) as K.
  destruct (host.(Host.poll) _). cbn in *. lia.
Qed.

Lemma spends_request prompt tools : spends calls 1 (send_request host def prompt tools).
Proof.
  intros s. unfold send_request.
  match goal with |- context [foldl ?f (s.(Session.env), ?r) host.(Host.on_request)] =>
    pose proof (hooks_keep calls host.(Host.on_request) (request_keeps _ C) s.(Session.env) r) as K;
    destruct (foldl f (s.(Session.env), r) host.(Host.on_request)) as [e req] end.
  pose proof (chat_counts _ C e s.(Session.cancelled) req) as K2.
  destruct (host.(Host.chat) e _ req) as [[e' deltas] result]. cbn [fst] in *.
  assert (forall s' : Session.t E,
    (foldl (fun s delta => Session.emit s (delta_event delta)) s' deltas).(Session.env) = s'.(Session.env)) as ->.
  { clear. induction deltas as [|d deltas IH]; intros s'; [done|]. cbn [foldl]. by rewrite IH. }
  cbn. lia.
Qed.

Lemma spends_retry prompt tools : spends calls 2 (send_with_overflow_retry host def prompt tools).
Proof.
  intros s. unfold send_with_overflow_retry. pose proof (spends_request prompt tools s) as K.
  destruct (send_request host def prompt tools s) as [s1 [resp|err]]; cbn [fst] in *; [lia|].
  destruct (is_context_overflow err); [|cbn; lia].
  destruct (truncate_largest_tool_result _) as [h|]; [|cbn; lia].
  pose proof (spends_request prompt tools (Session.truncated (Session.with_history s1 h))) as K2.
  cbn in K2 |- *. lia.
Qed.

Lemma spends_dispatch tool_calls : forall n, spends calls 0 (dispatch_tool_calls host def tool_calls n).
Proof.
  induction tool_calls as [|call tool_calls IH]; intros n; cbn [dispatch_tool_calls]; [apply spends_ret|].
  apply spends_free; [apply spends_check|]. intros _. apply spends_free; [apply spends_emits|]. intros _.
  apply spends_free.
  { intros s. unfold call_tool. pose proof (call_keeps _ C s.(Session.env) s.(Session.cancelled)
      call.(ToolCall.name) call.(ToolCall.arguments)) as K. destruct (host.(Host.call) _ _ _ _). cbn in *. lia. }
  intros [ok output]. apply spends_free; [apply spends_emits|]. intros _.
  destruct ok; [|destruct def.(AgentDef.max_tool_failures) as [limit|]; [destruct (_ <? _)%N|]];
    (apply spends_free; [apply spends_pushes|]; intros _); (apply IH || apply spends_ret).
Qed.

Lemma spends_turn prompt tools turn p : spends calls 2 (turn_step tokenizer host def prompt tools turn p).
Proof.
  unfold turn_step. apply spends_free; [apply spends_check|]. intros _.
  apply spends_free; [apply spends_emits|]. intros _. change 2%N with (2 + 0)%N. apply spends_bind.
  { unfold execute_turn. apply spends_free; [apply spends_modify; intros s; cbv zeta; by destruct (_ <? _)%N|]. intros _.
    change 2%N with (2 + 0)%N. apply spends_bind; [apply spends_retry|]. intros response.
    apply spends_free; [apply spends_check|]. intros _.
    apply spends_free; [apply spends_pushes|]. intros _. apply spends_ret. }
  intros response. apply spends_free; [apply spends_emits|]. intros _.
  destruct (_ && _); [destruct (_ && _)|].
  - apply spends_free; [apply spends_pushes|]. intros _. apply spends_free; [apply spends_compact|].
    intros _. apply spends_ret.
  - apply spends_free; [apply spends_emits|]. intros _. apply spends_ret.
  - apply spends_free; [apply spends_dispatch|]. intros [n guard]. cbv zeta.
    destruct guard; [|destruct def.(AgentDef.max_requests_per_turn); [destruct (_ <=? _)%N|]];
      (apply spends_free; [first [apply spends_emits|apply spends_compact]|]; intros _; apply spends_ret).
Qed.

Lemma spends_turns prompt tools remaining : forall turn p,
  spends calls (2 * N.of_nat remaining) (turns tokenizer host def remaining prompt tools turn p).
Proof.
  induction remaining as [|remaining IH]; intros turn p; cbn [turns].
  - apply spends_free; [apply spends_emits|]. intros _. apply spends_ret.
  - replace (2 * N.of_nat (S remaining))%N with (2 + 2 * N.of_nat remaining)%N by lia.
    apply spends_bind; [apply spends_turn|]. intros [o|p']; [|apply IH]. intros s. cbn. lia.
Qed.
End counted.

(** A run asks the provider a bounded number of times: at most twice a turn, the second time only
    to recover from an overflow, so at most [2 * max_turns] requests are sent, whatever the
    provider answers and however the run ends. *)
Theorem provider_calls_bounded (calls : E -> N) (C : counts_chats calls) (task : string) (s : Session.t E) :
  (calls (run tokenizer host def task s).1.(Session.env) <=
   calls s.(Session.env) + 2 * uval def.(AgentDef.max_turns))%N.
Proof.
  unfold run.
  match goal with |- context [foldl ?f (s.(Session.env), ?r) host.(Host.on_start)] =>
    pose proof (hooks_keep calls host.(Host.on_start) (start_keeps _ C) s.(Session.env) r) as K;
    destruct (foldl f (s.(Session.env), r) host.(Host.on_start)) as [e prompt] end.
  cbn [fst] in K. unfold run_loop.
  assert (spends calls (2 * uval def.(AgentDef.max_turns)) (bind (pushes (Message.user task)) (fun _ =>
    do tools <~ filtered_tools host def;
    turns tokenizer host def (N.to_nat (uval def.(AgentDef.max_turns))) prompt tools 1 Progress.start))) as S.
  { apply spends_free; [apply spends_pushes|]. intros _. apply spends_free; [intros s'; cbn; lia|].
    intros tools. pose proof (spends_turns calls C prompt tools (N.to_nat (uval def.(AgentDef.max_turns))) 1 Progress.start) as S.
    by rewrite N2Nat.id in S. }
  specialize (S (Session.with_env s e)). cbn [Session.with_env Session.env] in S. rewrite K in S. exact S.
Qed.
End runs.

(** * Concrete runs *)

Module Demo.
#[local] Instance text : SerdeJson := fun _ => "{}".

(** A provider that reads its answers from a script and counts the requests, and a toolbox that
    has one tool. *)
Definition env : Type := list ChatResponse.t * N.

Definition host : Host.t env := {|
  Host.chat := fun '(script, n) _ _ =>
    match script with
    | response :: script =>
        ((script, (n + 1)%N), [ChatDelta.Text response.(ChatResponse.content)], inl response)
    | [] => (([], (n + 1)%N), [], inr (AgentError.Http "HTTP 500: end of script"))
    end;
  Host.specs := fun _ => [ToolSpec.Mk "read" "reads a file" JNull];
  Host.call := fun e _ name _ =>
    (e, if String.eqb name "read" then inl (JStr "body") else inr (AgentError.Tool "no such tool"));
  Host.poll := fun e => (e, false);
  Host.on_start := [];
  Host.on_request := [] |}.

Definition usage (n : N) : Usage.t := Usage.Mk (wrap 32 n) (wrap 32 1) (wrap 32 0) (wrap 32 0).

Definition calling (tools : list string) : ChatResponse.t :=
  ChatResponse.Mk EmptyString None None (map (fun name => ToolCall.Mk ("call-" +:+ name) name JNull) tools)
    FinishReason.ToolUse (usage 10).

Definition answering : ChatResponse.t :=
  ChatResponse.Mk "done" None None [] FinishReason.Stop (usage 5).

Definition def (failures : N) : AgentDef.t :=
  AgentDef.Mk "be useful" "claude-sonnet" (wrap 32 5) (Some (wrap 32 4)) (Some (wrap 32 failures)) None None None false.

Definition session (script : list ChatResponse.t) : Session.t env := new (script, 0%N) false.

Definition script : list ChatResponse.t := [calling ["read"; "write"]; answering].

Definition after (failures : N) (script : list ChatResponse.t) : Session.t env * (RunOutcome.t + AgentError.t) :=
  run None host (def failures) "task" (session script).

Definition finished (failures : N) (script : list ChatResponse.t) : RunOutcome.t :=
  match (after failures script).2 with inl o => o | inr _ => RunOutcome.Mk EmptyString (wrap 32 0) EmptyString Usage.default end.
End Demo.
#[local] Existing Instance Demo.text.

Example demo_reason : (Demo.finished 1 Demo.script).(RunOutcome.reason) = "completed" /\
  uval (Demo.finished 1 Demo.script).(RunOutcome.usage).(Usage.input_tokens) = 15%N /\
  oks (Demo.after 1 Demo.script).1.(Session.log) = [true; false].
Proof. by vm_compute. Qed.

Lemma demo_runs : run None Demo.host (Demo.def 1) "task" (Demo.session Demo.script) =
  ((Demo.after 1 Demo.script).1, inl (Demo.finished 1 Demo.script)).
Proof. vm_compute. reflexivity. Qed.

Lemma demo_stops : run None Demo.host (Demo.def 0) "task" (Demo.session Demo.script) =
  ((Demo.after 0 Demo.script).1, inl (Demo.finished 0 Demo.script)).
Proof. vm_compute. reflexivity. Qed.

Lemma run_transcript_witness : open_or_closed (Demo.after 1 Demo.script).1.(Session.history).
Proof.
  exact (proj1 (run_transcript None Demo.host (Demo.def 1) "task" (Demo.session Demo.script) _ _
    transcript_nil demo_runs)).
Defined.

Lemma run_events_witness :
  exists events k, (Demo.after 1 Demo.script).1.(Session.log) = [] ++ events /\
    turns_of events = turn_numbers 1 k /\ uval (Demo.finished 1 Demo.script).(RunOutcome.turns) = N.of_nat k.
Proof.
  destruct (run_events None Demo.host (Demo.def 1) "task" (Demo.session Demo.script)
    (Demo.after 1 Demo.script).1 (inl (Demo.finished 1 Demo.script)) demo_runs)
    as (events & k & A & T & _ & _ & O & _).
  exists events, k. split; [exact A|]. split; [exact T|exact O].
Defined.

Lemma run_usage_witness :
  exists events, (Demo.after 1 Demo.script).1.(Session.log) = [] ++ events /\
    (Demo.finished 1 Demo.script).(RunOutcome.usage) = foldl accumulate_usage Usage.default (usages events).
Proof.
  exact (run_usage None Demo.host (Demo.def 1) "task" (Demo.session Demo.script)
    (Demo.after 1 Demo.script).1 (Demo.finished 1 Demo.script) demo_runs).
Defined.

(** With no failure allowed the second call stops the run. *)
Lemma run_failures_witness :
  exists events, (Demo.after 0 Demo.script).1.(Session.log) = [] ++ events.
Proof.
  destruct (run_failures None Demo.host (Demo.def 0) "task" (Demo.session Demo.script)
    (Demo.after 0 Demo.script).1 (Demo.finished 0 Demo.script) demo_stops) as (events & A & _).
  exists events. exact A.
Defined.

Lemma requests_cap_spans_run_witness :
  (uval (Demo.finished 1 Demo.script).(RunOutcome.turns) <= turn_cap (Demo.def 1) (wrap 32 4))%N.
Proof.
  exact (requests_cap_spans_run None Demo.host (Demo.def 1) "task" (Demo.session Demo.script)
    (Demo.after 1 Demo.script).1 (Demo.finished 1 Demo.script) (wrap 32 4) eq_refl demo_runs).
Defined.

Lemma provider_calls_bounded_witness :
  ((Demo.after 1 Demo.script).1.(Session.env).2 <= 0 + 2 * 5)%N.
Proof.
  refine (provider_calls_bounded None Demo.host (Demo.def 1) snd _ "task" (Demo.session Demo.script)).
  split; [by intros [[|] ?]|done|done| |]; intros hook e x I; by apply not_elem_of_nil in I.
Defined.

(** * A run that leaves a call unanswered *)

(** Reads a transcript from the front: [pending] calls are still to be answered. *)
Fixpoint transcript_ok (pending : list ToolCall.t) (history : list Message.t) : bool :=
  match history with
  | [] => match pending with [] => true | _ => false end
  | msg :: history =>
      match pending with
      | [] => negb (bool_decide (msg.(Message.role) = Role.Tool)) &&
              transcript_ok msg.(Message.tool_calls) history
      | call :: pending =>
          bool_decide (msg.(Message.role) = Role.Tool) &&
          bool_decide (msg.(Message.tool_call_id) = Some call.(ToolCall.id)) &&
          transcript_ok pending history
      end
  end.

Lemma transcript_ok_app pending h h' : transcript_ok pending h = true ->
  transcript_ok pending (h ++ h') = transcript_ok [] h'.
Proof.
  revert pending. induction h as [|m h IH]; intros [|c pending] O; cbn in O |- *; try done.
  - apply andb_true_iff in O as [-> O]. by rewrite IH.
  - apply andb_true_iff in O as [O1 O]. rewrite O1, IH by done. done.
Qed.

Lemma transcript_checks h : Transcript h -> transcript_ok [] h = true.
Proof.
  induction 1 as [|h m T IH R C|h m results T IH R F]; [done| |].
  - rewrite transcript_ok_app by done. cbn. rewrite bool_decide_false by done. by rewrite C.
  - rewrite transcript_ok_app by done. cbn. rewrite bool_decide_false by (rewrite R; done). cbn [negb andb].
    induction F as [|c r cs rs (A1 & A2 & _) F IHF]; [done|]. cbn. by rewrite !bool_decide_true.
Qed.

(** The guardrail stops between two calls of one message: the history it leaves, which a resumed
    session sends as it is, has a call without a result. *)
Theorem guard_leaves_call_unanswered :
  exists o s', Demo.after 0 [Demo.calling ["write"; "read"]] = (s', inl o) /\
    o.(RunOutcome.reason) = guard_reason (wrap 32 0) /\ ~ Transcript s'.(Session.history).
Proof.
  exists (Demo.finished 0 [Demo.calling ["write"; "read"]]), (Demo.after 0 [Demo.calling ["write"; "read"]]).1.
  split; [vm_compute; reflexivity|]. split; [vm_compute; reflexivity|].
  intros T%transcript_checks. vm_compute in T. discriminate T.
Qed.
