(* ===== verification/Jobs.v ===== *)
(** The daemon's jobs ([nerve-workstation/src/jobs/mod.rs]): the store of records, the requests on
    it, and the threads that start, run, cancel and finish jobs at the same time.

    Proved below. Jobs under every interleaving of their threads: each runs to a recorded end, the store keeps
    exactly what it should, and terminal records never change. *)
From stdpp Require Import gmap strings.
From S2P Require Import Prelude Text Json EditText Paths.
Open Scope nerve_scope.

Definition MAX_JOB_ID_LEN : nat := 128.
Definition TERMINAL_RETAINED : nat := 128.
Definition MAX_LIST_LIMIT : nat := 500.

(** * Errors *)

Module DispatchError.
Inductive t :=
  | MissingToolName
  | UnknownTool (name : string)
  | Core (err : NerveError.t)
  | Json (source : string)
  | Edit (err : EditError.t).
End DispatchError.

Definition dispatch_error_kind (err : DispatchError.t) : string :=
  match err with
  | DispatchError.MissingToolName => "missing_tool_name"
  | DispatchError.UnknownTool _ => "unknown_tool"
  | DispatchError.Core NerveError.Cancelled => "cancelled"
  | DispatchError.Core (NerveError.AmbiguousWorkspace | NerveError.UnknownWorkspace _ |
      NerveError.ManageWorkspacesUnsupported | NerveError.MissingWorkspaceName) => "workspace"
  | DispatchError.Core _ => "core"
  | DispatchError.Json _ => "json"
  | DispatchError.Edit (EditError.StaleHash _ _ _ _) => "stale_hash"
  | DispatchError.Edit _ => "edit"
  end.

Module RuntimeError.
Inductive t :=
  | Core (err : DispatchError.t)
  | Json (source : string)
  | Adapter (message : string)
  | Panic (message : string).

Definition cancelled : t := Core (DispatchError.Core NerveError.Cancelled).

Definition kind (e : t) : string :=
  match e with
  | Core err => dispatch_error_kind err
  | Json _ => "json"
  | Adapter _ => "adapter"
  | Panic _ => "panic"
  end.

Definition is_cancelled (e : t) : bool :=
  match e with Core (DispatchError.Core NerveError.Cancelled) => true | _ => false end.
End RuntimeError.

Module RuntimeJobError.
Record t := Mk { kind : string; message : string }.
End RuntimeJobError.

Module JobError.
Inductive t := InvalidJobId (job_id : string) | DuplicateJobId (job_id : string) | UnknownJob (job_id : string).

Definition code (e : t) : Z :=
  match e with
  | InvalidJobId _ => -32602
  | UnknownJob _ => -32004
  | DuplicateJobId _ => -32009
  end%Z.
End JobError.

(** * Records *)

Module RuntimeJobStatus.
Inductive t := Running | Cancelling | Completed | Failed | Cancelled.
#[global] Instance eq_dec : EqDecision t.
Proof. solve_decision. Defined.
End RuntimeJobStatus.

(** The token of a job is the flag [cancelled_token], which its record and its thread share. *)
Module JobRecord.
Record t := Mk {
  job_id : string;
  status : RuntimeJobStatus.t;
  command : string;
  tool_name : option string;
  cancelled_token : bool;
  created_seq : u64;
  created_at_ms : u64;
  started_at_ms : option u64;
  updated_at_ms : u64;
  finished_at_ms : option u64;
  cancel_requested : bool;
  result : option json;
  error : option RuntimeJobError.t;
}.

Definition is_terminal (r : t) : bool :=
  match r.(status) with
  | RuntimeJobStatus.Completed | RuntimeJobStatus.Failed | RuntimeJobStatus.Cancelled => true
  | RuntimeJobStatus.Running | RuntimeJobStatus.Cancelling => false
  end.
End JobRecord.

Module RuntimeJobSnapshot.
Record t := Mk {
  job_id : string;
  status : RuntimeJobStatus.t;
  command : string;
  tool_name : option string;
  created_at_ms : u64;
  started_at_ms : option u64;
  updated_at_ms : u64;
  finished_at_ms : option u64;
  cancel_requested : bool;
  result : option json;
  error : option RuntimeJobError.t;
}.
End RuntimeJobSnapshot.

Module RuntimeEvent.
Inductive t :=
  | JobStarted (job_id command : string) (tool_name : option string)
  | JobProgress (job_id stage message : string) (current total : option u64)
  | JobCancelRequested (job_id : string)
  | JobCompleted (job_id : string)
  | JobFailed (job_id : string) (error : RuntimeJobError.t)
  | JobCancelled (job_id : string).
End RuntimeEvent.

Module JobStore.
Record t := Mk { records : gmap string JobRecord.t; terminal_order : list string }.
Definition default : t := Mk ∅ [].
End JobStore.

Definition snapshot (r : JobRecord.t) (include_result : bool) : RuntimeJobSnapshot.t :=
  RuntimeJobSnapshot.Mk r.(JobRecord.job_id) r.(JobRecord.status) r.(JobRecord.command)
    r.(JobRecord.tool_name) r.(JobRecord.created_at_ms) r.(JobRecord.started_at_ms)
    r.(JobRecord.updated_at_ms) r.(JobRecord.finished_at_ms) r.(JobRecord.cancel_requested)
    (if include_result then r.(JobRecord.result) else None) r.(JobRecord.error).

(** What the manager reads of a command: its name and its tool. *)
Definition new_record (job_id : string) (created_seq : u64) (command : string) (tool_name : option string)
    (now : u64) : JobRecord.t :=
  JobRecord.Mk job_id RuntimeJobStatus.Running command tool_name false created_seq now (Some now) now
    None false None None.

Definition is_valid_job_id_byte (byte : ascii) : bool :=
  let n := Ascii.nat_of_ascii byte in
  (48 <=? n) && (n <=? 57) || (65 <=? n) && (n <=? 90) || (97 <=? n) && (n <=? 122) ||
  existsb (Ascii.eqb byte) ["-"; "_"; "."; ":"]%char.

Definition validate_job_id (job_id : string) : option JobError.t :=
  if String.eqb job_id EmptyString || (MAX_JOB_ID_LEN <? String.length job_id)
  then Some (JobError.InvalidJobId job_id)
  else if all_bytes is_valid_job_id_byte job_id then None
  else Some (JobError.InvalidJobId job_id).

(** The id, the number and the counter after it. *)
Definition resolve_job_id (next_id : u64) (requested : option string)
    : u64 * (string * u64 + JobError.t) :=
  match requested with
  | Some job_id =>
      match validate_job_id job_id with
      | Some err => (next_id, inr err)
      | None => (uadd next_id (wrap 64 1), inl (job_id, next_id))
      end
  | None => (uadd next_id (wrap 64 1), inl ("job-" +:+ show_u next_id, next_id))
  end.

(** The part of [start] under the lock. *)
Definition insert_job (store : JobStore.t) (record : JobRecord.t) : JobStore.t + JobError.t :=
  match store.(JobStore.records) !! record.(JobRecord.job_id) with
  | Some _ => inr (JobError.DuplicateJobId record.(JobRecord.job_id))
  | None =>
      inl (JobStore.Mk (<[record.(JobRecord.job_id) := record]> store.(JobStore.records))
             store.(JobStore.terminal_order))
  end.

Definition get (store : JobStore.t) (job_id : string) (include_result : bool)
    : RuntimeJobSnapshot.t + JobError.t :=
  match store.(JobStore.records) !! job_id with
  | Some record => inl (snapshot record include_result)
  | None => inr (JobError.UnknownJob job_id)
  end.

Definition seq_leb (a b : JobRecord.t) : bool := u_leb a.(JobRecord.created_seq) b.(JobRecord.created_seq).

(** [values], of a hash map, in whatever order. *)
Definition list_jobs (values : list JobRecord.t) (include_terminal include_results : bool) (limit : nat)
    : list RuntimeJobSnapshot.t :=
  map (fun record => snapshot record include_results)
    (take (Nat.min limit MAX_LIST_LIMIT)
      (sort_by seq_leb
        (List.filter (fun record => include_terminal || negb (JobRecord.is_terminal record)) values))).

(** The part of [cancel] under the lock: whether the cancellation is new. *)
Definition cancel_job (store : JobStore.t) (job_id : string) (now : u64)
    : (JobStore.t * (bool * RuntimeJobSnapshot.t)) + JobError.t :=
  match store.(JobStore.records) !! job_id with
  | None => inr (JobError.UnknownJob job_id)
  | Some r =>
      if bool_decide (r.(JobRecord.status) = RuntimeJobStatus.Running) then
        let r := JobRecord.Mk r.(JobRecord.job_id) RuntimeJobStatus.Cancelling r.(JobRecord.command)
                   r.(JobRecord.tool_name) true r.(JobRecord.created_seq) r.(JobRecord.created_at_ms)
                   r.(JobRecord.started_at_ms) now r.(JobRecord.finished_at_ms) true
                   r.(JobRecord.result) r.(JobRecord.error) in
        inl (JobStore.Mk (<[job_id := r]> store.(JobStore.records)) store.(JobStore.terminal_order),
             (true, snapshot r true))
      else inl (store, (false, snapshot r true))
  end.

Section display.
(** The [Display] text of an error. *)
Context (to_string : RuntimeError.t -> string).

Definition from_runtime_error (error : RuntimeError.t) : RuntimeJobError.t :=
  RuntimeJobError.Mk (RuntimeError.kind error) (to_string error).

(** [JobRecord::finish]: the record and the event. *)
Definition finish (r : JobRecord.t) (outcome : json + RuntimeError.t) (now : u64)
    : JobRecord.t * RuntimeEvent.t :=
  let put status result error :=
    JobRecord.Mk r.(JobRecord.job_id) status r.(JobRecord.command) r.(JobRecord.tool_name)
      r.(JobRecord.cancelled_token) r.(JobRecord.created_seq) r.(JobRecord.created_at_ms)
      r.(JobRecord.started_at_ms) now (Some now) r.(JobRecord.cancel_requested) result error in
  match outcome with
  | inl result =>
      (put RuntimeJobStatus.Completed (Some result) r.(JobRecord.error),
       RuntimeEvent.JobCompleted r.(JobRecord.job_id))
  | inr error =>
      let job_error := from_runtime_error error in
      if RuntimeError.is_cancelled error then
        (put RuntimeJobStatus.Cancelled r.(JobRecord.result) (Some job_error),
         RuntimeEvent.JobCancelled r.(JobRecord.job_id))
      else
        (put RuntimeJobStatus.Failed r.(JobRecord.result) (Some job_error),
         RuntimeEvent.JobFailed r.(JobRecord.job_id) job_error)
  end.

(** The [while] loop; each round takes one id from the front. *)
Fixpoint prune (order : list string) (records : gmap string JobRecord.t) : JobStore.t :=
  match order with
  | [] => JobStore.Mk records []
  | job_id :: rest =>
      if TERMINAL_RETAINED <? length order then
        prune rest
          (match records !! job_id with
           | Some r => if JobRecord.is_terminal r then delete job_id records else records
           | None => records
           end)
      else JobStore.Mk records order
  end.

Definition prune_terminal_jobs (store : JobStore.t) : JobStore.t :=
  prune store.(JobStore.terminal_order) store.(JobStore.records).

(** The end of [run_job] under the lock; no event when the record is gone. *)
Definition finish_job (store : JobStore.t) (job_id : string) (outcome : json + RuntimeError.t) (now : u64)
    : JobStore.t * option RuntimeEvent.t :=
  match store.(JobStore.records) !! job_id with
  | None => (store, None)
  | Some record =>
      let '(record, event) := finish record outcome now in
      (prune_terminal_jobs
         (JobStore.Mk (<[job_id := record]> store.(JobStore.records))
            (store.(JobStore.terminal_order) ++ [job_id])),
       Some event)
  end.
End display.

Definition executor_panic (message : option string) : RuntimeError.t :=
  RuntimeError.Panic (match message with
                      | Some message => "executor panicked: " +:+ message
                      | None => "executor panicked"
                      end).

(** [catch_executor_panic], on what the executor did: return, or panic with a message. *)
Definition catch_executor_panic (dispatched : (json + RuntimeError.t) + option string)
    : json + RuntimeError.t :=
  match dispatched with
  | inl outcome => outcome
  | inr message => inr (executor_panic message)
  end.

(** * Threads *)

(** Where a thread is, between two of its steps on shared state. The first half is the thread of the
    request that starts a job, the second the job's own; a job's executor returns when it likes. *)
Module Phase.
Inductive t :=
  | Start (requested : option string) (command : string) (tool_name : option string)
  | Resolved (job_id : string) (created_seq : u64) (command : string) (tool_name : option string)
  | Inserted (job_id command : string) (tool_name : option string)
  | Spawned (job_id : string)
  | Executing (job_id : string)
  | Returned (job_id : string) (outcome : json + RuntimeError.t)
  | Finished (event : RuntimeEvent.t)
  | Ended
  | Refused (err : JobError.t)
  | Cancel (job_id : string)
  | CancelDone (job_id : string)
  | Answered (requested : bool).
End Phase.

Module Manager.
Record t := Mk { store : JobStore.t; next_id : u64; events : list RuntimeEvent.t; threads : list Phase.t }.

Definition start (threads : list Phase.t) : t := Mk JobStore.default (wrap 64 1) [] threads.

Section steps.
Context (to_string : RuntimeError.t -> string).

(** One step of a thread on the shared state: the store, the counter and the events. The clock and
    what an executor does are arbitrary. *)
Inductive thread_step :
    JobStore.t * u64 * list RuntimeEvent.t -> Phase.t ->
    JobStore.t * u64 * list RuntimeEvent.t -> Phase.t -> Prop :=
  | step_resolve store next events requested command tool next' result :
      resolve_job_id next requested = (next', result) ->
      thread_step (store, next, events) (Phase.Start requested command tool)
        (store, next', events)
        (match result with
         | inl (job_id, seq) => Phase.Resolved job_id seq command tool
         | inr err => Phase.Refused err
         end)
  | step_insert store next events job_id seq command tool now store' :
      insert_job store (new_record job_id seq command tool now) = inl store' ->
      thread_step (store, next, events) (Phase.Resolved job_id seq command tool)
        (store', next, events) (Phase.Inserted job_id command tool)
  | step_refuse store next events job_id seq command tool now err :
      insert_job store (new_record job_id seq command tool now) = inr err ->
      thread_step (store, next, events) (Phase.Resolved job_id seq command tool)
        (store, next, events) (Phase.Refused err)
  | step_spawn store next events job_id command tool :
      thread_step (store, next, events) (Phase.Inserted job_id command tool)
        (store, next, events ++ [RuntimeEvent.JobStarted job_id command tool]) (Phase.Spawned job_id)
  | step_execute store next events job_id :
      thread_step (store, next, events) (Phase.Spawned job_id)
        (store, next, events ++ [RuntimeEvent.JobProgress job_id "executing" "executing runtime command" None None])
        (Phase.Executing job_id)
  | step_return store next events job_id dispatched :
      thread_step (store, next, events) (Phase.Executing job_id)
        (store, next, events) (Phase.Returned job_id (catch_executor_panic dispatched))
  | step_finish store next events job_id outcome now store' event :
      finish_job to_string store job_id outcome now = (store', event) ->
      thread_step (store, next, events) (Phase.Returned job_id outcome)
        (store', next, events) (match event with Some event => Phase.Finished event | None => Phase.Ended end)
  | step_emit store next events event :
      thread_step (store, next, events) (Phase.Finished event) (store, next, events ++ [event]) Phase.Ended
  | step_cancel store next events job_id now store' requested shot :
      cancel_job store job_id now = inl (store', (requested, shot)) ->
      thread_step (store, next, events) (Phase.Cancel job_id)
        (store', next, events) (if requested then Phase.CancelDone job_id else Phase.Answered false)
  | step_cancel_unknown store next events job_id now err :
      cancel_job store job_id now = inr err ->
      thread_step (store, next, events) (Phase.Cancel job_id) (store, next, events) (Phase.Refused err)
  | step_cancel_emit store next events job_id :
      thread_step (store, next, events) (Phase.CancelDone job_id)
        (store, next, events ++ [RuntimeEvent.JobCancelRequested job_id]) (Phase.Answered true).

(** Any thread of the daemon moves. *)
Inductive step : t -> t -> Prop :=
  | step_thread m i phase store next events phase' :
      m.(threads) !! i = Some phase ->
      thread_step (m.(Manager.store), m.(next_id), m.(Manager.events)) phase (store, next, events) phase' ->
      step m (Mk store next events (<[i := phase']> m.(threads))).
End steps.
End Manager.

(** * Pruning *)

Definition terminal_in (records : gmap string JobRecord.t) (id : string) : Prop :=
  exists r, records !! id = Some r /\ JobRecord.is_terminal r = true.

Lemma prune_spec order : forall records, NoDup order -> Forall (terminal_in records) order ->
  let k := length order - TERMINAL_RETAINED in
  let store := prune order records in
  store.(JobStore.terminal_order) = drop k order /\
  forall id, store.(JobStore.records) !! id = if decide (id ∈ take k order) then None else records !! id.
Proof.
  induction order as [|id order IH]; intros records N F; cbn [prune].
  { split; [done|]. intros id. by rewrite decide_False by (apply not_elem_of_nil). }
  destruct (Nat.ltb_spec TERMINAL_RETAINED (length (id :: order))) as [L|L].
  2: { replace (length (id :: order) - TERMINAL_RETAINED) with 0 by lia. split; [done|].
       intros id'. by rewrite decide_False by (apply not_elem_of_nil). }
  apply NoDup_cons in N as [Nid N]. apply Forall_cons in F as [(r & Lr & Tr) F]. rewrite Lr, Tr.
  destruct (IH (delete id records) N) as [H1 H2].
  { eapply Forall_impl; [|intros x P; exact P]. rewrite Forall_forall in F |- *. intros x Ix.
    destruct (F x Ix) as (rx & Lx & Tx). exists rx. split; [|done]. rewrite lookup_delete_ne; [done|].
    by intros <-. }
  cbn [length] in *. replace (S (length order) - TERMINAL_RETAINED) with (S (length order - TERMINAL_RETAINED)) by lia.
  split; [exact H1|]. intros id'. rewrite H2. cbn [take].
  destruct (decide (id' ∈ take _ order)) as [I|I]; [by rewrite decide_True by (by right)|].
  destruct (decide (id' = id)) as [->|Ne].
  - rewrite lookup_delete_eq, decide_True by (by left). done.
  - rewrite lookup_delete_ne, decide_False; [done| |done]. by intros [->|?]%elem_of_cons.
Qed.

(** * The invariant *)

(** The job a thread is in charge of. *)
Definition owns (phase : Phase.t) : option string :=
  match phase with
  | Phase.Inserted id _ _ | Phase.Spawned id | Phase.Executing id | Phase.Returned id _ => Some id
  | _ => None
  end.

Record inv (m : Manager.t) : Prop := {
  inv_owned i phase id : m.(Manager.threads) !! i = Some phase -> owns phase = Some id ->
    exists r, m.(Manager.store).(JobStore.records) !! id = Some r /\ JobRecord.is_terminal r = false;
  inv_unique i j p q id : m.(Manager.threads) !! i = Some p -> m.(Manager.threads) !! j = Some q ->
    owns p = Some id -> owns q = Some id -> i = j;
  inv_live id r : m.(Manager.store).(JobStore.records) !! id = Some r -> JobRecord.is_terminal r = false ->
    exists i phase, m.(Manager.threads) !! i = Some phase /\ owns phase = Some id;
  inv_nodup : NoDup m.(Manager.store).(JobStore.terminal_order);
  inv_terminal id : id ∈ m.(Manager.store).(JobStore.terminal_order) <->
    terminal_in m.(Manager.store).(JobStore.records) id;
  inv_retained : length m.(Manager.store).(JobStore.terminal_order) <= TERMINAL_RETAINED }.

(** A thread moves and the store stays as it was, up to live records of the same ids. *)
Lemma inv_same_owner m i phase phase' store next events :
  inv m -> m.(Manager.threads) !! i = Some phase -> owns phase' = owns phase ->
  store.(JobStore.terminal_order) = m.(Manager.store).(JobStore.terminal_order) ->
  (forall id, store.(JobStore.records) !! id = m.(Manager.store).(JobStore.records) !! id \/
     exists r r', m.(Manager.store).(JobStore.records) !! id = Some r /\ JobRecord.is_terminal r = false /\
       store.(JobStore.records) !! id = Some r' /\ JobRecord.is_terminal r' = false) ->
  inv (Manager.Mk store next events (<[i := phase']> m.(Manager.threads))).
Proof.
  intros [I1 I2 I3 I4 I5 I6] Li O To Re.
  assert (forall j p, <[i := phase']> m.(Manager.threads) !! j = Some p -> exists q,
    m.(Manager.threads) !! j = Some q /\ owns q = owns p) as Back.
  { intros j p [(<- & <- & _)|[_ L]]%list_lookup_insert_Some; eauto. }
  split; cbn.
  - intros j p id Lj Oj. destruct (Back j p Lj) as (q & Lq & Eq). rewrite <- Eq in Oj.
    destruct (I1 j q id Lq Oj) as (r & Lr & Tr). destruct (Re id) as [->|(r1 & r' & _ & _ & E' & T')]; eauto.
  - intros j k p q id Lj Lk Oj Ok. destruct (Back j p Lj) as (p' & Lp & Ep), (Back k q Lk) as (q' & Lq & Eq).
    apply (I2 j k p' q' id); congruence.
  - intros id r Lr Tr. assert (exists r1, m.(Manager.store).(JobStore.records) !! id = Some r1 /\
      JobRecord.is_terminal r1 = false) as (r1 & L1 & T1).
    { destruct (Re id) as [E|(r1 & _ & E & T & _)]; [rewrite E in Lr|]; eauto. }
    destruct (I3 id r1 L1 T1) as (j & p & Lj & Oj). destruct (decide (i = j)) as [<-|N].
    + exists i, phase'. rewrite list_lookup_insert_eq by (by eapply lookup_lt_Some). split; [done|congruence].
    + exists j, p. by rewrite list_lookup_insert_ne.
  - by rewrite To.
  - intros id. rewrite To, I5. unfold terminal_in. destruct (Re id) as [->|(r1 & r2 & E1 & T1 & E2 & T2)]; [done|].
    split; intros (r & L & T); congruence.
  - by rewrite To.
Qed.

Lemma finish_terminal to_string r outcome now :
  JobRecord.is_terminal (finish to_string r outcome now).1 = true.
Proof. unfold finish. destruct outcome as [v|e]; [done|]. by destruct (RuntimeError.is_cancelled e). Qed.

Section steps.
Context (to_string : RuntimeError.t -> string).

(** What finishing a live job does to the store. *)
Lemma finish_job_spec store id r outcome now :
  store.(JobStore.records) !! id = Some r -> JobRecord.is_terminal r = false ->
  NoDup store.(JobStore.terminal_order) ->
  (forall x, x ∈ store.(JobStore.terminal_order) <-> terminal_in store.(JobStore.records) x) ->
  length store.(JobStore.terminal_order) <= TERMINAL_RETAINED ->
  exists store', finish_job to_string store id outcome now = (store', Some (finish to_string r outcome now).2) /\
    (exists k, store'.(JobStore.terminal_order) = drop k (store.(JobStore.terminal_order) ++ [id]) /\
       k = S (length store.(JobStore.terminal_order)) - TERMINAL_RETAINED /\
       forall x, store'.(JobStore.records) !! x =
         if decide (x ∈ take k (store.(JobStore.terminal_order) ++ [id])) then None
         else if decide (x = id) then Some (finish to_string r outcome now).1
         else store.(JobStore.records) !! x) /\
    length store'.(JobStore.terminal_order) <= TERMINAL_RETAINED.
Proof.
  intros L T N Te B. unfold finish_job. rewrite L.
  destruct (finish to_string r outcome now) as [r' event] eqn:Fi. cbn [fst snd].
  assert (id ∉ store.(JobStore.terminal_order)) as Nid.
  { intros (r2 & L2 & T2)%Te. congruence. }
  eexists. split; [done|].
  pose proof (finish_terminal to_string r outcome now) as Fr. rewrite Fi in Fr. cbn [fst] in Fr.
  destruct (prune_spec (store.(JobStore.terminal_order) ++ [id]) (<[id := r']> store.(JobStore.records))) as [H1 H2].
  { apply NoDup_app. split_and!; [done|by intros x Ix ->%list_elem_of_singleton|by apply NoDup_singleton]. }
  { apply Forall_app. split.
    - apply Forall_forall. intros x Ix. destruct (proj1 (Te x) Ix) as (rx & Lx & Tx). exists rx.
      rewrite lookup_insert_ne by (by intros <-). done.
    - apply Forall_singleton. exists r'. by rewrite lookup_insert_eq. }
  unfold prune_terminal_jobs. cbn [JobStore.terminal_order JobStore.records]. split.
  - eexists. split; [exact H1|].
    split; [rewrite length_app; cbn [length]; lia|].
    intros x. rewrite H2. destruct (decide (x ∈ take _ _)); [done|].
    destruct (decide (x = id)) as [->|Ne]; [apply lookup_insert_eq|apply lookup_insert_ne; congruence].
  - rewrite H1, length_drop. unfold TERMINAL_RETAINED in *. lia.
Qed.
End steps.

Section invariant.
Context (to_string : RuntimeError.t -> string).

Lemma insert_job_Some store record store' : insert_job store record = inl store' ->
  store.(JobStore.records) !! record.(JobRecord.job_id) = None /\
  store' = JobStore.Mk (<[record.(JobRecord.job_id) := record]> store.(JobStore.records))
             store.(JobStore.terminal_order).
Proof. unfold insert_job. destruct (_ !! _); [done|]. by intros [= <-]. Qed.

Lemma inv_insert m i seq id command tool now store' :
  inv m -> m.(Manager.threads) !! i = Some (Phase.Resolved id seq command tool) ->
  insert_job m.(Manager.store) (new_record id seq command tool now) = inl store' ->
  inv (Manager.Mk store' m.(Manager.next_id) m.(Manager.events)
         (<[i := Phase.Inserted id command tool]> m.(Manager.threads))).
Proof.
  intros [I1 I2 I3 I4 I5 I6] Li [Fresh ->]%insert_job_Some. cbn [new_record JobRecord.job_id] in *.
  assert (forall j p, m.(Manager.threads) !! j = Some p -> owns p <> Some id) as Free.
  { intros j p Lj Oj. destruct (I1 j p id Lj Oj) as (r & Lr & _). congruence. }
  split; cbn [Manager.store Manager.threads JobStore.records JobStore.terminal_order].
  - intros j p x [(<- & <- & _)|[N Lj]]%list_lookup_insert_Some Oj.
    + injection Oj as <-. rewrite lookup_insert_eq. by eexists.
    + rewrite lookup_insert_ne by (intros <-; by eapply Free). by eapply I1.
  - intros j k p q x Lj Lk Oj Ok.
    apply list_lookup_insert_Some in Lj as [(<- & <- & _)|[Nj Lj]];
      apply list_lookup_insert_Some in Lk as [(<- & <- & _)|[Nk Lk]]; [done| | |by eapply I2].
    + injection Oj as <-. by destruct (Free _ _ Lk).
    + injection Ok as <-. by destruct (Free _ _ Lj).
  - intros x r Lr Tr. destruct (decide (x = id)) as [->|N].
    + exists i, (Phase.Inserted id command tool). by rewrite list_lookup_insert_eq by (by eapply lookup_lt_Some).
    + rewrite lookup_insert_ne in Lr by congruence. destruct (I3 x r Lr Tr) as (j & p & Lj & Oj).
      exists j, p. rewrite list_lookup_insert_ne; [done|]. intros <-. rewrite Li in Lj. by injection Lj as <-.
  - done.
  - intros x. rewrite I5. unfold terminal_in. destruct (decide (x = id)) as [->|N].
    + rewrite lookup_insert_eq. split; intros (r & L & T); [congruence|]. by injection L as <-.
    + by rewrite lookup_insert_ne by congruence.
  - done.
Qed.

Lemma inv_finish m i id outcome now store' event :
  inv m -> m.(Manager.threads) !! i = Some (Phase.Returned id outcome) ->
  finish_job to_string m.(Manager.store) id outcome now = (store', event) ->
  inv (Manager.Mk store' m.(Manager.next_id) m.(Manager.events)
         (<[i := match event with Some event => Phase.Finished event | None => Phase.Ended end]>
            m.(Manager.threads))).
Proof.
  intros [I1 I2 I3 I4 I5 I6] Li Fi. destruct (I1 i _ id Li eq_refl) as (r & Lr & Tr).
  destruct (finish_job_spec to_string m.(Manager.store) id r outcome now Lr Tr I4 I5 I6)
    as (store'' & Fi' & (k & Ho & Hk & Hr) & Hl).
  rewrite Fi in Fi'. injection Fi' as -> ->.
  set (order := m.(Manager.store).(JobStore.terminal_order) ++ [id]) in *.
  assert (NoDup order) as No.
  { apply NoDup_app. split_and!; [done| |by apply NoDup_singleton].
    intros x Ix ->%list_elem_of_singleton. apply I5 in Ix as (r2 & L2 & T2). congruence. }
  assert (NoDup (take k order ++ drop k order)) as No' by (by rewrite take_drop).
  assert (k <= length m.(Manager.store).(JobStore.terminal_order)) as Bk by (unfold TERMINAL_RETAINED in *; lia).
  assert (forall x, x ∈ take k order -> x ∈ m.(Manager.store).(JobStore.terminal_order)) as Old.
  { intros x. unfold order. rewrite take_app_le by done. intros Ix.
    rewrite <- (take_drop k m.(Manager.store).(JobStore.terminal_order)). apply elem_of_app. by left. }
  assert (forall j p x, <[i := Phase.Finished (finish to_string r outcome now).2]> m.(Manager.threads) !! j = Some p ->
    owns p = Some x -> i <> j /\ m.(Manager.threads) !! j = Some p /\ x <> id) as Back.
  { intros j p x [(<- & <- & _)|[N Lj]]%list_lookup_insert_Some Oj; [done|]. split_and!; [done|done|].
    intros ->. apply N. by apply (I2 i j (Phase.Returned id outcome) p id). }
  split; cbn [Manager.store Manager.threads].
  - intros j p x Lj Oj. destruct (Back j p x Lj Oj) as (N & Lj' & Nx).
    destruct (I1 j p x Lj' Oj) as (rx & Lx & Tx). exists rx. split; [|done]. rewrite Hr.
    rewrite decide_False; [by rewrite decide_False|]. intros (r2 & L2 & T2)%Old%I5. congruence.
  - intros j l p q x Lj Ll Oj Ol. destruct (Back j p x Lj Oj) as (_ & Lj' & _), (Back l q x Ll Ol) as (_ & Ll' & _).
    by apply (I2 j l p q x).
  - intros x rx Lx Tx. rewrite Hr in Lx. destruct (decide (x ∈ take k order)); [done|].
    destruct (decide (x = id)) as [->|Nx].
    { injection Lx as <-. by rewrite finish_terminal in Tx. }
    destruct (I3 x rx Lx Tx) as (j & p & Lj & Oj). exists j, p. rewrite list_lookup_insert_ne; [done|].
    intros <-. rewrite Li in Lj. injection Lj as <-. cbn in Oj. congruence.
  - rewrite Ho. by apply NoDup_app in No' as (_ & _ & ?).
  - intros x. rewrite Ho. unfold terminal_in. rewrite Hr.
    assert (x ∈ drop k order <-> x ∈ order /\ x ∉ take k order) as ->.
    { apply NoDup_app in No' as (_ & Dis & _).
      assert (x ∈ order <-> x ∈ take k order \/ x ∈ drop k order) as -> by (by rewrite <- elem_of_app, take_drop).
      specialize (Dis x). tauto. }
    destruct (decide (x ∈ take k order)) as [It|It]; [split; [by intros []|by intros (? & ? & ?)]|].
    unfold order. rewrite elem_of_app, list_elem_of_singleton, I5. destruct (decide (x = id)) as [->|Nx].
    + split; [intros _|tauto]. exists (finish to_string r outcome now).1. split; [done|apply finish_terminal].
    + unfold terminal_in. split; [|tauto]. intros [[H|?] _]; done.
  - done.
Qed.

Lemma inv_cancel m i id now store' requested shot :
  inv m -> m.(Manager.threads) !! i = Some (Phase.Cancel id) ->
  cancel_job m.(Manager.store) id now = inl (store', (requested, shot)) ->
  inv (Manager.Mk store' m.(Manager.next_id) m.(Manager.events)
         (<[i := if requested then Phase.CancelDone id else Phase.Answered false]> m.(Manager.threads))).
Proof.
  intros I Li C. unfold cancel_job in C. destruct (_ !! id) as [r|] eqn:Lr; [|done].
  destruct (bool_decide_reflect (r.(JobRecord.status) = RuntimeJobStatus.Running)) as [St|St]; injection C as <- <- _.
  - eapply inv_same_owner; [exact I|exact Li|done|done|]. intros x. cbn [JobStore.records].
    destruct (decide (x = id)) as [->|N]; [right|left; by rewrite lookup_insert_ne by congruence].
    exists r. eexists. rewrite lookup_insert_eq. split_and!; [done| |done|done].
    unfold JobRecord.is_terminal. by rewrite St.
  - eapply inv_same_owner; [exact I|exact Li|done|done|by left].
Qed.

Lemma jobs_inv_step m m' : inv m -> Manager.step to_string m m' -> inv m'.
Proof.
  intros I St. revert I. destruct St as [m i phase store next events phase' Li S]. intros I. inversion S; subst;
    try (by eapply inv_same_owner; [exact I|exact Li| |done|by left]).
  - eapply inv_same_owner; [exact I|exact Li| |done|by left]. by destruct result as [[? ?]|?].
  - by eapply inv_insert.
  - by eapply inv_finish.
  - by eapply inv_cancel.
Qed.

(** Threads that have just come in. *)
Definition request (phase : Phase.t) : Prop :=
  match phase with Phase.Start _ _ _ | Phase.Cancel _ => True | _ => False end.

Lemma jobs_inv_start threads : Forall request threads -> inv (Manager.start threads).
Proof.
  intros F. rewrite Forall_lookup in F.
  assert (forall i p id, threads !! i = Some p -> owns p = Some id -> False) as No.
  { intros i p id L O. specialize (F i p L). by destruct p. }
  split; cbn.
  - intros i p id L O. by destruct (No i p id).
  - intros i j p q id L _ O. by destruct (No i p id).
  - intros id r L. by rewrite lookup_empty in L.
  - constructor.
  - intros id. unfold terminal_in. rewrite lookup_empty. split; [by intros ?%not_elem_of_nil|by intros (? & ? & _)].
  - lia.
Qed.

Lemma jobs_inv_reachable threads m : Forall request threads ->
  rtc (Manager.step to_string) (Manager.start threads) m -> inv m.
Proof.
  intros F R. pose proof (jobs_inv_start threads F) as I. induction R as [|m1 m2 m3 S R IH]; [done|].
  apply IH. by eapply jobs_inv_step.
Qed.

(** C33: The store of jobs keeps what it should, whatever the interleaving of starts, cancels and ends. A
    record that is not terminal has exactly one thread in charge of it and every such thread has
    its record, so no job is left running by nobody; the terminal records are exactly the ids in the
    order of their ends, each once, and at most [TERMINAL_RETAINED] are kept. *)
Theorem jobs_invariant (threads : list Phase.t) (m : Manager.t) (F : Forall request threads)
    (R : rtc (Manager.step to_string) (Manager.start threads) m) :
  let records := m.(Manager.store).(JobStore.records) in
  let order := m.(Manager.store).(JobStore.terminal_order) in
  (forall id, (exists r, records !! id = Some r /\ JobRecord.is_terminal r = false) <->
     exists i phase, m.(Manager.threads) !! i = Some phase /\ owns phase = Some id) /\
  (forall i j p q id, m.(Manager.threads) !! i = Some p -> m.(Manager.threads) !! j = Some q ->
     owns p = Some id -> owns q = Some id -> i = j) /\
  NoDup order /\ length order <= TERMINAL_RETAINED /\
  (forall id, id ∈ order <-> exists r, records !! id = Some r /\ JobRecord.is_terminal r = true).
Proof.
  destruct (jobs_inv_reachable threads m F R) as [I1 I2 I3 I4 I5 I6]. split_and!; try done.
  intros id. split; [intros (r & L & T); by eapply I3|intros (i & p & L & O); by eapply I1].
Qed.

(** * Ends *)

Definition to_go (phase : Phase.t) : nat :=
  match phase with
  | Phase.Start _ _ _ => 7
  | Phase.Resolved _ _ _ _ => 6
  | Phase.Inserted _ _ _ => 5
  | Phase.Spawned _ => 4
  | Phase.Executing _ => 3
  | Phase.Returned _ _ | Phase.Cancel _ => 2
  | Phase.Finished _ | Phase.CancelDone _ => 1
  | Phase.Ended | Phase.Refused _ | Phase.Answered _ => 0
  end.

Lemma thread_step_to_go s phase s' phase' :
  Manager.thread_step to_string s phase s' phase' -> to_go phase' < to_go phase.
Proof.
  destruct 1; cbn; try lia; [destruct result as [[? ?]|?]|destruct event|destruct requested]; cbn; lia.
Qed.

Lemma sum_list_insert (f : Phase.t -> nat) l i x y : l !! i = Some x -> f y < f x ->
  sum_list_with f (<[i := y]> l) < sum_list_with f l.
Proof.
  revert i. induction l as [|z l IH]; intros [|i] L F; [done|done| |].
  - injection L as ->. cbn. lia.
  - specialize (IH i L F). change (f z + sum_list_with f (<[i:=y]> l) < f z + sum_list_with f l). lia.
Qed.

Lemma thread_can_step s phase : 0 < to_go phase -> exists s' phase', Manager.thread_step to_string s phase s' phase'.
Proof.
  destruct s as [[store next] events]. intros L. destruct phase as [requested command tool|id seq command tool|
    id command tool|id|id|id outcome|event| |err|id|id|b]; cbn in L; try lia.
  - destruct (resolve_job_id next requested) as [next' result] eqn:R. eexists _, _. by eapply Manager.step_resolve.
  - destruct (insert_job store (new_record id seq command tool (wrap 64 0))) as [store'|err] eqn:Is; eexists _, _;
      [by eapply Manager.step_insert|by eapply Manager.step_refuse].
  - eexists _, _. apply Manager.step_spawn.
  - eexists _, _. apply Manager.step_execute.
  - eexists _, _. apply (Manager.step_return _ _ _ _ _ (inr None)).
  - destruct (finish_job to_string store id outcome (wrap 64 0)) as [store' event] eqn:Fi. eexists _, _.
    by eapply Manager.step_finish.
  - eexists _, _. apply Manager.step_emit.
  - destruct (cancel_job store id (wrap 64 0)) as [[store' [requested shot]]|err] eqn:C; eexists _, _;
      [by eapply Manager.step_cancel|by eapply Manager.step_cancel_unknown].
  - eexists _, _. apply Manager.step_cancel_emit.
Qed.

(** C34: Every job whose executor returns or panics ends. However the threads interleave, a daemon with
    [n] requests takes at most [7 n] steps, and as long as a thread is not at its end it can go on;
    once all are, no record is left running or cancelling. *)
Theorem jobs_end (threads : list Phase.t) (k : nat) (m : Manager.t) (F : Forall request threads)
    (R : nsteps (Manager.step to_string) k (Manager.start threads) m) :
  k <= 7 * length threads /\
  ((exists m', Manager.step to_string m m') \/
   forall id r, m.(Manager.store).(JobStore.records) !! id = Some r -> JobRecord.is_terminal r = true).
Proof.
  assert (inv m) as I by (by eapply jobs_inv_reachable, rtc_nsteps_2).
  assert (forall m m' : Manager.t, Manager.step to_string m m' ->
    sum_list_with to_go m'.(Manager.threads) < sum_list_with to_go m.(Manager.threads)) as St.
  { intros m1 m2 [m0 i p store next events p' Li S]. cbn [Manager.threads].
    eapply sum_list_insert; [exact Li|by eapply thread_step_to_go]. }
  assert (k + sum_list_with to_go m.(Manager.threads) <=
    sum_list_with to_go (Manager.start threads).(Manager.threads)) as B.
  { clear F I. induction R as [|k m1 m2 m3 S R IH]; [done|]. apply St in S. lia. }
  assert (forall l, sum_list_with to_go l <= 7 * length l) as Mx.
  { induction l as [|p l IH]; [done|]. cbn [sum_list_with length]. destruct p; cbn [to_go]; lia. }
  split; [specialize (Mx threads); cbn in B; lia|].
  destruct (decide (Exists (fun p => 0 < to_go p) m.(Manager.threads))) as [E|E].
  - left. apply Exists_exists in E as (p & Ip & Lp). apply list_elem_of_lookup in Ip as [i Li].
    destruct (thread_can_step (m.(Manager.store), m.(Manager.next_id), m.(Manager.events)) p Lp) as ([[store next] events] & p' & S).
    eexists. by eapply Manager.step_thread.
  - right. intros id r L. destruct (JobRecord.is_terminal r) eqn:T; [done|]. exfalso.
    destruct (inv_live _ I id r L T) as (i & p & Li & O). apply E, Exists_exists. exists p.
    split; [by eapply list_elem_of_lookup_2|]. destruct p; cbn in O |- *; (done || lia).
Qed.

(** The end of a job is recorded once and for good. A job whose executor has returned or panicked
    always finds its record, which becomes completed with the result, cancelled when the error is a
    cancellation, and failed otherwise, a panic included, even if a cancel came in; and no step of any
    thread changes a terminal record, it is only dropped when newer ones fill the store. *)
Theorem job_end_recorded (threads : list Phase.t) (m m' : Manager.t) (F : Forall request threads)
    (R : rtc (Manager.step to_string) (Manager.start threads) m) (S : Manager.step to_string m m') :
  (forall i id outcome now, m.(Manager.threads) !! i = Some (Phase.Returned id outcome) ->
     exists store' r event, finish_job to_string m.(Manager.store) id outcome now = (store', Some event) /\
       store'.(JobStore.records) !! id = Some r /\
       match outcome with
       | inl result => r.(JobRecord.status) = RuntimeJobStatus.Completed /\ r.(JobRecord.result) = Some result
       | inr error => r.(JobRecord.error) = Some (from_runtime_error to_string error) /\
           r.(JobRecord.status) = if RuntimeError.is_cancelled error then RuntimeJobStatus.Cancelled
                                  else RuntimeJobStatus.Failed
       end) /\
  (forall id r, m.(Manager.store).(JobStore.records) !! id = Some r -> JobRecord.is_terminal r = true ->
     m'.(Manager.store).(JobStore.records) !! id = Some r \/
     m'.(Manager.store).(JobStore.records) !! id = None /\
       length m.(Manager.store).(JobStore.terminal_order) = TERMINAL_RETAINED).
Proof.
  pose proof (jobs_inv_reachable threads m F R) as [I1 I2 I3 I4 I5 I6].
  assert (forall i id outcome now, m.(Manager.threads) !! i = Some (Phase.Returned id outcome) ->
    exists store' r, m.(Manager.store).(JobStore.records) !! id = Some r /\
      finish_job to_string m.(Manager.store) id outcome now = (store', Some (finish to_string r outcome now).2) /\
      store'.(JobStore.records) !! id = Some (finish to_string r outcome now).1 /\
      forall x, x <> id -> store'.(JobStore.records) !! x = m.(Manager.store).(JobStore.records) !! x \/
        store'.(JobStore.records) !! x = None /\
          length m.(Manager.store).(JobStore.terminal_order) = TERMINAL_RETAINED) as Fin.
  { intros i id outcome now Li. destruct (I1 i _ id Li eq_refl) as (r & Lr & Tr).
    destruct (finish_job_spec to_string m.(Manager.store) id r outcome now Lr Tr I4 I5 I6)
      as (store' & Fi & (k & Ho & Hk & Hr) & Hl).
    exists store', r. split; [done|]. split; [done|]. split.
    - rewrite Hr, decide_False; [by rewrite decide_True|]. unfold TERMINAL_RETAINED in *.
      rewrite take_app_le by lia. intros Ix.
      assert (id ∈ m.(Manager.store).(JobStore.terminal_order)) as Io.
      { rewrite <- (take_drop k m.(Manager.store).(JobStore.terminal_order)). apply elem_of_app. by left. }
      apply I5 in Io as (r2 & L2 & T2). congruence.
    - intros x Nx. rewrite Hr. destruct (decide (x ∈ take k _)) as [Ix|Ix]; [right|left; by rewrite decide_False].
      split; [done|]. destruct k as [|k]; [by apply not_elem_of_nil in Ix|]. lia. }
  split.
  - intros i id outcome now Li. destruct (Fin i id outcome now Li) as (store' & r & _ & Fi & Lr & _).
    exists store', (finish to_string r outcome now).1, (finish to_string r outcome now).2. split; [done|].
    split; [done|]. unfold finish. destruct outcome as [v|e]; [done|]. by destruct (RuntimeError.is_cancelled e).
  - intros id r L T. revert I1 I2 I3 I4 I5 I6 Fin L. destruct S as [m i p store next events p' Li S].
    intros I1 I2 I3 I4 I5 I6 Fin L. inversion S; subst; cbn [Manager.store]; try (by left).
    + left. match goal with Hi : insert_job _ _ = inl _ |- _ => apply insert_job_Some in Hi as [Fr ->] end.
      cbn [JobStore.records new_record JobRecord.job_id] in *. rewrite lookup_insert_ne; [done|]. intros <-. congruence.
    + match goal with Hf : finish_job _ _ _ outcome ?t = _ |- _ =>
        destruct (Fin i job_id outcome t Li) as (store2 & r' & L' & Fi & _ & Ot); rewrite Hf in Fi end.
      injection Fi as -> _. rewrite <- L. apply Ot. intros E. destruct (I1 i _ _ Li eq_refl) as (r2 & L2 & T2). congruence.
    + left. match goal with Hc : cancel_job _ _ _ = _ |- _ => unfold cancel_job in Hc; rename Hc into C end.
      destruct (_ !! job_id) as [r'|] eqn:Lr; [|done].
      destruct (bool_decide_reflect (r'.(JobRecord.status) = RuntimeJobStatus.Running)) as [St|St]; injection C as <- <- _; [|done].
      cbn [JobStore.records]. rewrite lookup_insert_ne; [done|]. intros <-. rewrite L in Lr. injection Lr as <-.
      unfold JobRecord.is_terminal in T. by rewrite St in T.
Qed.
End invariant.

(** * Runs *)

Definition plain (e : RuntimeError.t) : string := RuntimeError.kind e.

(** One step of the thread in place [i]. *)
Lemma run_step i m phase store next events phase' m' :
  m.(Manager.threads) !! i = Some phase ->
  Manager.thread_step plain (m.(Manager.store), m.(Manager.next_id), m.(Manager.events)) phase
    (store, next, events) phase' ->
  m' = Manager.Mk store next events (<[i := phase']> m.(Manager.threads)) ->
  Manager.step plain m m'.
Proof. intros L S ->. by eapply Manager.step_thread. Qed.

Definition demo_threads : list Phase.t :=
  [Phase.Start (Some "job-2") "workspace.search" None; Phase.Start None "ping" None].

Definition demo_store (now : u64) : JobStore.t :=
  JobStore.Mk {["job-2" := new_record "job-2" (wrap 64 1) "workspace.search" None now]} [].

(** The first thread up to the return of its executor, with [job-2] in the store. *)
Definition demo_returned : Manager.t :=
  Manager.Mk (demo_store (wrap 64 5)) (wrap 64 2)
    [RuntimeEvent.JobStarted "job-2" "workspace.search" None;
     RuntimeEvent.JobProgress "job-2" "executing" "executing runtime command" None None]
    [Phase.Returned "job-2" (inr (executor_panic (Some "boom"))); Phase.Start None "ping" None].

Lemma demo_run : nsteps (Manager.step plain) 5 (Manager.start demo_threads) demo_returned.
Proof.
  eapply nsteps_l.
  { eapply (run_step 0); [reflexivity| |reflexivity]. by eapply Manager.step_resolve. }
  eapply nsteps_l.
  { eapply (run_step 0); [reflexivity| |reflexivity]. by eapply (Manager.step_insert _ _ _ _ _ _ _ _ (wrap 64 5)). }
  eapply nsteps_l.
  { eapply (run_step 0); [reflexivity| |reflexivity]. by eapply Manager.step_spawn. }
  eapply nsteps_l.
  { eapply (run_step 0); [reflexivity| |reflexivity]. by eapply Manager.step_execute. }
  eapply nsteps_once.
  eapply (run_step 0); [reflexivity| |reflexivity]. by eapply (Manager.step_return _ _ _ _ _ (inr (Some "boom"))).
Qed.

Lemma demo_requests : Forall request demo_threads.
Proof. by repeat constructor. Qed.

(** The end of [job-2] there. *)
Lemma demo_finish : exists m', Manager.step plain demo_returned m'.
Proof.
  eexists. eapply (run_step 0); [reflexivity| |reflexivity].
  eapply (Manager.step_finish _ _ _ _ _ _ (wrap 64 9)). apply surjective_pairing.
Qed.

Lemma jobs_invariant_witness :
  demo_returned.(Manager.store).(JobStore.records) !! "job-2" <> None /\
  ((exists r, demo_returned.(Manager.store).(JobStore.records) !! "job-2" = Some r /\ JobRecord.is_terminal r = false) <->
     exists i phase, demo_returned.(Manager.threads) !! i = Some phase /\ owns phase = Some "job-2").
Proof.
  split; [by vm_compute|].
  exact (proj1 (jobs_invariant plain demo_threads demo_returned demo_requests (rtc_nsteps_2 _ _ _ demo_run)) "job-2").
Defined.

Lemma jobs_end_witness :
  5 <= 7 * length demo_threads /\
  ((exists m', Manager.step plain demo_returned m') \/
   forall id r, demo_returned.(Manager.store).(JobStore.records) !! id = Some r -> JobRecord.is_terminal r = true).
Proof. exact (jobs_end plain demo_threads 5 demo_returned demo_requests demo_run). Defined.

Lemma job_end_recorded_witness :
  exists store' r event,
    finish_job plain (demo_store (wrap 64 5)) "job-2" (inr (executor_panic (Some "boom"))) (wrap 64 9) = (store', Some event) /\
    store'.(JobStore.records) !! "job-2" = Some r /\
    r.(JobRecord.error) = Some (from_runtime_error plain (executor_panic (Some "boom"))) /\
    r.(JobRecord.status) = RuntimeJobStatus.Failed.
Proof.
  destruct demo_finish as [m' S].
  destruct (job_end_recorded plain demo_threads demo_returned m' demo_requests (rtc_nsteps_2 _ _ _ demo_run) S) as [H _].
  exact (H 0 "job-2" (inr (executor_panic (Some "boom"))) (wrap 64 9) eq_refl).
Defined.

(** A request that names no job is refused as a duplicate when an earlier request took the id its
    number gives. *)
Theorem auto_id_collides :
  exists m, rtc (Manager.step plain) (Manager.start demo_threads) m /\
    m.(Manager.threads) !! 1 = Some (Phase.Refused (JobError.DuplicateJobId "job-2")).
Proof.
  eexists. split.
  - eapply rtc_l.
    { eapply (run_step 0); [reflexivity| |reflexivity]. by eapply Manager.step_resolve. }
    eapply rtc_l.
    { eapply (run_step 0); [reflexivity| |reflexivity]. by eapply (Manager.step_insert _ _ _ _ _ _ _ _ (wrap 64 5)). }
    eapply rtc_l.
    { eapply (run_step 1); [reflexivity| |reflexivity]. by eapply Manager.step_resolve. }
    eapply rtc_l; [|apply rtc_refl].
    eapply (run_step 1); [reflexivity| |reflexivity].
    eapply (Manager.step_refuse _ _ _ _ _ _ _ _ (wrap 64 6)). vm_compute. reflexivity.
  - reflexivity.
Qed.
