(* ===== verification/Disk.v ===== *)
(** The system calls of [std::fs] a store makes, the disk they act on, and the programs made of
    them. A program is a tree of calls, so that the same definition runs alone ([exec]) or in steps
    among others ([Pool.step]); every call may be refused, and a write may stop half-way. *)
From stdpp Require Import gmap strings.
From S2P Require Import Prelude Text.
Open Scope nerve_scope.

(** A file of a directory: the directory's path and the file's name. *)
Definition file_path : Type := string * string.

Definition display (p : file_path) : string := p.1 +:+ "/" +:+ p.2.

Module IoError.
Inductive t := NotFound | InvalidData | Other.
End IoError.

(** * UTF-8 *)

Definition byte_in (lo hi : nat) (c : ascii) : bool :=
  let n := Ascii.nat_of_ascii c in (lo <=? n) && (n <=? hi).
Definition cont : ascii -> bool := byte_in 128 191.

(** [str::from_utf8]: the well-formed byte sequences. *)
Fixpoint utf8_valid (s : string) : bool :=
  match s with
  | EmptyString => true
  | String a s1 =>
      if byte_in 0 127 a then utf8_valid s1
      else
        match s1 with
        | EmptyString => false
        | String b s2 =>
            if byte_in 194 223 a then cont b && utf8_valid s2
            else
              match s2 with
              | EmptyString => false
              | String c s3 =>
                  if Ascii.nat_of_ascii a =? 224 then byte_in 160 191 b && cont c && utf8_valid s3
                  else if Ascii.nat_of_ascii a =? 237 then byte_in 128 159 b && cont c && utf8_valid s3
                  else if byte_in 225 239 a then cont b && cont c && utf8_valid s3
                  else
                    match s3 with
                    | EmptyString => false
                    | String d s4 =>
                        (if Ascii.nat_of_ascii a =? 240 then byte_in 144 191 b
                         else if byte_in 241 243 a then cont b
                         else (Ascii.nat_of_ascii a =? 244) && byte_in 128 143 b)
                        && cont c && cont d && utf8_valid s4
                    end
              end
        end
  end.

(** * Bytes *)

Fixpoint take_bytes (n : nat) (s : string) : string :=
  match n, s with
  | S n, String c s => String c (take_bytes n s)
  | _, _ => EmptyString
  end.

Fixpoint drop_bytes (n : nat) (s : string) : string :=
  match n, s with
  | 0, _ => s
  | S n, String _ s => drop_bytes n s
  | S _, EmptyString => EmptyString
  end.

(** Writing at the start of what a file holds. *)
Definition overlay (new old : string) : string := new +:+ drop_bytes (String.length new) old.

(** * The disk *)

(** Directories, names of files and what the files hold. A name stands for an inode, so that an open
    file survives the renaming of its name. *)
Module Disk.
Record t := Mk {
  dirs : gset string;
  names : gmap file_path nat;
  data : gmap nat string;
  next : nat;
}.

Definition empty : t := Mk ∅ ∅ ∅ 0.

Definition file (d : t) (p : file_path) : option string := i ← d.(names) !! p; d.(data) !! i.

Definition set_data (d : t) (i : nat) (s : string) : t :=
  Mk d.(dirs) d.(names) (<[i := s]> d.(data)) d.(next).

(** A new empty file. *)
Definition create (d : t) (p : file_path) : t :=
  Mk d.(dirs) (<[p := d.(next)]> d.(names)) (<[d.(next) := EmptyString]> d.(data)) (S d.(next)).

Definition listing (d : t) (dir : string) : list string :=
  omap (fun e : file_path * nat => if decide (e.1.1 = dir) then Some e.1.2 else None)
    (map_to_list d.(names)).
End Disk.

(** * Calls *)

Inductive call : Type -> Type :=
  | ReadToString (p : file_path) : call (string + IoError.t)
  | ReadDir (dir : string) : call (list string + IoError.t)
  | CreateDirAll (dir : string) : call (unit + IoError.t)
  | OpenTruncate (p : file_path) : call (nat + IoError.t)
  | OpenAppend (p : file_path) : call (nat + IoError.t)
  | WriteStart (fd : nat) (bytes : string) : call (unit + IoError.t)
  | WriteEnd (fd : nat) (bytes : string) : call (unit + IoError.t)
  | Rename (from to : file_path) : call (unit + IoError.t).

(** What becomes of a call. [Torn n]: a write stops after [n] bytes. [Listed]: the order in which a
    directory gives its names. *)
Module Fate.
Inductive t := Done | Failed | Torn (written : nat) | Listed (names : list string).
End Fate.

Definition open_at (truncate : bool) (p : file_path) (d : Disk.t) : Disk.t * (nat + IoError.t) :=
  if bool_decide (p.1 ∈ d.(Disk.dirs)) then
    match d.(Disk.names) !! p with
    | Some i => (if truncate then Disk.set_data d i EmptyString else d, inl i)
    | None => (Disk.create d p, inl d.(Disk.next))
    end
  else (d, inr IoError.NotFound).

(** The call when the system carries it out. *)
Definition perform {X} (c : call X) (d : Disk.t) : Disk.t * X :=
  match c with
  | ReadToString p =>
      (d, match Disk.file d p with
          | None => inr IoError.NotFound
          | Some s => if utf8_valid s then inl s else inr IoError.InvalidData
          end)
  | ReadDir dir =>
      (d, if bool_decide (dir ∈ d.(Disk.dirs)) then inl (Disk.listing d dir) else inr IoError.NotFound)
  | CreateDirAll dir =>
      (Disk.Mk ({[dir]} ∪ d.(Disk.dirs)) d.(Disk.names) d.(Disk.data) d.(Disk.next), inl tt)
  | OpenTruncate p => open_at true p d
  | OpenAppend p => open_at false p d
  | WriteStart fd bytes => (Disk.set_data d fd (overlay bytes (default EmptyString (d.(Disk.data) !! fd))), inl tt)
  | WriteEnd fd bytes => (Disk.set_data d fd (default EmptyString (d.(Disk.data) !! fd) +:+ bytes), inl tt)
  | Rename from to =>
      match d.(Disk.names) !! from with
      | Some i => (Disk.Mk d.(Disk.dirs) (<[to := i]> (delete from d.(Disk.names))) d.(Disk.data) d.(Disk.next), inl tt)
      | None => (d, inr IoError.NotFound)
      end
  end.

Definition refuse {X} (c : call X) : X :=
  match c with
  | ReadToString _ | ReadDir _ | OpenTruncate _ | OpenAppend _
  | CreateDirAll _ | WriteStart _ _ | WriteEnd _ _ | Rename _ _ => inr IoError.Other
  end.

(** The part of a call that a torn one carries out. *)
Definition part {X} (n : nat) (c : call X) (d : Disk.t) : Disk.t :=
  match c with
  | WriteStart fd bytes => (perform (WriteStart fd (take_bytes n bytes)) d).1
  | WriteEnd fd bytes => (perform (WriteEnd fd (take_bytes n bytes)) d).1
  | _ => d
  end.

Definition reorder {X} (order : list string) (c : call X) : X -> X :=
  match c with
  | ReadDir _ => fun x =>
      match x with
      | inl names => inl (if bool_decide (order ≡ₚ names) then order else names)
      | inr e => inr e
      end
  | _ => fun x => x
  end.

Definition meet {X} (f : Fate.t) (c : call X) (d : Disk.t) : Disk.t * X :=
  match f with
  | Fate.Done => perform c d
  | Fate.Failed => (d, refuse c)
  | Fate.Torn n => (part n c d, refuse c)
  | Fate.Listed order => let '(d, x) := perform c d in (d, reorder order c x)
  end.

(** * Programs *)

Inductive io (A : Type) : Type :=
  | Ret (a : A)
  | Call {X : Type} (c : call X) (k : X -> io A).
Arguments Ret {A} a.
Arguments Call {A X} c k.

Fixpoint io_bind {A B} (m : io A) (k : A -> io B) : io B :=
  match m with
  | Ret a => k a
  | Call c k' => Call c (fun x => io_bind (k' x) k)
  end.

Notation "'run!' x := m 'in' k" := (io_bind m (fun x => k))
  (at level 10, x binder, m at level 200, k at level 200) : nerve_scope.

(** The question mark: an error ends the program. *)
Definition io_try {A B E} (m : io (A + E)) (k : A -> io (B + E)) : io (B + E) :=
  io_bind m (fun r => match r with inl a => k a | inr e => Ret (inr e) end).

Notation "'try!' x := m 'in' k" := (io_try m (fun x => k))
  (at level 10, x binder, m at level 200, k at level 200) : nerve_scope.

Definition sys {X} (c : call X) : io X := Call c Ret.

(** [with_context]: the text of an error is its outermost context. *)
Definition with_context {A} (context : string) (m : io (A + IoError.t)) : io (A + string) :=
  io_bind m (fun r => Ret (match r with inl a => inl a | inr _ => inr context end)).

(** A program running alone: calls meet their fates in order; past the end all are done. *)
Fixpoint exec {A} (fates : list Fate.t) (m : io A) (d : Disk.t) : Disk.t * list Fate.t * A :=
  match m with
  | Ret a => (d, fates, a)
  | Call c k =>
      match fates with
      | [] => let '(d, x) := perform c d in exec [] (k x) d
      | f :: fates => let '(d, x) := meet f c d in exec fates (k x) d
      end
  end.

(** One call of a program. *)
Definition advance {A} (f : Fate.t) (m : io A) (d : Disk.t) : option (Disk.t * io A) :=
  match m with
  | Ret _ => None
  | Call c k => let '(d, x) := meet f c d in Some (d, k x)
  end.

(** Programs running together, one call at a time. *)
Module Pool.
Record t (A : Type) := Mk { disk : Disk.t; threads : list (io A) }.
Arguments Mk {A} disk threads.
Arguments disk {A} t.
Arguments threads {A} t.

Inductive step {A} : t A -> t A -> Prop :=
  | step_thread p i m f d m' :
      p.(threads) !! i = Some m -> advance f m p.(disk) = Some (d, m') ->
      step p (Mk d (<[i := m']> p.(threads))).

(** A schedule: which program moves, and what becomes of its call. *)
Fixpoint run {A} (schedule : list (nat * Fate.t)) (p : t A) : t A :=
  match schedule with
  | [] => p
  | (i, f) :: schedule =>
      match m ← p.(threads) !! i; advance f m p.(disk) with
      | Some (d, m) => run schedule (Mk d (<[i := m]> p.(threads)))
      | None => run schedule p
      end
  end.

Lemma run_steps {A} schedule : forall p : t A, rtc step p (run schedule p).
Proof.
  induction schedule as [|[i f] schedule IH]; intros p; [done|]. cbn [run].
  destruct (p.(threads) !! i) as [m|] eqn:Li; cbn; [|apply IH].
  destruct (advance f m p.(disk)) as [[d m']|] eqn:Ad; [|apply IH].
  eapply rtc_l; [by eapply step_thread|apply IH].
Qed.
End Pool.

(** * [std::fs] on top of the calls *)

(** [fs::write]: open, truncate, then write at the start. *)
Definition fs_write (p : file_path) (bytes : string) : io (unit + IoError.t) :=
  try! fd := sys (OpenTruncate p) in sys (WriteStart fd bytes).

(** [str::lines]. *)
Definition strip_cr (line : string) : string :=
  match rev_str line with
  | String c rest => if Ascii.eqb c "013"%char then rev_str rest else line
  | EmptyString => line
  end.

Definition str_lines (s : string) : list string :=
  let pieces := split_on "010" s in
  map strip_cr (match last pieces with Some EmptyString => removelast pieces | _ => pieces end).

(** The extension of a file's name. *)
Definition extension (name : string) : option string :=
  match rsplit_once "." name with
  | Some (EmptyString, _) | None => None
  | Some (_, ext) => Some ext
  end.
