(* ===== verification/Wire.v ===== *)
(** The text of JSON values, written and read back: [serde_json]'s [from_str] and
    [to_string_pretty] stay abstract, and what is relied on is that reading a written text gives the
    value back up to the order of an object's fields, which a type's [Deserialize] does not see. *)
From stdpp Require Import gmap strings.
From S2P Require Import Prelude Text Json Digest Reference Disk.
Open Scope nerve_scope.

(** * Values up to the order of fields *)

Inductive json_equiv : json -> json -> Prop :=
  | equiv_refl j : json_equiv j j
  | equiv_arr l l' : Forall2 json_equiv l l' -> json_equiv (JArr l) (JArr l')
  | equiv_obj m m' m'' :
      Forall2 (fun a b => a.1 = b.1 /\ json_equiv a.2 b.2) m m'' -> m'' ≡ₚ m' ->
      json_equiv (JObj m) (JObj m').

(** Fields of an object read back. *)
Definition reread (m m' : list (string * json)) : Prop :=
  exists m'', Forall2 (fun a b => a.1 = b.1 /\ json_equiv a.2 b.2) m m'' /\ m'' ≡ₚ m'.

Lemma equiv_obj_inv m j : json_equiv (JObj m) j -> exists m', j = JObj m' /\ reread m m'.
Proof.
  inversion 1; subst.
  - exists m. split; [done|]. exists m. split; [|done]. induction m as [|[k v] m IH]; constructor; [|apply IH; constructor].
    split; [done|constructor].
  - eexists. split; [done|]. by eexists.
Qed.

Lemma equiv_arr_inv l j : json_equiv (JArr l) j -> exists l', j = JArr l' /\ Forall2 json_equiv l l'.
Proof.
  inversion 1; subst; [|by eexists]. exists l. split; [done|]. induction l; constructor; [constructor|].
  apply IHl. constructor.
Qed.

Lemma equiv_atom_inv j j' : json_equiv j j' ->
  match j with JArr _ | JObj _ => True | _ => j' = j end.
Proof. by inversion 1; subst; [destruct j'|..]. Qed.

(** * Types that read back *)

Class Wire (A : Type) `{Serde A} := de_equiv : forall (a : A) j, json_equiv (ser a) j -> de j = Some a.
#[global] Hint Mode Wire ! - : typeclass_instances.

(** Types written as one scalar. *)
Lemma wire_atom `{Serde A} : (forall a : A, match ser a with JArr _ | JObj _ => False | _ => True end) -> Wire A.
Proof.
  intros At a j E. apply equiv_atom_inv in E. specialize (At a).
  destruct (ser a) eqn:S; try done; subst j; rewrite <- S; apply de_ser.
Qed.

#[export] Instance bool_wire : Wire bool.
Proof. by apply wire_atom. Qed.
#[export] Instance string_wire : Wire string.
Proof. by apply wire_atom. Qed.
#[export] Instance uint_wire w : Wire (uint w).
Proof. by apply wire_atom. Qed.
#[export] Instance i32_wire : Wire i32.
Proof. by apply wire_atom. Qed.

#[export] Instance list_wire `{Wire A} : Wire (list A).
Proof.
  intros l j E. change (ser l) with (JArr (map ser l)) in E. apply equiv_arr_inv in E as (l' & -> & F). cbn.
  revert l' F. induction l as [|a l IH]; intros l' F; [by apply Forall2_nil_inv_l in F as ->|].
  cbn in F. apply Forall2_cons_inv_l in F as (j & l'' & Ej & F & ->). cbn. rewrite (de_equiv a j Ej). cbn.
  by rewrite (IH _ F).
Qed.

(** ** Fields *)

Lemma get_Some k v m : NoDup (map fst m) -> (k, v) ∈ m -> get k m = Some (Some v).
Proof.
  induction m as [|[k' v'] m IH]; intros N I; [by apply not_elem_of_nil in I|]. cbn in *.
  apply NoDup_cons in N as [Nk N]. apply elem_of_cons in I as [[= <- <-]|I].
  - by rewrite decide_True, decide_False.
  - rewrite decide_False; [by apply IH|]. intros <-. apply Nk. by apply (list_elem_of_fmap_2 fst m (k, v) I).
Qed.

Lemma get_None k m : k ∉ map fst m -> get k m = Some None.
Proof.
  induction m as [|[k' v'] m IH]; cbn; intros N; [done|]. apply not_elem_of_cons in N as [N1 N2].
  rewrite decide_False by done. by apply IH.
Qed.

Lemma reread_keys m m' : reread m m' -> map fst m ≡ₚ map fst m'.
Proof.
  intros (m'' & F & P). transitivity (map fst m''); [|by apply Permutation_map].
  clear P. induction F as [|[k v] [k' v'] m m'' [E _] F IH]; [done|]. cbn in *. rewrite E. by constructor.
Qed.

Lemma reread_get k m m' : NoDup (map fst m) -> reread m m' ->
  match get k m with
  | Some (Some v) => exists v', get k m' = Some (Some v') /\ json_equiv v v'
  | _ => get k m' = Some None
  end.
Proof.
  intros N R. pose proof (reread_keys _ _ R) as P. assert (NoDup (map fst m')) as N' by (by rewrite <- P).
  destruct (decide (k ∈ map fst m)) as [I|I].
  - apply list_elem_of_fmap in I as ([k' v] & -> & I). cbn. rewrite (get_Some k' v) by done.
    destruct R as (m'' & F & P'). apply list_elem_of_lookup in I as [i Li].
    destruct (Forall2_lookup_l _ _ _ _ _ F Li) as ([k2 v2] & L2 & E & Ev). cbn in *. subst k2.
    exists v2. split; [|done]. apply get_Some; [done|]. rewrite <- P'. by eapply list_elem_of_lookup_2.
  - rewrite (get_None k m I). apply get_None. by rewrite <- P.
Qed.

Section readers.
Context `{Wire A} (k : string) (fs : fields) (m : list (string * json)) (R : reread (present fs) m)
  (ND : bool_decide (NoDup (map fst fs)) = true).

Lemma NoDup_present fs' : NoDup (map fst fs') -> NoDup (map fst (present fs')).
Proof.
  induction fs' as [|[k' [v|]] fs' IH]; cbn; intros N; [done|..]; apply NoDup_cons in N as [Nk N]; [|by apply IH].
  apply NoDup_cons. split; [|by apply IH]. intros I. by apply Nk, present_keys.
Qed.

Lemma reread_field :
  match lookup_field k fs with
  | Some v => exists v', get k m = Some (Some v') /\ json_equiv v v'
  | None => get k m = Some None
  end.
Proof using R ND.
  pose proof (reread_get k _ _ (NoDup_present fs ltac:(by eapply bool_decide_eq_true)) R) as G.
  rewrite (get_present k fs) in G by (by eapply bool_decide_eq_true). by destruct (lookup_field k fs).
Qed.

Lemma req_reread (a : A) : lookup_field k fs = Some (ser a) -> req k m = Some a.
Proof using All.
  intros E. pose proof reread_field as F. rewrite E in F. destruct F as (v' & G & Ev). unfold req. rewrite G.
  by apply de_equiv.
Qed.

Lemma dflt_reread (d a : A) skip :
  (skip a = true -> a = d) -> lookup_field k fs = (if skip a : bool then None else Some (ser a)) ->
  dflt d k m = Some a.
Proof using All.
  intros S E. pose proof reread_field as F. rewrite E in F. unfold dflt. destruct (skip a).
  - rewrite F. by rewrite S.
  - destruct F as (v' & G & Ev). rewrite G. by apply de_equiv.
Qed.

Lemma opt_reread (o : option A) : lookup_field k fs = ser <$> o -> opt k m = Some o.
Proof using All.
  intros E. pose proof reread_field as F. rewrite E in F. unfold opt. destruct o as [a|]; cbn in F; [|by rewrite F].
  destruct F as (v' & G & Ev). rewrite G. apply de_equiv in Ev as D.
  destruct v'; try (by rewrite D). exfalso. apply (ser_nonnull a).
  by inversion Ev.
Qed.
End readers.

(** Proves [Wire] of a struct or a tagged enum, as [serde_struct] and [serde_enum] prove [Serde]. *)
Ltac wire_field R :=
  match type of R with
  | reread (present ?fs) ?m =>
      match goal with
      | |- mbind _ (req ?k m) = _ =>
          refine (bind_field _ _ _ _ (req_reread k fs m R eq_refl _ eq_refl) _)
      | |- mbind _ (opt ?k m) = _ =>
          refine (bind_field _ _ _ _ (opt_reread k fs m R eq_refl _ eq_refl) _)
      | |- mbind _ (dflt ?d ?k m) = _ =>
          match fs with
          | context [ fld_skip ?skip k ?a ] =>
              refine (bind_field _ _ _ _ (dflt_reread k fs m R eq_refl d a skip _ eq_refl) _); [serde_skip|]
          | context [ fld k ?a ] =>
              refine (bind_field _ _ _ _ (dflt_reread k fs m R eq_refl d a (fun _ => false) _ eq_refl) _); [done|]
          end
      end
  end; cbv beta.

Ltac wire_struct :=
  intros [] ? E; cbn -[present] in E; unfold obj in E; cbn -[present] in E;
  apply equiv_obj_inv in E as (? & -> & R); cbn -[req dflt opt present wrap];
  repeat wire_field R; reflexivity.

Ltac wire_enum :=
  intros [] ? E; cbn -[present] in E; unfold obj in E; cbn -[present] in E;
  apply equiv_obj_inv in E as (? & -> & R); cbn -[req dflt opt present wrap by_tag]; wire_field R;
  cbn [by_tag String.eqb Ascii.eqb Bool.eqb]; repeat wire_field R; reflexivity.

(** * Text *)

(** [serde_json::from_str] and [to_string_pretty]; [to_string] is [to_vec]. *)
Class SerdeText := {
  from_str : string -> option json;
  to_string_pretty : json -> string;
}.

(** The compact text is one line of valid UTF-8, a blank text is no value, and a text read back is the
    value it was written from. *)
Class SerdeTextSpec `{SerdeJson, SerdeText} : Prop := {
  from_str_compact j : exists j', from_str (to_vec j) = Some j' /\ json_equiv j j';
  from_str_pretty j : exists j', from_str (to_string_pretty j) = Some j' /\ json_equiv j j';
  compact_line j : no_char "010" (to_vec j) = true /\ no_char "013" (to_vec j) = true;
  compact_utf8 j : utf8_valid (to_vec j) = true;
  pretty_utf8 j : utf8_valid (to_string_pretty j) = true;
  from_str_blank s : trim s = EmptyString -> from_str s = None;
}.

(** [Value::get], [as_u64] and the map's [insert]. *)
Definition value_get (k : string) (v : json) : option json :=
  match v with JObj m => snd <$> find (fun kv => String.eqb k kv.1) m | _ => None end.

Definition as_u64 (v : json) : option u64 :=
  match v with
  | JNum z => if ((0 <=? z) && (z <? 2 ^ 64))%Z then Some (wrap 64 (Z.to_N z)) else None
  | _ => None
  end.

Fixpoint map_insert (k : string) (v : json) (m : list (string * json)) : list (string * json) :=
  match m with
  | [] => [(k, v)]
  | (k', v') :: m => if String.eqb k k' then (k', v) :: m else (k', v') :: map_insert k v m
  end.
