(* ===== verification/WireTypes.v ===== *)
(** The records the stores keep read back whatever the order of their fields ([Wire]). *)
From stdpp Require Import gmap strings.
From S2P Require Import Prelude Text Json Digest Reference Verdicts Provenance Outcomes Ledgers Policies Receipts Disk Wire.
Open Scope nerve_scope.

(** * Tags *)

#[export] Instance check_kind_wire : Wire CheckKind.t.
Proof. apply wire_atom. by intros []. Qed.
#[export] Instance check_status_wire : Wire CheckStatus.t.
Proof. apply wire_atom. by intros []. Qed.
#[export] Instance verdict_status_wire : Wire VerdictStatus.t.
Proof. apply wire_atom. by intros []. Qed.
#[export] Instance attestation_wire : Wire Attestation.t.
Proof. apply wire_atom. by intros []. Qed.
#[export] Instance isolation_tier_wire : Wire IsolationTier.t.
Proof. apply wire_atom. by intros []. Qed.
#[export] Instance outcome_wire : Wire Outcome.t.
Proof. wire_enum. Qed.
#[export] Instance label_source_wire : Wire LabelSource.t.
Proof. wire_enum. Qed.
#[export] Instance decision_outcome_wire : Wire PolicyDecisionOutcome.t.
Proof. apply wire_atom. by intros []. Qed.
#[export] Instance capability_wire : Wire Capability.t.
Proof. apply wire_atom. by intros []. Qed.

(** * Verdicts, the ledger *)

#[export] Instance check_result_wire : Wire CheckResult.t.
Proof. wire_struct. Qed.
#[export] Instance verdict_wire : Wire Verdict.t.
Proof. wire_struct. Qed.
#[export] Instance judge_wire : Wire AdvisoryJudge.t.
Proof. wire_struct. Qed.
#[export] Instance ledger_kind_wire : Wire LedgerKind.t.
Proof. wire_enum. Qed.
#[export] Instance ledger_record_wire : Wire LedgerRecord.t.
Proof. wire_struct. Qed.
#[export] Instance ledger_head_wire : Wire LedgerHead.t.
Proof. wire_struct. Qed.

(** * Runs *)

#[export] Instance run_inputs_wire : Wire RunInputs.t.
Proof. wire_struct. Qed.
#[export] Instance event_kind_wire : Wire EventKind.t.
Proof. wire_enum. Qed.
#[export] Instance event_wire : Wire Event.t.
Proof. wire_struct. Qed.
#[export] Instance ledger_entry_wire : Wire LedgerEntry.t.
Proof. wire_struct. Qed.
#[export] Instance run_wire : Wire Run.t.
Proof. wire_struct. Qed.

(** * Outcomes, policies, receipts *)

#[export] Instance outcome_label_wire : Wire OutcomeLabel.t.
Proof. wire_struct. Qed.
#[export] Instance outcome_record_wire : Wire OutcomeRecord.t.
Proof. wire_struct. Qed.
#[export] Instance capability_rule_wire : Wire CapabilityRule.t.
Proof. wire_struct. Qed.
#[export] Instance merge_bar_wire : Wire MergeBar.t.
Proof. wire_struct. Qed.
#[export] Instance evidence_requirement_wire : Wire EvidenceRequirement.t.
Proof. wire_struct. Qed.
#[export] Instance policy_doc_wire : Wire PolicyDoc.t.
Proof. wire_struct. Qed.
#[export] Instance receipt_check_wire : Wire ReceiptCheck.t.
Proof. wire_struct. Qed.
#[export] Instance ledger_ref_wire : Wire LedgerRef.t.
Proof. wire_struct. Qed.
#[export] Instance receipt_provenance_wire : Wire ReceiptProvenance.t.
Proof. wire_struct. Qed.
#[export] Instance replay_binding_wire : Wire ReplayBinding.t.
Proof. wire_struct. Qed.
#[export] Instance receipt_signature_wire : Wire ReceiptSignature.t.
Proof. wire_struct. Qed.
#[export] Instance receipt_statement_wire : Wire ReceiptStatement.t.
Proof. wire_struct. Qed.
#[export] Instance receipt_wire : Wire Receipt.t.
Proof. wire_struct. Qed.
