(* ===== verification/WireReference.v ===== *)
(** The reference text of JSON values read back: the instance of [SerdeText] the witnesses run on. *)
From stdpp Require Import gmap strings.
From S2P Require Import Prelude Text Json Digest Reference Disk Wire.
Open Scope nerve_scope.

Fixpoint dec_string (s : string) : option (string * string) :=
  match s with
  | String (Ascii b0 b1 b2 b3 _ _ true _) (String (Ascii b4 b5 b6 b7 _ _ _ _) s) =>
      '(r, rest) ← dec_string s; Some (String (Ascii b0 b1 b2 b3 b4 b5 b6 b7) r, rest)
  | String _ rest => Some (EmptyString, rest)
  | EmptyString => None
  end.

Fixpoint dec_pos (s : string) : option (positive * string) :=
  match s with
  | String "1" s => '(p, rest) ← dec_pos s; Some (xI p, rest)
  | String "0" s => '(p, rest) ← dec_pos s; Some (xO p, rest)
  | String ";" rest => Some (xH, rest)
  | _ => None
  end.

Definition dec_Z (s : string) : option (Z * string) :=
  match s with
  | String "z" rest => Some (0%Z, rest)
  | String "p" s => '(p, rest) ← dec_pos s; Some (Zpos p, rest)
  | String "m" s => '(p, rest) ← dec_pos s; Some (Zneg p, rest)
  | _ => None
  end.

Fixpoint dec_json (fuel : nat) (s : string) : option (json * string) :=
  match fuel with
  | 0 => None
  | S fuel =>
      match s with
      | String "n" rest => Some (JNull, rest)
      | String "t" rest => Some (JBool true, rest)
      | String "f" rest => Some (JBool false, rest)
      | String "i" s => '(z, rest) ← dec_Z s; Some (JNum z, rest)
      | String "s" s => '(s, rest) ← dec_string s; Some (JStr s, rest)
      | String "[" s => '(l, rest) ← dec_items fuel s; Some (JArr l, rest)
      | String "{" s => '(m, rest) ← dec_fields fuel s; Some (JObj m, rest)
      | _ => None
      end
  end
with dec_items (fuel : nat) (s : string) : option (list json * string) :=
  match fuel with
  | 0 => None
  | S fuel =>
      match s with
      | String "]" rest => Some ([], rest)
      | _ => '(j, s) ← dec_json fuel s; '(l, rest) ← dec_items fuel s; Some (j :: l, rest)
      end
  end
with dec_fields (fuel : nat) (s : string) : option (list (string * json) * string) :=
  match fuel with
  | 0 => None
  | S fuel =>
      match s with
      | String "}" rest => Some ([], rest)
      | String "," s =>
          '(k, s) ← dec_string s; '(v, s) ← dec_json fuel s; '(m, rest) ← dec_fields fuel s;
          Some ((k, v) :: m, rest)
      | _ => None
      end
  end.

Definition dec_text (s : string) : option json :=
  if String.eqb (trim s) EmptyString then None else fst <$> dec_json (S (String.length s)) s.

Lemma dec_enc_string s x : dec_string (enc_string s +:+ x) = Some (s, x).
Proof. induction s as [|[] s IH]; [done|]. cbn. by rewrite IH. Qed.

Lemma dec_enc_pos p x : dec_pos (enc_pos p +:+ x) = Some (p, x).
Proof. induction p as [p IH|p IH|]; [| |done]; cbn; by rewrite IH. Qed.

Lemma dec_enc_Z z x : dec_Z (enc_Z z +:+ x) = Some (z, x).
Proof. destruct z; [done| |]; cbn; by rewrite dec_enc_pos. Qed.

Definition enc_field (kv : string * json) : bytes := String "," (enc_string kv.1 +:+ enc_json kv.2).

Lemma enc_obj m : enc_json (JObj m) = String "{" (concat_str (map enc_field m) +:+ "}").
Proof. cbn. do 3 f_equal. apply map_ext. by intros []. Qed.

Definition decodes (j : json) : Prop :=
  forall fuel x, String.length (enc_json j) < fuel -> dec_json fuel (enc_json j +:+ x) = Some (j, x).

Lemma dec_enc_items l : Forall decodes l -> forall fuel x,
  String.length (concat_str (map enc_json l)) + 1 < fuel ->
  dec_items fuel ((concat_str (map enc_json l) +:+ "]") +:+ x) = Some (l, x).
Proof.
  induction 1 as [|j l D F IH]; intros [|fuel] x L; try lia; [done|]. cbn in L.
  rewrite length_app_str in L. cbn [map concat_str]. rewrite !app_assoc_str.
  destruct (enc_json_head j) as (c & s & E & N & _).
  assert (String.length (enc_json j) = S (String.length s)) as Ls by (by rewrite E).
  assert (dec_items (S fuel) (enc_json j +:+ concat_str (map enc_json l) +:+ "]" +:+ x) =
    ('(j', s') ← dec_json fuel (enc_json j +:+ concat_str (map enc_json l) +:+ "]" +:+ x);
     '(l', rest) ← dec_items fuel s'; Some (j' :: l', rest))) as ->.
  { rewrite E. cbn. destruct (ascii_dec c "]") as [->|]; [done|]. destruct c as [[] [] [] [] [] [] [] []]; try done. }
  rewrite D by lia. cbn [mbind option_bind]. rewrite <- app_assoc_str, IH by lia. done.
Qed.

Lemma dec_enc_fields m : Forall (fun kv => decodes kv.2) m -> forall fuel x,
  String.length (concat_str (map enc_field m)) + 1 < fuel ->
  dec_fields fuel ((concat_str (map enc_field m) +:+ "}") +:+ x) = Some (m, x).
Proof.
  induction 1 as [|[k v] m D F IH]; intros [|fuel] x L; try lia; [done|]. cbn [fst snd] in D.
  assert (String.length (concat_str (map enc_field ((k, v) :: m))) =
    S (String.length (enc_string k) + String.length (enc_json v)) + String.length (concat_str (map enc_field m))) as Ls.
  { cbn [map concat_str]. rewrite length_app_str. unfold enc_field at 1. cbn [String.length fst snd].
    by rewrite length_app_str. }
  rewrite Ls in L. cbn [map concat_str]. unfold enc_field at 1. cbn [fst snd].
  assert ((String "," (enc_string k +:+ enc_json v) +:+ concat_str (map enc_field m)) +:+ "}" +:+ x =
    String "," (enc_string k +:+ enc_json v +:+ (concat_str (map enc_field m) +:+ "}") +:+ x)) as E.
  { cbn. by rewrite !app_assoc_str. }
  rewrite app_assoc_str, E. clear E Ls. cbn [dec_fields]. rewrite dec_enc_string. cbn [mbind option_bind].
  rewrite D by lia. cbn [mbind option_bind]. rewrite IH by lia. done.
Qed.

Lemma dec_enc_json j : decodes j.
Proof.
  induction j as [|b|z|s|l IH|m IH] using json_nested_ind; intros [|fuel] x L; try lia.
  - done.
  - by destruct b.
  - cbn. by rewrite dec_enc_Z.
  - cbn. by rewrite dec_enc_string.
  - cbn in L. rewrite length_app_str in L. cbn in L. cbn [enc_json dec_json].
    change (String "[" ?s +:+ x) with (String "[" (s +:+ x)). cbv iota.
    rewrite dec_enc_items by (done || lia). done.
  - rewrite enc_obj in L |- *. cbn in L. rewrite length_app_str in L. cbn in L. cbn [dec_json].
    change (String "{" ?s +:+ x) with (String "{" (s +:+ x)). cbv iota.
    rewrite dec_enc_fields by (done || lia). done.
Qed.

(** * The laws *)

(** The text is made of printable ASCII. *)
Definition printable (c : ascii) : bool := byte_in 32 126 c.

Lemma all_bytes_app p a b : all_bytes p (a +:+ b) = all_bytes p a && all_bytes p b.
Proof. induction a as [|c a IH]; [done|]. cbn. by rewrite IH, andb_assoc. Qed.

Lemma printable_string s : all_bytes printable (enc_string s) = true.
Proof. induction s as [|[[] [] [] [] [] [] [] []] s IH]; [done|exact IH..]. Qed.

Lemma printable_pos p : all_bytes printable (enc_pos p) = true.
Proof. induction p as [p IH|p IH|]; [exact IH|exact IH|done]. Qed.

Lemma printable_concat l : Forall (fun s => all_bytes printable s = true) l -> all_bytes printable (concat_str l) = true.
Proof. induction 1 as [|s l E F IH]; [done|]. cbn. by rewrite all_bytes_app, E, IH. Qed.

Lemma printable_json j : all_bytes printable (enc_json j) = true.
Proof.
  induction j as [|b|z|s|l IH|m IH] using json_nested_ind.
  - done.
  - by destruct b.
  - destruct z; [done|exact (printable_pos p)..].
  - exact (printable_string s).
  - cbn [enc_json all_bytes]. rewrite all_bytes_app, printable_concat; [done|]. by apply Forall_map.
  - rewrite enc_obj. cbn [all_bytes]. rewrite all_bytes_app, printable_concat; [done|].
    apply Forall_map. eapply Forall_impl; [exact IH|]. intros [k v] E. cbn in *.
    by rewrite all_bytes_app, printable_string, E.
Qed.

Lemma printable_utf8 s : all_bytes printable s = true -> utf8_valid s = true.
Proof.
  induction s as [|c s IH]; [done|]. cbn [all_bytes utf8_valid]. intros [P E]%andb_true_iff.
  unfold printable, byte_in in *. apply andb_true_iff in P as [P1 P2]. apply Nat.leb_le in P2.
  rewrite (proj2 (Nat.leb_le _ 127)) by lia. by apply IH.
Qed.

Lemma printable_no_char s n : all_bytes printable s = true -> n < 32 -> no_char (Ascii.ascii_of_nat n) s = true.
Proof.
  intros P L. induction s as [|c s IH]; [done|]. cbn [all_bytes] in P. apply andb_true_iff in P as [P E].
  cbn [no_char]. rewrite IH, andb_true_r by done. apply negb_true_iff, bool_decide_eq_false. intros Ec.
  apply (f_equal Ascii.nat_of_ascii) in Ec. rewrite Ascii.nat_ascii_embedding in Ec by lia.
  unfold printable, byte_in in P. apply andb_true_iff in P as [P _]. apply Nat.leb_le in P. lia.
Qed.

Lemma trim_json j : trim (enc_json j) <> EmptyString.
Proof.
  assert (forall c s, strip_one_white (String c s) = None -> trim (String c s) <> EmptyString) as K.
  { intros c s W. unfold trim. cbn [String.length trim_start]. rewrite W. cbn [trim_end].
    unfold all_white. cbn [String.length trim_start]. rewrite W. done. }
  destruct j as [|[]| | | |]; by apply K.
Qed.

Lemma dec_text_json j : dec_text (enc_json j) = Some j.
Proof.
  unfold dec_text. destruct (String.eqb_spec (trim (enc_json j)) EmptyString) as [E|_]; [by apply trim_json in E|].
  rewrite <- (app_empty_r (enc_json j)) at 2. by rewrite dec_enc_json by lia.
Qed.

#[export] Instance ref_text : SerdeText := {| from_str := dec_text; to_string_pretty := enc_json |}.
#[export] Instance ref_text_spec : SerdeTextSpec.
Proof.
  split; cbn.
  - intros j. exists j. split; [apply dec_text_json|constructor].
  - intros j. exists j. split; [apply dec_text_json|constructor].
  - intros j. split; [apply (printable_no_char _ 10)|apply (printable_no_char _ 13)]; (apply printable_json || lia).
  - intros j. apply printable_utf8, printable_json.
  - intros j. apply printable_utf8, printable_json.
  - intros s E. unfold dec_text. by rewrite E.
Qed.
