(* ===== verification/RecordStore.v ===== *)
(** The stores that keep one file a record ([nerve-workstation/src/run_store.rs], [verify_store.rs],
    [receipt_store.rs], [outcome_store.rs], [delegate_store.rs]). They have one text, instantiated at
    each record's type, its id, its schema version and the order of its listing. *)
From stdpp Require Import gmap strings.
From S2P Require Import Prelude Text Json Digest Verdicts Provenance Outcomes Receipts Disk Wire WireTypes.
Open Scope nerve_scope.

(** What a store knows of its records. *)
Class StoredRecord (A : Type) `{Serde A} := {
  record_id : A -> string;
  record_version : A -> u32;
  current_version : u32;
  dir_noun : string;
  id_noun : string;
  parse_failure : string -> string;
  listed_before : A -> A -> bool;
}.
#[global] Hint Mode StoredRecord ! - : typeclass_instances.

Definition is_id_byte (c : ascii) : bool :=
  let n := Ascii.nat_of_ascii c in
  (48 <=? n) && (n <=? 57) || (65 <=? n) && (n <=? 90) || (97 <=? n) && (n <=? 122) ||
  Ascii.eqb c "-" || Ascii.eqb c "_".

Definition id_valid (id : string) : bool :=
  negb (String.eqb id EmptyString) && (String.length id <=? 128) && all_bytes is_id_byte id.

(** The temporary name of a file being written. *)
Definition tmp_of (p : file_path) : file_path := (p.1, "." +:+ p.2 +:+ ".tmp").

Definition atomic_write (p : file_path) (bytes : string) : io (unit + string) :=
  let tmp := tmp_of p in
  try! _ := with_context ("failed to write " +:+ display tmp) (fs_write tmp bytes) in
  with_context ("failed to rename " +:+ display tmp +:+ " -> " +:+ display p) (sys (Rename tmp p)).

(** [migrate_to_current]: [None] for a version newer than the supported one. *)
Definition migrate_to_current (supported : u32) (value : json) (version : u64) : option json :=
  if (uval supported <? uval version)%N then None
  else Some (match value with
             | JObj m => JObj (map_insert "schema_version" (ser supported) m)
             | _ => value
             end).

(** A text read, migrated to the supported version, then decoded. *)
Definition deserialize_versioned `{SerdeText} (A : Type) `{Serde A} (supported : u32) (raw : string) : option A :=
  value ← from_str raw;
  let version := default (wrap 64 1) (value_get "schema_version" value ≫= as_u64) in
  value ← migrate_to_current supported value version;
  de value.

Section store.
Context `{SerdeJson, SerdeText}.

Definition deserialize_record (A : Type) `{StoredRecord A} (raw : string) : option A :=
  deserialize_versioned A (current_version (A:=A)) raw.

Context {A : Type} `{StoredRecord A}.

Definition validate_id (id : string) : unit + string :=
  if id_valid id then inl tt
  else inr ("invalid " +:+ id_noun (A:=A) +:+ " id '" +:+ id +:+ "': use only letters, digits, '-' and '_'").

Definition path_for (dir id : string) : file_path + string :=
  match validate_id id with
  | inl _ => inl (dir, id +:+ ".json")
  | inr e => inr e
  end.

Definition write_record (dir : string) (record : A) : io (unit + string) :=
  match path_for dir (record_id record) with
  | inr e => Ret (inr e)
  | inl path =>
      try! _ := with_context ("failed to create " +:+ dir_noun (A:=A) +:+ " dir " +:+ dir) (sys (CreateDirAll dir)) in
      atomic_write path (to_string_pretty (ser record))
  end.

Definition load_record (dir id : string) : io (A + string) :=
  match path_for dir id with
  | inr e => Ret (inr e)
  | inl path =>
      try! raw := with_context ("failed to read " +:+ display path) (sys (ReadToString path)) in
      Ret (match deserialize_record A raw with
           | Some record => inl record
           | None => inr (parse_failure (A:=A) id)
           end)
  end.

(** The loop over the directory's entries. *)
Fixpoint read_entries (dir : string) (names : list string) : io (list A) :=
  match names with
  | [] => Ret []
  | name :: names =>
      if bool_decide (extension name = Some "json") then
        run! raw := sys (ReadToString (dir, name)) in
        run! rest := read_entries dir names in
        Ret (match raw with
             | inl raw =>
                 match deserialize_record A raw with Some record => record :: rest | None => rest end
             | inr _ => rest
             end)
      else read_entries dir names
  end.

Definition list_records (io_text : IoError.t -> string) (dir : string) : io (list A + string) :=
  run! entries := sys (ReadDir dir) in
  match entries with
  | inl names => run! records := read_entries dir names in Ret (inl (sort_by listed_before records))
  | inr IoError.NotFound => Ret (inl [])
  | inr err => Ret (inr ("failed to read " +:+ dir +:+ ": " +:+ io_text err))
  end.
End store.

(** Newest first, then by id, backwards. *)
Definition newest_first {A} (at_ms : A -> u64) (id : A -> string) (a b : A) : bool :=
  lex_leb u_leb string_leb (at_ms b, id b) (at_ms a, id a).

(** * The stores *)

Module RunStore.
#[export] Instance stored : StoredRecord Run.t := {|
  record_id := Run.run_id;
  record_version := Run.schema_version;
  current_version := RUN_SCHEMA_VERSION;
  dir_noun := "runs";
  id_noun := "run";
  parse_failure id := "failed to parse run " +:+ id;
  listed_before := newest_first Run.started_at_ms Run.run_id;
|}.
Section operations.
Context `{SerdeJson, SerdeText} (io_text : IoError.t -> string) (dir : string).
Definition validate_id : string -> unit + string := RecordStore.validate_id (A:=Run.t).
Definition path_for : string -> file_path + string := RecordStore.path_for (A:=Run.t) dir.
Definition atomic_write : file_path -> bytes -> io (unit + string) := RecordStore.atomic_write.
Definition migrate_to_current : json -> u64 -> option json := RecordStore.migrate_to_current RUN_SCHEMA_VERSION.
Definition write_record : Run.t -> io (unit + string) := RecordStore.write_record dir.
Definition load_record : string -> io (Run.t + string) := RecordStore.load_record dir.
Definition list : io (Datatypes.list Run.t + string) := list_records io_text dir.
Definition deserialize_record : string -> option Run.t := RecordStore.deserialize_record Run.t.
End operations.
End RunStore.

Module VerifyStore.
#[export] Instance stored : StoredRecord Verdict.t := {|
  record_id := Verdict.verdict_id;
  record_version := Verdict.schema_version;
  current_version := VERDICT_SCHEMA_VERSION;
  dir_noun := "verdicts";
  id_noun := "verdict";
  parse_failure id := "failed to parse verdict " +:+ id;
  listed_before := newest_first Verdict.verified_at_ms Verdict.verdict_id;
|}.
Section operations.
Context `{SerdeJson, SerdeText} (io_text : IoError.t -> string) (dir : string).
Definition validate_id : string -> unit + string := RecordStore.validate_id (A:=Verdict.t).
Definition path_for : string -> file_path + string := RecordStore.path_for (A:=Verdict.t) dir.
Definition atomic_write : file_path -> bytes -> io (unit + string) := RecordStore.atomic_write.
Definition migrate_to_current : json -> u64 -> option json := RecordStore.migrate_to_current VERDICT_SCHEMA_VERSION.
Definition write_record : Verdict.t -> io (unit + string) := RecordStore.write_record dir.
Definition load_record : string -> io (Verdict.t + string) := RecordStore.load_record dir.
Definition list : io (Datatypes.list Verdict.t + string) := list_records io_text dir.
Definition deserialize_record : string -> option Verdict.t := RecordStore.deserialize_record Verdict.t.
End operations.
End VerifyStore.

Module ReceiptStore.
#[export] Instance stored : StoredRecord Receipt.t := {|
  record_id := Receipt.receipt_id;
  record_version := Receipt.schema_version;
  current_version := RECEIPT_SCHEMA_VERSION;
  dir_noun := "receipts";
  id_noun := "receipt";
  parse_failure id := "failed to parse receipt " +:+ id;
  listed_before :=
    newest_first (fun r => r.(Receipt.statement).(ReceiptStatement.issued_at_ms)) Receipt.receipt_id;
|}.
Section operations.
Context `{SerdeJson, SerdeText} (io_text : IoError.t -> string) (dir : string).
Definition validate_id : string -> unit + string := RecordStore.validate_id (A:=Receipt.t).
Definition path_for : string -> file_path + string := RecordStore.path_for (A:=Receipt.t) dir.
Definition atomic_write : file_path -> bytes -> io (unit + string) := RecordStore.atomic_write.
Definition migrate_to_current : json -> u64 -> option json := RecordStore.migrate_to_current RECEIPT_SCHEMA_VERSION.
Definition write_record : Receipt.t -> io (unit + string) := RecordStore.write_record dir.
Definition load_record : string -> io (Receipt.t + string) := RecordStore.load_record dir.
Definition list : io (Datatypes.list Receipt.t + string) := list_records io_text dir.
Definition deserialize_record : string -> option Receipt.t := RecordStore.deserialize_record Receipt.t.
End operations.
End ReceiptStore.

Module OutcomeStore.
#[export] Instance stored : StoredRecord OutcomeRecord.t := {|
  record_id := OutcomeRecord.run_id;
  record_version := OutcomeRecord.schema_version;
  current_version := OUTCOME_SCHEMA_VERSION;
  dir_noun := "outcomes";
  id_noun := "run";
  parse_failure id := "failed to parse outcome `" +:+ id +:+ "`";
  listed_before a b := string_leb a.(OutcomeRecord.run_id) b.(OutcomeRecord.run_id);
|}.
Section operations.
Context `{SerdeJson, SerdeText} (io_text : IoError.t -> string) (dir : string).
Definition validate_id : string -> unit + string := RecordStore.validate_id (A:=OutcomeRecord.t).
Definition path_for : string -> file_path + string := RecordStore.path_for (A:=OutcomeRecord.t) dir.
Definition atomic_write : file_path -> bytes -> io (unit + string) := RecordStore.atomic_write.
Definition migrate_to_current : json -> u64 -> option json := RecordStore.migrate_to_current OUTCOME_SCHEMA_VERSION.
Definition write_record : OutcomeRecord.t -> io (unit + string) := RecordStore.write_record dir.
Definition load_record : string -> io (OutcomeRecord.t + string) := RecordStore.load_record dir.
Definition list : io (Datatypes.list OutcomeRecord.t + string) := list_records io_text dir.
Definition deserialize_record : string -> option OutcomeRecord.t := RecordStore.deserialize_record OutcomeRecord.t.
End operations.
End OutcomeStore.
Export (hints) RunStore VerifyStore ReceiptStore OutcomeStore.
