(* ===== verification/StoreSpec.v ===== *)
(** What a store of records promises: a record written is the record read, whatever fails a reader
    finds the old record or the new one, and a listing does not depend on the directory's order. *)
From stdpp Require Import gmap strings.
From S2P Require Import Prelude Text Json Digest Reference Verdicts Provenance Outcomes Receipts Disk Wire WireReference WireTypes RecordStore.
Open Scope nerve_scope.

(** * The disk *)

(** No two names share an inode, and a name's inode has its data. *)
Record disk_wf (d : Disk.t) : Prop := {
  wf_inj p q i : d.(Disk.names) !! p = Some i -> d.(Disk.names) !! q = Some i -> p = q;
  wf_data p i : d.(Disk.names) !! p = Some i -> i < d.(Disk.next) /\ is_Some (d.(Disk.data) !! i) }.

Lemma disk_wf_empty : disk_wf Disk.empty.
Proof. split; cbn; intros *; by rewrite lookup_empty. Qed.

(** The two disks agree but for the file [p]. *)
Definition same_but (p : file_path) (d d' : Disk.t) : Prop :=
  d'.(Disk.dirs) = d.(Disk.dirs) /\
  (forall q, q <> p -> d'.(Disk.names) !! q = d.(Disk.names) !! q) /\
  forall q, q <> p -> Disk.file d' q = Disk.file d q.

Lemma same_but_refl p d : same_but p d d.
Proof. done. Qed.

Lemma same_but_trans p d d1 d2 : same_but p d d1 -> same_but p d1 d2 -> same_but p d d2.
Proof. intros (D1 & N1 & F1) (D2 & N2 & F2). split_and!; [congruence| |]; intros q Nq; [by rewrite N2, N1|by rewrite F2, F1]. Qed.

Lemma wf_set_data d i s : disk_wf d -> disk_wf (Disk.set_data d i s).
Proof.
  intros [I D]. split; [exact I|]. cbn. intros p j L. destruct (D p j L) as [B S]. split; [done|].
  destruct (decide (i = j)) as [->|N]; [rewrite lookup_insert_eq; by eexists|by rewrite lookup_insert_ne].
Qed.

Lemma file_set_data d p i s : d.(Disk.names) !! p = Some i -> Disk.file (Disk.set_data d i s) p = Some s.
Proof. intros L. unfold Disk.file. cbn. rewrite L. cbn. apply lookup_insert_eq. Qed.

Lemma same_but_set_data d p i s : disk_wf d -> d.(Disk.names) !! p = Some i -> same_but p d (Disk.set_data d i s).
Proof.
  intros W L. split_and!; [done|done|]. intros q Nq. unfold Disk.file. cbn.
  destruct (d.(Disk.names) !! q) as [j|] eqn:Lq; [|done]. cbn. rewrite lookup_insert_ne; [done|].
  intros <-. apply Nq. by eapply wf_inj.
Qed.

Lemma create_spec d p : disk_wf d -> d.(Disk.names) !! p = None ->
  disk_wf (Disk.create d p) /\ same_but p d (Disk.create d p) /\ Disk.file (Disk.create d p) p = Some EmptyString.
Proof.
  intros [I D] L. split_and!.
  - split; cbn.
    + intros q r i [[<- <-]|[Nq Lq]]%lookup_insert_Some [[<- E]|[Nr Lr]]%lookup_insert_Some; [done| | |by eapply I].
      * apply D in Lr as [B _]. lia.
      * subst i. apply D in Lq as [B _]. lia.
    + intros q i [[<- <-]|[Nq Lq]]%lookup_insert_Some.
      * split; [lia|]. rewrite lookup_insert_eq. by eexists.
      * destruct (D q i Lq) as [B S]. split; [lia|]. rewrite lookup_insert_ne by lia. done.
  - split_and!; [done| |]; intros q Nq; [cbn; by rewrite lookup_insert_ne|].
    unfold Disk.file. cbn. rewrite lookup_insert_ne by done.
    destruct (d.(Disk.names) !! q) as [j|] eqn:Lq; [|done]. cbn. apply D in Lq as [B _].
    by rewrite lookup_insert_ne by lia.
  - unfold Disk.file. cbn. rewrite lookup_insert_eq. cbn. apply lookup_insert_eq.
Qed.

(** ** One call *)

Lemma open_at_spec truncate p d d' r : disk_wf d -> open_at truncate p d = (d', r) ->
  disk_wf d' /\ same_but p d d' /\
  match r with
  | inl i => d'.(Disk.names) !! p = Some i /\
      Disk.file d' p = Some (if truncate then EmptyString else default EmptyString (Disk.file d p))
  | inr _ => d' = d
  end.
Proof.
  intros W. unfold open_at. case_bool_decide; [|by intros [= <- <-]].
  destruct (d.(Disk.names) !! p) as [i|] eqn:L; intros [= <- <-].
  - destruct truncate.
    + split; [by apply wf_set_data|]. split; [by apply same_but_set_data|]. split; [done|by apply file_set_data].
    + split; [done|]. split; [apply same_but_refl|]. split; [done|].
      unfold Disk.file. rewrite L. cbn. by destruct (wf_data d W p i L) as [_ [s ->]].
  - destruct (create_spec d p W L) as (W' & S & F). split_and!; [done|apply S..|cbn; apply lookup_insert_eq|].
    rewrite F. unfold Disk.file. rewrite L. by destruct truncate.
Qed.

Lemma meet_open f (truncate : bool) p d d' r : disk_wf d ->
  (if truncate then meet f (OpenTruncate p) d else meet f (OpenAppend p) d) = (d', r) ->
  disk_wf d' /\ same_but p d d' /\
  match r with
  | inl i => d'.(Disk.names) !! p = Some i /\
      Disk.file d' p = Some (if truncate then EmptyString else default EmptyString (Disk.file d p))
  | inr _ => d' = d
  end.
Proof.
  intros W E. assert (open_at truncate p d = (d', r) \/ d' = d /\ exists e, r = inr e) as [O|(-> & e & ->)];
    [|by eapply open_at_spec|done].
  destruct truncate, f; cbn in E; try (by left); try (injection E as <- <-; right; by eauto).
  all: by destruct (open_at _ p d); injection E as <- <-; left.
Qed.

(** A write through an open file: it holds what the write makes of [old], in whole or in part. *)
Lemma meet_write_start f p i bytes d d' r : disk_wf d -> d.(Disk.names) !! p = Some i ->
  meet f (WriteStart i bytes) d = (d', r) ->
  disk_wf d' /\ same_but p d d' /\ d'.(Disk.names) = d.(Disk.names) /\
  (r = inl tt -> Disk.file d' p = Some (overlay bytes (default EmptyString (Disk.file d p)))).
Proof.
  intros W L E. assert (Disk.file d p = d.(Disk.data) !! i) as Fe by (unfold Disk.file; by rewrite L).
  rewrite Fe. destruct f as [| |n|o]; cbn in E; injection E as <- <-;
    (split_and!; try done; try (by apply wf_set_data); try (by apply same_but_set_data));
    intros _; by apply file_set_data.
Qed.

Lemma meet_write_end f p i bytes d d' r : disk_wf d -> d.(Disk.names) !! p = Some i ->
  meet f (WriteEnd i bytes) d = (d', r) ->
  disk_wf d' /\ same_but p d d' /\ d'.(Disk.names) = d.(Disk.names) /\
  exists written, Disk.file d' p = Some (default EmptyString (Disk.file d p) +:+ take_bytes written bytes) /\
    (r = inl tt -> take_bytes written bytes = bytes).
Proof.
  intros W L E. assert (Disk.file d p = d.(Disk.data) !! i) as Fe by (unfold Disk.file; by rewrite L).
  assert (is_Some (d.(Disk.data) !! i)) as [s Ls] by (by eapply wf_data).
  assert (forall b, take_bytes (String.length b) b = b) as Tk.
  { induction b as [|c b IH]; [done|]. cbn. by rewrite IH. }
  rewrite Fe. destruct f as [| |n|o]; cbn in E; injection E as <- <-;
    (split_and!; try done; try (by apply wf_set_data); try (by apply same_but_set_data)).
  - exists (String.length bytes). rewrite Tk. split; [by apply file_set_data|done].
  - exists 0. cbn. rewrite app_empty_r, Fe, Ls. done.
  - exists n. split; [by apply file_set_data|done].
  - exists (String.length bytes). rewrite Tk. split; [by apply file_set_data|done].
Qed.

Lemma meet_rename f from to d d' r : disk_wf d -> from <> to -> meet f (Rename from to) d = (d', r) ->
  disk_wf d' /\ d'.(Disk.dirs) = d.(Disk.dirs) /\
  (forall q, q <> from -> q <> to -> Disk.file d' q = Disk.file d q) /\
  match r with inl _ => Disk.file d' to = Disk.file d from | inr _ => d' = d end.
Proof.
  intros W Ne E.
  assert (disk_wf d' /\ d'.(Disk.dirs) = d.(Disk.dirs) /\
    (forall q, q <> from -> q <> to -> Disk.file d' q = Disk.file d q) /\
    match r with inl _ => Disk.file d' to = Disk.file d from | inr _ => d' = d end \/ (d' = d /\ exists e, r = inr e))
    as [?|(-> & e & ->)]; [|done|done].
  assert (perform (Rename from to) d = (d', r) \/ (d' = d /\ exists e, r = inr e)) as [P|?]; [|left|by right].
  { destruct f; cbn in E |- *; [by left|injection E as <- <-; right; eauto..|left].
    by destruct (d.(Disk.names) !! from); injection E as <- <-. }
  clear E. cbn in P. destruct (d.(Disk.names) !! from) as [i|] eqn:L; injection P as <- <-; [|done].
  destruct W as [I D]. split_and!.
  - split; cbn.
    + intros q r j [[<- <-]|[Nq [N2 Lq]%lookup_delete_Some]]%lookup_insert_Some
        [[<- E]|[Nr [N3 Lr]%lookup_delete_Some]]%lookup_insert_Some; [done| | |by eapply I].
      * destruct N3. by eapply I.
      * subst j. destruct N2. by eapply I.
    + intros q j [[<- <-]|[Nq [N2 Lq]%lookup_delete_Some]]%lookup_insert_Some; by eapply D.
  - done.
  - intros q N1 N2. unfold Disk.file. cbn. by rewrite lookup_insert_ne, lookup_delete_ne by done.
  - unfold Disk.file. cbn. rewrite lookup_insert_eq, L. done.
Qed.

(** * Programs alone *)

Definition next_fate (fates : list Fate.t) : Fate.t := default Fate.Done (head fates).

Lemma exec_call {A X} fates (c : call X) (k : X -> io A) d :
  exec fates (Call c k) d = let '(d', x) := meet (next_fate fates) c d in exec (tail fates) (k x) d'.
Proof. by destruct fates. Qed.

Lemma exec_bind {A B} fates (m : io A) (k : A -> io B) d :
  exec fates (io_bind m k) d = let '(d', fates', a) := exec fates m d in exec fates' (k a) d'.
Proof.
  revert fates d. induction m as [a|X c k' IH]; intros fates d; [done|]. cbn [io_bind]. rewrite !exec_call.
  destruct (meet _ c d) as [d' x]. apply IH.
Qed.

Lemma exec_try {A B E} fates (m : io (A + E)) (k : A -> io (B + E)) d :
  exec fates (io_try m k) d =
  let '(d', fates', r) := exec fates m d in
  match r with inl a => exec fates' (k a) d' | inr e => (d', fates', inr e) end.
Proof. unfold io_try. rewrite exec_bind. by destruct (exec fates m d) as [[d' fates'] [a|e]]. Qed.

Lemma exec_context {A} fates context (m : io (A + IoError.t)) d :
  exec fates (with_context context m) d =
  let '(d', fates', r) := exec fates m d in
  (d', fates', match r with inl a => inl a | inr _ => inr context end).
Proof. unfold with_context. rewrite exec_bind. by destruct (exec fates m d) as [[d' fates'] [a|e]]. Qed.

Lemma exec_sys {X} fates (c : call X) d :
  exec fates (sys c) d = let '(d', x) := meet (next_fate fates) c d in (d', tail fates, x).
Proof. unfold sys. rewrite exec_call. by destruct (meet _ c d). Qed.

Lemma overlay_empty s : overlay s EmptyString = s.
Proof. unfold overlay. destruct (String.length s); cbn; apply app_empty_r. Qed.

Lemma exec_fs_write fates p bytes d d' fates' r : disk_wf d -> exec fates (fs_write p bytes) d = (d', fates', r) ->
  disk_wf d' /\ same_but p d d' /\ (r = inl tt -> Disk.file d' p = Some bytes).
Proof.
  intros W. unfold fs_write. rewrite exec_try, exec_sys.
  destruct (meet _ (OpenTruncate p) d) as [d1 [i|e]] eqn:O.
  - destruct (meet_open _ true p d d1 (inl i) W O) as (W1 & S1 & L & F). rewrite exec_sys.
    destruct (meet _ (WriteStart i bytes) d1) as [d2 x] eqn:Wr. intros [= <- <- <-].
    destruct (meet_write_start _ p i bytes d1 d2 x W1 L Wr) as (W2 & S2 & _ & F2).
    split; [done|]. split; [by eapply same_but_trans|]. intros ->. rewrite F2, F by done. cbn. by rewrite overlay_empty.
  - destruct (meet_open _ true p d d1 (inr e) W O) as (W1 & S1 & ->). by intros [= <- <- <-].
Qed.

Lemma tmp_of_ne p : tmp_of p <> p.
Proof.
  destruct p as [dir name]. intros [= E]. apply (f_equal String.length) in E. cbn in E.
  rewrite length_app_str in E. cbn in E. lia.
Qed.

(** An atomic write replaces the file or leaves it as it was, whatever fails. *)
Lemma exec_atomic_write fates p bytes d d' fates' r : disk_wf d ->
  exec fates (atomic_write p bytes) d = (d', fates', r) ->
  disk_wf d' /\ d'.(Disk.dirs) = d.(Disk.dirs) /\
  (forall q, q <> p -> q <> tmp_of p -> Disk.file d' q = Disk.file d q) /\
  Disk.file d' p = match r with inl _ => Some bytes | inr _ => Disk.file d p end.
Proof.
  intros W. unfold atomic_write. rewrite exec_try, exec_context.
  destruct (exec fates (fs_write _ _) d) as [[d1 fates1] r1] eqn:Wr.
  destruct (exec_fs_write _ _ _ _ _ _ _ W Wr) as (W1 & (D1 & _ & S1) & F1). destruct r1 as [[]|e].
  - rewrite exec_context, exec_sys. destruct (meet _ (Rename _ _) d1) as [d2 x] eqn:Rn. intros [= <- <- <-].
    destruct (meet_rename _ _ _ _ _ _ W1 (tmp_of_ne p) Rn) as (W2 & D2 & S2 & F2).
    split; [done|]. split; [congruence|]. split; [by intros q N1 N2; rewrite S2, S1|].
    destruct x as [[]|e]; [by rewrite F2, F1|]. subst d2. by rewrite S1 by (by intros ?%(eq_sym)%tmp_of_ne).
  - intros [= <- <- <-]. split; [done|]. split; [done|]. split; [by intros q N1 N2; rewrite S1|].
    by rewrite S1 by (by intros ?%(eq_sym)%tmp_of_ne).
Qed.

(** Nothing failing, it succeeds. *)
Lemma atomic_write_done p bytes d : p.1 ∈ d.(Disk.dirs) -> disk_wf d ->
  exists d', exec [] (atomic_write p bytes) d = (d', [], inl tt).
Proof.
  intros I W. unfold atomic_write. rewrite exec_try, exec_context. unfold fs_write. rewrite exec_try, exec_sys.
  cbn [next_fate head default meet perform tail].
  destruct (open_at true (tmp_of p) d) as [d1 r] eqn:O.
  destruct (open_at_spec true (tmp_of p) d d1 r W O) as (W1 & S1 & F). unfold open_at in O.
  rewrite bool_decide_eq_true_2 in O by done.
  assert (exists i, r = inl i) as [i ->].
  { destruct (d.(Disk.names) !! tmp_of p); injection O as _ <-; eauto. }
  destruct F as [L _]. rewrite exec_sys. cbn [next_fate head default meet perform tail]. rewrite exec_context, exec_sys.
  cbn [next_fate head default meet perform tail Disk.set_data Disk.names]. rewrite L. by eexists.
Qed.

(** * Records *)

(** A record is an object with its schema version, and reads back. *)
Class StoredSpec (A : Type) `{StoredRecord A} : Prop := {
  stored_wire :: Wire A;
  stored_fields (a : A) : exists fs, ser a = obj fs /\ bool_decide (NoDup (map fst fs)) = true /\
    lookup_field "schema_version" fs = Some (ser (record_version a)) }.

#[export] Instance run_stored_spec : StoredSpec Run.t.
Proof. split; [apply _|]. intros r. by eexists. Qed.
#[export] Instance verdict_stored_spec : StoredSpec Verdict.t.
Proof. split; [apply _|]. intros r. by eexists. Qed.
#[export] Instance receipt_stored_spec : StoredSpec Receipt.t.
Proof. split; [apply _|]. intros r. by eexists. Qed.
#[export] Instance outcome_stored_spec : StoredSpec OutcomeRecord.t.
Proof. split; [apply _|]. intros r. by eexists. Qed.

Lemma get_value k m v : get k m = Some (Some v) -> value_get k (JObj m) = Some v /\ map_insert k v m = m.
Proof.
  cbn. induction m as [|[k' v'] m IH]; cbn; [done|]. destruct (decide (k = k')) as [->|N].
  - destruct (decide _); [done|]. intros [= ->]. by rewrite String.eqb_refl.
  - intros G. apply String.eqb_neq in N. rewrite N. destruct (IH G) as [IH1 IH2]. split; [done|by rewrite IH2].
Qed.

Lemma as_u64_u32 (v : u32) : exists w, as_u64 (ser v) = Some w /\ uval w = uval v.
Proof.
  cbn. pose proof (uval_bound v) as B. change (2 ^ 32)%N with 4294967296%N in B.
  destruct (Z.leb_spec 0 (Z.of_N (uval v))); [|lia]. destruct (Z.ltb_spec (Z.of_N (uval v)) (2 ^ 64)); [|lia].
  cbn. eexists. split; [done|]. rewrite N2Z.id. apply uval_wrap_small. u64_lia.
Qed.

(** A value that carries its version reads back. *)
Lemma deserialize_versioned_equiv `{SerdeText} `{Wire A} (a : A) fs (ver : u32) raw j :
  ser a = obj fs -> bool_decide (NoDup (map fst fs)) = true ->
  lookup_field "schema_version" fs = Some (ser ver) ->
  from_str raw = Some j -> json_equiv (ser a) j -> deserialize_versioned A ver raw = Some a.
Proof.
  intros Ef N L F E. unfold deserialize_versioned. rewrite F. cbn [mbind option_bind].
  assert (de j = Some a) as D by (by apply de_equiv).
  rewrite Ef in E. apply equiv_obj_inv in E as (m & -> & R). pose proof (reread_field "schema_version" fs m R N) as G.
  rewrite L in G. destruct G as (v' & G & Ev). apply equiv_atom_inv in Ev. cbn in Ev. subst v'.
  destruct (get_value _ _ _ G) as [Gv Ins]. rewrite Gv. cbn [mbind option_bind].
  destruct (as_u64_u32 ver) as (w & Ew & Uw).
  change (JNum _) with (ser ver). rewrite Ew. change (default _ (Some w)) with w.
  unfold migrate_to_current. rewrite Uw, N.ltb_irrefl. cbn [mbind option_bind].
  change (ser ver) with (JNum (Z.of_N (uval ver))). by rewrite Ins.
Qed.

Section records.
Context `{SerdeJson, SerdeText, !SerdeTextSpec} {A : Type} `{StoredSpec A}.

Lemma deserialize_text (r : A) : record_version r = current_version (A:=A) ->
  deserialize_record A (to_string_pretty (ser r)) = Some r.
Proof.
  intros V. destruct (stored_fields r) as (fs & Ef & N & L). rewrite V in L.
  destruct (from_str_pretty (ser r)) as (j & F & E). by eapply deserialize_versioned_equiv.
Qed.

Lemma id_path_ne (id id' dir : string) : id <> id' -> (dir, id +:+ ".json") <> (dir, id' +:+ ".json").
Proof. intros N [= E]. apply N. by apply app_inj_length_r in E as [E _]. Qed.

(** A record's file is no temporary file. *)
Lemma id_path_tmp id p dir : id_valid id = true -> (dir, id +:+ ".json") <> tmp_of p.
Proof.
  unfold id_valid. intros [[V _]%andb_true_iff B]%andb_true_iff [= _ E].
  destruct id as [|c id]; [done|]. injection E as -> _. done.
Qed.

Lemma validate_id_inl id : validate_id (A:=A) id = inl tt <-> id_valid id = true.
Proof. unfold validate_id. by destruct (id_valid id). Qed.

(** What loading finds. *)
Definition loaded (d : Disk.t) (dir id : string) : A + string := (exec [] (load_record dir id) d).2.

Lemma loaded_file d d' dir id :
  (id_valid id = true -> Disk.file d' (dir, id +:+ ".json") = Disk.file d (dir, id +:+ ".json")) ->
  loaded d' dir id = loaded d dir id.
Proof.
  intros F. unfold loaded, load_record, path_for, validate_id. destruct (id_valid id); [|done].
  rewrite !exec_try, !exec_context, !exec_sys. cbn. rewrite F by done.
  destruct (Disk.file d _) as [s|]; [|done]. by destruct (utf8_valid s).
Qed.

(** Writing, as a change of what is loaded. *)
Lemma write_record_spec (fates : list Fate.t) (d d' : Disk.t) (fates' : list Fate.t) (dir : string) (r : A)
    (result : unit + string) (W : disk_wf d) (V : record_version r = current_version (A:=A))
    (E : exec fates (write_record dir r) d = (d', fates', result)) :
  disk_wf d' /\
  (forall id, id <> record_id r -> loaded d' dir id = loaded d dir id) /\
  loaded d' dir (record_id r) = match result with inl _ => inl r | inr _ => loaded d dir (record_id r) end /\
  (fates = [] -> (exists u, result = inl u) <-> id_valid (record_id r) = true).
Proof.
  unfold write_record, path_for, validate_id in E. destruct (id_valid (record_id r)) eqn:Iv.
  2: { injection E as <- <- <-. split_and!; try done. intros _. split; [by intros []|done]. }
  rewrite exec_try, exec_context, exec_sys in E.
  destruct (meet _ (CreateDirAll dir) d) as [d1 [[]|e]] eqn:Mk.
  2: { assert (d1 = d) as -> by (by destruct (next_fate fates); injection Mk as <-).
       injection E as <- <- <-. split_and!; try done. intros ->. done. }
  assert (d1 = (perform (CreateDirAll dir) d).1) as -> by (by destruct (next_fate fates); injection Mk as <-).
  set (d1 := (perform (CreateDirAll dir) d).1) in *.
  assert (disk_wf d1) as W1 by (by destruct W; split).
  destruct (exec_atomic_write _ _ _ _ _ _ _ W1 E) as (W2 & _ & Ot & F).
  split; [done|]. split_and!.
  - intros id N. apply loaded_file. intros Iv'. rewrite Ot; [done|by apply id_path_ne|by apply id_path_tmp].
  - destruct result as [u|e].
    + unfold loaded, load_record, path_for, validate_id. rewrite Iv, exec_try, exec_context, exec_sys. cbn. rewrite F.
      by rewrite pretty_utf8, deserialize_text.
    + apply loaded_file. intros _. exact F.
  - intros ->. split; [done|]. intros _. cbn [tail] in E.
    destruct (atomic_write_done (dir, record_id r +:+ ".json") (to_string_pretty (ser r)) d1) as [d2 E2]; [set_solver|done|].
    rewrite E2 in E. injection E as _ _ <-. by eexists.
Qed.

(** C26: A store of records is a map from ids. For runs, verdicts, receipts and outcomes alike: after a
    write that succeeds the record is loaded as it was written, and every other id loads what it
    loaded before; after a write that fails, wherever and however it fails, every id does, the written
    one included; and a write to a disk where nothing fails succeeds exactly for a valid id. *)
Theorem record_store_spec (fates : list Fate.t) (d d' : Disk.t) (fates' : list Fate.t) (dir : string) (r : A)
    (result : unit + string) (W : disk_wf d) (V : record_version r = current_version (A:=A))
    (E : exec fates (write_record dir r) d = (d', fates', result)) :
  disk_wf d' /\
  (forall id, id <> record_id r -> loaded d' dir id = loaded d dir id) /\
  loaded d' dir (record_id r) = match result with inl _ => inl r | inr _ => loaded d dir (record_id r) end /\
  (fates = [] -> (exists u, result = inl u) <-> id_valid (record_id r) = true).
Proof. by eapply write_record_spec. Qed.
End records.

(** * Readers beside a writer *)

Section readers.
Context `{SerdeJson, SerdeText, !SerdeTextSpec} {A : Type} `{StoredSpec A}.
Context (dir : string) (r : A) (V : record_version r = current_version (A:=A)).

Definition writer : io (option (A + string)) := run! _ := write_record dir r in Ret None.
Definition reader (id : string) : io (option (A + string)) := run! x := load_record dir id in Ret (Some x).

Let path : file_path := (dir, record_id r +:+ ".json").
Let bytes : string := to_string_pretty (ser r).

Definition renaming : io (unit + string) :=
  with_context ("failed to rename " +:+ display (tmp_of path) +:+ " -> " +:+ display path)
    (sys (Rename (tmp_of path) path)).

(** Where the writer is, on a disk. *)
Inductive writing (d : Disk.t) : io (option (A + string)) -> Prop :=
  | writing_start : id_valid (record_id r) = true -> writing d writer
  | writing_open : writing d (run! _ := atomic_write path bytes in Ret None)
  | writing_write i : d.(Disk.names) !! tmp_of path = Some i -> Disk.file d (tmp_of path) = Some EmptyString ->
      writing d (run! _ := io_try (with_context ("failed to write " +:+ display (tmp_of path)) (sys (WriteStart i bytes)))
                             (fun _ => renaming) in Ret None)
  | writing_rename : Disk.file d (tmp_of path) = Some bytes -> writing d (run! _ := renaming in Ret None)
  | writing_done : writing d (Ret None).

Lemma writing_writer d : writing d writer.
Proof.
  destruct (id_valid (record_id r)) eqn:Iv; [by apply writing_start|].
  unfold writer, write_record, path_for, validate_id. rewrite Iv. apply writing_done.
Qed.

(** One step of the writer: the file is replaced whole or stays, and no other record's file changes. *)
Lemma writing_step f d m d' m' : disk_wf d -> writing d m -> advance f m d = Some (d', m') ->
  disk_wf d' /\ writing d' m' /\
  (Disk.file d' path = Disk.file d path \/ Disk.file d' path = Some bytes) /\
  (forall q, q <> path -> q <> tmp_of path -> Disk.file d' q = Disk.file d q).
Proof.
  intros W St. pose proof (tmp_of_ne path) as Ne. destruct St as [Iv| |i L F|F|]; intros Ad; [| | | |done].
  - unfold writer, write_record, path_for, validate_id in Ad. rewrite Iv in Ad. cbn [io_try io_bind with_context sys advance] in Ad.
    destruct (meet f (CreateDirAll dir) d) as [d1 x] eqn:Mk. injection Ad as <- <-.
    assert (d1 = d \/ d1 = (perform (CreateDirAll dir) d).1) as D1.
    { destruct f; injection Mk as <- <-; [by right|by left|by left|by right]. }
    assert (disk_wf d1) as W1 by (destruct D1 as [-> | ->]; [done|by destruct W; split]).
    assert (forall q, Disk.file d1 q = Disk.file d q) as Fe by (by destruct D1 as [-> | ->]).
    split_and!; [done| |by left; apply Fe|by intros; apply Fe]. destruct x as [[]|e]; [apply writing_open|apply writing_done].
  - cbn [atomic_write io_try io_bind with_context sys advance fs_write] in Ad.
    destruct (meet f (OpenTruncate (tmp_of path)) d) as [d1 x] eqn:O. injection Ad as <- <-.
    destruct (meet_open f true (tmp_of path) d d1 x W O) as (W1 & (_ & _ & S1) & X).
    split_and!; [done| |by left; apply S1|by intros; apply S1]. destruct x as [i|e]; [|apply writing_done].
    destruct X as [L F]. exact (writing_write d1 i L F).
  - cbn [io_try io_bind with_context sys advance] in Ad.
    destruct (meet f (WriteStart i bytes) d) as [d1 x] eqn:Wr. injection Ad as <- <-.
    destruct (meet_write_start f (tmp_of path) i bytes d d1 x W L Wr) as (W1 & (_ & _ & S1) & _ & X).
    split_and!; [done| |by left; apply S1|by intros; apply S1]. destruct x as [[]|e]; [|apply writing_done].
    apply writing_rename. rewrite X, F by done. cbn [default]. f_equal. apply overlay_empty.
  - cbn [renaming io_try io_bind with_context sys advance] in Ad.
    destruct (meet f (Rename (tmp_of path) path) d) as [d1 x] eqn:Rn. injection Ad as <- <-.
    destruct (meet_rename f _ _ d d1 x W Ne Rn) as (W1 & _ & S1 & X).
    split_and!; [done| |destruct x as [?|?]; [right; by rewrite X|left; by rewrite X]|intros; by apply S1].
    destruct x as [?|?]; apply writing_done.
Qed.

(** What a reader may have got. *)
Definition seen (d : Disk.t) (id : string) (x : A + string) : Prop :=
  x = loaded d dir id \/ id = record_id r /\ x = inl r \/ x = inr ("failed to read " +:+ display (dir, id +:+ ".json")).

Record reading (d0 : Disk.t) (ids : list string) (p : Pool.t (option (A + string))) : Prop := {
  reading_wf : disk_wf p.(Pool.disk);
  reading_writer : exists w readers, p.(Pool.threads) = w :: readers /\ writing p.(Pool.disk) w /\
    Forall2 (fun id m => m = reader id \/ exists x, m = Ret (Some x) /\ seen d0 id x) ids readers;
  reading_file : Disk.file p.(Pool.disk) path = Disk.file d0 path \/ Disk.file p.(Pool.disk) path = Some bytes;
  reading_rest q : q <> path -> q <> tmp_of path -> Disk.file p.(Pool.disk) q = Disk.file d0 q }.

(** A reader finishes in one call, with what a file holds then. *)
Lemma reader_step d0 f id d d' m' :
  (Disk.file d path = Disk.file d0 path \/ Disk.file d path = Some bytes) ->
  (forall q, q <> path -> q <> tmp_of path -> Disk.file d q = Disk.file d0 q) ->
  advance f (reader id) d = Some (d', m') ->
  d' = d /\ exists x, m' = Ret (Some x) /\ seen d0 id x.
Proof.
  intros Fp Fr. unfold reader, load_record, path_for, validate_id. destruct (id_valid id) eqn:Iv; [|done].
  cbn [io_try io_bind with_context sys advance].
  destruct (meet f (ReadToString (dir, id +:+ ".json")) d) as [d1 x] eqn:Me. intros [= <- <-].
  assert (d1 = d /\ (x = (perform (ReadToString (dir, id +:+ ".json")) d).2 \/ exists e, x = inr e)) as [-> X].
  { destruct f; injection Me as <- <-; eauto. }
  split; [done|]. destruct X as [->|[e ->]].
  2: { eexists. split; [done|]. right. by right. }
  assert (Disk.file d (dir, id +:+ ".json") = Disk.file d0 (dir, id +:+ ".json") \/
          id = record_id r /\ Disk.file d (dir, id +:+ ".json") = Some bytes) as [E|[-> E]].
  { destruct (decide (id = record_id r)) as [->|N]; [by destruct Fp; [left|right]|left].
    apply Fr; [by apply id_path_ne|by apply id_path_tmp]. }
  - cbn [perform snd]. rewrite E.
    assert (loaded d0 dir id = match Disk.file d0 (dir, id +:+ ".json") with
      | None => inr ("failed to read " +:+ display (dir, id +:+ ".json"))
      | Some s => if utf8_valid s then match deserialize_record A s with Some a => inl a | None => inr (parse_failure (A:=A) id) end
                  else inr ("failed to read " +:+ display (dir, id +:+ ".json")) end) as Lo.
    { unfold loaded, load_record, path_for, validate_id. rewrite Iv, exec_try, exec_context, exec_sys.
      cbn [next_fate head default meet perform tail]. destruct (Disk.file d0 (dir, id +:+ ".json")) as [s|]; [|done]. by destruct (utf8_valid s). }
    unfold seen. rewrite Lo. destruct (Disk.file d0 (dir, id +:+ ".json")) as [s|]; [destruct (utf8_valid s)|]; (eexists; split; [reflexivity|by left]).
  - cbn [perform snd]. rewrite E. unfold bytes. rewrite pretty_utf8. cbn. rewrite (deserialize_text r V).
    eexists. split; [done|]. right. by left.
Qed.

Lemma reading_step d0 ids p p' : reading d0 ids p -> Pool.step p p' -> reading d0 ids p'.
Proof.
  intros [W (w & readers & Th & Wr & Rd) Fp Fr] St. revert W Wr Fp Fr Th.
  destruct St as [p i m f d m' Li Ad]. intros W Wr Fp Fr Th. rewrite Th in Li. destruct i as [|i]; cbn in Li.
  - injection Li as ->. destruct (writing_step f _ _ _ _ W Wr Ad) as (W1 & Wr1 & Fp1 & Fr1). split; cbn.
    + done.
    + exists m', readers. by rewrite Th.
    + destruct Fp1 as [->|?]; [done|by right].
    + intros q N1 N2. by rewrite Fr1, Fr.
  - destruct (Forall2_lookup_r _ _ _ _ _ Rd Li) as (id & Lid & [->|(x & -> & S)]); [|done].
    destruct (reader_step d0 f id _ d m' Fp Fr Ad) as (-> & X). split; cbn; [done| |done|done].
    exists w, (<[i:=m']> readers). rewrite Th. split; [done|]. split; [done|].
    rewrite <- (list_insert_id ids i id Lid). apply Forall2_insert; [done|]. by right.
Qed.

(** A reader never observes a half-written file. While one record is being written, in any
    interleaving with any readers and with any call failing or tearing, each load of an id
    returns what the disk held before the write, or the record being written, whole, or the failure of its own read. *)
Theorem readers_see_whole (d : Disk.t) (ids : list string) (p : Pool.t (option (A + string))) (i : nat) (id : string)
    (x : A + string) (W : disk_wf d)
    (S : rtc Pool.step (Pool.Mk d (writer :: map reader ids)) p) (Lid : ids !! i = Some id)
    (E : p.(Pool.threads) !! Datatypes.S i = Some (Ret (Some x))) :
  x = loaded d dir id \/ id = record_id r /\ x = inl r \/
  x = inr ("failed to read " +:+ display (dir, id +:+ ".json")).
Proof.
  assert (reading d ids p) as [_ (w & readers & Th & _ & Rd) _ _].
  { assert (reading d ids (Pool.Mk d (writer :: map reader ids))) as R0.
    { split; cbn; [done| |by left|done]. eexists _, _. split; [done|]. split; [apply writing_writer|].
      clear. induction ids as [|id' ids' IH]; constructor; [by left|done]. }
    clear E Lid. remember (Pool.Mk d _) as p0 eqn:E0. clear E0. induction S as [|p0 p1 p2 S1 S IH]; [done|].
    apply IH. by eapply reading_step. }
  rewrite Th in E. cbn in E. destruct (Forall2_lookup_lr _ _ _ _ _ _ Rd Lid E) as [R|(x' & [= <-] & S')]; [|done].
  unfold reader, load_record, path_for, validate_id in R. destruct (id_valid id) eqn:Iv; [done|].
  cbn in R. injection R as ->. left. unfold loaded, load_record, path_for, validate_id. by rewrite Iv.
Qed.
End readers.

(** * Runs *)

Definition label (outcome : Outcome.t) : OutcomeLabel.t :=
  OutcomeLabel.Mk (wrap 64 0) outcome LabelSource.Human None None None (wrap 64 3) EmptyString EmptyString.

Definition one_label (run_id : string) (outcome : Outcome.t) : OutcomeRecord.t :=
  append_label (empty_record run_id None None) (label outcome).

(** The directory of outcomes with one record. *)
Definition outcomes_disk : Disk.t := (exec [] (write_record "outcomes" (one_label "r" Outcome.Merged)) Disk.empty).1.1.

Lemma one_label_version run_id outcome :
  record_version (one_label run_id outcome) = current_version (A:=OutcomeRecord.t).
Proof. done. Qed.

Lemma outcomes_disk_wf : disk_wf outcomes_disk.
Proof.
  destruct (exec [] (write_record "outcomes" (one_label "r" Outcome.Merged)) Disk.empty) as [[d' f'] r'] eqn:E.
  unfold outcomes_disk. rewrite E. by apply write_record_spec in E as [W _]; [|apply disk_wf_empty|apply one_label_version].
Qed.

(** The second write is torn in the middle of its text. *)
Lemma record_store_spec_witness :
  let written := exec [Fate.Done; Fate.Done; Fate.Torn 20] (write_record "outcomes" (one_label "r" Outcome.Reverted)) outcomes_disk in
  (exists e, written.2 = inr e) /\ loaded written.1.1 "outcomes" "r" = inl (one_label "r" Outcome.Merged).
Proof.
  set (fates := [Fate.Done; Fate.Done; Fate.Torn 20]).
  destruct (exec fates (write_record "outcomes" (one_label "r" Outcome.Reverted)) outcomes_disk) as [[d' f'] r'] eqn:E.
  destruct (record_store_spec fates outcomes_disk d' f' "outcomes" (one_label "r" Outcome.Reverted) r'
    outcomes_disk_wf (one_label_version _ _) E) as (_ & _ & L & _).
  assert (exists e, r' = inr e) as [e ->].
  { change r' with (d', f', r').2. rewrite <- E. eexists. vm_compute. reflexivity. }
  cbn zeta. split; [by eexists|]. cbn [fst]. etransitivity; [exact L|]. vm_compute. reflexivity.
Defined.

Lemma readers_see_whole_witness :
  let p := Pool.run [(0, Fate.Done); (0, Fate.Done); (1, Fate.Done)]
             (Pool.Mk outcomes_disk (writer "outcomes" (one_label "r" Outcome.Reverted) :: map (reader "outcomes") ["r"])) in
  p.(Pool.threads) !! 1 = Some (Ret (Some (inl (one_label "r" Outcome.Merged)))) /\
  (inl (one_label "r" Outcome.Merged) = loaded (A:=OutcomeRecord.t) outcomes_disk "outcomes" "r" \/
   "r" = record_id (one_label "r" Outcome.Reverted) /\
     (inl (one_label "r" Outcome.Merged) : OutcomeRecord.t + string) = inl (one_label "r" Outcome.Reverted) \/
   (inl (one_label "r" Outcome.Merged) : OutcomeRecord.t + string) = inr ("failed to read " +:+ display ("outcomes", "r" +:+ ".json"))).
Proof.
  set (start := Pool.Mk outcomes_disk (writer "outcomes" (one_label "r" Outcome.Reverted) :: map (reader "outcomes") ["r"])).
  set (schedule := [(0, Fate.Done); (0, Fate.Done); (1, Fate.Done)]). cbn zeta.
  assert ((Pool.run schedule start).(Pool.threads) !! 1 = Some (Ret (Some (inl (one_label "r" Outcome.Merged))))) as E
    by (vm_compute; reflexivity).
  split; [exact E|].
  exact (readers_see_whole "outcomes" (one_label "r" Outcome.Reverted) (one_label_version _ _) outcomes_disk ["r"]
    (Pool.run schedule start) 0 "r" (inl (one_label "r" Outcome.Merged)) outcomes_disk_wf (Pool.run_steps schedule start) eq_refl E).
Defined.

(** With two writers of one record the promise fails: they share the temporary name, so one may
    rename the file the other has just emptied, and a reader finds it empty. *)
Theorem two_writers_half :
  let p := Pool.run [(0, Fate.Done); (0, Fate.Done); (0, Fate.Done); (1, Fate.Done); (1, Fate.Done); (0, Fate.Done); (2, Fate.Done)]
             (Pool.Mk outcomes_disk [writer "outcomes" (one_label "r" Outcome.Reverted);
                                     writer "outcomes" (one_label "r" Outcome.Incident); reader "outcomes" "r"]) in
  Disk.file p.(Pool.disk) ("outcomes", "r.json") = Some EmptyString /\
  p.(Pool.threads) !! 2 = Some (Ret (Some (inr "failed to parse outcome `r`"))).
Proof. vm_compute. done. Qed.
