(* ===== verification/LedgerStore.v ===== *)
(** The ledger on disk ([nerve-workstation/src/ledger_store.rs]): [log.ndjson], a line a record, and
    [head.json], the head of the chain.

    Then what is proved of it. The ledger's file holds the chain: appends that succeed extend the abstract log of [Ledgers.v],
    an append that fails leaves the head and the earlier lines, and what is read back verifies. *)
From stdpp Require Import gmap strings.
From S2P Require Import Prelude Text Json Digest Verdicts Outcomes Ledgers Disk Wire WireTypes RecordStore Reference WireReference StoreSpec.
Open Scope nerve_scope.

Definition LOG_FILE : string := "log.ndjson".
Definition HEAD_FILE : string := "head.json".

Definition log_path (dir : string) : file_path := (dir, LOG_FILE).
Definition head_path (dir : string) : file_path := (dir, HEAD_FILE).

Definition newline : string := String "010" EmptyString.

(** [writeln!] writes the line, then its end. *)
Definition append_line (p : file_path) (line : string) : io (unit + string) :=
  try! fd := with_context ("failed to open " +:+ display p) (sys (OpenAppend p)) in
  with_context ("failed to append to " +:+ display p)
    (try! _ := sys (WriteEnd fd line) in sys (WriteEnd fd newline)).

(** * The facets of a query *)

Definition ledger_kind_tag (kind : LedgerKind.t) : string :=
  match kind with
  | LedgerKind.RunRecorded _ _ _ _ _ => "run_recorded"
  | LedgerKind.DiffRecorded _ _ _ _ _ => "diff_recorded"
  | LedgerKind.PolicyDecision _ _ _ _ _ => "policy_decision"
  | LedgerKind.Verdict _ _ _ _ _ _ => "verdict"
  | LedgerKind.ReceiptIssued _ _ _ _ _ _ _ => "receipt_issued"
  | LedgerKind.OutcomeRecorded _ _ _ _ => "outcome_recorded"
  end.

Definition kind_run_id (kind : LedgerKind.t) : option string :=
  match kind with
  | LedgerKind.RunRecorded run_id _ _ _ _ | LedgerKind.DiffRecorded run_id _ _ _ _
  | LedgerKind.PolicyDecision run_id _ _ _ _ | LedgerKind.Verdict run_id _ _ _ _ _
  | LedgerKind.ReceiptIssued run_id _ _ _ _ _ _ | LedgerKind.OutcomeRecorded run_id _ _ _ => Some run_id
  end.

Definition kind_agent (kind : LedgerKind.t) : option string :=
  match kind with LedgerKind.RunRecorded _ _ agent _ _ => Some agent | _ => None end.

Definition kind_diff_hash (kind : LedgerKind.t) : option string :=
  match kind with
  | LedgerKind.DiffRecorded _ diff_hash _ _ _ => Some diff_hash
  | LedgerKind.Verdict _ diff_hash _ _ _ _ => diff_hash
  | _ => None
  end.

Definition kind_run_root_hash (kind : LedgerKind.t) : option string :=
  match kind with
  | LedgerKind.RunRecorded _ run_root_hash _ _ _ => Some run_root_hash
  | LedgerKind.Verdict _ _ _ _ _ run_root_hash | LedgerKind.ReceiptIssued _ _ _ _ _ run_root_hash _ => run_root_hash
  | _ => None
  end.

Definition kind_verdict (kind : LedgerKind.t) : option VerdictStatus.t :=
  match kind with
  | LedgerKind.Verdict _ _ verdict _ _ _ | LedgerKind.ReceiptIssued _ _ _ _ verdict _ _ => Some verdict
  | _ => None
  end.

(** The arguments of [ledger.query] besides its limit. *)
Module Facets.
Record t := Mk {
  run_id : option string;
  agent : option string;
  diff_hash : option string;
  run_root_hash : option string;
  outcome : option VerdictStatus.t;
  record_kind : option string;
}.
End Facets.

Definition wants {A} `{EqDecision A} (want found : option A) : bool :=
  match want with Some _ => bool_decide (found = want) | None => true end.

Definition matches_filters (record : LedgerRecord.t) (f : Facets.t) : bool :=
  let kind := record.(LedgerRecord.kind) in
  if negb (wants f.(Facets.run_id) (kind_run_id kind)) then false
  else if negb (wants f.(Facets.agent) (kind_agent kind)) then false
  else if negb (wants f.(Facets.diff_hash) (kind_diff_hash kind)) then false
  else if negb (wants f.(Facets.run_root_hash) (kind_run_root_hash kind)) then false
  else if negb (wants f.(Facets.outcome) (kind_verdict kind)) then false
  else if negb (wants f.(Facets.record_kind) (Some (ledger_kind_tag kind))) then false
  else true.

Definition verify_error_class (err : LedgerVerifyError.t) : string * u64 :=
  match err with
  | LedgerVerifyError.HashMismatch seq => ("HashMismatch", seq)
  | LedgerVerifyError.SeqGap expected _ => ("SeqGap", expected)
  | LedgerVerifyError.PrevMismatch seq => ("PrevMismatch", seq)
  end.

(** * The store *)

Module LedgerStore.
Section store.
Context `{SerdeJson, SerdeText, Sha256}.

Definition deserialize_record (raw : string) : option LedgerRecord.t :=
  deserialize_versioned LedgerRecord.t LEDGER_SCHEMA_VERSION raw.
Definition deserialize_head (raw : string) : option LedgerHead.t :=
  deserialize_versioned LedgerHead.t LEDGER_SCHEMA_VERSION raw.

(** The head: the empty log's when there is none to be read. *)
Definition head (dir : string) : io LedgerHead.t :=
  run! raw := sys (ReadToString (head_path dir)) in
  Ret (match raw with
       | inl raw => default empty_head (deserialize_head raw)
       | inr _ => empty_head
       end).

Definition append (dir : string) (kind : LedgerKind.t) (now_ms : u64) : io (LedgerRecord.t + string) :=
  run! hd := head dir in
  let '(record, next_head) := append_record hd kind now_ms in
  try! _ := with_context ("failed to create ledger dir " +:+ dir) (sys (CreateDirAll dir)) in
  try! _ := append_line (log_path dir) (json_bytes record) in
  try! _ := atomic_write (head_path dir) (to_string_pretty (ser next_head)) in
  Ret (inl record).

(** The records of a log's text. *)
Definition parse_log (raw : string) : list LedgerRecord.t :=
  omap deserialize_record (filter (fun line => trim line <> EmptyString) (str_lines raw)).

Definition read_all (dir : string) : io (list LedgerRecord.t) :=
  run! raw := sys (ReadToString (log_path dir)) in
  Ret (match raw with inl raw => parse_log raw | inr _ => [] end).

Definition append_evidence (store : option string) (kind : LedgerKind.t) (now_ms : u64) : io (option LedgerRecord.t) :=
  match store with
  | Some dir => run! r := append dir kind now_ms in Ret (match r with inl record => Some record | inr _ => None end)
  | None => Ret None
  end.

Definition read_store (store : option string) : io (list LedgerRecord.t) :=
  match store with Some dir => read_all dir | None => Ret [] end.

Definition run_ledger_query (store : option string) (f : Facets.t) (limit : u64) : io json :=
  run! all := read_store store in
  let records := take (N.to_nat (uval limit)) (base.filter (fun r => matches_filters r f = true) (reverse all)) in
  Ret (JObj [("records", JArr (map ser records))]).

Definition run_ledger_verify (store : option string) : io json :=
  run! records := read_store store in
  Ret (match verify_chain records with
       | inl head => JObj [("ok", JBool true); ("count", ser head.(LedgerHead.count)); ("head_hash", JStr head.(LedgerHead.head_hash))]
       | inr err =>
           let '(class, seq) := verify_error_class err in
           JObj [("ok", JBool false); ("error", JStr class); ("seq", ser seq)]
       end).
End store.
End LedgerStore.

(** * Lines *)

Definition with_end (line : string) : string := line +:+ newline.

Definition is_line (s : string) : Prop := no_char "010" s = true /\ no_char "013" s = true.

Lemma strip_cr_line s : no_char "013" s = true -> strip_cr s = s.
Proof.
  rewrite <- no_char_rev. unfold strip_cr. destruct (rev_str s) as [|c r] eqn:E; [done|]. cbn [no_char].
  intros [N _]%andb_true_iff. apply negb_true_iff, bool_decide_eq_false in N.
  destruct (Ascii.eqb_spec c "013"); [done|done].
Qed.

Lemma split_lines lines : Forall is_line lines ->
  split_on "010" (concat_str (map with_end lines)) = lines ++ [EmptyString].
Proof.
  induction 1 as [|l lines [N _] F IH]; [done|]. cbn [map concat_str]. unfold with_end at 1, newline.
  rewrite app_assoc_str. cbn [String.append]. rewrite split_on_line by done. cbn. by rewrite IH.
Qed.

Lemma str_lines_with_end lines : Forall is_line lines -> str_lines (concat_str (map with_end lines)) = lines.
Proof.
  intros F. unfold str_lines. rewrite split_lines by done. rewrite last_snoc, removelast_last.
  clear -F. induction F as [|l lines [_ N] F IH]; [done|]. cbn. by rewrite IH, strip_cr_line.
Qed.

Lemma utf8_app_fuel n : forall a b, String.length a <= n -> utf8_valid a = true ->
  utf8_valid (a +:+ b) = utf8_valid b.
Proof.
  induction n as [|n IH]; intros a b L; [by destruct a; [|cbn in L; lia]|].
  destruct a as [|c1 a]; [done|]. cbn in L. cbn [String.append utf8_valid].
  destruct (byte_in 0 127 c1); [intros V; apply IH; [lia|done]|].
  destruct a as [|c2 a]; [done|]. cbn in L. cbn [String.append].
  destruct (byte_in 194 223 c1); [intros [-> V]%andb_true_iff; apply IH; [lia|done]|].
  destruct a as [|c3 a]; [done|]. cbn in L. cbn [String.append].
  destruct (_ =? 224); [intros [-> V]%andb_true_iff; apply IH; [lia|done]|].
  destruct (_ =? 237); [intros [-> V]%andb_true_iff; apply IH; [lia|done]|].
  destruct (byte_in 225 239 c1); [intros [-> V]%andb_true_iff; apply IH; [lia|done]|].
  destruct a as [|c4 a]; [done|]. cbn in L. cbn [String.append].
  intros [-> V]%andb_true_iff. apply IH; [lia|done].
Qed.

Lemma utf8_app a b : utf8_valid a = true -> utf8_valid (a +:+ b) = utf8_valid b.
Proof. by apply (utf8_app_fuel (String.length a)). Qed.

(** * The file of a log *)

Section ledger.
Context `{SerdeJson, SerdeText, !SerdeTextSpec, Sha256}.

Definition log_text (records : list LedgerRecord.t) : string :=
  concat_str (map with_end (map json_bytes records)).

Lemma log_text_snoc records r : log_text (records ++ [r]) = log_text records +:+ with_end (json_bytes r).
Proof.
  unfold log_text. rewrite !map_app. cbn [map].
  induction (map with_end (map json_bytes records)) as [|s l IH]; cbn; [apply app_empty_r|]. by rewrite IH, app_assoc_str.
Qed.

Lemma record_line r : is_line (json_bytes (A:=LedgerRecord.t) r).
Proof. apply compact_line. Qed.

Lemma log_text_utf8 records : utf8_valid (log_text records) = true.
Proof.
  induction records as [|r records IH]; [done|]. unfold log_text. cbn [map concat_str]. unfold with_end at 1.
  rewrite app_assoc_str, utf8_app by apply compact_utf8. exact IH.
Qed.

(** The records this version writes. *)
Definition current_record (r : LedgerRecord.t) : Prop := r.(LedgerRecord.schema_version) = LEDGER_SCHEMA_VERSION.

Lemma record_reads r : current_record r -> LedgerStore.deserialize_record (json_bytes r) = Some r.
Proof.
  intros V. destruct (from_str_compact (ser r)) as (j & F & E).
  eapply deserialize_versioned_equiv; [|..|exact F|exact E]; [reflexivity|done|]. by rewrite <- V.
Qed.

Lemma head_reads h : h.(LedgerHead.schema_version) = LEDGER_SCHEMA_VERSION ->
  LedgerStore.deserialize_head (to_string_pretty (ser h)) = Some h.
Proof.
  intros V. destruct (from_str_pretty (ser h)) as (j & F & E).
  eapply deserialize_versioned_equiv; [|..|exact F|exact E]; [reflexivity|done|]. by rewrite <- V.
Qed.

Lemma record_not_blank (r : LedgerRecord.t) : trim (json_bytes r) <> EmptyString.
Proof. intros B%from_str_blank. destruct (from_str_compact (ser r)) as (j & F & _). unfold json_bytes in B. congruence. Qed.

Lemma parse_log_text records : Forall current_record records -> LedgerStore.parse_log (log_text records) = records.
Proof.
  intros V. unfold LedgerStore.parse_log, log_text. rewrite str_lines_with_end.
  2: { apply Forall_map, Forall_forall. intros r _. apply record_line. }
  induction V as [|r records Vr V IH]; [done|]. cbn [map]. rewrite filter_cons_True by apply record_not_blank.
  cbn [omap list_omap]. rewrite record_reads by done. by rewrite IH.
Qed.

(** * The abstract log *)

Definition log_of (facts : list (LedgerKind.t * u64)) : list LedgerRecord.t := (append_all empty_head facts).1.
Definition head_after (facts : list (LedgerKind.t * u64)) : LedgerHead.t := (append_all empty_head facts).2.

Lemma append_all_snoc h facts k t :
  append_all h (facts ++ [(k, t)]) =
  let '(records, h') := append_all h facts in
  let '(r, h'') := append_record h' k t in (records ++ [r], h'').
Proof.
  revert h; induction facts as [|[k' t'] facts IH]; intros h; [done|]. cbn [app append_all].
  destruct (append_record h k' t') as [r' h1]. rewrite IH. destruct (append_all h1 facts) as [records h2].
  by destruct (append_record h2 k t).
Qed.

Lemma log_of_snoc facts k t : log_of (facts ++ [(k, t)]) = log_of facts ++ [(append_record (head_after facts) k t).1].
Proof. unfold log_of, head_after. rewrite append_all_snoc. by destruct (append_all empty_head facts). Qed.

Lemma head_after_snoc facts k t : head_after (facts ++ [(k, t)]) = (append_record (head_after facts) k t).2.
Proof. unfold head_after. rewrite append_all_snoc. by destruct (append_all empty_head facts). Qed.

Lemma log_of_current facts : Forall current_record (log_of facts).
Proof.
  induction facts as [|[k t] facts IH] using rev_ind; [done|]. rewrite log_of_snoc.
  apply Forall_app. split; [done|]. by constructor.
Qed.

Lemma head_after_current facts : (head_after facts).(LedgerHead.schema_version) = LEDGER_SCHEMA_VERSION.
Proof. induction facts as [|[k t] facts IH] using rev_ind; [done|]. by rewrite head_after_snoc. Qed.

Lemma facts_of_log facts : map fact_of (log_of facts) = facts.
Proof.
  induction facts as [|[k t] facts IH] using rev_ind; [done|]. by rewrite log_of_snoc, map_app, IH.
Qed.

Lemma verify_log_of facts : verify_chain (log_of facts) = inl (head_after facts).
Proof.
  apply verify_chain_appended. rewrite facts_of_log.
  assert (map with_schema (log_of facts) = log_of facts) as ->.
  { induction (log_of_current facts) as [|r l V F IH]; [done|]. cbn. rewrite IH. f_equal.
    destruct r. unfold with_schema. cbn. by rewrite <- V. }
  unfold log_of, head_after. by destruct (append_all empty_head facts).
Qed.

(** * The store *)

(** What the store says its head is. *)
Definition head_of (d : Disk.t) (dir : string) : LedgerHead.t := (exec [] (LedgerStore.head dir) d).2.

Definition log_file (d : Disk.t) (dir : string) : string := default EmptyString (Disk.file d (log_path dir)).

(** The disk holds the ledger of [facts]. *)
Definition ledger_of (d : Disk.t) (dir : string) (facts : list (LedgerKind.t * u64)) : Prop :=
  disk_wf d /\ log_file d dir = log_text (log_of facts) /\ head_of d dir = head_after facts.

(** A call the system carries out. *)
Definition carried_out (f : Fate.t) : Prop :=
  match f with Fate.Done | Fate.Listed _ => True | Fate.Failed | Fate.Torn _ => False end.

Lemma head_of_file d d' dir : Disk.file d' (head_path dir) = Disk.file d (head_path dir) -> head_of d' dir = head_of d dir.
Proof. intros F. unfold head_of, LedgerStore.head. rewrite !exec_bind, !exec_sys. cbn. by rewrite F. Qed.

Lemma head_of_written d dir h : h.(LedgerHead.schema_version) = LEDGER_SCHEMA_VERSION ->
  Disk.file d (head_path dir) = Some (to_string_pretty (ser h)) -> head_of d dir = h.
Proof.
  intros V F. unfold head_of, LedgerStore.head. rewrite exec_bind, exec_sys.
  cbn [next_fate head default meet perform tail]. rewrite F, pretty_utf8. cbn [exec snd]. by rewrite head_reads.
Qed.

Lemma exec_head fates dir d : carried_out (next_fate fates) ->
  exec fates (LedgerStore.head dir) d = (d, tail fates, head_of d dir).
Proof.
  intros C. unfold head_of, LedgerStore.head. rewrite !exec_bind, !exec_sys. by destruct (next_fate fates).
Qed.

Lemma exec_read_all dir d facts : ledger_of d dir facts ->
  exec [] (LedgerStore.read_all dir) d = (d, [], log_of facts).
Proof.
  intros (_ & L & _). unfold LedgerStore.read_all. rewrite exec_bind, exec_sys. cbn. unfold log_file in L.
  destruct (Disk.file d (log_path dir)) as [raw|]; cbn in L |- *.
  - rewrite L, log_text_utf8. cbn. by rewrite parse_log_text by apply log_of_current.
  - destruct facts as [|f facts _] using rev_ind; [done|]. destruct f as [k t]. exfalso.
    rewrite log_of_snoc, log_text_snoc in L. apply (f_equal String.length) in L.
    unfold with_end, newline in L. rewrite !length_app_str in L. cbn in L. lia.
Qed.

Lemma take_bytes_all s : take_bytes (String.length s) s = s.
Proof. induction s as [|c s IH]; [done|]. cbn. by rewrite IH. Qed.

Lemma take_bytes_app_le n a b : n <= String.length a -> take_bytes n (a +:+ b) = take_bytes n a.
Proof. revert n; induction a as [|c a IH]; intros [|n] L; cbn in *; try done; [lia|]. by rewrite IH by lia. Qed.

Lemma take_bytes_app n a b : take_bytes (String.length a + n) (a +:+ b) = a +:+ take_bytes n b.
Proof. induction a as [|c a IH]; [done|]. cbn. by rewrite IH. Qed.

Lemma take_bytes_min n s : exists m, m <= String.length s /\ take_bytes n s = take_bytes m s.
Proof.
  revert n; induction s as [|c s IH]; intros [|n]; cbn; try (by exists 0; split; [lia|]).
  destruct (IH n) as (m & B & ->). exists (S m). cbn. split; [lia|done].
Qed.

Lemma exec_append_line fates p line d d' fates' r : disk_wf d ->
  exec fates (append_line p line) d = (d', fates', r) ->
  disk_wf d' /\ same_but p d d' /\
    exists n, default EmptyString (Disk.file d' p) = default EmptyString (Disk.file d p) +:+ take_bytes n (with_end line) /\
    (r = inl tt -> take_bytes n (with_end line) = with_end line).
Proof.
  intros W. unfold append_line. rewrite exec_try, exec_context, exec_sys.
  destruct (meet _ (OpenAppend p) d) as [d1 [i|e]] eqn:O.
  2: { destruct (meet_open _ false p d d1 (inr e) W O) as (W1 & S1 & ->). intros [= <- <- <-].
       split; [done|]. split; [done|]. exists 0. cbn. by rewrite app_empty_r. }
  destruct (meet_open _ false p d d1 (inl i) W O) as (W1 & S1 & L1 & F1). rewrite exec_context, exec_try, exec_sys.
  destruct (meet _ (WriteEnd i line) d1) as [d2 x] eqn:Wr.
  destruct (meet_write_end _ p i line d1 d2 x W1 L1 Wr) as (W2 & S2 & N2 & n & F2 & T2). rewrite F1 in F2. cbn in F2.
  destruct x as [[]|e].
  - rewrite exec_sys. destruct (meet _ (WriteEnd i newline) d2) as [d3 y] eqn:We. intros [= <- <- <-].
    destruct (meet_write_end _ p i newline d2 d3 y W2 ltac:(by rewrite N2) We) as (W3 & S3 & _ & m & F3 & T3).
    split; [done|]. split; [by do 2 (eapply same_but_trans; [done|])|]. exists (String.length line + m).
    rewrite F3, F2, T2 by done. cbn. unfold with_end. rewrite take_bytes_app, app_assoc_str. split; [done|].
    destruct y as [[]|]; [by rewrite T3|done].
  - intros [= <- <- <-]. split; [done|]. split; [by eapply same_but_trans|].
    destruct (take_bytes_min n line) as (m & B & Em). exists m. rewrite F2, Em. unfold with_end.
    by rewrite take_bytes_app_le.
Qed.

Lemma head_log_ne dir : head_path dir <> log_path dir.
Proof. by intros [=]. Qed.

(** One append on a store that holds the ledger of [facts]. *)
Lemma exec_append fates d d' fates' dir facts kind now_ms r :
  ledger_of d dir facts -> carried_out (next_fate fates) ->
  exec fates (LedgerStore.append dir kind now_ms) d = (d', fates', r) ->
  match r with
  | inl record =>
      ledger_of d' dir (facts ++ [(kind, now_ms)]) /\ record = (append_record (head_after facts) kind now_ms).1
  | inr _ =>
      disk_wf d' /\ head_of d' dir = head_after facts /\
    exists n, log_file d' dir = log_text (log_of facts) +:+
        take_bytes n (with_end (json_bytes (append_record (head_after facts) kind now_ms).1))
  end.
Proof.
  intros (W & L & Hd) C. unfold LedgerStore.append. rewrite exec_bind, exec_head, Hd by done.
  destruct (append_record (head_after facts) kind now_ms) as [record next] eqn:Ap.
  rewrite exec_try, exec_context, exec_sys. destruct (meet _ (CreateDirAll dir) d) as [d1 mk] eqn:Mk.
  assert (disk_wf d1 /\ forall p, Disk.file d1 p = Disk.file d p) as [W1 F1].
  { destruct (next_fate (tail fates)); injection Mk as <- _; split; done || by destruct W. }
  assert (head_of d1 dir = head_after facts /\ log_file d1 dir = log_text (log_of facts)) as [Hd1 L1].
  { rewrite <- Hd, <- L. split; [by apply head_of_file|]. unfold log_file. by rewrite F1. }
  destruct mk as [[]|e].
  2: { intros [= <- <- <-]. split; [done|]. split; [done|]. exists 0. cbn. by rewrite app_empty_r. }
  rewrite exec_try. destruct (exec _ (append_line _ _) d1) as [[d2 fates2] al] eqn:Al.
  destruct (exec_append_line _ _ _ _ _ _ _ W1 Al) as (W2 & (D2 & _ & S2) & n & F2 & T2).
  assert (head_of d2 dir = head_after facts) as Hd2.
  { rewrite <- Hd1. apply head_of_file, S2, head_log_ne. }
  assert (log_file d2 dir = log_text (log_of facts) +:+ take_bytes n (with_end (json_bytes record))) as L2.
  { rewrite <- L1. exact F2. }
  destruct al as [[]|e].
  2: { intros [= <- <- <-]. split; [done|]. split; [done|]. by exists n. }
  rewrite exec_try. destruct (exec _ (atomic_write _ _) d2) as [[d3 fates3] aw] eqn:Aw.
  destruct (exec_atomic_write _ _ _ _ _ _ _ W2 Aw) as (W3 & _ & S3 & F3).
  assert (log_file d3 dir = log_file d2 dir) as L3 by (unfold log_file; by rewrite S3).
  destruct aw as [[]|e]; intros [= <- <- <-].
  - split; [|done]. split; [done|]. rewrite L3, L2, T2, log_of_snoc, log_text_snoc, Ap by done. split; [done|].
    rewrite head_after_snoc, Ap. apply head_of_written; [|exact F3]. by injection Ap as _ <-.
  - split; [done|]. split; [by rewrite <- Hd2; apply head_of_file|]. exists n. by rewrite L3.
Qed.

(** Nothing failing, it succeeds. *)
Lemma append_done d dir facts kind now_ms : ledger_of d dir facts ->
  exists d', exec [] (LedgerStore.append dir kind now_ms) d =
    (d', [], inl (append_record (head_after facts) kind now_ms).1).
Proof.
  intros L. destruct L as (W & L & Hd). unfold LedgerStore.append. rewrite exec_bind, exec_head, Hd by done.
  destruct (append_record (head_after facts) kind now_ms) as [record next].
  rewrite exec_try, exec_context, exec_sys. cbn [next_fate head default meet perform tail].
  set (d1 := Disk.Mk _ _ _ _). assert (disk_wf d1) as W1 by (by destruct W).
  rewrite exec_try. unfold append_line at 1. rewrite exec_try, exec_context, exec_sys. cbn [next_fate head default meet perform tail].
  destruct (open_at false (log_path dir) d1) as [d2 o] eqn:O.
  assert (exists i, o = inl i) as [i ->].
  { unfold open_at in O. rewrite bool_decide_eq_true_2 in O by (cbn; set_solver).
    destruct (d1.(Disk.names) !! _); injection O as _ <-; eauto. }
  destruct (open_at_spec false _ d1 d2 _ W1 O) as (W2 & (D2 & _) & L2 & _).
  rewrite exec_context, exec_try, exec_sys. cbn [next_fate head default meet perform tail].
  rewrite exec_sys. cbn [next_fate head default meet perform tail]. set (d3 := Disk.set_data _ _ _).
  destruct (atomic_write_done (head_path dir) (to_string_pretty (ser next)) d3) as [d4 E].
  - cbn. rewrite D2. cbn. set_solver.
  - by do 2 apply wf_set_data.
  - exists d4. by rewrite exec_try, E.
Qed.

(** Facts recorded one after another. *)
Fixpoint record_facts (dir : string) (facts : list (LedgerKind.t * u64)) : io (list (option LedgerRecord.t)) :=
  match facts with
  | [] => Ret []
  | (kind, now_ms) :: facts =>
      run! record := LedgerStore.append_evidence (Some dir) kind now_ms in
      run! records := record_facts dir facts in Ret (record :: records)
  end.

Lemma exec_record_facts dir facts : forall d before, ledger_of d dir before ->
  exists d' records, exec [] (record_facts dir facts) d = (d', [], map Some records) /\
    ledger_of d' dir (before ++ facts) /\ log_of (before ++ facts) = log_of before ++ records.
Proof.
  induction facts as [|[kind now_ms] facts IH]; intros d before L.
  { exists d, []. by rewrite !app_nil_r. }
  destruct (append_done d dir before kind now_ms L) as [d1 E].
  destruct (exec_append [] d d1 [] dir before kind now_ms _ L I E) as [L1 _].
  destruct (IH d1 _ L1) as (d2 & records & E2 & L2 & Lg).
  exists d2, ((append_record (head_after before) kind now_ms).1 :: records).
  cbn [record_facts LedgerStore.append_evidence]. rewrite !exec_bind, E. cbn [exec]. rewrite exec_bind, E2.
  cbn [exec]. split; [done|].
  rewrite log_of_snoc in Lg. rewrite <- !app_assoc in L2, Lg. rewrite <- app_assoc in Lg. done.
Qed.

(** C25: the store implements the abstract log. On a disk that holds the ledger of [facts], with the
    head readable, an append that succeeds leaves the ledger with one more fact and returns its
    record; an append that fails, wherever it fails, leaves the head as it was and the log's earlier
    lines, followed by at most a part of the new one. *)
Theorem ledger_append_spec (fates : list Fate.t) (d d' : Disk.t) (fates' : list Fate.t) (dir : string)
    (facts : list (LedgerKind.t * u64)) (kind : LedgerKind.t) (now_ms : u64) (r : LedgerRecord.t + string)
    (L : ledger_of d dir facts) (C : carried_out (next_fate fates))
    (E : exec fates (LedgerStore.append dir kind now_ms) d = (d', fates', r)) :
  match r with
  | inl record =>
      ledger_of d' dir (facts ++ [(kind, now_ms)]) /\ record = (append_record (head_after facts) kind now_ms).1
  | inr _ =>
      disk_wf d' /\ head_of d' dir = head_after facts /\
      exists n, log_file d' dir = log_text (log_of facts) +:+
        take_bytes n (with_end (json_bytes (append_record (head_after facts) kind now_ms).1))
  end.
Proof. by eapply exec_append. Qed.

(** C27: evidence reads back. Nothing failing, facts recorded on an empty ledger are all sealed, as the
    chain of [Ledgers.v] seals them; a query then gives those its facets match, the newest first, and
    the verification reports an intact chain, the number of the facts and the head. *)
Theorem evidence_reads_back (d : Disk.t) (dir : string) (facts : list (LedgerKind.t * u64)) (f : Facets.t) (limit : u64)
    (L : ledger_of d dir []) :
  let written := exec [] (record_facts dir facts) d in
  written.2 = map Some (log_of facts) /\
  (exec [] (LedgerStore.run_ledger_query (Some dir) f limit) written.1.1).2 =
    JObj [("records", JArr (map ser (take (N.to_nat (uval limit))
      (base.filter (fun r => matches_filters r f = true) (reverse (log_of facts))))))] /\
  (exec [] (LedgerStore.run_ledger_verify (Some dir)) written.1.1).2 =
    JObj [("ok", JBool true); ("count", ser (wrap 64 (N.of_nat (length facts))));
          ("head_hash", JStr (head_after facts).(LedgerHead.head_hash))].
Proof.
  destruct (exec_record_facts dir facts d [] L) as (d' & records & E & L' & Lg). cbn zeta. rewrite E.
  cbn [app] in *. cbn [fst snd]. split; [by rewrite Lg|].
  unfold LedgerStore.run_ledger_query, LedgerStore.run_ledger_verify, LedgerStore.read_store.
  rewrite !exec_bind, (exec_read_all _ _ _ L'). split; [done|]. cbn [exec snd]. rewrite verify_log_of.
  destruct (append_all_head 0 EmptyString facts) as [h Eh]. unfold head_after.
  change (head_at 0 EmptyString) with empty_head in Eh. by rewrite Eh.
Qed.

(** The verification does not look at the head that is kept: a log cut after any record verifies,
    with the head of what is left. *)
Lemma cut_log_verifies d dir before after raw :
  ledger_of d dir (before ++ after) -> Disk.file d (log_path dir) = Some raw ->
  exists cut rest, raw = cut +:+ rest /\ forall d', Disk.file d' (log_path dir) = Some cut ->
    (exec [] (LedgerStore.run_ledger_verify (Some dir)) d').2 =
    JObj [("ok", JBool true); ("count", ser (head_after before).(LedgerHead.count));
          ("head_hash", JStr (head_after before).(LedgerHead.head_hash))].
Proof.
  intros (_ & L & _) F. unfold log_file in L. rewrite F in L. cbn in L. subst raw.
  assert (exists rest, log_text (log_of (before ++ after)) = log_text (log_of before) +:+ rest) as [rest E].
  { clear F. induction after as [|[k t] after IH] using rev_ind; [exists EmptyString; by rewrite app_nil_r, app_empty_r|].
    destruct IH as [rest IH]. rewrite app_assoc, log_of_snoc, log_text_snoc, IH, app_assoc_str. by eexists. }
  exists (log_text (log_of before)), rest. split; [done|]. intros d' F'.
  unfold LedgerStore.run_ledger_verify, LedgerStore.read_store, LedgerStore.read_all.
  rewrite !exec_bind, exec_sys. cbn [next_fate head default meet perform tail]. rewrite F', log_text_utf8. cbn [exec snd].
  by rewrite parse_log_text, verify_log_of by apply log_of_current.
Qed.
End ledger.

(** * Runs *)

Definition recorded (n : N) : LedgerKind.t * u64 :=
  (LedgerKind.PolicyDecision "run" "v1" "exec" PolicyDecisionOutcome.Deny None, wrap 64 n).

Lemma ledger_of_empty : ledger_of Disk.empty "ledger" [].
Proof. split; [apply disk_wf_empty|]. split; [done|]. by vm_compute. Qed.

(** A ledger of one fact. *)
Definition one_fact : Disk.t := (exec [] (record_facts "ledger" [recorded 1]) Disk.empty).1.1.

Lemma ledger_of_one_fact : ledger_of one_fact "ledger" [recorded 1].
Proof.
  unfold one_fact. destruct (exec_record_facts "ledger" [recorded 1] Disk.empty [] ledger_of_empty) as (d & rs & E & L & _).
  by rewrite E.
Qed.

(** The second append is torn in the middle of its line. *)
Lemma ledger_append_spec_witness :
  let written := exec [Fate.Done; Fate.Done; Fate.Done; Fate.Torn 9]
    (LedgerStore.append "ledger" (recorded 2).1 (recorded 2).2) one_fact in
  (exists e, written.2 = inr e) /\ head_of written.1.1 "ledger" = head_after [recorded 1].
Proof.
  set (fates := [Fate.Done; Fate.Done; Fate.Done; Fate.Torn 9]). cbn zeta.
  destruct (exec fates (LedgerStore.append "ledger" (recorded 2).1 (recorded 2).2) one_fact) as [[d' fates'] r] eqn:E.
  pose proof (ledger_append_spec fates one_fact d' fates' "ledger" [recorded 1] (recorded 2).1 (recorded 2).2 r
    ledger_of_one_fact I E) as S.
  assert (exists e, r = inr e) as [e ->].
  { change r with (d', fates', r).2. rewrite <- E. eexists. vm_compute. reflexivity. }
  destruct S as (_ & S & _). split; [by eexists|]. exact S.
Defined.

Lemma evidence_reads_back_witness :
  let written := exec [] (record_facts "ledger" [recorded 1; recorded 2]) Disk.empty in
  (exec [] (LedgerStore.run_ledger_verify (Some "ledger")) written.1.1).2 =
    JObj [("ok", JBool true); ("count", JNum 2);
          ("head_hash", JStr (head_after [recorded 1; recorded 2]).(LedgerHead.head_hash))].
Proof.
  exact (proj2 (proj2 (evidence_reads_back Disk.empty "ledger" [recorded 1; recorded 2]
    (Facets.Mk None None None None None None) (wrap 64 10) ledger_of_empty))).
Defined.

Definition verified (d : Disk.t) : json := (exec [] (LedgerStore.run_ledger_verify (Some "ledger")) d).2.

(** An append whose head is not written leaves its record in the log, and the next append, which
    succeeds, takes its sequence number again. *)
Lemma lost_head_breaks_chain :
  let '(d, _, r) := exec [Fate.Done; Fate.Done; Fate.Done; Fate.Done; Fate.Done; Fate.Failed]
    (LedgerStore.append "ledger" (recorded 2).1 (recorded 2).2) one_fact in
  let '(d', _, r') := exec [] (LedgerStore.append "ledger" (recorded 3).1 (recorded 3).2) d in
  (exists e, r = inr e) /\ (exists record, r' = inl record) /\
  verified d' = JObj [("ok", JBool false); ("error", JStr "SeqGap"); ("seq", JNum 2)].
Proof. vm_compute. split; [by eexists|]. split; [by eexists|done]. Qed.

(** A head that could not be read once starts the chain again, and the append succeeds. *)
Lemma unread_head_restarts_chain :
  let '(d, _, r) := exec [Fate.Failed] (LedgerStore.append "ledger" (recorded 2).1 (recorded 2).2) one_fact in
  (exists record, r = inl record /\ record.(LedgerRecord.seq) = wrap 64 0) /\
  verified d = JObj [("ok", JBool false); ("error", JStr "SeqGap"); ("seq", JNum 1)].
Proof. vm_compute. split; [by eexists|done]. Qed.

(** Two appends at once both read the same head: both succeed and the chain forks. *)
Lemma appends_at_once_fork :
  let turns i := replicate 8 (i, Fate.Done) in
  let p := Pool.run ((0, Fate.Done) :: (1, Fate.Done) :: turns 0 ++ turns 1)
    (Pool.Mk one_fact [LedgerStore.append "ledger" (recorded 2).1 (recorded 2).2;
                       LedgerStore.append "ledger" (recorded 3).1 (recorded 3).2]) in
  (exists r r', p.(Pool.threads) = [Ret (inl r); Ret (inl r')]) /\
  verified p.(Pool.disk) = JObj [("ok", JBool false); ("error", JStr "SeqGap"); ("seq", JNum 2)].
Proof. vm_compute. split; [by eexists _, _|done]. Qed.
