(* ===== verification/Attest.v ===== *)
(** The trust substrate's handlers over the stores: the policy plane and its evidence sink
    ([nerve-workstation/src/policy_plane.rs]), receipts signed and kept ([receipt_store.rs], [signer.rs]),
    the run writer ([run_store.rs]), outcome labels ([outcome_store.rs], [commands/outcome.rs]), replays
    ([replay.rs]), and the fetches and listings of every store. *)
From stdpp Require Import gmap strings.
From S2P Require Import Prelude Text Json Digest Verdicts Provenance Runpin Outcomes Ledgers Policies Receipts Gate Disk Wire WireTypes RecordStore LedgerStore.
Open Scope nerve_scope.

(** The events these handlers announce ([nerve-proto/src/event]). *)
Module RuntimeEvent.
Inductive t :=
  | RunRecorded (job_id run_id root_hash : string) (event_count : u64)
  | LedgerAppended (seq : u64) (kind record_hash head_hash : string)
  | VerificationCompleted (run_id verdict_id : string) (status : VerdictStatus.t) (check_count : u64)
  | PolicyDecisionRecorded (record : PolicyDecisionRecord.t) (ledger_seq : option u64)
  | ReceiptIssued (session_id run_id receipt_id : string) (verdict : VerdictStatus.t)
  | OutcomeLabeled (run_id : string) (session_id : option string) (outcome : Outcome.t)
      (labels_root : string) (label_count : u64)
  | ReplayProgress (job_id : string) (seq : u64) (chained_hash : string)
  | ReplayFinished (job_id : string) (manifest : ReplayManifest.t).
End RuntimeEvent.

Definition emit_ledger_appended (record : LedgerRecord.t) : RuntimeEvent.t :=
  RuntimeEvent.LedgerAppended record.(LedgerRecord.seq) (ledger_kind_tag record.(LedgerRecord.kind))
    record.(LedgerRecord.record_hash) record.(LedgerRecord.record_hash).

(** * The bar and the signer *)

Module SealedBar.
Record t := Mk {
  merge_bar : MergeBar.t;
  required_evidence : list EvidenceRequirement.t;
  policy_version : option string;
}.
Definition empty : t := Mk MergeBar.default [] None.
Definition is_empty (b : t) : bool := MergeBar.is_empty b.(merge_bar) && is_nil b.(required_evidence).
End SealedBar.

Module Signer.
Record t := Mk { backend : string; keyid : string; sign : bytes -> string * string }.
End Signer.

Definition LOCAL_ED25519_BACKEND : string := "local-ed25519".

(** The key's base64 public key, and the base64 of its signature of a message. *)
Definition local_ed25519 (public_key_b64 : string) (sign_b64 : bytes -> string) : Signer.t :=
  Signer.Mk LOCAL_ED25519_BACKEND public_key_b64 (fun pae => (sign_b64 pae, public_key_b64)).

(** * The policy plane *)

Module DelegateAutonomy.
Inductive t := ReadOnly | Edit | Full.
Definition debug (a : t) : string :=
  match a with ReadOnly => "ReadOnly" | Edit => "Edit" | Full => "Full" end.
End DelegateAutonomy.

Module DelegateRole.
Inductive t := Standard | Scout.
Definition debug (r : t) : string := match r with Standard => "Standard" | Scout => "Scout" end.
End DelegateRole.

Definition opt_list {A} (o : option A) : list A := match o with Some a => [a] | None => [] end.

(** [Option::is_none_or]. *)
Definition is_none_or {A} (p : A -> bool) (o : option A) : bool := match o with Some a => p a | None => true end.

Definition POLICY_PLANE_FILE : string := "policy-plane.json".

Definition nerve_dir (root : string) : string := root +:+ "/.nerve".

Module EvidenceSink.
Inductive t := Null | Ledger (dir : string).
End EvidenceSink.

Module PolicyPlane.
Record t := Mk { doc : PolicyDoc.t; sink : EvidenceSink.t }.
End PolicyPlane.

Definition capability_label (capability : Capability.t) : string :=
  match capability with
  | Capability.Read => "read"
  | Capability.Write => "write"
  | Capability.Egress => "egress"
  | Capability.Exec => "exec"
  end.

Definition decision_outcome (decision : string) : PolicyDecisionOutcome.t :=
  if String.eqb decision "allow" then PolicyDecisionOutcome.Allow else PolicyDecisionOutcome.Deny.

Definition non_empty (s : string) : option string := if is_empty s then None else Some s.

Definition policy_plane_path (config_home root : option string) : option file_path :=
  match root with
  | Some root => Some (nerve_dir root, POLICY_PLANE_FILE)
  | None => (fun home => (home, POLICY_PLANE_FILE)) <$> config_home
  end.

Module IssuedReceipt.
Record t := Mk { receipt_id : string; run_id : string; verdict : VerdictStatus.t }.
End IssuedReceipt.

Section handlers.
Context `{SerdeJson, SerdeText, Sha256}.
(** [auth::config_home], and the text of an error of the system. *)
Context (config_home : option string) (io_text : IoError.t -> string).

Definition decision_kind (record : PolicyDecisionRecord.t) : LedgerKind.t :=
  LedgerKind.PolicyDecision record.(PolicyDecisionRecord.session_id) record.(PolicyDecisionRecord.policy_version)
    (capability_label record.(PolicyDecisionRecord.capability))
    (decision_outcome record.(PolicyDecisionRecord.decision))
    (non_empty record.(PolicyDecisionRecord.args_hash)).

Definition append_decision (sink : EvidenceSink.t) (record : PolicyDecisionRecord.t) (now_ms : u64) : io (option u64) :=
  match sink with
  | EvidenceSink.Null => Ret None
  | EvidenceSink.Ledger dir =>
      run! appended := LedgerStore.append dir (decision_kind record) now_ms in
      Ret (match appended with inl r => Some r.(LedgerRecord.seq) | inr _ => None end)
  end.

Definition load_policy_doc (root : option string) : io (option PolicyDoc.t) :=
  match policy_plane_path config_home root with
  | None => Ret None
  | Some path =>
      run! raw := sys (ReadToString path) in
      Ret (match raw with inl raw => from_str raw ≫= de | inr _ => None end)
  end.

Definition with_sink (root : option string) (sink : EvidenceSink.t) : io PolicyPlane.t :=
  run! doc := load_policy_doc root in Ret (PolicyPlane.Mk (seal_policy (default PolicyDoc.default doc)) sink).

Definition resolve (root : option string) : io PolicyPlane.t := with_sink root EvidenceSink.Null.
Definition with_ledger (root : option string) (dir : string) : io PolicyPlane.t := with_sink root (EvidenceSink.Ledger dir).

(** [JobManager::policy_plane]. *)
Definition policy_plane (root ledger : option string) : io PolicyPlane.t :=
  match ledger with Some dir => with_ledger root dir | None => resolve root end.

Definition policy_version (plane : PolicyPlane.t) : string := plane.(PolicyPlane.doc).(PolicyDoc.policy_version).

Definition sealed_bar (plane : PolicyPlane.t) : SealedBar.t :=
  let doc := plane.(PolicyPlane.doc) in
  let bar := SealedBar.Mk doc.(PolicyDoc.merge_bar) doc.(PolicyDoc.required_evidence) None in
  if SealedBar.is_empty bar then SealedBar.empty
  else SealedBar.Mk bar.(SealedBar.merge_bar) bar.(SealedBar.required_evidence) (Some (policy_version plane)).

Definition record_decision (plane : PolicyPlane.t) (record : PolicyDecisionRecord.t) (now_ms : u64) : io (option u64) :=
  append_decision plane.(PolicyPlane.sink) record now_ms.

Definition run_policy_get (plane : option PolicyPlane.t) : json :=
  let doc := match plane with Some plane => plane.(PolicyPlane.doc) | None => seal_policy PolicyDoc.default end in
  JObj [("policy", ser doc)].

Definition run_policy_decisions (session_id : option string) (plane : option PolicyPlane.t) (ledger : option string)
  : io json :=
  let version := match plane with Some plane => policy_version plane | None => EmptyString end in
  run! queried := LedgerStore.run_ledger_query ledger
    (Facets.Mk session_id None None None None (Some "policy_decision")) (wrap 64 200) in
  Ret (JObj [("policy_version", JStr version);
             ("session_id", match session_id with Some id => JStr id | None => JNull end);
             ("decisions", default (JArr []) (value_get "records" queried))]).

(** The two axes of a delegate's authorization, recorded in order at the times of [clock]. *)
Definition record_delegate_authorization (plane : PolicyPlane.t) (session_id agent : string) (role : DelegateRole.t)
    (autonomy : DelegateAutonomy.t) (clock : nat -> u64) : io (list (PolicyDecisionRecord.t * option u64)) :=
  let fs_capability :=
    match autonomy with
    | DelegateAutonomy.ReadOnly => Capability.Read
    | DelegateAutonomy.Edit => Capability.Write
    | DelegateAutonomy.Full => Capability.Exec
    end in
  let record capability reason :=
    PolicyDecisionRecord.Mk POLICY_SCHEMA_VERSION (policy_version plane) session_id agent "delegate.start"
      capability "allow" reason EmptyString in
  let first := record fs_capability
    ("delegated agent authorized at " +:+ DelegateAutonomy.debug autonomy +:+ " autonomy (role " +:+
     DelegateRole.debug role +:+ ")") in
  let second := record Capability.Egress
    "delegated agent granted outbound network (LLM API egress, all autonomy levels)" in
  run! seq0 := record_decision plane first (clock 0) in
  run! seq1 := record_decision plane second (clock 1) in
  Ret [(first, seq0); (second, seq1)].

(** * Receipts *)

(** The statement, its signature and the sealed receipt. *)
Definition signed_receipt (run : Run.t) (checks : list ReceiptCheck.t) (verdict : VerdictStatus.t)
    (toolchain_digest policy_version : option string) (ledger_ref : option LedgerRef.t)
    (isolation_tier : IsolationTier.t) (issued_at_ms : u64) (checkspec_hash : option string) (bar : SealedBar.t)
    (signer : Signer.t) : Receipt.t :=
  let statement := build_statement_with_bar run checks verdict toolchain_digest policy_version ledger_ref
    isolation_tier issued_at_ms checkspec_hash bar.(SealedBar.merge_bar) bar.(SealedBar.required_evidence) in
  let payload := canonical_statement_bytes statement in
  let pae := dsse_pae RECEIPT_PREDICATE_TYPE payload in
  let '(sig, public_key) := signer.(Signer.sign) pae in
  seal_receipt statement
    (ReceiptSignature.Mk RECEIPT_PREDICATE_TYPE signer.(Signer.backend) signer.(Signer.keyid) sig (Some public_key) None).

Definition issue_receipt_for_run (run : Run.t) (checks : list ReceiptCheck.t) (verdict : VerdictStatus.t)
    (toolchain_digest policy_version : option string) (ledger_ref : option LedgerRef.t)
    (isolation_tier : IsolationTier.t) (issued_at_ms : u64) (checkspec_hash : option string) (bar : SealedBar.t)
    (signer : Signer.t) (store : option string) : io (option IssuedReceipt.t) :=
  let receipt := signed_receipt run checks verdict toolchain_digest policy_version ledger_ref isolation_tier
    issued_at_ms checkspec_hash bar signer in
  let statement := receipt.(Receipt.statement) in
  let issued := IssuedReceipt.Mk receipt.(Receipt.receipt_id)
    statement.(ReceiptStatement.provenance).(ReceiptProvenance.run_id) statement.(ReceiptStatement.verdict) in
  match store with
  | None => Ret None
  | Some dir =>
      run! written := write_record dir receipt in
      Ret (match written with inl _ => Some issued | inr _ => None end)
  end.

(** * Fetching and listing *)

Definition get_record {A} `{StoredRecord A} (missing : string) (id : string) (store : option string) : io (A + string) :=
  match store with
  | None => Ret (inr missing)
  | Some dir =>
      run! record := load_record dir id in
      Ret (match record with inl record => inl record | inr err => inr (missing +:+ ": " +:+ err) end)
  end.

Definition list_or_empty (A : Type) `{StoredRecord A} (store : option string) : io (list A) :=
  match store with
  | None => Ret []
  | Some dir =>
      run! records := list_records io_text dir in
      Ret (match records with inl records => records | inr _ => [] end)
  end.

Definition run_run_list (store : option string) : io json :=
  run! runs := list_or_empty Run.t store in Ret (JObj [("runs", JArr (map ser runs))]).

Definition run_run_get (run_id : string) (store : option string) : io (json + string) :=
  try! run := get_record (A:=Run.t) ("no captured run `" +:+ run_id +:+ "`") run_id store in
  Ret (inl (JObj [("run", ser run)])).

Definition run_verify_get (verdict_id : string) (store : option string) : io (json + string) :=
  try! verdict := get_record (A:=Verdict.t) ("no verdict `" +:+ verdict_id +:+ "`") verdict_id store in
  Ret (inl (JObj [("verdict", ser verdict)])).

Definition run_verify_list (store run_id : option string) : io json :=
  run! verdicts := list_or_empty Verdict.t store in
  Ret (JObj [("verdicts", JArr (map ser (base.filter (fun v : Verdict.t =>
    is_none_or (String.eqb v.(Verdict.run_id)) run_id = true) verdicts)))]).

Definition run_receipt_get (receipt_id : string) (store : option string) : io (json + string) :=
  try! receipt := get_record (A:=Receipt.t) ("no receipt `" +:+ receipt_id +:+ "`") receipt_id store in
  Ret (inl (JObj [("receipt", ser receipt)])).

Definition handle_outcome_get (run_id : string) (store : option string) : io (json + string) :=
  try! record := get_record (A:=OutcomeRecord.t) ("no outcome corpus for `" +:+ run_id +:+ "`") run_id store in
  Ret (inl (JObj [("record", ser record)])).
End handlers.

(** * Outcome labels *)

Module LabeledOutcome.
Record t := Mk { payload : json; run_id : string; labels_root : string; label_count : u64; label_hash : string }.
End LabeledOutcome.

Module OutcomeQuery.
Record t := Mk {
  records : list OutcomeRecord.t;
  summary : OutcomeSummary.t;
  calibration : option OutcomeCalibration.t;
  flaky_rates : list CheckFlakyRate.t;
}.
End OutcomeQuery.

(** [CorpusCalibrator]: no advice on a corpus without labels. *)
Definition corpus_calibrate (records : list OutcomeRecord.t) : option OutcomeCalibration.t :=
  let calibration := calibrate records in
  if (uval calibration.(OutcomeCalibration.labeled_runs) =? 0)%N then None else Some calibration.

Section outcomes.
Context `{SerdeJson, SerdeText, Sha256} (io_text : IoError.t -> string).

Definition handle_outcome_label (run_id : string) (outcome : Outcome.t) (source : LabelSource.t)
    (actor note verdict_ref : option string) (store : option string) (now_ms : u64) : io (LabeledOutcome.t + string) :=
  match store with
  | None => Ret (inr ("no served root for outcome `" +:+ run_id +:+ "`"))
  | Some dir =>
      run! loaded := load_record (A:=OutcomeRecord.t) dir run_id in
      let record := match loaded with inl record => record | inr _ => empty_record run_id None None end in
      let next_seq := len_u64 record.(OutcomeRecord.labels) in
      let label := OutcomeLabel.Mk next_seq outcome source actor note verdict_ref now_ms EmptyString EmptyString in
      let record := append_label record label in
      run! written := write_record dir record in
      Ret (match written with
           | inr err => inr ("failed to persist outcome `" +:+ run_id +:+ "`: " +:+ err)
           | inl _ =>
               inl (LabeledOutcome.Mk (JObj [("record", ser record)]) run_id record.(OutcomeRecord.labels_root)
                 (len_u64 record.(OutcomeRecord.labels))
                 (match last record.(OutcomeRecord.labels) with
                  | Some label => label.(OutcomeLabel.label_hash)
                  | None => EmptyString
                  end))
           end)
  end.

Definition handle_outcome_query (agent : option string) (outcome : option Outcome.t) (limit : u64)
    (store verify_store : option string) : io OutcomeQuery.t :=
  run! all := list_or_empty io_text OutcomeRecord.t store in
  let matched :=
    take (N.to_nat (uval limit))
      (base.filter (fun r => is_none_or (fun want =>
          existsb (fun label => bool_decide (label.(OutcomeLabel.outcome) = want)) r.(OutcomeRecord.labels)) outcome = true)
        (base.filter (fun r : OutcomeRecord.t =>
          is_none_or (fun a => bool_decide (r.(OutcomeRecord.agent) = Some a)) agent = true) all)) in
  run! verdicts := list_or_empty io_text Verdict.t verify_store in
  Ret (OutcomeQuery.Mk matched (summarize matched) (corpus_calibrate matched) (flaky_rates verdicts)).

(** [JobManager::run_outcome_command] on a label: the record, its mirror on the ledger, the events. *)
Definition run_outcome_label (run_id : string) (outcome : Outcome.t) (source : LabelSource.t)
    (actor note verdict_ref : option string) (store ledger : option string) (now_ms now_ms' : u64)
  : io (list RuntimeEvent.t * (json + string)) :=
  run! labeled := handle_outcome_label run_id outcome source actor note verdict_ref store now_ms in
  match labeled with
  | inr err => Ret ([], inr err)
  | inl labeled =>
      run! appended := LedgerStore.append_evidence ledger
        (LedgerKind.OutcomeRecorded labeled.(LabeledOutcome.run_id) outcome source labeled.(LabeledOutcome.label_hash)) now_ms' in
      Ret (map emit_ledger_appended (opt_list appended) ++
           [RuntimeEvent.OutcomeLabeled labeled.(LabeledOutcome.run_id) None outcome
              labeled.(LabeledOutcome.labels_root) labeled.(LabeledOutcome.label_count)],
           inl labeled.(LabeledOutcome.payload))
  end.

(** [commands/outcome.rs]: the identity a first label carries. *)
Definition seed_identity (dir run_id : string) (session receipt : option string) : io (unit + string) :=
  match session, receipt with
  | None, None => Ret (inl tt)
  | _, _ =>
      run! existing := load_record (A:=OutcomeRecord.t) dir run_id in
      match existing with
      | inl _ => Ret (inl tt)
      | inr _ =>
          let record := empty_record run_id session None in
          let record := OutcomeRecord.Mk record.(OutcomeRecord.schema_version) record.(OutcomeRecord.run_id)
            record.(OutcomeRecord.session_id) record.(OutcomeRecord.agent) receipt record.(OutcomeRecord.labels)
            record.(OutcomeRecord.labels_root) in
          run! written := write_record dir record in
          Ret (match written with
               | inl _ => inl tt
               | inr _ => inr ("seed outcome corpus for run `" +:+ run_id +:+ "`")
               end)
      end
  end.
End outcomes.

(** * Replays *)

Section replay.
Context `{SerdeJson, SerdeText, Sha256}.

(** The loop over the spine; [cancelled i] is the token's answer at its step [i]. *)
Fixpoint replay_steps (job_id : string) (cancelled : nat -> bool) (i : nat) (ledger : list LedgerEntry.t)
  : list RuntimeEvent.t * bool :=
  match ledger with
  | [] => ([], true)
  | entry :: ledger =>
      if cancelled i then ([], false)
      else
        let '(events, completed) := replay_steps job_id cancelled (S i) ledger in
        (RuntimeEvent.ReplayProgress job_id entry.(LedgerEntry.seq) entry.(LedgerEntry.chained_hash) :: events, completed)
  end.

(** The events announced, and the manifest returned. *)
Definition handle_replay_start (run_id job_id : string) (store : option string) (cancelled : nat -> bool)
  : io (list RuntimeEvent.t * (ReplayManifest.t + string)) :=
  run! run := get_record (A:=Run.t) ("no captured run `" +:+ run_id +:+ "`") run_id store in
  Ret (match run with
       | inr err => ([], inr err)
       | inl run =>
           let '(events, completed) := replay_steps job_id cancelled 0 (build_ledger run.(Run.events)).1 in
           if negb completed then (events, inr ("replay of `" +:+ run_id +:+ "` cancelled"))
           else
             let manifest := verify_replay run in
             (events ++ [RuntimeEvent.ReplayFinished job_id manifest], inl manifest)
       end).
End replay.

(** * The run writer *)

Module SealedRun.
Record t := Mk { run_id : string; root_hash : string; event_count : u64; agent : string; task_hash : string }.
End SealedRun.

Module RunWriter.
Record t := Mk {
  session_id : string;
  agent : string;
  root : option string;
  started_at_ms : u64;
  seq : u64;
  events : list Event.t;
}.

Definition begin_at (started_at_ms : u64) (session_id agent : string) (root : option string) : t :=
  Mk session_id agent root started_at_ms (wrap 64 0) [].

Definition push (w : t) (kind : EventKind.t) : t :=
  Mk w.(session_id) w.(agent) w.(root) w.(started_at_ms) (uadd w.(seq) (wrap 64 1))
    (w.(events) ++ [Event.Mk w.(seq) kind]).
End RunWriter.

Section writer.
Context `{SerdeJson, SerdeText, Sha256}.

Definition task_of (event : Event.t) : option string :=
  match event.(Event.kind) with EventKind.RunStarted _ task _ _ => Some task | _ => None end.

Definition task_hash_of (events : list Event.t) : string :=
  hash_canonical_json (JStr (default EmptyString (head (omap task_of events)))).

Definition seal (w : RunWriter.t) (finished : bool) (store : option string) (now_ms : u64) : io (option SealedRun.t) :=
  let run := build_run w.(RunWriter.session_id) w.(RunWriter.agent) w.(RunWriter.root) w.(RunWriter.started_at_ms)
    (Some now_ms) finished w.(RunWriter.events) RunInputs.default in
  match store with
  | None => Ret None
  | Some dir =>
      run! written := write_record dir run in
      Ret (match written with
           | inl _ => Some (SealedRun.Mk run.(Run.run_id) run.(Run.root_hash) (len_u64 w.(RunWriter.events))
                              w.(RunWriter.agent) (task_hash_of w.(RunWriter.events)))
           | inr _ => None
           end)
  end.

(** [emit_run_recorded] ([jobs/delegate/seal.rs]). *)
Definition emit_run_recorded (job_id : string) (sealed : option SealedRun.t) (ledger : option string) (now_ms : u64)
  : io (list RuntimeEvent.t) :=
  match sealed with
  | None => Ret []
  | Some s =>
      run! appended := LedgerStore.append_evidence ledger
        (LedgerKind.RunRecorded s.(SealedRun.run_id) s.(SealedRun.root_hash) s.(SealedRun.agent)
           s.(SealedRun.task_hash) s.(SealedRun.event_count)) now_ms in
      Ret (RuntimeEvent.RunRecorded job_id s.(SealedRun.run_id) s.(SealedRun.root_hash) s.(SealedRun.event_count)
           :: map emit_ledger_appended (opt_list appended))
  end.
End writer.
