(* ===== verification/VerifyRunner.v ===== *)
(** The verify runner ([nerve-workstation/src/verify_runner.rs]): the org's checks read, re-run and
    folded into a verdict, and the tail that seals it into the ledger and a signed receipt; with the
    commands that drive it ([jobs/substrate.rs], [commands/verify.rs], [commands/gate/mod.rs],
    [commands/ledger.rs]). What a launched command gives is an argument of the definitions. *)
From stdpp Require Import gmap strings.
From S2P Require Import Prelude Text Json Digest Verdicts Provenance Ledgers Policies Receipts Gate Disk Wire WireTypes RecordStore LedgerStore Attest.
Open Scope nerve_scope.

Definition DEFAULT_RERUNS : u32 := wrap 32 1.

(** * The checkspec *)

Module CheckDecl.
Record t := Mk {
  name : string;
  kind : CheckKind.t;
  command : string;
  args : list string;
  required : bool;
}.
Definition de (j : json) : option t :=
  m ← as_obj j;
  name ← req "name" m; kind ← dflt CheckKind.Test "kind" m; command ← req "command" m;
  args ← dflt [] "args" m; required ← dflt true "required" m;
  Some (Mk name kind command args required).
End CheckDecl.

Module CheckSpec.
Record t := Mk { checks : list CheckDecl.t; spec_json : json }.
End CheckSpec.

Definition as_array (j : json) : option (list json) := match j with JArr l => Some l | _ => None end.

Definition load_checkspec `{SerdeText} (root : string) : io (CheckSpec.t + string) :=
  let path := (nerve_dir root, "checks.json") in
  run! raw := sys (ReadToString path) in
  Ret (match raw with
       | inr IoError.NotFound => inl (CheckSpec.Mk [] (JObj [("checks", JArr [])]))
       | inr _ => inr ("read " +:+ display path)
       | inl raw =>
           match from_str raw with
           | None => inr ("parse " +:+ display path)
           | Some spec_json =>
               match l ← as_array (default (JArr []) (value_get "checks" spec_json)); mapM CheckDecl.de l with
               | None => inr ("parse `checks` in " +:+ display path)
               | Some checks => inl (CheckSpec.Mk checks spec_json)
               end
           end
       end).

Definition selected (spec : CheckSpec.t) (only : option (list CheckKind.t)) : list CheckDecl.t :=
  match only with
  | None => spec.(CheckSpec.checks)
  | Some kinds => base.filter (fun c : CheckDecl.t => c.(CheckDecl.kind) ∈ kinds) spec.(CheckSpec.checks)
  end.

(** * Running a check *)

(** What a launched command gives. *)
Module Output.
Record t := Mk { exit_code : option i32; stdout : string; stderr : string; timed_out : bool }.
End Output.

(** One turn of the loop: the token's answer, the launch ([None] when it fails) and its milliseconds. *)
Module Turn.
Record t := Mk { cancelled : bool; output : option Output.t; elapsed_ms : N }.
End Turn.

(** The loop's variables. *)
Module Attempts.
Record t := Mk {
  passed : u32;
  attempts : u32;
  errored : bool;
  last_exit : option i32;
  last_timed_out : bool;
  last_duration_ms : u64;
  last_output_hash : string;
}.
Definition start : t := Mk (wrap 32 0) (wrap 32 0) false None false (wrap 64 0) EmptyString.
Definition stop (a : t) : t :=
  Mk a.(passed) a.(attempts) true a.(last_exit) a.(last_timed_out) a.(last_duration_ms) a.(last_output_hash).
Definition attempt (a : t) : t :=
  Mk a.(passed) (uadd a.(attempts) (wrap 32 1)) a.(errored) a.(last_exit) a.(last_timed_out) a.(last_duration_ms)
    a.(last_output_hash).
End Attempts.

Definition exit_zero : option i32 := de (JNum 0).

(** An attempt that counts as passed. *)
Definition clean (o : Output.t) : bool :=
  bool_decide (o.(Output.exit_code) = exit_zero) && negb o.(Output.timed_out).

Definition clamp_u64 (n : N) : u64 := if (n <? 2 ^ 64)%N then wrap 64 n else wrap 64 (2 ^ 64 - 1).

Definition fold_status (errored : bool) (attempts passed : u32) : CheckStatus.t :=
  if errored || (uval attempts =? 0)%N then CheckStatus.Error
  else if bool_decide (passed = attempts) then CheckStatus.Pass
  else if (uval passed =? 0)%N then CheckStatus.Fail
  else CheckStatus.Flaky.

(** What the launcher and the token give: before check [i], and at turn [j] of check [i]. *)
Module World.
Record t := Mk { cancelled : nat -> bool; turns : nat -> nat -> Turn.t }.
End World.

(** Where a verdict is attested, and what that gives. *)
Module AttestStores.
Record t := Mk { ledger : option string; receipt : option string }.
End AttestStores.

Module SealOutcome.
Record t := Mk { receipt : option Receipt.t; appended : list LedgerRecord.t }.
End SealOutcome.

Definition umax {w} (a b : uint w) : uint w := if (uval a <? uval b)%N then b else a.

Section runner.
Context `{SerdeJson, SerdeText, Sha256}.

Definition hash_output (stdout stderr : string) : string :=
  hash_checkspec (JObj [("stdout", JStr stdout); ("stderr", JStr stderr)]).

Definition completed (turn : Turn.t) (o : Output.t) (a : Attempts.t) : Attempts.t :=
  Attempts.Mk (if clean o then uadd a.(Attempts.passed) (wrap 32 1) else a.(Attempts.passed)) a.(Attempts.attempts)
    a.(Attempts.errored) o.(Output.exit_code) o.(Output.timed_out) (clamp_u64 turn.(Turn.elapsed_ms))
    (hash_output o.(Output.stdout) o.(Output.stderr)).

(** The loop: [n] turns to go, the next one is turn [i]. *)
Fixpoint attempt_loop (turns : nat -> Turn.t) (i n : nat) (a : Attempts.t) : Attempts.t :=
  match n with
  | 0 => a
  | S n =>
      let turn := turns i in
      if turn.(Turn.cancelled) then Attempts.stop a
      else
        let a := Attempts.attempt a in
        match turn.(Turn.output) with
        | Some o => attempt_loop turns (S i) n (completed turn o a)
        | None => Attempts.stop a
        end
  end.

Definition run_check (turns : nat -> Turn.t) (decl : CheckDecl.t) (reruns : u32) : CheckResult.t :=
  let a := attempt_loop turns 0 (N.to_nat (uval reruns)) Attempts.start in
  let status := fold_status a.(Attempts.errored) a.(Attempts.attempts) a.(Attempts.passed) in
  CheckResult.Mk decl.(CheckDecl.name) decl.(CheckDecl.kind) status
    (match status with CheckStatus.Pass | CheckStatus.Fail => true | _ => false end)
    a.(Attempts.last_exit) a.(Attempts.last_timed_out) a.(Attempts.last_duration_ms) a.(Attempts.last_output_hash)
    a.(Attempts.attempts) a.(Attempts.passed).

(** * Verifying a run *)

Fixpoint run_checks (w : World.t) (reruns : u32) (i : nat) (decls : list CheckDecl.t)
  : (list CheckResult.t * list bool) + string :=
  match decls with
  | [] => inl ([], [])
  | decl :: decls =>
      if w.(World.cancelled) i then inr "verify cancelled"
      else
        match run_checks w reruns (S i) decls with
        | inl (checks, required) => inl (run_check (w.(World.turns) i) decl reruns :: checks, decl.(CheckDecl.required) :: required)
        | inr err => inr err
        end
  end.

Definition closure_digest_for (run : Run.t) : string :=
  let repo := run.(Run.inputs).(RunInputs.repo_snapshot_hash) in
  let toolchain := run.(Run.inputs).(RunInputs.toolchain_digest) in
  if is_empty repo && is_empty toolchain then EmptyString else repo +:+ ":" +:+ toolchain.

Definition load_run (store : option string) (run_id : string) : io (Run.t + string) :=
  get_record ("no captured run `" +:+ run_id +:+ "`") run_id store.

Definition handle_verify_start (run_store verify_store : option string) (w : World.t) (root run_id : string)
    (reruns : option u32) (only : option (list CheckKind.t)) (verified_at_ms : u64) : io (Verdict.t + string) :=
  try! run := load_run run_store run_id in
  run! spec := load_checkspec root in
  match spec with
  | inr err => Ret (inr ("load checkspec: " +:+ err))
  | inl spec =>
      let decls := selected spec only in
      let reruns := umax (default DEFAULT_RERUNS reruns) (wrap 32 1) in
      match run_checks w reruns 0 decls with
      | inr err => Ret (inr err)
      | inl (checks, required) =>
          let verdict := build_verdict run.(Run.run_id) None (hash_checkspec spec.(CheckSpec.spec_json))
            (closure_digest_for run) checks required verified_at_ms in
          match verify_store with
          | Some dir => run! _ := write_record dir verdict in Ret (inl verdict)
          | None => Ret (inl verdict)
          end
      end
  end.

(** * Sealing a verdict *)

Definition check_status_to_verdict (status : CheckStatus.t) : VerdictStatus.t :=
  match status with
  | CheckStatus.Pass => VerdictStatus.Passed
  | CheckStatus.Fail => VerdictStatus.Failed
  | CheckStatus.Flaky => VerdictStatus.Inconclusive
  | CheckStatus.Error => VerdictStatus.Error
  end.

Definition receipt_checks_for (verdict : Verdict.t) : list ReceiptCheck.t :=
  map (fun check => ReceiptCheck.Mk check.(CheckResult.name) check.(CheckResult.kind)
         (check_status_to_verdict check.(CheckResult.status)) check.(CheckResult.reproducible) None)
    verdict.(Verdict.checks).

Definition verdict_kind (run : Run.t) (verdict : Verdict.t) : LedgerKind.t :=
  LedgerKind.Verdict verdict.(Verdict.run_id) verdict.(Verdict.diff_hash) verdict.(Verdict.status)
    verdict.(Verdict.checks) None (non_empty run.(Run.root_hash)).

Definition receipt_kind (run : Run.t) (verdict : Verdict.t) (receipt : Receipt.t) : LedgerKind.t :=
  let provenance := receipt.(Receipt.statement).(ReceiptStatement.provenance) in
  LedgerKind.ReceiptIssued verdict.(Verdict.run_id) receipt.(Receipt.receipt_id)
    provenance.(ReceiptProvenance.inputs_hash) (default EmptyString provenance.(ReceiptProvenance.policy_version))
    receipt.(Receipt.statement).(ReceiptStatement.verdict) (non_empty run.(Run.root_hash))
    (Some verdict.(Verdict.verdict_id)).

(** The receipt a verdict is sealed into. *)
Definition attested (run : Run.t) (verdict : Verdict.t) (bar : SealedBar.t) (signer : Signer.t)
    (isolation_tier : IsolationTier.t) (issued_at_ms : u64) : Receipt.t :=
  signed_receipt run (receipt_checks_for verdict) verdict.(Verdict.status)
    (non_empty run.(Run.inputs).(RunInputs.toolchain_digest)) bar.(SealedBar.policy_version) None isolation_tier
    issued_at_ms (non_empty verdict.(Verdict.checkspec_hash)) bar signer.

(** The two appends are at the times [clock 0] and [clock 1]. *)
Definition seal_and_attest (run : Run.t) (verdict : Verdict.t) (stores : AttestStores.t) (bar : SealedBar.t)
    (signer : Signer.t) (isolation_tier : IsolationTier.t) (issued_at_ms : u64) (clock : nat -> u64) : io SealOutcome.t :=
  run! first := LedgerStore.append_evidence stores.(AttestStores.ledger) (verdict_kind run verdict) (clock 0) in
  let appended := opt_list first in
  run! issued :=
    issue_receipt_for_run run (receipt_checks_for verdict) verdict.(Verdict.status)
      (non_empty run.(Run.inputs).(RunInputs.toolchain_digest)) bar.(SealedBar.policy_version) None isolation_tier
      issued_at_ms (non_empty verdict.(Verdict.checkspec_hash)) bar signer stores.(AttestStores.receipt) in
  match issued, stores.(AttestStores.receipt) with
  | Some issued, Some dir =>
      run! reloaded := load_record (A:=Receipt.t) dir issued.(IssuedReceipt.receipt_id) in
      match reloaded with
      | inr _ => Ret (SealOutcome.Mk None appended)
      | inl receipt =>
          run! second := LedgerStore.append_evidence stores.(AttestStores.ledger) (receipt_kind run verdict receipt) (clock 1) in
          Ret (SealOutcome.Mk (Some receipt) (appended ++ opt_list second))
      end
  | _, _ => Ret (SealOutcome.Mk None appended)
  end.
End runner.

(** * The commands *)

(** The stores of a served root ([for_scope]). *)
Definition runs_dir (root : string) : string := nerve_dir root +:+ "/runs".
Definition verdicts_dir (root : string) : string := nerve_dir root +:+ "/verdicts".
Definition receipts_dir (root : string) : string := nerve_dir root +:+ "/receipts".
Definition ledger_dir (root : string) : string := nerve_dir root +:+ "/ledger".

Section commands.
Context `{SerdeJson, SerdeText, Sha256} (io_text : IoError.t -> string).

(** [JobManager::attest_verdict] of a served root. *)
Definition attest_verdict (root run_id : string) (verdict : Verdict.t) (signer : Signer.t) (tier : IsolationTier.t)
    (issued_at_ms : u64) (clock : nat -> u64) : io (list RuntimeEvent.t) :=
  run! run := load_record (A:=Run.t) (runs_dir root) run_id in
  match run with
  | inr _ => Ret []
  | inl run =>
      run! plane := with_ledger None (Some root) (ledger_dir root) in
      run! outcome := seal_and_attest run verdict (AttestStores.Mk (Some (ledger_dir root)) (Some (receipts_dir root)))
        (sealed_bar plane) signer tier issued_at_ms clock in
      Ret (map emit_ledger_appended outcome.(SealOutcome.appended) ++
           match outcome.(SealOutcome.receipt) with
           | Some sealed =>
               [RuntimeEvent.ReceiptIssued run.(Run.session_id)
                  sealed.(Receipt.statement).(ReceiptStatement.provenance).(ReceiptProvenance.run_id)
                  sealed.(Receipt.receipt_id) sealed.(Receipt.statement).(ReceiptStatement.verdict)]
           | None => []
           end)
  end.

(** [verify.start] of a served root: the events announced and the answer. *)
Definition run_verify_start (root run_id : string) (reruns : option u32) (only : option (list CheckKind.t))
    (w : World.t) (signer : Signer.t) (tier : IsolationTier.t) (verified_at_ms issued_at_ms : u64) (clock : nat -> u64)
  : io (list RuntimeEvent.t * (json + string)) :=
  run! verdict := handle_verify_start (Some (runs_dir root)) (Some (verdicts_dir root)) w root run_id reruns only verified_at_ms in
  match verdict with
  | inr err => Ret ([], inr err)
  | inl verdict =>
      run! events := attest_verdict root run_id verdict signer tier issued_at_ms clock in
      Ret (RuntimeEvent.VerificationCompleted verdict.(Verdict.run_id) verdict.(Verdict.verdict_id)
             verdict.(Verdict.status) (len_u64 verdict.(Verdict.checks)) :: events,
           inl (JObj [("verdict", ser verdict)]))
  end.

(** [nerve verify]: the receipt, from the run's checks re-run in process ([run_verify_flow]). *)
Definition run_verify_flow (root run_id : string) (reruns : option u32) (w : World.t) (signer : Signer.t)
    (verified_at_ms issued_at_ms : u64) (clock : nat -> u64) : io (Receipt.t + string) :=
  run! verdict := handle_verify_start (Some (runs_dir root)) (Some (verdicts_dir root)) w root run_id reruns None verified_at_ms in
  match verdict with
  | inr err => Ret (inr ("re-verify run `" +:+ run_id +:+ "`: " +:+ err))
  | inl verdict =>
      run! run := load_record (A:=Run.t) (runs_dir root) run_id in
      match run with
      | inr _ => Ret (inr ("reload captured run `" +:+ run_id +:+ "`"))
      | inl run =>
          run! plane := resolve None (Some root) in
          run! outcome := seal_and_attest run verdict (AttestStores.Mk (Some (ledger_dir root)) (Some (receipts_dir root)))
            (sealed_bar plane) signer IsolationTier.Contained issued_at_ms clock in
          Ret (match outcome.(SealOutcome.receipt) with
               | Some receipt => inl receipt
               | None => inr ("failed to seal/persist a Verification Receipt for run `" +:+ run_id +:+ "`")
               end)
      end
  end.

(** The command's exit code ([report_receipt]). *)
Definition verify_command (root run_id : string) (reruns : option u32) (w : World.t) (signer : Signer.t)
    (verified_at_ms issued_at_ms : u64) (clock : nat -> u64) : io (Z + string) :=
  try! receipt := run_verify_flow root run_id reruns w signer verified_at_ms issued_at_ms clock in
  Ret (inl (enforce_merge_bar receipt).(GateOutcome.exit_code)).

(** [Value::pointer] along keys, and [as_str]. *)
Fixpoint pointer (keys : list string) (v : json) : option json :=
  match keys with [] => Some v | k :: keys => v ← value_get k v; pointer keys v end.

Definition as_str (v : json) : option string := match v with JStr s => Some s | _ => None end.

(** The first receipt of the run among the directory's entries. *)
Fixpoint find_receipt (dir run_id : string) (names : list string) : io (option Receipt.t) :=
  match names with
  | [] => Ret None
  | name :: names =>
      if bool_decide (extension name = Some "json") then
        run! raw := sys (ReadToString (dir, name)) in
        let found :=
          match raw with
          | inl raw =>
              value ← from_str raw;
              if bool_decide (pointer ["statement"; "provenance"; "run_id"] value ≫= as_str = Some run_id)
              then de (A:=Receipt.t) value else None
          | inr _ => None
          end in
        match found with Some receipt => Ret (Some receipt) | None => find_receipt dir run_id names end
      else find_receipt dir run_id names
  end.

Definition load_receipt_for_run (root run_id : string) : io (option Receipt.t + string) :=
  let dir := receipts_dir root in
  run! entries := sys (ReadDir dir) in
  match entries with
  | inl names => run! receipt := find_receipt dir run_id names in Ret (inl receipt)
  | inr IoError.NotFound => Ret (inl None)
  | inr err => Ret (inr ("failed to read " +:+ dir +:+ ": " +:+ io_text err))
  end.

Definition read_receipt (path : file_path) : io (Receipt.t + string) :=
  try! raw := with_context ("failed to read receipt " +:+ display path) (sys (ReadToString path)) in
  Ret (match from_str raw ≫= de (A:=Receipt.t) with
       | Some receipt => inl receipt
       | None => inr ("failed to parse receipt " +:+ display path)
       end).

(** [--receipt] before [--run]. *)
Definition load_gate_receipt (root : string) (receipt : option file_path) (run : option string) : io (Receipt.t + string) :=
  match receipt, run with
  | Some path, _ => read_receipt path
  | None, Some run_id =>
      try! found := load_receipt_for_run root run_id in
      Ret (match found with
           | Some receipt => inl receipt
           | None => inr ("no sealed receipt for run `" +:+ run_id +:+ "` (run `nerve verify " +:+ run_id +:+ "` first)")
           end)
  | None, None => Ret (inr "provide exactly one of --receipt <path> or --run <id>")
  end.

(** [record_gate_decision]: on the ledger of the root, through its policy plane. *)
Definition record_gate_decision (root : string) (record : PolicyDecisionRecord.t) (now_ms : u64) : io unit :=
  run! plane := with_ledger None (Some root) (ledger_dir root) in
  run! _ := record_decision plane record now_ms in Ret tt.

(** The decisions of [Gate.gate_command]'s effects, carried out. *)
Fixpoint record_effects (root : string) (effects : list GateEffect.t) (now_ms : u64) : io unit :=
  match effects with
  | [] => Ret tt
  | GateEffect.RecordDecision record :: effects =>
      run! _ := record_gate_decision root record now_ms in record_effects root effects now_ms
  | _ :: effects => record_effects root effects now_ms
  end.

(** [nerve gate]: the exit code, or the error the command ends with. *)
Definition nerve_gate (ed25519_verify : bytes -> bytes -> bytes -> bool) (root : string) (receipt : option file_path)
    (run : option string) (args : GateArgs.t) (trusted_key : option string) (require_isolation : option IsolationTier.t)
    (now_ms : u64) : io (Z + string) :=
  try! receipt := load_gate_receipt root receipt run in
  let '(code, effects) := gate_command ed25519_verify args trusted_key require_isolation receipt in
  run! _ := record_effects root effects now_ms in
  Ret (match code with
       | Some code => inl code
       | None => inr ("unknown --emit `" +:+ args.(GateArgs.emit) +:+ "` (expected: none, gh, gitlab)")
       end).

(** [nerve ledger verify]: 0 for an intact chain, 1 for a tamper. *)
Definition ledger_verify_command (root : string) : io Z :=
  run! records := LedgerStore.read_all (ledger_dir root) in
  Ret (match verify_chain records with inl _ => 0%Z | inr _ => 1%Z end).
End commands.
