(* ===== verification/AttestSpec.v ===== *)
(** What verifying promises: a check's status is what its attempts were, a verdict passes only when
    every required check passed every attempt, and the receipt that is kept carries the verdict and is
    the one the gate trusts, whatever calls fail on the way. *)
From stdpp Require Import gmap strings.
From S2P Require Import Prelude Text Json Digest Reference Verdicts Provenance Outcomes Ledgers Policies Receipts Gate Disk Wire WireReference WireTypes RecordStore StoreSpec LedgerStore Attest VerifyRunner.
Open Scope nerve_scope.

(** * One check *)

(** What an attempt gave, when it was made and launched. *)
Definition attempt_of (t : Turn.t) : option Output.t := if t.(Turn.cancelled) then None else t.(Turn.output).

Definition clean_count (outs : list Output.t) : nat := length (base.filter (fun o => clean o = true) outs).

Lemma mapM_cons_some {A B} (f : A -> option B) x l k : mapM f (x :: l) = Some k ->
  exists y k', f x = Some y /\ mapM f l = Some k' /\ k = y :: k'.
Proof. cbn. destruct (f x) as [y|]; [|done]. cbn. destruct (mapM f l) as [k'|]; [|done]. intros [= <-]. by eexists _, _. Qed.

Section check.
Context `{SerdeJson, SerdeText, Sha256}.

Lemma attempt_loop_all turns n : forall i a outs,
  mapM attempt_of (map turns (seq i n)) = Some outs ->
  let a' := attempt_loop turns i n a in
  a'.(Attempts.attempts) = wrap 32 (uval a.(Attempts.attempts) + N.of_nat n) /\
  a'.(Attempts.passed) = wrap 32 (uval a.(Attempts.passed) + N.of_nat (clean_count outs)) /\
  a'.(Attempts.errored) = a.(Attempts.errored) /\
  a'.(Attempts.last_exit) = from_option Output.exit_code a.(Attempts.last_exit) (last outs) /\
  a'.(Attempts.last_timed_out) = from_option Output.timed_out a.(Attempts.last_timed_out) (last outs).
Proof.
  induction n as [|n IH]; intros i a outs E; cbn zeta.
  { injection E as <-. cbn [attempt_loop]. change (N.of_nat (clean_count [])) with 0%N. by rewrite !N.add_0_r, !wrap_uval. }
  cbn [seq map] in E. apply mapM_cons_some in E as (o & outs' & Ea & E' & ->). cbn [attempt_loop].
  unfold attempt_of in Ea. destruct (Turn.cancelled (turns i)); [done|]. rewrite Ea.
  destruct (IH (S i) (completed (turns i) o (Attempts.attempt a)) outs' E') as (-> & -> & -> & -> & ->).
  unfold completed, Attempts.attempt. cbn [Attempts.attempts Attempts.passed Attempts.errored Attempts.last_exit Attempts.last_timed_out].
  split_and!.
  - apply uint_eq. unfold uadd. rewrite !uval_wrap. change (1 mod 2 ^ 32)%N with 1%N. rewrite N.Div0.add_mod_idemp_l. f_equal. lia.
  - unfold clean_count. rewrite filter_cons. destruct (clean o); cbn [decide]; [|by rewrite decide_False].
    rewrite decide_True by done. cbn [length]. apply uint_eq. unfold uadd. rewrite !uval_wrap. change (1 mod 2 ^ 32)%N with 1%N.
    rewrite N.Div0.add_mod_idemp_l. f_equal. lia.
  - done.
  - destruct outs' as [|o' outs'] using rev_ind; [done|]. by rewrite (last_cons o), last_snoc.
  - destruct outs' as [|o' outs'] using rev_ind; [done|]. by rewrite (last_cons o), last_snoc.
Qed.

Lemma attempt_loop_stopped turns n : forall i a,
  mapM attempt_of (map turns (seq i n)) = None -> (attempt_loop turns i n a).(Attempts.errored) = true.
Proof.
  induction n as [|n IH]; intros i a E; [done|].
  cbn [seq map] in E. cbn [attempt_loop]. destruct (Turn.cancelled (turns i)) eqn:C; [done|].
  destruct (Turn.output (turns i)) as [o|] eqn:O; [|done]. apply IH. cbn [mapM] in E.
  assert (attempt_of (turns i) = Some o) as A by (unfold attempt_of; by rewrite C). rewrite A in E. cbn in E.
  by destruct (mapM attempt_of (map turns (seq (S i) n))).
Qed.

Lemma clean_count_all outs : clean_count outs = length outs <-> Forall (fun o => clean o = true) outs.
Proof.
  unfold clean_count. induction outs as [|o outs IH]; [done|]. rewrite filter_cons, Forall_cons.
  pose proof (length_filter (fun o => clean o = true) outs) as L.
  destruct (decide (clean o = true)); cbn; [rewrite <- IH; intuition lia|]. split; [lia|by intros [? _]].
Qed.

Lemma clean_count_none outs : clean_count outs = 0 <-> Forall (fun o => clean o = false) outs.
Proof.
  unfold clean_count. induction outs as [|o outs IH]; [done|]. rewrite filter_cons, Forall_cons.
  destruct (decide (clean o = true)) as [e|e]; cbn; [split; [lia|intros [? _]; congruence]|].
  apply not_true_iff_false in e. rewrite <- IH. intuition.
Qed.

Lemma run_check_cases turns decl reruns :
  let c := run_check turns decl reruns in
  match mapM attempt_of (map turns (seq 0 (N.to_nat (uval reruns)))) with
  | None => c.(CheckResult.status) = CheckStatus.Error
  | Some outs =>
      c.(CheckResult.runs) = reruns /\ uval c.(CheckResult.passed) = N.of_nat (clean_count outs) /\
      c.(CheckResult.exit_code) = from_option Output.exit_code None (last outs) /\
      c.(CheckResult.timed_out) = from_option Output.timed_out false (last outs) /\
      c.(CheckResult.status) =
        (if decide (outs = []) then CheckStatus.Error
         else if decide (Forall (fun o => clean o = true) outs) then CheckStatus.Pass
         else if decide (Forall (fun o => clean o = false) outs) then CheckStatus.Fail
         else CheckStatus.Flaky)
  end.
Proof.
  cbn zeta. unfold run_check. set (a := attempt_loop _ _ _ _).
  cbn [CheckResult.status CheckResult.runs CheckResult.passed CheckResult.exit_code CheckResult.timed_out].
  destruct (mapM _ _) as [outs|] eqn:E.
  2: { unfold a. unfold fold_status. by rewrite attempt_loop_stopped. }
  destruct (attempt_loop_all turns _ 0 Attempts.start outs E) as (At & Pa & Er & Ex & Ti). fold a in At, Pa, Er, Ex, Ti.
  assert (length outs = N.to_nat (uval reruns)) as Lo.
  { apply mapM_Some_1, Forall2_length in E. by rewrite <- E, length_map, length_seq. }
  assert (clean_count outs <= length outs) as Le by apply length_filter.
  pose proof (uval_bound reruns) as B.
  assert (a.(Attempts.attempts) = reruns) as Ar.
  { rewrite At, N2Nat.id. change (uval (Attempts.attempts Attempts.start)) with 0%N. apply wrap_uval. }
  assert (uval a.(Attempts.passed) = N.of_nat (clean_count outs)) as Pr.
  { rewrite Pa. assert (uval (Attempts.passed Attempts.start) = 0%N) as -> by done. rewrite N.add_0_l.
    apply uval_wrap_small. eapply N.le_lt_trans; [|exact B]. lia. }
  rewrite Ar. split_and!; [done|done|done|done|]. unfold fold_status. rewrite Er. cbn [Attempts.errored Attempts.start orb].
  destruct (decide (outs = [])) as [->|Ne].
  { cbn in Lo. by rewrite (proj2 (N.eqb_eq _ _)) by lia. }
  rewrite (proj2 (N.eqb_neq _ _)) by (destruct outs; [done|]; cbn in Lo; lia).
  assert (bool_decide (a.(Attempts.passed) = reruns) = bool_decide (Forall (fun o => clean o = true) outs)) as ->.
  { apply bool_decide_ext. rewrite <- clean_count_all. split.
    - intros Ep. rewrite Ep in Pr. lia.
    - intros Ec. apply uint_eq. lia. }
  rewrite bool_decide_decide. destruct (decide (Forall _ _)); [done|].
  destruct (N.eqb_spec (uval a.(Attempts.passed)) 0) as [Z|Z];
    [rewrite decide_True by (apply clean_count_none; lia)|rewrite decide_False by (rewrite <- clean_count_none; lia)]; done.
Qed.

(** A check's status is what its attempts were. When an attempt is cancelled or fails to launch
    the check is an error; otherwise it ran as often as asked, counts the attempts that exited with
    zero in time, reports the last attempt, passes when all were clean, fails when none was, and is
    flaky when they disagree. *)
Theorem run_check_spec turns decl reruns :
  let c := run_check turns decl reruns in
  match mapM attempt_of (map turns (seq 0 (N.to_nat (uval reruns)))) with
  | None => c.(CheckResult.status) = CheckStatus.Error
  | Some outs =>
      c.(CheckResult.runs) = reruns /\ uval c.(CheckResult.passed) = N.of_nat (clean_count outs) /\
      c.(CheckResult.exit_code) = from_option Output.exit_code None (last outs) /\
      c.(CheckResult.timed_out) = from_option Output.timed_out false (last outs) /\
      c.(CheckResult.status) =
        (if decide (outs = []) then CheckStatus.Error
         else if decide (Forall (fun o => clean o = true) outs) then CheckStatus.Pass
         else if decide (Forall (fun o => clean o = false) outs) then CheckStatus.Fail
         else CheckStatus.Flaky)
  end.
Proof. apply run_check_cases. Qed.

(** One attempt, the default, never shows a flake. *)
Lemma default_reruns_never_flaky turns decl :
  (run_check turns decl DEFAULT_RERUNS).(CheckResult.status) <> CheckStatus.Flaky.
Proof.
  pose proof (run_check_cases turns decl DEFAULT_RERUNS) as C. cbn zeta in C. revert C.
  generalize (run_check turns decl DEFAULT_RERUNS). intros c. change (N.to_nat (uval DEFAULT_RERUNS)) with 1.
  destruct (mapM attempt_of (map turns (seq 0 1))) as [outs|] eqn:E; [|by intros ->].
  apply mapM_Some_1, Forall2_length in E. intros (_ & _ & _ & _ & ->).
  destruct outs as [|o [|]]; [done| |done]. destruct (decide _); [done|].
  destruct (decide (Forall _ _)) as [|NT]; [done|]. destruct (clean o) eqn:Ec; [by destruct NT; repeat constructor|].
  by rewrite decide_True by (by repeat constructor).
Qed.
End check.

(** * Verdicts *)

(** The check passed every attempt asked for, and there was one. *)
Definition all_clean (turns : nat -> Turn.t) (reruns : u32) : Prop :=
  0 < N.to_nat (uval reruns) /\
  forall j, j < N.to_nat (uval reruns) -> exists o, attempt_of (turns j) = Some o /\ clean o = true.

Section verdict.
Context `{SerdeJson, SerdeText, Sha256}.

Lemma run_check_pass turns decl reruns :
  (run_check turns decl reruns).(CheckResult.status) = CheckStatus.Pass <-> all_clean turns reruns.
Proof.
  pose proof (run_check_cases turns decl reruns) as C. cbn zeta in C. revert C.
  generalize (run_check turns decl reruns). intros c. unfold all_clean. set (n := N.to_nat (uval reruns)).
  destruct (mapM attempt_of (map turns (seq 0 n))) as [outs|] eqn:E.
  - intros (_ & _ & _ & _ & ->). apply mapM_Some_1 in E. pose proof (Forall2_length _ _ _ E) as L.
    rewrite length_map, length_seq in L.
    assert (forall j o, outs !! j = Some o -> attempt_of (turns j) = Some o) as At.
    { intros j o Lj. destruct (Forall2_lookup_r _ _ _ _ _ E Lj) as (t & Lt & At).
      rewrite list_lookup_fmap in Lt. apply fmap_Some in Lt as (j' & Ls & ->). apply lookup_seq in Ls as [-> _]. exact At. }
    destruct (decide (outs = [])) as [->|Ne]; [cbn in L; split; [done|lia]|].
    destruct (decide (Forall _ outs)) as [F|NF].
    + split; [intros _|done]. split; [destruct outs; [done|cbn in L; lia]|]. intros j Lj.
      destruct (lookup_lt_is_Some_2 outs j) as [o Lo]; [lia|]. exists o. split; [by apply At|].
      exact (Forall_lookup_1 _ _ _ _ F Lo).
    + split; [by destruct (decide _)|]. intros [_ A]. destruct NF. apply Forall_lookup_2. intros j o Lo.
      destruct (A j) as (o' & Ao & Co); [apply lookup_lt_Some in Lo; lia|]. apply At in Lo. congruence.
  - intros ->. split; [done|]. intros [_ A]. exfalso.
    assert (Forall (fun t => is_Some (attempt_of t)) (map turns (seq 0 n))) as F.
    { apply Forall_map, Forall_forall. intros j [_ Lj]%elem_of_seq. destruct (A j) as (o & -> & _); [lia|]. by eexists. }
    apply mapM_is_Some_2 in F. rewrite E in F. by destruct F.
Qed.

Lemma run_checks_spec w reruns decls : forall i checks required,
  run_checks w reruns i decls = inl (checks, required) ->
  required = map CheckDecl.required decls /\
  checks = imap (fun k decl => run_check (w.(World.turns) (i + k)) decl reruns) decls.
Proof.
  induction decls as [|decl decls IH]; intros i checks required; cbn [run_checks]; [by intros [= <- <-]|].
  destruct (World.cancelled w i); [done|]. destruct (run_checks w reruns (S i) decls) as [[cs rs]|] eqn:E; [|done].
  intros [= <- <-]. destruct (IH _ _ _ E) as [-> ->]. split; [done|]. cbn. rewrite Nat.add_0_r. f_equal.
  apply imap_ext. intros k d _. cbn. by rewrite Nat.add_succ_r.
Qed.

(** What the org's bar means for a verdict: some check is required, and every required one passed. *)
Definition bar_held (w : World.t) (reruns : u32) (decls : list CheckDecl.t) : Prop :=
  (exists i decl, decls !! i = Some decl /\ decl.(CheckDecl.required) = true) /\
  forall i decl, decls !! i = Some decl -> decl.(CheckDecl.required) = true -> all_clean (w.(World.turns) i) reruns.

Lemma run_checks_passed w reruns decls checks required :
  run_checks w reruns 0 decls = inl (checks, required) ->
  aggregate_status checks required = VerdictStatus.Passed <-> bar_held w reruns decls.
Proof.
  intros E. apply run_checks_spec in E as [-> ->].
  destruct (aggregate_status_spec (imap (fun k decl => run_check (w.(World.turns) (0 + k)) decl reruns) decls)
    (map CheckDecl.required decls)) as (_ & _ & P & _). rewrite P. clear P.
  assert (forall s, required_with (imap (fun k decl => run_check (w.(World.turns) (0 + k)) decl reruns) decls)
    (map CheckDecl.required decls) s <-> exists i decl, decls !! i = Some decl /\ decl.(CheckDecl.required) = true /\
      (run_check (w.(World.turns) i) decl reruns).(CheckResult.status) = s) as R.
  { intros s. unfold required_with. split.
    - intros (i & c & Lc & Lr & <-). rewrite list_lookup_imap in Lc. apply fmap_Some in Lc as (decl & Ld & ->).
      rewrite list_lookup_fmap, Ld in Lr. cbn in Lr. injection Lr as Lr. by exists i, decl.
    - intros (i & decl & Ld & Rq & <-). exists i, (run_check (w.(World.turns) i) decl reruns).
      rewrite list_lookup_imap, list_lookup_fmap, Ld. cbn. by rewrite Rq. }
  setoid_rewrite R. unfold bar_held. split.
  - intros [(s & i & decl & Ld & Rq & _) A]. split; [by exists i, decl|].
    intros i' decl' Ld' Rq'. apply (run_check_pass _ decl'). by eapply A; exists i', decl'.
  - intros [(i & decl & Ld & Rq) A]. split; [by eexists _, i, decl|].
    intros s (i' & decl' & Ld' & Rq' & <-). by apply run_check_pass, A with decl'.
Qed.

(** The checkspec and the run a disk holds. *)
Definition checkspec_of (d : Disk.t) (root : string) : CheckSpec.t + string := (exec [] (load_checkspec root) d).2.

Lemma exec_load_checkspec fates root d d' fates' spec :
  exec fates (load_checkspec root) d = (d', fates', inl spec) -> d' = d /\ checkspec_of d root = inl spec.
Proof.
  unfold checkspec_of, load_checkspec. rewrite !exec_bind, !exec_sys.
  destruct (next_fate fates); cbn [meet refuse reorder next_fate head default]; [| | |];
    cbn [perform]; [|by intros [= <- <-]..|]; cbn [exec]; intros [= <- <- <-]; done.
Qed.

Lemma exec_load_run fates store run_id d d' fates' run :
  exec fates (load_run (Some store) run_id) d = (d', fates', inl run) -> d' = d /\ loaded d store run_id = inl run.
Proof.
  unfold load_run, get_record, loaded, load_record, path_for, validate_id. destruct (id_valid run_id); [|done].
  rewrite exec_bind, !exec_try, !exec_context, !exec_sys.
  destruct (next_fate fates); cbn [meet refuse reorder next_fate head default perform]; [|done..|].
  all: destruct (Disk.file d _) as [s|]; [|done]; destruct (utf8_valid s); [|done]; cbn [exec];
    destruct (deserialize_record Run.t s); [|done]; by intros [= <- <- <-].
Qed.

(** A verdict the runner gives: of the run, under the whole checkspec's hash, passed exactly when the
    selected checks' bar held. *)
Lemma verify_start_spec fates d d' fates' runs verdicts w root run_id reruns only at_ms verdict :
  exec fates (handle_verify_start (Some runs) verdicts w root run_id reruns only at_ms) d = (d', fates', inl verdict) ->
  exists run spec,
    loaded d runs run_id = inl run /\ checkspec_of d root = inl spec /\
    verdict.(Verdict.run_id) = run.(Run.run_id) /\
    verdict.(Verdict.checkspec_hash) = hash_checkspec spec.(CheckSpec.spec_json) /\
    (verdict.(Verdict.status) = VerdictStatus.Passed <->
     bar_held w (umax (default DEFAULT_RERUNS reruns) (wrap 32 1)) (selected spec only)) /\
    exists fates1,
      match verdicts with
      | Some dir => exists result, exec fates1 (write_record dir verdict) d = (d', fates', result)
      | None => d' = d
      end.
Proof.
  unfold handle_verify_start. rewrite exec_try.
  destruct (exec fates (load_run (Some runs) run_id) d) as [[d1 fates1] [run|e]] eqn:Lr; [|done].
  apply exec_load_run in Lr as [-> Lr]. rewrite exec_bind.
  destruct (exec fates1 (load_checkspec root) d) as [[d2 fates2] [spec|e]] eqn:Ls; [|done].
  apply exec_load_checkspec in Ls as [-> Ls]. cbv zeta.
  destruct (run_checks w _ 0 _) as [[checks required]|e] eqn:Rc; [|done]. apply run_checks_passed in Rc.
  intros E. exists run, spec.
  set (v := build_verdict _ _ _ _ _ _ _) in E.
  assert (exists fates1, match verdicts with
      | Some dir => exists result, exec fates1 (write_record dir v) d = (d', fates', result) | None => d' = d end /\ verdict = v)
    as (fates3 & X & ->).
  { destruct verdicts as [dir|]; [|by injection E as <- <- <-; exists fates2]. rewrite exec_bind in E.
    destruct (exec fates2 (write_record dir v) d) as [[d3 fates3] result] eqn:Wr. injection E as <- <- <-.
    exists fates2. split; [by exists result|done]. }
  split; [done|]. split; [done|]. split; [done|]. split; [done|]. split; [exact Rc|by exists fates3].
Qed.
End verdict.

(** * Receipts *)

Lemma all_bytes_hex s : all_bytes is_id_byte (hex s) = true.
Proof.
  assert (forall n, n < 16 -> is_id_byte (hex_digit n) = true) as D.
  { intros n L. do 16 (destruct n as [|n]; [done|]). lia. }
  induction s as [|c s IH]; [done|]. cbn [hex all_bytes]. pose proof (Ascii.nat_ascii_bounded c).
  rewrite IH, !D; [done|apply Nat.mod_upper_bound; lia|apply Nat.Div0.div_lt_upper_bound; lia].
Qed.

Lemma digest_id_valid `{Sha256, !Sha256Spec} m : id_valid (digest m) = true.
Proof.
  unfold id_valid, digest. rewrite all_bytes_hex, length_hex, sha256_length.
  destruct (hex (sha256 m)) eqn:E; [|done]. apply (f_equal String.length) in E. by rewrite length_hex, sha256_length in E.
Qed.

Lemma exec_all_done {B} (m : io B) : forall d, (exec [] m d).1.2 = [].
Proof. induction m as [b|X c k IH]; intros d; [done|]. cbn. destruct (perform c d). apply IH. Qed.

Section attest.
Context `{SerdeJson, SerdeText, !SerdeTextSpec, Sha256}.

(** An append touches the ledger's directory only. *)
Lemma append_frame fates dir kind now_ms d d' fates' r : disk_wf d ->
  exec fates (LedgerStore.append dir kind now_ms) d = (d', fates', r) ->
  disk_wf d' /\ forall q, q.1 <> dir -> Disk.file d' q = Disk.file d q.
Proof.
  intros W. unfold LedgerStore.append. rewrite exec_bind. unfold LedgerStore.head at 1. rewrite exec_bind, exec_sys.
  destruct (meet _ (ReadToString _) d) as [d0 x] eqn:Rd.
  assert (d0 = d) as -> by (destruct (next_fate fates); by injection Rd as <- _). cbn [exec].
  destruct (append_record _ kind now_ms) as [record next].
  rewrite exec_try, exec_context, exec_sys. destruct (meet _ (CreateDirAll dir) d) as [d1 mk] eqn:Mk.
  assert (disk_wf d1 /\ forall p, Disk.file d1 p = Disk.file d p) as [W1 F1].
  { destruct (next_fate (tail fates)); injection Mk as <- _; split; done || by destruct W. }
  destruct mk as [[]|e]; [|by intros [= <- <- <-]].
  rewrite exec_try. destruct (exec _ (append_line _ _) d1) as [[d2 fates2] al] eqn:Al.
  destruct (exec_append_line _ _ _ _ _ _ _ W1 Al) as (W2 & (_ & _ & S2) & _).
  assert (forall q, q.1 <> dir -> Disk.file d2 q = Disk.file d q) as F2.
  { intros q N. rewrite S2, F1; [done|]. by intros ->. }
  destruct al as [[]|e]; [|by intros [= <- <- <-]].
  rewrite exec_try. destruct (exec _ (atomic_write _ _) d2) as [[d3 fates3] aw] eqn:Aw.
  destruct (exec_atomic_write _ _ _ _ _ _ _ W2 Aw) as (W3 & _ & S3 & _).
  assert (forall q, q.1 <> dir -> Disk.file d3 q = Disk.file d q) as F3.
  { intros q N. rewrite S3, F2; [done|done|by intros ->|]. by intros ->. }
  destruct aw as [[]|e]; by intros [= <- <- <-].
Qed.

Lemma evidence_frame fates store kind now_ms d d' fates' r : disk_wf d ->
  exec fates (LedgerStore.append_evidence store kind now_ms) d = (d', fates', r) ->
  disk_wf d' /\ forall q, store <> Some q.1 -> Disk.file d' q = Disk.file d q.
Proof.
  intros W. destruct store as [dir|]; cbn [LedgerStore.append_evidence]; [|by intros [= <- <- <-]]. rewrite exec_bind.
  destruct (exec fates (LedgerStore.append dir kind now_ms) d) as [[d1 fates1] x] eqn:Ap. intros [= <- <- _].
  destruct (append_frame _ _ _ _ _ _ _ _ W Ap) as [W1 F]. split; [done|]. intros q N. apply F. congruence.
Qed.

Lemma exec_load {A} `{StoredSpec A} fates dir id d d' fates' r :
  exec fates (load_record (A:=A) dir id) d = (d', fates', r) ->
  d' = d /\ forall a, r = inl a -> loaded d dir id = inl a.
Proof.
  unfold loaded, load_record, path_for, validate_id. destruct (id_valid id); [|by intros [= <- <- <-]].
  rewrite !exec_try, !exec_context, !exec_sys.
  destruct (next_fate fates); cbn [meet refuse reorder next_fate head default perform]; try by intros [= <- <- <-].
  all: destruct (Disk.file d _) as [s|]; [|by intros [= <- <- <-]]; destruct (utf8_valid s); [|by intros [= <- <- <-]].
  all: cbn [exec]; by intros [= <- <- <-].
Qed.

(** Sealing a verdict: a receipt that is returned is the one attesting the verdict, and it is kept. *)
Lemma seal_spec fates d d' fates' run verdict ledger dir bar signer tier issued_at clock out :
  disk_wf d -> ledger <> Some dir ->
  exec fates (seal_and_attest run verdict (AttestStores.Mk ledger (Some dir)) bar signer tier issued_at clock) d = (d', fates', out) ->
  disk_wf d' /\
  forall receipt, out.(SealOutcome.receipt) = Some receipt ->
    receipt = attested run verdict bar signer tier issued_at /\
    loaded d' dir receipt.(Receipt.receipt_id) = inl receipt.
Proof.
  intros W Nd. unfold seal_and_attest. cbn [AttestStores.ledger AttestStores.receipt]. rewrite exec_bind.
  destruct (exec fates (LedgerStore.append_evidence _ _ _) d) as [[d1 fates1] first] eqn:A1.
  destruct (evidence_frame _ _ _ _ _ _ _ _ W A1) as [W1 _]. unfold issue_receipt_for_run.
  fold (attested run verdict bar signer tier issued_at). set (rc := attested run verdict bar signer tier issued_at).
  rewrite !exec_bind. destruct (exec fates1 (write_record dir rc) d1) as [[d2 fates2] wr] eqn:Wr.
  assert (record_version rc = current_version (A:=Receipt.t)) as V.
  { unfold rc, attested, signed_receipt. by destruct (Signer.sign _ _). }
  destruct (write_record_spec fates1 d1 d2 fates2 dir rc wr W1 V Wr) as (W2 & _ & L2 & _).
  cbn [exec]. destruct wr as [u|e]; [|by intros [= <- <- <-]]. cbn [IssuedReceipt.receipt_id]. rewrite exec_bind.
  destruct (exec fates2 (load_record (A:=Receipt.t) dir _) d2) as [[d3 fates3] ld] eqn:Ld.
  apply exec_load in Ld as [-> Ld]. destruct ld as [receipt|e]; [|by intros [= <- <- <-]].
  specialize (Ld receipt eq_refl). change (record_id rc) with (Receipt.receipt_id rc) in L2.
  rewrite L2 in Ld. injection Ld as <-. rewrite exec_bind.
  destruct (exec fates3 (LedgerStore.append_evidence _ _ _) d2) as [[d4 fates4] second] eqn:A2.
  destruct (evidence_frame _ _ _ _ _ _ _ _ W2 A2) as [W4 F4]. intros [= <- <- <-]. split; [done|].
  cbn [SealOutcome.receipt]. intros receipt [= <-]. split; [done|]. rewrite <- L2. apply loaded_file. intros _. by apply F4.
Qed.

(** What the attested receipt says. *)
Lemma attested_says run verdict bar signer tier issued_at :
  let receipt := attested run verdict bar signer tier issued_at in
  let st := receipt.(Receipt.statement) in
  st.(ReceiptStatement.verdict) = verdict.(Verdict.status) /\
  st.(ReceiptStatement.checks) = receipt_checks_for verdict /\
  st.(ReceiptStatement.provenance).(ReceiptProvenance.run_id) = run.(Run.run_id) /\
  st.(ReceiptStatement.merge_bar) = bar.(SealedBar.merge_bar) /\
  st.(ReceiptStatement.required_evidence) = bar.(SealedBar.required_evidence) /\
  st.(ReceiptStatement.checkspec_hash) = non_empty verdict.(Verdict.checkspec_hash) /\
  receipt.(Receipt.receipt_id) = statement_id st.
Proof. cbn zeta. unfold attested, signed_receipt. by destruct (Signer.sign _ _). Qed.

(** A local key's receipt is one the gate trusts, under a pin of that key too. *)
Lemma attested_trusted (ed25519_verify : bytes -> bytes -> bytes -> bool) public_key sign_b64 run verdict bar tier issued_at :
  (forall m, ed25519_verify public_key m (sign_b64 m) = true) ->
  trusted_receipt ed25519_verify (attested run verdict bar (local_ed25519 public_key sign_b64) tier issued_at) (Some public_key).
Proof.
  intros K. unfold trusted_receipt, attested, signed_receipt, local_ed25519. cbn [Signer.sign Signer.backend Signer.keyid].
  cbn zeta. split_and!; [done|apply K|by intros ? [= <-]].
Qed.

(** A record's writing touches its directory only. *)
Lemma write_record_frame {A} `{StoredRecord A} fates dir (r : A) d d' fates' result : disk_wf d ->
  exec fates (write_record dir r) d = (d', fates', result) ->
  disk_wf d' /\ forall q, q.1 <> dir -> Disk.file d' q = Disk.file d q.
Proof.
  intros W. unfold write_record, path_for, validate_id. destruct (id_valid (record_id r)); [|by intros [= <- <- <-]].
  rewrite exec_try, exec_context, exec_sys. destruct (meet _ (CreateDirAll dir) d) as [d1 mk] eqn:Mk.
  assert (disk_wf d1 /\ forall p, Disk.file d1 p = Disk.file d p) as [W1 F1].
  { destruct (next_fate fates); injection Mk as <- _; split; done || by destruct W. }
  destruct mk as [[]|e]; [|by intros [= <- <- <-]]. intros Aw.
  destruct (exec_atomic_write _ _ _ _ _ _ _ W1 Aw) as (W2 & _ & S2 & _). split; [done|].
  intros q N. rewrite S2, F1; [done|by intros ->|]. by intros ->.
Qed.

Lemma ledger_of_frame d d' dir facts : disk_wf d' -> (forall q, q.1 = dir -> Disk.file d' q = Disk.file d q) ->
  ledger_of d dir facts -> ledger_of d' dir facts.
Proof.
  intros W F (_ & L & Hd). split; [done|]. unfold log_file. rewrite F by done. split; [done|].
  rewrite <- Hd. by apply head_of_file, F.
Qed.

Lemma evidence_done d dir facts kind now_ms : ledger_of d dir facts -> exists d',
  exec [] (LedgerStore.append_evidence (Some dir) kind now_ms) d =
    (d', [], Some (append_record (head_after facts) kind now_ms).1) /\
  ledger_of d' dir (facts ++ [(kind, now_ms)]) /\ forall q, q.1 <> dir -> Disk.file d' q = Disk.file d q.
Proof.
  intros L. destruct (append_done d dir facts kind now_ms L) as [d' E]. exists d'. split_and!.
  - cbn [LedgerStore.append_evidence]. by rewrite exec_bind, E.
  - by destruct (exec_append [] d d' [] dir facts kind now_ms _ L I E).
  - destruct L as [W _]. by apply (append_frame _ _ _ _ _ _ _ _ W E).
Qed.

(** The two facts of a seal. *)
Definition seal_facts (run : Run.t) (verdict : Verdict.t) (rc : Receipt.t) (clock : nat -> u64) : list (LedgerKind.t * u64) :=
  [(verdict_kind run verdict, clock 0); (receipt_kind run verdict rc, clock 1)].

Lemma seal_done `{!Sha256Spec} d ledger dir facts run verdict bar signer tier issued_at clock :
  ledger_of d ledger facts -> ledger <> dir ->
  let rc := attested run verdict bar signer tier issued_at in
  exists d' records,
    exec [] (seal_and_attest run verdict (AttestStores.Mk (Some ledger) (Some dir)) bar signer tier issued_at clock) d =
      (d', [], SealOutcome.Mk (Some rc) records) /\
    ledger_of d' ledger (facts ++ seal_facts run verdict rc clock) /\
    log_of (facts ++ seal_facts run verdict rc clock) = log_of facts ++ records /\
    loaded d' dir rc.(Receipt.receipt_id) = inl rc.
Proof.
  intros L Nd rc. unfold seal_and_attest. cbn [AttestStores.ledger AttestStores.receipt]. rewrite exec_bind.
  destruct (evidence_done d ledger facts (verdict_kind run verdict) (clock 0) L) as (d1 & -> & L1 & _).
  unfold issue_receipt_for_run. fold (attested run verdict bar signer tier issued_at). fold rc. rewrite !exec_bind.
  destruct (exec [] (write_record dir rc) d1) as [[d2 fates2] wr] eqn:Wr.
  assert (record_version rc = current_version (A:=Receipt.t)) as V.
  { unfold rc, attested, signed_receipt. by destruct (Signer.sign _ _). }
  assert (disk_wf d1) as W1 by (by destruct L1).
  destruct (write_record_spec [] d1 d2 fates2 dir rc wr W1 V Wr) as (W2 & _ & Ld & Dn).
  assert (exists u, wr = inl u) as [u ->].
  { apply Dn; [done|]. destruct (attested_says run verdict bar signer tier issued_at) as (_ & _ & _ & _ & _ & _ & Eid).
    change (record_id rc) with (Receipt.receipt_id rc). unfold rc. rewrite Eid. apply digest_id_valid. }
  assert (fates2 = []) as ->.
  { pose proof (exec_all_done (write_record dir rc) d1) as T. by rewrite Wr in T. }
  destruct (write_record_frame [] dir rc d1 d2 [] _ W1 Wr) as [_ F2].
  assert (ledger_of d2 ledger (facts ++ [(verdict_kind run verdict, clock 0)])) as L2.
  { eapply ledger_of_frame; [done| |exact L1]. intros q Eq. apply F2. congruence. }
  change (record_id rc) with (Receipt.receipt_id rc) in Ld. cbn [exec IssuedReceipt.receipt_id]. rewrite exec_bind.
  destruct (exec [] (load_record (A:=Receipt.t) dir _) d2) as [[d3 fates3] ld] eqn:El.
  assert (fates3 = [] /\ ld = inl rc) as [-> ->].
  { unfold loaded in Ld. rewrite El in Ld. split; [|exact Ld].
    pose proof (exec_all_done (load_record (A:=Receipt.t) dir (Receipt.receipt_id rc)) d2) as T. by rewrite El in T. }
  apply exec_load in El as [-> _]. rewrite exec_bind.
  destruct (evidence_done d2 ledger _ (receipt_kind run verdict rc) (clock 1) L2) as (d4 & -> & L4 & F4).
  eexists d4, _. split; [reflexivity|]. unfold seal_facts. rewrite <- app_assoc in L4. split; [exact L4|]. split.
  - change [?a; ?b] with ([a] ++ [b]). rewrite app_assoc, !log_of_snoc, <- app_assoc. done.
  - rewrite <- Ld. apply loaded_file. intros _. apply F4. cbn. congruence.
Qed.
End attest.

(** * The commands *)

Section commands.
Context `{SerdeJson, SerdeText, !SerdeTextSpec, Sha256}.

Lemma exec_with_sink fates root sink d d' fates' plane :
  exec fates (with_sink None (Some root) sink) d = (d', fates', plane) -> d' = d.
Proof.
  unfold with_sink, load_policy_doc, policy_plane_path. rewrite !exec_bind, exec_sys.
  by destruct (next_fate fates); cbn; intros [= <- _ _].
Qed.

Lemma dirs_ne root : Some (ledger_dir root) <> Some (receipts_dir root).
Proof. intros [= E]. by apply app_inj_l in E. Qed.

(** C10: [nerve verify] fabricates no pass. Whatever calls fail, when it exits with zero the run is a
    captured one, the org's checkspec requires some check and every required one passed every attempt,
    and a receipt saying so is kept: of that run, signed with the host's key and trusted by the gate
    under a pin of that key, its co-sealed bar cleared. *)
Theorem nerve_verify_sound (ed25519_verify : bytes -> bytes -> bytes -> bool) (public_key : string) (sign_b64 : bytes -> string)
    (fates : list Fate.t) (d d' : Disk.t) (fates' : list Fate.t) (root run_id : string) (reruns : option u32) (w : World.t)
    (verified_at_ms issued_at_ms : u64) (clock : nat -> u64)
    (K : forall m, ed25519_verify public_key m (sign_b64 m) = true) (W : disk_wf d)
    (E : exec fates (verify_command root run_id reruns w (local_ed25519 public_key sign_b64) verified_at_ms issued_at_ms clock) d
         = (d', fates', inl 0%Z)) :
  exists run spec receipt,
    loaded d (runs_dir root) run_id = inl run /\ checkspec_of d root = inl spec /\
    bar_held w (umax (default DEFAULT_RERUNS reruns) (wrap 32 1)) spec.(CheckSpec.checks) /\
    loaded d' (receipts_dir root) receipt.(Receipt.receipt_id) = inl receipt /\
    receipt.(Receipt.statement).(ReceiptStatement.provenance).(ReceiptProvenance.run_id) = run.(Run.run_id) /\
    trusted_receipt ed25519_verify receipt (Some public_key) /\ cleared receipt None.
Proof.
  unfold verify_command, run_verify_flow in E. rewrite exec_try, exec_bind in E.
  destruct (exec fates (handle_verify_start _ _ _ _ _ _ _ _) d) as [[d1 fates1] [verdict|e]] eqn:Vs; [|done].
  apply verify_start_spec in Vs as (run & spec & Lr & Ls & _ & _ & P & fates0 & wr & Wr).
  destruct (write_record_frame _ _ _ _ _ _ _ W Wr) as [W1 F1]. rewrite exec_bind in E.
  destruct (exec fates1 (load_record (A:=Run.t) _ _) d1) as [[d2 fates2] ld] eqn:Ld.
  apply exec_load in Ld as [-> Ld]. destruct ld as [run'|e]; [|done]. specialize (Ld run' eq_refl).
  assert (run' = run) as ->.
  { rewrite (loaded_file d d1) in Ld; [congruence|]. intros _. apply F1. intros X. by apply app_inj_l in X. }
  rewrite exec_bind in E. destruct (exec fates2 (resolve None (Some root)) d1) as [[d3 fates3] plane] eqn:Rs.
  apply exec_with_sink in Rs as ->. rewrite exec_bind in E.
  destruct (exec fates3 (seal_and_attest _ _ _ _ _ _ _ _) d1) as [[d4 fates4] out] eqn:Se.
  destruct (seal_spec _ _ _ _ _ _ _ _ _ _ _ _ _ _ W1 (dirs_ne root) Se) as [_ S].
  destruct (SealOutcome.receipt out) as [receipt|] eqn:Er; [|done]. destruct (S receipt eq_refl) as [-> Lc].
  set (rc := attested _ _ _ _ _ _) in *. cbn [exec] in E. injection E as <- <- Ez.
  destruct (enforce_merge_bar_exit rc) as [Cl _]. apply Cl in Ez.
  destruct (attested_says run verdict (sealed_bar plane) (local_ed25519 public_key sign_b64) IsolationTier.Contained issued_at_ms)
    as (Ev & _ & Ri & _). fold rc in Ev, Ri.
  exists run, spec, rc. split_and!; [done|done| |exact Lc|exact Ri|by apply attested_trusted|exact Ez].
  change (selected spec None) with (CheckSpec.checks spec) in P. apply P. rewrite <- Ev. by destruct Ez.
Qed.

(** A verdict is attested whole. With nothing failing, sealing a verdict on a ledger of [facts]
    returns its signed receipt, which is kept, and leaves the ledger with two more facts, the verdict and
    then the receipt issued for it, whose records are returned. *)
Theorem seal_and_attest_spec `{!Sha256Spec} (d : Disk.t) (ledger dir : string) (facts : list (LedgerKind.t * u64)) (run : Run.t)
    (verdict : Verdict.t) (bar : SealedBar.t) (signer : Signer.t) (tier : IsolationTier.t) (issued_at_ms : u64)
    (clock : nat -> u64) (L : ledger_of d ledger facts) (N : ledger <> dir) :
  let rc := attested run verdict bar signer tier issued_at_ms in
  exists d' records,
    exec [] (seal_and_attest run verdict (AttestStores.Mk (Some ledger) (Some dir)) bar signer tier issued_at_ms clock) d =
      (d', [], SealOutcome.Mk (Some rc) records) /\
    ledger_of d' ledger (facts ++ seal_facts run verdict rc clock) /\
    log_of (facts ++ seal_facts run verdict rc clock) = log_of facts ++ records /\
    loaded d' dir rc.(Receipt.receipt_id) = inl rc.
Proof. by apply seal_done. Qed.
End commands.

(** * Runs *)

Definition demo_run : Run.t :=
  build_run "job" "codex" None (wrap 64 1) None true
    [Event.Mk (wrap 64 0) (EventKind.RunStarted "codex" "t" None None)] RunInputs.default.

Definition demo_spec : json :=
  JObj [("checks", JArr [JObj [("name", JStr "smoke"); ("command", JStr "true")]])].

(** A root with one captured run and one check. *)
Definition demo_disk : Disk.t :=
  (exec [] (run! _ := write_record (runs_dir "") demo_run in
            fs_write (nerve_dir "", "checks.json") (to_string_pretty demo_spec))
     (Disk.Mk {[nerve_dir ""]} ∅ ∅ 0)).1.1.

Lemma demo_disk_wf : disk_wf demo_disk.
Proof.
  assert (disk_wf (Disk.Mk {[nerve_dir ""]} ∅ ∅ 0)) as W0 by (split; cbn; intros *; by rewrite lookup_empty).
  unfold demo_disk. rewrite exec_bind.
  destruct (exec [] (write_record (runs_dir "") demo_run) _) as [[d1 fates1] r1] eqn:Wr.
  destruct (write_record_frame _ _ _ _ _ _ _ W0 Wr) as [W1 _].
  destruct (exec fates1 (fs_write _ _) d1) as [[d2 fates2] r2] eqn:Fw. by destruct (exec_fs_write _ _ _ _ _ _ _ W1 Fw).
Qed.

(** Every command exits with zero. *)
Definition all_pass : World.t :=
  World.Mk (fun _ => false) (fun _ _ => Turn.Mk false (Some (Output.Mk exit_zero EmptyString EmptyString false)) 5).

Definition demo_sign (m : bytes) : string := "sig".
Definition demo_verify (key m sig : bytes) : bool := String.eqb key "pk" && String.eqb sig "sig".

Lemma nerve_verify_sound_witness :
  exists (run : Run.t) spec receipt,
    loaded demo_disk (runs_dir "") demo_run.(Run.run_id) = inl run /\ checkspec_of demo_disk "" = inl spec /\
    bar_held all_pass (umax (wrap 32 2) (wrap 32 1)) spec.(CheckSpec.checks) /\
    trusted_receipt demo_verify receipt (Some "pk").
Proof.
  destruct (exec [] (verify_command "" demo_run.(Run.run_id) (Some (wrap 32 2)) all_pass (local_ed25519 "pk" demo_sign)
    (wrap 64 1) (wrap 64 2) (fun _ => wrap 64 3)) demo_disk) as [[d' fates'] r] eqn:E.
  assert (r = inl 0%Z) as Er by (change r with (d', fates', r).2; rewrite <- E; vm_compute; reflexivity).
  rewrite Er in E.
  pose proof (nerve_verify_sound demo_verify "pk" demo_sign [] demo_disk d' fates' "" demo_run.(Run.run_id) (Some (wrap 32 2))
    all_pass (wrap 64 1) (wrap 64 2) (fun _ => wrap 64 3) (fun m => eq_refl) demo_disk_wf) as S.
  specialize (S E). destruct S as (run & spec & receipt & Lr & Ls & B & _ & _ & T & _).
  exists run, spec, receipt. split_and!; assumption || exact Lr.
Defined.

Definition demo_verdict : Verdict.t :=
  build_verdict demo_run.(Run.run_id) None "cs" EmptyString [] [] (wrap 64 1).

Lemma seal_and_attest_spec_witness :
  exists d' records,
    exec [] (seal_and_attest demo_run demo_verdict (AttestStores.Mk (Some "ledger") (Some "receipts")) SealedBar.empty
      (local_ed25519 "pk" demo_sign) IsolationTier.Contained (wrap 64 2) (fun _ => wrap 64 3)) one_fact =
      (d', [], SealOutcome.Mk (Some (attested demo_run demo_verdict SealedBar.empty (local_ed25519 "pk" demo_sign)
                                       IsolationTier.Contained (wrap 64 2))) records).
Proof.
  assert ("ledger" <> "receipts") as N by done.
  destruct (seal_and_attest_spec one_fact "ledger" "receipts" [recorded 1] demo_run demo_verdict SealedBar.empty
    (local_ed25519 "pk" demo_sign) IsolationTier.Contained (wrap 64 2) (fun _ => wrap 64 3) ledger_of_one_fact N)
    as (d' & records & E & _).
  exists d', records. exact E.
Defined.

(** A verdict of the run with the given status, attested under an empty bar. *)
Definition demo_receipt (status : CheckStatus.t) : Receipt.t :=
  let check := CheckResult.Mk "smoke" CheckKind.Test status true None false (wrap 64 1) EmptyString (wrap 32 1) (wrap 32 0) in
  attested demo_run (build_verdict demo_run.(Run.run_id) None "cs" EmptyString [check] [true] (wrap 64 1)) SealedBar.empty
    (local_ed25519 "pk" demo_sign) IsolationTier.Contained (wrap 64 2).

(** A failed receipt of the run, then a passed one. *)
Definition two_receipts : Disk.t :=
  (exec [] (run! _ := write_record (receipts_dir "") (demo_receipt CheckStatus.Fail) in
            write_record (receipts_dir "") (demo_receipt CheckStatus.Pass)) Disk.empty).1.1.

Definition demo_gate (order : list string) : Z + string :=
  (exec [Fate.Listed order] (nerve_gate (fun _ => EmptyString) demo_verify "" None (Some demo_run.(Run.run_id))
     (GateArgs.Mk "none" None None) None None (wrap 64 3)) two_receipts).2.

(** [nerve gate --run] takes the first receipt of the run in the directory's order, so its exit code
    changes with that order. *)
Lemma gate_run_depends_on_order :
  let names := [(demo_receipt CheckStatus.Fail).(Receipt.receipt_id) +:+ ".json";
                (demo_receipt CheckStatus.Pass).(Receipt.receipt_id) +:+ ".json"] in
  demo_gate names = inl 1%Z /\ demo_gate (reverse names) = inl 0%Z.
Proof. vm_compute. done. Qed.

(** A label whose record could not be read once replaces it with a record of that label alone, and
    succeeds. *)
Lemma label_replaces_unread_record :
  let '(d, _, r) := exec [Fate.Failed] (handle_outcome_label "r" Outcome.Incident LabelSource.Ci None None None
                                          (Some "outcomes") (wrap 64 9)) outcomes_disk in
  (exists l, r = inl l /\ l.(LabeledOutcome.label_count) = wrap 64 1) /\
  match loaded (A:=OutcomeRecord.t) d "outcomes" "r" with
  | inl record => map OutcomeLabel.outcome record.(OutcomeRecord.labels) = [Outcome.Incident]
  | inr _ => False
  end.
Proof. vm_compute. split; [by eexists|done]. Qed.

(** [nerve ledger verify] exits with zero on a log it could not read. *)
Lemma unread_log_verifies :
  (exec [Fate.Failed] (ledger_verify_command "") one_fact).2 = 0%Z.
Proof. done. Qed.
