(* ===== verification/CodeGraph.v ===== *)
(** The index behind code navigation: symbols and references of parsed files
    ([nerve-core/src/codemap/types.rs], [repomap/analysis.rs]), the block a line begins or lies in
    ([codemap/block.rs]), the inverted index of definitions ([graph/definitions.rs]) and the
    resolution of import paths ([repomap/imports.rs]). The syntax trees are what the parser gives. *)
From stdpp Require Import gmap strings.
From S2P Require Import Prelude Text EditText Paths Runpin.
Open Scope nerve_scope.

(** * Symbols and references *)

Module CodeMember.
Record t := Mk { name : string; signature : option string }.
#[global] Instance eq_dec : EqDecision t.
Proof. solve_decision. Defined.
End CodeMember.

Module CodeSymbol.
Record t := Mk {
  kind : string;
  name : string;
  line : nat;
  column : nat;
  signature : option string;
  members : list CodeMember.t }.
#[global] Instance eq_dec : EqDecision t.
Proof. solve_decision. Defined.
End CodeSymbol.

Module CodeReference.
Record t := Mk {
  kind : string;
  name : string;
  line : nat;
  column : nat;
  language : option string;
  import_path : option string }.

Definition new (kind name : string) (line : nat) : t := Mk kind name line 1 None None.
Definition with_column (r : t) (column : nat) : t :=
  Mk r.(kind) r.(name) r.(line) column r.(language) r.(import_path).
Definition with_language (r : t) (language : string) : t :=
  Mk r.(kind) r.(name) r.(line) r.(column) (Some language) r.(import_path).
Definition with_import_path (r : t) (import_path : string) : t :=
  Mk r.(kind) r.(name) r.(line) r.(column) r.(language) (Some import_path).

Definition effective_language (r : t) (fallback : string) : string := default fallback r.(language).
Definition has_embedded_language (r : t) : bool :=
  match r.(language) with Some _ => true | None => false end.
End CodeReference.

Module ParsedCodeFile.
Record t := Mk {
  language : string;
  symbols : list CodeSymbol.t;
  references : list CodeReference.t }.
End ParsedCodeFile.

Module IndexedFile.
Record t := Mk {
  path : string;
  display_path : string;
  abs_path : string;
  language : string;
  symbols : list CodeSymbol.t;
  references : list CodeReference.t;
  query_match : bool }.
End IndexedFile.

(** * Cancellation *)

(** An operation that checks its token: which checks find it cancelled is given by number. *)
Definition Op (A : Type) : Type := nat -> (A + NerveError.t) * nat.
Definition ret {A} (a : A) : Op A := fun n => (inl a, n).
Definition fail {A} (e : NerveError.t) : Op A := fun n => (inr e, n).
Definition bind_op {A B} (m : Op A) (k : A -> Op B) : Op B := fun n =>
  let '(r, n) := m n in match r with inl a => k a n | inr e => (inr e, n) end.
Definition lift_op {A} (r : A + NerveError.t) : Op A := fun n => (r, n).
Notation "'do!' x := m 'in' k" := (bind_op m (fun x => k))
  (at level 10, x binder, m at level 200, k at level 200) : nerve_scope.

Section cancel.
Context (cancelled : nat -> bool).

Definition check_cancelled : Op unit := fun n =>
  (if cancelled n then inr NerveError.Cancelled else inl tt, S n).
End cancel.

Definition never : nat -> bool := fun _ => false.

(** * Blocks of syntax *)

Module Syntax.
Record point := Point { row : nat; column : nat }.

(** A node of the tree the parser gives. *)
Inductive node :=
  Node (is_named : bool) (start_position end_position : point) (start_byte end_byte : nat)
    (has_error : bool) (children : list node).

Definition is_named '(Node b _ _ _ _ _ _) : bool := b.
Definition start_position '(Node _ p _ _ _ _ _) : point := p.
Definition end_position '(Node _ _ p _ _ _ _) : point := p.
Definition start_byte '(Node _ _ _ b _ _ _) : nat := b.
Definition end_byte '(Node _ _ _ _ b _ _) : nat := b.
Definition has_error '(Node _ _ _ _ _ b _) : bool := b.
Definition children '(Node _ _ _ _ _ _ c) : list node := c.

Definition spans_row (target_row : nat) (n : node) : bool :=
  ((start_position n).(row) <=? target_row) && (target_row <=? (end_position n).(row)).

(** The stack of the search visits the last child first and a node's subtree before the siblings
    under it on the stack. *)
Fixpoint visit (target_row : nat) (n : node) (best : option node) {struct n} : option node :=
  match n with
  | Node named s e _ eb _ children =>
      let better :=
        named && (s.(row) =? target_row) &&
        match best with None => true | Some current => end_byte current <? eb end in
      fold_right
        (fun child best => if spans_row target_row child then visit target_row child best else best)
        (if better then Some n else best) children
  end.

(** [block_span_for_language], from the tree on. *)
Definition block_span (root : node) (start_line : nat) : option (nat * nat) :=
  match start_line with
  | 0 => None
  | S target_row =>
      let best :=
        fold_right
          (fun child best => if spans_row target_row child then visit target_row child best else best)
          None (children root) in
      (fun n =>
         let e := end_position n in
         let end_row :=
           if (e.(column) =? 0) && (target_row <? e.(row)) then e.(row) - 1 else e.(row) in
         (start_line, end_row + 1)) <$> best
  end.

Definition node_content_end_row (n : node) : nat :=
  let e := end_position n in
  if (e.(column) =? 0) && (0 <? e.(row)) then e.(row) - 1 else e.(row).

Definition node_start_line (n : node) : nat := (start_position n).(row) + 1.
Definition node_end_line (n : node) : nat := node_content_end_row n + 1.

Definition node_contains_rows (n : node) (first_row last_row : nat) : bool :=
  ((start_position n).(row) <=? first_row) && (last_row <=? node_content_end_row n).

Definition byte_len (n : node) : nat := end_byte n - start_byte n.

Definition better_containing_node (current : option node) (candidate : node) : option node :=
  match current with
  | None => Some candidate
  | Some c =>
      let current_lines := node_end_line c - node_start_line c in
      let candidate_lines := node_end_line candidate - node_start_line candidate in
      if (candidate_lines <? current_lines) ||
         ((candidate_lines =? current_lines) && (byte_len candidate <? byte_len c))
      then Some candidate else Some c
  end.

Fixpoint contain (first_row last_row : nat) (n : node) (best : option node) {struct n} : option node :=
  match n with
  | Node named _ _ _ _ _ children =>
      if negb (node_contains_rows n first_row last_row) then best
      else
        fold_right (contain first_row last_row)
          (if named && (node_start_line n <? node_end_line n)
           then better_containing_node best n else best) children
  end.

Definition smallest_containing_block (root : node) (first_row last_row : nat) : option (nat * nat) :=
  (fun n => (node_start_line n, node_end_line n)) <$>
  fold_right (contain first_row last_row) None (children root).
End Syntax.

Module ContainingBlockError.
Inductive t := UnsupportedLanguage | ParseError | BlankLine.
End ContainingBlockError.

(** [split_inclusive('\n')]. *)
Fixpoint split_inclusive (s : string) : list string :=
  match s with
  | EmptyString => []
  | String c s =>
      if Ascii.eqb c LF then String c EmptyString :: split_inclusive s
      else match split_inclusive s with
           | [] => [String c EmptyString]
           | piece :: pieces => String c piece :: pieces
           end
  end.

Lemma concat_split_inclusive s : concat_str (split_inclusive s) = s.
Proof.
  induction s as [|c s IH]; [done|]. cbn. destruct (Ascii.eqb c LF).
  - cbn. by rewrite IH.
  - destruct (split_inclusive s) as [|p ps]; cbn in *; by rewrite <- IH.
Qed.

(** [line_text] of [block.rs]. *)
Definition line_text (source : string) (line : nat) : option string :=
  match line with 0 => None | S n => split_inclusive source !! n end.

(** What navigation asks of the outside: the text of a file, and the language and tree a parser
    gives for a path and its text ([Language::from_path_or_source], [parser.parse]). *)
Module Provider.
Record t := Mk {
  source : string -> string -> option string;
  parse : string -> string -> option (option Syntax.node) }.
End Provider.

Section blocks.
Context (provider : Provider.t).

Definition block_span (path source : string) (start_line : nat) : option (nat * nat) :=
  match provider.(Provider.parse) path source with
  | Some (Some root) => Syntax.block_span root start_line
  | _ => None
  end.

Definition parse_clean_tree (tree : option Syntax.node) : Syntax.node + ContainingBlockError.t :=
  match tree with
  | None => inr ContainingBlockError.ParseError
  | Some root => if Syntax.has_error root then inr ContainingBlockError.ParseError else inl root
  end.

Definition containing_block_span (path source : string) (first_line last_line : nat)
    : option (nat * nat) + ContainingBlockError.t :=
  match provider.(Provider.parse) path source with
  | None => inr ContainingBlockError.UnsupportedLanguage
  | Some tree =>
      match (if (first_line =? 0) || (last_line <? first_line) then None
             else line_text source first_line) with
      | None => inl None
      | Some line =>
          if String.eqb (trim line) EmptyString then inr ContainingBlockError.BlankLine
          else
            match parse_clean_tree tree with
            | inr e => inr e
            | inl root =>
                inl (Syntax.smallest_containing_block root (first_line - 1) (last_line - 1))
            end
      end
  end.
End blocks.

(** * [repomap/language.rs]: families *)

Definition language_family (language : string) : string :=
  if String.eqb language "typescript" || String.eqb language "tsx" then "javascript" else language.

(** * [repomap/imports.rs] *)

(** The pieces of a path with dots resolved; parents above the top are dropped. *)
Definition push_part (parts : list string) (part : string) : list string :=
  if String.eqb part EmptyString || String.eqb part "." then parts
  else if String.eqb part ".." then removelast parts
  else parts ++ [part].

Definition slashed (path : string) : string := replace_str (String "092" EmptyString) "/" path.

Definition normalize_repo_path (path : string) : string :=
  join "/" (fold_left push_part (split_on "/" (slashed path)) []).

(** [Path::parent], up to the repeated separators that [normalize_repo_path] drops. *)
Definition component_text (c : Component.t) : string :=
  match c with
  | Component.RootDir => EmptyString
  | Component.CurDir => "."
  | Component.ParentDir => ".."
  | Component.Normal part => part
  end.

Definition parent_text (path : string) : option string :=
  let cs := components path in
  match last cs with
  | None | Some Component.RootDir => None
  | Some _ =>
      Some (match removelast cs with
            | [Component.RootDir] => "/"
            | cs => join "/" (map component_text cs)
            end)
  end.

Definition find_index {A} (p : A -> bool) : list A -> option nat :=
  fix go l := match l with [] => None | x :: l => if p x then Some 0 else S <$> go l end.

Definition resolve_relative_candidates (files : list IndexedFile.t) (referencer : IndexedFile.t)
    (candidates : list string) : option nat :=
  let base := slashed (default EmptyString (parent_text referencer.(IndexedFile.path))) in
  let normalized : gset string :=
    list_to_set (flat_map (fun candidate =>
      normalize_repo_path candidate ::
      (if String.eqb base EmptyString then []
       else [normalize_repo_path (base +:+ "/" +:+ candidate)])) candidates) in
  find_index (fun f => bool_decide (normalize_repo_path f.(IndexedFile.path) ∈ normalized)) files.

Fixpoint skip_while (p : string -> bool) (l : list string) : list string :=
  match l with x :: l' => if p x then skip_while p l' else l | [] => [] end.

Definition nonempty (part : string) : bool := negb (String.eqb part EmptyString).

Definition resolve_rust_import (files : list IndexedFile.t) (referencer : IndexedFile.t)
    (import_path : string) : option nat :=
  let parts := List.filter nonempty (split_str "::" import_path) in
  let parts := skip_while (fun p => String.eqb p "crate" || String.eqb p "self") parts in
  let parts := skip_while (fun p => String.eqb p "super") parts in
  match parts with
  | [] => None
  | first :: _ =>
      let candidates :=
        match removelast parts with
        | [] => [first +:+ ".rs"]
        | module_parts =>
            let module := join "/" module_parts in [module +:+ ".rs"; module +:+ "/mod.rs"]
        end in
      resolve_relative_candidates files referencer candidates
  end.

Definition resolve_python_import (files : list IndexedFile.t) (referencer : IndexedFile.t)
    (import_path : string) : option nat :=
  let parts := List.filter nonempty (split_on "." import_path) in
  match parts with
  | [] => None
  | _ =>
      let module := join "/" (if 1 <? length parts then removelast parts else parts) in
      resolve_relative_candidates files referencer [module +:+ ".py"; module +:+ "/__init__.py"]
  end.

Definition javascript_extensions : list string := ["js"; "jsx"; "mjs"; "cjs"; "ts"; "tsx"].

Definition ends_with (suffix s : string) : bool :=
  match strip_suffix suffix s with Some _ => true | None => false end.

Definition javascript_import_candidates (path : string) : list string :=
  if existsb (fun ext => ends_with ("." +:+ ext) path) javascript_extensions then [path]
  else
    map (fun ext => path +:+ "." +:+ ext) javascript_extensions ++
    map (fun ext => path +:+ "/index." +:+ ext) javascript_extensions.

(** [trim_start_matches]. *)
Fixpoint trim_start_matches (fuel : nat) (pat s : string) : string :=
  match fuel with
  | 0 => s
  | S fuel => match strip_prefix pat s with Some r => trim_start_matches fuel pat r | None => s end
  end.

Definition resolve_javascript_import (files : list IndexedFile.t) (referencer : IndexedFile.t)
    (import_path : string) : option nat :=
  if starts_with "." import_path then
    resolve_relative_candidates files referencer
      (javascript_import_candidates (trim_start_matches (String.length import_path) "./" import_path))
  else None.

(** No caller passes an index beyond the files. *)
Definition resolve_import_reference (files : list IndexedFile.t) (referencer_idx : nat)
    (reference : CodeReference.t) : option nat :=
  match reference.(CodeReference.import_path), files !! referencer_idx with
  | Some import_path, Some referencer =>
      if CodeReference.has_embedded_language reference then None
      else
        let family :=
          language_family
            (CodeReference.effective_language reference referencer.(IndexedFile.language)) in
        if String.eqb family "rust" then resolve_rust_import files referencer import_path
        else if String.eqb family "python" then resolve_python_import files referencer import_path
        else if String.eqb family "javascript" then
          resolve_javascript_import files referencer import_path
        else None
  | _, _ => None
  end.

(** * [graph/definitions.rs] *)

Module DefinitionNameIndex.
Abbreviation t := (gmap string (list nat)).

Definition push (name : string) (idx : nat) (by_name : t) : t :=
  <[name := default [] (by_name !! name) ++ [idx]]> by_name.

Definition build (files : list IndexedFile.t) : t :=
  fold_left (fun by_name '(idx, file) =>
      fold_left (fun by_name symbol => push symbol.(CodeSymbol.name) idx by_name)
        file.(IndexedFile.symbols) by_name)
    (imap pair files) ∅.

Definition occurrences (index : t) (name : string) : list nat := default [] (index !! name).
End DefinitionNameIndex.

(** * [repomap/analysis.rs] *)

Module FileAnalysisResult.
Inductive t :=
  | Indexed (file : IndexedFile.t)
  | Unsupported
  | Diagnostic (path message : string).
End FileAnalysisResult.

(** A catalog entry as the index reads it, and the roots of the snapshot. *)
Module Entry.
Record t := Mk { root_id : string; rel_path : string; abs_path : string }.
End Entry.

Definition display_path (roots : nat) (root_id rel_path : string) : string :=
  if roots <=? 1 then rel_path else root_id +:+ "/" +:+ rel_path.

Section analysis.
Context (cancelled : nat -> bool).
Context (read_text : string -> string + NerveError.t).
Context (code_symbols_for_path :
  string -> string -> (option ParsedCodeFile.t + string) + NerveError.t).
Context (query_matches : string -> string -> string -> bool).

Definition analyze_file (roots : nat) (query : option string) (entry : Entry.t)
    : Op FileAnalysisResult.t :=
  do! _ := check_cancelled cancelled in
  do! source := lift_op (read_text entry.(Entry.abs_path)) in
  do! _ := check_cancelled cancelled in
  do! symbols := lift_op (code_symbols_for_path entry.(Entry.abs_path) entry.(Entry.rel_path)) in
  match symbols with
  | inr message => ret (FileAnalysisResult.Diagnostic entry.(Entry.rel_path) message)
  | inl None => ret FileAnalysisResult.Unsupported
  | inl (Some parsed) =>
      ret (FileAnalysisResult.Indexed (IndexedFile.Mk
        entry.(Entry.rel_path)
        (display_path roots entry.(Entry.root_id) entry.(Entry.rel_path))
        entry.(Entry.abs_path)
        parsed.(ParsedCodeFile.language)
        parsed.(ParsedCodeFile.symbols)
        parsed.(ParsedCodeFile.references)
        (match query with
         | Some needle => query_matches entry.(Entry.rel_path) source needle
         | None => false
         end)))
  end.

(** One after the other, as in the build without threads; with threads the results are in the
    same order, and of several errors any may be the one reported. *)
Fixpoint analyze_files (roots : nat) (query : option string) (entries : list Entry.t)
    : Op (list FileAnalysisResult.t) :=
  match entries with
  | [] => ret []
  | entry :: entries =>
      do! result := analyze_file roots query entry in
      do! results := analyze_files roots query entries in
      ret (result :: results)
  end.

Definition indexed (results : list FileAnalysisResult.t) : list IndexedFile.t :=
  omap (fun r => match r with FileAnalysisResult.Indexed file => Some file | _ => None end) results.

Definition path_leb (a b : IndexedFile.t) : bool :=
  string_leb a.(IndexedFile.path) b.(IndexedFile.path).

Definition indexed_files (roots : nat) (entries : list Entry.t) : Op (list IndexedFile.t) :=
  do! results := analyze_files roots None entries in
  ret (sort_by path_leb (indexed results)).
End analysis.
