(* ===== verification/Navigate.v ===== *)
(** Symbol navigation ([nerve-core/src/navigate]): definitions, references, referencing symbols, the
    call hierarchy, the impact of a change, call paths, symbol bodies and symbol search, over the
    indexed files of [CodeGraph]. *)
From stdpp Require Import gmap strings.
From S2P Require Import Prelude Text EditText Paths CodeGraph Disk.
Open Scope nerve_scope.

(** * [mod.rs]: requests and responses *)

Definition NAV_NOTE : string :=
  "syntax-level name match across the catalog; not a scope/type resolver, so results may include unrelated same-name symbols and miss aliases or re-exports".

Module Confidence.
Inductive t := High | Low.
#[global] Instance eq_dec : EqDecision t.
Proof. solve_decision. Defined.
End Confidence.

Module NavigateRequest.
Record t := Mk {
  symbol : string;
  language : option string;
  include_definitions : bool;
  confident_only : bool;
  max_results : nat }.
End NavigateRequest.

Module SymbolLocation.
Record t := Mk {
  path : string;
  display_path : string;
  line : nat;
  column : nat;
  kind : string;
  language : string;
  signature : option string;
  text : option string }.
#[global] Instance eq_dec : EqDecision t.
Proof. solve_decision. Defined.
End SymbolLocation.

Module ReferenceLocation.
Record t := Mk {
  path : string;
  display_path : string;
  line : nat;
  column : nat;
  kind : string;
  language : string;
  text : option string;
  confidence : Confidence.t }.
End ReferenceLocation.

Module DefinitionResponse.
Record t := Mk {
  symbol : string;
  definitions : list SymbolLocation.t;
  total : nat;
  truncated : bool;
  note : string }.
End DefinitionResponse.

Module ReferencesResponse.
Record t := Mk {
  symbol : string;
  references : list ReferenceLocation.t;
  definitions : list SymbolLocation.t;
  definition_count : nat;
  total : nat;
  truncated : bool;
  note : string }.
End ReferencesResponse.

Module FindReferencingSymbolsRequest.
Record t := Mk {
  symbol : string;
  path : option string;
  language : option string;
  kind : option string;
  confident_only : bool;
  context_lines : nat;
  max_results : nat }.
End FindReferencingSymbolsRequest.

Module ReferencingSymbol.
Record t := Mk {
  symbol : string;
  path : string;
  display_path : string;
  line : nat;
  column : nat;
  kind : string;
  language : string;
  reference_line : nat;
  reference_column : nat;
  reference_kind : string;
  confidence : Confidence.t;
  text : option string;
  reference_text : option string;
  reference_context : option string }.
End ReferencingSymbol.

Module FindReferencingSymbolsResponse.
Record t := Mk {
  symbol : string;
  definitions : list SymbolLocation.t;
  referencing_symbols : list ReferencingSymbol.t;
  definition_count : nat;
  total : nat;
  truncated : bool;
  context_lines : nat;
  note : string }.
End FindReferencingSymbolsResponse.

Module ImpactAnalysisRequest.
Record t := Mk {
  symbol : string;
  path : option string;
  language : option string;
  kind : option string;
  max_depth : nat;
  max_results : nat;
  confident_only : bool }.
End ImpactAnalysisRequest.

Module ImpactSymbol.
Record t := Mk {
  symbol : string;
  path : string;
  display_path : string;
  line : nat;
  column : nat;
  kind : string;
  language : string;
  depth : nat;
  via_symbol : string;
  reference_line : nat;
  reference_column : nat;
  reference_kind : string;
  confidence : Confidence.t;
  text : option string }.
End ImpactSymbol.

Module ImpactAnalysisResponse.
Record t := Mk {
  symbol : string;
  definitions : list SymbolLocation.t;
  impacted : list ImpactSymbol.t;
  total : nat;
  truncated : bool;
  max_depth : nat;
  note : string }.
End ImpactAnalysisResponse.

Module ReadSymbolRequest.
Record t := Mk {
  symbol : string;
  path : option string;
  language : option string;
  kind : option string;
  include_body : bool;
  max_matches : nat }.
End ReadSymbolRequest.

Module ReadSymbolBody.
Record t := Mk {
  path : string;
  display_path : string;
  start_line : nat;
  end_line : nat;
  kind : string;
  language : string;
  signature : option string;
  content : string }.
End ReadSymbolBody.

Module ReadSymbolResponse.
Record t := Mk {
  symbol : string;
  body : option ReadSymbolBody.t;
  matches : list SymbolLocation.t;
  total : nat;
  truncated : bool;
  note : string }.
End ReadSymbolResponse.

Module CallDirection.
Inductive t := Incoming | Outgoing | Both.
End CallDirection.

Module CallHierarchyRequest.
Record t := Mk {
  symbol : string;
  direction : CallDirection.t;
  language : option string;
  max_results : nat }.
End CallHierarchyRequest.

Module CallEdge.
Record t := Mk {
  symbol : string;
  path : string;
  display_path : string;
  line : nat;
  column : nat;
  kind : string;
  language : string;
  text : option string }.
#[global] Instance eq_dec : EqDecision t.
Proof. solve_decision. Defined.
End CallEdge.

Module CallHierarchyResponse.
Record t := Mk {
  symbol : string;
  incoming : list CallEdge.t;
  outgoing : list CallEdge.t;
  note : string }.
End CallHierarchyResponse.

Module TracePathRequest.
Record t := Mk {
  from : string;
  to : string;
  max_depth : nat;
  language : option string }.
End TracePathRequest.

Module PathStep.
Record t := Mk { symbol : string; display_path : string; line : nat }.
End PathStep.

Module TracePathResponse.
Record t := Mk {
  from : string;
  to : string;
  found : bool;
  max_depth : nat;
  path : list PathStep.t;
  note : string }.
End TracePathResponse.

Module SymbolSearchRequest.
Record t := Mk {
  query : string;
  language : option string;
  kind : option string;
  max_results : nat }.
End SymbolSearchRequest.

Module SymbolSearchMatch.
Record t := Mk {
  name : string;
  path : string;
  display_path : string;
  line : nat;
  kind : string;
  language : string;
  score : nat;
  signature : option string;
  text : option string;
  matched_terms : list string }.
End SymbolSearchMatch.

Module SymbolSearchResponse.
Record t := Mk {
  query : string;
  matches : list SymbolSearchMatch.t;
  total : nat;
  truncated : bool;
  note : string }.
End SymbolSearchResponse.

Definition is_none_or {A} (o : option A) (p : A -> bool) : bool :=
  match o with None => true | Some a => p a end.

Definition language_matches (filter : option string) (language : string) : bool :=
  is_none_or filter (fun wanted => String.eqb wanted language).

Definition location_key (l : SymbolLocation.t) : string * (nat * string) :=
  (l.(SymbolLocation.display_path), (l.(SymbolLocation.line), l.(SymbolLocation.kind))).

Definition sort_locations : list SymbolLocation.t -> list SymbolLocation.t :=
  sort_on (lex_leb string_leb (lex_leb Nat.leb string_leb)) location_key.

(** [ImpactKey]: symbol, path, line; and [target_key]. *)
Definition ImpactKey : Type := string * (string * nat).
Definition TargetKey : Type := string * (option string * option nat).

Abbreviation Parents := (gmap string (string * PathStep.t)).

Module ImpactTarget.
Record t := Mk {
  name : string;
  path : option string;
  line : option nat;
  language : option string;
  kind : option string }.
End ImpactTarget.

(** The state of the search: the queue, the visited targets, the seen keys, what is impacted. *)
Module Search.
Record t := Mk {
  queue : list (ImpactTarget.t * nat);
  visited : gset TargetKey;
  seen : gset ImpactKey;
  impacted : list ImpactSymbol.t }.
End Search.

Module Trace.
Record t := Mk {
  visited : gset string;
  parent : Parents;
  queue : list (string * nat) }.
End Trace.

Section navigate.
Context (provider : Provider.t) (cancelled : nat -> bool).

(** * [source.rs]: a file is read once, so what a lookup sees is a function of the file *)

Definition source (file : IndexedFile.t) : option string :=
  provider.(Provider.source) file.(IndexedFile.path) file.(IndexedFile.abs_path).

Definition line (file : IndexedFile.t) (line : nat) : option string :=
  match source file, line with
  | Some source, S n =>
      match str_lines source !! n with
      | Some text =>
          let text := trim text in if String.eqb text EmptyString then None else Some text
      | None => None
      end
  | _, _ => None
  end.

Definition symbol_location (file : IndexedFile.t) (symbol : CodeSymbol.t) : SymbolLocation.t :=
  SymbolLocation.Mk file.(IndexedFile.path) file.(IndexedFile.display_path)
    symbol.(CodeSymbol.line) symbol.(CodeSymbol.column) symbol.(CodeSymbol.kind)
    file.(IndexedFile.language) symbol.(CodeSymbol.signature)
    (line file symbol.(CodeSymbol.line)).

(** * [definition.rs] and [references.rs] *)

Definition collect_definitions (files : list IndexedFile.t) (request : NavigateRequest.t)
    : list SymbolLocation.t :=
  flat_map (fun file =>
    if language_matches request.(NavigateRequest.language) file.(IndexedFile.language) then
      map (symbol_location file)
        (List.filter (fun symbol => String.eqb symbol.(CodeSymbol.name) request.(NavigateRequest.symbol))
           file.(IndexedFile.symbols))
    else []) files.

Definition goto_definition (files : list IndexedFile.t) (request : NavigateRequest.t)
    : DefinitionResponse.t :=
  let definitions := sort_locations (collect_definitions files request) in
  let total := length definitions in
  DefinitionResponse.Mk request.(NavigateRequest.symbol)
    (take request.(NavigateRequest.max_results) definitions) total
    (request.(NavigateRequest.max_results) <? total) NAV_NOTE.

(** The file index [idx] passes the language filter. *)
Definition in_language (files : list IndexedFile.t) (language : option string) (idx : nat) : bool :=
  match files !! idx with
  | Some file => language_matches language file.(IndexedFile.language)
  | None => false
  end.

Definition count_definitions (defs : DefinitionNameIndex.t) (files : list IndexedFile.t)
    (request : NavigateRequest.t) : nat :=
  length (List.filter (in_language files request.(NavigateRequest.language))
    (DefinitionNameIndex.occurrences defs request.(NavigateRequest.symbol))).

Definition definition_file_indexes (defs : DefinitionNameIndex.t) (files : list IndexedFile.t)
    (request : NavigateRequest.t) : gset nat :=
  list_to_set (List.filter (in_language files request.(NavigateRequest.language))
    (DefinitionNameIndex.occurrences defs request.(NavigateRequest.symbol))).

Definition reference_confidence (files : list IndexedFile.t) (idx : nat) (file : IndexedFile.t)
    (def_files : gset nat) (unambiguous : bool) : Confidence.t :=
  let imports_a_definer :=
    existsb (fun reference =>
      String.eqb reference.(CodeReference.kind) "import" &&
      match resolve_import_reference files idx reference with
      | Some target => bool_decide (target ∈ def_files)
      | None => false
      end) file.(IndexedFile.references) in
  if unambiguous || bool_decide (idx ∈ def_files) || imports_a_definer
  then Confidence.High else Confidence.Low.

Definition is_low (c : Confidence.t) : bool :=
  match c with Confidence.Low => true | Confidence.High => false end.

Definition collect_file_references (file : IndexedFile.t) (request : NavigateRequest.t)
    (confidence : Confidence.t) : list ReferenceLocation.t :=
  omap (fun reference =>
    let reference_language :=
      CodeReference.effective_language reference file.(IndexedFile.language) in
    if negb (String.eqb reference.(CodeReference.name) request.(NavigateRequest.symbol)) then None
    else if negb (language_matches request.(NavigateRequest.language) reference_language) then None
    else if request.(NavigateRequest.confident_only) && is_low confidence then None
    else
      Some (ReferenceLocation.Mk file.(IndexedFile.path) file.(IndexedFile.display_path)
        reference.(CodeReference.line) reference.(CodeReference.column)
        reference.(CodeReference.kind) reference_language
        (line file reference.(CodeReference.line)) confidence))
    file.(IndexedFile.references).

Definition collect_references (defs : DefinitionNameIndex.t) (files : list IndexedFile.t)
    (request : NavigateRequest.t) : list ReferenceLocation.t :=
  let def_files := definition_file_indexes defs files request in
  let unambiguous := count_definitions defs files request <=? 1 in
  flat_map (fun '(idx, file) =>
    collect_file_references file request
      (reference_confidence files idx file def_files unambiguous)) (imap pair files).

Definition reference_key (r : ReferenceLocation.t) : string * (nat * string) :=
  (r.(ReferenceLocation.display_path), (r.(ReferenceLocation.line), r.(ReferenceLocation.kind))).

Definition collect_optional_definitions (files : list IndexedFile.t) (request : NavigateRequest.t)
    : list SymbolLocation.t :=
  if negb request.(NavigateRequest.include_definitions) then []
  else take request.(NavigateRequest.max_results)
         (sort_locations (collect_definitions files request)).

Definition find_references (files : list IndexedFile.t) (request : NavigateRequest.t)
    : ReferencesResponse.t :=
  let defs := DefinitionNameIndex.build files in
  let references :=
    sort_on (lex_leb string_leb (lex_leb Nat.leb string_leb)) reference_key
      (collect_references defs files request) in
  let total := length references in
  ReferencesResponse.Mk request.(NavigateRequest.symbol)
    (take request.(NavigateRequest.max_results) references)
    (collect_optional_definitions files request)
    (count_definitions defs files request) total
    (request.(NavigateRequest.max_results) <? total) NAV_NOTE.

(** * [call_hierarchy.rs] *)

(** What [SpanCache] remembers. *)
Definition span_of (file : IndexedFile.t) (line : nat) : option (nat * nat) :=
  match source file with
  | Some src => block_span provider file.(IndexedFile.path) src line
  | None => None
  end.

(** The first of the smallest blocks that hold the line; sizes are under [usize::MAX]. *)
Definition enclosing_step (file : IndexedFile.t) (reference_line : nat)
    (best : option (CodeSymbol.t * nat)) (symbol : CodeSymbol.t) : option (CodeSymbol.t * nat) :=
  if reference_line <? symbol.(CodeSymbol.line) then best
  else
    match span_of file symbol.(CodeSymbol.line) with
    | None => best
    | Some (start, end_) =>
        if (start <=? reference_line) && (reference_line <=? end_) &&
           match best with None => true | Some (_, best_size) => end_ - start <? best_size end
        then Some (symbol, end_ - start) else best
    end.

Definition enclosing_symbol (file : IndexedFile.t) (reference_line : nat) : option CodeSymbol.t :=
  fst <$> fold_left (enclosing_step file reference_line) file.(IndexedFile.symbols) None.

Definition call_edge_for_symbol (file : IndexedFile.t) (symbol : CodeSymbol.t) : CallEdge.t :=
  CallEdge.Mk symbol.(CodeSymbol.name) file.(IndexedFile.path) file.(IndexedFile.display_path)
    symbol.(CodeSymbol.line) symbol.(CodeSymbol.column) symbol.(CodeSymbol.kind)
    file.(IndexedFile.language) (line file symbol.(CodeSymbol.line)).

Definition call_edge_key (e : CallEdge.t) : string * (nat * (nat * string)) :=
  (e.(CallEdge.display_path), (e.(CallEdge.line), (e.(CallEdge.column), e.(CallEdge.symbol)))).

Definition finalize_call_edges (edges : list CallEdge.t) (max_results : nat) : list CallEdge.t :=
  take max_results
    (dedup_by_key id
       (sort_on (lex_leb string_leb (lex_leb Nat.leb (lex_leb Nat.leb string_leb))) call_edge_key edges)).

Definition incoming_call_edges (files : list IndexedFile.t) (request : CallHierarchyRequest.t)
    : list CallEdge.t :=
  finalize_call_edges
    (flat_map (fun file =>
       omap (fun reference =>
         if CodeReference.has_embedded_language reference then None
         else if negb (language_matches request.(CallHierarchyRequest.language)
                  (CodeReference.effective_language reference file.(IndexedFile.language))) then None
         else if negb (String.eqb reference.(CodeReference.name)
                  request.(CallHierarchyRequest.symbol)) then None
         else call_edge_for_symbol file <$> enclosing_symbol file reference.(CodeReference.line))
         file.(IndexedFile.references)) files)
    request.(CallHierarchyRequest.max_results).

(** A definition as the callees resolve to it. *)
Definition DefRef : Type := IndexedFile.t * CodeSymbol.t.

Definition definitions_by_name (files : list IndexedFile.t) : gmap string (list DefRef) :=
  fold_left (fun by_name file =>
      fold_left (fun by_name symbol =>
          <[symbol.(CodeSymbol.name) :=
              default [] (by_name !! symbol.(CodeSymbol.name)) ++ [(file, symbol)]]> by_name)
        file.(IndexedFile.symbols) by_name)
    files ∅.

Definition add_outgoing_targets (symbol : string) (defs_by_name : gmap string (list DefRef))
    (outgoing : list CallEdge.t) : list CallEdge.t :=
  outgoing ++
  map (fun '(file, target) =>
      CallEdge.Mk symbol file.(IndexedFile.path) file.(IndexedFile.display_path)
        target.(CodeSymbol.line) target.(CodeSymbol.column) target.(CodeSymbol.kind)
        file.(IndexedFile.language) None)
    (default [] (defs_by_name !! symbol)).

Definition collect_outgoing_in_span (file : IndexedFile.t) (span : nat * nat)
    (request : CallHierarchyRequest.t) (defs_by_name : gmap string (list DefRef))
    (outgoing : list CallEdge.t) : list CallEdge.t :=
  (fold_left (fun '(seen, outgoing) reference =>
      let name := reference.(CodeReference.name) in
      if (reference.(CodeReference.line) <? span.1) || (span.2 <? reference.(CodeReference.line)) ||
         String.eqb name request.(CallHierarchyRequest.symbol) || bool_decide (name ∈ seen)
      then (seen, outgoing)
      else ({[name]} ∪ seen, add_outgoing_targets name defs_by_name outgoing))
    file.(IndexedFile.references) ((∅ : gset string), outgoing)).2.

Definition collect_outgoing_for_file (file : IndexedFile.t) (request : CallHierarchyRequest.t)
    (defs_by_name : gmap string (list DefRef)) (outgoing : list CallEdge.t) : list CallEdge.t :=
  if negb (language_matches request.(CallHierarchyRequest.language) file.(IndexedFile.language))
  then outgoing
  else
    fold_left (fun outgoing symbol =>
        if negb (String.eqb symbol.(CodeSymbol.name) request.(CallHierarchyRequest.symbol))
        then outgoing
        else
          match span_of file symbol.(CodeSymbol.line) with
          | None => outgoing
          | Some span => collect_outgoing_in_span file span request defs_by_name outgoing
          end)
      file.(IndexedFile.symbols) outgoing.

(** The text of the edge's line, from the first file of its path. *)
Definition fill_call_edge_snippet (files : list IndexedFile.t) (e : CallEdge.t) : CallEdge.t :=
  match List.find (fun file => String.eqb file.(IndexedFile.path) e.(CallEdge.path)) files with
  | None => e
  | Some file =>
      CallEdge.Mk e.(CallEdge.symbol) e.(CallEdge.path) e.(CallEdge.display_path)
        e.(CallEdge.line) e.(CallEdge.column) e.(CallEdge.kind) e.(CallEdge.language)
        (line file e.(CallEdge.line))
  end.

Definition outgoing_call_edges (files : list IndexedFile.t) (request : CallHierarchyRequest.t)
    : list CallEdge.t :=
  let defs_by_name := definitions_by_name files in
  let outgoing :=
    fold_left (fun outgoing file => collect_outgoing_for_file file request defs_by_name outgoing)
      files [] in
  map (fill_call_edge_snippet files)
    (finalize_call_edges outgoing request.(CallHierarchyRequest.max_results)).

Definition wants_incoming (d : CallDirection.t) : bool :=
  match d with CallDirection.Incoming | CallDirection.Both => true | _ => false end.
Definition wants_outgoing (d : CallDirection.t) : bool :=
  match d with CallDirection.Outgoing | CallDirection.Both => true | _ => false end.

Definition call_hierarchy (files : list IndexedFile.t) (request : CallHierarchyRequest.t)
    : Op CallHierarchyResponse.t :=
  do! incoming :=
    (if wants_incoming request.(CallHierarchyRequest.direction) then
       do! _ := check_cancelled cancelled in ret (incoming_call_edges files request)
     else ret []) in
  do! outgoing :=
    (if wants_outgoing request.(CallHierarchyRequest.direction) then
       do! _ := check_cancelled cancelled in ret (outgoing_call_edges files request)
     else ret []) in
  ret (CallHierarchyResponse.Mk request.(CallHierarchyRequest.symbol) incoming outgoing NAV_NOTE).

(** * [impact.rs] *)

Definition starts_under (wanted path : string) : bool := starts_with (wanted +:+ "/") path.

Definition is_slash (c : ascii) : bool := Ascii.eqb c "/".

(** [path.trim().trim_matches('/')]. *)
Fixpoint trim_start_chars (p : ascii -> bool) (s : string) : string :=
  match s with
  | EmptyString => EmptyString
  | String c s' => if p c then trim_start_chars p s' else s
  end.

Definition wanted_path (path : string) : string :=
  trim_end_chars is_slash (trim_start_chars is_slash (trim path)).

Definition target_path_matches (path : string) (file : IndexedFile.t) (exact_line : option nat) : bool :=
  let wanted := wanted_path path in
  String.eqb wanted EmptyString ||
  String.eqb file.(IndexedFile.path) wanted || String.eqb file.(IndexedFile.display_path) wanted ||
  (match exact_line with None => true | Some _ => false end &&
   (starts_under wanted file.(IndexedFile.path) || starts_under wanted file.(IndexedFile.display_path))).

Definition seed_target (request : ImpactAnalysisRequest.t) : ImpactTarget.t :=
  ImpactTarget.Mk request.(ImpactAnalysisRequest.symbol) request.(ImpactAnalysisRequest.path) None
    request.(ImpactAnalysisRequest.language) request.(ImpactAnalysisRequest.kind).

Definition target_from_node (node : ImpactSymbol.t) : ImpactTarget.t :=
  ImpactTarget.Mk node.(ImpactSymbol.symbol) (Some node.(ImpactSymbol.path))
    (Some node.(ImpactSymbol.line)) (Some node.(ImpactSymbol.language)) (Some node.(ImpactSymbol.kind)).

Definition target_matches_ambiguity_scope (target : ImpactTarget.t) (file : IndexedFile.t)
    (symbol : CodeSymbol.t) : bool :=
  String.eqb symbol.(CodeSymbol.name) target.(ImpactTarget.name) &&
  language_matches target.(ImpactTarget.language) file.(IndexedFile.language) &&
  is_none_or target.(ImpactTarget.kind) (fun kind => eq_ignore_ascii_case kind symbol.(CodeSymbol.kind)).

Definition target_matches_definition (target : ImpactTarget.t) (file : IndexedFile.t)
    (symbol : CodeSymbol.t) : bool :=
  String.eqb symbol.(CodeSymbol.name) target.(ImpactTarget.name) &&
  language_matches target.(ImpactTarget.language) file.(IndexedFile.language) &&
  is_none_or target.(ImpactTarget.kind) (fun kind => eq_ignore_ascii_case kind symbol.(CodeSymbol.kind)) &&
  is_none_or target.(ImpactTarget.line) (fun line => symbol.(CodeSymbol.line) =? line) &&
  is_none_or target.(ImpactTarget.path)
    (fun path => target_path_matches path file target.(ImpactTarget.line)).

Definition is_self_target (file : IndexedFile.t) (symbol : CodeSymbol.t) (target : ImpactTarget.t) : bool :=
  match target.(ImpactTarget.path), target.(ImpactTarget.line) with
  | Some path, Some line => String.eqb file.(IndexedFile.path) path && (symbol.(CodeSymbol.line) =? line)
  | _, _ => false
  end.

Definition node_key (node : ImpactSymbol.t) : ImpactKey :=
  (node.(ImpactSymbol.symbol), (node.(ImpactSymbol.path), node.(ImpactSymbol.line))).
Definition target_key (target : ImpactTarget.t) : TargetKey :=
  (target.(ImpactTarget.name), (target.(ImpactTarget.path), target.(ImpactTarget.line))).

Definition target_definition_file_indexes (files : list IndexedFile.t) (target : ImpactTarget.t)
    : gset nat :=
  list_to_set (omap (fun '(idx, file) =>
    if existsb (target_matches_definition target file) file.(IndexedFile.symbols)
    then Some idx else None) (imap pair files)).

Definition count_ambiguous_definitions (files : list IndexedFile.t) (target : ImpactTarget.t) : nat :=
  sum_list (map (fun file =>
    length (List.filter (target_matches_ambiguity_scope target file) file.(IndexedFile.symbols))) files).

Definition impact_symbol (file : IndexedFile.t) (caller : CodeSymbol.t) (reference : CodeReference.t)
    (depth : nat) (via_symbol : string) (confidence : Confidence.t) : ImpactSymbol.t :=
  ImpactSymbol.Mk caller.(CodeSymbol.name) file.(IndexedFile.path) file.(IndexedFile.display_path)
    caller.(CodeSymbol.line) caller.(CodeSymbol.column) caller.(CodeSymbol.kind)
    file.(IndexedFile.language) depth via_symbol
    reference.(CodeReference.line) reference.(CodeReference.column) reference.(CodeReference.kind)
    confidence (line file caller.(CodeSymbol.line)).

Definition collect_file_dependents (file : IndexedFile.t) (request : ImpactAnalysisRequest.t)
    (target : ImpactTarget.t) (confidence : Confidence.t) (depth : nat) : list ImpactSymbol.t :=
  omap (fun reference =>
    if CodeReference.has_embedded_language reference ||
       negb (String.eqb reference.(CodeReference.name) target.(ImpactTarget.name)) then None
    else if negb (language_matches request.(ImpactAnalysisRequest.language)
             (CodeReference.effective_language reference file.(IndexedFile.language))) then None
    else if request.(ImpactAnalysisRequest.confident_only) && is_low confidence then None
    else
      match enclosing_symbol file reference.(CodeReference.line) with
      | None => None
      | Some caller =>
          if is_self_target file caller target then None
          else Some (impact_symbol file caller reference depth target.(ImpactTarget.name) confidence)
      end) file.(IndexedFile.references).

Definition collect_dependents (files : list IndexedFile.t) (request : ImpactAnalysisRequest.t)
    (target : ImpactTarget.t) (depth : nat) (seed_keys : gset ImpactKey) : list ImpactSymbol.t :=
  let def_files := target_definition_file_indexes files target in
  if bool_decide (def_files = ∅) then []
  else
    let unambiguous := count_ambiguous_definitions files target <=? 1 in
    flat_map (fun '(idx, file) =>
      let confidence := reference_confidence files idx file def_files unambiguous in
      List.filter (fun node => negb (bool_decide (node_key node ∈ seed_keys)))
        (collect_file_dependents file request target confidence depth)) (imap pair files).

Definition impact_order (n : ImpactSymbol.t) : nat * (string * (nat * (string * nat))) :=
  (n.(ImpactSymbol.depth), (n.(ImpactSymbol.display_path), (n.(ImpactSymbol.line),
    (n.(ImpactSymbol.symbol), n.(ImpactSymbol.reference_line))))).

Definition impact_leb : nat * (string * (nat * (string * nat))) ->
    nat * (string * (nat * (string * nat))) -> bool :=
  lex_leb Nat.leb (lex_leb string_leb (lex_leb Nat.leb (lex_leb string_leb Nat.leb))).

Definition sort_impacts : list ImpactSymbol.t -> list ImpactSymbol.t := sort_on impact_leb impact_order.

(** One dependent: recorded and queued unless its key was seen. *)
Definition impact_node (max_depth : nat) (s : Search.t) (node : ImpactSymbol.t) : Search.t :=
  if bool_decide (node_key node ∈ s.(Search.seen)) then s
  else
    Search.Mk
      (if node.(ImpactSymbol.depth) <? max_depth
       then s.(Search.queue) ++ [(target_from_node node, node.(ImpactSymbol.depth))]
       else s.(Search.queue))
      s.(Search.visited) ({[node_key node]} ∪ s.(Search.seen)) (s.(Search.impacted) ++ [node]).

(** The loop's body on a target taken from the queue. *)
Definition impact_turn (files : list IndexedFile.t) (request : ImpactAnalysisRequest.t)
    (max_depth : nat) (seed_keys : gset ImpactKey) (target : ImpactTarget.t) (depth : nat)
    (s : Search.t) : Search.t :=
  if bool_decide (target_key target ∈ s.(Search.visited)) then s
  else
    let s := Search.Mk s.(Search.queue) ({[target_key target]} ∪ s.(Search.visited))
               s.(Search.seen) s.(Search.impacted) in
    if max_depth <=? depth then s
    else
      fold_left (impact_node max_depth)
        (sort_impacts (collect_dependents files request target (depth + 1) seed_keys)) s.

Fixpoint impact_loop (fuel : nat) (files : list IndexedFile.t) (request : ImpactAnalysisRequest.t)
    (max_depth : nat) (seed_keys : gset ImpactKey) (s : Search.t) : Op Search.t :=
  match fuel, s.(Search.queue) with
  | S fuel, (target, depth) :: queue =>
      do! _ := check_cancelled cancelled in
      impact_loop fuel files request max_depth seed_keys
        (impact_turn files request max_depth seed_keys target depth
           (Search.Mk queue s.(Search.visited) s.(Search.seen) s.(Search.impacted)))
  | _, _ => ret s
  end.

(** Every target but the seed is a symbol of the files. *)
Definition impact_fuel (files : list IndexedFile.t) : nat :=
  S (sum_list (map (fun file => length file.(IndexedFile.symbols)) files)).

Definition impact_bfs (files : list IndexedFile.t) (request : ImpactAnalysisRequest.t)
    (max_depth : nat) (seed_keys : gset ImpactKey) : Op (list ImpactSymbol.t) :=
  do! s := impact_loop (impact_fuel files) files request max_depth seed_keys
             (Search.Mk [(seed_target request, 0)] ∅ seed_keys []) in
  ret (sort_impacts s.(Search.impacted)).

Definition seed_definitions (files : list IndexedFile.t) (request : ImpactAnalysisRequest.t)
    : list SymbolLocation.t :=
  sort_locations
    (flat_map (fun file =>
       map (symbol_location file)
         (List.filter (target_matches_definition (seed_target request) file) file.(IndexedFile.symbols)))
       files).

Definition impact_keys_from_definitions (definitions : list SymbolLocation.t) (symbol : string)
    : gset ImpactKey :=
  list_to_set (map (fun d => (symbol, (d.(SymbolLocation.path), d.(SymbolLocation.line)))) definitions).

Definition impact_note (total : nat) : string :=
  if total =? 0 then "no impacted enclosing symbols found; " +:+ NAV_NOTE
  else "bounded reverse dependency graph over enclosing symbols; " +:+ NAV_NOTE.

Definition analyze_impact (files : list IndexedFile.t) (request : ImpactAnalysisRequest.t)
    : Op ImpactAnalysisResponse.t :=
  let max_depth := request.(ImpactAnalysisRequest.max_depth) `max` 1 in
  let max_results := request.(ImpactAnalysisRequest.max_results) `max` 1 in
  let definitions := seed_definitions files request in
  let seed_keys := impact_keys_from_definitions definitions request.(ImpactAnalysisRequest.symbol) in
  do! impacted := impact_bfs files request max_depth seed_keys in
  let total := length impacted in
  ret (ImpactAnalysisResponse.Mk request.(ImpactAnalysisRequest.symbol) definitions
         (take max_results impacted) total (max_results <? total) max_depth (impact_note total)).

(** * [trace_path.rs] *)

Definition TRACE_OUTGOING_CAP : nat := 100.
Definition TRACE_VISITED_CAP : nat := 2000.

Definition TRACE_NOTE : string :=
  "Shortest outgoing call chain from `from` to `to`, by breadth-first search over name-resolved callees (the same best-effort matching as call_hierarchy; not a scope/type resolver). Bounded by max_depth and an internal exploration cap.".

Definition first_definition (files : list IndexedFile.t) (name : string) (language : option string)
    : option PathStep.t :=
  (fun location =>
     PathStep.Mk name location.(SymbolLocation.display_path) location.(SymbolLocation.line)) <$>
  head (goto_definition files (NavigateRequest.Mk name language false false 1))
    .(DefinitionResponse.definitions).

Definition step_of (edge : CallEdge.t) : PathStep.t :=
  PathStep.Mk edge.(CallEdge.symbol) edge.(CallEdge.display_path) edge.(CallEdge.line).

(** From [to] up to [from], at most [fuel] steps. *)
Fixpoint climb (fuel : nat) (from current : string) (parent : Parents) : list PathStep.t :=
  match fuel with
  | 0 => []
  | S fuel =>
      if String.eqb current from then []
      else
        match parent !! current with
        | None => []
        | Some (parent_name, step) => step :: climb fuel from parent_name parent
        end
  end.

(** A chain has at most [max_depth] edges. *)
Definition reconstruct (max_depth : nat) (from to : string) (parent : Parents) (from_step : PathStep.t)
    : list PathStep.t :=
  rev (climb (S max_depth) from to parent ++ [from_step]).

Definition found_response (request : TracePathRequest.t) (path : list PathStep.t) : TracePathResponse.t :=
  TracePathResponse.Mk request.(TracePathRequest.from) request.(TracePathRequest.to) true
    request.(TracePathRequest.max_depth) path TRACE_NOTE.

Definition empty_trace_response (request : TracePathRequest.t) : TracePathResponse.t :=
  TracePathResponse.Mk request.(TracePathRequest.from) request.(TracePathRequest.to) false
    request.(TracePathRequest.max_depth) [] TRACE_NOTE.

(** The edges of an expanded node: the chain found, or the state after them. *)
Fixpoint trace_edges (to name : string) (depth : nat) (edges : list CallEdge.t) (s : Trace.t)
    : Parents + Trace.t :=
  match edges with
  | [] => inr s
  | edge :: edges =>
      let callee := edge.(CallEdge.symbol) in
      if String.eqb callee to then inl (<[callee := (name, step_of edge)]> s.(Trace.parent))
      else if bool_decide (callee ∈ s.(Trace.visited)) then trace_edges to name depth edges s
      else
        trace_edges to name depth edges
          (Trace.Mk ({[callee]} ∪ s.(Trace.visited))
             (<[callee := (name, step_of edge)]> s.(Trace.parent))
             (s.(Trace.queue) ++ [(callee, depth + 1)]))
  end.

Definition callees (files : list IndexedFile.t) (request : TracePathRequest.t) (name : string)
    : Op (list CallEdge.t) :=
  do! hierarchy := call_hierarchy files
    (CallHierarchyRequest.Mk name CallDirection.Outgoing request.(TracePathRequest.language)
       TRACE_OUTGOING_CAP) in
  ret hierarchy.(CallHierarchyResponse.outgoing).

Fixpoint trace_loop (fuel : nat) (files : list IndexedFile.t) (request : TracePathRequest.t)
    (s : Trace.t) : Op (option Parents) :=
  match fuel, s.(Trace.queue) with
  | S fuel, (name, depth) :: queue =>
      do! _ := check_cancelled cancelled in
      let s := Trace.Mk s.(Trace.visited) s.(Trace.parent) queue in
      if (request.(TracePathRequest.max_depth) <=? depth) ||
         (TRACE_VISITED_CAP <? size s.(Trace.visited))
      then trace_loop fuel files request s
      else
        do! edges := callees files request name in
        match trace_edges request.(TracePathRequest.to) name depth edges s with
        | inl parent => ret (Some parent)
        | inr s => trace_loop fuel files request s
        end
  | _, _ => ret None
  end.

(** Every queued name but the first is the name of a definition. *)
Definition trace_fuel (files : list IndexedFile.t) : nat :=
  S (sum_list (map (fun file => length file.(IndexedFile.symbols)) files)).

Definition trace_path (files : list IndexedFile.t) (request : TracePathRequest.t)
    : Op TracePathResponse.t :=
  match first_definition files request.(TracePathRequest.from) request.(TracePathRequest.language) with
  | None => ret (empty_trace_response request)
  | Some from_step =>
      if String.eqb request.(TracePathRequest.from) request.(TracePathRequest.to)
      then ret (found_response request [from_step])
      else
        do! outcome := trace_loop (trace_fuel files) files request
          (Trace.Mk {[request.(TracePathRequest.from)]} ∅ [(request.(TracePathRequest.from), 0)]) in
        ret (match outcome with
             | None => empty_trace_response request
             | Some parent =>
                 found_response request
                   (reconstruct request.(TracePathRequest.max_depth) request.(TracePathRequest.from)
                      request.(TracePathRequest.to) parent from_step)
             end)
  end.

(** * [referencing_symbols.rs] *)

Definition referencing_in_scope (request : FindReferencingSymbolsRequest.t) (file : IndexedFile.t)
    (symbol : CodeSymbol.t) : bool :=
  String.eqb symbol.(CodeSymbol.name) request.(FindReferencingSymbolsRequest.symbol) &&
  language_matches request.(FindReferencingSymbolsRequest.language) file.(IndexedFile.language) &&
  is_none_or request.(FindReferencingSymbolsRequest.kind)
    (fun kind => eq_ignore_ascii_case kind symbol.(CodeSymbol.kind)).

Definition referencing_matches (request : FindReferencingSymbolsRequest.t) (file : IndexedFile.t)
    (symbol : CodeSymbol.t) : bool :=
  referencing_in_scope request file symbol &&
  is_none_or request.(FindReferencingSymbolsRequest.path)
    (fun path => target_path_matches path file None).

Definition referencing_file_indexes (files : list IndexedFile.t)
    (request : FindReferencingSymbolsRequest.t) : gset nat :=
  list_to_set (omap (fun '(idx, file) =>
    if existsb (referencing_matches request file) file.(IndexedFile.symbols)
    then Some idx else None) (imap pair files)).

Definition ambiguous_definition_count (files : list IndexedFile.t)
    (request : FindReferencingSymbolsRequest.t) : nat :=
  sum_list (map (fun file =>
    length (List.filter (referencing_in_scope request file) file.(IndexedFile.symbols))) files).

Definition target_definitions (files : list IndexedFile.t) (request : FindReferencingSymbolsRequest.t)
    : list SymbolLocation.t :=
  sort_locations
    (flat_map (fun file =>
       map (symbol_location file)
         (List.filter (referencing_matches request file) file.(IndexedFile.symbols))) files).

Definition reference_context (file : IndexedFile.t) (line context_lines : nat) : option string :=
  if context_lines =? 0 then None
  else
    match source file with
    | None => None
    | Some source =>
        let lines := str_lines source in
        let total := length lines in
        let start := (line - context_lines) `max` 1 in
        let end_ := (line + context_lines) `min` total in
        if (total =? 0) || (end_ <? start) then None
        else
          let out :=
            concat_str
              (map (fun '(idx, text) => show_nat (idx + 1) +:+ ": " +:+ text +:+ nl)
                 (take (end_ - start + 1) (drop (start - 1) (imap pair lines)))) in
          if String.eqb out EmptyString then None else Some out
    end.

Definition referencing_symbol (file : IndexedFile.t) (symbol : CodeSymbol.t)
    (reference : CodeReference.t) (context_lines : nat) (confidence : Confidence.t)
    : ReferencingSymbol.t :=
  ReferencingSymbol.Mk symbol.(CodeSymbol.name) file.(IndexedFile.path) file.(IndexedFile.display_path)
    symbol.(CodeSymbol.line) symbol.(CodeSymbol.column) symbol.(CodeSymbol.kind)
    file.(IndexedFile.language) reference.(CodeReference.line) reference.(CodeReference.column)
    reference.(CodeReference.kind) confidence
    (line file symbol.(CodeSymbol.line)) (line file reference.(CodeReference.line))
    (reference_context file reference.(CodeReference.line) context_lines).

Definition collect_file_referencing_symbols (file : IndexedFile.t)
    (request : FindReferencingSymbolsRequest.t) (confidence : Confidence.t) (context_lines : nat)
    : list ReferencingSymbol.t :=
  omap (fun reference =>
    if CodeReference.has_embedded_language reference ||
       negb (String.eqb reference.(CodeReference.name) request.(FindReferencingSymbolsRequest.symbol))
    then None
    else if negb (language_matches request.(FindReferencingSymbolsRequest.language)
             (CodeReference.effective_language reference file.(IndexedFile.language))) then None
    else if request.(FindReferencingSymbolsRequest.confident_only) && is_low confidence then None
    else
      (fun enclosing => referencing_symbol file enclosing reference context_lines confidence) <$>
        enclosing_symbol file reference.(CodeReference.line)) file.(IndexedFile.references).

Definition collect_referencing_symbols (files : list IndexedFile.t)
    (request : FindReferencingSymbolsRequest.t) (unambiguous : bool) (context_lines : nat)
    : list ReferencingSymbol.t :=
  let def_files := referencing_file_indexes files request in
  if bool_decide (def_files = ∅) then []
  else
    flat_map (fun '(idx, file) =>
      collect_file_referencing_symbols file request
        (reference_confidence files idx file def_files unambiguous) context_lines) (imap pair files).

Definition referencing_order (r : ReferencingSymbol.t) : string * (nat * (string * (nat * nat))) :=
  (r.(ReferencingSymbol.display_path), (r.(ReferencingSymbol.line), (r.(ReferencingSymbol.symbol),
    (r.(ReferencingSymbol.reference_line), r.(ReferencingSymbol.reference_column))))).

(** [ReferencingKey]. *)
Definition referencing_key (r : ReferencingSymbol.t) : string * (nat * (nat * (nat * string))) :=
  (r.(ReferencingSymbol.display_path), (r.(ReferencingSymbol.line),
    (r.(ReferencingSymbol.reference_line), (r.(ReferencingSymbol.reference_column),
      r.(ReferencingSymbol.symbol))))).

Definition referencing_note (total : nat) : string :=
  if total =? 0 then "no enclosing symbols reference the target; " +:+ NAV_NOTE
  else "enclosing symbols that reference the target, with reference context; " +:+ NAV_NOTE.

Definition find_referencing_symbols (files : list IndexedFile.t)
    (request : FindReferencingSymbolsRequest.t) : FindReferencingSymbolsResponse.t :=
  let definition_count := ambiguous_definition_count files request in
  let context_lines := request.(FindReferencingSymbolsRequest.context_lines) `min` 5 in
  let referencing :=
    dedup_by_key referencing_key
      (sort_on (lex_leb string_leb (lex_leb Nat.leb (lex_leb string_leb (lex_leb Nat.leb Nat.leb))))
         referencing_order
         (collect_referencing_symbols files request (definition_count <=? 1) context_lines)) in
  let max_results := request.(FindReferencingSymbolsRequest.max_results) `max` 1 in
  let total := length referencing in
  FindReferencingSymbolsResponse.Mk request.(FindReferencingSymbolsRequest.symbol)
    (target_definitions files request) (take max_results referencing) definition_count total
    (max_results <? total) context_lines (referencing_note total).

(** * [read_symbol.rs] *)

Definition path_matches (path : string) (file : IndexedFile.t) : bool :=
  let wanted := wanted_path path in
  String.eqb wanted EmptyString ||
  String.eqb file.(IndexedFile.path) wanted || String.eqb file.(IndexedFile.display_path) wanted ||
  starts_under wanted file.(IndexedFile.path) || starts_under wanted file.(IndexedFile.display_path).

Definition file_matches (request : ReadSymbolRequest.t) (file : IndexedFile.t) : bool :=
  language_matches request.(ReadSymbolRequest.language) file.(IndexedFile.language) &&
  is_none_or request.(ReadSymbolRequest.path) (fun path => path_matches path file).

Definition symbol_matches (request : ReadSymbolRequest.t) (symbol : CodeSymbol.t) : bool :=
  String.eqb symbol.(CodeSymbol.name) request.(ReadSymbolRequest.symbol) &&
  is_none_or request.(ReadSymbolRequest.kind)
    (fun kind => eq_ignore_ascii_case kind symbol.(CodeSymbol.kind)).

(** A match with the file it is in. *)
Definition PendingSymbolRead : Type := SymbolLocation.t * IndexedFile.t.

Fixpoint collect_matches (files : list IndexedFile.t) (request : ReadSymbolRequest.t)
    : Op (list PendingSymbolRead) :=
  match files with
  | [] => ret []
  | file :: files =>
      do! _ := check_cancelled cancelled in
      do! rest := collect_matches files request in
      ret ((if file_matches request file then
              map (fun symbol => (symbol_location file symbol, file))
                (List.filter (symbol_matches request) file.(IndexedFile.symbols))
            else []) ++ rest)
  end.

Definition clamp_span (span : nat * nat) (total_lines : nat) : nat * nat :=
  let first := (span.1 `max` 1) `min` (total_lines `max` 1) in
  (first, (span.2 `max` first) `min` (total_lines `max` first)).

Definition symbol_span (path source : string) (line : nat) : nat * nat :=
  let total_lines := length (split_inclusive source) `max` 1 in
  let span :=
    match block_span provider path source line with
    | Some (first, last) => if first <=? last then Some (first, last) else None
    | None => None
    end in
  let span :=
    match span with
    | Some span => span
    | None =>
        match containing_block_span provider path source line line with
        | inl (Some span) => span
        | _ => (line, line)
        end
    end in
  clamp_span span total_lines.

Definition content_for_span (source : string) (span : nat * nat) : string :=
  match split_inclusive source with
  | [] => EmptyString
  | lines => concat_str (drop (span.1 - 1) (take span.2 lines))
  end.

Definition symbol_body (pending : PendingSymbolRead) : option ReadSymbolBody.t :=
  let '(location, file) := pending in
  (fun source =>
     let span := symbol_span location.(SymbolLocation.path) source location.(SymbolLocation.line) in
     ReadSymbolBody.Mk location.(SymbolLocation.path) location.(SymbolLocation.display_path)
       span.1 span.2 location.(SymbolLocation.kind) location.(SymbolLocation.language)
       location.(SymbolLocation.signature) (content_for_span source span)) <$> source file.

Definition read_symbol_note (total : nat) (truncated : bool) (max_matches : nat) : string :=
  if total =? 1 then NAV_NOTE
  else
    (if total =? 0 then "no matching symbol definition found"
     else "ambiguous symbol definition; refine with path, language, or kind") +:+
    (if truncated
     then "; showing " +:+ show_nat max_matches +:+ " of " +:+ show_nat total +:+ " matches"
     else EmptyString) +:+ "; " +:+ NAV_NOTE.

(** [Ord] of [Option]: none first. *)
Definition option_leb {A} (leb : A -> A -> bool) (a b : option A) : bool :=
  match a, b with
  | None, _ => true
  | Some _, None => false
  | Some a, Some b => leb a b
  end.

Definition match_order (p : PendingSymbolRead) : string * (nat * (string * option string)) :=
  let l := p.1 in
  (l.(SymbolLocation.display_path), (l.(SymbolLocation.line), (l.(SymbolLocation.kind),
    l.(SymbolLocation.signature)))).

Definition read_symbol (files : list IndexedFile.t) (request : ReadSymbolRequest.t)
    : Op ReadSymbolResponse.t :=
  do! matches := collect_matches files request in
  let matches :=
    sort_on (lex_leb string_leb (lex_leb Nat.leb (lex_leb string_leb (option_leb string_leb))))
      match_order matches in
  let total := length matches in
  let max_matches := request.(ReadSymbolRequest.max_matches) `max` 1 in
  let truncated := max_matches <? total in
  let matches := take max_matches matches in
  let body :=
    if request.(ReadSymbolRequest.include_body) && (total =? 1)
    then match matches with pending :: _ => symbol_body pending | [] => None end
    else None in
  ret (ReadSymbolResponse.Mk request.(ReadSymbolRequest.symbol) body (map fst matches) total truncated
         (read_symbol_note total truncated max_matches)).

(** * [symbol_search.rs] *)

Definition NAME_WEIGHT : nat := 80.
Definition KIND_WEIGHT : nat := 24.
Definition SIGNATURE_WEIGHT : nat := 16.
Definition MEMBER_WEIGHT : nat := 10.
Definition MEMBER_SIGNATURE_WEIGHT : nat := 4.
Definition PATH_WEIGHT : nat := 4.

Definition in_range (lo hi : nat) (c : ascii) : bool :=
  let n := Ascii.nat_of_ascii c in (lo <=? n) && (n <=? hi).
Definition is_ascii_uppercase : ascii -> bool := in_range 65 90.
Definition is_ascii_lowercase : ascii -> bool := in_range 97 122.
Definition is_ascii_digit : ascii -> bool := in_range 48 57.
Definition is_ascii_alphabetic (c : ascii) : bool := is_ascii_uppercase c || is_ascii_lowercase c.
Definition is_ascii_alphanumeric (c : ascii) : bool := is_ascii_alphabetic c || is_ascii_digit c.

(** [split] on the characters outside an ASCII set: the bytes that continue a character are part of
    the separator its first byte is. *)
Fixpoint split_outside (keep : ascii -> bool) (current s : string) : list string :=
  match s with
  | EmptyString => [current]
  | String c s =>
      if keep c then split_outside keep (current +:+ String c EmptyString) s
      else if utf8_continuation c then split_outside keep current s
      else current :: split_outside keep EmptyString s
  end.

(** Keeps the first of equal elements, as a filter through [seen.insert]. *)
Fixpoint first_seen (seen : gset string) (l : list string) : list string :=
  match l with
  | [] => []
  | x :: l =>
      if bool_decide (x ∈ seen) then first_seen seen l else x :: first_seen ({[x]} ∪ seen) l
  end.

Definition query_terms (query : string) : list string :=
  first_seen ∅
    (map lower
       (List.filter nonempty (map trim (split_outside is_ascii_alphanumeric EmptyString query)))).

Definition push_term (terms : list string) (current : string) : list string :=
  if String.eqb current EmptyString then terms else terms ++ [current].

(** The words of an identifier: camel case, digits and capitals in a row. *)
Fixpoint field_terms_from (field : string) (terms : list string) (current : string)
    (prev_lower_or_digit prev_upper : bool) : list string :=
  match field with
  | EmptyString => push_term terms current
  | String ch rest =>
      if negb (is_ascii_alphanumeric ch)
      then field_terms_from rest (push_term terms current) EmptyString false false
      else
        let next_lower :=
          match rest with String next _ => is_ascii_lowercase next | EmptyString => false end in
        let breaks := is_ascii_uppercase ch && (prev_lower_or_digit || (prev_upper && next_lower)) in
        field_terms_from rest (if breaks then push_term terms current else terms)
          ((if breaks then EmptyString else current) +:+ String (ascii_lower ch) EmptyString)
          (is_ascii_lowercase ch || is_ascii_digit ch) (is_ascii_uppercase ch)
  end.

Definition field_terms (field : string) : list string := field_terms_from field [] EmptyString false false.

Definition field_score (term field : string) (weight : nat) : nat :=
  let low := lower field in
  if String.eqb low term then weight * 4
  else
    let tokens := field_terms field in
    if existsb (fun token => String.eqb token term) tokens then weight * 2
    else if (2 <=? String.length term) && existsb (starts_with term) tokens then weight
    else if (2 <=? String.length term) && contains_str term low then weight / 2
    else 0.

Definition optional_score (term : string) (field : option string) (weight : nat) : nat :=
  match field with Some field => field_score term field weight | None => 0 end.

Definition score_term (term : string) (file : IndexedFile.t) (symbol : CodeSymbol.t) : nat :=
  field_score term symbol.(CodeSymbol.name) NAME_WEIGHT +
  field_score term symbol.(CodeSymbol.kind) KIND_WEIGHT +
  field_score term file.(IndexedFile.display_path) PATH_WEIGHT +
  field_score term file.(IndexedFile.path) PATH_WEIGHT +
  optional_score term symbol.(CodeSymbol.signature) SIGNATURE_WEIGHT +
  sum_list (map (fun member =>
    field_score term member.(CodeMember.name) MEMBER_WEIGHT +
    optional_score term member.(CodeMember.signature) MEMBER_SIGNATURE_WEIGHT)
    symbol.(CodeSymbol.members)).

Definition score_symbol (terms : list string) (file : IndexedFile.t) (symbol : CodeSymbol.t)
    : option (nat * list string) :=
  let scores := map (fun term => (term, score_term term file symbol)) terms in
  let matched := List.filter (fun '(_, score) => 0 <? score) scores in
  if length matched =? length terms
  then Some (sum_list (map snd matched), map fst matched) else None.

Definition kind_matches (filter : option string) (kind : string) : bool :=
  is_none_or filter (fun wanted => eq_ignore_ascii_case wanted kind).

Definition search_match (file : IndexedFile.t) (symbol : CodeSymbol.t) (score : nat)
    (matched_terms : list string) (text : option string) : SymbolSearchMatch.t :=
  SymbolSearchMatch.Mk symbol.(CodeSymbol.name) file.(IndexedFile.path) file.(IndexedFile.display_path)
    symbol.(CodeSymbol.line) symbol.(CodeSymbol.kind) file.(IndexedFile.language) score
    symbol.(CodeSymbol.signature) text matched_terms.

(** [PendingSymbolMatch]. *)
Definition PendingSymbolMatch : Type := SymbolSearchMatch.t * IndexedFile.t.

Fixpoint search_files (files : list IndexedFile.t) (request : SymbolSearchRequest.t)
    (terms : list string) : Op (list PendingSymbolMatch) :=
  match files with
  | [] => ret []
  | file :: files =>
      do! _ := check_cancelled cancelled in
      do! rest := search_files files request terms in
      ret ((if language_matches request.(SymbolSearchRequest.language) file.(IndexedFile.language)
            then
              omap (fun symbol =>
                if negb (kind_matches request.(SymbolSearchRequest.kind) symbol.(CodeSymbol.kind))
                then None
                else
                  (fun '(score, matched) => (search_match file symbol score matched None, file)) <$>
                    score_symbol terms file symbol) file.(IndexedFile.symbols)
            else []) ++ rest)
  end.

Definition search_order (p : PendingSymbolMatch) : nat * (string * (nat * (string * string))) :=
  let m := p.1 in
  (m.(SymbolSearchMatch.score), (m.(SymbolSearchMatch.display_path), (m.(SymbolSearchMatch.line),
    (m.(SymbolSearchMatch.kind), m.(SymbolSearchMatch.name))))).

Definition fill_match_text (p : PendingSymbolMatch) : SymbolSearchMatch.t :=
  let '(m, file) := p in
  SymbolSearchMatch.Mk m.(SymbolSearchMatch.name) m.(SymbolSearchMatch.path)
    m.(SymbolSearchMatch.display_path) m.(SymbolSearchMatch.line) m.(SymbolSearchMatch.kind)
    m.(SymbolSearchMatch.language) m.(SymbolSearchMatch.score) m.(SymbolSearchMatch.signature)
    (line file m.(SymbolSearchMatch.line)) m.(SymbolSearchMatch.matched_terms).

Definition symbol_search (files : list IndexedFile.t) (request : SymbolSearchRequest.t)
    : Op SymbolSearchResponse.t :=
  let terms := query_terms request.(SymbolSearchRequest.query) in
  match terms with
  | [] =>
      ret (SymbolSearchResponse.Mk request.(SymbolSearchRequest.query) [] 0 false NAV_NOTE)
  | _ =>
      do! matches := search_files files request terms in
      let matches :=
        sort_on (lex_leb (fun a b => b <=? a)
                   (lex_leb string_leb (lex_leb Nat.leb (lex_leb string_leb string_leb))))
          search_order matches in
      let total := length matches in
      ret (SymbolSearchResponse.Mk request.(SymbolSearchRequest.query)
             (map fill_match_text (take request.(SymbolSearchRequest.max_results) matches)) total
             (request.(SymbolSearchRequest.max_results) <? total) NAV_NOTE)
  end.

End navigate.
