(* ===== verification/NavigateSpec.v ===== *)
(** What navigation promises: a traced path is a shortest chain of the calls it follows, the impact of a change is
    closed under dependents, the inverted index answers as a scan of the files would, a symbol's body
    stays in its file. *)
From stdpp Require Import gmap strings.
From Stdlib Require Import Sorting.Sorted.
From S2P Require Import Prelude Text EditText Paths CodeGraph Disk Navigate.
Open Scope nerve_scope.

(** * The maps by name *)

Section group.
Context {F A B : Type} (key : A -> string) (items : F -> list A) (val : F -> A -> B).

Definition group_push (f : F) (m : gmap string (list B)) (x : A) : gmap string (list B) :=
  <[key x := default [] (m !! key x) ++ [val f x]]> m.

Lemma group_items f l m n :
  default [] (fold_left (group_push f) l m !! n) =
  default [] (m !! n) ++ map (val f) (List.filter (fun x => String.eqb (key x) n) l).
Proof.
  revert m. induction l as [|x l IH]; intros m; cbn; [by rewrite app_nil_r|].
  rewrite IH. unfold group_push. destruct (String.eqb_spec (key x) n) as [<-|N].
  - rewrite lookup_insert_eq. cbn. by rewrite <- app_assoc.
  - by rewrite lookup_insert_ne.
Qed.

Lemma group_files fs m n :
  default [] (fold_left (fun m f => fold_left (group_push f) (items f) m) fs m !! n) =
  default [] (m !! n) ++
  flat_map (fun f => map (val f) (List.filter (fun x => String.eqb (key x) n) (items f))) fs.
Proof.
  revert m. induction fs as [|f fs IH]; intros m; cbn; [by rewrite app_nil_r|].
  rewrite IH, group_items. by rewrite <- app_assoc.
Qed.
End group.

Definition named (name : string) (symbol : CodeSymbol.t) : bool :=
  String.eqb symbol.(CodeSymbol.name) name.

Lemma definitions_by_name_lookup files name :
  default [] (definitions_by_name files !! name) =
  flat_map (fun file => map (pair file) (List.filter (named name) file.(IndexedFile.symbols))) files.
Proof.
  pose proof (group_files CodeSymbol.name IndexedFile.symbols (fun file symbol => (file, symbol)) files ∅
    name) as G.
  by rewrite lookup_empty in G.
Qed.

Lemma occurrences_scan files name :
  DefinitionNameIndex.occurrences (DefinitionNameIndex.build files) name =
  flat_map (fun '(idx, file) =>
    map (fun _ => idx) (List.filter (named name) file.(IndexedFile.symbols))) (imap pair files).
Proof.
  unfold DefinitionNameIndex.occurrences, DefinitionNameIndex.build.
  pose proof (group_files CodeSymbol.name (fun f : nat * IndexedFile.t => f.2.(IndexedFile.symbols))
    (fun f _ => f.1) (imap pair files) ∅ name) as G.
  rewrite lookup_empty in G. cbn [default app] in G.
  assert (forall l (m : gmap string (list nat)),
    fold_left (fun by_name '(idx, file) =>
      fold_left (fun by_name symbol => DefinitionNameIndex.push symbol.(CodeSymbol.name) idx by_name)
        file.(IndexedFile.symbols) by_name) l m =
    fold_left (fun m f => fold_left
      (group_push CodeSymbol.name (fun (f : nat * IndexedFile.t) _ => f.1) f) f.2.(IndexedFile.symbols) m)
      l m) as -> by (induction l as [|[i f] l IH]; intros m; [done|]; apply IH).
  rewrite G. clear. induction (imap pair files) as [|[i f] l IH]; [done|]. cbn. by rewrite IH.
Qed.

(** * The calls of a symbol *)

Section callees.
Context (provider : Provider.t) (files : list IndexedFile.t) (language : option string).

Definition asked_for (file : IndexedFile.t) : Prop :=
  forall wanted, language = Some wanted -> wanted = file.(IndexedFile.language).

(** A symbol calls a definition when the block of one of its own, in a file of the language asked for,
    refers to the definition's name; references to the symbol's own name are left out. *)
Definition calls (name : string) (target_file : IndexedFile.t) (target : CodeSymbol.t) : Prop :=
  exists file symbol first last reference,
    In file files /\ asked_for file /\
    In symbol file.(IndexedFile.symbols) /\ symbol.(CodeSymbol.name) = name /\
    span_of provider file symbol.(CodeSymbol.line) = Some (first, last) /\
    In reference file.(IndexedFile.references) /\ first <= reference.(CodeReference.line) <= last /\
    reference.(CodeReference.name) <> name /\
    In target_file files /\ In target target_file.(IndexedFile.symbols) /\
    target.(CodeSymbol.name) = reference.(CodeReference.name).

Definition edge_to (target_file : IndexedFile.t) (target : CodeSymbol.t) (text : option string) : CallEdge.t :=
  CallEdge.Mk target.(CodeSymbol.name) target_file.(IndexedFile.path) target_file.(IndexedFile.display_path)
    target.(CodeSymbol.line) target.(CodeSymbol.column) target.(CodeSymbol.kind)
    target_file.(IndexedFile.language) text.

Definition leads_to (e : CallEdge.t) (target_file : IndexedFile.t) (target : CodeSymbol.t) : Prop :=
  e = edge_to target_file target e.(CallEdge.text).

(** By file, line, column and name. *)
Definition in_order (a b : CallEdge.t) : Prop :=
  lex_leb string_leb (lex_leb Nat.leb (lex_leb Nat.leb string_leb))
    (a.(CallEdge.display_path), (a.(CallEdge.line), (a.(CallEdge.column), a.(CallEdge.symbol))))
    (b.(CallEdge.display_path), (b.(CallEdge.line), (b.(CallEdge.column), b.(CallEdge.symbol)))) = true.

(** The first hundred definitions that a symbol calls, all of them where they are fewer. *)
Definition first_hundred (name : string) (listed : list CallEdge.t) : Prop :=
  (forall e, In e listed -> exists file target, calls name file target /\ leads_to e file target) /\
  Sorted (fun a b => in_order a b /\ a <> b) listed /\ length listed <= 100 /\
  forall file target, calls name file target ->
    (exists e, In e listed /\ leads_to e file target) \/
    length listed = 100 /\ forall e, In e listed -> in_order e (edge_to file target None).

Lemma in_fold {A B} (f : list B -> A -> list B) (P : A -> B -> Prop) l o x :
  (forall o a x, In x (f o a) <-> In x o \/ P a x) ->
  In x (fold_left f l o) <-> In x o \/ exists a, In a l /\ P a x.
Proof.
  intros H. revert o. induction l as [|a l IH]; intros o; cbn; [naive_solver|]. rewrite IH, H. naive_solver.
Qed.

Definition target_named (name : string) (e : CallEdge.t) : Prop := exists file target,
  In file files /\ In target file.(IndexedFile.symbols) /\ target.(CodeSymbol.name) = name /\
  e = edge_to file target None.

Lemma in_targets name o e :
  In e (add_outgoing_targets name (definitions_by_name files) o) <-> In e o \/ target_named name e.
Proof.
  unfold add_outgoing_targets, target_named. rewrite in_app_iff, in_map_iff, definitions_by_name_lookup.
  setoid_rewrite in_flat_map. setoid_rewrite in_map_iff. setoid_rewrite filter_In. unfold named.
  setoid_rewrite String.eqb_eq. split; (intros [?|I]; [by left|right]).
  - destruct I as ([f t] & <- & f' & If & t' & [= -> ->] & It & <-). by exists f, t.
  - destruct I as (f & t & If & It & <- & ->). exists (f, t). split; [done|].
    exists f. split; [done|]. by exists t.
Qed.

Lemma in_span file span request o e :
  In e (collect_outgoing_in_span file span request (definitions_by_name files) o) <->
  In e o \/ exists r, In r file.(IndexedFile.references) /\
    (span.1 <= r.(CodeReference.line) <= span.2 /\
     r.(CodeReference.name) <> request.(CallHierarchyRequest.symbol)) /\
    target_named r.(CodeReference.name) e.
Proof.
  unfold collect_outgoing_in_span.
  assert (forall n, n ∈ (∅ : gset string) -> forall e, target_named n e -> In e o) as S by set_solver.
  revert S. generalize (∅ : gset string) as seen. generalize (IndexedFile.references file) as l.
  intros l. revert o. induction l as [|r l IH]; intros o seen S; cbn [fold_left In]; [naive_solver|].
  destruct (Nat.ltb_spec r.(CodeReference.line) span.1) as [?|L1]; cbn [orb];
    [rewrite IH by done; clear IH S; split; [naive_solver|]; intros [?|(x & [->|?] & C & T)]; [by left|lia|];
     right; by exists x|].
  destruct (Nat.ltb_spec span.2 r.(CodeReference.line)) as [?|L2]; cbn [orb];
    [rewrite IH by done; clear IH S; split; [naive_solver|]; intros [?|(x & [->|?] & C & T)]; [by left|lia|];
     right; by exists x|].
  destruct (String.eqb_spec r.(CodeReference.name) request.(CallHierarchyRequest.symbol)) as [?|N]; cbn [orb];
    [rewrite IH by done; naive_solver|].
  case_bool_decide as V.
  - rewrite IH by done. specialize (S _ V). naive_solver.
  - rewrite IH; [rewrite in_targets; naive_solver|].
    intros n I x T. apply in_targets. apply elem_of_union in I as [->%elem_of_singleton|I]; [by right|].
    left. by eapply S.
Qed.

Lemma language_matches_iff file :
  language_matches language file.(IndexedFile.language) = true <-> asked_for file.
Proof.
  unfold language_matches, is_none_or, asked_for. destruct language as [l|]; [|naive_solver].
  rewrite String.eqb_eq. naive_solver.
Qed.

Section outgoing.
Context (name : string).
#[local] Abbreviation request := (CallHierarchyRequest.Mk name CallDirection.Outgoing language TRACE_OUTGOING_CAP).

Lemma in_outgoing e :
  In e (fold_left (fun outgoing file =>
    collect_outgoing_for_file provider file request (definitions_by_name files) outgoing) files []) <->
  exists file target, calls name file target /\ e = edge_to file target None.
Proof.
  rewrite (in_fold _ (fun file e => asked_for file /\ exists s, In s file.(IndexedFile.symbols) /\
    s.(CodeSymbol.name) = name /\ exists span, span_of provider file s.(CodeSymbol.line) = Some span /\
    exists r, In r file.(IndexedFile.references) /\
      (span.1 <= r.(CodeReference.line) <= span.2 /\ r.(CodeReference.name) <> name) /\
      target_named r.(CodeReference.name) e)).
  - unfold target_named, calls. split.
    + intros [[]|(file & I & A & s & Is & N & [x y] & Sp & r & Ir & [L M] & f & t & If & It & E & ->)].
      exists f, t. split; [|done]. by exists file, s, x, y, r.
    + intros (f & t & (file & s & x & y & r & H) & ->). right. exists file.
      destruct H as (I & A & Is & N & Sp & Ir & L & M & If & It & E). split; [done|]. split; [done|].
      exists s. split; [done|]. split; [done|]. exists (x, y). split; [done|].
      exists r. split; [done|]. split; [done|]. by exists f, t.
  - intros o file x. unfold collect_outgoing_for_file. cbn [CallHierarchyRequest.language].
    pose proof (language_matches_iff file) as LM. destruct (language_matches _ _); cbn [negb]; [|naive_solver].
    rewrite (in_fold _ (fun s e => s.(CodeSymbol.name) = name /\ exists span,
      span_of provider file s.(CodeSymbol.line) = Some span /\
      exists r, In r file.(IndexedFile.references) /\
        (span.1 <= r.(CodeReference.line) <= span.2 /\ r.(CodeReference.name) <> name) /\
        target_named r.(CodeReference.name) e)); [naive_solver|].
    intros o' s x'. cbn [CallHierarchyRequest.symbol].
    destruct (String.eqb_spec s.(CodeSymbol.name) name) as [E|?]; cbn [negb]; [|naive_solver].
    destruct (span_of _ _ _) as [span|]; [|naive_solver]. rewrite in_span. naive_solver.
Qed.

(** The edges out of the symbol, as an expansion sees them. *)
Definition edges_out : list CallEdge.t := outgoing_call_edges provider files request.

Lemma fill_text e : fill_call_edge_snippet provider files e =
  CallEdge.Mk e.(CallEdge.symbol) e.(CallEdge.path) e.(CallEdge.display_path) e.(CallEdge.line)
    e.(CallEdge.column) e.(CallEdge.kind) e.(CallEdge.language)
    (fill_call_edge_snippet provider files e).(CallEdge.text).
Proof. unfold fill_call_edge_snippet. destruct (List.find _ _); [done|by destruct e]. Qed.

Lemma fill_leads e file target : leads_to (fill_call_edge_snippet provider files e) file target <->
  leads_to e file target.
Proof.
  unfold leads_to, edge_to. rewrite fill_text. destruct e. cbn. split; intros [=]; by subst.
Qed.

Lemma fill_in_order a b : in_order a b -> in_order (fill_call_edge_snippet provider files a) (fill_call_edge_snippet provider files b).
Proof. rewrite (fill_text a), (fill_text b). done. Qed.

Lemma fill_in_order_l a b : in_order a b -> in_order (fill_call_edge_snippet provider files a) b.
Proof. rewrite (fill_text a). done. Qed.

Lemma edges_out_listed : first_hundred name edges_out.
Proof.
  unfold edges_out, outgoing_call_edges, finalize_call_edges. cbn [CallHierarchyRequest.max_results].
  change TRACE_OUTGOING_CAP with 100 at 2.
  set (raw := fold_left _ files []).
  assert (forall e, In e raw <-> exists file target, calls name file target /\ e = edge_to file target None) as R
    by (intros; apply in_outgoing).
  set (sorted := sort_on _ call_edge_key raw).
  pose proof (dedup_sorted in_order sorted (sort_on_sorted _ _ _)) as DS.
  assert (forall e, In e (dedup_by_key id sorted) <-> In e raw) as D
    by (intros e; unfold sorted; by rewrite in_dedup_id, in_sort_on).
  assert (StronglySorted in_order (dedup_by_key id sorted)) as SS.
  { apply Sorted_StronglySorted; [intros x y z; apply leb_trans|].
    rewrite <- (map_id (dedup_by_key _ _)). eapply sorted_map; [|exact DS]. by intros ? ? _ _ []. }
  split; [|split_and!].
  - intros e' (e & <- & I)%in_map_iff. apply in_take, D, R in I as (f & t & C & ->).
    exists f, t. split; [done|]. by apply fill_leads.
  - eapply sorted_map; [|by apply sorted_take]. intros a b Ia Ib [O N]. split; [by apply fill_in_order|].
    apply in_take, D, R in Ia as (f & t & _ & ->). apply in_take, D, R in Ib as (f' & t' & _ & ->).
    intros E. apply N. rewrite (fill_text (edge_to f t None)), (fill_text (edge_to f' t' None)) in E.
    unfold edge_to in *. cbn in *. congruence.
  - rewrite length_map, length_take. apply Nat.le_min_l.
  - intros f t C. destruct (in_take_or in_order 100 (dedup_by_key id sorted) (edge_to f t None) SS) as [I|[L H]].
    + apply D, R. by exists f, t.
    + left. exists (fill_call_edge_snippet provider files (edge_to f t None)). split; [by apply in_map|]. by apply fill_leads.
    + right. split; [by rewrite length_map|]. intros e' (e & <- & I)%in_map_iff.
      apply fill_in_order_l. by apply H.
Qed.
End outgoing.
End callees.

(** * [trace_path]: a shortest chain *)

(** Chains of calls, by the calls listed for each symbol. *)
Section chains.
Context (listed : string -> list CallEdge.t).

(** A chain of calls out of a name, as the steps of a response. *)
Fixpoint follows (name : string) (steps : list PathStep.t) : Prop :=
  match steps with
  | [] => True
  | step :: steps =>
      (exists e, In e (listed name) /\
         step = PathStep.Mk e.(CallEdge.symbol) e.(CallEdge.display_path) e.(CallEdge.line)) /\
      follows step.(PathStep.symbol) steps
  end.

(** A symbol is [k] calls away. *)
Inductive reach (start : string) : nat -> string -> Prop :=
  | reach_here : reach start 0 start
  | reach_call k a e : reach start k a -> In e (listed a) -> reach start (S k) e.(CallEdge.symbol).
End chains.

Definition ends_at (name : string) (steps : list PathStep.t) : string :=
  default name (PathStep.symbol <$> last steps).

Section trace.
Context (provider : Provider.t) (files : list IndexedFile.t) (request : TracePathRequest.t).
Notation from := request.(TracePathRequest.from).
Notation to := request.(TracePathRequest.to).
Notation max_depth := request.(TracePathRequest.max_depth).
#[local] Abbreviation edges_of := (edges_out provider files request.(TracePathRequest.language)).
#[local] Abbreviation linked := (follows edges_of).
#[local] Abbreviation away := (reach edges_of from).

Lemma ends_at_cons name step steps : ends_at name (step :: steps) = ends_at step.(PathStep.symbol) steps.
Proof.
  unfold ends_at. rewrite last_cons. destruct (last steps) eqn:E; [done|].
  by apply last_None in E as ->.
Qed.

Lemma ends_at_snoc name steps step : ends_at name (steps ++ [step]) = step.(PathStep.symbol).
Proof. unfold ends_at. by rewrite last_snoc. Qed.

Lemma linked_snoc name steps e :
  linked name steps -> In e (edges_of (ends_at name steps)) -> linked name (steps ++ [step_of e]).
Proof.
  revert name. induction steps as [|s steps IH]; intros name L I; cbn in *.
  - split; [by exists e|done].
  - destruct L as [L1 L2]. split; [done|]. apply IH; [done|]. by rewrite ends_at_cons in I.
Qed.

Lemma linked_away steps : linked from steps -> away (length steps) (ends_at from steps).
Proof.
  enough (forall k a, away k a -> linked a steps -> away (k + length steps) (ends_at a steps)) as G
    by (intros L; apply (G 0); [constructor|done]).
  induction steps as [|s steps IH]; intros k a A L; cbn in *.
  - by rewrite Nat.add_0_r.
  - destruct L as [(e & I & ->) L]. rewrite ends_at_cons, <- Nat.add_succ_comm.
    apply IH; [|done]. by econstructor.
Qed.

(** The names queued so far with their depths, in order: those expanded, then the queue. The node
    under expansion is [cur] at depth [level], its edges left to take are [rest]. *)
Record bfs (cur : string) (level : nat) (rest : list CallEdge.t) (done queue : list (string * nat))
    (visited : gset string) (parent : Parents) : Prop := {
  bfs_visited v : v ∈ visited <-> v ∈ (done ++ queue).*1;
  bfs_nodup : NoDup (done ++ queue).*1;
  bfs_from : (from, 0) ∈ done ++ queue;
  bfs_to : to ∉ visited;
  bfs_done v d : (v, d) ∈ done -> d <= level;
  bfs_queue v d : (v, d) ∈ queue -> level <= d <= S level;
  bfs_sorted : StronglySorted le queue.*2;
  bfs_climb v d : (v, d) ∈ done ++ queue ->
    d <= max_depth /\
    (v <> from -> exists p d' e, parent !! v = Some (p, step_of e) /\ (p, d') ∈ done ++ queue /\
       d = S d' /\ In e (edges_of p) /\ e.(CallEdge.symbol) = v);
  bfs_closed v d : (v, d) ∈ done -> d < max_depth -> forall e, In e (edges_of v) ->
    v = cur /\ In e rest \/
    e.(CallEdge.symbol) <> to /\
    exists d', (e.(CallEdge.symbol), d') ∈ done ++ queue /\ d' <= S d }.

Section bfs.
Context cur level rest done queue visited parent
  (B : bfs cur level rest done queue visited parent).

Lemma bfs_once v d d' : (v, d) ∈ done ++ queue -> (v, d') ∈ done ++ queue -> d = d'.
Proof using B.
  pose proof (bfs_nodup _ _ _ _ _ _ _ B) as N. intros [i Hi]%list_elem_of_lookup [j Hj]%list_elem_of_lookup.
  assert (i = j) as ->; [|congruence].
  eapply NoDup_lookup; [exact N| |]; rewrite list_lookup_fmap; [by rewrite Hi|by rewrite Hj].
Qed.

Lemma bfs_away v d : (v, d) ∈ done ++ queue -> away d v.
Proof using B.
  revert v. induction d as [d IH] using lt_wf_ind. intros v I.
  destruct (decide (v = from)) as [->|F].
  - rewrite (bfs_once from d 0 I); [constructor|apply B].
  - destruct (bfs_climb _ _ _ _ _ _ _ B v d I) as [_ C].
    destruct (C F) as (p & d' & e & _ & Ip & -> & Ie & <-). econstructor; [|done]. apply IH; [lia|done].
Qed.

(** What is [k] away is queued by depth [k], when what is nearer was expanded. *)
Lemma bfs_near k b :
  (forall v d, (v, d) ∈ done ++ queue -> d < k -> (v, d) ∈ done /\ d < max_depth /\ (v = cur -> rest = [])) ->
  away k b -> exists d, (b, d) ∈ done ++ queue /\ d <= k /\ (0 < k -> b <> to).
Proof using B.
  revert b. induction k as [|k IH]; intros b N A; inversion A as [|? a e A' I]; subst.
  - exists 0. split; [apply B|]. lia.
  - destruct (IH a) as (d & Id & Ld & _); [|done|].
    { intros v d Iv Lv. apply N; [done|lia]. }
    destruct (N a d Id) as (Ia & La & R); [lia|].
    destruct (bfs_closed _ _ _ _ _ _ _ B a d Ia La e I) as [[E J]|(T & d' & Id' & Ld')].
    + by rewrite (R E) in J.
    + exists d'. split; [done|]. split; [lia|done].
Qed.
End bfs.

(** An edge to a name already queued changes nothing. *)
Lemma bfs_known cur level e rest done queue visited parent :
  bfs cur level (e :: rest) done queue visited parent -> (cur, level) ∈ done ->
  e.(CallEdge.symbol) <> to -> e.(CallEdge.symbol) ∈ visited ->
  bfs cur level rest done queue visited parent.
Proof.
  intros B C T V. split; try apply B.
  intros v d I L e' I'.
  destruct (bfs_closed _ _ _ _ _ _ _ B v d I L e' I') as [[-> [<-|J]]|H]; [|by left|by right].
  right. split; [done|]. apply (bfs_visited _ _ _ _ _ _ _ B), list_elem_of_fmap in V as ([w d'] & -> & J).
  exists d'. split; [done|].
  assert (d = level) as ->.
  { eapply bfs_once; [exact B| |]; apply elem_of_app; by left. }
  apply elem_of_app in J as [J|J]; [apply (bfs_done _ _ _ _ _ _ _ B) in J|
    apply (bfs_queue _ _ _ _ _ _ _ B) in J]; lia.
Qed.

(** An edge to a new name queues it one deeper. *)
Lemma bfs_new cur level e rest done queue visited parent :
  let c := e.(CallEdge.symbol) in
  bfs cur level (e :: rest) done queue visited parent -> (cur, level) ∈ done -> level < max_depth ->
  In e (edges_of cur) -> c <> to -> c ∉ visited ->
  bfs cur level rest done (queue ++ [(c, level + 1)]) ({[c]} ∪ visited)
    (<[c := (cur, step_of e)]> parent).
Proof.
  intros c B C L I T V.
  assert (c ∉ (done ++ queue).*1) as F by (by rewrite <- (bfs_visited _ _ _ _ _ _ _ B)).
  assert (forall v d, (v, d) ∈ done ++ queue -> v <> c) as N.
  { intros v d J ->. apply F, list_elem_of_fmap. by exists (c, d). }
  split.
  - intros v. rewrite app_assoc, fmap_app, elem_of_union, elem_of_singleton, elem_of_app,
      (bfs_visited _ _ _ _ _ _ _ B). cbn. rewrite list_elem_of_singleton. tauto.
  - rewrite app_assoc, fmap_app. apply NoDup_app. split; [apply B|]. split; [|apply NoDup_singleton].
    cbn. intros v J ->%list_elem_of_singleton. done.
  - rewrite app_assoc. apply elem_of_app. left. apply B.
  - apply not_elem_of_union. split; [|apply B]. intros E%elem_of_singleton. by apply T.
  - apply B.
  - intros v d [J|J]%elem_of_app; [by apply (bfs_queue _ _ _ _ _ _ _ B) in J|].
    apply list_elem_of_singleton in J. injection J as -> ->. lia.
  - rewrite fmap_app. apply StronglySorted_app_2; [|apply B|by repeat constructor].
    cbn. intros x y J ->%list_elem_of_singleton. apply list_elem_of_fmap in J as ([v d] & -> & J).
    apply (bfs_queue _ _ _ _ _ _ _ B) in J. cbn. lia.
  - intros v d. rewrite app_assoc. intros [J|J]%elem_of_app.
    + destruct (bfs_climb _ _ _ _ _ _ _ B v d J) as [M P]. split; [done|]. intros F'.
      destruct (P F') as (p & d' & e' & P1 & P2 & P3). exists p, d', e'.
      rewrite lookup_insert_ne by (symmetry; by eapply N). split; [done|]. split; [|done].
      apply elem_of_app. by left.
    + apply list_elem_of_singleton in J. injection J as -> ->. split; [lia|]. intros _.
      exists cur, level, e. rewrite lookup_insert_eq. split; [done|].
      split; [by do 2 (apply elem_of_app; left)|]. by rewrite Nat.add_1_r.
  - intros v d J M e' I'. rewrite app_assoc.
    destruct (bfs_closed _ _ _ _ _ _ _ B v d J M e' I') as [[-> [<-|K]]|(T' & d' & K & K')].
    + right. split; [done|]. exists (level + 1).
      assert (d = level) as -> by (eapply bfs_once; [exact B| |]; apply elem_of_app; by left).
      split; [|lia]. apply elem_of_app. right. by apply list_elem_of_singleton.
    + by left.
    + right. split; [done|]. exists d'. split; [|done]. apply elem_of_app. by left.
Qed.

(** The end of an expansion: nothing found, or the chain through [cur]. *)
Lemma trace_edges_bfs cur level rest done queue visited parent :
  bfs cur level rest done queue visited parent -> (cur, level) ∈ done -> level < max_depth ->
  (forall e, In e rest -> In e (edges_of cur)) ->
  match trace_edges to cur level rest (Trace.Mk visited parent queue) with
  | inr s => bfs cur level [] done s.(Trace.queue) s.(Trace.visited) s.(Trace.parent)
  | inl parent' =>
      exists e rest' queue' visited' parent'', In e (edges_of cur) /\ e.(CallEdge.symbol) = to /\
        parent' = <[to := (cur, step_of e)]> parent'' /\
        bfs cur level (e :: rest') done queue' visited' parent''
  end.
Proof.
  intros B C L. revert queue visited parent B.
  induction rest as [|e rest IH]; intros queue visited parent B I; [done|]. cbn.
  destruct (String.eqb_spec e.(CallEdge.symbol) to) as [E|T].
  { exists e, rest, queue, visited, parent. rewrite <- E.
    split; [apply I; by left|]. by split_and!. }
  case_bool_decide as V.
  - apply IH; [by eapply bfs_known|]. intros e' I'. apply I. by right.
  - apply IH; [apply bfs_new; [done..|apply I; by left|done|done]|].
    intros e' I'. apply I. by right.
Qed.

(** Taking the next node off the queue. *)
Lemma bfs_pop cur level done name depth queue visited parent :
  bfs cur level [] done ((name, depth) :: queue) visited parent ->
  bfs name depth (edges_of name) (done ++ [(name, depth)]) queue visited parent.
Proof.
  intros B.
  assert (forall A (l : list A) x q, (l ++ [x]) ++ q = l ++ x :: q) as P by (intros; by rewrite <- app_assoc).
  assert (level <= depth) as LD by (by apply (bfs_queue _ _ _ _ _ _ _ B name depth); left).
  pose proof (bfs_sorted _ _ _ _ _ _ _ B) as [SS F]%StronglySorted_inv.
  split; try apply B; try (rewrite P; apply B); try (intros v; rewrite P; apply B);
    try (intros v d; rewrite P; apply B).
  - intros v d [J|J]%elem_of_app.
    + apply (bfs_done _ _ _ _ _ _ _ B) in J. lia.
    + apply list_elem_of_singleton in J. by injection J as -> ->.
  - intros v d J. pose proof (bfs_queue _ _ _ _ _ _ _ B v d ltac:(by right)).
    rewrite Forall_forall in F. specialize (F d). cbn in F.
    assert (d ∈ queue.*2) as J' by (apply list_elem_of_fmap; by exists (v, d)).
    specialize (F J'). lia.
  - done.
  - intros v d J M e I. rewrite P. apply elem_of_app in J as [J|J].
    + destruct (bfs_closed _ _ _ _ _ _ _ B v d J M e I) as [[_ []]|H]. by right.
    + apply list_elem_of_singleton in J. injection J as -> ->. by left.
Qed.

(** A node that is not expanded, at the full depth. *)
Lemma bfs_skip name depth rest done queue visited parent :
  bfs name depth rest done queue visited parent -> (name, depth) ∈ done -> max_depth <= depth ->
  bfs name depth [] done queue visited parent.
Proof.
  intros B C L. split; try apply B. intros v d J M e I.
  destruct (bfs_closed _ _ _ _ _ _ _ B v d J M e I) as [[-> _]|H]; [|by right].
  assert (d = depth) by (eapply bfs_once; [exact B| |]; apply elem_of_app; by left). lia.
Qed.

(** Climbing the parents walks a chain backwards. *)
Lemma bfs_climbs cur level rest done queue visited parent parent' :
  bfs cur level rest done queue visited parent ->
  (forall v, v <> to -> parent' !! v = parent !! v) ->
  forall d v fuel, (v, d) ∈ done ++ queue -> d <= fuel ->
  exists steps, climb fuel from v parent' = rev steps /\ linked from steps /\ ends_at from steps = v /\
    length steps = d.
Proof.
  intros B P d. induction d as [d IH] using lt_wf_ind. intros v fuel I L.
  destruct (decide (v = from)) as [->|F].
  - exists []. rewrite (bfs_once _ _ _ _ _ _ _ B from d 0 I) by apply B.
    split; [|done]. destruct fuel; cbn; [done|]. by rewrite String.eqb_refl.
  - destruct (bfs_climb _ _ _ _ _ _ _ B v d I) as [_ C].
    destruct (C F) as (p & d' & e & Pv & Ip & -> & Ie & E).
    destruct fuel as [|fuel]; [lia|]. cbn.
    apply String.eqb_neq in F. rewrite F, P, Pv.
    + destruct (IH d' ltac:(lia) p fuel Ip ltac:(lia)) as (steps & -> & S1 & S2 & S3).
      exists (steps ++ [step_of e]). rewrite rev_app_distr, length_app, ends_at_snoc. split; [done|].
      split; [apply linked_snoc; [done|by rewrite S2]|]. split; [done|]. cbn. lia.
    + intros ->. apply (bfs_to _ _ _ _ _ _ _ B), (bfs_visited _ _ _ _ _ _ _ B), list_elem_of_fmap.
      by exists (to, S d').
Qed.

(** What a search that found its target has in hand. *)
Definition chain_found (parent : Parents) : Prop :=
  exists steps, climb (S max_depth) from to parent = rev steps /\ linked from steps /\
    ends_at from steps = to /\ length steps <= max_depth /\
    forall k, away k to -> length steps <= k.

Lemma bfs_found cur level e rest done queue visited parent :
  bfs cur level (e :: rest) done queue visited parent -> (cur, level) ∈ done -> level < max_depth ->
  from <> to -> In e (edges_of cur) -> e.(CallEdge.symbol) = to ->
  chain_found (<[to := (cur, step_of e)]> parent).
Proof.
  intros B C L F I E.
  destruct (bfs_climbs _ _ _ _ _ _ _ (<[to := (cur, step_of e)]> parent) B
    ltac:(intros v N; by rewrite lookup_insert_ne) level cur max_depth
    ltac:(apply elem_of_app; by left) ltac:(lia)) as (steps & P & S1 & S2 & S3).
  exists (steps ++ [step_of e]).
  assert (String.eqb to from = false) as F' by (apply String.eqb_neq; congruence).
  cbn [climb]. rewrite F', lookup_insert_eq, P, rev_app_distr, ends_at_snoc, length_app.
  split; [done|]. split; [apply linked_snoc; [done|by rewrite S2]|].
  split; [done|]. cbn. split; [lia|]. intros k A.
  destruct (decide (level < k)) as [?|G]; [lia|].
  assert (0 < k) as K by (destruct k; [inversion A; congruence|lia]).
  destruct (bfs_near _ _ _ _ _ _ _ B k to) as (d & _ & _ & T); [|done|by destruct (T K)].
  intros v d J M. assert ((v, d) ∈ done) as D.
  { apply elem_of_app in J as [J|J]; [done|]. apply (bfs_queue _ _ _ _ _ _ _ B) in J. lia. }
  split; [done|]. split; [lia|]. intros ->.
  assert (d = level) by (eapply bfs_once; [exact B| |]; apply elem_of_app; by left). lia.
Qed.

(** More than two thousand symbols are within the depth. *)
Definition too_many (listed : string -> list CallEdge.t) : Prop :=
  exists names, NoDup names /\ 2000 < length names /\
    forall v, v ∈ names -> exists k, k <= max_depth /\ reach listed from k v.
#[local] Abbreviation explored := (too_many edges_of).

Lemma trace_loop_capped fuel visited parent queue n :
  TRACE_VISITED_CAP < size visited ->
  (trace_loop provider never fuel files request (Trace.Mk visited parent queue) n).1 = inl None.
Proof.
  intros L. revert queue n. induction fuel as [|fuel IH]; intros [|[name depth] queue] n; try done.
  cbn [trace_loop Trace.queue bind_op check_cancelled never Trace.visited Trace.parent].
  apply Nat.ltb_lt in L. unfold bind_op, check_cancelled, never. cbv beta iota zeta.
  rewrite L, orb_true_r. apply IH.
Qed.

Lemma callees_never name n : callees provider never files request name n = (inl (edges_of name), S n).
Proof. done. Qed.

Lemma bfs_size cur level rest done queue visited parent (universe : gset string) :
  bfs cur level rest done queue visited parent -> visited ⊆ universe ->
  length done + length queue <= size universe.
Proof.
  intros B S. rewrite <- length_app, <- (length_fmap fst).
  rewrite <- (size_list_to_set (C:=gset string)) by apply B. apply subseteq_size.
  intros v I%elem_of_list_to_set. apply S. by apply B.
Qed.

Lemma bfs_exhausted cur level done visited parent :
  bfs cur level [] done [] visited parent -> from <> to -> forall k, k <= max_depth -> ~ away k to.
Proof.
  intros B F k L A. assert (0 < k) as K by (destruct k; [inversion A; congruence|lia]).
  destruct (bfs_near _ _ _ _ _ _ _ B k to) as (d & _ & _ & T); [|done|by destruct (T K)].
  intros v d. rewrite app_nil_r. intros I M. split; [done|]. split; [lia|done].
Qed.

Lemma bfs_explored cur level rest done queue visited parent :
  bfs cur level rest done queue visited parent -> TRACE_VISITED_CAP < size visited -> explored.
Proof.
  intros B L. exists (elements visited). split; [apply NoDup_elements|]. split; [done|].
  intros v V%elem_of_elements. apply (bfs_visited _ _ _ _ _ _ _ B), list_elem_of_fmap in V
    as ([w d] & -> & V).
  exists d. split; [by eapply bfs_climb|]. by eapply bfs_away.
Qed.

(** The search: with fuel for every name there is, it finds a shortest chain, or there is none within
    the depth, or it gave up at the cap. *)
Lemma trace_loop_spec (universe : gset string) : from <> to -> from ∈ universe ->
  (forall a e, In e (edges_of a) -> e.(CallEdge.symbol) ∈ universe) ->
  forall fuel cur level done queue visited parent n,
  bfs cur level [] done queue visited parent -> visited ⊆ universe ->
  size universe <= fuel + length done ->
  match (trace_loop provider never fuel files request (Trace.Mk visited parent queue) n).1 with
  | inl (Some parent') => chain_found parent'
  | inl None => (forall k, k <= max_depth -> ~ away k to) \/ explored
  | inr _ => False
  end.
Proof.
  intros F FU EU. induction fuel as [|fuel IH]; intros cur level done queue visited parent n B SU L.
  - destruct queue as [|[name depth] queue]; [by left; eapply bfs_exhausted|].
    pose proof (bfs_size _ _ _ _ _ _ _ universe B SU). cbn in *. lia.
  - destruct queue as [|[name depth] queue]; [by left; eapply bfs_exhausted|].
    cbn [trace_loop Trace.queue Trace.visited Trace.parent].
    unfold bind_op at 1, check_cancelled, never. cbv beta iota zeta.
    pose proof (bfs_pop _ _ _ _ _ _ _ _ B) as B'.
    assert ((name, depth) ∈ done ++ [(name, depth)]) as I
      by (apply elem_of_app; right; by apply list_elem_of_singleton).
    assert (size universe <= fuel + length (done ++ [(name, depth)])) as L'
      by (rewrite length_app; cbn; lia).
    destruct (Nat.leb_spec max_depth depth) as [D|D]; cbn [orb].
    { eapply IH; [by eapply bfs_skip|done|done]. }
    destruct (Nat.ltb_spec TRACE_VISITED_CAP (size visited)) as [M|M].
    { rewrite trace_loop_capped by done. right. by eapply bfs_explored. }
    unfold bind_op. rewrite callees_never.
    pose proof (trace_edges_bfs _ _ _ _ _ _ _ B' I D ltac:(done)) as T.
    destruct (trace_edges to name depth (edges_of name) (Trace.Mk visited parent queue))
      as [parent'|[visited' parent' queue']] eqn:E.
    + destruct T as (e & rest' & queue' & visited' & parent'' & Ie & Ee & -> & B'').
      by eapply bfs_found.
    + eapply IH; [exact T| |done]. cbn in T. intros v V.
      destruct (decide (v = from)) as [->|N]; [done|].
      apply (bfs_visited _ _ _ _ _ _ _ T), list_elem_of_fmap in V as ([w d] & -> & V).
      destruct (bfs_climb _ _ _ _ _ _ _ T _ _ V) as [_ C].
      destruct (C N) as (p & d' & e & _ & _ & _ & Ie & <-). by eapply EU.
Qed.

Lemma in_edges_of name e : In e (edges_of name) -> exists file symbol,
  In file files /\ In symbol file.(IndexedFile.symbols) /\ e.(CallEdge.symbol) = symbol.(CodeSymbol.name).
Proof.
  intros I. apply edges_out_listed in I as (file & target & C & ->). exists file, target.
  destruct C as (? & ? & ? & ? & ? & _ & _ & _ & _ & _ & _ & _ & _ & F & T & _). done.
Qed.

(** The names a search may come to. *)
Definition defined_names : list string :=
  flat_map (fun file => map CodeSymbol.name file.(IndexedFile.symbols)) files.

Lemma trace_fuel_enough :
  size ({[from]} ∪ list_to_set defined_names : gset string) <= trace_fuel files.
Proof.
  unfold trace_fuel.
  assert (length defined_names = sum_list (map (fun f => length f.(IndexedFile.symbols)) files)) as <-.
  { unfold defined_names. clear. induction files as [|f l IH]; [done|]. cbn.
    by rewrite length_app, length_map, IH. }
  transitivity (size (list_to_set (from :: defined_names) : gset string)); [done|].
  etrans; [apply size_list_to_set_le|done].
Qed.

Lemma bfs_start : from <> to ->
  bfs from 0 [] [] [(from, 0)] {[from]} ∅.
Proof.
  intros F. split; cbn.
  - intros v. by rewrite elem_of_singleton, list_elem_of_singleton.
  - apply NoDup_singleton.
  - by apply list_elem_of_singleton.
  - intros E%elem_of_singleton. by apply F.
  - by intros v d ?%not_elem_of_nil.
  - intros v d I%list_elem_of_singleton. injection I as -> ->. lia.
  - by repeat constructor.
  - intros v d I%list_elem_of_singleton. injection I as -> ->. split; [lia|done].
  - by intros v d ?%not_elem_of_nil.
Qed.

(** A definition of [from] in the language asked for. *)
Definition defined_at (path : string) (line : nat) : Prop := exists file symbol,
  In file files /\ asked_for request.(TracePathRequest.language) file /\
  In symbol file.(IndexedFile.symbols) /\ symbol.(CodeSymbol.name) = from /\
  path = file.(IndexedFile.display_path) /\ line = symbol.(CodeSymbol.line).

Definition first_of_from (step : PathStep.t) : Prop :=
  step.(PathStep.symbol) = from /\ defined_at step.(PathStep.display_path) step.(PathStep.line) /\
  forall path line, defined_at path line ->
    lex_leb string_leb Nat.leb (step.(PathStep.display_path), step.(PathStep.line)) (path, line) = true.

Lemma in_definitions l :
  In l (sort_locations (collect_definitions provider files
    (NavigateRequest.Mk from request.(TracePathRequest.language) false false 1))) <->
  exists file symbol, In file files /\ asked_for request.(TracePathRequest.language) file /\
    In symbol file.(IndexedFile.symbols) /\ symbol.(CodeSymbol.name) = from /\
    l = symbol_location provider file symbol.
Proof.
  unfold sort_locations, collect_definitions. rewrite in_sort_on, in_flat_map.
  cbn [NavigateRequest.language NavigateRequest.symbol]. setoid_rewrite <- language_matches_iff. split.
  - intros (file & I & J). destruct (language_matches _ _) eqn:L; [|done].
    apply in_map_iff in J as (symbol & <- & J). apply filter_In in J as [J N%String.eqb_eq].
    by exists file, symbol.
  - intros (file & symbol & I & L & J & N & ->). exists file. rewrite L. split; [done|].
    apply in_map, filter_In. split; [done|]. by apply String.eqb_eq.
Qed.

Lemma first_definition_spec :
  match first_definition provider files from request.(TracePathRequest.language) with
  | None => forall path line, ~ defined_at path line
  | Some step => first_of_from step
  end.
Proof.
  unfold first_definition, goto_definition. cbn [DefinitionResponse.definitions NavigateRequest.max_results].
  pose proof in_definitions as ID.
  pose proof (sort_on_sorted (lex_leb string_leb (lex_leb Nat.leb string_leb)) location_key
    (collect_definitions provider files
      (NavigateRequest.Mk from request.(TracePathRequest.language) false false 1))) as SS.
  fold (sort_locations (collect_definitions provider files
    (NavigateRequest.Mk from request.(TracePathRequest.language) false false 1))) in SS.
  destruct (sort_locations _) as [|l ls]; cbn [take head fmap option_fmap option_map].
  - intros path line (file & symbol & I & A & J & N & _).
    destruct (proj2 (ID (symbol_location provider file symbol))). by exists file, symbol.
  - split; [done|]. cbn [PathStep.display_path PathStep.line]. split.
    + destruct (proj1 (ID l) ltac:(by left)) as (file & symbol & I & A & J & N & ->). by exists file, symbol.
    + intros path line (file & symbol & I & A & J & N & -> & ->).
      destruct (proj2 (ID (symbol_location provider file symbol))) as [->|K]; [by exists file, symbol| |].
      * cbn. destruct (leb_total (leb:=lex_leb string_leb Nat.leb)
          (file.(IndexedFile.display_path), symbol.(CodeSymbol.line))
          (file.(IndexedFile.display_path), symbol.(CodeSymbol.line))); done.
      * apply StronglySorted_inv in SS as [_ F]. rewrite Forall_forall in F.
        apply list_elem_of_In, F in K. unfold location_key, lex_leb in *. cbn in *.
        apply andb_true_iff in K as [K1 K2]. rewrite K1. cbn.
        apply orb_true_iff in K2 as [->|K2]; [done|]. apply andb_true_iff in K2 as [-> _]. apply orb_true_r.
Qed.

(** C31: [trace_path] finds nothing where [from] has no definition in the language. Otherwise it follows,
    for each symbol, the first hundred definitions it calls, in order of file, line, column and name, which
    are all of them where there are fewer. A path it finds starts at the first definition of [from], goes
    through those calls to [to] within the depth, and no chain through them is shorter; when it finds none,
    no chain through them is within the depth, unless they lead to more than two thousand symbols there. *)
Theorem trace_path_spec n :
  exists r, (trace_path provider never files request n).1 = inl r /\
  exists listed,
  (forall name, first_hundred provider files request.(TracePathRequest.language) name (listed name)) /\
  if r.(TracePathResponse.found) then
    exists from_step steps, first_of_from from_step /\
      r.(TracePathResponse.path) = from_step :: steps /\
      follows listed from steps /\ ends_at from steps = to /\ length steps <= max_depth /\
      forall steps', follows listed from steps' -> ends_at from steps' = to -> length steps <= length steps'
  else
    r.(TracePathResponse.path) = [] /\
    ((forall path line, ~ defined_at path line) \/
     (forall steps, follows listed from steps -> ends_at from steps = to -> max_depth < length steps) \/
     too_many listed).
Proof.
  pose proof first_definition_spec as FD.
  unfold trace_path. destruct (first_definition _ _ _ _) as [from_step|];
    [|eexists; split; [done|]; exists edges_of; split; [apply edges_out_listed|]; by split; [|left]].
  destruct (String.eqb_spec from to) as [E|F].
  - eexists. split; [done|]. exists edges_of. split; [apply edges_out_listed|].
    cbn. exists from_step, []. rewrite E. cbn. split_and!; try done; lia.
  - pose proof (trace_loop_spec ({[from]} ∪ list_to_set defined_names) F ltac:(set_solver)
      ltac:(intros a e (f & s & I1 & I2 & ->)%in_edges_of; apply elem_of_union_r, elem_of_list_to_set,
        list_elem_of_In, in_flat_map; exists f; split; [done|by apply in_map])
      (trace_fuel files) from 0 [] _ _ _ n (bfs_start F) ltac:(set_solver)
      ltac:(rewrite Nat.add_0_r; apply trace_fuel_enough)) as T.
    unfold bind_op. destruct (trace_loop _ _ _ _ _ _ n) as [[[parent|]|err] n']; cbn in T; [| |done].
    + destruct T as (steps & P & S1 & S2 & S3 & S4).
      eexists. split; [done|]. exists edges_of. split; [apply edges_out_listed|].
      unfold reconstruct, found_response.
      cbn [TracePathResponse.found TracePathResponse.path]. exists from_step, steps.
      rewrite P, rev_app_distr, rev_involutive. cbn. split_and!; try done.
      intros steps' L E. apply S4. rewrite <- E. by apply linked_away.
    + eexists. split; [done|]. exists edges_of. split; [apply edges_out_listed|].
      cbn. split; [done|]. right. destruct T as [T|T]; [left|by right].
      intros steps L E. destruct (decide (length steps <= max_depth)) as [D|?]; [|lia].
      exfalso. apply (T _ D). rewrite <- E. by apply linked_away.
Qed.
End trace.

(** * [analyze_impact]: closed under dependents *)

Section impact.
Context (provider : Provider.t) (files : list IndexedFile.t) (request : ImpactAnalysisRequest.t).
Context (max_depth : nat) (seed_keys : gset ImpactKey).

Definition dependents (target : ImpactTarget.t) (depth : nat) : list ImpactSymbol.t :=
  collect_dependents provider files request target depth seed_keys.

(** Where an impacted symbol comes from: the seed, or one impacted a level before. *)
Definition caused (impacted : list ImpactSymbol.t) (m : ImpactSymbol.t) : Prop :=
  m.(ImpactSymbol.depth) = 1 /\ In m (dependents (seed_target request) 1) \/
  exists p, In p impacted /\ m.(ImpactSymbol.depth) = p.(ImpactSymbol.depth) + 1 /\
    In m (dependents (target_from_node p) (p.(ImpactSymbol.depth) + 1)).

(** A dependent is recorded, at this depth or before. *)
Definition recorded (impacted : list ImpactSymbol.t) (depth : nat) (x : ImpactSymbol.t) : Prop :=
  exists m, In m impacted /\ node_key m = node_key x /\ m.(ImpactSymbol.depth) <= depth.

(** The targets a search is to expand. *)
Definition expandable (impacted : list ImpactSymbol.t) (target : ImpactTarget.t) (depth : nat) : Prop :=
  target = seed_target request /\ depth = 0 \/
  exists m, In m impacted /\ target = target_from_node m /\ depth = m.(ImpactSymbol.depth) /\
    depth < max_depth.

(** The state at [level], with the dependents [rest] of [current] left to record and [taken] targets
    taken off the queue. *)
Record impact_inv (level : nat) (current : ImpactTarget.t) (rest : list ImpactSymbol.t) (taken : nat)
    (s : Search.t) : Prop := {
  ii_seen k : k ∈ s.(Search.seen) <-> k ∈ seed_keys \/ In k (map node_key s.(Search.impacted));
  ii_nodup : NoDup (map node_key s.(Search.impacted));
  ii_fresh m : In m s.(Search.impacted) -> node_key m ∉ seed_keys;
  ii_depth m : In m s.(Search.impacted) ->
    1 <= m.(ImpactSymbol.depth) <= max_depth /\ m.(ImpactSymbol.depth) <= S level;
  ii_caused m : In m s.(Search.impacted) -> caused s.(Search.impacted) m;
  ii_queue t d : In (t, d) s.(Search.queue) -> expandable s.(Search.impacted) t d /\ level <= d <= S level;
  ii_sorted : StronglySorted le s.(Search.queue).*2;
  ii_keys : NoDup (map (fun q => target_key q.1) s.(Search.queue));
  ii_visited t d : In (t, d) s.(Search.queue) -> target_key t ∉ s.(Search.visited);
  ii_known k : k ∈ s.(Search.visited) ->
    k = target_key (seed_target request) \/
    exists m, In m s.(Search.impacted) /\ k = target_key (target_from_node m);
  ii_count : taken + length s.(Search.queue) <= 1 + length s.(Search.impacted);
  ii_closed t d : expandable s.(Search.impacted) t d ->
    In (t, d) s.(Search.queue) \/
    forall x, In x (dependents t (d + 1)) ->
      t = current /\ d = level /\ In x rest \/ recorded s.(Search.impacted) (d + 1) x }.

Lemma target_key_node m m' :
  target_key (target_from_node m) = target_key (target_from_node m') -> node_key m = node_key m'.
Proof. unfold target_key, node_key. cbn. congruence. Qed.

Lemma target_key_seed m : target_key (target_from_node m) <> target_key (seed_target request).
Proof. unfold target_key. cbn. congruence. Qed.

Lemma dependents_fresh t d x : In x (dependents t d) -> node_key x ∉ seed_keys.
Proof.
  unfold dependents, collect_dependents. case_bool_decide; [done|].
  intros ([idx file] & _ & I)%in_flat_map. apply filter_In in I as [_ I].
  by apply negb_true_iff, bool_decide_eq_false in I.
Qed.

Lemma in_omap {A B} (f : A -> option B) l y : In y (omap f l) -> exists x, In x l /\ f x = Some y.
Proof. rewrite <- list_elem_of_In. intros (x & I & E)%list_elem_of_omap. exists x. by rewrite <- list_elem_of_In. Qed.

Lemma enclosing_in file n symbol :
  enclosing_symbol provider file n = Some symbol -> In symbol file.(IndexedFile.symbols).
Proof.
  unfold enclosing_symbol.
  enough (forall l best, (forall b, best = Some b -> In b.1 file.(IndexedFile.symbols)) ->
    (forall x, In x l -> In x file.(IndexedFile.symbols)) ->
    forall b, fold_left (enclosing_step provider file n) l best = Some b ->
      In b.1 file.(IndexedFile.symbols)) as G.
  { intros E. destruct (fold_left _ _ _) as [b|] eqn:F; [|done]. injection E as <-.
    by eapply (G _ None); [done|auto|exact F]. }
  induction l as [|x l IH]; intros best H L; [done|]. cbn. apply IH; [|intros; apply L; by right].
  unfold enclosing_step. destruct (_ <? _); [done|]. destruct (span_of _ _ _) as [[a b]|]; [|done].
  destruct (_ && _ && _); [|done]. intros ? [= <-]. apply L. by left.
Qed.

(** What a dependent is: the symbol around a reference, at the depth asked for. *)
Lemma dependents_in t d x : In x (dependents t d) ->
  x.(ImpactSymbol.depth) = d /\ exists file symbol, In file files /\
    In symbol file.(IndexedFile.symbols) /\
    node_key x = (symbol.(CodeSymbol.name), (file.(IndexedFile.path), symbol.(CodeSymbol.line))).
Proof.
  unfold dependents, collect_dependents. case_bool_decide; [done|].
  intros ([idx file] & If & I)%in_flat_map. apply filter_In in I as [I _].
  apply in_omap in I as (reference & _ & E).
  destruct (_ || _); [done|]. destruct (negb _); [done|]. destruct (_ && _); [done|].
  destruct (enclosing_symbol _ _ _) as [caller|] eqn:C; [|done]. destruct (is_self_target _ _ _); [done|].
  injection E as <-. split; [done|]. exists file, caller. split_and!; [|by eapply enclosing_in|done].
  apply list_elem_of_In, elem_of_lookup_imap in If as (i & y & E & L). injection E as -> ->.
  apply list_elem_of_In. by eapply list_elem_of_lookup_2.
Qed.

Lemma caused_snoc impacted x m : caused impacted m -> caused (impacted ++ [x]) m.
Proof.
  intros [C|(p & I & C)]; [by left|]. right. exists p. split; [|done]. apply in_app_iff. by left.
Qed.

Lemma recorded_snoc impacted x depth y : recorded impacted depth y -> recorded (impacted ++ [x]) depth y.
Proof. intros (m & I & C). exists m. split; [|done]. apply in_app_iff. by left. Qed.

Lemma expandable_snoc impacted x t d :
  expandable (impacted ++ [x]) t d <->
  expandable impacted t d \/ t = target_from_node x /\ d = x.(ImpactSymbol.depth) /\ d < max_depth.
Proof.
  unfold expandable. split.
  - intros [H|(m & [I|[<-|[]]]%in_app_iff & H)]; [by left; left| |by right].
    left. right. by exists m.
  - intros [[H|(m & I & H)]|H]; [by left| |]; right; [exists m|exists x];
      (split; [apply in_app_iff|done]); [by left|right; by left].
Qed.

(** A dependent whose key was seen changes nothing; it is recorded already. *)
Lemma impact_seen level current x rest taken s :
  impact_inv level current (x :: rest) taken s -> In x (dependents current (S level)) ->
  node_key x ∈ s.(Search.seen) -> impact_inv level current rest taken s.
Proof.
  intros B I V. split; try apply B. intros t d E.
  destruct (ii_closed _ _ _ _ _ B t d E) as [H|H]; [by left|right].
  intros y Iy. destruct (H y Iy) as [(-> & -> & [->|R])|R]; [right|by left|by right].
  apply (ii_seen _ _ _ _ _ B) in V as [V|V]; [by apply dependents_fresh in I|].
  apply in_map_iff in V as (m & K & Im). exists m. split; [done|]. split; [done|].
  apply (ii_depth _ _ _ _ _ B) in Im. lia.
Qed.

(** The key of a new dependent is of no target known so far. *)
Lemma new_target level current rest taken s x t d :
  impact_inv level current rest taken s -> node_key x ∉ s.(Search.seen) ->
  expandable s.(Search.impacted) t d -> target_key t <> target_key (target_from_node x).
Proof.
  intros B V [[-> _]|(m & I & -> & _)] E; [by symmetry in E; apply target_key_seed in E|].
  apply V, (ii_seen _ _ _ _ _ B). right. apply in_map_iff. exists m.
  split; [by apply target_key_node|done].
Qed.

Lemma impact_new level current x rest taken s :
  impact_inv level current (x :: rest) taken s -> In x (dependents current (S level)) ->
  level < max_depth -> expandable s.(Search.impacted) current level ->
  node_key x ∉ s.(Search.seen) ->
  impact_inv level current rest taken (impact_node max_depth s x).
Proof.
  intros B I L X V. unfold impact_node. rewrite bool_decide_eq_false_2 by done.
  destruct (dependents_in _ _ _ I) as [D _].
  assert (~ In (node_key x) (map node_key s.(Search.impacted))) as F.
  { intros J. apply V, (ii_seen _ _ _ _ _ B). by right. }
  assert (forall t d, In (t, d)
    (if x.(ImpactSymbol.depth) <? max_depth
     then s.(Search.queue) ++ [(target_from_node x, x.(ImpactSymbol.depth))] else s.(Search.queue)) <->
    In (t, d) s.(Search.queue) \/
    t = target_from_node x /\ d = x.(ImpactSymbol.depth) /\ d < max_depth) as Q.
  { intros t d. destruct (Nat.ltb_spec x.(ImpactSymbol.depth) max_depth) as [M|M].
    - rewrite in_app_iff. cbn. split.
      + intros [H|[[= <- <-]|[]]]; [by left|by right].
      + intros [H|(-> & -> & _)]; [by left|right; by left].
    - split; [by left|]. intros [H|(-> & -> & H)]; [done|lia]. }
  split; cbn [Search.queue Search.visited Search.seen Search.impacted].
  - intros k. rewrite elem_of_union, elem_of_singleton, (ii_seen _ _ _ _ _ B), map_app, in_app_iff.
    cbn. naive_solver.
  - rewrite map_app. apply NoDup_app. split; [apply B|]. split; [|apply NoDup_singleton].
    intros k J%list_elem_of_In K%list_elem_of_singleton. by subst.
  - intros m [J|[<-|[]]]%in_app_iff; [by apply (ii_fresh _ _ _ _ _ B)|by eapply dependents_fresh].
  - intros m [J|[<-|[]]]%in_app_iff; [by apply (ii_depth _ _ _ _ _ B)|lia].
  - intros m [J|[<-|[]]]%in_app_iff; [by apply caused_snoc, B|]. apply caused_snoc.
    destruct X as [[-> ->]|(p & Ip & -> & E & _)]; [by left|]. right. exists p.
    rewrite D, <- E, Nat.add_1_r. done.
  - intros t d [J|(-> & -> & M)]%Q.
    + split; [|by eapply ii_queue]. apply expandable_snoc. left. by eapply ii_queue.
    + split; [apply expandable_snoc; by right|lia].
  - destruct (_ <? _); [|apply B]. rewrite fmap_app. apply StronglySorted_app_2; [|apply B|by repeat constructor].
    cbn. intros a b Ia ->%list_elem_of_singleton. apply list_elem_of_fmap in Ia as ([t d] & -> & Ia).
    apply list_elem_of_In, (ii_queue _ _ _ _ _ B) in Ia. cbn. lia.
  - destruct (_ <? _); [|apply B]. rewrite map_app. apply NoDup_app. split; [apply B|].
    split; [|apply NoDup_singleton]. cbn. intros k J K%list_elem_of_singleton. subst k.
    apply list_elem_of_In, in_map_iff in J as ([t d] & E & J). cbn in E.
    eapply new_target; [exact B|done| |exact E]. by eapply ii_queue.
  - intros t d [J|(-> & -> & M)]%Q; [by eapply ii_visited|]. intros K.
    apply (ii_known _ _ _ _ _ B) in K as [K|(m & J & K)]; [by apply target_key_seed in K|].
    apply F, in_map_iff. exists m. split; [|done]. symmetry. by apply target_key_node.
  - intros k K. apply (ii_known _ _ _ _ _ B) in K as [K|(m & J & K)]; [by left|right].
    exists m. split; [|done]. apply in_app_iff. by left.
  - pose proof (ii_count _ _ _ _ _ B). destruct (_ <? _); rewrite !length_app; cbn [length]; lia.
  - intros t d E. apply expandable_snoc in E as [E|E]; [|left; apply Q; by right].
    destruct (ii_closed _ _ _ _ _ B t d E) as [H|H]; [left; apply Q; by left|right].
    intros y Iy. destruct (H y Iy) as [(-> & -> & [->|R])|R]; [right|by left|].
    + exists y. split; [apply in_app_iff; right; by left|]. split; [done|lia].
    + right. by apply recorded_snoc.
Qed.

Lemma impact_fold level current rest taken s :
  impact_inv level current rest taken s ->
  (forall x, In x rest -> In x (dependents current (S level))) ->
  level < max_depth -> expandable s.(Search.impacted) current level ->
  impact_inv level current [] taken (fold_left (impact_node max_depth) rest s).
Proof.
  revert s. induction rest as [|x rest IH]; intros s B I L X; [done|]. cbn.
  assert (In x (dependents current (S level))) as Ix by (apply I; by left).
  assert (forall y, In y rest -> In y (dependents current (S level))) as Ir by (intros; apply I; by right).
  destruct (decide (node_key x ∈ s.(Search.seen))) as [V|V].
  - unfold impact_node. rewrite bool_decide_eq_true_2 by done. apply IH; [|done..].
    by eapply impact_seen.
  - apply IH; [by apply impact_new|done..|].
    unfold impact_node. rewrite bool_decide_eq_false_2 by done. apply expandable_snoc. by left.
Qed.

(** Taking a target off the queue: it was not visited, and all its dependents are to be recorded. *)
Lemma impact_pop level current taken t d queue visited seen impacted : 1 <= max_depth ->
  impact_inv level current [] taken (Search.Mk ((t, d) :: queue) visited seen impacted) ->
  target_key t ∉ visited /\ d < max_depth /\ expandable impacted t d /\
  impact_inv d t (sort_impacts (dependents t (d + 1))) (S taken)
    (Search.Mk queue ({[target_key t]} ∪ visited) seen impacted).
Proof.
  intros M B.
  destruct (ii_queue _ _ _ _ _ B t d ltac:(by left)) as [X L]. cbn in X.
  pose proof (ii_sorted _ _ _ _ _ B) as [SS F]%StronglySorted_inv. rewrite Forall_forall in F.
  pose proof (ii_keys _ _ _ _ _ B) as [N NN]%NoDup_cons. cbn in N.
  split; [apply (ii_visited _ _ _ _ _ B t d); by left|].
  split; [destruct X as [[_ ->]|(m & _ & _ & _ & ?)]; lia|]. split; [done|].
  split; cbn [Search.queue Search.visited Search.seen Search.impacted]; try apply B; try done.
  - intros m I. pose proof (ii_depth _ _ _ _ _ B m I). lia.
  - intros t' d' I. destruct (ii_queue _ _ _ _ _ B t' d') as [X' L']; [by right|]. split; [done|].
    assert (d <= d'); [|lia]. apply F, list_elem_of_fmap. exists (t', d'). by rewrite list_elem_of_In.
  - intros t' d' I [E%elem_of_singleton|V]%elem_of_union.
    + apply N. rewrite <- E. apply list_elem_of_In, in_map_iff. by exists (t', d').
    + eapply (ii_visited _ _ _ _ _ B); [by right|done].
  - intros k [->%elem_of_singleton|V]%elem_of_union; [|by apply (ii_known _ _ _ _ _ B)].
    destruct X as [[-> _]|(m & I & -> & _)]; [by left|right; by exists m].
  - pose proof (ii_count _ _ _ _ _ B) as C. cbn in C. lia.
  - intros t' d' X'. destruct (ii_closed _ _ _ _ _ B t' d' X') as [[[= <- <-]|I]|H]; [right|by left|right].
    + intros x I. left. split_and!; [done..|]. by apply in_sort_on.
    + intros x I. destruct (H x I) as [(_ & _ & [])|R]. by right.
Qed.

(** No more symbols are impacted than the files define. *)
Lemma impacted_bounded level current rest taken s :
  impact_inv level current rest taken s -> length s.(Search.impacted) < impact_fuel files.
Proof.
  intros B. unfold impact_fuel. apply le_n_S.
  set (keys := flat_map (fun f => map (fun c =>
    (c.(CodeSymbol.name), (f.(IndexedFile.path), c.(CodeSymbol.line)))) f.(IndexedFile.symbols)) files).
  assert (length keys = sum_list (map (fun f => length f.(IndexedFile.symbols)) files)) as <-.
  { unfold keys. clear. induction files as [|f l IH]; [done|]. cbn. by rewrite length_app, length_map, IH. }
  rewrite <- (length_map node_key). apply NoDup_incl_length; [apply NoDup_ListNoDup, B|].
  intros k I. apply in_map_iff in I as (m & <- & I).
  assert (exists t d, In m (dependents t d)) as (t & d & J).
  { destruct (ii_caused _ _ _ _ _ B m I) as [[_ J]|(p & _ & _ & J)]; by do 2 eexists. }
  apply dependents_in in J as (_ & f & c & If & Ic & ->). apply in_flat_map. exists f. split; [done|].
  apply in_map_iff. by exists c.
Qed.

Lemma impact_loop_spec fuel level current taken s n : 1 <= max_depth ->
  impact_inv level current [] taken s -> impact_fuel files <= fuel + taken ->
  exists s', (impact_loop provider never fuel files request max_depth seed_keys s n).1 = inl s' /\
    s'.(Search.queue) = [] /\ exists level current taken, impact_inv level current [] taken s'.
Proof.
  intros M. revert level current taken s n. induction fuel as [|fuel IH]; intros level current taken s n B L.
  - destruct s as [[|[t d] queue] visited seen impacted]; [eexists; split; [done|]; split; [done|]; by do 3 eexists|].
    pose proof (ii_count _ _ _ _ _ B). pose proof (impacted_bounded _ _ _ _ _ B). cbn in *. lia.
  - destruct s as [[|[t d] queue] visited seen impacted]; [eexists; split; [done|]; split; [done|]; by do 3 eexists|].
    destruct (impact_pop _ _ _ _ _ _ _ _ _ M B) as (V & D & X & B').
    cbn [impact_loop Search.queue Search.visited Search.seen Search.impacted].
    unfold bind_op, check_cancelled, never. cbv beta iota zeta. unfold impact_turn.
    cbn [Search.queue Search.visited Search.seen Search.impacted].
    rewrite bool_decide_eq_false_2 by done.
    destruct (Nat.leb_spec max_depth d) as [?|_]; [lia|].
    eapply IH; [|instantiate (1 := S taken); lia].
    apply impact_fold; [exact B'| |done..].
    intros x I%in_sort_on. by rewrite Nat.add_1_r in I.
Qed.

Lemma impact_start : impact_inv 0 (seed_target request) [] 0
  (Search.Mk [(seed_target request, 0)] ∅ seed_keys []).
Proof.
  split; cbn; try done.
  - intros k. split; [by left|]. by intros [?|[]].
  - apply NoDup_nil_2.
  - intros t d [[= <- <-]|[]]. split; [by left|lia].
  - by repeat constructor.
  - apply NoDup_singleton.
  - intros t d [[-> ->]|(m & [] & _)]. left. by left.
Qed.

Lemma impact_bfs_spec n : 1 <= max_depth -> exists all,
  (impact_bfs provider never files request max_depth seed_keys n).1 = inl all /\
  StronglySorted (fun a b => impact_leb (impact_order a) (impact_order b) = true) all /\
  NoDup (map node_key all) /\
  (forall m, In m all -> node_key m ∉ seed_keys /\ m.(ImpactSymbol.depth) <= max_depth /\ caused all m) /\
  (forall x, In x (dependents (seed_target request) 1) -> recorded all 1 x) /\
  (forall m, In m all -> m.(ImpactSymbol.depth) < max_depth ->
     forall x, In x (dependents (target_from_node m) (m.(ImpactSymbol.depth) + 1)) ->
       recorded all (m.(ImpactSymbol.depth) + 1) x).
Proof.
  intros M. destruct (impact_loop_spec (impact_fuel files) 0 (seed_target request) 0 _ n M impact_start
    ltac:(lia)) as (s & E & Q & level & current & taken & B).
  exists (sort_impacts s.(Search.impacted)). unfold impact_bfs, bind_op.
  destruct (impact_loop _ _ _ _ _ _ _ _ n) as [r n'] eqn:R. cbn in E. subst r.
  assert (forall m, In m (sort_impacts s.(Search.impacted)) <-> In m s.(Search.impacted)) as I
    by (intros; apply in_sort_on).
  assert (forall d x, recorded s.(Search.impacted) d x -> recorded (sort_impacts s.(Search.impacted)) d x)
    as RS by (intros d x (m & J & K); exists m; by rewrite I).
  assert (forall t d x, expandable s.(Search.impacted) t d -> In x (dependents t (d + 1)) ->
    recorded (sort_impacts s.(Search.impacted)) (d + 1) x) as C.
  { intros t d x X J. apply RS. destruct (ii_closed _ _ _ _ _ B t d X) as [K|K]; [by rewrite Q in K|].
    destruct (K x J) as [(_ & _ & [])|?]. done. }
  split_and!.
  - done.
  - apply sort_on_sorted. unfold impact_leb. apply _.
  - unfold sort_impacts. rewrite sort_on_perm. apply B.
  - intros m J%I. split; [by apply (ii_fresh _ _ _ _ _ B)|].
    split; [apply (ii_depth _ _ _ _ _ B m J)|].
    destruct (ii_caused _ _ _ _ _ B m J) as [?|(p & K & ?)]; [by left|right; exists p; by rewrite I].
  - intros x J. apply (C (seed_target request) 0); [by left|done].
  - intros m J%I D x K. eapply C; [right; by exists m|done].
Qed.
End impact.

(** The impact of a change, sorted, names each symbol once and never a definition of the seed; each
    entry refers to the seed or to an entry a level before, what refers to an entry above the depth
    limit is an entry itself at its depth or less, and the page is a prefix of it all. *)
Theorem analyze_impact_spec provider files (request : ImpactAnalysisRequest.t) n :
  let depth := request.(ImpactAnalysisRequest.max_depth) `max` 1 in
  let page := request.(ImpactAnalysisRequest.max_results) `max` 1 in
  let seeds := impact_keys_from_definitions (seed_definitions provider files request)
                 request.(ImpactAnalysisRequest.symbol) in
  exists r all, (analyze_impact provider never files request n).1 = inl r /\
    r.(ImpactAnalysisResponse.impacted) = take page all /\
    r.(ImpactAnalysisResponse.total) = length all /\
    r.(ImpactAnalysisResponse.truncated) = (page <? length all) /\
    StronglySorted (fun a b => impact_leb (impact_order a) (impact_order b) = true) all /\
    NoDup (map node_key all) /\
    (forall m, In m all -> node_key m ∉ seeds /\ m.(ImpactSymbol.depth) <= depth /\
       caused provider files request seeds all m) /\
    (forall x, In x (dependents provider files request seeds (seed_target request) 1) ->
       recorded all 1 x) /\
    (forall m, In m all -> m.(ImpactSymbol.depth) < depth ->
       forall x, In x (dependents provider files request seeds (target_from_node m)
                         (m.(ImpactSymbol.depth) + 1)) ->
       recorded all (m.(ImpactSymbol.depth) + 1) x).
Proof.
  intros depth page seeds.
  destruct (impact_bfs_spec provider files request depth seeds n ltac:(lia)) as (all & E & H).
  unfold analyze_impact, bind_op. fold depth page seeds.
  destruct (impact_bfs _ _ _ _ _ _ n) as [r n']. cbn in E. subst r.
  eexists _, all. split; [done|]. split_and!; done || apply H.
Qed.

(** * The inverted index and the enclosing symbol *)

Lemma filter_map_count {A B} (p : B -> bool) (f : A -> B) l :
  length (List.filter p (map f l)) = length (List.filter (fun x => p (f x)) l).
Proof. induction l as [|x l IH]; [done|]. cbn. destruct (p (f x)); cbn; by rewrite IH. Qed.

Lemma filter_const {A} (b : bool) (l : list A) : List.filter (fun _ => b) l = if b then l else [].
Proof. induction l as [|x l IH]; [by destruct b|]. cbn. rewrite IH. by destruct b. Qed.

Lemma imap_from {A} (l : list A) n idx file :
  In (idx, file) (imap (fun i => pair (n + i)) l) <-> exists i, idx = n + i /\ l !! i = Some file.
Proof.
  rewrite <- list_elem_of_In, elem_of_lookup_imap. split.
  - intros (i & y & [= -> ->] & L). by exists i.
  - intros (i & -> & L). by exists i, file.
Qed.

(** [find_references] counts and locates the definitions of a name exactly as a scan of every
    symbol of every file would. *)
Theorem definition_index_scans files (request : NavigateRequest.t) :
  let in_scope file := language_matches request.(NavigateRequest.language) file.(IndexedFile.language) in
  let matches file := List.filter (named request.(NavigateRequest.symbol)) file.(IndexedFile.symbols) in
  let defs := DefinitionNameIndex.build files in
  count_definitions defs files request =
    sum_list (map (fun file => if in_scope file then length (matches file) else 0) files) /\
  forall idx, idx ∈ definition_file_indexes defs files request <->
    exists file, files !! idx = Some file /\ in_scope file = true /\ matches file <> [].
Proof.
  intros in_scope matches defs. unfold count_definitions, definition_file_indexes, defs.
  rewrite occurrences_scan. split.
  - assert (forall k l, (forall i, files !! (k + i) = l !! i) ->
      length (List.filter (in_language files request.(NavigateRequest.language))
        (flat_map (fun '(idx, file) => map (fun _ => idx) (matches file)) (imap (fun i => pair (k + i)) l))) =
      sum_list (map (fun file => if in_scope file then length (matches file) else 0) l)) as G;
      [|by apply (G 0)].
    intros k l. revert k. induction l as [|file l IH]; intros k L; [done|].
    cbn [imap flat_map map sum_list]. rewrite List.filter_app, length_app, filter_map_count, filter_const.
    f_equal.
    + unfold in_language. rewrite L. cbn. fold (in_scope file). by destruct (in_scope file).
    + rewrite <- (IH (S k)); [|intros i; rewrite Nat.add_succ_comm; apply (L (S i))].
      do 3 f_equal. apply imap_ext. intros i ? _. cbn. by rewrite Nat.add_succ_r.
  - intros idx. rewrite elem_of_list_to_set, list_elem_of_In, filter_In, in_flat_map. split.
    + intros [([i file] & I & J) L]. apply in_map_iff in J as (c & <- & J).
      apply (imap_from files 0) in I as (j & -> & F). unfold in_language in L. cbn in *. rewrite F in L.
      exists file. split; [done|]. split; [done|]. intros E. unfold matches in E. by rewrite E in J.
    + intros (file & F & L & N). unfold in_language. rewrite F. split; [|done].
      exists (idx, file). split; [apply (imap_from files 0); by exists idx|].
      destruct (matches file) as [|c cs] eqn:E; [done|]. cbn. unfold matches in E. rewrite E. by left.
Qed.

Section enclosing.
Context (provider : Provider.t) (file : IndexedFile.t) (line : nat).

(** The block of a symbol holds the line and has this many lines after its first. *)
Definition holds_line (symbol : CodeSymbol.t) (size : nat) : Prop :=
  symbol.(CodeSymbol.line) <= line /\
  exists first last, span_of provider file symbol.(CodeSymbol.line) = Some (first, last) /\
    first <= line <= last /\ size = last - first.

Lemma enclosing_fold symbols best :
  (forall b, best = Some b -> In b.1 file.(IndexedFile.symbols) /\ holds_line b.1 b.2) ->
  (forall s, In s symbols -> In s file.(IndexedFile.symbols)) ->
  match fold_left (enclosing_step provider file line) symbols best with
  | Some (symbol, size) =>
      In symbol file.(IndexedFile.symbols) /\ holds_line symbol size /\
      (forall b, best = Some b -> size <= b.2) /\
      forall s k, In s symbols -> holds_line s k -> size <= k
  | None => best = None /\ forall s k, In s symbols -> ~ holds_line s k
  end.
Proof.
  revert best. induction symbols as [|s symbols IH]; intros best H I; cbn.
  - destruct best as [[b k]|]; [|by split]. destruct (H _ eq_refl). split_and!; try done.
    by intros ? [= <-].
  - assert (forall s, In s symbols -> In s file.(IndexedFile.symbols)) as I' by (intros; apply I; by right).
    assert (forall k, holds_line s k ->
      (exists b, enclosing_step provider file line best s = Some b /\ b.2 <= k)) as W.
    { intros k (L & a & b & E & R & ->). unfold enclosing_step. rewrite E.
      destruct (Nat.ltb_spec line s.(CodeSymbol.line)) as [?|_]; [lia|].
      destruct (Nat.leb_spec a line) as [_|?], (Nat.leb_spec line b) as [_|?]; try lia. cbn [andb].
      destruct best as [[x y]|]; [|by eexists].
      destruct (Nat.ltb_spec (b - a) y); eexists; (split; [done|]); cbn; lia. }
    assert (enclosing_step provider file line best s = best \/
      exists k, enclosing_step provider file line best s = Some (s, k) /\ holds_line s k /\
        forall b, best = Some b -> k <= b.2) as T.
    { unfold enclosing_step. destruct (Nat.ltb_spec line s.(CodeSymbol.line)) as [?|L]; [by left|].
      destruct (span_of provider file s.(CodeSymbol.line)) as [[a b]|] eqn:E; [|by left].
      destruct (_ && _ && _) eqn:C; [right|by left]. apply andb_prop in C as [[C1 C2]%andb_prop C3].
      apply Nat.leb_le in C1, C2. eexists. split; [done|]. split.
      - split; [done|]. by exists a, b.
      - intros [x y] ->. apply Nat.ltb_lt in C3. cbn. lia. }
    specialize (IH (enclosing_step provider file line best s)).
    destruct (fold_left _ symbols _) as [[symbol size]|].
    + destruct IH as (J1 & J2 & J3 & J4); [|done|].
      { destruct T as [->|(k & -> & K & _)]; [done|]. intros b [= <-]. split; [apply I; by left|done]. }
      split_and!; [done..| |].
      * intros b E. destruct T as [T|(k & T & _ & K)]; [by apply J3; rewrite T|].
        specialize (J3 _ T). specialize (K _ E). cbn in *. lia.
      * intros x k [->|X] Hk; [|by eapply J4]. destruct (W k Hk) as (b & E & Lb).
        specialize (J3 _ E). lia.
    + destruct IH as [J1 J2]; [|done|].
      { destruct T as [->|(k & -> & K & _)]; [done|]. intros b [= <-]. split; [apply I; by left|done]. }
      split.
      * destruct T as [T|(k & T & _)]; congruence.
      * intros x k [->|X]; [|by apply J2]. intros Hk. destruct (W k Hk) as (b & E & _). congruence.
Qed.

(** The enclosing symbol is one of the smallest blocks that hold the line, if any does. *)
Lemma enclosing_symbol_spec :
  match enclosing_symbol provider file line with
  | Some symbol => In symbol file.(IndexedFile.symbols) /\ exists size, holds_line symbol size /\
      forall s k, In s file.(IndexedFile.symbols) -> holds_line s k -> size <= k
  | None => forall s k, In s file.(IndexedFile.symbols) -> ~ holds_line s k
  end.
Proof.
  pose proof (enclosing_fold file.(IndexedFile.symbols) None ltac:(done) ltac:(done)) as H.
  unfold enclosing_symbol. destruct (fold_left _ _ _) as [[symbol size]|]; cbn.
  - destruct H as (? & ? & _ & ?). split; [done|]. by exists size.
  - by destruct H.
Qed.
End enclosing.

(** * [read_symbol] *)

Lemma clamp_span_bounds span total : 1 <= total ->
  1 <= (clamp_span span total).1 <= (clamp_span span total).2 /\ (clamp_span span total).2 <= total.
Proof. unfold clamp_span. cbn. lia. Qed.

Lemma content_for_span_lines source first last :
  1 <= first <= last -> last <= length (split_inclusive source) `max` 1 ->
  content_for_span source (first, last) =
    concat_str (take (last - (first - 1)) (drop (first - 1) (split_inclusive source))).
Proof.
  intros F L. unfold content_for_span. cbn. destruct (split_inclusive source) as [|p ps] eqn:E; [by rewrite drop_nil, take_nil|].
  f_equal. rewrite take_drop_commute. do 2 f_equal. lia.
Qed.

Lemma content_in_source source first last :
  1 <= first <= last -> last <= length (split_inclusive source) `max` 1 ->
  exists before after, source = before +:+ content_for_span source (first, last) +:+ after.
Proof.
  intros F L. rewrite content_for_span_lines by done. set (lines := split_inclusive source).
  exists (concat_str (take (first - 1) lines)),
    (concat_str (drop (last - (first - 1)) (drop (first - 1) lines))).
  rewrite <- concat_str_app, take_drop, <- concat_str_app, take_drop. symmetry. apply concat_split_inclusive.
Qed.

Lemma length_flat_map_if {A B C} (p : A -> bool) (g : A -> B -> C) (h : A -> list B) l :
  length (flat_map (fun a => if p a then map (g a) (h a) else []) l) =
  sum_list (map (fun a => if p a then length (h a) else 0) l).
Proof.
  induction l as [|a l IH]; [done|]. simpl. rewrite length_app, IH. f_equal.
  destruct (p a); [apply length_map|done].
Qed.

Section read.
Context (provider : Provider.t).

Lemma collect_matches_spec files request n :
  (collect_matches provider never files request n).1 =
  inl (flat_map (fun file =>
    if file_matches request file then
      map (fun symbol => (symbol_location provider file symbol, file))
        (List.filter (symbol_matches request) file.(IndexedFile.symbols))
    else []) files).
Proof.
  revert n. induction files as [|file files IH]; intros n; [done|].
  cbn [collect_matches flat_map]. unfold bind_op at 1, check_cancelled, never. cbv beta iota zeta.
  unfold bind_op. specialize (IH (S n)). unfold never in IH.
  destruct (collect_matches _ _ _ _ _) as [r n']. cbn in IH. by subst r.
Qed.

(** The lines [b] reports of the text [src], and their content. *)
Definition body_of (src : string) (b : ReadSymbolBody.t) : Prop :=
  (exists before after, src = before +:+ b.(ReadSymbolBody.content) +:+ after) /\
  1 <= b.(ReadSymbolBody.start_line) <= b.(ReadSymbolBody.end_line) /\
  b.(ReadSymbolBody.end_line) <= length (split_inclusive src) `max` 1 /\
  b.(ReadSymbolBody.content) = concat_str
    (take (b.(ReadSymbolBody.end_line) - (b.(ReadSymbolBody.start_line) - 1))
       (drop (b.(ReadSymbolBody.start_line) - 1) (split_inclusive src))).

Lemma symbol_body_spec location file b : symbol_body provider (location, file) = Some b ->
  b.(ReadSymbolBody.path) = location.(SymbolLocation.path) /\
  exists src, source provider file = Some src /\ body_of src b.
Proof.
  unfold symbol_body. intros H. apply fmap_Some in H as (src & E & ->). split; [done|]. exists src.
  split; [done|]. set (span := symbol_span _ _ _ _).
  assert (1 <= span.1 <= span.2 /\ span.2 <= length (split_inclusive src) `max` 1) as [B1 B2]
    by (apply clamp_span_bounds; lia).
  unfold body_of. cbn [ReadSymbolBody.content ReadSymbolBody.start_line ReadSymbolBody.end_line].
  rewrite (surjective_pairing span). split; [by apply content_in_source|].
  split; [done|]. split; [done|]. by apply content_for_span_lines.
Qed.

(** A body is returned exactly for the one symbol that matches, when it is asked for and its file
    can be read; it is whole lines of the file, from the first to the last line it reports. *)
Theorem read_symbol_body files (request : ReadSymbolRequest.t) n :
  exists r, (read_symbol provider never files request n).1 = inl r /\
  r.(ReadSymbolResponse.total) =
    sum_list (map (fun file => if file_matches request file then
      length (List.filter (symbol_matches request) file.(IndexedFile.symbols)) else 0) files) /\
  match r.(ReadSymbolResponse.body) with
  | None => request.(ReadSymbolRequest.include_body) = false \/ r.(ReadSymbolResponse.total) <> 1 \/
      exists file symbol, In file files /\ In symbol file.(IndexedFile.symbols) /\
        symbol_matches request symbol = true /\ source provider file = None
  | Some b => request.(ReadSymbolRequest.include_body) = true /\ r.(ReadSymbolResponse.total) = 1 /\
      exists file symbol src, In file files /\ In symbol file.(IndexedFile.symbols) /\
        file_matches request file = true /\ symbol_matches request symbol = true /\
        b.(ReadSymbolBody.path) = file.(IndexedFile.path) /\ source provider file = Some src /\
        body_of src b
  end.
Proof.
  unfold read_symbol, bind_op. pose proof (collect_matches_spec files request n) as C.
  destruct (collect_matches _ _ _ _ _) as [r n']. cbn in C. subst r.
  set (found := flat_map _ files). eexists. split; [done|]. split.
  - cbn. rewrite sort_on_perm.
    exact (length_flat_map_if (file_matches request)
      (fun file symbol => (symbol_location provider file symbol, file))
      (fun file => List.filter (symbol_matches request) file.(IndexedFile.symbols)) files).
  - cbn [ReadSymbolResponse.body ReadSymbolResponse.total].
    destruct request.(ReadSymbolRequest.include_body); [|by left].
    cbn [andb]. pose proof (in_sort_on (lex_leb string_leb (lex_leb Nat.leb (lex_leb string_leb
      (option_leb string_leb)))) match_order found) as SI.
    revert SI. destruct (sort_on _ match_order found) as [|p ps]; intros SI; [by right; left|].
    set (sorted := p :: ps) in *.
    destruct (Nat.eqb_spec (length sorted) 1) as [T|T]; [|by right; left].
    assert (forall q, In q sorted -> exists file symbol, In file files /\
      In symbol file.(IndexedFile.symbols) /\ file_matches request file = true /\
      symbol_matches request symbol = true /\ q = (symbol_location provider file symbol, file)) as O.
    { intros q I%SI. apply in_flat_map in I as (file & If & I).
      destruct (file_matches request file) eqn:M; [|done].
      apply in_map_iff in I as (symbol & <- & I). apply filter_In in I as [Is Sm]. by exists file, symbol. }
    destruct ps as [|? ?]; [|done]. clear T.
    destruct (O p ltac:(by left)) as (file & symbol & If & Is & M & Sm & ->).
    assert (exists k, request.(ReadSymbolRequest.max_matches) `max` 1 = S k) as [k ->]
      by (exists (request.(ReadSymbolRequest.max_matches) - 1); lia).
    subst sorted. cbn [take]. destruct (symbol_body _ _) as [b|] eqn:E.
    + apply symbol_body_spec in E as (P & src & E & B). split; [done|]. split; [done|].
      by exists file, symbol, src.
    + right. right. exists file, symbol. split_and!; try done.
      by apply fmap_None in E.
Qed.
End read.

(** * The language filter of a trace *)

Module FilterDemo.
Definition block : Syntax.node :=
  Syntax.Node true (Syntax.Point 0 0) (Syntax.Point 2 1) 0 30 false [].
Definition root : Syntax.node :=
  Syntax.Node true (Syntax.Point 0 0) (Syntax.Point 3 0) 0 31 false [block].
Definition provider : Provider.t := Provider.Mk (fun _ _ => Some "fn f() {") (fun _ _ => Some (Some root)).
Definition symbol (name : string) : CodeSymbol.t := CodeSymbol.Mk "function" name 1 1 None [].
Definition files : list IndexedFile.t :=
  [IndexedFile.Mk "a.rs" "a.rs" "/r/a.rs" "rust" [symbol "run"] [CodeReference.new "call" "step" 2] false;
   IndexedFile.Mk "b.py" "b.py" "/r/b.py" "python" [symbol "step"] [] false].
Definition request : TracePathRequest.t := TracePathRequest.Mk "run" "step" 8 (Some "rust").
End FilterDemo.

(** The filter of a trace applies to the files calls are in, not to the definitions they reach: a path
    filtered to one language may end in another, in which alone its target is defined. *)
Lemma trace_filter_is_of_callers :
  (trace_path FilterDemo.provider never FilterDemo.files FilterDemo.request 0).1 =
    inl (TracePathResponse.Mk "run" "step" true 8
           [PathStep.Mk "run" "a.rs" 1; PathStep.Mk "step" "b.py" 1] TRACE_NOTE) /\
  first_definition FilterDemo.provider FilterDemo.files "step" (Some "rust") = None.
Proof. by vm_compute. Qed.
