(* ===== verification/RepoMap.v ===== *)
(** The repository map ([nerve-core/src/repomap]): the weighted graph of references between files, the
    personalised PageRank over it, the seeds of a query, the ranked response; and the memo of values
    derived from a snapshot ([graph/snapshot_memo.rs]).

    Then what is proved of it. What the repository map promises: the memo answers each snapshot with a value built for it, under
    every interleaving; the graph's edges stay among its files; the ranking of a graph built from the
    same files never leaves its vectors. *)
From stdpp Require Import gmap strings.
From Stdlib Require Import SpecFloat.
From Stdlib Require Import SpecFloat Sorting.Sorted.
From S2P Require Import Prelude Text BTree EditText Paths FlowDefs History CodeGraph Navigate NavigateSpec.
Open Scope nerve_scope.

(** * [language.rs] *)

Definition language_file_counts (files : list IndexedFile.t) : gmap string nat :=
  fold_left (fun counts file =>
      let family := language_family file.(IndexedFile.language) in
      <[family := default 0 (counts !! family) + 1]> counts) files ∅.

Definition GO_STOPWORDS : list string :=
  ["break"; "case"; "chan"; "const"; "continue"; "default"; "defer"; "else"; "fallthrough"; "for";
   "func"; "go"; "goto"; "if"; "import"; "interface"; "map"; "package"; "range"; "return"; "select";
   "struct"; "switch"; "type"; "var"; "append"; "cap"; "clear"; "close"; "complex"; "copy"; "delete";
   "imag"; "len"; "make"; "max"; "min"; "new"; "panic"; "print"; "println"; "real"; "recover"; "any";
   "bool"; "byte"; "comparable"; "complex64"; "complex128"; "error"; "float32"; "float64"; "int";
   "int8"; "int16"; "int32"; "int64"; "rune"; "string"; "uint"; "uint8"; "uint16"; "uint32"; "uint64";
   "uintptr"; "false"; "true"; "iota"; "nil"; "err"; "ctx"; "ok"].

Definition RUST_STOPWORDS : list string :=
  ["Self"; "abstract"; "as"; "async"; "await"; "become"; "box"; "break"; "const"; "continue"; "crate";
   "do"; "dyn"; "else"; "enum"; "extern"; "false"; "final"; "fn"; "for"; "if"; "impl"; "in"; "let";
   "loop"; "macro"; "match"; "mod"; "move"; "mut"; "override"; "priv"; "pub"; "ref"; "return"; "self";
   "static"; "struct"; "super"; "trait"; "true"; "try"; "type"; "typeof"; "unsafe"; "unsized"; "use";
   "virtual"; "where"; "while"; "yield"; "Result"; "Option"; "Some"; "None"; "Ok"].

Definition PYTHON_STOPWORDS : list string :=
  ["False"; "None"; "True"; "and"; "as"; "assert"; "async"; "await"; "break"; "class"; "continue";
   "def"; "del"; "elif"; "else"; "except"; "finally"; "for"; "from"; "global"; "if"; "import"; "in";
   "is"; "lambda"; "nonlocal"; "not"; "or"; "pass"; "raise"; "return"; "self"; "try"; "while"; "with";
   "yield"; "print"].

Definition JAVASCRIPT_STOPWORDS : list string :=
  ["arguments"; "async"; "await"; "break"; "case"; "catch"; "class"; "const"; "continue"; "debugger";
   "default"; "delete"; "do"; "else"; "export"; "extends"; "false"; "finally"; "for"; "from";
   "function"; "get"; "if"; "import"; "in"; "instanceof"; "let"; "new"; "null"; "of"; "return"; "set";
   "static"; "super"; "switch"; "target"; "this"; "throw"; "true"; "try"; "typeof"; "undefined"; "var";
   "void"; "while"; "with"; "yield"].

Definition language_keywords (language : string) : list string :=
  if String.eqb language "rust" then RUST_STOPWORDS
  else if String.eqb language "python" then PYTHON_STOPWORDS
  else if String.eqb language "javascript" then JAVASCRIPT_STOPWORDS
  else if String.eqb language "go" then GO_STOPWORDS
  else [].

Definition is_identifier_start (byte : ascii) : bool := Ascii.eqb byte "_" || is_ascii_alphabetic byte.
Definition is_identifier_continue (byte : ascii) : bool :=
  Ascii.eqb byte "_" || is_ascii_alphanumeric byte.

Definition is_identifier (name : string) : bool :=
  match name with
  | EmptyString => false
  | String first rest => is_identifier_start first && all_bytes is_identifier_continue rest
  end.

Definition is_reference_stopword (identifier language : string) : bool :=
  negb (is_identifier identifier) || (String.length identifier <? 3) ||
  existsb (String.eqb identifier) (language_keywords language).

Definition HIGH_DF_MIN_FILES : nat := 4.
Definition HIGH_DF_MAX_NUMERATOR : nat := 1.
Definition HIGH_DF_MAX_DENOMINATOR : nat := 4.

Definition is_high_document_frequency (definer_count language_file_count : nat) : bool :=
  (HIGH_DF_MIN_FILES <=? definer_count) &&
  (language_file_count * HIGH_DF_MAX_NUMERATOR <? definer_count * HIGH_DF_MAX_DENOMINATOR).

(** * [graph.rs] *)

Definition one : f64 := S754_finite false 4503599627370496 (-52).
Definition IMPORT_EDGE_WEIGHT : f64 := S754_finite false 4503599627370496 (-49).
Definition fdiv (a b : f64) : f64 := SFdiv 53 1024 a b.
Definition f64_of_nat (n : nat) : f64 := binary_normalize 53 1024 (Z.of_nat n) 0 false.
Definition f_is_zero (a : f64) : bool := match a with S754_zero _ => true | _ => false end.

(** The files that define a name, by family and name. *)
Abbreviation Definitions := (gmap string (gmap string (gset nat))).

Definition define (idx : nat) (family name : string) (definitions : Definitions) : Definitions :=
  let by_name := default ∅ (definitions !! family) in
  <[family := <[name := {[idx]} ∪ default ∅ (by_name !! name)]> by_name]> definitions.

Definition definition_index (files : list IndexedFile.t) (language_file_counts : gmap string nat)
    : Definitions :=
  let definitions :=
    fold_left (fun definitions '(idx, file) =>
        let family := language_family file.(IndexedFile.language) in
        fold_left (fun definitions symbol =>
            if is_reference_stopword symbol.(CodeSymbol.name) family then definitions
            else define idx family symbol.(CodeSymbol.name) definitions)
          file.(IndexedFile.symbols) definitions)
      (imap pair files) (∅ : Definitions) in
  map_imap (fun family by_name =>
    let file_count := default 0 (language_file_counts !! family) in
    Some (filter (fun '(_, definers) =>
            is_high_document_frequency (size definers) file_count = false) by_name)) definitions.

Definition reference_sort_key (r : CodeReference.t)
    : string * (string * (nat * (option string * option string))) :=
  (r.(CodeReference.kind), (r.(CodeReference.name), (r.(CodeReference.line),
    (r.(CodeReference.import_path), r.(CodeReference.language))))).

Definition sort_references : list CodeReference.t -> list CodeReference.t :=
  sort_on (lex_leb string_leb (lex_leb string_leb (lex_leb Nat.leb
    (lex_leb (option_leb string_leb) (option_leb string_leb))))) reference_sort_key.

(** The edges out of one file: a [BTreeMap] from file to weight. *)
Abbreviation EdgeMap := (list (nat * f64)).

Definition add_weight (target : nat) (weight : f64) (edges : EdgeMap) : EdgeMap :=
  bt_entry Nat.leb target fzero (fun w => fadd w weight) edges.

Definition add_reference (files : list IndexedFile.t) (definitions : Definitions) (referencer_idx : nat)
    (file : IndexedFile.t) (edges : EdgeMap) (reference : CodeReference.t) : EdgeMap :=
  let reference_language :=
    language_family (CodeReference.effective_language reference file.(IndexedFile.language)) in
  if is_reference_stopword reference.(CodeReference.name) reference_language then edges
  else
    let edges :=
      if String.eqb reference.(CodeReference.kind) "import" then
        match resolve_import_reference files referencer_idx reference with
        | Some definer_idx =>
            if definer_idx =? referencer_idx then edges
            else add_weight definer_idx IMPORT_EDGE_WEIGHT edges
        | None => edges
        end
      else edges in
    match definitions !! reference_language with
    | None => edges
    | Some by_name =>
        match by_name !! reference.(CodeReference.name) with
        | None => edges
        | Some definers =>
            fold_left (fun edges definer_idx =>
                if definer_idx =? referencer_idx then edges else add_weight definer_idx one edges)
              (sort_by Nat.leb (elements definers)) edges
        end
    end.

Module ReferenceGraph.
Record t := Mk { edges : list EdgeMap; symbols_indexed : nat; edge_count : nat }.
End ReferenceGraph.

(** * [mod.rs] *)

Module RepoMapRequest.
Record t := Mk { query : option string; seed_paths : list string; max_files : nat }.
Definition default : t := Mk None [] 20.
End RepoMapRequest.

Module RepoMapFile.
Record t := Mk {
  rank : nat;
  path : string;
  display_path : string;
  language : string;
  score : string;
  symbols : list CodeSymbol.t }.
End RepoMapFile.

Module RepoMapTotals.
Record t := Mk {
  scanned_files : nat;
  indexed_files : nat;
  symbols_indexed : nat;
  edges : nat;
  seed_files : nat;
  omitted_files : nat;
  max_files : nat;
  damping : string;
  iterations : nat }.
End RepoMapTotals.

Module RepoMapResponse.
Record t := Mk {
  files : list RepoMapFile.t;
  diagnostics : list (string * string);
  totals : RepoMapTotals.t;
  reference_heuristic : string }.
End RepoMapResponse.

Definition REFERENCE_HEURISTIC : string :=
  "AST node-level references (imports/calls/type/name/member nodes) matched by same-language top-level symbol name; import paths that resolve to catalog files get higher weight; not a full scope/type/alias/re-export resolver".

Section repomap.
Context (cancelled : nat -> bool).

Fixpoint build_edges (files : list IndexedFile.t) (definitions : Definitions)
    (pending : list (nat * IndexedFile.t)) : Op (list EdgeMap) :=
  match pending with
  | [] => ret []
  | (referencer_idx, file) :: pending =>
      do! _ := check_cancelled cancelled in
      do! rest := build_edges files definitions pending in
      ret (fold_left (add_reference files definitions referencer_idx file)
             (sort_references file.(IndexedFile.references)) [] :: rest)
  end.

Definition build_graph (files : list IndexedFile.t) : Op ReferenceGraph.t :=
  let definitions := definition_index files (language_file_counts files) in
  do! edges := build_edges files definitions (imap pair files) in
  ret (ReferenceGraph.Mk edges
         (sum_list (map (fun '(_, by_name) =>
            sum_list (map (fun '(_, definers) => size (definers : gset nat)) (map_to_list by_name)))
            (map_to_list (definitions : Definitions))))
         (sum_list (map length edges))).

(** * [rank.rs] *)

(** [0.85], as the nearest binary64. *)
Definition DAMPING : f64 := S754_finite false 7656119366529843 (-53).
Definition ITERATIONS : nat := 30.

(** A slice indexed outside its bounds panics: [None]. *)
Definition spread_one (rank total_weight : f64) (next : option (list f64)) (edge : nat * f64)
    : option (list f64) :=
  next ← next;
  x ← next !! edge.1;
  Some (<[edge.1 := fadd x (fmul rank (fdiv edge.2 total_weight))]> next).

Definition spread (ranks : list f64) (state : option (list f64 * f64)) (source : nat * EdgeMap)
    : option (list f64 * f64) :=
  let '(source_idx, outgoing) := source in
  state ← state;
  let '(next, dangling) := state in
  rank ← ranks !! source_idx;
  match outgoing with
  | [] => Some (next, fadd dangling rank)
  | _ =>
      let total_weight := fold_left (fun sum '(_, weight) => fadd sum weight) outgoing fzero in
      if f_is_zero total_weight then Some (next, fadd dangling rank)
      else
        next ← fold_left (spread_one rank total_weight) outgoing (Some next);
        Some (next, dangling)
  end.

Definition dampen (personalization : list f64) (dangling : f64) (next : option (list f64)) (idx : nat)
    : option (list f64) :=
  next ← next;
  p ← personalization !! idx;
  x ← next !! idx;
  Some (<[idx := fadd (fmul (fsub one DAMPING) p) (fmul DAMPING (fadd x (fmul dangling p)))]> next).

(** One iteration writes the buffer that is not the ranks', then swaps the two. *)
Definition rank_iteration (edges : list EdgeMap) (personalization : list f64)
    (buffers : list f64 * list f64) : option (list f64 * list f64) :=
  let '(ranks, next) := buffers in
  state ← fold_left (spread ranks) (imap pair edges) (Some (replicate (length next) fzero, fzero));
  let '(next, dangling) := state in
  next ← fold_left (dampen personalization dangling) (seq 0 (length edges)) (Some next);
  Some (next, ranks).

Fixpoint rank_iterations (iterations : nat) (edges : list EdgeMap) (personalization : list f64)
    (buffers : list f64 * list f64) : Op (option (list f64 * list f64)) :=
  match iterations with
  | 0 => ret (Some buffers)
  | S iterations =>
      do! _ := check_cancelled cancelled in
      match rank_iteration edges personalization buffers with
      | None => ret None
      | Some buffers => rank_iterations iterations edges personalization buffers
      end
  end.

Definition page_rank (edges : list EdgeMap) (personalization : list f64) : Op (option (list f64)) :=
  match length edges with
  | 0 => ret (Some [])
  | n =>
      do! buffers := rank_iterations ITERATIONS edges personalization (personalization, replicate n fzero) in
      ret (fst <$> buffers)
  end.

Definition personalization (n : nat) (seed_indices : gset nat) : option (list f64) :=
  if n =? 0 then Some []
  else if bool_decide (seed_indices = ∅) then Some (replicate n (fdiv one (f64_of_nat n)))
  else
    let seed_weight := fdiv one (f64_of_nat (size seed_indices)) in
    fold_left (fun vector idx =>
        vector ← vector; if idx <? length vector then Some (<[idx := seed_weight]> vector) else None)
      (sort_by Nat.leb (elements seed_indices)) (Some (replicate n fzero)).

(** * [query.rs] *)

Definition MIN_QUERY_TERM_LEN : nat := 3.

Definition QUERY_STOPWORDS : list string :=
  ["api"; "code"; "common"; "config"; "data"; "error"; "file"; "files"; "find"; "get"; "handling";
   "module"; "modules"; "new"; "old"; "project"; "repo"; "repository"; "set"; "test"; "tests"; "util";
   "utils"].

Definition normalized_query (query : option string) : option string :=
  match trim <$> query with
  | Some query => if String.eqb query EmptyString then None else Some query
  | None => None
  end.

Definition is_underscore (c : ascii) : bool := Ascii.eqb c "_".

Definition insert_term (raw : string) (terms : gset string) : gset string :=
  let term := lower (trim_end_chars is_underscore (trim_start_chars is_underscore raw)) in
  if (MIN_QUERY_TERM_LEN <=? String.length term) &&
     negb (all_bytes (fun c => negb (is_ascii_alphabetic c)) term) &&
     negb (existsb (String.eqb term) QUERY_STOPWORDS)
  then {[term]} ∪ terms else terms.

Definition camel_boundary (prev current : ascii) (next : option ascii) : bool :=
  is_ascii_uppercase current &&
  (is_ascii_lowercase prev || is_ascii_digit prev || match next with Some c => is_ascii_lowercase c | None => false end).

(** The runs of a part between its boundaries; [current] is the run so far. *)
Fixpoint camel_parts (current : string) (prev : ascii) (text : string) : list string :=
  match text with
  | EmptyString => [current]
  | String c rest =>
      let next := match rest with String n _ => Some n | EmptyString => None end in
      if camel_boundary prev c next then current :: camel_parts (String c EmptyString) c rest
      else camel_parts (current +:+ String c EmptyString) c rest
  end.

Definition insert_camel_parts (text : string) (terms : gset string) : gset string :=
  fold_left (fun terms part => insert_term part terms)
    (match text with
     | EmptyString => [EmptyString]
     | String c rest => camel_parts (String c EmptyString) c rest
     end) terms.

Definition identifier_terms (text : string) : gset string :=
  fold_left (fun terms raw =>
      fold_left (fun terms part => insert_camel_parts part (insert_term part terms))
        (split_on "_" raw) (insert_term raw terms))
    (split_outside (fun c => is_ascii_alphanumeric c || is_underscore c) EmptyString text) ∅.

Definition repo_query_terms (query : option string) : gset string :=
  match query with Some query => identifier_terms query | None => ∅ end.

Definition text_matches_terms (text : string) (terms : gset string) : bool :=
  if bool_decide (terms = ∅) then false
  else existsb (fun term => bool_decide (term ∈ terms)) (elements (identifier_terms text)).

Definition normalize_seed_paths (paths : list string) : list string :=
  List.filter nonempty
    (map (fun path =>
       let path := slashed path in
       trim_end_chars is_slash (trim_start_matches (String.length path) "./" path)) paths).

(** Whether a text has a character of Unicode's upper case is a table of the standard library. *)
Definition query_matches (has_uppercase : string -> bool) (path source query : string) : bool :=
  if has_uppercase query then contains_str query path || contains_str query source
  else contains_str (lower query) (lower path) || contains_str (lower query) (lower source).

(** * Seeds *)

Definition is_component_prefix (prefix path : string) : bool :=
  bool_decide (components prefix = take (length (components prefix)) (components path)).

Definition path_matches_seed (file : IndexedFile.t) (seed : string) : bool :=
  if String.eqb seed EmptyString then false
  else
    String.eqb file.(IndexedFile.path) seed || starts_under seed file.(IndexedFile.path) ||
    bool_decide (components file.(IndexedFile.abs_path) = components seed) ||
    is_component_prefix seed file.(IndexedFile.abs_path).

Definition file_matches_query_terms (file : IndexedFile.t) (query_terms : gset string) : bool :=
  text_matches_terms file.(IndexedFile.path) query_terms ||
  existsb (fun symbol => text_matches_terms symbol.(CodeSymbol.name) query_terms)
    file.(IndexedFile.symbols).

Definition seed_indices (files : list IndexedFile.t) (seed_paths : list string) (query_terms : gset string)
    : gset nat :=
  list_to_set (omap (fun '(idx, file) =>
    if file.(IndexedFile.query_match) || existsb (path_matches_seed file) seed_paths ||
       (match seed_paths with [] => true | _ => false end && file_matches_query_terms file query_terms)
    then Some idx else None) (imap pair files)).

(** * [symbols.rs] and the response *)

Definition MAX_SYMBOLS_PER_FILE : nat := 12.
Definition key_symbols (symbols : list CodeSymbol.t) : list CodeSymbol.t := take MAX_SYMBOLS_PER_FILE symbols.

(** [score_cmp]: the higher first, and equal when they do not compare. *)
Definition score_cmp (left right : f64) : comparison := default Eq (SFcompare right left).

Definition rank_leb (files : list IndexedFile.t) (a b : nat * f64) : bool :=
  match score_cmp a.2 b.2 with
  | Lt => true
  | Gt => false
  | Eq =>
      string_leb (default EmptyString (IndexedFile.path <$> files !! a.1))
        (default EmptyString (IndexedFile.path <$> files !! b.1))
  end.

Definition unsupported (results : list FileAnalysisResult.t) : nat :=
  length (List.filter (fun r => match r with FileAnalysisResult.Unsupported => true | _ => false end) results).

Definition diagnostics (results : list FileAnalysisResult.t) : list (string * string) :=
  omap (fun r => match r with
    | FileAnalysisResult.Diagnostic path message => Some (path, message)
    | _ => None
    end) results.

Context (show_score : f64 -> string).

(** The ranked files: one whose index is beyond the files panics. *)
Definition response_file (files : list IndexedFile.t) (position : nat) (ranked : nat * f64)
    : option RepoMapFile.t :=
  file ← files !! ranked.1;
  Some (RepoMapFile.Mk (position + 1) file.(IndexedFile.path) file.(IndexedFile.display_path)
    file.(IndexedFile.language) (show_score ranked.2) (key_symbols file.(IndexedFile.symbols))).

Definition ranked_response (scanned : nat) (files : list IndexedFile.t) (graph : ReferenceGraph.t)
    (diagnostics : list (string * string)) (omitted seeds max_files : nat) (scores : list f64)
    : option RepoMapResponse.t :=
  let ranked := sort_by (rank_leb files) (imap pair scores) in
  let total_ranked := length ranked in
  response_files ← mapM (fun '(position, r) => response_file files position r)
    (imap pair (take max_files ranked));
  Some (RepoMapResponse.Mk response_files diagnostics
    (RepoMapTotals.Mk scanned (length files) graph.(ReferenceGraph.symbols_indexed)
       graph.(ReferenceGraph.edge_count) seeds (omitted + (total_ranked - max_files)) max_files
       "0.85" ITERATIONS) REFERENCE_HEURISTIC).

Context (read_text : string -> string + NerveError.t).
Context (code_symbols_for_path :
  string -> string -> (option ParsedCodeFile.t + string) + NerveError.t).
Context (has_uppercase : string -> bool).

(** The graph is the memo's, for the snapshot; the files are read anew. *)
Definition get_repo_map (roots : nat) (entries : list Entry.t) (shared_graph : Op ReferenceGraph.t)
    (request : RepoMapRequest.t) : Op (option RepoMapResponse.t) :=
  do! _ := check_cancelled cancelled in
  let query := normalized_query request.(RepoMapRequest.query) in
  let query_terms := repo_query_terms query in
  let seed_paths := normalize_seed_paths request.(RepoMapRequest.seed_paths) in
  let max_files := request.(RepoMapRequest.max_files) `max` 1 in
  do! analyses := analyze_files cancelled read_text code_symbols_for_path (query_matches has_uppercase)
                    roots query entries in
  let files := sort_by path_leb (indexed analyses) in
  do! graph := shared_graph in
  let seeds := seed_indices files seed_paths query_terms in
  match personalization (length files) seeds with
  | None => ret None
  | Some vector =>
      do! scores := page_rank graph.(ReferenceGraph.edges) vector in
      ret (scores ← scores;
           ranked_response (length entries) files graph (diagnostics analyses) (unsupported analyses)
             (size seeds) max_files scores)
  end.
End repomap.

(** * [graph/snapshot_memo.rs] *)

Module SnapshotMemo.
Section memo.
Context {Snapshot Value : Type} (cap : nat).

(** Allocations of snapshots that are alive, by address. *)
Abbreviation Heap := (gmap nat Snapshot).

(** An entry's weak reference keeps its address from being used again, not its snapshot alive. *)
Abbreviation Entries := (list (nat * Value)).

(** The entries as the search leaves them, and where the snapshot's is. *)
Fixpoint position_of (heap : Heap) (snapshot : nat) (entries : Entries) : Entries * option nat :=
  match entries with
  | [] => ([], None)
  | (address, value) :: rest =>
      match heap !! address with
      | Some _ =>
          if address =? snapshot then ((address, value) :: rest, Some 0)
          else let '(rest, found) := position_of heap snapshot rest in
               ((address, value) :: rest, S <$> found)
      | None => position_of heap snapshot rest
      end
  end.

Definition take_entry (heap : Heap) (snapshot : nat) (entries : Entries) : Entries * option Value :=
  let '(entries, found) := position_of heap snapshot entries in
  match found with
  | None => (entries, None)
  | Some index => (delete index entries, snd <$> entries !! index)
  end.

Definition lookup (heap : Heap) (snapshot : nat) (entries : Entries) : Entries * option Value :=
  let '(entries, taken) := take_entry heap snapshot entries in
  match taken with
  | None => (entries, None)
  | Some value => ((snapshot, value) :: entries, Some value)
  end.

Definition insert (heap : Heap) (snapshot : nat) (built : Value) (entries : Entries) : Entries * Value :=
  let '(entries, taken) := take_entry heap snapshot entries in
  let value := default built taken in
  (take cap ((snapshot, value) :: entries), value).

(** A caller of [get_or_build], which holds its snapshot alive from the first to the last state. *)
Inductive caller :=
  | Calling (snapshot : nat)
  | Building (snapshot : nat)
  | Built (snapshot : nat) (value : Value)
  | Answered (snapshot : nat) (value : Value)
  | Finished.

Definition holds (c : caller) : option nat :=
  match c with
  | Calling s | Building s | Built s _ | Answered s _ => Some s
  | Finished => None
  end.

Record state := Mk { heap : Heap; entries : Entries; callers : list caller }.

(** What a build of a snapshot may give: the files it reads are the disk's at the time. *)
Context (builds : Snapshot -> Value -> Prop).

(** One critical section of one caller, or an allocation, a call, an answer used, a snapshot dropped. *)
Inductive step : state -> state -> Prop :=
  | step_hit h es cs i s es' v : cs !! i = Some (Calling s) -> lookup h s es = (es', Some v) ->
      step (Mk h es cs) (Mk h es' (<[i := Answered s v]> cs))
  | step_miss h es cs i s es' : cs !! i = Some (Calling s) -> lookup h s es = (es', None) ->
      step (Mk h es cs) (Mk h es' (<[i := Building s]> cs))
  | step_build h es cs i s snapshot v : cs !! i = Some (Building s) -> h !! s = Some snapshot ->
      builds snapshot v -> step (Mk h es cs) (Mk h es (<[i := Built s v]> cs))
  | step_build_fails h es cs i s : cs !! i = Some (Building s) ->
      step (Mk h es cs) (Mk h es (<[i := Finished]> cs))
  | step_insert h es cs i s v es' v' : cs !! i = Some (Built s v) -> insert h s v es = (es', v') ->
      step (Mk h es cs) (Mk h es' (<[i := Answered s v']> cs))
  | step_allocate h es cs s snapshot : h !! s = None -> s ∉ es.*1 ->
      step (Mk h es cs) (Mk (<[s := snapshot]> h) es cs)
  | step_call h es cs s snapshot : h !! s = Some snapshot ->
      step (Mk h es cs) (Mk h es (cs ++ [Calling s]))
  | step_return h es cs i s v : cs !! i = Some (Answered s v) ->
      step (Mk h es cs) (Mk h es (<[i := Finished]> cs))
  | step_drop h es cs s : (forall c, c ∈ cs -> holds c <> Some s) ->
      step (Mk h es cs) (Mk (delete s h) es cs).

Definition start : state := Mk ∅ [] [].
End memo.
End SnapshotMemo.

(** * The memo *)

Module MemoSpec.
Import SnapshotMemo.
Section memo.
Context {Snapshot Value : Type} (cap : nat) (builds : Snapshot -> Value -> Prop).
Notation state := (@state Snapshot Value).
Notation step := (@step Snapshot Value cap builds).

(** A value built for the snapshot that lives at an address. *)
Definition built_for (heap : gmap nat Snapshot) (address : nat) (value : Value) : Prop :=
  exists snapshot, heap !! address = Some snapshot /\ builds snapshot value.

Record memo_inv (st : state) : Prop := {
  mi_entries a v : (a, v) ∈ st.(entries) -> is_Some (st.(heap) !! a) -> built_for st.(heap) a v;
  mi_nodup : NoDup st.(entries).*1;
  mi_cap : length st.(entries) <= cap;
  mi_held c s : c ∈ st.(callers) -> holds c = Some s -> is_Some (st.(heap) !! s);
  mi_built s v : Built s v ∈ st.(callers) \/ Answered s v ∈ st.(callers) -> built_for st.(heap) s v }.

Lemma position_sublist (h : gmap nat Snapshot) s (es : list (nat * Value)) :
  sublist (position_of h s es).1 es.
Proof.
  induction es as [|[a v] es IH]; [done|]. cbn. destruct (h !! a); [|by constructor].
  destruct (a =? s); [done|]. destruct (position_of h s es) as [es' f]. cbn in *. by constructor.
Qed.

Lemma position_found (h : gmap nat Snapshot) s (es : list (nat * Value)) i :
  (position_of h s es).2 = Some i -> exists v, (position_of h s es).1 !! i = Some (s, v).
Proof.
  revert i. induction es as [|[a v] es IH]; intros i; [done|]. cbn. destruct (h !! a); [|apply IH].
  destruct (Nat.eqb_spec a s) as [->|N].
  - intros [= <-]. by exists v.
  - destruct (position_of h s es) as [es' f]. cbn in *. destruct f as [j|]; [|done]. intros [= <-].
    apply (IH j eq_refl).
Qed.

Lemma position_absent (h : gmap nat Snapshot) s (es : list (nat * Value)) :
  is_Some (h !! s) -> (position_of h s es).2 = None -> s ∉ (position_of h s es).1.*1.
Proof.
  intros [x H]. induction es as [|[a v] es IH]; cbn; [set_solver|]. destruct (h !! a) eqn:Ea; [|apply IH].
  destruct (Nat.eqb_spec a s) as [->|N]; [done|]. destruct (position_of h s es) as [es' f]. cbn in *.
  destruct f; [done|]. intros _. apply not_elem_of_cons. split; [congruence|by apply IH].
Qed.

(** The entries without the snapshot's, and the value it had. *)
Lemma take_spec (h : gmap nat Snapshot) s (es : list (nat * Value)) es' taken :
  is_Some (h !! s) -> NoDup es.*1 -> take_entry h s es = (es', taken) ->
  sublist es' es /\ s ∉ es'.*1 /\
  match taken with
  | Some v => (s, v) ∈ es /\ S (length es') <= length es
  | None => True
  end.
Proof.
  intros A N. unfold take_entry.
  pose proof (position_sublist h s es) as SL. pose proof (position_found h s es) as F.
  pose proof (position_absent h s es A) as B.
  destruct (position_of h s es) as [es0 [i|]]; cbn in *; intros [= <- <-].
  - destruct (F i eq_refl) as (v & L). rewrite L. cbn.
    split; [etrans; [apply sublist_delete|done]|].
    assert (NoDup es0.*1) as N0 by (eapply sublist_NoDup; [exact N|by apply fmap_sublist]).
    split.
    + intros I. apply list_elem_of_fmap in I as ([a w] & E & I). cbn in E. subst a.
      apply list_elem_of_lookup in I as [j J].
      assert (exists k, k <> i /\ es0 !! k = Some (s, w)) as (k & K & Lk).
      { destruct (decide (j < i)) as [?|?].
        - exists j. split; [lia|]. by rewrite list_lookup_delete_lt in J.
        - exists (S j). split; [lia|]. by rewrite list_lookup_delete_ge in J by lia. }
      apply K. eapply NoDup_lookup; [exact N0| |]; rewrite list_lookup_fmap; [by rewrite Lk|by rewrite L].
    + split; [eapply elem_of_sublist; [by eapply list_elem_of_lookup_2|done]|].
      pose proof (sublist_length _ _ SL). pose proof (lookup_lt_Some _ _ _ L).
      rewrite length_delete by (by eexists). lia.
  - split; [done|]. split; [by apply B|done].
Qed.

Lemma entries_sublist (h : gmap nat Snapshot) (es es' : list (nat * Value)) :
  (forall a v, (a, v) ∈ es -> is_Some (h !! a) -> built_for h a v) -> sublist es' es ->
  forall a v, (a, v) ∈ es' -> is_Some (h !! a) -> built_for h a v.
Proof. intros H S a v I. apply H. by eapply elem_of_sublist. Qed.

(** A change of one caller that holds the same snapshot. *)
Lemma caller_moves h (es : list (nat * Value)) cs i s c c' es' :
  memo_inv (Mk h es cs) -> cs !! i = Some c -> holds c = Some s ->
  holds c' = Some s \/ holds c' = None ->
  (forall v, c' = Built s v \/ c' = Answered s v -> built_for h s v) ->
  (forall a v, (a, v) ∈ es' -> is_Some (h !! a) -> built_for h a v) -> NoDup es'.*1 -> length es' <= cap ->
  memo_inv (Mk h es' (<[i := c']> cs)).
Proof.
  intros B L H H' V E N C. split; cbn; try done.
  - intros d t I Hd. apply list_elem_of_lookup in I as [j J].
    apply list_lookup_insert_Some in J as [(-> & <- & _)|(_ & J)].
    + destruct H' as [H'|H']; [|congruence]. assert (s = t) as <- by congruence.
      eapply (mi_held _ B c s); [by eapply list_elem_of_lookup_2|done].
    + eapply (mi_held _ B d t); [by eapply list_elem_of_lookup_2|done].
  - assert (forall t v d, d = Built t v \/ d = Answered t v -> d ∈ <[i:=c']> cs -> built_for h t v) as G.
    { intros t v d D I. apply list_elem_of_lookup in I as [j J].
      apply list_lookup_insert_Some in J as [(-> & <- & _)|(_ & J)].
      - destruct H' as [H'|H']; destruct D as [-> | ->]; try done; injection H' as ->; apply V; auto.
      - apply (mi_built _ B). cbn. destruct D as [-> | ->]; [left|right]; by eapply list_elem_of_lookup_2. }
    intros t v [I|I]; (eapply G; [|exact I]); auto.
Qed.

Lemma mi_held_at h (es : list (nat * Value)) cs i c s :
  memo_inv (Mk h es cs) -> cs !! i = Some c -> holds c = Some s -> is_Some (h !! s).
Proof. intros B L. apply (mi_held _ B). by eapply list_elem_of_lookup_2. Qed.

Lemma take_inv h (es : list (nat * Value)) cs s es' taken : memo_inv (Mk h es cs) ->
  is_Some (h !! s) -> take_entry h s es = (es', taken) ->
  NoDup es'.*1 /\ (forall a v, (a, v) ∈ es' -> is_Some (h !! a) -> built_for h a v) /\ s ∉ es'.*1 /\
  match taken with
  | Some v => built_for h s v /\ S (length es') <= cap
  | None => length es' <= cap
  end.
Proof.
  intros B A E. destruct (take_spec _ _ _ _ _ A (mi_nodup _ B) E) as (SL & F & W).
  split; [eapply sublist_NoDup; [apply (mi_nodup _ B)|by apply fmap_sublist]|].
  split; [by eapply entries_sublist; [apply (mi_entries _ B)|]|]. split; [done|].
  pose proof (mi_cap _ B) as C. cbn in C. destruct taken as [v|].
  - destruct W as [I W]. split; [by apply (mi_entries _ B)|]. cbn in *. lia.
  - pose proof (sublist_length _ _ SL). cbn in *. lia.
Qed.

Lemma built_insert h s snapshot a v : a <> s -> built_for h a v -> built_for (<[s := snapshot]> h) a v.
Proof. intros D (x & X & W). exists x. by rewrite lookup_insert_ne. Qed.

Lemma built_delete h s a v : s <> a -> built_for h a v -> built_for (delete s h) a v.
Proof. intros D (x & X & W). exists x. by rewrite lookup_delete_ne. Qed.

Lemma memo_inv_step st st' : memo_inv st -> step st st' -> memo_inv st'.
Proof.
  intros B T. destruct T as [h es cs i s es' v L E|h es cs i s es' L E|h es cs i s snapshot v L E Hb|
    h es cs i s L|h es cs i s v es' v' L E|h es cs s snapshot F N|h es cs s snapshot E|h es cs i s v L|
    h es cs s N].
  - unfold lookup in E. destruct (take_entry h s es) as [es0 [w|]] eqn:K; [|done]. injection E as <- ->.
    destruct (take_inv _ _ _ _ _ _ B (mi_held_at _ _ _ _ _ _ B L eq_refl) K) as (N & E & F & I & C).
    eapply caller_moves; [exact B|exact L|done|by left| | |by apply NoDup_cons|cbn; lia].
    + intros u [[=]|[= <-]]. by apply I.
    + intros a u [[= -> ->]|J]%elem_of_cons; [intros; by apply I|by apply E].
  - unfold lookup in E. destruct (take_entry h s es) as [es0 [w|]] eqn:K; [done|]. injection E as <-.
    destruct (take_inv _ _ _ _ _ _ B (mi_held_at _ _ _ _ _ _ B L eq_refl) K) as (N & E & F & C).
    eapply caller_moves; [exact B|exact L|done|by left| |exact E|done|done].
    by intros u [?|?].
  - eapply caller_moves; [exact B|exact L|done|by left| |apply B..].
    intros u [[= <-]|[=]]. by exists snapshot.
  - eapply caller_moves; [exact B|exact L|done|by right| |apply B..]. by intros u [?|?].
  - unfold insert in E. destruct (take_entry h s es) as [es0 taken] eqn:K. injection E as <- <-.
    pose proof (mi_held_at _ _ _ _ _ _ B L eq_refl) as A.
    destruct (take_inv _ _ _ _ _ _ B A K) as (N & E & F & W).
    assert (built_for h s (default v taken)) as V.
    { destruct taken as [w|]; [by apply W|]. apply (mi_built _ B). left. by eapply list_elem_of_lookup_2. }
    eapply caller_moves; [exact B|exact L|done|by left| | | |].
    + intros u [[=]|[= <-]]. done.
    + intros a u I J. apply elem_of_take in I as (j & I & _). apply list_elem_of_lookup_2 in I.
      apply elem_of_cons in I as [[= -> ->]|I]; [done|by apply E].
    + eapply sublist_NoDup; [|apply fmap_sublist, sublist_take]. by apply NoDup_cons.
    + rewrite length_take. lia.
  - split; cbn; try apply B.
    + intros a v I [x X]. assert (a <> s) as D.
      { intros ->. apply N, list_elem_of_fmap. by exists (s, v). }
      apply built_insert; [done|]. apply (mi_entries _ B); [done|].
      rewrite lookup_insert_ne in X by done. by eexists.
    + intros c t I Hc. destruct (decide (t = s)) as [->|D]; [rewrite lookup_insert_eq; by eexists|].
      rewrite lookup_insert_ne by done. by eapply (mi_held _ B).
    + intros t v I. apply built_insert; [|by apply (mi_built _ B)]. intros ->.
      destruct (mi_built _ B _ _ I) as (x & X & _). cbn in X. congruence.
  - split; cbn; try apply B.
    + intros c t [I|I]%elem_of_app Hc; [by eapply (mi_held _ B)|].
      apply list_elem_of_singleton in I as ->. injection Hc as <-. by eexists.
    + intros t v I. apply (mi_built _ B). cbn. rewrite !elem_of_app, !list_elem_of_singleton in I. naive_solver.
  - eapply caller_moves; [exact B|exact L|done|by right| |apply B..]. by intros u [?|?].
  - split; cbn; try apply B.
    + intros a v I [x X]. apply lookup_delete_Some in X as [D X].
      apply built_delete; [done|]. apply (mi_entries _ B); [done|by eexists].
    + intros c t I Hc. rewrite lookup_delete_ne; [by eapply (mi_held _ B)|]. intros ->. by eapply N.
    + intros t v I. apply built_delete; [|by apply (mi_built _ B)]. intros ->.
      destruct I as [I|I]; by eapply N.
Qed.

Lemma memo_inv_reachable st : rtc step start st -> memo_inv st.
Proof.
  revert st. apply rtc_ind_r; [|intros y z _ T IH; by eapply memo_inv_step].
  split; cbn; try set_solver; [apply NoDup_nil_2|lia].
Qed.

(** Whatever the interleaving of callers, an answer of the memo is a value that was built for the
    snapshot asked for, though addresses are used again; no snapshot has two entries, and there are
    never more than the cap. *)
Theorem memo_answers st : rtc step start st ->
  (forall s v, Answered s v ∈ st.(callers) ->
     exists snapshot, st.(heap) !! s = Some snapshot /\ builds snapshot v) /\
  NoDup st.(entries).*1 /\ length st.(entries) <= cap.
Proof.
  intros R%memo_inv_reachable. split; [|split; apply R]. intros s v I. apply (mi_built _ R). by right.
Qed.
End memo.
End MemoSpec.

(** * The graph *)

Section graph.
Context (files : list IndexedFile.t).

Definition defs_among (d : gmap string (gmap string (gset nat))) : Prop :=
  forall family by_name name definers x, d !! family = Some by_name -> by_name !! name = Some definers ->
    x ∈ definers -> x < length files.

Lemma define_among idx family name d : idx < length files -> defs_among d -> defs_among (define idx family name d).
Proof.
  intros L H f m n s x. unfold define. intros [[<- <-]|[_ E]]%lookup_insert_Some.
  - intros [[<- <-]|[_ E]]%lookup_insert_Some.
    + intros [->%elem_of_singleton|I]%elem_of_union; [done|].
      destruct (d !! family) as [m|] eqn:Em; cbn in I; [|by rewrite lookup_empty in I].
      destruct (m !! name) as [s|] eqn:Es; cbn in I; [|done]. by eapply H.
    + destruct (d !! family) as [m|] eqn:Em; cbn in E; [|by rewrite lookup_empty in E]. by eapply H.
  - by eapply H.
Qed.

Lemma definition_index_among counts : defs_among (definition_index files counts).
Proof.
  unfold definition_index.
  set (d := fold_left _ (imap pair files) _).
  assert (defs_among d) as H.
  { unfold d. assert (forall i f, In (i, f) (imap pair files) -> i < length files) as L.
    { intros i f (j & -> & J)%(imap_from files 0). by apply lookup_lt_Some in J. }
    clear d. revert L. generalize (imap pair files) as l. intros l L.
    assert (defs_among ∅) as E by (intros f m n s x X; by rewrite lookup_empty in X).
    revert E L. generalize (∅ : gmap string (gmap string (gset nat))) as d.
    induction l as [|[i f] l IH]; intros d H L; cbn; [done|].
    apply IH; [|intros; eapply L; by right].
    assert (i < length files) as Li by (eapply L; by left). clear -H Li. revert d H.
    induction (IndexedFile.symbols f) as [|s ss IH]; intros d H; cbn; [done|].
    apply IH. destruct (is_reference_stopword _ _); [done|]. by apply define_among. }
  intros f m n s x. rewrite map_lookup_imap. intros (m0 & E & [= <-])%bind_Some.
  intros [E' _]%map_lookup_filter_Some. by eapply H.
Qed.

Lemma find_index_lt {A} (p : A -> bool) l i : find_index p l = Some i -> i < length l.
Proof.
  revert i. induction l as [|x l IH]; intros i; cbn; [done|]. destruct (p x); [intros [= <-]; lia|].
  intros (j & E & ->)%fmap_Some. apply IH in E. lia.
Qed.

Lemma resolve_import_lt idx reference target :
  resolve_import_reference files idx reference = Some target -> target < length files.
Proof.
  unfold resolve_import_reference, resolve_rust_import, resolve_python_import, resolve_javascript_import,
    resolve_relative_candidates.
  destruct (CodeReference.import_path _); [|done]. destruct (files !! idx); [|done].
  destruct (CodeReference.has_embedded_language _); [done|].
  repeat case_match; try done; apply find_index_lt.
Qed.

(** The edges out of [idx]: targets in order, among the files, and not [idx]. *)
Definition edges_ok (idx : nat) (edges : list (nat * f64)) : Prop :=
  bt_sorted Nat.leb edges /\ forall t w, In (t, w) edges -> t < length files /\ t <> idx.

Lemma add_weight_ok idx target weight edges :
  target < length files -> target <> idx -> edges_ok idx edges -> edges_ok idx (add_weight target weight edges).
Proof.
  intros L N [S H]. split; [by apply (bt_entry_sorted Nat.leb)|]. intros t w I.
  assert (t ∈ map fst (add_weight target weight edges)) as K.
  { apply list_elem_of_In, in_map_iff. by exists (t, w). }
  apply (bt_entry_keys Nat.leb) in K. destruct K as [->|K]; [done|].
  apply list_elem_of_In, in_map_iff in K as ([t' w'] & E & K). cbn in E. subst t'. by eapply H.
Qed.

Lemma add_reference_ok definitions idx file edges reference :
  defs_among definitions -> edges_ok idx edges ->
  edges_ok idx (add_reference files definitions idx file edges reference).
Proof.
  intros D H. unfold add_reference. destruct (is_reference_stopword _ _); [done|].
  set (edges' := if String.eqb _ "import" then _ else edges).
  assert (edges_ok idx edges') as H'.
  { unfold edges'. destruct (String.eqb _ _); [|done].
    destruct (resolve_import_reference _ _ _) as [t|] eqn:E; [|done].
    destruct (Nat.eqb_spec t idx); [done|]. apply add_weight_ok; [by eapply resolve_import_lt|done|done]. }
  destruct (definitions !! _) as [m|] eqn:Em; [|done]. destruct (m !! _) as [s|] eqn:Es; [|done].
  assert (forall x, In x (sort_by Nat.leb (elements s)) -> x < length files) as L.
  { intros x I. apply list_elem_of_In in I. rewrite <- sort_by_perm in I. apply elem_of_elements in I.
    by eapply D. }
  revert L H'. generalize (sort_by Nat.leb (elements s)) as l. generalize edges'.
  intros e l. revert e. induction l as [|x l IH]; intros e L H'; cbn; [done|].
  apply IH; [intros; apply L; by right|]. destruct (Nat.eqb_spec x idx); [done|].
  apply add_weight_ok; [apply L; by left|done|done].
Qed.

Lemma build_edges_spec definitions pending n : defs_among definitions ->
  exists edges, (build_edges never files definitions pending n).1 = inl edges /\
    Forall2 (fun p e => edges_ok p.1 e) pending edges.
Proof.
  intros D. revert n. induction pending as [|[idx file] pending IH]; intros n; [by eexists|].
  cbn [build_edges]. unfold bind_op at 1, check_cancelled, never at 1. cbv beta iota zeta.
  destruct (IH (S n)) as (rest & E & F). unfold bind_op.
  destruct (build_edges _ _ _ _ _) as [r n']. cbn in E. subst r. eexists. split; [done|].
  constructor; [|done]. cbn. clear -D.
  assert (edges_ok idx []) as H by (split; [constructor|done]).
  revert H. generalize ([] : list (nat * f64)) as e.
  induction (sort_references _) as [|r l IH]; intros e H; cbn; [done|]. apply IH. by apply add_reference_ok.
Qed.

(** A graph's shape: one list of edges a file. *)
Definition graph_ok (graph : ReferenceGraph.t) : Prop :=
  length graph.(ReferenceGraph.edges) = length files /\
  (forall idx edges, graph.(ReferenceGraph.edges) !! idx = Some edges -> edges_ok idx edges) /\
  graph.(ReferenceGraph.edge_count) = sum_list (map length graph.(ReferenceGraph.edges)).

Lemma build_graph_ok n : exists graph, (build_graph never files n).1 = inl graph /\ graph_ok graph.
Proof.
  unfold build_graph, bind_op.
  destruct (build_edges_spec (definition_index files (language_file_counts files)) (imap pair files) n)
    as (edges & E & F); [apply definition_index_among|].
  destruct (build_edges _ _ _ _ _) as [r n']. cbn in E. subst r. eexists. split; [done|].
  split; [|split; [|done]]; cbn.
  - apply Forall2_length in F. by rewrite <- F, length_imap.
  - intros idx es L. destruct (Forall2_lookup_r _ _ _ _ _ F L) as ([i f] & L' & H).
    rewrite list_lookup_imap in L'. destruct (files !! idx); [|done]. by injection L' as <- <-.
Qed.
End graph.

(** * The ranking *)

Section rank.
Context (n : nat).

(** A step that keeps a vector of [n] defined. *)
Lemma fold_defined_vector {A} (f : option (list f64) -> A -> option (list f64)) (l : list A) v :
  (forall v a, In a l -> length v = n -> exists v', f (Some v) a = Some v' /\ length v' = n) ->
  length v = n -> exists v', fold_left f l (Some v) = Some v' /\ length v' = n.
Proof.
  intros S. revert v. induction l as [|a l IH]; intros v L; [by exists v|]. cbn.
  destruct (S v a ltac:(by left) L) as (v' & -> & L'). apply IH; [|done]. intros. apply S; [by right|done].
Qed.

Lemma spread_defined ranks idx (outgoing : list (nat * f64)) next dangling :
  length ranks = n -> length next = n -> idx < n -> (forall t w, In (t, w) outgoing -> t < n) ->
  exists next' dangling', spread ranks (Some (next, dangling)) (idx, outgoing) = Some (next', dangling') /\
    length next' = n.
Proof.
  intros LR LN I T. unfold spread. cbn [mbind option_bind].
  destruct (lookup_lt_is_Some_2 ranks idx ltac:(lia)) as [rank ->]. cbn [mbind option_bind].
  destruct outgoing as [|e es]; [by do 2 eexists|]. destruct (f_is_zero _); [by do 2 eexists|].
  destruct (fold_defined_vector (spread_one rank
    (fold_left (fun sum '(_, weight) => fadd sum weight) (e :: es) fzero)) (e :: es) next)
    as (next' & E & L'); [|done|].
  - intros v [t w] J Lv. unfold spread_one. cbn [mbind option_bind fst].
    destruct (lookup_lt_is_Some_2 v t) as [x ->]; [rewrite Lv; by eapply T|]. eexists.
    split; [done|]. by rewrite length_insert.
  - rewrite E. by do 2 eexists.
Qed.

Lemma dampen_defined pers dangling next :
  length pers = n -> length next = n ->
  exists next', fold_left (dampen pers dangling) (seq 0 n) (Some next) = Some next' /\ length next' = n.
Proof.
  intros LP LN. apply fold_defined_vector; [|done]. intros v idx I Lv. apply in_seq in I.
  unfold dampen. cbn [mbind option_bind].
  destruct (lookup_lt_is_Some_2 pers idx ltac:(lia)) as [p ->].
  destruct (lookup_lt_is_Some_2 v idx ltac:(lia)) as [x ->]. eexists. split; [done|].
  by rewrite length_insert.
Qed.

Context (edges : list (list (nat * f64))) (LE : length edges = n)
  (TE : forall idx out t w, edges !! idx = Some out -> In (t, w) out -> t < n).

Lemma spread_all ranks next : length ranks = n -> length next = n ->
  exists next' dangling, fold_left (spread ranks) (imap pair edges) (Some (next, fzero)) =
    Some (next', dangling) /\ length next' = n.
Proof using LE TE.
  intros LR LN. assert (forall i out, In (i, out) (imap pair edges) ->
    i < n /\ forall t w, In (t, w) out -> t < n) as T.
  { intros i out I. apply list_elem_of_In, elem_of_lookup_imap in I as (j & y & [= -> ->] & L).
    split; [rewrite <- LE; by eapply lookup_lt_Some|]. intros t w. by eapply TE. }
  revert T LN. generalize fzero as dangling. revert next. induction (imap pair edges) as [|[i out] l IH];
    intros next dangling T LN; cbn [fold_left]; [by do 2 eexists|].
  destruct (T i out ltac:(by left)) as [Li Ti].
  destruct (spread_defined ranks i out next dangling LR LN Li Ti) as (next' & dangling' & -> & L').
  apply IH; [|done]. intros. apply T. by right.
Qed.

Lemma rank_iteration_defined pers ranks next :
  length pers = n -> length ranks = n -> length next = n ->
  exists ranks' next', rank_iteration edges pers (ranks, next) = Some (ranks', next') /\
    length ranks' = n /\ length next' = n.
Proof using LE TE.
  intros LP LR LN. unfold rank_iteration.
  destruct (spread_all ranks (replicate (length next) fzero) LR) as (next' & dangling & -> & L');
    [by rewrite length_replicate|]. cbn [mbind option_bind]. rewrite LE.
  destruct (dampen_defined pers dangling next' LP L') as (next'' & -> & L''). by do 2 eexists.
Qed.

Lemma page_rank_defined pers k : length pers = n ->
  exists scores, (page_rank never edges pers k).1 = inl (Some scores) /\ length scores = n.
Proof using LE TE.
  intros LP. unfold page_rank.
  case_eq (length edges); [intros E0; exists []; split; [done|cbn; lia]|intros m E0].
  replace (S m) with n by lia.
  assert (forall it ranks next k, length ranks = n -> length next = n ->
    exists b, (rank_iterations never it edges pers (ranks, next) k).1 = inl (Some b) /\ length b.1 = n) as G.
  { induction it as [|it IH]; intros ranks next k' LR LN; [by eexists|].
    cbn [rank_iterations]. unfold bind_op, check_cancelled, never at 1. cbv beta iota zeta.
    destruct (rank_iteration_defined pers ranks next LP LR LN) as (r' & n' & -> & L1 & L2). by apply IH. }
  destruct (G ITERATIONS pers (replicate n fzero) k LP (length_replicate _ _)) as (b & E & L).
  unfold bind_op. destruct (rank_iterations _ _ _ _ _ _) as [r k']. cbn in E. subst r. by eexists.
Qed.
End rank.

Lemma personalization_defined n seeds : (forall i, i ∈ seeds -> i < n) ->
  exists vector, personalization n seeds = Some vector /\ length vector = n.
Proof.
  intros S. unfold personalization. destruct (Nat.eqb_spec n 0) as [->|N]; [by exists []|].
  case_bool_decide; [eexists; split; [done|apply length_replicate]|].
  apply fold_defined_vector; [|apply length_replicate]. intros v i I L. cbn [mbind option_bind].
  apply list_elem_of_In in I. rewrite <- sort_by_perm in I. apply elem_of_elements, S in I.
  destruct (Nat.ltb_spec i (length v)); [|lia]. eexists. split; [done|]. by rewrite length_insert.
Qed.

Lemma seed_indices_lt files paths terms i : i ∈ seed_indices files paths terms -> i < length files.
Proof.
  unfold seed_indices. intros I%elem_of_list_to_set.
  apply list_elem_of_omap in I as ([j f] & J & E). destruct (_ || _); [|done]. injection E as ->.
  apply list_elem_of_In, (imap_from files 0) in J as (k & -> & L). by eapply lookup_lt_Some.
Qed.

Lemma SFcompare_opp a b : SFcompare b a = CompOpp <$> SFcompare a b.
Proof.
  destruct a as [s|s| |s m e], b as [s'|s'| |s' m' e']; cbn; try done;
    try (by destruct s); try (by destruct s'); try (by destruct s, s').
  destruct s, s'; cbn; try done; rewrite (Z.compare_antisym e e'); destruct (Z.compare e e'); cbn; try done;
    f_equal; change (Pos.compare_cont Eq m m') with (m ?= m')%positive;
    change (Pos.compare_cont Eq m' m) with (m' ?= m)%positive;
    rewrite (Pos.compare_antisym m m'); by destruct (m ?= m')%positive.
Qed.

Lemma rank_leb_total files a b : rank_leb files a b = true \/ rank_leb files b a = true.
Proof.
  unfold rank_leb, score_cmp. rewrite (SFcompare_opp b.2 a.2).
  destruct (SFcompare b.2 a.2) as [[]|]; cbn; auto; apply string_leb_total.
Qed.

Lemma Sorted_take {A} (R : A -> A -> Prop) k l : Sorted R l -> Sorted R (take k l).
Proof.
  intros S. revert k. induction S as [|x l S IH H]; intros [|k]; cbn; try by constructor.
  constructor; [done|]. destruct H, k; by constructor.
Qed.

Section response.
Context (show_score : f64 -> string).

Lemma response_files_spec files (order : list (nat * f64)) (k : nat) :
  (forall i s, In (i, s) order -> i < length files) ->
  exists rs, mapM (fun '(position, r) => response_file show_score files position r)
      (imap (fun p => pair (k + p)) order) = Some rs /\
    Forall2 (fun r '(i, s) => exists file, files !! i = Some file /\
      r.(RepoMapFile.path) = file.(IndexedFile.path) /\
      r.(RepoMapFile.score) = show_score s) rs order /\
    map RepoMapFile.rank rs = seq (S k) (length order).
Proof.
  revert k. induction order as [|[i s] order IH]; intros k L; [by exists []|].
  destruct (lookup_lt_is_Some_2 files i) as [file F]; [eapply L; by left|].
  destruct (IH (S k)) as (rs & E & R & K); [intros; eapply L; by right|].
  assert (imap (fun p => pair (k + p)) ((i, s) :: order) =
    (k, (i, s)) :: imap (fun p => pair (S k + p)) order) as ->.
  { cbn [imap]. rewrite Nat.add_0_r. f_equal. apply imap_ext. intros; cbn. by rewrite Nat.add_succ_r. }
  set (f := fun '(position, r) => response_file show_score files position r) in *.
  assert (exists x, f (k, (i, s)) = Some x /\ x.(RepoMapFile.path) = file.(IndexedFile.path) /\
    x.(RepoMapFile.score) = show_score s /\ x.(RepoMapFile.rank) = S k) as (x & Fx & X1 & X2 & X3).
  { unfold f, response_file. cbn. rewrite F. eexists. split; [done|]. split; [done|]. split; [done|].
    cbn. lia. }
  exists (x :: rs). split; [cbn [mapM]; by rewrite Fx, E|]. split.
  - constructor; [|done]. by exists file.
  - cbn. by rewrite X3, K.
Qed.

Context (read_text : string -> string + NerveError.t).
Context (code_symbols_for_path :
  string -> string -> (option ParsedCodeFile.t + string) + NerveError.t).
Context (has_uppercase : string -> bool).

(** With the graph of the files it ranks, the map is produced: the best files, each once, by
    descending score and then by path, with ranks from one, and the others counted as omitted. *)
Theorem get_repo_map_spec roots entries shared_graph (request : RepoMapRequest.t) analyses n
  (files := sort_by path_leb (indexed analyses))
  (max_files := request.(RepoMapRequest.max_files) `max` 1)
  (A : forall k, (analyze_files never read_text code_symbols_for_path (query_matches has_uppercase) roots
         (normalized_query request.(RepoMapRequest.query)) entries k).1 = inl analyses)
  (G : forall k, exists graph, (shared_graph k).1 = inl graph /\ graph_ok files graph) :
  exists r order, (get_repo_map never show_score read_text code_symbols_for_path has_uppercase roots entries
       shared_graph request n).1 = inl (Some r) /\
    NoDup order.*1 /\ length order = max_files `min` length files /\
    Sorted (fun a b => rank_leb files a b = true) order /\
    Forall2 (fun r '(i, s) => exists file, files !! i = Some file /\
      r.(RepoMapFile.path) = file.(IndexedFile.path) /\
      r.(RepoMapFile.score) = show_score s) r.(RepoMapResponse.files) order /\
    map RepoMapFile.rank r.(RepoMapResponse.files) = seq 1 (length order) /\
    r.(RepoMapResponse.totals).(RepoMapTotals.omitted_files) =
      unsupported analyses + (length files - max_files).
Proof.
  unfold get_repo_map. unfold bind_op at 1, check_cancelled, never at 1. cbv beta iota zeta.
  unfold bind_op at 1. specialize (A (S n)).
  destruct (analyze_files _ _ _ _ _ _ _ (S n)) as [ra n1]. cbn in A. subst ra.
  unfold bind_op at 1. destruct (G n1) as (graph & E & GL & GE & _).
  destruct (shared_graph n1) as [rg n2]. cbn in E. subst rg.
  fold files max_files. set (seeds := seed_indices files _ _).
  destruct (personalization_defined (length files) seeds) as (vector & -> & LV); [by apply seed_indices_lt|].
  unfold bind_op. destruct (page_rank_defined (length files) graph.(ReferenceGraph.edges) GL
    ltac:(intros i out t w L I; by eapply GE) vector n2 LV) as (scores & E & LS).
  destruct (page_rank _ _ _ _) as [rp n3]. cbn in E. subst rp. cbn [ret mbind option_bind fst].
  unfold ranked_response. set (ranked := sort_by (rank_leb files) (imap pair scores)).
  assert (ranked ≡ₚ imap pair scores) as P by (symmetry; apply sort_by_perm).
  assert ((imap pair scores).*1 = seq 0 (length scores)) as K.
  { rewrite fmap_imap. apply list_eq. intros i. rewrite list_lookup_imap.
    destruct (scores !! i) eqn:L; cbn.
    - symmetry. apply lookup_seq. split; [done|]. by eapply lookup_lt_Some.
    - symmetry. apply lookup_seq_ge. by apply lookup_ge_None. }
  destruct (response_files_spec files (take max_files ranked) 0) as (rs & E & R & RK).
  { intros i s I%in_take. apply list_elem_of_In in I. rewrite P in I.
    assert (i ∈ (imap pair scores).*1) as J by (apply list_elem_of_fmap; by exists (i, s)).
    rewrite K in J. apply elem_of_seq in J. lia. }
  change (imap (fun p => pair (0 + p)) (take max_files ranked)) with (imap pair (take max_files ranked)) in E.
  rewrite E. cbn [mbind option_bind]. eexists _, (take max_files ranked). split; [done|].
  assert (length ranked = length files) as LR by (by rewrite P, length_imap).
  split_and!; [| | |exact R|exact RK|].
  - eapply sublist_NoDup; [|apply fmap_sublist, sublist_take]. rewrite P, K. apply NoDup_seq.
  - by rewrite length_take, LR.
  - assert (Sorted (fun a b => rank_leb files a b = true) ranked) as SR
      by (apply sort_by_sorted, rank_leb_total).
    by apply Sorted_take.
  - cbn. by rewrite LR.
Qed.
End response.

(** * Runs *)

Module RepoDemo.
Definition entries : list Entry.t := [Entry.Mk "r" "a.rs" "/r/a.rs"; Entry.Mk "r" "b.rs" "/r/b.rs"].
Definition symbol (name : string) : CodeSymbol.t := CodeSymbol.Mk "function" name 1 1 None [].
Definition first_file : ParsedCodeFile.t :=
  ParsedCodeFile.Mk "rust" [symbol "run_all"] [CodeReference.new "call" "step_once" 2].
Definition second_file : ParsedCodeFile.t := ParsedCodeFile.Mk "rust" [symbol "step_once"] [].
Definition read_text (path : string) : string + NerveError.t := inl "fn".

(** The second file is parsed, or no longer is. *)
Definition code_symbols (second : bool) (abs rel : string)
    : (option ParsedCodeFile.t + string) + NerveError.t :=
  if String.eqb rel "a.rs" then inl (inl (Some first_file))
  else if second then inl (inl (Some second_file)) else inl (inl None).

Definition analyses (second : bool) : list FileAnalysisResult.t :=
  match (analyze_files never read_text (code_symbols second) (query_matches (fun _ => false)) 1 None entries 0).1 with
  | inl analyses => analyses
  | inr _ => []
  end.
Definition files (second : bool) : list IndexedFile.t := sort_by path_leb (indexed (analyses second)).
Definition run (graph_of second : bool) : option RepoMapResponse.t + NerveError.t :=
  (get_repo_map never (fun _ => EmptyString) read_text (code_symbols second) (fun _ => false) 1 entries
     (build_graph never (files graph_of)) RepoMapRequest.default 0).1.
End RepoDemo.

Lemma get_repo_map_spec_witness :
  exists r order, RepoDemo.run true true = inl (Some r) /\ NoDup (order : list (nat * f64)).*1 /\
    length order = 2.
Proof.
  destruct (get_repo_map_spec (fun _ => EmptyString) RepoDemo.read_text (RepoDemo.code_symbols true)
    (fun _ => false) 1 RepoDemo.entries (build_graph never (RepoDemo.files true)) RepoMapRequest.default
    (RepoDemo.analyses true) 0
    ltac:(intros k; vm_compute; reflexivity) (fun k => build_graph_ok _ k))
    as (r & order & E & N & L & _).
  exists r, order. split; [exact E|]. split; [exact N|]. rewrite L. vm_compute. reflexivity.
Defined.

(** The graph comes from the memo of the snapshot, the files are read again: when one of them stopped
    being parsed in between, the vector of the files is shorter than the graph and ranking panics. *)
Lemma stale_graph_panics : RepoDemo.run true false = inl None.
Proof. by vm_compute. Qed.

Module MemoDemo.
Import SnapshotMemo.
Definition builds (snapshot value : nat) : Prop := value = snapshot + 1.
Definition final : @state nat nat := Mk {[0 := 7]} [(0, 8)] [Answered 0 8; Answered 0 8].

(** Two callers miss, build, and are answered with one value. *)
Lemma raced : rtc (step 1 builds) start final.
Proof.
  eapply rtc_l; [apply (step_allocate _ _ ∅ [] [] 0 7); [done|set_solver]|].
  eapply rtc_l; [by apply (step_call _ _ _ [] [] 0 7)|].
  eapply rtc_l; [by apply (step_call _ _ _ [] [Calling 0] 0 7)|].
  eapply rtc_l; [by apply (step_miss _ _ _ [] [Calling 0; Calling 0] 0 0 [])|].
  eapply rtc_l; [by apply (step_miss _ _ _ [] [Building 0; Calling 0] 1 0 [])|].
  eapply rtc_l; [by apply (step_build _ _ _ [] [Building 0; Building 0] 0 0 7 8)|].
  eapply rtc_l; [by apply (step_build _ _ _ [] [Built 0 8; Building 0] 1 0 7 8)|].
  eapply rtc_l; [by apply (step_insert _ _ _ [] [Built 0 8; Built 0 8] 0 0 8 [(0, 8)] 8)|].
  eapply rtc_l; [by apply (step_insert _ _ _ [(0, 8)] [Answered 0 8; Built 0 8] 1 0 8 [(0, 8)] 8)|].
  apply rtc_refl.
Qed.
End MemoDemo.

Lemma memo_answers_witness :
  exists snapshot, MemoDemo.final.(SnapshotMemo.heap) !! 0 = Some snapshot /\ MemoDemo.builds snapshot 8.
Proof.
  destruct (MemoSpec.memo_answers 1 MemoDemo.builds MemoDemo.final MemoDemo.raced) as (A & _).
  apply (A 0 8). by left.
Defined.
