(* ===== verification/Search.v ===== *)
(** Search over the paths and contents of a snapshot ([nerve-core/src/search/], [ranking.rs] and the
    types of [models.rs]). Regular expressions, the Aho-Corasick matcher, the fuzzy matcher, globs and
    the Unicode tables are parameters; a character is the string of its bytes. *)
From stdpp Require Import gmap strings.
From Stdlib Require Import SpecFloat.
From S2P Require Import Prelude Text BTree EditText Paths FlowDefs CodeGraph Disk Navigate Selection RepoMap.
Open Scope nerve_scope.

(** * [models.rs] *)

Module Diagnostic.
Record t := Mk { path : option string; message : string }.
End Diagnostic.

Module SearchMode.
Inductive t := Path | Content | Both.
End SearchMode.

Module OutputMode.
Inductive t := Content | FilesWithMatches | Count.
End OutputMode.

Module SearchRequest.
Record t := Mk {
  pattern : string;
  mode : SearchMode.t;
  regex : bool;
  max_results : nat;
  context_lines : nat;
  context_before : option nat;
  context_after : option nat;
  max_content_files : nat;
  max_content_bytes : u64;
  whole_word : bool;
  include : list string;
  exclude : list string;
  extensions : list string;
  output_mode : OutputMode.t }.

Definition default_ (pattern : string) : t :=
  Mk pattern SearchMode.Both false 50 2 None None 2048 (wrap 64 67108864) false [] [] []
    OutputMode.Content.
End SearchRequest.

Module FileMatchCount.
Record t := Mk { root_id : string; path : string; display_path : string; count : nat }.
End FileMatchCount.

Module PathSearchMatch.
Record t := Mk { root_id : string; path : string; display_path : string; score : Z }.
End PathSearchMatch.

Module LineContext.
Record t := Mk { line : nat; text : string }.
End LineContext.

Module ContentSearchMatch.
Record t := Mk {
  root_id : string;
  path : string;
  display_path : string;
  score : Z;
  line : nat;
  column : nat;
  text : string;
  context : list LineContext.t }.
End ContentSearchMatch.

Module SearchBudget.
Record t := Mk { max_results : nat; max_content_files : nat; max_content_bytes : u64; exhausted : bool }.
End SearchBudget.

Module SearchTotals.
Record t := Mk {
  scanned_files : nat;
  path_matches : nat;
  content_matches : nat;
  omitted : nat;
  content_files_scanned : nat;
  content_bytes_scanned : u64;
  binary_files_skipped : nat;
  content_file_limit : nat;
  content_byte_limit : u64;
  totals_are_lower_bound : bool;
  budget : SearchBudget.t }.
End SearchTotals.

Module SearchResponse.
Record t := Mk {
  generation : nat;
  path_matches : list PathSearchMatch.t;
  content_matches : list ContentSearchMatch.t;
  match_files : list FileMatchCount.t;
  diagnostics : list Diagnostic.t;
  totals : SearchTotals.t }.
End SearchResponse.

(** * Characters *)

Definition continues (s : string) : bool :=
  match s with String c _ => utf8_continuation c | EmptyString => false end.

(** The characters of a UTF-8 text. *)
Fixpoint chars (s : string) : list string :=
  match s with
  | EmptyString => []
  | String c rest =>
      match chars rest with
      | ch :: l => if continues rest then String c ch :: l else String c EmptyString :: ch :: l
      | [] => [String c EmptyString]
      end
  end.

(** [char]'s methods that read the Unicode tables. *)
Module Unicode.
Record t := Mk {
  is_uppercase : string -> bool;
  is_alphanumeric : string -> bool;
  to_lowercase : string -> string }.
End Unicode.

(** * [matcher.rs] *)

Definition is_word_byte (c : ascii) : bool := is_ascii_alphanumeric c || Ascii.eqb c "_".

(** A word character is ASCII, so one byte. *)
Definition is_word_char (ch : string) : bool :=
  match ch with String c EmptyString => is_word_byte c | _ => false end.

Definition byte_is_word (s : string) (n : nat) : bool :=
  match String.get n s with Some c => is_word_byte c | None => false end.

(** The character before or after is a word character when the byte there is. *)
Definition is_whole_word_match (text : string) (start end_ : nat) : bool :=
  negb (match start with 0 => false | S before => byte_is_word text before end) &&
  negb (byte_is_word text end_).

Fixpoint prefix_by (same : ascii -> ascii -> bool) (pattern s : string) : bool :=
  match pattern, s with
  | EmptyString, _ => true
  | String p pattern, String c s => same p c && prefix_by same pattern s
  | String _ _, EmptyString => false
  end.

(** The byte index of the first occurrence: [str::find], or the first of the [windows] of the bytes. *)
Fixpoint find_by (same : ascii -> ascii -> bool) (pattern s : string) : option nat :=
  if prefix_by same pattern s then Some 0
  else match s with
       | EmptyString => None
       | String _ s => S <$> find_by same pattern s
       end.

Definition same_byte (case_sensitive : bool) (a b : ascii) : bool :=
  if case_sensitive then Ascii.eqb a b else Ascii.eqb (ascii_lower a) (ascii_lower b).

Definition find_ascii_case_insensitive (haystack needle : string) : option nat :=
  find_by (same_byte false) needle haystack.

Fixpoint continuation_run (s : string) : nat :=
  match s with
  | String c s => if utf8_continuation c then S (continuation_run s) else 0
  | EmptyString => 0
  end.

Definition next_char_boundary (text : string) (byte_idx : nat) : nat :=
  S byte_idx + continuation_run (drop_bytes (S byte_idx) text).

(** The offset grows with each turn and stays within the text. *)
Fixpoint literal_loop (fuel : nat) (text pattern : string) (case_sensitive whole_word : bool)
    (offset : nat) : option (nat * nat) :=
  match fuel with
  | 0 => None
  | S fuel =>
      if String.length text - String.length pattern <? offset then None
      else
        match (if case_sensitive then find_by (same_byte true) pattern (drop_bytes offset text)
               else find_ascii_case_insensitive (drop_bytes offset text) pattern) with
        | None => None
        | Some found =>
            let start := offset + found in
            let end_ := start + String.length pattern in
            if negb whole_word || is_whole_word_match text start end_ then Some (start, end_)
            else literal_loop fuel text pattern case_sensitive whole_word (next_char_boundary text start)
        end
  end.

Definition first_literal_match (text pattern : string) (case_sensitive whole_word : bool)
    : option (nat * nat) :=
  if String.eqb pattern EmptyString then Some (0, 0)
  else literal_loop (S (S (String.length text))) text pattern case_sensitive whole_word 0.

(** A regular expression is its [find_iter]: the spans of its matches in a text. *)
Abbreviation Regex := (string -> list (nat * nat)).

Definition first_regex_match (text : string) (regex : Regex) (whole_word : bool) : option (nat * nat) :=
  List.find (fun '(start, end_) => negb whole_word || is_whole_word_match text start end_) (regex text).

(** * [ranking.rs] *)

Definition SCORE_SCALE : f64 := S754_finite false 8589934592000000 (-33).
Definition BM25_K1 : f64 := S754_finite false 5404319552844595 (-52).
Definition BM25_B : f64 := S754_finite false 6755399441055744 (-53).
Definition half : f64 := S754_finite false 4503599627370496 (-53).
Definition BINARY_SNIFF_BYTES : nat := 8 * 1024.

Module FileRankingStats.
Record t := Mk {
  path : string; doc_len : nat; term_frequencies : gmap string nat; occurrence_count : nat }.
End FileRankingStats.

Module ContentRankingQuery.
Inductive t := Bm25 (terms : list string) | TfDensity.
End ContentRankingQuery.

(** [round] away from zero on a tie, then the saturating cast to [i64]. *)
Definition i64_of_f64 (x : f64) : Z :=
  match x with
  | S754_zero _ | S754_nan => 0
  | S754_infinity s => if s then - 2 ^ 63 else 2 ^ 63 - 1
  | S754_finite s m e =>
      let a := if (0 <=? e)%Z then Z.pos m * 2 ^ e
               else (2 * Z.pos m + 2 ^ (- e)) / (2 * 2 ^ (- e)) in
      if s then Z.max (- 2 ^ 63) (- a) else Z.min (2 ^ 63 - 1) a
  end%Z.

Definition scaled_score (score : f64) : Z := i64_of_f64 (fmul score SCORE_SCALE).

Definition is_binary (bytes : string) : bool :=
  negb (all_bytes (fun c => negb (Ascii.eqb c "000")) (String.substring 0 BINARY_SNIFF_BYTES bytes)).

Section ranking.
Context (unicode : Unicode.t) (ln : f64 -> f64).

Fixpoint tokenize_chars (case_sensitive : bool) (text : list string) (tokens : list string)
    (current : string) : list string :=
  match text with
  | [] => push_term tokens current
  | ch :: text =>
      if unicode.(Unicode.is_alphanumeric) ch
      then tokenize_chars case_sensitive text tokens
             (current +:+ (if case_sensitive then ch else unicode.(Unicode.to_lowercase) ch))
      else tokenize_chars case_sensitive text (push_term tokens current) EmptyString
  end.

Definition tokenize_text (text : string) (case_sensitive : bool) : list string :=
  tokenize_chars case_sensitive (chars text) [] EmptyString.

Definition tokenize_query (pattern : string) (case_sensitive : bool) : list string :=
  first_seen ∅ (tokenize_text pattern case_sensitive).

Definition has_uppercase (text : string) : bool := existsb unicode.(Unicode.is_uppercase) (chars text).

Definition is_smart_case_sensitive (pattern : string) : bool := has_uppercase pattern.

Definition normalized_doc_len (text : string) : nat :=
  (length (tokenize_text text false) `max` length (str_lines text)) `max` 1.

(** [ContentRankingQuery::new]. *)
Definition ranking_query (pattern : string) (case_sensitive regex whole_word : bool)
    : ContentRankingQuery.t :=
  if regex || whole_word then ContentRankingQuery.TfDensity
  else
    match tokenize_query pattern case_sensitive with
    | [] => ContentRankingQuery.TfDensity
    | terms => ContentRankingQuery.Bm25 terms
    end.

Definition count_term (terms : list string) (frequencies : gmap string nat) (token : string)
    : gmap string nat :=
  if bool_decide (token ∈ terms) then <[token := S (default 0 (frequencies !! token))]> frequencies
  else frequencies.

Definition collect_bm25_stats (path text : string) (terms : list string) : FileRankingStats.t :=
  let tokens := tokenize_text text (existsb has_uppercase terms) in
  FileRankingStats.Mk path (length tokens `max` 1) (fold_left (count_term terms) tokens ∅) 0.

Definition stats_for_file (query : ContentRankingQuery.t) (path text : string) (occurrence_count : nat)
    : FileRankingStats.t :=
  match query with
  | ContentRankingQuery.Bm25 terms => collect_bm25_stats path text terms
  | ContentRankingQuery.TfDensity =>
      FileRankingStats.Mk path (normalized_doc_len text) ∅ occurrence_count
  end.

Definition frequency (stat : FileRankingStats.t) (term : string) : nat :=
  default 0 (stat.(FileRankingStats.term_frequencies) !! term).

Definition bm25_term (terms : list string) (stats : list FileRankingStats.t) (doc_count avg_doc_len : f64)
    (stat : FileRankingStats.t) (score : f64) (term : string) : f64 :=
  let tf := f64_of_nat (frequency stat term) in
  if f_is_zero tf then score
  else
    let length_norm :=
      fadd (fsub one BM25_B)
        (fmul BM25_B (fdiv (f64_of_nat stat.(FileRankingStats.doc_len)) avg_doc_len)) in
    let saturated_tf := fdiv (fmul tf (fadd BM25_K1 one)) (fadd tf (fmul BM25_K1 length_norm)) in
    if length terms =? 1 then fadd score saturated_tf
    else
      let df := f64_of_nat (length (List.filter (fun stat => 0 <? frequency stat term) stats)) in
      let idf := ln (fadd one (fdiv (fadd (fsub doc_count df) half) (fadd df half))) in
      fadd score (fmul idf saturated_tf).

Definition bm25_file_scores (stats : list FileRankingStats.t) (terms : list string) : gmap string Z :=
  let doc_count := f64_of_nat (length stats) in
  let avg_doc_len :=
    fdiv (fold_left (fun sum stat => fadd sum (f64_of_nat stat.(FileRankingStats.doc_len))) stats fzero)
      doc_count in
  fold_left (fun scores stat =>
      <[stat.(FileRankingStats.path) :=
          scaled_score (fold_left (bm25_term terms stats doc_count avg_doc_len stat) terms fzero)]> scores)
    stats ∅.

Definition tf_density_file_scores (stats : list FileRankingStats.t) : gmap string Z :=
  fold_left (fun scores stat =>
      <[stat.(FileRankingStats.path) :=
          scaled_score (fdiv (f64_of_nat stat.(FileRankingStats.occurrence_count))
                          (f64_of_nat (stat.(FileRankingStats.doc_len) `max` 1)))]> scores)
    stats ∅.

Definition content_file_scores (stats : list FileRankingStats.t) (query : ContentRankingQuery.t)
    : gmap string Z :=
  match query with
  | ContentRankingQuery.Bm25 terms => bm25_file_scores stats terms
  | ContentRankingQuery.TfDensity => tf_density_file_scores stats
  end.
End ranking.

(** A glob without a separator matches the last component at any depth. *)
Definition search_glob_pattern (glob : string) : string :=
  if contains_str "/" glob then glob else "**/" +:+ glob.

Module EntryFilter.
Record t := Mk { extensions : list string; include : list string; exclude : list string }.
End EntryFilter.

Section glob.
(** [GlobBuilder::build], whether it accepts a pattern, and the match of a pattern it accepts. *)
Context (glob_valid : string -> bool) (glob_match : string -> string -> bool).

Definition compile_globs (globs : list string) : list string + NerveError.t :=
  let patterns := map search_glob_pattern (List.filter nonempty globs) in
  match List.find (fun pattern => negb (glob_valid pattern)) patterns with
  | Some pattern => inr (NerveError.InvalidGlob pattern)
  | None => inl patterns
  end.

Definition is_match (set : list string) (path : string) : bool :=
  existsb (fun pattern => glob_match pattern path) set.

Definition from_config (extensions include exclude : list string) : EntryFilter.t + NerveError.t :=
  let extensions :=
    map (fun ext => lower (trim_start_chars (Ascii.eqb ".") ext)) (List.filter nonempty extensions) in
  match compile_globs include with
  | inr e => inr e
  | inl include =>
      match compile_globs exclude with
      | inr e => inr e
      | inl exclude => inl (EntryFilter.Mk extensions include exclude)
      end
  end.

Definition is_empty {A} (l : list A) : bool := match l with [] => true | _ => false end.

Definition accepts (filter : EntryFilter.t) (rel_path : string) : bool :=
  let ext := match rsplit_once "." rel_path with Some (_, ext) => lower ext | None => EmptyString end in
  (is_empty filter.(EntryFilter.extensions) ||
   existsb (String.eqb ext) filter.(EntryFilter.extensions)) &&
  (is_empty filter.(EntryFilter.include) || is_match filter.(EntryFilter.include) rel_path) &&
  negb (is_match filter.(EntryFilter.exclude) rel_path).
End glob.

(** Every item is done, in order, whatever the ones before it gave. *)
Fixpoint results_of {A B} (f : A -> Op B) (l : list A) : nat -> list (B + NerveError.t) * nat :=
  match l with
  | [] => fun n => ([], n)
  | x :: l => fun n =>
      let '(r, n) := f x n in
      let '(rs, n) := results_of f l n in
      (r :: rs, n)
  end.

(** [result?] on each: the first error in order. *)
Fixpoint all_or_first {B} (rs : list (B + NerveError.t)) : list B + NerveError.t :=
  match rs with
  | [] => inl []
  | inr e :: _ => inr e
  | inl b :: rs => match all_or_first rs with inl bs => inl (b :: bs) | inr e => inr e end
  end.

Definition collect_results {A B} (f : A -> Op B) (l : list A) : Op (list B) := fun n =>
  let '(rs, n) := results_of f l n in (all_or_first rs, n).

(** What other packages and the platform give. *)
Module World.
Record t := Mk {
  unicode : Unicode.t;
  ln : f64 -> f64;
  glob_valid : string -> bool;
  glob_match : string -> string -> bool;
  regex_build : string -> bool -> Regex + NerveError.t;
  literal_find_iter : string -> bool -> string -> list (nat * nat);
  fuzzy_score : string -> bool -> string -> option Z;
  fuzzy_indices : string -> bool -> string -> option (Z * list nat);
  lossy : string -> string;
  read_bytes : string -> string + NerveError.t }.
End World.

Module PathQuery.
Record t := Mk {
  pattern : string;
  regex : option Regex;
  case_sensitive : bool;
  whole_word : bool;
  has_fuzzy_pattern : bool }.
End PathQuery.

(** A file's matches, its statistics unless it is binary, and what the counters gain: they are summed
    after every file is done. *)
Module ContentSearchResult.
Record t := Mk {
  matches : list ContentSearchMatch.t;
  ranking : option FileRankingStats.t;
  diagnostic : option Diagnostic.t;
  bytes : nat }.
End ContentSearchResult.

Module ContentSearchSummary.
Record t := Mk {
  matches : list ContentSearchMatch.t;
  match_files : list FileMatchCount.t;
  diagnostics : list Diagnostic.t;
  total : nat;
  files_scanned : nat;
  bytes_scanned : u64;
  binary_files_skipped : nat;
  exhausted : bool }.
End ContentSearchSummary.

Section search.
Context (cancelled : nat -> bool) (world : World.t).

Definition entry_filter (request : SearchRequest.t) : EntryFilter.t + NerveError.t :=
  from_config world.(World.glob_valid) request.(SearchRequest.extensions)
    request.(SearchRequest.include) request.(SearchRequest.exclude).

Definition build_search_regex (request : SearchRequest.t) (case_sensitive : bool)
    : option Regex + NerveError.t :=
  if request.(SearchRequest.regex)
  then match world.(World.regex_build) request.(SearchRequest.pattern) (negb case_sensitive) with
       | inl regex => inl (Some regex)
       | inr e => inr e
       end
  else inl None.

Definition build_literal_matcher (request : SearchRequest.t) (case_sensitive : bool) : option Regex :=
  if request.(SearchRequest.regex) || String.eqb request.(SearchRequest.pattern) EmptyString then None
  else Some (world.(World.literal_find_iter) request.(SearchRequest.pattern) (negb case_sensitive)).

(** * [path.rs] *)

Definition PATH_SUBSTRING_BASE : Z := 1000000.
Definition PATH_REGEX_BASE : Z := 900000.

Definition display_path (snapshot : CatalogSnapshot.t) (root_id rel_path : string) : string :=
  match List.find (fun root => String.eqb root.(RootRef.id) root_id) snapshot.(CatalogSnapshot.roots) with
  | None => rel_path
  | Some root =>
      if String.eqb rel_path EmptyString then root_name root.(RootRef.path)
      else root_name root.(RootRef.path) +:+ "/" +:+ rel_path
  end.

(** No word character before the first index nor after the last. *)
Definition fuzzy_indices_respect_whole_word (path : string) (indices : list nat) : bool :=
  match indices with
  | [] => false
  | i :: rest =>
      let first := fold_left Nat.min rest i in
      let last := fold_left Nat.max rest i in
      let is_word n := match chars path !! n with Some ch => is_word_char ch | None => false end in
      ((first =? 0) || negb (is_word (first - 1))) && negb (is_word (last + 1))
  end.

Definition nucleo_fuzzy_score (path : string) (query : PathQuery.t) : option Z :=
  let pattern := query.(PathQuery.pattern) in
  if negb query.(PathQuery.has_fuzzy_pattern) then None
  else if query.(PathQuery.whole_word) then
    '(score, indices) ← world.(World.fuzzy_indices) pattern query.(PathQuery.case_sensitive) path;
    if fuzzy_indices_respect_whole_word path indices then Some score else None
  else world.(World.fuzzy_score) pattern query.(PathQuery.case_sensitive) path.

Definition path_score (path : string) (query : PathQuery.t) : option Z :=
  let len := Z.of_nat (String.length path) in
  if String.eqb query.(PathQuery.pattern) EmptyString then Some 0%Z
  else
    match query.(PathQuery.regex) with
    | Some regex =>
        (fun '(start, _) => PATH_REGEX_BASE - len - Z.of_nat start * 2)%Z <$>
          first_regex_match path regex query.(PathQuery.whole_word)
    | None =>
        match first_literal_match path query.(PathQuery.pattern) query.(PathQuery.case_sensitive)
                query.(PathQuery.whole_word) with
        | Some (start, end_) =>
            Some (PATH_SUBSTRING_BASE + default 0 (nucleo_fuzzy_score path query) - len
                    - Z.of_nat start * 2 + (if (end_ =? String.length path)%nat then 4 else 0))%Z
        | None => nucleo_fuzzy_score path query
        end
    end.

Definition path_search_hit (snapshot : CatalogSnapshot.t) (filter : EntryFilter.t) (query : PathQuery.t)
    (entry : CatalogEntry.t) : Op (option PathSearchMatch.t) :=
  do! _ := check_cancelled cancelled in
  let path := entry.(CatalogEntry.rel_path) in
  let root_id := entry.(CatalogEntry.root_id) in
  if negb (accepts world.(World.glob_match) filter path) then ret None
  else ret (PathSearchMatch.Mk root_id path (display_path snapshot root_id path) <$> path_score path query).

(** Descending score, then ascending path. *)
Definition path_match_leb (left right : PathSearchMatch.t) : bool :=
  lex_leb (fun a b => (b <=? a)%Z) string_leb
    (left.(PathSearchMatch.score), left.(PathSearchMatch.path))
    (right.(PathSearchMatch.score), right.(PathSearchMatch.path)).

Definition collect_path_matches (snapshot : CatalogSnapshot.t) (filter : EntryFilter.t)
    (query : PathQuery.t) (max_results : nat) : Op (list PathSearchMatch.t * nat) :=
  do! results := collect_results (path_search_hit snapshot filter query) snapshot.(CatalogSnapshot.entries) in
  let path_hits := omap id results in
  ret (take max_results (sort_by path_match_leb path_hits), length path_hits).

(** * [content.rs] *)

Definition MAX_CONTENT_MATCHES_PER_FILE : nat := 20.

Fixpoint plan_from (request : SearchRequest.t) (filter : EntryFilter.t) (entries : list CatalogEntry.t)
    (planned_bytes : u64) (content_entries : list CatalogEntry.t) : Op (list CatalogEntry.t * bool) :=
  match entries with
  | [] => ret (content_entries, false)
  | entry :: entries =>
      do! _ := check_cancelled cancelled in
      if negb (accepts world.(World.glob_match) filter entry.(CatalogEntry.rel_path))
      then plan_from request filter entries planned_bytes content_entries
      else
        let planned := usaturating_add planned_bytes (wrap 64 (N.of_nat entry.(CatalogEntry.size))) in
        if (request.(SearchRequest.max_content_files) <=? length content_entries) ||
           negb (u_leb planned request.(SearchRequest.max_content_bytes))
        then ret (content_entries, true)
        else plan_from request filter entries planned (content_entries ++ [entry])
  end.

Definition plan_content_entries (snapshot : CatalogSnapshot.t) (request : SearchRequest.t)
    (filter : EntryFilter.t) : Op (list CatalogEntry.t * bool) :=
  plan_from request filter snapshot.(CatalogSnapshot.entries) (wrap 64 0) [].

Definition binary_content_result (entry : CatalogEntry.t) (bytes : nat) : ContentSearchResult.t :=
  ContentSearchResult.Mk [] None
    (Some (Diagnostic.Mk (Some entry.(CatalogEntry.rel_path))
       ("skipped binary file during content search: " +:+ entry.(CatalogEntry.rel_path)))) bytes.

(** The matcher of a search: the regular expression, or else the literal's. *)
Definition line_matcher (regex ac : option Regex) : Regex :=
  match regex, ac with
  | Some regex, _ => regex
  | None, Some ac => ac
  | None, None => fun _ => []
  end.

Fixpoint keep_columns (whole_word : bool) (line : string) (spans : list (nat * nat)) : Op (list nat) :=
  match spans with
  | [] => ret []
  | (start, end_) :: spans =>
      do! _ := check_cancelled cancelled in
      do! columns := keep_columns whole_word line spans in
      ret (if negb whole_word || is_whole_word_match line start end_ then start :: columns else columns)
  end.

Definition find_content_match_columns (line : string) (matcher : Regex) (whole_word : bool)
    : Op (list nat) := keep_columns whole_word line (matcher line).

Definition trim_preview (line : string) : string := take_chars 240 line.

Definition line_context (lines : list string) (match_idx context_before context_after : nat)
    : list LineContext.t :=
  let start := match_idx - context_before in
  let end_ := (match_idx + context_after + 1) `min` length lines in
  imap (fun i text => LineContext.Mk (start + i + 1) (trim_preview text))
    (take (end_ - start) (drop start lines)).

Definition context_before (request : SearchRequest.t) : nat :=
  default request.(SearchRequest.context_lines) request.(SearchRequest.context_before).
Definition context_after (request : SearchRequest.t) : nat :=
  default request.(SearchRequest.context_lines) request.(SearchRequest.context_after).

Definition content_match (request : SearchRequest.t) (entry : CatalogEntry.t) (display_path : string)
    (lines : list string) (idx : nat) (line : string) (col0 : nat) : ContentSearchMatch.t :=
  ContentSearchMatch.Mk entry.(CatalogEntry.root_id) entry.(CatalogEntry.rel_path) display_path 0
    (idx + 1) (col0 + 1) (trim_preview line)
    (line_context lines idx (context_before request) (context_after request)).

Fixpoint matches_from (request : SearchRequest.t) (matcher : Regex) (entry : CatalogEntry.t)
    (display_path : string) (lines : list string) (pending : list (nat * string))
    : Op (list ContentSearchMatch.t * nat) :=
  match pending with
  | [] => ret ([], 0)
  | (idx, line) :: pending =>
      do! _ := check_cancelled cancelled in
      do! columns := find_content_match_columns line matcher request.(SearchRequest.whole_word) in
      do! rest := matches_from request matcher entry display_path lines pending in
      ret (match columns with
           | [] => rest.1
           | col0 :: _ => content_match request entry display_path lines idx line col0 :: rest.1
           end, length columns + rest.2)
  end.

Definition content_matches_for_file (request : SearchRequest.t) (matcher : Regex)
    (entry : CatalogEntry.t) (display_path text : string) : Op (list ContentSearchMatch.t * nat) :=
  let lines := str_lines text in
  matches_from request matcher entry display_path lines (imap pair lines).

Definition content_search_file (snapshot : CatalogSnapshot.t) (request : SearchRequest.t)
    (matcher : Regex) (ranking : ContentRankingQuery.t) (entry : CatalogEntry.t)
    : Op ContentSearchResult.t :=
  do! _ := check_cancelled cancelled in
  do! bytes := lift_op (world.(World.read_bytes) entry.(CatalogEntry.abs_path)) in
  do! _ := check_cancelled cancelled in
  if is_binary bytes then ret (binary_content_result entry (String.length bytes))
  else
    let text := world.(World.lossy) bytes in
    let display_path := display_path snapshot entry.(CatalogEntry.root_id) entry.(CatalogEntry.rel_path) in
    do! match_set := content_matches_for_file request matcher entry display_path text in
    do! _ := check_cancelled cancelled in
    ret (ContentSearchResult.Mk match_set.1
           (Some (stats_for_file world.(World.unicode) ranking entry.(CatalogEntry.rel_path) text match_set.2))
           None (String.length bytes)).

Definition with_score (hit : ContentSearchMatch.t) (score : Z) : ContentSearchMatch.t :=
  ContentSearchMatch.Mk hit.(ContentSearchMatch.root_id) hit.(ContentSearchMatch.path)
    hit.(ContentSearchMatch.display_path) score hit.(ContentSearchMatch.line)
    hit.(ContentSearchMatch.column) hit.(ContentSearchMatch.text) hit.(ContentSearchMatch.context).

Definition apply_content_relevance_scores (matches : list ContentSearchMatch.t)
    (stats : list FileRankingStats.t) (query : ContentRankingQuery.t) : list ContentSearchMatch.t :=
  let scores := content_file_scores world.(World.ln) stats query in
  map (fun hit => with_score hit (default 0%Z (scores !! hit.(ContentSearchMatch.path)))) matches.

(** Descending score, then ascending path and line. *)
Definition content_match_leb (left right : ContentSearchMatch.t) : bool :=
  let key hit := (hit.(ContentSearchMatch.score),
                  (hit.(ContentSearchMatch.path), hit.(ContentSearchMatch.line))) in
  lex_leb (fun a b => (b <=? a)%Z) (lex_leb string_leb Nat.leb) (key left) (key right).

Definition content_file_match_cap (max_results : nat) : nat :=
  (((max_results + 2) / 3) `max` 1) `min` MAX_CONTENT_MATCHES_PER_FILE.

(** A group is the path of its first hit and its hits. *)
Fixpoint add_to_group (per_file_cap : nat) (hit : ContentSearchMatch.t)
    (groups : list (list ContentSearchMatch.t)) : list (list ContentSearchMatch.t) :=
  match groups with
  | [] => [[hit]]
  | group :: groups =>
      match group with
      | first :: _ =>
          if String.eqb first.(ContentSearchMatch.path) hit.(ContentSearchMatch.path)
          then (if length group <? per_file_cap then group ++ [hit] else group) :: groups
          else group :: add_to_group per_file_cap hit groups
      | [] => group :: add_to_group per_file_cap hit groups
      end
  end.

Definition group_matches_by_ranked_file (matches : list ContentSearchMatch.t) (per_file_cap : nat)
    : list (list ContentSearchMatch.t) :=
  fold_left (fun groups hit => add_to_group per_file_cap hit groups) matches [].

(** The [round]th hit of each group, as long as there is room. *)
Fixpoint take_round (groups : list (list ContentSearchMatch.t)) (round room : nat)
    : list ContentSearchMatch.t :=
  match groups, room with
  | [], _ | _, 0 => []
  | group :: groups, S less =>
      match group !! round with
      | Some hit => hit :: take_round groups round less
      | None => take_round groups round room
      end
  end.

Fixpoint diversify_from (fuel : nat) (groups : list (list ContentSearchMatch.t)) (round room : nat)
    : list ContentSearchMatch.t :=
  match fuel, room with
  | S fuel, S _ =>
      match take_round groups round room with
      | [] => []
      | hits => hits ++ diversify_from fuel groups (S round) (room - length hits)
      end
  | _, _ => []
  end.

(** No group is longer than the cap, so there are no more rounds than that. *)
Definition diversify_content_matches (matches : list ContentSearchMatch.t) (max_results : nat)
    : list ContentSearchMatch.t :=
  let cap := content_file_match_cap max_results in
  diversify_from cap (group_matches_by_ranked_file matches cap) 0 max_results.

Definition collapse_to_files (matches : list ContentSearchMatch.t) : list FileMatchCount.t :=
  let by_path :=
    fold_left (fun by_path m =>
        bt_entry string_leb m.(ContentSearchMatch.path)
          (m.(ContentSearchMatch.root_id), m.(ContentSearchMatch.display_path), 0)
          (fun '(root_id, display_path, count) => (root_id, display_path, S count)) by_path)
      matches [] in
  sort_by (fun a b =>
      lex_leb (fun a b => b <=? a) string_leb
        (a.(FileMatchCount.count), a.(FileMatchCount.display_path))
        (b.(FileMatchCount.count), b.(FileMatchCount.display_path)))
    (map (fun '(path, (root_id, display_path, count)) => FileMatchCount.Mk root_id path display_path count)
       by_path).

Definition shape_content_output (request : SearchRequest.t) (max_results : nat)
    (matches : list ContentSearchMatch.t) (stats : list FileRankingStats.t)
    (query : ContentRankingQuery.t) : Op (list ContentSearchMatch.t * list FileMatchCount.t) :=
  do! _ := check_cancelled cancelled in
  ret (match request.(SearchRequest.output_mode) with
       | OutputMode.Content =>
           (diversify_content_matches
              (sort_by content_match_leb (apply_content_relevance_scores matches stats query))
              max_results, [])
       | OutputMode.FilesWithMatches | OutputMode.Count =>
           ([], take max_results (collapse_to_files matches))
       end).

Definition searches_content (request : SearchRequest.t) : bool :=
  match request.(SearchRequest.mode) with
  | SearchMode.Content | SearchMode.Both => nonempty request.(SearchRequest.pattern)
  | SearchMode.Path => false
  end.

Definition collect_content_matches (snapshot : CatalogSnapshot.t) (request : SearchRequest.t)
    (filter : EntryFilter.t) (regex ac : option Regex) (case_sensitive : bool) (max_results : nat)
    : Op ContentSearchSummary.t :=
  if negb (searches_content request)
  then ret (ContentSearchSummary.Mk [] [] [] 0 0 (wrap 64 0) 0 false)
  else
    let ranking :=
      ranking_query world.(World.unicode) request.(SearchRequest.pattern) case_sensitive
        request.(SearchRequest.regex) request.(SearchRequest.whole_word) in
    do! planned := plan_content_entries snapshot request filter in
    let '(content_entries, exhausted) := planned in
    do! results :=
      collect_results (content_search_file snapshot request (line_matcher regex ac) ranking)
        content_entries in
    let matches := flat_map ContentSearchResult.matches results in
    do! shaped :=
      shape_content_output request max_results matches (omap ContentSearchResult.ranking results) ranking in
    ret (ContentSearchSummary.Mk shaped.1 shaped.2 (omap ContentSearchResult.diagnostic results)
           (length matches) (length results)
           (wrap 64 (N.of_nat (sum_list (map ContentSearchResult.bytes results))))
           (length (omap ContentSearchResult.diagnostic results)) exhausted).

(** * [api.rs] *)

Definition search_snapshot (snapshot : CatalogSnapshot.t) (request : SearchRequest.t)
    : Op SearchResponse.t :=
  do! _ := check_cancelled cancelled in
  let max_results := request.(SearchRequest.max_results) `max` 1 in
  let case_sensitive := is_smart_case_sensitive world.(World.unicode) request.(SearchRequest.pattern) in
  do! regex := lift_op (build_search_regex request case_sensitive) in
  let ac := build_literal_matcher request case_sensitive in
  do! filter := lift_op (entry_filter request) in
  do! paths :=
    collect_path_matches snapshot filter
      (PathQuery.Mk request.(SearchRequest.pattern) regex case_sensitive
         request.(SearchRequest.whole_word) (negb request.(SearchRequest.regex))) max_results in
  let '(path_matches, path_total) := paths in
  do! content := collect_content_matches snapshot request filter regex ac case_sensitive max_results in
  let total := path_total + content.(ContentSearchSummary.total) in
  let returned := length path_matches + length content.(ContentSearchSummary.matches) in
  let omitted := total - returned in
  ret (SearchResponse.Mk snapshot.(CatalogSnapshot.generation) path_matches
         content.(ContentSearchSummary.matches) content.(ContentSearchSummary.match_files)
         content.(ContentSearchSummary.diagnostics)
         (SearchTotals.Mk (length snapshot.(CatalogSnapshot.entries)) path_total
            content.(ContentSearchSummary.total) omitted content.(ContentSearchSummary.files_scanned)
            content.(ContentSearchSummary.bytes_scanned) content.(ContentSearchSummary.binary_files_skipped)
            request.(SearchRequest.max_content_files) request.(SearchRequest.max_content_bytes)
            content.(ContentSearchSummary.exhausted)
            (SearchBudget.Mk max_results request.(SearchRequest.max_content_files)
               request.(SearchRequest.max_content_bytes)
               ((0 <? omitted) || content.(ContentSearchSummary.exhausted))))).
End search.
