(* ===== verification/SearchSpec.v ===== *)
(** What [Search] promises: the first literal match, the plan of the files to read, the spread of the
    results over the files, and a whole search. *)
From stdpp Require Import gmap strings.
From S2P Require Import Prelude Text BTree EditText Paths CodeGraph Disk Navigate Selection RepoMap Search.
Open Scope nerve_scope.

(** * Operations that are not cancelled *)

(** Whatever the number of the first check. *)
Definition gives {A} (m : Op A) (a : A) : Prop := forall n, (m n).1 = inl a.

Lemma gives_ret {A} (a : A) : gives (ret a) a.
Proof. done. Qed.

Lemma gives_check : gives (check_cancelled never) tt.
Proof. done. Qed.

Lemma gives_lift {A} (a : A) : gives (lift_op (inl a)) a.
Proof. done. Qed.

Lemma gives_bind {A B} (m : Op A) (k : A -> Op B) a b : gives m a -> gives (k a) b -> gives (bind_op m k) b.
Proof.
  intros H K n. specialize (H n). unfold bind_op. destruct (m n) as [r n']. cbn in H. subst r. apply K.
Qed.

Lemma gives_collect {A B} (f : A -> Op B) (g : A -> B) l :
  (forall x, x ∈ l -> gives (f x) (g x)) -> gives (collect_results f l) (map g l).
Proof.
  intros H n. unfold collect_results. revert n. induction l as [|x l IH]; intros n; [done|]. cbn.
  pose proof (H x ltac:(set_solver) n) as E. destruct (f x n) as [r n']. cbn in E. subst r.
  specialize (IH ltac:(set_solver) n'). destruct (results_of f l n') as [rs n'']. cbn in *. by rewrite IH.
Qed.

Lemma gives_unique {A} (m : Op A) a b : gives m a -> gives m b -> a = b.
Proof. intros H K. specialize (H 0). rewrite (K 0) in H. congruence. Qed.

#[export] Hint Resolve gives_ret gives_check gives_lift : nerve.

Ltac gives_step := eapply gives_bind; [first [apply gives_check | apply gives_lift | eassumption]|]; cbn beta iota.

(** * The first literal match *)

Section literal.
Context (text pattern : string) (case_sensitive whole_word : bool).
Notation same := (same_byte case_sensitive).
Notation len := (String.length pattern).

(** The pattern is in the text at a byte. *)
Definition occurs (s : nat) : Prop := prefix_by same pattern (drop_bytes s text) = true.

(** It is there as the search asks for. *)
Definition matches_at (s : nat) : Prop :=
  occurs s /\ (whole_word = true -> is_whole_word_match text s (s + len) = true).

Lemma find_by_some (p s : string) k : find_by same p s = Some k ->
  prefix_by same p (drop_bytes k s) = true /\
  forall j, j < k -> prefix_by same p (drop_bytes j s) = false.
Proof.
  revert k. induction s as [|c s IH]; intros k; cbn [find_by].
  - destruct (prefix_by same p "") eqn:E; [|done]. intros [= <-]. split; [done|lia].
  - destruct (prefix_by same p (String c s)) eqn:E.
    + intros [= <-]. split; [done|lia].
    + destruct (find_by same p s) as [k'|]; [|done]. intros [= <-].
      destruct (IH k' eq_refl) as [P N]. split; [done|]. intros [|j] L; [done|]. cbn. apply N. lia.
Qed.

Lemma drop_empty j : drop_bytes j EmptyString = EmptyString.
Proof. by destruct j. Qed.

Lemma find_by_none (p s : string) : find_by same p s = None ->
  forall j, prefix_by same p (drop_bytes j s) = false.
Proof.
  induction s as [|c s IH]; cbn [find_by]; intros E j.
  - rewrite drop_empty. by destruct (prefix_by same p "").
  - destruct (prefix_by same p (String c s)) eqn:E'; [done|].
    destruct (find_by same p s); [done|]. destruct j as [|j]; [done|]. by apply IH.
Qed.

Lemma drop_drop_bytes a b (s : string) : drop_bytes a (drop_bytes b s) = drop_bytes (b + a) s.
Proof. revert s. induction b as [|b IH]; intros [|c s]; cbn; try done. by destruct a. Qed.

Lemma length_drop_bytes a (s : string) : String.length (drop_bytes a s) = String.length s - a.
Proof. revert s. induction a as [|a IH]; intros [|c s]; cbn; try done. Qed.

Lemma prefix_by_length (p s : string) : prefix_by same p s = true -> String.length p <= String.length s.
Proof.
  revert s. induction p as [|x p IH]; intros [|c s]; cbn; try done; [lia|].
  intros [_ P]%andb_prop. specialize (IH _ P). lia.
Qed.

Lemma occurs_within s : pattern <> EmptyString -> occurs s -> s + len <= String.length text.
Proof.
  intros N P%prefix_by_length. rewrite length_drop_bytes in P. destruct pattern; [done|]. cbn in *. lia.
Qed.

Lemma continuation_lower c : utf8_continuation (ascii_lower c) = utf8_continuation c.
Proof. by destruct c as [[] [] [] [] [] [] [] []]. Qed.

Lemma same_continuation a b : same a b = true -> utf8_continuation a = utf8_continuation b.
Proof.
  unfold same_byte. destruct case_sensitive; intros E%Ascii.eqb_eq; [by subst|].
  by rewrite <- (continuation_lower a), E, continuation_lower.
Qed.

Lemma run_continues j s : j < continuation_run s -> continues (drop_bytes j s) = true.
Proof.
  revert j. induction s as [|c s IH]; cbn; [lia|]. intros j.
  destruct (utf8_continuation c) eqn:E; [|lia]. destruct j as [|j]; [done|]. intros L. apply IH. lia.
Qed.

Lemma run_within s : continuation_run s <= String.length s.
Proof. induction s as [|c s IH]; cbn; [lia|]. destruct (utf8_continuation c); lia. Qed.

(** A pattern that starts a character occurs at none that continues one. *)
Lemma occurs_at_start s : pattern <> EmptyString -> continues pattern = false ->
  occurs s -> continues (drop_bytes s text) = false.
Proof.
  unfold occurs. intros N C P. destruct pattern as [|p rest]; [done|]. cbn in C.
  destruct (drop_bytes s text) as [|c t]; [done|]. cbn in *. apply andb_prop in P as [P _].
  by rewrite <- (same_continuation _ _ P).
Qed.

Lemma literal_loop_spec fuel offset : pattern <> EmptyString -> continues pattern = false ->
  offset <= String.length text -> String.length text + 2 <= fuel + offset ->
  (forall s, s < offset -> ~ matches_at s) ->
  match literal_loop fuel text pattern case_sensitive whole_word offset with
  | Some (s, e) => e = s + len /\ matches_at s /\ forall s', s' < s -> ~ matches_at s'
  | None => forall s, ~ matches_at s
  end.
Proof.
  intros N C. revert offset. induction fuel as [|fuel IH]; intros offset O F B; [lia|]. cbn [literal_loop].
  destruct (Nat.ltb_spec (String.length text - len) offset) as [L|L].
  { intros s M. destruct (decide (s < offset)) as [?|?]; [by eapply B|]. destruct M as [P _].
    pose proof (occurs_within s N P). destruct pattern; [done|]. cbn in *. lia. }
  replace (if case_sensitive then _ else _) with (find_by same pattern (drop_bytes offset text))
    by (by unfold find_ascii_case_insensitive; destruct case_sensitive).
  destruct (find_by same pattern (drop_bytes offset text)) as [found|] eqn:E.
  - apply find_by_some in E as [P Q]. rewrite drop_drop_bytes in P.
    assert (forall s, s < offset + found -> ~ matches_at s) as B'.
    { intros s Ls M. destruct (decide (s < offset)) as [?|G]; [by eapply B|]. destruct M as [P' W].
      specialize (Q (s - offset) ltac:(lia)). rewrite drop_drop_bytes in Q.
      replace (offset + (s - offset)) with s in Q by lia. unfold occurs in P'. congruence. }
    destruct (negb whole_word || is_whole_word_match text (offset + found) (offset + found + len)) eqn:W.
    + split; [done|]. split; [|done]. split; [done|]. intros Ew. by rewrite Ew in W.
    + apply orb_false_iff in W as [W1%negb_false_iff W2].
      pose proof (occurs_within _ N P) as Lo. destruct pattern as [|p0 rest] eqn:Ep; [done|].
      rewrite <- Ep in *.
      pose proof (run_within (drop_bytes (S (offset + found)) text)) as R. rewrite length_drop_bytes in R.
      apply IH; unfold next_char_boundary; [rewrite Ep in Lo; cbn in Lo; lia|lia|].
      intros s Ls M. destruct (decide (s < offset + found)) as [?|G]; [by eapply B'|].
      destruct (decide (s = offset + found)) as [->|G'].
      * destruct M as [_ M]. rewrite (M W1) in W2. done.
      * destruct M as [M _]. apply occurs_at_start in M; [|by rewrite Ep|done].
        pose proof (run_continues (s - S (offset + found)) (drop_bytes (S (offset + found)) text)) as K.
        rewrite drop_drop_bytes in K.
        replace (S (offset + found) + (s - S (offset + found))) with s in K by lia.
        rewrite K in M by lia. done.
  - intros s M. destruct (decide (s < offset)) as [?|G]; [by eapply B|]. destruct M as [P _].
    pose proof (find_by_none _ _ E (s - offset)) as Q. rewrite drop_drop_bytes in Q.
    replace (offset + (s - offset)) with s in Q by lia. unfold occurs in P. congruence.
Qed.
End literal.

(** The span [first_literal_match] finds is the first place where the pattern is in the text, as
    a whole word when one is asked for, and when it finds none there is none. *)
Theorem first_literal_match_spec text pattern case_sensitive whole_word
  (P : pattern <> EmptyString) (C : continues pattern = false) :
  match first_literal_match text pattern case_sensitive whole_word with
  | Some (s, e) =>
      e = s + String.length pattern /\ matches_at text pattern case_sensitive whole_word s /\
      forall s', s' < s -> ~ matches_at text pattern case_sensitive whole_word s'
  | None => forall s, ~ matches_at text pattern case_sensitive whole_word s
  end.
Proof.
  unfold first_literal_match. destruct (String.eqb_spec pattern EmptyString) as [?|_]; [done|].
  apply literal_loop_spec; [done|done|lia|lia|lia].
Qed.

Lemma first_literal_match_spec_witness :
  "cat" <> EmptyString /\ continues "cat" = false /\
  first_literal_match "concat(Cat)" "cat" false true = Some (7, 10) /\
  forall s, s < 7 -> ~ matches_at "concat(Cat)" "cat" false true s.
Proof.
  split; [done|]. split; [done|]. split; [done|].
  exact (proj2 (proj2 (first_literal_match_spec "concat(Cat)" "cat" false true ltac:(done) eq_refl))).
Defined.

(** * The results are spread over the files *)

Notation hit_path := ContentSearchMatch.path.

Definition of_path (matches : list ContentSearchMatch.t) (path : string) : list ContentSearchMatch.t :=
  List.filter (fun m => String.eqb path (hit_path m)) matches.

(** The files, by their first hits. *)
Definition paths_of (matches : list ContentSearchMatch.t) : list string := first_seen ∅ (map hit_path matches).

(** Every file's first hit, then every file's second, up to the cap. *)
Definition round_robin (matches : list ContentSearchMatch.t) (cap : nat) : list ContentSearchMatch.t :=
  flat_map (fun r => omap (fun path => of_path matches path !! r) (paths_of matches)) (seq 0 cap).

Lemma first_seen_snoc seen l x :
  first_seen seen (l ++ [x]) =
  first_seen seen l ++ (if bool_decide (x ∈ seen \/ x ∈ l) then [] else [x]).
Proof.
  revert seen. induction l as [|y l IH]; intros seen; cbn.
  - destruct (bool_decide (x ∈ seen)) eqn:E.
    + apply bool_decide_eq_true in E. by rewrite bool_decide_true by (by left).
    + apply bool_decide_eq_false in E. by rewrite bool_decide_false by (set_solver).
  - destruct (bool_decide (y ∈ seen)) eqn:E.
    + apply bool_decide_eq_true in E. rewrite IH.
      rewrite (bool_decide_ext (x ∈ seen \/ x ∈ l) (x ∈ seen \/ x ∈ y :: l)) by set_solver. done.
    + rewrite IH. cbn.
      rewrite (bool_decide_ext (x ∈ {[y]} ∪ seen \/ x ∈ l) (x ∈ seen \/ x ∈ y :: l)) by set_solver. done.
Qed.

Lemma elem_of_first_seen seen l x : x ∈ first_seen seen l <-> x ∈ l /\ x ∉ seen.
Proof.
  revert seen. induction l as [|y l IH]; intros seen; cbn; [set_solver|].
  case_bool_decide.
  - rewrite IH. set_solver.
  - rewrite !elem_of_cons, IH. destruct (decide (x = y)); set_solver.
Qed.

Lemma first_seen_NoDup seen l : NoDup (first_seen seen l).
Proof.
  revert seen. induction l as [|y l IH]; intros seen; cbn; [constructor|].
  case_bool_decide; [done|]. constructor; [|done]. rewrite elem_of_first_seen. set_solver.
Qed.

Lemma of_path_snoc ms hit p :
  of_path (ms ++ [hit]) p = of_path ms p ++ (if String.eqb p (hit_path hit) then [hit] else []).
Proof. unfold of_path. rewrite List.filter_app. cbn. by destruct (String.eqb _ _). Qed.

Lemma of_path_head ms p : p ∈ map hit_path ms -> exists m rest, of_path ms p = m :: rest /\ hit_path m = p.
Proof.
  intros (m & -> & I)%list_elem_of_fmap. destruct (of_path ms (hit_path m)) as [|x rest] eqn:E.
  - apply list_elem_of_In in I. assert (In m (of_path ms (hit_path m))) as J
      by (apply filter_In; by rewrite String.eqb_refl). by rewrite E in J.
  - exists x, rest. split; [done|]. assert (In x (of_path ms (hit_path m))) as J by (rewrite E; by left).
    apply filter_In in J as [_ J%String.eqb_eq]. done.
Qed.

Lemma take_snoc_if {A} (l : list A) x cap :
  (if length (take cap l) <? cap then take cap l ++ [x] else take cap l) = take cap (l ++ [x]).
Proof.
  rewrite length_take. destruct (Nat.ltb_spec (cap `min` length l) cap) as [L|L].
  - rewrite !take_ge; rewrite ?length_app; cbn; try done; lia.
  - rewrite take_app_le by lia. done.
Qed.

Lemma add_to_group_spec cap ms hit ps : 0 < cap -> NoDup ps -> (forall p, p ∈ ps -> p ∈ map hit_path ms) ->
  add_to_group cap hit (map (fun p => take cap (of_path ms p)) ps) =
  map (fun p => take cap (of_path (ms ++ [hit]) p)) ps ++
    (if bool_decide (hit_path hit ∈ ps) then [] else [[hit]]).
Proof.
  intros C. induction ps as [|p ps IH]; intros N I; [done|]. apply NoDup_cons in N as [N1 N2]. cbn [map].
  destruct (of_path_head ms p) as (m & rest & E & Em); [set_solver|].
  assert (exists t, take cap (of_path ms p) = m :: t) as [t Et]
    by (rewrite E; destruct cap; [lia|]; cbn; by eexists).
  cbn [add_to_group]. rewrite Et at 1. rewrite Em, of_path_snoc. cbn [app].
  destruct (String.eqb_spec p (hit_path hit)) as [->|D].
  - rewrite take_snoc_if, bool_decide_true, app_nil_r by (by left). f_equal.
    apply map_ext_in. intros q J%list_elem_of_In. rewrite of_path_snoc.
    destruct (String.eqb_spec q (hit_path hit)) as [->|]; [done|]. by rewrite app_nil_r.
  - rewrite IH, app_nil_r by set_solver. cbn.
    rewrite (bool_decide_ext (hit_path hit ∈ ps) (hit_path hit ∈ p :: ps)) by set_solver. done.
Qed.

Lemma group_matches_spec cap ms : 0 < cap ->
  group_matches_by_ranked_file ms cap = map (fun p => take cap (of_path ms p)) (paths_of ms).
Proof.
  intros C. unfold group_matches_by_ranked_file, paths_of.
  induction ms as [|hit ms IH] using rev_ind; [done|].
  rewrite fold_left_app. cbn [fold_left]. rewrite IH, map_app, add_to_group_spec; [|done|apply first_seen_NoDup|].
  2: { intros p I%elem_of_first_seen. apply I. }
  cbn [map]. rewrite first_seen_snoc, map_app. f_equal.
  case_bool_decide as E; case_bool_decide as F; try done.
  - apply elem_of_first_seen in E. set_solver.
  - destruct F as [F|F]; [set_solver|]. destruct E. apply elem_of_first_seen. set_solver.
  - cbn. rewrite of_path_snoc, String.eqb_refl.
    destruct (of_path ms (hit_path hit)) as [|x rest] eqn:G; [destruct cap; [lia|]; cbn; by rewrite take_nil|].
    destruct F. right. assert (In x (of_path ms (hit_path hit))) as J by (rewrite G; by left).
    apply filter_In in J as [J K%String.eqb_eq]. rewrite K. by apply list_elem_of_In, in_map.
Qed.

Lemma take_round_spec groups r room : take_round groups r room = take room (omap (.!! r) groups).
Proof.
  revert room. induction groups as [|g groups IH]; intros [|room]; cbn; try done.
  destruct (g !! r); cbn; by rewrite IH.
Qed.

Lemma no_round_after {A} (groups : list (list A)) r r' : r <= r' -> omap (.!! r) groups = [] ->
  omap (.!! r') groups = [].
Proof.
  intros L. induction groups as [|g groups IH]; [done|]. cbn.
  destruct (g !! r) eqn:E; [done|]. intros F. apply lookup_ge_None in E.
  rewrite (lookup_ge_None_2 g r') by lia. auto.
Qed.

Lemma diversify_from_spec fuel groups r room :
  diversify_from fuel groups r room = take room (flat_map (fun r => omap (.!! r) groups) (seq r fuel)).
Proof.
  revert r room. induction fuel as [|fuel IH]; intros r [|room]; cbn [diversify_from seq flat_map]; try done.
  rewrite take_round_spec. set (hits := omap (.!! r) groups) in *.
  destruct (take (S room) hits) as [|h hs] eqn:E.
  - assert (hits = []) as Z by (by destruct hits). rewrite Z. cbn [app].
    replace (flat_map _ (seq (S r) fuel)) with (@nil ContentSearchMatch.t); [done|]. symmetry.
    assert (forall k, r <= k -> flat_map (fun r => omap (.!! r) groups) (seq k fuel) = []) as G; [|apply G; lia].
    clear E IH. induction fuel as [|fuel IH]; intros k L; [done|]. cbn.
    rewrite (no_round_after groups r k) by done. apply IH. lia.
  - rewrite <- E, IH, take_app, length_take. f_equal.
    f_equal. lia.
Qed.

Lemma cap_pos max_results : 0 < content_file_match_cap max_results.
Proof. unfold content_file_match_cap, MAX_CONTENT_MATCHES_PER_FILE. lia. Qed.

(** The results are the round robin over the files, cut at the number asked for. *)
Lemma diversify_spec matches max_results :
  diversify_content_matches matches max_results =
  take max_results (round_robin matches (content_file_match_cap max_results)).
Proof.
  pose proof (cap_pos max_results) as C. unfold diversify_content_matches, round_robin.
  rewrite group_matches_spec, diversify_from_spec by done. f_equal.
  rewrite !flat_map_concat_map. f_equal. apply map_ext_in. intros r I%in_seq. induction (paths_of matches) as [|p ps IH]; [done|]. cbn.
  rewrite lookup_take_lt by lia. by rewrite IH.
Qed.

Lemma rounds_perm {A} (l : list A) (ls : list (list A)) rounds :
  flat_map (fun r => omap (.!! r) (l :: ls)) rounds ≡ₚ
  omap (fun r => l !! r) rounds ++ flat_map (fun r => omap (.!! r) ls) rounds.
Proof.
  induction rounds as [|r rounds IH]; [done|]. cbn [flat_map]. rewrite IH. cbn [omap list_omap].
  destruct (l !! r); cbn; [constructor|]; rewrite !(assoc_L (++)); apply Permutation_app_tail; solve_Permutation.
Qed.

Lemma omap_lookup_take {A} (l : list A) n k : omap (fun r => l !! r) (seq k n) = take n (drop k l).
Proof.
  revert k. induction n as [|n IH]; intros k; [done|]. cbn. destruct (l !! k) as [x|] eqn:E.
  - rewrite (drop_S _ _ _ E). cbn. by rewrite IH.
  - rewrite IH. apply lookup_ge_None in E. rewrite !drop_ge by lia. by rewrite !take_nil.
Qed.

Lemma rounds_submseteq {A} (ls : list (list A)) cap :
  flat_map (fun r => omap (.!! r) ls) (seq 0 cap) ⊆+ concat ls.
Proof.
  induction ls as [|l ls IH].
  - replace (flat_map _ _) with (@nil A); [done|]. by induction (seq 0 cap).
  - rewrite rounds_perm, omap_lookup_take. cbn. apply submseteq_app; [|done].
    apply sublist_submseteq, sublist_take.
Qed.

Lemma of_path_concat ms ps : NoDup ps -> concat (map (of_path ms) ps) ⊆+ ms.
Proof.
  intros N. induction ms as [|m ms IH].
  - replace (concat _) with (@nil ContentSearchMatch.t); [done|]. clear N. by induction ps.
  - assert (forall ps, NoDup ps -> concat (map (of_path (m :: ms)) ps) ≡ₚ
      (if bool_decide (hit_path m ∈ ps) then [m] else []) ++ concat (map (of_path ms) ps)) as G.
    { clear. induction ps as [|p ps IH]; intros N; [done|]. apply NoDup_cons in N as [N1 N2].
      cbn [map concat]. rewrite IH by done. unfold of_path at 1. cbn [List.filter].
      fold (of_path ms p). destruct (String.eqb_spec p (hit_path m)) as [->|D].
      - rewrite bool_decide_false by done. rewrite bool_decide_true by (by left). done.
      - rewrite (bool_decide_ext (hit_path m ∈ ps) (hit_path m ∈ p :: ps)) by set_solver.
        solve_Permutation. }
    rewrite G by done. case_bool_decide; cbn; [by constructor|by apply submseteq_cons].
Qed.

(** Each hit comes back at most once. *)
Lemma diversify_submseteq matches max_results : diversify_content_matches matches max_results ⊆+ matches.
Proof.
  rewrite diversify_spec. transitivity (round_robin matches (content_file_match_cap max_results)).
  - apply sublist_submseteq, sublist_take.
  - unfold round_robin.
    transitivity (concat (map (of_path matches) (paths_of matches))); [|apply of_path_concat, first_seen_NoDup].
    rewrite <- (rounds_submseteq (map (of_path matches) (paths_of matches)) (content_file_match_cap max_results)).
    replace (flat_map _ _) with (flat_map (fun r => omap (.!! r) (map (of_path matches) (paths_of matches)))
      (seq 0 (content_file_match_cap max_results))); [done|].
    rewrite !flat_map_concat_map. f_equal. apply map_ext. intros r.
    induction (paths_of matches) as [|p ps IH]; [done|]. cbn. by rewrite IH.
Qed.

(** With room for a hit of each file, no file that has one is left out. *)
Lemma diversify_represents matches max_results m : length (paths_of matches) <= max_results ->
  m ∈ matches -> exists m', m' ∈ diversify_content_matches matches max_results /\ hit_path m' = hit_path m.
Proof.
  intros L I. rewrite diversify_spec. unfold round_robin. pose proof (cap_pos max_results) as C.
  destruct (content_file_match_cap max_results) as [|cap]; [lia|]. cbn [seq flat_map].
  set (firsts := omap (fun path => of_path matches path !! 0) (paths_of matches)).
  assert (forall p, p ∈ paths_of matches -> exists m', of_path matches p !! 0 = Some m' /\ hit_path m' = p) as F.
  { intros p [J _]%elem_of_first_seen. destruct (of_path_head _ _ J) as (m' & rest & -> & E). by eexists. }
  assert (length firsts = length (paths_of matches)) as Lf.
  { subst firsts. clear L. revert F. induction (paths_of matches) as [|p ps IH]; [done|]. intros F. cbn.
    destruct (F p) as (m' & -> & _); [by left|]. cbn. rewrite IH; [done|]. intros q J. apply F. by right. }
  rewrite take_app_ge by lia.
  assert (hit_path m ∈ paths_of matches) as J.
  { apply elem_of_first_seen. split; [|set_solver]. apply list_elem_of_fmap. by exists m. }
  destruct (F _ J) as (m' & E & P). exists m'. split; [|done]. apply elem_of_app. left.
  apply list_elem_of_omap. by exists (hit_path m).
Qed.

(** * A whole search *)

Section whole.
Context (world : World.t) (snapshot : CatalogSnapshot.t) (request : SearchRequest.t).

(** ** The files to read *)

Definition entry_bytes (entry : CatalogEntry.t) : u64 := wrap 64 (N.of_nat entry.(CatalogEntry.size)).

(** The saturating total of the sizes. *)
Definition planned_bytes (entries : list CatalogEntry.t) : u64 :=
  fold_left (fun bytes entry => usaturating_add bytes (entry_bytes entry)) entries (wrap 64 0).

Definition within_limits (entries : list CatalogEntry.t) : Prop :=
  length entries <= request.(SearchRequest.max_content_files) /\
  u_leb (planned_bytes entries) request.(SearchRequest.max_content_bytes) = true.

Definition accepted (filter : EntryFilter.t) (entries : list CatalogEntry.t) : list CatalogEntry.t :=
  List.filter (fun entry => accepts world.(World.glob_match) filter entry.(CatalogEntry.rel_path)) entries.

Lemma plan_from_spec filter entries taken :
  u_leb (planned_bytes taken) request.(SearchRequest.max_content_bytes) = true ->
  length taken <= request.(SearchRequest.max_content_files) ->
  exists more rest, accepted filter entries = more ++ rest /\
    gives (plan_from never world request filter entries (planned_bytes taken) taken)
      (taken ++ more, negb (is_empty rest)) /\
    within_limits (taken ++ more) /\
    forall entry rest', rest = entry :: rest' -> ~ within_limits ((taken ++ more) ++ [entry]).
Proof.
  revert taken. induction entries as [|entry entries IH]; intros taken B F.
  { exists [], []. rewrite !app_nil_r. split; [done|]. split; [apply gives_ret|]. split; [done|]. by intros ? ? [=]. }
  cbn [plan_from accepted List.filter]. fold (accepted filter entries).
  destruct (accepts _ _ _) eqn:A; cbn [negb].
  2: { destruct (IH taken B F) as (more & rest & E & G & W). exists more, rest. split; [done|]. split; [|done].
       gives_step. exact G. }
  assert (usaturating_add (planned_bytes taken) (wrap 64 (N.of_nat entry.(CatalogEntry.size))) =
    planned_bytes (taken ++ [entry])) as P by (unfold planned_bytes; by rewrite fold_left_app).
  rewrite P. destruct (_ || _) eqn:S.
  - exists [], (entry :: accepted filter entries). rewrite app_nil_r. split; [done|]. split.
    { gives_step. apply gives_ret. }
    split; [done|]. intros e r [= <- <-] [W1 W2]. rewrite length_app in W1. cbn in W1.
    apply orb_prop in S as [S%Nat.leb_le|S%negb_true_iff]; [lia|congruence].
  - apply orb_false_iff in S as [S1%Nat.leb_gt S2%negb_false_iff].
    destruct (IH (taken ++ [entry])) as (more & rest & E & G & W & M); [done|rewrite length_app; cbn; lia|].
    exists (entry :: more), rest. rewrite E. rewrite <- app_assoc in G, W, M. split_and!; try done; [|apply W..].
    gives_step. exact G.
Qed.

Lemma u_leb_0 w (a : uint w) : u_leb (wrap w 0) a = true.
Proof. unfold u_leb. apply N.leb_le. rewrite uval_wrap, N.Div0.mod_0_l. lia. Qed.

(** The files read are the first ones the filter accepts, as many as the limits allow. *)
Lemma plan_content_entries_spec filter :
  exists taken rest, accepted filter snapshot.(CatalogSnapshot.entries) = taken ++ rest /\
    gives (plan_content_entries never world snapshot request filter) (taken, negb (is_empty rest)) /\
    within_limits taken /\ forall entry rest', rest = entry :: rest' -> ~ within_limits (taken ++ [entry]).
Proof. apply (plan_from_spec filter _ []); [apply u_leb_0|cbn; lia]. Qed.

(** ** The hits of a file *)

Definition line_columns (matcher : Regex) (line : string) : list nat :=
  map fst (List.filter (fun '(start, end_) =>
    negb request.(SearchRequest.whole_word) || is_whole_word_match line start end_) (matcher line)).

Definition hits_of_lines (matcher : Regex) (entry : CatalogEntry.t) (text : string)
    : list ContentSearchMatch.t :=
  omap (fun '(idx, line) =>
      match line_columns matcher line with
      | [] => None
      | col0 :: _ =>
          Some (content_match request entry
                  (display_path snapshot entry.(CatalogEntry.root_id) entry.(CatalogEntry.rel_path))
                  (str_lines text) idx line col0)
      end) (imap pair (str_lines text)).

(** One hit for each line that matches, unless the file is binary. *)
Definition file_hits (matcher : Regex) (entry : CatalogEntry.t) : list ContentSearchMatch.t :=
  match world.(World.read_bytes) entry.(CatalogEntry.abs_path) with
  | inl bytes =>
      if is_binary bytes then [] else hits_of_lines matcher entry (world.(World.lossy) bytes)
  | inr _ => []
  end.

Lemma keep_columns_gives line spans :
  gives (keep_columns never request.(SearchRequest.whole_word) line spans)
    (map fst (List.filter (fun '(start, end_) =>
       negb request.(SearchRequest.whole_word) || is_whole_word_match line start end_) spans)).
Proof.
  induction spans as [|[s e] spans IH]; [apply gives_ret|]. cbn. gives_step. gives_step.
  destruct (_ || _); apply gives_ret.
Qed.

Lemma matches_from_gives matcher entry display lines pending :
  exists count, gives (matches_from never request matcher entry display lines pending)
    (omap (fun '(idx, line) =>
       match line_columns matcher line with
       | [] => None
       | col0 :: _ => Some (content_match request entry display lines idx line col0)
       end) pending, count).
Proof.
  induction pending as [|[idx line] pending [count IH]]; [by eexists|].
  exists (length (line_columns matcher line) + count). cbn. gives_step. eapply gives_bind; [apply keep_columns_gives|].
  fold (line_columns matcher line). gives_step. cbn. destruct (line_columns matcher line); apply gives_ret.
Qed.

Lemma content_search_file_gives matcher ranking entry bytes :
  world.(World.read_bytes) entry.(CatalogEntry.abs_path) = inl bytes ->
  exists r, gives (content_search_file never world snapshot request matcher ranking entry) r /\
    r.(ContentSearchResult.matches) = file_hits matcher entry.
Proof.
  intros E. unfold content_search_file, file_hits. rewrite E. destruct (is_binary bytes) eqn:B.
  - eexists. split; [do 3 gives_step; rewrite B; apply gives_ret|done].
  - edestruct matches_from_gives as [count M]. eexists. split.
    + do 3 gives_step. rewrite B. eapply gives_bind; [exact M|]. gives_step. apply gives_ret.
    + done.
Qed.

Lemma collect_files_gives matcher ranking entries :
  (forall entry, entry ∈ entries -> exists bytes,
     world.(World.read_bytes) entry.(CatalogEntry.abs_path) = inl bytes) ->
  exists rs, gives (collect_results (content_search_file never world snapshot request matcher ranking) entries) rs /\
    flat_map ContentSearchResult.matches rs = flat_map (file_hits matcher) entries.
Proof.
  intros R.
  set (g entry := match (content_search_file never world snapshot request matcher ranking entry 0).1 with
                  | inl r => r | inr _ => ContentSearchResult.Mk [] None None 0 end).
  assert (forall entry, entry ∈ entries ->
    gives (content_search_file never world snapshot request matcher ranking entry) (g entry) /\
    (g entry).(ContentSearchResult.matches) = file_hits matcher entry) as G.
  { intros entry I. destruct (R _ I) as [bytes E].
    destruct (content_search_file_gives matcher ranking entry bytes E) as (r & H & M).
    unfold g. by rewrite (H 0). }
  exists (map g entries). split; [apply gives_collect; intros; by apply G|].
  rewrite flat_map_concat_map, map_map, <- flat_map_concat_map, !flat_map_concat_map. f_equal.
  apply map_ext_in. intros entry I%list_elem_of_In. by apply G.
Qed.
End whole.

Lemma collect_paths_gives world snapshot filter query max_results :
  exists paths total, gives (collect_path_matches never world snapshot filter query max_results) (paths, total) /\
    length paths <= total.
Proof.
  eexists _, _. split.
  - unfold collect_path_matches. eapply gives_bind; [|apply gives_ret].
    apply (gives_collect _ (fun entry =>
      if negb (accepts world.(World.glob_match) filter entry.(CatalogEntry.rel_path)) then None
      else PathSearchMatch.Mk entry.(CatalogEntry.root_id) entry.(CatalogEntry.rel_path)
             (display_path snapshot entry.(CatalogEntry.root_id) entry.(CatalogEntry.rel_path)) <$>
           path_score world entry.(CatalogEntry.rel_path) query)).
    intros entry _. unfold path_search_hit. gives_step. destruct (negb _); apply gives_ret.
  - rewrite length_take, <- sort_by_perm. lia.
Qed.

Lemma length_paths_of matches :
  length (paths_of matches) = size (list_to_set (map hit_path matches) : gset string).
Proof.
  rewrite <- (size_list_to_set (C := gset string) (paths_of matches)) by apply first_seen_NoDup. f_equal.
  apply set_eq. intros x. rewrite !elem_of_list_to_set. unfold paths_of. rewrite elem_of_first_seen. set_solver.
Qed.

(** Scoring and sorting keep the hits, up to their scores. *)
Lemma shaped_perm world matches stats query :
  map (fun m => with_score m 0)
    (sort_by content_match_leb (apply_content_relevance_scores world matches stats query)) ≡ₚ
  map (fun m => with_score m 0) matches.
Proof.
  rewrite <- sort_by_perm. unfold apply_content_relevance_scores. rewrite map_map. done.
Qed.

Lemma hits_unscored world snapshot request matcher entries :
  map (fun m => with_score m 0) (flat_map (file_hits world snapshot request matcher) entries) =
  flat_map (file_hits world snapshot request matcher) entries.
Proof.
  induction entries as [|entry entries IH]; [done|]. cbn. rewrite map_app, IH. f_equal.
  unfold file_hits. destruct (World.read_bytes _ _); [|done]. destruct (is_binary _); [done|].
  unfold hits_of_lines. set (lines := imap _ _). clearbody lines.
  induction lines as [|[idx line] lines IHl]; [done|]. cbn.
  destruct (line_columns _ _ _); cbn; [done|]. by rewrite IHl.
Qed.

(** ** What a file's hits are *)

(** A letter, a digit or an underscore, of ASCII. *)
Definition word (c : ascii) : Prop :=
  let n := nat_of_ascii c in 48 <= n <= 57 \/ 65 <= n <= 90 \/ 97 <= n <= 122 \/ n = 95.

(** No such character touches the span. *)
Definition stands_alone (line : string) (span : nat * nat) : Prop :=
  (forall n c, span.1 = S n -> String.get n line = Some c -> ~ word c) /\
  (forall c, String.get span.2 line = Some c -> ~ word c).

Definition wanted (whole_word : bool) (line : string) (span : nat * nat) : Prop :=
  whole_word = true -> stands_alone line span.

(** The matcher of a request: the regular expression its pattern is, or the literal's, in either case
    sensitive to case when the pattern has a capital. *)
Definition searcher (world : World.t) (request : SearchRequest.t) : Regex + NerveError.t :=
  let pattern := request.(SearchRequest.pattern) in
  let ignore_case := forallb (fun ch => negb (world.(World.unicode).(Unicode.is_uppercase) ch)) (chars pattern) in
  if request.(SearchRequest.regex) then world.(World.regex_build) pattern ignore_case
  else inl (world.(World.literal_find_iter) pattern ignore_case).

(** [h] is the hit of a line of a file: at the first span, of those the matcher gives, that is wanted; lines and
    columns count from one. *)
Definition line_hit (snapshot : CatalogSnapshot.t) (request : SearchRequest.t) (matcher : Regex)
    (entry : CatalogEntry.t) (lines : list string) (h : ContentSearchMatch.t) : Prop :=
  exists i line before span after,
    lines !! i = Some line /\ matcher line = before ++ span :: after /\
    wanted request.(SearchRequest.whole_word) line span /\
    (forall other, other ∈ before -> ~ wanted request.(SearchRequest.whole_word) line other) /\
    h = ContentSearchMatch.Mk entry.(CatalogEntry.root_id) entry.(CatalogEntry.rel_path)
          (display_path snapshot entry.(CatalogEntry.root_id) entry.(CatalogEntry.rel_path)) 0
          (S i) (S span.1) (take_chars 240 line)
          (line_context lines i (context_before request) (context_after request)).

(** The hits of a file, one for each line that has one, in their order; a file with a zero among its first 8192
    bytes has none. *)
Definition file_found (world : World.t) (snapshot : CatalogSnapshot.t) (request : SearchRequest.t)
    (matcher : Regex) (entry : CatalogEntry.t) (found : list ContentSearchMatch.t) : Prop :=
  exists bytes, world.(World.read_bytes) entry.(CatalogEntry.abs_path) = inl bytes /\
    ((exists n, n < 8192 /\ String.get n bytes = Some "000"%char) /\ found = [] \/
     (forall n, n < 8192 -> String.get n bytes <> Some "000"%char) /\
     (forall h, h ∈ found <->
        line_hit snapshot request matcher entry (str_lines (world.(World.lossy) bytes)) h) /\
     StronglySorted lt (map ContentSearchMatch.line found)).

(** The pattern is in the line from a byte on, up to the case of ASCII letters if that is ignored. *)
Definition text_at (pattern : string) (ignore_case : bool) (line : string) (s : nat) : Prop :=
  exists a b c, line = a +:+ b +:+ c /\ String.length a = s /\
    (if ignore_case then lower b = lower pattern else b = pattern).

(** What [AhoCorasick::find_iter] documents of a single pattern: every span it gives is an occurrence, and the
    first one is the leftmost. *)
Definition finds_literal (find_iter : Regex) (pattern : string) (ignore_case : bool) : Prop :=
  forall line,
    (forall span, span ∈ find_iter line ->
       text_at pattern ignore_case line span.1 /\ span.2 = span.1 + String.length pattern) /\
    (forall s, text_at pattern ignore_case line s ->
       exists span after, find_iter line = span :: after /\ span.1 <= s).

Lemma is_word_byte_word c : is_word_byte c = true <-> word c.
Proof.
  unfold is_word_byte, is_ascii_alphanumeric, is_ascii_alphabetic, is_ascii_uppercase, is_ascii_lowercase,
    is_ascii_digit, in_range, word.
  assert (Ascii.eqb c "_" = true <-> nat_of_ascii c = 95) as U.
  { rewrite Ascii.eqb_eq. split; [by intros ->|]. intros E. rewrite <- (ascii_nat_embedding c), E. done. }
  rewrite !orb_true_iff, !andb_true_iff, !Nat.leb_le, U. cbn zeta. tauto.
Qed.

Lemma stands_alone_iff line s e : is_whole_word_match line s e = true <-> stands_alone line (s, e).
Proof.
  assert (forall n, byte_is_word line n = true <-> exists c, String.get n line = Some c /\ word c) as B.
  { intros n. unfold byte_is_word. destruct (String.get n line) as [c|]; [|naive_solver].
    rewrite is_word_byte_word. naive_solver. }
  unfold is_whole_word_match, stands_alone. rewrite andb_true_iff, !negb_true_iff, <- !not_true_iff_false, B. cbn [fst snd].
  destruct s as [|n]; [|rewrite B]; naive_solver.
Qed.

Lemma wanted_iff whole_word line s e :
  negb whole_word || is_whole_word_match line s e = true <-> wanted whole_word line (s, e).
Proof. unfold wanted. rewrite orb_true_iff, stands_alone_iff. destruct whole_word; naive_solver. Qed.

Lemma filter_first {A} (f : A -> bool) l x rest :
  List.filter f l = x :: rest -> exists before after,
    l = before ++ x :: after /\ f x = true /\ forall y, y ∈ before -> f y = false.
Proof.
  induction l as [|y l IH]; [done|]. cbn. destruct (f y) eqn:F.
  - intros [= -> _]. exists [], l. split_and!; [done|done|by intros ? ?%elem_of_nil].
  - intros (before & after & -> & Fx & N)%IH. exists (y :: before), after. split_and!; [done|done|].
    intros z [->|I]%elem_of_cons; [done|by apply N].
Qed.

Lemma filter_decomposed {A} (f : A -> bool) before x after :
  f x = true -> (forall y, y ∈ before -> f y = false) ->
  List.filter f (before ++ x :: after) = x :: List.filter f after.
Proof.
  intros F N. rewrite List.filter_app. cbn. rewrite F. assert (List.filter f before = []) as ->; [|done].
  induction before as [|y before IH]; [done|]. cbn. rewrite N by by left. apply IH. intros z I. apply N. by right.
Qed.

Lemma line_columns_first request matcher line col :
  (exists rest, line_columns request matcher line = col :: rest) <->
  exists before span after, matcher line = before ++ span :: after /\
    wanted request.(SearchRequest.whole_word) line span /\
    (forall other, other ∈ before -> ~ wanted request.(SearchRequest.whole_word) line other) /\ col = span.1.
Proof.
  unfold line_columns. set (f := fun '(start, end_) => _ || _).
  assert (forall span, f span = true <-> wanted request.(SearchRequest.whole_word) line span) as W
    by (intros [s e]; apply wanted_iff).
  split.
  - intros [rest E]. destruct (List.filter f (matcher line)) as [|span kept] eqn:K; [done|].
    injection E as <- _. apply filter_first in K as (before & after & E & F & N). exists before, span, after.
    split_and!; [done|by apply W| |done]. intros other I K. apply W in K. by rewrite (N _ I) in K.
  - intros (before & span & after & -> & F & N & ->). rewrite filter_decomposed; [by eexists|by apply W|].
    intros y I. apply not_true_iff_false. rewrite W. by apply N.
Qed.

Lemma hits_of_lines_iff snapshot request matcher entry text h :
  h ∈ hits_of_lines snapshot request matcher entry text <->
  line_hit snapshot request matcher entry (str_lines text) h.
Proof.
  unfold hits_of_lines, line_hit. rewrite list_elem_of_omap. split.
  - intros ([i line] & (k & E)%list_elem_of_lookup & H). rewrite list_lookup_imap in E.
    apply fmap_Some in E as (l' & L & [= <- <-]). destruct (line_columns request matcher line) as [|col rest] eqn:C; [done|].
    injection H as <-. destruct (proj1 (line_columns_first request matcher line col)) as (before & span & after & M & W & N & ->);
      [by eexists|]. exists i, line, before, span, after. split_and!; try done. unfold content_match. by rewrite !Nat.add_1_r.
  - intros (i & line & before & span & after & L & M & W & N & ->). exists (i, line). split.
    { apply list_elem_of_lookup. exists i. by rewrite list_lookup_imap, L. }
    destruct (proj2 (line_columns_first request matcher line span.1)) as [rest ->]; [eauto 10|].
    unfold content_match. by rewrite !Nat.add_1_r.
Qed.

Lemma hits_of_lines_sorted snapshot request matcher entry text :
  StronglySorted lt (map ContentSearchMatch.line (hits_of_lines snapshot request matcher entry text)).
Proof.
  unfold hits_of_lines. set (f := fun '(idx, line) => match line_columns request matcher line with _ => _ end).
  assert (forall lines k, let found := omap f (imap (fun i => pair (k + i)) lines) in
    StronglySorted lt (map ContentSearchMatch.line found) /\
    Forall (fun h => k < h.(ContentSearchMatch.line)) found) as G; [|by apply (G (str_lines text) 0)].
  intros lines. induction lines as [|line lines IH]; intros k found; [by repeat constructor|].
  subst found. cbn [imap]. replace (imap _ lines) with (imap (fun i => pair (S k + i)) lines)
    by (apply imap_ext; intros; cbn; f_equal; lia).
  destruct (IH (S k)) as [S1 F1]. rewrite Nat.add_0_r.
  assert (Forall (fun h => k < h.(ContentSearchMatch.line)) (omap f (imap (fun i => pair (S k + i)) lines))) as F2.
  { eapply Forall_impl; [exact F1|]. cbn. intros; lia. }
  cbn [omap list_omap]. destruct (f (k, line)) as [h|] eqn:Ef; [|by split].
  assert (h.(ContentSearchMatch.line) = k + 1) as L by (unfold f in Ef; case_match; by simplify_eq).
  cbn [map]. split; constructor; try done; [|lia].
  apply Forall_map. eapply Forall_impl; [exact F1|]. cbn. intros; lia.
Qed.

Lemma get_substring n m s : n < m -> String.get n (String.substring 0 m s) = String.get n s.
Proof.
  revert m s. induction n as [|n IH]; intros [|m] [|c s] L; cbn; try done; try lia; [].
  apply IH. lia.
Qed.

Lemma get_substring_none n m s : m <= n -> String.get n (String.substring 0 m s) = None.
Proof.
  revert n s. induction m as [|m IH]; intros n [|c s] L; cbn; try done. destruct n; [lia|]. apply IH. lia.
Qed.

Lemma all_bytes_get p s : all_bytes p s = true <-> forall n c, String.get n s = Some c -> p c = true.
Proof.
  induction s as [|c s IH]; cbn [all_bytes]; [by split|]. rewrite andb_true_iff, IH. split.
  - intros [P Q] [|n] d; cbn; [by intros [= <-]|apply Q].
  - intros A. split; [by apply (A 0)|]. intros n. apply (A (S n)).
Qed.

Lemma is_binary_iff bytes :
  is_binary bytes = true <-> exists n, n < 8192 /\ String.get n bytes = Some "000"%char.
Proof.
  unfold is_binary. replace BINARY_SNIFF_BYTES with 8192 by by vm_compute.
  generalize 8192. intros m. rewrite negb_true_iff, <- not_true_iff_false, all_bytes_get. split.
  - intros N. destruct (decide (Exists (fun n => String.get n bytes = Some "000"%char) (seq 0 m))) as [E|E].
    { apply Exists_exists in E as (n & I & E). exists n. split; [apply elem_of_seq in I; lia|done]. }
    destruct N. intros n c G. destruct (decide (n < m)) as [L|L].
    + rewrite get_substring in G by done. destruct (Ascii.eqb_spec c "000") as [->|]; [|done].
      destruct E. apply Exists_exists. exists n. split; [apply elem_of_seq; lia|done].
    + by rewrite get_substring_none in G by lia.
  - intros (n & L & E) A. specialize (A n "000"%char). rewrite get_substring in A by done. by specialize (A E).
Qed.

Lemma file_hits_found world snapshot request matcher entry :
  (exists bytes, world.(World.read_bytes) entry.(CatalogEntry.abs_path) = inl bytes) ->
  file_found world snapshot request matcher entry (file_hits world snapshot request matcher entry).
Proof.
  intros [bytes E]. exists bytes. split; [done|]. unfold file_hits. rewrite E.
  destruct (is_binary bytes) eqn:B; [left; split; [by apply is_binary_iff|done]|right]. split_and!.
  - intros n L G. apply not_true_iff_false in B. apply B, is_binary_iff. by exists n.
  - intros h. apply hits_of_lines_iff.
  - apply hits_of_lines_sorted.
Qed.

Lemma searcher_built world request matcher :
  searches_content request = true -> searcher world request = inl matcher ->
  let case_sensitive := is_smart_case_sensitive world.(World.unicode) request.(SearchRequest.pattern) in
  exists regex, build_search_regex world request case_sensitive = inl regex /\
    line_matcher regex (build_literal_matcher world request case_sensitive) = matcher.
Proof.
  intros C E case_sensitive.
  assert (negb case_sensitive = forallb (fun ch => negb (world.(World.unicode).(Unicode.is_uppercase) ch))
            (chars request.(SearchRequest.pattern))) as I.
  { unfold case_sensitive, is_smart_case_sensitive, has_uppercase. induction (chars _) as [|ch l IH]; [done|]. cbn.
    by rewrite negb_orb, IH. }
  unfold build_search_regex, build_literal_matcher, line_matcher, searcher in *. rewrite I.
  destruct (SearchRequest.regex request); cbn [orb].
  - rewrite E. by eexists.
  - exists None. split; [done|]. injection E as <-.
    assert (String.eqb (SearchRequest.pattern request) EmptyString = false) as ->; [|done].
    unfold searches_content, nonempty in C. by destruct (SearchRequest.mode request), (SearchRequest.pattern request).
Qed.

(** A literal that need not be a whole word is hit where it first occurs. *)
Lemma literal_first find_iter pattern ignore_case line start :
  finds_literal find_iter pattern ignore_case ->
  (exists span after, find_iter line = span :: after /\ start = span.1) <->
  text_at pattern ignore_case line start /\ forall s, text_at pattern ignore_case line s -> start <= s.
Proof.
  intros F. destruct (F line) as [Sound Complete]. split.
  - intros (span & after & E & ->). split; [apply Sound; rewrite E; by left|].
    intros s T. destruct (Complete s T) as (span' & after' & E' & L). rewrite E in E'. by injection E' as <- _.
  - intros [T M]. destruct (Complete start T) as (span & after & E & L). exists span, after. split; [done|].
    enough (start <= span.1) by lia. apply M, Sound. rewrite E. by left.
Qed.

(** C29: a search that asks for content, with a regular expression and globs that are valid, that is not
    interrupted and can read its files, reads the first ones the filter accepts, as many as its limits allow, and
    finds the lines of them that match, each file's in their order; a file with a zero byte near its start has
    none. A line matches when the matcher, of the regular expression or of the literal text, gives a span on it,
    and, when whole words are asked for, one that no letter, digit or underscore touches; the hit is at the first
    such span (spans do not overlap, so a whole word that overlaps an earlier occurrence is not seen). If the
    literal matcher gives occurrences, the leftmost first, and whole words are not asked for, the lines that
    match are those that contain the text, and the hit is where it first occurs. The search returns each hit at
    most once and no more than it is asked for, leaves no file with a hit out while there is room, and counts
    the hits it leaves out. *)
Theorem search_content_spec world snapshot request matcher filter
  (max_results := request.(SearchRequest.max_results) `max` 1)
  (R : forall entry, entry ∈ snapshot.(CatalogSnapshot.entries) ->
         exists bytes, world.(World.read_bytes) entry.(CatalogEntry.abs_path) = inl bytes)
  (X : searcher world request = inl matcher)
  (F : entry_filter world request = inl filter)
  (C : searches_content request = true)
  (O : request.(SearchRequest.output_mode) = OutputMode.Content) :
  exists r taken rest per_file, gives (search_snapshot never world snapshot request) r /\
    accepted world filter snapshot.(CatalogSnapshot.entries) = taken ++ rest /\
    within_limits request taken /\
    (forall entry rest', rest = entry :: rest' -> ~ within_limits request (taken ++ [entry])) /\
    Forall2 (file_found world snapshot request matcher) taken per_file /\
    (forall pattern ignore_case, finds_literal matcher pattern ignore_case ->
       forall line start, (exists span after, matcher line = span :: after /\ start = span.1) <->
         text_at pattern ignore_case line start /\ forall s, text_at pattern ignore_case line s -> start <= s) /\
    let hits := concat per_file in
    r.(SearchResponse.totals).(SearchTotals.content_matches) = length hits /\
    length r.(SearchResponse.content_matches) <= max_results /\
    map (fun m => with_score m 0) r.(SearchResponse.content_matches) ⊆+ hits /\
    (size (list_to_set (map hit_path hits) : gset string) <= max_results -> forall h, h ∈ hits ->
       exists m, m ∈ r.(SearchResponse.content_matches) /\ hit_path m = hit_path h) /\
    r.(SearchResponse.totals).(SearchTotals.omitted) +
      (length r.(SearchResponse.path_matches) + length r.(SearchResponse.content_matches)) =
    r.(SearchResponse.totals).(SearchTotals.path_matches) +
      r.(SearchResponse.totals).(SearchTotals.content_matches).
Proof.
  destruct (searcher_built world request matcher C X) as (regex & XB & XM).
  set (case_sensitive := is_smart_case_sensitive _ _) in *.
  destruct (plan_content_entries_spec world snapshot request filter) as (taken & rest & E & P & W & M).
  assert (forall entry, entry ∈ taken -> exists bytes, world.(World.read_bytes) entry.(CatalogEntry.abs_path) = inl bytes) as RT.
  { intros entry I. apply R. assert (entry ∈ accepted world filter snapshot.(CatalogSnapshot.entries)) as J
      by (rewrite E; set_solver). apply list_elem_of_In, filter_In in J as [J _]. by apply list_elem_of_In. }
  set (ranking := ranking_query world.(World.unicode) request.(SearchRequest.pattern) case_sensitive
    request.(SearchRequest.regex) request.(SearchRequest.whole_word)).
  destruct (collect_files_gives world snapshot request matcher ranking taken RT) as (rs & G & H).
  destruct (collect_paths_gives world snapshot filter (PathQuery.Mk request.(SearchRequest.pattern) regex
    case_sensitive request.(SearchRequest.whole_word) (negb request.(SearchRequest.regex))) max_results)
    as (paths & path_total & GP & LP).
  set (per_file := map (file_hits world snapshot request matcher) taken). set (hits := concat per_file).
  assert (flat_map (file_hits world snapshot request matcher) taken = hits) as HE by apply flat_map_concat_map.
  rewrite HE in H. eexists _, taken, rest, per_file. split.
  { unfold search_snapshot. gives_step. fold case_sensitive. rewrite XB. gives_step. rewrite F. gives_step.
    eapply gives_bind; [exact GP|]. cbn beta iota. eapply gives_bind; [|apply gives_ret].
    unfold collect_content_matches. rewrite C. cbn [negb]. eapply gives_bind; [exact P|]. cbn beta iota.
    rewrite XM. eapply gives_bind; [exact G|]. eapply gives_bind; [|apply gives_ret].
    unfold shape_content_output. rewrite O. gives_step. apply gives_ret. }
  split; [exact E|]. split; [exact W|]. split; [exact M|]. split.
  { apply Forall2_fmap_r, Forall_Forall2_diag, Forall_forall. intros entry I. by apply file_hits_found, RT. }
  split; [intros; by apply literal_first|].
  cbn. fold hits.
  change (SearchRequest.max_results request `max` 1) with max_results. set (sorted := sort_by _ _).
  assert (map (fun m => with_score m 0) sorted ≡ₚ hits) as PS.
  { unfold sorted. rewrite shaped_perm, H, <- HE. by rewrite hits_unscored. }
  pose proof (diversify_submseteq sorted max_results) as S.
  assert (length (diversify_content_matches sorted max_results) <= length hits) as L.
  { apply submseteq_length in S. by rewrite <- PS, length_map. }
  rewrite H. clearbody max_results. split_and!; [done| |rewrite <- PS; by apply (fmap_submseteq (fun m => with_score m 0))| |lia].
  - rewrite diversify_spec, length_take. lia.
  - intros Z h I. rewrite <- PS in I. apply list_elem_of_fmap in I as (m & -> & I).
    destruct (diversify_represents sorted max_results m) as (m' & J & K); [|done|by exists m'].
    rewrite length_paths_of. assert (map hit_path sorted ≡ₚ map hit_path hits) as Q.
    { rewrite <- PS, map_map. done. }
    by rewrite (list_to_set_perm_L _ _ Q).
Qed.

(** * Runs *)

Module SearchDemo.
(** Occurrences that do not overlap, as the literal matcher finds them. *)
Fixpoint spans (fuel offset : nat) (pattern : string) (ignore_case : bool) (line : string)
    : list (nat * nat) :=
  match fuel with
  | 0 => []
  | S fuel =>
      match find_by (same_byte (negb ignore_case)) pattern (drop_bytes offset line) with
      | None => []
      | Some k =>
          let start := offset + k in
          let end_ := start + String.length pattern in
          (start, end_) :: spans fuel end_ pattern ignore_case line
      end
  end.

Definition byte_test (p : ascii -> bool) (ch : string) : bool :=
  match ch with String c EmptyString => p c | _ => false end.

Definition texts : list (string * string) :=
  [("/r/a.rs", "let cat = 1;" +:+ lf +:+ "concat(cat)" +:+ lf +:+ "end"); ("/r/b.rs", "xa-a-a");
   ("/s/a.rs", "one cat" +:+ lf)].

Definition world : World.t :=
  World.Mk (Unicode.Mk (byte_test is_ascii_uppercase) (byte_test is_ascii_alphanumeric) lower)
    id (fun _ => true) (fun pattern path => String.eqb pattern path)
    (fun _ _ => inr (NerveError.InvalidRegex EmptyString))
    (fun pattern ignore_case line => spans (String.length line) 0 pattern ignore_case line)
    (fun _ _ _ => None) (fun _ _ _ => None) id
    (fun path => match List.find (fun t => String.eqb t.1 path) texts with
                 | Some (_, text) => inl text
                 | None => inr (NerveError.Io [path])
                 end).

Definition roots : list RootRef.t := [RootRef.Mk "r" "/r"; RootRef.Mk "s" "/s"].
Definition first_root : list CatalogEntry.t :=
  [CatalogEntry.Mk "r" "a.rs" "/r/a.rs" 29; CatalogEntry.Mk "r" "b.rs" "/r/b.rs" 6].
Definition snapshot : CatalogSnapshot.t := CatalogSnapshot.Mk 1 roots first_root.
Definition two_roots : CatalogSnapshot.t :=
  CatalogSnapshot.Mk 1 roots (first_root ++ [CatalogEntry.Mk "s" "a.rs" "/s/a.rs" 8]).

Definition request (pattern : string) (mode : SearchMode.t) (whole_word : bool) (output : OutputMode.t)
    : SearchRequest.t :=
  SearchRequest.Mk pattern mode false 50 0 None None 2048 (wrap 64 67108864) whole_word [] [] [] output.

Definition answer (snapshot : CatalogSnapshot.t) (request : SearchRequest.t) : option SearchResponse.t :=
  match (search_snapshot never world snapshot request 0).1 with inl r => Some r | inr _ => None end.

Lemma readable entry : entry ∈ snapshot.(CatalogSnapshot.entries) ->
  exists bytes, world.(World.read_bytes) entry.(CatalogEntry.abs_path) = inl bytes.
Proof. intros I%list_elem_of_In. cbn in I. destruct I as [<-|[<-|[]]]; by eexists. Qed.
End SearchDemo.

(** The matcher of these runs does what the package documents. *)
Section demo_matcher.
Context (pattern : string) (ignore_case : bool).
Notation same := (same_byte (negb ignore_case)).

Lemma prefix_by_text p s : prefix_by same p s = true <->
  exists b c, s = b +:+ c /\ (if ignore_case then lower b = lower p else b = p).
Proof.
  revert s. induction p as [|x p IH]; intros s.
  - split; [|done]. intros _. exists EmptyString, s. by destruct ignore_case.
  - destruct s as [|y s]; cbn [prefix_by].
    { split; [done|]. intros (b & c & E & T). destruct b; [|done]. by destruct ignore_case. }
    assert (same x y = true <-> if ignore_case then ascii_lower y = ascii_lower x else y = x) as S.
    { unfold same_byte. destruct ignore_case; cbn [negb]; rewrite Ascii.eqb_eq; by split. }
    rewrite andb_true_iff, S, IH. split.
    + intros [Exy (b & c & -> & T)]. exists (String y b), c. split; [done|].
      destruct ignore_case; [cbn|]; by rewrite Exy, T.
    + intros (b & c & E & T). destruct b as [|z b]; [by destruct ignore_case|]. injection E as -> ->.
      destruct ignore_case; [cbn in T|]; injection T as Ez Eb; (split; [done|eauto]).
Qed.

Lemma text_at_drop line s : pattern <> EmptyString ->
  text_at pattern ignore_case line s <-> prefix_by same pattern (drop_bytes s line) = true.
Proof.
  intros NE. rewrite prefix_by_text. split.
  - intros (a & b & c & -> & <- & T). exists b, c. split; [|done].
    induction a as [|x a IH]; [by destruct (b +:+ c)|exact IH].
  - intros (b & c & E & T). revert s E. induction line as [|x line IH]; intros s E.
    + rewrite drop_empty in E. destruct b; [|done]. destruct pattern; [done|]. by destruct ignore_case.
    + destruct s as [|s]; [by exists EmptyString, b, c|].
      destruct (IH s E) as (a & b' & c' & -> & <- & T'). by exists (String x a), b', c'.
Qed.

Lemma demo_finds_literal : pattern <> EmptyString ->
  finds_literal (fun line => SearchDemo.spans (String.length line) 0 pattern ignore_case line) pattern ignore_case.
Proof.
  intros NE line. split.
  - intros span I. rewrite text_at_drop by done. revert I. generalize (String.length line) as fuel, 0 as offset.
    intros fuel. induction fuel as [|fuel IH]; intros offset; cbn [SearchDemo.spans]; [by intros ?%elem_of_nil|].
    destruct (find_by _ _ _) as [k|] eqn:E; [|by intros ?%elem_of_nil].
    intros [->|I]%elem_of_cons; [|by eapply IH]. apply find_by_some in E as [P _].
    by rewrite drop_drop_bytes in P.
  - intros s T. rewrite text_at_drop in T by done. destruct line as [|x line].
    { rewrite drop_empty in T. by destruct pattern. }
    cbn [String.length SearchDemo.spans]. change (drop_bytes 0 ?l) with l.
    destruct (find_by _ _ _) as [k|] eqn:E.
    + eexists _, _. split; [reflexivity|]. cbn [fst]. apply find_by_some in E as [_ N].
      destruct (decide (s < k)) as [L|]; [|lia]. by rewrite N in T.
    + pose proof (find_by_none _ _ _ E s) as N. congruence.
Qed.
End demo_matcher.

Lemma search_content_spec_witness :
  let request := SearchDemo.request "cat" SearchMode.Both true OutputMode.Content in
  (fun r => map (fun m => (m.(ContentSearchMatch.line), m.(ContentSearchMatch.column)))
              r.(SearchResponse.content_matches)) <$> SearchDemo.answer SearchDemo.snapshot request =
    Some [(1, 5); (2, 8)] /\
  exists r, gives (search_snapshot never SearchDemo.world SearchDemo.snapshot request) r /\
    forall line start,
      (exists span after, SearchDemo.spans (String.length line) 0 "cat" true line = span :: after /\ start = span.1) <->
      text_at "cat" true line start /\ forall s, text_at "cat" true line s -> start <= s.
Proof.
  intros request. split; [by vm_compute|].
  destruct (search_content_spec SearchDemo.world SearchDemo.snapshot request _
    (EntryFilter.Mk [] [] []) SearchDemo.readable eq_refl eq_refl eq_refl eq_refl)
    as (r & _ & _ & _ & G & _ & _ & _ & _ & L & _).
  exists r. split; [exact G|]. exact (L "cat" true (demo_finds_literal "cat" true ltac:(done))).
Defined.

(** A whole word that overlaps an occurrence that is not one is not found in a file, though it is the
    first literal match of the text: the matcher's spans do not overlap. *)
Lemma whole_word_overlap_missed :
  let request := SearchDemo.request "a-a" SearchMode.Both true OutputMode.Content in
  SearchResponse.content_matches <$> SearchDemo.answer SearchDemo.snapshot request = Some [] /\
  first_literal_match "xa-a-a" "a-a" false true = Some (3, 6).
Proof. by vm_compute. Qed.

(** A search in the mode for contents alone returns the paths that match too. *)
Lemma content_mode_returns_paths :
  let request := SearchDemo.request "b.rs" SearchMode.Content false OutputMode.Content in
  (fun r => map PathSearchMatch.path r.(SearchResponse.path_matches)) <$>
    SearchDemo.answer SearchDemo.snapshot request = Some ["b.rs"].
Proof. by vm_compute. Qed.

(** When only the matching files are asked for, all of them are returned and the lines that matched
    are counted as omitted, and the budget as exhausted. *)
Lemma files_mode_counts_omitted :
  let request := SearchDemo.request "cat" SearchMode.Both false OutputMode.FilesWithMatches in
  (fun r => (map FileMatchCount.path r.(SearchResponse.match_files),
             r.(SearchResponse.totals).(SearchTotals.omitted),
             r.(SearchResponse.totals).(SearchTotals.budget).(SearchBudget.exhausted))) <$>
    SearchDemo.answer SearchDemo.snapshot request = Some (["a.rs"], 2, true).
Proof. by vm_compute. Qed.

(** Files of two roots with one relative path are counted as one. *)
Lemma count_mode_merges_roots :
  let request := SearchDemo.request "cat" SearchMode.Both false OutputMode.Count in
  (fun r => map (fun m => (m.(FileMatchCount.root_id), m.(FileMatchCount.path), m.(FileMatchCount.count)))
              r.(SearchResponse.match_files)) <$>
    SearchDemo.answer SearchDemo.two_roots request = Some [("r", "a.rs", 3)].
Proof. by vm_compute. Qed.
