(* ===== verification/SourceCode.v ===== *)
(** The language of a source, the code fenced in Markdown, and the reading of a range of lines that may
    be widened to a block of syntax ([nerve-core/src/codemap/language.rs], [codemap/markdown.rs],
    [codemap/mod.rs], [read.rs] and the types of [models.rs]). The parsers of the languages are a
    parameter.

    Proved below. What [SourceCode] promises: where the fences of a Markdown file are, and what a read of a range of
    lines returns. *)
From stdpp Require Import gmap strings.
From S2P Require Import Prelude Text EditText Paths Disk CodeGraph Navigate Selection NavigateSpec.
Open Scope nerve_scope.

(** * [language.rs] *)

Module Language.
Inductive t :=
  | Rust | Python | JavaScript | TypeScript | Tsx | Go | Java | C | Cpp | CSharp | Ruby | Php.

#[global] Instance eq_dec : EqDecision t.
Proof. solve_decision. Defined.

Definition all : list t :=
  [Rust; Python; JavaScript; TypeScript; Tsx; Go; Java; C; Cpp; CSharp; Ruby; Php].

(** The language a word stands for, by a list of the words of each. *)
Definition by_word (words : t -> list string) (word : string) : option t :=
  List.find (fun language => existsb (String.eqb word) (words language)) all.

Definition extensions (language : t) : list string :=
  match language with
  | Rust => ["rs"]
  | Python => ["py"; "pyi"]
  | JavaScript => ["js"; "jsx"; "mjs"; "cjs"]
  | TypeScript => ["ts"; "mts"; "cts"]
  | Tsx => ["tsx"]
  | Go => ["go"]
  | Java => ["java"]
  | C => ["c"; "h"]
  | Cpp => ["cc"; "cpp"; "cxx"; "hpp"; "hh"; "hxx"]
  | CSharp => ["cs"]
  | Ruby => ["rb"]
  | Php => ["php"; "phtml"]
  end.

(** The text after the last period, or all of it. *)
Definition last_piece (c : ascii) (s : string) : string := default s (last (split_on c s)).

Definition from_path (path : string) : option t := by_word extensions (last_piece "." (lower path)).

Definition commands (language : t) : list string :=
  match language with
  | Python => ["python"; "pypy"]
  | JavaScript => ["node"; "nodejs"; "bun"]
  | TypeScript => ["deno"; "ts-node"; "tsx"]
  | Ruby => ["ruby"; "jruby"]
  | Php => ["php"]
  | _ => []
  end.

Definition from_command (command : string) : option t :=
  by_word commands
    (lower (trim_end_chars (fun c => is_ascii_digit c || Ascii.eqb c ".") command)).

Definition is_quote (c : ascii) : bool := Ascii.eqb c "'" || Ascii.eqb c "034".

Definition command_basename (token : string) : option string :=
  let command := trim_end_chars is_quote (trim_start_chars is_quote (last_piece "/" token)) in
  if String.eqb command EmptyString then None else Some command.

(** The interpreter after [env]: past quotes, options and assignments. *)
Fixpoint env_resolved_language (tokens : list string) : option t :=
  match tokens with
  | [] => None
  | token :: tokens =>
      match command_basename token with
      | None => env_resolved_language tokens
      | Some command =>
          if starts_with "-" command || contains_str "=" command then env_resolved_language tokens
          else from_command command
      end
  end.

Definition from_shebang (source : string) : option t :=
  first ← head (str_lines source);
  shebang ← strip_prefix "#!" (trim_start_matches (String.length first) bom first);
  match split_whitespace shebang with
  | [] => None
  | token :: tokens =>
      command ← command_basename token;
      if String.eqb command "env" then env_resolved_language tokens else from_command command
  end.

Definition from_path_or_source (path source : string) : option t :=
  match from_path path with Some language => Some language | None => from_shebang source end.

Definition fence_tags (language : t) : list string :=
  match language with
  | Rust => ["rust"; "rs"]
  | Python => ["python"; "py"; "python3"]
  | JavaScript => ["javascript"; "js"; "jsx"; "node"]
  | TypeScript => ["typescript"; "ts"]
  | Tsx => ["tsx"]
  | Go => ["go"; "golang"]
  | Java => ["java"]
  | C => ["c"]
  | Cpp => ["cpp"; "c++"; "cc"; "cxx"]
  | CSharp => ["csharp"; "cs"; "c#"]
  | Ruby => ["ruby"; "rb"]
  | Php => ["php"]
  end.

(** The text before white space, a comma or a brace. *)
Fixpoint first_word (s : string) : string :=
  match s with
  | EmptyString => EmptyString
  | String c rest =>
      match strip_one_white s with
      | Some _ => EmptyString
      | None =>
          if Ascii.eqb c "," || Ascii.eqb c "{" then EmptyString else String c (first_word rest)
      end
  end.

Definition from_fence_info (info : string) : option t :=
  by_word fence_tags (lower (trim_start_chars (Ascii.eqb ".") (first_word info))).

Definition name (language : t) : string :=
  match language with
  | Rust => "rust"
  | Python => "python"
  | JavaScript => "javascript"
  | TypeScript => "typescript"
  | Tsx => "tsx"
  | Go => "go"
  | Java => "java"
  | C => "c"
  | Cpp => "cpp"
  | CSharp => "csharp"
  | Ruby => "ruby"
  | Php => "php"
  end.

Definition from_name (word : string) : option t := by_word (fun language => [name language]) word.
End Language.

(** * [markdown.rs] *)

(** The lines of the body are those from [body_start] on, before [body_end], counted from 0. *)
Module MarkdownFence.
Record t := Mk { language : Language.t; body_start : nat; body_end : nat; indent : nat }.
End MarkdownFence.

Module OpeningFence.
Record t := Mk { marker : ascii; min_len : nat; indent : nat; language : option Language.t }.
End OpeningFence.

Definition is_markdown_path (path : string) : bool :=
  existsb (String.eqb (Language.last_piece "." (lower path))) ["md"; "markdown"; "mdown"; "mkdn"; "mdx"].

(** How many times a byte starts a text. *)
Fixpoint leading (c : ascii) (s : string) : nat :=
  match s with
  | String d s => if Ascii.eqb d c then S (leading c s) else 0
  | EmptyString => 0
  end.

Definition commonmark_fence_candidate (line : string) : option (nat * string) :=
  let indent := leading " " line in
  if indent <=? 3 then Some (indent, drop_bytes indent line) else None.

Definition backtick : ascii := "`".

Definition opening_fence (line : string) : option OpeningFence.t :=
  '(indent, trimmed) ← commonmark_fence_candidate line;
  marker ← match trimmed with
           | String c _ => if Ascii.eqb c backtick || Ascii.eqb c "~" then Some c else None
           | EmptyString => None
           end;
  let count := leading marker trimmed in
  if count <? 3 then None
  else Some (OpeningFence.Mk marker count indent (Language.from_fence_info (trim (drop_bytes count trimmed)))).

Definition closing_fence (line : string) (marker : ascii) (min_len : nat) : bool :=
  match commonmark_fence_candidate line with
  | None => false
  | Some (_, trimmed) =>
      let count := leading marker trimmed in
      (min_len <=? count) && String.eqb (trim (drop_bytes count trimmed)) EmptyString
  end.

(** A fence whose language is known. *)
Definition emit_fence (opening : OpeningFence.t) (body_start body_end : nat) : list MarkdownFence.t :=
  match opening.(OpeningFence.language) with
  | Some language => [MarkdownFence.Mk language body_start body_end opening.(OpeningFence.indent)]
  | None => []
  end.

(** The two loops: outside a fence, and inside one that started at a line. *)
Fixpoint fences_from (inside : option (OpeningFence.t * nat)) (index : nat) (lines : list string)
    : list MarkdownFence.t :=
  match lines, inside with
  | [], None => []
  | [], Some (opening, body_start) => emit_fence opening body_start index
  | line :: lines, None =>
      match opening_fence line with
      | None => fences_from None (S index) lines
      | Some opening => fences_from (Some (opening, S index)) (S index) lines
      end
  | line :: lines, Some (opening, body_start) =>
      if closing_fence line opening.(OpeningFence.marker) opening.(OpeningFence.min_len)
      then emit_fence opening body_start index ++ fences_from None (S index) lines
      else fences_from inside (S index) lines
  end.

Definition supported_fences (lines : list string) : list MarkdownFence.t := fences_from None 0 lines.

Definition removable_fence_indent (line : string) (indent : nat) : nat := leading " " line `min` indent.

Definition strip_fence_indent (line : string) (indent : nat) : string :=
  drop_bytes (removable_fence_indent line indent) line.

Definition fence_body (lines : list string) (fence : MarkdownFence.t) : list string :=
  take (fence.(MarkdownFence.body_end) - fence.(MarkdownFence.body_start))
    (drop fence.(MarkdownFence.body_start) lines).

Definition fence_source (lines : list string) (fence : MarkdownFence.t) : string :=
  concat_str (map (fun line => strip_fence_indent line fence.(MarkdownFence.indent)) (fence_body lines fence)).

(** * [codemap/mod.rs] *)

Definition path_supports_codemap (path : string) : bool :=
  match Language.from_path path with Some _ => true | None => is_markdown_path path end.

Definition source_language_name (path source : string) : option string :=
  Language.name <$> Language.from_path_or_source path source.

Module EmbeddedSource.
Record t := Mk { language : string; start_line_offset : nat; source : string }.
End EmbeddedSource.

Definition embedded_sources (path source : string) : list EmbeddedSource.t :=
  if negb (is_markdown_path path) then []
  else
    let lines := CodeGraph.split_inclusive source in
    map (fun fence =>
        EmbeddedSource.Mk (Language.name fence.(MarkdownFence.language)) fence.(MarkdownFence.body_start)
          (fence_source lines fence))
      (supported_fences lines).

Definition range_is_inside_fence (first_line last_line : nat) (fence : MarkdownFence.t) : bool :=
  (fence.(MarkdownFence.body_start) + 1 <=? first_line) && (last_line <=? fence.(MarkdownFence.body_end)).

Definition host_span (offset : nat) (span : nat * nat) : nat * nat := (span.1 + offset, span.2 + offset).

Module ReadFileSnapMode.
Inductive t := None_ | Block.
End ReadFileSnapMode.

Module ReadFileRequest.
Record t := Mk {
  path : string;
  start_line : option nat;
  end_line : option nat;
  limit : option nat;
  snap : option ReadFileSnapMode.t }.
End ReadFileRequest.

Module ReadFileSnapMetadata.
Record t := Mk {
  applied : bool;
  reason : option string;
  requested_first_line : nat;
  requested_last_line : nat;
  returned_first_line : nat;
  returned_last_line : nat;
  boundary_lines : list nat }.
End ReadFileSnapMetadata.

Module ReadFileResponse.
Record t := Mk {
  path : string;
  display_path : string;
  first_line : nat;
  last_line : nat;
  total_lines : nat;
  content : string;
  snap : option ReadFileSnapMetadata.t }.
End ReadFileResponse.

Section blocks.
(** [tree_sitter]'s parser of a language: a tree, unless it gives up. *)
Context (parse : Language.t -> string -> option Syntax.node).

(** Blocks of a host file, by its path or its first line. *)
Definition host_provider : Provider.t :=
  Provider.Mk (fun _ _ => None)
    (fun path source => (fun language => parse language source) <$> Language.from_path_or_source path source).

(** Blocks of a text whose language is known. *)
Definition language_provider (language : Language.t) : Provider.t :=
  Provider.Mk (fun _ _ => None) (fun _ source => Some (parse language source)).

(** The first fence that holds the range decides. *)
Definition embedded_block_span (path source : string) (first_line last_line : nat)
    : option (nat * nat) + ContainingBlockError.t :=
  if negb (is_markdown_path path) then inl None
  else
    let lines := CodeGraph.split_inclusive source in
    match List.find (range_is_inside_fence first_line last_line) (supported_fences lines) with
    | None => inl None
    | Some fence =>
        let local_source := fence_source lines fence in
        let offset := fence.(MarkdownFence.body_start) in
        let provider := language_provider fence.(MarkdownFence.language) in
        let containing :=
          match containing_block_span provider path local_source (first_line - offset) (last_line - offset) with
          | inl span => inl (host_span offset <$> span)
          | inr e => inr e
          end in
        match block_span provider path local_source (first_line - offset) with
        | Some span => if span.1 <? span.2 then inl (Some (host_span offset span)) else containing
        | None => containing
        end
    end.

(** * [read.rs] *)

Definition boundary_lines (requested_first requested_last : nat) (returned : nat * nat) : list nat :=
  (if returned.1 <? requested_first then [returned.1] else []) ++
  (if (requested_last <? returned.2) && negb (returned.2 =? returned.1) then [returned.2] else []).

Definition applied_snap (requested_first requested_last : nat) (returned : nat * nat)
    : ReadFileSnapMetadata.t :=
  ReadFileSnapMetadata.Mk true None requested_first requested_last returned.1 returned.2
    (boundary_lines requested_first requested_last returned).

Definition unapplied_snap (requested_first requested_last : nat) (reason : string)
    : ReadFileSnapMetadata.t :=
  ReadFileSnapMetadata.Mk false (Some reason) requested_first requested_last requested_first
    requested_last [].

Definition containing_block_reason (error : ContainingBlockError.t) : string :=
  match error with
  | ContainingBlockError.UnsupportedLanguage => "unsupported_language"
  | ContainingBlockError.ParseError => "syntax_error"
  | ContainingBlockError.BlankLine => "blank_line"
  end.

Definition block_snap_metadata (display_path text : string) (total_lines start end_ : nat)
    : ReadFileSnapMetadata.t :=
  let applied span := applied_snap start end_ (clamp_span span total_lines) in
  let containing :=
    match containing_block_span host_provider display_path text start end_ with
    | inl (Some span) => applied span
    | inl None => unapplied_snap start end_ "no_containing_block"
    | inr error => unapplied_snap start end_ (containing_block_reason error)
    end in
  match embedded_block_span display_path text start end_ with
  | inl (Some span) => applied span
  | inr error => unapplied_snap start end_ (containing_block_reason error)
  | inl None =>
      match block_span host_provider display_path text start with
      | Some span => if span.1 <? span.2 then applied span else containing
      | None => containing
      end
  end.

Definition snap_metadata (mode : option ReadFileSnapMode.t) (display_path text : string)
    (total_lines start end_ : nat) : option ReadFileSnapMetadata.t :=
  match mode with
  | Some ReadFileSnapMode.Block => Some (block_snap_metadata display_path text total_lines start end_)
  | _ => None
  end.

Context (read_bytes : string -> string + NerveError.t) (lossy : string -> string).
Context (display_path : string -> string).

(** The range asked for, within the lines there are. *)
Definition requested_start (request : ReadFileRequest.t) (total_lines : nat) : nat :=
  (default 1 request.(ReadFileRequest.start_line) `max` 1) `min` (total_lines `max` 1).

Definition requested_end (request : ReadFileRequest.t) (total_lines start : nat) : nat :=
  let end_ :=
    if total_lines =? 0 then start
    else
      match request.(ReadFileRequest.limit) with
      | Some limit => start + (limit `max` 1) - 1
      | None => default total_lines request.(ReadFileRequest.end_line)
      end in
  (end_ `max` start) `min` (total_lines `max` start).

Definition read_file (request : ReadFileRequest.t) : ReadFileResponse.t + NerveError.t :=
  match read_bytes request.(ReadFileRequest.path) with
  | inr e => inr e
  | inl bytes =>
      let text := lossy bytes in
      let line_segments := CodeGraph.split_inclusive text in
      let total_lines := length line_segments in
      let start := requested_start request total_lines in
      let end_ := requested_end request total_lines start in
      let display := display_path request.(ReadFileRequest.path) in
      let snap := snap_metadata request.(ReadFileRequest.snap) display text total_lines start end_ in
      let '(first_line, last_line) :=
        match snap with
        | Some m => (m.(ReadFileSnapMetadata.returned_first_line), m.(ReadFileSnapMetadata.returned_last_line))
        | None => (start, end_)
        end in
      let content :=
        if total_lines =? 0 then EmptyString
        else concat_str (drop (first_line - 1) (take last_line line_segments)) in
      inl (ReadFileResponse.Mk request.(ReadFileRequest.path) display first_line last_line total_lines
             content snap)
  end.
End blocks.

(** [from_name] is the inverse of [name]. *)
Lemma from_name_name language : Language.from_name (Language.name language) = Some language.
Proof. by destruct language. Qed.

Lemma name_from_name word language : Language.from_name word = Some language -> Language.name language = word.
Proof.
  unfold Language.from_name, Language.by_word. intros F%find_some. destruct F as [_ F].
  cbn in F. rewrite orb_false_r in F. by apply String.eqb_eq in F.
Qed.

(** * Fences *)

Section fences.
Context (all : list string).

(** A line closes the fence. *)
Definition closes (opening : OpeningFence.t) (i : nat) : Prop :=
  exists line, all !! i = Some line /\
    closing_fence line opening.(OpeningFence.marker) opening.(OpeningFence.min_len) = true.

(** The line before the body opens the fence, and the first line that closes it, or the end, is the end
    of the body. *)
Definition fence_at (opening : OpeningFence.t) (body_start body_end : nat) : Prop :=
  0 < body_start <= body_end /\ body_end <= length all /\
  (exists line, all !! (body_start - 1) = Some line /\ opening_fence line = Some opening) /\
  (forall i, body_start <= i < body_end -> ~ closes opening i) /\
  (body_end = length all \/ closes opening body_end).

Definition is_fence (fence : MarkdownFence.t) : Prop :=
  exists opening, fence_at opening fence.(MarkdownFence.body_start) fence.(MarkdownFence.body_end) /\
    opening.(OpeningFence.language) = Some fence.(MarkdownFence.language) /\
    opening.(OpeningFence.indent) = fence.(MarkdownFence.indent).

Definition fence_before (a b : MarkdownFence.t) : Prop :=
  a.(MarkdownFence.body_end) < b.(MarkdownFence.body_start).

(** What is known inside a fence. *)
Definition inside_ok (inside : option (OpeningFence.t * nat)) (index : nat) : Prop :=
  match inside with
  | None => True
  | Some (opening, body_start) =>
      0 < body_start <= index /\
      (exists line, all !! (body_start - 1) = Some line /\ opening_fence line = Some opening) /\
      forall i, body_start <= i < index -> ~ closes opening i
  end.

Definition lowest (inside : option (OpeningFence.t * nat)) (index : nat) : nat :=
  match inside with None => index + 1 | Some (_, body_start) => body_start end.

Lemma emit_fence_spec opening body_start body_end : fence_at opening body_start body_end ->
  Forall is_fence (emit_fence opening body_start body_end).
Proof.
  unfold emit_fence. destruct opening.(OpeningFence.language) as [language|] eqn:E; [|constructor].
  intros F. constructor; [|constructor]. by exists opening.
Qed.

Lemma fences_from_spec lines inside index : drop index all = lines -> index <= length all ->
  inside_ok inside index ->
  Forall is_fence (fences_from inside index lines) /\
  StronglySorted fence_before (fences_from inside index lines) /\
  Forall (fun fence => lowest inside index <= fence.(MarkdownFence.body_start)) (fences_from inside index lines).
Proof.
  revert inside index. induction lines as [|line lines IH]; intros inside index D L I.
  - assert (index = length all) as -> by (apply (f_equal length) in D; rewrite length_drop in D; cbn in D; lia).
    destruct inside as [[opening body_start]|]; cbn; [|by repeat constructor].
    destruct I as (B & O & C). split; [apply emit_fence_spec; split_and!; try done; [lia..|by left]|].
    unfold emit_fence. destruct opening.(OpeningFence.language); repeat constructor.
  - assert (all !! index = Some line /\ drop (S index) all = lines) as [E D'].
    { split; [rewrite <- (Nat.add_0_r index), <- lookup_drop, D; done|].
      rewrite <- (Nat.add_1_r index), <- drop_drop, D. done. }
    apply lookup_lt_Some in E as L'.
    destruct inside as [[opening body_start]|]; cbn [fences_from].
    + destruct I as (B & O & C). destruct (closing_fence _ _ _) eqn:F.
      * destruct (IH None (S index) D' L' I) as (H1 & H2 & H3).
        assert (fence_at opening body_start index) as A
          by (split_and!; try done; [lia..|right; by exists line]).
        split; [apply Forall_app; split; [by apply emit_fence_spec|done]|]. unfold emit_fence.
        destruct opening.(OpeningFence.language); cbn [app lowest].
        -- split; constructor; try done; eapply Forall_impl; try exact H3; unfold fence_before; cbn; lia.
        -- split; [done|]. eapply Forall_impl; [exact H3|]. cbn. lia.
      * apply (IH (Some (opening, body_start)) (S index) D' L'). split; [lia|]. split; [done|]. intros i Hi.
        destruct (decide (i = index)) as [->|N]; [|apply C; lia]. intros (line' & E' & F'). congruence.
    + destruct (opening_fence line) as [opening|] eqn:F.
      * destruct (IH (Some (opening, S index)) (S index) D' L') as (H1 & H2 & H3).
        { split; [lia|]. split; [exists line; by rewrite Nat.sub_succ, Nat.sub_0_r|lia]. }
        split; [done|]. split; [done|]. eapply Forall_impl; [exact H3|]. cbn. lia.
      * destruct (IH None (S index) D' L' I) as (H1 & H2 & H3).
        split; [done|]. split; [done|]. eapply Forall_impl; [exact H3|]. cbn. lia.
Qed.

(** The fences found are fences, in order, and no two share a line. *)
Lemma supported_fences_spec :
  Forall is_fence (supported_fences all) /\ StronglySorted fence_before (supported_fences all).
Proof.
  destruct (fences_from_spec all None 0 (drop_0 all) ltac:(lia) I) as (H1 & H2 & _). by split.
Qed.
End fences.

(** * Reading a range *)

Section read.
Context (parse : Language.t -> string -> option Syntax.node).
Context (read_bytes : string -> string + NerveError.t) (lossy display_path : string -> string).

Lemma clamp_span_within span total : 0 < total ->
  1 <= (clamp_span span total).1 <= (clamp_span span total).2 /\ (clamp_span span total).2 <= total.
Proof. unfold clamp_span. cbn. lia. Qed.

(** The lines a snap gives are in the file, and those asked for when it is not applied. *)
Definition snap_ok (total start end_ : nat) (m : ReadFileSnapMetadata.t) : Prop :=
  1 <= m.(ReadFileSnapMetadata.returned_first_line) <= m.(ReadFileSnapMetadata.returned_last_line) /\
  m.(ReadFileSnapMetadata.returned_last_line) <= total /\
  m.(ReadFileSnapMetadata.requested_first_line) = start /\
  m.(ReadFileSnapMetadata.requested_last_line) = end_ /\
  (m.(ReadFileSnapMetadata.applied) = false ->
   m.(ReadFileSnapMetadata.returned_first_line) = start /\ m.(ReadFileSnapMetadata.returned_last_line) = end_).

Lemma applied_ok total start end_ span : 0 < total ->
  snap_ok total start end_ (applied_snap start end_ (clamp_span span total)).
Proof. intros T. pose proof (clamp_span_within span total T). unfold snap_ok. cbn. by split_and!; try lia. Qed.

Lemma unapplied_ok total start end_ reason : 1 <= start <= end_ -> end_ <= total ->
  snap_ok total start end_ (unapplied_snap start end_ reason).
Proof. intros S E. unfold snap_ok. cbn. split; [lia|]. by repeat split. Qed.

Lemma block_snap_ok display text total start end_ : 0 < total -> 1 <= start <= end_ -> end_ <= total ->
  snap_ok total start end_ (block_snap_metadata parse display text total start end_).
Proof.
  intros T S E. unfold block_snap_metadata.
  assert (forall span, snap_ok total start end_ (applied_snap start end_ (clamp_span span total))) as A
    by (intros; by apply applied_ok).
  assert (forall reason, snap_ok total start end_ (unapplied_snap start end_ reason)) as U
    by (intros; by apply unapplied_ok).
  repeat (case_match; try apply A; try apply U).
Qed.

(** A read returns whole lines of the file, from its first to its last line and within the file,
    and nothing only of an empty file: the lines asked for, cut to the file, when it does not snap to a
    block or the snap is not applied, and all of the file when no bound is given. *)
Theorem read_file_spec request bytes (B : read_bytes request.(ReadFileRequest.path) = inl bytes)
  (text := lossy bytes) (lines := CodeGraph.split_inclusive text)
  (start := requested_start request (length lines))
  (end_ := requested_end request (length lines) start) :
  exists r, read_file parse read_bytes lossy display_path request = inl r /\
    let first := r.(ReadFileResponse.first_line) in
    let last := r.(ReadFileResponse.last_line) in
    r.(ReadFileResponse.total_lines) = length lines /\
    (lines = [] -> r.(ReadFileResponse.content) = EmptyString) /\
    (lines <> [] -> 1 <= first <= last /\ last <= length lines /\
       r.(ReadFileResponse.content) = concat_str (take (last - (first - 1)) (drop (first - 1) lines))) /\
    (lines <> [] ->
       (forall m, r.(ReadFileResponse.snap) = Some m -> m.(ReadFileSnapMetadata.applied) = false) ->
       first = start /\ last = end_) /\
    (request.(ReadFileRequest.start_line) = None -> request.(ReadFileRequest.end_line) = None ->
     request.(ReadFileRequest.limit) = None -> request.(ReadFileRequest.snap) = None ->
     r.(ReadFileResponse.content) = text).
Proof.
  assert (lines <> [] -> 0 < length lines /\ 1 <= start <= end_ /\ end_ <= length lines) as R.
  { intros N. assert (0 < length lines) as P by (destruct lines; [done|cbn; lia]).
    unfold end_, start, requested_end, requested_start. cbn. lia. }
  unfold read_file. rewrite B. fold text lines start end_.
  set (snap := snap_metadata parse _ _ text _ start end_).
  assert (lines <> [] -> forall m, snap = Some m -> snap_ok (length lines) start end_ m) as S.
  { intros N m. destruct (R N) as (P & Q & T). unfold snap, snap_metadata.
    destruct request.(ReadFileRequest.snap) as [[]|]; try done. intros [= <-]. by apply block_snap_ok. }
  assert (forall first last, 1 <= first ->
    drop (first - 1) (take last lines) = take (last - (first - 1)) (drop (first - 1) lines)) as K
    by (intros; by rewrite skipn_firstn_comm).
  destruct snap as [m|] eqn:E; eexists; (split; [reflexivity|]); cbn.
  - split_and!; [done|by intros ->| | |].
    + intros N. destruct (S N m eq_refl) as (F & L & _ & _ & _). split_and!; try lia.
      destruct (R N) as (P & _). destruct (Nat.eqb_spec (length lines) 0); [lia|]. by rewrite K by lia.
    + intros N A. destruct (S N m eq_refl) as (_ & _ & _ & _ & U). by apply U, A.
    + intros _ _ _ Z. unfold snap, snap_metadata in E. by rewrite Z in E.
  - split_and!; [done|by intros ->| |done|].
    + intros N. destruct (R N) as (P & Q & T). split_and!; try lia.
      destruct (Nat.eqb_spec (length lines) 0); [lia|]. by rewrite K by lia.
    + intros S1 E1 L1 _. destruct (decide (lines = [])) as [Z|N].
      * rewrite Z. cbn. symmetry. rewrite <- (concat_split_inclusive text). fold lines. by rewrite Z.
      * destruct (R N) as (P & _). destruct (Nat.eqb_spec (length lines) 0); [lia|].
        assert (start = 1 /\ end_ = length lines) as [-> ->].
        { assert (start = 1) as Es.
          { unfold start, requested_start. rewrite S1. change (default 1 None) with 1. lia. }
          split; [done|]. unfold end_, requested_end. rewrite L1, E1, Es.
          change (default (length lines) None) with (length lines).
          destruct (Nat.eqb_spec (length lines) 0); lia. }
        rewrite Nat.sub_diag, take_ge by lia. apply concat_split_inclusive.
Qed.
End read.

Module ReadDemo.
(** A file whose parser gives one block, its first two lines. *)
Definition text : string := "fn a() {" +:+ lf +:+ "}" +:+ lf +:+ "let x" +:+ lf +:+ "let y" +:+ lf.
Definition tree : Syntax.node :=
  Syntax.Node true (Syntax.Point 0 0) (Syntax.Point 4 0) 0 23 false
    [Syntax.Node true (Syntax.Point 0 0) (Syntax.Point 1 1) 0 10 false []].
Definition parse (language : Language.t) (source : string) : option Syntax.node := Some tree.
Definition request (snap : option ReadFileSnapMode.t) : ReadFileRequest.t :=
  ReadFileRequest.Mk "a.rs" (Some 1) (Some 4) None snap.
Definition read (snap : option ReadFileSnapMode.t) : ReadFileResponse.t + NerveError.t :=
  read_file parse (fun _ => inl text) id id (request snap).
End ReadDemo.

Lemma read_file_spec_witness :
  (fun _ : string => inl ReadDemo.text : string + NerveError.t) "a.rs" = inl ReadDemo.text /\
  exists r, ReadDemo.read None = inl r /\ r.(ReadFileResponse.total_lines) = 4.
Proof.
  split; [reflexivity|].
  destruct (read_file_spec ReadDemo.parse (fun _ => inl ReadDemo.text) id id (ReadDemo.request None)
    ReadDemo.text eq_refl) as (r & E & T & _).
  exists r. split; [exact E|]. rewrite T. reflexivity.
Defined.

(** A range that starts where a block starts is replaced by the block, even when the block ends before
    the range does: the lines after it were asked for and are not returned. *)
Lemma snap_cuts_range :
  match ReadDemo.read (Some ReadFileSnapMode.Block) with
  | inl r => (r.(ReadFileResponse.first_line), r.(ReadFileResponse.last_line)) = (1, 2) /\
             (fun m => m.(ReadFileSnapMetadata.applied)) <$> r.(ReadFileResponse.snap) = Some true
  | inr _ => False
  end.
Proof. by vm_compute. Qed.
