(* ===== verification/Tree.v ===== *)
(** The file tree of a snapshot and its rendering within a size budget ([nerve-core/src/tree.rs] and
    the types of [models.rs]).

    Proved below. What [Tree] promises: a full tree lists exactly the files in scope, what is shown and what is left
    out add up, and an automatic tree keeps to its budget. *)
From stdpp Require Import gmap strings.
From S2P Require Import Prelude Text BTree EditText Paths CodeGraph Navigate Selection SourceCode.
Open Scope nerve_scope.

Module FileTreeKind.
Inductive t := Directory | File.
End FileTreeKind.

Module FileTreeMarker.
Inductive t := Selected | Codemap.
End FileTreeMarker.

Module FileTreeNode.
Inductive t := Mk (name path : string) (kind : FileTreeKind.t) (markers : list FileTreeMarker.t)
  (children : list t).

Definition name '(Mk n _ _ _ _) : string := n.
Definition kind '(Mk _ _ k _ _) : FileTreeKind.t := k.
Definition markers '(Mk _ _ _ m _) : list FileTreeMarker.t := m.
Definition children '(Mk _ _ _ _ c) : list t := c.
End FileTreeNode.

Module FileTreeResponse.
Record t := Mk {
  roots : list FileTreeNode.t;
  tree : string;
  roots_count : nat;
  was_truncated : bool;
  uses_legend : bool;
  omitted : nat;
  note : option string }.
End FileTreeResponse.

Module TreeMode.
Inductive t := Auto | Full | Folders.

Definition from_arg (value : option string) : t :=
  let value := default "auto" value in
  if String.eqb value "full" then Full else if String.eqb value "folders" then Folders else Auto.
End TreeMode.

(** No depth is the unlimited one. *)
Module FileTreeOptions.
Record t := Mk { mode : TreeMode.t; max_depth : option nat; path : option string }.
End FileTreeOptions.

Module FileNodeData.
Record t := Mk { path : string; rel_path : string; root_id : string }.
End FileNodeData.

(** The two ordered maps by their pairs. *)
Module NodeBuilder.
Inductive t := Mk (files : list (string * FileNodeData.t)) (dirs : list (string * t)).
Definition default_ : t := Mk [] [].
Definition files '(Mk f _) : list (string * FileNodeData.t) := f.
Definition dirs '(Mk _ d) : list (string * t) := d.
End NodeBuilder.

Module MaterializeContext.
Record t := Mk {
  max_depth : option nat;
  sibling_cap : option nat;
  skip_noise : bool;
  folders_only : bool;
  selection : Selection }.
End MaterializeContext.

Definition AUTO_BUDGET_CHARS : nat := 16000.
Definition AUTO_SIBLING_CAP : nat := 100.

Definition noise_dir (name : string) : bool :=
  existsb (String.eqb name)
    ["node_modules"; ".git"; ".hg"; ".svn"; "target"; "dist"; "build"; "out"; "coverage"; "vendor";
     ".next"; ".nuxt"; ".turbo"; ".cache"; ".venv"; "venv"; "__pycache__"; ".idea"; ".gradle";
     "DerivedData"; "Pods"].

Definition normalize_prefix (path : string) : string :=
  trim_end_chars is_slash (trim_start_chars is_slash (trim path)).

(** The part of a path under a directory. *)
Definition strip_under (rel prefix : string) : option string :=
  if String.eqb prefix EmptyString then Some rel
  else
    rest ← strip_prefix prefix rel;
    if String.eqb rest EmptyString then Some EmptyString else strip_prefix "/" rest.

Definition scoped_rel (rel_path : string) (prefix : option string) : option string :=
  match prefix with
  | Some prefix =>
      suffix ← strip_under rel_path prefix;
      if String.eqb suffix EmptyString then None else Some suffix
  | None => Some rel_path
  end.

Definition file_node_data (entry : CatalogEntry.t) (path : string) : FileNodeData.t :=
  FileNodeData.Mk path entry.(CatalogEntry.rel_path) entry.(CatalogEntry.root_id).

Definition root_node (base : string) (prefix : option string) (children : list FileTreeNode.t)
    : FileTreeNode.t :=
  let name :=
    match prefix with
    | Some prefix => if String.eqb prefix EmptyString then base else base +:+ "/" +:+ prefix
    | None => base
    end in
  FileTreeNode.Mk name (default EmptyString prefix) FileTreeKind.Directory [] children.

Definition builder_is_empty (builder : NodeBuilder.t) : bool :=
  match builder with NodeBuilder.Mk [] [] => true | _ => false end.

(** The components of a path; joining the rest and splitting it again gives the rest. *)
Definition parts (rel_path : string) : list string := List.filter nonempty (split_on "/" rel_path).

Fixpoint insert_parts (builder : NodeBuilder.t) (parts : list string) (file : FileNodeData.t)
    : NodeBuilder.t :=
  let '(NodeBuilder.Mk files dirs) := builder in
  match parts with
  | [] => builder
  | first :: rest =>
      match rest with
      | [] => NodeBuilder.Mk (bt_entry string_leb first file (fun _ => file) files) dirs
      | _ =>
          NodeBuilder.Mk files
            (bt_entry string_leb first NodeBuilder.default_ (fun child => insert_parts child rest file) dirs)
      end
  end.

Definition insert (builder : NodeBuilder.t) (rel_path : string) (file : FileNodeData.t) : NodeBuilder.t :=
  insert_parts builder (parts rel_path) file.

Fixpoint count_builder (builder : NodeBuilder.t) : nat :=
  match builder with
  | NodeBuilder.Mk files dirs =>
      length files + length dirs + sum_list (map (fun '(_, child) => count_builder child) dirs)
  end.

(** At a limit that may be absent. *)
Definition reaches (limit : option nat) (n : nat) : bool :=
  match limit with Some limit => limit <=? n | None => false end.

Definition file_markers (file : FileNodeData.t) (selection : Selection) : list FileTreeMarker.t :=
  let key := (file.(FileNodeData.root_id), file.(FileNodeData.rel_path)) in
  (match selection !! key with Some _ => [FileTreeMarker.Selected] | None => [] end) ++
  (if path_supports_codemap file.(FileNodeData.rel_path) then [FileTreeMarker.Codemap] else []).

(** The files of a directory after [emitted] nodes of it, and the number left out. *)
Fixpoint materialize_files (context : MaterializeContext.t) (files : list (string * FileNodeData.t))
    (emitted omitted : nat) : list FileTreeNode.t * nat :=
  match files with
  | [] => ([], omitted)
  | (name, file) :: files =>
      if reaches context.(MaterializeContext.sibling_cap) emitted
      then materialize_files context files emitted (S omitted)
      else
        let '(nodes, omitted) := materialize_files context files (S emitted) omitted in
        (FileTreeNode.Mk name file.(FileNodeData.path) FileTreeKind.File
           (file_markers file context.(MaterializeContext.selection)) [] :: nodes, omitted)
  end.

Section directories.
Context (context : MaterializeContext.t) (depth : nat).
Context (materialize_child : NodeBuilder.t -> nat -> list FileTreeNode.t * nat).

(** Directories after [emitted] nodes, then files. *)
Fixpoint materialize_dirs (files : list (string * FileNodeData.t)) (dirs : list (string * NodeBuilder.t))
    (emitted omitted : nat) : list FileTreeNode.t * nat :=
  match dirs with
  | [] =>
      if context.(MaterializeContext.folders_only) then ([], omitted)
      else materialize_files context files emitted omitted
  | (name, child) :: dirs =>
      if context.(MaterializeContext.skip_noise) && noise_dir name
      then materialize_dirs files dirs emitted omitted
      else if reaches context.(MaterializeContext.max_depth) depth ||
              reaches context.(MaterializeContext.sibling_cap) emitted
      then materialize_dirs files dirs emitted (omitted + (1 + count_builder child))
      else
        let '(children, omitted) := materialize_child child omitted in
        let '(nodes, omitted) := materialize_dirs files dirs (S emitted) omitted in
        (FileTreeNode.Mk name name FileTreeKind.Directory [] children :: nodes, omitted)
  end.
End directories.

(** The nodes of a directory and the number left out so far. *)
Fixpoint materialize (context : MaterializeContext.t) (builder : NodeBuilder.t) (depth omitted : nat)
    {struct builder} : list FileTreeNode.t * nat :=
  match builder with
  | NodeBuilder.Mk files dirs =>
      materialize_dirs context depth (fun child omitted => materialize context child (S depth) omitted)
        files dirs 0 omitted
  end.

(** The builder of a root: its entries in scope that are kept. *)
Definition root_builder (snapshot : CatalogSnapshot.t) (prefix : option string)
    (keep : CatalogEntry.t -> bool) (root : RootRef.t) : NodeBuilder.t :=
  fold_left (fun builder entry =>
      if String.eqb entry.(CatalogEntry.root_id) root.(RootRef.id) && keep entry
      then match scoped_rel entry.(CatalogEntry.rel_path) prefix with
           | Some rel => insert builder rel (file_node_data entry rel)
           | None => builder
           end
      else builder)
    snapshot.(CatalogSnapshot.entries) NodeBuilder.default_.

Fixpoint build_roots (snapshot : CatalogSnapshot.t) (prefix : option string)
    (keep : CatalogEntry.t -> bool) (context : MaterializeContext.t) (roots : list RootRef.t)
    (omitted : nat) : list FileTreeNode.t * nat :=
  match roots with
  | [] => ([], omitted)
  | root :: roots =>
      let builder := root_builder snapshot prefix keep root in
      if builder_is_empty builder then build_roots snapshot prefix keep context roots omitted
      else
        let '(children, omitted) := materialize context builder 0 omitted in
        let '(nodes, omitted) := build_roots snapshot prefix keep context roots omitted in
        (root_node (root_name root.(RootRef.path)) prefix children :: nodes, omitted)
  end.

Definition build (snapshot : CatalogSnapshot.t) (prefix : option string) (max_depth sibling_cap : option nat)
    (skip_noise folders_only : bool) (selection : Selection) : list FileTreeNode.t * nat :=
  build_roots snapshot prefix (fun _ => true)
    (MaterializeContext.Mk max_depth sibling_cap skip_noise folders_only selection)
    snapshot.(CatalogSnapshot.roots) 0.

Definition build_selected_roots (snapshot : CatalogSnapshot.t) (prefix : option string)
    (max_depth : option nat) (selection : Selection) (selected : gset SelectionKey)
    : list FileTreeNode.t * nat :=
  build_roots snapshot prefix (fun entry => bool_decide (selection_key entry ∈ selected))
    (MaterializeContext.Mk max_depth None false false selection) snapshot.(CatalogSnapshot.roots) 0.

(** * Rendering *)

Definition marker_symbol (marker : FileTreeMarker.t) : string :=
  match marker with FileTreeMarker.Selected => "*" | FileTreeMarker.Codemap => "+" end.

Definition marker_text (markers : list FileTreeMarker.t) : string := concat_str (map marker_symbol markers).

Definition render_node_name (node : FileTreeNode.t) : string :=
  let text := marker_text (FileTreeNode.markers node) in
  if String.eqb text EmptyString then FileTreeNode.name node
  else FileTreeNode.name node +:+ " " +:+ text.

(** The lines of a node and of what is under it. *)
Fixpoint render_node (prefix : string) (is_last : bool) (node : FileTreeNode.t) : list string :=
  let suffix :=
    match FileTreeNode.kind node with FileTreeKind.Directory => "/" | FileTreeKind.File => EmptyString end in
  (prefix +:+ (if is_last then "└── " else "├── ") +:+ render_node_name node +:+ suffix) ::
  match node with
  | FileTreeNode.Mk _ _ _ _ children =>
      let fix render_all (children : list FileTreeNode.t) : list string :=
        match children with
        | [] => []
        | child :: rest =>
            render_node (prefix +:+ (if is_last then "    " else "│   "))
              (match rest with [] => true | _ => false end) child ++ render_all rest
        end in
      render_all children
  end.

Fixpoint render_children (children : list FileTreeNode.t) (prefix : string) : list string :=
  match children with
  | [] => []
  | child :: rest =>
      render_node prefix (match rest with [] => true | _ => false end) child ++ render_children rest prefix
  end.

Definition render_ascii_tree (roots : list FileTreeNode.t) : string :=
  join lf (flat_map (fun root =>
    render_node_name root :: render_children (FileTreeNode.children root) EmptyString) roots).

Fixpoint node_uses_legend (node : FileTreeNode.t) : bool :=
  match node with
  | FileTreeNode.Mk _ _ _ markers children =>
      match markers with [] => false | _ => true end || existsb node_uses_legend children
  end.

(** [is_char_boundary] within the text. *)
Definition is_char_boundary (text : string) (n : nat) : bool :=
  match n with
  | 0 => true
  | _ => match String.get n text with
         | Some c => negb (utf8_continuation c)
         | None => n =? String.length text
         end
  end.

Fixpoint floor_char_boundary (text : string) (end_ : nat) : nat :=
  match end_ with
  | 0 => 0
  | S less => if is_char_boundary text end_ then end_ else floor_char_boundary text less
  end.

Definition truncate_to_chars (text : string) (budget : nat) : string :=
  if String.length text <=? budget then text
  else
    let head := String.substring 0 (floor_char_boundary text budget) text in
    (match rsplit_once LF head with Some (before, _) => before | None => head end) +:+ lf +:+ "…".

Definition finalize (roots : list FileTreeNode.t) (omitted : nat) (forced_truncated : bool)
    (note : option string) : FileTreeResponse.t :=
  FileTreeResponse.Mk roots (render_ascii_tree roots) (length roots)
    (forced_truncated || (0 <? omitted)) (existsb node_uses_legend roots) omitted note.

(** * The modes *)

(** Whether only directories are shown, to what depth, and what the note says of it. *)
Definition attempts (first_depth : option nat) : list (bool * option nat * option string) :=
  [(false, first_depth, None);
   (false, Some 3, Some "depth capped at 3");
   (true, first_depth, Some "directories only");
   (true, Some 3, Some "directories only, depth capped at 3");
   (true, Some 1, Some "directories only, top level — pass `path` to scope into a subdirectory")].

Definition omitted_note (omitted : nat) : option string :=
  if 0 <? omitted
  then Some (show_nat omitted +:+
         " entries omitted to fit the size budget; pass `path` to scope in")
  else None.

(** The first attempt that fits, or else the last, truncated. *)
Fixpoint try_attempts (snapshot : CatalogSnapshot.t) (prefix : option string) (selection : Selection)
    (attempts : list (bool * option nat * option string)) (fallback : list FileTreeNode.t * nat)
    : FileTreeResponse.t :=
  match attempts with
  | [] =>
      let '(roots, omitted) := fallback in
      FileTreeResponse.Mk roots (truncate_to_chars (render_ascii_tree roots) AUTO_BUDGET_CHARS)
        (length roots) true (existsb node_uses_legend roots) omitted
        (Some "tree exceeds the size budget; output truncated — pass `path` to scope to a subdirectory")
  | (folders_only, depth, note) :: attempts =>
      let '(roots, omitted) :=
        build snapshot prefix depth (Some AUTO_SIBLING_CAP) true folders_only selection in
      if String.length (render_ascii_tree roots) <=? AUTO_BUDGET_CHARS
      then finalize roots omitted false
             (match note with Some note => Some note | None => omitted_note omitted end)
      else try_attempts snapshot prefix selection attempts (roots, omitted)
  end.

Definition build_auto (snapshot : CatalogSnapshot.t) (prefix : option string) (caller_depth : option nat)
    (selection : Selection) : FileTreeResponse.t :=
  try_attempts snapshot prefix selection (attempts caller_depth) ([], 0).

Definition prefix_matches_snapshot (snapshot : CatalogSnapshot.t) (prefix : string) : bool :=
  String.eqb prefix EmptyString ||
  existsb (fun entry => match scoped_rel entry.(CatalogEntry.rel_path) (Some prefix) with
                        | Some _ => true | None => false end) snapshot.(CatalogSnapshot.entries).

Definition apply_missing_path_note (snapshot : CatalogSnapshot.t) (options : FileTreeOptions.t)
    (prefix : option string) (r : FileTreeResponse.t) : FileTreeResponse.t :=
  let missing :=
    match prefix with
    | Some p => negb (String.eqb p EmptyString) && negb (prefix_matches_snapshot snapshot p)
    | None => false
    end in
  if missing
  then FileTreeResponse.Mk r.(FileTreeResponse.roots) r.(FileTreeResponse.tree)
         r.(FileTreeResponse.roots_count) r.(FileTreeResponse.was_truncated)
         r.(FileTreeResponse.uses_legend) r.(FileTreeResponse.omitted)
         (Some ("path not found in catalog: " +:+
                default EmptyString options.(FileTreeOptions.path)))
  else r.

Definition get_file_tree_with_selection (snapshot : CatalogSnapshot.t) (options : FileTreeOptions.t)
    (selection : Selection) : FileTreeResponse.t :=
  let prefix := normalize_prefix <$> options.(FileTreeOptions.path) in
  let depth := options.(FileTreeOptions.max_depth) in
  apply_missing_path_note snapshot options prefix
    match options.(FileTreeOptions.mode) with
    | TreeMode.Full =>
        let '(roots, omitted) := build snapshot prefix depth None false false selection in
        finalize roots omitted false None
    | TreeMode.Folders =>
        let '(roots, omitted) := build snapshot prefix depth None false true selection in
        finalize roots omitted false None
    | TreeMode.Auto => build_auto snapshot prefix depth selection
    end.

Definition get_file_tree (snapshot : CatalogSnapshot.t) (options : FileTreeOptions.t) : FileTreeResponse.t :=
  get_file_tree_with_selection snapshot options ∅.

Definition selected_note (selection : Selection) (prefix : option string) (roots_empty : bool)
    : option string :=
  if negb roots_empty then None
  else if bool_decide (selection = ∅) then Some "selection is empty"
  else
    Some (match prefix with
          | Some path =>
              if String.eqb path EmptyString then "selection does not match the current catalog"
              else "no selected files under path: " +:+ path
          | None => "selection does not match the current catalog"
          end).

Definition build_selected (snapshot : CatalogSnapshot.t) (prefix : option string) (selection : Selection)
    : FileTreeResponse.t :=
  let '(roots, omitted) := build_selected_roots snapshot prefix None selection (dom selection) in
  finalize roots omitted false
    (selected_note selection prefix (match roots with [] => true | _ => false end)).

Definition get_selected_file_tree_with_selection (snapshot : CatalogSnapshot.t)
    (options : FileTreeOptions.t) (selection : Selection) : FileTreeResponse.t :=
  let prefix := normalize_prefix <$> options.(FileTreeOptions.path) in
  apply_missing_path_note snapshot options prefix (build_selected snapshot prefix selection).

(** * Builders *)

(** Induction that goes into the directories. *)
Section builder_ind.
Context (P : NodeBuilder.t -> Prop).
Context (H : forall files dirs, Forall (fun d => P d.2) dirs -> P (NodeBuilder.Mk files dirs)).

Fixpoint builder_ind (b : NodeBuilder.t) : P b :=
  match b with
  | NodeBuilder.Mk files dirs =>
      H files dirs
        ((fix go (dirs : list (string * NodeBuilder.t)) : Forall (fun d => P d.2) dirs :=
            match dirs with
            | [] => List.Forall_nil _
            | (name, child) :: dirs => List.Forall_cons _ (name, child) dirs (builder_ind child) (go dirs)
            end) dirs)
  end.
End builder_ind.

(** The files of a builder, by the components of their paths. *)
Fixpoint builder_files (b : NodeBuilder.t) : list (list string) :=
  match b with
  | NodeBuilder.Mk files dirs =>
      map (fun '(name, _) => [name]) files ++
      flat_map (fun '(name, child) => map (cons name) (builder_files child)) dirs
  end.

Fixpoint builder_ok (b : NodeBuilder.t) : Prop :=
  match b with
  | NodeBuilder.Mk files dirs =>
      bt_sorted string_leb files /\ bt_sorted string_leb dirs /\
      fold_right (fun '(_, child) ok => builder_ok child /\ ok) True dirs
  end.

Lemma dirs_ok (dirs : list (string * NodeBuilder.t)) :
  fold_right (fun '(_, child) ok => builder_ok child /\ ok) True dirs <-> Forall (fun d => builder_ok d.2) dirs.
Proof.
  induction dirs as [|[name child] dirs IH]; cbn; [by split; [constructor|]|].
  rewrite Forall_cons, IH. done.
Qed.

Lemma bt_entry_Forall {V} (P : V -> Prop) k d f (m : list (string * V)) :
  (forall v, P v -> P (f v)) -> P d -> Forall (fun x => P x.2) m ->
  Forall (fun x => P x.2) (bt_entry string_leb k d f m).
Proof.
  intros F D. induction 1 as [|[k' v] m Pv M IH]; cbn; [constructor; [by apply F|by apply List.Forall_nil]|].
  case_decide; [constructor; [by apply F|done]|].
  destruct (string_leb k k'); constructor; auto. by apply F.
Qed.

Lemma bt_entry_update {V} (k : string) (d : V) f m : exists v, (k, f v) ∈ bt_entry string_leb k d f m.
Proof.
  induction m as [|[k' v] m [u IH]]; cbn; [exists d; by left|].
  case_decide; [exists v; by left|]. destruct (string_leb k k'); [exists d; by left|]. exists u. by right.
Qed.

Lemma insert_parts_ok file ps b : builder_ok b -> builder_ok (insert_parts b ps file).
Proof.
  revert b. induction ps as [|p ps IH]; intros [files dirs]; [done|]. cbn [builder_ok insert_parts].
  rewrite dirs_ok. intros (F & D & C). destruct ps as [|q ps]; cbn [builder_ok]; rewrite dirs_ok.
  - split; [by apply (bt_entry_sorted string_leb)|done].
  - split; [done|]. split; [by apply (bt_entry_sorted string_leb)|]. apply bt_entry_Forall; [apply IH|by cbn; repeat constructor|done].
Qed.

(** An update of one key adds to the files under it and leaves the others. *)
Lemma entry_files (k : string) f dirs p rest :
  (forall v, p ∈ builder_files (f v) <-> p = rest \/ p ∈ builder_files v) -> rest <> [] ->
  forall x, k :: p = x ->
  x ∈ flat_map (fun '(name, child) => map (cons name) (builder_files child))
        (bt_entry string_leb k NodeBuilder.default_ f dirs) <->
  x = k :: rest \/ x ∈ flat_map (fun '(name, child) => map (cons name) (builder_files child)) dirs.
Proof.
  intros F R x <-.
  assert (forall v, k :: p ∈ map (cons k) (builder_files v) <-> p ∈ builder_files v) as M.
  { intros v. rewrite list_elem_of_fmap. split; [by intros (y & [= ->] & I)|by exists p]. }
  induction dirs as [|[k' v] dirs IH]; cbn [bt_entry flat_map].
  - rewrite app_nil_r, M, F. cbn. set_solver.
  - case_decide as E; [subst k'|destruct (string_leb k k')]; cbn [flat_map]; rewrite !elem_of_app.
    + rewrite !M, F. set_solver.
    + rewrite !M, F. cbn. set_solver.
    + rewrite IH. set_solver.
Qed.

Lemma entry_files_other (k k' : string) f dirs p : k <> k' ->
  k' :: p ∈ flat_map (fun '(name, child) => map (cons name) (builder_files child))
        (bt_entry string_leb k NodeBuilder.default_ f dirs) <->
  k' :: p ∈ flat_map (fun '(name, child) => map (cons name) (builder_files child)) dirs.
Proof.
  intros N.
  assert (forall v, k' :: p ∉ map (cons k) (builder_files v)) as M.
  { intros v (y & [= <- ->] & I)%list_elem_of_fmap. done. }
  induction dirs as [|[x v] dirs IH]; cbn [bt_entry flat_map].
  - rewrite app_nil_r. split; [by intros ?%M|set_solver].
  - case_decide as E; [subst x|destruct (string_leb k x)]; cbn [flat_map]; rewrite !elem_of_app.
    + pose proof (M v). pose proof (M (f v)). set_solver.
    + pose proof (M (f NodeBuilder.default_)). set_solver.
    + rewrite IH. set_solver.
Qed.

Lemma no_empty_file b : [] ∉ builder_files b.
Proof.
  destruct b as [files dirs]. cbn. rewrite elem_of_app. intros [I|I].
  - apply list_elem_of_fmap in I as ([] & [=] & _).
  - apply list_elem_of_In, in_flat_map in I as ([name child] & _ & J).
    apply in_map_iff in J as (? & [=] & _).
Qed.

Lemma insert_parts_files file ps b : ps <> [] -> forall p,
  p ∈ builder_files (insert_parts b ps file) <-> p = ps \/ p ∈ builder_files b.
Proof.
  revert b. induction ps as [|q ps IH]; intros [files dirs] N p; [done|]. clear N.
  cbn [insert_parts]. destruct ps as [|r ps].
  - cbn [builder_files]. rewrite !elem_of_app.
    assert (p ∈ map (fun '(name, _) => [name]) (bt_entry string_leb q file (fun _ => file) files) <->
      p = [q] \/ p ∈ map (fun '(name, _) => [name]) files) as ->; [|tauto].
    pose proof (fun x => bt_entry_keys string_leb q file (fun _ => file) files x) as K.
    assert (forall m : list (string * FileNodeData.t), p ∈ map (fun '(name, _) => [name]) m <->
      exists x, p = [x] /\ x ∈ map fst m) as S.
    { intros m. rewrite list_elem_of_fmap. split.
      - intros ([x v] & -> & I). exists x. split; [done|]. apply list_elem_of_fmap. by exists (x, v).
      - intros (x & -> & ([y v] & -> & I)%list_elem_of_fmap). by exists (y, v). }
    rewrite !S. setoid_rewrite K. naive_solver.
  - cbn [builder_files]. rewrite !elem_of_app. destruct p as [|k p].
    { assert (forall m, [] ∉ flat_map (fun '(name, child) => map (cons name) (builder_files child)) m) as Z.
      { intros m I. apply list_elem_of_In, in_flat_map in I as ([name child] & _ & J).
        apply in_map_iff in J as (? & [=] & _). }
      split; [intros [I|I%Z]; [by right; left|done]|intros [|[I|I%Z]]; [done|by left|done]]. }
    destruct (decide (q = k)) as [->|D].
    + rewrite (entry_files k _ dirs p (r :: ps)) by (done || by intros; apply IH). tauto.
    + rewrite entry_files_other by done. split; [tauto|]. intros [[=]|]; [congruence|done].
Qed.

Lemma builder_files_NoDup b : builder_ok b -> NoDup (builder_files b).
Proof.
  induction b as [files dirs IH] using builder_ind. cbn [builder_ok builder_files].
  rewrite dirs_ok. intros (F & D & C).
  assert (forall V (m : list (string * V)), bt_sorted string_leb m -> NoDup (map fst m)) as K.
  { intros V m S. unfold bt_sorted in S. induction S as [|x l S IHs A]; [constructor|]. constructor; [|done].
    intros I. rewrite Forall_forall in A. destruct (A x I) as [_ N]. done. }
  apply NoDup_app. split_and!.
  - apply K in F. clear -F. induction files as [|[x v] files IH]; cbn in *; [constructor|].
    apply NoDup_cons in F as [F1 F2]. constructor; [|auto]. intros ([y w] & [= ->] & I)%list_elem_of_fmap.
    apply F1, list_elem_of_fmap. by exists (y, w).
  - intros x I J. apply list_elem_of_fmap in I as ([y w] & -> & I).
    apply list_elem_of_In, in_flat_map in J as ([name child] & _ & J). apply in_map_iff in J as (z & [= -> ->] & J).
    apply list_elem_of_In in J. by apply no_empty_file in J.
  - apply K in D. clear F K. induction dirs as [|[x v] dirs IHd]; cbn in *; [constructor|].
    apply NoDup_cons in D as [D1 D2]. apply Forall_cons in C as [C1 C2]. apply Forall_cons in IH as [I1 I2].
    apply NoDup_app. split_and!; [|intros y I J|by apply IHd].
    + apply NoDup_fmap_2; [by intros ? ? [=]|by apply I1].
    + apply list_elem_of_fmap in I as (z & -> & I).
      apply list_elem_of_In, in_flat_map in J as ([name child] & J & L). apply in_map_iff in L as (? & [= -> ->] & _).
      apply D1, list_elem_of_fmap. exists (x, child). split; [done|]. by apply list_elem_of_In.
Qed.

(** * The files of a root *)

(** A root's file in scope that is kept, by the components of its path under the prefix. *)
Definition shown_at (snapshot : CatalogSnapshot.t) (prefix : option string) (keep : CatalogEntry.t -> bool)
    (root : RootRef.t) (path : list string) : Prop :=
  path <> [] /\ exists entry rel, entry ∈ snapshot.(CatalogSnapshot.entries) /\
    entry.(CatalogEntry.root_id) = root.(RootRef.id) /\ keep entry = true /\
    scoped_rel entry.(CatalogEntry.rel_path) prefix = Some rel /\ path = parts rel.

Lemma exists_snoc {A B} (Q : A -> B -> Prop) l x :
  (exists y b, y ∈ l ++ [x] /\ Q y b) <-> (exists y b, y ∈ l /\ Q y b) \/ exists b, Q x b.
Proof.
  split.
  - intros (y & b & I & q). apply elem_of_app in I as [I|I]; [by left; exists y, b|].
    apply list_elem_of_singleton in I as ->. right. by exists b.
  - intros [(y & b & I & q)|(b & q)]; [exists y, b|exists x, b]; (split; [|done]); set_solver.
Qed.

Lemma root_builder_spec snapshot prefix keep root :
  builder_ok (root_builder snapshot prefix keep root) /\
  forall p, p ∈ builder_files (root_builder snapshot prefix keep root) <->
    shown_at snapshot prefix keep root p.
Proof.
  unfold root_builder, shown_at. induction snapshot.(CatalogSnapshot.entries) as [|entry entries [O S]] using rev_ind.
  { split; [cbn; by repeat constructor|]. intros p. split; [by intros ?%elem_of_nil|].
    by intros (_ & e & rel & ?%elem_of_nil & _). }
  rewrite fold_left_app. cbn [fold_left]. set (b := fold_left _ entries _) in *.
  setoid_rewrite exists_snoc.
  destruct (String.eqb_spec entry.(CatalogEntry.root_id) root.(RootRef.id)) as [R|R]; cbn [andb].
  1: destruct (keep entry) eqn:K.
  1: destruct (scoped_rel entry.(CatalogEntry.rel_path) prefix) as [rel|] eqn:Q.
  2-4: split; [done|]; intros p; rewrite S; naive_solver.
  split; [by apply insert_parts_ok|]. intros p. unfold insert. destruct (decide (parts rel = [])) as [Z|Z].
  - rewrite Z. assert (insert_parts b [] (file_node_data entry rel) = b) as -> by (by destruct b).
    rewrite S. naive_solver congruence.
  - rewrite insert_parts_files, S by done. naive_solver congruence.
Qed.

(** * Trees *)

(** The files under a node, by the names on the way. *)
Fixpoint node_files (node : FileTreeNode.t) : list (list string) :=
  match node with
  | FileTreeNode.Mk name _ FileTreeKind.File _ _ => [[name]]
  | FileTreeNode.Mk name _ FileTreeKind.Directory _ children =>
      map (cons name) (flat_map node_files children)
  end.

Fixpoint node_count (node : FileTreeNode.t) : nat :=
  match node with FileTreeNode.Mk _ _ _ _ children => S (sum_list (map node_count children)) end.

Lemma rsplit_once_length c s before after : rsplit_once c s = Some (before, after) ->
  String.length before <= String.length s.
Proof.
  unfold rsplit_once. destruct (split_once _ _) as [[b a]|] eqn:E; [|done]. intros [= <- <-].
  apply split_once_Some in E. rewrite <- (rev_str_rev s), E, rev_str_app, rev_str_app, !length_app_str. lia.
Qed.

Lemma materialize_files_count context files emitted omitted :
  let '(nodes, omitted') := materialize_files context files emitted omitted in
  sum_list (map node_count nodes) + omitted' = length files + omitted.
Proof.
  revert emitted omitted. induction files as [|[name file] files IH]; intros emitted omitted; [done|]. cbn.
  destruct (reaches _ _).
  - specialize (IH emitted (S omitted)). destruct (Tree.materialize_files _ _ _ _). lia.
  - specialize (IH (S emitted) omitted). destruct (Tree.materialize_files _ _ _ _). cbn. lia.
Qed.

(** When nothing is pruned and files are shown, what is shown and what is left out add up to the
    builder, whatever the limits on depth and breadth. *)
Lemma materialize_conserves context builder depth omitted :
  context.(MaterializeContext.skip_noise) = false -> context.(MaterializeContext.folders_only) = false ->
  let '(nodes, omitted') := materialize context builder depth omitted in
  sum_list (map node_count nodes) + omitted' = count_builder builder + omitted.
Proof.
  intros N F. revert depth omitted. induction builder as [files dirs IH] using builder_ind.
  intros depth omitted. cbn [Tree.materialize count_builder]. generalize 0 as emitted. revert omitted.
  induction dirs as [|[name child] dirs IHd]; intros omitted emitted; cbn [materialize_dirs].
  - rewrite F. pose proof (materialize_files_count context files emitted omitted) as C. cbn.
    destruct (Tree.materialize_files _ _ _ _). lia.
  - rewrite N. cbn [andb map sum_list length]. apply Forall_cons in IH as [IH1 IH2]. destruct (_ || _).
    + specialize (IHd IH2 (omitted + (1 + count_builder child)) emitted).
      destruct (materialize_dirs _ _ _ _ _ _ _). cbn in IHd. unfold id in *. lia.
    + specialize (IH1 (S depth) omitted). cbn [snd] in IH1.
      destruct (Tree.materialize _ child _ _) as [children o].
      specialize (IHd IH2 o (S emitted)). destruct (materialize_dirs _ _ _ _ _ _ _). cbn in *. unfold id in *. lia.
Qed.

(** Without limits, every file is shown once, and nothing is left out. *)
Definition unlimited (context : MaterializeContext.t) : Prop :=
  context.(MaterializeContext.max_depth) = None /\ context.(MaterializeContext.sibling_cap) = None /\
  context.(MaterializeContext.skip_noise) = false /\ context.(MaterializeContext.folders_only) = false.

Lemma materialize_files_unlimited context files emitted omitted :
  context.(MaterializeContext.sibling_cap) = None ->
  let '(nodes, omitted') := materialize_files context files emitted omitted in
  flat_map node_files nodes = map (fun '(name, _) => [name]) files /\ omitted' = omitted.
Proof.
  intros N. revert emitted omitted. induction files as [|[name file] files IH]; intros emitted omitted; [done|].
  cbn. rewrite N. cbn. specialize (IH (S emitted) omitted).
  destruct (Tree.materialize_files _ _ _ _) as [nodes o]. destruct IH as [IH ->]. cbn. by rewrite IH.
Qed.

Lemma materialize_unlimited context builder depth omitted : unlimited context ->
  let '(nodes, omitted') := materialize context builder depth omitted in
  flat_map node_files nodes ≡ₚ builder_files builder /\ omitted' = omitted.
Proof.
  intros (D & C & N & F). revert depth omitted. induction builder as [files dirs IH] using builder_ind.
  intros depth omitted. cbn [Tree.materialize builder_files]. generalize 0 as emitted. revert omitted.
  induction dirs as [|[name child] dirs IHd]; intros omitted emitted; cbn [materialize_dirs].
  - rewrite F. pose proof (materialize_files_unlimited context files emitted omitted C) as M.
    destruct (Tree.materialize_files _ _ _ _) as [nodes o]. destruct M as [-> ->]. cbn. by rewrite app_nil_r.
  - rewrite N, D, C. cbn [andb orb reaches]. apply Forall_cons in IH as [IH1 IH2].
    specialize (IH1 (S depth) omitted). cbn [snd] in IH1.
    destruct (Tree.materialize _ child _ _) as [children o]. destruct IH1 as [IH1 ->].
    specialize (IHd IH2 omitted (S emitted)). destruct (materialize_dirs _ _ _ _ _ _ _) as [nodes o].
    destruct IHd as [IHd ->]. split; [|done]. cbn [flat_map node_files]. rewrite IHd, IH1.
    rewrite !(assoc_L (++)). apply Permutation_app_tail, Permutation_app_comm.
Qed.

(** ** Whole trees *)

(** The nodes are those of the roots with a file to show, in order, each with exactly its files, once. *)
Definition lists_files (snapshot : CatalogSnapshot.t) (prefix : option string)
    (keep : CatalogEntry.t -> bool) (nodes : list FileTreeNode.t) : Prop :=
  exists roots, sublist roots snapshot.(CatalogSnapshot.roots) /\
    (forall root path, root ∈ snapshot.(CatalogSnapshot.roots) -> shown_at snapshot prefix keep root path ->
       root ∈ roots) /\
    Forall2 (fun root node =>
      let files := flat_map node_files (FileTreeNode.children node) in
      NoDup files /\ forall path, path ∈ files <-> shown_at snapshot prefix keep root path) roots nodes.

Lemma build_roots_lists snapshot prefix keep context omitted : unlimited context ->
  let '(nodes, omitted') := build_roots snapshot prefix keep context
                              snapshot.(CatalogSnapshot.roots) omitted in
  lists_files snapshot prefix keep nodes /\ omitted' = omitted.
Proof.
  intros U. unfold lists_files. generalize snapshot.(CatalogSnapshot.roots) as all. intros all. revert omitted.
  induction all as [|root all IH]; intros omitted; cbn [build_roots].
  { split; [|done]. exists []. split_and!; [done|by intros ? ? ?%elem_of_nil|constructor]. }
  destruct (root_builder_spec snapshot prefix keep root) as [O S].
  destruct (builder_is_empty _) eqn:B.
  - specialize (IH omitted). destruct (build_roots _ _ _ _ _ _) as [nodes o].
    destruct IH as [(roots & L & A & F) ->]. split; [|done]. exists roots. split_and!; [by constructor| |done].
    intros root' path I M. apply elem_of_cons in I as [->|I]; [|by eapply A].
    apply S in M. destruct (root_builder _ _ _ _) as [[] []]; [|done..]. by apply elem_of_nil in M.
  - pose proof (materialize_unlimited context (root_builder snapshot prefix keep root) 0 omitted U) as M.
    destruct (Tree.materialize _ _ _ _) as [children o]. destruct M as [M ->].
    specialize (IH omitted). destruct (build_roots _ _ _ _ _ _) as [nodes o].
    destruct IH as [(roots & L & A & F) ->]. split; [|done]. exists (root :: roots).
    split_and!; [by constructor| |constructor; [|done]].
    + intros root' path I N. apply elem_of_cons in I as [->|I]; [by left|right; by eapply A].
    + cbn. split; [rewrite M; by apply builder_files_NoDup|]. intros path. by rewrite M, S.
Qed.

Lemma truncate_within text budget : String.length (truncate_to_chars text budget) <= budget + 4.
Proof.
  unfold truncate_to_chars. destruct (Nat.leb_spec (String.length text) budget); [lia|].
  set (head := String.substring _ _ _).
  assert (String.length head <= budget) as L.
  { assert (floor_char_boundary text budget <= budget) as F.
    { clear. induction budget as [|n IH]; cbn [floor_char_boundary]; [done|]. destruct (is_char_boundary _ _); lia. }
    assert (forall n (s : string), String.length (String.substring 0 n s) <= n) as G.
    { clear. induction n as [|n IH]; intros [|c s]; cbn; try lia. specialize (IH s). lia. }
    etransitivity; [apply G|done]. }
  unfold lf. cbn. destruct (rsplit_once LF head) as [[before after]|] eqn:E.
  - rewrite length_app_str. pose proof (rsplit_once_length _ _ _ _ E). cbn. lia.
  - rewrite length_app_str. cbn. lia.
Qed.

Lemma try_attempts_bounded snapshot prefix selection attempts fallback
  (r := try_attempts snapshot prefix selection attempts fallback) :
  String.length r.(FileTreeResponse.tree) <= AUTO_BUDGET_CHARS \/
  (r.(FileTreeResponse.was_truncated) = true /\
   String.length r.(FileTreeResponse.tree) <= AUTO_BUDGET_CHARS + 4).
Proof.
  subst r. revert fallback. induction attempts as [|[[folders depth] note] attempts IH]; intros [roots omitted].
  - right. split; [done|]. apply truncate_within.
  - cbn [try_attempts]. destruct (build _ _ _ _ _ _ _) as [roots' omitted'].
    destruct (Nat.leb_spec (String.length (render_ascii_tree roots')) AUTO_BUDGET_CHARS) as [L|L]; [by left|].
    apply IH.
Qed.

Lemma note_keeps snapshot options prefix r :
  let r' := apply_missing_path_note snapshot options prefix r in
  r'.(FileTreeResponse.roots) = r.(FileTreeResponse.roots) /\
  r'.(FileTreeResponse.tree) = r.(FileTreeResponse.tree) /\
  r'.(FileTreeResponse.was_truncated) = r.(FileTreeResponse.was_truncated) /\
  r'.(FileTreeResponse.omitted) = r.(FileTreeResponse.omitted).
Proof. unfold apply_missing_path_note. by destruct (match prefix with Some _ => _ | None => _ end). Qed.

(** A full tree without a depth limit shows every file in scope of every root exactly once and
    leaves nothing out, the tree of a selection shows exactly the selected files, and an automatic tree
    keeps to its budget, or is marked as truncated and exceeds it by the mark at most. *)
Theorem file_tree_spec snapshot path selection
  (prefix := normalize_prefix <$> path)
  (tree := fun mode depth => get_file_tree_with_selection snapshot
                               (FileTreeOptions.Mk mode depth path) selection) :
  (let full := tree TreeMode.Full None in
   lists_files snapshot prefix (fun _ => true) full.(FileTreeResponse.roots) /\
   full.(FileTreeResponse.omitted) = 0 /\ full.(FileTreeResponse.was_truncated) = false) /\
  (let selected := get_selected_file_tree_with_selection snapshot
                     (FileTreeOptions.Mk TreeMode.Auto None path) selection in
   lists_files snapshot prefix (fun entry => bool_decide (selection_key entry ∈ dom selection))
     selected.(FileTreeResponse.roots) /\
   selected.(FileTreeResponse.omitted) = 0) /\
  forall depth,
    let auto := tree TreeMode.Auto depth in
    String.length auto.(FileTreeResponse.tree) <= AUTO_BUDGET_CHARS \/
    (auto.(FileTreeResponse.was_truncated) = true /\
     String.length auto.(FileTreeResponse.tree) <= AUTO_BUDGET_CHARS + 4).
Proof.
  split_and!.
  - intros full. unfold full, tree, get_file_tree_with_selection.
    cbn [FileTreeOptions.mode FileTreeOptions.max_depth FileTreeOptions.path]. fold prefix. edestruct note_keeps as (-> & _ & -> & ->). unfold build.
    pose proof (build_roots_lists snapshot prefix (fun _ => true)
      (MaterializeContext.Mk None None false false selection) 0 ltac:(done)) as B.
    destruct (build_roots _ _ _ _ _ _) as [nodes o]. destruct B as [B ->]. by split_and!.
  - intros selected. unfold selected, get_selected_file_tree_with_selection. cbn [FileTreeOptions.mode FileTreeOptions.max_depth FileTreeOptions.path]. fold prefix.
    edestruct note_keeps as (-> & _ & _ & ->). unfold build_selected, build_selected_roots.
    pose proof (build_roots_lists snapshot prefix
      (fun entry => bool_decide (selection_key entry ∈ dom selection))
      (MaterializeContext.Mk None None false false selection) 0 ltac:(done)) as B.
    destruct (build_roots _ _ _ _ _ _) as [nodes o]. destruct B as [B ->]. by split.
  - intros depth auto. unfold auto, tree, get_file_tree_with_selection. cbn [FileTreeOptions.mode FileTreeOptions.max_depth FileTreeOptions.path]. fold prefix.
    edestruct note_keeps as (_ & -> & -> & _). apply try_attempts_bounded.
Qed.

(** A run: two roots, a selected file, and a directory pruned in the automatic mode. *)
Lemma tree_run :
  let snapshot := CatalogSnapshot.Mk 1 [RootRef.Mk "r" "/w/app"; RootRef.Mk "s" "/w/lib"]
    [CatalogEntry.Mk "r" "src/main.rs" "/w/app/src/main.rs" 1; CatalogEntry.Mk "r" "notes" "/w/app/notes" 1;
     CatalogEntry.Mk "s" "target/out" "/w/lib/target/out" 1] in
  (get_file_tree_with_selection snapshot
     (FileTreeOptions.Mk TreeMode.Auto None None) {[("r", "notes") := SelectionMode.Full]}).(FileTreeResponse.tree) =
  "app" +:+ lf +:+ "├── src/" +:+ lf +:+ "│   └── main.rs +" +:+ lf +:+ "└── notes *" +:+ lf +:+ "lib".
Proof. by vm_compute. Qed.
