(* ===== verification/Assembly.v ===== *)
(** The text of a selection with its token counts ([nerve-core/src/workspace_context.rs],
    [workspace_context/], [recipe.rs] and the rendering of [codemap/types.rs]).

    Proved below. The cache of rendered files does not change what a context holds. *)
From stdpp Require Import gmap strings.
From S2P Require Import Prelude Text EditText Paths History CodeGraph Navigate Selection SourceCode Tree Search.
Open Scope nerve_scope.

(** A result or an error: the [?] of the source. *)
Definition bind_result {A B} (r : A + NerveError.t) (k : A -> B + NerveError.t) : B + NerveError.t :=
  match r with inl a => k a | inr e => inr e end.
Notation "'try?' x := r 'in' k" := (bind_result r (fun x => k))
  (at level 10, x binder, r at level 200, k at level 200) : nerve_scope.

(** * [recipe.rs] *)

Module WorkspaceContextInclude.
Inductive t := FileMap | Contents | Tokens | Tree | Code | GitDiff | MetaPrompts.
#[global] Instance eq_dec : EqDecision t.
Proof. solve_decision. Defined.
End WorkspaceContextInclude.

Module MetaPrompt.
Record t := Mk { title : string; body : string }.
End MetaPrompt.

Module ContextRecipe.
Record t := Mk {
  name : string;
  label : string;
  sections : list WorkspaceContextInclude.t;
  meta_prompts : list (string * string) }.
End ContextRecipe.

Definition ARCHITECT : string :=
  "Act as a software architect. Before writing any code, produce a precise, step-by-step implementation plan: the files to change, the order of changes, and the risks. Do not write the final code yet.".

Definition REVIEWER : string :=
  "Act as a meticulous code reviewer. Review the changes for correctness, edge cases, security, and consistency with the surrounding code. List concrete issues with file:line references and a short rationale for each.".

Definition built_in_recipes : list ContextRecipe.t :=
  let F := WorkspaceContextInclude.FileMap in
  let C := WorkspaceContextInclude.Contents in
  let D := WorkspaceContextInclude.GitDiff in
  let M := WorkspaceContextInclude.MetaPrompts in
  [ContextRecipe.Mk "standard" "Standard" [F; C] [];
   ContextRecipe.Mk "plan" "Plan" [F; C; M] [("Architect", ARCHITECT)];
   ContextRecipe.Mk "review" "Review" [F; C; D; M] [("Review", REVIEWER)];
   ContextRecipe.Mk "diff" "Diff Follow-Up" [D] [];
   ContextRecipe.Mk "manual" "Manual" [] []].

Definition recipe_by_name (name : string) : option ContextRecipe.t :=
  List.find (fun r => String.eqb r.(ContextRecipe.name) name) built_in_recipes.

(** * Types of [workspace_context.rs] *)

Module WorkspaceContextRequest.
Record t := Mk {
  include : list WorkspaceContextInclude.t;
  instructions : option string;
  recipe : option string;
  git_diff : option string;
  meta_prompts : list MetaPrompt.t }.
End WorkspaceContextRequest.

Module SegmentTokens.
Record t := Mk { label : string; start_line : option nat; end_line : option nat; token_count : N }.
End SegmentTokens.

Module FileTokens.
Record t := Mk {
  root_id : string;
  path : string;
  display_path : string;
  mode : string;
  content_hash : string;
  token_count : N;
  segments : list SegmentTokens.t }.
End FileTokens.

Module TokenBreakdown.
Record t := Mk {
  total_tokens : N;
  file_map_tokens : N;
  instructions_tokens : N;
  contents_tokens : N;
  tree_tokens : N;
  code_tokens : N;
  git_diff_tokens : N;
  meta_prompts_tokens : N;
  files : list FileTokens.t }.
End TokenBreakdown.

Module WorkspaceContextResponse.
Record t := Mk { context : string; context_hash : string; tokens : TokenBreakdown.t }.
End WorkspaceContextResponse.

Module IncludeSet.
Record t := Mk {
  file_map : bool;
  contents : bool;
  tokens : bool;
  git_diff : bool;
  meta_prompts : bool;
  tree : bool;
  code : bool }.

Definition of_sections (sections : list WorkspaceContextInclude.t) : t :=
  let has section := bool_decide (section ∈ sections) in
  Mk (has WorkspaceContextInclude.FileMap) (has WorkspaceContextInclude.Contents)
    (has WorkspaceContextInclude.Tokens) (has WorkspaceContextInclude.GitDiff)
    (has WorkspaceContextInclude.MetaPrompts) (has WorkspaceContextInclude.Tree)
    (has WorkspaceContextInclude.Code).

Definition from_request (request : WorkspaceContextRequest.t) : t :=
  let recipe :=
    name ← request.(WorkspaceContextRequest.recipe);
    if String.eqb name "manual" then None else recipe_by_name name in
  match recipe, request.(WorkspaceContextRequest.include) with
  | Some recipe, _ => of_sections recipe.(ContextRecipe.sections)
  | None, [] => Mk true true false false false false false
  | None, sections => of_sections sections
  end.
End IncludeSet.

Module SelectedFile.
Record t := Mk {
  key : SelectionKey; entry : CatalogEntry.t; display_path : string; mode : SelectionMode.t }.
End SelectedFile.

Module RenderedFile.
Record t := Mk { text : string; tokens : FileTokens.t }.
End RenderedFile.

(** The rendered files by key and mode; of two entries of one pair the first counts. *)
Module RenderCache.
Record t := Mk { generation : nat; entries : list ((SelectionKey * SelectionMode.t) * RenderedFile.t) }.
Definition new (generation : nat) : t := Mk generation [].

Fixpoint find (key : SelectionKey * SelectionMode.t)
    (entries : list ((SelectionKey * SelectionMode.t) * RenderedFile.t)) : option RenderedFile.t :=
  match entries with
  | [] => None
  | (k, rendered) :: entries => if decide (k = key) then Some rendered else find key entries
  end.
End RenderCache.

Module FileCodeStructure.
Record t := Mk { path : string; language : string; symbols : list CodeSymbol.t; token_count : N }.
End FileCodeStructure.

Module RenderedSection.
Record t := Mk { text : string; token_count : N }.
End RenderedSection.

(** What the catalog's provider gives. *)
Module CatalogProvider.
Record t := Mk {
  read_bytes : string -> string + NerveError.t;
  code_symbols_for_path : string -> string -> (option ParsedCodeFile.t + string) + NerveError.t;
  display_path : string -> string }.
End CatalogProvider.

(** * Hash *)

Definition rotate_left_1 (byte : N) : N := (N.lor (byte * 2) (byte / 128)) mod 256.

Definition HIGH_OFFSET : u64 := wrap 64 11400714819323198485.
Definition HIGH_PRIME : N := 4294967731.

Definition hash_byte (state : u64 * u64) (byte : ascii) : u64 * u64 :=
  (mix state.1 byte,
   wrap 64 (N.lxor (uval state.2) (rotate_left_1 (Ascii.N_of_ascii byte)) * HIGH_PRIME)).

(** [{hash:032x}] of the two words. *)
Definition context_hash (text : string) : string :=
  let '(low, high) := foldl hash_byte (FNV_OFFSET, HIGH_OFFSET) (String.list_ascii_of_string text) in
  lower (upper_hex 16 (uval high) +:+ upper_hex 16 (uval low)).

(** * [label.rs] *)

(** [char::is_control]: the two ranges of control characters. *)
Definition is_control (ch : string) : bool :=
  match ch with
  | String c EmptyString => let n := Ascii.nat_of_ascii c in (n <? 32) || (n =? 127)
  | String c (String d EmptyString) => Ascii.eqb c "194" && in_range 128 159 d
  | _ => false
  end.

Definition is_blank_control (ch : string) : bool :=
  String.eqb ch lf || String.eqb ch cr || String.eqb ch (String "009" EmptyString).

Definition sanitize_label (value : string) : string :=
  concat_str
    (map (fun ch => if is_blank_control ch then " " else ch)
       (List.filter (fun ch => negb (is_control ch) || is_blank_control ch) (chars value))).

Definition range_label (range : LineRange.t) : string :=
  let lines :=
    "lines " +:+ show_nat range.(LineRange.start_line) +:+ "-" +:+ show_nat range.(LineRange.end_line) in
  match sanitize_label <$> range.(LineRange.label) with
  | Some label => if String.eqb (trim label) EmptyString then lines else label
  | None => lines
  end.

Definition escape_attr (value : string) : string :=
  replace_str ">" "&gt;"
    (replace_str "<" "&lt;" (replace_str dquote "&quot;" (replace_str "&" "&amp;" value))).

(** * Sections of text *)

Definition attr (name value : string) : string := name +:+ "=" +:+ dquote +:+ value +:+ dquote.

Definition render_file_map (files : list SelectedFile.t) : string :=
  join lf
    (["<file_map>"] ++
     map (fun file =>
       "- " +:+ file.(SelectedFile.display_path) +:+ " [" +:+ mode_name file.(SelectedFile.mode) +:+ "]") files ++
     ["</file_map>"]).

Definition render_instructions (instructions : string) : string :=
  "<instructions>" +:+ lf +:+ instructions +:+ lf +:+ "</instructions>".

Definition render_git_diff (diff : string) : string :=
  "<git_diff>" +:+ lf +:+ trim_end diff +:+ lf +:+ "</git_diff>".

Definition blank_line : string := lf +:+ lf.

Definition render_meta_prompts (prompts : list MetaPrompt.t) : string :=
  join blank_line
    (imap (fun i prompt =>
       let n := show_nat (i + 1) in
       "<meta prompt " +:+ attr n prompt.(MetaPrompt.title) +:+ ">" +:+ lf +:+
       prompt.(MetaPrompt.body) +:+ lf +:+ "</meta prompt " +:+ n +:+ ">") prompts).

Definition resolve_meta_prompts (request : WorkspaceContextRequest.t) : list MetaPrompt.t :=
  match request.(WorkspaceContextRequest.meta_prompts) with
  | [] =>
      match request.(WorkspaceContextRequest.recipe) ≫= recipe_by_name with
      | Some recipe => map (fun '(title, body) => MetaPrompt.Mk title body) recipe.(ContextRecipe.meta_prompts)
      | None => []
      end
  | prompts => prompts
  end.

Definition render_member (member : CodeMember.t) : string :=
  "    - " +:+ default member.(CodeMember.name) member.(CodeMember.signature) +:+ lf.

Definition render_symbol (symbol : CodeSymbol.t) : string :=
  (match symbol.(CodeSymbol.signature) with
   | Some signature =>
       "  " +:+ symbol.(CodeSymbol.kind) +:+ " (" +:+ show_nat symbol.(CodeSymbol.line) +:+ "): " +:+
       signature +:+ lf
   | None =>
       "  " +:+ symbol.(CodeSymbol.kind) +:+ " " +:+ symbol.(CodeSymbol.name) +:+ " (" +:+
       show_nat symbol.(CodeSymbol.line) +:+ ")" +:+ lf
   end) +:+ concat_str (map render_member symbol.(CodeSymbol.members)).

Definition render_file_codemap (file : FileCodeStructure.t) : string :=
  file.(FileCodeStructure.path) +:+ lf +:+ concat_str (map render_symbol file.(FileCodeStructure.symbols)).

Definition render_codemap_signature (structure : FileCodeStructure.t) : string :=
  join lf
    (("language: " +:+ structure.(FileCodeStructure.language)) ::
     map (fun symbol =>
       "- " +:+ symbol.(CodeSymbol.kind) +:+ " " +:+ symbol.(CodeSymbol.name) +:+ " @ line " +:+
       show_nat symbol.(CodeSymbol.line)) structure.(FileCodeStructure.symbols) ++ [EmptyString]).

(** [BTreeMap]'s order of the keys. *)
Definition key_leb : SelectionKey -> SelectionKey -> bool := lex_leb string_leb string_leb.

Definition ordered (selection : Selection) : list (SelectionKey * SelectionMode.t) :=
  sort_on key_leb fst (map_to_list selection).

(** Of two entries with one key the last is in the map. *)
Definition entry_of_key (snapshot : CatalogSnapshot.t) (key : SelectionKey) : option CatalogEntry.t :=
  List.find (fun entry => bool_decide (selection_key entry = key)) (rev snapshot.(CatalogSnapshot.entries)).

Definition count_break (text : string) : nat := length (CodeGraph.split_inclusive text) `max` 1.

(** The lines of a range, cut to the text. *)
Definition slice_of (text : string) (range : LineRange.t) : string :=
  match CodeGraph.split_inclusive text with
  | [] => EmptyString
  | segments =>
      let start := (range.(LineRange.start_line) `max` 1) `min` length segments in
      let end_ := (range.(LineRange.end_line) `max` start) `min` length segments in
      concat_str (drop (start - 1) (take end_ segments))
  end.

Definition fenced (text : string) : string := "```text" +:+ lf +:+ text +:+ "```" +:+ lf.

Definition file_open (display_path mode : string) : string :=
  "<file " +:+ attr "path" display_path +:+ " " +:+ attr "mode" mode +:+ ">" +:+ lf.

Section assembly.
Context (tokenizer : option (string -> N)) (lossy : string -> string).
(** [serde_json::to_string_pretty] of the breakdown. *)
Context (to_string_pretty : TokenBreakdown.t -> string).
Context (provider : CatalogProvider.t).
Notation count_tokens := (count_tokens tokenizer).

(** * [files.rs] *)

Definition file_tokens (selected : SelectedFile.t) (token_count : N) (rendered_text : string)
    (segments : list SegmentTokens.t) : FileTokens.t :=
  FileTokens.Mk selected.(SelectedFile.key).1 selected.(SelectedFile.key).2
    selected.(SelectedFile.display_path) (mode_name selected.(SelectedFile.mode))
    (context_hash rendered_text) token_count segments.

Definition rendered (selected : SelectedFile.t) (text : string) (segments : list SegmentTokens.t)
    : RenderedFile.t := RenderedFile.Mk text (file_tokens selected (count_tokens text) text segments).

Definition render_full_file (selected : SelectedFile.t) : RenderedFile.t + NerveError.t :=
  try? bytes := provider.(CatalogProvider.read_bytes) selected.(SelectedFile.entry).(CatalogEntry.abs_path) in
  let content := lossy bytes in
  inl (rendered selected
         (file_open selected.(SelectedFile.display_path) "full" +:+ fenced content +:+ "</file>")
         [SegmentTokens.Mk "full" (Some 1) (Some (count_break content)) (count_tokens content)]).

Definition render_slice (content : string) (range : LineRange.t) : string :=
  "<slice " +:+
  attr "lines" (show_nat range.(LineRange.start_line) +:+ "-" +:+ show_nat range.(LineRange.end_line)) +:+
  " " +:+ attr "description" (escape_attr (range_label range)) +:+ ">" +:+ lf +:+
  fenced (slice_of content range) +:+ "</slice>" +:+ lf.

Definition render_slices_file (selected : SelectedFile.t) (ranges : list LineRange.t)
    : RenderedFile.t + NerveError.t :=
  try? bytes := provider.(CatalogProvider.read_bytes) selected.(SelectedFile.entry).(CatalogEntry.abs_path) in
  let content := lossy bytes in
  inl (rendered selected
         (file_open selected.(SelectedFile.display_path) "slices" +:+
          concat_str (map (render_slice content) ranges) +:+ "</file>")
         (map (fun range =>
            SegmentTokens.Mk (range_label range) (Some range.(LineRange.start_line))
              (Some range.(LineRange.end_line)) (count_tokens (slice_of content range))) ranges)).

Definition render_codemap_file (selected : SelectedFile.t) : RenderedFile.t + NerveError.t :=
  let entry := selected.(SelectedFile.entry) in
  try? parsed :=
    provider.(CatalogProvider.code_symbols_for_path) entry.(CatalogEntry.abs_path) entry.(CatalogEntry.rel_path) in
  let '(codemap_text, segment_tokens) :=
    match parsed with
    | inl (Some parsed) =>
        let text :=
          render_codemap_signature
            (FileCodeStructure.Mk entry.(CatalogEntry.rel_path) parsed.(ParsedCodeFile.language)
               parsed.(ParsedCodeFile.symbols) 0) in
        (text, count_tokens text)
    | inl None => ("unsupported file for codemap" +:+ lf, 0%N)
    | inr message => ("codemap error: " +:+ message +:+ lf, 0%N)
    end in
  inl (rendered selected
         (file_open selected.(SelectedFile.display_path) "codemap_only" +:+ fenced codemap_text +:+ "</file>")
         [SegmentTokens.Mk "codemap" None None segment_tokens]).

Definition render_selected_file (selected : SelectedFile.t) : RenderedFile.t + NerveError.t :=
  match selected.(SelectedFile.mode) with
  | SelectionMode.Full => render_full_file selected
  | SelectionMode.Slices ranges => render_slices_file selected ranges
  | SelectionMode.CodemapOnly => render_codemap_file selected
  end.

(** * [sections.rs] *)

Definition wrap_section (name body : string) : RenderedSection.t :=
  let text := "<" +:+ name +:+ ">" +:+ lf +:+ trim_end body +:+ "</" +:+ name +:+ ">" in
  RenderedSection.Mk text (count_tokens text).

Definition render_selected_tree (snapshot : CatalogSnapshot.t) (selection : Selection) : RenderedSection.t :=
  let r :=
    get_selected_file_tree_with_selection snapshot (FileTreeOptions.Mk TreeMode.Auto None None) selection in
  let body :=
    (match r.(FileTreeResponse.note) with Some note => "note: " +:+ note +:+ lf | None => EmptyString end) +:+
    (if r.(FileTreeResponse.uses_legend) then "legend: * selected, + codemap-capable" +:+ lf else EmptyString) +:+
    (if String.eqb r.(FileTreeResponse.tree) EmptyString then EmptyString
     else trim_end r.(FileTreeResponse.tree) +:+ lf) in
  wrap_section "file_tree" (if String.eqb body EmptyString then "(no selected files)" +:+ lf else body).

Fixpoint code_of_entries (entries : list CatalogEntry.t) : (string * nat) + NerveError.t :=
  match entries with
  | [] => inl (EmptyString, 0)
  | entry :: entries =>
      try? parsed :=
        provider.(CatalogProvider.code_symbols_for_path) entry.(CatalogEntry.abs_path)
          entry.(CatalogEntry.rel_path) in
      try? rest := code_of_entries entries in
      let display_path := provider.(CatalogProvider.display_path) entry.(CatalogEntry.abs_path) in
      inl (match parsed with
           | inl (Some parsed) =>
               (render_file_codemap
                  (FileCodeStructure.Mk display_path parsed.(ParsedCodeFile.language)
                     parsed.(ParsedCodeFile.symbols) 0) +:+ rest.1, rest.2)
           | inl None => (rest.1, S rest.2)
           | inr message => (display_path +:+ lf +:+ "  error: " +:+ message +:+ lf +:+ rest.1, rest.2)
           end)
  end.

Definition render_selected_code (snapshot : CatalogSnapshot.t) (selection : Selection)
    : RenderedSection.t + NerveError.t :=
  try? code := code_of_entries (omap (fun file => entry_of_key snapshot file.1) (ordered selection)) in
  let '(body, omitted) := code in
  let body := if String.eqb body EmptyString then "(no symbols)" +:+ lf else body in
  inl (wrap_section "code_structure"
         (if 0 <? omitted
          then body +:+ "(" +:+ show_nat omitted +:+
               " selected files omitted: unsupported or no symbols)" +:+ lf
          else body)).

(** * Assembly *)

Definition selected_entries (snapshot : CatalogSnapshot.t) (selection : Selection) : list SelectedFile.t :=
  omap (fun '(key, mode) =>
      (fun entry =>
         SelectedFile.Mk key entry
           (provider.(CatalogProvider.display_path) entry.(CatalogEntry.abs_path)) mode) <$>
        entry_of_key snapshot key)
    (ordered selection).

Definition render_selected_file_cached (selected : SelectedFile.t) (cache : RenderCache.t)
    : (RenderedFile.t * RenderCache.t) + NerveError.t :=
  let key := (selected.(SelectedFile.key), selected.(SelectedFile.mode)) in
  match RenderCache.find key cache.(RenderCache.entries) with
  | Some rendered => inl (rendered, cache)
  | None =>
      try? rendered := render_selected_file selected in
      inl (rendered, RenderCache.Mk cache.(RenderCache.generation)
                       ((key, rendered) :: cache.(RenderCache.entries)))
  end.

Fixpoint render_files (selected : list SelectedFile.t) (cache : RenderCache.t)
    : (list RenderedFile.t * RenderCache.t) + NerveError.t :=
  match selected with
  | [] => inl ([], cache)
  | file :: selected =>
      try? r := render_selected_file_cached file cache in
      try? rest := render_files selected r.2 in
      inl (r.1 :: rest.1, rest.2)
  end.

(** The tokens of a section that may be absent. *)
Definition tokens_of (section : option string) : N :=
  match section with Some text => count_tokens text | None => 0%N end.

Definition keep_when {A} (b : bool) (section : option A) : option A := if b then section else None.

Definition append_token_report (context : string) (tokens : TokenBreakdown.t) : string :=
  let report := "<tokens>" +:+ lf +:+ to_string_pretty tokens +:+ lf +:+ "</tokens>" in
  if String.eqb context EmptyString then report else context +:+ blank_line +:+ report.

Definition workspace_context_for_selection_cached (snapshot : CatalogSnapshot.t) (selection : Selection)
    (request : WorkspaceContextRequest.t) (cache : RenderCache.t)
    : (WorkspaceContextResponse.t * RenderCache.t) + NerveError.t :=
  let include := IncludeSet.from_request request in
  let selected := selected_entries snapshot selection in
  let file_map := render_file_map selected in
  let file_tree :=
    keep_when include.(IncludeSet.tree) (Some (render_selected_tree snapshot selection)) in
  try? code_structure :=
    if include.(IncludeSet.code)
    then try? code := render_selected_code snapshot selection in inl (Some code)
    else inl None in
  try? files := render_files selected cache in
  let '(rendered_files, cache) := files in
  let files := map RenderedFile.tokens rendered_files in
  let contents_text := join blank_line (map RenderedFile.text rendered_files) in
  let git_diff :=
    diff ← keep_when include.(IncludeSet.git_diff) request.(WorkspaceContextRequest.git_diff);
    if String.eqb (trim diff) EmptyString then None else Some (render_git_diff diff) in
  let meta_prompts :=
    if include.(IncludeSet.meta_prompts) then
      match resolve_meta_prompts request with [] => None | prompts => Some (render_meta_prompts prompts) end
    else None in
  let instructions := render_instructions <$> request.(WorkspaceContextRequest.instructions) in
  let sections :=
    omap id
      [keep_when include.(IncludeSet.file_map) (Some file_map);
       RenderedSection.text <$> file_tree;
       RenderedSection.text <$> code_structure;
       keep_when (include.(IncludeSet.contents) && negb (String.eqb contents_text EmptyString))
         (Some contents_text);
       git_diff; meta_prompts; instructions] in
  let context := join blank_line sections in
  let tokens :=
    TokenBreakdown.Mk (count_tokens context)
      (tokens_of (keep_when include.(IncludeSet.file_map) (Some file_map)))
      (tokens_of instructions)
      (if include.(IncludeSet.contents)
       then foldl N.add 0%N (map FileTokens.token_count files) else 0%N)
      (match file_tree with Some s => s.(RenderedSection.token_count) | None => 0%N end)
      (match code_structure with Some s => s.(RenderedSection.token_count) | None => 0%N end)
      (tokens_of git_diff) (tokens_of meta_prompts) files in
  let context := if include.(IncludeSet.tokens) then append_token_report context tokens else context in
  inl (WorkspaceContextResponse.Mk context (context_hash context) tokens, cache).

Definition workspace_context_for_selection (snapshot : CatalogSnapshot.t) (selection : Selection)
    (request : WorkspaceContextRequest.t) : WorkspaceContextResponse.t + NerveError.t :=
  try? r := workspace_context_for_selection_cached snapshot selection request
              (RenderCache.new snapshot.(CatalogSnapshot.generation)) in
  inl r.1.
End assembly.

Lemma bind_inl {A B} (r : A + NerveError.t) (k : A -> B + NerveError.t) b :
  bind_result r k = inl b -> exists a, r = inl a /\ k a = inl b.
Proof. destruct r as [a|e]; [|done]. by exists a. Qed.

(** Takes apart a run that gave a result. *)
Ltac invert_ok H :=
  let a := fresh "r" in let E := fresh "E" in
  apply bind_inl in H as (a & E & H); cbn beta iota in H.

Section assembly.
Context (tokenizer : option (string -> N)) (lossy : string -> string).
Context (to_string_pretty : TokenBreakdown.t -> string).
Context (provider : CatalogProvider.t) (snapshot : CatalogSnapshot.t).
Notation render := (render_selected_file tokenizer lossy provider).
Notation cached := (workspace_context_for_selection_cached tokenizer lossy to_string_pretty provider snapshot).

(** A file as a selection of the snapshot gives it. *)
Definition selects (file : SelectedFile.t) : Prop :=
  entry_of_key snapshot file.(SelectedFile.key) = Some file.(SelectedFile.entry) /\
  file.(SelectedFile.display_path) =
    provider.(CatalogProvider.display_path) file.(SelectedFile.entry).(CatalogEntry.abs_path).

Definition cache_ok (cache : RenderCache.t) : Prop :=
  forall file r, selects file ->
    RenderCache.find (file.(SelectedFile.key), file.(SelectedFile.mode)) cache.(RenderCache.entries) = Some r ->
    render file = inl r.

Lemma new_cache_ok generation : cache_ok (RenderCache.new generation).
Proof. done. Qed.

Lemma selects_unique f g :
  selects f -> selects g -> f.(SelectedFile.key) = g.(SelectedFile.key) ->
  f.(SelectedFile.mode) = g.(SelectedFile.mode) -> f = g.
Proof. destruct f, g. unfold selects. cbn. intros [E ->] [F ->] -> ->. by simplify_eq. Qed.

Lemma selected_entries_select selection file :
  file ∈ selected_entries provider snapshot selection -> selects file.
Proof.
  unfold selected_entries. intros ([key mode] & _ & E)%list_elem_of_omap.
  destruct (entry_of_key snapshot key) eqn:K; [|done]. cbn in E. by simplify_eq.
Qed.

Fixpoint render_plain (selected : list SelectedFile.t) : list RenderedFile.t + NerveError.t :=
  match selected with
  | [] => inl []
  | file :: selected =>
      try? r := render file in try? rest := render_plain selected in inl (r :: rest)
  end.

Lemma render_cached_plain file cache :
  selects file -> cache_ok cache ->
  match render_selected_file_cached tokenizer lossy provider file cache with
  | inl (r, cache) => render file = inl r /\ cache_ok cache
  | inr e => render file = inr e
  end.
Proof.
  intros S C. unfold render_selected_file_cached. destruct (RenderCache.find _ _) as [r|] eqn:F.
  - split; [by apply C|done].
  - destruct (render file) as [r|e] eqn:R; [|done]. cbn. split; [done|].
    intros other r' S' F'. cbn in F'. destruct (decide _) as [K|]; [|by apply C].
    injection K as K1 K2. rewrite (selects_unique other file) by done. by simplify_eq.
Qed.

Lemma render_files_plain selected cache :
  (forall file, file ∈ selected -> selects file) -> cache_ok cache ->
  match render_files tokenizer lossy provider selected cache with
  | inl (rs, cache) => render_plain selected = inl rs /\ cache_ok cache
  | inr e => render_plain selected = inr e
  end.
Proof.
  revert cache. induction selected as [|file selected IH]; intros cache S C; [done|]. cbn.
  pose proof (render_cached_plain file cache (S file ltac:(left)) C) as F.
  destruct (render_selected_file_cached _ _ _ _ _) as [[r c]|e]; cbn; [|by rewrite F].
  destruct F as [-> F]. cbn.
  specialize (IH c (fun f H => S f ltac:(by right)) F).
  destruct (render_files _ _ _ _ _) as [[rs c']|e]; cbn; [|by rewrite IH].
  by destruct IH as [-> ?].
Qed.

Lemma render_plain_length selected rs :
  render_plain selected = inl rs -> Forall2 (fun file r => render file = inl r) selected rs.
Proof.
  revert rs. induction selected as [|file selected IH]; intros rs H; cbn in H; [by simplify_eq; constructor|].
  invert_ok H. invert_ok H. simplify_eq. constructor; [done|]. by apply IH.
Qed.
End assembly.

Section equivalence.
Context (tokenizer : option (string -> N)) (lossy : string -> string).
Context (to_string_pretty : TokenBreakdown.t -> string).
Context (provider : CatalogProvider.t) (snapshot : CatalogSnapshot.t).

(** With a cache whose entries are what rendering would give, assembling a context returns the very
    response or error that assembling with no cache returns, and leaves such a cache. *)
Lemma cached_context_ok selection request cache :
  cache_ok tokenizer lossy provider snapshot cache ->
  match workspace_context_for_selection_cached tokenizer lossy to_string_pretty provider snapshot selection
          request cache with
  | inl (r, cache) =>
      workspace_context_for_selection tokenizer lossy to_string_pretty provider snapshot selection request =
        inl r /\
      cache_ok tokenizer lossy provider snapshot cache
  | inr e =>
      workspace_context_for_selection tokenizer lossy to_string_pretty provider snapshot selection request =
        inr e
  end.
Proof.
  intros C. unfold workspace_context_for_selection, workspace_context_for_selection_cached.
  cbn zeta. generalize (IncludeSet.from_request request). intros include.
  destruct (if IncludeSet.code include then _ else _) as [code|e]; [|done].
  cbn [bind_result].
  pose proof (render_files_plain tokenizer lossy provider snapshot
    (selected_entries provider snapshot selection)) as P.
  pose proof (P cache (selected_entries_select provider snapshot selection) C) as P1.
  pose proof (P (RenderCache.new snapshot.(CatalogSnapshot.generation))
    (selected_entries_select provider snapshot selection) (new_cache_ok _ _ _ _ _)) as P2.
  destruct (render_files _ _ _ _ cache) as [[rs c]|e], (render_files _ _ _ _ (RenderCache.new _)) as [[rs' c']|e'];
    cbn [bind_result fst]; destruct_and?; try congruence.
  replace rs' with rs by congruence. done.
Qed.

(** Contexts assembled one after another with one cache. *)
Fixpoint contexts (requests : list (Selection * WorkspaceContextRequest.t)) (cache : RenderCache.t)
    : list WorkspaceContextResponse.t + NerveError.t :=
  match requests with
  | [] => inl []
  | (selection, request) :: requests =>
      try? r :=
        workspace_context_for_selection_cached tokenizer lossy to_string_pretty provider snapshot selection
          request cache in
      try? rest := contexts requests r.2 in
      inl (r.1 :: rest)
  end.

(** The same with none. *)
Fixpoint contexts_afresh (requests : list (Selection * WorkspaceContextRequest.t))
    : list WorkspaceContextResponse.t + NerveError.t :=
  match requests with
  | [] => inl []
  | (selection, request) :: requests =>
      try? r :=
        workspace_context_for_selection tokenizer lossy to_string_pretty provider snapshot selection request in
      try? rest := contexts_afresh requests in
      inl (r :: rest)
  end.

Lemma contexts_ok requests : forall cache,
  cache_ok tokenizer lossy provider snapshot cache -> contexts requests cache = contexts_afresh requests.
Proof.
  induction requests as [|[selection request] requests IH]; intros cache C; [done|]. cbn.
  pose proof (cached_context_ok selection request cache C) as S.
  destruct (workspace_context_for_selection_cached _ _ _ _ _ _ _ _) as [[r c]|e]; cbn; [|by rewrite S].
  destruct S as [-> C']. cbn. by rewrite IH.
Qed.

(** The cache of rendered files is a memo and no more: whatever contexts are assembled one after
    another with one cache, each response, and the first error, is the one that assembling without a
    cache gives. *)
Theorem cached_contexts_spec requests generation :
  contexts requests (RenderCache.new generation) = contexts_afresh requests.
Proof. apply contexts_ok, new_cache_ok. Qed.
End equivalence.
