(* ===== verification/BuildContext.v ===== *)
(** From a query to a context within a token budget, and to citations of lines
    ([nerve-core/src/build_context/]): ranking, greedy allocation, the expansion along references, the
    manifest, and the scout. *)
From stdpp Require Import gmap strings.
From Stdlib Require Import SpecFloat.
From S2P Require Import Prelude Text BTree EditText Paths FlowDefs History CodeGraph Navigate Selection RepoMap.
From S2P Require Import SourceCode Tree Search Assembly Sensitive.
Open Scope nerve_scope.

(** * Floats *)

Definition SEARCH_WEIGHT : f64 := S754_finite false 4953959590107546 (-53).
Definition REPOMAP_WEIGHT : f64 := S754_finite false 6305039478318694 (-54).
Definition PATH_WEIGHT : f64 := S754_finite false 7205759403792794 (-56).
Definition quarter : f64 := S754_finite false 4503599627370496 (-54).
Definition two_million : f64 := S754_finite false 8589934592000000 (-32).

Definition f64_of_Z (z : Z) : f64 := binary_normalize 53 1024 z 0 false.

Definition signed (s : bool) (m : positive) : Z := if s then Z.neg m else Z.pos m.

(** [mul_add]: one rounding of the exact value; where an operand is no finite non-zero number the
    product is exact, or the sum does not depend on it. *)
Definition fma (a b c : f64) : f64 :=
  match a, b, c with
  | S754_finite s1 m1 e1, S754_finite s2 m2 e2, S754_finite s3 m3 e3 =>
      let e := Z.min (e1 + e2) e3 in
      binary_normalize 53 1024
        (signed s1 m1 * signed s2 m2 * 2 ^ (e1 + e2 - e) + signed s3 m3 * 2 ^ (e3 - e)) e false
  | _, _, _ => fadd (fmul a b) c
  end%Z.

(** [f64::max]: the other when one is not a number. *)
Definition fmax (a b : f64) : f64 :=
  match SFcompare a b with
  | Some Lt => b
  | Some _ => a
  | None => match a with S754_nan => b | _ => a end
  end.

(** * Types *)

Definition DEFAULT_MAX_FILES : nat := 20.
Definition SLICE_RADIUS : nat := 2.
Definition REFERENCE_EXPANSION_LIMIT : nat := 8.
Definition DEFAULT_SCOUT_FILES : nat := 12.
Definition MAX_RANGES_PER_FILE : nat := 5.

Module BuildContextRequest.
Record t := Mk { query : string; token_budget : N; max_files : option nat; seed_paths : list string }.
End BuildContextRequest.

Module ScoreBreakdown.
Record t := Mk { search : string; repo_map : string; path : string; total : string; source : string }.
End ScoreBreakdown.

Module AllocationAttempt.
Record t := Mk { mode : string; total_tokens : N; accepted : bool }.
End AllocationAttempt.

Module AllocationTrace.
Record t := Mk {
  path : string;
  display_path : string;
  score : string;
  score_breakdown : ScoreBreakdown.t;
  attempts : list AllocationAttempt.t;
  result : string;
  reason : string }.
End AllocationTrace.

Module IncludedFile.
Record t := Mk {
  path : string;
  display_path : string;
  mode : string;
  tokens : N;
  score : string;
  score_breakdown : ScoreBreakdown.t }.
End IncludedFile.

Module ExcludedFile.
Record t := Mk {
  path : string;
  display_path : string;
  score : string;
  score_breakdown : ScoreBreakdown.t;
  reason : string }.
End ExcludedFile.

Module BuildContextManifest.
Record t := Mk {
  query : string;
  token_budget : N;
  token_used : N;
  included : list IncludedFile.t;
  excluded : list ExcludedFile.t;
  allocation_trace : list AllocationTrace.t;
  sensitive_findings : list SensitiveFinding.t }.
End BuildContextManifest.

Module BuildContextResponse.
Record t := Mk { context : string; manifest : BuildContextManifest.t }.
End BuildContextResponse.

Module Candidate.
Record t := Mk {
  entry : CatalogEntry.t;
  display_path : string;
  score : f64;
  score_breakdown : ScoreBreakdown.t;
  hit_lines : gset nat }.
End Candidate.

Module CandidateBuilder.
Record t := Mk { search_score : f64; repo_score : f64; path_score : f64; hit_lines : gset nat }.
Definition default_ : t := Mk fzero fzero fzero ∅.
End CandidateBuilder.

Module ReferenceExpansionOutcome.
Record t := Mk { excluded : list ExcludedFile.t; allocation_trace : list AllocationTrace.t }.
End ReferenceExpansionOutcome.

Module ScoutRange.
Record t := Mk { start : nat; end_ : nat }.
End ScoutRange.

Module ScoutCitation.
Record t := Mk { path : string; display_path : string; score : string; ranges : list ScoutRange.t }.
End ScoutCitation.

Module ScoutRequest.
Record t := Mk { query : string; max_files : option nat; seed_paths : list string }.
End ScoutRequest.

Module ScoutResponse.
Record t := Mk { query : string; citations : list ScoutCitation.t }.
End ScoutResponse.

(** * Ranking *)

(** The ascending order of a [BTreeSet] of lines. *)
Definition ascending (lines : gset nat) : list nat := sort_by Nat.leb (elements lines).

Definition with_search (b : CandidateBuilder.t) (score : f64) (hit_lines : gset nat) : CandidateBuilder.t :=
  CandidateBuilder.Mk (fadd b.(CandidateBuilder.search_score) score) b.(CandidateBuilder.repo_score)
    b.(CandidateBuilder.path_score) (hit_lines ∪ b.(CandidateBuilder.hit_lines)).

Definition Builders : Type := list (string * CandidateBuilder.t).

Definition update (path : string) (f : CandidateBuilder.t -> CandidateBuilder.t) (builders : Builders)
    : Builders := bt_entry string_leb path CandidateBuilder.default_ f builders.

Definition add_path_hit (builders : Builders) (hit : PathSearchMatch.t) : Builders :=
  update hit.(PathSearchMatch.path)
    (fun b => with_search b (fmul (f64_of_Z (Z.max hit.(PathSearchMatch.score) 0)) quarter) ∅) builders.

Definition add_content_hit (builders : Builders) (hit : ContentSearchMatch.t) : Builders :=
  update hit.(ContentSearchMatch.path)
    (fun b => with_search b (fadd (f64_of_Z (Z.max hit.(ContentSearchMatch.score) 0)) two_million)
                {[hit.(ContentSearchMatch.line)]}) builders.

Definition normalize (value max : f64) : f64 := if SFltb fzero max then fdiv value max else fzero.

Definition fused_score (search repo path : f64) : f64 :=
  fadd (fma search SEARCH_WEIGHT (fmul repo REPOMAP_WEIGHT)) (fmul path PATH_WEIGHT).

Definition is_term_byte (c : ascii) : bool := is_ascii_alphanumeric c || Ascii.eqb c "_".

Definition path_relevance (path query : string) : f64 :=
  let path := lower path in
  match List.filter nonempty (split_outside is_term_byte EmptyString (lower query)) with
  | [] => fzero
  | terms =>
      fdiv (f64_of_nat (length (List.filter (fun term => contains_str term path) terms)))
        (f64_of_nat (length terms))
  end.

(** Descending score, then ascending path; the scores of candidates are positive, where [total_cmp] is
    the order of the numbers. *)
Definition candidate_leb (left right : Candidate.t) : bool :=
  match score_cmp left.(Candidate.score) right.(Candidate.score) with
  | Lt => true
  | Gt => false
  | Eq => string_leb left.(Candidate.entry).(CatalogEntry.rel_path) right.(Candidate.entry).(CatalogEntry.rel_path)
  end.

(** Of the entries with one relative path the last. *)
Definition entry_of_path (snapshot : CatalogSnapshot.t) (path : string) : option CatalogEntry.t :=
  List.find (fun entry => String.eqb entry.(CatalogEntry.rel_path) path)
    (rev snapshot.(CatalogSnapshot.entries)).

(** * Lines of hits *)

Definition hit_line_ranges (lines : gset nat) : list LineRange.t :=
  map (fun line =>
      LineRange.Mk ((line - SLICE_RADIUS) `max` 1) (line + SLICE_RADIUS)
        (Some ("search hit near line " +:+ show_nat line)))
    (take 3 (ascending lines)).

Definition widen (start end_ radius : nat) : ScoutRange.t :=
  ScoutRange.Mk ((start - radius) `max` 1) (end_ + radius).

(** The clusters of the lines after [prev], in one that began at [start]. *)
Fixpoint clusters (start prev : nat) (lines : list nat) : list ScoutRange.t :=
  match lines with
  | [] => [widen start prev SLICE_RADIUS]
  | line :: lines =>
      if SLICE_RADIUS * 2 <? line - prev
      then widen start prev SLICE_RADIUS :: clusters line line lines
      else clusters start line lines
  end.

Definition cluster_ranges (hit_lines : gset nat) : list ScoutRange.t :=
  match ascending hit_lines with
  | [] => []
  | first :: lines => take MAX_RANGES_PER_FILE (clusters first first lines)
  end.

(** * [reference_expansion.rs] *)

Definition is_type_like_symbol (kind : string) : bool :=
  existsb (String.eqb kind)
    ["class"; "struct"; "enum"; "interface"; "trait"; "type"; "typedef"; "record"].

Definition selected_paths (selection : Selection) : gset string := set_map snd (dom selection).

(** The files, not selected, that define a type by a family and a name. *)
Definition definitions_by_name (indexed_files : list IndexedFile.t) (selected : gset string)
    : gmap (string * string) (gset string) :=
  fold_left (fun definitions file =>
      if bool_decide (file.(IndexedFile.path) ∈ selected) then definitions
      else
        fold_left (fun definitions symbol =>
            if negb (is_type_like_symbol symbol.(CodeSymbol.kind)) then definitions
            else
              let key := (language_family file.(IndexedFile.language), symbol.(CodeSymbol.name)) in
              <[key := {[file.(IndexedFile.path)]} ∪ default ∅ (definitions !! key)]> definitions)
          file.(IndexedFile.symbols) definitions)
    indexed_files ∅.

Definition referenced_names (indexed_files : list IndexedFile.t) (selected : gset string)
    : gset (string * string) :=
  list_to_set
    (flat_map (fun file =>
       if bool_decide (file.(IndexedFile.path) ∈ selected)
       then map (fun reference =>
              (language_family (CodeReference.effective_language reference file.(IndexedFile.language)),
               reference.(CodeReference.name))) file.(IndexedFile.references)
       else []) indexed_files).

(** Names with the paths that define them. *)
Definition expansion_candidates (indexed_files : list IndexedFile.t) (selected : gset string)
    : gset (string * string) :=
  let definitions := definitions_by_name indexed_files selected in
  list_to_set
    (flat_map (fun key => map (pair key.2) (elements (default ∅ (definitions !! key))))
       (elements (referenced_names indexed_files selected))).

Definition candidate_paths (candidates : gset (string * string)) : list string :=
  first_seen ∅ (map snd (sort_by (lex_leb string_leb string_leb) (elements candidates))).

(** * The manifest *)

Definition allocation_mode_name (mode : SelectionMode.t) : string := mode_name mode.

(** The trace of a path that is there is replaced, but for its scores; others are added. *)
Fixpoint merge_one (traces : list AllocationTrace.t) (trace : AllocationTrace.t) : list AllocationTrace.t :=
  match traces with
  | [] => [trace]
  | t :: rest =>
      if String.eqb t.(AllocationTrace.path) trace.(AllocationTrace.path) &&
         negb (existsb (fun u => String.eqb u.(AllocationTrace.path) trace.(AllocationTrace.path)) rest)
      then AllocationTrace.Mk t.(AllocationTrace.path) t.(AllocationTrace.display_path)
             t.(AllocationTrace.score) t.(AllocationTrace.score_breakdown)
             trace.(AllocationTrace.attempts) trace.(AllocationTrace.result) trace.(AllocationTrace.reason)
           :: rest
      else t :: merge_one rest trace
  end.

Definition merge_allocation_trace (traces expansion : list AllocationTrace.t) : list AllocationTrace.t :=
  fold_left merge_one expansion traces.

Definition remove_selected_exclusions (excluded : list ExcludedFile.t) (selection : Selection)
    : list ExcludedFile.t :=
  List.filter (fun file => negb (bool_decide (file.(ExcludedFile.path) ∈ selected_paths selection))) excluded.

(** [retain] through [seen.insert]: the first of each path. *)
Fixpoint keep_first (seen : gset string) (files : list ExcludedFile.t) : list ExcludedFile.t :=
  match files with
  | [] => []
  | file :: files =>
      if bool_decide (file.(ExcludedFile.path) ∈ seen) then keep_first seen files
      else file :: keep_first ({[file.(ExcludedFile.path)]} ∪ seen) files
  end.

(** The last exclusion of each path. *)
Definition dedupe_exclusions (excluded : list ExcludedFile.t) : list ExcludedFile.t :=
  rev (keep_first ∅ (rev excluded)).

(** * With a provider *)

(** What the builder takes from elsewhere: the search's world, the tokenizer, the parsers, the text of
    numbers, and the memos of the snapshot's files and graph. *)
Module BuildWorld.
Record t := Mk {
  search : World.t;
  provider : CatalogProvider.t;
  tokenizer : option (string -> N);
  parse : Language.t -> string -> option Syntax.node;
  to_string_pretty : TokenBreakdown.t -> string;
  format_score : f64 -> string;
  show_rank : f64 -> string;
  parse_score : string -> option f64;
  shared_graph : Op ReferenceGraph.t;
  shared_indexed_files : Op (list IndexedFile.t) }.
End BuildWorld.

Section build.
Context (cancelled : nat -> bool) (world : BuildWorld.t) (snapshot : CatalogSnapshot.t).
Notation provider := world.(BuildWorld.provider).
Notation lossy := world.(BuildWorld.search).(World.lossy).
Notation format_score := world.(BuildWorld.format_score).

(** The files of a map with their scores as numbers. *)
Definition ranked_files (r : RepoMapResponse.t) : list (string * f64) :=
  map (fun file =>
      (file.(RepoMapFile.path), default fzero (world.(BuildWorld.parse_score) file.(RepoMapFile.score))))
    r.(RepoMapResponse.files).

Definition from_normalized (search repo_map path total : f64) : ScoreBreakdown.t :=
  ScoreBreakdown.Mk (format_score (fmul search SEARCH_WEIGHT)) (format_score (fmul repo_map REPOMAP_WEIGHT))
    (format_score (fmul path PATH_WEIGHT)) (format_score total) "ranked".

Definition zero_breakdown : ScoreBreakdown.t :=
  ScoreBreakdown.Mk (format_score fzero) (format_score fzero) (format_score fzero) (format_score fzero)
    "not_ranked".

Definition candidate_builders (query : string) (search : SearchResponse.t) (repo_map : RepoMapResponse.t)
    : Builders :=
  let builders := fold_left add_path_hit search.(SearchResponse.path_matches) [] in
  let builders := fold_left add_content_hit search.(SearchResponse.content_matches) builders in
  let builders :=
    fold_left (fun builders '(path, score) =>
        update path (fun b => CandidateBuilder.Mk b.(CandidateBuilder.search_score) score
                                b.(CandidateBuilder.path_score) b.(CandidateBuilder.hit_lines)) builders)
      (ranked_files repo_map) builders in
  fold_left (fun builders entry =>
      let path_score := path_relevance entry.(CatalogEntry.rel_path) query in
      if SFltb fzero path_score
      then update entry.(CatalogEntry.rel_path)
             (fun b => CandidateBuilder.Mk b.(CandidateBuilder.search_score) b.(CandidateBuilder.repo_score)
                         path_score b.(CandidateBuilder.hit_lines)) builders
      else builders)
    snapshot.(CatalogSnapshot.entries) builders.

Definition candidate_of (max_search max_repo : f64) (builder : string * CandidateBuilder.t)
    : option Candidate.t :=
  let '(path, b) := builder in
  entry ← entry_of_path snapshot path;
  let search_score := normalize b.(CandidateBuilder.search_score) max_search in
  let repo_score := normalize b.(CandidateBuilder.repo_score) max_repo in
  let path_score := b.(CandidateBuilder.path_score) in
  let score := fused_score search_score repo_score path_score in
  if SFltb fzero score
  then Some (Candidate.Mk entry (provider.(CatalogProvider.display_path) entry.(CatalogEntry.abs_path)) score
               (from_normalized search_score repo_score path_score score) b.(CandidateBuilder.hit_lines))
  else None.

Definition rank_candidates (query : string) (search : SearchResponse.t) (repo_map : RepoMapResponse.t)
    : list Candidate.t :=
  let builders := candidate_builders query search repo_map in
  let max_of f := fold_left (fun m '(_, b) => fmax m (f b)) builders fzero in
  sort_by candidate_leb
    (omap (candidate_of (max_of CandidateBuilder.search_score) (max_of CandidateBuilder.repo_score)) builders).

Definition search_request (query : string) (max_files : nat) : SearchRequest.t :=
  SearchRequest.Mk query SearchMode.Both false ((max_files * 4) `max` 50) SLICE_RADIUS None None 2048
    (wrap 64 67108864) false [] [] [] OutputMode.Content.

Definition read_text (path : string) : string + NerveError.t :=
  try? bytes := provider.(CatalogProvider.read_bytes) path in inl (lossy bytes).

(** The ranking a context and a scout share; a panic of the repository map is none. *)
Definition ranked_candidates (query : string) (seed_paths : list string) (max_files : nat)
    : Op (option (list Candidate.t)) :=
  do! _ := check_cancelled cancelled in
  do! search := search_snapshot cancelled world.(BuildWorld.search) snapshot (search_request query max_files) in
  do! _ := check_cancelled cancelled in
  do! repo_map :=
    get_repo_map cancelled world.(BuildWorld.show_rank) read_text
      provider.(CatalogProvider.code_symbols_for_path)
      (has_uppercase world.(BuildWorld.search).(World.unicode))
      (length snapshot.(CatalogSnapshot.roots))
      (map (fun entry => Entry.Mk entry.(CatalogEntry.root_id) entry.(CatalogEntry.rel_path)
                           entry.(CatalogEntry.abs_path)) snapshot.(CatalogSnapshot.entries))
      world.(BuildWorld.shared_graph)
      (RepoMapRequest.Mk (Some query) seed_paths ((max_files * 4) `max` 20)) in
  do! _ := check_cancelled cancelled in
  ret (rank_candidates query search <$> repo_map).

(** * [allocation.rs] *)

(** The sections a trial is rendered with. *)
Definition trial_request : WorkspaceContextRequest.t :=
  WorkspaceContextRequest.Mk [WorkspaceContextInclude.FileMap; WorkspaceContextInclude.Contents] None None
    None [].

Definition render (selection : Selection) (cache : RenderCache.t)
    : (WorkspaceContextResponse.t * RenderCache.t) + NerveError.t :=
  workspace_context_for_selection_cached world.(BuildWorld.tokenizer) lossy
    world.(BuildWorld.to_string_pretty) provider snapshot selection trial_request cache.

Definition total_tokens (r : WorkspaceContextResponse.t) : N :=
  r.(WorkspaceContextResponse.tokens).(TokenBreakdown.total_tokens).

Definition full_content_tokens (entry : CatalogEntry.t) : N + NerveError.t :=
  try? r :=
    read_file world.(BuildWorld.parse) provider.(CatalogProvider.read_bytes) lossy
      provider.(CatalogProvider.display_path)
      (ReadFileRequest.Mk entry.(CatalogEntry.abs_path) None None None None) in
  inl (count_tokens world.(BuildWorld.tokenizer) r.(ReadFileResponse.content)).

Definition candidate_modes (candidate : Candidate.t) (token_budget : N)
    : list SelectionMode.t + NerveError.t :=
  let entry := candidate.(Candidate.entry) in
  try? full_tokens := full_content_tokens entry in
  let ranges := hit_line_ranges candidate.(Candidate.hit_lines) in
  try? parsed :=
    provider.(CatalogProvider.code_symbols_for_path) entry.(CatalogEntry.abs_path)
      entry.(CatalogEntry.rel_path) in
  let codemap_supported := match parsed with inl (Some _) => true | _ => false end in
  let has_ranges := match ranges with [] => false | _ => true end in
  let huge_with_hits := (token_budget / 2 <? full_tokens)%N && has_ranges in
  inl (SelectionMode.Full :: (if codemap_supported then [SelectionMode.CodemapOnly] else []) ++
       (if (huge_with_hits || negb codemap_supported) && has_ranges
        then [SelectionMode.Slices ranges] else [])).

Definition allocation_trace (candidate : Candidate.t) (attempts : list AllocationAttempt.t)
    (result reason : string) : AllocationTrace.t :=
  AllocationTrace.Mk candidate.(Candidate.entry).(CatalogEntry.rel_path) candidate.(Candidate.display_path)
    (format_score candidate.(Candidate.score)) candidate.(Candidate.score_breakdown) attempts result reason.

Definition excluded_file (candidate : Candidate.t) (reason : string) : ExcludedFile.t :=
  ExcludedFile.Mk candidate.(Candidate.entry).(CatalogEntry.rel_path) candidate.(Candidate.display_path)
    (format_score candidate.(Candidate.score)) candidate.(Candidate.score_breakdown) reason.

(** The first mode whose rendering is within the budget. *)
Fixpoint try_modes (key : SelectionKey) (modes : list SelectionMode.t) (selection : Selection)
    (token_budget : N) (cache : RenderCache.t)
    : (option Selection * list AllocationAttempt.t * RenderCache.t) + NerveError.t :=
  match modes with
  | [] => inl (None, [], cache)
  | mode :: modes =>
      let next_selection := <[key := mode]> selection in
      try? r := render next_selection cache in
      let '(workspace, cache) := r in
      let accepted := (total_tokens workspace <=? token_budget)%N in
      let attempt := AllocationAttempt.Mk (allocation_mode_name mode) (total_tokens workspace) accepted in
      if accepted then inl (Some next_selection, [attempt], cache)
      else
        try? rest := try_modes key modes selection token_budget cache in
        let '(chosen, attempts, cache) := rest in
        inl (chosen, attempt :: attempts, cache)
  end.

(** The candidates from [ranked] on, under the selection so far. *)
Fixpoint allocate_from (ranked : list Candidate.t) (token_budget : N) (max_files : nat)
    (selection : Selection) (cache : RenderCache.t)
    : (Selection * list ExcludedFile.t * list AllocationTrace.t * RenderCache.t) + NerveError.t :=
  match ranked with
  | [] => inl (selection, [], [], cache)
  | candidate :: rest =>
      if max_files <=? size selection then
        inl (selection, map (fun c => excluded_file c "max_files") ranked,
             map (fun c => allocation_trace c [] "excluded" "max_files") ranked, cache)
      else
        try? modes := candidate_modes candidate token_budget in
        try? tried := try_modes (selection_key candidate.(Candidate.entry)) modes selection token_budget cache in
        let '(chosen, attempts, cache) := tried in
        try? later :=
          allocate_from rest token_budget max_files (default selection chosen) cache in
        let '(final, excluded, trace, cache) := later in
        match chosen with
        | Some _ =>
            inl (final, excluded, allocation_trace candidate attempts "included" "accepted" :: trace, cache)
        | None =>
            inl (final, excluded_file candidate "over_budget" :: excluded,
                 allocation_trace candidate attempts "excluded" "over_budget" :: trace, cache)
        end
  end.

Definition allocate_selection (ranked : list Candidate.t) (token_budget : N) (max_files : nat)
    (cache : RenderCache.t)
    : (Selection * list ExcludedFile.t * list AllocationTrace.t * RenderCache.t) + NerveError.t :=
  allocate_from ranked token_budget max_files ∅ cache.

(** * [reference_expansion.rs], with a provider *)

Definition expansion_excluded_file (entry : CatalogEntry.t) (reason : string) : ExcludedFile.t :=
  ExcludedFile.Mk entry.(CatalogEntry.rel_path)
    (provider.(CatalogProvider.display_path) entry.(CatalogEntry.abs_path)) (format_score fzero)
    zero_breakdown reason.

Definition expansion_trace (entry : CatalogEntry.t) (attempts : list AllocationAttempt.t)
    (result reason : string) : AllocationTrace.t :=
  AllocationTrace.Mk entry.(CatalogEntry.rel_path)
    (provider.(CatalogProvider.display_path) entry.(CatalogEntry.abs_path)) (format_score fzero)
    zero_breakdown attempts result reason.

Definition try_add_codemap (selection : Selection) (entry : CatalogEntry.t) (token_budget : N)
    (cache : RenderCache.t) : (Selection * AllocationAttempt.t * RenderCache.t) + NerveError.t :=
  let key := selection_key entry in
  if bool_decide (is_Some (selection !! key)) then
    inl (selection, AllocationAttempt.Mk "codemap_only" 0 true, cache)
  else
    let next_selection := <[key := SelectionMode.CodemapOnly]> selection in
    try? r := render next_selection cache in
    let '(workspace, cache) := r in
    let accepted := (total_tokens workspace <=? token_budget)%N in
    inl (if accepted then next_selection else selection,
         AllocationAttempt.Mk "codemap_only" (total_tokens workspace) accepted, cache).

Fixpoint expand_paths (paths : list string) (token_budget : N) (selection : Selection)
    (cache : RenderCache.t) : Op (Selection * ReferenceExpansionOutcome.t * RenderCache.t) :=
  match paths with
  | [] => ret (selection, ReferenceExpansionOutcome.Mk [] [], cache)
  | path :: paths =>
      do! _ := check_cancelled cancelled in
      match entry_of_path snapshot path with
      | None => expand_paths paths token_budget selection cache
      | Some entry =>
          do! added := lift_op (try_add_codemap selection entry token_budget cache) in
          let '(selection, attempt, cache) := added in
          do! later := expand_paths paths token_budget selection cache in
          let '(final, outcome, cache) := later in
          let excluded := outcome.(ReferenceExpansionOutcome.excluded) in
          let trace := outcome.(ReferenceExpansionOutcome.allocation_trace) in
          ret (final,
               if attempt.(AllocationAttempt.accepted) then
                 ReferenceExpansionOutcome.Mk excluded
                   (expansion_trace entry [attempt] "included" "reference_expansion" :: trace)
               else
                 ReferenceExpansionOutcome.Mk
                   (expansion_excluded_file entry "reference_expansion_over_budget" :: excluded)
                   (expansion_trace entry [attempt] "excluded" "reference_expansion_over_budget" :: trace),
               cache)
      end
  end.

Definition expand_reference_codemap_selection (selection : Selection) (token_budget : N)
    (cache : RenderCache.t) : Op (Selection * ReferenceExpansionOutcome.t * RenderCache.t) :=
  if bool_decide (selection = ∅) || (token_budget =? 0)%N then
    ret (selection, ReferenceExpansionOutcome.Mk [] [], cache)
  else
    do! indexed_files := world.(BuildWorld.shared_indexed_files) in
    expand_paths
      (take REFERENCE_EXPANSION_LIMIT
         (candidate_paths (expansion_candidates indexed_files (selected_paths selection))))
      token_budget selection cache.

(** * The manifest and the response *)

(** Of two candidates with one path the last. *)
Definition included_manifest (workspace : WorkspaceContextResponse.t) (ranked : list Candidate.t)
    : list IncludedFile.t :=
  map (fun file =>
      let candidate :=
        List.find (fun c => String.eqb c.(Candidate.entry).(CatalogEntry.rel_path) file.(FileTokens.path))
          (rev ranked) in
      IncludedFile.Mk file.(FileTokens.path) file.(FileTokens.display_path) file.(FileTokens.mode)
        file.(FileTokens.token_count)
        (format_score (from_option Candidate.score fzero candidate))
        (from_option Candidate.score_breakdown zero_breakdown candidate))
    workspace.(WorkspaceContextResponse.tokens).(TokenBreakdown.files).

(** A context of nothing that is over the budget is dropped. *)
Definition drop_empty_over_budget (selection : Selection) (token_budget : N)
    (workspace : WorkspaceContextResponse.t) : WorkspaceContextResponse.t :=
  if bool_decide (selection = ∅) && (token_budget <? total_tokens workspace)%N then
    let tokens := workspace.(WorkspaceContextResponse.tokens) in
    WorkspaceContextResponse.Mk EmptyString workspace.(WorkspaceContextResponse.context_hash)
      (TokenBreakdown.Mk 0 0 tokens.(TokenBreakdown.instructions_tokens) tokens.(TokenBreakdown.contents_tokens)
         tokens.(TokenBreakdown.tree_tokens) tokens.(TokenBreakdown.code_tokens)
         tokens.(TokenBreakdown.git_diff_tokens) tokens.(TokenBreakdown.meta_prompts_tokens)
         tokens.(TokenBreakdown.files))
  else workspace.

Definition build_from_ranked (request : BuildContextRequest.t) (ranked : list Candidate.t)
    : Op BuildContextResponse.t :=
  let max_files := default DEFAULT_MAX_FILES request.(BuildContextRequest.max_files) `max` 1 in
  let token_budget := request.(BuildContextRequest.token_budget) in
  do! allocated :=
    lift_op (allocate_selection ranked token_budget max_files
               (RenderCache.new snapshot.(CatalogSnapshot.generation))) in
  let '(selection, excluded, trace, cache) := allocated in
  do! expanded := expand_reference_codemap_selection selection token_budget cache in
  let '(selection, expansion, _) := expanded in
  let excluded :=
    dedupe_exclusions
      (remove_selected_exclusions (excluded ++ expansion.(ReferenceExpansionOutcome.excluded)) selection) in
  let trace :=
    merge_allocation_trace trace expansion.(ReferenceExpansionOutcome.allocation_trace) in
  do! workspace :=
    lift_op (workspace_context_for_selection world.(BuildWorld.tokenizer) lossy
               world.(BuildWorld.to_string_pretty) provider snapshot selection trial_request) in
  let workspace := drop_empty_over_budget selection token_budget workspace in
  do! findings := lift_op (scan_selection lossy provider snapshot selection) in
  ret (BuildContextResponse.Mk workspace.(WorkspaceContextResponse.context)
         (BuildContextManifest.Mk request.(BuildContextRequest.query) token_budget (total_tokens workspace)
            (included_manifest workspace ranked) excluded trace findings)).

(** A panic of the repository map is none. *)
Definition build_context (request : BuildContextRequest.t) : Op (option BuildContextResponse.t) :=
  let max_files := default DEFAULT_MAX_FILES request.(BuildContextRequest.max_files) `max` 1 in
  do! ranked :=
    ranked_candidates request.(BuildContextRequest.query) request.(BuildContextRequest.seed_paths) max_files in
  match ranked with
  | None => ret None
  | Some ranked => do! response := build_from_ranked request ranked in ret (Some response)
  end.

(** * [scout.rs] *)

Definition citation_from_candidate (candidate : Candidate.t) : ScoutCitation.t :=
  ScoutCitation.Mk candidate.(Candidate.entry).(CatalogEntry.rel_path) candidate.(Candidate.display_path)
    (format_score candidate.(Candidate.score)) (cluster_ranges candidate.(Candidate.hit_lines)).

Definition scout (request : ScoutRequest.t) : Op (option ScoutResponse.t) :=
  let max_files := default DEFAULT_SCOUT_FILES request.(ScoutRequest.max_files) `max` 1 in
  do! ranked :=
    ranked_candidates request.(ScoutRequest.query) request.(ScoutRequest.seed_paths) max_files in
  ret ((fun ranked =>
          ScoutResponse.Mk request.(ScoutRequest.query)
            (map citation_from_candidate (take max_files ranked))) <$> ranked).

End build.
