(* ===== verification/BuildContextSpec.v ===== *)
(** What a built context promises, and the lines a scout cites. *)
From stdpp Require Import gmap strings.
From Stdlib Require Import SpecFloat.
From S2P Require Import Prelude Text BTree EditText Paths FlowDefs History CodeGraph Navigate Selection RepoMap.
From S2P Require Import SourceCode Tree Search SearchSpec Assembly Sensitive BuildContext.
Open Scope nerve_scope.

(** * Lines of hits *)

Lemma elem_of_ascending lines l : l ∈ ascending lines <-> l ∈ lines.
Proof. unfold ascending. by rewrite <- sort_by_perm, elem_of_elements. Qed.

Lemma ascending_sorted lines : StronglySorted lt (ascending lines).
Proof.
  assert (StronglySorted (fun a b => Nat.leb a b = true) (ascending lines)) as S
    by (apply sort_by_strongly_sorted; intros *; [apply leb_total|apply leb_trans]).
  assert (NoDup (ascending lines)) as N
    by (unfold ascending; rewrite <- sort_by_perm; apply NoDup_elements).
  induction S as [|x l S IH F]; [constructor|]. apply NoDup_cons in N as [N1 N2].
  constructor; [by apply IH|]. rewrite Forall_forall in F |- *. intros y I.
  specialize (F y I). apply Nat.leb_le in F. destruct (decide (x = y)) as [->|]; [done|lia].
Qed.

(** Ranges in order with a line between each two. *)
Definition apart (a b : ScoutRange.t) : Prop := a.(ScoutRange.end_) < b.(ScoutRange.start).
Definition covers (r : ScoutRange.t) (line : nat) : Prop :=
  r.(ScoutRange.start) <= line <= r.(ScoutRange.end_).
Definition near (hit line : nat) : Prop := hit <= line + SLICE_RADIUS /\ line <= hit + SLICE_RADIUS.

Lemma clusters_spec lines : forall start prev,
  start <= prev -> StronglySorted lt (prev :: lines) ->
  StronglySorted apart (clusters start prev lines) /\
  (forall r, r ∈ clusters start prev lines -> (start - SLICE_RADIUS) `max` 1 <= r.(ScoutRange.start)) /\
  (forall line, 1 <= line ->
    Exists (fun r => covers r line) (clusters start prev lines) <->
    (start <= line + SLICE_RADIUS /\ line <= prev + SLICE_RADIUS) \/ Exists (fun hit => near hit line) lines).
Proof.
  unfold covers, near, SLICE_RADIUS.
  induction lines as [|next lines IH]; intros start prev L S; cbn [clusters].
  { split_and!; [by repeat constructor|intros r ->%list_elem_of_singleton; cbn; unfold SLICE_RADIUS; lia|].
    intros line P. rewrite Exists_cons, !Exists_nil. cbn. unfold SLICE_RADIUS. lia. }
  inversion_clear S as [|? ? S' F]. inversion F as [|? ? N _]; subst.
  unfold SLICE_RADIUS. destruct (Nat.ltb_spec (2 * 2) (next - prev)).
  - destruct (IH next next ltac:(done) S') as (SS & FST & COV). unfold SLICE_RADIUS in FST.
    split_and!.
    + constructor; [done|]. rewrite Forall_forall. intros r I. specialize (FST r I).
      unfold apart. cbn. unfold SLICE_RADIUS. lia.
    + intros r [->|I]%elem_of_cons; [cbn; lia|]. specialize (FST r I). lia.
    + intros line P. rewrite !Exists_cons, COV by done. cbn. split; intros; intuition lia.
  - destruct (IH start next ltac:(lia) S') as (SS & FST & COV). split_and!; [done|done|].
    intros line P. rewrite COV, Exists_cons by done. split; [|intuition lia].
    intros [[A B]|?]; [|auto]. destruct (decide (line <= prev + 2)); [by left|]. right. left. lia.
Qed.

(** A scout's citations of a file are, up to the first five, disjoint ranges in ascending order whose
    lines are exactly those within two lines of a hit. *)
Theorem cluster_ranges_spec hits : exists more,
  let ranges := cluster_ranges hits ++ more in
  length (cluster_ranges hits) = MAX_RANGES_PER_FILE `min` length ranges /\
  StronglySorted (fun a b => a.(ScoutRange.end_) < b.(ScoutRange.start)) ranges /\
  forall line, 1 <= line ->
    (exists r, r ∈ ranges /\ r.(ScoutRange.start) <= line <= r.(ScoutRange.end_)) <->
    (exists hit, hit ∈ hits /\ hit <= line + SLICE_RADIUS /\ line <= hit + SLICE_RADIUS).
Proof.
  unfold cluster_ranges. pose proof (ascending_sorted hits) as S. pose proof (elem_of_ascending hits) as E.
  destruct (ascending hits) as [|first lines].
  { exists []. split_and!; [done|constructor|]. intros line _. split; [by intros (r & ?%not_elem_of_nil & _)|].
    by intros (hit & ?%E%not_elem_of_nil & _). }
  destruct (clusters_spec lines first first ltac:(done) S) as (SS & _ & COV).
  exists (drop MAX_RANGES_PER_FILE (clusters first first lines)). cbn zeta. rewrite take_drop.
  split_and!; [by rewrite length_take|done|]. intros line P.
  specialize (COV line P). rewrite !Exists_exists in COV. setoid_rewrite <- E.
  setoid_rewrite elem_of_cons. unfold covers, near in COV.
  etransitivity; [exact COV|]. split; [|intros (h & [->|I] & H); [by left|by right; exists h]].
  intros [H|(h & I & H)]; [exists first|exists h]; auto.
Qed.

(** * Ranking *)

Lemma entry_of_path_rel snapshot path entry :
  entry_of_path snapshot path = Some entry -> entry.(CatalogEntry.rel_path) = path.
Proof. unfold entry_of_path. by intros [_ E%String.eqb_eq]%List.find_some. Qed.

(** The entry a path stands for: the last of those that have it. *)
Definition last_of_path (snapshot : CatalogSnapshot.t) (entry : CatalogEntry.t) : Prop :=
  entry_of_path snapshot entry.(CatalogEntry.rel_path) = Some entry.

Lemma entry_of_path_last snapshot path entry :
  entry_of_path snapshot path = Some entry -> last_of_path snapshot entry.
Proof. unfold last_of_path. intros E. by rewrite (entry_of_path_rel _ _ _ E). Qed.

Lemma last_of_path_in snapshot entry :
  last_of_path snapshot entry -> entry ∈ snapshot.(CatalogSnapshot.entries).
Proof. intros [I _]%List.find_some. rewrite list_elem_of_In. by apply in_rev. Qed.

Lemma rank_candidates_last world snapshot query search repo_map c :
  c ∈ rank_candidates world snapshot query search repo_map -> last_of_path snapshot c.(Candidate.entry).
Proof.
  unfold rank_candidates. cbn zeta. rewrite <- sort_by_perm, list_elem_of_omap.
  intros ([path b] & _ & E). unfold candidate_of in E.
  destruct (entry_of_path snapshot path) as [entry|] eqn:P; [|done]. cbn in E.
  destruct (SFltb _ _); [|done]. injection E as <-. by eapply entry_of_path_last.
Qed.

Lemma bind_op_inl {A B} (m : Op A) (k : A -> Op B) n b n' :
  bind_op m k n = (inl b, n') -> exists a n1, m n = (inl a, n1) /\ k a n1 = (inl b, n').
Proof. unfold bind_op. destruct (m n) as [[a|e] n1]; [|done]. by exists a, n1. Qed.

Lemma lift_op_inl {A} (r : A + NerveError.t) n a n' : lift_op r n = (inl a, n') -> r = inl a /\ n' = n.
Proof. unfold lift_op. by intros [= -> ->]. Qed.

(** Takes apart an operation that gave a result. *)
Ltac invert_op H :=
  let a := fresh "a" in let n := fresh "n" in let E := fresh "E" in
  apply bind_op_inl in H as (a & n & E & H); cbn beta iota in H;
  try (apply lift_op_inl in E as [E ->]).

Lemma ranked_candidates_last cancelled world snapshot query seeds max_files n ranked n' :
  ranked_candidates cancelled world snapshot query seeds max_files n = (inl (Some ranked), n') ->
  forall c, c ∈ ranked -> last_of_path snapshot c.(Candidate.entry).
Proof.
  intros H. unfold ranked_candidates in H. do 5 invert_op H. unfold ret in H. injection H as H _.
  destruct a2 as [map|]; [|done]. cbn in H. injection H as <-. intros c. apply rank_candidates_last.
Qed.

(** * Selections *)

Section selections.
Context (snapshot : CatalogSnapshot.t).

(** Every key is that of an entry that its path stands for. *)
Definition known (selection : Selection) : Prop :=
  forall key, is_Some (selection !! key) ->
    exists entry, last_of_path snapshot entry /\ selection_key entry = key.

Lemma known_empty : known ∅.
Proof. intros key [m E]. by rewrite lookup_empty in E. Qed.

Lemma known_insert selection entry mode :
  known selection -> last_of_path snapshot entry -> known (<[selection_key entry := mode]> selection).
Proof.
  intros K L key [m E]. destruct (decide (selection_key entry = key)); [by exists entry|].
  rewrite lookup_insert_ne in E by done. by apply K.
Qed.

Lemma known_key_unique selection k k' :
  known selection -> is_Some (selection !! k) -> is_Some (selection !! k') -> k.2 = k'.2 -> k = k'.
Proof.
  intros K (e & L & <-)%K (e' & L' & <-)%K E. cbn in E. unfold last_of_path in L, L'.
  rewrite E in L. by simplify_eq.
Qed.

Lemma entry_of_key_known selection key :
  known selection -> is_Some (selection !! key) -> is_Some (entry_of_key snapshot key).
Proof.
  intros K (e & L & <-)%K. unfold entry_of_key.
  destruct (List.find _ _) eqn:F; [by eexists|].
  apply List.find_none with (x := e) in F; [by rewrite bool_decide_eq_false in F|].
  rewrite <- in_rev, <- list_elem_of_In. by apply last_of_path_in.
Qed.

Lemma ordered_keys (selection : Selection) : (ordered selection).*1 ≡ₚ (map_to_list selection).*1.
Proof. unfold ordered. by rewrite sort_on_perm. Qed.

Lemma selected_entries_keys provider selection :
  known selection ->
  map SelectedFile.key (selected_entries provider snapshot selection) = (ordered selection).*1.
Proof.
  intros K. unfold selected_entries.
  assert (forall km, km ∈ ordered selection -> is_Some (entry_of_key snapshot km.1)) as A.
  { intros [k m] I. unfold ordered in I. rewrite sort_on_perm in I. apply elem_of_map_to_list in I.
    by eapply entry_of_key_known. }
  induction (ordered selection) as [|[k m] l IH]; [done|]. cbn.
  destruct (A (k, m) ltac:(left)) as [e E]. cbn in E. rewrite E. cbn. f_equal.
  apply IH. intros km I. apply A. by right.
Qed.
End selections.

(** * Allocation *)

Section allocation.
Context (cancelled : nat -> bool) (world : BuildWorld.t) (snapshot : CatalogSnapshot.t).
Notation provider := world.(BuildWorld.provider).
Notation lossy := world.(BuildWorld.search).(World.lossy).
Notation cache_ok := (cache_ok world.(BuildWorld.tokenizer) lossy provider snapshot).
Notation known := (known snapshot).

Definition context_of (selection : Selection) : WorkspaceContextResponse.t + NerveError.t :=
  workspace_context_for_selection world.(BuildWorld.tokenizer) lossy world.(BuildWorld.to_string_pretty)
    provider snapshot selection trial_request.

(** Nothing is selected, or what is has a context within the budget. *)
Definition fits (token_budget : N) (selection : Selection) : Prop :=
  selection = ∅ \/ exists r, context_of selection = inl r /\ (total_tokens r <= token_budget)%N.

Definition over (token_budget : N) (selection : Selection) : Prop :=
  exists r, context_of selection = inl r /\ (token_budget < total_tokens r)%N.

Lemma render_ok selection cache r cache' :
  cache_ok cache -> render world snapshot selection cache = inl (r, cache') ->
  context_of selection = inl r /\ cache_ok cache'.
Proof.
  intros C E. pose proof (cached_context_ok world.(BuildWorld.tokenizer) lossy
    world.(BuildWorld.to_string_pretty) provider snapshot selection trial_request cache C) as S.
  unfold render in E. by rewrite E in S.
Qed.

Lemma try_modes_ok key budget selection : forall modes cache chosen attempts cache',
  cache_ok cache ->
  try_modes world snapshot key modes selection budget cache = inl (chosen, attempts, cache') ->
  cache_ok cache' /\
  match chosen with
  | Some next => exists refused mode later, modes = refused ++ mode :: later /\
      next = <[key := mode]> selection /\ fits budget next /\
      Forall (fun m => over budget (<[key := m]> selection)) refused
  | None => Forall (fun m => over budget (<[key := m]> selection)) modes
  end.
Proof.
  induction modes as [|mode modes IH]; intros cache chosen attempts cache' C H; cbn in H; [by simplify_eq|].
  invert_ok H. destruct r as [workspace c]. destruct (render_ok _ _ _ _ C E) as [R C'].
  destruct (N.leb_spec (total_tokens workspace) budget).
  - simplify_eq. split; [done|]. exists [], mode, modes. split_and!; [done|done|right; by eexists|constructor].
  - invert_ok H. destruct r as [[chosen' attempts'] c']. simplify_eq.
    assert (over budget (<[key := mode]> selection)) as O by (by eexists).
    destruct (IH _ _ _ _ C' E0) as [C'' S]. split; [done|]. destruct chosen as [next|]; [|by constructor].
    destruct S as (refused & m & later & -> & -> & F & O').
    exists (mode :: refused), m, later. split_and!; [done|done|done|by constructor].
Qed.

(** What an allocation from a selection to another did. *)
Record allocated (budget : N) (max_files : nat) (ranked : list Candidate.t) (start final : Selection)
    (excluded : list ExcludedFile.t) (trace : list AllocationTrace.t) : Prop := {
  allocated_grows : dom start ⊆ dom final;
  allocated_fits : fits budget final;
  allocated_known : known final;
  allocated_size : size final <= max_files;
  allocated_trace : map AllocationTrace.path trace =
    map (fun c => c.(Candidate.entry).(CatalogEntry.rel_path)) ranked;
  allocated_each : forall c, c ∈ ranked ->
    is_Some (final !! selection_key c.(Candidate.entry)) \/
    c.(Candidate.entry).(CatalogEntry.rel_path) ∈ map ExcludedFile.path excluded }.

Lemma size_insert_le (selection : Selection) key mode :
  size (<[key := mode]> selection) <= S (size selection).
Proof.
  destruct (selection !! key) eqn:E; [rewrite map_size_insert_Some by (by eexists)|rewrite map_size_insert_None by done]; lia.
Qed.

Lemma allocate_from_ok budget max_files : forall ranked selection cache final excluded trace cache',
  (forall c, c ∈ ranked -> last_of_path snapshot c.(Candidate.entry)) ->
  cache_ok cache -> known selection -> fits budget selection -> size selection <= max_files ->
  allocate_from world snapshot ranked budget max_files selection cache =
    inl (final, excluded, trace, cache') ->
  cache_ok cache' /\ allocated budget max_files ranked selection final excluded trace.
Proof.
  induction ranked as [|c ranked IH]; intros selection cache final excluded trace cache' L C K F Z H;
    cbn [allocate_from] in H.
  { simplify_eq. split; [done|]. split; try done. by intros c ?%not_elem_of_nil. }
  destruct (Nat.leb_spec max_files (size selection)).
  { simplify_eq. split; [done|]. split; try done.
    - by rewrite map_map.
    - intros c' I. right. rewrite map_map. apply list_elem_of_fmap. by exists c'. }
  invert_ok H. invert_ok H. destruct r0 as [[chosen attempts] c1]. invert_ok H.
  destruct r0 as [[[f e] t] c2].
  destruct (try_modes_ok _ _ _ _ _ _ _ _ C E0) as [C' S].
  assert (last_of_path snapshot c.(Candidate.entry)) as LC by (apply L; by left).
  assert (known (default selection chosen) /\ fits budget (default selection chosen) /\
          size (default selection chosen) <= max_files /\ dom selection ⊆ dom (default selection chosen))
    as (K' & F' & Z' & D').
  { destruct chosen as [next|]; [|done]. destruct S as (refused & m & later & -> & -> & F' & _). cbn.
    split_and!; [by apply known_insert|done|pose proof (size_insert_le selection (selection_key c.(Candidate.entry)) m); lia|set_solver]. }
  destruct (IH _ _ _ _ _ _ (fun c' I => L c' ltac:(by right)) C' K' F' Z' E1) as [C'' A].
  destruct A as [G FF KK SS TT EE].
  assert (forall c', c' ∈ c :: ranked -> c' = c \/ is_Some (f !! selection_key c'.(Candidate.entry)) \/
    c'.(Candidate.entry).(CatalogEntry.rel_path) ∈ map ExcludedFile.path e) as EE'.
  { intros c' [->|I]%elem_of_cons; [by left|right; by apply EE]. }
  destruct chosen as [next|]; injection H as <- <- <- <-; (split; [exact C''|]); split; try assumption.
  - etransitivity; [exact D'|exact G].
  - cbn. by f_equal.
  - intros c' I. destruct (EE' c' I) as [->|?]; [left|done].
    destruct S as (refused & m & later & -> & -> & _). apply elem_of_dom, G. cbn.
    rewrite dom_insert. apply elem_of_union. left. by apply elem_of_singleton.
  - cbn. by f_equal.
  - intros c' I. destruct (EE' c' I) as [->|[?|?]]; [right; by left|by left|right; by right].
Qed.

Record expanded (budget : N) (extra : nat) (start final : Selection) : Prop := {
  expanded_grows : dom start ⊆ dom final;
  expanded_fits : fits budget final;
  expanded_known : known final;
  expanded_size : size final <= size start + extra }.

Lemma expanded_same budget extra selection :
  fits budget selection -> known selection -> expanded budget extra selection selection.
Proof. intros F K. split; [done|done|done|lia]. Qed.

Lemma try_add_codemap_ok selection entry budget cache selection' attempt cache' :
  last_of_path snapshot entry -> cache_ok cache -> known selection -> fits budget selection ->
  try_add_codemap world snapshot selection entry budget cache = inl (selection', attempt, cache') ->
  cache_ok cache' /\ expanded budget 1 selection selection' /\
  (attempt.(AllocationAttempt.accepted) = true -> is_Some (selection' !! selection_key entry)).
Proof.
  intros L C K F H. unfold try_add_codemap in H. cbn zeta in H.
  destruct (bool_decide _) eqn:B.
  { simplify_eq. apply bool_decide_eq_true in B. split_and!; [done|by apply expanded_same|done]. }
  invert_ok H. destruct r as [workspace c]. destruct (render_ok _ _ _ _ C E) as [R C'].
  destruct (N.leb_spec (total_tokens workspace) budget); simplify_eq; (split; [done|]).
  - split; [|intros _; rewrite lookup_insert_eq; by eexists]. split.
    + rewrite dom_insert. apply union_subseteq_r.
    + right. by eexists.
    + by apply known_insert.
    + pose proof (size_insert_le selection (selection_key entry) SelectionMode.CodemapOnly). lia.
  - split; [by apply expanded_same|done].
Qed.

Lemma expand_paths_ok budget : forall paths selection cache n final outcome cache' n',
  cache_ok cache -> known selection -> fits budget selection ->
  expand_paths cancelled world snapshot paths budget selection cache n =
    (inl (final, outcome, cache'), n') ->
  expanded budget (length paths) selection final.
Proof.
  induction paths as [|path paths IH]; intros selection cache n final outcome cache' n' C K F H.
  { cbn in H. unfold ret in H. simplify_eq. by apply expanded_same. }
  cbn [expand_paths] in H. invert_op H. destruct (entry_of_path snapshot path) as [entry|] eqn:P.
  - invert_op H. destruct a0 as [[s attempt] c]. invert_op H. destruct a0 as [[f o] c2].
    unfold ret in H. simplify_eq.
    destruct (try_add_codemap_ok _ _ _ _ _ _ _ (entry_of_path_last _ _ _ P) C K F E0) as (C' & [G1 F1 K1 S1] & _).
    destruct (IH _ _ _ _ _ _ _ C' K1 F1 E1) as [G2 F2 K2 S2].
    split; [by etransitivity|done|done|cbn; lia].
  - destruct (IH _ _ _ _ _ _ _ C K F H) as [G2 F2 K2 S2]. split; [done|done|done|cbn; lia].
Qed.

Lemma expand_ok budget selection cache n final outcome cache' n' :
  cache_ok cache -> known selection -> fits budget selection ->
  expand_reference_codemap_selection cancelled world snapshot selection budget cache n =
    (inl (final, outcome, cache'), n') ->
  expanded budget REFERENCE_EXPANSION_LIMIT selection final.
Proof.
  intros C K F H. unfold expand_reference_codemap_selection in H. destruct (_ || _).
  { unfold ret in H. simplify_eq. by apply expanded_same. }
  invert_op H. apply expand_paths_ok in H as [G F' K' S]; [|done|done|done].
  split; [done|done|done|]. rewrite length_take in S. lia.
Qed.

(** * The manifest *)

Lemma elem_of_keep_first seen files path :
  path ∈ map ExcludedFile.path (keep_first seen files) <->
  path ∈ map ExcludedFile.path files /\ path ∉ seen.
Proof.
  revert seen. induction files as [|f files IH]; intros seen; cbn [keep_first]; [set_solver|].
  case_bool_decide; cbn [map]; [rewrite IH; set_solver|].
  rewrite !elem_of_cons, IH. destruct (decide (path = f.(ExcludedFile.path))); set_solver.
Qed.

Lemma keep_first_NoDup seen files : NoDup (map ExcludedFile.path (keep_first seen files)).
Proof.
  revert seen. induction files as [|f files IH]; intros seen; cbn [keep_first]; [constructor|].
  case_bool_decide; [done|]. cbn [map]. constructor; [|done]. rewrite elem_of_keep_first. set_solver.
Qed.

Lemma dedupe_exclusions_spec excluded :
  NoDup (map ExcludedFile.path (dedupe_exclusions excluded)) /\
  forall path, path ∈ map ExcludedFile.path (dedupe_exclusions excluded) <->
    path ∈ map ExcludedFile.path excluded.
Proof.
  unfold dedupe_exclusions. rewrite map_rev. split; [|intros path]; rewrite <- Permutation_rev.
  - apply keep_first_NoDup.
  - rewrite elem_of_keep_first, map_rev, <- Permutation_rev. set_solver.
Qed.

Lemma elem_of_selected_paths (selection : Selection) path :
  path ∈ selected_paths selection <-> exists key, is_Some (selection !! key) /\ key.2 = path.
Proof.
  unfold selected_paths. rewrite elem_of_map. split; intros (key & A & B); exists key; rewrite ?elem_of_dom in *; auto.
Qed.

Lemma remove_selected_spec excluded selection path :
  path ∈ map ExcludedFile.path (remove_selected_exclusions excluded selection) <->
  path ∈ map ExcludedFile.path excluded /\ path ∉ selected_paths selection.
Proof.
  unfold remove_selected_exclusions. induction excluded as [|f excluded IH]; cbn; [set_solver|].
  case_bool_decide; cbn; rewrite ?elem_of_cons, IH; destruct (decide (path = f.(ExcludedFile.path))); set_solver.
Qed.

Lemma rendered_path file r :
  render_selected_file world.(BuildWorld.tokenizer) lossy provider file = inl r ->
  r.(RenderedFile.tokens).(FileTokens.path) = file.(SelectedFile.key).2.
Proof.
  unfold render_selected_file, render_full_file, render_slices_file, render_codemap_file.
  destruct file.(SelectedFile.mode); intros H; invert_ok H;
    repeat match type of H with context [match ?x with _ => _ end] => destruct x end; by simplify_eq.
Qed.

Lemma rendered_paths files rs :
  Forall2 (fun file r => render_selected_file world.(BuildWorld.tokenizer) lossy provider file = inl r) files rs ->
  map FileTokens.path (map RenderedFile.tokens rs) = map snd (map SelectedFile.key files).
Proof. induction 1 as [|file r files rs R P IH]; [done|]. cbn. rewrite IH. f_equal. by apply rendered_path. Qed.

Lemma context_of_files selection r :
  known selection -> context_of selection = inl r ->
  map FileTokens.path r.(WorkspaceContextResponse.tokens).(TokenBreakdown.files) =
    map snd (ordered selection).*1 /\
  total_tokens r = History.count_tokens world.(BuildWorld.tokenizer) r.(WorkspaceContextResponse.context).
Proof.
  intros K H. unfold context_of, workspace_context_for_selection in H. invert_ok H.
  destruct r0 as [r' c]. simplify_eq. cbn [fst].
  unfold workspace_context_for_selection_cached in E.
  cbn -[render_files join History.count_tokens selected_entries render_file_map] in E.
  apply bind_inl in E as (code & EC & E).
  apply bind_inl in E as ([rs c'] & E0 & E). cbn -[join History.count_tokens] in E. simplify_eq. cbn -[join History.count_tokens]. split; [|done].
  pose proof (render_files_plain world.(BuildWorld.tokenizer) lossy provider snapshot
    (selected_entries provider snapshot selection) _ (selected_entries_select provider snapshot selection)
    (new_cache_ok _ _ _ _ snapshot.(CatalogSnapshot.generation))) as P.
  rewrite E0 in P. destruct P as [P _]. apply render_plain_length in P.
  rewrite <- (selected_entries_keys snapshot provider) by done.
  clear E0. by apply rendered_paths.
Qed.

Lemma merge_one_keeps traces trace path :
  path ∈ map AllocationTrace.path traces -> path ∈ map AllocationTrace.path (merge_one traces trace).
Proof.
  induction traces as [|t traces IH]; cbn; [by intros ?%not_elem_of_nil|].
  destruct (_ && _); cbn; [done|]. rewrite !elem_of_cons. intuition.
Qed.

Lemma merge_keeps traces expansion path :
  path ∈ map AllocationTrace.path traces ->
  path ∈ map AllocationTrace.path (merge_allocation_trace traces expansion).
Proof.
  unfold merge_allocation_trace. revert traces.
  induction expansion as [|t expansion IH]; intros traces I; [done|]. cbn. by apply IH, merge_one_keeps.
Qed.

Lemma included_paths workspace ranked :
  map IncludedFile.path (included_manifest world workspace ranked) =
  map FileTokens.path workspace.(WorkspaceContextResponse.tokens).(TokenBreakdown.files).
Proof. unfold included_manifest. by rewrite map_map. Qed.

(** The paths of the keys, which are distinct. *)
Lemma known_paths selection :
  known selection -> NoDup (map snd (ordered selection).*1) /\
  length (map snd (ordered selection).*1) = size selection /\
  forall path, path ∈ map snd (ordered selection).*1 <-> path ∈ selected_paths selection.
Proof.
  intros K. rewrite (ordered_keys selection).
  assert (forall k, k ∈ (map_to_list selection).*1 <-> is_Some (selection !! k)) as D.
  { intros k. rewrite list_elem_of_fmap. split.
    - intros ([k' m] & -> & I%elem_of_map_to_list). by eexists.
    - intros [m E]. exists (k, m). by rewrite elem_of_map_to_list. }
  split_and!.
  - apply NoDup_fmap_2_strong; [|apply NoDup_fst_map_to_list].
    intros k k' I%D I'%D. by apply (known_key_unique snapshot selection).
  - by rewrite !length_fmap, length_map_to_list.
  - intros path. rewrite (ordered_keys selection), elem_of_selected_paths, list_elem_of_fmap.
    split; intros (k & A & B); exists k; rewrite D in *; auto.
Qed.

Lemma build_from_ranked_ok request ranked n r n' :
  (forall c, c ∈ ranked -> last_of_path snapshot c.(Candidate.entry)) ->
  build_from_ranked cancelled world snapshot request ranked n = (inl r, n') ->
  let manifest := r.(BuildContextResponse.manifest) in
  let included := map IncludedFile.path manifest.(BuildContextManifest.included) in
  let excluded := map ExcludedFile.path manifest.(BuildContextManifest.excluded) in
  (manifest.(BuildContextManifest.token_used) <= request.(BuildContextRequest.token_budget))%N /\
  (r.(BuildContextResponse.context) = EmptyString \/
   manifest.(BuildContextManifest.token_used) =
     History.count_tokens world.(BuildWorld.tokenizer) r.(BuildContextResponse.context)) /\
  length included <=
    default DEFAULT_MAX_FILES request.(BuildContextRequest.max_files) `max` 1 + REFERENCE_EXPANSION_LIMIT /\
  NoDup (included ++ excluded) /\
  forall c, c ∈ ranked ->
    c.(Candidate.entry).(CatalogEntry.rel_path) ∈ included ++ excluded /\
    c.(Candidate.entry).(CatalogEntry.rel_path) ∈
      map AllocationTrace.path manifest.(BuildContextManifest.allocation_trace).
Proof.
  intros L H. unfold build_from_ranked in H. cbn zeta in H. invert_op H.
  destruct a as [[[s1 ex1] t1] c1]. invert_op H. destruct a as [[s2 o] c2].
  invert_op H. invert_op H. unfold ret in H. injection H as <- <-. cbn.
  destruct (allocate_from_ok _ _ _ _ _ _ _ _ _ L (new_cache_ok _ _ _ _ _) (known_empty snapshot)
    (or_introl eq_refl) ltac:(rewrite map_size_empty; lia) E) as [C [_ F1 K1 S1 T1 EA]].
  destruct (expand_ok _ _ _ _ _ _ _ _ C K1 F1 E0) as [G F2 K2 S2].
  rewrite included_paths.
  destruct (context_of_files s2 a K2 E1) as [FILES TOTAL].
  destruct (known_paths s2 K2) as (ND & LEN & PATHS).
  assert (map FileTokens.path (drop_empty_over_budget s2 request.(BuildContextRequest.token_budget) a)
    .(WorkspaceContextResponse.tokens).(TokenBreakdown.files) = map snd (ordered s2).*1) as ->.
  { rewrite <- FILES. unfold drop_empty_over_budget. by destruct (_ && _). }
  destruct (dedupe_exclusions_spec (remove_selected_exclusions (ex1 ++ ReferenceExpansionOutcome.excluded o) s2))
    as [NE EE].
  split_and!.
  - unfold drop_empty_over_budget. destruct F2 as [->|(w & W & LE)].
    + rewrite bool_decide_true by done. cbn [andb].
      destruct (N.ltb_spec request.(BuildContextRequest.token_budget) (total_tokens a)); cbn; lia.
    + assert (w = a) as -> by (unfold context_of in W; congruence).
      destruct (N.ltb_spec request.(BuildContextRequest.token_budget) (total_tokens a)); [lia|].
      by rewrite andb_false_r.
  - unfold drop_empty_over_budget. destruct (_ && _); [by left|by right].
  - rewrite LEN. lia.
  - apply NoDup_app. split_and!; [done| |done]. intros path I%PATHS. rewrite EE, remove_selected_spec. tauto.
  - intros c I. split; [|apply merge_keeps; rewrite T1; apply list_elem_of_fmap; by exists c].
    rewrite elem_of_app, PATHS, EE, remove_selected_spec, map_app, elem_of_app.
    destruct (decide (c.(Candidate.entry).(CatalogEntry.rel_path) ∈ selected_paths s2)) as [|NI]; [by left|].
    right. split; [|done]. left. destruct (EA c I) as [D|?]; [|done]. destruct NI.
    apply elem_of_selected_paths. exists (selection_key c.(Candidate.entry)). split; [|done].
    apply elem_of_dom, G, elem_of_dom, D.
Qed.
End allocation.

(** C28: When building a context returns one, its tokens are within the budget of the request and are those
    of the text returned (or the text is empty); no more files are included than the request's maximum and
    eight found along references; no path is included or excluded twice, nor both; and every ranked
    candidate is included or excluded and has a trace of its allocation. *)
Theorem build_context_spec cancelled world snapshot request n r n' :
  build_context cancelled world snapshot request n = (inl (Some r), n') ->
  let max_files := default DEFAULT_MAX_FILES request.(BuildContextRequest.max_files) `max` 1 in
  let manifest := r.(BuildContextResponse.manifest) in
  let included := map IncludedFile.path manifest.(BuildContextManifest.included) in
  let excluded := map ExcludedFile.path manifest.(BuildContextManifest.excluded) in
  exists ranked m,
  ranked_candidates cancelled world snapshot request.(BuildContextRequest.query)
    request.(BuildContextRequest.seed_paths) max_files n = (inl (Some ranked), m) /\
  (manifest.(BuildContextManifest.token_used) <= request.(BuildContextRequest.token_budget))%N /\
  (r.(BuildContextResponse.context) = EmptyString \/
   manifest.(BuildContextManifest.token_used) =
     History.count_tokens world.(BuildWorld.tokenizer) r.(BuildContextResponse.context)) /\
  length included <= max_files + REFERENCE_EXPANSION_LIMIT /\
  NoDup (included ++ excluded) /\
  forall c, c ∈ ranked ->
    c.(Candidate.entry).(CatalogEntry.rel_path) ∈ included ++ excluded /\
    c.(Candidate.entry).(CatalogEntry.rel_path) ∈
      map AllocationTrace.path manifest.(BuildContextManifest.allocation_trace).
Proof.
  intros H. unfold build_context in H. cbn zeta in H. invert_op H. destruct a as [ranked|]; [|done].
  invert_op H. unfold ret in H. injection H as <- <-. exists ranked, n0. split; [done|].
  eapply build_from_ranked_ok; [by eapply ranked_candidates_last|done].
Qed.

(** * Runs *)

Module ContextDemo.
Definition code_symbols (abs rel : string) : (option ParsedCodeFile.t + string) + NerveError.t :=
  if String.eqb abs "/r/a.rs"
  then inl (inl (Some (ParsedCodeFile.Mk "rust" [] [CodeReference.new "type" "Cell" 1])))
  else if String.eqb abs "/r/b.rs"
  then inl (inl (Some (ParsedCodeFile.Mk "rust" [CodeSymbol.Mk "struct" "Cell" 1 1 None []] [])))
  else inl (inl None).

Definition read : string -> string + NerveError.t := SearchDemo.world.(World.read_bytes).
Definition provider : CatalogProvider.t := CatalogProvider.Mk read code_symbols id.

Definition files (snapshot : CatalogSnapshot.t) : list IndexedFile.t :=
  match (analyze_files never read code_symbols (query_matches (fun _ => false))
           (length snapshot.(CatalogSnapshot.roots)) None
           (map (fun e => Entry.Mk e.(CatalogEntry.root_id) e.(CatalogEntry.rel_path) e.(CatalogEntry.abs_path))
              snapshot.(CatalogSnapshot.entries)) 0).1 with
  | inl analyses => sort_by path_leb (indexed analyses)
  | inr _ => []
  end.

(** A token is a byte; the text of a number is empty. *)
Definition world (snapshot : CatalogSnapshot.t) : BuildWorld.t :=
  BuildWorld.Mk SearchDemo.world provider (Some (fun s => N.of_nat (String.length s))) (fun _ _ => None)
    (fun _ => EmptyString) (fun _ => EmptyString) (fun _ => EmptyString) (fun _ => None)
    (build_graph never (files snapshot)) (ret (files snapshot)).

Definition run (snapshot : CatalogSnapshot.t) (token_budget : N)
    : (option BuildContextResponse.t + NerveError.t) * nat :=
  build_context never (world snapshot) snapshot (BuildContextRequest.Mk "cat" token_budget (Some 1) []) 0.

Definition response (snapshot : CatalogSnapshot.t) (token_budget : N) : BuildContextResponse.t :=
  match (run snapshot token_budget).1 with
  | inl (Some r) => r
  | _ => BuildContextResponse.Mk EmptyString (BuildContextManifest.Mk EmptyString 0 0 [] [] [] [])
  end.

(** The tokens used, the files included, and the paths excluded. *)
Definition summary (snapshot : CatalogSnapshot.t) (token_budget : N)
    : N * list (string * string) * list string :=
  let manifest := (response snapshot token_budget).(BuildContextResponse.manifest) in
  (manifest.(BuildContextManifest.token_used),
   map (fun f => (f.(IncludedFile.display_path), f.(IncludedFile.mode)))
     manifest.(BuildContextManifest.included),
   map ExcludedFile.path manifest.(BuildContextManifest.excluded)).
End ContextDemo.

Lemma build_context_spec_witness :
  ContextDemo.summary SearchDemo.snapshot 150 = (122%N, [("/r/a.rs", "full")], ["b.rs"]) /\
  exists ranked, length (ranked : list Candidate.t) = 1.
Proof.
  split; [by vm_compute|].
  destruct (build_context_spec never (ContextDemo.world SearchDemo.snapshot) SearchDemo.snapshot
    (BuildContextRequest.Mk "cat" 150 (Some 1) []) 0 (ContextDemo.response SearchDemo.snapshot 150)
    (ContextDemo.run SearchDemo.snapshot 150).2 ltac:(vm_compute; reflexivity))
    as (ranked & m & R & _).
  exists ranked. vm_compute in R. injection R as <- _. reflexivity.
Defined.

(** With a maximum of one file two are included: those found along references are not counted. *)
Lemma expansion_exceeds_max_files :
  ContextDemo.summary SearchDemo.snapshot 1000 =
    (248%N, [("/r/a.rs", "full"); ("/r/b.rs", "codemap_only")], []).
Proof. by vm_compute. Qed.

(** Of two roots' files with one relative path only the last root's can be a candidate: the first root's
    file, though it has most of the hits, is neither included nor excluded. *)
Lemma other_root_lost :
  ContextDemo.summary SearchDemo.two_roots 1000 =
    (228%N, [("/r/b.rs", "codemap_only"); ("/s/a.rs", "full")], []).
Proof. by vm_compute. Qed.
