(* ===== verification/ManageSelection.v ===== *)
(** The selection tool: a request, the code maps it adds by itself, the summary
    ([nerve-core/src/selection.rs], [selection_auto_codemap.rs]). *)
From stdpp Require Import gmap strings.
From S2P Require Import Prelude Text EditText Paths History CodeGraph Navigate Selection Search SourceCode Tree Assembly.
Open Scope nerve_scope.

Module SelectionFileSummary.
Record t := Mk {
  root_id : string;
  path : string;
  display_path : string;
  mode : string;
  ranges : list LineRange.t;
  token_estimate : N }.
End SelectionFileSummary.

Module ManageSelectionResponse.
Record t := Mk {
  files : list SelectionFileSummary.t;
  total_tokens : N;
  preview : bool;
  mutated : bool;
  would_mutate : bool;
  auto_codemap_added : nat }.
End ManageSelectionResponse.

Definition AUTO_CODEMAP_LIMIT : nat := 8.

Definition mode_matches (mode : SelectionMode.t) (filter : ManageSelectionMode.t) : bool :=
  match mode, filter with
  | SelectionMode.Full, ManageSelectionMode.Full
  | SelectionMode.Slices _, ManageSelectionMode.Slices
  | SelectionMode.CodemapOnly, ManageSelectionMode.CodemapOnly => true
  | _, _ => false
  end.

Definition is_preview (op : ManageSelectionOp.t) : bool :=
  match op with ManageSelectionOp.Preview => true | _ => false end.

Definition is_type_like_symbol (kind : string) : bool :=
  existsb (String.eqb kind)
    ["class"; "struct"; "enum"; "interface"; "trait"; "type"; "typedef"; "record"].

Definition should_auto_expand (request : ManageSelectionRequest.t) : bool :=
  request.(ManageSelectionRequest.auto_codemap) &&
  match request.(ManageSelectionRequest.op) with
  | ManageSelectionOp.Add | ManageSelectionOp.Set_ | ManageSelectionOp.Preview => true
  | _ => false
  end &&
  has_selection_targets request &&
  match request.(ManageSelectionRequest.mode) with
  | Some ManageSelectionMode.CodemapOnly => false
  | _ => true
  end.

(** Selected with some of its text. *)
Definition in_source (mode : option SelectionMode.t) : bool :=
  match mode with Some SelectionMode.Full | Some (SelectionMode.Slices _) => true | _ => false end.

(** Families and names, with the keys that define them. *)
Definition Definitions : Type := gmap (string * string) (gset SelectionKey).

Definition collect_definitions (definitions : Definitions) (entry : CatalogEntry.t)
    (symbols : list CodeSymbol.t) (language : string) : Definitions :=
  fold_left (fun definitions symbol =>
      if negb (is_type_like_symbol symbol.(CodeSymbol.kind)) then definitions
      else
        let key := (language_family language, symbol.(CodeSymbol.name)) in
        <[key := {[selection_key entry]} ∪ default ∅ (definitions !! key)]> definitions)
    symbols definitions.

Definition collect_references (references : gset (string * string)) (file_references : list CodeReference.t)
    (fallback_language : string) : gset (string * string) :=
  fold_left (fun references reference =>
      {[(language_family (CodeReference.effective_language reference fallback_language),
         reference.(CodeReference.name))]} ∪ references)
    file_references references.

(** The keys to add, in order: those not selected, up to the limit. *)
Fixpoint add_codemaps (keys : list SelectionKey) (added : nat) (selection : Selection) : Selection * nat :=
  match keys with
  | [] => (selection, added)
  | key :: keys =>
      if bool_decide (is_Some (selection !! key)) then add_codemaps keys added selection
      else
        let selection := <[key := SelectionMode.CodemapOnly]> selection in
        if AUTO_CODEMAP_LIMIT <=? S added then (selection, S added)
        else add_codemaps keys (S added) selection
  end.

Section manage.
Context (canonicalize : string -> option string).
Context (tokenizer : option (string -> N)) (lossy : string -> string).
(** [serde_json::to_string] of a file's structure. *)
Context (to_string : FileCodeStructure.t -> string).
Context (provider : CatalogProvider.t) (snapshot : CatalogSnapshot.t).
Notation count_tokens := (count_tokens tokenizer).

Definition auto_expand_seed_keys (selection : Selection) (request : ManageSelectionRequest.t)
    : gset SelectionKey :=
  filter (fun key => in_source (selection !! key) = true)
    (target_keys canonicalize snapshot request selection).

Definition parsed_code_file (entry : CatalogEntry.t) : option ParsedCodeFile.t + NerveError.t :=
  try? parsed :=
    provider.(CatalogProvider.code_symbols_for_path) entry.(CatalogEntry.abs_path)
      entry.(CatalogEntry.rel_path) in
  inl (match parsed with inl file => file | inr _ => None end).

Fixpoint collect_entries (seed_keys : gset SelectionKey) (selection : Selection)
    (entries : list CatalogEntry.t) (definitions : Definitions) (references : gset (string * string))
    : (Definitions * gset (string * string)) + NerveError.t :=
  match entries with
  | [] => inl (definitions, references)
  | entry :: entries =>
      let key := selection_key entry in
      try? file := parsed_code_file entry in
      match file with
      | None => collect_entries seed_keys selection entries definitions references
      | Some parsed =>
          if bool_decide (key ∈ seed_keys) then
            collect_entries seed_keys selection entries definitions
              (collect_references references parsed.(ParsedCodeFile.references)
                 parsed.(ParsedCodeFile.language))
          else if bool_decide (key.1 ∈ (set_map fst seed_keys : gset string)) &&
                  negb (bool_decide (is_Some (selection !! key))) then
            collect_entries seed_keys selection entries
              (collect_definitions definitions entry parsed.(ParsedCodeFile.symbols)
                 parsed.(ParsedCodeFile.language)) references
          else collect_entries seed_keys selection entries definitions references
      end
  end.

(** The selection with the code maps added, and how many. *)
Definition auto_expand_codemap (selection : Selection) (request : ManageSelectionRequest.t)
    : (Selection * nat) + NerveError.t :=
  if negb (should_auto_expand request) || bool_decide (selection = ∅) then inl (selection, 0)
  else
    let seed_keys := auto_expand_seed_keys selection request in
    if bool_decide (seed_keys = ∅) then inl (selection, 0)
    else
      try? collected := collect_entries seed_keys selection snapshot.(CatalogSnapshot.entries) ∅ ∅ in
      let '(definitions, references) := collected in
      inl (add_codemaps
             (flat_map (fun reference => sort_by key_leb (elements (default ∅ (definitions !! reference))))
                (sort_by key_leb (elements references))) 0 selection).

Definition token_estimate_for_entry (entry : CatalogEntry.t) (mode : SelectionMode.t) : N + NerveError.t :=
  match mode with
  | SelectionMode.Full =>
      try? bytes := provider.(CatalogProvider.read_bytes) entry.(CatalogEntry.abs_path) in
      inl (count_tokens (lossy bytes))
  | SelectionMode.Slices ranges =>
      try? bytes := provider.(CatalogProvider.read_bytes) entry.(CatalogEntry.abs_path) in
      inl (count_tokens (slice_text (lossy bytes) ranges))
  | SelectionMode.CodemapOnly =>
      try? file := parsed_code_file entry in
      inl (match file with
           | None => 0%N
           | Some parsed =>
               count_tokens
                 (to_string
                    (FileCodeStructure.Mk entry.(CatalogEntry.rel_path) parsed.(ParsedCodeFile.language)
                       parsed.(ParsedCodeFile.symbols) 0))
           end)
  end.

Fixpoint summarize_files (mode_filter : option ManageSelectionMode.t)
    (files : list (SelectionKey * SelectionMode.t)) : list SelectionFileSummary.t + NerveError.t :=
  match files with
  | [] => inl []
  | (key, mode) :: files =>
      if match mode_filter with Some filter => negb (mode_matches mode filter) | None => false end
      then summarize_files mode_filter files
      else
        match entry_of_key snapshot key with
        | None => summarize_files mode_filter files
        | Some entry =>
            try? token_estimate := token_estimate_for_entry entry mode in
            try? rest := summarize_files mode_filter files in
            inl (SelectionFileSummary.Mk key.1 key.2
                   (provider.(CatalogProvider.display_path) entry.(CatalogEntry.abs_path)) (mode_name mode)
                   (mode_ranges mode) token_estimate :: rest)
        end
  end.

Definition summarize_selection (selection : Selection) (mode_filter : option ManageSelectionMode.t)
    : ManageSelectionResponse.t + NerveError.t :=
  try? files := summarize_files mode_filter (ordered selection) in
  inl (ManageSelectionResponse.Mk files (foldl N.add 0%N (map SelectionFileSummary.token_estimate files))
         false false false 0).

(** The selection the provider keeps afterwards, and the answer. *)
Definition manage_selection (current : Selection) (request : ManageSelectionRequest.t)
    : Selection * (ManageSelectionResponse.t + NerveError.t) :=
  let '(selection, commit) := apply_selection_request canonicalize snapshot request current in
  match auto_expand_codemap selection request with
  | inr e => (current, inr e)
  | inl (selection, auto_codemap_added) =>
      let changed := negb (bool_decide (selection = current)) in
      let kept := if commit && changed then selection else current in
      let preview := is_preview request.(ManageSelectionRequest.op) in
      let mode_filter :=
        if (preview && has_selection_targets request) || (0 <? auto_codemap_added) then None
        else request.(ManageSelectionRequest.mode) in
      (kept,
       try? response := summarize_selection selection mode_filter in
       inl (ManageSelectionResponse.Mk response.(ManageSelectionResponse.files)
              response.(ManageSelectionResponse.total_tokens) preview (commit && changed) (preview && changed)
              auto_codemap_added))
  end.
End manage.

(** * What a request does *)

Lemma add_codemaps_spec keys : forall added selection selection' added',
  added < AUTO_CODEMAP_LIMIT -> add_codemaps keys added selection = (selection', added') ->
  selection ⊆ selection' /\ added' <= AUTO_CODEMAP_LIMIT /\
  size selection' + added = size selection + added' /\
  forall key mode, selection !! key = None -> selection' !! key = Some mode ->
    mode = SelectionMode.CodemapOnly /\ key ∈ keys.
Proof.
  induction keys as [|key keys IH]; intros added selection selection' added' L H; cbn [add_codemaps] in H.
  { simplify_eq. split_and!; [done|lia|done|]. intros key mode N S. by rewrite N in S. }
  destruct (bool_decide (is_Some (selection !! key))) eqn:B.
  { destruct (IH _ _ _ _ L H) as (M & L' & Z & A). split_and!; [done|done|done|].
    intros k mode N S. destruct (A k mode N S). split; [done|by right]. }
  apply bool_decide_eq_false in B. apply eq_None_not_Some in B.
  destruct (Nat.leb_spec AUTO_CODEMAP_LIMIT (S added)).
  - simplify_eq. split_and!; [by apply insert_subseteq|unfold AUTO_CODEMAP_LIMIT in *; lia| |].
    + rewrite map_size_insert_None by done. lia.
    + intros k mode N [[<- <-]|[? ?]]%lookup_insert_Some; [split; [done|by left]|congruence].
  - destruct (IH _ _ _ _ H0 H) as (M & L' & Z & A). split_and!; [|done| |].
    + etransitivity; [by apply insert_subseteq|exact M].
    + rewrite map_size_insert_None in Z by done. lia.
    + intros k mode N S. destruct (decide (k = key)) as [->|].
      * rewrite (lookup_weaken _ _ _ _ (lookup_insert_eq selection key SelectionMode.CodemapOnly) M) in S.
        simplify_eq. split; [done|by left].
      * destruct (A k mode) as [? ?]; [by rewrite lookup_insert_ne|done|]. split; [done|by right].
Qed.

Section spec.
Context (canonicalize : string -> option string).
Context (tokenizer : option (string -> N)) (lossy : string -> string).
Context (to_string : FileCodeStructure.t -> string).
Context (provider : CatalogProvider.t) (snapshot : CatalogSnapshot.t).
Notation apply := (apply_selection_request canonicalize snapshot).

Lemma sum_from (a : N) l : foldl N.add a l = (a + foldr N.add 0 l)%N.
Proof. revert a. induction l as [|x l IH]; intros a; cbn; [lia|]. rewrite IH. lia. Qed.

Lemma auto_expand_spec selection request selection' added :
  auto_expand_codemap canonicalize provider snapshot selection request = inl (selection', added) ->
  selection ⊆ selection' /\ added <= AUTO_CODEMAP_LIMIT /\ size selection' = size selection + added /\
  (forall key mode, selection !! key = None -> selection' !! key = Some mode ->
     mode = SelectionMode.CodemapOnly) /\
  (should_auto_expand request = false -> selection' = selection).
Proof.
  unfold auto_expand_codemap. intros H.
  assert (inl (selection, 0) = (inl (selection', added) : (Selection * nat) + NerveError.t) -> selection ⊆ selection' /\
    added <= AUTO_CODEMAP_LIMIT /\ size selection' = size selection + added /\
    (forall key mode, selection !! key = None -> selection' !! key = Some mode ->
       mode = SelectionMode.CodemapOnly) /\ (should_auto_expand request = false -> selection' = selection)) as SAME.
  { intros [= <- <-]. split_and!; [done|unfold AUTO_CODEMAP_LIMIT; lia|lia| |done]. intros ? ? N S. congruence. }
  destruct (_ || _) eqn:E; [by apply SAME|]. cbn zeta in H. case_bool_decide; [by apply SAME|].
  apply bind_inl in H as ([definitions references] & _ & [= H]).
  apply add_codemaps_spec in H as (M & L & Z & A); [|unfold AUTO_CODEMAP_LIMIT; lia].
  split_and!; [done|done|lia| |].
  - intros key mode N S. by destruct (A key mode N S).
  - intros S. rewrite S in E. done.
Qed.

(** A selection request that answers keeps what the request makes of the selection, with at most
    eight code maps added and nothing of it changed; a preview keeps the selection as it was and says
    whether the operation would change it; the answer says whether the selection changed, and its total
    is the sum of its files' tokens. *)
Theorem manage_selection_spec current request kept r :
  manage_selection canonicalize tokenizer lossy to_string provider snapshot current request = (kept, inl r) ->
  let asked := (apply request current).1 in
  exists expanded,
  asked ⊆ expanded /\
  (forall key mode, asked !! key = None -> expanded !! key = Some mode -> mode = SelectionMode.CodemapOnly) /\
  size expanded = size asked + r.(ManageSelectionResponse.auto_codemap_added) /\
  r.(ManageSelectionResponse.auto_codemap_added) <= AUTO_CODEMAP_LIMIT /\
  (request.(ManageSelectionRequest.auto_codemap) = false -> expanded = asked) /\
  kept = (if is_preview request.(ManageSelectionRequest.op) then current else expanded) /\
  (r.(ManageSelectionResponse.mutated) = true <-> kept <> current) /\
  (r.(ManageSelectionResponse.would_mutate) = true <->
     request.(ManageSelectionRequest.op) = ManageSelectionOp.Preview /\ expanded <> current) /\
  r.(ManageSelectionResponse.total_tokens) =
    foldr N.add 0%N (map SelectionFileSummary.token_estimate r.(ManageSelectionResponse.files)).
Proof.
  intros H asked. unfold manage_selection in H. destruct (apply request current) as [sel commit] eqn:A.
  assert (commit = negb (is_preview request.(ManageSelectionRequest.op))) as C.
  { unfold apply_selection_request in A. destruct request.(ManageSelectionRequest.op); by simplify_eq. }
  destruct (auto_expand_codemap _ _ _ sel request) as [[expanded added]|e] eqn:X; [|done].
  injection H as HK HR. apply bind_inl in HR as (summary & S & [= <-]).
  apply auto_expand_spec in X as (M & L & Z & CM & NO). subst asked. cbn.
  exists expanded. split_and!; [done|done|done|done| | | | |].
  - intros F. apply NO. unfold should_auto_expand. by rewrite F.
  - rewrite <- HK, C. destruct (is_preview _); cbn; [done|]. by case_bool_decide.
  - rewrite <- HK. case_bool_decide; destruct commit; cbn; split; congruence.
  - rewrite andb_true_iff, negb_true_iff, bool_decide_eq_false.
    unfold is_preview. destruct request.(ManageSelectionRequest.op); split; intros []; by repeat split.
  - apply bind_inl in S as (files & _ & [= <-]). cbn. apply (sum_from 0).
Qed.
End spec.

(** * Runs *)

Module SelectionDemo.
Definition entries : list CatalogEntry.t :=
  [CatalogEntry.Mk "r" "a.rs" "/r/a.rs" 9; CatalogEntry.Mk "r" "b.rs" "/r/b.rs" 9].
Definition snapshot : CatalogSnapshot.t := CatalogSnapshot.Mk 1 [RootRef.Mk "r" "/r"] entries.
Definition code_symbols (abs rel : string) : (option ParsedCodeFile.t + string) + NerveError.t :=
  inl (inl (Some
    (if String.eqb rel "a.rs" then ParsedCodeFile.Mk "rust" [] [CodeReference.new "type" "Cell" 1]
     else ParsedCodeFile.Mk "rust" [CodeSymbol.Mk "struct" "Cell" 1 1 None []] []))).
Definition provider (read : string -> string + NerveError.t) : CatalogProvider.t :=
  CatalogProvider.Mk read code_symbols id.
Definition request (op : ManageSelectionOp.t) : ManageSelectionRequest.t :=
  ManageSelectionRequest.Mk op ["a.rs"] None [] true.
Definition run (read : string -> string + NerveError.t) (op : ManageSelectionOp.t)
    : Selection * (ManageSelectionResponse.t + NerveError.t) :=
  manage_selection (fun _ => None) (Some (fun s => N.of_nat (String.length s))) id
    (fun s => s.(FileCodeStructure.language)) (provider read) snapshot ∅ (request op).

(** How the two files are selected afterwards; whether that changed, and the tokens answered. *)
Definition outcome (read : string -> string + NerveError.t) (op : ManageSelectionOp.t)
    : option SelectionMode.t * option SelectionMode.t * option (bool * N) :=
  let '(kept, answer) := run read op in
  (kept !! ("r", "a.rs"), kept !! ("r", "b.rs"),
   match answer with
   | inl r => Some (r.(ManageSelectionResponse.mutated), r.(ManageSelectionResponse.total_tokens))
   | inr _ => None
   end).
End SelectionDemo.

Lemma manage_selection_spec_witness :
  SelectionDemo.outcome (fun _ => inl "fn a() {}") ManageSelectionOp.Add =
    (Some SelectionMode.Full, Some SelectionMode.CodemapOnly, Some (true, 13%N)) /\
  (SelectionDemo.run (fun _ => inl "fn a() {}") ManageSelectionOp.Add).1 <> ∅.
Proof.
  assert (SelectionDemo.outcome (fun _ => inl "fn a() {}") ManageSelectionOp.Add =
    (Some SelectionMode.Full, Some SelectionMode.CodemapOnly, Some (true, 13%N))) as O by (by vm_compute).
  split; [exact O|]. unfold SelectionDemo.outcome in O.
  destruct (SelectionDemo.run (fun _ => inl "fn a() {}") ManageSelectionOp.Add) as [kept [r|e]] eqn:E; [|done].
  destruct (manage_selection_spec _ _ _ _ _ _ ∅ (SelectionDemo.request ManageSelectionOp.Add) kept r E)
    as (expanded & _ & _ & _ & _ & _ & _ & M & _).
  apply M. by injection O.
Defined.

(** A request whose summary fails has changed the selection all the same. *)
Lemma error_after_change :
  SelectionDemo.outcome (fun path => inr (NerveError.Io [path])) ManageSelectionOp.Add =
    (Some SelectionMode.Full, Some SelectionMode.CodemapOnly, None).
Proof. by vm_compute. Qed.
