(* ===== verification/Transport.v ===== *)
(** What the model providers share ([nerve-agent/src/provider/mod.rs], [http.rs], [retry.rs],
    [text_fallback.rs], [auth/mod.rs]): credentials, retries with backoff, the lines of an event stream,
    and tool calls recovered from text. *)
From S2P Require Import Prelude Text Json FlowDefs EditText Tape History Disk Wire.
Open Scope nerve_scope.

(** * Credentials *)

Module ProviderId.
Inductive t := Anthropic | OpenAi | Xai.
#[global] Instance eq_dec : EqDecision t.
Proof. solve_decision. Defined.

Definition as_str (id : t) : string :=
  match id with Anthropic => "anthropic" | OpenAi => "openai" | Xai => "xai" end.

Definition default_base_url (id : t) : string :=
  match id with
  | Anthropic => "https://api.anthropic.com"
  | OpenAi => "https://api.openai.com"
  | Xai => "https://api.x.ai"
  end.
End ProviderId.

Module AuthMode.
Inductive t := ApiKey | Oauth.
#[global] Instance eq_dec : EqDecision t.
Proof. solve_decision. Defined.
End AuthMode.

Module Credential.
Record t := Mk {
  provider : ProviderId.t;
  mode : AuthMode.t;
  access_token : string;
  refresh_token : option string;
  expires_at_unix : option u64;
  account_id : option string;
  base_url : string }.
End Credential.

(** * Calls that wait on the network

    What a call meets is given by number: which checks find the token cancelled, and what each try
    answers. The state counts the checks and the tries, and adds up the time slept. *)

Module Clock.
Record t := Mk { checks : nat; tries : nat; slept : N }.
Definition start : t := Mk 0 0 0.
End Clock.

(** [Duration], in milliseconds; no delay of the program is finer. The greatest is a [u64] of seconds. *)
Definition DURATION_MAX : N := 18446744073709551615999.
Definition duration_mul (d : N) (factor : N) : N := N.min (d * factor) DURATION_MAX.

Definition RETRY_AFTER_CAP : N := 30000.
Definition SLEEP_SLICE : N := 50.

Module RetryPolicy.
Record t := Mk { max_retries : u32; base_delay : N; max_delay : N }.
Definition default : t := Mk (wrap 32 3) 500 8000.

(** [checked_shl] on a [u32]: nothing from 32 on. *)
Definition factor (retry_index : nat) : N :=
  if retry_index <? 32 then (2 ^ N.of_nat retry_index)%N else (2 ^ 32 - 1)%N.

Definition backoff (policy : t) (retry_index : nat) : N :=
  N.min (duration_mul policy.(base_delay) (factor retry_index)) policy.(max_delay).
End RetryPolicy.

Module Attempt.
Inductive t (A : Type) :=
  | Done (value : A)
  | Retry (error : AgentError.t) (retry_after : option N)
  | Fatal (error : AgentError.t).
Arguments Done {A}.
Arguments Retry {A}.
Arguments Fatal {A}.
End Attempt.

Definition is_retryable_status (status : N) : bool :=
  existsb (N.eqb status) [408; 429; 500; 502; 503; 504; 529]%N.

Section retry.
Context (cancelled : nat -> bool).

Definition checked (c : Clock.t) : Clock.t := Clock.Mk (S c.(Clock.checks)) c.(Clock.tries) c.(Clock.slept).
Definition is_cancelled (c : Clock.t) : bool := cancelled c.(Clock.checks).

(** Sleeps a slice at a time; the fuel is the number of slices. *)
Fixpoint sleep_slices (fuel : nat) (remaining : N) (c : Clock.t) : (unit + AgentError.t) * Clock.t :=
  match fuel with
  | 0 => (inl tt, c)
  | S fuel =>
      if (remaining =? 0)%N then (inl tt, c)
      else if is_cancelled c then (inr AgentError.Cancelled, checked c)
      else
        let nap := N.min remaining SLEEP_SLICE in
        let c := checked c in
        sleep_slices fuel (remaining - nap)
          (Clock.Mk c.(Clock.checks) c.(Clock.tries) (c.(Clock.slept) + nap))
  end.

Definition backoff_sleep (total : N) (c : Clock.t) : (unit + AgentError.t) * Clock.t :=
  sleep_slices (S (N.to_nat (total / SLEEP_SLICE))) total c.

Context {A : Type} (attempt : nat -> Attempt.t A).

Definition delay_of (policy : RetryPolicy.t) (retry_index : nat) (retry_after : option N) : N :=
  match retry_after with
  | Some suggested => N.min suggested RETRY_AFTER_CAP
  | None => RetryPolicy.backoff policy retry_index
  end.

(** The tries from [retry_index] on, [more] of them after it. *)
Fixpoint retry_from (policy : RetryPolicy.t) (more retry_index : nat) (c : Clock.t)
    : (A + AgentError.t) * Clock.t :=
  if is_cancelled c then (inr AgentError.Cancelled, checked c)
  else
    let c := checked c in
    let answer := attempt c.(Clock.tries) in
    let c := Clock.Mk c.(Clock.checks) (S c.(Clock.tries)) c.(Clock.slept) in
    match answer, more with
    | Attempt.Done value, _ => (inl value, c)
    | Attempt.Fatal error, _ => (inr error, c)
    | Attempt.Retry error _, 0 => (inr error, c)
    | Attempt.Retry error retry_after, S more =>
        match backoff_sleep (delay_of policy retry_index retry_after) c with
        | (inl tt, c) => retry_from policy more (S retry_index) c
        | (inr error, c) => (inr error, c)
        end
    end.

Definition with_retry (policy : RetryPolicy.t) (c : Clock.t) : (A + AgentError.t) * Clock.t :=
  retry_from policy (N.to_nat (uval policy.(RetryPolicy.max_retries))) 0 c.
End retry.

(** * The lines of an event stream *)

(** What [read_line] gives, one after another: a line with its end, or an error. *)
Definition Lines : Type := list (string + string).

Definition is_line_end (c : ascii) : bool := Ascii.eqb c CR || Ascii.eqb c LF.

(** The payload of a line, if it is one of data. *)
Definition payload_of (line : string) : option string :=
  let trimmed := trim_end_chars is_line_end line in
  if String.eqb trimmed EmptyString || starts_with ":" trimmed then None
  else
    rest ← strip_prefix "data:" trimmed;
    Some (default rest (strip_prefix " " rest)).

Fixpoint next_event (lines : Lines) : (option string + AgentError.t) * Lines :=
  match lines with
  | [] => (inl None, [])
  | inr error :: lines => (inr (AgentError.Http error), lines)
  | inl line :: lines =>
      match payload_of line with
      | None => next_event lines
      | Some payload => (inl (if String.eqb payload "[DONE]" then None else Some payload), lines)
      end
  end.

(** What a try of [ureq] gives: a transport error, or a status with a header, a body and its lines. *)
Module HttpAnswer.
Inductive t :=
  | Failed (message : string)
  | Answered (status : N) (retry_after : option string) (body : string) (lines : Lines).
End HttpAnswer.

(** [parse::<u64>], then whole seconds. *)
Definition retry_after_of (header : option string) : option N :=
  raw ← header;
  let digits := default (trim raw) (strip_prefix "+" (trim raw)) in
  if String.eqb digits EmptyString then None
  else
    n ← parse_digits 0 digits;
    if (n <? 2 ^ 64)%N then Some (n * 1000)%N else None.

Definition classify (answer : HttpAnswer.t) : Attempt.t Lines :=
  match answer with
  | HttpAnswer.Failed message => Attempt.Retry (AgentError.Http message) None
  | HttpAnswer.Answered status retry_after body lines =>
      if ((200 <=? status) && (status <? 300))%N then Attempt.Done lines
      else
        let error := AgentError.Http ("HTTP " +:+ pretty status +:+ ": " +:+ body) in
        if is_retryable_status status then Attempt.Retry error (retry_after_of retry_after)
        else Attempt.Fatal error
  end.

Definition post_sse (cancelled : nat -> bool) (answers : nat -> HttpAnswer.t) (c : Clock.t)
    : (Lines + AgentError.t) * Clock.t :=
  with_retry cancelled (fun i => classify (answers i)) RetryPolicy.default c.

(** * A response assembled from a stream

    Each provider folds the events of a stream into a response; what they share is the loop that reads
    them. [step] gives the builder after an event, what it streams, and whether to stop. *)

Class Fold (B : Type) := {
  new : B;
  step : B -> json -> B * list ChatDelta.t * (bool + AgentError.t);
  finish : B -> ChatResponse.t;
}.
#[global] Hint Mode Fold ! : typeclass_instances.

(** [serde_json::from_str] with the message of its error; [what] is the provider's. *)
Definition parse_event `{SerdeText} (parse_error : string -> string) (what payload : string)
    : json + AgentError.t :=
  match from_str payload with
  | Some event => inl event
  | None => inr (AgentError.Parse ("invalid SSE " +:+ what +:+ ": " +:+ parse_error payload +:+ ": " +:+ payload))
  end.

Section drive.
Context {B : Type} `{Fold B} (cancelled : nat -> bool) (parse : string -> json + AgentError.t).

(** The loop over the events of the lines; each takes one line at least, which the fuel counts. *)
Fixpoint drive_from (fuel : nat) (lines : Lines) (b : B) (c : Clock.t)
    : list ChatDelta.t * (ChatResponse.t + AgentError.t) * Clock.t :=
  match fuel with
  | 0 => ([], inl (finish b), c)
  | S fuel =>
      if is_cancelled cancelled c then ([], inr AgentError.Cancelled, checked c)
      else
        let c := checked c in
        match next_event lines with
        | (inr error, _) => ([], inr error, c)
        | (inl None, _) => ([], inl (finish b), c)
        | (inl (Some payload), lines) =>
            match parse payload with
            | inr error => ([], inr error, c)
            | inl event =>
                match step b event with
                | (_, deltas, inr error) => (deltas, inr error, c)
                | (b, deltas, inl true) => (deltas, inl (finish b), c)
                | (b, deltas, inl false) =>
                    let '(later, answer, c) := drive_from fuel lines b c in (deltas ++ later, answer, c)
                end
            end
        end
  end.

Definition drive (lines : Lines) (c : Clock.t)
    : list ChatDelta.t * (ChatResponse.t + AgentError.t) * Clock.t :=
  drive_from (S (length lines)) lines new c.

End drive.

(** A call: the stream is opened, with retries, and read. *)
Definition stream_call (cancelled : nat -> bool)
    (read : Lines -> Clock.t -> list ChatDelta.t * (ChatResponse.t + AgentError.t) * Clock.t)
    (answers : nat -> HttpAnswer.t) (c : Clock.t)
    : list ChatDelta.t * (ChatResponse.t + AgentError.t) * Clock.t :=
  match post_sse cancelled answers c with
  | (inr error, c) => ([], inr error, c)
  | (inl lines, c) => read lines c
  end.

(** * [text_fallback.rs] *)

Section fallback.
Context `{SerdeJson, SerdeText}.

Definition as_str (v : json) : option string := match v with JStr s => Some s | _ => None end.

Definition first_of (keys : list string) (v : json) : option json :=
  head (omap (fun key => value_get key v) keys).

Definition call_from_json_text (text : string) : option ToolCall.t :=
  value ← from_str (trim text);
  name ← value_get "name" value ≫= as_str;
  let name := trim name in
  if String.eqb name EmptyString then None
  else
    Some (ToolCall.Mk EmptyString name
            (default (JObj []) (first_of ["input"; "arguments"; "parameters"] value))).

Definition option_list {A} (o : option A) : list A := match o with Some a => [a] | None => [] end.

Fixpoint collect_tagged (fuel : nat) (rest : string) : list ToolCall.t :=
  match fuel with
  | 0 => []
  | S fuel =>
      match split_once "<tool_use>" rest with
      | None => []
      | Some (_, after) =>
          match split_once "</tool_use>" after with
          | None => []
          | Some (body, rest) => option_list (call_from_json_text body) ++ collect_tagged fuel rest
          end
      end
  end.

Definition fence : string := "```".

(** What is after a language tag and its line's end. *)
Definition after_tag (after : string) : string :=
  match split_once lf after with Some (_, body) => body | None => EmptyString end.

Fixpoint collect_fenced_json (fuel : nat) (rest : string) : list ToolCall.t :=
  match fuel with
  | 0 => []
  | S fuel =>
      match split_once fence rest with
      | None => []
      | Some (_, after) =>
          match split_once fence (after_tag after) with
          | None => []
          | Some (body, rest) => option_list (call_from_json_text body) ++ collect_fenced_json fuel rest
          end
      end
  end.

Definition recover_tool_calls (content : string) : list ToolCall.t :=
  let fuel := S (String.length content) in
  let tagged := collect_tagged fuel content in
  imap (fun i call =>
      ToolCall.Mk ("text_fallback_" +:+ show_nat i +:+ "_" +:+ call.(ToolCall.name)) call.(ToolCall.name)
        call.(ToolCall.arguments))
    (match tagged with [] => collect_fenced_json fuel content | _ => tagged end).

Definition apply_text_fallback (response : ChatResponse.t) : ChatResponse.t :=
  match response.(ChatResponse.tool_calls) with
  | _ :: _ => response
  | [] =>
      match recover_tool_calls response.(ChatResponse.content) with
      | [] => response
      | recovered =>
          ChatResponse.Mk response.(ChatResponse.content) response.(ChatResponse.reasoning)
            response.(ChatResponse.reasoning_signature) recovered FinishReason.ToolUse
            response.(ChatResponse.usage)
      end
  end.

(** [?] on the streamed response, then the fallback. *)
Definition with_fallback (result : list ChatDelta.t * (ChatResponse.t + AgentError.t) * Clock.t)
    : list ChatDelta.t * (ChatResponse.t + AgentError.t) * Clock.t :=
  match result with
  | (deltas, inl response, c) => (deltas, inl (apply_text_fallback response), c)
  | (deltas, inr error, c) => (deltas, inr error, c)
  end.
End fallback.

(** * What the providers' readers of a response share *)

Definition str_field (value : json) (key : string) : string :=
  default EmptyString (value_get key value ≫= as_str).

(** The text, unless it is empty. *)
Definition some_text (s : string) : option string := if String.eqb s EmptyString then None else Some s.

(** A field that is a string and not empty. *)
Definition text_field (value : json) (key : string) : option string :=
  (value_get key value ≫= as_str) ≫= some_text.

(** The reason given, or the one the calls show. *)
Definition finish_reason_or (reason : option FinishReason.t) (calls : list ToolCall.t) : FinishReason.t :=
  default (match calls with [] => FinishReason.Stop | _ => FinishReason.ToolUse end) reason.

(** The arguments of a call whose text is [raw] and reads as [parsed]. *)
Definition raw_arguments (raw : string) (parsed : option json) : json :=
  default (JObj [("_raw", JStr raw)]) parsed.
