(* ===== verification/Anthropic.v ===== *)
(** The Anthropic Messages provider ([nerve-agent/src/provider/anthropic/]): the request, the fold of
    the event stream, the call. Objects hold their fields in the order the source gives them; no reader
    of theirs sees it. *)
From S2P Require Import Prelude Text Json FlowDefs EditText Tape History Disk Wire Transport.
Open Scope nerve_scope.

(** * [wire.rs] *)

Definition ANTHROPIC_VERSION : string := "2023-06-01".
Definition PROMPT_CACHING_BETA : string := "prompt-caching-2024-07-31".
Definition OAUTH_BETA : string := "oauth-2025-04-20".
Definition CLAUDE_CODE_SYSTEM : string := "You are Claude Code, Anthropic's official CLI for Claude.".
Definition DEFAULT_MAX_TOKENS : u32 := wrap 32 8192.

Definition build_headers (cred : Credential.t) : list (string * string) :=
  [("anthropic-version", ANTHROPIC_VERSION); ("Content-Type", "application/json")] ++
  match cred.(Credential.mode) with
  | AuthMode.ApiKey =>
      [("x-api-key", cred.(Credential.access_token)); ("anthropic-beta", PROMPT_CACHING_BETA)]
  | AuthMode.Oauth =>
      [("authorization", "Bearer " +:+ cred.(Credential.access_token));
       ("anthropic-beta", OAUTH_BETA +:+ "," +:+ PROMPT_CACHING_BETA);
       ("anthropic-dangerous-direct-browser-access", "true")]
  end.

Definition thinking_budget (effort : string) : option Z :=
  let effort := lower (trim effort) in
  let same := String.eqb effort in
  (if same "minimal" || same "low" then Some 2048
   else if same "medium" then Some 8192
   else if same "high" then Some 16384
   else if same "xhigh" || same "max" then Some 32768
   else None)%Z.

Definition thinking_block (effort : option string) : option json :=
  effort ← effort;
  budget ← thinking_budget effort;
  Some (JObj [("type", JStr "enabled"); ("budget_tokens", JNum budget)]).

Definition text_block (text : string) : json := JObj [("type", JStr "text"); ("text", JStr text)].

Definition cache_marked (block : json) : json :=
  match block with
  | JObj m => JObj (map_insert "cache_control" (JObj [("type", JStr "ephemeral")]) m)
  | block => block
  end.

(** A marker on the last block. *)
Fixpoint set_last_cache_control (blocks : list json) : list json :=
  match blocks with
  | [] => []
  | [block] => [cache_marked block]
  | block :: blocks => block :: set_last_cache_control blocks
  end.

Definition build_system (system : option string) (mode : AuthMode.t) : list json :=
  set_last_cache_control
    ((if decide (mode = AuthMode.Oauth) then [text_block CLAUDE_CODE_SYSTEM] else []) ++
     match system with
     | Some text => if String.eqb text EmptyString then [] else [text_block text]
     | None => []
     end).

Definition build_tools (req : ChatRequest.t) : list json :=
  set_last_cache_control
    (map (fun spec =>
        JObj [("name", JStr spec.(ToolSpec.name)); ("description", JStr spec.(ToolSpec.description));
              ("input_schema", spec.(ToolSpec.input_schema))]) req.(ChatRequest.tools)).

Definition thinking_replay_block (msg : Message.t) : option json :=
  reasoning ← msg.(Message.reasoning);
  signature ← reasoning.(Reasoning.signature);
  Some (JObj [("type", JStr "thinking"); ("thinking", JStr reasoning.(Reasoning.text));
              ("signature", JStr signature)]).

Definition tool_use_block (call : ToolCall.t) : json :=
  JObj [("type", JStr "tool_use"); ("id", JStr call.(ToolCall.id)); ("name", JStr call.(ToolCall.name));
        ("input", call.(ToolCall.arguments))].

Definition assistant_blocks (msg : Message.t) : list json :=
  let blocks :=
    option_list (thinking_replay_block msg) ++
    (if String.eqb msg.(Message.content) EmptyString then [] else [text_block msg.(Message.content)]) ++
    map tool_use_block msg.(Message.tool_calls) in
  match blocks with [] => [text_block EmptyString] | _ => blocks end.

Definition tool_result_block (msg : Message.t) : json :=
  JObj [("type", JStr "tool_result");
        ("tool_use_id", JStr (default EmptyString msg.(Message.tool_call_id)));
        ("content", JStr msg.(Message.content))].

Definition neutral_to_blocks (msg : Message.t) : option (string * list json) :=
  match msg.(Message.role) with
  | Role.System => None
  | Role.User => Some ("user", [text_block msg.(Message.content)])
  | Role.Tool => Some ("user", [tool_result_block msg])
  | Role.Assistant => Some ("assistant", assistant_blocks msg)
  end.

(** The turns so far, the last first. *)
Definition merge_turn (out : list (string * list json)) (turn : string * list json)
    : list (string * list json) :=
  match out with
  | (prev_role, prev_blocks) :: rest =>
      if String.eqb prev_role turn.1 then (prev_role, prev_blocks ++ turn.2) :: rest else turn :: out
  | [] => [turn]
  end.

Definition merged_turns (messages : list Message.t) : list (string * list json) :=
  rev (foldl merge_turn [] (omap neutral_to_blocks messages)).

Fixpoint mark_last (turns : list (string * list json)) : list (string * list json) :=
  match turns with
  | [] => []
  | [(role, blocks)] => [(role, set_last_cache_control blocks)]
  | turn :: turns => turn :: mark_last turns
  end.

Definition build_messages (messages : list Message.t) : list json :=
  map (fun '(role, content) => JObj [("role", JStr role); ("content", JArr content)])
    (mark_last (merged_turns messages)).

Definition non_empty (key : string) (blocks : list json) : list (string * json) :=
  match blocks with [] => [] | _ => [(key, JArr blocks)] end.

(** [float_json]: the JSON number of a float. *)
Definition build_body (float_json : f32 -> json) (req : ChatRequest.t) (cred : Credential.t) : json :=
  JObj
    ([("model", JStr req.(ChatRequest.model)); ("stream", JBool true);
      ("max_tokens", ser (default DEFAULT_MAX_TOKENS req.(ChatRequest.max_tokens)))] ++
     option_list (pair "temperature" ∘ float_json <$> req.(ChatRequest.temperature)) ++
     option_list (pair "thinking" <$> thinking_block req.(ChatRequest.reasoning_effort)) ++
     non_empty "system" (build_system req.(ChatRequest.system) cred.(Credential.mode)) ++
     [("messages", JArr (build_messages req.(ChatRequest.messages)))] ++
     non_empty "tools" (build_tools req)).

(** * [sse.rs] *)

Module OpenBlock.
Inductive t := Text | Thinking | ToolUse (id name json_buf : string).
End OpenBlock.

Module ResponseBuilder.
Record t := Mk {
  content : string;
  reasoning : string;
  reasoning_signature : string;
  tool_calls : list ToolCall.t;
  finish_reason : option FinishReason.t;
  usage : Usage.t;
  current : option OpenBlock.t }.
Definition new : t := Mk EmptyString EmptyString EmptyString [] None Usage.default None.

Definition with_current (b : t) (current : option OpenBlock.t) : t :=
  Mk b.(content) b.(reasoning) b.(reasoning_signature) b.(tool_calls) b.(finish_reason) b.(usage) current.
Definition with_usage (b : t) (usage : Usage.t) : t :=
  Mk b.(content) b.(reasoning) b.(reasoning_signature) b.(tool_calls) b.(finish_reason) usage b.(current).
End ResponseBuilder.

(** [pointer] of two keys. *)
Definition pointer2 (a b : string) (value : json) : option json := value_get a value ≫= value_get b.

(** The larger of a count and a field cut to 32 bits. *)
Definition merge_u32_max (slot : u32) (usage : json) (key : string) : u32 :=
  match value_get key usage ≫= as_u64 with
  | Some value => wrap 32 (N.max (uval slot) (uval (wrap 32 (uval value))))
  | None => slot
  end.

Definition merge_usage (usage : Usage.t) (json : json) : Usage.t :=
  Usage.Mk (merge_u32_max usage.(Usage.input_tokens) json "input_tokens")
    (merge_u32_max usage.(Usage.output_tokens) json "output_tokens")
    (merge_u32_max usage.(Usage.cache_read_tokens) json "cache_read_input_tokens")
    (merge_u32_max usage.(Usage.cache_creation_tokens) json "cache_creation_input_tokens").

Definition merge_usage_of (b : ResponseBuilder.t) (usage : option json) : ResponseBuilder.t :=
  match usage with
  | Some usage => ResponseBuilder.with_usage b (merge_usage b.(ResponseBuilder.usage) usage)
  | None => b
  end.

Definition map_finish_reason (reason : string) : FinishReason.t :=
  if String.eqb reason "end_turn" || String.eqb reason "stop_sequence" then FinishReason.Stop
  else if String.eqb reason "tool_use" then FinishReason.ToolUse
  else if String.eqb reason "max_tokens" then FinishReason.Length
  else FinishReason.Other reason.

Definition open_block (b : ResponseBuilder.t) (block : option json) : ResponseBuilder.t :=
  match block with
  | None => b
  | Some block =>
      ResponseBuilder.with_current b
        (kind ← value_get "type" block ≫= as_str;
         if String.eqb kind "text" then Some OpenBlock.Text
         else if String.eqb kind "thinking" then Some OpenBlock.Thinking
         else if String.eqb kind "tool_use"
         then Some (OpenBlock.ToolUse (str_field block "id") (str_field block "name") EmptyString)
         else None)
  end.

Definition apply_delta (b : ResponseBuilder.t) (delta : option json)
    : ResponseBuilder.t * list ChatDelta.t :=
  match delta with
  | None => (b, [])
  | Some delta =>
      let kind := default EmptyString (value_get "type" delta ≫= as_str) in
      if String.eqb kind "text_delta" then
        let text := str_field delta "text" in
        if String.eqb text EmptyString then (b, [])
        else
          (ResponseBuilder.Mk (b.(ResponseBuilder.content) +:+ text) b.(ResponseBuilder.reasoning)
             b.(ResponseBuilder.reasoning_signature) b.(ResponseBuilder.tool_calls)
             b.(ResponseBuilder.finish_reason) b.(ResponseBuilder.usage) b.(ResponseBuilder.current),
           [ChatDelta.Text text])
      else if String.eqb kind "thinking_delta" then
        let text := str_field delta "thinking" in
        if String.eqb text EmptyString then (b, [])
        else
          (ResponseBuilder.Mk b.(ResponseBuilder.content) (b.(ResponseBuilder.reasoning) +:+ text)
             b.(ResponseBuilder.reasoning_signature) b.(ResponseBuilder.tool_calls)
             b.(ResponseBuilder.finish_reason) b.(ResponseBuilder.usage) b.(ResponseBuilder.current),
           [ChatDelta.Reasoning text])
      else if String.eqb kind "signature_delta" then
        (ResponseBuilder.Mk b.(ResponseBuilder.content) b.(ResponseBuilder.reasoning)
           (b.(ResponseBuilder.reasoning_signature) +:+ str_field delta "signature")
           b.(ResponseBuilder.tool_calls) b.(ResponseBuilder.finish_reason) b.(ResponseBuilder.usage)
           b.(ResponseBuilder.current), [])
      else if String.eqb kind "input_json_delta" then
        match b.(ResponseBuilder.current) with
        | Some (OpenBlock.ToolUse id name json_buf) =>
            (ResponseBuilder.with_current b
               (Some (OpenBlock.ToolUse id name (json_buf +:+ str_field delta "partial_json"))), [])
        | _ => (b, [])
        end
      else (b, [])
  end.

Definition apply_message_delta (b : ResponseBuilder.t) (evt : json) : ResponseBuilder.t :=
  let finish_reason :=
    match pointer2 "delta" "stop_reason" evt ≫= as_str with
    | Some reason => Some (map_finish_reason reason)
    | None => b.(ResponseBuilder.finish_reason)
    end in
  merge_usage_of
    (ResponseBuilder.Mk b.(ResponseBuilder.content) b.(ResponseBuilder.reasoning)
       b.(ResponseBuilder.reasoning_signature) b.(ResponseBuilder.tool_calls) finish_reason
       b.(ResponseBuilder.usage) b.(ResponseBuilder.current))
    (value_get "usage" evt).

Definition finish_response (b : ResponseBuilder.t) : ChatResponse.t :=
  ChatResponse.Mk b.(ResponseBuilder.content) (some_text b.(ResponseBuilder.reasoning))
    (some_text b.(ResponseBuilder.reasoning_signature)) b.(ResponseBuilder.tool_calls)
    (finish_reason_or b.(ResponseBuilder.finish_reason) b.(ResponseBuilder.tool_calls))
    b.(ResponseBuilder.usage).

Section stream.
Context `{SerdeJson, SerdeText}.

Definition parse_tool_args (buf : string) : json :=
  if String.eqb (trim buf) EmptyString then JObj []
  else raw_arguments buf (from_str buf).

Definition finish_block (b : ResponseBuilder.t) : ResponseBuilder.t * list ChatDelta.t :=
  match b.(ResponseBuilder.current) with
  | Some (OpenBlock.ToolUse id name json_buf) =>
      let call := ToolCall.Mk id name (parse_tool_args json_buf) in
      (ResponseBuilder.Mk b.(ResponseBuilder.content) b.(ResponseBuilder.reasoning)
         b.(ResponseBuilder.reasoning_signature) (b.(ResponseBuilder.tool_calls) ++ [call])
         b.(ResponseBuilder.finish_reason) b.(ResponseBuilder.usage) None,
       [ChatDelta.ToolCall call])
  | _ => (ResponseBuilder.with_current b None, [])
  end.

Definition error_from_event (evt : json) : AgentError.t :=
  let msg :=
    match pointer2 "error" "message" evt ≫= as_str with
    | Some msg => msg
    | None => match value_get "error" evt with Some error => to_vec error | None => EmptyString end
    end in
  AgentError.Provider ("anthropic stream error: " +:+ msg).

(** The builder after an event with what it streams, and whether the event was the last. *)
Definition apply (b : ResponseBuilder.t) (evt : json)
    : ResponseBuilder.t * list ChatDelta.t * (bool + AgentError.t) :=
  let kind := default EmptyString (value_get "type" evt ≫= as_str) in
  if String.eqb kind "message_start" then
    (merge_usage_of b (pointer2 "message" "usage" evt), [], inl false)
  else if String.eqb kind "content_block_start" then
    (open_block b (value_get "content_block" evt), [], inl false)
  else if String.eqb kind "content_block_delta" then (apply_delta b (value_get "delta" evt), inl false)
  else if String.eqb kind "content_block_stop" then (finish_block b, inl false)
  else if String.eqb kind "message_delta" then (apply_message_delta b evt, [], inl false)
  else if String.eqb kind "message_stop" then (b, [], inl true)
  else if String.eqb kind "error" then (b, [], inr (error_from_event evt))
  else (b, [], inl false).

#[export] Instance response_fold : Fold ResponseBuilder.t :=
  {| new := ResponseBuilder.new; step := apply; finish := finish_response |}.

(** * [mod.rs] *)

(** [parse_error]: the message of a text that is no JSON. *)
Context (parse_error : string -> string) (cancelled : nat -> bool).

Definition drive_stream : Lines -> Clock.t -> list ChatDelta.t * (ChatResponse.t + AgentError.t) * Clock.t :=
  drive (B:=ResponseBuilder.t) cancelled (parse_event parse_error "JSON").

Definition messages_url (cred : Credential.t) : string :=
  let base := trim_end_chars (Ascii.eqb "/") cred.(Credential.base_url) in
  let base :=
    if String.eqb base EmptyString then ProviderId.default_base_url ProviderId.Anthropic else base in
  if starts_with (rev_str "/v1") (rev_str base) then base +:+ "/messages" else base +:+ "/v1/messages".

(** [http]: what each try of a request is answered with. *)
Definition chat (float_json : f32 -> json)
    (http : string -> list (string * string) -> json -> nat -> HttpAnswer.t)
    (cred : Credential.t) (req : ChatRequest.t) (c : Clock.t)
    : list ChatDelta.t * (ChatResponse.t + AgentError.t) * Clock.t :=
  if is_cancelled cancelled c then ([], inr AgentError.Cancelled, checked c)
  else
    with_fallback
      (stream_call cancelled drive_stream
         (http (messages_url cred) (build_headers cred) (build_body float_json req cred)) (checked c)).
End stream.
