(* ===== verification/Responses.v ===== *)
(** The OpenAI Responses provider ([nerve-agent/src/provider/openai_responses.rs] and its modules): the
    request, the fold of the event stream, the call. *)
From S2P Require Import Prelude Text Json FlowDefs EditText Tape History Disk Wire Digest BTree Transport.
Open Scope nerve_scope.

(** * [request.rs] *)

Definition responses_role (role : Role.t) : string :=
  match role with
  | Role.System => "developer"
  | Role.Assistant => "assistant"
  | Role.User | Role.Tool => "user"
  end.

Definition content_parts (content text_type : string) : list json :=
  if String.eqb content EmptyString then [JObj [("type", JStr text_type); ("text", JStr EmptyString)]]
  else [JObj [("type", JStr text_type); ("text", JStr content)]].

Definition tool_result_item (msg : Message.t) : json :=
  JObj [("type", JStr "function_call_output");
        ("call_id", JStr (default EmptyString msg.(Message.tool_call_id)));
        ("output", JStr msg.(Message.content))].

Definition prepare_tools (tools : list ToolSpec.t) : list json :=
  map (fun tool =>
      JObj [("type", JStr "function"); ("name", JStr tool.(ToolSpec.name));
            ("description", JStr tool.(ToolSpec.description)); ("parameters", tool.(ToolSpec.input_schema))])
    tools.

Section request.
Context `{SerdeJson}.

Definition arguments_to_string (arguments : json) : string :=
  match arguments with
  | JStr raw => raw
  | JNull => "{}"
  | other => to_vec other
  end.

Definition function_call_item (call : ToolCall.t) : json :=
  JObj [("type", JStr "function_call"); ("call_id", JStr call.(ToolCall.id));
        ("name", JStr call.(ToolCall.name));
        ("arguments", JStr (arguments_to_string call.(ToolCall.arguments)))].

Definition message_items (msg : Message.t) : list json :=
  let text_type := if decide (msg.(Message.role) = Role.Assistant) then "output_text" else "input_text" in
  JObj [("role", JStr (responses_role msg.(Message.role)));
        ("content", JArr (content_parts msg.(Message.content) text_type))]
  :: map function_call_item msg.(Message.tool_calls).

Definition to_input_items (messages : list Message.t) : list json :=
  flat_map (fun msg =>
      match msg.(Message.role) with
      | Role.Tool => [tool_result_item msg]
      | _ => message_items msg
      end) messages.

(** [clean_json]: the JSON number of a float's shortest decimal form. *)
Definition build_body (clean_json : f32 -> json) (req : ChatRequest.t) (client_metadata : option json)
    : json :=
  JObj
    ([("model", JStr req.(ChatRequest.model)); ("stream", JBool true); ("store", JBool false);
      ("input", JArr (to_input_items req.(ChatRequest.messages)))] ++
     option_list (pair "instructions" ∘ JStr <$> (req.(ChatRequest.system) ≫= some_text)) ++
     match req.(ChatRequest.tools) with [] => [] | tools => [("tools", JArr (prepare_tools tools))] end ++
     option_list (pair "temperature" ∘ clean_json <$> req.(ChatRequest.temperature)) ++
     option_list (pair "max_output_tokens" ∘ ser <$> req.(ChatRequest.max_tokens)) ++
     option_list ((fun effort => ("reasoning", JObj [("effort", JStr effort)])) <$>
       (req.(ChatRequest.reasoning_effort) ≫= some_text)) ++
     option_list (pair "client_metadata" <$> client_metadata)).
End request.

Module OpenAiResponsesProvider.
Record t := Mk { credential : Credential.t; window_id : string; installation_id : string }.
End OpenAiResponsesProvider.

(** * [sse.rs] *)

Module Flow.
Inductive t := Continue | Stop.
End Flow.

Module CallBuffer.
Record t := Mk { id : string; name : string; arguments : string }.
Definition default_ : t := Mk EmptyString EmptyString EmptyString.
Definition named (b : t) : bool := negb (String.eqb b.(name) EmptyString).
Definition with_arguments (f : string -> string) (b : t) : t := Mk b.(id) b.(name) (f b.(arguments)).
End CallBuffer.

(** [calls]: by the number of the output item. *)
Module Assembler.
Record t := Mk {
  content : string;
  reasoning : string;
  seen_text_delta : bool;
  calls : btree N CallBuffer.t;
  last_call_index : option N;
  usage : Usage.t;
  finish_reason : option FinishReason.t }.
Definition default_ : t := Mk EmptyString EmptyString false [] None Usage.default None.
Definition with_content (a : t) (content : string) (seen_text_delta : bool) : t :=
  Mk content a.(reasoning) seen_text_delta a.(calls) a.(last_call_index) a.(usage) a.(finish_reason).
Definition with_reasoning (a : t) (reasoning : string) : t :=
  Mk a.(content) reasoning a.(seen_text_delta) a.(calls) a.(last_call_index) a.(usage) a.(finish_reason).
Definition with_calls (a : t) (calls : btree N CallBuffer.t) (last_call_index : option N) : t :=
  Mk a.(content) a.(reasoning) a.(seen_text_delta) calls last_call_index a.(usage) a.(finish_reason).
End Assembler.

Definition output_index (event : json) : option N := uval <$> (value_get "output_index" event ≫= as_u64).

Definition resolve_index (a : Assembler.t) (event : json) : N :=
  default 0%N (match output_index event with
               | Some index => Some index
               | None => a.(Assembler.last_call_index)
               end).

(** Saturates. *)
Definition field_u32 (value : json) (field : string) : u32 :=
  let raw := default 0%N (uval <$> (value_get field value ≫= as_u64)) in
  wrap 32 (N.min raw (2 ^ 32 - 1)).

Definition parse_usage (usage : json) : Usage.t :=
  let cache_read_tokens :=
    match value_get "input_tokens_details" usage with
    | Some details => field_u32 details "cached_tokens"
    | None => wrap 32 0
    end in
  Usage.Mk (field_u32 usage "input_tokens") (field_u32 usage "output_tokens") cache_read_tokens (wrap 32 0).

Definition finish_reason_for (status : option string) (calls : btree N CallBuffer.t) : FinishReason.t :=
  let completed :=
    if existsb CallBuffer.named (map snd calls) then FinishReason.ToolUse else FinishReason.Stop in
  match status with
  | None => completed
  | Some status =>
      if String.eqb status "incomplete" then FinishReason.Length
      else if String.eqb status "completed" then completed
      else FinishReason.Other status
  end.

Definition on_text_delta (a : Assembler.t) (event : json) : Assembler.t * list ChatDelta.t :=
  match text_field event "delta" with
  | Some delta => (Assembler.with_content a (a.(Assembler.content) +:+ delta) true, [ChatDelta.Text delta])
  | None => (a, [])
  end.

Definition on_text_done (a : Assembler.t) (event : json) : Assembler.t * list ChatDelta.t :=
  if a.(Assembler.seen_text_delta) then (a, [])
  else
    match text_field event "text" with
    | Some text =>
        (Assembler.with_content a (a.(Assembler.content) +:+ text) a.(Assembler.seen_text_delta),
         [ChatDelta.Text text])
    | None => (a, [])
    end.

Definition on_reasoning_delta (a : Assembler.t) (event : json) : Assembler.t * list ChatDelta.t :=
  match text_field event "delta" with
  | Some delta => (Assembler.with_reasoning a (a.(Assembler.reasoning) +:+ delta), [ChatDelta.Reasoning delta])
  | None => (a, [])
  end.

Definition on_item_added (a : Assembler.t) (event : json) : Assembler.t :=
  let item := default JNull (value_get "item" event) in
  if decide ((value_get "type" item ≫= as_str) = Some "function_call") then
    let index := default 0%N (output_index event) in
    let id := match value_get "call_id" item with Some id => Some id | None => value_get "id" item end in
    let buffer := CallBuffer.Mk (default EmptyString (id ≫= as_str)) (str_field item "name") EmptyString in
    Assembler.with_calls a
      (bt_entry N.leb index CallBuffer.default_ (fun _ => buffer) a.(Assembler.calls)) (Some index)
  else a.

(** [get_mut] of the event's call and a string field of the event. *)
Definition on_arguments (a : Assembler.t) (event : json) (key : string)
    (change : string -> string -> string) : Assembler.t :=
  let index := resolve_index a event in
  match bt_get index a.(Assembler.calls), value_get key event ≫= as_str with
  | Some _, Some text =>
      Assembler.with_calls a
        (bt_entry N.leb index CallBuffer.default_ (CallBuffer.with_arguments (change text)) a.(Assembler.calls))
        a.(Assembler.last_call_index)
  | _, _ => a
  end.

Definition on_arguments_delta (a : Assembler.t) (event : json) : Assembler.t :=
  on_arguments a event "delta" (fun delta arguments => arguments +:+ delta).

Definition on_arguments_done (a : Assembler.t) (event : json) : Assembler.t :=
  on_arguments a event "arguments" (fun text _ => text).

Definition on_completed (a : Assembler.t) (event : json) : Assembler.t :=
  let response := default JNull (value_get "response" event) in
  let usage :=
    match value_get "usage" response with Some usage => parse_usage usage | None => a.(Assembler.usage) end in
  Assembler.Mk a.(Assembler.content) a.(Assembler.reasoning) a.(Assembler.seen_text_delta)
    a.(Assembler.calls) a.(Assembler.last_call_index) usage
    (Some (finish_reason_for (value_get "status" response ≫= as_str) a.(Assembler.calls))).

Section stream.
Context `{SerdeJson, SerdeText}.

Definition parse_arguments (raw : string) : json :=
  if String.eqb (trim raw) EmptyString then JObj [] else raw_arguments raw (from_str raw).

Definition stream_error (event : json) : AgentError.t :=
  let error := default JNull (value_get "error" event) in
  AgentError.Provider (default (to_vec error) (value_get "message" error ≫= as_str)).

Definition handle_event (a : Assembler.t) (event : json)
    : Assembler.t * list ChatDelta.t * (Flow.t + AgentError.t) :=
  let kind := default EmptyString (value_get "type" event ≫= as_str) in
  let same := String.eqb kind in
  if same "response.output_text.delta" then (on_text_delta a event, inl Flow.Continue)
  else if same "response.output_text.done" then (on_text_done a event, inl Flow.Continue)
  else if same "response.reasoning_summary_text.delta" || same "response.reasoning_summary.delta"
  then (on_reasoning_delta a event, inl Flow.Continue)
  else if same "response.output_item.added" then (on_item_added a event, [], inl Flow.Continue)
  else if same "response.function_call_arguments.delta"
  then (on_arguments_delta a event, [], inl Flow.Continue)
  else if same "response.function_call_arguments.done"
  then (on_arguments_done a event, [], inl Flow.Continue)
  else if same "response.completed" then (on_completed a event, [], inl Flow.Stop)
  else if same "error" then (a, [], inr (stream_error event))
  else (a, [], inl Flow.Continue).

Definition collect_tool_calls (a : Assembler.t) : list ToolCall.t :=
  map (fun buffer =>
      ToolCall.Mk buffer.(CallBuffer.id) buffer.(CallBuffer.name) (parse_arguments buffer.(CallBuffer.arguments)))
    (List.filter CallBuffer.named (map snd a.(Assembler.calls))).

Definition finish_assembler (a : Assembler.t) : ChatResponse.t :=
  let tool_calls := collect_tool_calls a in
  ChatResponse.Mk a.(Assembler.content) (some_text a.(Assembler.reasoning)) None tool_calls
    (finish_reason_or a.(Assembler.finish_reason) tool_calls) a.(Assembler.usage).

(** [handle_event(..)? == Flow::Stop]. *)
Definition stops (flow : Flow.t + AgentError.t) : bool + AgentError.t :=
  match flow with
  | inl Flow.Stop => inl true
  | inl Flow.Continue => inl false
  | inr error => inr error
  end.

#[export] Instance assembler_fold : Fold Assembler.t :=
  {| new := Assembler.default_;
     step a event := let '(a, deltas, flow) := handle_event a event in (a, deltas, stops flow);
     finish := finish_assembler |}.

(** * [openai_responses.rs] *)

Definition CODEX_ORIGINATOR : string := "codex_exec".
Definition CODEX_RESPONSES_URL : string := "https://chatgpt.com/backend-api/codex/responses".
Definition CODEX_USER_AGENT : string :=
  "codex_exec/0.139.0 (Windows 10.0.26200; x86_64) unknown (codex_exec; 0.139.0)".

(** Byte [i] with the bits of [keep] kept and those of [set] added. *)
Definition stamp (i : nat) (keep set : N) (s : bytes) : bytes :=
  match String.get i s with
  | Some c =>
      String.substring 0 i s +:+
      String (Ascii.ascii_of_N (N.lor (N.land (Ascii.N_of_ascii c) keep) set))
        (String.substring (S i) (String.length s - S i) s)
  | None => s
  end.

(** From sixteen random bytes. *)
Definition random_uuid (random : bytes) : string :=
  let h := hex (stamp 8 63 128 (stamp 6 15 64 random)) in
  String.substring 0 8 h +:+ "-" +:+ String.substring 8 4 h +:+ "-" +:+ String.substring 12 4 h +:+ "-" +:+
  String.substring 16 4 h +:+ "-" +:+ String.substring 20 12 h.

Definition new_provider (window installation : bytes) (credential : Credential.t)
    : OpenAiResponsesProvider.t :=
  OpenAiResponsesProvider.Mk credential (random_uuid window +:+ ":0") (random_uuid installation).

Definition is_oauth (p : OpenAiResponsesProvider.t) : bool :=
  bool_decide (p.(OpenAiResponsesProvider.credential).(Credential.mode) = AuthMode.Oauth).

Definition endpoint (p : OpenAiResponsesProvider.t) : string :=
  if is_oauth p then CODEX_RESPONSES_URL
  else
    trim_end_chars (Ascii.eqb "/") p.(OpenAiResponsesProvider.credential).(Credential.base_url)
    +:+ "/v1/responses".

Definition account_id (p : OpenAiResponsesProvider.t) : option string :=
  p.(OpenAiResponsesProvider.credential).(Credential.account_id) ≫= fun id => some_text (trim id).

Definition headers (p : OpenAiResponsesProvider.t) : list (string * string) :=
  [("Authorization", "Bearer " +:+ p.(OpenAiResponsesProvider.credential).(Credential.access_token));
   ("Content-Type", "application/json")] ++
  if is_oauth p then
    [("originator", CODEX_ORIGINATOR); ("User-Agent", CODEX_USER_AGENT)] ++
    option_list (pair "chatgpt-account-id" <$> account_id p)
  else [].

Definition client_metadata (p : OpenAiResponsesProvider.t) : option json :=
  if is_oauth p then
    Some (JObj [("x-codex-window-id", JStr p.(OpenAiResponsesProvider.window_id));
                ("x-codex-installation-id", JStr p.(OpenAiResponsesProvider.installation_id))])
  else None.

(** [parse_error]: the message of a text that is no JSON. *)
Context (parse_error : string -> string) (cancelled : nat -> bool).

Definition stream (answers : nat -> HttpAnswer.t) (c : Clock.t)
    : list ChatDelta.t * (ChatResponse.t + AgentError.t) * Clock.t :=
  stream_call cancelled (drive (B:=Assembler.t) cancelled (parse_event parse_error "event JSON")) answers c.

(** [http]: what each try of a request is answered with. *)
Definition chat (clean_json : f32 -> json)
    (http : string -> list (string * string) -> json -> nat -> HttpAnswer.t)
    (p : OpenAiResponsesProvider.t) (req : ChatRequest.t) (c : Clock.t)
    : list ChatDelta.t * (ChatResponse.t + AgentError.t) * Clock.t :=
  if is_cancelled cancelled c then ([], inr AgentError.Cancelled, checked c)
  else
    let body := build_body clean_json req (client_metadata p) in
    with_fallback (stream (http (endpoint p) (headers p) body) (checked c)).
End stream.
