(* ===== verification/Xai.v ===== *)
(** The xAI provider ([nerve-agent/src/provider/xai.rs]): chat completions in the wire form of OpenAI. *)
From S2P Require Import Prelude Text Json FlowDefs EditText Tape History Disk Wire BTree Transport.
Open Scope nerve_scope.

Definition endpoint (cred : Credential.t) : string :=
  trim_end_chars (Ascii.eqb "/") cred.(Credential.base_url) +:+ "/v1/chat/completions".

Definition headers (cred : Credential.t) : list (string * string) :=
  [("Authorization", "Bearer " +:+ cred.(Credential.access_token)); ("Content-Type", "application/json")].

(** * The request *)

Definition supports_reasoning_effort (model : string) : bool :=
  let model := lower model in
  if contains_str "non-reasoning" model then false
  else
    contains_str "reasoning" model || contains_str "multi-agent" model ||
    starts_with "grok-3-mini" model || starts_with "grok-4.3" model.

Definition tools_to_json (tools : list ToolSpec.t) : json :=
  JArr (map (fun tool =>
      JObj [("type", JStr "function");
            ("function", JObj [("name", JStr tool.(ToolSpec.name));
                               ("description", JStr tool.(ToolSpec.description));
                               ("parameters", tool.(ToolSpec.input_schema))])]) tools).

Section request.
Context `{SerdeJson}.

Definition stringify_arguments (args : json) : string :=
  match args with
  | JStr s => s
  | JNull => "{}"
  | other => to_vec other
  end.

Definition call_to_json (call : ToolCall.t) : json :=
  JObj [("id", JStr call.(ToolCall.id)); ("type", JStr "function");
        ("function", JObj [("name", JStr call.(ToolCall.name));
                           ("arguments", JStr (stringify_arguments call.(ToolCall.arguments)))])].

Definition assistant_to_json (message : Message.t) : json :=
  JObj
    ([("role", JStr "assistant"); ("content", JStr message.(Message.content))] ++
     match message.(Message.tool_calls) with
     | [] => []
     | calls => [("tool_calls", JArr (map call_to_json calls))]
     end).

Definition message_to_json (message : Message.t) : json :=
  match message.(Message.role) with
  | Role.Tool =>
      JObj [("role", JStr "tool");
            ("tool_call_id", JStr (default EmptyString message.(Message.tool_call_id)));
            ("content", JStr message.(Message.content))]
  | Role.Assistant => assistant_to_json message
  | Role.System => JObj [("role", JStr "system"); ("content", JStr message.(Message.content))]
  | Role.User => JObj [("role", JStr "user"); ("content", JStr message.(Message.content))]
  end.

(** [clean_json]: the JSON number of a float's shortest decimal form. *)
Definition build_body (clean_json : f32 -> json) (req : ChatRequest.t) : json :=
  let system :=
    option_list ((fun text => JObj [("role", JStr "system"); ("content", JStr text)]) <$>
      (req.(ChatRequest.system) ≫= some_text)) in
  JObj
    ([("model", JStr req.(ChatRequest.model));
      ("messages", JArr (system ++ map message_to_json req.(ChatRequest.messages)));
      ("stream", JBool true); ("stream_options", JObj [("include_usage", JBool true)])] ++
     option_list (pair "temperature" ∘ clean_json <$> req.(ChatRequest.temperature)) ++
     option_list (pair "max_tokens" ∘ ser <$> req.(ChatRequest.max_tokens)) ++
     option_list ((fun effort => ("reasoning_effort", JStr effort)) <$>
       (effort ← req.(ChatRequest.reasoning_effort) ≫= some_text;
        if supports_reasoning_effort req.(ChatRequest.model) then Some effort else None)) ++
     match req.(ChatRequest.tools) with [] => [] | tools => [("tools", tools_to_json tools)] end).
End request.

(** * The stream *)

Module PartialToolCall.
Record t := Mk { id : string; name : string; arguments : string; emitted : bool }.
Definition default_ : t := Mk EmptyString EmptyString EmptyString false.
End PartialToolCall.

(** [tool_calls]: by the number of the call in the stream. *)
Module StreamState.
Record t := Mk {
  content : string;
  reasoning : string;
  tool_calls : btree N PartialToolCall.t;
  finish_reason : option FinishReason.t;
  usage : Usage.t }.
Definition default_ : t := Mk EmptyString EmptyString [] None Usage.default.
Definition with_content (s : t) (content : string) : t :=
  Mk content s.(reasoning) s.(tool_calls) s.(finish_reason) s.(usage).
Definition with_reasoning (s : t) (reasoning : string) : t :=
  Mk s.(content) reasoning s.(tool_calls) s.(finish_reason) s.(usage).
Definition with_tool_calls (s : t) (tool_calls : btree N PartialToolCall.t) : t :=
  Mk s.(content) s.(reasoning) tool_calls s.(finish_reason) s.(usage).
Definition with_finish_reason (s : t) (reason : FinishReason.t) : t :=
  Mk s.(content) s.(reasoning) s.(tool_calls) (Some reason) s.(usage).
Definition with_usage (s : t) (usage : Usage.t) : t :=
  Mk s.(content) s.(reasoning) s.(tool_calls) s.(finish_reason) usage.
End StreamState.

(** [as u32]: cut to 32 bits. *)
Definition tokens_of (usage : json) (key : string) (before : u32) : u32 :=
  match value_get key usage ≫= as_u64 with
  | Some count => wrap 32 (uval count)
  | None => before
  end.

Definition absorb_usage (s : StreamState.t) (usage : json) : StreamState.t :=
  let u := s.(StreamState.usage) in
  StreamState.with_usage s
    (Usage.Mk (tokens_of usage "prompt_tokens" u.(Usage.input_tokens))
       (tokens_of usage "completion_tokens" u.(Usage.output_tokens))
       u.(Usage.cache_read_tokens) u.(Usage.cache_creation_tokens)).

Definition absorb_reasoning (s : StreamState.t) (delta : json) : StreamState.t * list ChatDelta.t :=
  match text_field delta "reasoning_content" with
  | Some reasoning =>
      (StreamState.with_reasoning s (s.(StreamState.reasoning) +:+ reasoning), [ChatDelta.Reasoning reasoning])
  | None => (s, [])
  end.

Definition absorb_content (s : StreamState.t) (delta : json) : StreamState.t * list ChatDelta.t :=
  match text_field delta "content" with
  | Some text => (StreamState.with_content s (s.(StreamState.content) +:+ text), [ChatDelta.Text text])
  | None => (s, [])
  end.

Definition absorb_call (call : json) (slot : PartialToolCall.t) : PartialToolCall.t :=
  let function := value_get "function" call in
  PartialToolCall.Mk
    (default slot.(PartialToolCall.id) (text_field call "id"))
    (default slot.(PartialToolCall.name) (function ≫= fun f => text_field f "name"))
    (slot.(PartialToolCall.arguments) +:+
     default EmptyString (function ≫= fun f => value_get "arguments" f ≫= as_str))
    slot.(PartialToolCall.emitted).

Definition call_index (call : json) : N := default 0%N (uval <$> (value_get "index" call ≫= as_u64)).

Definition merge_calls (calls : list json) (slots : btree N PartialToolCall.t) : btree N PartialToolCall.t :=
  foldl (fun slots call =>
      bt_entry N.leb (call_index call) PartialToolCall.default_ (absorb_call call) slots) slots calls.

Definition parse_finish_reason (reason : string) : FinishReason.t :=
  if String.eqb reason "stop" then FinishReason.Stop
  else if String.eqb reason "tool_calls" then FinishReason.ToolUse
  else if String.eqb reason "length" then FinishReason.Length
  else FinishReason.Other reason.

Section stream.
Context `{SerdeJson, SerdeText}.

Definition stream_error_message (event : json) : option string :=
  err ← value_get "error" event;
  match value_get "message" err ≫= as_str with
  | Some message => Some message
  | None => Some (to_vec err)
  end.

Definition parse_arguments (raw : string) : option json :=
  let trimmed := trim raw in
  if String.eqb trimmed EmptyString then Some (JObj []) else from_str trimmed.

Definition parse_arguments_final (raw : string) : json := raw_arguments raw (parse_arguments raw).

(** A slot, marked if its call is emitted now. *)
Definition flush_slot (slot : PartialToolCall.t) : PartialToolCall.t * list ChatDelta.t :=
  if slot.(PartialToolCall.emitted) || String.eqb slot.(PartialToolCall.name) EmptyString then (slot, [])
  else
    match parse_arguments slot.(PartialToolCall.arguments) with
    | None => (slot, [])
    | Some arguments =>
        (PartialToolCall.Mk slot.(PartialToolCall.id) slot.(PartialToolCall.name)
           slot.(PartialToolCall.arguments) true,
         [ChatDelta.ToolCall
            (ToolCall.Mk slot.(PartialToolCall.id) slot.(PartialToolCall.name) arguments)])
    end.

Definition flush_completed_calls (slots : btree N PartialToolCall.t)
    : btree N PartialToolCall.t * list ChatDelta.t :=
  (map (fun '(index, slot) => (index, (flush_slot slot).1)) slots,
   flat_map (fun '(_, slot) => (flush_slot slot).2) slots).

Definition absorb_tool_calls (s : StreamState.t) (calls : list json) : StreamState.t * list ChatDelta.t :=
  let '(slots, deltas) := flush_completed_calls (merge_calls calls s.(StreamState.tool_calls)) in
  (StreamState.with_tool_calls s slots, deltas).

Definition is_null (v : json) : bool := match v with JNull => true | _ => false end.

Definition as_array (v : json) : option (list json) := match v with JArr l => Some l | _ => None end.

Definition absorb_delta (s : StreamState.t) (delta : json) : StreamState.t * list ChatDelta.t :=
  let '(s, reasoning) := absorb_reasoning s delta in
  let '(s, text) := absorb_content s delta in
  let '(s, emitted) :=
    match value_get "tool_calls" delta ≫= as_array with
    | Some calls => absorb_tool_calls s calls
    | None => (s, [])
    end in
  (s, reasoning ++ text ++ emitted).

Definition apply_event (s : StreamState.t) (event : json) : StreamState.t * list ChatDelta.t :=
  let s :=
    match value_get "usage" event with
    | Some usage => if is_null usage then s else absorb_usage s usage
    | None => s
    end in
  match (value_get "choices" event ≫= as_array) ≫= head with
  | None => (s, [])
  | Some choice =>
      let s :=
        match value_get "finish_reason" choice ≫= as_str with
        | Some reason => StreamState.with_finish_reason s (parse_finish_reason reason)
        | None => s
        end in
      match value_get "delta" choice with
      | None => (s, [])
      | Some delta => absorb_delta s delta
      end
  end.

(** The calls of the slots that have a name. *)
Definition final_calls (slots : btree N PartialToolCall.t) : list ToolCall.t :=
  map (fun slot =>
      ToolCall.Mk slot.(PartialToolCall.id) slot.(PartialToolCall.name)
        (parse_arguments_final slot.(PartialToolCall.arguments)))
    (List.filter (fun slot => negb (String.eqb slot.(PartialToolCall.name) EmptyString)) (map snd slots)).

Definition finish_state (s : StreamState.t) : ChatResponse.t :=
  let tool_calls := final_calls s.(StreamState.tool_calls) in
  ChatResponse.Mk s.(StreamState.content) (some_text s.(StreamState.reasoning)) None tool_calls
    (finish_reason_or s.(StreamState.finish_reason) tool_calls) s.(StreamState.usage).

(** The body of the loop of [drive_stream]; only the stream's end stops it. *)
#[export] Instance state_fold : Fold StreamState.t :=
  {| new := StreamState.default_;
     step s event :=
       match stream_error_message event with
       | Some message => (s, [], inr (AgentError.Provider message))
       | None => (apply_event s event, inl false)
       end;
     finish := finish_state |}.

(** [parse_error]: the message of a text that is no JSON. *)
Context (parse_error : string -> string) (cancelled : nat -> bool).

Definition drive_stream : Lines -> Clock.t -> list ChatDelta.t * (ChatResponse.t + AgentError.t) * Clock.t :=
  drive (B:=StreamState.t) cancelled (parse_event parse_error "chunk").

(** [http]: what each try of a request is answered with. *)
Definition chat (clean_json : f32 -> json)
    (http : string -> list (string * string) -> json -> nat -> HttpAnswer.t)
    (cred : Credential.t) (req : ChatRequest.t) (c : Clock.t)
    : list ChatDelta.t * (ChatResponse.t + AgentError.t) * Clock.t :=
  with_fallback
    (stream_call cancelled drive_stream (http (endpoint cred) (headers cred) (build_body clean_json req)) c).
End stream.
