(* ===== verification/ProviderSpec.v ===== *)
(** What a call of a model provider does: how often it tries, how long it waits and what it answers
    ([with_retry]); that what is streamed is what is answered, for each of the three providers; the turns
    of a request; the calls recovered from text. *)
From S2P Require Import Prelude Text Json FlowDefs EditText Tape History Disk Wire WireReference BTree Reference.
From S2P Require Import Transport Anthropic Responses Xai.
Open Scope nerve_scope.

(** * Checks of the token *)

Section checks.
Context (cancelled : nat -> bool).

(** No check from [a] up to [b] finds the token cancelled. *)
Definition quiet (a b : nat) : Prop := forall i, a <= i < b -> cancelled i = false.

(** The last check before [b], the first from [a] on to do so, finds it cancelled. *)
Definition stopped (a b : nat) : Prop := exists k, b = S k /\ a <= k /\ quiet a k /\ cancelled k = true.

Lemma quiet_nil a : quiet a a.
Proof. intros i. lia. Qed.

Lemma quiet_cons a b : cancelled a = false -> quiet (S a) b -> quiet a b.
Proof. intros C Q i L. destruct (decide (i = a)) as [->|]; [done|]. apply Q. lia. Qed.

Lemma quiet_app a b c : quiet a b -> quiet b c -> quiet a c.
Proof. intros Q1 Q2 i L. destruct (decide (i < b)); [apply Q1|apply Q2]; lia. Qed.

Lemma stopped_app a b c : a <= b -> quiet a b -> stopped b c -> stopped a c.
Proof.
  intros L Q (k & -> & Lk & Qk & C). exists k. split_and!; [done|lia| |done]. by eapply quiet_app.
Qed.

Lemma stopped_now a : cancelled a = true -> stopped a (S a).
Proof. intros C. exists a. split_and!; [done|lia|apply quiet_nil|done]. Qed.

(** * Sleeping *)

(** What a wait of at most [total] leaves of the clock. *)
Definition waited_between (c c' : Clock.t) (total : N) : Prop :=
  c'.(Clock.tries) = c.(Clock.tries) /\ c.(Clock.checks) <= c'.(Clock.checks) /\
  (c.(Clock.slept) <= c'.(Clock.slept) <= c.(Clock.slept) + total)%N /\
  (c'.(Clock.slept) - c.(Clock.slept) <= SLEEP_SLICE * N.of_nat (c'.(Clock.checks) - c.(Clock.checks)))%N.

Lemma sleep_slices_spec fuel : forall remaining c r c',
  (remaining <= SLEEP_SLICE * N.of_nat fuel)%N ->
  sleep_slices cancelled fuel remaining c = (r, c') ->
  waited_between c c' remaining /\
  match r with
  | inl _ => c'.(Clock.slept) = (c.(Clock.slept) + remaining)%N /\ quiet c.(Clock.checks) c'.(Clock.checks)
  | inr e => e = AgentError.Cancelled /\ stopped c.(Clock.checks) c'.(Clock.checks)
  end.
Proof.
  unfold SLEEP_SLICE. induction fuel as [|fuel IH]; simpl; intros remaining c r c' F E.
  { injection E as <- <-. unfold waited_between. split_and!; try lia. apply quiet_nil. }
  destruct (N.eqb_spec remaining 0) as [->|NZ].
  { injection E as <- <-. unfold waited_between. split_and!; try lia. apply quiet_nil. }
  unfold is_cancelled in E. destruct (cancelled _) eqn:C.
  { injection E as <- <-. unfold waited_between. simpl. split_and!; try lia; [done|by apply stopped_now]. }
  apply IH in E as [(T & K & SL & B) R]; [|unfold SLEEP_SLICE; lia]. unfold SLEEP_SLICE in *. simpl in *.
  split; [unfold waited_between, SLEEP_SLICE; split_and!; lia|].
  destruct r.
  - destruct R as [-> Q]. split; [lia|]. by apply quiet_cons.
  - destruct R as [-> R]. split; [done|]. apply (stopped_app _ (S (Clock.checks c))); [lia| |done].
    apply quiet_cons; [done|apply quiet_nil].
Qed.

Lemma backoff_sleep_spec total c r c' :
  backoff_sleep cancelled total c = (r, c') ->
  waited_between c c' total /\
  match r with
  | inl _ => c'.(Clock.slept) = (c.(Clock.slept) + total)%N /\ quiet c.(Clock.checks) c'.(Clock.checks)
  | inr e => e = AgentError.Cancelled /\ stopped c.(Clock.checks) c'.(Clock.checks)
  end.
Proof.
  apply sleep_slices_spec. unfold SLEEP_SLICE. pose proof (N.div_mod total 50). pose proof (N.mod_lt total 50).
  lia.
Qed.

(** * Tries *)

Context {A : Type} (attempt : nat -> Attempt.t A) (policy : RetryPolicy.t) (first : nat).

(** The wait after the try [i], which comes after [first] others. *)
Definition wait_after (i : nat) : N :=
  match attempt (first + i) with
  | Attempt.Retry _ retry_after => delay_of policy i retry_after
  | _ => 0%N
  end.

Fixpoint waits (n : nat) : N := match n with 0 => 0%N | S n => (waits n + wait_after n)%N end.

Definition transient (i : nat) : Prop := exists e retry_after, attempt (first + i) = Attempt.Retry e retry_after.

(** The try [i] ends the tries, with [r]. *)
Definition settles (i : nat) (r : A + AgentError.t) : Prop :=
  match attempt (first + i) with
  | Attempt.Done v => r = inl v
  | Attempt.Fatal e => r = inr e
  | Attempt.Retry e _ => r = inr e /\ i = N.to_nat (uval policy.(RetryPolicy.max_retries))
  end.

(** From the clock [c] on, after [i] tries. *)
Definition retried (i : nat) (c : Clock.t) (r : A + AgentError.t) (c' : Clock.t) : Prop :=
  exists n,
    c'.(Clock.tries) = first + n /\ i <= n <= S (N.to_nat (uval policy.(RetryPolicy.max_retries))) /\
    (forall j, i <= j -> S j < n -> transient j) /\
    (c'.(Clock.slept) - c.(Clock.slept) <= SLEEP_SLICE * N.of_nat (c'.(Clock.checks) - c.(Clock.checks)))%N /\
    c.(Clock.checks) <= c'.(Clock.checks) /\ (c.(Clock.slept) <= c'.(Clock.slept))%N /\
    ((exists k, n = S k /\ settles k r /\ quiet c.(Clock.checks) c'.(Clock.checks) /\
        (c'.(Clock.slept) + waits i = c.(Clock.slept) + waits k)%N) \/
     (r = inr AgentError.Cancelled /\ stopped c.(Clock.checks) c'.(Clock.checks) /\
        (c'.(Clock.slept) + waits i <= c.(Clock.slept) + waits n)%N /\ (forall j, i <= j < n -> transient j) /\
        n <= N.to_nat (uval policy.(RetryPolicy.max_retries)))).

Lemma retry_from_spec more : forall i c r c',
  c.(Clock.tries) = first + i -> i + more = N.to_nat (uval policy.(RetryPolicy.max_retries)) ->
  retry_from cancelled attempt policy more i c = (r, c') -> retried i c r c'.
Proof.
  induction more as [|more IH]; simpl; intros i c r c' T M E; unfold is_cancelled in E.
  all: destruct (cancelled _) eqn:C; [injection E as <- <-; exists i; simpl; split_and!; try lia;
    right; split_and!; [done|by apply stopped_now|lia|intros; lia|lia]|].
  all: destruct (attempt _) as [v|e ra|e] eqn:At.
  1-3, 4, 6: injection E as <- <-; exists (S i); simpl; split_and!; try lia;
    left; exists i; unfold settles; rewrite <- T, At;
    split_and!; try done; try lia; (apply quiet_cons; [done|apply quiet_nil]).
  assert (transient i) as Tr by (exists e, ra; by rewrite <- T).
  assert (wait_after i = delay_of policy i ra) as W by (unfold wait_after; by rewrite <- T, At).
  destruct (backoff_sleep cancelled (delay_of policy i ra) _) as [[[]|e'] c1] eqn:B.
  all: apply backoff_sleep_spec in B as [(T1 & K1 & S1 & L1) R1]; simpl in *.
  - destruct R1 as [SL Q]. apply IH in E as (n & Tn & In & Trs & L2 & K2 & S2 & D); [|lia|lia].
    simpl in *. rewrite W in D.
    assert (quiet (Clock.checks c) (Clock.checks c1)) as Qc by (by apply quiet_cons).
    exists n. unfold SLEEP_SLICE in *. split_and!; try lia.
    { intros j Lj Ln. destruct (decide (j = i)) as [->|]; [done|]. apply Trs; lia. }
    destruct D as [(k & -> & Se & Qk & Sk)|(-> & St & Sk & Tk & Nk)]; [left; exists k|right]; split_and!; try done.
    + by eapply quiet_app.
    + lia.
    + by apply (stopped_app _ (Clock.checks c1)); [lia| |].
    + lia.
    + intros j Lj. destruct (decide (j = i)) as [->|]; [done|]. apply Tk; lia.
  - injection E as <- <-. destruct R1 as [-> St]. exists (S i). unfold SLEEP_SLICE in *. split_and!; try lia.
    right. split_and!; [done| |simpl; lia| |lia].
    + apply (stopped_app _ (S (Clock.checks c))); [lia| |done]. apply quiet_cons; [done|apply quiet_nil].
    + intros j Lj. by replace j with i by lia.
Qed.
End checks.

Lemma with_retry_retried {A} cancelled (attempt : nat -> Attempt.t A) policy c r c' :
  with_retry cancelled attempt policy c = (r, c') ->
  retried cancelled attempt policy c.(Clock.tries) 0 c r c'.
Proof. apply retry_from_spec; lia. Qed.

(** * The default policy *)

Lemma backoff_le retry_index : (RetryPolicy.backoff RetryPolicy.default retry_index <= 8000)%N.
Proof. apply N.le_min_r. Qed.

Lemma wait_after_le {A} (attempt : nat -> Attempt.t A) first i :
  (wait_after attempt RetryPolicy.default first i <= RETRY_AFTER_CAP)%N.
Proof.
  unfold wait_after, delay_of, RETRY_AFTER_CAP. destruct (attempt _) as [|e [s|]|]; try lia.
  pose proof (backoff_le i). lia.
Qed.

Lemma waits_le {A} (attempt : nat -> Attempt.t A) first n :
  (waits attempt RetryPolicy.default first n <= N.of_nat n * RETRY_AFTER_CAP)%N.
Proof.
  induction n as [|n IH]; simpl; [lia|]. pose proof (wait_after_le attempt first n).
  unfold RETRY_AFTER_CAP in *. lia.
Qed.

(** The answer is worth another try: a failure of the transport, or a status of the list. *)
Definition retryable (answer : HttpAnswer.t) : Prop :=
  match answer with
  | HttpAnswer.Failed _ => True
  | HttpAnswer.Answered status _ _ _ => status ∈ [408; 429; 500; 502; 503; 504; 529]%N
  end.

(** What an answer comes to, when the tries stop at it. *)
Definition answered (answer : HttpAnswer.t) (r : Lines + AgentError.t) (last : bool) : Prop :=
  (retryable answer -> last = true) /\
  match answer with
  | HttpAnswer.Failed message => r = inr (AgentError.Http message)
  | HttpAnswer.Answered status _ body lines =>
      if decide (200 <= status < 300)%N then r = inl lines
      else r = inr (AgentError.Http ("HTTP " +:+ pretty status +:+ ": " +:+ body))
  end.

(** The whole seconds the server suggests: the header is a decimal number, perhaps signed, of 64 bits. *)
Definition seconds (header : option string) : option N :=
  raw ← header;
  let digits := default (trim raw) (strip_prefix "+" (trim raw)) in
  n ← if String.eqb digits EmptyString then None else parse_digits 0 digits;
  guard (n < 2 ^ 64)%N;; Some n.

(** The milliseconds to wait after the failure [answer], which [i] others came before: as many seconds as the
    server suggests but at most thirty, else half a second, one second, two seconds. *)
Definition pause (i : nat) (answer : HttpAnswer.t) : N :=
  let suggested := match answer with HttpAnswer.Answered _ header _ _ => seconds header | _ => None end in
  match suggested with
  | Some s => N.min (1000 * s) 30000
  | None => nth i [500; 1000; 2000]%N 0%N
  end.

(** Those after the first [n] failures from the answer [first] on. *)
Fixpoint pauses (answers : nat -> HttpAnswer.t) (first n : nat) : N :=
  match n with 0 => 0%N | S n => (pauses answers first n + pause n (answers (first + n)%nat))%N end.

Lemma retry_after_seconds header : retry_after_of header = (fun s => 1000 * s)%N <$> seconds header.
Proof.
  unfold retry_after_of, seconds. destruct header as [raw|]; [|done]. simpl. destruct (String.eqb _ _); [done|].
  destruct (parse_digits _ _) as [n|]; [|done]. simpl. destruct (N.ltb_spec n (2 ^ 64)).
  - rewrite option_guard_True by done. simpl. f_equal. lia.
  - by rewrite option_guard_False by lia.
Qed.

Lemma wait_pause (answers : nat -> HttpAnswer.t) first i :
  i < 3 -> transient (fun i => classify (answers i)) first i ->
  wait_after (fun i => classify (answers i)) RetryPolicy.default first i = pause i (answers (first + i)).
Proof.
  intros L (e & ra & E). unfold wait_after, pause. rewrite E.
  assert (ra = match answers (first + i) with HttpAnswer.Answered _ header _ _ => retry_after_of header | _ => None end) as ->.
  { revert E. unfold classify. repeat case_match; congruence. }
  assert (delay_of RetryPolicy.default i None = nth i [500; 1000; 2000]%N 0%N) as B.
  { destruct i as [|[|[|i]]]; [reflexivity.. | lia]. }
  destruct (answers (first + i)) as [|status header body lines]; [exact B|].
  rewrite retry_after_seconds. by destruct (seconds header); [|exact B].
Qed.

Lemma waits_pauses (answers : nat -> HttpAnswer.t) first n :
  n <= 3 -> (forall i, i < n -> transient (fun i => classify (answers i)) first i) ->
  waits (fun i => classify (answers i)) RetryPolicy.default first n = pauses answers first n.
Proof.
  induction n as [|n IH]; intros L T; [done|]. simpl. rewrite IH; [|lia|intros; apply T; lia].
  rewrite wait_pause; [done|lia|apply T; lia].
Qed.

Lemma retryable_transient (answers : nat -> HttpAnswer.t) first i :
  transient (fun i => classify (answers i)) first i -> retryable (answers (first + i)).
Proof.
  intros (e & ra & E). destruct (answers (first + i)) as [|status header body lines]; simpl in *; [done|].
  repeat case_match; simplify_eq. unfold is_retryable_status in *.
  match goal with K : existsb _ _ = true |- _ => apply existsb_exists in K as (s & I & ->%N.eqb_eq) end.
  by apply list_elem_of_In.
Qed.

Lemma settles_answered (answers : nat -> HttpAnswer.t) first k r :
  settles (fun i => classify (answers i)) RetryPolicy.default first k r -> answered (answers (first + k)) r (k =? 3).
Proof.
  unfold settles, answered. change (N.to_nat (uval (RetryPolicy.max_retries RetryPolicy.default))) with 3.
  destruct (answers (first + k)) as [message|status header body lines]; simpl; [by intros [-> ->]|].
  destruct (N.leb_spec 200 status), (N.ltb_spec status 300); simpl; intros S.
  1: rewrite decide_True by lia; split; [|done]; intros R; rewrite !elem_of_cons, elem_of_nil in R; lia.
  all: rewrite decide_False by lia; destruct (is_retryable_status status) eqn:I;
    [destruct S as [-> ->]; done|split; [|done]; intros R].
  all: assert (is_retryable_status status = true); [|congruence]; unfold is_retryable_status;
    apply existsb_exists; exists status; split; [by apply list_elem_of_In|apply N.eqb_refl].
Qed.

(** C22: Opening the stream of a model's answer. A call makes at most four tries, each but the last met by a
    retryable failure (of the transport, or of status 408, 429, 500, 502, 503, 504 or 529), and stops at the
    first that is not: a status of success gives the stream, any other failure its error, and the fourth failure
    is the one reported. After a failure it waits exactly the seconds the server suggests, up to thirty, or else
    half a second after the first, one after the second and two after the third; at most ninety seconds in all.
    Once the token is cancelled no try follows: every earlier check found it live, the answer is the
    cancellation, and no more than one slice of fifty milliseconds is slept for each check made. *)
Theorem post_sse_spec cancelled answers c r c' :
  post_sse cancelled answers c = (r, c') ->
  let first := c.(Clock.tries) in
  exists n,
    c'.(Clock.tries) = first + n /\ n <= 4 /\
    (forall i, S i < n -> retryable (answers (first + i))) /\
    (c'.(Clock.slept) <= c.(Clock.slept) + 90000)%N /\
    (c'.(Clock.slept) - c.(Clock.slept) <= 50 * N.of_nat (c'.(Clock.checks) - c.(Clock.checks)))%N /\
    ((exists k, n = S k /\ answered (answers (first + k)) r (k =? 3) /\
        quiet cancelled c.(Clock.checks) c'.(Clock.checks) /\
        c'.(Clock.slept) = (c.(Clock.slept) + pauses answers first k)%N) \/
     (r = inr AgentError.Cancelled /\ stopped cancelled c.(Clock.checks) c'.(Clock.checks) /\
        (c'.(Clock.slept) <= c.(Clock.slept) + pauses answers first n)%N /\
        forall i, i < n -> retryable (answers (first + i)))).
Proof.
  intros E first. subst first. apply with_retry_retried in E as (n & T & L & Tr & B & _ & _ & D).
  pose proof (waits_le (fun i => classify (answers i)) c.(Clock.tries)) as W. unfold RETRY_AFTER_CAP in W.
  change (N.to_nat (uval (RetryPolicy.max_retries RetryPolicy.default))) with 3 in *. simpl in D.
  exists n. split_and!; [done|lia| | |exact B|].
  - intros i Li. apply retryable_transient, Tr; lia.
  - destruct D as [(k & -> & _ & _ & S)|(_ & _ & S & _ & Ln)]; [specialize (W k)|specialize (W n)]; lia.
  - destruct D as [(k & -> & Se & Q & S)|(-> & St & S & Tn & Ln)]; [left; exists k|right]; split_and!; try done.
    + by apply settles_answered in Se.
    + rewrite <- waits_pauses; [lia | lia |]. intros i Li. apply Tr; lia.
    + rewrite <- waits_pauses; [lia | lia |]. intros i Li. apply Tn. lia.
    + intros i Li. apply retryable_transient, Tn. lia.
Qed.

(** * The loop over a stream *)

Section stream.
Context {B : Type} `{Fold B} (cancelled : nat -> bool) (parse : string -> json + AgentError.t).

(** The payloads of the lines up to their end, and the error there, if any. *)
Fixpoint payloads (lines : Lines) : list string * option AgentError.t :=
  match lines with
  | [] => ([], None)
  | inr error :: _ => ([], Some (AgentError.Http error))
  | inl line :: lines =>
      match payload_of line with
      | None => payloads lines
      | Some payload =>
          if String.eqb payload "[DONE]" then ([], None)
          else let '(later, error) := payloads lines in (payload :: later, error)
      end
  end.

(** The events one after another, with a check before each and one before the end. *)
Fixpoint read_payloads (events : list string) (error : option AgentError.t) (b : B) (c : Clock.t)
    : list ChatDelta.t * (ChatResponse.t + AgentError.t) * Clock.t :=
  if is_cancelled cancelled c then ([], inr AgentError.Cancelled, checked c)
  else
    match events with
    | [] => ([], match error with Some error => inr error | None => inl (finish b) end, checked c)
    | payload :: events =>
        match parse payload with
        | inr error => ([], inr error, checked c)
        | inl event =>
            match step b event with
            | (_, deltas, inr error) => (deltas, inr error, checked c)
            | (b, deltas, inl true) => (deltas, inl (finish b), checked c)
            | (b, deltas, inl false) =>
                let '(later, answer, c) := read_payloads events error b (checked c) in
                (deltas ++ later, answer, c)
            end
        end
    end.

Lemma next_event_payloads lines r rest :
  next_event lines = (r, rest) ->
  length rest <= length lines /\
  match r with
  | inl (Some payload) =>
      length rest < length lines /\ payloads lines = (payload :: (payloads rest).1, (payloads rest).2)
  | inl None => payloads lines = ([], None)
  | inr error => payloads lines = ([], Some error)
  end.
Proof.
  revert r rest. induction lines as [|[line|error] lines IH]; simpl; intros r rest E.
  - by injection E as <- <-.
  - destruct (payload_of line) as [payload|]; [|apply IH in E as [L E]; split; [lia|];
      destruct r as [[p|]|]; [destruct E as [E ->]; split; [lia|done]|done|done]].
    injection E as <- <-. destruct (String.eqb payload "[DONE]"); [by split; [lia|]|].
    split; [lia|]. split; [lia|]. by destruct (payloads lines).
  - injection E as <- <-. by split; [lia|].
Qed.

(** The fuel is enough. *)
Lemma drive_from_payloads fuel : forall lines b c, length lines < fuel ->
  drive_from cancelled parse fuel lines b c = read_payloads (payloads lines).1 (payloads lines).2 b c.
Proof.
  induction fuel as [|fuel IH]; intros lines b c L; [lia|]. simpl.
  destruct (next_event lines) as [r rest] eqn:N.
  apply next_event_payloads in N as [Lr N]. destruct r as [[payload|]|error].
  - destruct N as [Lt ->]. simpl. destruct (is_cancelled cancelled c); [done|].
    destruct (parse payload) as [event|]; [|done].
    destruct (step b event) as [[b' deltas] [[]|]]; [done| |done]. by rewrite IH by lia.
  - rewrite N. simpl. by destruct (is_cancelled cancelled c).
  - rewrite N. simpl. by destruct (is_cancelled cancelled c).
Qed.

Lemma drive_payloads lines c :
  drive (B:=B) cancelled parse lines c = read_payloads (payloads lines).1 (payloads lines).2 (new : B) c.
Proof. apply drive_from_payloads. lia. Qed.

(** * What is streamed is what is answered *)

Definition delta_text (d : ChatDelta.t) : string :=
  match d with ChatDelta.Text text => text | _ => EmptyString end.
Definition delta_reasoning (d : ChatDelta.t) : string :=
  match d with ChatDelta.Reasoning text => text | _ => EmptyString end.
Definition delta_calls (d : ChatDelta.t) : list ToolCall.t :=
  match d with ChatDelta.ToolCall call => [call] | _ => [] end.

Definition streamed_text (ds : list ChatDelta.t) : string := concat_str (map delta_text ds).
Definition streamed_reasoning (ds : list ChatDelta.t) : string := concat_str (map delta_reasoning ds).
Definition streamed_calls (ds : list ChatDelta.t) : list ToolCall.t := flat_map delta_calls ds.
End stream.

(** What a builder holds of the stream: its text and reasoning grow by what each event streams, and the
    response has them. *)
Class Faithful (B : Type) `{Fold B} := {
  text_in : B -> string;
  reasoning_in : B -> string;
  new_text : text_in (new : B) = EmptyString;
  new_reasoning : reasoning_in (new : B) = EmptyString;
  step_text b event : let '(b', ds, _) := step b event in text_in b' = text_in b +:+ streamed_text ds;
  step_reasoning b event :
    let '(b', ds, _) := step b event in reasoning_in b' = reasoning_in b +:+ streamed_reasoning ds;
  finish_text b : (finish b).(ChatResponse.content) = text_in b;
  finish_reasoning b : (finish b).(ChatResponse.reasoning) = some_text (reasoning_in b);
}.

Lemma streamed_text_app ds ds' : streamed_text (ds ++ ds') = streamed_text ds +:+ streamed_text ds'.
Proof. unfold streamed_text. by rewrite map_app, concat_str_app. Qed.

Lemma streamed_reasoning_app ds ds' :
  streamed_reasoning (ds ++ ds') = streamed_reasoning ds +:+ streamed_reasoning ds'.
Proof. unfold streamed_reasoning. by rewrite map_app, concat_str_app. Qed.

(** An invariant of the builder and of what has been streamed holds of the builder that is finished. *)
Lemma read_payloads_invariant `{Fold B} cancelled parse (P : B -> list ChatDelta.t -> Prop) :
  (forall b ds event, P b ds -> let '(b', ds', _) := step b event in P b' (ds ++ ds')) ->
  forall events error b c before ds response c',
  P b before -> read_payloads cancelled parse events error b c = (ds, inl response, c') ->
  exists b', response = finish b' /\ P b' (before ++ ds).
Proof.
  intros St events error. induction events as [|payload events IH]; simpl; intros b c before ds response c' I E;
    (destruct (is_cancelled cancelled c); [done|]).
  - destruct error; [done|]. injection E as <- <- <-. exists b. by rewrite app_nil_r.
  - destruct (parse payload) as [event|]; [|done].
    specialize (St b before event I). destruct (step b event) as [[b' deltas] [[]|]]; [| |done].
    + injection E as <- <- <-. by exists b'.
    + destruct (read_payloads _ _ _ _ _ _) as [[later answer] c1] eqn:L. injection E as <- -> ->.
      rewrite app_assoc. by eapply IH.
Qed.

Lemma drive_invariant `{Fold B} cancelled parse (P : B -> list ChatDelta.t -> Prop) :
  P new [] -> (forall b ds event, P b ds -> let '(b', ds', _) := step b event in P b' (ds ++ ds')) ->
  forall lines c ds response c',
  drive (B:=B) cancelled parse lines c = (ds, inl response, c') -> exists b, response = finish b /\ P b ds.
Proof.
  intros N St lines c ds response c'. rewrite drive_payloads. intros E.
  by apply (read_payloads_invariant _ _ P St _ _ _ _ [] _ _ _ N E).
Qed.

(** The invariants of several kinds hold together. *)
Lemma drive_faithful `{Faithful B} cancelled parse lines c ds response c' :
  drive (B:=B) cancelled parse lines c = (ds, inl response, c') ->
  response.(ChatResponse.content) = streamed_text ds /\
  response.(ChatResponse.reasoning) = some_text (streamed_reasoning ds).
Proof.
  intros E. eapply (drive_invariant _ _
    (fun b ds => text_in b = streamed_text ds /\ reasoning_in b = streamed_reasoning ds)) in E
    as (b & -> & T & R).
  - by rewrite finish_text, finish_reasoning, T, R.
  - by rewrite new_text, new_reasoning.
  - intros b before event [T R]. pose proof (step_text b event) as T'. pose proof (step_reasoning b event) as R'.
    destruct (step b event) as [[b' ds'] x].
    by rewrite T', R', T, R, streamed_text_app, streamed_reasoning_app.
Qed.

Lemma streamed_calls_app ds ds' : streamed_calls (ds ++ ds') = streamed_calls ds ++ streamed_calls ds'.
Proof. apply flat_map_app. Qed.

(** * The three builders *)

Ltac streamed :=
  repeat case_match; simplify_eq/=; unfold streamed_text, streamed_reasoning; simpl; by rewrite ?app_empty_r.

Section anthropic.
Context `{SerdeJson, SerdeText}.
Import Anthropic.

#[export, refine] Instance response_faithful : Faithful ResponseBuilder.t := {|
  text_in := ResponseBuilder.content;
  reasoning_in := ResponseBuilder.reasoning |}.
Proof.
  all: try done.
  - intros b event. simpl. unfold apply, open_block, apply_delta, finish_block, apply_message_delta, merge_usage_of.
    streamed.
  - intros b event. simpl. unfold apply, open_block, apply_delta, finish_block, apply_message_delta, merge_usage_of.
    streamed.
Defined.

Lemma apply_calls b event :
  let '(b', ds, _) := apply b event in
  b'.(ResponseBuilder.tool_calls) = b.(ResponseBuilder.tool_calls) ++ streamed_calls ds.
Proof.
  unfold apply, open_block, apply_delta, finish_block, apply_message_delta, merge_usage_of.
  repeat case_match; simplify_eq/=; by rewrite ?app_nil_r.
Qed.

Lemma drive_stream_calls parse_error cancelled lines c ds response c' :
  drive_stream parse_error cancelled lines c = (ds, inl response, c') ->
  response.(ChatResponse.tool_calls) = streamed_calls ds.
Proof.
  intros E. eapply (drive_invariant _ _ (fun b ds => b.(ResponseBuilder.tool_calls) = streamed_calls ds)) in E
    as (b & -> & C); [done|done|].
  intros b0 before event C0. pose proof (apply_calls b0 event) as A. simpl.
  destruct (apply b0 event) as [[b' ds'] x]. by rewrite A, C0, streamed_calls_app.
Qed.
End anthropic.

Section responses.
Context `{SerdeJson, SerdeText}.
Import Responses.

#[export, refine] Instance assembler_faithful : Faithful Assembler.t := {|
  text_in := Assembler.content;
  reasoning_in := Assembler.reasoning |}.
Proof.
  all: try done.
  - intros a event. simpl. unfold handle_event, on_text_delta, on_text_done, on_reasoning_delta, on_item_added,
      on_arguments_delta, on_arguments_done, on_arguments, on_completed. streamed.
  - intros a event. simpl. unfold handle_event, on_text_delta, on_text_done, on_reasoning_delta, on_item_added,
      on_arguments_delta, on_arguments_done, on_arguments, on_completed. streamed.
Defined.

(** No call is streamed: all come with the response. *)
Lemma handle_event_calls a event : let '(_, ds, _) := handle_event a event in streamed_calls ds = [].
Proof. unfold handle_event, on_text_delta, on_text_done, on_reasoning_delta. by repeat case_match; simplify_eq/=. Qed.

End responses.

Section xai.
Context `{SerdeJson, SerdeText}.
Import Xai.

Lemma flush_slot_calls slot : exists calls, (flush_slot slot).2 = map ChatDelta.ToolCall calls.
Proof. unfold flush_slot. repeat case_match; first [by exists [] | by eexists [_]]. Qed.

Lemma flushed_calls slots : exists calls, (flush_completed_calls slots).2 = map ChatDelta.ToolCall calls.
Proof.
  unfold flush_completed_calls. simpl. induction slots as [|[i slot] slots [calls IH]]; simpl; [by exists []|].
  destruct (flush_slot_calls slot) as [calls' ->]. exists (calls' ++ calls). by rewrite map_app, IH.
Qed.

Lemma streamed_of_calls calls :
  streamed_text (map ChatDelta.ToolCall calls) = EmptyString /\
  streamed_reasoning (map ChatDelta.ToolCall calls) = EmptyString /\
  streamed_calls (map ChatDelta.ToolCall calls) = calls.
Proof.
  unfold streamed_text, streamed_reasoning, streamed_calls.
  induction calls as [|call calls (T & R & C)]; simpl; [done|]. by rewrite T, R, C.
Qed.

Lemma absorb_delta_streamed s delta :
  let '(s', ds) := absorb_delta s delta in
  s'.(StreamState.content) = s.(StreamState.content) +:+ streamed_text ds /\
  s'.(StreamState.reasoning) = s.(StreamState.reasoning) +:+ streamed_reasoning ds.
Proof.
  unfold absorb_delta.
  destruct (absorb_reasoning s delta) as [s1 d1] eqn:E1.
  destruct (absorb_content s1 delta) as [s2 d2] eqn:E2.
  set (emit := match _ with Some _ => _ | None => _ end). destruct emit as [s3 d3] eqn:E3. subst emit.
  rewrite !streamed_text_app, !streamed_reasoning_app.
  assert (s3.(StreamState.content) = s2.(StreamState.content) /\ s3.(StreamState.reasoning) = s2.(StreamState.reasoning) /\
          streamed_text d3 = EmptyString /\ streamed_reasoning d3 = EmptyString) as (-> & -> & -> & ->).
  { case_match; [|by simplify_eq]. unfold absorb_tool_calls in E3.
    destruct (flushed_calls (merge_calls l s2.(StreamState.tool_calls))) as [calls Hc].
    destruct (flush_completed_calls _) as [slots ds]. simpl in Hc. subst ds. injection E3 as <- <-.
    destruct (streamed_of_calls calls) as (-> & -> & _). done. }
  unfold absorb_reasoning, absorb_content in *. repeat case_match; simplify_eq/=; split;
    unfold streamed_text, streamed_reasoning; simpl; by rewrite ?app_empty_r.
Qed.

Lemma apply_event_streamed s event :
  let '(s', ds) := apply_event s event in
  s'.(StreamState.content) = s.(StreamState.content) +:+ streamed_text ds /\
  s'.(StreamState.reasoning) = s.(StreamState.reasoning) +:+ streamed_reasoning ds.
Proof.
  unfold apply_event. set (s1 := match value_get "usage" event with Some _ => _ | None => _ end).
  assert (s1.(StreamState.content) = s.(StreamState.content) /\ s1.(StreamState.reasoning) = s.(StreamState.reasoning))
    as [<- <-] by (subst s1; by repeat case_match).
  destruct (_ ≫= head) as [choice|]; [|by rewrite !app_empty_r].
  set (s2 := match value_get "finish_reason" choice ≫= as_str with Some _ => _ | None => _ end).
  assert (s2.(StreamState.content) = s1.(StreamState.content) /\ s2.(StreamState.reasoning) = s1.(StreamState.reasoning))
    as [<- <-] by (subst s2; by case_match).
  destruct (value_get "delta" choice) as [delta|]; [apply absorb_delta_streamed|by rewrite !app_empty_r].
Qed.

#[export, refine] Instance state_faithful : Faithful StreamState.t := {|
  text_in := StreamState.content;
  reasoning_in := StreamState.reasoning |}.
Proof.
  all: try done.
  all: intros s event; simpl; destruct (stream_error_message event); [by rewrite app_empty_r|];
    pose proof (apply_event_streamed s event) as A; destruct (apply_event s event); apply A.
Defined.
End xai.

(** * Calls *)

Section calls.
Context `{SerdeJson, SerdeText}.

Lemma stream_call_inv cancelled read answers c ds response c' :
  stream_call cancelled read answers c = (ds, inl response, c') ->
  exists lines c1, post_sse cancelled answers c = (inl lines, c1) /\ read lines c1 = (ds, inl response, c').
Proof. unfold stream_call. destruct (post_sse _ _ _) as [[lines|] c1]; [|done]. by exists lines, c1. Qed.

Lemma with_fallback_inv result ds response c :
  with_fallback result = (ds, inl response, c) ->
  exists streamed, result = (ds, inl streamed, c) /\ response = apply_text_fallback streamed.
Proof. destruct result as [[ds' [streamed|]] c']; simpl; [|done]. intros [= -> <- ->]. by exists streamed. Qed.

Lemma fallback_content response :
  (apply_text_fallback response).(ChatResponse.content) = response.(ChatResponse.content) /\
  (apply_text_fallback response).(ChatResponse.reasoning) = response.(ChatResponse.reasoning).
Proof. unfold apply_text_fallback. by repeat case_match. Qed.

Lemma fallback_calls response :
  (apply_text_fallback response).(ChatResponse.tool_calls) =
  match response.(ChatResponse.tool_calls) with
  | [] => recover_tool_calls response.(ChatResponse.content)
  | calls => calls
  end.
Proof. unfold apply_text_fallback. repeat case_match; simplify_eq/=; congruence. Qed.

(** The text and the reasoning of the response are what was streamed. *)
Definition answers_streamed (ds : list ChatDelta.t) (response : ChatResponse.t) : Prop :=
  response.(ChatResponse.content) = streamed_text ds /\
  response.(ChatResponse.reasoning) = some_text (streamed_reasoning ds).

Lemma call_faithful `{Faithful B} cancelled parse answers c ds response c' :
  with_fallback (stream_call cancelled (drive (B:=B) cancelled parse) answers c) = (ds, inl response, c') ->
  exists streamed lines c1,
    drive (B:=B) cancelled parse lines c1 = (ds, inl streamed, c') /\
    response = apply_text_fallback streamed /\ answers_streamed ds response.
Proof.
  intros E. apply with_fallback_inv in E as (streamed & E & ->).
  apply stream_call_inv in E as (lines & c1 & _ & E). exists streamed, lines, c1. split_and!; [done|done|].
  apply drive_faithful in E as [T R]. unfold answers_streamed. destruct (fallback_content streamed) as [-> ->].
  done.
Qed.

Lemma no_calls_streamed parse_error cancelled what lines c ds response c' :
  drive (B:=Responses.Assembler.t) cancelled (parse_event parse_error what) lines c = (ds, inl response, c') ->
  streamed_calls ds = [].
Proof.
  intros E. apply (drive_invariant _ _ (fun _ ds => streamed_calls ds = [])) in E as (b & _ & C); [done|done|].
  intros b before event C. pose proof (handle_event_calls b event) as A. simpl.
  destruct (Responses.handle_event b event) as [[b' ds'] x]. by rewrite streamed_calls_app, C, A.
Qed.

(** C21: Whatever a provider streams while it answers is what it answers. For each of the three, when a
    call returns a response, its content is the concatenation of the text deltas the sink was given, in
    order, and its reasoning that of the reasoning deltas (none when they are empty). Of the calls,
    Anthropic's are the ones streamed, in order, or, when none was, those recovered from the text; the
    Responses provider streams none. The retries before the stream is opened stream nothing. *)
Theorem chat_streams_answer (parse_error : string -> string) (cancelled : nat -> bool)
    (number : f32 -> json) (http : string -> list (string * string) -> json -> nat -> HttpAnswer.t) :
  (forall cred req c ds response c',
     Anthropic.chat parse_error cancelled number http cred req c = (ds, inl response, c') ->
     answers_streamed ds response /\
     response.(ChatResponse.tool_calls) =
       match streamed_calls ds with [] => recover_tool_calls (streamed_text ds) | calls => calls end) /\
  (forall provider req c ds response c',
     Responses.chat parse_error cancelled number http provider req c = (ds, inl response, c') ->
     answers_streamed ds response /\ streamed_calls ds = []) /\
  (forall cred req c ds response c',
     Xai.chat parse_error cancelled number http cred req c = (ds, inl response, c') ->
     answers_streamed ds response).
Proof.
  split_and!.
  - intros cred req c ds response c'. unfold Anthropic.chat. destruct (is_cancelled cancelled c); [done|].
    intros E. apply call_faithful in E as (streamed & lines & c1 & D & -> & A). split; [done|].
    pose proof (drive_stream_calls _ _ _ _ _ _ _ D) as C. apply drive_faithful in D as [T _].
    by rewrite fallback_calls, C, T.
  - intros provider req c ds response c'. unfold Responses.chat. destruct (is_cancelled cancelled c); [done|].
    intros E. apply call_faithful in E as (streamed & lines & c1 & D & -> & A). split; [done|].
    by apply no_calls_streamed in D.
  - intros cred req c ds response c' E. by apply call_faithful in E as (streamed & lines & c1 & D & -> & A).
Qed.
End calls.

(** * The turns of an Anthropic request *)

Section turns.
Import Anthropic.

Fixpoint alternate (roles : list string) : Prop :=
  match roles with
  | a :: (b :: _) as rest => a <> b /\ alternate rest
  | _ => True
  end.

(** Each block with the role of its turn. *)
Definition spoken (turns : list (string * list json)) : list (string * json) :=
  flat_map (fun turn => map (pair turn.1) turn.2) turns.

Fixpoint on_last {A} (f : A -> A) (l : list A) : list A :=
  match l with
  | [] => []
  | [a] => [f a]
  | a :: l => a :: on_last f l
  end.

Lemma on_last_snoc {A} (f : A -> A) l a : on_last f (l ++ [a]) = l ++ [f a].
Proof. induction l as [|b [|c l] IH]; simpl in *; [done|done|]. by rewrite IH. Qed.

Lemma on_last_app {A} (f : A -> A) l l' : l' <> [] -> on_last f (l ++ l') = l ++ on_last f l'.
Proof.
  destruct l' as [|a l' _] using rev_ind; [done|]. intros _. by rewrite app_assoc, !on_last_snoc, app_assoc.
Qed.

Lemma on_last_map {A B} (f : A -> A) (g : B -> B) (h : A -> B) l :
  (forall a, g (h a) = h (f a)) -> on_last g (map h l) = map h (on_last f l).
Proof. intros E. induction l as [|a [|b l] IH]; simpl in *; [done|by rewrite E|]. by rewrite IH. Qed.

Lemma set_last_on_last blocks : set_last_cache_control blocks = on_last cache_marked blocks.
Proof. induction blocks as [|a [|b l] IH]; simpl in *; [done|done|]. by rewrite IH. Qed.

Lemma alternate_snoc l a b : alternate (l ++ [a]) -> a <> b -> alternate ((l ++ [a]) ++ [b]).
Proof. induction l as [|x [|y l] IH]; simpl in *; [done|tauto|]. intros [N A] D. split; [done|]. by apply IH. Qed.

(** The roles of the turns alternate, no turn is empty, and they say the same. *)
Definition well_merged (turns said : list (string * list json)) : Prop :=
  alternate (map fst turns) /\ Forall (fun turn => turn.2 <> []) turns /\ spoken turns = spoken said.

Lemma merge_turn_snoc turns last turn :
  rev (merge_turn (last :: rev turns) turn) =
  if String.eqb last.1 turn.1 then turns ++ [(last.1, last.2 ++ turn.2)] else (turns ++ [last]) ++ [turn].
Proof.
  destruct last as [role blocks]. simpl. destruct (String.eqb role turn.1); simpl; by rewrite rev_involutive.
Qed.

Lemma spoken_app l l' : spoken (l ++ l') = spoken l ++ spoken l'.
Proof. apply flat_map_app. Qed.

Lemma merge_turn_well out said turn :
  turn.2 <> [] -> well_merged (rev out) said -> well_merged (rev (merge_turn out turn)) (said ++ [turn]).
Proof.
  intros NE (A & F & S). unfold well_merged. rewrite spoken_app, <- S. destruct out as [|last out].
  - simpl. split_and!; [done|by constructor|done].
  - rewrite <- (rev_involutive out), merge_turn_snoc. simpl in A, F. rewrite <- (rev_involutive out) in A, F.
    simpl. rewrite spoken_app. set (turns := rev out) in *. rewrite rev_involutive in *.
    apply Forall_app in F as [F Fl]. rewrite map_app in A. simpl in A.
    destruct (String.eqb_spec last.1 turn.1) as [E|D].
    + rewrite map_app, !spoken_app. split_and!.
      * done.
      * apply Forall_app. split; [done|]. constructor; [|done]. simpl. apply Forall_inv in Fl.
        by destruct (last.2).
      * unfold spoken. simpl. by rewrite !app_nil_r, map_app, E, app_assoc.
    + rewrite !map_app, !spoken_app. split_and!.
      * simpl. by apply alternate_snoc.
      * apply Forall_app. split; [by apply Forall_app|]. by constructor.
      * reflexivity.
Qed.

Lemma foldl_well turns : forall out said,
  Forall (fun turn => turn.2 <> []) turns -> well_merged (rev out) said ->
  well_merged (rev (foldl merge_turn out turns)) (said ++ turns).
Proof.
  induction turns as [|turn turns IH]; simpl; intros out said F W; [by rewrite app_nil_r|].
  apply Forall_cons in F as [NE F]. change (turn :: turns) with ([turn] ++ turns). rewrite app_assoc.
  apply IH; [done|]. by apply merge_turn_well.
Qed.

Lemma blocks_nonempty messages : Forall (fun turn => turn.2 <> []) (omap neutral_to_blocks messages).
Proof.
  apply Forall_forall. intros turn (msg & _ & E)%list_elem_of_omap.
  unfold neutral_to_blocks, assistant_blocks in E.
  repeat case_match; simplify_eq/=; by try congruence.
Qed.

Lemma merged_turns_well messages : well_merged (merged_turns messages) (omap neutral_to_blocks messages).
Proof. apply (foldl_well _ [] []); [apply blocks_nonempty|done]. Qed.

Lemma mark_last_spec turns : Forall (fun turn => turn.2 <> []) turns ->
  map fst (mark_last turns) = map fst turns /\
  Forall (fun turn => turn.2 <> []) (mark_last turns) /\
  spoken (mark_last turns) = on_last (prod_map id cache_marked) (spoken turns).
Proof.
  induction turns as [|[role blocks] turns IH]; [done|]. intros [NE F]%Forall_cons. simpl in NE.
  destruct turns as [|turn turns].
  - simpl. rewrite set_last_on_last. split_and!; [done| |].
    + constructor; [|done]. simpl. destruct blocks as [|a [|b l]]; simpl; done.
    + unfold spoken. simpl. rewrite !app_nil_r. symmetry. by apply on_last_map.
  - destruct (IH F) as (E & F' & S). change (mark_last ((role, blocks) :: turn :: turns))
      with ((role, blocks) :: mark_last (turn :: turns)).
    split_and!.
    + exact (f_equal (cons role) E).
    + by constructor.
    + change (spoken ((role, blocks) :: mark_last (turn :: turns)))
        with (map (pair role) blocks ++ spoken (mark_last (turn :: turns))).
      change (spoken ((role, blocks) :: turn :: turns))
        with (map (pair role) blocks ++ spoken (turn :: turns)).
      rewrite S, on_last_app; [done|].
      apply Forall_inv in F. unfold spoken. simpl. by destruct (turn.2).
Qed.

(** The messages of an Anthropic request are well formed. The roles of the turns strictly alternate
    and no turn is empty, whatever the history; the blocks, each with its turn's role, are exactly those
    of the messages in order, none lost and none moved across a turn, except that the very last block of
    the request, and no other, carries the cache marker. *)
Theorem build_messages_spec (messages : list Message.t) :
  exists turns,
    build_messages messages =
      map (fun turn => JObj [("role", JStr turn.1); ("content", JArr turn.2)]) turns /\
    alternate (map fst turns) /\
    Forall (fun turn => turn.2 <> []) turns /\
    spoken turns = on_last (prod_map id cache_marked) (spoken (omap neutral_to_blocks messages)).
Proof.
  destruct (merged_turns_well messages) as (A & F & S). destruct (mark_last_spec _ F) as (E & F' & S').
  exists (mark_last (merged_turns messages)). split_and!; [|by rewrite E|done|by rewrite S', S].
  unfold build_messages. apply map_ext. by intros [].
Qed.
End turns.

(** * Calls recovered from text *)

Section recovered.
Context `{SerdeJson, SerdeText}.

(** A stretch of prose and the body of a call after it. *)
Definition written_call (item : string * string) : string :=
  item.1 +:+ "<tool_use>" +:+ item.2 +:+ "</tool_use>".

(** [pat] occurs nowhere in the text. *)
Definition lacks (pat s : string) : Prop := forall a b, s <> a +:+ pat +:+ b.

Lemma lacks_tail pat c s : lacks pat (String c s) -> lacks pat s.
Proof. intros L a b ->. by apply (L (String c a) b). Qed.

Lemma split_once_None pat s : split_once pat s = None -> lacks pat s.
Proof.
  induction s as [|c s IH]; intros E a b.
  - simpl in E. destruct (strip_prefix pat EmptyString) eqn:P; [done|]. rewrite strip_prefix_None in P.
    destruct a; [apply P | done].
  - cbn [split_once] in E. destruct (strip_prefix pat (String c s)) eqn:P; [done|]. rewrite strip_prefix_None in P.
    destruct (split_once pat s) as [[]|]; [done|]. destruct a as [|d a]; [apply P|]. intros [= -> Es].
    by apply (IH eq_refl a b).
Qed.

(** The text before the first occurrence has none. *)
Lemma split_once_before pat s a b : pat <> EmptyString -> split_once pat s = Some (a, b) -> lacks pat a.
Proof.
  intros NE. revert a. induction s as [|c s IH]; intros a E.
  - simpl in E. destruct (strip_prefix pat EmptyString) as [r|] eqn:P; [|done]. injection E as <- <-.
    apply strip_prefix_Some in P. intros [|] y Q; [|done]. by destruct pat.
  - cbn [split_once] in E. destruct (strip_prefix pat (String c s)) as [r|] eqn:P.
    + injection E as <- <-. intros x y Q. destruct x; [|done]. by destruct pat.
    + destruct (split_once pat s) as [[a' b']|] eqn:S; [|done]. injection E as <- <-.
      apply split_once_Some in S as Es. specialize (IH a' eq_refl). rewrite strip_prefix_None in P.
      intros [|d x] y Q; [|by injection Q as -> Q; eapply IH].
      apply (P (y +:+ pat +:+ b')). change (pat +:+ y) with (EmptyString +:+ pat +:+ y) in Q.
      rewrite Es. change (String c (a' +:+ pat +:+ b')) with (String c a' +:+ pat +:+ b'). rewrite Q.
      by rewrite !app_assoc_str.
Qed.

(** A pattern that starts over nowhere in itself does not start before its first occurrence. *)
Lemma strip_prefix_within p s c r x :
  no_char c p = true -> strip_prefix p (s +:+ String c r) = Some x -> exists y, s = p +:+ y.
Proof.
  revert s. induction p as [|d p IH]; intros s F E; [by exists s|].
  cbn [no_char] in F. apply andb_true_iff in F as [N%negb_true_iff F]. apply bool_decide_eq_false in N.
  destruct s as [|e s].
  - cbn [strip_prefix String.append] in E. by destruct (Ascii.eqb_spec d c).
  - change (String e s +:+ ?x) with (String e (s +:+ x)) in E. cbn [strip_prefix] in E.
    destruct (Ascii.eqb_spec d e) as [->|]; [|done]. destruct (IH s F E) as [y ->]. by exists y.
Qed.

Lemma split_once_first c p s r :
  no_char c p = true -> lacks (String c p) s -> split_once (String c p) (s +:+ String c p +:+ r) = Some (s, r).
Proof.
  intros F. induction s as [|d s IH]; intros L; [by apply split_once_fresh|].
  change (String d s +:+ ?x) with (String d (s +:+ x)). cbn [split_once strip_prefix].
  assert ((if Ascii.eqb c d then strip_prefix p (s +:+ String c p +:+ r) else None) = None) as ->.
  { destruct (Ascii.eqb_spec c d) as [->|]; [|done]. destruct (strip_prefix p _) as [x|] eqn:E; [|done].
    apply strip_prefix_within in E as [y ->]; [|done]. by destruct (L EmptyString y). }
  by rewrite (IH (lacks_tail _ _ _ L)).
Qed.

(** The elements of a text: before each opening tag there is no other, in its body no closing one; what is left
    has no element. *)
Definition elements (items : list (string * string)) (tail : string) : Prop :=
  Forall (fun item => lacks "<tool_use>" item.1 /\ lacks "</tool_use>" item.2) items /\
  (lacks "<tool_use>" tail \/
   exists prose rest, tail = prose +:+ "<tool_use>" +:+ rest /\ lacks "<tool_use>" prose /\ lacks "</tool_use>" rest).

Lemma split_once_lacks pat s : lacks pat s -> split_once pat s = None.
Proof.
  intros L. destruct (split_once pat s) as [[a b]|] eqn:E; [|done]. by apply split_once_Some, L in E.
Qed.

(** Every text is made of its elements. *)
Lemma elements_exist content : exists items tail,
  content = concat_str (map written_call items) +:+ tail /\ elements items tail.
Proof.
  remember (String.length content) as n eqn:N. revert content N.
  induction n as [n IH] using lt_wf_ind. intros content ->.
  destruct (split_once "<tool_use>" content) as [[prose after]|] eqn:O.
  2: { exists [], content. split; [done|]. split; [constructor|]. left. by apply split_once_None. }
  apply split_once_before in O as Lp; [|done]. apply split_once_Some in O as Eo.
  destruct (split_once "</tool_use>" after) as [[body rest]|] eqn:C.
  2: { exists [], content. split; [done|]. split; [constructor|]. right. exists prose, after.
       split_and!; [done|done|by apply split_once_None]. }
  apply split_once_before in C as Lb; [|done]. apply split_once_Some in C as Ec.
  destruct (IH (String.length rest)) with (content := rest) as (items & tail & Er & F & T); [|done|].
  { rewrite Eo, Ec, !length_app_str. simpl. lia. }
  exists ((prose, body) :: items), tail. split; [|split; [by constructor|done]].
  cbn [map concat_str]. unfold written_call at 1. cbn [fst snd]. by rewrite Eo, Ec, Er, !app_assoc_str.
Qed.

Lemma collect_tagged_written items tail : forall fuel,
  elements items tail -> length items < fuel ->
  collect_tagged fuel (concat_str (map written_call items) +:+ tail) =
  omap (fun item => call_from_json_text item.2) items.
Proof.
  induction items as [|[prose body] items IH]; intros fuel [F T] L; (destruct fuel as [|fuel]; [simpl in L; lia|]).
  - cbn [collect_tagged map concat_str String.append]. destruct T as [T|(prose & rest & -> & Lp & Lr)].
    + by rewrite split_once_lacks.
    + by rewrite split_once_first, split_once_lacks.
  - apply Forall_cons in F as [[Fp Fb] F]. simpl in Fp, Fb, L. cbn [collect_tagged map concat_str].
    unfold written_call at 1. cbn [fst snd]. rewrite !app_assoc_str, split_once_first by done.
    rewrite split_once_first by done. rewrite IH by (by split || lia).
    cbn [omap list_omap snd]. by destruct (call_from_json_text body).
Qed.

Lemma written_length items : length items <= String.length (concat_str (map written_call items)).
Proof.
  induction items as [|item items IH]; simpl; [lia|].
  unfold written_call at 1. rewrite !length_app_str. simpl. lia.
Qed.

Definition fallback_id (i : nat) (name : string) : string :=
  "text_fallback_" +:+ show_nat i +:+ "_" +:+ name.

Lemma fallback_id_inj i j name name' : fallback_id i name = fallback_id j name' -> i = j.
Proof.
  unfold fallback_id. intros E%app_inj_l.
  pose proof (split_once_fresh "_" EmptyString (show_nat i) name (no_char_pretty "_" _ eq_refl)) as S1.
  pose proof (split_once_fresh "_" EmptyString (show_nat j) name' (no_char_pretty "_" _ eq_refl)) as S2.
  change (String "_" EmptyString +:+ ?x) with ("_" +:+ x) in S1, S2.
  rewrite E in S1. rewrite S1 in S2. injection S2 as E' _. by apply show_nat_inj.
Qed.

(** [numbered] calls: the call in place [i] has the id of [i] and its name. *)
Lemma recover_numbered content i call : recover_tool_calls content !! i = Some call ->
  call.(ToolCall.id) = fallback_id i call.(ToolCall.name).
Proof.
  unfold recover_tool_calls. rewrite list_lookup_imap. intros (c & _ & ->)%fmap_Some. done.
Qed.

(** C23: Tool calls that a model writes as text are recovered, whatever else the text is. No two calls
    recovered from one response share an id, so that each result is paired with its own call. Every text is made
    of [tool_use] elements, each from an opening tag to the next closing one, with prose before them and a rest
    that has none; the calls of the elements are recovered in order, each from its own body and with nothing of
    the prose between them, skipping the bodies that name no call; when there is one at least, no fenced block
    is read. *)
Theorem recover_tool_calls_spec (content : string) :
  NoDup (map ToolCall.id (recover_tool_calls content)) /\
  (exists items tail, content = concat_str (map written_call items) +:+ tail /\ elements items tail) /\
  forall items tail, content = concat_str (map written_call items) +:+ tail -> elements items tail ->
    let calls := omap (fun item => call_from_json_text item.2) items in
    calls <> [] ->
    recover_tool_calls content =
    imap (fun i call =>
       ToolCall.Mk (fallback_id i call.(ToolCall.name)) call.(ToolCall.name) call.(ToolCall.arguments)) calls.
Proof.
  split_and!; [|apply elements_exist|].
  - apply NoDup_alt. intros i j id.
    change (map ToolCall.id) with (fmap (M:=list) ToolCall.id). rewrite !list_lookup_fmap.
    intros (a & Ha & ->)%fmap_Some (b & Hb & E)%fmap_Some.
    apply recover_numbered in Ha, Hb. rewrite Ha, Hb in E. by apply fallback_id_inj in E.
  - intros items tail -> El calls NE. unfold recover_tool_calls. rewrite collect_tagged_written; [|done|].
    + subst calls. by destruct (omap _ items).
    + rewrite length_app_str. pose proof (written_length items). lia.
Qed.
End recovered.

(** * What may surprise *)

Definition sse (event : json) : string + string := inl ("data: " +:+ to_vec event +:+ lf).

(** A stream cut while a call is being written: the call is dropped, and the turn reads as a stop. The
    other two providers keep what came of it. *)
Definition cut_stream : Lines :=
  [sse (JObj [("type", JStr "content_block_start");
              ("content_block", JObj [("type", JStr "tool_use"); ("id", JStr "c"); ("name", JStr "edit")])]);
   sse (JObj [("type", JStr "content_block_delta");
              ("delta", JObj [("type", JStr "input_json_delta"); ("partial_json", JStr "[")])])].

Definition no_cancel (check : nat) : bool := false.
Definition no_reason (text : string) : string := "?".

Example cut_call_is_dropped :
  (drive (B:=Anthropic.ResponseBuilder.t) no_cancel (parse_event no_reason "JSON") cut_stream Clock.start).1 =
  ([], inl (ChatResponse.Mk EmptyString None None [] FinishReason.Stop Usage.default)).
Proof. vm_compute. reflexivity. Qed.

(** A call of xAI whose name comes before its arguments, as chunks of the OpenAI form do. *)
Definition chunk (call : json) : string + string :=
  sse (JObj [("choices", JArr [JObj [("delta", JObj [("tool_calls", JArr [call])])]])]).

Definition late_arguments : Lines :=
  [chunk (JObj [("index", JNum 0); ("id", JStr "c");
                ("function", JObj [("name", JStr "edit"); ("arguments", JStr EmptyString)])]);
   chunk (JObj [("index", JNum 0);
                ("function", JObj [("arguments", JStr (to_vec (JObj [("path", JStr "a")])))])])].

(** The sink is given the call with no arguments, and never those that come after. *)
Example early_call_has_no_arguments :
  let '(ds, answer, _) :=
    drive (B:=Xai.StreamState.t) no_cancel (parse_event no_reason "chunk") late_arguments Clock.start in
  streamed_calls ds = [ToolCall.Mk "c" "edit" (JObj [])] /\
  exists response, answer = inl response /\
    response.(ChatResponse.tool_calls) = [ToolCall.Mk "c" "edit" (JObj [("path", JStr "a")])].
Proof. vm_compute. split; [done|]. eexists. split; [reflexivity|done]. Qed.

(** The arguments of a call, sent as text and read back. *)
Lemma arguments_read_back `{SerdeTextSpec} m : exists m',
  Responses.parse_arguments (Responses.arguments_to_string (JObj m)) = JObj m' /\
  json_equiv (JObj m) (JObj m').
Proof.
  unfold Responses.parse_arguments, Responses.arguments_to_string.
  destruct (from_str_compact (JObj m)) as (j & E & R).
  destruct (String.eqb_spec (trim (to_vec (JObj m))) EmptyString) as [B|_].
  - apply from_str_blank in B. congruence.
  - rewrite E. simpl. pose proof (equiv_obj_inv _ _ R) as (m' & -> & _). by exists m'.
Qed.

(** * Witnesses *)

Definition key : Credential.t :=
  Credential.Mk ProviderId.Anthropic AuthMode.ApiKey "k" None None None "https://api.anthropic.com/".

Definition question : ChatRequest.t := ChatRequest.Mk "opus" None [Message.user "hello"] [] None None None.

(** An answer in two chunks and a call, after an overload. *)
Definition greeting : Lines :=
  let delta key text := JObj [("type", JStr "content_block_delta");
                              ("delta", JObj [("type", JStr key); ("text", JStr text)])] in
  [inl ("event: x" +:+ lf); sse (delta "text_delta" "go"); sse (delta "text_delta" "od");
   sse (JObj [("type", JStr "content_block_start");
              ("content_block", JObj [("type", JStr "tool_use"); ("id", JStr "c"); ("name", JStr "read")])]);
   sse (JObj [("type", JStr "content_block_stop")]);
   sse (JObj [("type", JStr "message_stop")])].

Definition overloaded_once (i : nat) : HttpAnswer.t :=
  match i with
  | 0 => HttpAnswer.Answered 529 (Some "2") "busy" []
  | _ => HttpAnswer.Answered 200 None EmptyString greeting
  end.

Definition greeting_deltas : list ChatDelta.t :=
  [ChatDelta.Text "go"; ChatDelta.Text "od"; ChatDelta.ToolCall (ToolCall.Mk "c" "read" (JObj []))].

Definition greeting_response : ChatResponse.t :=
  ChatResponse.Mk "good" None None [ToolCall.Mk "c" "read" (JObj [])] FinishReason.ToolUse Usage.default.

Lemma chat_streams_answer_witness :
  Anthropic.chat no_reason no_cancel (fun _ => JNull) (fun _ _ _ => overloaded_once) key question Clock.start =
    (greeting_deltas, inl greeting_response, Clock.Mk 48 2 2000) /\
  greeting_response.(ChatResponse.tool_calls) = streamed_calls greeting_deltas /\
  answers_streamed greeting_deltas greeting_response.
Proof.
  assert (Anthropic.chat no_reason no_cancel (fun _ => JNull) (fun _ _ _ => overloaded_once) key question
    Clock.start = (greeting_deltas, inl greeting_response, Clock.Mk 48 2 2000)) as E
    by (vm_compute; reflexivity).
  destruct (chat_streams_answer no_reason no_cancel (fun _ => JNull) (fun _ _ _ => overloaded_once)) as [P _].
  destruct (P _ _ _ _ _ _ E) as [A C]. split; [exact E|]. split; [exact C|exact A].
Defined.

Lemma post_sse_spec_witness :
  let '(r, c) := post_sse no_cancel overloaded_once Clock.start in
  r = inl greeting /\ c.(Clock.tries) = 2 /\ c.(Clock.slept) = 2000%N /\
  (c.(Clock.slept) <= 0 + 90000)%N.
Proof.
  destruct (post_sse no_cancel overloaded_once Clock.start) as [r c] eqn:E.
  destruct (post_sse_spec _ _ _ _ _ E) as (n & _ & _ & _ & L & _).
  vm_compute in E. injection E as <- <-. split_and!; [reflexivity|reflexivity|reflexivity|exact L].
Defined.

Definition written : list (string * string) :=
  [("I will look. ", to_vec (JObj [("name", JStr "search"); ("input", JObj [])])); (" <and> ", "a < b <tool_use>");
   (" then ", to_vec (JObj [("name", JStr "search"); ("parameters", JNum 1)]))].

Lemma recover_tool_calls_spec_witness :
  recover_tool_calls (concat_str (map written_call written) +:+ "<tool") =
  [ToolCall.Mk "text_fallback_0_search" "search" (JObj []);
   ToolCall.Mk "text_fallback_1_search" "search" (JNum 1)].
Proof.
  assert (elements written "<tool") as El.
  { split; [repeat (constructor; [split; apply split_once_None; reflexivity|]); constructor|].
    left. apply split_once_None. reflexivity. }
  rewrite (proj2 (proj2 (recover_tool_calls_spec _)) written "<tool" eq_refl El); [reflexivity|].
  vm_compute. discriminate.
Defined.
