(* ===== verification/Approval.v ===== *)
(** Asking the operator ([nerve-workstation/src/session_manager/approval.rs], the decisions of
    [nerve-proto/src/command/aux.rs]): the hub where calls wait for an answer, what a session remembers,
    and the gated call that asks, as threads that move one step on shared state at a time.

    Proved below. Asking the operator under every interleaving of calls, answers and cancellations: what runs was
    allowed, an answer reaches the call it names and no other, and no call waits for ever. *)
From stdpp Require Import gmap strings.
From S2P Require Import Prelude Text Json ToolPolicy Reference.
Open Scope nerve_scope.

Module SessionApprovalDecision.
Inductive t := Allow | Deny | AllowAlways | DenyAlways.
#[global] Instance eq_dec : EqDecision t.
Proof. solve_decision. Defined.

Definition allows (d : t) : bool := match d with Allow | AllowAlways => true | _ => false end.
Definition remember (d : t) : bool := match d with AllowAlways | DenyAlways => true | _ => false end.
End SessionApprovalDecision.

(** What the event [approval_requested] shows. *)
Module ApprovalRequested.
Record t := Mk {
  session_id : string;
  request_id : string;
  tool : string;
  arguments : json;
  tier : RiskTier.t;
  preview : string;
}.
End ApprovalRequested.

(** * The hub

    A channel is known by the number of the call that made it; its sender is in [pending], its receiver
    in [receivers] while the call waits, and [queues] holds what was sent and not received. *)
Module ApprovalHub.
Record t := Mk {
  pending : gmap (string * string) nat;
  receivers : gset nat;
  queues : gmap nat (list SessionApprovalDecision.t);
  next_id : u64;
  emitted : list ApprovalRequested.t;
}.

Definition new : t := Mk ∅ ∅ ∅ (wrap 64 1) [].

(** [fetch_add], which wraps. *)
Definition take_id (hub : t) : t * string :=
  (Mk hub.(pending) hub.(receivers) hub.(queues) (wrap 64 (uval hub.(next_id) + 1)) hub.(emitted),
   "approval-" +:+ show_u hub.(next_id)).

(** The channel is made and its sender kept under the request's key. *)
Definition insert (hub : t) (key : string * string) (channel : nat) : t :=
  Mk (<[key := channel]> hub.(pending)) ({[channel]} ∪ hub.(receivers)) (<[channel := []]> hub.(queues))
    hub.(next_id) hub.(emitted).

Definition emit (hub : t) (event : ApprovalRequested.t) : t :=
  Mk hub.(pending) hub.(receivers) hub.(queues) hub.(next_id) (hub.(emitted) ++ [event]).

Definition queue (hub : t) (channel : nat) : list SessionApprovalDecision.t :=
  default [] (hub.(queues) !! channel).

(** Some sender of the channel is left. *)
Definition connected (hub : t) (channel : nat) : Prop := exists key, hub.(pending) !! key = Some channel.

Definition received (hub : t) (channel : nat) (rest : list SessionApprovalDecision.t) : t :=
  Mk hub.(pending) hub.(receivers) (<[channel := rest]> hub.(queues)) hub.(next_id) hub.(emitted).

(** The end of [request]: the key is removed, and the receiver dropped. *)
Definition leave (hub : t) (key : string * string) (channel : nat) : t :=
  Mk (delete key hub.(pending)) (hub.(receivers) ∖ {[channel]}) hub.(queues) hub.(next_id) hub.(emitted).

(** The sender is taken out and used under the lock; [send] fails without a receiver. *)
Definition respond (hub : t) (session_id request_id : string) (decision : SessionApprovalDecision.t)
    : t * bool :=
  match hub.(pending) !! (session_id, request_id) with
  | None => (hub, false)
  | Some channel =>
      let pending := delete (session_id, request_id) hub.(pending) in
      if decide (channel ∈ hub.(receivers))
      then (Mk pending hub.(receivers) (<[channel := queue hub channel ++ [decision]]> hub.(queues))
              hub.(next_id) hub.(emitted), true)
      else (Mk pending hub.(receivers) hub.(queues) hub.(next_id) hub.(emitted), false)
  end.
End ApprovalHub.

Definition APPROVAL_POLL : nat := 100.
Definition APPROVAL_TIMEOUT : nat := 300 * 1000.

(** After so many polls that timed out, the deadline has passed. *)
Definition MAX_POLLS : nat := APPROVAL_TIMEOUT / APPROVAL_POLL.

(** * Calls

    A call goes through its gate ([PolicyToolBox::call]), and on an ask through [approve] and
    [ApprovalHub::request], each of whose accesses to what is shared is a step. *)
Module Phase.
Inductive t :=
  | Gated
  | Consulting
  | Requesting
  | Numbered (request_id : string)
  | Inserted (request_id : string)
  | Waiting (request_id : string) (polls : nat)
  | Receiving (request_id : string) (polls : nat)
  | Leaving (request_id : string) (decision : SessionApprovalDecision.t)
  | Decided (request_id : string) (decision : SessionApprovalDecision.t)
  | Remembering (request_id : string) (decision : SessionApprovalDecision.t)
  | Ran
  | Denied (by_whom : string).
End Phase.

(** [decisions]: the number of the memory the call shares with its session's other calls; [cancel]: that
    of its turn's token; [request]: the id of the request it made, once it has taken one. *)
Module Call.
Record t := Mk {
  session_id : string;
  policy : Policy.t;
  mode : ApprovalMode.t;
  tool : string;
  args : json;
  decisions : nat;
  cancel : nat;
  request : option string;
  at_ : Phase.t;
}.
Definition with_phase (c : t) (p : Phase.t) : t :=
  Mk c.(session_id) c.(policy) c.(mode) c.(tool) c.(args) c.(decisions) c.(cancel)
    (match p with Phase.Numbered request_id => Some request_id | _ => c.(request) end) p.
Definition key (c : t) (request_id : string) : string * string := (c.(session_id), request_id).
End Call.

Definition request_event `{SerdeJson} (c : Call.t) (request_id : string) : ApprovalRequested.t :=
  ApprovalRequested.Mk c.(Call.session_id) request_id c.(Call.tool) c.(Call.args) (tool_tier c.(Call.tool))
    (format_preview c.(Call.tool) c.(Call.args)).

Definition of_approval (allowed : bool) : Phase.t :=
  if allowed then Phase.Ran else Phase.Denied "the operator".

(** [answered] keeps the answers that [respond] accepted, in order. *)
Module World.
Record t := Mk {
  hub : ApprovalHub.t;
  memories : gmap nat (gmap string bool);
  cancelled : gset nat;
  calls : list Call.t;
  answered : list (string * string * SessionApprovalDecision.t);
}.

Definition start (calls : list Call.t) : t := Mk ApprovalHub.new ∅ ∅ calls [].

Definition memory (w : t) (c : Call.t) : gmap string bool := default ∅ (w.(memories) !! c.(Call.decisions)).

Definition remembered (w : t) (c : Call.t) (allow : bool) : gmap nat (gmap string bool) :=
  <[c.(Call.decisions) := <[c.(Call.tool) := allow]> (memory w c)]> w.(memories).

Section steps.
Context `{SerdeJson}.

(** One step of the call [i]: the hub, the memories and the phase after it. When the clock is read is
    arbitrary, but that a poll takes its time. *)
Inductive call_step (w : t) (i : nat) (c : Call.t) :
    Phase.t -> ApprovalHub.t -> gmap nat (gmap string bool) -> Phase.t -> Prop :=
  | step_gate :
      call_step w i c Phase.Gated w.(hub) w.(memories)
        (match decide_with_mode c.(Call.policy) c.(Call.tool) c.(Call.mode) with
         | PolicyAction.Allow => Phase.Ran
         | PolicyAction.Deny => Phase.Denied "policy"
         | PolicyAction.Ask => Phase.Consulting
         end)
  | step_consult :
      call_step w i c Phase.Consulting w.(hub) w.(memories)
        (match memory w c !! c.(Call.tool) with
         | Some allow => of_approval allow
         | None => Phase.Requesting
         end)
  | step_number hub request_id :
      ApprovalHub.take_id w.(World.hub) = (hub, request_id) ->
      call_step w i c Phase.Requesting hub w.(memories) (Phase.Numbered request_id)
  | step_insert request_id :
      call_step w i c (Phase.Numbered request_id)
        (ApprovalHub.insert w.(hub) (Call.key c request_id) i) w.(memories) (Phase.Inserted request_id)
  | step_emit request_id :
      call_step w i c (Phase.Inserted request_id)
        (ApprovalHub.emit w.(hub) (request_event c request_id)) w.(memories) (Phase.Waiting request_id 0)
  | step_give_up request_id polls :
      call_step w i c (Phase.Waiting request_id polls) w.(hub) w.(memories)
        (Phase.Leaving request_id SessionApprovalDecision.Deny)
  | step_wait request_id polls :
      c.(Call.cancel) ∉ w.(cancelled) -> polls < MAX_POLLS ->
      call_step w i c (Phase.Waiting request_id polls) w.(hub) w.(memories) (Phase.Receiving request_id polls)
  | step_receive request_id polls decision rest :
      ApprovalHub.queue w.(hub) i = decision :: rest ->
      call_step w i c (Phase.Receiving request_id polls) (ApprovalHub.received w.(hub) i rest) w.(memories)
        (Phase.Leaving request_id decision)
  | step_timeout request_id polls :
      ApprovalHub.queue w.(hub) i = [] ->
      call_step w i c (Phase.Receiving request_id polls) w.(hub) w.(memories)
        (Phase.Waiting request_id (S polls))
  | step_disconnected request_id polls :
      ApprovalHub.queue w.(hub) i = [] -> ~ ApprovalHub.connected w.(hub) i ->
      call_step w i c (Phase.Receiving request_id polls) w.(hub) w.(memories)
        (Phase.Leaving request_id SessionApprovalDecision.Deny)
  | step_leave request_id decision :
      call_step w i c (Phase.Leaving request_id decision)
        (ApprovalHub.leave w.(hub) (Call.key c request_id) i) w.(memories) (Phase.Decided request_id decision)
  | step_decide request_id decision :
      call_step w i c (Phase.Decided request_id decision) w.(hub) w.(memories)
        (if SessionApprovalDecision.remember decision && negb (bool_decide (c.(Call.cancel) ∈ w.(cancelled)))
         then Phase.Remembering request_id decision
         else of_approval (SessionApprovalDecision.allows decision))
  | step_remember request_id decision :
      call_step w i c (Phase.Remembering request_id decision) w.(hub)
        (remembered w c (SessionApprovalDecision.allows decision))
        (of_approval (SessionApprovalDecision.allows decision)).

(** A call moves. *)
Inductive call_moves (w : t) : t -> Prop :=
  | step_call i c hub memories phase :
      w.(calls) !! i = Some c -> call_step w i c c.(Call.at_) hub memories phase ->
      call_moves w (Mk hub memories w.(cancelled) (<[i := Call.with_phase c phase]> w.(calls)) w.(answered)).

(** A client answers with whatever session, id and decision, or a turn is cancelled. *)
Inductive environment (w : t) : t -> Prop :=
  | step_respond session_id request_id decision hub accepted :
      ApprovalHub.respond w.(World.hub) session_id request_id decision = (hub, accepted) ->
      environment w (Mk hub w.(memories) w.(cancelled) w.(calls)
                       (w.(answered) ++ if accepted then [(session_id, request_id, decision)] else []))
  | step_cancel token :
      environment w (Mk w.(hub) w.(memories) ({[token]} ∪ w.(cancelled)) w.(calls) w.(answered)).

Definition step (w w' : t) : Prop := call_moves w w' \/ environment w w'.
End steps.
End World.

(** * The request a call is waiting on *)

(** Between the insertion of its sender and its removal. *)
Definition listens (p : Phase.t) : option string :=
  match p with
  | Phase.Inserted rid | Phase.Waiting rid _ | Phase.Receiving rid _ | Phase.Leaving rid _ => Some rid
  | _ => None
  end.

(** Its event has been emitted. *)
Definition asked (p : Phase.t) : option string :=
  match p with
  | Phase.Waiting rid _ | Phase.Receiving rid _ | Phase.Leaving rid _ | Phase.Decided rid _
  | Phase.Remembering rid _ => Some rid
  | _ => None
  end.

(** The request the call has made, before its end. *)
Definition numbered (p : Phase.t) : option (option string) :=
  match p with
  | Phase.Gated | Phase.Consulting | Phase.Requesting => Some None
  | Phase.Numbered rid | Phase.Inserted rid | Phase.Waiting rid _ | Phase.Receiving rid _ | Phase.Leaving rid _
  | Phase.Decided rid _ | Phase.Remembering rid _ => Some (Some rid)
  | Phase.Ran | Phase.Denied _ => None
  end.

(** The decision it has come to, which only a denial may owe to no operator. *)
Definition holds (p : Phase.t) : option (string * SessionApprovalDecision.t) :=
  match p with
  | Phase.Leaving rid d | Phase.Decided rid d | Phase.Remembering rid d => Some (rid, d)
  | _ => None
  end.

Section spec.
Context `{SerdeJson}.

(** The call's own request, with its tool and its arguments, was shown to the operator, and that very
    request allowed. *)
Definition own_request_allowed (w : World.t) (c : Call.t) : Prop :=
  exists rid d, c.(Call.request) = Some rid /\ request_event c rid ∈ w.(World.hub).(ApprovalHub.emitted) /\
    (c.(Call.session_id), rid, d) ∈ w.(World.answered) /\ SessionApprovalDecision.allows d = true.

(** The operator was shown a request for the tool in the session and decided it once and for all. *)
Definition remembers (w : World.t) (session tool : string) (allow : bool) : Prop :=
  exists rid d event,
    (session, rid, d) ∈ w.(World.answered) /\ SessionApprovalDecision.remember d = true /\
    SessionApprovalDecision.allows d = allow /\
    event ∈ w.(World.hub).(ApprovalHub.emitted) /\
    event.(ApprovalRequested.session_id) = session /\ event.(ApprovalRequested.request_id) = rid /\
    event.(ApprovalRequested.tool) = tool.

(** The operator let the call run: it asked and its own request was allowed, or it did not ask, the session
    having been allowed the tool once and for all. *)
Definition allowed_by_operator (w : World.t) (c : Call.t) : Prop :=
  own_request_allowed w c \/
  c.(Call.request) = None /\ remembers w c.(Call.session_id) c.(Call.tool) true.

(** [owner]: the session each memory belongs to. *)
Context (owner : nat -> string).

Definition call_ok (w : World.t) (c : Call.t) : Prop :=
  owner c.(Call.decisions) = c.(Call.session_id) /\
  (forall request, numbered c.(Call.at_) = Some request -> c.(Call.request) = request) /\
  (decide_with_mode c.(Call.policy) c.(Call.tool) c.(Call.mode) = PolicyAction.Deny -> c.(Call.request) = None) /\
  (forall rid, asked c.(Call.at_) = Some rid ->
     request_event c rid ∈ w.(World.hub).(ApprovalHub.emitted)) /\
  (forall rid d, holds c.(Call.at_) = Some (rid, d) ->
     d = SessionApprovalDecision.Deny \/ (c.(Call.session_id), rid, d) ∈ w.(World.answered)) /\
  (match c.(Call.at_) with
   | Phase.Gated => True
   | Phase.Denied by_whom =>
       decide_with_mode c.(Call.policy) c.(Call.tool) c.(Call.mode) = PolicyAction.Ask \/
       decide_with_mode c.(Call.policy) c.(Call.tool) c.(Call.mode) = PolicyAction.Deny /\ by_whom = "policy"
   | Phase.Ran =>
       decide_with_mode c.(Call.policy) c.(Call.tool) c.(Call.mode) = PolicyAction.Allow \/
       decide_with_mode c.(Call.policy) c.(Call.tool) c.(Call.mode) = PolicyAction.Ask /\
       allowed_by_operator w c
   | Phase.Remembering _ d =>
       decide_with_mode c.(Call.policy) c.(Call.tool) c.(Call.mode) = PolicyAction.Ask /\
       SessionApprovalDecision.remember d = true
   | _ => decide_with_mode c.(Call.policy) c.(Call.tool) c.(Call.mode) = PolicyAction.Ask
   end).

Record inv (w : World.t) : Prop := {
  inv_calls i c : w.(World.calls) !! i = Some c -> call_ok w c;
  inv_pending key i : w.(World.hub).(ApprovalHub.pending) !! key = Some i ->
    exists c rid, w.(World.calls) !! i = Some c /\ listens c.(Call.at_) = Some rid /\ key = Call.key c rid;
  inv_receivers i c rid : w.(World.calls) !! i = Some c -> listens c.(Call.at_) = Some rid ->
    i ∈ w.(World.hub).(ApprovalHub.receivers);
  inv_queues i c rid d : w.(World.calls) !! i = Some c -> listens c.(Call.at_) = Some rid ->
    d ∈ ApprovalHub.queue w.(World.hub) i -> (c.(Call.session_id), rid, d) ∈ w.(World.answered);
  inv_memories m memory tool allow : w.(World.memories) !! m = Some memory -> memory !! tool = Some allow ->
    remembers w (owner m) tool allow }.

(** What was emitted and answered stays so. *)
Definition extends (w w' : World.t) : Prop :=
  w.(World.hub).(ApprovalHub.emitted) ⊆ w'.(World.hub).(ApprovalHub.emitted) /\
  w.(World.answered) ⊆ w'.(World.answered).

Lemma remembers_mono w w' session tool allow : extends w w' ->
  remembers w session tool allow -> remembers w' session tool allow.
Proof.
  intros [E A] (rid & d & event & H1 & H2 & H3 & H4 & R). exists rid, d, event. split_and!; set_solver.
Qed.

Lemma allowed_mono w w' c : extends w w' -> allowed_by_operator w c -> allowed_by_operator w' c.
Proof.
  intros X [(rid & d & R & Em & An & Al)|[N R]]; [left|right; split; [done|by eapply remembers_mono]].
  destruct X as [E A]. exists rid, d. split_and!; [done|by apply E|by apply A|done].
Qed.

Lemma call_ok_mono w w' c : extends w w' -> call_ok w c -> call_ok w' c.
Proof.
  intros X (O & Nu & D & A & Ho & P). pose proof X as [E An]. split_and!; [done|done|done| | |].
  - intros rid E'. apply E, A, E'.
  - intros rid d E'. destruct (Ho _ _ E') as [->|I]; [by left|right; by apply An].
  - destruct (Call.at_ c); try done. destruct P as [P|[P G]]; [by left|right]. split; [done|].
    by eapply allowed_mono.
Qed.

(** What a call has come to, if it allows the call, an operator allowed. *)
Lemma held_allows w c rid d : call_ok w c -> holds c.(Call.at_) = Some (rid, d) ->
  SessionApprovalDecision.allows d = true -> own_request_allowed w c.
Proof.
  intros (_ & Nu & _ & A & Ho & _) Hd Al. destruct (Ho _ _ Hd) as [->|An]; [done|].
  assert (asked c.(Call.at_) = Some rid /\ numbered c.(Call.at_) = Some (Some rid)) as [As Num]
    by (destruct (Call.at_ c); by simplify_eq/=).
  exists rid, d. split_and!; [by apply Nu|by apply A|done|done].
Qed.

Lemma approved_ok w w' c rid d : extends w w' -> call_ok w c -> holds c.(Call.at_) = Some (rid, d) ->
  decide_with_mode c.(Call.policy) c.(Call.tool) c.(Call.mode) = PolicyAction.Ask ->
  call_ok w' (Call.with_phase c (of_approval (SessionApprovalDecision.allows d))).
Proof.
  intros X Ok Hd Ask. pose proof (held_allows _ _ _ _ Ok Hd) as G. destruct Ok as (O & _).
  unfold of_approval. destruct (SessionApprovalDecision.allows d); split_and!; simpl; try done; try congruence; [|by left].
  right. split; [done|]. eapply allowed_mono; [exact X|]. left. by apply G.
Qed.

(** * The invariant is kept *)

Lemma inv_environment w w' : inv w -> World.environment w w' -> inv w'.
Proof.
  intros I [s rid d hub accepted R|token].
  - unfold ApprovalHub.respond in R. destruct (ApprovalHub.pending _ !! _) as [ch|] eqn:P.
    2: { injection R as <- <-. rewrite app_nil_r. by destruct w. }
    destruct (inv_pending w I _ _ P) as (c & rid' & Lc & Li & K). injection K as -> ->.
    rewrite decide_True in R by (by eapply inv_receivers). injection R as <- <-.
    assert (extends w (World.Mk
      (ApprovalHub.Mk (delete (Call.session_id c, rid') (ApprovalHub.pending (World.hub w)))
         (ApprovalHub.receivers (World.hub w))
         (<[ch:=ApprovalHub.queue (World.hub w) ch ++ [d]]> (ApprovalHub.queues (World.hub w)))
         (ApprovalHub.next_id (World.hub w)) (ApprovalHub.emitted (World.hub w)))
      (World.memories w) (World.cancelled w) (World.calls w)
      (World.answered w ++ [(Call.session_id c, rid', d)]))) as X by (split; simpl; set_solver).
    split; simpl.
    + intros i c' Lc'. eapply call_ok_mono; [exact X|]. by eapply inv_calls.
    + intros key i [_ P']%lookup_delete_Some. by apply (inv_pending w I).
    + apply (inv_receivers w I).
    + intros i c' rid d' Lc' Li' D. unfold ApprovalHub.queue in D. simpl in D.
      destruct (decide (i = ch)) as [->|N].
      * rewrite lookup_insert_eq in D. rewrite Lc in Lc'. injection Lc' as <-. rewrite Li in Li'.
        injection Li' as <-. simpl in D. apply elem_of_app in D as [D|D].
        -- apply elem_of_app. left. by eapply inv_queues.
        -- apply list_elem_of_singleton in D as ->. set_solver.
      * rewrite lookup_insert_ne in D by done. apply elem_of_app. left. by eapply inv_queues.
    + intros m memory tool allow Lm Lt. eapply remembers_mono; [exact X|]. by eapply inv_memories.
  - destruct I. by split.
Qed.

(** What a step of the call [i] has to keep. *)
Lemma inv_update w i c phase hub memories :
  let w' := World.Mk hub memories w.(World.cancelled) (<[i := Call.with_phase c phase]> w.(World.calls))
              w.(World.answered) in
  inv w -> w.(World.calls) !! i = Some c -> extends w w' -> call_ok w' (Call.with_phase c phase) ->
  (forall key j, hub.(ApprovalHub.pending) !! key = Some j ->
     j <> i /\ w.(World.hub).(ApprovalHub.pending) !! key = Some j \/
     j = i /\ exists rid, listens phase = Some rid /\ key = Call.key c rid) ->
  (forall j, j <> i -> j ∈ w.(World.hub).(ApprovalHub.receivers) -> j ∈ hub.(ApprovalHub.receivers)) ->
  (forall rid, listens phase = Some rid -> i ∈ hub.(ApprovalHub.receivers)) ->
  (forall j, j <> i -> ApprovalHub.queue hub j = ApprovalHub.queue w.(World.hub) j) ->
  (forall rid d, listens phase = Some rid -> d ∈ ApprovalHub.queue hub i ->
     (c.(Call.session_id), rid, d) ∈ w.(World.answered)) ->
  (forall m memory tool allow, memories !! m = Some memory -> memory !! tool = Some allow ->
     remembers w' (owner m) tool allow) ->
  inv w'.
Proof.
  intros w' I Lc X Ok P R1 R2 Q1 Q2 M.
  assert (forall j c', World.calls w' !! j = Some c' ->
    j = i /\ c' = Call.with_phase c phase \/ j <> i /\ w.(World.calls) !! j = Some c') as L.
  { intros j c' Lj. simpl in Lj. apply list_lookup_insert_Some in Lj as [(-> & -> & _)|[N Lj]]; [by left|].
    right. by split. }
  split.
  - intros j c' Lj. destruct (L _ _ Lj) as [[-> ->]|[_ Lj']]; [done|].
    eapply call_ok_mono; [exact X|]. by eapply inv_calls.
  - intros key j Pj. destruct (P _ _ Pj) as [[N Pj']|[-> (rid & E & ->)]].
    + destruct (inv_pending w I _ _ Pj') as (c' & rid & Lc' & Li & K). exists c', rid. split_and!; [|done|done].
      simpl. by rewrite list_lookup_insert_ne by done.
    + exists (Call.with_phase c phase), rid. split_and!; [|done|done]. simpl.
      apply list_lookup_insert_eq. by eapply lookup_lt_Some.
  - intros j c' rid Lj Li. destruct (L _ _ Lj) as [[-> ->]|[N Lj']]; [by eapply R2|].
    apply R1; [done|]. by eapply inv_receivers.
  - intros j c' rid d Lj Li D. destruct (L _ _ Lj) as [[-> ->]|[N Lj']]; [exact (Q2 _ _ Li D)|].
    simpl in D. rewrite Q1 in D by done. exact (inv_queues w I _ _ _ _ Lj' Li D).
  - exact M.
Qed.

(** A step that leaves the hub and the memories. *)
Lemma inv_local w i c phase :
  let w' := World.Mk w.(World.hub) w.(World.memories) w.(World.cancelled)
              (<[i := Call.with_phase c phase]> w.(World.calls)) w.(World.answered) in
  inv w -> w.(World.calls) !! i = Some c -> call_ok w' (Call.with_phase c phase) ->
  listens phase = listens c.(Call.at_) -> inv w'.
Proof.
  intros w' I Lc Ok E. apply inv_update; try done.
  - intros key j Pj. destruct (decide (j = i)) as [->|N]; [right|by left]. split; [done|].
    destruct (inv_pending w I _ _ Pj) as (c' & rid & Lc' & Li & ->). rewrite Lc in Lc'. injection Lc' as <-.
    exists rid. by rewrite E.
  - intros rid Li. eapply inv_receivers; [done|done|by rewrite <- E].
  - intros rid d Li D. eapply inv_queues; [done|done| |done]. by rewrite <- E.
  - apply (inv_memories w I).
Qed.

Lemma inv_call_moves w w' : inv w -> World.call_moves w w' -> inv w'.
Proof.
  intros I [i c hub memories phase Lc St].
  pose proof (inv_calls w I _ _ Lc) as (O & Nu & De & A & Ho & P).
  destruct c as [session policy mode tool args memory token request at_]. simpl in *.
  inversion St; subst; clear St; simpl in *.
  (* gate, consult *)
  1-2: apply inv_local; [done|done| |by unfold of_approval; repeat case_match].
  - unfold call_ok. simpl. destruct (decide_with_mode policy tool mode) eqn:D; simpl; split_and!; try done;
      try (by left); by right.
  - unfold call_ok. simpl.
    assert (forall allow, World.memory w (Call.Mk (owner memory) policy mode tool args memory token request Phase.Consulting)
              !! tool = Some allow -> remembers w (owner memory) tool allow) as R.
    { intros allow E. unfold World.memory in E. simpl in E.
      destruct (World.memories w !! memory) as [m|] eqn:M; [|done]. by eapply inv_memories. }
    destruct (World.memory _ _ !! tool) as [[]|]; simpl; split_and!; try done; try congruence; [|by left].
    right. split; [done|]. eapply (allowed_mono w); [done|]. right. split; [by apply Nu | by apply R].
  - (* number *) unfold ApprovalHub.take_id in *. simplify_eq/=.
    apply inv_update; try done.
    + split_and!; simpl; try done; [by intros r [= <-] | congruence].
    + intros key j Pj. left. split; [|done]. intros ->.
      destruct (inv_pending w I _ _ Pj) as (c' & rid & Lc' & Li & _). rewrite Lc in Lc'. by injection Lc' as <-.
    + apply (inv_memories w I).
  - (* insert *) apply inv_update; try done; simpl.
    + intros key j [[<- <-]|[N Pj]]%lookup_insert_Some; [right; split; [done|by eexists]|left; split; [|done]].
      intros ->. destruct (inv_pending w I _ _ Pj) as (c' & rid & Lc' & Li & _). rewrite Lc in Lc'.
      by injection Lc' as <-.
    + set_solver.
    + intros rid _. set_solver.
    + intros j N. unfold ApprovalHub.queue. simpl. by rewrite lookup_insert_ne.
    + intros rid d _. unfold ApprovalHub.queue. simpl. rewrite lookup_insert_eq. simpl. set_solver.
    + apply (inv_memories w I).
  - (* emit *)
    assert (extends w (World.Mk (ApprovalHub.emit (World.hub w) (request_event
       (Call.Mk (owner memory) policy mode tool args memory token request (Phase.Inserted request_id)) request_id))
       (World.memories w) (World.cancelled w) (<[i := Call.Mk (owner memory) policy mode tool args memory token request
          (Phase.Waiting request_id 0)]> (World.calls w)) (World.answered w))) as X by (split; simpl; set_solver).
    apply inv_update; try done.
    + split_and!; [done|done|done| |done|done]. simpl. intros rid [= <-]. apply elem_of_app. right. by left.
    + intros key j Pj. destruct (decide (j = i)) as [->|N]; [right|by left]. split; [done|].
      destruct (inv_pending w I _ _ Pj) as (c' & rid & Lc' & Li & ->). rewrite Lc in Lc'. injection Lc' as <-.
      by exists rid.
    + intros rid Li. by eapply inv_receivers.
    + intros rid d Li D. by eapply inv_queues.
    + intros m mem t allow Lm Lt. eapply remembers_mono; [exact X|]. by eapply inv_memories.
  - (* give up *) apply inv_local; [done|done| |done]. split_and!; [done|done|done|done| |done].
    intros rid d [= <- <-]. by left.
  - (* wait *) by apply inv_local.
  - (* receive *)
    assert (decision ∈ ApprovalHub.queue (World.hub w) i) as D0 by (rewrite H0; by left).
    pose proof (inv_queues w I _ _ _ _ Lc eq_refl D0) as An. simpl in An.
    apply inv_update; try done.
    + split_and!; [done|done|done|done| |done]. intros rid d [= <- <-]. by right.
    + intros key j Pj. destruct (decide (j = i)) as [->|N]; [right|by left]. split; [done|].
      destruct (inv_pending w I _ _ Pj) as (c' & rid & Lc' & Li & ->). rewrite Lc in Lc'. injection Lc' as <-.
      by exists rid.
    + intros rid Li. by eapply inv_receivers.
    + intros j N. unfold ApprovalHub.queue. simpl. by rewrite lookup_insert_ne.
    + intros rid d Li D. unfold ApprovalHub.queue in D. simpl in D. rewrite lookup_insert_eq in D. simpl in D.
      eapply inv_queues; [done|done|done|]. rewrite H0. by right.
    + apply (inv_memories w I).
  - (* timeout *) by apply inv_local.
  - (* disconnected *) apply inv_local; [done|done| |done]. split_and!; [done|done|done|done| |done].
    intros rid d [= <- <-]. by left.
  - (* leave *) apply inv_update; try done.
    + simpl. intros key j [N Pj]%lookup_delete_Some. left. split; [|done]. intros ->.
      destruct (inv_pending w I _ _ Pj) as (c' & rid & Lc' & Li & ->). rewrite Lc in Lc'. injection Lc' as <-.
      injection Li as <-. done.
    + simpl. set_solver.
    + apply (inv_memories w I).
  - (* decide *)
    pose proof (inv_calls w I _ _ Lc) as Ok.
    destruct (_ && _) eqn:R; apply inv_local; try done.
    + apply andb_true_iff in R as [R _]. by split_and!.
    + by eapply approved_ok.
    + unfold of_approval. by case_match.
  - (* remember *)
    pose proof (inv_calls w I _ _ Lc) as Ok. destruct P as [P R].
    apply inv_update; try done.
    + by eapply approved_ok.
    + intros key j Pj. left. split; [|done]. intros ->.
      destruct (inv_pending w I _ _ Pj) as (c' & rid & Lc' & Li & _). rewrite Lc in Lc'. by injection Lc' as <-.
    + unfold of_approval. by case_match.
    + unfold of_approval. by case_match.
    + intros m mem t allow. unfold World.remembered. simpl.
      intros [[<- <-]|[N Lm]]%lookup_insert_Some Lt; [|by eapply remembers_mono; [|by eapply inv_memories]].
      apply lookup_insert_Some in Lt as [[<- <-]|[N Lt]].
      * destruct (Ho _ _ eq_refl) as [->|An]; [done|].
        exists request_id, decision. eexists. split_and!; [done|done|done|by apply A|done|done|done].
      * unfold World.memory in Lt. simpl in Lt. destruct (World.memories w !! memory) as [mem|] eqn:M; [|done].
        eapply remembers_mono; [|by eapply inv_memories]. done.
Qed.

Lemma inv_steps w w' : inv w -> rtc World.step w w' -> inv w'.
Proof. intros I. induction 1 as [|w w1 w' [M|En] _ IH]; [done|..]; [by eapply IH, inv_call_moves|by eapply IH, inv_environment]. Qed.
End spec.

(** Calls about to begin, each with the memory of its session. *)
Definition beginning (owner : nat -> string) (calls : list Call.t) : Prop :=
  Forall (fun c => c.(Call.at_) = Phase.Gated /\ c.(Call.request) = None /\
                   owner c.(Call.decisions) = c.(Call.session_id)) calls.

(** * The ids of the requests *)

Definition requested (calls : list Call.t) : nat :=
  length (List.filter (fun c => match c.(Call.request) with Some _ => true | None => false end) calls).

Definition numbering (w : World.t) (ids : nat -> N) : Prop :=
  w.(World.hub).(ApprovalHub.next_id) = wrap 64 (N.of_nat (requested w.(World.calls)) + 1) /\
  (forall i c rid, w.(World.calls) !! i = Some c -> c.(Call.request) = Some rid ->
     rid = "approval-" +:+ show_u (wrap 64 (ids i)) /\ (1 <= ids i <= N.of_nat (requested w.(World.calls)))%N) /\
  (forall i j c c' rid rid', w.(World.calls) !! i = Some c -> w.(World.calls) !! j = Some c' ->
     c.(Call.request) = Some rid -> c'.(Call.request) = Some rid' -> ids i = ids j -> i = j).

Lemma requested_bound calls : requested calls <= length calls.
Proof. apply List.filter_length_le. Qed.

Lemma requested_insert calls i c c' : calls !! i = Some c ->
  requested (<[i := c']> calls) + (match c.(Call.request) with Some _ => 1 | None => 0 end) =
  requested calls + (match c'.(Call.request) with Some _ => 1 | None => 0 end).
Proof.
  unfold requested. revert i. induction calls as [|c0 calls IH]; intros [|i] L; simpl in *; try done.
  - injection L as ->. by destruct (Call.request c), (Call.request c'); simpl; lia.
  - specialize (IH i L). destruct (Call.request c0); simpl; lia.
Qed.

Lemma approval_id_inj (a b : u64) : "approval-" +:+ show_u a = "approval-" +:+ show_u b -> a = b.
Proof. intros E%(inj (String.append "approval-")). unfold show_u in E. apply (inj pretty) in E. by apply uint_eq. Qed.

(** A call that takes no id keeps the numbering. *)
Lemma numbering_kept w w' ids i c c' :
  numbering w ids -> w.(World.calls) !! i = Some c -> w'.(World.calls) = <[i := c']> w.(World.calls) ->
  c'.(Call.request) = c.(Call.request) ->
  w'.(World.hub).(ApprovalHub.next_id) = w.(World.hub).(ApprovalHub.next_id) -> numbering w' ids.
Proof.
  intros (Nx & Id & In) L C R Nx'. assert (requested w'.(World.calls) = requested w.(World.calls)) as Rq.
  { pose proof (requested_insert _ _ _ c' L) as E. rewrite C. rewrite R in E. lia. }
  assert (forall j d, w'.(World.calls) !! j = Some d -> exists d0, w.(World.calls) !! j = Some d0 /\
            d0.(Call.request) = d.(Call.request)) as B.
  { intros j d Lj. rewrite C in Lj. apply list_lookup_insert_Some in Lj as [(-> & -> & _)|[_ Lj]]; eauto. }
  split_and!; [by rewrite Nx', Rq| |].
  - intros j d rid (d0 & Lj & E)%B Rd. rewrite Rq. eapply Id; [exact Lj | by rewrite E].
  - intros j k d d' rid rid' (d0 & Lj & E)%B (d1 & Lk & E')%B Rd Rd'.
    eapply In; [exact Lj | exact Lk | by rewrite E | by rewrite E'].
Qed.

Section reached.
Context `{SerdeJson}.

Lemma inv_calls_start owner calls : beginning owner calls -> inv owner (World.start calls).
Proof.
  intros B. split; simpl.
  - intros i c L. unfold beginning in B. rewrite Forall_lookup in B. destruct (B _ _ L) as [G O].
    unfold call_ok. rewrite G. destruct O as [R O]. split_and!; simpl; try done. by intros r [= <-].
  - intros key i. by rewrite lookup_empty.
  - intros i c rid L Li. unfold beginning in B. rewrite Forall_lookup in B. destruct (B _ _ L) as [G _].
    by rewrite G in Li.
  - intros i c rid d L Li. unfold beginning in B. rewrite Forall_lookup in B. destruct (B _ _ L) as [G _].
    by rewrite G in Li.
  - intros m memory tool allow. by rewrite lookup_empty.
Qed.

Lemma calls_length calls w : rtc World.step (World.start calls) w -> length w.(World.calls) = length calls.
Proof.
  revert w. apply (rtc_ind_r _ _); [done|]. intros w w' _ [[]|[]] <-; [apply length_insert|done|done].
Qed.

(** A call that has not made its request has no id. *)
Definition unnumbered (w : World.t) : Prop :=
  forall i c request, w.(World.calls) !! i = Some c -> numbered c.(Call.at_) = Some request -> c.(Call.request) = request.

Lemma numbering_step w w' ids : unnumbered w -> numbering w ids -> World.step w w' -> exists ids', numbering w' ids'.
Proof.
  intros U Nu [[i c hub memories phase L St]|En].
  2: { exists ids. destruct Nu as (Nx & Id & In). destruct En as [s rid d hub accepted R|token]; [|done].
       assert (hub.(ApprovalHub.next_id) = w.(World.hub).(ApprovalHub.next_id)) as E.
       { unfold ApprovalHub.respond in R. repeat case_match; by simplify_eq/=. }
       split_and!; simpl; [by rewrite E | done | done]. }
  pose proof (U i c) as Uc. remember c.(Call.at_) as at_ eqn:A. destruct St as [| |hub rid T| | | | | | | | | |].
  3: { destruct Nu as (Nx & Id & In). unfold ApprovalHub.take_id in T. injection T as <- Er.
       assert (c.(Call.request) = None) as R by (by apply Uc).
       pose proof (requested_insert _ _ _ (Call.with_phase c (Phase.Numbered rid)) L) as Rq. rewrite R in Rq. cbn [Call.request Call.with_phase] in Rq.
       rewrite Nat.add_0_r in Rq.
       exists (fun j => if decide (j = i) then (N.of_nat (requested w.(World.calls)) + 1)%N else ids j).
       split_and!; cbn [World.calls World.hub ApprovalHub.next_id].
       - rewrite Rq, Nx, Nat2N.inj_add. apply uint_eq. rewrite !uval_wrap. change (N.of_nat 1) with 1%N. apply N.Div0.add_mod_idemp_l.
       - intros j d rid1 [(<- & <- & _)|[N Lj]]%list_lookup_insert_Some Rd.
         + simpl in Rd. injection Rd as <-. rewrite decide_True by done. rewrite Rq, <- Er, Nx. split; [done|]. lia.
         + rewrite decide_False by done. destruct (Id _ _ _ Lj Rd). split; [done|]. lia.
       - intros j k d d' rid1 rid' [(<- & <- & _)|[N Lj]]%list_lookup_insert_Some
           [(<- & <- & _)|[N' Lk]]%list_lookup_insert_Some Rd Rd'; repeat case_decide; try done.
         + destruct (Id _ _ _ Lk Rd') as [_ B]. lia.
         + destruct (Id _ _ _ Lj Rd) as [_ B]. lia.
         + by eapply In. }
  all: exists ids; eapply numbering_kept; [exact Nu | exact L | done | | done].
  all: simpl; unfold of_approval; repeat case_match; try done.
Qed.

Lemma numbering_steps owner calls w : beginning owner calls -> rtc World.step (World.start calls) w ->
  exists ids, numbering w ids.
Proof.
  intros B S. enough (inv owner w /\ exists ids, numbering w ids) as [_ E] by done. revert w S.
  apply (rtc_ind_r _ _).
  - split; [by apply inv_calls_start|]. exists (fun _ => 0%N).
    assert (forall i c, calls !! i = Some c -> c.(Call.request) = None) as R.
    { intros i c L. unfold beginning in B. rewrite Forall_lookup in B. by destruct (B _ _ L) as (_ & R & _). }
    split_and!; simpl; [| intros i c rid L E; by rewrite (R _ _ L) in E | intros i j c c' rid rid' L _ E; by rewrite (R _ _ L) in E].
    assert (requested calls = 0) as ->; [|done]. clear B. unfold requested. induction calls as [|c calls IH]; [done|]. simpl.
    rewrite (R 0 c eq_refl). apply IH. intros i. apply (R (Datatypes.S i)).
  - intros w w' _ St [I [ids Nu]]. split; [eapply inv_steps; [exact I|by apply rtc_once]|].
    eapply numbering_step; [|exact Nu|exact St]. intros i c request L E.
    destruct (inv_calls _ _ I _ _ L) as (_ & U & _). by apply U.
Qed.

(** C17: A tool call of a session runs only with leave. Under every interleaving of the calls of all the
    sessions, the answers of clients (whatever session, request and decision they name, as often as they
    like) and the cancelling of turns, a call that ran was allowed by its policy and mode, or these said
    to ask and the operator allowed it: the call made a request of its own, which was shown with its tool and
    its arguments, and an accepted answer that names that request of that session allows it; or it made none,
    and an earlier answer, to a request for that tool in that very session, allows the tool once and for all.
    No two calls have a request of the same id (as long as the daemon has had fewer calls than a 64-bit
    counter counts), so the answer to another's request never lets a call run, nor does a lapse of time or a
    cancelled turn. And a call the policy denies makes no request, and is refused by the policy. *)
Theorem approval_safe (owner : nat -> string) (calls : list Call.t) (w : World.t) (i : nat) (c : Call.t)
    (B : beginning owner calls) (S : rtc World.step (World.start calls) w)
    (L : w.(World.calls) !! i = Some c) :
  let decision := decide_with_mode c.(Call.policy) c.(Call.tool) c.(Call.mode) in
  (c.(Call.at_) = Phase.Ran ->
     decision = PolicyAction.Allow \/
     decision = PolicyAction.Ask /\ allowed_by_operator w c) /\
  (decision = PolicyAction.Deny ->
     c.(Call.request) = None /\ (c.(Call.at_) = Phase.Gated \/ c.(Call.at_) = Phase.Denied "policy")) /\
  ((N.of_nat (length calls) < 2 ^ 64)%N -> forall j c', w.(World.calls) !! j = Some c' ->
     c'.(Call.request) = c.(Call.request) -> c.(Call.request) <> None -> j = i).
Proof.
  destruct (inv_calls _ _ (inv_steps _ _ _ (inv_calls_start _ _ B) S) _ _ L) as (_ & _ & De & _ & _ & P). split_and!.
  - intros E. by rewrite E in P.
  - intros D. split; [by apply De|]. destruct (Call.at_ c); try (by left); try (exfalso; intuition congruence).
    right. destruct P as [P|[_ ->]]; [congruence|done].
  - intros Small j c' L' R' N. destruct (numbering_steps _ _ _ B S) as (ids & _ & Id & In).
    destruct (Call.request c) as [rid|] eqn:R; [|done].
    destruct (Id _ _ _ L R) as [E Bi], (Id _ _ _ L' R') as [E' Bj]. rewrite E in E'. apply approval_id_inj in E'.
    assert (length w.(World.calls) = length calls) as Len by by eapply calls_length.
    pose proof (requested_bound w.(World.calls)). apply (In j i c' c rid rid L' L R' R).
    rewrite <- (uval_wrap_small 64 (ids i)), <- (uval_wrap_small 64 (ids j)) by lia. by rewrite E'.
Qed.

(** * Every call ends *)

#[local] Opaque MAX_POLLS.

Definition weight (p : Phase.t) : nat :=
  match p with
  | Phase.Gated => 2 * MAX_POLLS + 9
  | Phase.Consulting => 2 * MAX_POLLS + 8
  | Phase.Requesting => 2 * MAX_POLLS + 7
  | Phase.Numbered _ => 2 * MAX_POLLS + 6
  | Phase.Inserted _ => 2 * MAX_POLLS + 5
  | Phase.Waiting _ polls => 2 * (MAX_POLLS - polls) + 4
  | Phase.Receiving _ polls => if polls <? MAX_POLLS then 2 * (MAX_POLLS - polls) + 3 else 5
  | Phase.Leaving _ _ => 3
  | Phase.Decided _ _ => 2
  | Phase.Remembering _ _ => 1
  | Phase.Ran | Phase.Denied _ => 0
  end.

Definition finished (p : Phase.t) : Prop := p = Phase.Ran \/ exists by_whom, p = Phase.Denied by_whom.

Lemma call_step_weight w i c p hub memories p' :
  World.call_step w i c p hub memories p' -> weight p' < weight p.
Proof.
  destruct 1; unfold of_approval; repeat case_match; simpl;
    repeat match goal with |- context [?a <? ?b] => destruct (Nat.ltb_spec a b) end; lia.
Qed.

Lemma call_can_move w i c : w.(World.calls) !! i = Some c ->
  finished c.(Call.at_) \/ exists w', World.call_moves w w'.
Proof.
  intros L. destruct (Call.at_ c) as [| | |rid|rid|rid polls|rid polls|rid d|rid d|rid d| |by_whom] eqn:P.
  11: by left; left. 11: left; right; by eexists.
  all: right.
  7: destruct (ApprovalHub.queue (World.hub w) i) eqn:Q.
  all: eexists; eapply World.step_call; [exact L|rewrite P].
  all: first [by eapply World.step_timeout|by eapply World.step_receive|econstructor].
  apply surjective_pairing.
Qed.

(** [runs n]: some steps, of which [n] are of calls. *)
Inductive runs : nat -> World.t -> World.t -> Prop :=
  | runs_refl w : runs 0 w w
  | runs_call n w w1 w2 : runs n w w1 -> World.call_moves w1 w2 -> runs (S n) w w2
  | runs_environment n w w1 w2 : runs n w w1 -> World.environment w1 w2 -> runs n w w2.

Definition total_weight (calls : list Call.t) : nat := sum_list (map (fun c => weight c.(Call.at_)) calls).

Lemma total_weight_insert calls i c phase : calls !! i = Some c -> weight phase < weight c.(Call.at_) ->
  total_weight (<[i := Call.with_phase c phase]> calls) < total_weight calls.
Proof.
  unfold total_weight. revert i. induction calls as [|c' calls IH]; intros [|i] L W; simpl in *; try done.
  - injection L as ->. lia.
  - specialize (IH i L W). lia.
Qed.

Lemma runs_weight n w w' : runs n w w' -> n + total_weight w'.(World.calls) <= total_weight w.(World.calls).
Proof.
  induction 1 as [w|n w w1 w2 _ IH M|n w w1 w2 _ IH En]; [lia| |].
  - destruct M as [i c hub memories phase L St]. simpl. apply call_step_weight in St.
    pose proof (total_weight_insert _ _ _ _ L St). lia.
  - by destruct En.
Qed.

Lemma total_weight_start owner calls : beginning owner calls ->
  total_weight calls = length calls * (2 * MAX_POLLS + 9).
Proof.
  unfold total_weight. induction 1 as [|c calls [G _] _ IH]; [done|]. simpl map. simpl sum_list.
  rewrite IH, G. simpl weight. simpl length. lia.
Qed.

(** C24: No call waits for ever on its operator. Whatever clients answer or leave unanswered and whichever
    turns are cancelled, the calls of a daemon take together at most so many steps as two for each of the
    polls that the time limit allows, and nine more, for each call; and as long as one has not ended, some
    call can take a step. *)
Theorem approvals_end (owner : nat -> string) (calls : list Call.t) (n : nat) (w : World.t)
    (B : beginning owner calls) (R : runs n (World.start calls) w) :
  n <= length calls * (2 * MAX_POLLS + 9) /\
  (Forall (fun c => finished c.(Call.at_)) w.(World.calls) \/ exists w', World.call_moves w w').
Proof.
  split.
  - apply runs_weight in R. simpl in R. rewrite (total_weight_start _ _ B) in R. lia.
  - destruct (decide (Exists (fun c => total_weight [c] <> 0) (World.calls w))) as [Ex|N].
    + right. apply Exists_exists in Ex as (c & (i & L)%list_elem_of_lookup & W).
      destruct (call_can_move _ _ _ L) as [[E|[b E]]|M]; [..|done]; unfold total_weight in W; simpl in W;
        rewrite E in W; done.
    + left. apply not_Exists_Forall in N; [|apply _]. eapply Forall_impl; [exact N|]. intros c W.
      unfold total_weight in W. simpl in W.
      destruct (Call.at_ c) as [| | |rid|rid|rid polls|rid polls|rid d|rid d|rid d| |by_whom]; simpl in W;
        try (by left); try (by right; eexists); exfalso; apply W; try lia.
      destruct (_ <? _); lia.
Qed.
End reached.
(** * Runs *)

Definition edit_call : Call.t :=
  Call.Mk "s" Policy.builtin ApprovalMode.AlwaysAsk "edit" (JObj [("path", JStr "a")]) 0 0 None Phase.Gated.

(** The call once it has taken its id. *)
Definition edit_asked (phase : Phase.t) : Call.t :=
  Call.with_phase (Call.with_phase edit_call (Phase.Numbered "approval-1")) phase.

Lemma beginning_edit : beginning (fun _ => "s") [edit_call].
Proof. by repeat constructor. Qed.

(** Up to the wait for an answer, and one step of the call or of the environment after it. *)
Ltac moves c := eapply rtc_l; [left; eapply (World.step_call _ 0); [reflexivity|simpl; eapply c]|simpl].
Ltac answers := eapply rtc_l; [right; eapply (World.step_respond _ "s" "approval-1" SessionApprovalDecision.Allow);
  vm_compute; reflexivity|simpl].

Lemma some_polls : 0 < MAX_POLLS.
Proof. apply Nat.ltb_lt. vm_compute. reflexivity. Qed.

Lemma allowed_run : exists w,
  rtc World.step (World.start [edit_call]) w /\
  w.(World.calls) = [edit_asked Phase.Ran].
Proof.
  eexists. split.
  - moves World.step_gate. moves World.step_consult. moves World.step_number; [reflexivity|].
    moves World.step_insert. moves World.step_emit. moves World.step_wait; [done|exact some_polls|].
    answers. moves World.step_receive; [vm_compute; reflexivity|].
    moves World.step_leave. moves World.step_decide. apply rtc_refl.
  - reflexivity.
Qed.

(** An answer the hub accepts may have no effect: the call has given up and not yet left. *)
Lemma late_answer_ignored : exists w,
  rtc World.step (World.start [edit_call]) w /\
  w.(World.answered) = [("s", "approval-1", SessionApprovalDecision.Allow)] /\
  w.(World.calls) = [edit_asked (Phase.Denied "the operator")].
Proof.
  eexists. split.
  - moves World.step_gate. moves World.step_consult. moves World.step_number; [reflexivity|].
    moves World.step_insert. moves World.step_emit. moves World.step_give_up.
    answers. moves World.step_leave. moves World.step_decide. apply rtc_refl.
  - split; reflexivity.
Qed.

Lemma approval_safe_witness : exists w,
  rtc World.step (World.start [edit_call]) w /\
  own_request_allowed w (edit_asked Phase.Ran).
Proof.
  destruct allowed_run as (w & S & E). exists w. split; [exact S|].
  assert (World.calls w !! 0 = Some (edit_asked Phase.Ran)) as L by (rewrite E; reflexivity).
  destruct (proj1 (approval_safe (fun _ => "s") [edit_call] w 0 _ beginning_edit S L) eq_refl) as [D|[_ A]].
  - vm_compute in D. discriminate D.
  - destruct A as [A|[A _]]; [exact A|discriminate A].
Defined.

Lemma approvals_end_witness : exists w',
  runs 0 (World.start [edit_call]) (World.start [edit_call]) /\ 0 <= 1 * (2 * MAX_POLLS + 9) /\
  World.call_moves (World.start [edit_call]) w'.
Proof.
  destruct (approvals_end (fun _ => "s") [edit_call] 0 (World.start [edit_call]) beginning_edit
    (runs_refl _)) as [L [F|[w' M]]].
  - apply Forall_inv in F. destruct F as [F|[b F]]; discriminate F.
  - exists w'. split; [apply runs_refl|]. split; [exact L|exact M].
Defined.
