(* ===== verification/Sessions.v ===== *)
(** The record of a session ([nerve-workstation/src/session.rs]): its transcript, its times, its store;
    and the working-memory note that goes with it ([checkpoint.rs]). *)
From stdpp Require Import gmap strings.
From S2P Require Import Prelude Text Json Tape History Agent Disk Wire RecordStore.
Open Scope nerve_scope.

(** * Fields of the derive the other records do not have *)

(** An [Option] that is written as [null]. *)
Definition fld_null `{Serde A} (k : string) (o : option A) : string * option json :=
  (k, Some (match o with Some a => ser a | None => JNull end)).

(** A [Value], which is any value. *)
Definition fld_value (k : string) (v : json) : string * option json := (k, Some v).
Definition req_value (k : string) (m : list (string * json)) : option json :=
  match get k m with Some (Some v) => Some v | _ => None end.

Section present.
Context (k : string) (fs : fields) (ND : bool_decide (NoDup (map fst fs)) = true).

Lemma opt_null_present `{Serde A} (o : option A) :
  lookup_field k fs = (fld_null k o).2 -> opt k (present fs) = Some o.
Proof using ND.
  intros E. unfold opt. rewrite get_present, E by by eapply bool_decide_eq_true. destruct o as [a|]; cbn; [|done].
  pose proof (ser_nonnull a). destruct (ser a) eqn:Ea; [done|..]; rewrite <- Ea, de_ser; done.
Qed.

Lemma req_value_present v : lookup_field k fs = Some v -> req_value k (present fs) = Some v.
Proof using ND.
  intros E. unfold req_value. by rewrite get_present, E by by eapply bool_decide_eq_true.
Qed.
End present.

Ltac session_field :=
  first
    [ serde_field
    | match goal with
      | |- mbind _ (opt ?k (present ?fs)) = _ =>
          refine (bind_field _ _ _ _ (opt_null_present k fs eq_refl _ eq_refl) _)
      | |- mbind _ (req_value ?k (present ?fs)) = _ =>
          refine (bind_field _ _ _ _ (req_value_present k fs eq_refl _ eq_refl) _)
      end; cbv beta ].

Ltac session_struct :=
  first
    [ done
    | intros []; unfold obj; cbn -[req dflt opt req_value present wrap]; repeat session_field; reflexivity ].

Ltac session_enum :=
  first
    [ done
    | intros []; unfold obj; cbn -[req dflt opt req_value present wrap by_tag]; session_field;
      cbn [by_tag String.eqb Ascii.eqb Bool.eqb]; repeat session_field; reflexivity
    | intros []; done ].

(** * The conversation as it is written *)

#[export, refine] Instance role_tagged : Tagged Role.t :=
  {| tag_of r := match r with
                 | Role.System => "system" | Role.User => "user"
                 | Role.Assistant => "assistant" | Role.Tool => "tool"
                 end;
     variants := [Role.System; Role.User; Role.Assistant; Role.Tool] |}.
Proof. by intros []. Defined.
#[export] Instance role_serde : Serde Role.t := tagged_serde.

#[export, refine] Instance tool_call_serde : Serde ToolCall.t :=
  {| ser c := obj [fld "id" c.(ToolCall.id); fld "name" c.(ToolCall.name);
                   fld_value "arguments" c.(ToolCall.arguments)];
     de j := m ← as_obj j;
       id ← req "id" m; name ← req "name" m; arguments ← req_value "arguments" m;
       Some (ToolCall.Mk id name arguments) |}.
Proof. all: session_struct. Defined.

#[export, refine] Instance reasoning_serde : Serde Reasoning.t :=
  {| ser r := obj [fld "text" r.(Reasoning.text); fld_opt "signature" r.(Reasoning.signature)];
     de j := m ← as_obj j;
       text ← req "text" m; signature ← opt "signature" m; Some (Reasoning.Mk text signature) |}.
Proof. all: session_struct. Defined.

#[export, refine] Instance message_serde : Serde Message.t :=
  {| ser r := obj [fld "role" r.(Message.role); fld "content" r.(Message.content);
                   fld_opt "reasoning" r.(Message.reasoning); fld "tool_calls" r.(Message.tool_calls);
                   fld_null "tool_call_id" r.(Message.tool_call_id); fld_null "name" r.(Message.name)];
     de j := m ← as_obj j;
       role ← req "role" m; content ← req "content" m; reasoning ← opt "reasoning" m;
       tool_calls ← req "tool_calls" m; tool_call_id ← opt "tool_call_id" m; name ← opt "name" m;
       Some (Message.Mk role content reasoning tool_calls tool_call_id name) |}.
Proof. all: session_struct. Defined.

(** * Records *)

Module SessionEvent.
Inductive t :=
  | TurnStarted (turn : u32)
  | AssistantText (text : string)
  | Reasoning (text : string)
  | ToolStarted (name : string) (arguments : json)
  | ToolFinished (name : string) (ok : bool) (output : string)
  | Interrupted (reason : string)
  | Done (reason : string).

#[export, refine] Instance serde : Serde t :=
  {| ser e := match e with
       | TurnStarted turn => obj [fld "type" "turn_started"; fld "turn" turn]
       | AssistantText text => obj [fld "type" "assistant_text"; fld "text" text]
       | Reasoning text => obj [fld "type" "reasoning"; fld "text" text]
       | ToolStarted name arguments =>
           obj [fld "type" "tool_started"; fld "name" name; fld_value "arguments" arguments]
       | ToolFinished name ok output =>
           obj [fld "type" "tool_finished"; fld "name" name; fld "ok" ok; fld "output" output]
       | Interrupted reason => obj [fld "type" "interrupted"; fld "reason" reason]
       | Done reason => obj [fld "type" "done"; fld "reason" reason]
       end;
     de j := m ← as_obj j;
       kind ← req "type" m;
       by_tag kind
         [("turn_started", turn ← req "turn" m; Some (TurnStarted turn));
          ("assistant_text", text ← req "text" m; Some (AssistantText text));
          ("reasoning", text ← req "text" m; Some (Reasoning text));
          ("tool_started", name ← req "name" m; arguments ← req_value "arguments" m;
                           Some (ToolStarted name arguments));
          ("tool_finished", name ← req "name" m; ok ← req "ok" m; output ← req "output" m;
                            Some (ToolFinished name ok output));
          ("interrupted", reason ← req "reason" m; Some (Interrupted reason));
          ("done", reason ← req "reason" m; Some (Done reason))] |}.
Proof. all: session_enum. Defined.
End SessionEvent.

Module SessionUsage.
Record t := Mk { input_tokens : u32; output_tokens : u32 }.

#[export, refine] Instance serde : Serde t :=
  {| ser u := obj [fld "input_tokens" u.(input_tokens); fld "output_tokens" u.(output_tokens)];
     de j := m ← as_obj j;
       input_tokens ← req "input_tokens" m; output_tokens ← req "output_tokens" m;
       Some (Mk input_tokens output_tokens) |}.
Proof. all: session_struct. Defined.
End SessionUsage.

Module SessionOutcome.
Record t := Mk { reason : string; turns : u32; final_text : string; usage : SessionUsage.t }.
Export (hints) SessionUsage.

#[export, refine] Instance serde : Serde t :=
  {| ser o := obj [fld "reason" o.(reason); fld "turns" o.(turns); fld "final_text" o.(final_text);
                   fld "usage" o.(usage)];
     de j := m ← as_obj j;
       reason ← req "reason" m; turns ← req "turns" m; final_text ← req "final_text" m; usage ← req "usage" m;
       Some (Mk reason turns final_text usage) |}.
Proof. all: session_struct. Defined.

Definition of_run (outcome : RunOutcome.t) : t :=
  Mk outcome.(RunOutcome.reason) outcome.(RunOutcome.turns) outcome.(RunOutcome.final_text)
    (SessionUsage.Mk outcome.(RunOutcome.usage).(Usage.input_tokens) outcome.(RunOutcome.usage).(Usage.output_tokens)).
End SessionOutcome.

Definition SCHEMA_VERSION : u32 := wrap 32 1.
Definition CHECKPOINT_STALENESS_MARKER : string :=
  "[restored from a prior session — update or clear if the task changed]".

(** * Times and ids *)

(** [{n:0w}] of a number that is not negative. *)
Definition padded (w : nat) (n : N) : string :=
  let digits := pretty n in String.concat EmptyString (repeat "0" (w - String.length digits)) +:+ digits.

(** Howard Hinnant's [civil_from_days] on [i64], whose division rounds towards zero; the casts are to
    [u32]. *)
Definition civil_from_days (days : Z) : Z * N * N :=
  (let z := days + 719468 in
   let era := (if 0 <=? z then z else z - 146096) ÷ 146097 in
   let doe := z - era * 146097 in
   let yoe := (doe - doe ÷ 1460 + doe ÷ 36524 - doe ÷ 146096) ÷ 365 in
   let year := yoe + era * 400 in
   let doy := doe - (365 * yoe + yoe ÷ 4 - yoe ÷ 100) in
   let mp := (5 * doy + 2) ÷ 153 in
   let day := (doy - (153 * mp + 2) ÷ 5 + 1) mod 2 ^ 32 in
   let month := (if mp <? 10 then mp + 3 else mp - 9) mod 2 ^ 32 in
   (if month <=? 2 then year + 1 else year, Z.to_N month, Z.to_N day))%Z.

Definition ymd_hms (now_ms : u64) : Z * N * N * N * N * N :=
  (let secs := Z.of_N (uval now_ms) / 1000 in
   let days := secs / 86400 in
   let tod := secs mod 86400 in
   let '(year, month, day) := civil_from_days days in
   (year, month, day, Z.to_N (tod / 3600), Z.to_N ((tod mod 3600) / 60), Z.to_N (tod mod 60)))%Z.

Definition format_basic_utc (now_ms : u64) : string :=
  let '(y, mo, d, h, mi, s) := ymd_hms now_ms in
  padded 4 (Z.to_N y) +:+ padded 2 mo +:+ padded 2 d +:+ "T" +:+
  padded 2 h +:+ padded 2 mi +:+ padded 2 s +:+ "Z".

Definition format_human_utc (now_ms : u64) : string :=
  let '(y, mo, d, h, mi, s) := ymd_hms now_ms in
  padded 4 (Z.to_N y) +:+ "-" +:+ padded 2 mo +:+ "-" +:+ padded 2 d +:+ " " +:+
  padded 2 h +:+ ":" +:+ padded 2 mi +:+ ":" +:+ padded 2 s +:+ "Z".

(** [seq] is what [fetch_add] gives of the process's counter. *)
Definition new_session_id (now_ms seq : u64) : string :=
  format_basic_utc now_ms +:+ "-" +:+ padded 3 (uval seq mod 1000).

Definition validate_id (id : string) : unit + string :=
  if id_valid id then inl tt
  else inr ("invalid session id '" +:+ id +:+ "': use only letters, digits, '-' and '_'").

(** * The record *)

(** [replace] of each of the two characters. *)
Fixpoint one_line (text : string) : string :=
  match text with
  | EmptyString => EmptyString
  | String c text => String (if Ascii.eqb c "010" || Ascii.eqb c "013" then " "%char else c) (one_line text)
  end.

Definition truncate (text : string) (max : nat) : string :=
  if count_chars text <=? max then text else take_chars (max - 1) text +:+ "…".

Definition assistant (content : string) : Message.t := Message.plain Role.Assistant content.

Module SessionRecord.
Record t := Mk {
  schema_version : u32;
  id : string;
  started_at_ms : u64;
  finished_at_ms : option u64;
  provider : string;
  model : string;
  task : string;
  history : list Message.t;
  checkpoint : option string;
  truncations : u32;
  events : list SessionEvent.t;
  outcome : option SessionOutcome.t;
}.
Export (hints) SessionEvent SessionOutcome.

#[export, refine] Instance serde : Serde t :=
  {| ser r := obj [fld "schema_version" r.(schema_version); fld "id" r.(id);
                   fld "started_at_ms" r.(started_at_ms); fld_null "finished_at_ms" r.(finished_at_ms);
                   fld "provider" r.(provider); fld "model" r.(model); fld "task" r.(task);
                   fld "history" r.(history); fld_opt "checkpoint" r.(checkpoint);
                   fld "truncations" r.(truncations); fld "events" r.(events); fld_null "outcome" r.(outcome)];
     de j := m ← as_obj j;
       schema_version ← req "schema_version" m; id ← req "id" m; started_at_ms ← req "started_at_ms" m;
       finished_at_ms ← opt "finished_at_ms" m; provider ← req "provider" m; model ← req "model" m;
       task ← req "task" m; history ← dflt [] "history" m; checkpoint ← opt "checkpoint" m;
       truncations ← dflt (wrap 32 0) "truncations" m; events ← dflt [] "events" m; outcome ← opt "outcome" m;
       Some (Mk schema_version id started_at_ms finished_at_ms provider model task history checkpoint
               truncations events outcome) |}.
Proof. all: session_struct. Defined.

Definition begin (now_ms seq : u64) (provider model task : string) : t :=
  Mk SCHEMA_VERSION (new_session_id now_ms seq) now_ms None provider model task [] None (wrap 32 0) [] None.

Definition set_history (r : t) (history : list Message.t) : t :=
  Mk r.(schema_version) r.(id) r.(started_at_ms) r.(finished_at_ms) r.(provider) r.(model) r.(task) history
    r.(checkpoint) r.(truncations) r.(events) r.(outcome).
Definition set_checkpoint (r : t) (checkpoint : option string) : t :=
  Mk r.(schema_version) r.(id) r.(started_at_ms) r.(finished_at_ms) r.(provider) r.(model) r.(task) r.(history)
    checkpoint r.(truncations) r.(events) r.(outcome).
Definition set_task (r : t) (task : string) : t :=
  Mk r.(schema_version) r.(id) r.(started_at_ms) r.(finished_at_ms) r.(provider) r.(model) task r.(history)
    r.(checkpoint) r.(truncations) r.(events) r.(outcome).
Definition set_events (r : t) (events : list SessionEvent.t) : t :=
  Mk r.(schema_version) r.(id) r.(started_at_ms) r.(finished_at_ms) r.(provider) r.(model) r.(task) r.(history)
    r.(checkpoint) r.(truncations) events r.(outcome).

Definition restore_with_staleness (r : t) : option string :=
  (fun checkpoint => checkpoint +:+ String "010" CHECKPOINT_STALENESS_MARKER) <$> r.(checkpoint).

Definition reconstructed_history (r : t) : list Message.t :=
  match r.(history) with
  | [] =>
      Message.user r.(task) ::
      match r.(outcome) with
      | Some outcome =>
          if String.eqb outcome.(SessionOutcome.final_text) EmptyString then []
          else [assistant outcome.(SessionOutcome.final_text)]
      | None => []
      end
  | history => history
  end.

(** [last_mut]: the last event, and those before it. *)
Definition split_last (events : list SessionEvent.t) : option (list SessionEvent.t * SessionEvent.t) :=
  match rev events with last :: before => Some (rev before, last) | [] => None end.

Definition pushed (events : list SessionEvent.t) (event : AgentEvent.t) : list SessionEvent.t :=
  match event with
  | AgentEvent.AssistantText text =>
      match split_last events with
      | Some (before, SessionEvent.AssistantText prev) => before ++ [SessionEvent.AssistantText (prev +:+ text)]
      | _ => events ++ [SessionEvent.AssistantText text]
      end
  | AgentEvent.Reasoning text =>
      match split_last events with
      | Some (before, SessionEvent.Reasoning prev) => before ++ [SessionEvent.Reasoning (prev +:+ text)]
      | _ => events ++ [SessionEvent.Reasoning text]
      end
  | AgentEvent.TurnStarted turn => events ++ [SessionEvent.TurnStarted turn]
  | AgentEvent.ToolStarted name args => events ++ [SessionEvent.ToolStarted name args]
  | AgentEvent.ToolFinished name ok output => events ++ [SessionEvent.ToolFinished name ok output]
  | AgentEvent.Interrupted reason => events ++ [SessionEvent.Interrupted reason]
  | AgentEvent.Usage _ _ _ _ | AgentEvent.ToolCallDelta _ _ => events
  | AgentEvent.Done reason => events ++ [SessionEvent.Done reason]
  end.

Definition push_event (r : t) (event : AgentEvent.t) : t := set_events r (pushed r.(events) event).

Definition finish (r : t) (now_ms : u64) (outcome : option RunOutcome.t) : t :=
  Mk r.(schema_version) r.(id) r.(started_at_ms) (Some now_ms) r.(provider) r.(model) r.(task) r.(history)
    r.(checkpoint) r.(truncations) r.(events) (SessionOutcome.of_run <$> outcome).

Definition summary_line (r : t) : string :=
  let outcome := match r.(outcome) with Some o => o.(SessionOutcome.reason) | None => "unfinished" end in
  r.(id) +:+ "  " +:+ format_human_utc r.(started_at_ms) +:+ "  " +:+ r.(provider) +:+ "/" +:+ r.(model) +:+
  "  [" +:+ outcome +:+ "]  " +:+ truncate (one_line r.(task)) 64.
End SessionRecord.
Export (hints) SessionRecord.

(** * The transcript as text *)

Definition nl : string := String "010" EmptyString.

Section transcript.
Context `{SerdeJson}.

Definition render_event (event : SessionEvent.t) : string :=
  match event with
  | SessionEvent.TurnStarted turn => nl +:+ "[turn " +:+ show_u turn +:+ "]" +:+ nl
  | SessionEvent.AssistantText text => text +:+ nl
  | SessionEvent.Reasoning text => "(reasoning) " +:+ one_line text +:+ nl
  | SessionEvent.ToolStarted name arguments =>
      "  -> " +:+ name +:+ " " +:+ truncate (to_vec arguments) 160 +:+ nl
  | SessionEvent.ToolFinished name ok output =>
      "  <- " +:+ name +:+ " [" +:+ (if ok then "ok" else "ERR") +:+ "] " +:+
      truncate (one_line output) 160 +:+ nl
  | SessionEvent.Interrupted reason => nl +:+ "[interrupted: " +:+ reason +:+ "]" +:+ nl
  | SessionEvent.Done reason => nl +:+ "[done: " +:+ reason +:+ "]" +:+ nl
  end.

Definition render_outcome (outcome : SessionOutcome.t) : string :=
  nl +:+ "--- outcome ---" +:+ nl +:+ "reason " +:+ outcome.(SessionOutcome.reason) +:+
  "  turns " +:+ show_u outcome.(SessionOutcome.turns) +:+
  "  tokens " +:+ show_u outcome.(SessionOutcome.usage).(SessionUsage.input_tokens) +:+
  " in / " +:+ show_u outcome.(SessionOutcome.usage).(SessionUsage.output_tokens) +:+ " out" +:+ nl +:+
  (if String.eqb outcome.(SessionOutcome.final_text) EmptyString then EmptyString
   else nl +:+ outcome.(SessionOutcome.final_text) +:+ nl).

Definition render_transcript (r : SessionRecord.t) : string :=
  "session  " +:+ r.(SessionRecord.id) +:+ nl +:+
  "started  " +:+ format_human_utc r.(SessionRecord.started_at_ms) +:+ nl +:+
  match r.(SessionRecord.finished_at_ms) with
  | Some finished => "finished " +:+ format_human_utc finished +:+ nl
  | None => EmptyString
  end +:+
  "provider " +:+ r.(SessionRecord.provider) +:+ nl +:+
  "model    " +:+ r.(SessionRecord.model) +:+ nl +:+
  "task     " +:+ r.(SessionRecord.task) +:+ nl +:+ nl +:+ "--- transcript ---" +:+ nl +:+
  concat_str (map render_event r.(SessionRecord.events)) +:+
  match r.(SessionRecord.outcome) with Some outcome => render_outcome outcome | None => EmptyString end.
End transcript.

(** * The store

    A file is written in place. The name it is written under is made of the record's id, which nothing
    validates there, so that it may hold separators. *)
Module SessionStore.
Section store.
Context `{SerdeJson, SerdeText} (dir : string).

Definition write (record : SessionRecord.t) : io (file_path + string) :=
  try! _ := with_context ("failed to create sessions dir " +:+ dir) (sys (CreateDirAll dir)) in
  let path := (dir, record.(SessionRecord.id) +:+ ".json") in
  try! _ := with_context ("failed to write " +:+ display path) (fs_write path (to_string_pretty (ser record))) in
  Ret (inl path).

Definition path_for (id : string) : file_path + string :=
  match validate_id id with inl _ => inl (dir, id +:+ ".json") | inr e => inr e end.

Definition read_raw (id : string) : io (string + string) :=
  match path_for id with
  | inr e => Ret (inr e)
  | inl path => with_context ("failed to read " +:+ display path) (sys (ReadToString path))
  end.

Definition deserialize_record (raw : string) : option SessionRecord.t :=
  deserialize_versioned SessionRecord.t SCHEMA_VERSION raw.

Definition load (id : string) : io (SessionRecord.t + string) :=
  try! raw := read_raw id in
  Ret (match deserialize_record raw with
       | Some record => inl record
       | None => inr ("failed to parse session " +:+ id)
       end).

(** The loop over the directory's entries. *)
Fixpoint read_entries (names : list string) : io (Datatypes.list SessionRecord.t) :=
  match names with
  | [] => Ret []
  | name :: names =>
      if bool_decide (extension name = Some "json") then
        run! raw := sys (ReadToString (dir, name)) in
        run! rest := read_entries names in
        Ret (match raw with
             | inl raw => match deserialize_record raw with Some record => record :: rest | None => rest end
             | inr _ => rest
             end)
      else read_entries names
  end.

Definition list (io_text : IoError.t -> string) : io (Datatypes.list SessionRecord.t + string) :=
  run! entries := sys (ReadDir dir) in
  match entries with
  | inl names =>
      run! records := read_entries names in
      Ret (inl (sort_by (newest_first SessionRecord.started_at_ms SessionRecord.id) records))
  | inr IoError.NotFound => Ret (inl [])
  | inr err => Ret (inr ("failed to read " +:+ dir +:+ ": " +:+ io_text err))
  end.
End store.
End SessionStore.

(** * The working-memory note *)

Definition CHECKPOINT_MAX_CHARS : nat := 1500.
Definition TRUNCATED_MARKER : string := " …[truncated]".
Definition WORKING_MEMORY_HEADER : string :=
  nl +:+ nl +:+ "## Working memory (your running notes)" +:+ nl.
Definition UPDATE_CHECKPOINT : string := "update_checkpoint".

Definition cap_note (note : string) : string * bool :=
  if count_chars note <=? CHECKPOINT_MAX_CHARS then (note, false)
  else (take_chars (CHECKPOINT_MAX_CHARS - count_chars TRUNCATED_MARKER) note +:+ TRUNCATED_MARKER, true).

(** What [checkpoint_snapshot] gives of a note; a blank one counts as none. *)
Definition checkpoint_snapshot (note : string) : option string :=
  if String.eqb (trim note) EmptyString then None else Some note.

(** [new_checkpoint]: the note a session starts with. *)
Definition new_checkpoint (note : option string) : string :=
  match note with Some note => (cap_note note).1 | None => EmptyString end.

(** The tool box around another: its call and, of the shared note, what it leaves. *)
Definition checkpoint_call (inner : string -> json -> json + AgentError.t) (invalid : json -> string)
    (cancelled : bool) (note : string) (name : string) (args : json) : string * (json + AgentError.t) :=
  if negb (String.eqb name UPDATE_CHECKPOINT) then (note, inner name args)
  else if cancelled then (note, inr AgentError.Cancelled)
  else
    match as_obj args ≫= req (A:=string) "note" with
    | None => (note, inr (AgentError.Tool ("invalid update_checkpoint args: " +:+ invalid args)))
    | Some new =>
        let '(note, truncated) := cap_note new in
        (note, inl (JObj [("status", JStr "ok"); ("chars", JNum (Z.of_nat (count_chars note)));
                          ("truncated", JBool truncated)]))
    end.

(** [CheckpointHook::on_request] *)
Definition checkpoint_hook (note : string) (req : ChatRequest.t) : ChatRequest.t :=
  if String.eqb (trim note) EmptyString then req
  else
    ChatRequest.Mk req.(ChatRequest.model)
      (Some (default EmptyString req.(ChatRequest.system) +:+ WORKING_MEMORY_HEADER +:+ note))
      req.(ChatRequest.messages) req.(ChatRequest.tools) req.(ChatRequest.temperature)
      req.(ChatRequest.max_tokens) req.(ChatRequest.reasoning_effort).
