(* ===== verification/SessionManager.v ===== *)
(** The sessions of the daemon ([nerve-workstation/src/session_manager/mod.rs], [run_config.rs],
    [agent_event.rs]): live sessions under one lock, and the commands that start them, run their turns,
    interrupt, change and close them, as threads that take one access to what is shared at a time. *)
From Stdlib Require Import SpecFloat.
From stdpp Require Import gmap strings.
From S2P Require Import Prelude Text Json Tape History Agent Jobs ToolPolicy Disk Wire RecordStore Sessions.
Open Scope nerve_scope.

Module SessionStatus.
Inductive t := Idle | Running | Closed.
#[global] Instance eq_dec : EqDecision t.
Proof. solve_decision. Defined.
Definition as_str (s : t) : string :=
  match s with Idle => "idle" | Running => "running" | Closed => "closed" end.
End SessionStatus.

Module SessionConfig.
Record t := Mk {
  workspace : option string;
  provider : string;
  model : string;
  system_prompt : option string;
  agent : option string;
  max_turns : option u32;
  temperature : option f32;
  reasoning_effort : option string;
  tool_filter : option (list string);
  resume_truncations : u32;
}.
Definition with_truncations (c : t) (truncations : u32) : t :=
  Mk c.(workspace) c.(provider) c.(model) c.(system_prompt) c.(agent) c.(max_turns) c.(temperature)
    c.(reasoning_effort) c.(tool_filter) truncations.
Definition with_target (c : t) (provider model : string) : t :=
  Mk c.(workspace) provider model c.(system_prompt) c.(agent) c.(max_turns) c.(temperature)
    c.(reasoning_effort) c.(tool_filter) c.(resume_truncations).
End SessionConfig.

(** * Configuring a turn *)

Module ResolvedAgent.
Record t := Mk {
  system_prompt : option string;
  model : option string;
  provider : option string;
  max_turns : option u32;
  temperature : option f32;
  reasoning_effort : option string;
  tool_filter : option (list string);
}.
End ResolvedAgent.

(** Without the launchers and the progress sink, which are host objects. *)
Module AgentRunConfig.
Record t := Mk {
  workspace : option string;
  provider : string;
  model : string;
  task : string;
  system_prompt : option string;
  max_turns : option u32;
  temperature : option f32;
  reasoning_effort : option string;
  tool_filter : option (list string);
  api_key : option string;
  distill_memory : bool;
  verify_completion : bool;
  allow_exec : bool;
  allow_delegate : bool;
  resume_truncations : u32;
  cost_budget_usd : option spec_float;
}.
End AgentRunConfig.

(** [Option::or]. *)
Definition or_else {A} (a b : option A) : option A := match a with Some _ => a | None => b end.

Definition session_run_config (config : SessionConfig.t) (resolved : ResolvedAgent.t) (task : string)
    (allow_delegate : bool) : AgentRunConfig.t :=
  AgentRunConfig.Mk config.(SessionConfig.workspace) config.(SessionConfig.provider)
    config.(SessionConfig.model) task
    (or_else config.(SessionConfig.system_prompt) resolved.(ResolvedAgent.system_prompt))
    (or_else config.(SessionConfig.max_turns) resolved.(ResolvedAgent.max_turns))
    (or_else config.(SessionConfig.temperature) resolved.(ResolvedAgent.temperature))
    (or_else config.(SessionConfig.reasoning_effort) resolved.(ResolvedAgent.reasoning_effort))
    (or_else config.(SessionConfig.tool_filter) resolved.(ResolvedAgent.tool_filter))
    None false false false allow_delegate config.(SessionConfig.resume_truncations) None.

(** * Events *)

Module AgentEventKind.
Inductive t :=
  | TurnStarted (turn : u64)
  | Message (text : string)
  | Reasoning (text : string)
  | ToolStarted (tool : string) (arguments : json)
  | ToolFinished (tool : string) (ok : bool) (output : string)
  | Interrupted (reason : string)
  | Usage (input_tokens output_tokens : u64) (cache_read_tokens cache_creation_tokens : option u64).
End AgentEventKind.

(** [u64::from]. *)
Definition widen (n : u32) : u64 := wrap 64 (uval n).

Definition nonzero (tokens : u32) : option u64 := if (0 <? uval tokens)%N then Some (widen tokens) else None.

Definition agent_event_kind (event : AgentEvent.t) : option AgentEventKind.t :=
  match event with
  | AgentEvent.TurnStarted turn => Some (AgentEventKind.TurnStarted (widen turn))
  | AgentEvent.AssistantText text => Some (AgentEventKind.Message text)
  | AgentEvent.Reasoning text => Some (AgentEventKind.Reasoning text)
  | AgentEvent.ToolStarted name args => Some (AgentEventKind.ToolStarted name args)
  | AgentEvent.ToolFinished name ok output => Some (AgentEventKind.ToolFinished name ok output)
  | AgentEvent.Interrupted reason => Some (AgentEventKind.Interrupted reason)
  | AgentEvent.Usage input output cache_read cache_creation =>
      Some (AgentEventKind.Usage (widen input) (widen output) (nonzero cache_read) (nonzero cache_creation))
  | AgentEvent.ToolCallDelta _ _ => None
  | AgentEvent.Done _ => None
  end.

Module RuntimeEvent.
Inductive t :=
  | SessionStarted (session_id : string)
  | TurnStarted (session_id : string)
  | SessionAgent (session_id : string) (event : AgentEventKind.t)
  | SessionIdle (session_id : string)
  | SessionClosed (session_id : string).
End RuntimeEvent.

Definition map_session_agent_event (session_id : string) (event : AgentEvent.t) : option RuntimeEvent.t :=
  RuntimeEvent.SessionAgent session_id <$> agent_event_kind event.

(** * Live sessions

    [checkpoint], [current_cancel] and [decisions] number the shared note, the token and the shared memory
    of decisions. *)
Module LiveSession.
Record t := Mk {
  id : string;
  config : SessionConfig.t;
  history : list Message.t;
  record : SessionRecord.t;
  checkpoint : nat;
  status : SessionStatus.t;
  current_cancel : option nat;
  approval_mode : ApprovalMode.t;
  decisions : nat;
}.

Definition with_config (s : t) (config : SessionConfig.t) : t :=
  Mk s.(id) config s.(history) s.(record) s.(checkpoint) s.(status) s.(current_cancel) s.(approval_mode)
    s.(decisions).

Definition retarget (s : t) (provider : option string) (model : string) : t :=
  with_config s (SessionConfig.with_target s.(config) (default s.(config).(SessionConfig.provider) provider) model).

Definition set_approval_mode (s : t) (mode : ApprovalMode.t) : t :=
  Mk s.(id) s.(config) s.(history) s.(record) s.(checkpoint) s.(status) s.(current_cancel) mode s.(decisions).

Definition mode_tag (mode : ApprovalMode.t) : string :=
  match mode with
  | ApprovalMode.AlwaysAsk => "always_ask" | ApprovalMode.Write => "write" | ApprovalMode.Yolo => "yolo"
  end.

Definition snapshot (s : t) : json :=
  JObj [("session_id", JStr s.(id)); ("status", JStr (SessionStatus.as_str s.(status)));
        ("provider", JStr s.(config).(SessionConfig.provider)); ("model", JStr s.(config).(SessionConfig.model));
        ("agent", match s.(config).(SessionConfig.agent) with Some agent => JStr agent | None => JNull end);
        ("history_len", JNum (Z.of_nat (length s.(history)))); ("pending_approval", JBool false);
        ("approval_mode", JStr (mode_tag s.(approval_mode)))].
End LiveSession.

Module TurnContext.
Record t := Mk {
  config : SessionConfig.t;
  history : list Message.t;
  checkpoint : nat;
  mode : ApprovalMode.t;
  decisions : nat;
}.
End TurnContext.

Module TurnResult.
Record t := Mk { history : list Message.t; events : list AgentEvent.t; outcome : option RunOutcome.t }.
End TurnResult.

Definition unknown_session (session_id : string) : RuntimeError.t :=
  RuntimeError.Adapter ("unknown session: " +:+ session_id).

(** * What the commands do under the lock *)

Abbreviation Sessions := (gmap string LiveSession.t).

Definition begun (s : LiveSession.t) (text : string) (token : nat) : LiveSession.t :=
  let record := if String.eqb s.(LiveSession.record).(SessionRecord.task) EmptyString
                then SessionRecord.set_task s.(LiveSession.record) text else s.(LiveSession.record) in
  LiveSession.Mk s.(LiveSession.id) s.(LiveSession.config) s.(LiveSession.history) record
    s.(LiveSession.checkpoint) SessionStatus.Running (Some token) s.(LiveSession.approval_mode)
    s.(LiveSession.decisions).

Definition turn_context (s : LiveSession.t) : TurnContext.t :=
  TurnContext.Mk s.(LiveSession.config) s.(LiveSession.history) s.(LiveSession.checkpoint)
    s.(LiveSession.approval_mode) s.(LiveSession.decisions).

Definition begin_turn (sessions : Sessions) (session_id text : string) (token : nat)
    : Sessions * (TurnContext.t + RuntimeError.t) :=
  match sessions !! session_id with
  | None => (sessions, inr (unknown_session session_id))
  | Some session =>
      if decide (session.(LiveSession.status) = SessionStatus.Running) then
        (sessions, inr (RuntimeError.Adapter ("session " +:+ session_id +:+ " is already running")))
      else
        let session := begun session text token in
        (<[session_id := session]> sessions, inl (turn_context session))
  end.

Definition idle (s : LiveSession.t) : LiveSession.t :=
  LiveSession.Mk s.(LiveSession.id) s.(LiveSession.config) s.(LiveSession.history) s.(LiveSession.record)
    s.(LiveSession.checkpoint) SessionStatus.Idle None s.(LiveSession.approval_mode) s.(LiveSession.decisions).

(** The record after a turn that succeeded; [note] is what the shared note holds by then. *)
Definition recorded (record : SessionRecord.t) (turn : TurnResult.t) (note : string) (now_ms : u64)
    : SessionRecord.t :=
  let record := foldl SessionRecord.push_event record turn.(TurnResult.events) in
  let record := SessionRecord.set_history record turn.(TurnResult.history) in
  let record := match turn.(TurnResult.outcome) with
                | Some outcome => SessionRecord.finish record now_ms (Some outcome)
                | None => record
                end in
  SessionRecord.set_checkpoint record (checkpoint_snapshot note).

Definition absorbed (s : LiveSession.t) (turn : TurnResult.t) (note : string) (now_ms : u64) : LiveSession.t :=
  LiveSession.Mk s.(LiveSession.id) s.(LiveSession.config) turn.(TurnResult.history)
    (recorded s.(LiveSession.record) turn note now_ms) s.(LiveSession.checkpoint) s.(LiveSession.status)
    s.(LiveSession.current_cancel) s.(LiveSession.approval_mode) s.(LiveSession.decisions).

(** The session after its turn, and the record to persist, if any; [None] for an unknown session. *)
Definition finish_turn (sessions : Sessions) (notes : nat -> string) (session_id : string)
    (result : TurnResult.t + RuntimeError.t) (now_ms : u64)
    : option (LiveSession.t * option SessionRecord.t) :=
  (fun session =>
    let session := idle session in
    match result with
    | inl turn =>
        let session := absorbed session turn (notes session.(LiveSession.checkpoint)) now_ms in
        (session, Some session.(LiveSession.record))
    | inr _ => (session, None)
    end) <$> sessions !! session_id.

(** [run_turn]: an agent that cannot be resolved, or what the run gave. *)
Definition run_turn (unresolved : option string) (cancelled : bool) (output : TurnResult.t + string)
    : TurnResult.t + RuntimeError.t :=
  match unresolved, output with
  | Some err, _ => inr (RuntimeError.Adapter err)
  | None, inl turn => inl turn
  | None, inr err => inr (if cancelled then RuntimeError.cancelled else RuntimeError.Adapter err)
  end.

(** What [finish_turn] answers once the session is idle. *)
Definition turn_answer (session_id : string) (result : TurnResult.t + RuntimeError.t) (cancelled : bool)
    : json + RuntimeError.t :=
  match result with
  | inl turn =>
      let of_outcome (f : RunOutcome.t -> json) :=
        match turn.(TurnResult.outcome) with Some outcome => f outcome | None => JNull end in
      inl (JObj [("session_id", JStr session_id);
                 ("reason", of_outcome (fun o => JStr o.(RunOutcome.reason)));
                 ("turns", of_outcome (fun o => JNum (Z.of_N (uval o.(RunOutcome.turns)))));
                 ("final_text", of_outcome (fun o => JStr o.(RunOutcome.final_text)))])
  | inr err => inr (if cancelled then RuntimeError.cancelled else err)
  end.

(** The session that [start] inserts. *)
Definition started (config : SessionConfig.t) (history : list Message.t) (record : SessionRecord.t)
    (checkpoint decisions : nat) : LiveSession.t :=
  LiveSession.Mk record.(SessionRecord.id)
    (SessionConfig.with_truncations config record.(SessionRecord.truncations))
    history record checkpoint SessionStatus.Idle None ApprovalMode.Yolo decisions.

Definition get (sessions : Sessions) (session_id : string) : json + RuntimeError.t :=
  match sessions !! session_id with
  | Some session => inl (JObj [("session", LiveSession.snapshot session)])
  | None => inr (unknown_session session_id)
  end.

(** The stable sort of the snapshots by id; a map gives its values in any order [values]. *)
Definition list_ (values : list LiveSession.t) : json :=
  JObj [("sessions", JArr (map LiveSession.snapshot
    (sort_by (fun a b => string_leb a.(LiveSession.id) b.(LiveSession.id)) values)))].

(** [set_model] and [set_mode]. *)
Definition change (f : LiveSession.t -> LiveSession.t) (sessions : Sessions) (session_id : string)
    : Sessions * (json + RuntimeError.t) :=
  match sessions !! session_id with
  | Some session =>
      let session := f session in
      (<[session_id := session]> sessions, inl (JObj [("session", LiveSession.snapshot session)]))
  | None => (sessions, inr (unknown_session session_id))
  end.

(** * Commands as threads *)

Module Command.
Inductive t :=
  | Start (config : SessionConfig.t) (resume : option string)
  | Message (session_id text : string)
  | Interrupt (session_id : string)
  | Get (session_id : string)
  | List
  | Close (session_id : string)
  | SetModel (session_id : string) (provider : option string) (model : string)
  | SetMode (session_id : string) (mode : ApprovalMode.t).
End Command.

(** Where a command is between its accesses to what is shared. *)
Module Stage.
Inductive t :=
  | Received
  | Prepared (history : list Message.t) (record : SessionRecord.t) (checkpoint : nat)
  | Inserted (session_id : string)
  | Begun (turn : TurnContext.t)
  | Streaming (turn : TurnContext.t)
  | Ran (turn : TurnContext.t) (result : TurnResult.t + RuntimeError.t)
  | Finished (result : TurnResult.t + RuntimeError.t)
  | Closing
  | Answered (answer : json + RuntimeError.t).
End Stage.

Module Thread.
Record t := Mk { command : Command.t; token : nat; at_ : Stage.t }.
Definition with_stage (th : t) (stage : Stage.t) : t := Mk th.(command) th.(token) stage.
End Thread.

(** [saved] is what [SessionStore::load] gives of each id, [notes] what the shared notes hold, [next] the
    number of the next shared object, [seq] the counter of ids. *)
Module Shared.
Record t := Mk {
  sessions : Sessions;
  saved : gmap string SessionRecord.t;
  notes : gmap nat string;
  next : nat;
  seq : u64;
  cancelled : gset nat;
  emitted : list RuntimeEvent.t;
}.
Definition note (sh : t) (checkpoint : nat) : string := default EmptyString (sh.(notes) !! checkpoint).
Definition with_sessions (sh : t) (sessions : Sessions) : t :=
  Mk sessions sh.(saved) sh.(notes) sh.(next) sh.(seq) sh.(cancelled) sh.(emitted).
Definition with_saved (sh : t) (saved : gmap string SessionRecord.t) : t :=
  Mk sh.(sessions) saved sh.(notes) sh.(next) sh.(seq) sh.(cancelled) sh.(emitted).
Definition with_note (sh : t) (checkpoint : nat) (note : string) : t :=
  Mk sh.(sessions) sh.(saved) (<[checkpoint := note]> sh.(notes)) sh.(next) sh.(seq) sh.(cancelled) sh.(emitted).
(** A shared note of its own. *)
Definition new_note (sh : t) (note : string) : t :=
  Mk sh.(sessions) sh.(saved) (<[sh.(next) := note]> sh.(notes)) (S sh.(next)) sh.(seq) sh.(cancelled) sh.(emitted).
Definition new_memory (sh : t) : t :=
  Mk sh.(sessions) sh.(saved) sh.(notes) (S sh.(next)) sh.(seq) sh.(cancelled) sh.(emitted).
Definition new_seq (sh : t) : t :=
  Mk sh.(sessions) sh.(saved) sh.(notes) sh.(next) (wrap 64 (uval sh.(seq) + 1)) sh.(cancelled) sh.(emitted).
Definition cancel (sh : t) (token : nat) : t :=
  Mk sh.(sessions) sh.(saved) sh.(notes) sh.(next) sh.(seq) ({[token]} ∪ sh.(cancelled)) sh.(emitted).
Definition cancel_opt (sh : t) (token : option nat) : t :=
  match token with Some token => cancel sh token | None => sh end.
Definition emit (sh : t) (event : RuntimeEvent.t) : t :=
  Mk sh.(sessions) sh.(saved) sh.(notes) sh.(next) sh.(seq) sh.(cancelled) (sh.(emitted) ++ [event]).
Definition emit_opt (sh : t) (event : option RuntimeEvent.t) : t :=
  match event with Some event => emit sh event | None => sh end.
End Shared.

(** What [close] does under the lock; [saved] is what the store holds once the record was persisted. *)
Definition close (sh : Shared.t) (id : string) (session : LiveSession.t) (saved : gmap string SessionRecord.t)
    : Shared.t :=
  Shared.with_saved (Shared.with_sessions
    (Shared.cancel_opt sh session.(LiveSession.current_cancel)) (delete id sh.(Shared.sessions))) saved.

(** What a step did to the sequence of a session's histories. *)
Module Label.
Inductive t :=
  | Opened (session_id : string) (history : list Message.t) (decisions : nat)
  | Turned (session_id : string) (before after : list Message.t)
  | Closed (session_id : string)
  | Quiet.
End Label.

(** The daemon: what is shared and the commands it has been given. *)
Module World.
Record t := Mk { shared : Shared.t; threads : list Thread.t }.

(** A daemon given [commands], each with a token of its own. *)
Definition start (saved : gmap string SessionRecord.t) (seq : u64) (commands : list Command.t) : t :=
  Mk (Shared.Mk ∅ saved ∅ 0 seq ∅ []) (imap (fun i command => Thread.Mk command i Stage.Received) commands).
End World.

Section steps.
Context (has_store : bool).

(** [persist]: it may fail, and then leave the old file, or one that no longer loads. *)
Inductive persisted (saved : gmap string SessionRecord.t) (record : SessionRecord.t)
    : gmap string SessionRecord.t -> Prop :=
  | persist_written : has_store = true ->
      persisted saved record (<[record.(SessionRecord.id) := record]> saved)
  | persist_torn : has_store = true -> persisted saved record (delete record.(SessionRecord.id) saved)
  | persist_refused : persisted saved record saved.

Definition persisted_opt (saved : gmap string SessionRecord.t) (record : option SessionRecord.t)
    (saved' : gmap string SessionRecord.t) : Prop :=
  match record with Some record => persisted saved record saved' | None => saved' = saved end.

(** [resume_record]: any failure to load is an error. *)
Inductive resume_record (sh : Shared.t) (id : string) : SessionRecord.t + RuntimeError.t -> Prop :=
  | resume_unavailable : has_store = false ->
      resume_record sh id (inr (RuntimeError.Adapter "session resume unavailable: no session store"))
  | resume_failed err : has_store = true ->
      resume_record sh id (inr (RuntimeError.Adapter ("failed to resume session " +:+ id +:+ ": " +:+ err)))
  | resume_loaded record : has_store = true -> id_valid id = true -> sh.(Shared.saved) !! id = Some record ->
      resume_record sh id (inl record).

(** Commands done in one access, and what they answer. *)
Inductive at_once (sh : Shared.t) : Command.t -> Shared.t -> json + RuntimeError.t -> Prop :=
  | once_interrupt id session : sh.(Shared.sessions) !! id = Some session ->
      at_once sh (Command.Interrupt id) (Shared.cancel_opt sh session.(LiveSession.current_cancel))
        (inl (JObj [("interrupted", JBool (bool_decide (is_Some session.(LiveSession.current_cancel))))]))
  | once_interrupt_unknown id : sh.(Shared.sessions) !! id = None ->
      at_once sh (Command.Interrupt id) sh (inr (unknown_session id))
  | once_get id : at_once sh (Command.Get id) sh (get sh.(Shared.sessions) id)
  | once_list values : values ≡ₚ map snd (map_to_list sh.(Shared.sessions)) ->
      at_once sh Command.List sh (inl (list_ values))
  | once_set_model id provider model sessions answer :
      change (fun s => LiveSession.retarget s provider model) sh.(Shared.sessions) id = (sessions, answer) ->
      at_once sh (Command.SetModel id provider model) (Shared.with_sessions sh sessions) answer
  | once_set_mode id mode sessions answer :
      change (fun s => LiveSession.set_approval_mode s mode) sh.(Shared.sessions) id = (sessions, answer) ->
      at_once sh (Command.SetMode id mode) (Shared.with_sessions sh sessions) answer
  | once_close_unknown id : sh.(Shared.sessions) !! id = None ->
      at_once sh (Command.Close id) sh (inr (unknown_session id)).

(** One access of a command to what is shared. The clock and what the turn's run gives are arbitrary. *)
Inductive thread_step (sh : Shared.t) (token : nat) :
    Command.t -> Stage.t -> Label.t -> Shared.t -> Stage.t -> Prop :=
  | step_fresh config now_ms record :
      record = SessionRecord.begin now_ms sh.(Shared.seq) config.(SessionConfig.provider)
                 config.(SessionConfig.model) EmptyString ->
      thread_step sh token (Command.Start config None) Stage.Received Label.Quiet
        (Shared.new_note (Shared.new_seq sh) (new_checkpoint None))
        (Stage.Prepared [] record sh.(Shared.next))
  | step_resumed config id record :
      resume_record sh id (inl record) ->
      thread_step sh token (Command.Start config (Some id)) Stage.Received Label.Quiet
        (Shared.new_note sh (new_checkpoint (SessionRecord.restore_with_staleness record)))
        (Stage.Prepared (SessionRecord.reconstructed_history record) record sh.(Shared.next))
  | step_not_resumed config id err :
      resume_record sh id (inr err) ->
      thread_step sh token (Command.Start config (Some id)) Stage.Received Label.Quiet sh
        (Stage.Answered (inr err))
  | step_insert config resume history record checkpoint :
      let id := record.(SessionRecord.id) in
      thread_step sh token (Command.Start config resume) (Stage.Prepared history record checkpoint)
        (Label.Opened id history sh.(Shared.next))
        (Shared.new_memory (Shared.with_sessions sh
           (<[id := started config history record checkpoint sh.(Shared.next)]> sh.(Shared.sessions))))
        (Stage.Inserted id)
  | step_started config resume id :
      thread_step sh token (Command.Start config resume) (Stage.Inserted id) Label.Quiet
        (Shared.emit sh (RuntimeEvent.SessionStarted id))
        (Stage.Answered (inl (JObj [("session_id", JStr id)])))
  | step_begin id text sessions turn :
      begin_turn sh.(Shared.sessions) id text token = (sessions, inl turn) ->
      thread_step sh token (Command.Message id text) Stage.Received Label.Quiet
        (Shared.with_sessions sh sessions) (Stage.Begun turn)
  | step_refused id text sessions err :
      begin_turn sh.(Shared.sessions) id text token = (sessions, inr err) ->
      thread_step sh token (Command.Message id text) Stage.Received Label.Quiet
        (Shared.with_sessions sh sessions) (Stage.Answered (inr err))
  | step_turn_started id text turn :
      thread_step sh token (Command.Message id text) (Stage.Begun turn) Label.Quiet
        (Shared.emit sh (RuntimeEvent.TurnStarted id)) (Stage.Streaming turn)
  | step_agent_event id text turn event :
      thread_step sh token (Command.Message id text) (Stage.Streaming turn) Label.Quiet
        (Shared.emit_opt sh (map_session_agent_event id event)) (Stage.Streaming turn)
  | step_update_note id text turn note :
      thread_step sh token (Command.Message id text) (Stage.Streaming turn) Label.Quiet
        (Shared.with_note sh turn.(TurnContext.checkpoint) (cap_note note).1) (Stage.Streaming turn)
  | step_ran id text turn unresolved output :
      thread_step sh token (Command.Message id text) (Stage.Streaming turn) Label.Quiet sh
        (Stage.Ran turn (run_turn unresolved (bool_decide (token ∈ sh.(Shared.cancelled))) output))
  | step_finish id text turn result now_ms before session record saved :
      sh.(Shared.sessions) !! id = Some before ->
      finish_turn sh.(Shared.sessions) (Shared.note sh) id result now_ms = Some (session, record) ->
      persisted_opt sh.(Shared.saved) record saved ->
      thread_step sh token (Command.Message id text) (Stage.Ran turn result)
        (match result with
         | inl turned => Label.Turned id turn.(TurnContext.history) turned.(TurnResult.history)
         | inr _ => Label.Quiet
         end)
        (Shared.with_saved (Shared.with_sessions sh (<[id := session]> sh.(Shared.sessions))) saved)
        (Stage.Finished result)
  | step_finish_unknown id text turn result :
      sh.(Shared.sessions) !! id = None ->
      thread_step sh token (Command.Message id text) (Stage.Ran turn result) Label.Quiet sh
        (Stage.Answered (inr (unknown_session id)))
  | step_idle id text result :
      thread_step sh token (Command.Message id text) (Stage.Finished result) Label.Quiet
        (Shared.emit sh (RuntimeEvent.SessionIdle id))
        (Stage.Answered (turn_answer id result (bool_decide (token ∈ sh.(Shared.cancelled)))))
  | step_close id session saved :
      sh.(Shared.sessions) !! id = Some session ->
      persisted sh.(Shared.saved) session.(LiveSession.record) saved ->
      thread_step sh token (Command.Close id) Stage.Received (Label.Closed id)
        (close sh id session saved) Stage.Closing
  | step_closed id :
      thread_step sh token (Command.Close id) Stage.Closing Label.Quiet
        (Shared.emit sh (RuntimeEvent.SessionClosed id))
        (Stage.Answered (inl (JObj [("closed", JBool true)])))
  | step_at_once command sh' answer :
      at_once sh command sh' answer ->
      thread_step sh token command Stage.Received Label.Quiet sh' (Stage.Answered answer).

(** A command makes an access, a token is cancelled, or another process writes the store. *)
Inductive step (w : World.t) : Label.t -> World.t -> Prop :=
  | step_thread i th label shared stage :
      w.(World.threads) !! i = Some th ->
      thread_step w.(World.shared) th.(Thread.token) th.(Thread.command) th.(Thread.at_) label shared stage ->
      step w label (World.Mk shared (<[i := Thread.with_stage th stage]> w.(World.threads)))
  | step_cancel token :
      step w Label.Quiet (World.Mk (Shared.cancel w.(World.shared) token) w.(World.threads))
  | step_outside saved :
      step w Label.Quiet (World.Mk (Shared.with_saved w.(World.shared) saved) w.(World.threads)).
End steps.
