(* ===== verification/SessionsSpec.v ===== *)
(** Sessions under every interleaving of their commands: a session runs one turn at a time, each turn
    starts from what the one before it left, and no result is lost, as long as no session is opened under
    an id still in use. The ids of sessions, and the times in them. *)
From stdpp Require Import gmap strings.
From S2P Require Import Prelude Text Json Tape History Agent Jobs ToolPolicy Approval Disk Wire RecordStore Sessions SessionManager.
Open Scope nerve_scope.

(** * Turns under way *)

Definition in_turn (stage : Stage.t) : option TurnContext.t :=
  match stage with
  | Stage.Begun turn | Stage.Streaming turn | Stage.Ran turn _ => Some turn
  | _ => None
  end.

Definition turn_of (th : Thread.t) : option (string * TurnContext.t) :=
  match th.(Thread.command) with
  | Command.Message id _ => pair id <$> in_turn th.(Thread.at_)
  | _ => None
  end.

(** The thread [i] is running a turn of the session. *)
Definition turning (w : World.t) (i : nat) (th : Thread.t) (id : string) (turn : TurnContext.t) : Prop :=
  w.(World.threads) !! i = Some th /\ turn_of th = Some (id, turn).

Definition unused (w : World.t) (id : string) : Prop :=
  w.(World.shared).(Shared.sessions) !! id = None /\ forall i th turn, ~ turning w i th id turn.

(** Sessions are opened under ids that are not in use. *)
Definition careful (w : World.t) (label : Label.t) : Prop :=
  match label with Label.Opened id _ _ => unused w id | _ => True end.

(** * Histories of a run *)

Definition after (id : string) (h : option (list Message.t)) (label : Label.t) : option (list Message.t) :=
  match label with
  | Label.Opened id' h' _ => if decide (id = id') then Some h' else h
  | Label.Turned id' _ h' => if decide (id = id') then Some h' else h
  | Label.Closed id' => if decide (id = id') then None else h
  | Label.Quiet => h
  end.

(** What the session's history is after these steps. *)
Definition latest (id : string) (labels : list Label.t) : option (list Message.t) := foldl (after id) None labels.

(** The session a memory of decisions was made for. *)
Fixpoint owner (labels : list Label.t) (decisions : nat) : option string :=
  match labels with
  | [] => None
  | Label.Opened id _ d :: labels => if decide (d = decisions) then Some id else owner labels decisions
  | _ :: labels => owner labels decisions
  end.

Lemma latest_snoc id labels label : latest id (labels ++ [label]) = after id (latest id labels) label.
Proof. apply foldl_snoc. Qed.

Lemma owner_app labels labels' d id : owner labels d = Some id -> owner (labels ++ labels') d = Some id.
Proof. induction labels as [|[] labels IH]; simpl; try done. by destruct (decide _). Qed.

Lemma owner_snoc labels label d :
  owner (labels ++ [label]) d =
  match owner labels d with
  | Some id => Some id
  | None => match label with Label.Opened id _ d' => if decide (d' = d) then Some id else None | _ => None end
  end.
Proof.
  induction labels as [|first labels IH]; simpl; [by destruct label|]. destruct first; try done. by destruct (decide _).
Qed.

Section runs.
Context (has_store : bool) (allowed : World.t -> Label.t -> Prop).

(** The steps so far, in order. *)
Inductive runs (w : World.t) : list Label.t -> World.t -> Prop :=
  | runs_none : runs w [] w
  | runs_more labels w' label w'' :
      runs w labels w' -> allowed w' label -> step has_store w' label w'' -> runs w (labels ++ [label]) w''.
End runs.

(** * The invariant *)

(** What a session and a turn of it under way agree on. *)
Definition agree (s : LiveSession.t) (th : Thread.t) (turn : TurnContext.t) : Prop :=
  s.(LiveSession.status) = SessionStatus.Running /\
  s.(LiveSession.current_cancel) = Some th.(Thread.token) /\
  s.(LiveSession.history) = turn.(TurnContext.history) /\
  s.(LiveSession.checkpoint) = turn.(TurnContext.checkpoint) /\
  s.(LiveSession.decisions) = turn.(TurnContext.decisions).

Definition session_ok (w : World.t) (labels : list Label.t) (id : string) (s : LiveSession.t) : Prop :=
  s.(LiveSession.id) = id /\ s.(LiveSession.record).(SessionRecord.id) = id /\
  owner labels s.(LiveSession.decisions) = Some id /\
  match s.(LiveSession.status) with
  | SessionStatus.Running => exists i th turn, turning w i th id turn
  | SessionStatus.Idle => s.(LiveSession.current_cancel) = None
  | SessionStatus.Closed => False
  end.

Record inv (labels : list Label.t) (w : World.t) : Prop := {
  inv_history id :
    LiveSession.history <$> w.(World.shared).(Shared.sessions) !! id = latest id labels;
  inv_session id s :
    w.(World.shared).(Shared.sessions) !! id = Some s -> session_ok w labels id s;
  inv_turn i th id turn : turning w i th id turn ->
    owner labels turn.(TurnContext.decisions) = Some id /\
    forall s, w.(World.shared).(Shared.sessions) !! id = Some s -> agree s th turn;
  inv_unique i j th th' id turn turn' : turning w i th id turn -> turning w j th' id turn' -> i = j;
  inv_owner d id : owner labels d = Some id -> d < w.(World.shared).(Shared.next);
}.

(** The sessions of a step that changes none of what the invariant speaks of. *)
Definition same_session (s s' : LiveSession.t) : Prop :=
  s'.(LiveSession.id) = s.(LiveSession.id) /\ s'.(LiveSession.history) = s.(LiveSession.history) /\
  s'.(LiveSession.record) = s.(LiveSession.record) /\ s'.(LiveSession.checkpoint) = s.(LiveSession.checkpoint) /\
  s'.(LiveSession.status) = s.(LiveSession.status) /\
  s'.(LiveSession.current_cancel) = s.(LiveSession.current_cancel) /\
  s'.(LiveSession.decisions) = s.(LiveSession.decisions).

Definition same_sessions (m m' : Sessions) : Prop := forall id, option_Forall2 same_session (m !! id) (m' !! id).

Lemma same_refl s : same_session s s.
Proof. by split_and!. Qed.

Lemma same_sessions_refl m : same_sessions m m.
Proof. intros id. destruct (m !! id); constructor. apply same_refl. Qed.

Lemma same_change f m id m' answer : (forall s, same_session s (f s)) -> change f m id = (m', answer) ->
  same_sessions m m'.
Proof.
  intros F. unfold change. destruct (m !! id) as [s|] eqn:L; intros [= <- <-]; [|apply same_sessions_refl].
  intros id'. destruct (decide (id = id')) as [<-|N].
  - rewrite L, lookup_insert_eq. by constructor.
  - rewrite lookup_insert_ne by done. apply same_sessions_refl.
Qed.

Section threads.
Context (w : World.t) (i : nat) (th : Thread.t) (L : w.(World.threads) !! i = Some th).

Definition moved (shared : Shared.t) (stage : Stage.t) : World.t :=
  World.Mk shared (<[i := Thread.with_stage th stage]> w.(World.threads)).

(** The turns under way after the thread [i] moved. *)
Lemma turning_moved shared stage j th' id turn :
  turning (moved shared stage) j th' id turn <->
  j = i /\ th' = Thread.with_stage th stage /\ turn_of th' = Some (id, turn) \/
  j <> i /\ turning w j th' id turn.
Proof using L.
  unfold turning, moved. simpl. rewrite list_lookup_insert_Some.
  assert (i < length (World.threads w)) by (by eapply lookup_lt_Some). intuition congruence.
Qed.

(** Another stage of the turn it is in, if any. *)
Lemma turning_kept shared stage j th' id turn :
  turn_of (Thread.with_stage th stage) = turn_of th -> turning (moved shared stage) j th' id turn ->
  exists th0, turning w j th0 id turn /\ th0.(Thread.token) = th'.(Thread.token).
Proof using L.
  intros T [(-> & -> & E)|[_ E]]%turning_moved; [|by eexists]. exists th. unfold turning. by rewrite <- T.
Qed.
End threads.

(** A step that keeps the sessions, the turns and the memories. *)
Lemma inv_kept labels w i th shared stage :
  inv labels w -> w.(World.threads) !! i = Some th ->
  turn_of (Thread.with_stage th stage) = turn_of th ->
  same_sessions w.(World.shared).(Shared.sessions) shared.(Shared.sessions) ->
  w.(World.shared).(Shared.next) <= shared.(Shared.next) ->
  inv (labels ++ [Label.Quiet]) (moved w i th shared stage).
Proof.
  intros I L T Sm N.
  assert (forall d, owner (labels ++ [Label.Quiet]) d = owner labels d) as O.
  { intros d. rewrite owner_snoc. by destruct (owner labels d). }
  split.
  - intros id. rewrite latest_snoc. simpl. rewrite <- (inv_history _ _ I). specialize (Sm id).
    destruct Sm as [s s' Sm|]; simpl; [|done]. f_equal. apply Sm.
  - intros id s' L'. simpl in L'. specialize (Sm id). rewrite L' in Sm. inversion Sm as [s s0 Ss Ls E|]; subst s0.
    symmetry in Ls. destruct Ss as (E1 & E2 & E3 & E4 & E5 & E6 & E7).
    destruct (inv_session _ _ I _ _ Ls) as (Ei & Er & Eo & St).
    unfold session_ok. rewrite E1, E3, E5, E6, E7, O. split_and!; try done.
    destruct (LiveSession.status s); try done. destruct St as (j & th0 & turn & Tj).
    destruct (decide (j = i)) as [->|Ne].
    + exists i, (Thread.with_stage th stage), turn. apply turning_moved; [done|]. left. split_and!; try done.
      destruct Tj as [Lj Tj]. rewrite L in Lj. injection Lj as <-. by rewrite T.
    + exists j, th0, turn. apply turning_moved; [done|]. by right.
  - intros j th' id turn Tj. apply (turning_kept _ _ _ L _ _ _ _ _ _ T) in Tj as (th0 & T0 & Et).
    destruct (inv_turn _ _ I _ _ _ _ T0) as [Eo A]. rewrite O. split; [done|].
    intros s' L'. simpl in L'. specialize (Sm id). rewrite L' in Sm. inversion Sm as [s s0 Ss Ls E|]; subst s0.
    symmetry in Ls. specialize (A _ Ls). destruct Ss as (E1 & E2 & E3 & E4 & E5 & E6 & E7).
    unfold agree in *. rewrite E2, E4, E5, E6, E7, <- Et. done.
  - intros j k th1 th2 id turn turn' T1 T2.
    apply (turning_kept _ _ _ L _ _ _ _ _ _ T) in T1 as (th1' & T1 & _).
    apply (turning_kept _ _ _ L _ _ _ _ _ _ T) in T2 as (th2' & T2 & _). by eapply (inv_unique _ _ I).
  - intros d id. rewrite O. intros E%(inv_owner _ _ I). simpl. lia.
Qed.

Lemma owner_same labels label d : (forall id h d', label <> Label.Opened id h d') ->
  owner (labels ++ [label]) d = owner labels d.
Proof. intros N. rewrite owner_snoc. destruct (owner labels d), label; try done. by edestruct N. Qed.

(** The world's other side moved. *)
Lemma inv_shared labels w shared :
  inv labels w -> shared.(Shared.sessions) = w.(World.shared).(Shared.sessions) ->
  w.(World.shared).(Shared.next) <= shared.(Shared.next) ->
  inv (labels ++ [Label.Quiet]) (World.Mk shared w.(World.threads)).
Proof.
  intros I E N. split; simpl; rewrite ?E.
  - intros id. rewrite latest_snoc. apply (inv_history _ _ I).
  - intros id s (A & B & C & D)%(inv_session _ _ I). unfold session_ok. by rewrite owner_same.
  - intros i th id turn T. rewrite owner_same by done. by apply (inv_turn _ _ I) in T.
  - apply (inv_unique _ _ I).
  - intros d id. rewrite owner_same by done. intros L%(inv_owner _ _ I). lia.
Qed.

Section threads.
Context (labels : list Label.t) (w : World.t) (i : nat) (th : Thread.t) (I : inv labels w)
  (L : w.(World.threads) !! i = Some th).

(** A thread that runs no turn before or after. *)
Lemma turning_still shared stage j th' id turn :
  turn_of th = None -> turn_of (Thread.with_stage th stage) = None ->
  turning (moved w i th shared stage) j th' id turn <-> turning w j th' id turn.
Proof using L.
  intros N N'. rewrite turning_moved by done. split.
  - intros [(-> & -> & E)|[_ T]]; [congruence|done].
  - intros T. right. split; [|done]. intros ->. destruct T as [Lj E]. congruence.
Qed.

(** A thread whose turn ends. *)
Lemma turning_over shared stage j th' id turn :
  turn_of (Thread.with_stage th stage) = None ->
  turning (moved w i th shared stage) j th' id turn <-> j <> i /\ turning w j th' id turn.
Proof using L.
  intros N. rewrite turning_moved by done. split; [|by right]. intros [(-> & -> & E)|T]; [congruence|done].
Qed.

Lemma turn_of_message id text stage :
  th.(Thread.command) = Command.Message id text ->
  turn_of (Thread.with_stage th stage) = pair id <$> in_turn stage.
Proof. intros C. unfold turn_of. simpl. by rewrite C. Qed.

(** The only turns of a session that is not running are none. *)
Lemma no_turn id s j th' turn :
  w.(World.shared).(Shared.sessions) !! id = Some s -> s.(LiveSession.status) <> SessionStatus.Running ->
  ~ turning w j th' id turn.
Proof using I. intros Ls N [_ A]%(inv_turn _ _ I). by apply A in Ls as [R _]. Qed.

Lemma inv_begin id text token sessions turn :
  th.(Thread.command) = Command.Message id text -> th.(Thread.at_) = Stage.Received ->
  th.(Thread.token) = token ->
  begin_turn w.(World.shared).(Shared.sessions) id text token = (sessions, inl turn) ->
  inv (labels ++ [Label.Quiet])
    (moved w i th (Shared.with_sessions w.(World.shared) sessions) (Stage.Begun turn)).
Proof using I L.
  intros C At Tk. unfold begin_turn.
  destruct (Shared.sessions (World.shared w) !! id) as [s|] eqn:Ls; [|done]. destruct (decide _) as [|NR]; [done|].
  intros [= <- <-]. destruct (inv_session _ _ I _ _ Ls) as (Ei & Er & Eo & St).
  assert (turn_of th = None) as T0 by (unfold turn_of; by rewrite C, At).
  set (turn := turn_context (begun s text token)).
  pose proof (turn_of_message id text (Stage.Begun turn) C) as T1. simpl in T1.
  split; simpl.
  - intros id'. rewrite latest_snoc. simpl. rewrite <- (inv_history _ _ I). destruct (decide (id = id')) as [<-|N].
    + by rewrite lookup_insert_eq, Ls.
    + by rewrite lookup_insert_ne.
  - intros id' s'. rewrite lookup_insert_Some. intros [[<- <-]|[N Ls']].
    + unfold session_ok. rewrite owner_same by done. simpl. split_and!; [done|by destruct (String.eqb _ _)|done|].
      exists i, (Thread.with_stage th (Stage.Begun turn)), turn. apply turning_moved; [done|]. by left.
    + destruct (inv_session _ _ I _ _ Ls') as (Ei' & Er' & Eo' & St'). unfold session_ok.
      rewrite owner_same by done. split_and!; try done. destruct (LiveSession.status s'); try done.
      destruct St' as (j & th' & turn' & Tj). exists j, th', turn'. apply turning_moved; [done|]. right.
      split; [|done]. intros ->. destruct Tj as [Lj Tj]. congruence.
  - intros j th' id' turn' T. rewrite owner_same by done.
    apply turning_moved in T as [(-> & -> & E)|[Nj T]]; [|..|done].
    + rewrite T1 in E. injection E as <- <-. split; [done|]. intros s'. rewrite lookup_insert_eq. intros [= <-].
      split_and!; simpl; congruence.
    + destruct (inv_turn _ _ I _ _ _ _ T) as [Eo' A]. split; [done|]. intros s'. rewrite lookup_insert_Some.
      intros [[<- _]|[_ Ls']]; [|by apply A]. by apply no_turn with (s := s) in T.
  - intros j k th1 th2 id' turn1 turn2 X1 X2.
    apply turning_moved in X1 as [(-> & -> & E1)|[N1 X1]]; [..|done];
      apply turning_moved in X2 as [(-> & -> & E2)|[N2 X2]]; try done.
    + rewrite T1 in E1. injection E1 as <- _. by apply no_turn with (s := s) in X2.
    + rewrite T1 in E2. injection E2 as <- _. by apply no_turn with (s := s) in X1.
    + by eapply (inv_unique _ _ I).
  - intros d id'. rewrite owner_same by done. apply (inv_owner _ _ I).
Qed.

(** Sessions other than the one a step is about. *)
Lemma session_ok_other shared stage label id' s' :
  (forall id h d', label <> Label.Opened id h d') ->
  (forall turn, turn_of th <> Some (id', turn)) -> session_ok w labels id' s' ->
  session_ok (moved w i th shared stage) (labels ++ [label]) id' s'.
Proof using I L.
  intros Q N (Ei & Er & Eo & St). unfold session_ok. rewrite owner_same by done. split_and!; try done.
  destruct (LiveSession.status s'); try done. destruct St as (j & th' & turn & Tj).
  exists j, th', turn. apply turning_moved; [done|]. right. split; [|done].
  intros ->. destruct Tj as [Lj Tj]. rewrite L in Lj. injection Lj as <-. by eapply N.
Qed.

Lemma inv_opened config resume history record checkpoint :
  let id := record.(SessionRecord.id) in
  th.(Thread.command) = Command.Start config resume -> unused w id ->
  inv (labels ++ [Label.Opened id history w.(World.shared).(Shared.next)])
    (moved w i th (Shared.new_memory (Shared.with_sessions w.(World.shared)
         (<[id := started config history record checkpoint w.(World.shared).(Shared.next)]>
            w.(World.shared).(Shared.sessions)))) (Stage.Inserted id)).
Proof using I L.
  intros id C [U UT]. set (d := Shared.next (World.shared w)).
  assert (turn_of th = None /\ turn_of (Thread.with_stage th (Stage.Inserted id)) = None) as [T0 T1]
    by (unfold turn_of; simpl; by rewrite C).
  assert (owner labels d = None) as Od.
  { destruct (owner labels d) eqn:E; [|done]. apply (inv_owner _ _ I) in E. unfold d in E. lia. }
  assert (forall d' id', owner labels d' = Some id' ->
    owner (labels ++ [Label.Opened id history d]) d' = Some id') as Om by (intros; by apply owner_app).
  split; simpl.
  - intros id'. rewrite latest_snoc. simpl. rewrite <- (inv_history _ _ I). destruct (decide (id' = id)) as [->|N].
    + by rewrite lookup_insert_eq.
    + by rewrite lookup_insert_ne.
  - intros id' s'. rewrite lookup_insert_Some. intros [[<- <-]|[N Ls']].
    + unfold session_ok. simpl. rewrite owner_snoc, Od. by rewrite decide_True.
    + destruct (inv_session _ _ I _ _ Ls') as (Ei' & Er' & Eo' & St'). unfold session_ok.
      split_and!; try done; [by apply Om|]. destruct (LiveSession.status s'); try done.
      destruct St' as (j & th' & turn' & Tj). exists j, th', turn'. by apply turning_still.
  - intros j th' id' turn T. apply turning_still in T; [|done..]. destruct (inv_turn _ _ I _ _ _ _ T) as [Eo' A].
    split; [by apply Om|]. intros s'. rewrite lookup_insert_Some. intros [[<- _]|[_ Ls']]; [|by apply A].
    by apply UT in T.
  - intros j k th1 th2 id' turn1 turn2 X1%turning_still X2%turning_still; try done. by eapply (inv_unique _ _ I).
  - intros d' id'. rewrite owner_snoc. destruct (owner labels d') eqn:E.
    + intros _. apply (inv_owner _ _ I) in E. lia.
    + destruct (decide (d = d')) as [<-|]; [|done]. intros _. unfold d. lia.
Qed.

(** The turn under way on a session is over. *)
Lemma inv_over id text turn label sessions saved stage :
  th.(Thread.command) = Command.Message id text -> in_turn th.(Thread.at_) = Some turn -> in_turn stage = None ->
  (forall id h d', label <> Label.Opened id h d') ->
  (forall id', id' <> id -> sessions !! id' = w.(World.shared).(Shared.sessions) !! id') ->
  (forall id', LiveSession.history <$> sessions !! id' = latest id' (labels ++ [label])) ->
  (forall s', sessions !! id = Some s' -> exists s, w.(World.shared).(Shared.sessions) !! id = Some s /\
     s'.(LiveSession.id) = s.(LiveSession.id) /\ s'.(LiveSession.record).(SessionRecord.id) = s.(LiveSession.record).(SessionRecord.id) /\
     s'.(LiveSession.decisions) = s.(LiveSession.decisions) /\
     s'.(LiveSession.status) = SessionStatus.Idle /\ s'.(LiveSession.current_cancel) = None) ->
  inv (labels ++ [label])
    (moved w i th (Shared.with_saved (Shared.with_sessions w.(World.shared) sessions) saved) stage).
Proof using I L.
  intros C At End_ Q Ne H S.
  assert (turning w i th id turn) as Ti by (split; [done|unfold turn_of; by rewrite C, At]).
  assert (turn_of (Thread.with_stage th stage) = None) as T1 by (by rewrite (turn_of_message _ _ _ C), End_).
  split; simpl.
  - exact H.
  - intros id' s' Ls'. destruct (decide (id' = id)) as [->|N].
    + destruct (S _ Ls') as (s & Ls & E1 & E2 & E3 & E4 & E5).
      destruct (inv_session _ _ I _ _ Ls) as (Ei & Er & Eo & _). unfold session_ok.
      rewrite E1, E2, E3, E4, E5, owner_same by done. done.
    + apply session_ok_other; [done| |].
      * intros turn'. unfold turn_of. rewrite C, At. simpl. congruence.
      * apply (inv_session _ _ I). by rewrite <- Ne.
  - intros j th' id' turn' [Nj T]%turning_over; [|done]. rewrite owner_same by done.
    destruct (inv_turn _ _ I _ _ _ _ T) as [Eo' A]. split; [done|]. intros s' Ls'. apply A. rewrite <- Ne; [done|].
    intros ->. apply Nj. by eapply (inv_unique _ _ I).
  - intros j k th1 th2 id' turn1 turn2 [_ X1]%turning_over [_ X2]%turning_over; try done. by eapply (inv_unique _ _ I).
  - intros d id'. rewrite owner_same by done. apply (inv_owner _ _ I).
Qed.

Lemma inv_turned id text turn result now_ms before session record saved :
  th.(Thread.command) = Command.Message id text -> th.(Thread.at_) = Stage.Ran turn result ->
  w.(World.shared).(Shared.sessions) !! id = Some before ->
  finish_turn w.(World.shared).(Shared.sessions) (Shared.note w.(World.shared)) id result now_ms =
    Some (session, record) ->
  inv (labels ++ [match result with
                  | inl turned => Label.Turned id turn.(TurnContext.history) turned.(TurnResult.history)
                  | inr _ => Label.Quiet
                  end])
    (moved w i th (Shared.with_saved (Shared.with_sessions w.(World.shared)
        (<[id := session]> w.(World.shared).(Shared.sessions))) saved) (Stage.Finished result)).
Proof using I L.
  intros C At Ls F. unfold finish_turn in F. rewrite Ls in F. simpl in F.
  eapply (inv_over id text turn); [done|by rewrite At|done|by destruct result| | |].
  - intros id' N. by rewrite lookup_insert_ne.
  - intros id'. rewrite latest_snoc, <- (inv_history _ _ I). destruct (decide (id' = id)) as [->|N].
    + rewrite lookup_insert_eq, Ls. destruct result as [turned|err]; injection F as <- <-; simpl; [|done].
      by rewrite decide_True.
    + rewrite lookup_insert_ne by done. destruct result; simpl; [|done]. by rewrite decide_False.
  - intros s'. rewrite lookup_insert_eq. intros [= <-]. exists before. split; [done|].
    destruct result as [turned|err]; injection F as <- <-; simpl; [|by split_and!].
    split_and!; try done. unfold recorded.
    assert (forall r, (foldl SessionRecord.push_event r (TurnResult.events turned)).(SessionRecord.id) = r.(SessionRecord.id)) as P.
    { intros r. revert r. induction (TurnResult.events turned) as [|e es IH]; intros r; [done|]. simpl. by rewrite IH. }
    destruct (TurnResult.outcome turned); simpl; apply P.
Qed.

Lemma inv_close id session saved :
  th.(Thread.command) = Command.Close id ->
  w.(World.shared).(Shared.sessions) !! id = Some session ->
  inv (labels ++ [Label.Closed id])
    (moved w i th (close w.(World.shared) id session saved) Stage.Closing).
Proof using I L.
  intros C Ls.
  assert (turn_of th = None /\ turn_of (Thread.with_stage th Stage.Closing) = None) as [T0 T1]
    by (unfold turn_of; simpl; by rewrite C).
  split; simpl.
  - intros id'. rewrite latest_snoc. simpl. rewrite <- (inv_history _ _ I). destruct (decide (id' = id)) as [->|N].
    + by rewrite lookup_delete_eq.
    + by rewrite lookup_delete_ne.
  - intros id' s' [N Ls']%lookup_delete_Some. apply session_ok_other; [done|by rewrite T0|].
    by apply (inv_session _ _ I).
  - intros j th' id' turn T%turning_still; [|done..]. rewrite owner_same by done.
    destruct (inv_turn _ _ I _ _ _ _ T) as [Eo' A]. split; [done|]. intros s' [N Ls']%lookup_delete_Some. by apply A.
  - intros j k th1 th2 id' turn1 turn2 X1%turning_still X2%turning_still; try done. by eapply (inv_unique _ _ I).
  - intros d id'. rewrite owner_same by done. intros E%(inv_owner _ _ I). by destruct (LiveSession.current_cancel session).
Qed.
End threads.

Lemma at_once_same sh command sh' answer : at_once sh command sh' answer ->
  same_sessions sh.(Shared.sessions) sh'.(Shared.sessions) /\ sh.(Shared.next) <= sh'.(Shared.next).
Proof.
  destruct 1 as [id s Ls| | | |id provider model sessions answer E|id mode sessions answer E|];
    try (split; [apply same_sessions_refl|done]).
  - by destruct (LiveSession.current_cancel s); (split; [apply same_sessions_refl|]).
  - split; [|done]. eapply same_change; [|exact E]. intros s. by split_and!.
  - split; [|done]. eapply same_change; [|exact E]. intros s. by split_and!.
Qed.

Lemma inv_thread_step has_store labels w i th label shared stage :
  inv labels w -> w.(World.threads) !! i = Some th -> careful w label ->
  thread_step has_store w.(World.shared) th.(Thread.token) th.(Thread.command) th.(Thread.at_) label shared stage ->
  inv (labels ++ [label]) (moved w i th shared stage).
Proof.
  intros I L Ca St. destruct th as [command token at_]. simpl in St.
  destruct St as [config now_ms record ->|config id record R|config id err R|config resume history record checkpoint id
    |config resume id|id text sessions turn B|id text sessions err B|id text turn|id text turn event|id text turn note
    |id text turn unresolved output|id text turn result now_ms before session record saved Ls F P|id text turn result Ls
    |id text result|id session saved Ls P|id|command shared answer O];
    try (apply inv_kept; [done|done|done|apply same_sessions_refl|simpl; lia]).
  - by eapply inv_opened.
  - by eapply inv_begin.
  - apply inv_kept; [done|done|done| |done]. unfold begin_turn in B.
    destruct (Shared.sessions (World.shared w) !! id); [destruct (decide _)|]; simplify_eq/=; apply same_sessions_refl.
  - by destruct (map_session_agent_event id event); (apply inv_kept; [done|done|done|apply same_sessions_refl|simpl; lia]).
  - by eapply inv_turned.
  - pose proof (inv_over labels w i _ I L id text turn Label.Quiet
      w.(World.shared).(Shared.sessions) w.(World.shared).(Shared.saved)
      (Stage.Answered (inr (unknown_session id))) eq_refl eq_refl eq_refl) as E.
    destruct w as [[sessions saved notes next seq cancelled emitted] threads]. simpl in *. apply E; try done.
    + intros id'. rewrite latest_snoc. apply (inv_history _ _ I).
    + intros s'. by rewrite Ls.
  - by eapply inv_close.
  - destruct (at_once_same _ _ _ _ O) as [S N]. by apply inv_kept.
Qed.

Lemma inv_any_step has_store labels w label w' :
  inv labels w -> careful w label -> step has_store w label w' -> inv (labels ++ [label]) w'.
Proof.
  intros I Ca St. revert Ca. destruct St as [i th l shared stage L St|token|saved]; intros Ca.
  - by apply (inv_thread_step has_store labels w i th l shared stage).
  - by apply inv_shared.
  - by apply inv_shared.
Qed.

Lemma inv_given saved seq commands : inv [] (World.start saved seq commands).
Proof.
  assert (forall i th id turn, ~ turning (World.start saved seq commands) i th id turn) as N.
  { intros i th id turn [L T]. simpl in L. rewrite list_lookup_imap in L. apply fmap_Some in L as (c & _ & ->).
    unfold turn_of in T. simpl in T. by destruct c. }
  split; try done; try (by intros; edestruct N).
Qed.

Lemma inv_runs has_store saved seq commands labels w :
  runs has_store careful (World.start saved seq commands) labels w -> inv labels w.
Proof. induction 1 as [|labels w' label w'' R IH A St]; [apply inv_given|]. by eapply inv_any_step. Qed.

(** A turn that succeeds started from its session's latest history. *)
Lemma turned_latest has_store labels w id before after w' :
  inv labels w -> step has_store w (Label.Turned id before after) w' -> latest id labels = Some before.
Proof.
  intros I St. inversion St as [i th l shared stage L Th E1 E2| |]; subst. destruct th as [command token at_].
  simpl in Th. remember (Label.Turned id before after) as label eqn:El.
  destruct Th as [| | | | | | | | | | |id' text turn result now_ms s session record saved Ls F P| | | | |]; try done.
  destruct result as [turned|err]; [|done]. injection El as -> <- <-.
  destruct (inv_turn _ _ I i (Thread.Mk (Command.Message id text) token (Stage.Ran turn (inl turned))) id turn
    (conj L eq_refl)) as [_ A]. destruct (A _ Ls) as (_ & _ & H & _).
  rewrite <- (inv_history _ _ I), Ls. simpl. by rewrite H.
Qed.

Lemma turned_chain has_store saved seq commands labels w id before after labels1 labels2 :
  runs has_store careful (World.start saved seq commands) labels w ->
  labels = labels1 ++ Label.Turned id before after :: labels2 -> latest id labels1 = Some before.
Proof.
  intros R. revert labels2. induction R as [|labels w' label w'' R IH A St]; intros labels2 E; [by destruct labels1|].
  destruct labels2 as [|last labels2 _] using rev_ind.
  - apply app_inj_tail in E as [-> ->]. eapply turned_latest; [|exact St]. by eapply inv_runs.
  - rewrite app_comm_cons, app_assoc in E. apply app_inj_tail in E as [E _]. by eapply IH.
Qed.

(** * One turn at a time *)

(** A tool call, about to begin, of a turn under way. *)
Definition called_by (w : World.t) (c : Call.t) : Prop :=
  exists i th turn, turning w i th c.(Call.session_id) turn /\ c.(Call.at_) = Phase.Gated /\ c.(Call.request) = None /\
    c.(Call.mode) = turn.(TurnContext.mode) /\ c.(Call.decisions) = turn.(TurnContext.decisions) /\
    c.(Call.cancel) = th.(Thread.token).

(** C19: A session runs one turn at a time and loses nothing. Under every interleaving of the commands of all
    clients, of cancellations, and of other processes that write the store, and whatever fails to be
    persisted, as long as no session is opened under an id that is live or still has a turn under way: at
    most one command runs a turn of a session; a live session is running exactly when one does, and
    interrupting or closing it cancels that very turn's token; every turn that succeeds started from the
    history that the session was opened with or that the last turn to succeed left, and the live history is
    that history; and the calls of the turns under way each come with the decisions of their own session,
    as approving them relies on. *)
Theorem sessions_serial (has_store : bool) (saved : gmap string SessionRecord.t) (seq : u64)
    (commands : list Command.t) (labels : list Label.t) (w : World.t)
    (R : runs has_store careful (World.start saved seq commands) labels w) :
  (forall id i j th th' turn turn', turning w i th id turn -> turning w j th' id turn' -> i = j) /\
  (forall id s, w.(World.shared).(Shared.sessions) !! id = Some s ->
     s.(LiveSession.history) = default [] (latest id labels) /\
     s.(LiveSession.status) <> SessionStatus.Closed /\
     (s.(LiveSession.status) = SessionStatus.Running <-> exists i th turn, turning w i th id turn) /\
     forall token, s.(LiveSession.current_cancel) = Some token <->
       exists i th turn, turning w i th id turn /\ th.(Thread.token) = token) /\
  (forall labels1 id before after labels2, labels = labels1 ++ Label.Turned id before after :: labels2 ->
     latest id labels1 = Some before) /\
  (forall calls, Forall (called_by w) calls -> beginning (fun d => default EmptyString (owner labels d)) calls).
Proof.
  pose proof (inv_runs _ _ _ _ _ _ R) as I. split_and!.
  - intros. by eapply (inv_unique _ _ I).
  - intros id s Ls. destruct (inv_session _ _ I _ _ Ls) as (_ & _ & _ & St). split_and!.
    + by rewrite <- (inv_history _ _ I), Ls.
    + intros E. by rewrite E in St.
    + split; [intros E; by rewrite E in St|]. intros (i & th & turn & T).
      destruct (inv_turn _ _ I _ _ _ _ T) as [_ A]. by apply A.
    + intros token. split.
      * intros E. destruct (LiveSession.status s) eqn:Es; [congruence| |done].
        destruct St as (i & th & turn & T). destruct (inv_turn _ _ I _ _ _ _ T) as [_ A].
        destruct (A _ Ls) as (_ & E' & _). exists i, th, turn. split; [done|congruence].
      * intros (i & th & turn & T & <-). destruct (inv_turn _ _ I _ _ _ _ T) as [_ A]. by apply A.
  - intros. by eapply turned_chain.
  - intros calls F. unfold beginning. eapply Forall_impl; [exact F|]. intros c (i & th & turn & T & G & N & _ & D & _).
    split; [done|]. split; [done|]. destruct (inv_turn _ _ I _ _ _ _ T) as [O _]. by rewrite D, O.
Qed.

(** * Runs *)

Lemma runs_cons has_store allowed w label w1 labels w2 :
  allowed w label -> step has_store w label w1 -> runs has_store allowed w1 labels w2 ->
  runs has_store allowed w (label :: labels) w2.
Proof.
  intros A St R. induction R as [|labels w' l w'' R IH A' St'].
  - apply (runs_more _ _ w [] w label w1); [apply runs_none|done|done].
  - change (label :: labels ++ [l]) with ((label :: labels) ++ [l]). by eapply runs_more.
Qed.

Definition plain_config : SessionConfig.t :=
  SessionConfig.Mk None "claude" "m" None None None None None None (wrap 32 0).

(** A session that was persisted after its first turn. *)
Definition old_record : SessionRecord.t :=
  SessionRecord.Mk SCHEMA_VERSION "s" (wrap 64 0) (Some (wrap 64 0)) "claude" "m" "hello" [Message.user "hello"] None
    (wrap 32 0) [] None.

Definition turned (text : string) : TurnResult.t :=
  TurnResult.Mk [Message.user "hello"; Message.user text] [] None.

(** The thread [i] makes an access; [settle] computes the world it leads to. *)
Tactic Notation "acts" constr(i) tactic3(rule) :=
  eapply runs_cons;
    [|eapply (step_thread _ _ i);
      [vm_compute; reflexivity|cbn [Thread.token Thread.command Thread.at_ Thread.with_stage]; rule]|];
  [try exact Logic.I|..].
Ltac settle :=
  match goal with
  | |- runs _ _ ?w _ _ =>
      let w' := eval vm_compute in w in replace w with w' by (vm_compute; reflexivity)
  end.
Ltac computes := vm_compute; reflexivity.

(** One access of the thread [i] after another. *)
Definition two_turns : World.t :=
  World.start {["s" := old_record]} (wrap 64 0)
    [Command.Start plain_config (Some "s"); Command.Message "s" "one"; Command.Start plain_config (Some "s");
     Command.Message "s" "two"].

Lemma resumed_running_loses_turn : exists labels w,
  runs true (fun _ _ => True) two_turns labels w /\
  omap (fun label => match label with Label.Turned id before after => Some (id, before, after) | _ => None end) labels =
    [("s", [Message.user "hello"], [Message.user "hello"; Message.user "one"]);
     ("s", [Message.user "hello"], [Message.user "hello"; Message.user "two"])] /\
  (LiveSession.history <$> w.(World.shared).(Shared.sessions) !! "s") =
    Some [Message.user "hello"; Message.user "two"].
Proof.
  eexists _, _. split.
  - settle.
    acts 0 eapply step_resumed. { apply resume_loaded; [done|done|computes]. } settle.
    acts 0 eapply step_insert. settle.
    acts 1 eapply step_begin. { computes. } settle.
    acts 2 eapply step_resumed. { apply resume_loaded; [done|done|computes]. } settle.
    acts 2 eapply step_insert. settle.
    acts 3 eapply step_begin. { computes. } settle.
    acts 1 eapply step_turn_started. settle. acts 3 eapply step_turn_started. settle.
    acts 1 eapply (step_ran _ _ _ _ _ _ None (inl (turned "one"))). settle.
    acts 3 eapply (step_ran _ _ _ _ _ _ None (inl (turned "two"))). settle.
    acts 1 eapply (step_finish _ _ _ _ _ _ _ (wrap 64 0)). { computes. } { computes. } { apply persist_refused. } settle.
    acts 3 eapply (step_finish _ _ _ _ _ _ _ (wrap 64 0)). { computes. } { computes. } { apply persist_refused. } settle.
    apply runs_none.
  - split; computes.
Qed.

(** A session resumed, and one turn of it. *)
Definition one_turn : World.t :=
  World.start {["s" := old_record]} (wrap 64 0) [Command.Start plain_config (Some "s"); Command.Message "s" "one"].

Lemma one_turn_run : exists labels w,
  runs true careful one_turn labels w /\
  w.(World.shared).(Shared.sessions) !! "s" <> None /\
  latest "s" labels = Some [Message.user "hello"; Message.user "one"].
Proof.
  eexists _, _. split.
  - settle.
    acts 0 eapply step_resumed. { apply resume_loaded; [done|done|computes]. } settle.
    acts 0 eapply step_insert.
    { split; [computes|]. intros [|[|i]] th turn [L T]; [injection L as <-; done..|discriminate L]. } settle.
    acts 1 eapply step_begin. { computes. } settle.
    acts 1 eapply step_turn_started. settle.
    acts 1 eapply (step_ran _ _ _ _ _ _ None (inl (turned "one"))). settle.
    acts 1 eapply (step_finish _ _ _ _ _ _ _ (wrap 64 0)). { computes. } { computes. } { apply persist_refused. } settle.
    apply runs_none.
  - split; vm_compute; done.
Qed.

Lemma sessions_serial_witness : exists labels w s,
  runs true careful one_turn labels w /\
  w.(World.shared).(Shared.sessions) !! "s" = Some s /\
  s.(LiveSession.history) = [Message.user "hello"; Message.user "one"].
Proof.
  destruct one_turn_run as (labels & w & R & N & H).
  destruct (w.(World.shared).(Shared.sessions) !! "s") as [s|] eqn:E; [|by destruct N].
  destruct (sessions_serial true _ _ _ labels w R) as (_ & S & _).
  exists labels, w, s. split; [exact R|]. split; [exact E|].
  destruct (S "s" s E) as [Hs _]. rewrite Hs, H. reflexivity.
Defined.
