(* ===== verification/SessionRecordSpec.v ===== *)
(** The record of a session: its ids order sessions by the time they started, which rests on the calendar
    computed from a day number; what its transcript keeps of a run; its working-memory note. *)
From stdpp Require Import gmap strings.
From S2P Require Import Prelude Text Json Tape History Agent ToolPolicy Disk Wire WireReference RecordStore Sessions.
Open Scope nerve_scope.

(** * The calendar *)

Open Scope Z_scope.

Definition leap (y : Z) : bool := (y mod 4 =? 0) && (negb (y mod 100 =? 0) || (y mod 400 =? 0)).

Definition month_days (leap : bool) (m : Z) : Z :=
  if m =? 2 then if leap then 29 else 28
  else if (m =? 4) || (m =? 6) || (m =? 9) || (m =? 11) then 30 else 31.

(** The day after. *)
Definition next_day (date : Z * N * N) : Z * N * N :=
  let '(y, m, d) := date in
  if Z.of_N d <? month_days (leap y) (Z.of_N m) then (y, m, (d + 1)%N)
  else if Z.of_N m <? 12 then (y, (m + 1)%N, 1%N)
  else (y + 1, 1%N, 1%N).

(** The first day of the years of an era, which begin in March. *)
Definition year_start (y : Z) : Z := if y =? 400 then 146097 else 365 * y + y / 4 - y / 100.

Definition month_day (doy : Z) : Z * Z :=
  let mp := (5 * doy + 2) / 153 in
  ((if mp <? 10 then mp + 3 else mp - 9) mod 2 ^ 32, (doy - (153 * mp + 2) / 5 + 1) mod 2 ^ 32).

(** A day by its era, its year of the era and its day of that year. *)
Definition date_of (era yoe doy : Z) : Z * N * N :=
  let '(m, d) := month_day doy in
  (if m <=? 2 then yoe + era * 400 + 1 else yoe + era * 400, Z.to_N m, Z.to_N d).

Definition counted (doe : Z) : Z := doe - doe / 1460 + doe / 36524 - doe / 146096.

Lemma counted_mono a b : 0 <= a <= b -> counted a <= counted b.
Proof.
  intros H. unfold counted.
  assert (a / 146096 = a / 36524 / 4 /\ b / 146096 = b / 36524 / 4) as [-> ->] by (split; by rewrite Z.div_div).
  assert (a / 36524 <= b / 36524) by (apply Z.div_le_mono; lia).
  assert (a - a / 1460 <= b - b / 1460).
  { pose proof (Z.div_mod a 1460 ltac:(lia)). pose proof (Z.div_mod b 1460 ltac:(lia)).
    pose proof (Z.mod_pos_bound a 1460 ltac:(lia)). pose proof (Z.mod_pos_bound b 1460 ltac:(lia)). lia. }
  pose proof (Z.div_mod (a / 36524) 4 ltac:(lia)). pose proof (Z.div_mod (b / 36524) 4 ltac:(lia)).
  pose proof (Z.mod_pos_bound (a / 36524) 4 ltac:(lia)). pose proof (Z.mod_pos_bound (b / 36524) 4 ltac:(lia)). lia.
Qed.

Definition years : list Z := map Z.of_nat (seq 0 400).

Lemma years_all (p : Z -> bool) : forallb p years = true -> forall y, 0 <= y < 400 -> p y = true.
Proof.
  intros F y Hy. rewrite forallb_forall in F. apply F. unfold years. apply in_map_iff.
  exists (Z.to_nat y). split; [lia|]. apply in_seq. lia.
Qed.

Lemma year_ends y : 0 <= y < 400 ->
  counted (year_start y) / 365 = y /\ counted (year_start (y + 1) - 1) / 365 = y /\
  0 <= year_start y /\ year_start (y + 1) = year_start y + (if leap (y + 1) then 366 else 365).
Proof.
  intros Hy.
  pose proof (years_all (fun y => (counted (year_start y) / 365 =? y) && (counted (year_start (y + 1) - 1) / 365 =? y) &&
    (0 <=? year_start y) && (year_start (y + 1) =? year_start y + (if leap (y + 1) then 366 else 365)))) as F.
  specialize (F ltac:(vm_compute; reflexivity) y Hy). simpl in F.
  rewrite !andb_true_iff, !Z.eqb_eq, Z.leb_le in F. tauto.
Qed.

(** The year of the era is the one the day lies in. *)
Lemma year_of_era y doe : 0 <= y < 400 -> year_start y <= doe < year_start (y + 1) -> counted doe / 365 = y.
Proof.
  intros Hy Hd. destruct (year_ends y Hy) as (S & E & P & _).
  pose proof (counted_mono (year_start y) doe ltac:(lia)) as A.
  pose proof (counted_mono doe (year_start (y + 1) - 1) ltac:(lia)) as B.
  apply (Z.div_le_mono _ _ 365) in A; [|lia]. apply (Z.div_le_mono _ _ 365) in B; [|lia]. lia.
Qed.

Lemma era_year doe : 0 <= doe < 146097 -> exists y, 0 <= y < 400 /\ year_start y <= doe < year_start (y + 1).
Proof.
  intros H. assert (forall n : nat, (n <= 400)%nat -> doe < year_start (Z.of_nat n) ->
    exists y, 0 <= y < Z.of_nat n /\ year_start y <= doe < year_start (y + 1)) as G.
  { induction n as [|n IH]; intros Hn L; [change (year_start (Z.of_nat 0)) with 0 in L; lia|].
    destruct (Z.ltb_spec doe (year_start (Z.of_nat n))) as [L'|G].
    - destruct IH as (y & Hy & D); [lia|done|]. exists y. split; [lia|done].
    - exists (Z.of_nat n). split; [lia|]. split; [done|]. by replace (Z.of_nat n + 1) with (Z.of_nat (S n)) by lia. }
  destruct (G 400%nat) as (y & Hy & D); [lia|exact (proj2 H)|]. by exists y.
Qed.

Lemma civil_date_of era yoe doy :
  0 <= era -> 0 <= yoe < 400 -> 0 <= doy -> year_start yoe + doy < year_start (yoe + 1) ->
  civil_from_days (146097 * era + (year_start yoe + doy) - 719468) = date_of era yoe doy.
Proof.
  intros He Hy Hd L. destruct (year_ends yoe Hy) as (_ & _ & P & W).
  assert (year_start (yoe + 1) <= 146097).
  { pose proof (years_all (fun y => year_start (y + 1) <=? 146097) ltac:(vm_compute; reflexivity) yoe Hy) as F.
    simpl in F. lia. }
  assert (doy <= 365) by (destruct (leap (yoe + 1)); lia).
  pose proof (year_of_era yoe (year_start yoe + doy) Hy ltac:(lia)) as Y.
  unfold civil_from_days. set (doe := year_start yoe + doy) in *.
  replace (146097 * era + doe - 719468 + 719468) with (146097 * era + doe) by lia.
  rewrite (proj2 (Z.leb_le 0 (146097 * era + doe))) by lia.
  rewrite (Z.quot_div_nonneg (146097 * era + doe)) by lia.
  assert ((146097 * era + doe) / 146097 = era) as -> by (symmetry; apply (Z.div_unique _ _ _ doe); lia).
  replace (146097 * era + doe - era * 146097) with doe by lia.
  rewrite !(Z.quot_div_nonneg doe) by lia. fold (counted doe).
  assert (0 <= counted doe) by (pose proof (counted_mono 0 doe ltac:(lia)) as C; exact C).
  rewrite (Z.quot_div_nonneg (counted doe)) by lia. rewrite Y.
  rewrite !(Z.quot_div_nonneg yoe) by lia.
  assert (doe - (365 * yoe + yoe / 4 - yoe / 100) = doy) as ->.
  { unfold doe, year_start. rewrite (proj2 (Z.eqb_neq yoe 400)) by lia. lia. }
  rewrite (Z.quot_div_nonneg (5 * doy + 2)) by lia.
  assert (0 <= (5 * doy + 2) / 153) by (apply Z.div_pos; lia).
  rewrite (Z.quot_div_nonneg (153 * _ + 2)) by lia. unfold date_of, month_day. done.
Qed.

Definition days_of_year : list Z := map Z.of_nat (seq 0 366).

(** From a day of a year to the next, [leap] being of the year its February is in. *)
Definition day_ok (leap : bool) (doy : Z) : bool :=
  let '(m, d) := month_day doy in
  let '(m', d') := month_day (doy + 1) in
  (1 <=? m) && (m <=? 12) && (1 <=? d) && (d <=? 31) &&
  if doy <? (if leap then 365 else 364) then
    (if d <? month_days leap m then (m' =? m) && (d' =? d + 1)
     else if m <? 12 then (m' =? m + 1) && (d' =? 1) && Bool.eqb (m <=? 2) (m' <=? 2)
     else (m' =? 1) && (d' =? 1))
  else if doy =? (if leap then 365 else 364) then (m =? 2) && (d =? month_days leap 2)
  else true.

Lemma day_ok_all leap doy : 0 <= doy <= 365 -> day_ok leap doy = true.
Proof.
  intros H. assert (forallb (day_ok true) days_of_year && forallb (day_ok false) days_of_year = true) as F
    by (vm_compute; reflexivity).
  apply andb_true_iff in F. rewrite !forallb_forall in F. destruct F as [T F].
  assert (In doy days_of_year) as I.
  { apply in_map_iff. exists (Z.to_nat doy). split; [lia|]. apply in_seq. lia. }
  destruct leap; auto.
Qed.

Lemma leap_era y era : leap (y + era * 400) = leap y.
Proof.
  unfold leap. replace (y + era * 400) with (y + (era * 100) * 4) at 1 by lia. rewrite Z_mod_plus_full.
  replace (y + era * 400) with (y + (era * 4) * 100) at 1 by lia. rewrite Z_mod_plus_full.
  by rewrite Z_mod_plus_full.
Qed.

Lemma month_days_other b b' m : m <> 2 -> month_days b m = month_days b' m.
Proof. intros N. unfold month_days. by rewrite (proj2 (Z.eqb_neq m 2) N). Qed.

(** Within a year of an era. *)
Lemma date_of_next era yoe doy : 0 <= doy -> doy + 1 < (if leap (yoe + 1) then 366 else 365) ->
  date_of era yoe (doy + 1) = next_day (date_of era yoe doy).
Proof.
  intros H L. assert (doy <= 365) by (destruct (leap (yoe + 1)); lia).
  pose proof (day_ok_all (leap (yoe + 1)) doy ltac:(lia)) as D. unfold day_ok in D. unfold date_of.
  destruct (month_day doy) as [m d], (month_day (doy + 1)) as [m' d']. apply andb_true_iff in D as [B D].
  rewrite (proj2 (Z.ltb_lt doy _)) in D by (destruct (leap (yoe + 1)); lia).
  unfold next_day. rewrite !Z2N.id by lia.
  assert (month_days (leap (if m <=? 2 then yoe + era * 400 + 1 else yoe + era * 400)) m = month_days (leap (yoe + 1)) m) as ->.
  { destruct (Z.eq_dec m 2) as [->|N]; [|by apply month_days_other]. change (2 <=? 2) with true. cbv iota.
    by rewrite <- (leap_era (yoe + 1) era), Z.add_shuffle0. }
  destruct (d <? month_days (leap (yoe + 1)) m).
  - assert (m' = m /\ d' = d + 1) as [-> ->] by lia. f_equal. lia.
  - destruct (m <? 12) eqn:M12.
    + assert (m' = m + 1 /\ d' = 1 /\ (m' <=? 2) = (m <=? 2)) as (E & -> & ->).
      { rewrite !andb_true_iff, Bool.eqb_true_iff in D. lia. }
      f_equal. f_equal. lia.
    + assert (m = 12 /\ m' = 1 /\ d' = 1) as (-> & -> & ->) by lia. reflexivity.
Qed.

(** From the last day of a year of an era to the first of the next. *)
Lemma date_of_turn era yoe doy era' yoe' :
  doy + 1 = (if leap (yoe + 1) then 366 else 365) -> yoe' + era' * 400 = yoe + era * 400 + 1 ->
  date_of era' yoe' 0 = next_day (date_of era yoe doy).
Proof.
  intros H E. assert (0 <= doy <= 365) by (destruct (leap (yoe + 1)); lia).
  pose proof (day_ok_all (leap (yoe + 1)) doy ltac:(lia)) as D. unfold day_ok in D. unfold date_of.
  change (month_day 0) with (3, 1). destruct (month_day doy) as [m d], (month_day (doy + 1)) as [m' d'].
  apply andb_true_iff in D as [_ D].
  rewrite (proj2 (Z.ltb_ge doy _)), (proj2 (Z.eqb_eq doy _)) in D by (destruct (leap (yoe + 1)); lia).
  apply andb_true_iff in D as [->%Z.eqb_eq ->%Z.eqb_eq].
  unfold next_day. rewrite !Z2N.id by (destruct (leap (yoe + 1)); done).
  change (2 <=? 2) with true. change (3 <=? 2) with false. cbv iota.
  assert (leap (yoe + era * 400 + 1) = leap (yoe + 1)) as -> by (rewrite <- (leap_era (yoe + 1) era); f_equal; lia).
  rewrite (proj2 (Z.ltb_ge _ _)) by done. simpl. by rewrite E.
Qed.

Lemma civil_next days : 0 <= days -> civil_from_days (days + 1) = next_day (civil_from_days days).
Proof.
  intros H. set (z := days + 719468). set (era := z / 146097). set (doe := z mod 146097).
  assert (0 <= era) by (apply Z.div_pos; lia).
  assert (z = 146097 * era + doe) as Ez by (apply Z.div_mod; lia).
  destruct (era_year doe) as (yoe & Hy & Hd); [apply Z.mod_pos_bound; lia|].
  destruct (year_ends yoe Hy) as (_ & _ & P & W). set (doy := doe - year_start yoe).
  assert (civil_from_days days = date_of era yoe doy) as ->.
  { rewrite <- civil_date_of; [f_equal; lia|lia..]. }
  destruct (Z.ltb_spec (doe + 1) (year_start (yoe + 1))) as [L|G].
  - rewrite <- date_of_next; [|lia|destruct (leap (yoe + 1)); lia].
    rewrite <- civil_date_of; [f_equal; lia|lia..].
  - destruct (Z.eq_dec yoe 399) as [->|N].
    + rewrite <- (date_of_turn era 399 doy (era + 1) 0); [|destruct (leap (399 + 1)); lia|lia].
      rewrite <- civil_date_of; [f_equal; change (year_start 0) with 0; change (year_start (399 + 1)) with 146097 in *; lia|lia|lia|lia|done].
    + rewrite <- (date_of_turn era yoe doy era (yoe + 1)); [|destruct (leap (yoe + 1)); lia|lia].
      destruct (year_ends (yoe + 1)) as (_ & _ & P' & W'); [lia|].
      rewrite <- civil_date_of; [f_equal; lia|lia|lia|lia|destruct (leap (yoe + 1 + 1)); lia].
Qed.

(** * Dates as numbers *)

Definition date_key (date : Z * N * N) : N :=
  let '(y, m, d) := date in (Z.to_N y * 10000 + m * 100 + d)%N.

Definition proper (date : Z * N * N) : Prop :=
  let '(y, m, d) := date in 0 <= y /\ (1 <= m <= 12)%N /\ (1 <= d <= 31)%N.

Lemma month_days_le leap m : month_days leap m <= 31.
Proof. unfold month_days. repeat case_match; lia. Qed.

Lemma proper_next date : proper date -> proper (next_day date) /\ (date_key date < date_key (next_day date))%N.
Proof.
  destruct date as [[y m] d]. intros (Hy & Hm & Hd). unfold next_day. pose proof (month_days_le (leap y) (Z.of_N m)).
  destruct (Z.of_N d <? _) eqn:D; [|destruct (Z.of_N m <? 12) eqn:M]; simpl; lia.
Qed.

Lemma civil_proper days : 0 <= days -> proper (civil_from_days days).
Proof.
  revert days. apply natlike_ind; [by vm_compute|]. intros days H IH. change (Z.succ days) with (days + 1).
  rewrite civil_next by done. by apply proper_next.
Qed.

Lemma civil_mono a b : 0 <= a < b -> (date_key (civil_from_days a) < date_key (civil_from_days b))%N.
Proof.
  intros [Ha L]. assert (exists n, 0 <= n /\ b = a + 1 + n) as (n & Hn & ->) by (exists (b - a - 1); lia). clear L.
  revert n Hn. apply natlike_ind.
  - rewrite Z.add_0_r, civil_next by done. by apply proper_next, civil_proper.
  - intros n Hn IH. etransitivity; [exact IH|]. replace (a + 1 + Z.succ n) with (a + 1 + n + 1) by lia.
    rewrite (civil_next (a + 1 + n)) by lia. apply proper_next, civil_proper. lia.
Qed.

(** The first day of the year 10000. *)
Definition LAST_DAY : Z := 2932897.

Lemma year_four_digits days : 0 <= days < LAST_DAY ->
  let '(y, m, d) := civil_from_days days in 0 <= y <= 9999 /\ (m < 100)%N /\ (d < 100)%N.
Proof.
  intros H. pose proof (civil_mono days LAST_DAY H) as M. pose proof (civil_proper days ltac:(lia)) as P.
  change (date_key (civil_from_days LAST_DAY)) with 100000101%N in M.
  destruct (civil_from_days days) as [[y m] d]. simpl in *. lia.
Qed.

Definition time_key (tod : Z) : N :=
  (Z.to_N (tod / 3600) * 10000 + Z.to_N ((tod mod 3600) / 60) * 100 + Z.to_N (tod mod 60))%N.

Lemma time_parts tod : 0 <= tod < 86400 -> exists h mi s,
  tod / 3600 = h /\ (tod mod 3600) / 60 = mi /\ tod mod 60 = s /\
  tod = 3600 * h + 60 * mi + s /\ 0 <= h < 24 /\ 0 <= mi < 60 /\ 0 <= s < 60.
Proof.
  intros H. exists (tod / 3600), ((tod mod 3600) / 60), (tod mod 60). split_and!; try done.
  all: pose proof (Z.div_mod tod 3600 ltac:(lia)); pose proof (Z.mod_pos_bound tod 3600 ltac:(lia));
    pose proof (Z.div_mod (tod mod 3600) 60 ltac:(lia)); pose proof (Z.mod_pos_bound (tod mod 3600) 60 ltac:(lia));
    assert (tod mod 60 = (tod mod 3600) mod 60) by (rewrite Z.mod_mod_divide; [done|by exists 60]); lia.
Qed.

Lemma time_mono a b : 0 <= a < 86400 -> 0 <= b < 86400 -> a < b -> (time_key a < time_key b)%N.
Proof.
  intros Ha Hb L. unfold time_key.
  destruct (time_parts a Ha) as (h & mi & s & -> & -> & -> & E & ? & ? & ?).
  destruct (time_parts b Hb) as (h' & mi' & s' & -> & -> & -> & E' & ? & ? & ?). lia.
Qed.

Close Scope Z_scope.

(** * Fixed widths *)

Fixpoint digits (w : nat) (n : N) : string :=
  match w with
  | 0 => EmptyString
  | S w => digits w (n / 10) +:+ String (pretty_N_char (n mod 10)) EmptyString
  end.

Lemma digits_length w n : String.length (digits w n) = w.
Proof. revert n. induction w as [|w IH]; intros n; simpl; [done|]. rewrite length_app_str, IH. simpl. lia. Qed.

Definition zeros (k : nat) : string := String.concat EmptyString (repeat "0" k).

Lemma zeros_cons k s : zeros (S k) +:+ s = zeros k +:+ String "0" s.
Proof.
  assert (forall k, zeros (S k) = String "0" (zeros k)) as E by (intros []; done).
  induction k as [|k IH]; [done|]. rewrite E. simpl. rewrite IH, E. done.
Qed.

Lemma pretty_go_app n s : pretty_N_go n s = pretty_N_go n EmptyString +:+ s.
Proof.
  revert s. induction (N.lt_wf_0 n) as [n _ IH]; intros s. destruct (decide (n = 0)%N) as [->|N]; [done|].
  rewrite (pretty_N_go_step n s), (pretty_N_go_step n EmptyString) by lia.
  rewrite (IH (n / 10)%N) by (apply N.div_lt; lia). symmetry. rewrite (IH (n / 10)%N) by (apply N.div_lt; lia).
  by rewrite app_assoc_str.
Qed.

Lemma zeros_digits w n s : (n < 10 ^ N.of_nat w)%N ->
  zeros (w - String.length (pretty_N_go n EmptyString)) +:+ pretty_N_go n s = digits w n +:+ s.
Proof.
  revert n s. induction w as [|w IH]; intros n s H.
  - assert (n = 0%N) as -> by (simpl in H; lia). done.
  - rewrite Nat2N.inj_succ, N.pow_succ_r' in H. simpl. rewrite app_assoc_str. simpl.
    assert (n / 10 < 10 ^ N.of_nat w)%N as H' by (apply N.Div0.div_lt_upper_bound; lia).
    rewrite <- (IH _ _ H'). destruct (decide (n = 0)%N) as [->|N].
    + rewrite !pretty_N_go_0. change (0 / 10)%N with 0%N. rewrite ?pretty_N_go_0. cbn [String.length].
      rewrite !Nat.sub_0_r. apply zeros_cons.
    + rewrite (pretty_N_go_step n s), (pretty_N_go_step n EmptyString) by lia.
      rewrite (pretty_go_app _ (String _ EmptyString)), length_app_str. cbn [String.length]. do 2 f_equal. lia.
Qed.

Lemma padded_digits w n : (n < 10 ^ N.of_nat w)%N -> 0 < w -> padded w n = digits w n.
Proof.
  intros H W. rewrite <- (app_empty_r (digits w n)), <- zeros_digits by done. unfold padded.
  destruct (decide (n = 0)%N) as [->|N].
  - change (pretty 0%N) with "0". rewrite pretty_N_go_0. cbn [String.length].
    destruct w as [|w]; [lia|]. simpl "-". rewrite Nat.sub_0_r. fold (zeros w).
    rewrite (app_empty_r (zeros (S w))), <- (app_empty_r (zeros (S w))), zeros_cons. done.
  - assert (pretty n = pretty_N_go n EmptyString) as -> by (unfold pretty, pretty_N; by rewrite decide_False). done.
Qed.

Lemma digits_app w w' n m : (m < 10 ^ N.of_nat w')%N ->
  digits (w + w') (n * 10 ^ N.of_nat w' + m) = digits w n +:+ digits w' m.
Proof.
  revert m. induction w' as [|w' IH]; intros m H.
  - assert (m = 0%N) as -> by (simpl in H; lia). simpl. rewrite Nat.add_0_r, app_empty_r. f_equal. simpl. lia.
  - rewrite Nat2N.inj_succ, N.pow_succ_r' in *. rewrite Nat.add_succ_r. simpl.
    assert (m / 10 < 10 ^ N.of_nat w')%N as H' by (apply N.Div0.div_lt_upper_bound; lia).
    rewrite <- app_assoc_str, <- (IH _ H').
    assert (n * (10 * 10 ^ N.of_nat w') + m = m + n * 10 ^ N.of_nat w' * 10)%N as -> by lia.
    rewrite N.div_add, N.Div0.mod_add by done. do 2 f_equal. lia.
Qed.

(** * Comparing *)

(** One comparison, and another where it is undecided. *)
Definition then_compare (a b : comparison) : comparison := match a with Eq => b | c => c end.

Lemma compare_app a b x y : String.length a = String.length b ->
  String.compare (a +:+ x) (b +:+ y) = then_compare (String.compare a b) (String.compare x y).
Proof.
  revert b. induction a as [|c a IH]; intros [|c' b] H; try done. simpl in *. injection H as H.
  rewrite (IH _ H). by destruct (Ascii.compare c c').
Qed.

Lemma compare_refl_app p x y : String.compare (p +:+ x) (p +:+ y) = String.compare x y.
Proof.
  rewrite compare_app by done. assert (String.compare p p = Eq) as ->; [|done].
  induction p as [|c p IH]; [done|]. simpl. unfold Ascii.compare. by rewrite N.compare_refl.
Qed.

Lemma compare_digit a b : (a < 10)%N -> (b < 10)%N ->
  Ascii.compare (pretty_N_char a) (pretty_N_char b) = N.compare a b.
Proof.
  intros A B.
  assert (forallb (fun i => forallb (fun j =>
    bool_decide (Ascii.compare (pretty_N_char (N.of_nat i)) (pretty_N_char (N.of_nat j)) = N.compare (N.of_nat i) (N.of_nat j)))
    (seq 0 10)) (seq 0 10) = true) as F by (vm_compute; reflexivity).
  rewrite forallb_forall in F. specialize (F (N.to_nat a) ltac:(apply in_seq; lia)). rewrite forallb_forall in F.
  specialize (F (N.to_nat b) ltac:(apply in_seq; lia)). apply bool_decide_eq_true in F. by rewrite !N2Nat.id in F.
Qed.

Lemma compare_digits w n m : (n < 10 ^ N.of_nat w)%N -> (m < 10 ^ N.of_nat w)%N ->
  String.compare (digits w n) (digits w m) = N.compare n m.
Proof.
  revert n m. induction w as [|w IH]; intros n m Hn Hm.
  - simpl in *. assert (n = 0%N) as -> by lia. assert (m = 0%N) as -> by lia. done.
  - rewrite Nat2N.inj_succ, N.pow_succ_r' in *. simpl. rewrite compare_app by (by rewrite !digits_length).
    rewrite IH by (apply N.Div0.div_lt_upper_bound; lia). simpl.
    pose proof (N.div_mod n 10 ltac:(lia)). pose proof (N.div_mod m 10 ltac:(lia)).
    pose proof (N.mod_lt n 10 ltac:(lia)). pose proof (N.mod_lt m 10 ltac:(lia)).
    pose proof (N.le_0_l (n mod 10)). pose proof (N.le_0_l (m mod 10)).
    rewrite compare_digit by done.
    destruct (N.compare_spec (n / 10) (m / 10)) as [E|L|G]; simpl.
    + destruct (N.compare_spec (n mod 10) (m mod 10)) as [E'|L'|G']; symmetry.
      * apply N.compare_eq_iff. lia.
      * apply N.compare_lt_iff. lia.
      * apply N.compare_gt_iff. lia.
    + symmetry. apply N.compare_lt_iff. lia.
    + symmetry. apply N.compare_gt_iff. lia.
Qed.

(** * Ids *)

(** The date, the time and the number of an id. *)
Definition stamp (secs : Z) : N * N :=
  (date_key (civil_from_days (secs / 86400)), time_key (secs mod 86400)).

(** The first millisecond of the year 10000. *)
Definition YEAR_10000 : N := 253402300800000.

Section instant.
Context (now_ms : u64) (L : (uval now_ms < YEAR_10000)%N).

Let secs : Z := Z.of_N (uval now_ms) / 1000.

Lemma id_digits seq :
  new_session_id now_ms seq =
  digits 8 (stamp secs).1 +:+ "T" +:+ digits 6 (stamp secs).2 +:+ "Z-" +:+ digits 3 (uval seq mod 1000).
Proof using L.
  unfold new_session_id, format_basic_utc, ymd_hms. fold secs. unfold stamp. cbn [fst snd].
  assert (0 <= secs / 86400 < LAST_DAY)%Z as D.
  { unfold secs, LAST_DAY, YEAR_10000 in *. split; [repeat apply Z.div_pos; lia|].
    apply Z.div_lt_upper_bound; [lia|]. apply Z.div_lt_upper_bound; lia. }
  pose proof (year_four_digits _ D) as Y. destruct (civil_from_days (secs / 86400)) as [[y m] d].
  destruct Y as (Hy & Hm & Hd).
  destruct (time_parts (secs mod 86400)) as (h & mi & s & Eh & Em & Es & _ & Hh & Hmi & Hs).
  { apply Z.mod_pos_bound. lia. }
  unfold time_key, date_key. rewrite Eh, Em, Es.
  assert (uval seq mod 1000 < 1000)%N by (apply N.mod_lt; lia).
  rewrite !padded_digits by (simpl; lia).
  change 8 with (4 + 2 + 2). change 6 with (2 + 2 + 2).
  replace (Z.to_N y * 10000 + m * 100 + d)%N with ((Z.to_N y * 10 ^ N.of_nat 2 + m) * 10 ^ N.of_nat 2 + d)%N by (simpl; lia).
  replace (Z.to_N h * 10000 + Z.to_N mi * 100 + Z.to_N s)%N
    with ((Z.to_N h * 10 ^ N.of_nat 2 + Z.to_N mi) * 10 ^ N.of_nat 2 + Z.to_N s)%N by (simpl; lia).
  rewrite !digits_app by (simpl; lia). rewrite !app_assoc_str. done.
Qed.

Lemma stamp_bounds : ((stamp secs).1 < 10 ^ N.of_nat 8 /\ (stamp secs).2 < 10 ^ N.of_nat 6)%N.
Proof using L.
  assert (0 <= secs / 86400 < LAST_DAY)%Z as D.
  { unfold secs, LAST_DAY, YEAR_10000 in *. split; [repeat apply Z.div_pos; lia|].
    apply Z.div_lt_upper_bound; [lia|]. apply Z.div_lt_upper_bound; lia. }
  pose proof (year_four_digits _ D) as Y. unfold stamp. cbn [fst snd].
  destruct (civil_from_days (secs / 86400)) as [[y m] d].
  destruct (time_parts (secs mod 86400)) as (h & mi & s & Eh & Em & Es & _ & Hh & Hmi & Hs).
  { apply Z.mod_pos_bound. lia. }
  unfold date_key, time_key. rewrite Eh, Em, Es. simpl. lia.
Qed.
End instant.

(** Stamps come in the order of their seconds. *)
Lemma compare_stamps a b : (0 <= a)%Z -> (0 <= b)%Z ->
  then_compare (N.compare (stamp a).1 (stamp b).1) (N.compare (stamp a).2 (stamp b).2) = Z.compare a b.
Proof.
  assert (forall a b, (0 <= a)%Z -> (a < b)%Z ->
    then_compare (N.compare (stamp a).1 (stamp b).1) (N.compare (stamp a).2 (stamp b).2) = Lt) as G.
  { clear a b. intros a b Ha Hl. unfold stamp. cbn [fst snd].
    pose proof (Z.div_mod a 86400 ltac:(lia)). pose proof (Z.div_mod b 86400 ltac:(lia)).
    pose proof (Z.mod_pos_bound a 86400 ltac:(lia)). pose proof (Z.mod_pos_bound b 86400 ltac:(lia)).
    assert (0 <= a / 86400)%Z as P by (apply Z.div_pos; lia).
    destruct (proj1 (Z.lt_eq_cases _ _) (Z.div_le_mono a b 86400 ltac:(lia) ltac:(lia))) as [D|D].
    - by rewrite (proj2 (N.compare_lt_iff _ _) (civil_mono _ _ (conj P D))).
    - rewrite D, N.compare_refl. simpl. apply N.compare_lt_iff, time_mono; lia. }
  intros Ha Hb. destruct (Z.compare_spec a b) as [->|L|L].
  - by rewrite !N.compare_refl.
  - by apply G.
  - specialize (G b a Hb L). rewrite (N.compare_antisym (stamp b).1), (N.compare_antisym (stamp b).2).
    destruct (N.compare (stamp b).1 (stamp a).1), (N.compare (stamp b).2 (stamp a).2); done.
Qed.

Lemma digits_id_bytes w n : all_bytes is_id_byte (digits w n) = true.
Proof.
  assert (forall a b, all_bytes is_id_byte (a +:+ b) = all_bytes is_id_byte a && all_bytes is_id_byte b) as App.
  { induction a as [|c a IH]; intros b; [done|]. simpl. by rewrite IH, andb_assoc. }
  revert n. induction w as [|w IH]; intros n; simpl; [done|]. rewrite App, IH. simpl. rewrite andb_true_r.
  assert (n mod 10 < 10)%N as B by (apply N.mod_lt; lia). revert B. generalize (n mod 10)%N. intros d B.
  assert (forallb (fun i => is_id_byte (pretty_N_char (N.of_nat i))) (seq 0 10) = true) as F by (vm_compute; reflexivity).
  rewrite forallb_forall in F. specialize (F (N.to_nat d) ltac:(apply in_seq; lia)). by rewrite N2Nat.id in F.
Qed.

(** C20: Ids of sessions sort by the second their session started in, and in one second by the counter modulo
    a thousand, until the year 10000; so two ids are equal only for the same second and the same remainder,
    and every id passes the check that keeps its file in the directory. The date in an id is the calendar's:
    day 0 is the first of January 1970, and each day's date is the Gregorian day after the one before. *)
Theorem session_ids_sort (now_ms now_ms' seq seq' : u64)
    (L : (uval now_ms < YEAR_10000)%N) (L' : (uval now_ms' < YEAR_10000)%N) :
  String.compare (new_session_id now_ms seq) (new_session_id now_ms' seq') =
    then_compare (N.compare (uval now_ms / 1000) (uval now_ms' / 1000))
      (N.compare (uval seq mod 1000) (uval seq' mod 1000)) /\
  validate_id (new_session_id now_ms seq) = inl tt /\
  civil_from_days 0 = (1970%Z, 1%N, 1%N) /\
  (forall days, (0 <= days)%Z -> civil_from_days (days + 1) = next_day (civil_from_days days)).
Proof.
  split_and!; [| |done|exact civil_next].
  - rewrite !id_digits by done. destruct (stamp_bounds _ L) as [B1 B2], (stamp_bounds _ L') as [B1' B2'].
    rewrite compare_app by (by rewrite !digits_length). rewrite (compare_digits 8) by done.
    rewrite compare_refl_app, compare_app by (by rewrite !digits_length). rewrite (compare_digits 6) by done.
    rewrite compare_refl_app, (compare_digits 3) by (by apply N.mod_lt).
    assert (N.compare (uval now_ms / 1000) (uval now_ms' / 1000) =
            Z.compare (Z.of_N (uval now_ms) / 1000) (Z.of_N (uval now_ms') / 1000)) as ->.
    { change 1000%Z with (Z.of_N 1000). by rewrite <- !N2Z.inj_div, <- N2Z.inj_compare. }
    rewrite <- compare_stamps by (apply Z.div_pos; lia).
    by destruct (N.compare (stamp _).1 _), (N.compare (stamp _).2 _).
  - unfold validate_id. assert (id_valid (new_session_id now_ms seq) = true) as ->; [|done].
    rewrite id_digits by done. unfold id_valid. apply andb_true_iff. split; [apply andb_true_iff; split|].
    + apply negb_true_iff, String.eqb_neq. intros E. apply (f_equal String.length) in E.
      rewrite length_app_str, digits_length in E. done.
    + rewrite !length_app_str, !digits_length. done.
    + assert (forall a b, all_bytes is_id_byte (a +:+ b) = all_bytes is_id_byte a && all_bytes is_id_byte b) as App.
      { induction a as [|c a IH]; intros b; [done|]. simpl. by rewrite IH, andb_assoc. }
      by rewrite !App, !digits_id_bytes.
Qed.

(** * The transcript *)

(** What an event shows, text a byte at a time. *)
Inductive atom := Said (c : ascii) | Thought (c : ascii) | Happened (event : SessionEvent.t).

Definition atoms (event : SessionEvent.t) : list atom :=
  match event with
  | SessionEvent.AssistantText text => map Said (String.list_ascii_of_string text)
  | SessionEvent.Reasoning text => map Thought (String.list_ascii_of_string text)
  | event => [Happened event]
  end.

(** What a transcript is to keep of the event of a run. *)
Definition kept (event : AgentEvent.t) : list atom :=
  match event with
  | AgentEvent.TurnStarted turn => [Happened (SessionEvent.TurnStarted turn)]
  | AgentEvent.AssistantText text => map Said (String.list_ascii_of_string text)
  | AgentEvent.Reasoning text => map Thought (String.list_ascii_of_string text)
  | AgentEvent.ToolStarted name args => [Happened (SessionEvent.ToolStarted name args)]
  | AgentEvent.ToolFinished name ok output => [Happened (SessionEvent.ToolFinished name ok output)]
  | AgentEvent.Interrupted reason => [Happened (SessionEvent.Interrupted reason)]
  | AgentEvent.Usage _ _ _ _ | AgentEvent.ToolCallDelta _ _ => []
  | AgentEvent.Done reason => [Happened (SessionEvent.Done reason)]
  end.

(** Two entries that should have been one. *)
Definition mergeable (a b : SessionEvent.t) : Prop :=
  match a, b with
  | SessionEvent.AssistantText _, SessionEvent.AssistantText _
  | SessionEvent.Reasoning _, SessionEvent.Reasoning _ => True
  | _, _ => False
  end.

Definition coalesced (events : list SessionEvent.t) : Prop :=
  forall before a b rest, events = before ++ a :: b :: rest -> ~ mergeable a b.

Lemma split_last_Some events before last :
  SessionRecord.split_last events = Some (before, last) <-> events = before ++ [last].
Proof.
  unfold SessionRecord.split_last. destruct events as [|x l _] using rev_ind; [by destruct before|].
  rewrite rev_app_distr. simpl. rewrite rev_involutive. split; [by intros [= -> ->]|].
  intros [-> ->]%app_inj_tail. done.
Qed.

Lemma split_last_None events : SessionRecord.split_last events = None -> events = [].
Proof. unfold SessionRecord.split_last. destruct events using rev_ind; [done|]. by rewrite rev_app_distr. Qed.

Lemma list_ascii_app a b : String.list_ascii_of_string (a +:+ b) = String.list_ascii_of_string a ++ String.list_ascii_of_string b.
Proof. induction a as [|c a IH]; simpl; [done|]. by rewrite IH. Qed.

Lemma coalesced_snoc events event : coalesced events ->
  (forall before last, events = before ++ [last] -> ~ mergeable last event) -> coalesced (events ++ [event]).
Proof.
  intros C N before a b rest E. destruct rest as [|x rest _] using rev_ind.
  - change (before ++ [a; b]) with (before ++ [a] ++ [b]) in E. rewrite app_assoc in E.
    apply app_inj_tail in E as [-> ->]. by eapply N.
  - assert (events ++ [event] = (before ++ a :: b :: rest) ++ [x]) as E' by (by rewrite E, <- app_assoc).
    apply app_inj_tail in E' as [-> _]. by eapply C.
Qed.

Lemma coalesced_last before last last' : coalesced (before ++ [last]) ->
  (forall a, mergeable a last' <-> mergeable a last) -> coalesced (before ++ [last']).
Proof.
  intros C M. apply coalesced_snoc.
  - intros before' a b rest ->. apply (C before' a b (rest ++ [last])). by rewrite <- app_assoc.
  - intros before' a -> Ma%M. apply (C before' a last []); [by rewrite <- app_assoc|done].
Qed.

Lemma pushed_spec events event : coalesced events ->
  coalesced (SessionRecord.pushed events event) /\
  concat (map atoms (SessionRecord.pushed events event)) = concat (map atoms events) ++ kept event.
Proof.
  intros C.
  assert (forall e : SessionEvent.t, (forall a, ~ mergeable a e) -> atoms e = kept event ->
    coalesced (events ++ [e]) /\ concat (map atoms (events ++ [e])) = concat (map atoms events) ++ kept event) as New.
  { intros e N E. split; [apply coalesced_snoc; [done|]; intros; apply N|].
    by rewrite map_app, concat_app, <- E; simpl; rewrite app_nil_r. }
  assert (forall e : SessionEvent.t, (forall before last, events = before ++ [last] -> ~ mergeable last e) ->
    atoms e = kept event ->
    coalesced (events ++ [e]) /\ concat (map atoms (events ++ [e])) = concat (map atoms events) ++ kept event) as Fresh.
  { intros e N E. split; [by apply coalesced_snoc|]. by rewrite map_app, concat_app, <- E; simpl; rewrite app_nil_r. }
  assert (forall before (last e : SessionEvent.t), events = before ++ [last] -> (forall a, mergeable a e <-> mergeable a last) ->
    atoms e = atoms last ++ kept event ->
    coalesced (before ++ [e]) /\ concat (map atoms (before ++ [e])) = concat (map atoms events) ++ kept event) as Merged.
  { intros before last e -> M E. split; [by eapply coalesced_last|].
    rewrite !map_app, !concat_app. simpl. by rewrite E, !app_nil_r, app_assoc. }
  destruct event as [turn|text|text|name args|name ok output|reason|? ? ? ?|? ?|reason]; simpl;
    try (by apply New; [intros [] []|]).
  - destruct (SessionRecord.split_last events) as [[before last]|] eqn:S.
    + apply split_last_Some in S.
      destruct last as [|prev| | | | |]; try (apply Fresh; [|done]; intros b' l' E; rewrite S in E;
        apply app_inj_tail in E as [_ <-]; by intros []).
      eapply Merged; [exact S| |].
      * intros []; done.
      * simpl. by rewrite list_ascii_app, map_app.
    + apply split_last_None in S. apply Fresh; [|done]. intros b' l' E. rewrite S in E. by destruct b'.
  - destruct (SessionRecord.split_last events) as [[before last]|] eqn:S.
    + apply split_last_Some in S.
      destruct last as [| |prev| | | |]; try (apply Fresh; [|done]; intros b' l' E; rewrite S in E;
        apply app_inj_tail in E as [_ <-]; by intros []).
      eapply Merged; [exact S| |].
      * intros []; done.
      * simpl. by rewrite list_ascii_app, map_app.
    + apply split_last_None in S. apply Fresh; [|done]. intros b' l' E. rewrite S in E. by destruct b'.
  - by rewrite app_nil_r.
  - by rewrite app_nil_r.
Qed.

(** A transcript keeps what a run showed, in order and byte by byte, whatever chunks its text came in; and
    no two entries of one kind of text are next to each other. *)
Theorem transcript_keeps (r : SessionRecord.t) (events : list AgentEvent.t) (C : coalesced r.(SessionRecord.events)) :
  let r' := foldl SessionRecord.push_event r events in
  coalesced r'.(SessionRecord.events) /\
  concat (map atoms r'.(SessionRecord.events)) =
    concat (map atoms r.(SessionRecord.events)) ++ concat (map kept events).
Proof.
  revert r C. induction events as [|event events IH]; intros r C; simpl; [by rewrite app_nil_r|].
  destruct (pushed_spec _ event C) as [C' E].
  destruct (IH (SessionRecord.push_event r event) C') as [C'' E']. split; [done|].
  by rewrite E'; simpl; rewrite E, app_assoc.
Qed.

(** * The note *)

(** A note never exceeds the limit, and one within it is kept as it is. *)
Lemma cap_note_spec note :
  count_chars (cap_note note).1 <= CHECKPOINT_MAX_CHARS /\
  (count_chars note <= CHECKPOINT_MAX_CHARS -> cap_note note = (note, false)).
Proof.
  unfold cap_note. destruct (Nat.leb_spec (count_chars note) CHECKPOINT_MAX_CHARS) as [L|L]; [done|]. split; [|lia].
  cbn [fst]. rewrite count_chars_app. pose proof (count_take_chars (CHECKPOINT_MAX_CHARS - count_chars TRUNCATED_MARKER) note) as T.
  assert (count_chars TRUNCATED_MARKER <= CHECKPOINT_MAX_CHARS) by (by apply Nat.leb_le; vm_compute). lia.
Qed.

Definition long_note : string := String.concat EmptyString (repeat "a" 1500).

(** The mark of a restored note is lost when the note is near the limit, for the mark is put after it and
    then cut off. *)
Lemma staleness_marker_cut : 
  let r := SessionRecord.set_checkpoint (SessionRecord.begin (wrap 64 0) (wrap 64 0) "p" "m" "t") (Some long_note) in
  contains_str CHECKPOINT_STALENESS_MARKER (new_checkpoint (SessionRecord.restore_with_staleness r)) = false.
Proof. vm_compute. reflexivity. Qed.

Lemma session_ids_sort_witness :
  String.compare (new_session_id (wrap 64 1750248000000) (wrap 64 5)) (new_session_id (wrap 64 1750248001000) (wrap 64 2)) = Lt /\
  new_session_id (wrap 64 1750248000000) (wrap 64 5) = "20250618T120000Z-005".
Proof.
  split; [|vm_compute; reflexivity].
  rewrite (proj1 (session_ids_sort (wrap 64 1750248000000) (wrap 64 1750248001000) (wrap 64 5) (wrap 64 2)
    ltac:(vm_compute; reflexivity) ltac:(vm_compute; reflexivity))).
  vm_compute. reflexivity.
Defined.

(** * The store *)

(** A record is written wherever its id points, though no other operation takes such an id; and a record
    that is loaded keeps the id its file has inside, whatever id was asked for. *)
Lemma written_outside :
  let r := SessionRecord.Mk SCHEMA_VERSION "../../x" (wrap 64 0) None "p" "m" "t" [] None (wrap 32 0) [] None in
  (exec [] (SessionStore.write "d" r) Disk.empty).2 = inl ("d", "../../x.json") /\
  SessionStore.path_for "d" r.(SessionRecord.id) =
    inr "invalid session id '../../x': use only letters, digits, '-' and '_'" /\
  (exec [] (run! _ := fs_write ("d", "a.json") (to_string_pretty (ser r)) in SessionStore.load "d" "a")
     (Disk.Mk {["d"]} ∅ ∅ 0)).2 = inl r.
Proof. vm_compute. done. Qed.
