(* ===== verification/Auth.v ===== *)
(** Credentials ([nerve-agent/src/auth/]): the authorization-code login with its callback, what a token
    response makes of a credential, refreshing one only once however many callers find it expired, and
    what the daemon tells its clients of them ([nerve-workstation/src/auth/]). *)
From stdpp Require Import gmap strings.
From S2P Require Import Prelude Text Json FlowDefs EditText Tape History Disk Wire Transport Jobs.
Open Scope nerve_scope.

(** * What the packages give *)

Module Url.
Record t := Mk {
  scheme : string;
  username : string;
  password : option string;
  query : option string;
  host : option string;
}.
End Url.

(** [form_urlencoded::parse], [URL_SAFE_NO_PAD.decode], [Url::parse], [Url::parse] with the pairs appended to
    the query, or why it is no URL, and [to_lowercase]. *)
Class AuthPackages := {
  form_parse : string -> list (string * string);
  base64_decode : string -> option bytes;
  parse_url : string -> option Url.t;
  with_query : string -> list (string * string) -> string + string;
  to_lowercase : string -> string;
}.

(** * The callback ([oauth.rs]) *)

Module OAuthCallback.
Record t := Mk {
  code : option string;
  state : option string;
  error : option string;
  error_description : option string;
  manual_paste : bool;
}.
End OAuthCallback.

Module LoginStart.
Record t := Mk {
  provider : ProviderId.t;
  authorize_url : string;
  redirect_uri : string;
  state : string;
  verifier : string;
  provider_data : json;
}.
End LoginStart.

(** [str::split_once] on a character, and what begins at its first occurrence. *)
Definition from_char (c : ascii) (s : string) : string :=
  match split_once (String c EmptyString) s with Some (_, rest) => String c rest | None => s end.

Section oauth.
Context `{AuthPackages, SerdeText}.

(** Of a key that is repeated, a map built from the pairs keeps the last. *)
Definition last_param (key : string) (params : list (string * string)) : option string :=
  snd <$> find (fun kv => String.eqb key kv.1) (rev params).

Definition parse_callback_target (target : string) (manual_paste : bool) : option OAuthCallback.t :=
  '(_, query) ← split_once "?" target;
  let params := form_parse query in
  Some (OAuthCallback.Mk (last_param "code" params) (last_param "state" params) (last_param "error" params)
          (last_param "error_description" params) manual_paste).

Definition bare_code (input : string) : OAuthCallback.t :=
  let '(code, state) :=
    match split_once "#" input with
    | Some (code, state) => if String.eqb state EmptyString then (input, None) else (code, Some state)
    | None => (input, None)
    end in
  OAuthCallback.Mk (Some code) state None None true.

Definition parse_pasted_callback (input : string) : OAuthCallback.t :=
  if contains_str "code=" input || contains_str "error=" input then
    default (bare_code input) (parse_callback_target (from_char "?" input) true)
  else bare_code input.

(** [validate_callback]: [None] when it is accepted. *)
Definition validate_callback (cb : OAuthCallback.t) (expected_state : string) : option AgentError.t :=
  match cb.(OAuthCallback.error) with
  | Some error =>
      Some (AgentError.Auth ("authorization failed: " +:+ default error cb.(OAuthCallback.error_description)))
  | None =>
      if bool_decide (cb.(OAuthCallback.state) = Some expected_state) then None
      else if cb.(OAuthCallback.manual_paste) && bool_decide (cb.(OAuthCallback.state) = None) then None
      else Some (AgentError.Auth "authorization failed: state mismatch")
  end.

(** A text that is not blank, trimmed. *)
Definition nonblank (s : string) : option string :=
  let s := trim s in if String.eqb s EmptyString then None else Some s.

Definition require_code (cb : OAuthCallback.t) : string + AgentError.t :=
  match cb.(OAuthCallback.code) ≫= nonblank with
  | Some code => inl code
  | None => inr (AgentError.Auth "authorization failed: missing authorization code")
  end.

Definition ensure_login_provider (start : LoginStart.t) (provider : ProviderId.t) : option AgentError.t :=
  if decide (start.(LoginStart.provider) = provider) then None
  else Some (AgentError.Auth ("login was started for " +:+ ProviderId.as_str start.(LoginStart.provider) +:+
                              ", not " +:+ ProviderId.as_str provider)).

Definition validated_code (start : LoginStart.t) (cb : OAuthCallback.t) : string + AgentError.t :=
  match validate_callback cb start.(LoginStart.state) with
  | Some err => inr err
  | None => require_code cb
  end.

(** ** The loopback server *)

(** What [handle_callback_request] answers, and the callback if it takes it; [method] is the request's. *)
Definition callback_response (method target path expected_state : string) : N * option OAuthCallback.t :=
  if String.eqb method "OPTIONS" then (204%N, None)
  else if negb (String.eqb method "GET") then (405%N, None)
  else if negb (bool_decide (head (split_on "?" target) = Some path)) then (404%N, None)
  else
    match parse_callback_target target false with
    | None => (400%N, None)
    | Some cb =>
        if bool_decide (cb.(OAuthCallback.error) = None) && bool_decide (cb.(OAuthCallback.code) = None)
        then (400%N, None)
        else if negb (bool_decide (cb.(OAuthCallback.state) = Some expected_state)) then (400%N, None)
        else (200%N, Some cb)
    end.

End oauth.

(** What one turn of the server's loop meets. *)
Module Arrival.
Inductive t :=
  | Cancelled
  | Expired
  | Silent
  | Broken (err : string)
  | Request (method target : string) (answered : option string).
End Arrival.

Section server.
Context `{AuthPackages, SerdeText}.

(** [wait_for_callback]: [None] while it waits. A response that cannot be written ends the wait with its
    error. *)
Fixpoint wait_for_callback (path expected_state : string) (arrivals : list Arrival.t)
    : option (OAuthCallback.t + AgentError.t) :=
  match arrivals with
  | [] => None
  | Arrival.Cancelled :: _ => Some (inr AgentError.Cancelled)
  | Arrival.Expired :: _ => Some (inr (AgentError.Auth "timed out waiting for OAuth callback"))
  | Arrival.Silent :: arrivals => wait_for_callback path expected_state arrivals
  | Arrival.Broken err :: _ =>
      Some (inr (AgentError.Auth ("failed while waiting for OAuth callback: " +:+ err)))
  | Arrival.Request method target failed :: arrivals =>
      match failed, callback_response method target path expected_state with
      | Some err, _ => Some (inr (AgentError.Auth ("failed to write OAuth callback response: " +:+ err)))
      | None, (_, Some cb) => Some (inl cb)
      | None, (_, None) => wait_for_callback path expected_state arrivals
      end
  end.

(** * Token responses ([oauth.rs], [strategy.rs]) *)

Definition EXPIRY_SKEW_SECS : N := 5 * 60.

(** [saturating_add], then [saturating_sub]. *)
Definition expires_at (now_unix expires_in : u64) (skew_secs : N) : u64 :=
  wrap 64 (N.min (uval now_unix + uval expires_in) (2 ^ 64 - 1) - skew_secs).

Definition required_str (value : json) (key label : string) : string + AgentError.t :=
  match (value_get key value ≫= as_str) ≫= nonblank with
  | Some s => inl s
  | None => inr (AgentError.Parse (label +:+ " response missing `" +:+ key +:+ "`"))
  end.

Definition optional_str (value : json) (key : string) : option string :=
  (value_get key value ≫= as_str) ≫= nonblank.

(** A string that is not empty; blanks count. *)
Definition nonempty (s : string) : option string := if String.eqb s EmptyString then None else Some s.

Definition decode_jwt_claims (token : string) : option json :=
  payload ← split_on "." token !! 1;
  bytes ← base64_decode payload;
  from_str bytes.

Definition OPENAI_JWT_AUTH_CLAIM : string := "https://api.openai.com/auth".
Definition OPENAI_JWT_PROFILE_CLAIM : string := "https://api.openai.com/profile".
Definition OPENAI_CODEX_BASE_URL : string := "https://chatgpt.com/backend-api/codex".

Definition token_profile (access_token : string) : option string * option string :=
  match decode_jwt_claims access_token with
  | None => (None, None)
  | Some claims =>
      (((value_get OPENAI_JWT_AUTH_CLAIM claims ≫= value_get "chatgpt_account_id") ≫= as_str) ≫= nonempty,
       ((fun email => to_lowercase (trim email)) <$>
          ((value_get OPENAI_JWT_PROFILE_CLAIM claims ≫= value_get "email") ≫= as_str)) ≫= nonempty)
  end.

Notation "'try_r!' x := m 'in' k" := (match m with inl x => k | inr e => inr e end)
  (at level 10, x pattern, m at level 200, k at level 200).

Definition expires_in_of (value : json) (label : string) : u64 + AgentError.t :=
  match value_get "expires_in" value ≫= as_u64 with
  | Some n => inl n
  | None => inr (AgentError.Parse (label +:+ " token response missing `expires_in`"))
  end.

(** [AnthropicAuth::credential_from_token]. *)
Definition anthropic_credential (now_unix : u64) (value : json) : Credential.t + AgentError.t :=
  try_r! access_token := required_str value "access_token" "Anthropic token" in
  let refresh_token := optional_str value "refresh_token" in
  try_r! expires_in := expires_in_of value "Anthropic" in
  let account_id := ((value_get "account" value ≫= value_get "uuid") ≫= as_str) ≫= nonempty in
  inl (Credential.Mk ProviderId.Anthropic AuthMode.Oauth access_token refresh_token
         (Some (expires_at now_unix expires_in EXPIRY_SKEW_SECS)) account_id
         (ProviderId.default_base_url ProviderId.Anthropic)).

(** [OpenAiAuth::credential_from_token]. *)
Definition openai_credential (now_unix : u64) (value : json) (require_account : bool)
    : Credential.t + AgentError.t :=
  try_r! access_token := required_str value "access_token" "OpenAI token" in
  let refresh_token := optional_str value "refresh_token" in
  try_r! expires_in := expires_in_of value "OpenAI" in
  let account_id := (token_profile access_token).1 in
  if require_account && bool_decide (account_id = None) then
    inr (AgentError.Auth "OpenAI token did not contain a chatgpt_account_id")
  else
    inl (Credential.Mk ProviderId.OpenAi AuthMode.Oauth access_token refresh_token
           (Some (expires_at now_unix expires_in EXPIRY_SKEW_SECS)) account_id OPENAI_CODEX_BASE_URL).

(** [XaiAuth::credential_from_token]. *)
Definition xai_credential (now_unix : u64) (value : json) : Credential.t + AgentError.t :=
  try_r! access_token := required_str value "access_token" "xAI token" in
  let refresh_token := optional_str value "refresh_token" in
  try_r! expires_in := expires_in_of value "xAI" in
  inl (Credential.Mk ProviderId.Xai AuthMode.Oauth access_token refresh_token
         (Some (expires_at now_unix expires_in EXPIRY_SKEW_SECS)) None
         (ProviderId.default_base_url ProviderId.Xai)).

Definition validate_xai_endpoint (endpoint field : string) : option AgentError.t :=
  let invalid := Some (AgentError.Auth ("invalid xAI " +:+ field +:+ ": " +:+ endpoint)) in
  match parse_url endpoint with
  | None => invalid
  | Some url =>
      if negb (String.eqb url.(Url.scheme) "https") then invalid
      else if negb (String.eqb url.(Url.username) EmptyString) || bool_decide (is_Some url.(Url.password)) then invalid
      else if bool_decide (is_Some url.(Url.query)) then invalid
      else
        match lower <$> url.(Url.host) with
        | None => invalid
        | Some host =>
            if String.eqb host "x.ai" || bool_decide (is_Some (strip_suffix ".x.ai" host)) then None else invalid
        end
  end.
End server.

(** * Talking to the token endpoint *)

Module TokenRequest.
Inductive t :=
  | PostJson (url : string) (headers : list (string * string)) (body : json)
  | PostForm (url : string) (form : list (string * string)).
Definition url (r : t) : string := match r with PostJson url _ _ | PostForm url _ => url end.
End TokenRequest.

(** What a try of the HTTP client gives; a body that cannot be read leaves its header. *)
Module TokenAnswer.
Inductive t :=
  | Failed (message : string)
  | Unreadable (retry_after : option string) (message : string)
  | Answered (status : N) (retry_after : option string) (text : string).
End TokenAnswer.

Section token.
Context `{AuthPackages, SerdeText} (parse_error : string -> string).

Definition token_response_attempt (answer : TokenAnswer.t) : Attempt.t json :=
  match answer with
  | TokenAnswer.Failed message => Attempt.Retry (AgentError.Http message) None
  | TokenAnswer.Unreadable retry_after message =>
      Attempt.Retry (AgentError.Http message) (retry_after_of retry_after)
  | TokenAnswer.Answered status retry_after text =>
      if ((200 <=? status) && (status <? 300))%N then
        match from_str text with
        | Some value => Attempt.Done value
        | None => Attempt.Fatal (AgentError.Parse
            ("invalid JSON response: " +:+ parse_error text +:+ ": " +:+ text))
        end
      else
        let error := AgentError.Http ("HTTP " +:+ pretty status +:+ ": " +:+ text) in
        if is_retryable_status status then Attempt.Retry error (retry_after_of retry_after)
        else Attempt.Fatal error
  end.

(** [post_token_json_cancel] and [post_token_form_cancel]: what the server answers to each try is given by
    the request and the number of the try. *)
Definition post_token (cancelled : nat -> bool) (server : TokenRequest.t -> nat -> TokenAnswer.t)
    (request : TokenRequest.t) : json + AgentError.t :=
  (with_retry cancelled (fun i => token_response_attempt (server request i)) RetryPolicy.default Clock.start).1.
End token.

Definition ANTHROPIC_TOKEN_URL : string := "https://api.anthropic.com/v1/oauth/token".
Definition ANTHROPIC_CLIENT_ID : string := "9d1c250a-e61b-44d9-88ed-5944d1962f5e".
Definition ANTHROPIC_BETA : string := "oauth-2025-04-20".
Definition OPENAI_TOKEN_URL : string := "https://auth.openai.com/oauth/token".
Definition OPENAI_CLIENT_ID : string := "app_EMoamEEZ73f0CkXaXp7hrann".
Definition XAI_CLIENT_ID : string := "b1a00492-073a-47ea-816f-4c329264a828".

Notation "'try_r!' x := m 'in' k" := (match m with inl x => k | inr e => inr e end)
  (at level 10, x pattern, m at level 200, k at level 200).
Notation "'guard_r!' m 'in' k" := (match m with None => k | Some e => inr e end)
  (at level 10, m at level 200, k at level 200).

(** ** Starting a login *)

(** [Pkce] with the random texts of a start; [nonce] is xAI's. *)
Module Pkce.
Record t := Mk { verifier : string; challenge : string; state : string; nonce : string }.
End Pkce.

Module Loopback.
Record t := Mk { host : string; port : N; path : string; allow_fallback : bool }.
Definition loopback (provider : ProviderId.t) : t :=
  match provider with
  | ProviderId.Anthropic => Mk "localhost" 54545 "/callback" true
  | ProviderId.OpenAi => Mk "localhost" 1455 "/auth/callback" false
  | ProviderId.Xai => Mk "127.0.0.1" 56121 "/callback" false
  end.
End Loopback.

Definition default_redirect_uri (loopback : Loopback.t) : string :=
  "http://" +:+ loopback.(Loopback.host) +:+ ":" +:+ pretty loopback.(Loopback.port) +:+ loopback.(Loopback.path).

Definition ANTHROPIC_SCOPES : string :=
  "org:create_api_key user:profile user:inference user:sessions:claude_code user:mcp_servers user:file_upload".
Definition OPENAI_SCOPE : string := "openid profile email offline_access api.connectors.read api.connectors.invoke".
Definition XAI_SCOPE : string := "openid profile email offline_access grok-cli:access api:access".

(** The pairs of an authorization URL. *)
Definition anthropic_query (redirect_uri : string) (pkce : Pkce.t) : list (string * string) :=
  [("code", "true"); ("client_id", ANTHROPIC_CLIENT_ID); ("response_type", "code"); ("redirect_uri", redirect_uri);
   ("scope", ANTHROPIC_SCOPES); ("code_challenge", pkce.(Pkce.challenge)); ("code_challenge_method", "S256");
   ("state", pkce.(Pkce.state))].

Definition openai_query (redirect_uri : string) (pkce : Pkce.t) : list (string * string) :=
  [("response_type", "code"); ("client_id", OPENAI_CLIENT_ID); ("redirect_uri", redirect_uri);
   ("scope", OPENAI_SCOPE); ("code_challenge", pkce.(Pkce.challenge)); ("code_challenge_method", "S256");
   ("state", pkce.(Pkce.state)); ("id_token_add_organizations", "true"); ("codex_cli_simplified_flow", "true");
   ("originator", "nerve")].

Definition xai_query (redirect_uri : string) (pkce : Pkce.t) : list (string * string) :=
  [("response_type", "code"); ("client_id", XAI_CLIENT_ID); ("redirect_uri", redirect_uri); ("scope", XAI_SCOPE);
   ("code_challenge", pkce.(Pkce.challenge)); ("code_challenge_method", "S256"); ("state", pkce.(Pkce.state));
   ("nonce", pkce.(Pkce.nonce)); ("plan", "generic"); ("referrer", "nerve")].

(** The code and the state sent to Anthropic. *)
Definition anthropic_code_state (raw_code default_state : string) : string * string :=
  match split_once "#" raw_code with
  | Some (code, fragment) => if String.eqb fragment EmptyString then (raw_code, default_state) else (code, fragment)
  | None => (raw_code, default_state)
  end.

(** The three strategies. [post] is [post_token]; [discovered] the discovery document of xAI, or why there is
    none. *)
Section strategies.
Context `{AuthPackages, SerdeText} (now_unix : u64) (post : TokenRequest.t -> json + AgentError.t)
  (discovered : json + AgentError.t).

Definition make_login_start (provider : ProviderId.t) (redirect_uri : string) (pkce : Pkce.t) (endpoint : string)
    (query : list (string * string)) (provider_data : json) : LoginStart.t + AgentError.t :=
  match with_query endpoint query with
  | inr err => inr (AgentError.Auth err)
  | inl url => inl (LoginStart.Mk provider url redirect_uri pkce.(Pkce.state) pkce.(Pkce.verifier) provider_data)
  end.

(** The endpoints of xAI's discovery document, each pinned to the provider's own host. *)
Definition xai_endpoints : string * string + AgentError.t :=
  try_r! value := discovered in
  try_r! authorization_endpoint := required_str value "authorization_endpoint" "xAI discovery" in
  try_r! token_endpoint := required_str value "token_endpoint" "xAI discovery" in
  guard_r! validate_xai_endpoint authorization_endpoint "authorization_endpoint" in
  guard_r! validate_xai_endpoint token_endpoint "token_endpoint" in
  inl (authorization_endpoint, token_endpoint).

(** [AuthStrategy::start]. *)
Definition start_login (provider : ProviderId.t) (redirect_uri : string) (pkce : Pkce.t)
    : LoginStart.t + AgentError.t :=
  match provider with
  | ProviderId.Anthropic =>
      make_login_start provider redirect_uri pkce "https://claude.ai/oauth/authorize"
        (anthropic_query redirect_uri pkce) JNull
  | ProviderId.OpenAi =>
      make_login_start provider redirect_uri pkce "https://auth.openai.com/oauth/authorize"
        (openai_query redirect_uri pkce) JNull
  | ProviderId.Xai =>
      try_r! endpoints := xai_endpoints in
      make_login_start provider redirect_uri pkce endpoints.1 (xai_query redirect_uri pkce)
        (JObj [("token_endpoint", JStr endpoints.2)])
  end.

Definition anthropic_complete (start : LoginStart.t) (cb : OAuthCallback.t) : Credential.t + AgentError.t :=
  guard_r! ensure_login_provider start ProviderId.Anthropic in
  try_r! raw_code := validated_code start cb in
  let '(code, state) := anthropic_code_state raw_code start.(LoginStart.state) in
  try_r! value := post (TokenRequest.PostJson ANTHROPIC_TOKEN_URL []
    (JObj [("grant_type", JStr "authorization_code"); ("client_id", JStr ANTHROPIC_CLIENT_ID);
           ("code", JStr code); ("state", JStr state);
           ("redirect_uri", JStr start.(LoginStart.redirect_uri));
           ("code_verifier", JStr start.(LoginStart.verifier))])) in
  anthropic_credential now_unix value.

Definition openai_complete (start : LoginStart.t) (cb : OAuthCallback.t) : Credential.t + AgentError.t :=
  guard_r! ensure_login_provider start ProviderId.OpenAi in
  try_r! code := validated_code start cb in
  try_r! value := post (TokenRequest.PostForm OPENAI_TOKEN_URL
    [("grant_type", "authorization_code"); ("client_id", OPENAI_CLIENT_ID); ("code", code);
     ("code_verifier", start.(LoginStart.verifier)); ("redirect_uri", start.(LoginStart.redirect_uri))]) in
  openai_credential now_unix value true.

Definition xai_complete (start : LoginStart.t) (cb : OAuthCallback.t) : Credential.t + AgentError.t :=
  guard_r! ensure_login_provider start ProviderId.Xai in
  match value_get "token_endpoint" start.(LoginStart.provider_data) ≫= as_str with
  | None => inr (AgentError.Auth "xAI login state missing token_endpoint")
  | Some token_endpoint =>
      guard_r! validate_xai_endpoint token_endpoint "token_endpoint" in
      try_r! code := validated_code start cb in
      try_r! value := post (TokenRequest.PostForm token_endpoint
        [("grant_type", "authorization_code"); ("client_id", XAI_CLIENT_ID); ("code", code);
         ("redirect_uri", start.(LoginStart.redirect_uri)); ("code_verifier", start.(LoginStart.verifier))]) in
      try_r! cred := xai_credential now_unix value in
      if bool_decide (cred.(Credential.refresh_token) = None)
      then inr (AgentError.Auth "xAI token exchange response missing refresh_token")
      else inl cred
  end.

Definition complete (start : LoginStart.t) (cb : OAuthCallback.t) : Credential.t + AgentError.t :=
  match start.(LoginStart.provider) with
  | ProviderId.Anthropic => anthropic_complete start cb
  | ProviderId.OpenAi => openai_complete start cb
  | ProviderId.Xai => xai_complete start cb
  end.

(** The token to refresh by, kept when the server sends no other. *)
Definition stored_refresh_token (cred : Credential.t) (name : string) : string + AgentError.t :=
  match cred.(Credential.refresh_token) ≫= nonempty with
  | Some token => inl token
  | None => inr (AgentError.Auth (name +:+ " credential has no refresh_token"))
  end.

Definition or_keep (cred : Credential.t) (refresh_token account_id : option string) : Credential.t :=
  Credential.Mk cred.(Credential.provider) cred.(Credential.mode) cred.(Credential.access_token)
    (match cred.(Credential.refresh_token) with Some t => Some t | None => refresh_token end)
    cred.(Credential.expires_at_unix)
    (match cred.(Credential.account_id) with Some a => Some a | None => account_id end)
    cred.(Credential.base_url).

Definition anthropic_refresh (cred : Credential.t) : Credential.t + AgentError.t :=
  try_r! token := stored_refresh_token cred "Anthropic" in
  try_r! value := post (TokenRequest.PostJson ANTHROPIC_TOKEN_URL
    [("anthropic-beta", ANTHROPIC_BETA); ("User-Agent", "anthropic-sdk-typescript/0.94.0 userOAuthProvider")]
    (JObj [("grant_type", JStr "refresh_token"); ("client_id", JStr ANTHROPIC_CLIENT_ID);
           ("refresh_token", JStr token)])) in
  try_r! refreshed := anthropic_credential now_unix value in
  inl (or_keep refreshed (Some token) None).

Definition openai_refresh (cred : Credential.t) : Credential.t + AgentError.t :=
  try_r! token := stored_refresh_token cred "OpenAI" in
  try_r! value := post (TokenRequest.PostForm OPENAI_TOKEN_URL
    [("grant_type", "refresh_token"); ("refresh_token", token); ("client_id", OPENAI_CLIENT_ID)]) in
  try_r! refreshed := openai_credential now_unix value false in
  inl (or_keep refreshed (Some token) cred.(Credential.account_id)).

Definition xai_refresh (cred : Credential.t) : Credential.t + AgentError.t :=
  try_r! token := stored_refresh_token cred "xAI" in
  try_r! endpoints := xai_endpoints in
  guard_r! validate_xai_endpoint endpoints.2 "token_endpoint" in
  try_r! value := post (TokenRequest.PostForm endpoints.2
    [("grant_type", "refresh_token"); ("client_id", XAI_CLIENT_ID); ("refresh_token", token)]) in
  try_r! refreshed := xai_credential now_unix value in
  inl (or_keep refreshed (Some token) None).

Definition refresh (cred : Credential.t) : Credential.t + AgentError.t :=
  match cred.(Credential.provider) with
  | ProviderId.Anthropic => anthropic_refresh cred
  | ProviderId.OpenAi => openai_refresh cred
  | ProviderId.Xai => xai_refresh cred
  end.
End strategies.

Definition from_api_key (provider : ProviderId.t) (key : string) (base_url : option string) : Credential.t :=
  let base_url := default (ProviderId.default_base_url provider) (base_url ≫= nonblank) in
  Credential.Mk provider AuthMode.ApiKey (trim key) None None None
    (trim_end_chars (fun c => Ascii.eqb c "/") base_url).

(** * The stored credentials ([store.rs])

    The file's text and its locks are the system's; what an operation makes of the map is here. *)

Module StoredCredential.
Record t := Mk {
  provider : ProviderId.t;
  mode : AuthMode.t;
  access_token : string;
  refresh_token : option string;
  expires_at_unix : option u64;
  account_id : option string;
  base_url : string;
}.

Definition from_credential (c : Credential.t) : t :=
  Mk c.(Credential.provider) c.(Credential.mode) c.(Credential.access_token) c.(Credential.refresh_token)
    c.(Credential.expires_at_unix) c.(Credential.account_id) c.(Credential.base_url).
Definition into_credential (s : t) : Credential.t :=
  Credential.Mk s.(provider) s.(mode) s.(access_token) s.(refresh_token) s.(expires_at_unix) s.(account_id)
    s.(base_url).
End StoredCredential.

Module AuthStore.
Definition t : Type := gmap string StoredCredential.t.

Definition save (store : t) (cred : Credential.t) : t :=
  <[ProviderId.as_str cred.(Credential.provider) := StoredCredential.from_credential cred]> (store : gmap string _).
Definition load (store : t) (provider : ProviderId.t) : option Credential.t :=
  StoredCredential.into_credential <$> (store : gmap string _) !! ProviderId.as_str provider.
Definition remove (store : t) (provider : ProviderId.t) : t :=
  delete (ProviderId.as_str provider) (store : gmap string _).
End AuthStore.

(** * Keeping a credential fresh ([auth/mod.rs]) *)

#[global] Instance credential_eq_dec : EqDecision Credential.t.
Proof. solve_decision. Defined.

Definition is_expired (now_unix : u64) (c : Credential.t) : bool :=
  match c.(Credential.expires_at_unix) with Some exp => (uval exp <=? uval now_unix)%N | None => false end.

Definition is_oauth (c : Credential.t) : bool := bool_decide (c.(Credential.mode) = AuthMode.Oauth).

Definition should_refresh (now_unix : u64) (c : Credential.t) (force_refresh : bool) : bool :=
  is_oauth c && (force_refresh || is_expired now_unix c).

Definition same_credential (a b : Credential.t) : bool := bool_decide (a = b).

Definition double_check_is_fresh (now_unix : u64) (original latest : Credential.t) (force_refresh : bool) : bool :=
  if negb (is_oauth latest) then true
  else if is_expired now_unix latest then false
  else negb force_refresh || negb (same_credential original latest).

(** Where a caller of [ensure_fresh_with] is: before its locks, between them, under both, and leaving. *)
Module Stage.
Inductive t :=
  | Begin
  | WantProcess
  | WantFile
  | Loading
  | Checking (latest : Credential.t)
  | Refreshing (latest : Credential.t)
  | Saving (refreshed : Credential.t)
  | Leaving (result : Credential.t + AgentError.t)
  | LeavingProcess (result : Credential.t + AgentError.t)
  | Done (result : Credential.t + AgentError.t).
End Stage.

(** [process]: the process it runs in, whose lock it takes first. *)
Module Caller.
Record t := Mk { process : nat; credential : Credential.t; force_refresh : bool; at_ : Stage.t }.
Definition with_stage (c : t) (stage : Stage.t) : t := Mk c.(process) c.(credential) c.(force_refresh) stage.
Definition provider (c : t) : ProviderId.t := c.(credential).(Credential.provider).
End Caller.

(** The locks of processes by process and provider, the files' locks by provider. No code under a lock
    panics, so none is poisoned. *)
Module Shared.
Record t := Mk {
  now : u64;
  store : AuthStore.t;
  process_locks : list (nat * ProviderId.t);
  file_locks : list ProviderId.t;
}.
Definition with_store (sh : t) (store : AuthStore.t) : t :=
  Mk sh.(now) store sh.(process_locks) sh.(file_locks).
Definition with_locks (sh : t) (process_locks : list (nat * ProviderId.t)) (file_locks : list ProviderId.t) : t :=
  Mk sh.(now) sh.(store) process_locks file_locks.
End Shared.

Module World.
Record t := Mk { shared : Shared.t; callers : list Caller.t }.
Definition start (now : u64) (store : AuthStore.t) (callers : list Caller.t) : t :=
  Mk (Shared.Mk now store [] []) callers.
End World.

(** What a step did to the credentials of a provider. *)
Module Label.
Inductive t :=
  | Asked (latest : Credential.t)
  | Saved (refreshed : Credential.t)
  | LoggedIn (cred : Credential.t)
  | LoggedOut (provider : ProviderId.t)
  | Quiet.
End Label.

Section fresh.
Context `{AuthPackages, SerdeText}.

(** What refreshing may give, whatever the time and the network. *)
Definition refreshes (latest : Credential.t) (result : Credential.t + AgentError.t) : Prop :=
  exists now_unix post discovered, refresh now_unix post discovered latest = result.

Inductive caller_step (sh : Shared.t) (c : Caller.t) : Stage.t -> Label.t -> Shared.t -> Stage.t -> Prop :=
  | step_begin :
      caller_step sh c Stage.Begin Label.Quiet sh
        (if should_refresh sh.(Shared.now) c.(Caller.credential) c.(Caller.force_refresh)
         then Stage.WantProcess else Stage.Done (inl c.(Caller.credential)))
  | step_lock_process :
      (c.(Caller.process), Caller.provider c) ∉ sh.(Shared.process_locks) ->
      caller_step sh c Stage.WantProcess Label.Quiet
        (Shared.with_locks sh ((c.(Caller.process), Caller.provider c) :: sh.(Shared.process_locks))
           sh.(Shared.file_locks))
        Stage.WantFile
  | step_lock_file :
      Caller.provider c ∉ sh.(Shared.file_locks) ->
      caller_step sh c Stage.WantFile Label.Quiet
        (Shared.with_locks sh sh.(Shared.process_locks) (Caller.provider c :: sh.(Shared.file_locks)))
        Stage.Loading
  | step_lock_failed err :
      caller_step sh c Stage.WantFile Label.Quiet sh (Stage.LeavingProcess (inr (AgentError.Auth err)))
  | step_load :
      caller_step sh c Stage.Loading Label.Quiet sh
        (Stage.Checking (default c.(Caller.credential) (AuthStore.load sh.(Shared.store) (Caller.provider c))))
  | step_load_failed err :
      caller_step sh c Stage.Loading Label.Quiet sh (Stage.Leaving (inr (AgentError.Auth err)))
  | step_check latest :
      caller_step sh c (Stage.Checking latest) Label.Quiet sh
        (if double_check_is_fresh sh.(Shared.now) c.(Caller.credential) latest c.(Caller.force_refresh)
         then Stage.Leaving (inl latest) else Stage.Refreshing latest)
  | step_refresh latest refreshed :
      refreshes latest (inl refreshed) ->
      caller_step sh c (Stage.Refreshing latest) (Label.Asked latest) sh (Stage.Saving refreshed)
  | step_refresh_failed latest err :
      refreshes latest (inr err) ->
      caller_step sh c (Stage.Refreshing latest) (Label.Asked latest) sh (Stage.Leaving (inr err))
  | step_save refreshed :
      caller_step sh c (Stage.Saving refreshed) (Label.Saved refreshed)
        (Shared.with_store sh (AuthStore.save sh.(Shared.store) refreshed)) (Stage.Leaving (inl refreshed))
  | step_save_failed refreshed err :
      caller_step sh c (Stage.Saving refreshed) Label.Quiet sh (Stage.Leaving (inr (AgentError.Auth err)))
  | step_unlock_file result :
      caller_step sh c (Stage.Leaving result) Label.Quiet
        (Shared.with_locks sh sh.(Shared.process_locks)
           (filter (fun p => p <> Caller.provider c) sh.(Shared.file_locks)))
        (Stage.LeavingProcess result)
  | step_unlock_process result :
      caller_step sh c (Stage.LeavingProcess result) Label.Quiet
        (Shared.with_locks sh
           (filter (fun l => l <> (c.(Caller.process), Caller.provider c)) sh.(Shared.process_locks))
           sh.(Shared.file_locks))
        (Stage.Done result).

(** A caller moves. *)
Inductive call_moves (w : World.t) : Label.t -> World.t -> Prop :=
  | step_call i c label shared stage :
      w.(World.callers) !! i = Some c -> caller_step w.(World.shared) c c.(Caller.at_) label shared stage ->
      call_moves w label (World.Mk shared (<[i := Caller.with_stage c stage]> w.(World.callers))).

(** Time passes, or someone logs in or out, which takes neither lock. *)
Inductive environment (w : World.t) : Label.t -> World.t -> Prop :=
  | step_time now :
      (uval w.(World.shared).(Shared.now) <= uval now)%N ->
      environment w Label.Quiet (World.Mk (Shared.Mk now w.(World.shared).(Shared.store)
        w.(World.shared).(Shared.process_locks) w.(World.shared).(Shared.file_locks)) w.(World.callers))
  | step_login cred :
      environment w (Label.LoggedIn cred)
        (World.Mk (Shared.with_store w.(World.shared) (AuthStore.save w.(World.shared).(Shared.store) cred))
           w.(World.callers))
  | step_logout provider :
      environment w (Label.LoggedOut provider)
        (World.Mk (Shared.with_store w.(World.shared) (AuthStore.remove w.(World.shared).(Shared.store) provider))
           w.(World.callers)).

Definition step (w : World.t) (label : Label.t) (w' : World.t) : Prop :=
  call_moves w label w' \/ environment w label w'.
End fresh.
