(* ===== verification/AuthHost.v ===== *)
(** What the daemon makes of credentials: the [auth.*] commands with their pending logins
    ([nerve-workstation/src/auth/manager.rs]), and the providers a run can name
    ([nerve-workstation/src/providers.rs]). *)
From stdpp Require Import gmap strings.
From S2P Require Import Prelude BTree Text Json FlowDefs EditText Tape History Disk Wire Transport Jobs Auth.
Open Scope nerve_scope.

(** * One caller of [ensure_fresh] *)

(** The errors of the system a command meets: of its first reading of the store, of the lock of a refresh, of
    the reading under it, of saving and of deleting. *)
Module Faults.
Record t := Mk {
  load : option string;
  lock : option string;
  reload : option string;
  save : option string;
  delete : option string;
}.
Definition none : t := Mk None None None None None.
End Faults.

Notation "'try_r!' x := m 'in' k" := (match m with inl x => k | inr e => inr e end)
  (at level 10, x pattern, m at level 200, k at level 200).

Section alone.
Context `{AuthPackages, SerdeText} (now_unix : u64) (post : TokenRequest.t -> json + AgentError.t)
  (discovered : json + AgentError.t) (faults : Faults.t).

(** [ensure_fresh] of a caller that no other one meets. *)
Definition ensure_fresh (store : AuthStore.t) (cred : Credential.t) (force_refresh : bool)
    : AuthStore.t * (Credential.t + AgentError.t) :=
  if negb (should_refresh now_unix cred force_refresh) then (store, inl cred)
  else
    match faults.(Faults.lock), faults.(Faults.reload) with
    | Some err, _ => (store, inr (AgentError.Auth err))
    | None, Some err => (store, inr (AgentError.Auth err))
    | None, None =>
        let latest := default cred (AuthStore.load store cred.(Credential.provider)) in
        if double_check_is_fresh now_unix cred latest force_refresh then (store, inl latest)
        else
          match refresh now_unix post discovered latest with
          | inr err => (store, inr err)
          | inl refreshed =>
              match faults.(Faults.save) with
              | Some err => (store, inr (AgentError.Auth err))
              | None => (AuthStore.save store refreshed, inl refreshed)
              end
          end
    end.
End alone.

(** * The [auth.*] commands *)

Module AuthStartFlow.
Inductive t := Browser | DeviceCode.
#[global] Instance eq_dec : EqDecision t.
Proof. solve_decision. Defined.
End AuthStartFlow.

Module AuthCommand.
Inductive t :=
  | AuthStart (provider : string) (flow : AuthStartFlow.t)
  | AuthComplete (login_id : string) (code callback_url : option string)
  | AuthStatus (provider : string)
  | AuthLease (provider : string) (force_refresh include_token : bool)
  | AuthLogout (provider : string).
End AuthCommand.

Module AuthEventKind.
Inductive t := LoginPending | LoginCompleted | LoginFailed | CredentialRefreshed.
End AuthEventKind.

Module PendingLogin.
Record t := Mk { start : LoginStart.t; created_at_ms : u64 }.
End PendingLogin.

(** The pending logins, the store of credentials, and the events told to the clients. *)
Module AuthManager.
Record t := Mk {
  pending : gmap string PendingLogin.t;
  store : AuthStore.t;
  emitted : list (ProviderId.t * AuthEventKind.t);
}.
Definition with_pending (m : t) (pending : gmap string PendingLogin.t) : t := Mk pending m.(store) m.(emitted).
Definition with_store (m : t) (store : AuthStore.t) : t := Mk m.(pending) store m.(emitted).
Definition emit_auth (m : t) (provider : ProviderId.t) (kind : AuthEventKind.t) : t :=
  Mk m.(pending) m.(store) (m.(emitted) ++ [(provider, kind)]).
End AuthManager.

Definition pending_login_ttl_ms : N := 10 * 60 * 1000.

Definition pending_is_fresh (created_at_ms now_ms : u64) : bool :=
  (uval now_ms - uval created_at_ms <=? pending_login_ttl_ms)%N.

(** Names and aliases, in any case; [providers.rs] has the same. *)
Definition parse_builtin (name : string) : option ProviderId.t :=
  let name := lower name in
  if bool_decide (name ∈ ["anthropic"; "claude"]) then Some ProviderId.Anthropic
  else if bool_decide (name ∈ ["openai"; "chatgpt"; "openai_responses"]) then Some ProviderId.OpenAi
  else if bool_decide (name ∈ ["xai"; "grok"]) then Some ProviderId.Xai
  else None.

Definition parse_provider (provider : string) : ProviderId.t + RuntimeError.t :=
  match parse_builtin (trim provider) with
  | Some p => inl p
  | None => inr (RuntimeError.Adapter
      ("unknown auth provider '" +:+ provider +:+ "': expected anthropic|openai|xai"))
  end.

Definition opt_str (s : option string) : json := match s with Some s => JStr s | None => JNull end.

Definition mode_label (mode : AuthMode.t) : string :=
  match mode with AuthMode.ApiKey => "api_key" | AuthMode.Oauth => "oauth" end.

Definition auth_capabilities (credential : option Credential.t) : json :=
  let '(lease_available, lease_reason) :=
    match Credential.mode <$> credential with
    | Some AuthMode.Oauth => (true, JNull)
    | Some AuthMode.ApiKey => (false, JStr "credential_mode_api_key")
    | None => (false, JStr "not_logged_in")
    end in
  JObj [("auth_start", JObj [
           ("browser", JObj [("supported", JBool true); ("flow", JStr "browser")]);
           ("device_code", JObj [("supported", JBool false); ("flow", JStr "device_code");
              ("reason", JStr "provider device-authorization endpoints are not wired yet")])]);
        ("auth_lease", JObj [
           ("metadata", JObj [("supported", JBool true); ("available", JBool lease_available);
              ("reason", lease_reason)]);
           ("bearer_token", JObj [("supported", JBool false); ("reason", JStr "not_exposed_over_runtime_protocol")]);
           ("stored_refresh_token", JObj [("supported", JBool false); ("reason", JStr "never_returned")])])].

Definition not_logged_in_status (provider : ProviderId.t) : json :=
  JObj [("provider", JStr (ProviderId.as_str provider)); ("status", JStr "not_logged_in");
        ("capabilities", auth_capabilities None)].

Definition expires_json (c : Credential.t) : json :=
  match c.(Credential.expires_at_unix) with Some exp => JNum (Z.of_N (uval exp)) | None => JNull end.

Definition credential_status (c : Credential.t) : json :=
  JObj [("provider", JStr (ProviderId.as_str c.(Credential.provider))); ("status", JStr "authenticated");
        ("mode", JStr (mode_label c.(Credential.mode))); ("base_url", JStr c.(Credential.base_url));
        ("account_id", opt_str c.(Credential.account_id)); ("expires_at_unix", expires_json c);
        ("capabilities", auth_capabilities (Some c))].

Definition credential_lease (c : Credential.t) (include_token : bool) : json + RuntimeError.t :=
  if negb (is_oauth c) then
    inr (RuntimeError.Adapter
      "auth.lease only brokers OAuth credentials; API-key credentials are long-lived secrets")
  else
    inl (JObj [("provider", JStr (ProviderId.as_str c.(Credential.provider))); ("status", JStr "leased");
               ("mode", JStr (mode_label c.(Credential.mode))); ("base_url", JStr c.(Credential.base_url));
               ("account_id", opt_str c.(Credential.account_id)); ("expires_at_unix", expires_json c);
               ("access_token_included", JBool false);
               ("refresh_token_held_by_broker", JBool (bool_decide (is_Some c.(Credential.refresh_token))))]).

Definition agent_runtime_error (error : AgentError.t) : RuntimeError.t :=
  match error with
  | AgentError.Cancelled => RuntimeError.cancelled
  | _ => RuntimeError.Adapter (AgentError.display error)
  end.

(** What a command meets: the token at its successive checks, the clocks, the network, the random texts. *)
Module Meets.
Record t := Mk {
  cancelled : nat -> bool;
  now_ms : u64;
  now_unix : u64;
  post : TokenRequest.t -> json + AgentError.t;
  discovered : json + AgentError.t;
  random_id : string;
  pkce : Pkce.t;
  faults : Faults.t;
}.
End Meets.

Section commands.
Context `{AuthPackages, SerdeText} (env : Meets.t).

Definition answers : Type := AuthManager.t * (json + RuntimeError.t).

Definition sweep_pending (m : AuthManager.t) : AuthManager.t :=
  AuthManager.with_pending m
    (filter (fun kv => pending_is_fresh kv.2.(PendingLogin.created_at_ms) env.(Meets.now_ms) = true)
       m.(AuthManager.pending)).

Definition start (m : AuthManager.t) (provider : string) (flow : AuthStartFlow.t) : answers :=
  match parse_provider provider with
  | inr err => (m, inr err)
  | inl provider =>
      if decide (flow = AuthStartFlow.DeviceCode) then
        (m, inr (RuntimeError.Adapter
          "auth.start flow=device_code is not implemented yet; use flow=browser or `nerve agent login --provider <provider>`"))
      else
        let redirect_uri := default_redirect_uri (Loopback.loopback provider) in
        if env.(Meets.cancelled) 1 then (m, inr RuntimeError.cancelled)
        else
          match start_login env.(Meets.discovered) provider redirect_uri env.(Meets.pkce) with
          | inr err => (AuthManager.emit_auth m provider AuthEventKind.LoginFailed, inr (agent_runtime_error err))
          | inl login =>
              if env.(Meets.cancelled) 2 then (m, inr RuntimeError.cancelled)
              else
                let login_id := "login-" +:+ env.(Meets.random_id) in
                let m := AuthManager.with_pending m
                  (<[login_id := PendingLogin.Mk login env.(Meets.now_ms)]> m.(AuthManager.pending)) in
                (AuthManager.emit_auth m provider AuthEventKind.LoginPending,
                 inl (JObj [("login_id", JStr login_id); ("provider", JStr (ProviderId.as_str provider));
                            ("authorize_url", JStr login.(LoginStart.authorize_url));
                            ("redirect_uri", JStr login.(LoginStart.redirect_uri)); ("flow", JStr "browser")]))
          end
  end.

(** What the thread that each start leaves behind does to the pending logins eleven minutes later at most. *)
Definition pending_cleanup (login_id : string) (created_at_ms now_ms : u64)
    (pending : gmap string PendingLogin.t) : gmap string PendingLogin.t :=
  filter (fun kv => kv.1 <> login_id \/ uval kv.2.(PendingLogin.created_at_ms) <> uval created_at_ms \/
                    pending_is_fresh kv.2.(PendingLogin.created_at_ms) now_ms = true) pending.

Definition complete_login (m : AuthManager.t) (login_id : string) (code callback_url : option string) : answers :=
  match (match callback_url with Some url => Some url | None => code end) with
  | None => (m, inr (RuntimeError.Adapter "auth.complete requires `code` or `callback_url`"))
  | Some input =>
      match m.(AuthManager.pending) !! login_id with
      | None => (m, inr (RuntimeError.Adapter ("unknown auth login_id: " +:+ login_id)))
      | Some pending =>
          let login := pending.(PendingLogin.start) in
          let provider := login.(LoginStart.provider) in
          let callback := parse_pasted_callback (trim input) in
          match Auth.complete env.(Meets.now_unix) env.(Meets.post) login callback with
          | inr AgentError.Cancelled => (m, inr RuntimeError.cancelled)
          | inr err => (AuthManager.emit_auth m provider AuthEventKind.LoginFailed, inr (agent_runtime_error err))
          | inl credential =>
              match env.(Meets.faults).(Faults.save) with
              | Some err =>
                  (AuthManager.emit_auth m provider AuthEventKind.LoginFailed,
                   inr (agent_runtime_error (AgentError.Auth err)))
              | None =>
                  let m := AuthManager.with_store m (AuthStore.save m.(AuthManager.store) credential) in
                  let m := AuthManager.with_pending m (delete login_id m.(AuthManager.pending)) in
                  (AuthManager.emit_auth m provider AuthEventKind.LoginCompleted,
                   inl (JObj [("login_id", JStr login_id);
                              ("created_at_ms", JNum (Z.of_N (uval pending.(PendingLogin.created_at_ms))));
                              ("credential", credential_status credential)]))
              end
          end
      end
  end.

Definition load_credential (m : AuthManager.t) (provider : ProviderId.t) : option Credential.t + RuntimeError.t :=
  match env.(Meets.faults).(Faults.load) with
  | Some err => inr (agent_runtime_error (AgentError.Auth err))
  | None => inl (AuthStore.load m.(AuthManager.store) provider)
  end.

Definition status (m : AuthManager.t) (provider : string) : answers :=
  (m,
   try_r! provider := parse_provider provider in
   try_r! found := load_credential m provider in
   inl match found with Some c => credential_status c | None => not_logged_in_status provider end).

Definition lease (m : AuthManager.t) (provider : string) (force_refresh include_token : bool) : answers :=
  match parse_provider provider with
  | inr err => (m, inr err)
  | inl provider =>
      match load_credential m provider with
      | inr err => (m, inr err)
      | inl None =>
          (m, inr (RuntimeError.Adapter ("not logged in to " +:+ ProviderId.as_str provider +:+
            "; run `nerve agent login --provider " +:+ ProviderId.as_str provider +:+ "` first")))
      | inl (Some credential) =>
          match ensure_fresh env.(Meets.now_unix) env.(Meets.post) env.(Meets.discovered) env.(Meets.faults)
                  m.(AuthManager.store) credential force_refresh with
          | (store, inr err) => (AuthManager.with_store m store, inr (agent_runtime_error err))
          | (store, inl credential) => (AuthManager.with_store m store, credential_lease credential include_token)
          end
      end
  end.

Definition logout (m : AuthManager.t) (provider : string) : answers :=
  match parse_provider provider with
  | inr err => (m, inr err)
  | inl provider =>
      match env.(Meets.faults).(Faults.delete) with
      | Some err => (m, inr (agent_runtime_error (AgentError.Auth err)))
      | None =>
          let m := AuthManager.with_store m (AuthStore.remove m.(AuthManager.store) provider) in
          (AuthManager.with_pending m
             (filter (fun kv => kv.2.(PendingLogin.start).(LoginStart.provider) <> provider) m.(AuthManager.pending)),
           inl (JObj [("provider", JStr (ProviderId.as_str provider)); ("status", JStr "logged_out");
                      ("capabilities", auth_capabilities None)]))
      end
  end.

Definition handle_command (m : AuthManager.t) (command : AuthCommand.t) : answers :=
  if env.(Meets.cancelled) 0 then (m, inr RuntimeError.cancelled)
  else
    let m := sweep_pending m in
    match command with
    | AuthCommand.AuthStart provider flow => start m provider flow
    | AuthCommand.AuthComplete login_id code callback_url => complete_login m login_id code callback_url
    | AuthCommand.AuthStatus provider => status m provider
    | AuthCommand.AuthLease provider force_refresh include_token => lease m provider force_refresh include_token
    | AuthCommand.AuthLogout provider => logout m provider
    end.
End commands.

(** * The providers a run can name ([providers.rs]) *)

Module ProviderWire.
Inductive t := Anthropic | OpenaiChat | OpenaiResponses.
Definition as_str (w : t) : string :=
  match w with Anthropic => "anthropic" | OpenaiChat => "openai-chat" | OpenaiResponses => "openai-responses" end.
Definition provider_id (w : t) : ProviderId.t :=
  match w with
  | Anthropic => ProviderId.Anthropic | OpenaiChat => ProviderId.Xai | OpenaiResponses => ProviderId.OpenAi
  end.
Definition of_provider (p : ProviderId.t) : t :=
  match p with
  | ProviderId.Anthropic => Anthropic | ProviderId.Xai => OpenaiChat | ProviderId.OpenAi => OpenaiResponses
  end.
End ProviderWire.

Module ProviderConfigEntry.
Record t := Mk { name : string; wire : ProviderWire.t; base_url : option string; api_key_env : string }.
End ProviderConfigEntry.

Module ProviderDescriptor.
Inductive source := BuiltIn | Config.
Definition source_str (s : source) : string := match s with BuiltIn => "built-in" | Config => "config" end.
Record t := Mk {
  name : string;
  aliases : list string;
  src : source;
  provider_id : ProviderId.t;
  wire : string;
  base_url : option string;
  api_key_env : option string;
}.
End ProviderDescriptor.

Definition builtin_env_var (p : ProviderId.t) : string :=
  match p with
  | ProviderId.Anthropic => "ANTHROPIC_API_KEY" | ProviderId.OpenAi => "OPENAI_API_KEY"
  | ProviderId.Xai => "XAI_API_KEY"
  end.
Definition builtin_choice_name (p : ProviderId.t) : string :=
  match p with ProviderId.Anthropic => "claude" | ProviderId.OpenAi => "chatgpt" | ProviderId.Xai => "xai" end.

Definition builtin_described (p : ProviderId.t) (aliases : list string) : ProviderDescriptor.t :=
  ProviderDescriptor.Mk (ProviderId.as_str p) aliases ProviderDescriptor.BuiltIn p
    (ProviderWire.as_str (ProviderWire.of_provider p)) (Some (ProviderId.default_base_url p))
    (Some (builtin_env_var p)).

Definition builtin_descriptors : list ProviderDescriptor.t :=
  [builtin_described ProviderId.Anthropic ["claude"];
   builtin_described ProviderId.OpenAi ["chatgpt"; "openai_responses"];
   builtin_described ProviderId.Xai ["grok"]].

Definition builtin_descriptor (name : string) : option ProviderDescriptor.t :=
  p ← parse_builtin name;
  find (fun d => bool_decide (d.(ProviderDescriptor.provider_id) = p)) builtin_descriptors.

Definition config_descriptor (name : string) (e : ProviderConfigEntry.t) : ProviderDescriptor.t :=
  ProviderDescriptor.Mk name [] ProviderDescriptor.Config (ProviderWire.provider_id e.(ProviderConfigEntry.wire))
    (ProviderWire.as_str e.(ProviderConfigEntry.wire)) e.(ProviderConfigEntry.base_url)
    (Some e.(ProviderConfigEntry.api_key_env)).

Definition describe_provider (d : ProviderDescriptor.t) : string :=
  let aliases :=
    match d.(ProviderDescriptor.aliases) with
    | [] => EmptyString
    | aliases => " aliases=[" +:+ String.concat "|" aliases +:+ "]"
    end in
  let base := match d.(ProviderDescriptor.base_url) with Some url => " base_url=" +:+ url | None => EmptyString end in
  let env := match d.(ProviderDescriptor.api_key_env) with Some var => " api_key_env=" +:+ var | None => EmptyString end in
  d.(ProviderDescriptor.name) +:+ "(" +:+ ProviderDescriptor.source_str d.(ProviderDescriptor.src) +:+
  " provider=" +:+ ProviderId.as_str d.(ProviderDescriptor.provider_id) +:+ " wire=" +:+ d.(ProviderDescriptor.wire) +:+
  aliases +:+ base +:+ env +:+ ")".

Module ProviderRegistry.
Definition t : Type := btree string ProviderConfigEntry.t.

Fixpoint from_entries_into (configs : t) (entries : list ProviderConfigEntry.t) : t + string :=
  match entries with
  | [] => inl configs
  | e :: entries =>
      let name := trim e.(ProviderConfigEntry.name) in
      if String.eqb name EmptyString then inr "provider config entry has an empty name"
      else if bool_decide (is_Some (parse_builtin name)) then
        inr ("provider config name '" +:+ name +:+ "' shadows a built-in provider")
      else if String.eqb (trim e.(ProviderConfigEntry.api_key_env)) EmptyString then
        inr ("provider '" +:+ name +:+ "' has an empty api_key_env")
      else if bool_decide (is_Some (bt_get name configs)) then
        inr ("duplicate provider config name '" +:+ name +:+ "'")
      else
        let e := ProviderConfigEntry.Mk name e.(ProviderConfigEntry.wire) e.(ProviderConfigEntry.base_url)
                   e.(ProviderConfigEntry.api_key_env) in
        from_entries_into (bt_entry string_leb name e (fun _ => e) configs) entries
  end.
Definition from_entries (entries : list ProviderConfigEntry.t) : t + string := from_entries_into [] entries.

Definition descriptors (r : t) : list ProviderDescriptor.t :=
  builtin_descriptors ++ map (fun kv => config_descriptor kv.1 kv.2) r.

Definition descriptor (r : t) (name : string) : option ProviderDescriptor.t :=
  match builtin_descriptor name with
  | Some d => Some d
  | None => config_descriptor name <$> bt_get name r
  end.

Definition contains_name (r : t) (name : string) : bool := bool_decide (is_Some (descriptor r name)).

Definition known_provider_summary (r : t) : string := String.concat ", " (map describe_provider (descriptors r)).
End ProviderRegistry.

(** The provider a name resolves to: the wire it speaks, with its credential. *)
Module Resolved.
Record t := Mk { wire : ProviderWire.t; credential : Credential.t }.
End Resolved.

Section resolve.
Context `{AuthPackages, SerdeText} (env : Meets.t) (var : string -> option string).

(** The credential of a built-in provider, with the store it leaves. *)
Definition builtin_credential (store : AuthStore.t) (p : ProviderId.t) (api_key : option string)
    : AuthStore.t * (Credential.t + string) :=
  match api_key with
  | Some key => (store, inl (from_api_key p key None))
  | None =>
      match env.(Meets.faults).(Faults.load) with
      | Some err => (store, inr ("failed to load credential: " +:+ AgentError.display (AgentError.Auth err)))
      | None =>
          match AuthStore.load store p with
          | Some cred =>
              let '(store, result) := ensure_fresh env.(Meets.now_unix) env.(Meets.post) env.(Meets.discovered)
                                        env.(Meets.faults) store cred false in
              (store, match result with
                      | inl cred => inl cred
                      | inr err => inr ("failed to refresh credential: " +:+ AgentError.display err)
                      end)
          | None =>
              (store, match var (builtin_env_var p) ≫= nonempty with
                      | Some key => inl (from_api_key p key None)
                      | None => inr ("no credential for " +:+ ProviderId.as_str p +:+
                          ": run `nerve agent login --provider " +:+ builtin_choice_name p +:+ "` or set " +:+
                          builtin_env_var p)
                      end)
          end
      end
  end.

Definition config_token (e : ProviderConfigEntry.t) (api_key : option string) : string + string :=
  match api_key with
  | Some key => inl key
  | None =>
      match var e.(ProviderConfigEntry.api_key_env) with
      | None => inr ("provider '" +:+ e.(ProviderConfigEntry.name) +:+ "' needs environment variable " +:+
                     e.(ProviderConfigEntry.api_key_env) +:+ " (api_key_env) to be set")
      | Some value =>
          if String.eqb (trim value) EmptyString then
            inr ("environment variable " +:+ e.(ProviderConfigEntry.api_key_env) +:+ " for provider '" +:+
                 e.(ProviderConfigEntry.name) +:+ "' is empty")
          else inl value
      end
  end.

Definition resolve (r : ProviderRegistry.t) (store : AuthStore.t) (name : string) (api_key : option string)
    : AuthStore.t * (Resolved.t + string) :=
  match parse_builtin name with
  | Some p =>
      let '(store, result) := builtin_credential store p api_key in
      (store, match result with
              | inl cred => inl (Resolved.Mk (ProviderWire.of_provider p) cred)
              | inr err => inr err
              end)
  | None =>
      (store,
       match bt_get name r with
       | None => inr ("unknown provider '" +:+ name +:+ "'. Known providers: " +:+
                      ProviderRegistry.known_provider_summary r)
       | Some e =>
           match config_token e api_key with
           | inr err => inr err
           | inl token =>
               inl (Resolved.Mk e.(ProviderConfigEntry.wire)
                 (from_api_key (ProviderWire.provider_id e.(ProviderConfigEntry.wire)) token
                    e.(ProviderConfigEntry.base_url)))
           end
       end)
  end.
End resolve.
