(* ===== verification/AuthSpec.v ===== *)
(** Credentials, proved: a refresh is asked for with the credential last saved and under a lock of its
    provider, callers that wait for it always get on, a callback is taken only with the login's own state. *)
From stdpp Require Import gmap strings relations.
From S2P Require Import Prelude BTree Text Json FlowDefs EditText Tape History Disk Wire Transport Jobs WireReference Auth AuthHost.
Open Scope nerve_scope.

#[global] Instance provider_as_str_inj : Inj (=) (=) ProviderId.as_str.
Proof. by intros [] []. Qed.

(** * Refreshing keeps the provider *)

Section refreshed.
Context `{AuthPackages, SerdeText}.

Ltac cases :=
  repeat match goal with
  | H : context [match ?e with _ => _ end] |- _ => destruct e eqn:?; try done
  end.

Lemma anthropic_credential_provider now value cred :
  anthropic_credential now value = inl cred -> cred.(Credential.provider) = ProviderId.Anthropic.
Proof. unfold anthropic_credential. intros E. cases. by simplify_eq. Qed.

Lemma openai_credential_provider now value require cred :
  openai_credential now value require = inl cred -> cred.(Credential.provider) = ProviderId.OpenAi.
Proof. unfold openai_credential. intros E. cases; by simplify_eq. Qed.

Lemma xai_credential_provider now value cred :
  xai_credential now value = inl cred -> cred.(Credential.provider) = ProviderId.Xai.
Proof. unfold xai_credential. intros E. cases. by simplify_eq. Qed.

Lemma refresh_provider now post discovered cred refreshed :
  refresh now post discovered cred = inl refreshed ->
  refreshed.(Credential.provider) = cred.(Credential.provider).
Proof.
  unfold refresh, anthropic_refresh, openai_refresh, xai_refresh.
  destruct cred.(Credential.provider); intros E; cases; simplify_eq/=;
    eauto using anthropic_credential_provider, openai_credential_provider, xai_credential_provider.
Qed.

(** What is refreshed is an OAuth credential. *)
Lemma refresh_oauth now post discovered cred refreshed :
  refresh now post discovered cred = inl refreshed -> is_oauth refreshed = true.
Proof.
  unfold refresh, anthropic_refresh, openai_refresh, xai_refresh, anthropic_credential, openai_credential,
    xai_credential.
  destruct cred.(Credential.provider); intros E; cases; by simplify_eq/=.
Qed.
End refreshed.

(** * The store *)

(** Every record is kept under its own provider's name. *)
Definition store_ok (store : AuthStore.t) : Prop :=
  forall p cred, AuthStore.load store p = Some cred -> cred.(Credential.provider) = p.

Lemma load_save store cred p :
  AuthStore.load (AuthStore.save store cred) p =
  if decide (cred.(Credential.provider) = p) then Some cred else AuthStore.load store p.
Proof.
  unfold AuthStore.load, AuthStore.save. destruct (decide _) as [<-|N].
  - rewrite lookup_insert_eq. by destruct cred.
  - rewrite lookup_insert_ne; [done|]. by intros E%(inj ProviderId.as_str).
Qed.

Lemma load_remove store p q :
  AuthStore.load (AuthStore.remove store p) q = if decide (p = q) then None else AuthStore.load store q.
Proof.
  unfold AuthStore.load, AuthStore.remove. destruct (decide _) as [<-|N].
  - by rewrite lookup_delete_eq.
  - rewrite lookup_delete_ne; [done|]. by intros E%(inj ProviderId.as_str).
Qed.

Lemma save_ok store cred : store_ok store -> store_ok (AuthStore.save store cred).
Proof. intros S p c. rewrite load_save. case_decide; [congruence | apply S]. Qed.

(** * Locks *)

Definition under_process (s : Stage.t) : bool :=
  match s with Stage.Begin | Stage.WantProcess | Stage.Done _ => false | _ => true end.
Definition under_file (s : Stage.t) : bool :=
  match s with
  | Stage.Loading | Stage.Checking _ | Stage.Refreshing _ | Stage.Saving _ | Stage.Leaving _ => true
  | _ => false
  end.
Definition process_key (c : Caller.t) : nat * ProviderId.t := (c.(Caller.process), Caller.provider c).

(** A family of locks, by key, that callers hold exactly while they are under them. *)
Section locks.
Context {K : Type} `{EqDecision K} (key : Caller.t -> K) (under : Stage.t -> bool).
Hypothesis key_stage : forall c s, key (Caller.with_stage c s) = key c.

Definition holds (callers : list Caller.t) (i : nat) (k : K) : Prop :=
  exists c, callers !! i = Some c /\ under c.(Caller.at_) = true /\ key c = k.

Record locks_ok (locks : list K) (callers : list Caller.t) : Prop := {
  locks_held k : k ∈ locks <-> exists i, holds callers i k;
  locks_one k i j : holds callers i k -> holds callers j k -> i = j;
}.

Lemma holds_insert callers i c s j k :
  callers !! i = Some c ->
  holds (<[i := Caller.with_stage c s]> callers) j k <->
  (i = j /\ under s = true /\ key c = k) \/ (i <> j /\ holds callers j k).
Proof.
  intros L. unfold holds. destruct (decide (i = j)) as [<-|N].
  - rewrite list_lookup_insert_eq by eauto using lookup_lt_Some. split.
    + intros (? & [= <-] & U & <-). left. by rewrite key_stage.
    + intros [(_ & U & <-)|[? _]]; [|done]. eexists. split; [done|]. by rewrite key_stage.
  - rewrite list_lookup_insert_ne by done. naive_solver.
Qed.

Lemma locks_keep locks callers i c s :
  callers !! i = Some c -> under s = under c.(Caller.at_) -> locks_ok locks callers ->
  locks_ok locks (<[i := Caller.with_stage c s]> callers).
Proof.
  intros L U [A B].
  assert (S : forall j k, holds (<[i := Caller.with_stage c s]> callers) j k <-> holds callers j k).
  { intros j k. rewrite holds_insert by done. rewrite U. destruct (decide (i = j)) as [<-|N].
    - unfold holds. rewrite L. naive_solver.
    - naive_solver. }
  split; setoid_rewrite S; eauto.
Qed.

Lemma locks_take locks callers i c s :
  callers !! i = Some c -> under s = true -> key c ∉ locks -> locks_ok locks callers ->
  locks_ok (key c :: locks) (<[i := Caller.with_stage c s]> callers).
Proof.
  intros L U N [A B].
  assert (S : forall j k, holds (<[i := Caller.with_stage c s]> callers) j k <->
                          (i = j /\ key c = k) \/ holds callers j k).
  { intros j k. rewrite holds_insert by done. rewrite U. destruct (decide (i = j)) as [<-|NE]; [|naive_solver].
    split; [naive_solver|]. intros [[_ <-]|HO]; [naive_solver|]. left.
    destruct HO as (c' & L' & U' & <-). by simplify_eq. }
  split; setoid_rewrite S.
  - intros k. rewrite list_elem_of_In. simpl. rewrite <- list_elem_of_In, A. naive_solver.
  - intros k j j' [[<- <-]|H1] [[<- ?]|H2]; [done| | |eauto].
    + destruct N. rewrite A. eauto.
    + subst k. destruct N. rewrite A. eauto.
Qed.

Lemma locks_free locks callers i c s :
  callers !! i = Some c -> under c.(Caller.at_) = true -> under s = false -> locks_ok locks callers ->
  locks_ok (filter (fun k => k <> key c) locks) (<[i := Caller.with_stage c s]> callers).
Proof.
  intros L UC US [A B].
  assert (HI : holds callers i (key c)) by (by exists c).
  assert (S : forall j k, holds (<[i := Caller.with_stage c s]> callers) j k <->
                          key c <> k /\ holds callers j k).
  { intros j k. rewrite holds_insert by done. rewrite US. split; [|].
    - intros [(_ & ? & _)|[NE HO]]; [done|]. split; [|done]. intros <-. by destruct NE; eapply B.
    - intros [NE HO]. right. split; [|done]. intros <-. destruct HO as (c' & L' & _ & <-). by simplify_eq. }
  split; setoid_rewrite S.
  - intros k. rewrite list_elem_of_filter, A. naive_solver.
  - intros k j j' [_ ?] [_ ?]. eauto.
Qed.

Lemma locks_start callers : Forall (fun c => under c.(Caller.at_) = false) callers -> locks_ok [] callers.
Proof.
  intros F. assert (S : forall i k, ~ holds callers i k).
  { intros i k (c & L & U & _). rewrite Forall_lookup in F. specialize (F _ _ L). simpl in F. congruence. }
  split; [|naive_solver]. intros k. split; [by intros ?%elem_of_nil | naive_solver].
Qed.
End locks.

(** * Runs *)

(** The credential of a provider that is stored after a step: the one a refresh or a login saved last, none
    after a logout. *)
Definition update (p : ProviderId.t) (stored : option Credential.t) (label : Label.t) : option Credential.t :=
  match label with
  | Label.Saved cred | Label.LoggedIn cred => if decide (cred.(Credential.provider) = p) then Some cred else stored
  | Label.LoggedOut q => if decide (q = p) then None else stored
  | _ => stored
  end.

Definition current (w : World.t) (trace : list Label.t) (p : ProviderId.t) : option Credential.t :=
  foldl (update p) (AuthStore.load w.(World.shared).(Shared.store) p) trace.

(** A refresh of the provider saved nothing; nobody logged in or out. *)
Definition no_refresh_of (p : ProviderId.t) (label : Label.t) : Prop :=
  match label with Label.Saved cred => cred.(Credential.provider) <> p | _ => True end.
Definition no_login (label : Label.t) : Prop :=
  match label with Label.LoggedIn _ | Label.LoggedOut _ => False | _ => True end.

(** What never changes of a caller. *)
Definition identity (c : Caller.t) : nat * Credential.t * bool :=
  (c.(Caller.process), c.(Caller.credential), c.(Caller.force_refresh)).

Section runs.
Context `{AuthPackages, SerdeText}.

(** A run, with what it did. *)
Inductive run (w0 : World.t) : list Label.t -> World.t -> Prop :=
  | run_start : run w0 [] w0
  | run_step trace w label w' :
      run w0 trace w -> step w label w' -> run w0 (trace ++ [label]) w'.

Record start_ok (w : World.t) : Prop := {
  start_locks : w.(World.shared).(Shared.process_locks) = [] /\ w.(World.shared).(Shared.file_locks) = [];
  start_callers : Forall (fun c => c.(Caller.at_) = Stage.Begin) w.(World.callers);
  start_store : store_ok w.(World.shared).(Shared.store);
}.

Definition needs_refresh (sh : Shared.t) (c : Caller.t) (latest : Credential.t) : Prop :=
  is_oauth latest = true /\
  (is_expired sh.(Shared.now) latest = true \/ c.(Caller.force_refresh) = true /\ c.(Caller.credential) = latest).

(** What was stored when the caller looked, its own if nothing was; no refresh of the provider has saved since. *)
Definition looked (w0 : World.t) (trace : list Label.t) (c : Caller.t) (latest : Credential.t) : Prop :=
  exists before after, trace = before ++ after /\ Forall (no_refresh_of (Caller.provider c)) after /\
    latest = default c.(Caller.credential) (current w0 before (Caller.provider c)).

Definition stage_ok (w0 : World.t) (trace : list Label.t) (sh : Shared.t) (c : Caller.t) : Prop :=
  match c.(Caller.at_) with
  | Stage.Checking latest => looked w0 trace c latest
  | Stage.Refreshing latest => looked w0 trace c latest /\ needs_refresh sh c latest
  | Stage.Saving refreshed => refreshed.(Credential.provider) = Caller.provider c
  | _ => True
  end.

(** The locks: kept whatever happens to the store. *)
Record guarded (w : World.t) : Prop := {
  guarded_process : locks_ok process_key under_process w.(World.shared).(Shared.process_locks) w.(World.callers);
  guarded_file : locks_ok Caller.provider under_file w.(World.shared).(Shared.file_locks) w.(World.callers);
}.

(** The store, and what the callers hold of it. *)
Record inv (w0 : World.t) (trace : list Label.t) (w : World.t) : Prop := {
  inv_before : store_ok w0.(World.shared).(Shared.store);
  inv_guarded : guarded w;
  inv_callers : identity <$> w.(World.callers) = identity <$> w0.(World.callers);
  inv_store p : AuthStore.load w.(World.shared).(Shared.store) p = current w0 trace p;
  inv_stage i c : w.(World.callers) !! i = Some c -> stage_ok w0 trace w.(World.shared) c;
}.

Lemma guarded_start w : start_ok w -> guarded w.
Proof.
  intros [[P F] C _]. split; [rewrite P | rewrite F]; apply locks_start; (eapply Forall_impl; [exact C|]); by intros c ->.
Qed.

Lemma inv_at_start w : start_ok w -> inv w [] w.
Proof.
  intros S. split; try done; [apply S | by apply guarded_start |].
  intros i c L. pose proof (start_callers _ S) as C. rewrite Forall_lookup in C. unfold stage_ok. by rewrite (C _ _ L).
Qed.

Lemma current_snoc w trace label p : current w (trace ++ [label]) p = update p (current w trace p) label.
Proof. unfold current. by rewrite foldl_app. Qed.

Lemma current_provider w trace p cred :
  store_ok w.(World.shared).(Shared.store) -> current w trace p = Some cred -> cred.(Credential.provider) = p.
Proof.
  intros S. revert cred. induction trace as [|label trace IH] using rev_ind; intros cred; [apply S|].
  rewrite current_snoc. destruct label; simpl; try apply IH; case_decide; (apply IH || congruence).
Qed.

Lemma looked_provider w0 trace c latest :
  store_ok w0.(World.shared).(Shared.store) -> looked w0 trace c latest -> latest.(Credential.provider) = Caller.provider c.
Proof.
  intros S (before & after & _ & _ & ->). destruct (current _ _ _) eqn:E; [|done]. by eapply current_provider.
Qed.

Lemma looked_snoc w0 trace c latest label :
  no_refresh_of (Caller.provider c) label -> looked w0 trace c latest -> looked w0 (trace ++ [label]) c latest.
Proof.
  intros N (before & after & -> & F & E). exists before, (after ++ [label]). rewrite app_assoc.
  split_and!; [done | | done]. apply Forall_app. by split; [|constructor].
Qed.

(** A step that saves nothing of the caller's provider, and after which nothing is less expired. *)
Lemma stage_snoc w0 trace sh sh' c label :
  no_refresh_of (Caller.provider c) label -> (uval sh.(Shared.now) <= uval sh'.(Shared.now))%N ->
  stage_ok w0 trace sh c -> stage_ok w0 (trace ++ [label]) sh' c.
Proof.
  intros N T. unfold stage_ok. destruct c.(Caller.at_); try done; [by apply looked_snoc|].
  intros (L & O & X). split; [by apply looked_snoc|]. split; [done|]. destruct X as [X|]; [left|by right].
  unfold is_expired in *. destruct (Credential.expires_at_unix _); [|done]. apply N.leb_le in X. apply N.leb_le. lia.
Qed.

Lemma double_check_false now c latest :
  double_check_is_fresh now c.(Caller.credential) latest c.(Caller.force_refresh) = false ->
  is_oauth latest = true /\
  (is_expired now latest = true \/ c.(Caller.force_refresh) = true /\ c.(Caller.credential) = latest).
Proof.
  unfold double_check_is_fresh, same_credential. destruct (is_oauth latest); [|done]. simpl.
  destruct (is_expired now latest); [auto|]. intros [F S]%orb_false_iff. split; [done|]. right.
  split; [by apply negb_false_iff|]. by apply negb_false_iff, bool_decide_eq_true in S.
Qed.
End runs.

Section preserved.
Context `{AuthPackages, SerdeText}.

Lemma identity_moves (callers : list Caller.t) i c s :
  callers !! i = Some c -> identity <$> <[i := Caller.with_stage c s]> callers = identity <$> callers.
Proof. intros L. rewrite list_fmap_insert. apply list_insert_id. by rewrite list_lookup_fmap, L. Qed.

(** A caller's step: the others keep what they hold if it saves nothing of their providers. *)
Lemma inv_move w0 trace w i c label sh s :
  let w' := World.Mk sh (<[i := Caller.with_stage c s]> w.(World.callers)) in
  inv w0 trace w -> w.(World.callers) !! i = Some c -> guarded w' -> sh.(Shared.now) = w.(World.shared).(Shared.now) ->
  (forall p, AuthStore.load sh.(Shared.store) p = update p (AuthStore.load w.(World.shared).(Shared.store) p) label) ->
  (forall j d, j <> i -> w.(World.callers) !! j = Some d -> stage_ok w0 (trace ++ [label]) sh d) ->
  stage_ok w0 (trace ++ [label]) sh (Caller.with_stage c s) -> inv w0 (trace ++ [label]) w'.
Proof.
  intros w' I L G T ST OT S. split; [apply I | done | | |]; simpl.
  - rewrite identity_moves by done. apply I.
  - intros p. rewrite current_snoc, ST. f_equal. apply I.
  - intros j d [(<- & <- & _)|[N J]]%list_lookup_insert_Some; [exact S | by apply (OT j)].
Qed.

(** A step of the caller's own that leaves the store alone. *)
Lemma inv_keep w0 trace w i c label locks files s :
  let w' := World.Mk (Shared.with_locks w.(World.shared) locks files)
              (<[i := Caller.with_stage c s]> w.(World.callers)) in
  inv w0 trace w -> w.(World.callers) !! i = Some c -> guarded w' ->
  (match label with Label.Quiet | Label.Asked _ => True | _ => False end) ->
  stage_ok w0 (trace ++ [label]) w.(World.shared) (Caller.with_stage c s) -> inv w0 (trace ++ [label]) w'.
Proof.
  intros w' I L G N S. apply inv_move; try done; [by destruct label|].
  intros j d NE J. apply stage_snoc with w.(World.shared); [by destruct label | done | by eapply (inv_stage _ _ _ I)].
Qed.

(** Saving: the others that hold something are of other providers. *)
Lemma inv_save w0 trace w i c r :
  let w' := World.Mk (Shared.with_store w.(World.shared) (AuthStore.save w.(World.shared).(Shared.store) r))
              (<[i := Caller.with_stage c (Stage.Leaving (inl r))]> w.(World.callers)) in
  inv w0 trace w -> w.(World.callers) !! i = Some c -> guarded w' -> c.(Caller.at_) = Stage.Saving r ->
  inv w0 (trace ++ [Label.Saved r]) w'.
Proof.
  intros w' I L G A. pose proof (inv_stage _ _ _ I _ _ L) as R. unfold stage_ok in R. rewrite A in R.
  apply inv_move; try done; [intros p; apply load_save|].
  intros j d NE J. pose proof (inv_stage _ _ _ I _ _ J) as S.
  destruct (decide (r.(Credential.provider) = Caller.provider d)) as [E|N].
  2: by apply stage_snoc with w.(World.shared).
  destruct (under_file d.(Caller.at_)) eqn:U; [|unfold stage_ok; by destruct d.(Caller.at_)].
  destruct NE. eapply (locks_one _ _ _ _ (guarded_file _ (inv_guarded _ _ _ I)) (Caller.provider d)).
  - by exists d.
  - exists c. by rewrite A, <- E.
Qed.

Lemma guarded_call w label w' : guarded w -> call_moves w label w' -> guarded w'.
Proof.
  intros [GP GF] [i c label' sh s L S].
  pose proof (fun s U => locks_keep process_key under_process (fun _ _ => eq_refl) _ _ _ _ s L U GP) as KP.
  pose proof (fun s U => locks_keep Caller.provider under_file (fun _ _ => eq_refl) _ _ _ _ s L U GF) as KF.
  remember c.(Caller.at_) as at_ eqn:A.
  destruct S; split; simpl; try ((apply KP || apply KF); by repeat case_match);
    (apply (locks_take process_key) || apply (locks_take Caller.provider) ||
     apply (locks_free process_key) || apply (locks_free Caller.provider)); try done; by rewrite <- A.
Qed.

Lemma guarded_step w label w' : guarded w -> step w label w' -> guarded w'.
Proof. intros G [M|E]; [by eapply guarded_call|]. destruct E; split; apply G. Qed.

Lemma inv_call w0 trace w label w' : inv w0 trace w -> call_moves w label w' -> inv w0 (trace ++ [label]) w'.
Proof.
  intros I M. pose proof (guarded_call _ _ _ (inv_guarded _ _ _ I) M) as G.
  destruct M as [i c label sh s L S]. pose proof (inv_stage _ _ _ I _ _ L) as SO. unfold stage_ok in SO.
  assert (ID : Shared.with_locks w.(World.shared) w.(World.shared).(Shared.process_locks)
                 w.(World.shared).(Shared.file_locks) = w.(World.shared)) by by destruct w as [[]].
  assert (SAME : sh = w.(World.shared) ->
            (match label with Label.Quiet | Label.Asked _ => True | _ => False end) ->
            stage_ok w0 (trace ++ [label]) w.(World.shared) (Caller.with_stage c s) ->
            inv w0 (trace ++ [label]) (World.Mk sh (<[i := Caller.with_stage c s]> w.(World.callers)))).
  { intros -> ? ?. pose proof (inv_keep w0 trace w i c label w.(World.shared).(Shared.process_locks)
      w.(World.shared).(Shared.file_locks) s) as K. cbv zeta in K. rewrite ID in K. by apply K. }
  remember c.(Caller.at_) as at_ eqn:A. revert G SAME.
  destruct S; intros G SAME; try by apply SAME; try done; by case_match.
  - by apply inv_keep.
  - by apply inv_keep.
  - apply SAME; try done. exists (trace ++ [Label.Quiet]), []. rewrite app_nil_r. split_and!; [done | constructor|].
    rewrite current_snoc. simpl. by rewrite <- (inv_store _ _ _ I).
  - apply SAME; try done. case_match eqn:D; [done|]. split; [by apply looked_snoc|]. by apply double_check_false.
  - apply SAME; try done. destruct SO as [LK _].
    match goal with R : refreshes _ _ |- _ => destruct R as (? & ? & ? & RP%refresh_provider) end.
    unfold stage_ok. simpl. rewrite RP. eapply looked_provider, LK. apply I.
  - by apply inv_save.
  - by apply inv_keep.
  - by apply inv_keep.
Qed.

Lemma inv_world_moves w0 trace w label w' :
  inv w0 trace w -> environment w label w' -> inv w0 (trace ++ [label]) w'.
Proof.
  intros I E. split; [apply I | eapply guarded_step; [apply I | by right] | | |].
  - destruct E; apply I.
  - intros p. rewrite current_snoc, <- (inv_store _ _ _ I). destruct E; simpl; [done | apply load_save |].
    rewrite load_remove. by repeat case_decide.
  - intros i c L. destruct E as [now T| |]; apply stage_snoc with w.(World.shared); try done; by eapply (inv_stage _ _ _ I).
Qed.

Lemma inv_run w0 trace w : start_ok w0 -> run w0 trace w -> inv w0 trace w.
Proof.
  intros S R. induction R as [|trace w label w' _ IH [T|T]]; [by apply inv_at_start | by eapply inv_call|].
  by eapply inv_world_moves.
Qed.
End preserved.

(** * One refresh at a time, with what was saved last *)

Section once.
Context `{AuthPackages, SerdeText}.

Lemma same_caller w0 trace w i c :
  inv w0 trace w -> w.(World.callers) !! i = Some c ->
  exists c0, c0 ∈ w0.(World.callers) /\ Caller.credential c0 = Caller.credential c /\
             Caller.force_refresh c0 = Caller.force_refresh c.
Proof.
  intros I L. assert (L0 : (identity <$> w0.(World.callers)) !! i = Some (identity c)).
  { by rewrite <- (inv_callers _ _ _ I), list_lookup_fmap, L. }
  rewrite list_lookup_fmap in L0. destruct (w0.(World.callers) !! i) as [c0|] eqn:E; [|done].
  exists c0. split; [by eapply list_elem_of_lookup_2|].
  injection L0 as _ EC EF. done.
Qed.

(** As long as nobody logs in or out, what was stored then is what was saved last. *)
Lemma current_quiet w0 before after p :
  Forall (no_refresh_of p) after -> Forall no_login after -> current w0 (before ++ after) p = current w0 before p.
Proof.
  induction after as [|label after IH] using rev_ind; intros R N; [by rewrite app_nil_r|].
  apply Forall_app in R as [R R1], N as [N N1]. rewrite Forall_singleton in R1, N1.
  rewrite app_assoc, current_snoc, IH by done. unfold no_refresh_of in R1. destruct label; simpl in *; try done.
  by rewrite decide_False.
Qed.

(** C18: however many callers, of however many processes, find the credential of a provider expired at once,
    and whoever logs in or out meanwhile, the token endpoint is only asked with an OAuth credential: the one
    that was stored, saved last by a refresh or a login, when the caller looked under the lock (its own when
    nothing was stored); and no refresh has saved another of the provider since. So, while no one logs in or
    out, it is the one saved last, and a rotated refresh token that a refresh replaced is never spent again.
    It is asked only once that credential has expired or by a caller forced to refresh that very credential,
    so the waiters of a refresh that succeeded ask for nothing; and never while the answer to another refresh of
    the provider is still to be saved. *)
Theorem refreshed_once w0 trace w latest w' :
  start_ok w0 -> run w0 trace w -> step w (Label.Asked latest) w' ->
  let p := latest.(Credential.provider) in
  is_oauth latest = true /\
  (is_expired w.(World.shared).(Shared.now) latest = true \/
   exists c, c ∈ w0.(World.callers) /\ Caller.force_refresh c = true /\ Caller.credential c = latest) /\
  (exists before after, trace = before ++ after /\ Forall (no_refresh_of p) after /\
     (Forall no_login after -> current w0 before p = current w0 trace p) /\
     match current w0 before p with
     | Some stored => latest = stored
     | None => exists c, c ∈ w0.(World.callers) /\ Caller.credential c = latest
     end) /\
  (forall d r, d ∈ w.(World.callers) -> Caller.provider d = p -> Caller.at_ d <> Stage.Saving r).
Proof.
  intros ST R M p. pose proof (inv_run _ _ _ ST R) as I.
  assert (exists i c, w.(World.callers) !! i = Some c /\ c.(Caller.at_) = Stage.Refreshing latest)
    as (i & c & L & A).
  { destruct M as [M|M]; [|by inversion M]. inversion M as [i c label sh s L S]; subst. exists i, c.
    split; [done|]. by inversion S. }
  pose proof (inv_stage _ _ _ I _ _ L) as SO. unfold stage_ok in SO. rewrite A in SO.
  destruct SO as (E & O & X). destruct (same_caller _ _ _ _ _ I L) as (c0 & IN & EC & EF).
  assert (P : p = Caller.provider c) by (eapply looked_provider, E; apply I).
  split_and!; [done | | |].
  - destruct X as [X|[F C]]; [by left|]. right. exists c0. by rewrite EF, EC.
  - rewrite P. destruct E as (before & after & -> & F & E). exists before, after. split_and!; [done | done | |].
    + intros N. by rewrite current_quiet.
    + destruct (current _ _ _); [done|]. exists c0. by rewrite EC.
  - intros d r [j LD]%list_elem_of_lookup PD AD.
    assert (i = j) as <-; [|rewrite LD in L; congruence].
    eapply (locks_one _ _ _ _ (guarded_file _ (inv_guarded _ _ _ I)) p); [exists c | exists d]; by rewrite ?A, ?AD.
Qed.

(** * Every caller gets on *)

(** How many moves a caller has left at most. *)
Definition moves_left (s : Stage.t) : nat :=
  match s with
  | Stage.Begin => 9 | Stage.WantProcess => 8 | Stage.WantFile => 7 | Stage.Loading => 6
  | Stage.Checking _ => 5 | Stage.Refreshing _ => 4 | Stage.Saving _ => 3
  | Stage.Leaving _ => 2 | Stage.LeavingProcess _ => 1 | Stage.Done _ => 0
  end.

Definition weight (callers : list Caller.t) : nat := sum_list (moves_left ∘ Caller.at_ <$> callers).

(** [runs n]: some steps, of which [n] are of callers. *)
Inductive runs : nat -> World.t -> World.t -> Prop :=
  | runs_none w : runs 0 w w
  | runs_call n w w1 label w2 : runs n w w1 -> call_moves w1 label w2 -> runs (S n) w w2
  | runs_environment n w w1 label w2 : runs n w w1 -> environment w1 label w2 -> runs n w w2.

Lemma weight_cons c callers : weight (c :: callers) = moves_left c.(Caller.at_) + weight callers.
Proof. done. Qed.

Lemma weight_insert callers i c s :
  callers !! i = Some c ->
  weight (<[i := Caller.with_stage c s]> callers) + moves_left c.(Caller.at_) = weight callers + moves_left s.
Proof.
  revert i. induction callers as [|d callers IH]; intros [|i] L; [done | done | |].
  - injection L as ->. change (<[0 := ?x]> (c :: callers)) with (x :: callers). rewrite !weight_cons. simpl. lia.
  - change (<[S i := ?x]> (d :: callers)) with (d :: <[i := x]> callers). rewrite !weight_cons.
    specialize (IH i L). lia.
Qed.

Lemma call_weight w label w' :
  call_moves w label w' -> weight w'.(World.callers) < weight w.(World.callers).
Proof.
  intros [i c label' sh s L S]. simpl. pose proof (weight_insert _ _ _ s L) as W.
  enough (moves_left s < moves_left c.(Caller.at_)) by lia.
  destruct S; simpl; try lia; case_match; simpl; lia.
Qed.

Lemma refresh_runs_weight n w w' : runs n w w' -> n + weight w'.(World.callers) <= weight w.(World.callers).
Proof.
  induction 1 as [|n w w1 label w2 _ IH M|n w w1 label w2 _ IH E]; [lia | |].
  - apply call_weight in M. lia.
  - by destruct E.
Qed.

Lemma runs_guarded n w w' : guarded w -> runs n w w' -> guarded w'.
Proof.
  intros G R. revert G. induction R as [|n w w1 label w2 _ IH M|n w w1 label w2 _ IH E]; intros G; [done| |];
    apply (guarded_step w1 label w2); auto; [by left | by right].
Qed.

Lemma refreshes_total latest : exists result, refreshes latest result.
Proof. exists (refresh (wrap 64 0) (fun _ => inr AgentError.Cancelled) (inr AgentError.Cancelled) latest). do 3 eexists. done. Qed.

(** A caller that is not done, and that no lock it wants keeps waiting. *)
Definition unblocked (sh : Shared.t) (c : Caller.t) : Prop :=
  match c.(Caller.at_) with
  | Stage.Done _ => False
  | Stage.WantProcess => process_key c ∉ sh.(Shared.process_locks)
  | Stage.WantFile => Caller.provider c ∉ sh.(Shared.file_locks)
  | _ => True
  end.

Lemma unblocked_moves sh c : unblocked sh c -> exists label sh' s, caller_step sh c c.(Caller.at_) label sh' s.
Proof.
  unfold unblocked. destruct (c.(Caller.at_)) as [| | | |latest|latest|refreshed|result|result|result]; intros U;
    try done; try (do 3 eexists; by constructor).
  destruct (refreshes_total latest) as [[cred|err] R]; do 3 eexists; [by apply step_refresh | by eapply step_refresh_failed].
Qed.

Definition is_done (c : Caller.t) : bool := match c.(Caller.at_) with Stage.Done _ => true | _ => false end.

Lemma someone_unblocked w :
  guarded w -> (exists i c, w.(World.callers) !! i = Some c /\ is_done c = false) ->
  exists i c, w.(World.callers) !! i = Some c /\ unblocked w.(World.shared) c.
Proof.
  intros [GP GF] (i & c & L & D).
  assert (FILE : forall i c, w.(World.callers) !! i = Some c -> under_process c.(Caller.at_) = true ->
            exists j d, w.(World.callers) !! j = Some d /\ unblocked w.(World.shared) d).
  { intros j d LD UD. destruct (decide (Caller.provider d ∈ w.(World.shared).(Shared.file_locks))) as [IN|N].
    - apply (locks_held _ _ _ _ GF) in IN as (k & e & LE & UE & _). exists k, e. split; [done|].
      unfold unblocked. by destruct e.(Caller.at_).
    - exists j, d. split; [done|]. unfold unblocked. by destruct d.(Caller.at_). }
  destruct (under_process c.(Caller.at_)) eqn:U; [by eapply FILE|].
  destruct (decide (process_key c ∈ w.(World.shared).(Shared.process_locks))) as [IN|N].
  - apply (locks_held _ _ _ _ GP) in IN as (k & e & LE & UE & _). by eapply FILE.
  - exists i, c. split; [done|]. revert D. unfold unblocked, is_done. by destruct c.(Caller.at_).
Qed.

(** The two locks a refresh takes in turn never block its callers for good. Whatever they find, whoever
    logs in or out meanwhile and however often, as long as a caller of [ensure_fresh] has not returned some
    caller can move without waiting for a lock, and all of them together move at most nine times each. *)
Theorem refreshes_end w0 n w :
  start_ok w0 -> runs n w0 w ->
  n <= 9 * length w0.(World.callers) /\
  (Forall (fun c => is_done c = true) w.(World.callers) \/
   exists i c label w', w.(World.callers) !! i = Some c /\ unblocked w.(World.shared) c /\ call_moves w label w').
Proof.
  intros S R. split.
  - apply refresh_runs_weight in R. destruct S as [_ C _].
    enough (weight w0.(World.callers) = 9 * length w0.(World.callers)) by lia.
    clear R. induction C as [|c callers A _ IH]; [done|]. rewrite weight_cons, A. simpl in *. lia.
  - destruct (decide (Forall (fun c => is_done c = true) w.(World.callers))) as [D|D]; [by left|]. right.
    apply not_Forall_Exists, Exists_exists in D as (c & [i L]%list_elem_of_lookup & D); [|apply _].
    destruct (someone_unblocked w) as (j & d & LD & U).
    + eapply runs_guarded; [by apply guarded_start | done].
    + exists i, c. split; [done|]. by apply not_true_iff_false.
    + destruct (unblocked_moves _ _ U) as (label & sh & s & M). exists j, d. do 2 eexists.
      split_and!; [done | done|]. by econstructor.
Qed.
End once.

(** * The login *)

Section login.
Context `{AuthPackages, SerdeText}.

(** Whatever requests reach the loopback server, the callback it takes is one of the login's own. *)
Lemma wait_for_callback_state path expected arrivals cb :
  wait_for_callback path expected arrivals = Some (inl cb) ->
  cb.(OAuthCallback.state) = Some expected /\
  (is_Some cb.(OAuthCallback.error) \/ is_Some cb.(OAuthCallback.code)).
Proof.
  induction arrivals as [|[| | |err|method target [err|]] arrivals IH]; simpl; try done.
  destruct (callback_response _ _ _ _) as [status [cb'|]] eqn:E; [|done]. intros [= ->].
  unfold callback_response in E. repeat case_match; simplify_eq.
  match goal with
  | S : negb _ = false, A : _ && _ = false |- _ =>
      apply negb_false_iff, bool_decide_eq_true in S as ->; apply andb_false_iff in A as [A%bool_decide_eq_false|A%bool_decide_eq_false]
  end; rewrite <- !not_eq_None_Some; auto.
Qed.

Lemma validate_callback_none cb expected :
  validate_callback cb expected = None <->
  cb.(OAuthCallback.error) = None /\
  (cb.(OAuthCallback.state) = Some expected \/
   cb.(OAuthCallback.manual_paste) = true /\ cb.(OAuthCallback.state) = None).
Proof.
  unfold validate_callback. destruct (OAuthCallback.error cb); [naive_solver|].
  repeat case_bool_decide; destruct (OAuthCallback.manual_paste cb); naive_solver.
Qed.

(** A login is completed by the code of a callback that carries its state, or of one pasted without any. *)
Lemma complete_validated now post start cb cred :
  complete now post start cb = inl cred ->
  cred.(Credential.provider) = start.(LoginStart.provider) /\
  cb.(OAuthCallback.error) = None /\
  (cb.(OAuthCallback.state) = Some start.(LoginStart.state) \/
   cb.(OAuthCallback.manual_paste) = true /\ cb.(OAuthCallback.state) = None) /\
  exists code, cb.(OAuthCallback.code) = Some code /\ trim code <> EmptyString.
Proof.
  intros E.
  assert (V : (cred.(Credential.provider) = start.(LoginStart.provider)) /\ exists code, validated_code start cb = inl code).
  { revert E. unfold complete, anthropic_complete, openai_complete, xai_complete. intros E.
    repeat match type of E with context [match ?e with _ => _ end] => destruct e eqn:?; try done end;
      simplify_eq; eauto using anthropic_credential_provider, openai_credential_provider, xai_credential_provider. }
  destruct V as [P [code V]]. unfold validated_code in V.
  destruct (validate_callback _ _) eqn:VC; [done|]. apply validate_callback_none in VC as [? ?].
  split_and!; [done | done | done|]. unfold require_code, nonblank in V.
  destruct (OAuthCallback.code cb) as [raw|]; [|done]. simpl in V. exists raw. split; [done|].
  destruct (String.eqb_spec (trim raw) EmptyString); congruence.
Qed.

(** A token is taken for expired five minutes before it is. *)
Lemma token_expiry now_unix expires_in now c :
  c.(Credential.expires_at_unix) = Some (expires_at now_unix expires_in EXPIRY_SKEW_SECS) ->
  (uval now_unix + uval expires_in < 2 ^ 64)%N ->
  is_expired now c = true <-> (uval now_unix + uval expires_in <= uval now + 300)%N.
Proof.
  intros E B. unfold is_expired. rewrite E, N.leb_le. unfold expires_at, EXPIRY_SKEW_SECS.
  rewrite uval_wrap_small; lia.
Qed.
End login.

(** * Two processes *)

Module Refreshes.
Ltac computes := refine (bool_decide_unpack _ _); vm_compute; exact I.

#[export] Instance packages : AuthPackages := {|
  form_parse s := (fun kv => match split_once "=" kv with Some (k, v) => (k, v) | None => (kv, EmptyString) end)
                    <$> split_on "&" s;
  base64_decode s := Some s;
  parse_url _ := None;
  with_query url pairs := inl (String.concat EmptyString (url :: ((fun kv => kv.1 +:+ "=" +:+ kv.2) <$> pairs)));
  to_lowercase := lower;
|}.

Definition openai (token : string) (expires_at_unix : N) : Credential.t :=
  Credential.Mk ProviderId.OpenAi AuthMode.Oauth token (Some ("refresh-" +:+ token)) (Some (wrap 64 expires_at_unix))
    (Some "acct") OPENAI_CODEX_BASE_URL.

Definition old := openai "old" 0.
Definition new := openai "new" 1300.

Lemma old_refreshes : refreshes old (inl new).
Proof.
  exists (wrap 64 1000), (fun _ => inl (JObj [("access_token", JStr "new"); ("refresh_token", JStr "refresh-new");
    ("expires_in", JNum 600)])), (inr AgentError.Cancelled).
  vm_compute. reflexivity.
Qed.

(** Two processes that find the stored credential expired. *)
Definition two : World.t :=
  World.start (wrap 64 1000) (AuthStore.save ∅ old)
    [Caller.Mk 1 old false Stage.Begin; Caller.Mk 2 old false Stage.Begin].

Lemma two_ok : start_ok two.
Proof.
  split; [done | by repeat constructor|]. apply save_ok. by intros [] cred.
Qed.

(** The two of them, at a time when neither the old nor the new credential changes its state. *)
Definition both (store : AuthStore.t) (process_locks : list (nat * ProviderId.t)) (file_locks : list ProviderId.t)
    (first second : Stage.t) : World.t :=
  World.Mk (Shared.Mk (wrap 64 1000) store process_locks file_locks)
    [Caller.Mk 1 old false first; Caller.Mk 2 old false second].

Lemma run_call w0 trace w i c label sh s w' :
  run w0 trace w -> w.(World.callers) !! i = Some c -> caller_step w.(World.shared) c c.(Caller.at_) label sh s ->
  w' = World.Mk sh (<[i := Caller.with_stage c s]> w.(World.callers)) ->
  run w0 (trace ++ [label]) w'.
Proof. intros R L S ->. eapply run_step; [done | by left; eapply step_call]. Qed.

(** In the run [R] caller [i] makes the step, which leads to the world. *)
Tactic Notation "goes" hyp(R) constr(i) uconstr(step) "to" uconstr(w) :=
  eapply (run_call _ _ _ i _ _ _ _ w) in R; [|reflexivity | eapply step; computes | by vm_compute].

Abbreviation p := ProviderId.OpenAi.
Abbreviation kept := (AuthStore.save ∅ old).

(** The first is about to ask for the refresh, the second waits for the file's lock. *)
Lemma two_asking :
  exists trace, run two trace (both kept [(2, p); (1, p)] [p] (Stage.Refreshing old) Stage.WantFile).
Proof.
  pose proof (run_start two) as R.
  goes R 0 step_begin to (both kept [] [] Stage.WantProcess Stage.Begin).
  goes R 1 step_begin to (both kept [] [] Stage.WantProcess Stage.WantProcess).
  goes R 0 step_lock_process to (both kept [(1, p)] [] Stage.WantFile Stage.WantProcess).
  goes R 1 step_lock_process to (both kept [(2, p); (1, p)] [] Stage.WantFile Stage.WantFile).
  goes R 0 step_lock_file to (both kept [(2, p); (1, p)] [p] Stage.Loading Stage.WantFile).
  goes R 0 step_load to (both kept [(2, p); (1, p)] [p] (Stage.Checking old) Stage.WantFile).
  goes R 0 step_check to (both kept [(2, p); (1, p)] [p] (Stage.Refreshing old) Stage.WantFile).
  by eexists.
Qed.

(** A logout takes neither lock: one made while a refresh is under way is undone by the refresh. *)
Lemma logout_undone : exists before w after w',
  run two before w /\
  let logged_out := World.Mk (Shared.with_store w.(World.shared) (AuthStore.remove w.(World.shared).(Shared.store) p))
                      w.(World.callers) in
  environment w (Label.LoggedOut p) logged_out /\
  AuthStore.load logged_out.(World.shared).(Shared.store) p = None /\
  run logged_out after w' /\
  AuthStore.load w'.(World.shared).(Shared.store) p = Some new.
Proof.
  destruct two_asking as [before B]. eexists before, _.
  set (gone := AuthStore.remove kept p).
  pose proof (run_start (both gone [(2, p); (1, p)] [p] (Stage.Refreshing old) Stage.WantFile)) as R.
  eapply (run_call _ _ _ 0 _ _ _ _ (both gone [(2, p); (1, p)] [p] (Stage.Saving new) Stage.WantFile)) in R;
    [|reflexivity | apply step_refresh, old_refreshes | done].
  goes R 0 step_save to (both (AuthStore.save gone new) [(2, p); (1, p)] [p] (Stage.Leaving (inl new)) Stage.WantFile).
  do 2 eexists. split; [exact B|]. split; [constructor|]. split; [done|]. split; [exact R | by vm_compute].
Qed.
End Refreshes.

#[local] Existing Instance Refreshes.packages.

Lemma refreshed_once_witness : exists trace w w',
  run Refreshes.two trace w /\ step w (Label.Asked Refreshes.old) w' /\
  (forall d r, d ∈ w.(World.callers) -> Caller.provider d = ProviderId.OpenAi -> Caller.at_ d <> Stage.Saving r).
Proof.
  destruct Refreshes.two_asking as [trace R]. do 2 eexists.
  assert (M : exists w', step (Refreshes.both (AuthStore.save ∅ Refreshes.old) [(2, ProviderId.OpenAi); (1, ProviderId.OpenAi)]
                  [ProviderId.OpenAi] (Stage.Refreshing Refreshes.old) Stage.WantFile) (Label.Asked Refreshes.old) w').
  { eexists. left. eapply (step_call _ 0); [reflexivity|]. apply step_refresh, Refreshes.old_refreshes. }
  destruct M as [w' M]. exists w'. split; [exact R|]. split; [exact M|].
  apply (refreshed_once _ _ _ _ _ Refreshes.two_ok R M).
Defined.

Lemma refreshes_end_witness : exists i c label w',
  Refreshes.two.(World.callers) !! i = Some c /\ unblocked Refreshes.two.(World.shared) c /\
  call_moves Refreshes.two label w'.
Proof.
  destruct (refreshes_end _ _ _ Refreshes.two_ok (runs_none _)) as [_ [D|M]]; [|exact M].
  apply Forall_inv in D. discriminate D.
Defined.

(** * The commands *)

(** A caller no other one meets does what [ensure_fresh] says. *)
Section alone.
Context `{AuthPackages, SerdeText} (now : u64) (cred : Credential.t) (force : bool) (process : nat).

Let caller (s : Stage.t) : Caller.t := Caller.Mk process cred force s.
Let W (store : AuthStore.t) (ps : list (nat * ProviderId.t)) (fs : list ProviderId.t) (s : Stage.t) : World.t :=
  World.Mk (Shared.Mk now store ps fs) [caller s].
Let mine_process : list (nat * ProviderId.t) := [(process, cred.(Credential.provider))].
Let mine_file : list ProviderId.t := [cred.(Credential.provider)].

Definition moves (w w' : World.t) : Prop := exists label, call_moves w label w'.

Lemma alone_step st ps fs s label sh s' w' :
  caller_step (Shared.Mk now st ps fs) (caller s) s label sh s' ->
  rtc moves (World.Mk sh [caller s']) w' -> rtc moves (W st ps fs s) w'.
Proof.
  intros S R. eapply rtc_l; [|exact R]. exists label.
  exact (step_call (W st ps fs s) 0 (caller s) _ _ _ eq_refl S).
Qed.

Lemma alone_unlocks st r : rtc moves (W st mine_process [] (Stage.LeavingProcess r)) (W st [] [] (Stage.Done r)).
Proof.
  eapply alone_step; [apply step_unlock_process|]. unfold Shared.with_locks, mine_process. simpl.
  rewrite filter_cons_False by naive_solver. apply rtc_refl.
Qed.

Lemma alone_leaves st r : rtc moves (W st mine_process mine_file (Stage.Leaving r)) (W st [] [] (Stage.Done r)).
Proof.
  eapply alone_step; [apply step_unlock_file|]. unfold Shared.with_locks, mine_file. simpl.
  rewrite filter_cons_False by naive_solver. apply alone_unlocks.
Qed.

Lemma alone_enters st w' :
  should_refresh now cred force = true ->
  rtc moves (W st mine_process [] Stage.WantFile) w' -> rtc moves (W st [] [] Stage.Begin) w'.
Proof.
  intros SR R. eapply alone_step; [apply step_begin|]. simpl. rewrite SR.
  eapply alone_step; [apply step_lock_process, not_elem_of_nil|]. exact R.
Qed.

Lemma alone_loads st w' :
  rtc moves (W st mine_process mine_file (Stage.Checking (default cred (AuthStore.load st cred.(Credential.provider))))) w' ->
  rtc moves (W st mine_process mine_file Stage.Loading) w'.
Proof. intros R. eapply alone_step; [apply step_load|]. exact R. Qed.

Lemma alone_locks st w' :
  rtc moves (W st mine_process mine_file Stage.Loading) w' -> rtc moves (W st mine_process [] Stage.WantFile) w'.
Proof. intros R. eapply alone_step; [apply step_lock_file, not_elem_of_nil|]. exact R. Qed.

Lemma ensure_fresh_alone post discovered faults store :
  let '(store', result) := ensure_fresh now post discovered faults store cred force in
  rtc moves (World.start now store [Caller.Mk process cred force Stage.Begin])
    (World.start now store' [Caller.Mk process cred force (Stage.Done result)]).
Proof.
  change (World.start now store _) with (W store [] [] Stage.Begin).
  unfold ensure_fresh. destruct (should_refresh now cred force) eqn:SR; simpl.
  2: { eapply alone_step; [apply step_begin|]. simpl. rewrite SR. apply rtc_refl. }
  destruct faults.(Faults.lock) as [err|].
  { apply alone_enters; [done|]. eapply alone_step; [apply (step_lock_failed _ _ err)|]. apply alone_unlocks. }
  destruct faults.(Faults.reload) as [err|].
  { apply alone_enters, alone_locks; [done|]. eapply alone_step; [apply (step_load_failed _ _ err)|]. apply alone_leaves. }
  set (latest := default cred _).
  destruct (double_check_is_fresh now cred latest force) eqn:DC.
  { apply alone_enters, alone_locks, alone_loads; [done|]. fold latest.
    eapply alone_step; [apply step_check|]. simpl. rewrite DC. apply alone_leaves. }
  assert (ENTER : forall w', rtc moves (W store mine_process mine_file (Stage.Refreshing latest)) w' -> rtc moves (W store [] [] Stage.Begin) w').
  { intros w' R. apply alone_enters, alone_locks, alone_loads; [done|]. fold latest.
    eapply alone_step; [apply step_check|]. simpl. rewrite DC. exact R. }
  destruct (refresh now post discovered latest) as [refreshed|err] eqn:R; [destruct faults.(Faults.save) as [err|]|];
    apply ENTER.
  - eapply alone_step; [apply (step_refresh _ _ _ refreshed); by do 3 eexists|].
    eapply alone_step; [apply (step_save_failed _ _ _ err)|]. apply alone_leaves.
  - eapply alone_step; [apply (step_refresh _ _ _ refreshed); by do 3 eexists|].
    eapply alone_step; [apply step_save|]. apply alone_leaves.
  - eapply alone_step; [apply (step_refresh_failed _ _ _ err); by do 3 eexists|]. apply alone_leaves.
Qed.
End alone.

Section commands.
Context `{AuthPackages, SerdeText}.

(** What answers may tell: everything but the tokens, and whether there is a token to refresh by. *)
Definition public (c : Credential.t) :=
  (c.(Credential.provider), c.(Credential.mode), c.(Credential.base_url), c.(Credential.account_id),
   c.(Credential.expires_at_unix), bool_decide (is_Some c.(Credential.refresh_token))).

Lemma answers_hide_tokens c c' include include' :
  public c = public c' ->
  credential_status c = credential_status c' /\ credential_lease c include = credential_lease c' include'.
Proof.
  destruct c, c'. unfold public. simpl. intros [= -> -> -> -> -> R].
  unfold credential_status, credential_lease, expires_json, auth_capabilities, is_oauth. simpl. by rewrite R.
Qed.

Lemma ensure_fresh_spec now post discovered faults store cred force store' result :
  store_ok store -> AuthStore.load store cred.(Credential.provider) = Some cred ->
  ensure_fresh now post discovered faults store cred force = (store', result) ->
  match result with
  | inr _ => store' = store
  | inl latest =>
      latest.(Credential.provider) = cred.(Credential.provider) /\
      AuthStore.load store' cred.(Credential.provider) = Some latest /\
      (forall q, q <> cred.(Credential.provider) -> AuthStore.load store' q = AuthStore.load store q) /\
      (store' = store /\ latest = cred \/ is_oauth latest = true /\ store' = AuthStore.save store latest)
  end.
Proof.
  intros OK L. unfold ensure_fresh. rewrite L. simpl.
  destruct (negb _) eqn:SR; [intros [= <- <-]; split_and!; auto|].
  destruct faults.(Faults.lock); [by intros [= <- <-]|]. destruct faults.(Faults.reload); [by intros [= <- <-]|].
  destruct (double_check_is_fresh _ _ _ _); [intros [= <- <-]; split_and!; auto|].
  destruct (refresh _ _ _ _) as [r|] eqn:R; [|by intros [= <- <-]].
  pose proof (refresh_oauth _ _ _ _ _ R) as O. apply refresh_provider in R.
  destruct faults.(Faults.save); intros [= <- <-]; [done|]. split_and!; [done| | |].
  - rewrite load_save, R. by rewrite decide_True.
  - intros q N. rewrite load_save, R, decide_False by congruence. done.
  - by right.
Qed.

(** What a command leaves of the store and of the pending logins. A failed one changes no credential and
    loses no pending login but those past their time. *)
Definition command_leaves (env : Meets.t) (m : AuthManager.t) (command : AuthCommand.t) (m' : AuthManager.t) : Prop :=
  let kept := (sweep_pending env m).(AuthManager.pending) in
  match command with
  | AuthCommand.AuthStart name flow =>
      exists p login, parse_builtin (trim name) = Some p /\ flow = AuthStartFlow.Browser /\
        login.(LoginStart.provider) = p /\ login.(LoginStart.state) = env.(Meets.pkce).(Pkce.state) /\
        login.(LoginStart.verifier) = env.(Meets.pkce).(Pkce.verifier) /\
        m'.(AuthManager.pending) = <["login-" +:+ env.(Meets.random_id) := PendingLogin.Mk login env.(Meets.now_ms)]> kept /\
        m'.(AuthManager.store) = m.(AuthManager.store)
  | AuthCommand.AuthComplete login_id code callback_url =>
      exists input pending cred, (match callback_url with Some url => Some url | None => code end) = Some input /\
        kept !! login_id = Some pending /\
        let cb := parse_pasted_callback (trim input) in
        validate_callback cb pending.(PendingLogin.start).(LoginStart.state) = None /\
        cred.(Credential.provider) = pending.(PendingLogin.start).(LoginStart.provider) /\
        m'.(AuthManager.pending) = delete login_id kept /\
        m'.(AuthManager.store) = AuthStore.save m.(AuthManager.store) cred
  | AuthCommand.AuthStatus name => m' = sweep_pending env m
  | AuthCommand.AuthLease name _ _ =>
      exists p cred, parse_builtin (trim name) = Some p /\ m'.(AuthManager.pending) = kept /\
        AuthStore.load m'.(AuthManager.store) p = Some cred /\ is_oauth cred = true /\
        (forall q, q <> p -> AuthStore.load m'.(AuthManager.store) q = AuthStore.load m.(AuthManager.store) q)
  | AuthCommand.AuthLogout name =>
      exists p, parse_builtin (trim name) = Some p /\ AuthStore.load m'.(AuthManager.store) p = None /\
        (forall q, q <> p -> AuthStore.load m'.(AuthManager.store) q = AuthStore.load m.(AuthManager.store) q) /\
        (forall id pending, m'.(AuthManager.pending) !! id = Some pending ->
           pending.(PendingLogin.start).(LoginStart.provider) <> p)
  end.
End commands.

Section commands_spec.
Context `{AuthPackages, SerdeText}.

Lemma parse_provider_inl name p : parse_provider name = inl p <-> parse_builtin (trim name) = Some p.
Proof. unfold parse_provider. destruct (parse_builtin _); naive_solver. Qed.

Lemma start_login_inl discovered p uri pkce login :
  start_login discovered p uri pkce = inl login ->
  login.(LoginStart.provider) = p /\ login.(LoginStart.state) = pkce.(Pkce.state) /\
  login.(LoginStart.verifier) = pkce.(Pkce.verifier).
Proof.
  unfold start_login, make_login_start. intros E.
  repeat match type of E with context [match ?e with _ => _ end] => destruct e; try done end; by simplify_eq/=.
Qed.

Definition loses_nothing (env : Meets.t) (m m' : AuthManager.t) : Prop :=
  m'.(AuthManager.store) = m.(AuthManager.store) /\
  (m'.(AuthManager.pending) = m.(AuthManager.pending) \/
   m'.(AuthManager.pending) = (sweep_pending env m).(AuthManager.pending)).

Lemma start_leaves env m name flow m' answer :
  start env (sweep_pending env m) name flow = (m', answer) ->
  match answer with
  | inr _ => loses_nothing env m m'
  | inl _ => command_leaves env m (AuthCommand.AuthStart name flow) m'
  end.
Proof.
  unfold start, loses_nothing. destruct (parse_provider name) as [p|] eqn:P; [|intros [= <- <-]; auto].
  case_decide as F; [intros [= <- <-]; auto|]. destruct (Meets.cancelled _ 1); [intros [= <- <-]; auto|].
  destruct (start_login _ _ _ _) as [login|] eqn:S; [|intros [= <- <-]; auto].
  destruct (Meets.cancelled _ 2); [intros [= <- <-]; auto|].
  apply start_login_inl in S as (? & ? & ?). intros [= <- <-]. apply parse_provider_inl in P.
  exists p, login. split_and!; try done. by destruct flow.
Qed.

Lemma complete_leaves env m login_id code callback_url m' answer :
  complete_login env (sweep_pending env m) login_id code callback_url = (m', answer) ->
  match answer with
  | inr _ => loses_nothing env m m'
  | inl _ => command_leaves env m (AuthCommand.AuthComplete login_id code callback_url) m'
  end.
Proof.
  unfold complete_login, loses_nothing. 
  destruct (match callback_url with Some url => Some url | None => code end) as [input|] eqn:I; [|intros [= <- <-]; auto].
  destruct (AuthManager.pending _ !! login_id) as [pending|] eqn:L; [|intros [= <- <-]; auto].
  destruct (complete _ _ _ _) as [cred|err] eqn:C; [|destruct err; intros [= <- <-]; auto].
  destruct (Faults.save _); [intros [= <- <-]; auto|]. intros [= <- <-].
  destruct (complete_validated _ _ _ _ _ C) as (P & E & S & _).
  exists input, pending, cred. cbv zeta. split_and!; try done. by apply validate_callback_none.
Qed.

Lemma lease_leaves env m name force include m' answer :
  store_ok m.(AuthManager.store) ->
  lease env (sweep_pending env m) name force include = (m', answer) ->
  match answer with
  | inr _ => loses_nothing env m m'
  | inl _ => command_leaves env m (AuthCommand.AuthLease name force include) m'
  end.
Proof.
  intros OK. unfold lease, loses_nothing, load_credential.
  destruct (parse_provider name) as [p|] eqn:P; [|intros [= <- <-]; auto].
  destruct (Faults.load _); [intros [= <- <-]; auto|]. simpl.
  destruct (AuthStore.load _ p) as [cred|] eqn:L; [|intros [= <- <-]; auto].
  assert (PC : cred.(Credential.provider) = p) by by apply OK.
  destruct (ensure_fresh _ _ _ _ _ _ _) as [store' [latest|]] eqn:E;
    pose proof (ensure_fresh_spec _ _ _ _ _ cred _ _ _ OK ltac:(by rewrite PC) E) as S; simpl in S; intros [= <- <-].
  - destruct S as (PL & LL & OTHER & SAME). unfold credential_lease.
    destruct (is_oauth latest) eqn:O; simpl.
    + apply parse_provider_inl in P. exists p, latest. rewrite <- PC. rewrite <- PC in P. by split_and!.
    + destruct SAME as [[-> _]|[? _]]; [auto | congruence].
  - subst. auto.
Qed.

Lemma logout_leaves env m name m' answer :
  logout env (sweep_pending env m) name = (m', answer) ->
  match answer with
  | inr _ => loses_nothing env m m'
  | inl _ => command_leaves env m (AuthCommand.AuthLogout name) m'
  end.
Proof.
  unfold logout, loses_nothing. destruct (parse_provider name) as [p|] eqn:P; [|intros [= <- <-]; auto].
  destruct (Faults.delete _); [intros [= <- <-]; auto|]. intros [= <- <-]. apply parse_provider_inl in P.
  exists p. simpl. split_and!; [done | | |].
  - rewrite load_remove. by rewrite decide_True.
  - intros q N. by rewrite load_remove, decide_False.
  - intros id pending [_ N]%map_lookup_filter_Some. done.
Qed.

(** Every [auth.*] command: what a success leaves behind it, a failure losing nothing. A login is completed
    once, within ten minutes of its start, by a callback with its own state or one pasted without any; no
    command touches the credential of another provider; a logout also ends the logins under way. *)
Theorem auth_command_spec env m command m' answer :
  store_ok m.(AuthManager.store) -> handle_command env m command = (m', answer) ->
  match answer with
  | inr _ => loses_nothing env m m'
  | inl _ => command_leaves env m command m'
  end.
Proof.
  intros OK. unfold handle_command. destruct (Meets.cancelled env 0).
  { intros [= <- <-]. split; auto. }
  destruct command as [name flow|login_id code url|name|name force include|name].
  - apply start_leaves.
  - apply complete_leaves.
  - unfold status. intros [= <- <-]. destruct (parse_provider name); [destruct (load_credential _ _ _)|]; try done;
      split; auto.
  - by apply lease_leaves.
  - apply logout_leaves.
Qed.
End commands_spec.

(** * The providers a run can name *)

Section registry.
Import ProviderRegistry.

Definition entry_ok (e : ProviderConfigEntry.t) : Prop :=
  trim e.(ProviderConfigEntry.name) <> EmptyString /\
  parse_builtin (trim e.(ProviderConfigEntry.name)) = None /\
  trim e.(ProviderConfigEntry.api_key_env) <> EmptyString.

(** The entry under its trimmed name. *)
Definition indexed (e : ProviderConfigEntry.t) : string * ProviderConfigEntry.t :=
  (trim e.(ProviderConfigEntry.name),
   ProviderConfigEntry.Mk (trim e.(ProviderConfigEntry.name)) e.(ProviderConfigEntry.wire)
     e.(ProviderConfigEntry.base_url) e.(ProviderConfigEntry.api_key_env)).

(** Entries a registry can be made of, on top of [configs]. *)
Definition fine (configs : ProviderRegistry.t) (entries : list ProviderConfigEntry.t) : Prop :=
  Forall entry_ok entries /\ NoDup (map fst (map indexed entries)) /\
  forall kv, kv ∈ map indexed entries -> bt_get kv.1 configs = None.

Lemma fine_cons configs e entries :
  bt_sorted string_leb configs ->
  let configs' := bt_entry string_leb (indexed e).1 (indexed e).2 (fun _ => (indexed e).2) configs in
  fine configs (e :: entries) <->
  entry_ok e /\ bt_get (indexed e).1 configs = None /\ fine configs' entries.
Proof.
  intros S configs'.
  assert (G : forall k, bt_get k configs' = if decide (k = (indexed e).1) then Some (indexed e).2 else bt_get k configs).
  { intros k. unfold configs'. rewrite bt_get_entry by (done || apply _). by case_decide; subst. }
  unfold fine. rewrite Forall_cons. cbn [map]. rewrite NoDup_cons. split.
  - intros ([E F] & [NI ND] & FR). split_and!; [done | apply FR; set_solver | done | done|].
    intros kv IN. rewrite G, decide_False; [apply FR; set_solver|]. intros EQ. apply NI. rewrite <- EQ.
    apply list_elem_of_fmap. eauto.
  - intros (E & N & F & ND & FR). split_and!; [done | done | | done |].
    + intros (kv & EQ & IN)%list_elem_of_fmap. specialize (FR _ IN). rewrite G, <- EQ, decide_True in FR by done. done.
    + intros kv [->|IN]%elem_of_cons; [done|]. specialize (FR _ IN). rewrite G in FR. by case_decide.
Qed.

Lemma from_entries_into_spec configs entries :
  bt_sorted string_leb configs ->
  match from_entries_into configs entries with
  | inl r => fine configs entries /\ bt_sorted string_leb r /\
             forall n e, bt_get n r = Some e <-> bt_get n configs = Some e \/ (n, e) ∈ map indexed entries
  | inr _ => ~ fine configs entries
  end.
Proof.
  revert configs. induction entries as [|e entries IH]; intros configs S.
  { simpl. split_and!; [|done|].
    - split; [constructor|]. split; [constructor | by intros ? ?%elem_of_nil].
    - intros n e. rewrite elem_of_nil. tauto. }
  pose proof (fine_cons configs e entries S) as FC. cbv zeta in FC. simpl.
  destruct (String.eqb_spec (trim e.(ProviderConfigEntry.name)) EmptyString) as [|NE]; [rewrite FC; by intros [[? _] _]|].
  case_bool_decide as B; [rewrite FC; intros [(_ & B' & _) _]; rewrite B' in B; by destruct B|].
  destruct (String.eqb_spec (trim e.(ProviderConfigEntry.api_key_env)) EmptyString) as [|NK];
    [rewrite FC; by intros [(_ & _ & ?) _]|].
  case_bool_decide as D; [rewrite FC; intros (_ & D' & _); simpl in D'; rewrite D' in D; by destruct D|].
  apply eq_None_not_Some in B. apply eq_None_not_Some in D.
  specialize (IH (bt_entry string_leb (indexed e).1 (indexed e).2 (fun _ => (indexed e).2) configs)
                (bt_entry_sorted _ _ _ _ _ S)).
  change (from_entries_into _ entries) with
    (from_entries_into (bt_entry string_leb (indexed e).1 (indexed e).2 (fun _ => (indexed e).2) configs) entries).
  destruct (from_entries_into _ entries) as [r|err]; [|rewrite FC; by intros (_ & _ & ?)].
  destruct IH as (F & SR & G). split_and!; [rewrite FC; by split_and! | done|].
  intros n c. rewrite G, bt_get_entry, elem_of_cons by (done || apply _). case_decide as EQ; [|].
  - subst n. change (trim e.(ProviderConfigEntry.name)) with (indexed e).1 in *. rewrite D.
    destruct (indexed e) as [k x]. simpl in *. split; [intros [[= <-]|]; auto | intros [|[[= <-]|]]; auto; done].
  - split; [tauto|]. intros [?|[E|]]; [by left | |by right]. destruct EQ. rewrite <- E. done.
Qed.

(** A registry is made of exactly the lists whose entries have names that are distinct, not blank and no
    built-in's, each with the variable of its key: anything else is refused, and nothing is lost. *)
Lemma from_entries_spec entries :
  match from_entries entries with
  | inl r => fine [] entries /\ bt_sorted string_leb r /\ forall n e, bt_get n r = Some e <-> (n, e) ∈ map indexed entries
  | inr _ => ~ fine [] entries
  end.
Proof.
  pose proof (from_entries_into_spec [] entries) as S. unfold from_entries.
  destruct (from_entries_into [] entries); [|apply S; constructor].
  destruct S as (F & SR & G); [constructor|]. split_and!; [done | done|]. intros n e. rewrite G. simpl. split; [intros [|]; done | auto].
Qed.

(** Every name a registry shows, an alias included, stands for what it is shown for. *)
Lemma descriptor_of_described entries r d name :
  from_entries entries = inl r -> d ∈ descriptors r ->
  name ∈ d.(ProviderDescriptor.name) :: d.(ProviderDescriptor.aliases) -> descriptor r name = Some d.
Proof.
  intros R D N. pose proof (from_entries_spec entries) as S. rewrite R in S. destruct S as ((F & _) & SR & G).
  apply elem_of_app in D as [D|D].
  { unfold builtin_descriptors in D. repeat (apply elem_of_cons in D as [->|D]); [..| by apply elem_of_nil in D];
      repeat (apply elem_of_cons in N as [->|N]); try (by apply elem_of_nil in N); reflexivity. }
  apply list_elem_of_fmap in D as ([k e] & -> & IN). simpl in N.
  apply elem_of_cons in N as [->|N]; [|by apply elem_of_nil in N].
  assert (GE : bt_get k r = Some e) by by apply (bt_sorted_get string_leb).
  assert (B : parse_builtin k = None).
  { apply G, list_elem_of_fmap in GE as (e' & EQ & IN'). rewrite Forall_forall in F.
    specialize (F e' IN') as (_ & B & _). unfold indexed in EQ. by injection EQ as -> _. }
  unfold descriptor, builtin_descriptor. rewrite B. simpl. by rewrite GE.
Qed.

Lemma from_api_key_provider p key base_url : (from_api_key p key base_url).(Credential.provider) = p.
Proof. done. Qed.

(** What a name resolves to speaks the wire it is described by, with a credential of its provider. *)
Lemma resolve_described `{AuthPackages, SerdeText} env var r store name api_key store' resolved :
  store_ok store -> resolve env var r store name api_key = (store', inl resolved) ->
  exists d, descriptor r name = Some d /\
    ProviderWire.as_str resolved.(Resolved.wire) = d.(ProviderDescriptor.wire) /\
    resolved.(Resolved.credential).(Credential.provider) = d.(ProviderDescriptor.provider_id).
Proof.
  intros OK. unfold resolve, descriptor, builtin_descriptor. destruct (parse_builtin name) as [p|] eqn:B; simpl.
  - destruct (builtin_credential env var store p api_key) as [store1 [cred|]] eqn:C; [|done]. intros [= <- <-].
    exists (builtin_described p (match p with ProviderId.Anthropic => ["claude"]
      | ProviderId.OpenAi => ["chatgpt"; "openai_responses"] | ProviderId.Xai => ["grok"] end)).
    split_and!; [by destruct p | by destruct p|]. simpl.
    unfold builtin_credential in C. destruct api_key; [by simplify_eq|]. destruct (Faults.load _); [done|].
    destruct (AuthStore.load store p) as [c|] eqn:L.
    + destruct (ensure_fresh _ _ _ _ _ _ _) as [s [c'|]] eqn:E; [|done]. simplify_eq.
      assert (P : c.(Credential.provider) = p) by by apply OK. subst p.
      by apply (ensure_fresh_spec _ _ _ _ _ _ _ _ _ OK L) in E as [-> _].
    + destruct (var _ ≫= nonempty); by simplify_eq.
  - destruct (bt_get name r) as [e|] eqn:G; [|done]. destruct (config_token _ _ _); [|done]. intros [= <- <-].
    by eexists.
Qed.
End registry.
