(* ===== verification/FlowJob.v ===== *)
(** Flows as jobs of the daemon ([nerve-workstation/src/flow_job/], [flow_store.rs], [worker/steer.rs]): the
    events a flow tells its clients, the registry of live flows and its commands, the store of flow records,
    and the steering of a live branch beside the engine, as threads. *)
From stdpp Require Import gmap strings.
From S2P Require Import Prelude Text Json FlowDefs Tape Flow Budget Disk Wire RecordStore Driver FlowReplay Transport Jobs Approval Sessions.
Open Scope nerve_scope.

(** * Events ([flow_job/observer.rs]) *)

Module FlowWorkerKind.
Inductive t := Cli | Provider | Named.
End FlowWorkerKind.

Module FlowNodeUsage.
Record t := Mk {
  input_tokens : u64;
  output_tokens : u64;
  cache_read_tokens : option u64;
  cache_creation_tokens : option u64;
}.
End FlowNodeUsage.

Module FlowRunOutcome.
Record t := Mk { ok : bool; summary : string; final_text : string }.
Definition of_flow (o : FlowOutcome.t) : t :=
  Mk o.(FlowOutcome.ok) o.(FlowOutcome.summary) (FlowOutcome.final_text o).
End FlowRunOutcome.

(** The events of the protocol that a flow emits, all of its id. *)
Module FlowEvent.
Inductive t :=
  | FlowStarted (strategy : Strategy.t)
  | FlowEdge (from to : string)
  | FlowNodeStarted (node worker : string) (kind : FlowWorkerKind.t)
  | FlowNodeAgent (node : string) (kind : AgentEventKind.t)
  | FlowNodeFinished (node : string) (ok : bool) (usage : FlowNodeUsage.t)
  | BudgetUpdate (spent_usd : f64) (spent_tokens : u64)
  | BudgetWarning (spent_usd limit_usd : f64)
  | FlowDecision (node : string) (kind : FlowDecisionKind.t)
  | FlowCompleted (outcome : FlowRunOutcome.t)
  | FlowFailed (node : option string) (summary : string).

Definition terminal (e : t) : bool := match e with FlowCompleted _ | FlowFailed _ _ => true | _ => false end.
End FlowEvent.

Definition edge (from to : string) : FlowEvent.t := FlowEvent.FlowEdge from to.

(** The loop's body with [from], which each edge moves on. *)
Fixpoint pipeline_edges (from : string) (index stages : nat) : list FlowEvent.t :=
  match stages with
  | 0 => []
  | S stages => edge from (NodeId.stage index) :: pipeline_edges (NodeId.stage index) (S index) stages
  end.
Definition emit_pipeline_edges (stages : nat) : list FlowEvent.t := pipeline_edges "flow" 0 stages.

Definition emit_debate_edges (sides : nat) (rounds : u32) : list FlowEvent.t :=
  if (sides =? 0) || (uval rounds =? 0)%N then []
  else
    flat_map (fun side =>
      edge "flow" (NodeId.debate_turn side 0) ::
      map (fun round => edge (NodeId.debate_turn side (round - 1)) (NodeId.debate_turn side round))
        (seq 1 (u32_nat rounds - 1)) ++
      [edge (NodeId.debate_turn side (u32_nat rounds - 1)) NodeId.judge]) (seq 0 sides).

Definition emit_strategy_edges (strategy : Strategy.t) : list FlowEvent.t :=
  match strategy with
  | Strategy.Single _ => [edge "flow" NodeId.single]
  | Strategy.Parallel branches _ => map (fun i => edge "flow" (NodeId.branch i)) (seq 0 (length branches))
  | Strategy.Pipeline stages => emit_pipeline_edges (length stages)
  | Strategy.VoteJudge candidates _ _ =>
      flat_map (fun i => [edge "flow" (NodeId.candidate i); edge (NodeId.candidate i) NodeId.judge])
        (seq 0 (length candidates))
  | Strategy.MapReduce _ over _ =>
      flat_map (fun i => [edge "flow" (NodeId.map i); edge (NodeId.map i) NodeId.reduce]) (seq 0 (split_len over))
  | Strategy.Debate sides rounds _ => emit_debate_edges (length sides) rounds
  | Strategy.Hierarchical _ _ => [edge "flow" NodeId.planner]
  end.

Definition worker_label (worker : WorkerRef.t) : string * FlowWorkerKind.t :=
  match worker with
  | WorkerRef.Cli name => (name, FlowWorkerKind.Cli)
  | WorkerRef.Provider provider model => (provider +:+ "/" +:+ model, FlowWorkerKind.Provider)
  | WorkerRef.Named name => (name, FlowWorkerKind.Named)
  end.

Definition nonzero (n : u32) : option u64 := if (0 <? uval n)%N then Some (widen n) else None.

Definition usage_to_flow (u : Usage.t) : FlowNodeUsage.t :=
  FlowNodeUsage.Mk (widen u.(Usage.input_tokens)) (widen u.(Usage.output_tokens))
    (nonzero u.(Usage.cache_read_tokens)) (nonzero u.(Usage.cache_creation_tokens)).

Definition strategy_label (s : Strategy.t) : string :=
  match s with
  | Strategy.Single _ => "single"
  | Strategy.Parallel _ _ => "parallel"
  | Strategy.Pipeline _ => "pipeline"
  | Strategy.MapReduce _ _ _ => "map_reduce"
  | Strategy.VoteJudge _ _ _ => "vote_judge"
  | Strategy.Debate _ _ _ => "debate"
  | Strategy.Hierarchical _ _ => "hierarchical"
  end.

Definition refusal_kind (refusal : SpawnRefusal.t) : FlowDecisionKind.t :=
  match refusal with
  | SpawnRefusal.Depth depth max_depth => FlowDecisionKind.DepthCeiling depth max_depth
  | SpawnRefusal.Workers live_workers max_workers => FlowDecisionKind.WorkerCeiling live_workers max_workers
  | SpawnRefusal.Budget => FlowDecisionKind.BudgetExhausted
  end.

(** [FlowEventObserver]: what it emits at each call of the engine's thread. *)
Definition observe (e : Effect.t) : list FlowEvent.t :=
  match e with
  | Effect.Decided node kind => [FlowEvent.FlowDecision node kind]
  | Effect.SpawnRefused node refusal => [FlowEvent.FlowDecision node (refusal_kind refusal)]
  | Effect.NodeFinished node result =>
      [FlowEvent.FlowNodeFinished node result.(TurnResult.ok) (usage_to_flow result.(TurnResult.usage))]
  | Effect.BudgetDebited snapshot decision =>
      FlowEvent.BudgetUpdate snapshot.(BudgetSnapshot.spent_usd) snapshot.(BudgetSnapshot.spent_tokens) ::
      match decision with
      | BudgetDecision.Within => []
      | BudgetDecision.Warn limit_usd => [FlowEvent.BudgetWarning snapshot.(BudgetSnapshot.spent_usd) limit_usd]
      | BudgetDecision.Exhausted => [FlowEvent.FlowDecision "flow" FlowDecisionKind.BudgetExhausted]
      end
  | Effect.SessionRegistered _ | Effect.SessionClosed _ | Effect.RegistryClosed => []
  end.

(** [node_started] and [on_progress], which the worker threads call. *)
Definition node_started (node : string) (worker : WorkerRef.t) : FlowEvent.t :=
  let '(label, kind) := worker_label worker in FlowEvent.FlowNodeStarted node label kind.
Definition on_progress (node : string) (event : WorkerEvent.t) : list FlowEvent.t :=
  match event with WorkerEvent.Step kind => [FlowEvent.FlowNodeAgent node kind] | _ => [] end.

(** * The live flows ([flow_job/live.rs]) *)

(** The handles an entry shares with its run, its frontier, tape, budget and fleet, are not in it: [Steering] has
    the first two, [steer_admission] and [steer_answer] take the others. *)

Module FlowEntry.
Record t := Mk {
  cancel : bool;
  strategy_label : string;
  name : string;
  created_seq : nat;
  outcome : option FlowRunOutcome.t;
}.
Definition with_cancel (e : t) : t := Mk true e.(strategy_label) e.(name) e.(created_seq) e.(outcome).
Definition with_outcome (e : t) (o : FlowRunOutcome.t) : t :=
  Mk e.(cancel) e.(strategy_label) e.(name) e.(created_seq) (Some o).
End FlowEntry.

Definition outcome_json (o : option FlowRunOutcome.t) : json :=
  match o with
  | None => JNull
  | Some o =>
      JObj ([("ok", JBool o.(FlowRunOutcome.ok)); ("summary", JStr o.(FlowRunOutcome.summary))] ++
            (if String.eqb o.(FlowRunOutcome.final_text) EmptyString then []
             else [("final_text", JStr o.(FlowRunOutcome.final_text))]))
  end.

Definition snapshot (flow_id : string) (e : FlowEntry.t) : json :=
  JObj [("flow_id", JStr flow_id); ("name", JStr e.(FlowEntry.name));
        ("strategy", JStr e.(FlowEntry.strategy_label));
        ("status", JStr (match e.(FlowEntry.outcome) with Some _ => "finished" | None => "running" end));
        ("outcome", outcome_json e.(FlowEntry.outcome))].

Definition no_flow (flow_id : string) : RuntimeError.t := RuntimeError.Adapter ("no flow `" +:+ flow_id +:+ "`").

Module LiveFlows.
Record t := Mk { flows : gmap string FlowEntry.t; next_seq : nat }.
Definition default : t := Mk ∅ 0.

Definition register (l : t) (flow_id : string) (def : WorkflowDef.t) : t :=
  let seq := S l.(next_seq) in
  Mk (<[flow_id := FlowEntry.Mk false (strategy_label def.(WorkflowDef.strategy)) def.(WorkflowDef.name) seq None]>
        l.(flows)) seq.

Definition steer_target (l : t) (flow_id : string) : FlowEntry.t + RuntimeError.t :=
  match l.(flows) !! flow_id with
  | None => inr (no_flow flow_id)
  | Some e =>
      match e.(FlowEntry.outcome) with
      | Some _ => inr (RuntimeError.Adapter ("flow `" +:+ flow_id +:+ "` has finished; nothing to steer"))
      | None => inl e
      end
  end.

Definition record_outcome (l : t) (flow_id : string) (outcome : FlowRunOutcome.t) : t :=
  Mk (alter (fun e => FlowEntry.with_outcome e outcome) flow_id l.(flows)) l.(next_seq).

(** The registry's token of a flow fires. *)
Definition cancel (l : t) (flow_id : string) : t := Mk (alter FlowEntry.with_cancel flow_id l.(flows)) l.(next_seq).

Definition get (l : t) (flow_id : string) : json + RuntimeError.t :=
  match l.(flows) !! flow_id with Some e => inl (snapshot flow_id e) | None => inr (no_flow flow_id) end.

(** [sort_by_key] of what the map gives in any order; the keys are distinct. *)
Definition by_seq (a b : string * FlowEntry.t) : bool := a.2.(FlowEntry.created_seq) <=? b.2.(FlowEntry.created_seq).
Definition list (l : t) : Datatypes.list json :=
  map (fun kv => snapshot kv.1 kv.2) (sort_by by_seq (map_to_list l.(flows))).

Definition close (l : t) (flow_id : string) : t * (json + RuntimeError.t) :=
  match l.(flows) !! flow_id with
  | None => (l, inr (no_flow flow_id))
  | Some _ => (cancel l flow_id, inl (JObj [("flow_id", JStr flow_id); ("closed", JBool true)]))
  end.
End LiveFlows.

(** * The store of flows ([flow_store.rs]) *)

Definition FLOW_SCHEMA_VERSION : u32 := wrap 32 1.

Module FlowStoreOutcome.
Record t := Mk { ok : bool; summary : string; final_text : string }.

#[export, refine] Instance serde : Serde t :=
  {| ser o := obj [fld "ok" o.(ok); fld "summary" o.(summary); fld "final_text" o.(final_text)];
     de j := m ← as_obj j;
       ok ← req "ok" m; summary ← req "summary" m; final_text ← dflt EmptyString "final_text" m;
       Some (Mk ok summary final_text) |}.
Proof. all: session_struct. Defined.
End FlowStoreOutcome.

Module FlowRecord.
Record t := Mk {
  schema_version : u32;
  flow_id : string;
  name : string;
  strategy : string;
  started_at_ms : u64;
  updated_at_ms : option u64;
  finished : bool;
  outcome : option FlowStoreOutcome.t;
}.
Export (hints) FlowStoreOutcome.

#[export, refine] Instance serde : Serde t :=
  {| ser r := obj [fld "schema_version" r.(schema_version); fld "flow_id" r.(flow_id); fld "name" r.(name);
                   fld "strategy" r.(strategy); fld "started_at_ms" r.(started_at_ms);
                   fld_null "updated_at_ms" r.(updated_at_ms); fld "finished" r.(finished);
                   fld_null "outcome" r.(outcome)];
     de j := m ← as_obj j;
       schema_version ← req "schema_version" m; flow_id ← req "flow_id" m; name ← req "name" m;
       strategy ← req "strategy" m; started_at_ms ← req "started_at_ms" m;
       updated_at_ms ← opt "updated_at_ms" m; finished ← dflt false "finished" m; outcome ← opt "outcome" m;
       Some (Mk schema_version flow_id name strategy started_at_ms updated_at_ms finished outcome) |}.
Proof. all: session_struct. Defined.

Definition begin (now_ms : u64) (flow_id : string) (def : WorkflowDef.t) : t :=
  Mk FLOW_SCHEMA_VERSION flow_id def.(WorkflowDef.name) (strategy_label def.(WorkflowDef.strategy)) now_ms None false
    None.

Definition finish (now_ms : u64) (r : t) (ok : bool) (summary final_text : string) : t :=
  Mk r.(schema_version) r.(flow_id) r.(name) r.(strategy) r.(started_at_ms) (Some now_ms) true
    (Some (FlowStoreOutcome.Mk ok summary final_text)).
End FlowRecord.
Export (hints) FlowRecord.

Definition validate_flow_id (id : string) : unit + string :=
  if id_valid id then inl tt
  else inr ("invalid flow id '" +:+ id +:+ "': use only letters, digits, '-' and '_'").

(** The newest first, then the last id. *)
Definition newest_flow (a b : FlowRecord.t) : bool := newest_first FlowRecord.started_at_ms FlowRecord.flow_id a b.

(** [dir]: the directory of flows. The texts of a definition and of a tape are their values' JSON. *)
Section flow_store.
Context `{SerdeJson, SerdeText} (io_text : IoError.t -> string) (dir : string).

Definition flow_dir (flow_id : string) : string + string :=
  match validate_flow_id flow_id with inl _ => inl (dir +:+ "/" +:+ flow_id) | inr e => inr e end.

(** One file of a flow's directory, made if it is not there. *)
Definition write_file (flow_id name text : string) : io (unit + string) :=
  match flow_dir flow_id with
  | inr e => Ret (inr e)
  | inl flow =>
      try! _ := with_context ("failed to create flow dir " +:+ flow) (sys (CreateDirAll flow)) in
      atomic_write (flow, name) text
  end.

Definition write_def (flow_id def_text : string) : io (unit + string) := write_file flow_id "def.json" def_text.
Definition write_flow_record (r : FlowRecord.t) : io (unit + string) :=
  write_file r.(FlowRecord.flow_id) "record.json" (to_string_pretty (ser r)).
Definition write_ledger (flow_id ledger_text : string) : io (unit + string) :=
  write_file flow_id "ledger.jsonl" ledger_text.

Definition deserialize_flow_record (raw : string) : option FlowRecord.t :=
  deserialize_versioned FlowRecord.t FLOW_SCHEMA_VERSION raw.

(** The text of one file of a flow's directory. *)
Definition read_file (flow_id name : string) : io (string + string) :=
  match flow_dir flow_id with
  | inr e => Ret (inr e)
  | inl flow => with_context ("failed to read " +:+ display (flow, name)) (sys (ReadToString (flow, name)))
  end.

Definition load_flow_record (flow_id : string) : io (FlowRecord.t + string) :=
  try! raw := read_file flow_id "record.json" in
  Ret (match deserialize_flow_record raw with
       | Some record => inl record
       | None => inr ("failed to parse flow " +:+ flow_id)
       end).

(** [list]: [entries] are the directories in the flows' directory, or the error of reading it. *)
Fixpoint read_flow_records (entries : list string) : io (list FlowRecord.t) :=
  match entries with
  | [] => Ret []
  | entry :: entries =>
      run! raw := sys (ReadToString (dir +:+ "/" +:+ entry, "record.json")) in
      run! rest := read_flow_records entries in
      Ret (match raw with
           | inl raw => match deserialize_flow_record raw with Some record => record :: rest | None => rest end
           | inr _ => rest
           end)
  end.

Definition list_flow_records (entries : list string + IoError.t) : io (list FlowRecord.t + string) :=
  match entries with
  | inl names => run! records := read_flow_records names in Ret (inl (sort_by newest_flow records))
  | inr IoError.NotFound => Ret (inl [])
  | inr err => Ret (inr ("failed to read " +:+ dir +:+ ": " +:+ io_text err))
  end.

(** [flow_job/persist.rs]: what cannot be written is told to the log and passed over. *)
Definition persist_flow_start (now_ms : u64) (flow_id : string) (def : WorkflowDef.t) (def_text : string)
    : io FlowRecord.t :=
  let record := FlowRecord.begin now_ms flow_id def in
  run! _ := write_def flow_id def_text in
  run! _ := write_flow_record record in
  Ret record.

Definition persist_flow_finish (now_ms : u64) (record : FlowRecord.t) (outcome : FlowOutcome.t) (ledger_text : string)
    : io FlowRecord.t :=
  let record := FlowRecord.finish now_ms record outcome.(FlowOutcome.ok) outcome.(FlowOutcome.summary)
                  (FlowOutcome.final_text outcome) in
  run! _ := write_flow_record record in
  run! _ := write_ledger record.(FlowRecord.flow_id) ledger_text in
  Ret record.
End flow_store.

(** * The commands ([flow_job/mod.rs]) *)

Definition persisted_flow_snapshot (r : FlowRecord.t) : json :=
  JObj [("flow_id", JStr r.(FlowRecord.flow_id)); ("name", JStr r.(FlowRecord.name));
        ("strategy", JStr r.(FlowRecord.strategy));
        ("status", JStr (if r.(FlowRecord.finished) then "finished" else "interrupted"));
        ("outcome", match r.(FlowRecord.outcome) with
                    | Some o => JObj [("ok", JBool o.(FlowStoreOutcome.ok)); ("summary", JStr o.(FlowStoreOutcome.summary));
                                      ("final_text", JStr o.(FlowStoreOutcome.final_text))]
                    | None => JNull
                    end);
        ("persisted", JBool true)].

(** [stored]: what the store gives for the id, [None] when there is no store. *)
Definition run_flow_get (l : LiveFlows.t) (flow_id : string) (stored : option (FlowRecord.t + string))
    : json + RuntimeError.t :=
  match LiveFlows.get l flow_id with
  | inl flow => inl (JObj [("flow", flow)])
  | inr _ =>
      match stored with
      | None => inr (no_flow flow_id)
      | Some (inr err) => inr (RuntimeError.Adapter ("no flow `" +:+ flow_id +:+ "`: " +:+ err))
      | Some (inl record) => inl (JObj [("flow", persisted_flow_snapshot record)])
      end
  end.

Definition live_flow_ids (entries : list json) : list string := omap (fun e => value_get "flow_id" e ≫= as_str) entries.

Definition run_flow_list (l : LiveFlows.t) (stored : option (list FlowRecord.t + string)) : json :=
  let entries := LiveFlows.list l in
  let past :=
    match stored with
    | Some (inl records) =>
        map persisted_flow_snapshot
          (filter (fun r => r.(FlowRecord.flow_id) ∉ live_flow_ids entries) records)
    | _ => []
    end in
  JObj [("flows", JArr (entries ++ past))].

(** The token of the registry is tripped at every end. *)
Definition finish_flow (l : LiveFlows.t) (flow_id : string) (def : WorkflowDef.t) (outcome : FlowOutcome.t)
    (job_cancelled : bool) : LiveFlows.t * FlowEvent.t * (json + RuntimeError.t) :=
  let cancelled := job_cancelled || from_option FlowEntry.cancel false (l.(LiveFlows.flows) !! flow_id) in
  let l := LiveFlows.cancel l flow_id in
  let run_outcome := FlowRunOutcome.of_flow outcome in
  let l := LiveFlows.record_outcome l flow_id run_outcome in
  if cancelled then (l, FlowEvent.FlowFailed None "flow cancelled", inr RuntimeError.cancelled)
  else
    (l,
     (if outcome.(FlowOutcome.ok) then FlowEvent.FlowCompleted run_outcome
      else FlowEvent.FlowFailed None outcome.(FlowOutcome.summary)),
     inl (JObj [("flow_id", JStr flow_id); ("name", JStr def.(WorkflowDef.name)); ("ok", JBool outcome.(FlowOutcome.ok));
                ("summary", JStr outcome.(FlowOutcome.summary));
                ("final_text", JStr run_outcome.(FlowRunOutcome.final_text))])).

(** A job of [flow.start], from a workflow that was resolved: its engine [d] runs with the definition's budget,
    [meanwhile] is what the other commands make of the registry during the run, [job_cancelled] the job's
    token at its end. The events are those of the job's thread. *)
Definition run_flow_start (d : Driver.t) (l : LiveFlows.t) (flow_id : string) (def : WorkflowDef.t)
    (meanwhile : LiveFlows.t -> LiveFlows.t) (job_cancelled : bool)
    : LiveFlows.t * list FlowEvent.t * (json + RuntimeError.t) :=
  let l := LiveFlows.register l flow_id def in
  let '(budget, (_, semaphore)) := flow_envelope def in
  let '(outcome, r) := Driver.run d def (Some budget) semaphore in
  let '(l, last, result) := finish_flow (meanwhile l) flow_id def outcome job_cancelled in
  (l,
   (FlowEvent.FlowStarted def.(WorkflowDef.strategy) :: emit_strategy_edges def.(WorkflowDef.strategy)) ++
   flat_map observe r.(Run.log) ++ [last],
   result).

Definition run_flow_close (l : LiveFlows.t) (flow_id : string) : LiveFlows.t * (json + RuntimeError.t) :=
  LiveFlows.close l flow_id.

Definition run_flow_respond (hub : ApprovalHub.t) (flow_id request_id : string) (decision : SessionApprovalDecision.t)
    : ApprovalHub.t * json :=
  let '(hub, responded) := ApprovalHub.respond hub flow_id request_id decision in
  (hub, JObj [("flow_id", JStr flow_id); ("request_id", JStr request_id); ("responded", JBool responded)]).

(** * Steering ([worker/steer.rs]) *)

Module SteerError.
Inductive t :=
  | NoLiveBranch (selector : string)
  | Ambiguous (count : nat)
  | NotSteerable
  | Turn (message : string).

Definition display (e : t) : string :=
  match e with
  | NoLiveBranch selector => "no live flow branch for " +:+ selector +:+ " (it may have advanced or finished)"
  | Ambiguous count =>
      show_nat count +:+ " branches are live; specify target.node_id to steer a specific one"
  | NotSteerable => "this flow branch is one-shot and cannot be steered"
  | Turn message => "steer turn failed: " +:+ message
  end.
End SteerError.

Definition steer_error (flow_id : string) (err : SteerError.t) : RuntimeError.t :=
  match err with
  | SteerError.Turn message =>
      if contains_str "cancel" message then RuntimeError.cancelled
      else RuntimeError.Adapter ("flow `" +:+ flow_id +:+ "` steer failed: " +:+ SteerError.display err)
  | _ => RuntimeError.Adapter ("flow `" +:+ flow_id +:+ "` steer failed: " +:+ SteerError.display err)
  end.

Definition steer_refusal_message (flow_id : string) (refusal : SpawnRefusal.t) : string :=
  let reason :=
    match refusal with
    | SpawnRefusal.Depth depth max_depth => "depth ceiling (" +:+ show_u depth +:+ "/" +:+ show_u max_depth +:+ ")"
    | SpawnRefusal.Workers live_workers max_workers =>
        "worker ceiling (" +:+ show_u live_workers +:+ "/" +:+ show_u max_workers +:+ ")"
    | SpawnRefusal.Budget => "fleet budget exhausted"
    end in
  "flow `" +:+ flow_id +:+ "` steer refused: " +:+ reason.

(** [SteerRegistry::resolve] on the live workers, each by the index of its session. *)
Definition resolve_target (workers : gmap string nat) (node_id : option string) : (string * nat) + SteerError.t :=
  match node_id with
  | Some id =>
      match workers !! id with
      | Some h => inl (id, h)
      | None => inr (SteerError.NoLiveBranch ("node `" +:+ id +:+ "`"))
      end
  | None =>
      match map_to_list workers with
      | [] => inr (SteerError.NoLiveBranch "the only live worker")
      | [entry] => inl entry
      | entries => inr (SteerError.Ambiguous (length entries))
      end
  end.

(** What the engine's thread does to the tape and to the registry, one access at a time. *)
Module EngineOp.
Inductive t :=
  | Push (node : string) (payload : LedgerPayload.t)
  | Detach
  | CloseSession (h : nat)
  | Register (node : string).
End EngineOp.

(** The accesses of [finish_node] for one node: its tape entries, then, for a steerable session, the closing
    of every frontier and its own registration. *)
Definition node_ops (steerable : bool) (nr : NodeResult.t) : list EngineOp.t :=
  map (EngineOp.Push nr.(NodeResult.node)) (run_payloads nr.(NodeResult.run)) ++
  (if nr.(NodeResult.run).(NodeRun.session) && steerable
   then [EngineOp.Detach; EngineOp.Register nr.(NodeResult.node)] else []).

(** Those of a run: its nodes in the order of its folds, then the closing of what is left. *)
Definition engine_ops (nodes : list (bool * NodeResult.t)) : list EngineOp.t :=
  flat_map (fun n => node_ops n.1 n.2) nodes ++ [EngineOp.Detach].

(** A live worker's session, with the steerer that has it locked. *)
Module Session.
Record t := Mk { open : bool; holder : option nat }.
End Session.

(** One call of [steer]: before its resolution, with a worker to lock, running a turn on its session with the
    events collected so far, recording the turn, about to give the session back, and returned. *)
Module Steer.
Inductive stage :=
  | Begin
  | Resolved (node : string) (h : nat)
  | Held (node : string) (h : nat) (events : list WorkerEvent.t)
  | Recording (node : string) (h : nat) (events : list WorkerEvent.t) (result : TurnResult.t)
  | Releasing (h : nat) (answer : (string * TurnResult.t) + SteerError.t)
  | Done (answer : (string * TurnResult.t) + SteerError.t).
Record t := Mk { target : option string; at_ : stage }.
Definition with_stage (s : t) (stage : stage) : t := Mk s.(target) stage.
End Steer.

(** [streamed]: what [on_event] gave the clients, by the steerer and the node. *)
Module Steering.
Record t := Mk {
  workers : gmap string nat;
  sessions : list Session.t;
  ledger : WorkerLedger.t;
  engine : list EngineOp.t;
  steers : list Steer.t;
  streamed : list (nat * string * WorkerEvent.t);
}.

Definition start (nodes : list (bool * NodeResult.t)) (targets : list (option string)) : t :=
  Mk ∅ [] WorkerLedger.new (engine_ops nodes) (map (fun target => Steer.Mk target Steer.Begin) targets) [].

Definition with_steer (w : t) (i : nat) (s : Steer.t) (stage : Steer.stage) : t :=
  Mk w.(workers) w.(sessions) w.(ledger) w.(engine) (<[i := Steer.with_stage s stage]> w.(steers)) w.(streamed).
Definition with_session (w : t) (h : nat) (session : Session.t) : t :=
  Mk w.(workers) (<[h := session]> w.(sessions)) w.(ledger) w.(engine) w.(steers) w.(streamed).
Definition with_ledger (w : t) (l : WorkerLedger.t) : t :=
  Mk w.(workers) w.(sessions) l w.(engine) w.(steers) w.(streamed).
Definition with_engine (w : t) (ops : list EngineOp.t) : t :=
  Mk w.(workers) w.(sessions) w.(ledger) ops w.(steers) w.(streamed).
Definition with_streamed (w : t) (i : nat) (node : string) (event : WorkerEvent.t) : t :=
  Mk w.(workers) w.(sessions) w.(ledger) w.(engine) w.(steers) (w.(streamed) ++ [(i, node, event)]).

(** An entry pushed, with the blackboard's for a result. *)
Definition record (l : WorkerLedger.t) (node : string) (payload : LedgerPayload.t) : WorkerLedger.t :=
  match payload with
  | LedgerPayload.Result result => WorkerLedger.record_result l node result
  | _ => WorkerLedger.push l node payload
  end.

Inductive engine_step (w : t) : t -> Prop :=
  | step_push node payload ops :
      w.(engine) = EngineOp.Push node payload :: ops ->
      engine_step w (with_engine (with_ledger w (record w.(ledger) node payload)) ops)
  | step_detach ops drained :
      w.(engine) = EngineOp.Detach :: ops -> drained ≡ₚ (map_to_list w.(workers)).*2 ->
      engine_step w (Mk ∅ w.(sessions) w.(ledger) (map EngineOp.CloseSession drained ++ ops) w.(steers) w.(streamed))
  | step_close h session ops :
      w.(engine) = EngineOp.CloseSession h :: ops -> w.(sessions) !! h = Some session ->
      session.(Session.holder) = None ->
      engine_step w (with_engine (with_session w h (Session.Mk false None)) ops)
  | step_register node ops :
      w.(engine) = EngineOp.Register node :: ops ->
      engine_step w (Mk (<[node := length w.(sessions)]> w.(workers)) (w.(sessions) ++ [Session.Mk true None])
                       w.(ledger) ops w.(steers) w.(streamed)).

(** The turn itself gives any events, each streamed and collected as it comes, and any end. *)
Inductive steer_step (w : t) (i : nat) (s : Steer.t) : Steer.stage -> t -> Prop :=
  | step_resolve :
      steer_step w i s Steer.Begin
        (with_steer w i s (match resolve_target w.(workers) s.(Steer.target) with
                           | inl (node, h) => Steer.Resolved node h
                           | inr err => Steer.Done (inr err)
                           end))
  | step_lock node h :
      w.(sessions) !! h = Some (Session.Mk true None) ->
      steer_step w i s (Steer.Resolved node h)
        (with_steer (with_session w h (Session.Mk true (Some i))) i s (Steer.Held node h []))
  | step_late node h :
      w.(sessions) !! h = Some (Session.Mk false None) ->
      steer_step w i s (Steer.Resolved node h) (with_steer w i s (Steer.Done (inr SteerError.NotSteerable)))
  | step_turn_event node h events event :
      steer_step w i s (Steer.Held node h events)
        (with_steer (with_streamed w i node event) i s (Steer.Held node h (events ++ [event])))
  | step_turn node h events result :
      steer_step w i s (Steer.Held node h events) (with_steer w i s (Steer.Recording node h events result))
  | step_turn_failed node h events err :
      steer_step w i s (Steer.Held node h events) (with_steer w i s (Steer.Releasing h (inr err)))
  | step_record_event node h event events result :
      steer_step w i s (Steer.Recording node h (event :: events) result)
        (with_steer (with_ledger w (record w.(ledger) node (LedgerPayload.Event event))) i s
           (Steer.Recording node h events result))
  | step_record_result node h result :
      steer_step w i s (Steer.Recording node h [] result)
        (with_steer (with_ledger w (record w.(ledger) node (LedgerPayload.Result result))) i s
           (Steer.Releasing h (inl (node, result))))
  | step_release h session answer :
      w.(sessions) !! h = Some session ->
      steer_step w i s (Steer.Releasing h answer)
        (with_steer (with_session w h (Session.Mk session.(Session.open) None)) i s (Steer.Done answer)).

Inductive step (w : t) : t -> Prop :=
  | step_engine w' : engine_step w w' -> step w w'
  | step_steer i s w' : w.(steers) !! i = Some s -> steer_step w i s s.(Steer.at_) w' -> step w w'.
End Steering.

(** ** The command *)

(** What [run_flow_steer] does before and after the turn: the budget and a slot first; then the debit, and
    whether it trips the flow's token. *)
Definition steer_admission (flow_id : string) (budget : BudgetLedger.t) (fleet : FleetBudget.t) (sem : WorkerSemaphore.t)
    : WorkerSemaphore.t + RuntimeError.t :=
  if BudgetLedger.is_exhausted budget then
    inr (RuntimeError.Adapter ("flow `" +:+ flow_id +:+ "` steer refused: fleet budget exhausted"))
  else
    match FleetBudget.acquire fleet sem with
    | inl sem => inl sem
    | inr refusal => inr (RuntimeError.Adapter (steer_refusal_message flow_id refusal))
    end.

Definition steer_answer (l : LiveFlows.t) (flow_id : string) (budget : BudgetLedger.t)
    (answer : (string * TurnResult.t) + SteerError.t) : LiveFlows.t * BudgetLedger.t * (json + RuntimeError.t) :=
  match answer with
  | inr err => (l, budget, inr (steer_error flow_id err))
  | inl (node, result) =>
      let '(decision, budget) := BudgetLedger.debit budget result in
      let l := match decision with BudgetDecision.Exhausted => LiveFlows.cancel l flow_id | _ => l end in
      (l, budget,
       inl (JObj [("flow_id", JStr flow_id); ("node_id", JStr node); ("ok", JBool result.(TurnResult.ok));
                  ("text", JStr result.(TurnResult.text)); ("steered", JBool true)]))
  end.
