(* ===== verification/FlowJobSpec.v ===== *)
(** Flows as jobs, proved: the edges shown are the order the engine works in, a job's events end in one end
    that says what its answer says, however a live branch is steered its tape is one of whole turns, and on disk
    a flow is found as it was, begun or finished. *)
From stdpp Require Import gmap strings relations.
From S2P Require Import Prelude Text Json FlowDefs Tape Flow FlowSpec Budget Disk Wire RecordStore StoreSpec Driver FlowReplay Transport Jobs Approval Sessions Reference WireReference FlowJob.
Open Scope nerve_scope.

(** * Edges *)

Definition edge_of (e : FlowEvent.t) : option (string * string) :=
  match e with FlowEvent.FlowEdge from to => Some (from, to) | _ => None end.
Definition edges (s : Strategy.t) : list (string * string) := omap edge_of (emit_strategy_edges s).

Lemma omap_flat_map {A B C} (f : B -> option C) (g : A -> list B) l :
  omap f (flat_map g l) = flat_map (fun x => omap f (g x)) l.
Proof. induction l as [|x l IH]; [done|]. cbn [flat_map]. by rewrite omap_app, IH. Qed.

Lemma omap_map {A B C} (f : B -> option C) (g : A -> B) l : omap f (map g l) = omap (fun x => f (g x)) l.
Proof. induction l as [|x l IH]; [done|]. simpl. destruct (f (g x)); [f_equal|]; exact IH. Qed.

Lemma elem_of_flat_map {A B} (g : A -> list B) l y : y ∈ flat_map g l <-> exists x, x ∈ l /\ y ∈ g x.
Proof. rewrite list_elem_of_In, in_flat_map. setoid_rewrite list_elem_of_In. done. Qed.

Lemma elem_of_upto n i : i ∈ seq 0 n <-> i < n.
Proof. rewrite elem_of_seq. lia. Qed.

Lemma parallel_edges branches j f t :
  (f, t) ∈ edges (Strategy.Parallel branches j) <-> f = "flow" /\ exists i, i < length branches /\ t = NodeId.branch i.
Proof.
  unfold edges. cbn [emit_strategy_edges]. rewrite omap_map, list_elem_of_omap. setoid_rewrite elem_of_upto. naive_solver.
Qed.

Lemma pipeline_edges_spec from index n f t :
  (f, t) ∈ omap edge_of (pipeline_edges from index n) <->
  exists i, i < n /\ t = NodeId.stage (index + i) /\ f = (if i =? 0 then from else NodeId.stage (index + i - 1)).
Proof.
  revert from index. induction n as [|n IH]; intros from index; simpl.
  { rewrite elem_of_nil. split; [done|]. intros (i & ? & _). lia. }
  rewrite elem_of_cons, IH. split.
  - intros [[= -> ->]|(i & L & -> & ->)].
    + exists 0. rewrite Nat.add_0_r. split_and!; [lia | done | done].
    + exists (S i). split_and!; [lia | f_equal; lia |]. simpl. destruct i; simpl; f_equal; lia.
  - intros ([|i] & L & -> & ->); [left; by rewrite Nat.add_0_r|]. right. exists i. split_and!; [lia | f_equal; lia |].
    destruct i; simpl; f_equal; lia.
Qed.

Lemma started_of_wave_starts st nodes n : n ∈ start_nodes (wave_starts st nodes) -> n ∈ nodes.
Proof. rewrite wave_starts_nodes, list_elem_of_In, List.filter_In, <- list_elem_of_In. tauto. Qed.

Lemma started_of_wave st nodes actions n :
  Flow.dispatch_wave st nodes = Some actions -> n ∈ start_nodes actions -> n ∈ nodes.
Proof. unfold Flow.dispatch_wave. destruct (forallb _ nodes); [done|]. intros [= <-]. apply started_of_wave_starts. Qed.

Lemma collected_all st nodes results n :
  collect_results st nodes = Some results -> n ∈ nodes -> is_Some (FlowState.result st n).
Proof.
  intros C%mapM_Some I. apply list_elem_of_lookup in I as [i L].
  destruct (Forall2_lookup_l _ _ _ _ _ C L) as (r & _ & E). eauto.
Qed.

Lemma in_ids (f : nat -> NodeId.t) k n : n ∈ map f (seq 0 k) <-> exists i, i < k /\ n = f i.
Proof. rewrite list_elem_of_fmap. setoid_rewrite elem_of_upto. naive_solver. Qed.

(** The nodes an engine starts that fans out and then folds. *)
Lemma started_parallel st k j n :
  n ∈ start_nodes (step_parallel st k j) -> exists i, i < k /\ n = NodeId.branch i.
Proof.
  unfold step_parallel. destruct (k =? 0); [by intros ?%elem_of_nil|].
  destruct (existsb _ _); [intros I%started_of_wave_starts; by apply in_ids|].
  destruct (collect_results _ _); by intros ?%elem_of_nil.
Qed.

Lemma started_pipeline st completed remaining index n :
  (index = 0 \/ is_Some (FlowState.result st (NodeId.stage (index - 1)))) ->
  n ∈ start_nodes (pipeline_walk st completed remaining index) ->
  exists i, index <= i < index + remaining /\ n = NodeId.stage i /\
    (i = 0 \/ is_Some (FlowState.result st (NodeId.stage (i - 1)))).
Proof.
  revert completed index. induction remaining as [|k IH]; intros completed index P; simpl; [by intros ?%elem_of_nil|].
  destruct (FlowState.result st (NodeId.stage index)) as [r|] eqn:R.
  - destruct (negb (TurnResult.ok r)); [by intros ?%elem_of_nil|].
    intros I. apply IH in I as (i & ? & ? & ?); [|right; rewrite Nat.sub_succ, Nat.sub_0_r, R; by eexists].
    exists i. split_and!; [lia | lia | done | done].
  - destruct (FlowState.is_dispatched _ _); [by intros ?%elem_of_nil|].
    intros ->%list_elem_of_singleton. exists index. split_and!; [lia | lia | done | done].
Qed.

Lemma started_vote st k quorum n :
  n ∈ start_nodes (step_vote_judge st k quorum) ->
  (exists i, i < k /\ n = NodeId.candidate i) \/
  n = NodeId.judge /\ 0 < k /\ forall i, i < k -> is_Some (FlowState.result st (NodeId.candidate i)).
Proof.
  unfold step_vote_judge. destruct (Nat.eqb_spec k 0); [by intros ?%elem_of_nil|].
  destruct (Flow.dispatch_wave _ _) as [actions|] eqn:W; [intros I; left; apply in_ids; by eapply started_of_wave|].
  destruct (collect_results _ _) as [rs|] eqn:C; [|by intros ?%elem_of_nil].
  destruct (negb _); [by intros ?%elem_of_nil|]. destruct (FlowState.result st NodeId.judge); [by intros ?%elem_of_nil|].
  destruct (FlowState.is_dispatched _ _); [by intros ?%elem_of_nil|].
  intros ->%list_elem_of_singleton. right. split; [done|]. split; [lia|]. intros i L. eapply collected_all; [exact C|]. apply in_ids. eauto.
Qed.

Lemma started_map_reduce st over n :
  n ∈ start_nodes (step_map_reduce st over) ->
  (exists i, i < split_len over /\ n = NodeId.map i) \/
  n = NodeId.reduce /\ 0 < split_len over /\ forall i, i < split_len over -> is_Some (FlowState.result st (NodeId.map i)).
Proof.
  unfold step_map_reduce. destruct (Nat.eqb_spec (split_len over) 0); [by intros ?%elem_of_nil|].
  destruct (Flow.dispatch_wave _ _) as [actions|] eqn:W; [intros I; left; apply in_ids; by eapply started_of_wave|].
  destruct (collect_results _ _) as [rs|] eqn:C; [|by intros ?%elem_of_nil].
  destruct (FlowState.result st NodeId.reduce); [by intros ?%elem_of_nil|].
  destruct (FlowState.is_dispatched _ _); [by intros ?%elem_of_nil|].
  intros ->%list_elem_of_singleton. right. split; [done|]. split; [lia|]. intros i L. eapply collected_all; [exact C|]. apply in_ids. eauto.
Qed.

Definition round_done (st : FlowState.t) (sides r : nat) : Prop :=
  forall s, s < sides -> is_Some (FlowState.result st (NodeId.debate_turn s r)).

Lemma started_debate st sides remaining round n :
  (round = 0 \/ round_done st sides (round - 1)) ->
  n ∈ start_nodes (debate_walk st sides remaining round) ->
  (exists s r, s < sides /\ round <= r < round + remaining /\ n = NodeId.debate_turn s r /\
     (r = 0 \/ round_done st sides (r - 1))) \/
  n = NodeId.judge /\ round_done st sides (round + remaining - 1).
Proof.
  revert round. induction remaining as [|k IH]; intros round P; simpl; [by intros ?%elem_of_nil|].
  destruct (Flow.dispatch_wave st (turns_for sides round)) as [actions|] eqn:W.
  { intros I. eapply started_of_wave in I; [|exact W]. apply in_ids in I as (s & L & ->).
    left. exists s, round. split_and!; [done | lia | lia | done | done]. }
  destruct (collect_results st (turns_for sides round)) as [rs|] eqn:C; [|by intros ?%elem_of_nil].
  assert (D : round_done st sides round).
  { intros s L. eapply collected_all; [exact C|]. apply in_ids. eauto. }
  destruct k as [|k].
  - unfold judge_phase. destruct (FlowState.result st NodeId.judge); [by intros ?%elem_of_nil|].
    destruct (FlowState.is_dispatched _ _); [by intros ?%elem_of_nil|].
    intros ->%list_elem_of_singleton. right. split; [done|]. by replace (round + 1 - 1) with round by lia.
  - destruct (Flow.dispatch_wave st (turns_for sides (S round))) as [actions|] eqn:W'.
    + intros I. change (n ∈ start_nodes actions) in I. eapply started_of_wave in I; [|exact W']. apply in_ids in I as (s & L & ->).
      left. exists s, (S round). split_and!; [done | lia | lia | done|]. right. by rewrite Nat.sub_succ, Nat.sub_0_r.
    + intros I. apply IH in I; [|right; by rewrite Nat.sub_succ, Nat.sub_0_r].
      destruct I as [(s & r & ? & ? & ? & ?)|[? ?]]; [left; exists s, r; split_and!; try done; lia|].
      right. split; [done|]. by replace (round + S (S k) - 1) with (S round + S k - 1) by lia.
Qed.

(** ** What the edges show *)

Lemma vote_edges candidates judge k f t :
  (f, t) ∈ edges (Strategy.VoteJudge candidates judge k) <->
  exists i, i < length candidates /\
    (f = "flow" /\ t = NodeId.candidate i \/ f = NodeId.candidate i /\ t = NodeId.judge).
Proof.
  unfold edges. cbn [emit_strategy_edges]. rewrite omap_flat_map, elem_of_flat_map. setoid_rewrite elem_of_upto.
  cbn [omap list_omap edge_of edge]. setoid_rewrite elem_of_cons. setoid_rewrite list_elem_of_singleton. naive_solver.
Qed.

Lemma map_edges m over r f t :
  (f, t) ∈ edges (Strategy.MapReduce m over r) <->
  exists i, i < split_len over /\ (f = "flow" /\ t = NodeId.map i \/ f = NodeId.map i /\ t = NodeId.reduce).
Proof.
  unfold edges. cbn [emit_strategy_edges]. rewrite omap_flat_map, elem_of_flat_map. setoid_rewrite elem_of_upto.
  cbn [omap list_omap edge_of edge]. setoid_rewrite elem_of_cons. setoid_rewrite list_elem_of_singleton. naive_solver.
Qed.

Lemma debate_edges sides rounds judge f t :
  (f, t) ∈ edges (Strategy.Debate sides rounds judge) <->
  0 < u32_nat rounds /\ exists s, s < length sides /\
    (f = "flow" /\ t = NodeId.debate_turn s 0 \/
     (exists r, 1 <= r < u32_nat rounds /\ f = NodeId.debate_turn s (r - 1) /\ t = NodeId.debate_turn s r) \/
     f = NodeId.debate_turn s (u32_nat rounds - 1) /\ t = NodeId.judge).
Proof.
  unfold edges. cbn [emit_strategy_edges]. unfold emit_debate_edges.
  destruct (length sides =? 0) eqn:L; simpl.
  { apply Nat.eqb_eq in L. rewrite elem_of_nil. split; [done|]. intros (_ & s & ? & _). lia. }
  destruct (uval rounds =? 0)%N eqn:U.
  { apply N.eqb_eq in U. rewrite elem_of_nil. split; [done|]. unfold u32_nat. rewrite U. simpl. lia. }
  apply N.eqb_neq in U. rewrite omap_flat_map, elem_of_flat_map. setoid_rewrite elem_of_upto.
  assert (P : 0 < u32_nat rounds) by (unfold u32_nat; lia).
  split.
  - intros (s & LS & I). split; [done|]. exists s. split; [done|]. cbn [omap list_omap edge_of edge] in I.
    apply elem_of_cons in I as [[= -> ->]|I]; [by left|]. rewrite omap_app, omap_map in I.
    apply elem_of_app in I as [I|I].
    + apply list_elem_of_omap in I as (r & IR & [= <- <-]). apply elem_of_seq in IR. right. left. exists r.
      split_and!; [lia | lia | done | done].
    + apply list_elem_of_singleton in I as [= -> ->]. right. by right.
  - intros (_ & s & LS & I). exists s. split; [done|]. cbn [omap list_omap edge_of edge]. rewrite elem_of_cons.
    destruct I as [[-> ->]|I]; [by left|]. right. rewrite omap_app, omap_map, elem_of_app.
    destruct I as [(r & LR & -> & ->)|[-> ->]]; [left | right; by apply list_elem_of_singleton].
    apply list_elem_of_omap. exists r. split; [|done]. apply elem_of_seq. lia.
Qed.

Lemma started_reprojected r actions n :
  n ∈ start_nodes (flat_map (reproject r) actions) -> exists m, n = NodeId.nested m.
Proof.
  induction actions as [|a actions IH]; [by intros ?%elem_of_nil|]. cbn [flat_map].
  unfold start_nodes. rewrite omap_app, elem_of_app. intros [I|I]; [|by apply IH].
  destruct a; simpl in I; try by apply elem_of_nil in I. apply list_elem_of_singleton in I. eauto.
Qed.

Lemma started_hierarchical st def child depth n :
  n ∈ start_nodes (step_at_depth st def child depth) -> n = NodeId.planner \/ exists m, n = NodeId.nested m.
Proof.
  destruct child; simpl; (destruct (FlowState.result st NodeId.planner) as [r|];
    [destruct (u_leb _ _); [by intros ?%elem_of_nil | intros I; right; by eapply started_reprojected] |
     destruct (FlowState.is_dispatched _ _); [by intros ?%elem_of_nil | intros ->%list_elem_of_singleton; by left]]).
Qed.

Definition done_before (st : FlowState.t) (f : string) : Prop := f = "flow" \/ is_Some (FlowState.result st f).

(** C11: the edges a flow shows its clients when it starts are the order the engine works in. Whatever the
    state of the run, a node the engine starts is the end of some edge shown, and every edge into it comes
    from the flow's root or from a node whose result is there; of a hierarchical flow the planner is shown,
    and all that its run decides is nested under it. *)
Theorem edges_are_dependencies (def : WorkflowDef.t) (st : FlowState.t) (n : NodeId.t) :
  n ∈ start_nodes (Flow.step st def) ->
  match def.(WorkflowDef.strategy) with
  | Strategy.Hierarchical _ _ =>
      n = NodeId.planner /\ edges def.(WorkflowDef.strategy) = [("flow", n)] \/ exists m, n = NodeId.nested m
  | s => (exists f, (f, n) ∈ edges s) /\ forall f, (f, n) ∈ edges s -> done_before st f
  end.
Proof.
  unfold Flow.step, step_with. destruct def.(WorkflowDef.strategy) as [s|branches j|stages|m over r|candidates judge k|sides rounds judge|planner child];
    intros I.
  - assert (n = NodeId.single) as ->.
    { unfold step_single in I. destruct (FlowState.result _ _); [by apply elem_of_nil in I|].
      destruct (FlowState.is_dispatched _ _); [by apply elem_of_nil in I | by apply list_elem_of_singleton in I]. }
    split; [by exists "flow"; left|]. intros f [= ->]%list_elem_of_singleton. by left.
  - apply started_parallel in I. setoid_rewrite parallel_edges. split; [eauto|]. intros f [-> _]. by left.
  - destruct stages as [|s stages]; [by apply elem_of_nil in I|].
    apply started_pipeline in I as (i & L & -> & P); [|by left]. unfold edges. cbn [emit_strategy_edges].
    setoid_rewrite pipeline_edges_spec. split.
    { exists (if i =? 0 then "flow" else NodeId.stage (i - 1)), i. split_and!; [lia | done | done]. }
    intros f (i' & _ & E%app_inj_l%show_nat_inj & ->). simpl in E. subst i'.
    destruct i as [|i]; [by left|]. right. by destruct P as [?|P].
  - apply started_map_reduce in I. setoid_rewrite map_edges. destruct I as [(i & L & ->)|(-> & L & D)].
    + split; [eauto 6|]. intros f (i' & _ & [[-> _]|[_ E]]); [by left | discriminate E].
    + split; [eauto 7|]. intros f (i' & L' & [[_ E]|[-> _]]); [discriminate E | right; by apply D].
  - apply started_vote in I. setoid_rewrite vote_edges. destruct I as [(i & L & ->)|(-> & L & D)].
    + split; [eauto 6|]. intros f (i' & _ & [[-> _]|[_ E]]); [by left | discriminate E].
    + split; [eauto 7|]. intros f (i' & L' & [[_ E]|[-> _]]); [discriminate E | right; by apply D].
  - unfold step_debate in I. destruct (Nat.eqb_spec (length sides) 0); [by apply elem_of_nil in I|].
    destruct (N.eqb_spec (uval rounds) 0) as [|NR]; [by apply elem_of_nil in I|].
    assert (P : 0 < u32_nat rounds) by (unfold u32_nat; lia).
    apply started_debate in I; [|by left]. setoid_rewrite debate_edges.
    destruct I as [(s & r & LS & LR & -> & D)|[-> D]].
    + split; [destruct r as [|r]; [eauto 8 |]; eexists; split; [done|]; exists s; split; [done|]; right; left;
               exists (S r); split_and!; [lia | lia | done | done]|].
      intros f (_ & s' & _ & [[-> _]|[(r' & LR' & -> & E)|[_ E]]]); [by left | | discriminate E].
      apply debate_turn_inj in E as [<- <-]. right. destruct D as [->|D]; [lia|]. by apply D.
    + split; [eexists; split; [done|]; exists 0; split; [lia|]; by do 2 right|].
      intros f (_ & s & LS & [[_ E]|[(r' & _ & _ & E)|[-> _]]]); [discriminate E | discriminate E |].
      right. by apply D.
  - apply started_hierarchical in I as [->|[m' ->]]; [by left | right; eauto].
Qed.

(** Two candidates and a judge, whose turn it is. *)
Definition jury : WorkflowDef.t :=
  sample_def (Strategy.VoteJudge [sample_step; sample_step] sample_step (wrap 32 2)).
Definition voted : FlowState.t :=
  FlowState.record_result (FlowState.record_result
    (foldl FlowState.mark_dispatched FlowState.new ["cand-0"; "cand-1"]) "cand-0" (sample_result true "a"))
    "cand-1" (sample_result true "b").

Lemma edges_are_dependencies_witness :
  (start_nodes (Flow.step voted jury) = ["judge"]) /\
  (edges jury.(WorkflowDef.strategy) =
    [("flow", "cand-0"); ("cand-0", "judge"); ("flow", "cand-1"); ("cand-1", "judge")]) /\
  done_before voted "cand-1".
Proof.
  split_and!; [by vm_compute | by vm_compute |].
  apply (proj2 (edges_are_dependencies jury voted "judge" ltac:(refine (bool_decide_unpack _ _); vm_compute; exact I))).
  refine (bool_decide_unpack _ _). vm_compute. exact I.
Defined.

(** * The tape of a steered flow *)

(** The engine's turn of a node: its start, if it was started, its events and its result. *)
Definition engine_turn (nodes : list (bool * NodeResult.t)) (n : string) : list LedgerPayload.t :=
  flat_map (fun x => if decide (NodeResult.node x.2 = n) then run_payloads (NodeResult.run x.2) else []) nodes.

(** What the engine and the steerers have still to record of a node. *)
Definition pushes (n : string) (ops : list EngineOp.t) : list LedgerPayload.t :=
  omap (fun op => match op with EngineOp.Push m p => if decide (m = n) then Some p else None | _ => None end) ops.
Definition registers (ops : list EngineOp.t) : list string :=
  omap (fun op => match op with EngineOp.Register m => Some m | _ => None end) ops.

Definition turn_payloads (events : list WorkerEvent.t) (result : TurnResult.t) : list LedgerPayload.t :=
  map LedgerPayload.Event events ++ [LedgerPayload.Result result].

Definition owed_by (n : string) (s : Steer.t) : list LedgerPayload.t :=
  match s.(Steer.at_) with
  | Steer.Recording m _ events result => if decide (m = n) then turn_payloads events result else []
  | _ => []
  end.

(** The events a steerer's turn streamed to the clients under a node. *)
Definition streamed_by (i : nat) (n : string) (w : Steering.t) : list WorkerEvent.t :=
  omap (fun x => if decide (x.1 = (i, n)) then Some x.2 else None) w.(Steering.streamed).

(** The result of a steerer's turn of a node, once the turn has ended well: it is the call's answer. *)
Definition ended_turn (n : string) (s : Steer.t) : option TurnResult.t :=
  match s.(Steer.at_) with
  | Steer.Recording m _ _ result | Steer.Releasing _ (inl (m, result)) | Steer.Done (inl (m, result)) =>
      if decide (m = n) then Some result else None
  | _ => None
  end.
Definition ended_by (n : string) (w : Steering.t) (i : nat) : option TurnResult.t :=
  w.(Steering.steers) !! i ≫= ended_turn n.
Definition owed (n : string) (w : Steering.t) : list LedgerPayload.t :=
  pushes n w.(Steering.engine) ++ flat_map (owed_by n) w.(Steering.steers).

(** The node's tape, with what is still owed: [turn], then each follow-up that ended well, once, with all the
    events it streamed and the result it answers. *)
Definition tape_is (turn : list LedgerPayload.t) (n : string) (w : Steering.t) : Prop :=
  exists order : list (nat * TurnResult.t),
    NoDup order.*1 /\ (forall i r, (i, r) ∈ order <-> ended_by n w i = Some r) /\
    payloads n w.(Steering.ledger) ++ owed n w =
      turn ++ flat_map (fun x => turn_payloads (streamed_by x.1 n w) x.2) order.

Lemma flat_map_agree {A B} (f g : A -> list B) l : (forall x, x ∈ l -> f x = g x) -> flat_map f l = flat_map g l.
Proof.
  induction l as [|x l IH]; intros E; [done|]. simpl. rewrite (E x) by by left. f_equal.
  apply IH. intros y I. apply E. by right.
Qed.

Lemma tape_same turn n w w' :
  tape_is turn n w -> (forall i, ended_by n w' i = ended_by n w i) ->
  (forall i r, ended_by n w i = Some r -> streamed_by i n w' = streamed_by i n w) ->
  payloads n w'.(Steering.ledger) ++ owed n w' = payloads n w.(Steering.ledger) ++ owed n w -> tape_is turn n w'.
Proof.
  intros (order & ND & M & T) E S P. exists order. split_and!; [done | intros; by rewrite E|]. rewrite P, T. f_equal.
  apply flat_map_agree. intros [i r] I. simpl. rewrite (S i r); [done|]. by apply M.
Qed.

Lemma tape_more turn n w w' i r :
  tape_is turn n w -> ended_by n w i = None -> ended_by n w' i = Some r ->
  (forall j, j <> i -> ended_by n w' j = ended_by n w j) ->
  (forall j, streamed_by j n w' = streamed_by j n w) ->
  payloads n w'.(Steering.ledger) ++ owed n w' =
    (payloads n w.(Steering.ledger) ++ owed n w) ++ turn_payloads (streamed_by i n w) r -> tape_is turn n w'.
Proof.
  intros (order & ND & M & T) N E O S P. exists (order ++ [(i, r)]). split_and!.
  - rewrite fmap_app. apply NoDup_app. split_and!; [done | | apply NoDup_singleton].
    intros j ([j' r'] & -> & I)%list_elem_of_fmap E'%list_elem_of_singleton. simpl in E'. subst j'. apply M in I. congruence.
  - intros j r'. rewrite elem_of_app, list_elem_of_singleton. destruct (decide (j = i)) as [->|D].
    + rewrite E. split; [intros [I|[= ->]]; [apply M in I; congruence | done] | intros [= ->]; by right].
    + rewrite O, <- M by done. split; [intros [I|[= -> _]]; done | by left].
  - rewrite P, T, flat_map_app, <- app_assoc. f_equal. simpl. rewrite app_nil_r, S. f_equal.
    apply flat_map_agree. intros x _. by rewrite S.
Qed.

Lemma owed_one n steers i s :
  steers !! i = Some s -> (forall j s', j <> i -> steers !! j = Some s' -> owed_by n s' = []) ->
  flat_map (owed_by n) steers = owed_by n s.
Proof.
  revert i. induction steers as [|s0 steers IH]; intros [|i] L O; [done | done | |]; simpl.
  - injection L as ->. rewrite <- (app_nil_r (owed_by n s)) at 2. f_equal.
    assert (O' : forall j s', steers !! j = Some s' -> owed_by n s' = []) by (intros j s' L; by apply (O (S j))).
    clear -O'. induction steers as [|s1 steers IH]; [done|]. simpl.
    rewrite (O' 0 s1 eq_refl), IH; [done|]. intros j s' L. by apply (O' (S j)).
  - rewrite (O 0 s0) by done. apply (IH i L). intros j s' N. apply (O (S j)). lia.
Qed.

Lemma owed_none n steers :
  (forall j s', steers !! j = Some s' -> owed_by n s' = []) -> flat_map (owed_by n) steers = [].
Proof.
  induction steers as [|s steers IH]; intros O; [done|]. simpl. rewrite (O 0 s eq_refl), IH; [done|].
  intros j s' L. by apply (O (S j)).
Qed.

(** The worker a steerer has in its hands. *)
Definition grip (s : Steer.t) : option (string * nat) :=
  match s.(Steer.at_) with
  | Steer.Resolved n h | Steer.Held n h _ | Steer.Recording n h _ _ => Some (n, h)
  | _ => None
  end.
Definition locked (s : Steer.t) : option nat :=
  match s.(Steer.at_) with
  | Steer.Held _ h _ | Steer.Recording _ h _ _ | Steer.Releasing h _ => Some h
  | _ => None
  end.

(** What a steerer whose turn has not ended has streamed: what it has collected. *)
Definition collected (n : string) (s : Steer.t) : option (list WorkerEvent.t) :=
  match s.(Steer.at_) with
  | Steer.Begin | Steer.Resolved _ _ => Some []
  | Steer.Held m _ events => Some (if decide (m = n) then events else [])
  | _ => None
  end.

(** A node's entries all come before its registration. *)
Definition ordered (ops : list EngineOp.t) : Prop :=
  forall pre n post, ops = pre ++ EngineOp.Register n :: post -> pushes n post = [].

(** [names]: the node of each session. *)
Record steering_inv (nodes : list (bool * NodeResult.t)) (w : Steering.t) (names : list string) : Prop := {
  names_len : length names = length w.(Steering.sessions);
  names_once : NoDup (names ++ registers w.(Steering.engine));
  names_recorded n : n ∈ names -> pushes n w.(Steering.engine) = [];
  ops_ordered : ordered w.(Steering.engine);
  workers_named n h : w.(Steering.workers) !! n = Some h -> names !! h = Some n;
  grips_named i s n h : w.(Steering.steers) !! i = Some s -> grip s = Some (n, h) -> names !! h = Some n;
  locks_held_by i s h : w.(Steering.steers) !! i = Some s -> locked s = Some h ->
    w.(Steering.sessions) !! h = Some (Session.Mk true (Some i));
  streams_match i s n events : w.(Steering.steers) !! i = Some s -> collected n s = Some events ->
    streamed_by i n w = events;
  tape_whole n : tape_is (engine_turn nodes n) n w;
}.

Lemma recorded_by nodes w names i s n h events result :
  steering_inv nodes w names -> w.(Steering.steers) !! i = Some s -> s.(Steer.at_) = Steer.Recording n h events result ->
  owed n w = turn_payloads events result.
Proof.
  intros I L A. unfold owed.
  assert (NM : names !! h = Some n) by (eapply (grips_named _ _ _ I); [exact L|]; unfold grip; by rewrite A).
  rewrite (names_recorded _ _ _ I n) by by eapply list_elem_of_lookup_2.
  rewrite (owed_one n _ i s L); [unfold owed_by; by rewrite A, decide_True by done|].
  intros j s' N L'. unfold owed_by. destruct s'.(Steer.at_) eqn:A'; try done. case_decide as E; [|done]. subst node.
  assert (NM' : names !! h0 = Some n) by (eapply (grips_named _ _ _ I); [exact L'|]; unfold grip; by rewrite A').
  assert (h0 = h) as ->.
  { pose proof (names_once _ _ _ I) as ND. apply NoDup_app in ND as (ND & _). by eapply NoDup_lookup. }
  assert (S1 := locks_held_by _ _ _ I i s h L ltac:(unfold locked; by rewrite A)).
  assert (S2 := locks_held_by _ _ _ I j s' h L' ltac:(unfold locked; by rewrite A')). congruence.
Qed.

Lemma payloads_record n l m p :
  payloads n (Steering.record l m p) = payloads n l ++ (if decide (m = n) then [p] else []).
Proof.
  assert (G : forall l, payloads n (WorkerLedger.push l m p) = payloads n l ++ (if decide (m = n) then [p] else [])).
  { intros l0. unfold payloads, WorkerLedger.push. simpl. rewrite List.filter_app, map_app. f_equal. simpl.
    unfold is_node. simpl. destruct (decide (m = n)) as [->|N]; [by rewrite String.eqb_refl|].
    by destruct (String.eqb_spec m n). }
  destruct p; [apply G | apply G |]. unfold Steering.record, WorkerLedger.record_result.
  change (payloads n l) with (payloads n (WorkerLedger.Mk l.(WorkerLedger.entries)
    (<[m := result.(TurnResult.text)]> l.(WorkerLedger.blackboard)))). apply G.
Qed.

Lemma ordered_tail op ops : ordered (op :: ops) -> ordered ops.
Proof. intros O pre n post E. apply (O (op :: pre) n post). by rewrite E. Qed.

Lemma ordered_closes hs ops : ordered ops -> ordered (map EngineOp.CloseSession hs ++ ops).
Proof.
  induction hs as [|h hs IH]; intros O; [done|]. intros [|op pre] n post E; [done|]. simpl in E.
  injection E as _ E. by apply (IH O pre).
Qed.

Lemma pushes_closes n hs ops : pushes n (map EngineOp.CloseSession hs ++ ops) = pushes n ops.
Proof. induction hs as [|h hs IH]; [done|]. exact IH. Qed.
Lemma registers_closes hs ops : registers (map EngineOp.CloseSession hs ++ ops) = registers ops.
Proof. induction hs as [|h hs IH]; [done|]. exact IH. Qed.

Lemma owed_unregistered nodes w names n :
  steering_inv nodes w names -> n ∉ names -> flat_map (owed_by n) w.(Steering.steers) = [].
Proof.
  intros I N. apply owed_none. intros j s L. unfold owed_by. destruct s.(Steer.at_) eqn:A; try done.
  case_decide as E; [|done]. subst node. destruct N. eapply list_elem_of_lookup_2, (grips_named _ _ _ I); [exact L|].
  unfold grip. by rewrite A.
Qed.

(** A steerer moves: only its own stage, its lock, what it streams and the tape change. *)
Definition moved (w : Steering.t) (i : nat) (s : Steer.t) (stage : Steer.stage) (sessions : list Session.t)
    (ledger : WorkerLedger.t) (streamed : list (nat * string * WorkerEvent.t)) : Steering.t :=
  Steering.Mk w.(Steering.workers) sessions ledger w.(Steering.engine)
    (<[i := Steer.with_stage s stage]> w.(Steering.steers)) streamed.

Lemma inv_steer nodes w names i s stage sessions ledger streamed :
  steering_inv nodes w names -> w.(Steering.steers) !! i = Some s ->
  let w' := moved w i s stage sessions ledger streamed in
  length sessions = length w.(Steering.sessions) ->
  (forall n h, grip (Steer.with_stage s stage) = Some (n, h) -> names !! h = Some n) ->
  (forall h, locked (Steer.with_stage s stage) = Some h -> sessions !! h = Some (Session.Mk true (Some i))) ->
  (forall j h, j <> i -> w.(Steering.sessions) !! h = Some (Session.Mk true (Some j)) ->
     sessions !! h = Some (Session.Mk true (Some j))) ->
  (forall n events, collected n (Steer.with_stage s stage) = Some events -> streamed_by i n w' = events) ->
  (forall n j, j <> i -> streamed_by j n w' = streamed_by j n w) ->
  (forall n, tape_is (engine_turn nodes n) n w') ->
  steering_inv nodes w' names.
Proof.
  intros I L w' LS G LK OTHERS C SO T. split; simpl; try apply I; try done.
  - rewrite LS. apply I.
  - intros j s' n h [(<- & <- & _)|[N L']]%list_lookup_insert_Some E; [by apply G|]. by eapply (grips_named _ _ _ I).
  - intros j s' h [(<- & <- & _)|[N L']]%list_lookup_insert_Some E; [by apply LK|].
    apply OTHERS; [done|]. by eapply (locks_held_by _ _ _ I).
  - intros j s' n events [(<- & <- & _)|[N L']]%list_lookup_insert_Some E; [by apply C|].
    rewrite SO by done. by eapply (streams_match _ _ _ I).
Qed.

Lemma ended_moved w i s stage sessions ledger streamed n j :
  w.(Steering.steers) !! i = Some s ->
  ended_by n (moved w i s stage sessions ledger streamed) j =
    if decide (j = i) then ended_turn n (Steer.with_stage s stage) else ended_by n w j.
Proof.
  intros L. unfold ended_by, moved. simpl. case_decide as D.
  - subst j. rewrite list_lookup_insert_eq by by eapply lookup_lt_Some. done.
  - by rewrite list_lookup_insert_ne by done.
Qed.

(** What is owed after a steerer's move that records nothing. *)
Lemma owed_insert_same w i s stage n sessions ledger streamed :
  w.(Steering.steers) !! i = Some s -> owed_by n (Steer.with_stage s stage) = owed_by n s ->
  owed n (moved w i s stage sessions ledger streamed) = owed n w.
Proof.
  intros L E. unfold owed. simpl. f_equal. revert i L. induction w.(Steering.steers) as [|s0 steers IH]; intros [|i] L;
    [done | done | |]; simpl.
  - injection L as ->. by rewrite E.
  - f_equal. by apply IH.
Qed.

(** Nobody else records under the node whose session one holds. *)
Lemma others_owe_nothing nodes w names i s n h :
  steering_inv nodes w names -> w.(Steering.steers) !! i = Some s -> locked s = Some h -> names !! h = Some n ->
  pushes n w.(Steering.engine) = [] /\
  forall j s', j <> i -> w.(Steering.steers) !! j = Some s' -> owed_by n s' = [].
Proof.
  intros I L K NM. split; [apply (names_recorded _ _ _ I); by eapply list_elem_of_lookup_2|].
  intros j s' N L'. unfold owed_by. destruct s'.(Steer.at_) eqn:A'; try done. case_decide as E; [|done]. subst node.
  assert (NM' : names !! h0 = Some n) by (eapply (grips_named _ _ _ I); [exact L'|]; unfold grip; by rewrite A').
  assert (h0 = h) as ->.
  { pose proof (names_once _ _ _ I) as ND. apply NoDup_app in ND as (ND & _). by eapply NoDup_lookup. }
  assert (S1 := locks_held_by _ _ _ I i s h L K).
  assert (S2 := locks_held_by _ _ _ I j s' h L' ltac:(unfold locked; by rewrite A')). congruence.
Qed.

(** A holder moves on, recording [p] of what it owes, or owing [extra] from now on. *)
Lemma tape_of_holder nodes w names i s stage node h sessions ledger streamed p extra :
  steering_inv nodes w names -> w.(Steering.steers) !! i = Some s -> locked s = Some h -> names !! h = Some node ->
  (forall n, payloads n ledger = payloads n w.(Steering.ledger) ++ (if decide (node = n) then p else [])) ->
  (forall n, n <> node -> owed_by n (Steer.with_stage s stage) = owed_by n s) ->
  owed_by node s ++ extra = p ++ owed_by node (Steer.with_stage s stage) ->
  forall n, payloads n ledger ++ owed n (moved w i s stage sessions ledger streamed) =
    (payloads n w.(Steering.ledger) ++ owed n w) ++ (if decide (node = n) then extra else []).
Proof.
  intros I L K NM P O C n. rewrite P. destruct (decide (node = n)) as [->|N].
  2: { rewrite !app_nil_r, owed_insert_same; [done | done |]. apply O. congruence. }
  destruct (others_owe_nothing _ _ _ _ _ _ _ I L K NM) as [PN OTH].
  assert (B : owed n w = owed_by n s) by (unfold owed; rewrite PN; by apply owed_one with i).
  assert (A : flat_map (owed_by n) (<[i := Steer.with_stage s stage]> w.(Steering.steers)) =
              owed_by n (Steer.with_stage s stage)).
  { apply owed_one with i; [apply list_lookup_insert_eq; by eapply lookup_lt_Some|].
    intros j s' NJ. rewrite list_lookup_insert_ne by done. by apply OTH. }
  rewrite B. unfold owed. simpl. rewrite PN, A. simpl. by rewrite <- !app_assoc, C.
Qed.

Lemma resolve_target_named nodes w names target n h :
  steering_inv nodes w names -> resolve_target w.(Steering.workers) target = inl (n, h) -> names !! h = Some n.
Proof.
  intros I E. apply (workers_named _ _ _ I). unfold resolve_target in E. destruct target as [id|].
  - destruct (w.(Steering.workers) !! id) eqn:L; [|done]. by injection E as -> ->.
  - destruct (map_to_list w.(Steering.workers)) as [|entry [|]] eqn:M; try done. injection E as ->.
    apply elem_of_map_to_list. rewrite M. by left.
Qed.

(** A move that ends no turn well, and streams nothing of a turn that has: the tapes stay as they are. *)
Lemma tape_moved nodes w names i s stage sessions ledger streamed :
  steering_inv nodes w names -> w.(Steering.steers) !! i = Some s ->
  let w' := moved w i s stage sessions ledger streamed in
  (forall n, ended_turn n (Steer.with_stage s stage) = ended_turn n s) ->
  (forall n j r, ended_by n w j = Some r -> streamed_by j n w' = streamed_by j n w) ->
  (forall n, payloads n ledger ++ owed n w' = payloads n w.(Steering.ledger) ++ owed n w) ->
  forall n, tape_is (engine_turn nodes n) n w'.
Proof.
  intros I L w' E S P n. apply tape_same with w; [apply I | | apply S | apply P].
  intros j. unfold w'. rewrite ended_moved by done. case_decide as D; [|done]. subst j.
  rewrite E. unfold ended_by. by rewrite L.
Qed.

Lemma streamed_by_more w w' i n j m event :
  w'.(Steering.streamed) = w.(Steering.streamed) ++ [(i, m, event)] ->
  streamed_by j n w' = streamed_by j n w ++ (if decide ((i, m) = (j, n)) then [event] else []).
Proof. intros E. unfold streamed_by. rewrite E, omap_app. simpl. by case_decide. Qed.

Lemma inv_steer_step nodes w names i s w' :
  steering_inv nodes w names -> w.(Steering.steers) !! i = Some s -> Steering.steer_step w i s s.(Steer.at_) w' ->
  steering_inv nodes w' names.
Proof.
  intros I L S.
  pose proof (fun n h => grips_named _ _ _ I i s n h L) as GN. pose proof (fun h => locks_held_by _ _ _ I i s h L) as LK.
  pose proof (fun n events => streams_match _ _ _ I i s n events L) as SM.
  pose proof (fun stage node h sessions ledger streamed p extra =>
    tape_of_holder nodes w names i s stage node h sessions ledger streamed p extra I L) as TH.
  pose proof (fun stage sessions ledger streamed => tape_moved nodes w names i s stage sessions ledger streamed I L) as TM.
  assert (ENDED : forall n, ended_by n w i = ended_turn n s) by (intros n; unfold ended_by; by rewrite L).
  assert (SAME : forall stage sessions streamed, (forall n, owed_by n (Steer.with_stage s stage) = owed_by n s) ->
            forall n, payloads n w.(Steering.ledger) ++ owed n (moved w i s stage sessions w.(Steering.ledger) streamed) =
              payloads n w.(Steering.ledger) ++ owed n w).
  { intros stage sessions streamed O n. by rewrite owed_insert_same. }
  unfold grip in GN. unfold locked in LK, TH. unfold collected in SM.
  assert (OWED : forall n, owed_by n s = match s.(Steer.at_) with
            | Steer.Recording m _ events result => if decide (m = n) then turn_payloads events result else []
            | _ => [] end) by done.
  assert (TURN : forall n, ended_turn n s = match s.(Steer.at_) with
            | Steer.Recording m _ _ result | Steer.Releasing _ (inl (m, result)) | Steer.Done (inl (m, result)) =>
                if decide (m = n) then Some result else None
            | _ => None end) by done.
  remember s.(Steer.at_) as at_ eqn:A. revert A.
  destruct S; intros A; simpl in GN, LK, TH, OWED, TURN, SM; apply (inv_steer _ _ _ _ _ _ _ _ _ I L); simpl; try done.
  all: try (apply TM; [intros n; rewrite TURN; unfold ended_turn; simpl; by repeat case_match | done |];
            apply SAME; intros n; rewrite OWED; unfold owed_by; simpl; by repeat case_match).
  all: try (by rewrite length_insert).
  all: try (by intros n evs [= <-]; apply SM).
  - intros n h E. destruct (resolve_target _ _) as [[m k]|] eqn:R; [|done]. injection E as <- <-.
    by eapply resolve_target_named.
  - intros h' E. by destruct (resolve_target _ _) as [[m k]|].
  - intros n evs E. destruct (resolve_target _ _) as [[m k]|]; [|done]. injection E as <-. by apply SM.
  - intros h' [= <-]. apply list_lookup_insert_eq. by eapply lookup_lt_Some.
  - intros j h' N E. rewrite list_lookup_insert_ne; [done|]. intros ->. congruence.
  - intros n evs E. injection E as <-. rewrite (SM n [] eq_refl : streamed_by i n (moved _ _ _ _ _ _ _) = _). by case_decide.
  - intros n evs [= <-]. erewrite streamed_by_more by done. rewrite (SM n _ eq_refl).
    case_decide as D; repeat case_decide; simplify_eq; by rewrite ?app_nil_r.
  - intros n j N. erewrite streamed_by_more by done. rewrite decide_False by congruence. by rewrite app_nil_r.
  - apply TM; [by intros n; rewrite TURN | |].
    + intros n j r E. erewrite streamed_by_more by done. rewrite decide_False; [by rewrite app_nil_r|].
      intros [= <- <-]. rewrite ENDED, TURN in E. done.
    + apply SAME. intros n. by rewrite OWED.
  - intros n. assert (P := fun extra => TH (Steer.Recording node h events result) node h w.(Steering.sessions)
      w.(Steering.ledger) w.(Steering.streamed) [] extra eq_refl (GN _ _ eq_refl)).
    specialize (P (turn_payloads events result)). destruct (decide (node = n)) as [->|D].
    + apply tape_more with w i result; [apply I | by rewrite ENDED, TURN | | | done |].
      * rewrite ended_moved, decide_True by done. unfold ended_turn. simpl. by rewrite decide_True.
      * intros j N. by rewrite ended_moved, decide_False by done.
      * rewrite (SM n _ eq_refl), decide_True by done. etransitivity; [apply (P)|]; [| | |by rewrite decide_True].
        -- intros m. by case_decide; rewrite app_nil_r.
        -- intros m N. rewrite OWED. unfold owed_by. simpl. by rewrite decide_False.
        -- rewrite OWED. unfold owed_by. simpl. by rewrite decide_True.
    + apply tape_same with w; [apply I | | done |].
      * intros j. rewrite ended_moved by done. case_decide; [|done]. subst j. rewrite ENDED, TURN. unfold ended_turn.
        simpl. by rewrite decide_False.
      * simpl. rewrite owed_insert_same; [done | done |]. rewrite OWED. unfold owed_by. simpl. by rewrite decide_False.
  - apply TM; [by intros n; rewrite TURN | done |]. intros n.
    rewrite (TH _ node h _ _ _ [LedgerPayload.Event event] []); [by case_decide; rewrite app_nil_r | done | by apply GN | | |].
    + intros m. exact (payloads_record m _ node (LedgerPayload.Event event)).
    + intros m N. rewrite OWED. unfold owed_by. simpl. by rewrite !decide_False.
    + rewrite OWED. unfold owed_by. simpl. by rewrite !decide_True, app_nil_r by done.
  - apply TM; [by intros n; rewrite TURN | done |]. intros n.
    rewrite (TH _ node h _ _ _ [LedgerPayload.Result result] []); [by case_decide; rewrite app_nil_r | done | by apply GN | | |].
    + intros m. exact (payloads_record m _ node (LedgerPayload.Result result)).
    + intros m N. rewrite OWED. unfold owed_by. simpl. by rewrite !decide_False.
    + rewrite OWED. unfold owed_by. simpl. by rewrite !decide_True by done.
  - intros j h' N E. rewrite list_lookup_insert_ne; [done|]. intros ->. rewrite (LK h' eq_refl) in E. congruence.
Qed.

Lemma inv_engine_step nodes w names w' :
  steering_inv nodes w names -> Steering.engine_step w w' -> exists names', steering_inv nodes w' names'.
Proof.
  intros I S. destruct I as [NL NO NR OO WN GN LK SM TW].
  destruct S as [node payload ops E|ops drained E D|h session ops E L HN|node ops E]; rewrite E in *.
  - exists names. split; simpl; try done.
    + intros n IN. specialize (NR n IN). unfold pushes in NR |- *. simpl in NR. by case_decide.
    + by eapply ordered_tail.
    + intros n. apply tape_same with w; [apply TW | done | done |]. simpl. rewrite payloads_record.
      unfold owed. rewrite E. unfold pushes. simpl. rewrite <- app_assoc. f_equal. by case_decide.
  - exists names. split; simpl.
    + done.
    + by rewrite registers_closes.
    + intros n IN. rewrite pushes_closes. by apply NR.
    + apply ordered_closes. by eapply ordered_tail.
    + intros n h L. by rewrite lookup_empty in L.
    + done.
    + done.
    + done.
    + intros n. apply tape_same with w; [apply TW | done | done |]. unfold owed. simpl. by rewrite E, pushes_closes.
  - exists names. split; simpl; try done.
    + by rewrite length_insert.
    + by eapply ordered_tail.
    + intros i s k LI K. rewrite list_lookup_insert_ne; [by eapply LK|]. intros <-. specialize (LK _ _ _ LI K).
      rewrite L in LK. injection LK as ->. done.
    + intros n. apply tape_same with w; [apply TW | done | done |]. unfold owed. simpl. by rewrite E.
  - assert (FRESH : node ∉ names).
    { apply NoDup_app in NO as (_ & N & _). intros IN. apply (N node IN). by left. }
    exists (names ++ [node]). split; simpl.
    + rewrite !length_app, NL. done.
    + by rewrite <- app_assoc.
    + intros n [IN| ->%list_elem_of_singleton]%elem_of_app; [by apply NR | by apply (OO [] node ops)].
    + by eapply ordered_tail.
    + intros n h [[<- <-]|[N L]]%lookup_insert_Some; [rewrite <- NL; by apply list_lookup_middle|].
      by apply lookup_app_l_Some, WN.
    + intros i s n h LI G. apply lookup_app_l_Some. by eapply GN.
    + intros i s h LI K. apply lookup_app_l_Some. by eapply LK.
    + done.
    + intros n. apply tape_same with w; [apply TW | done | done |]. unfold owed. simpl. by rewrite E.
Qed.

(** ** From the start *)

Lemma pushes_app n a b : pushes n (a ++ b) = pushes n a ++ pushes n b.
Proof. apply omap_app. Qed.
Lemma registers_app a b : registers (a ++ b) = registers a ++ registers b.
Proof. apply omap_app. Qed.

Lemma ordered_app a b :
  ordered a -> ordered b -> (forall n, n ∈ registers a -> pushes n b = []) -> ordered (a ++ b).
Proof.
  intros OA OB AB pre n post E. symmetry in E. apply app_eq_inv in E as [(k & -> & E)|(k & -> & E)].
  - by apply (OB k n post).
  - destruct k as [|op k]; simpl in E.
    + by apply (OB [] n post).
    + injection E as <- ->. rewrite pushes_app, (OA pre n k), (AB n); [done| |done].
      rewrite registers_app. apply elem_of_app. right. by left.
Qed.

Lemma pushes_pushed n m l : pushes n (map (EngineOp.Push m) l) = if decide (m = n) then l else [].
Proof.
  induction l as [|p l IH]; [by case_decide|]. unfold pushes in *. simpl. case_decide; [by f_equal | done].
Qed.
Lemma registers_pushed m l : registers (map (EngineOp.Push m) l) = [].
Proof. induction l as [|p l IH]; [done|]. exact IH. Qed.

Lemma node_ops_spec steerable nr :
  let n := nr.(NodeResult.node) in
  (forall m, pushes m (node_ops steerable nr) = if decide (n = m) then run_payloads nr.(NodeResult.run) else []) /\
  (registers (node_ops steerable nr) = [] \/ registers (node_ops steerable nr) = [n]) /\
  ordered (node_ops steerable nr).
Proof.
  intros n. unfold node_ops. split_and!.
  - intros m. rewrite pushes_app, pushes_pushed. destruct (_ && _); by rewrite app_nil_r.
  - rewrite registers_app, registers_pushed. destruct (_ && _); simpl; auto.
  - apply ordered_app.
    + intros pre m post E. assert (R : m ∈ registers (map (EngineOp.Push nr.(NodeResult.node)) (run_payloads nr.(NodeResult.run)))).
      { rewrite E, registers_app. apply elem_of_app. right. by left. }
      rewrite registers_pushed in R. by apply elem_of_nil in R.
    + destruct (_ && _); intros pre m post E; [|by destruct pre].
      destruct pre as [|? [|? [|]]]; simplify_eq/=; done.
    + intros m. rewrite registers_pushed. by intros ?%elem_of_nil.
Qed.

Definition names_of (nodes : list (bool * NodeResult.t)) : list string := map (fun x => NodeResult.node x.2) nodes.

Lemma flat_ops_spec nodes :
  NoDup (names_of nodes) ->
  let ops := flat_map (fun x => node_ops x.1 x.2) nodes in
  (forall m, m ∉ names_of nodes -> pushes m ops = []) /\
  (forall m, pushes m ops = engine_turn nodes m) /\
  registers ops ⊆ names_of nodes /\ NoDup (registers ops) /\ ordered ops.
Proof.
  induction nodes as [|[b nr] nodes IH]; intros ND ops.
  { split_and!; [done | done | done | constructor |]. intros [|] m post E; done. }
  apply NoDup_cons in ND as [N ND]. destruct (IH ND) as (P & T & R & U & O). clear IH.
  destruct (node_ops_spec b nr) as (NP & NR & NO). unfold ops. cbn [flat_map names_of map]. simpl in NP, NR, NO.
  assert (NI : forall m, m ∈ registers (node_ops b nr) -> m = nr.(NodeResult.node)).
  { intros m M. destruct NR as [E|E]; rewrite E in M; [by apply elem_of_nil in M | by apply list_elem_of_singleton in M]. }
  split_and!.
  - intros m [M1 M2]%not_elem_of_cons. rewrite pushes_app, NP, decide_False, P by done. done.
  - intros m. unfold ops. by rewrite pushes_app, NP, T.
  - rewrite registers_app. intros m [M|M]%elem_of_app; [|right; by apply R].
    apply NI in M as ->. by left.
  - rewrite registers_app. apply NoDup_app. split_and!; [|intros m M M2|done].
    + destruct NR as [E|E]; unfold registers in E |- *; simpl in E |- *; rewrite E; [constructor | apply NoDup_singleton].
    + apply NI in M as ->. by apply N, R.
  - apply ordered_app; [done | done |]. intros m M. apply P.
    by apply NI in M as ->.
Qed.

Lemma steering_start nodes targets : NoDup (names_of nodes) -> steering_inv nodes (Steering.start nodes targets) [].
Proof.
  intros ND. destruct (flat_ops_spec nodes ND) as (P & T & R & U & O).
  assert (B : forall i s, map (fun target => Steer.Mk target Steer.Begin) targets !! i = Some s -> s.(Steer.at_) = Steer.Begin).
  { intros i s L. apply list_lookup_fmap_Some in L as (target & -> & _). done. }
  split; simpl; unfold engine_ops.
  - done.
  - rewrite registers_app. simpl. by rewrite app_nil_r.
  - by intros n ?%elem_of_nil.
  - apply ordered_app; [done | |intros m _; done]. intros [|? [|]] m post E; done.
  - intros n h L. by rewrite lookup_empty in L.
  - intros i s n h L. unfold grip. by rewrite (B _ _ L).
  - intros i s h L. unfold locked. by rewrite (B _ _ L).
  - intros i s n events L. unfold collected. rewrite (B _ _ L). by intros [= <-].
  - intros n. exists []. split_and!; [constructor | |].
    + intros i r. unfold ended_by. simpl. split; [by intros ?%elem_of_nil|]. intros E.
      apply bind_Some in E as (s & L & E). unfold ended_turn in E. by rewrite (B _ _ L) in E.
    + unfold owed. simpl. unfold engine_ops. rewrite pushes_app, T, owed_none; [simpl; by rewrite !app_nil_r|].
      intros j s L. unfold owed_by. by rewrite (B _ _ L).
Qed.

Lemma steering_reachable nodes targets w :
  NoDup (names_of nodes) -> rtc Steering.step (Steering.start nodes targets) w -> exists names, steering_inv nodes w names.
Proof.
  intros ND. revert w. apply (rtc_ind_r _ _); [exists []; by apply steering_start|].
  intros w w' _ S [names I]. destruct S as [w' S|i s w' L S]; [by eapply inv_engine_step|].
  exists names. by eapply inv_steer_step.
Qed.

(** C12: however the engine's thread, closing and registering frontiers, and any number of steerers interleave,
    the tape of a node is the engine's turn, start, events and result, and then each follow-up whose turn of the
    node ended well, exactly once, with all the events it streamed to the clients, in their order, and the result
    it answers; a follow-up refused or failed leaves nothing. What is missing of the last turn is still owed by
    the engine or by the one steerer that is recording it, so nothing is once they are done; and a steerer only
    works on a session that is open and its alone. *)
Theorem steered_tape_whole nodes targets w n :
  NoDup (names_of nodes) -> rtc Steering.step (Steering.start nodes targets) w ->
  tape_is (engine_turn nodes n) n w /\
  (forall i s, w.(Steering.steers) !! i = Some s -> owed_by n s <> [] -> owed n w = owed_by n s) /\
  (w.(Steering.engine) = [] -> (forall s, s ∈ w.(Steering.steers) -> exists answer, s.(Steer.at_) = Steer.Done answer) ->
     owed n w = []) /\
  (forall i s h, w.(Steering.steers) !! i = Some s -> locked s = Some h ->
     w.(Steering.sessions) !! h = Some (Session.Mk true (Some i))).
Proof.
  intros ND R. destruct (steering_reachable _ _ _ ND R) as [names I]. split_and!.
  - apply I.
  - intros i s L O. unfold owed_by in O. destruct s.(Steer.at_) eqn:A; try done. case_decide as E; [|done]. subst node.
    rewrite (recorded_by _ _ _ _ _ _ _ _ _ I L A). unfold owed_by. by rewrite A, decide_True.
  - intros E D. unfold owed. rewrite E. apply owed_none. intros j s L. unfold owed_by.
    destruct (D s) as [answer ->]; [by eapply list_elem_of_lookup_2 | done].
  - intros i s h. apply I.
Qed.

(** One branch whose session stays, and one follow-up, recorded up to its first event. *)
Definition branch_run : NodeRun.t := NodeRun.Mk (sample_result true "hi") [] true false None.
Definition steered_halfway : Steering.t :=
  let start := Steering.start [(true, NodeResult.Mk "node-0" branch_run)] [None] in
  Steering.Mk {[ "node-0" := 0 ]} [Session.Mk true (Some 0)]
    (WorkerLedger.record_event (WorkerLedger.record_result WorkerLedger.new "node-0" (sample_result true "hi"))
       "node-0" (WorkerEvent.Progress "more"))
    [EngineOp.Detach] [Steer.Mk None (Steer.Recording "node-0" 0 [] (sample_result true "more"))]
    [(0, "node-0", WorkerEvent.Progress "more")].

Lemma steered_halfway_reached :
  rtc Steering.step (Steering.start [(true, NodeResult.Mk "node-0" branch_run)] [None]) steered_halfway.
Proof.
  eapply rtc_l; [apply Steering.step_engine, Steering.step_push; reflexivity|].
  eapply rtc_l; [apply Steering.step_engine, (Steering.step_detach _ [EngineOp.Register "node-0"; EngineOp.Detach] []); reflexivity|].
  eapply rtc_l; [apply Steering.step_engine, Steering.step_register; reflexivity|].
  eapply rtc_l; [eapply (Steering.step_steer _ 0); [reflexivity | apply Steering.step_resolve]|].
  eapply rtc_l; [eapply (Steering.step_steer _ 0); [reflexivity | by apply Steering.step_lock]|].
  eapply rtc_l; [eapply (Steering.step_steer _ 0); [reflexivity |
    apply (Steering.step_turn_event _ _ _ _ _ _ (WorkerEvent.Progress "more"))]|].
  eapply rtc_l; [eapply (Steering.step_steer _ 0); [reflexivity |
    apply (Steering.step_turn _ _ _ _ _ [WorkerEvent.Progress "more"] (sample_result true "more"))]|].
  eapply rtc_l; [eapply (Steering.step_steer _ 0); [reflexivity | apply Steering.step_record_event]|].
  apply rtc_refl.
Qed.

Lemma steered_tape_whole_witness :
  (owed "node-0" steered_halfway = [LedgerPayload.Result (sample_result true "more")]) /\
  tape_is [LedgerPayload.Result (sample_result true "hi")] "node-0" steered_halfway.
Proof.
  split; [reflexivity|].
  refine (proj1 (steered_tape_whole [(true, NodeResult.Mk "node-0" branch_run)] [None] steered_halfway "node-0" _
                   steered_halfway_reached)).
  apply NoDup_singleton.
Defined.

(** * The store *)

(** An [Option] written as [null] reads back. *)
Lemma opt_null_reread `{Wire A} k fs m (R : reread (present fs) m) (ND : bool_decide (NoDup (map fst fs)) = true) (o : option A) :
  lookup_field k fs = (fld_null k o).2 -> opt k m = Some o.
Proof.
  intros E. destruct o as [a|]; [by eapply opt_reread|]. pose proof (reread_field k fs m R ND) as F. rewrite E in F.
  destruct F as (v' & G & Ev). unfold opt. rewrite G. by inversion Ev.
Qed.

(** As [wire_struct], with such fields. *)
Ltac wire_null_struct :=
  intros [] ? E; cbn -[present] in E; unfold obj in E; cbn -[present] in E;
  apply equiv_obj_inv in E as (? & -> & R); cbn -[req dflt opt present wrap];
  repeat first
    [ wire_field R
    | match goal with
      | |- mbind _ (opt ?k ?m) = _ =>
          match type of R with
          | reread (present ?fs) _ => refine (bind_field _ _ _ _ (opt_null_reread k fs m R eq_refl _ eq_refl) _)
          end
      end; cbv beta ];
  reflexivity.

#[export] Instance flow_outcome_wire : Wire FlowStoreOutcome.t.
Proof. wire_struct. Qed.

#[export] Instance flow_record_wire : Wire FlowRecord.t.
Proof. wire_null_struct. Qed.

Section store.
Context `{SerdeJson, SerdeText, !SerdeTextSpec} (dir : string).

Definition record_file (id : string) : file_path := (dir +:+ "/" +:+ id, "record.json").

Lemma flow_dir_valid id : id_valid id = true -> flow_dir dir id = inl (dir +:+ "/" +:+ id).
Proof. unfold flow_dir, validate_flow_id. by intros ->. Qed.

Lemma write_file_spec (fates : list Fate.t) (d d' : Disk.t) (fates' : list Fate.t) (id name text : string) (result : unit + string) :
  disk_wf d -> exec fates (write_file dir id name text) d = (d', fates', result) ->
  let p := (dir +:+ "/" +:+ id, name) in
  disk_wf d' /\ (forall q, q <> p -> q <> tmp_of p -> Disk.file d' q = Disk.file d q) /\
  Disk.file d' p = match result with inl _ => Some text | inr _ => Disk.file d p end /\
  (fates = [] -> id_valid id = true -> fates' = [] /\ result = inl tt).
Proof.
  intros W. unfold write_file, flow_dir, validate_flow_id. destruct (id_valid id) eqn:V.
  2: by intros [= <- <- <-].
  rewrite exec_try, exec_context, exec_sys. set (flow := dir +:+ "/" +:+ id).
  destruct (meet _ (CreateDirAll flow) d) as [d1 [[]|e]] eqn:Mk.
  2: { assert (d1 = d) as -> by (by destruct (next_fate fates); injection Mk as <-).
       intros [= <- <- <-]. split_and!; try done. by intros ->. }
  assert (d1 = (perform (CreateDirAll flow) d).1) as -> by (by destruct (next_fate fates); injection Mk as <-).
  set (d1 := (perform (CreateDirAll flow) d).1). assert (W1 : disk_wf d1) by (by destruct W; split).
  intros E. destruct (exec_atomic_write _ _ _ _ _ _ _ W1 E) as (W2 & _ & O & F). split_and!; [done|done| |].
  - by destruct result.
  - intros -> _. destruct (atomic_write_done (flow, name) text d1) as [d2 E2]; [set_solver|done|].
    cbn [tail] in E. rewrite E2 in E. by injection E as _ <- <-.
Qed.

Definition loaded_flow (d : Disk.t) (id : string) : FlowRecord.t + string := (exec [] (load_flow_record dir id) d).2.

Lemma loaded_flow_file d d' id :
  (id_valid id = true -> Disk.file d' (record_file id) = Disk.file d (record_file id)) ->
  loaded_flow d' id = loaded_flow d id.
Proof.
  intros F. unfold loaded_flow, load_flow_record, read_file, flow_dir, validate_flow_id.
  destruct (id_valid id); [|done]. rewrite !exec_try, !exec_context, !exec_sys. specialize (F eq_refl). unfold record_file in F. cbn in F |- *.
  rewrite F.
  destruct (Disk.file d _) as [s|]; [|done]. by destruct (utf8_valid s).
Qed.

Lemma record_file_ne id id' : id <> id' -> record_file id <> record_file id'.
Proof. intros N [= E]. apply N. apply app_inj_l in E. by injection E. Qed.

Lemma record_ne_tmp id p : record_file id <> tmp_of p.
Proof. by intros [= _ E]. Qed.

(** A write to a flow's directory, as a change of what is loaded. *)
Lemma other_file_loaded (fates : list Fate.t) (d d' : Disk.t) (fates' : list Fate.t) (id id' name text : string) (result : unit + string) :
  disk_wf d -> exec fates (write_file dir id name text) d = (d', fates', result) -> name <> "record.json" ->
  loaded_flow d' id' = loaded_flow d id'.
Proof.
  intros W E N. apply write_file_spec in E as (_ & O & _); [|done]. apply loaded_flow_file. intros _. apply O; [|apply record_ne_tmp].
  intros [= _ ?]. congruence.
Qed.

Lemma record_written (fates : list Fate.t) (d d' : Disk.t) (fates' : list Fate.t) (r : FlowRecord.t) (result : unit + string) :
  disk_wf d -> r.(FlowRecord.schema_version) = FLOW_SCHEMA_VERSION ->
  exec fates (write_flow_record dir r) d = (d', fates', result) ->
  disk_wf d' /\
  (forall id, id <> r.(FlowRecord.flow_id) -> loaded_flow d' id = loaded_flow d id) /\
  loaded_flow d' r.(FlowRecord.flow_id) = (match result with inl _ => inl r | inr _ => loaded_flow d r.(FlowRecord.flow_id) end) /\
  (fates = [] -> id_valid r.(FlowRecord.flow_id) = true -> fates' = [] /\ result = inl tt).
Proof.
  intros W V E. unfold write_flow_record in E. pose proof E as E0.
  apply write_file_spec in E as (W' & O & F & D); [|done]. split; [done|]. split; [|split; [|done]].
  - intros id N. apply loaded_flow_file. intros _. apply O; [by apply record_file_ne | apply record_ne_tmp].
  - destruct result as [[]|e]; [|by apply loaded_flow_file].
    assert (IV : id_valid r.(FlowRecord.flow_id) = true).
    { unfold write_file, flow_dir, validate_flow_id in E0. by destruct (id_valid _). }
    unfold loaded_flow, load_flow_record, read_file, flow_dir, validate_flow_id. rewrite IV, !exec_try, !exec_context, !exec_sys.
    cbn [next_fate head default meet perform tail]. rewrite F, pretty_utf8.
    assert (deserialize_flow_record (to_string_pretty (ser r)) = Some r) as ->; [|done].
    destruct (from_str_pretty (ser r)) as (j & P & Q). unfold deserialize_flow_record.
    eapply (deserialize_versioned_equiv r); [destruct r; reflexivity | reflexivity | | exact P | exact Q]. cbn. by rewrite V.
Qed.

Lemma run_start (fates : list Fate.t) (d d' : Disk.t) (fates' : list Fate.t) now_ms id def def_text record :
  disk_wf d -> exec fates (persist_flow_start dir now_ms id def def_text) d = (d', fates', record) ->
  record = FlowRecord.begin now_ms id def /\ disk_wf d' /\
  (forall id', id' <> id -> loaded_flow d' id' = loaded_flow d id') /\
  (loaded_flow d' id = inl record \/ loaded_flow d' id = loaded_flow d id) /\
  (fates = [] -> id_valid id = true -> fates' = [] /\ loaded_flow d' id = inl record).
Proof.
  intros W. unfold persist_flow_start. rewrite exec_bind.
  destruct (exec fates (write_def _ _ _) d) as [[d1 f1] r1] eqn:E1. rewrite exec_bind.
  destruct (exec f1 _ d1) as [[d2 f2] r2] eqn:E2. intros [= <- <- <-].
  pose proof (write_file_spec _ _ _ _ _ _ _ _ W E1) as (W1 & _ & _ & D1).
  apply record_written in E2 as (W2 & O & L & D2); [|done|done]. cbn [FlowRecord.begin FlowRecord.flow_id] in *.
  pose proof (fun id' => other_file_loaded _ _ _ _ _ id' _ _ _ W E1 ltac:(done)) as S.
  split_and!; [done | done | by intros; rewrite O, S | by destruct r2; [left|right; rewrite L, S] |].
  intros F V. destruct (D1 F V) as [-> ->]. destruct (D2 eq_refl V) as [-> ->]. done.
Qed.

Lemma run_finish (fates : list Fate.t) (d d' : Disk.t) (fates' : list Fate.t) now_ms record outcome ledger_text record' :
  disk_wf d -> record.(FlowRecord.schema_version) = FLOW_SCHEMA_VERSION ->
  exec fates (persist_flow_finish dir now_ms record outcome ledger_text) d = (d', fates', record') ->
  let id := record.(FlowRecord.flow_id) in
  disk_wf d' /\
  (forall id', id' <> id -> loaded_flow d' id' = loaded_flow d id') /\
  (loaded_flow d' id = inl record' \/ loaded_flow d' id = loaded_flow d id) /\
  (fates = [] -> id_valid id = true -> loaded_flow d' id = inl record').
Proof.
  intros W V. unfold persist_flow_finish. rewrite exec_bind.
  destruct (exec fates (write_flow_record _ _) d) as [[d1 f1] r1] eqn:E1. rewrite exec_bind.
  destruct (exec f1 _ d1) as [[d2 f2] r2] eqn:E2. intros [= <- <- <-]. cbn zeta.
  apply record_written in E1 as (W1 & O & L & D1); [|done|done]. cbn [FlowRecord.finish FlowRecord.flow_id] in *.
  pose proof (write_file_spec _ _ _ _ _ _ _ _ W1 E2) as (W2 & _).
  pose proof (fun id' => other_file_loaded _ _ _ _ _ id' _ _ _ W1 E2 ltac:(done)) as S.
  split_and!; [done | by intros; rewrite S, O | rewrite S; by destruct r1; [left|right] |].
  intros F IV. destruct (D1 F IV) as [-> ->]. by rewrite S.
Qed.

(** A flow on disk. Whatever fails while a flow's start and its end are written down, and wherever the
    writing stops, a later load finds under its id the record of a flow begun, the one of a flow finished with
    its outcome, or what was there before; no other flow's record changes; and nothing failing, the finished
    record is what is loaded, and its status is that of a finished flow. *)
Theorem flow_persisted (fates : list Fate.t) (d d' : Disk.t) (fates' : list Fate.t) started ended id def def_text outcome
    ledger_text record :
  disk_wf d ->
  exec fates (run! record := persist_flow_start dir started id def def_text in
              persist_flow_finish dir ended record outcome ledger_text) d = (d', fates', record) ->
  let begun := FlowRecord.begin started id def in
  (record = FlowRecord.finish ended begun outcome.(FlowOutcome.ok) outcome.(FlowOutcome.summary)
              (FlowOutcome.final_text outcome)) /\
  loaded_flow d' id ∈ [loaded_flow d id; inl begun; inl record] /\
  (forall id', id' <> id -> loaded_flow d' id' = loaded_flow d id') /\
  (fates = [] -> id_valid id = true -> loaded_flow d' id = inl record).
Proof.
  intros W. rewrite exec_bind. destruct (exec fates _ d) as [[d1 f1] r1] eqn:E1. intros E2 begun.
  apply run_start in E1 as (-> & W1 & O1 & L1 & D1); [|done].
  assert (record = FlowRecord.finish ended begun outcome.(FlowOutcome.ok) outcome.(FlowOutcome.summary)
            (FlowOutcome.final_text outcome)) as ER.
  { unfold persist_flow_finish in E2. rewrite exec_bind in E2. destruct (exec f1 _ d1) as [[? ?] ?].
    rewrite exec_bind in E2. destruct (exec _ _ _) as [[? ?] ?]. by injection E2 as <- <- <-. }
  apply run_finish in E2 as (W2 & O2 & L2 & D2); [|done|done]. cbn [FlowRecord.begin FlowRecord.flow_id] in *.
  split_and!; [done | | by intros; rewrite O2, O1 |].
  - destruct L2 as [-> | ->]; [by do 2 right; left|]. destruct L1 as [-> | ->]; [by right; left | by left].
  - intros F V. destruct (D1 F V) as [F1 _]. by apply D2.
Qed.
End store.

(** The end's record is torn in the middle of its text: the flow is found interrupted. *)
Definition torn_end : list Fate.t := repeat Fate.Done 10 ++ [Fate.Torn 20].

Lemma flow_persisted_witness :
  let life := run! record := persist_flow_start "flows" (wrap 64 3) "f1" race "{}" in
              persist_flow_finish "flows" (wrap 64 9) record (FlowOutcome.Mk true [] "done") "" in
  (loaded_flow "flows" (exec torn_end life Disk.empty).1.1 "f1" = inl (FlowRecord.begin (wrap 64 3) "f1" race)) /\
  loaded_flow "flows" (exec [] life Disk.empty).1.1 "f1" =
    inl (FlowRecord.finish (wrap 64 9) (FlowRecord.begin (wrap 64 3) "f1" race) true "done" "").
Proof.
  cbn zeta. split; [vm_compute; reflexivity|].
  destruct (exec [] _ Disk.empty) as [[d' f'] r'] eqn:E.
  destruct (flow_persisted "flows" [] Disk.empty d' f' _ _ "f1" _ _ _ _ r' disk_wf_empty E) as (-> & _ & _ & L).
  etransitivity; [exact (L eq_refl eq_refl) | reflexivity].
Defined.

(** * A job's events *)

Lemma observed_not_terminal log : Forall (fun e => FlowEvent.terminal e = false) (flat_map observe log).
Proof.
  induction log as [|e log IH]; [constructor|]. simpl. apply Forall_app. split; [|exact IH].
  destruct e; simpl; repeat constructor. by destruct decision; repeat constructor.
Qed.

Lemma edges_not_terminal s : Forall (fun e => FlowEvent.terminal e = false) (emit_strategy_edges s).
Proof.
  assert (E : Forall (fun e => is_Some (edge_of e)) (emit_strategy_edges s)).
  { assert (P : forall from index n, Forall (fun e => is_Some (edge_of e)) (pipeline_edges from index n)).
    { intros from index n. revert from index. induction n as [|n IH]; intros; simpl; constructor; eauto. }
    assert (M : forall (f : nat -> FlowEvent.t) l, (forall i, is_Some (edge_of (f i))) ->
              Forall (fun e => is_Some (edge_of e)) (map f l)).
    { intros f l H. apply Forall_map, Forall_true, H. }
    assert (B : forall (f : nat -> list FlowEvent.t) l, (forall i, Forall (fun e => is_Some (edge_of e)) (f i)) ->
              Forall (fun e => is_Some (edge_of e)) (flat_map f l)).
    { intros f l H. induction l as [|i l IH]; [constructor|]. simpl. apply Forall_app. by split. }
    destruct s as [|branches j|stages|m over r|candidates judge k|sides rounds judge|]; simpl.
    - by repeat constructor; eexists.
    - apply M. by eexists.
    - apply P.
    - apply B. intros i. by repeat constructor; eexists.
    - apply B. intros i. by repeat constructor; eexists.
    - unfold emit_debate_edges. destruct (_ || _); [constructor|]. apply B. intros i.
      constructor; [by eexists|]. apply Forall_app. split; [apply M; by eexists | by repeat constructor; eexists].
    - by repeat constructor; eexists. }
  eapply Forall_impl; [exact E|]. intros [] [p H]; done.
Qed.

(** A flow's events begin with its start and end with its one end; what the end tells is what the job answers
    and what the registry keeps, and a cancelled flow has failed whatever its engine found. *)
Lemma flow_job_events d l flow_id def meanwhile job_cancelled l' events result :
  (forall l, is_Some (l.(LiveFlows.flows) !! flow_id) -> is_Some ((meanwhile l).(LiveFlows.flows) !! flow_id)) ->
  run_flow_start d l flow_id def meanwhile job_cancelled = (l', events, result) ->
  exists body last outcome,
    events = FlowEvent.FlowStarted def.(WorkflowDef.strategy) :: body ++ [last] /\
    Forall (fun e => FlowEvent.terminal e = false) body /\ FlowEvent.terminal last = true /\
    from_option FlowEntry.outcome None (l'.(LiveFlows.flows) !! flow_id) = Some outcome /\
    (exists err, LiveFlows.steer_target l' flow_id = inr err) /\
    match result with
    | inl _ => last = if outcome.(FlowRunOutcome.ok) then FlowEvent.FlowCompleted outcome
                      else FlowEvent.FlowFailed None outcome.(FlowRunOutcome.summary)
    | inr err => last = FlowEvent.FlowFailed None "flow cancelled" /\ err = RuntimeError.cancelled
    end.
Proof.
  intros M. unfold run_flow_start. destruct (flow_envelope def) as [budget [fleet sem]].
  destruct (Driver.run d def (Some budget) sem) as [outcome r].
  set (l1 := meanwhile _). assert (L1 : is_Some (l1.(LiveFlows.flows) !! flow_id)).
  { apply M. simpl. by rewrite lookup_insert_eq. }
  destruct L1 as [entry L1]. unfold finish_flow. simpl. rewrite L1. simpl.
  assert (L2 : (LiveFlows.record_outcome (LiveFlows.cancel l1 flow_id) flow_id (FlowRunOutcome.of_flow outcome)).(LiveFlows.flows) !! flow_id =
               Some (FlowEntry.with_outcome (FlowEntry.with_cancel entry) (FlowRunOutcome.of_flow outcome))).
  { simpl. by rewrite !lookup_alter_eq, L1. }
  intros E. exists (emit_strategy_edges def.(WorkflowDef.strategy) ++ flat_map observe r.(Run.log)).
  destruct (job_cancelled || FlowEntry.cancel entry); injection E as <- <- <-;
    eexists _, (FlowRunOutcome.of_flow outcome); rewrite L2; unfold LiveFlows.steer_target; rewrite L2; simpl;
    rewrite <- app_assoc; (split; [reflexivity|]); (split; [apply Forall_app; split; [apply edges_not_terminal | apply observed_not_terminal]|]).
  - split_and!; [done | done | by eexists | done | done].
  - split_and!; [by destruct (FlowOutcome.ok outcome) | done | by eexists | done].
Qed.

(** A follow-up that exhausts the budget trips the flow's own token, so that the flow ends as cancelled though
    nobody cancelled it, and though its engine succeeds. *)
Lemma steered_exhaustion_cancels l flow_id def budget node result outcome entry :
  l.(LiveFlows.flows) !! flow_id = Some entry ->
  (BudgetLedger.debit budget result).1 = BudgetDecision.Exhausted ->
  let l' := (steer_answer l flow_id budget (inl (node, result))).1.1 in
  (finish_flow l' flow_id def outcome false).1.2 = FlowEvent.FlowFailed None "flow cancelled" /\
  (finish_flow l' flow_id def outcome false).2 = inr RuntimeError.cancelled.
Proof.
  intros L E. unfold steer_answer. destruct (BudgetLedger.debit budget result) as [decision budget'].
  simpl in E. subst decision. unfold finish_flow. simpl. rewrite lookup_alter_eq, L. by split.
Qed.
