(* ===== verification/Delegate.v ===== *)
(** Delegated agents ([nerve-workstation/src/delegate_runtime/], [delegate_roles.rs], [delegate_session.rs],
    [delegate_proxy.rs], [jobs/delegate/seal.rs]): the command lines of an external agent, the parse of its
    stream, one turn of a live session with the permissions it asks for, and the events a session is sealed to. *)
From Stdlib Require Import SpecFloat.
From stdpp Require Import gmap strings.
From S2P Require Import Prelude Text Json Digest Provenance Disk Wire Paths ToolPolicy Approval Attest FlowDefs Tape.
Open Scope nerve_scope.

(** * Agents and roles *)

Module DelegateError.
Inductive t := UnknownAgent (agent : string) | CwdEscape (reason : string).
Definition display (e : t) : string :=
  match e with
  | UnknownAgent agent => "unknown delegate agent `" +:+ agent +:+ "` (known: codex, claude)"
  | CwdEscape reason => "delegate cwd rejected: " +:+ reason
  end.
End DelegateError.

Module DelegateUsage.
Record t := Mk {
  input_tokens : u64;
  output_tokens : u64;
  cache_read_tokens : u64;
  cache_creation_tokens : u64;
}.
Definition json_of (u : t) : json :=
  JObj [("input_tokens", ser u.(input_tokens)); ("output_tokens", ser u.(output_tokens));
        ("cache_read_tokens", ser u.(cache_read_tokens)); ("cache_creation_tokens", ser u.(cache_creation_tokens))].
End DelegateUsage.

Module DelegateAgent.
Inductive t := Codex | Claude.
#[global] Instance eq_dec : EqDecision t.
Proof. solve_decision. Defined.

Definition from_name (name : string) : t + DelegateError.t :=
  if String.eqb name "codex" then inl Codex
  else if String.eqb name "claude" then inl Claude
  else inr (DelegateError.UnknownAgent name).
Definition catalog_name (a : t) : string := match a with Codex => "codex" | Claude => "claude" end.
End DelegateAgent.

Definition lf : string := String "010" EmptyString.

Definition SCOUT_SYSTEM_PROMPT : string := join lf
  ["You are a READ-ONLY repository exploration sub-agent. Your ONLY job is to LOCATE the code relevant to the query below and report precise citations. You do NOT edit files, run build/test/format commands, or attempt to solve the task — another agent does that with the evidence you return.";
   "";
   "How to explore:";
   "- Start broad, then narrow down. If the first search misses, try another strategy (different identifiers, file globs, call sites).";
   "- Prefer issuing multiple read/search calls in PARALLEL in one turn; speed matters.";
   "- Search broadly when you don't know where something lives; read a file directly when you already know its path.";
   "- Stop as soon as the evidence is dense enough to answer confidently — do not over-explore.";
   "";
   "How to answer — end your final message with a block exactly like:";
   "<final_answer>";
   "/abs/path/to/file.ext:START-END — one short note on why this is relevant";
   "/abs/path/to/other.ext:LINE — ...";
   "</final_answer>";
   "Use absolute paths and 1-based line ranges. Keep prose minimal; the citations are the deliverable. Do not modify anything.";
   "";
   "Query:";
   ""].

Definition apply_role (role : DelegateRole.t) (task : string) (autonomy : DelegateAutonomy.t)
    : string * DelegateAutonomy.t :=
  match role with
  | DelegateRole.Standard => (task, autonomy)
  | DelegateRole.Scout => (SCOUT_SYSTEM_PROMPT +:+ task, DelegateAutonomy.ReadOnly)
  end.

(** * Command lines *)

Module CommandSpec.
Record t := Mk { command : string; args : list string }.
End CommandSpec.

Module DelegateInvocation.
Record t := Mk { spec : CommandSpec.t; stdin : string }.
End DelegateInvocation.

Definition codex_sandbox (autonomy : DelegateAutonomy.t) : string :=
  match autonomy with
  | DelegateAutonomy.ReadOnly => "read-only"
  | DelegateAutonomy.Edit => "workspace-write"
  | DelegateAutonomy.Full => "danger-full-access"
  end.

Definition permission_mode (autonomy : DelegateAutonomy.t) : string :=
  match autonomy with
  | DelegateAutonomy.ReadOnly => "plan"
  | DelegateAutonomy.Edit => "acceptEdits"
  | DelegateAutonomy.Full => "bypassPermissions"
  end.

Definition option_arg (flag : string) (value : option string) : list string :=
  match value with Some value => [flag; value] | None => [] end.

Definition build_codex (task cwd : string) (autonomy : DelegateAutonomy.t) (model : option string)
    (mcp_disable_flags : list string) : DelegateInvocation.t :=
  DelegateInvocation.Mk
    (CommandSpec.Mk "codex"
       (["exec"; "--json"; "--skip-git-repo-check"] ++ mcp_disable_flags ++
        ["--sandbox"; codex_sandbox autonomy; "-C"; cwd] ++ option_arg "-m" model ++ ["-"])) task.

Definition build_claude (task cwd : string) (autonomy : DelegateAutonomy.t) (model : option string)
    : DelegateInvocation.t :=
  DelegateInvocation.Mk
    (CommandSpec.Mk "claude"
       (["-p"; "--output-format"; "stream-json"; "--verbose"] ++ option_arg "--model" model ++
        ["--permission-mode"; permission_mode autonomy; "--add-dir"; cwd])) task.

Definition build_command (agent : DelegateAgent.t) (task cwd : string) (autonomy : DelegateAutonomy.t)
    (model : option string) (mcp_disable_flags : list string) : DelegateInvocation.t :=
  match agent with
  | DelegateAgent.Codex => build_codex task cwd autonomy model mcp_disable_flags
  | DelegateAgent.Claude => build_claude task cwd autonomy model
  end.

Definition build_persistent_claude_command (cwd : string) (autonomy : DelegateAutonomy.t) (model : option string)
    : CommandSpec.t :=
  CommandSpec.Mk "claude"
    (["-p"; "--verbose"; "--output-format"; "stream-json"; "--input-format"; "stream-json";
      "--permission-mode"; permission_mode autonomy] ++ option_arg "--model" model ++ ["--add-dir"; cwd]).

Definition build_proxied_claude_command (cwd : string) (model : option string) : CommandSpec.t :=
  CommandSpec.Mk "claude"
    (["-p"; "--verbose"; "--output-format"; "stream-json"; "--input-format"; "stream-json";
      "--permission-prompt-tool"; "stdio"; "--permission-mode"; "default"] ++ option_arg "--model" model ++
     ["--add-dir"; cwd]).

(** [Path::starts_with] and [join], on the paths' texts. *)
Definition path_starts_with (path base : string) : bool :=
  bool_decide (components base `prefix_of` components path).
Definition path_join (root relative : string) : string :=
  if is_absolute relative then relative
  else if starts_with "/" (rev_str root) || String.eqb root EmptyString then root +:+ relative else root +:+ "/" +:+ relative.

Definition resolve_delegate_cwd (root : string) (relative : option string) : string + DelegateError.t :=
  match relative with
  | None => inl root
  | Some relative =>
      if bool_decide (Component.ParentDir ∈ components relative) then
        inr (DelegateError.CwdEscape ("`" +:+ relative +:+ "` must not contain `..`"))
      else if is_absolute relative then
        if path_starts_with relative root then inl relative
        else inr (DelegateError.CwdEscape ("`" +:+ relative +:+ "` is outside the workspace root"))
      else inl (path_join root relative)
  end.

(** * The stream of an agent *)

Definition as_bool (v : json) : option bool := match v with JBool b => Some b | _ => None end.

Definition get_str (key : string) (v : json) : option string := value_get key v ≫= as_str.
Definition type_of (v : json) : option string := get_str "type" v.
Definition get_u64 (key : string) (v : json) : u64 := default (wrap 64 0) (value_get key v ≫= as_u64).

Definition text_block (block : json) : option string :=
  if bool_decide (type_of block = Some "text") then get_str "text" block else None.

(** The text of an [assistant] message; both parsers have it. *)
Definition assistant_text (value : json) : option string :=
  message ← value_get "message" value;
  content ← value_get "content" message ≫= as_array;
  let text := join EmptyString (omap text_block content) in
  if String.eqb text EmptyString then None else Some text.

Definition parse_claude_usage (usage : json) : DelegateUsage.t :=
  DelegateUsage.Mk (get_u64 "input_tokens" usage) (get_u64 "output_tokens" usage)
    (get_u64 "cache_read_input_tokens" usage) (get_u64 "cache_creation_input_tokens" usage).
Definition parse_codex_usage (usage : json) : DelegateUsage.t :=
  DelegateUsage.Mk (get_u64 "input_tokens" usage) (get_u64 "output_tokens" usage)
    (get_u64 "cached_input_tokens" usage) (wrap 64 0).

(** A [result] line that reports success. *)
Definition result_ok (value : json) : bool :=
  bool_decide (get_str "subtype" value = Some "success") && negb (default false (value_get "is_error" value ≫= as_bool)).

Module DelegateOutcome.
Record t := Mk {
  agent : string;
  ok : bool;
  result : string;
  exit_code : option i32;
  usage : option DelegateUsage.t;
  cost_usd : option f64;
  timed_out : bool;
}.
End DelegateOutcome.

Module DelegateParser.
Record t := Mk {
  agent : DelegateAgent.t;
  final_result : string;
  ok : bool;
  usage : option DelegateUsage.t;
  cost_usd : option f64;
}.
Definition new (agent : DelegateAgent.t) : t := Mk agent EmptyString true None None.

Definition with_result (p : t) (text : string) : t := Mk p.(agent) text p.(ok) p.(usage) p.(cost_usd).
Definition with_usage (p : t) (u : DelegateUsage.t) : t := Mk p.(agent) p.(final_result) p.(ok) (Some u) p.(cost_usd).
Definition with_end (p : t) (ok : bool) (cost_usd : option f64) : t := Mk p.(agent) p.(final_result) ok p.(usage) cost_usd.
End DelegateParser.

(** [as_f64]: [Value::as_f64]; a number with a fraction is none of [json]'s. *)
Section parser.
Context `{SerdeJson, SerdeText} (as_f64 : json -> option f64).

Definition ingest_codex (p : DelegateParser.t) (value : json) : DelegateParser.t * option string :=
  match type_of value with
  | Some kind =>
      if String.eqb kind "item" || String.eqb kind "item.completed" then
        let item := default value (value_get "item" value) in
        if bool_decide (type_of item = Some "agent_message") then
          match get_str "text" item with
          | Some text => (DelegateParser.with_result p text, Some text)
          | None => (p, None)
          end
        else (p, None)
      else if String.eqb kind "turn.completed" then
        (match value_get "usage" value with
         | Some usage => DelegateParser.with_usage p (parse_codex_usage usage)
         | None => p
         end, None)
      else (p, None)
  | None => (p, None)
  end.

Definition ingest_claude (p : DelegateParser.t) (value : json) : DelegateParser.t * option string :=
  match type_of value with
  | Some kind =>
      if String.eqb kind "assistant" then (p, assistant_text value)
      else if String.eqb kind "result" then
        let p := DelegateParser.with_end p (result_ok value) (value_get "total_cost_usd" value ≫= as_f64) in
        let p := match get_str "result" value with Some text => DelegateParser.with_result p text | None => p end in
        (match value_get "usage" value with
         | Some usage => DelegateParser.with_usage p (parse_claude_usage usage)
         | None => p
         end, None)
      else (p, None)
  | None => (p, None)
  end.

Definition ingest (p : DelegateParser.t) (line : string) : DelegateParser.t * option string :=
  let line := trim line in
  if String.eqb line EmptyString then (p, None)
  else
    match from_str line with
    | None => (p, Some line)
    | Some value =>
        match p.(DelegateParser.agent) with
        | DelegateAgent.Codex => ingest_codex p value
        | DelegateAgent.Claude => ingest_claude p value
        end
    end.

Definition finish (p : DelegateParser.t) (agent_name : string) (exit_code : option i32) (timed_out : bool)
    : DelegateOutcome.t :=
  let process_ok := negb timed_out && match exit_code with Some code => (ival code =? 0)%Z | None => false end in
  DelegateOutcome.Mk agent_name (p.(DelegateParser.ok) && process_ok) p.(DelegateParser.final_result) exit_code
    p.(DelegateParser.usage) p.(DelegateParser.cost_usd) timed_out.
End parser.

(** * Tool calls in the stream ([delegate_runtime/tool_events.rs]) *)

Definition MAX_TOOL_TITLE : nat := 200.

(** The cut goes back to a character's first byte. *)
Fixpoint char_start (text : string) (end_ : nat) : nat :=
  match end_ with
  | 0 => 0
  | S less => if match String.get end_ text with None => true | Some c => negb (utf8_continuation c) end
              then end_ else char_start text less
  end.

Definition bounded_title (text : string) : string :=
  if String.length text <=? MAX_TOOL_TITLE then text else String.substring 0 (char_start text MAX_TOOL_TITLE) text.

Definition or_else {A} (a b : option A) : option A := match a with Some _ => a | None => b end.

Definition claude_tool_title (input : json) : option string :=
  bounded_title <$>
    (or_else (value_get "file_path" input) (or_else (value_get "path" input) (value_get "command" input)) ≫= as_str).

Definition as_i64 (v : json) : option Z :=
  match v with JNum z => if ((- 2 ^ 63 <=? z) && (z <? 2 ^ 63))%Z then Some z else None | _ => None end.

Definition codex_item_tool (item : json) : option (string * option string * bool) :=
  match type_of item with
  | Some kind =>
      if String.eqb kind "command_execution" then
        Some ("command_execution", bounded_title <$> get_str "command" item,
              match value_get "exit_code" item ≫= as_i64 with Some code => (code =? 0)%Z | None => true end)
      else if String.eqb kind "file_change" then
        Some ("file_change",
              bounded_title <$> (or_else (value_get "path" item) (value_get "file" item) ≫= as_str), true)
      else None
  | None => None
  end.

Section tool_events.
Context `{SerdeJson, SerdeText, Sha256}.

Definition claude_block_event (role : option string) (turn : u64) (block : json) : list EventKind.t :=
  match type_of block with
  | Some kind =>
      if String.eqb kind "tool_use" && bool_decide (role = Some "assistant") then
        let input := default JNull (value_get "input" block) in
        [EventKind.ToolStarted turn (default "tool" (get_str "name" block)) (claude_tool_title input)
           (hash_canonical_json input)]
      else if String.eqb kind "tool_result" && bool_decide (role = Some "user") then
        [EventKind.ToolFinished turn "tool" (negb (default false (value_get "is_error" block ≫= as_bool))) None
           (hash_canonical_json (default JNull (value_get "content" block)))]
      else []
  | None => []
  end.

Definition parse_claude_tool_events (value : json) (turn : u64) : list EventKind.t :=
  match (message ← value_get "message" value; value_get "content" message ≫= as_array) with
  | None => []
  | Some blocks => flat_map (claude_block_event (type_of value) turn) blocks
  end.

Definition parse_codex_tool_events (value : json) (turn : u64) : list EventKind.t :=
  if bool_decide (type_of value = Some "item") || bool_decide (type_of value = Some "item.completed") then
    let item := default value (value_get "item" value) in
    match codex_item_tool item with
    | None => []
    | Some (tool, title, ok) =>
        let args_hash := hash_canonical_json item in
        [EventKind.ToolStarted turn tool title args_hash; EventKind.ToolFinished turn tool ok title args_hash]
    end
  else [].

Definition parse_tool_events (agent : DelegateAgent.t) (value : json) (turn : u64) : list EventKind.t :=
  match agent with
  | DelegateAgent.Claude => parse_claude_tool_events value turn
  | DelegateAgent.Codex => parse_codex_tool_events value turn
  end.

Definition tool_event_to_agent_event (kind : EventKind.t) : option AgentEventKind.t :=
  match kind with
  | EventKind.ToolStarted _ tool title args_hash =>
      Some (AgentEventKind.ToolStarted tool (JStr (default args_hash title)))
  | EventKind.ToolFinished _ tool ok title output_hash =>
      Some (AgentEventKind.ToolFinished tool ok (default output_hash title))
  | _ => None
  end.

(** The rows a turn's lines give, as [emit_delegate_tool_rows] emits them. *)
Definition emit_tool_event_rows (agent : DelegateAgent.t) (value : json) (turn : u64) : list AgentEventKind.t :=
  omap tool_event_to_agent_event (parse_tool_events agent value turn).
Definition emit_delegate_tool_rows (agent : DelegateAgent.t) (raw_lines : list string) (turn : u64)
    : list AgentEventKind.t :=
  flat_map (fun line => match from_str line with Some value => emit_tool_event_rows agent value turn | None => [] end)
    raw_lines.
End tool_events.

(** * Permissions ([delegate_proxy.rs]) *)

Definition claude_tool_tier (tool : string) : RiskTier.t :=
  if contains ["Read"; "Glob"; "Grep"; "NotebookRead"; "TodoWrite"; "WebFetch"; "WebSearch"] tool then RiskTier.ReadOnly
  else if contains ["Edit"; "Write"; "NotebookEdit"; "MultiEdit"] tool then RiskTier.Edit
  else RiskTier.Exec.

Definition codex_tool_tier (tool : string) : RiskTier.t :=
  if contains ["Edit"; "Write"] tool then RiskTier.Edit else RiskTier.Exec.

(** Another tool has none: the empty key is looked up. *)
Definition summary_field (tool : string) : string :=
  if String.eqb tool "Bash" then "command"
  else if contains ["Edit"; "Write"; "Read"; "NotebookEdit"; "MultiEdit"] tool then "file_path"
  else if contains ["Glob"; "Grep"] tool then "pattern"
  else if String.eqb tool "WebFetch" then "url"
  else if String.eqb tool "WebSearch" then "query"
  else EmptyString.

Definition deny_message (decision : SessionApprovalDecision.t) : string :=
  match decision with
  | SessionApprovalDecision.DenyAlways => "denied by the operator (this tool is blocked for the session)"
  | _ => "denied by the operator"
  end.

(** What the operator is shown. *)
Module Ask.
Record t := Mk { tool : string; args : json; tier : RiskTier.t; preview : string }.
End Ask.

Module DelegateProxy.
Record t := Mk { agent : string; decisions : gmap string bool; asked : list Ask.t }.
Definition for_agent (agent : string) : t := Mk agent ∅ [].
Definition ask (p : t) (a : Ask.t) : t := Mk p.(agent) p.(decisions) (p.(asked) ++ [a]).
Definition learn (p : t) (tool : string) (allow : bool) : t := Mk p.(agent) (<[tool := allow]> p.(decisions)) p.(asked).
End DelegateProxy.

Section proxy.
Context `{SerdeJson, SerdeText}.

Definition claude_tool_summary (tool : string) (input : json) : string :=
  match get_str (summary_field tool) input with
  | Some value => value
  | None => match input with JNull => EmptyString | _ => to_vec input end
  end.

Definition delegate_preview (agent tool : string) (input : json) : string :=
  let summary := claude_tool_summary tool input in
  truncate_chars
    (if String.eqb summary EmptyString then agent +:+ " wants to run " +:+ tool
     else agent +:+ " wants to run " +:+ tool +:+ ": " +:+ summary) 500.

Definition control_response (request_id : string) (response : json) : json :=
  JObj [("type", JStr "control_response");
        ("response", JObj [("subtype", JStr "success"); ("request_id", JStr request_id); ("response", response)])].

Definition allow_response (request_id : string) (input : json) (tool_use_id : string) : json :=
  control_response request_id
    (JObj [("behavior", JStr "allow"); ("updatedInput", input); ("toolUseID", JStr tool_use_id)]).

Definition deny_response (request_id message : string) (interrupt : bool) : json :=
  control_response request_id
    (JObj ([("behavior", JStr "deny"); ("message", JStr message)] ++
           (if interrupt then [("interrupt", JBool true)] else []))).

(** [answer] is what the operator says if asked, and [cancelled] the session's token from then on. *)
Definition decide_tool (p : DelegateProxy.t) (tool : string) (input : json) (answer : SessionApprovalDecision.t)
    (cancelled : bool) : DelegateProxy.t * SessionApprovalDecision.t :=
  match (p.(DelegateProxy.decisions) !! tool : option bool) with
  | Some allow => (p, if allow then SessionApprovalDecision.Allow else SessionApprovalDecision.Deny)
  | None =>
      let tier := if String.eqb p.(DelegateProxy.agent) "codex" then codex_tool_tier tool else claude_tool_tier tool in
      let p := DelegateProxy.ask p (Ask.Mk tool input tier (delegate_preview p.(DelegateProxy.agent) tool input)) in
      (if SessionApprovalDecision.remember answer && negb cancelled
       then DelegateProxy.learn p tool (SessionApprovalDecision.allows answer) else p, answer)
  end.

(** The parts of a [can_use_tool] request that are used. *)
Definition request_of (value : json) : json := default JNull (value_get "request" value).
Definition request_id_of (value : json) : string := default EmptyString (get_str "request_id" value).
Definition tool_of (value : json) : string := default EmptyString (get_str "tool_name" (request_of value)).
Definition input_of (value : json) : json := default JNull (value_get "input" (request_of value)).
Definition tool_use_id_of (value : json) : string := default EmptyString (get_str "tool_use_id" (request_of value)).

(** The reply, and whether it interrupts the turn. *)
Definition resolve_ask (p : DelegateProxy.t) (value : json) (answer : SessionApprovalDecision.t) (cancelled : bool)
    : DelegateProxy.t * json * bool :=
  let '(p, decision) := decide_tool p (tool_of value) (input_of value) answer cancelled in
  if SessionApprovalDecision.allows decision then
    (p, allow_response (request_id_of value) (input_of value) (tool_use_id_of value), false)
  else (p, deny_response (request_id_of value) (deny_message decision) cancelled, cancelled).

(** ** The requests of codex *)

Definition codex_command_text (params : json) : string :=
  match value_get "command" params with
  | Some (JStr s) => s
  | Some (JArr parts) => join " " (omap as_str parts)
  | _ => EmptyString
  end.

Fixpoint change_path_in (keys : list string) (params : json) : string :=
  match keys with
  | [] => EmptyString
  | key :: keys =>
      match (changes ← (value_get key params ≫= as_array); head changes) with
      | None => change_path_in keys params
      | Some first =>
          match or_else (as_str first) (get_str "path" first) with
          | Some path => path
          | None => change_path_in keys params
          end
      end
  end.

Definition codex_change_path (params : json) : string :=
  match get_str "path" params with Some path => path | None => change_path_in ["changes"; "files"] params end.

Definition codex_method_label (method : string) : string :=
  default "codex_tool"
    (before ← strip_suffix "/requestApproval" method;
     segment ← last (split_on "/" before);
     if String.eqb segment EmptyString then None else Some segment).

Definition codex_tool_and_input (request : json) : string * json :=
  let method := default EmptyString (get_str "method" request) in
  let params := default JNull (value_get "params" request) in
  if String.eqb method "item/commandExecution/requestApproval" then
    ("Bash", JObj [("command", JStr (codex_command_text params)); ("cwd", default JNull (value_get "cwd" params))])
  else if String.eqb method "item/fileChange/requestApproval" then
    ("Edit", JObj [("file_path", JStr (codex_change_path params))])
  else (codex_method_label method, params).

Definition codex_decision (decision : SessionApprovalDecision.t) (interrupted : bool) : string :=
  if interrupted then "cancel"
  else
    match decision with
    | SessionApprovalDecision.Allow => "accept"
    | SessionApprovalDecision.AllowAlways => "acceptForSession"
    | SessionApprovalDecision.Deny | SessionApprovalDecision.DenyAlways => "decline"
    end.

Definition resolve_codex (p : DelegateProxy.t) (request : json) (answer : SessionApprovalDecision.t) (cancelled : bool)
    : DelegateProxy.t * string * bool :=
  let '(tool, input) := codex_tool_and_input request in
  let '(p, decision) := decide_tool p tool input answer cancelled in
  let interrupted := negb (SessionApprovalDecision.allows decision) && cancelled in
  (p, codex_decision decision interrupted, interrupted).
End proxy.

(** * A turn of a live session ([delegate_session.rs]) *)

Definition TURN_TIMEOUT : N := 600000.

(** The [TurnResult] of this file; a worker's is another type. *)
Module DelegateTurn.
Record t := Mk {
  ok : bool;
  result : string;
  usage : option DelegateUsage.t;
  cost_usd : option f64;
  raw_lines : list string;
}.
End DelegateTurn.

Definition turn_json (f64_json : f64 -> json) (turn : DelegateTurn.t) (agent session_id : string) : json :=
  JObj [("agent", JStr agent); ("session_id", JStr session_id); ("ok", JBool turn.(DelegateTurn.ok));
        ("result", JStr turn.(DelegateTurn.result));
        ("usage", match turn.(DelegateTurn.usage) with Some u => DelegateUsage.json_of u | None => JNull end);
        ("cost_usd", match turn.(DelegateTurn.cost_usd) with Some cost => f64_json cost | None => JNull end)].

Module SessionError.
Inductive t := ProcessExited | TurnTimedOut | Cancelled | Io (message : string).
Definition display (e : t) : string :=
  match e with
  | ProcessExited => "delegated session exited before completing the turn"
  | TurnTimedOut => "delegated turn produced no result within the turn timeout"
  | Cancelled => "delegated turn was cancelled"
  | Io message => "delegated session io error: " +:+ message
  end.
End SessionError.

(** The loop's view of the child, one round a time: the token at the round's start, then what [recv_timeout]
    gives if it is called. A line comes with what the operator answers should it ask, and the token after that; a time-out with
    the clock. *)
Module Round.
Inductive recv :=
  | Line (raw : string) (answer : SessionApprovalDecision.t) (cancelled : bool)
  | Timeout (now : N)
  | Disconnected.
Record t := Mk { cancelled : bool; got : recv }.
End Round.

(** [written]: what the child was sent; [progress]: the texts streamed. *)
Module DelegateSession.
Record t := Mk {
  session_id : option string;
  proxy : option DelegateProxy.t;
  written : list json;
  progress : list string;
}.
Definition spawned (proxy : option DelegateProxy.t) : t := Mk None proxy [] [].

(** [get_or_insert_with]. *)
Definition learn_id (s : t) (id : option string) : t :=
  Mk (match s.(session_id) with Some known => Some known | None => id end) s.(proxy) s.(written) s.(progress).
Definition write (s : t) (line : json) : t := Mk s.(session_id) s.(proxy) (s.(written) ++ [line]) s.(progress).
Definition stream (s : t) (text : string) : t := Mk s.(session_id) s.(proxy) s.(written) (s.(progress) ++ [text]).
Definition with_proxy (s : t) (p : DelegateProxy.t) : t := Mk s.(session_id) (Some p) s.(written) s.(progress).
End DelegateSession.

Module TurnAccumulator.
Record t := Mk { last_assistant : string; raw_lines : list string }.
Definition default : t := Mk EmptyString [].
End TurnAccumulator.

Module LineOutcome.
Inductive t := Continue | Done (turn : DelegateTurn.t) | Interrupted.
End LineOutcome.

Fixpoint reescape_control_chars (line : string) : string :=
  match line with
  | EmptyString => EmptyString
  | String c rest =>
      let n := Ascii.nat_of_ascii c in
      if n <? 32 then
        "\u00" +:+ String (hex_digit (n / 16)) (String (hex_digit (n mod 16)) (reescape_control_chars rest))
      else String c (reescape_control_chars rest)
  end.

Definition user_message_frame (message : string) : json :=
  JObj [("type", JStr "user");
        ("message", JObj [("role", JStr "user");
                          ("content", JArr [JObj [("type", JStr "text"); ("text", JStr message)]])]);
        ("parent_tool_use_id", JNull)].

(** [new_request_id], whose number is the clock's. *)
Definition interrupt_frame (request_id : string) : json :=
  JObj [("type", JStr "control_request"); ("request_id", JStr request_id);
        ("request", JObj [("subtype", JStr "interrupt"); ("reason", JStr "cancelled")])].

Section turn.
Context `{SerdeJson, SerdeText} (as_f64 : json -> option f64) (interrupt_id : string).

Definition finish_turn (acc : TurnAccumulator.t) (value : json) : DelegateTurn.t :=
  DelegateTurn.Mk (result_ok value) (default acc.(TurnAccumulator.last_assistant) (get_str "result" value))
    (parse_claude_usage <$> value_get "usage" value) (value_get "total_cost_usd" value ≫= as_f64)
    acc.(TurnAccumulator.raw_lines).

Definition interrupt (s : DelegateSession.t) : DelegateSession.t := DelegateSession.write s (interrupt_frame interrupt_id).

Definition handle_control_request (s : DelegateSession.t) (value : json) (answer : SessionApprovalDecision.t)
    (cancelled : bool) : DelegateSession.t * LineOutcome.t :=
  if bool_decide (get_str "subtype" (request_of value) = Some "can_use_tool") then
    match s.(DelegateSession.proxy) with
    | None => (s, LineOutcome.Continue)
    | Some proxy =>
        let '(proxy, response, interrupted) := resolve_ask proxy value answer cancelled in
        let s := DelegateSession.write (DelegateSession.with_proxy s proxy) response in
        if interrupted then (interrupt s, LineOutcome.Interrupted) else (s, LineOutcome.Continue)
    end
  else (s, LineOutcome.Continue).

Definition ingest_value (s : DelegateSession.t) (acc : TurnAccumulator.t) (value : json)
    (answer : SessionApprovalDecision.t) (cancelled : bool)
    : DelegateSession.t * TurnAccumulator.t * LineOutcome.t :=
  match type_of value with
  | None => (s, acc, LineOutcome.Continue)
  | Some kind =>
      if String.eqb kind "system" then
        (if bool_decide (get_str "subtype" value = Some "init") then DelegateSession.learn_id s (get_str "session_id" value)
         else s, acc, LineOutcome.Continue)
      else if String.eqb kind "assistant" then
        match assistant_text value with
        | Some text =>
            (DelegateSession.stream s text, TurnAccumulator.Mk text acc.(TurnAccumulator.raw_lines),
             LineOutcome.Continue)
        | None => (s, acc, LineOutcome.Continue)
        end
      else if String.eqb kind "control_request" then
        let '(s, outcome) := handle_control_request s value answer cancelled in (s, acc, outcome)
      else if String.eqb kind "result" then
        (DelegateSession.learn_id s (get_str "session_id" value), acc, LineOutcome.Done (finish_turn acc value))
      else (s, acc, LineOutcome.Continue)
  end.

Definition ingest_line (s : DelegateSession.t) (acc : TurnAccumulator.t) (raw : string)
    (answer : SessionApprovalDecision.t) (cancelled : bool)
    : DelegateSession.t * TurnAccumulator.t * LineOutcome.t :=
  let acc := TurnAccumulator.Mk acc.(TurnAccumulator.last_assistant) (acc.(TurnAccumulator.raw_lines) ++ [raw]) in
  match from_str (reescape_control_chars raw) with
  | None => (s, acc, LineOutcome.Continue)
  | Some value => ingest_value s acc value answer cancelled
  end.

(** [None] when the rounds given are over and the loop is not; else also the rounds that are left. *)
Fixpoint read_until_result (deadline : N) (s : DelegateSession.t) (acc : TurnAccumulator.t) (rounds : list Round.t)
    : DelegateSession.t * option ((DelegateTurn.t + SessionError.t) * list Round.t) :=
  match rounds with
  | [] => (s, None)
  | round :: rounds =>
      if round.(Round.cancelled) then (interrupt s, Some (inr SessionError.Cancelled, round :: rounds))
      else
        match round.(Round.got) with
        | Round.Line raw answer cancelled =>
            let '(s, acc, outcome) := ingest_line s acc raw answer cancelled in
            match outcome with
            | LineOutcome.Done turn => (s, Some (inl turn, rounds))
            | LineOutcome.Interrupted => (s, Some (inr SessionError.Cancelled, rounds))
            | LineOutcome.Continue => read_until_result deadline s acc rounds
            end
        | Round.Timeout now =>
            if (deadline <=? now)%N then (s, Some (inr SessionError.TurnTimedOut, rounds))
            else read_until_result deadline s acc rounds
        | Round.Disconnected => (s, Some (inr SessionError.ProcessExited, rounds))
        end
  end.

(** [pipe]: whether the child still takes a line. *)
Definition run_turn (now : N) (pipe : unit + string) (s : DelegateSession.t) (message : string) (rounds : list Round.t)
    : DelegateSession.t * option ((DelegateTurn.t + SessionError.t) * list Round.t) :=
  match pipe with
  | inr err => (s, Some (inr (SessionError.Io err), rounds))
  | inl _ =>
      read_until_result (now + TURN_TIMEOUT) (DelegateSession.write s (user_message_frame message))
        TurnAccumulator.default rounds
  end.

(** The command a session is spawned with. *)
Definition start_command (cwd : string) (autonomy : DelegateAutonomy.t) (model : option string)
    (proxy : option DelegateProxy.t) : CommandSpec.t :=
  match proxy with
  | Some _ => build_proxied_claude_command cwd model
  | None => build_persistent_claude_command cwd autonomy model
  end.

(** The flag: the child was closed again, which is what becomes of one whose first turn fails. *)
Definition start_session (launched : unit + string) (now : N) (pipe : unit + string) (proxy : option DelegateProxy.t)
    (first_message : string) (rounds : list Round.t)
    : option ((DelegateSession.t * DelegateTurn.t) + SessionError.t) * bool :=
  match launched with
  | inr err => (Some (inr (SessionError.Io err)), false)
  | inl _ =>
      match run_turn now pipe (DelegateSession.spawned proxy) first_message rounds with
      | (s, Some (inl turn, _)) => (Some (inl (s, turn)), false)
      | (_, Some (inr err, _)) => (Some (inr err), true)
      | (_, None) => (None, false)
      end
  end.
End turn.

(** * Sealing a session ([jobs/delegate/seal.rs]) *)

Module CapturedTurn.
Record t := Mk { ok : bool; usage : option DelegateUsage.t; cost_usd : option f64; raw_lines : list string }.
Definition of_turn (turn : DelegateTurn.t) : t :=
  Mk turn.(DelegateTurn.ok) turn.(DelegateTurn.usage) turn.(DelegateTurn.cost_usd) turn.(DelegateTurn.raw_lines).
End CapturedTurn.

(** [round], half away from zero, then [as u64], which saturates; of a number that is not negative. *)
Definition round_u64 (x : f64) : u64 :=
  match x with
  | S754_finite false m e =>
      let n := if (0 <=? e)%Z then (Z.pos m * 2 ^ e)%Z else ((Z.pos m + 2 ^ (- e - 1)) / 2 ^ (- e))%Z in
      wrap 64 (Z.to_N (Z.min n (2 ^ 64 - 1)))
  | S754_infinity false => wrap 64 (2 ^ 64 - 1)
  | _ => wrap 64 0
  end.

Definition MICRO : f64 := binary_normalize 53 1024 1000000 0 false.

Definition cost_to_micro_usd (cost_usd : option f64) : option u64 :=
  usd ← cost_usd;
  match usd with
  | S754_zero _ | S754_finite false _ _ => Some (round_u64 (fmul usd MICRO))
  | _ => None
  end.

Definition delegate_usage_event (turn : u64) (usage : DelegateUsage.t) (cost_usd : option f64) : EventKind.t :=
  EventKind.UsageUpdated turn usage.(DelegateUsage.input_tokens) usage.(DelegateUsage.output_tokens)
    usage.(DelegateUsage.cache_read_tokens) usage.(DelegateUsage.cache_creation_tokens) (cost_to_micro_usd cost_usd).

Section seal.
Context `{SerdeJson, SerdeText, Sha256}.

Definition line_events (agent : option DelegateAgent.t) (turn : u64) (line : string) : list EventKind.t :=
  EventKind.Output turn line ::
  match agent, from_str line with
  | Some agent, Some value => parse_tool_events agent value turn
  | _, _ => []
  end.

Definition turn_events (agent : option DelegateAgent.t) (index : nat) (captured : CapturedTurn.t) : list EventKind.t :=
  let turn := wrap 64 (N.of_nat index) in
  EventKind.TurnStarted turn ::
  flat_map (line_events agent turn) captured.(CapturedTurn.raw_lines) ++
  match captured.(CapturedTurn.usage) with
  | Some usage => [delegate_usage_event turn usage captured.(CapturedTurn.cost_usd)]
  | None => []
  end ++
  [EventKind.TurnFinished turn captured.(CapturedTurn.ok)].

Definition last_ok (turns : list CapturedTurn.t) : bool := default true (CapturedTurn.ok <$> last turns).

Definition session_events (agent task cwd : string) (inputs : RunInputs.t) (turns : list CapturedTurn.t) (finished : bool)
    : list EventKind.t :=
  let resolved := match DelegateAgent.from_name agent with inl a => Some a | inr _ => None end in
  EventKind.RunStarted agent task (Some cwd) (Some inputs) ::
  concat (imap (turn_events resolved) turns) ++
  [EventKind.RunFinished (finished && last_ok turns) None false].

(** [inputs] is what [resolve_run_inputs] gives, [store] and [ledger] the directories that are served. *)
Definition seal_live_run (job_id agent task cwd : string) (root : option string) (inputs : RunInputs.t)
    (store ledger : option string) (started_at_ms now_ms : u64) (turns : list CapturedTurn.t) (finished : bool)
    : io (list RuntimeEvent.t) :=
  let writer := foldl RunWriter.push (RunWriter.begin_at started_at_ms job_id agent root)
                  (session_events agent task cwd inputs turns finished) in
  run! sealed := seal writer finished store now_ms in
  emit_run_recorded job_id sealed ledger now_ms.
End seal.
