(* ===== verification/DelegateLive.v ===== *)
(** Live delegated sessions ([nerve-workstation/src/delegate_live.rs], [jobs/delegate/mod.rs],
    [delegate_store.rs]): the handle of a session between the job that started it, the follow-ups that run turns on
    it and whoever closes or cancels it, as threads; its record on disk; and the commands. *)
From Stdlib Require Import SpecFloat.
From stdpp Require Import gmap strings.
From S2P Require Import Prelude Text Json Digest Provenance Disk Wire RecordStore Paths ToolPolicy Approval Attest FlowDefs Transport Jobs Sessions Delegate.
Open Scope nerve_scope.

Module LiveError.
Inductive t := Unknown (id : string) | Closed | Interrupted | Session (message : string).

Definition is_cancellation (e : t) : bool := match e with Interrupted => true | _ => false end.
Definition display (e : t) : string :=
  match e with
  | Unknown id => "no live delegated session `" +:+ id +:+ "` (it may have ended)"
  | Closed => "delegated session is already closed"
  | Interrupted => "delegated turn was interrupted"
  | Session message => message
  end.
End LiveError.

(** A driver by what is read of it: whose it is, and the agent's own id for the session. *)
Module LiveDriver.
Record t := Mk { agent : DelegateAgent.t; session_id : option string }.
End LiveDriver.

(** The number in [holder] is of the follow-up that has the session's lock. *)
Module LiveHandle.
Record t := Mk {
  agent_kind : DelegateAgent.t;
  session : option LiveDriver.t;
  holder : option nat;
  close_requested : bool;
  session_cancel : bool;
  turns : list CapturedTurn.t;
}.

Definition new (driver : LiveDriver.t) : t := Mk driver.(LiveDriver.agent) (Some driver) None false false [].

Definition record_turn (h : t) (turn : DelegateTurn.t) : t :=
  Mk h.(agent_kind) h.(session) h.(holder) h.(close_requested) h.(session_cancel)
    (h.(turns) ++ [CapturedTurn.of_turn turn]).
Definition take_turns (h : t) : t * list CapturedTurn.t :=
  (Mk h.(agent_kind) h.(session) h.(holder) h.(close_requested) h.(session_cancel) [], h.(turns)).
Definition with_holder (h : t) (holder : option nat) : t :=
  Mk h.(agent_kind) h.(session) holder h.(close_requested) h.(session_cancel) h.(turns).
Definition take_driver (h : t) : t :=
  Mk h.(agent_kind) None h.(holder) h.(close_requested) h.(session_cancel) h.(turns).
Definition request_close (h : t) : t := Mk h.(agent_kind) h.(session) h.(holder) true true h.(turns).

(** [try_lock] finds the lock taken while a turn runs. *)
Definition snapshot (h : t) (session_id : string) : json :=
  let '(status, agent_session_id) :=
    match h.(holder), h.(session) with
    | Some _, _ => ("busy", None)
    | None, Some driver => ("live", driver.(LiveDriver.session_id))
    | None, None => ("closed", None)
    end in
  JObj [("session_id", JStr session_id); ("agent", JStr (DelegateAgent.catalog_name h.(agent_kind)));
        ("status", JStr status);
        ("agent_session_id", match agent_session_id with Some id => JStr id | None => JNull end)].
End LiveHandle.

Module LiveSessions.
Abbreviation t := (gmap string LiveHandle.t).

Definition get (l : t) (session_id : string) : LiveHandle.t + LiveError.t :=
  match l !! session_id with Some h => inl h | None => inr (LiveError.Unknown session_id) end.
Definition list (l : t) : json :=
  JObj [("delegates", JArr (map (fun kv => LiveHandle.snapshot kv.2 kv.1)
                              (sort_by (fun a b => string_leb a.1 b.1) (map_to_list l))))].
Definition get_snapshot (l : t) (session_id : string) : json + LiveError.t :=
  match get l session_id with
  | inl h => inl (JObj [("delegate", LiveHandle.snapshot h session_id)])
  | inr err => inr err
  end.
End LiveSessions.

(** * One session among threads *)

(** The job of [delegate.start]: in its first turn, after it, past the look at its token, parked, and then through
    [shutdown], the removal from the registry, [take_turns] and the seal; or failed with its child closed, or
    refused, the child never launched. *)
Module Start.
Inductive stage :=
  | FirstTurn
  | FirstDone (turn : DelegateTurn.t)
  | Registering (turn : DelegateTurn.t)
  | Parked
  | Woken
  | Shut
  | Deregistered
  | Sealing (turns : list CapturedTurn.t)
  | Sealed (turns : list CapturedTurn.t) (finished : bool)
  | Failed (cancelled : bool)
  | Refused (cancelled : bool).
End Start.

(** A [delegate.steer]: before its look-up, with the handle, with the agent's name, with the lock while the turn
    runs, recording, tearing down, giving the lock back, asking for the close, and returned. *)
Module FollowUp.
Inductive stage :=
  | Begin
  | Found
  | Named
  | Running
  | Recording (turn : DelegateTurn.t)
  | Tearing (err : LiveError.t)
  | Releasing (answer : DelegateTurn.t + LiveError.t)
  | Asking (err : LiveError.t)
  | Done (answer : DelegateTurn.t + LiveError.t).
End FollowUp.

(** Who cancels the start's job: its token first, then the session in the registry. *)
Module Canceller.
Inductive stage := Idle | Tripped | Finished.
End Canceller.

(** [closes] counts how often the child was closed. *)
Module Live.
Record t := Mk {
  start : Start.stage;
  follow_ups : list FollowUp.stage;
  canceller : Canceller.stage;
  registered : bool;
  handle : option LiveHandle.t;
  closes : nat;
}.

Definition init (follow_ups : nat) : t :=
  Mk Start.FirstTurn (repeat FollowUp.Begin follow_ups) Canceller.Idle false None 0.

Definition with_start (w : t) (s : Start.stage) : t :=
  Mk s w.(follow_ups) w.(canceller) w.(registered) w.(handle) w.(closes).
Definition with_follow_up (w : t) (i : nat) (s : FollowUp.stage) : t :=
  Mk w.(start) (<[i := s]> w.(follow_ups)) w.(canceller) w.(registered) w.(handle) w.(closes).
Definition with_canceller (w : t) (s : Canceller.stage) : t :=
  Mk w.(start) w.(follow_ups) s w.(registered) w.(handle) w.(closes).
Definition with_handle (w : t) (h : LiveHandle.t) : t :=
  Mk w.(start) w.(follow_ups) w.(canceller) w.(registered) (Some h) w.(closes).
Definition with_registered (w : t) (b : bool) : t :=
  Mk w.(start) w.(follow_ups) w.(canceller) b w.(handle) w.(closes).

(** A driver in the handle is taken and closed. *)
Definition close_driver (w : t) (h : LiveHandle.t) : t :=
  Mk w.(start) w.(follow_ups) w.(canceller) w.(registered) (Some (LiveHandle.take_driver h))
    (match h.(LiveHandle.session) with Some _ => S w.(closes) | None => w.(closes) end).
Definition close_unregistered (w : t) : t :=
  Mk w.(start) w.(follow_ups) w.(canceller) w.(registered) w.(handle) (S w.(closes)).

(** The token of the start's job. *)
Definition cancelled (w : t) : bool := match w.(canceller) with Canceller.Idle => false | _ => true end.

(** [run_delegate_live]; the child is launched or not, the first turn ends in any way, and one that fails has its
    child closed. *)
Inductive start_step (w : t) : Start.stage -> t -> Prop :=
  | start_first turn : start_step w Start.FirstTurn (with_start w (Start.FirstDone turn))
  | start_first_failed :
      start_step w Start.FirstTurn (with_start (close_unregistered w) (Start.Failed (cancelled w)))
  | start_refused : start_step w Start.FirstTurn (with_start w (Start.Refused (cancelled w)))
  | start_first_cancelled turn :
      cancelled w = true ->
      start_step w (Start.FirstDone turn) (with_start (close_unregistered w) (Start.Failed true))
  | start_checked turn :
      cancelled w = false -> start_step w (Start.FirstDone turn) (with_start w (Start.Registering turn))
  | start_register turn driver :
      start_step w (Start.Registering turn)
        (with_start (with_registered (with_handle w (LiveHandle.record_turn (LiveHandle.new driver) turn)) true)
           Start.Parked)
  | start_wake h :
      w.(handle) = Some h -> h.(LiveHandle.close_requested) = true ->
      start_step w Start.Parked (with_start w Start.Woken)
  | start_shutdown h :
      w.(handle) = Some h -> h.(LiveHandle.holder) = None ->
      start_step w Start.Woken (with_start (close_driver w h) Start.Shut)
  | start_deregister : start_step w Start.Shut (with_start (with_registered w false) Start.Deregistered)
  | start_drain h :
      w.(handle) = Some h ->
      start_step w Start.Deregistered
        (with_start (with_handle w (LiveHandle.take_turns h).1) (Start.Sealing (LiveHandle.take_turns h).2))
  | start_seal turns :
      start_step w (Start.Sealing turns) (with_start w (Start.Sealed turns (negb (cancelled w)))).

(** [run_delegate_steer] and [LiveHandle::steer] of follow-up [i]; its turn ends in any way. *)
Inductive follow_step (w : t) (i : nat) : FollowUp.stage -> t -> Prop :=
  | follow_found : w.(registered) = true -> follow_step w i FollowUp.Begin (with_follow_up w i FollowUp.Found)
  | follow_unknown id :
      w.(registered) = false ->
      follow_step w i FollowUp.Begin (with_follow_up w i (FollowUp.Done (inr (LiveError.Unknown id))))
  | follow_named h :
      w.(handle) = Some h -> h.(LiveHandle.holder) = None ->
      follow_step w i FollowUp.Found
        (with_follow_up w i (match h.(LiveHandle.session) with
                             | Some _ => FollowUp.Named
                             | None => FollowUp.Done (inr LiveError.Closed)
                             end))
  | follow_lock h driver :
      w.(handle) = Some h -> h.(LiveHandle.holder) = None -> h.(LiveHandle.session) = Some driver ->
      follow_step w i FollowUp.Named
        (with_follow_up (with_handle w (LiveHandle.with_holder h (Some i))) i FollowUp.Running)
  | follow_late h :
      w.(handle) = Some h -> h.(LiveHandle.holder) = None -> h.(LiveHandle.session) = None ->
      follow_step w i FollowUp.Named (with_follow_up w i (FollowUp.Done (inr LiveError.Closed)))
  | follow_turn turn : follow_step w i FollowUp.Running (with_follow_up w i (FollowUp.Recording turn))
  | follow_cancelled :
      follow_step w i FollowUp.Running (with_follow_up w i (FollowUp.Tearing LiveError.Interrupted))
  | follow_fatal err :
      err = SessionError.TurnTimedOut \/ err = SessionError.ProcessExited ->
      follow_step w i FollowUp.Running
        (with_follow_up w i (FollowUp.Tearing (LiveError.Session (SessionError.display err))))
  | follow_io message :
      follow_step w i FollowUp.Running
        (with_follow_up w i (FollowUp.Releasing (inr (LiveError.Session (SessionError.display (SessionError.Io message))))))
  | follow_record turn h :
      w.(handle) = Some h ->
      follow_step w i (FollowUp.Recording turn)
        (with_follow_up (with_handle w (LiveHandle.record_turn h turn)) i (FollowUp.Releasing (inl turn)))
  | follow_tear err h :
      w.(handle) = Some h ->
      follow_step w i (FollowUp.Tearing err)
        (with_follow_up (close_driver w (LiveHandle.with_holder h None)) i (FollowUp.Asking err))
  | follow_ask err h :
      w.(handle) = Some h ->
      follow_step w i (FollowUp.Asking err)
        (with_follow_up (with_handle w (LiveHandle.request_close h)) i (FollowUp.Done (inr err)))
  | follow_release answer h :
      w.(handle) = Some h ->
      follow_step w i (FollowUp.Releasing answer)
        (with_follow_up (with_handle w (LiveHandle.with_holder h None)) i (FollowUp.Done answer)).

(** [JobManager::cancel] past the token: the registry is asked to close the session, if it has it. *)
Definition cancel_close (w : t) : t :=
  with_canceller
    (match w.(registered), w.(handle) with
     | true, Some h => with_handle w (LiveHandle.request_close h)
     | _, _ => w
     end) Canceller.Finished.

(** What the threads that are there do by themselves. *)
Inductive step (w : t) : t -> Prop :=
  | step_start w' : start_step w w.(start) w' -> step w w'
  | step_follow i s w' : w.(follow_ups) !! i = Some s -> follow_step w i s w' -> step w w'
  | step_canceller : w.(canceller) = Canceller.Tripped -> step w (cancel_close w).

(** The job was asked to stop, while it runs; the session was, by a close that found it. *)
Inductive request (w : t) : t -> Prop :=
  | request_cancel : w.(canceller) = Canceller.Idle -> request w (with_canceller w Canceller.Tripped)
  | request_session_close h : w.(handle) = Some h -> request w (with_handle w (LiveHandle.request_close h)).

Definition move (w w' : t) : Prop := step w w' \/ request w w'.
End Live.

(** * The record on disk ([delegate_store.rs]) *)

Definition DELEGATE_SCHEMA_VERSION : u32 := wrap 32 1.

Definition autonomy_label (a : DelegateAutonomy.t) : string :=
  match a with
  | DelegateAutonomy.ReadOnly => "read_only" | DelegateAutonomy.Edit => "edit" | DelegateAutonomy.Full => "full"
  end.
Definition role_label (r : DelegateRole.t) : string :=
  match r with DelegateRole.Standard => "standard" | DelegateRole.Scout => "scout" end.

Module DelegateSessionRecord.
Record t := Mk {
  schema_version : u32;
  session_id : string;
  agent : string;
  root : option string;
  cwd : option string;
  autonomy : string;
  role : string;
  model : option string;
  agent_session_id : option string;
  started_at_ms : u64;
  updated_at_ms : option u64;
  finished : bool;
}.

#[export, refine] Instance serde : Serde t :=
  {| ser r := obj [fld "schema_version" r.(schema_version); fld "session_id" r.(session_id); fld "agent" r.(agent);
                   fld_null "root" r.(root); fld_null "cwd" r.(cwd); fld "autonomy" r.(autonomy); fld "role" r.(role);
                   fld_null "model" r.(model); fld_null "agent_session_id" r.(agent_session_id);
                   fld "started_at_ms" r.(started_at_ms); fld_null "updated_at_ms" r.(updated_at_ms);
                   fld "finished" r.(finished)];
     de j := m ← as_obj j;
       schema_version ← req "schema_version" m; session_id ← req "session_id" m; agent ← req "agent" m;
       root ← opt "root" m; cwd ← opt "cwd" m; autonomy ← dflt EmptyString "autonomy" m;
       role ← dflt EmptyString "role" m; model ← opt "model" m; agent_session_id ← opt "agent_session_id" m;
       started_at_ms ← req "started_at_ms" m; updated_at_ms ← opt "updated_at_ms" m;
       finished ← dflt false "finished" m;
       Some (Mk schema_version session_id agent root cwd autonomy role model agent_session_id started_at_ms
               updated_at_ms finished) |}.
Proof. all: session_struct. Defined.

Definition begin (now_ms : u64) (session_id agent root cwd : string) (autonomy : DelegateAutonomy.t)
    (role : DelegateRole.t) (model : option string) : t :=
  Mk DELEGATE_SCHEMA_VERSION session_id agent (Some root) (Some cwd) (autonomy_label autonomy) (role_label role) model
    None now_ms None false.

Definition set_agent_session_id (now_ms : u64) (id : option string) (r : t) : t :=
  Mk r.(schema_version) r.(session_id) r.(agent) r.(root) r.(cwd) r.(autonomy) r.(role) r.(model) id r.(started_at_ms)
    (Some now_ms) r.(finished).
Definition mark_closed (now_ms : u64) (r : t) : t :=
  Mk r.(schema_version) r.(session_id) r.(agent) r.(root) r.(cwd) r.(autonomy) r.(role) r.(model) r.(agent_session_id)
    r.(started_at_ms) (Some now_ms) true.
Definition touch (now_ms : u64) (r : t) : t :=
  Mk r.(schema_version) r.(session_id) r.(agent) r.(root) r.(cwd) r.(autonomy) r.(role) r.(model) r.(agent_session_id)
    r.(started_at_ms) (Some now_ms) r.(finished).
End DelegateSessionRecord.
Export (hints) DelegateSessionRecord.

Module DelegateStore.
#[export] Instance stored : StoredRecord DelegateSessionRecord.t := {|
  record_id := DelegateSessionRecord.session_id;
  record_version := DelegateSessionRecord.schema_version;
  current_version := DELEGATE_SCHEMA_VERSION;
  dir_noun := "delegates";
  id_noun := "delegate";
  parse_failure id := "failed to parse delegate " +:+ id;
  listed_before := newest_first DelegateSessionRecord.started_at_ms DelegateSessionRecord.session_id;
|}.

Section operations.
Context `{SerdeJson, SerdeText} (io_text : IoError.t -> string) (dir : string).
Definition path_for : string -> file_path + string := RecordStore.path_for (A:=DelegateSessionRecord.t) dir.
Definition write_record : DelegateSessionRecord.t -> io (unit + string) := RecordStore.write_record dir.
Definition load_record : string -> io (DelegateSessionRecord.t + string) := RecordStore.load_record dir.
Definition list : io (Datatypes.list DelegateSessionRecord.t + string) := list_records io_text dir.
Definition deserialize_record : string -> option DelegateSessionRecord.t :=
  RecordStore.deserialize_record DelegateSessionRecord.t.
End operations.
End DelegateStore.
Export (hints) DelegateStore.

Definition optional_json {A} (f : A -> json) (o : option A) : json := match o with Some a => f a | None => JNull end.

Definition persisted_delegate_snapshot (r : DelegateSessionRecord.t) : json :=
  JObj [("session_id", JStr r.(DelegateSessionRecord.session_id)); ("agent", JStr r.(DelegateSessionRecord.agent));
        ("status", JStr (if r.(DelegateSessionRecord.finished) then "ended" else "orphaned"));
        ("agent_session_id", optional_json JStr r.(DelegateSessionRecord.agent_session_id));
        ("started_at_ms", ser r.(DelegateSessionRecord.started_at_ms));
        ("updated_at_ms", optional_json ser r.(DelegateSessionRecord.updated_at_ms)); ("persisted", JBool true)].

(** [stored]: what the store gives, [None] without one. *)
Definition run_delegate_get (session_id : string) (live : LiveSessions.t)
    (stored : option (DelegateSessionRecord.t + string)) : json + RuntimeError.t :=
  match LiveSessions.get_snapshot live session_id with
  | inl found => inl found
  | inr _ =>
      match stored with
      | None => inr (RuntimeError.Adapter ("no delegate session `" +:+ session_id +:+ "`"))
      | Some (inr err) => inr (RuntimeError.Adapter ("no delegate session `" +:+ session_id +:+ "`: " +:+ err))
      | Some (inl record) => inl (JObj [("delegate", persisted_delegate_snapshot record)])
      end
  end.

Definition live_delegate_ids (entries : list json) : list string :=
  omap (fun e => value_get "session_id" e ≫= ToolPolicy.as_str) entries.

Definition run_delegate_list (live : LiveSessions.t) (stored : option (list DelegateSessionRecord.t + string)) : json :=
  let entries := default [] (value_get "delegates" (LiveSessions.list live) ≫= as_array) in
  JObj [("delegates", JArr (entries ++
    match stored with
    | Some (inl records) =>
        map persisted_delegate_snapshot
          (filter (fun r => r.(DelegateSessionRecord.session_id) ∉ live_delegate_ids entries) records)
    | _ => []
    end))].

(** * The commands ([jobs/delegate/mod.rs]) *)

(** What a start is made with, once its request is found good. *)
Module StartPlan.
Record t := Mk { agent : DelegateAgent.t; cwd : string; task : string; autonomy : DelegateAutonomy.t }.
End StartPlan.

Section commands.
Context `{SerdeJson, SerdeText}.

(** [store]: the served directory; what fails is passed over. *)
Definition persist_delegate_update (store : option string) (session_id : string)
    (update : DelegateSessionRecord.t -> DelegateSessionRecord.t) : io unit :=
  match store with
  | None => Ret tt
  | Some dir =>
      run! loaded := DelegateStore.load_record dir session_id in
      match loaded with
      | inr _ => Ret tt
      | inl record => run! _ := DelegateStore.write_record dir (update record) in Ret tt
      end
  end.

Definition delegate_session_error (agent message : string) : RuntimeError.t :=
  if contains_str "no contained sandbox backend" message then
    RuntimeError.Adapter
      ("delegation is disabled: cannot start a live `" +:+ agent +:+
       "` session (start the daemon with --allow-delegate, which requires a non-refusing exec context)")
  else RuntimeError.Adapter ("delegate `" +:+ agent +:+ "` session failed: " +:+ message).

Definition start_error (agent : string) (cancelled : bool) (err : SessionError.t) : RuntimeError.t :=
  if cancelled then RuntimeError.cancelled else delegate_session_error agent (SessionError.display err).

(** [root]: the workspace's first root, if it resolves. *)
Definition plan_start (agent task : string) (root : option string) (cwd : option string) (autonomy : DelegateAutonomy.t)
    (role : DelegateRole.t) : StartPlan.t + RuntimeError.t :=
  let '(task, autonomy) := apply_role role task autonomy in
  match DelegateAgent.from_name agent with
  | inr err => inr (RuntimeError.Adapter (DelegateError.display err))
  | inl resolved =>
      match root with
      | None => inr (RuntimeError.Adapter "delegation requires a served workspace root (start the daemon with --root)")
      | Some root =>
          match resolve_delegate_cwd root cwd with
          | inr err => inr (RuntimeError.Adapter (DelegateError.display err))
          | inl run_cwd => inl (StartPlan.Mk resolved run_cwd task autonomy)
          end
      end
  end.

(** [delegate_proxy], which there always is: the hub is the daemon's. *)
Definition delegate_proxy (agent : DelegateAgent.t) : option DelegateProxy.t :=
  Some (DelegateProxy.for_agent (DelegateAgent.catalog_name agent)).

(** A follow-up's answer as its job's; [cancelled] is the token of that job at the end. *)
Definition steer_result (f64_json : f64 -> json) (session_id : string) (agent : DelegateAgent.t) (cancelled : bool)
    (answer : DelegateTurn.t + LiveError.t) : json + RuntimeError.t :=
  match answer with
  | inr err =>
      inr (if LiveError.is_cancellation err || cancelled then RuntimeError.cancelled
           else RuntimeError.Adapter (LiveError.display err))
  | inl turn =>
      if cancelled then inr RuntimeError.cancelled
      else inl (turn_json f64_json turn (DelegateAgent.catalog_name agent) session_id)
  end.

Definition run_delegate_close (live : LiveSessions.t) (session_id : string)
    : LiveSessions.t * (json + RuntimeError.t) :=
  match LiveSessions.get live session_id with
  | inr err => (live, inr (RuntimeError.Adapter (LiveError.display err)))
  | inl h =>
      (<[session_id := LiveHandle.request_close h]> live,
       inl (JObj [("session_id", JStr session_id); ("closed", JBool true)]))
  end.
End commands.
