(* ===== verification/DelegateSpec.v ===== *)
(** Delegated sessions, proved: a session's run is sealed with every turn that ended and its child is closed once,
    a session only waits for ever when nobody asked it to close, what is sealed is what the child wrote, and a tool
    is allowed only as the operator said. *)
From Stdlib Require Import SpecFloat.
From stdpp Require Import gmap strings relations.
From S2P Require Import Prelude Text Json Digest Provenance Disk Wire RecordStore StoreSpec Reference WireReference Paths ToolPolicy Approval Attest FlowDefs Jobs Sessions FlowJobSpec Delegate DelegateLive.
Open Scope nerve_scope.

(** * One session among threads *)

Definition has_lock (s : FollowUp.stage) : bool :=
  match s with
  | FollowUp.Running | FollowUp.Recording _ | FollowUp.Tearing _ | FollowUp.Releasing _ => true
  | _ => false
  end.

(** The turn a follow-up has put on the session's tape. *)
Definition recorded (s : FollowUp.stage) : option CapturedTurn.t :=
  match s with
  | FollowUp.Releasing (inl turn) | FollowUp.Done (inl turn) => Some (CapturedTurn.of_turn turn)
  | _ => None
  end.

(** A follow-up that never saw the session. *)
Definition outside (s : FollowUp.stage) : Prop :=
  s = FollowUp.Begin \/ exists id, s = FollowUp.Done (inr (LiveError.Unknown id)).

Definition is_registered (s : Start.stage) : bool :=
  match s with Start.Parked | Start.Woken | Start.Shut => true | _ => false end.

(** The tape the start's job has taken. *)
Definition taken (s : Start.stage) : option (list CapturedTurn.t) :=
  match s with Start.Sealing turns | Start.Sealed turns _ => Some turns | _ => None end.

(** The start's job has shut the session down. *)
Definition was_shut (s : Start.stage) : bool :=
  match s with Start.Shut | Start.Deregistered | Start.Sealing _ | Start.Sealed _ _ => true | _ => false end.

Definition before_session (s : Start.stage) : bool :=
  match s with Start.FirstTurn | Start.FirstDone _ | Start.Registering _ | Start.Failed _ | Start.Refused _ => true
  | _ => false end.

(** No session yet, or none ever. *)
Record absent (w : Live.t) : Prop := {
  absent_start : before_session w.(Live.start) = true;
  absent_handle : w.(Live.handle) = None;
  absent_registered : w.(Live.registered) = false;
  absent_follow i s : w.(Live.follow_ups) !! i = Some s -> outside s;
  absent_closes : w.(Live.closes) = match w.(Live.start) with Start.Failed _ => 1 | _ => 0 end }.

Record present (h : LiveHandle.t) (w : Live.t) : Prop := {
  present_start : before_session w.(Live.start) = false;
  present_handle : w.(Live.handle) = Some h;
  present_registered : w.(Live.registered) = is_registered w.(Live.start);
  present_holder i s : w.(Live.follow_ups) !! i = Some s -> has_lock s = true -> h.(LiveHandle.holder) = Some i;
  present_held i : h.(LiveHandle.holder) = Some i ->
    exists s, w.(Live.follow_ups) !! i = Some s /\ has_lock s = true /\ h.(LiveHandle.session) <> None;
  present_closes : w.(Live.closes) = match h.(LiveHandle.session) with Some _ => 0 | None => 1 end;
  present_shut : was_shut w.(Live.start) = true -> h.(LiveHandle.session) = None;
  present_torn : h.(LiveHandle.session) = None ->
    was_shut w.(Live.start) = true \/ h.(LiveHandle.close_requested) = true \/
    exists i err, w.(Live.follow_ups) !! i = Some (FollowUp.Asking err);
  present_tape : exists first rest,
    default h.(LiveHandle.turns) (taken w.(Live.start)) = first :: rest /\
    rest ≡ₚ omap recorded w.(Live.follow_ups) }.

Definition live_inv (w : Live.t) : Prop := absent w \/ exists h, present h w.

Lemma omap_same (f : FollowUp.stage -> option CapturedTurn.t) (l : list FollowUp.stage) (i : nat) s s' :
  l !! i = Some s -> f s' = f s -> omap f (<[i := s']> l) = omap f l.
Proof.
  revert i. induction l as [|x l IH]; intros [|i] L E; [done|done| |]; simpl in *.
  - injection L as ->. by rewrite E.
  - specialize (IH i L E). destruct (f x); [f_equal|]; exact IH.
Qed.

Lemma omap_gains (f : FollowUp.stage -> option CapturedTurn.t) (l : list FollowUp.stage) (i : nat) s s' c :
  l !! i = Some s -> f s = None -> f s' = Some c -> omap f (<[i := s']> l) ≡ₚ c :: omap f l.
Proof.
  revert i. induction l as [|x l IH]; intros [|i] L N E; [done|done| |]; simpl in *.
  - injection L as ->. by rewrite E, N.
  - specialize (IH i L N E). destruct (f x); [|exact IH]. etransitivity; [apply perm_skip, IH | apply perm_swap].
Qed.

(** ** Moves of a follow-up *)

(** A follow-up moves without the lock and without the handle. *)
Lemma present_follow h w i s s' :
  present h w -> w.(Live.follow_ups) !! i = Some s -> has_lock s' = has_lock s -> recorded s' = recorded s ->
  (forall err, s <> FollowUp.Asking err) \/ h.(LiveHandle.close_requested) = true ->
  present h (Live.with_follow_up w i s').
Proof.
  intros P L K R NA. destruct P. split; simpl; try done.
  - intros j s0 [(<- & <- & _)|[_ L0]]%list_lookup_insert_Some H; [|by eapply present_holder0].
    eapply present_holder0; [exact L|congruence].
  - intros j Hj. destruct (present_held0 j Hj) as (s0 & L0 & K0 & S0).
    destruct (decide (i = j)) as [<-|N].
    + exists s'. split_and!; [apply list_lookup_insert_eq; by eapply lookup_lt_Some| |done]. congruence.
    + exists s0. split_and!; [by rewrite list_lookup_insert_ne|done|done].
  - intros N. destruct (present_torn0 N) as [?|[?|(j & err & LA)]]; [by left|by right; left|].
    destruct NA as [NA|?]; [|by right; left]. do 2 right. exists j, err. rewrite list_lookup_insert_ne; [done|].
    intros <-. apply (NA err). congruence.
  - destruct present_tape0 as (first & rest & E & Q). exists first, rest. split; [done|].
    by rewrite (omap_same _ _ _ _ _ L R).
Qed.

(** With the lock, it may do to the handle what the lock is for. *)
Lemma present_locked h w i s h' s' closes :
  present h w -> w.(Live.follow_ups) !! i = Some s ->
  h.(LiveHandle.holder) = None \/ h.(LiveHandle.holder) = Some i ->
  h'.(LiveHandle.holder) = (if has_lock s' then Some i else None) ->
  (has_lock s' = true -> h'.(LiveHandle.session) <> None) ->
  (h.(LiveHandle.session) = None -> h'.(LiveHandle.session) = None) ->
  (h'.(LiveHandle.session) = None -> exists err, s' = FollowUp.Asking err) ->
  closes = match h'.(LiveHandle.session) with Some _ => 0 | None => 1 end ->
  (exists first rest, default h'.(LiveHandle.turns) (taken w.(Live.start)) = first :: rest /\
     rest ≡ₚ omap recorded (<[i := s']> w.(Live.follow_ups))) ->
  present h' (Live.Mk w.(Live.start) (<[i := s']> w.(Live.follow_ups)) w.(Live.canceller) w.(Live.registered) (Some h') closes).
Proof.
  intros P L H0 H1 S1 S2 S3 C T. destruct P.
  assert (ONLY : forall j s0, w.(Live.follow_ups) !! j = Some s0 -> has_lock s0 = true -> j = i).
  { intros j s0 L0 K0. specialize (present_holder0 _ _ L0 K0). destruct H0; congruence. }
  split; simpl; try done.
  - intros j s0 [(<- & <- & _)|[N L0]]%list_lookup_insert_Some K; [by rewrite H1, K|].
    destruct N. symmetry. by eapply ONLY.
  - intros j Hj. rewrite H1 in Hj. destruct (has_lock s') eqn:K; [|done]. injection Hj as <-.
    exists s'. split_and!; [apply list_lookup_insert_eq; by eapply lookup_lt_Some|done|by apply S1].
  - intros W. by apply S2, present_shut0.
  - intros N. do 2 right. destruct (S3 N) as [err ->]. exists i, err. apply list_lookup_insert_eq. by eapply lookup_lt_Some.
Qed.

Lemma present_flags h w c :
  present h w ->
  let h' := LiveHandle.Mk h.(LiveHandle.agent_kind) h.(LiveHandle.session) h.(LiveHandle.holder) true c h.(LiveHandle.turns) in
  present h' (Live.with_handle w h').
Proof. intros P h'. destruct P. split; try done. intros _. by right; left. Qed.

Lemma absent_follow_up w i s s' :
  absent w -> w.(Live.follow_ups) !! i = Some s -> outside s' -> absent (Live.with_follow_up w i s').
Proof.
  intros A L O. destruct A. split; simpl; try done.
  intros j s0 [(<- & <- & _)|[_ L0]]%list_lookup_insert_Some; [done|by eapply absent_follow0].
Qed.

Lemma follow_inv w i s w' :
  live_inv w -> w.(Live.follow_ups) !! i = Some s -> Live.follow_step w i s w' -> live_inv w'.
Proof.
  intros [A|[h P]] L S.
  { left. pose proof (absent_follow _ A _ _ L) as O. destruct A.
    destruct S; try (by destruct O as [?|[? ?]]); try congruence. by apply (absent_follow_up w i _ _ (ltac:(by split)) L); right; eexists. }
  right. assert (HH := present_handle _ _ P). assert (HOLD := present_holder _ _ P i s L). assert (HELD := present_held _ _ P).
  assert (C := present_closes _ _ P). destruct (present_tape _ _ P) as (first & rest & E & Q).
  destruct S; try (assert (h0 = h) as -> by congruence);
    try (by exists h; apply (present_follow h w i _ _ P L); try done; left).
  - (* named *) exists h. apply (present_follow h w i _ _ P L); [by destruct (LiveHandle.session h)..|by left].
  - (* lock *) exists (LiveHandle.with_holder h (Some i)).
    apply (present_locked h w i _ (LiveHandle.with_holder h (Some i)) FollowUp.Running _ P L);
      [by left|done|simpl; congruence|done|simpl; congruence|exact C|].
    exists first, rest. split; [done|]. by rewrite (omap_same _ _ _ _ _ L).
  - (* record *)
    assert (SESSION : h.(LiveHandle.session) <> None) by (by destruct (HELD i (HOLD eq_refl)) as (? & _ & _ & ?)).
    exists (LiveHandle.record_turn h turn).
    apply (present_locked h w i _ (LiveHandle.record_turn h turn) (FollowUp.Releasing (inl turn)) _ P L);
      [right; by apply HOLD|by apply HOLD|done|done|done|exact C|].
    assert (NT : taken w.(Live.start) = None).
    { destruct (taken w.(Live.start)) eqn:T; [|done]. destruct SESSION. apply (present_shut _ _ P).
      by destruct w.(Live.start). }
    rewrite NT in E |- *. change (h.(LiveHandle.turns) = first :: rest) in E.
    change (exists first rest, h.(LiveHandle.turns) ++ [CapturedTurn.of_turn turn] = first :: rest /\
              rest ≡ₚ omap recorded (<[i := FollowUp.Releasing (inl turn)]> w.(Live.follow_ups))).
    exists first, (rest ++ [CapturedTurn.of_turn turn]). rewrite E. split; [done|].
    rewrite (omap_gains recorded _ _ _ (FollowUp.Releasing (inl turn)) (CapturedTurn.of_turn turn) L eq_refl eq_refl), Q. by rewrite Permutation_app_comm.
  - (* tear *)
    exists (LiveHandle.take_driver (LiveHandle.with_holder h None)).
    apply (present_locked h w i _ (LiveHandle.take_driver (LiveHandle.with_holder h None)) (FollowUp.Asking err) _ P L);
      [right; by apply HOLD|done|done|done|by eexists| |].
    + simpl. assert (SESSION : h.(LiveHandle.session) <> None) by (by destruct (HELD i (HOLD eq_refl)) as (? & _ & _ & ?)).
      rewrite C. by destruct h.(LiveHandle.session).
    + exists first, rest. split; [done|]. by rewrite (omap_same _ _ _ _ _ L).
  - (* ask *) exists (LiveHandle.request_close h).
    apply (present_follow (LiveHandle.request_close h) (Live.with_handle w (LiveHandle.request_close h)) i (FollowUp.Asking err));
      [by apply present_flags|done|done|done|by right].
  - (* release *) exists (LiveHandle.with_holder h None).
    assert (SESSION : h.(LiveHandle.session) <> None) by (by destruct (HELD i (HOLD eq_refl)) as (? & _ & _ & ?)).
    apply (present_locked h w i _ (LiveHandle.with_holder h None) (FollowUp.Done answer) _ P L);
      [right; by apply HOLD|done|done|done|done|exact C|].
    exists first, rest. split; [done|]. rewrite (omap_same _ _ _ _ _ L); [done|]. by destruct answer.
Qed.

(** ** Moves of the start's job *)

Lemma no_turns_outside l : (forall (i : nat) s, l !! i = Some s -> outside s) -> omap recorded l = [].
Proof.
  induction l as [|s l IH]; intros O; [done|]. simpl. destruct (O 0 s eq_refl) as [->|[id ->]]; simpl;
    apply IH; intros i s' L; by apply (O (S i)).
Qed.

Lemma start_inv w w' : live_inv w -> Live.start_step w w.(Live.start) w' -> live_inv w'.
Proof.
  intros I S. remember w.(Live.start) as start eqn:ES.
  assert (AB : before_session start = true -> absent w).
  { intros B. destruct I as [A|[h P]]; [done|]. pose proof (present_start _ _ P). congruence. }
  assert (PR : before_session start = false -> exists h, present h w).
  { intros B. destruct I as [A|P]; [|done]. pose proof (absent_start _ A). congruence. }
  destruct S;
    try (specialize (AB eq_refl); left; destruct AB; rewrite <- ES in *; split; simpl; try done; congruence).
  - (* register *)
    specialize (AB eq_refl). destruct AB. right. set (h := LiveHandle.record_turn (LiveHandle.new driver) turn). exists h.
    split; try done.
    + simpl. intros i s L K. by destruct (absent_follow0 i s L) as [->|[id ->]].
    + simpl. by rewrite absent_closes0, <- ES.
    + exists (CapturedTurn.of_turn turn), []. split; [done|]. simpl. by rewrite (no_turns_outside _ absent_follow0).
  - destruct (PR eq_refl) as [h0 P]. right. exists h0. destruct P. rewrite <- ES in *. split; try done; simpl in *; intros N; (by left) || (destruct (present_torn0 N) as [?|?]; [done|by right]).
  - destruct (PR eq_refl) as [h0 P]. assert (h0 = h) as -> by (pose proof (present_handle _ _ P); congruence).
    right. exists (LiveHandle.take_driver h). destruct P. rewrite <- ES in *. split; simpl; try done.
    + intros i Hi. congruence.
    + rewrite present_closes0. by destruct h.(LiveHandle.session).
    + by left.
  - destruct (PR eq_refl) as [h0 P]. right. exists h0. destruct P. rewrite <- ES in *. split; try done; simpl in *; intros N; (by left) || (destruct (present_torn0 N) as [?|?]; [done|by right]).
  - destruct (PR eq_refl) as [h0 P]. assert (h0 = h) as -> by (pose proof (present_handle _ _ P); congruence).
    right. exists (LiveHandle.take_turns h).1. destruct P. rewrite <- ES in *. split; try done; simpl in *; intros N; (by left) || (destruct (present_torn0 N) as [?|?]; [done|by right]).
  - destruct (PR eq_refl) as [h0 P]. right. exists h0. destruct P. rewrite <- ES in *. split; try done; simpl in *; intros N; (by left) || (destruct (present_torn0 N) as [?|?]; [done|by right]).
Qed.

Lemma request_inv w h : live_inv w -> w.(Live.handle) = Some h -> live_inv (Live.with_handle w (LiveHandle.request_close h)).
Proof.
  intros [A|[h0 P]] H; [by rewrite (absent_handle _ A) in H|]. right.
  assert (h0 = h) as -> by (pose proof (present_handle _ _ P); congruence).
  exists (LiveHandle.request_close h). by apply (present_flags h w true).
Qed.

Lemma canceller_inv w s : live_inv w -> live_inv (Live.with_canceller w s).
Proof. intros [A|[h P]]; [left; destruct A; by split|]. right. exists h. destruct P. by split. Qed.

Lemma live_reachable n w : rtc Live.move (Live.init n) w -> live_inv w.
Proof.
  revert w. apply (rtc_ind_r _ _).
  { left. split; try done. intros i s L. assert (s = FollowUp.Begin) as ->; [|by left].
    simpl in L. apply list_elem_of_lookup_2, list_elem_of_In, repeat_spec in L. done. }
  intros w w' _ M I. destruct M as [S|R].
  - destruct S as [w' S|i s w' L S|T].
    + by eapply start_inv.
    + by eapply follow_inv.
    + unfold Live.cancel_close. apply canceller_inv. destruct w.(Live.registered); [|done].
      destruct w.(Live.handle) as [h|] eqn:H; [by apply request_inv|done].
  - destruct R as [T|h H]; [by apply canceller_inv|by apply request_inv].
Qed.

(** C13: a delegated session is sealed whole. However its job, any number of follow-ups and those who close or
    cancel it interleave, two follow-ups never have its lock at once, the child is closed at most once, and once
    the job has sealed the session the child is closed, the session is not to be found, and the tape is the first
    turn followed by exactly the turns that follow-ups recorded, for good: none is lost and none comes later. A
    start that failed has closed its child, and nothing is closed when the child was never launched. *)
Theorem live_session_sealed (n : nat) (w : Live.t) :
  rtc Live.move (Live.init n) w ->
  w.(Live.closes) <= 1 /\
  (forall i j s s', w.(Live.follow_ups) !! i = Some s -> w.(Live.follow_ups) !! j = Some s' ->
     has_lock s = true -> has_lock s' = true -> i = j) /\
  match w.(Live.start) with
  | Start.Sealed turns _ =>
      w.(Live.closes) = 1 /\ w.(Live.registered) = false /\
      (exists first rest, turns = first :: rest /\ rest ≡ₚ omap recorded w.(Live.follow_ups)) /\
      forall i s, w.(Live.follow_ups) !! i = Some s -> has_lock s = false
  | Start.Failed _ => w.(Live.closes) = 1 /\ w.(Live.registered) = false /\ omap recorded w.(Live.follow_ups) = []
  | Start.Refused _ => w.(Live.closes) = 0 /\ w.(Live.registered) = false /\ omap recorded w.(Live.follow_ups) = []
  | _ => True
  end.
Proof.
  intros [A|[h P]]%live_reachable.
  - destruct A. assert (NL : forall i s, w.(Live.follow_ups) !! i = Some s -> has_lock s = false).
    { intros i s L. by destruct (absent_follow0 i s L) as [->|[id ->]]. }
    split; [rewrite absent_closes0; destruct w.(Live.start); lia|]. split.
    + intros i j s s' L _ K _. by rewrite (NL _ _ L) in K.
    + destruct w.(Live.start); try done; (split_and!; [done|done|by apply no_turns_outside]).
  - assert (NL : h.(LiveHandle.session) = None -> forall i s, w.(Live.follow_ups) !! i = Some s -> has_lock s = false).
    { intros N i s L. destruct (has_lock s) eqn:K; [|done].
      destruct (present_held _ _ P i (present_holder _ _ P i s L K)) as (_ & _ & _ & []). done. }
    destruct P. split; [rewrite present_closes0; destruct h.(LiveHandle.session); lia|]. split.
    + intros i j s s' L L' K K'. specialize (present_holder0 _ _ L K) as H1. specialize (present_holder0 _ _ L' K'). congruence.
    + destruct w.(Live.start); try done. rewrite present_closes0, present_registered0, present_shut0 by done.
      split_and!; [done|done|exact present_tape0|]. apply NL, present_shut0. done.
Qed.

(** ** Ends *)

Definition start_rank (s : Start.stage) : nat :=
  match s with
  | Start.FirstTurn => 8 | Start.FirstDone _ => 7 | Start.Registering _ => 6 | Start.Parked => 5 | Start.Woken => 4
  | Start.Shut => 3 | Start.Deregistered => 2 | Start.Sealing _ => 1 | Start.Sealed _ _ | Start.Failed _ | Start.Refused _ => 0
  end.
Definition follow_rank (s : FollowUp.stage) : nat :=
  match s with
  | FollowUp.Begin => 6 | FollowUp.Found => 5 | FollowUp.Named => 4 | FollowUp.Running => 3
  | FollowUp.Recording _ | FollowUp.Tearing _ => 2 | FollowUp.Releasing _ | FollowUp.Asking _ => 1
  | FollowUp.Done _ => 0
  end.
Definition work_left (w : Live.t) : nat :=
  start_rank w.(Live.start) + list_sum (map follow_rank w.(Live.follow_ups)) +
  match w.(Live.canceller) with Canceller.Tripped => 1 | _ => 0 end.

Lemma list_sum_insert (f : FollowUp.stage -> nat) (l : list FollowUp.stage) (i : nat) s s' :
  l !! i = Some s -> f s' < f s -> list_sum (map f (<[i := s']> l)) < list_sum (map f l).
Proof.
  revert i. induction l as [|x l IH]; intros [|i] L F; [done|done| |]; simpl in *.
  - injection L as ->. lia.
  - specialize (IH i L F). lia.
Qed.

Lemma follow_less w i s w' :
  w.(Live.follow_ups) !! i = Some s -> Live.follow_step w i s w' -> work_left w' < work_left w.
Proof.
  intros L S. unfold work_left. destruct S; simpl;
    try match goal with |- context [match ?x with Some _ => FollowUp.Named | None => _ end] => destruct x end;
    match goal with |- context [<[i := ?s']> _] => pose proof (list_sum_insert follow_rank _ _ _ s' L ltac:(simpl; lia)) end;
    lia.
Qed.

Lemma step_less w w' : Live.step w w' -> work_left w' < work_left w.
Proof.
  intros [w'' S|i s w'' L S|T].
  - unfold work_left. destruct w as [st fs ca re ha cl]. simpl in *. destruct S; simpl; lia.
  - by eapply follow_less.
  - unfold work_left, Live.cancel_close. rewrite T. destruct w.(Live.registered), w.(Live.handle); simpl; lia.
Qed.

Definition all_done (w : Live.t) : Prop :=
  forall i s, w.(Live.follow_ups) !! i = Some s -> exists answer, s = FollowUp.Done answer.

Definition ended (s : Start.stage) : bool := match s with Start.Sealed _ _ | Start.Failed _ | Start.Refused _ => true | _ => false end.

Definition stuck (w : Live.t) : Prop := forall w', ~ Live.step w w'.

Lemma stuck_follow w : live_inv w -> stuck w -> all_done w.
Proof.
  intros I ST i s L. assert (STEP : forall w', ~ Live.follow_step w i s w') by (intros w' S; eapply ST, Live.step_follow; eassumption).
  assert (LOCKED : has_lock s = true -> False).
  { intros K. destruct I as [A|[h P]]; [by destruct (absent_follow _ A _ _ L) as [->|[? ->]]|].
    assert (H := present_handle _ _ P). destruct s; try done; eapply STEP.
    - apply (Live.follow_cancelled w i).
    - by eapply Live.follow_record.
    - by eapply Live.follow_tear.
    - by eapply Live.follow_release. }
  destruct I as [A|[h P]].
  { destruct (absent_follow _ A _ _ L) as [->|[id ->]]; [|by eexists].
    exfalso. eapply STEP, (Live.follow_unknown w i EmptyString), A. }
  assert (H := present_handle _ _ P).
  assert (FREE : h.(LiveHandle.holder) = None).
  { destruct h.(LiveHandle.holder) as [j|] eqn:HJ; [|done].
    destruct (present_held _ _ P j HJ) as (s0 & L0 & K0 & _). exfalso.
    assert (ST0 : forall w', ~ Live.follow_step w j s0 w') by (intros w' S; eapply ST, Live.step_follow; eassumption).
    destruct s0; try done; eapply ST0;
      [apply (Live.follow_cancelled w j) | by eapply Live.follow_record | by eapply Live.follow_tear | by eapply Live.follow_release]. }
  destruct s; try (by destruct LOCKED); [| | | |by eexists]; exfalso.
  - destruct w.(Live.registered) eqn:R; eapply STEP; [by apply Live.follow_found | by apply (Live.follow_unknown w i EmptyString)].
  - eapply STEP. by eapply Live.follow_named.
  - destruct h.(LiveHandle.session) eqn:SE; eapply STEP; [by eapply Live.follow_lock | by eapply Live.follow_late].
  - eapply STEP. by eapply Live.follow_ask.
Qed.

(** C16: a delegated session comes to an end. Its threads run for a bounded number of steps, each bringing them
    nearer to it; and when none of them can move, every follow-up has returned, and the start's job has too, its
    session sealed or never opened, or it is parked with a session that nobody has asked to close. *)
Theorem live_session_ends (n : nat) (w : Live.t) :
  rtc Live.move (Live.init n) w ->
  (forall w', Live.step w w' -> work_left w' < work_left w) /\
  (stuck w ->
     all_done w /\
     (ended w.(Live.start) = true \/
      w.(Live.start) = Start.Parked /\ w.(Live.closes) = 0 /\
      exists h, w.(Live.handle) = Some h /\ h.(LiveHandle.close_requested) = false)).
Proof.
  intros R%live_reachable. split; [apply step_less|]. intros ST. pose proof (stuck_follow w R ST) as D. split; [exact D|].
  assert (STEP : forall w', ~ Live.start_step w w.(Live.start) w') by (intros w' S; by eapply ST, Live.step_start).
  destruct R as [A|[h P]].
  - pose proof (absent_start _ A) as B. left. destruct w.(Live.start); try done; exfalso; eapply STEP.
    + apply (Live.start_first_failed w).
    + destruct (Live.cancelled w) eqn:C; [by apply (Live.start_first_cancelled w)|]. 
      exfalso. eapply STEP. by apply (Live.start_checked w).
    + apply (Live.start_register w turn (LiveDriver.Mk DelegateAgent.Claude None)).
  - assert (H := present_handle _ _ P). pose proof (present_start _ _ P) as B.
    assert (FREE : h.(LiveHandle.holder) = None).
    { destruct h.(LiveHandle.holder) as [j|] eqn:HJ; [|done].
      destruct (present_held _ _ P j HJ) as (s0 & L0 & K0 & _). by destruct (D _ _ L0) as [? ->]. }
    destruct w.(Live.start) eqn:S; try done; try (left; done); try (exfalso; eapply STEP; by econstructor).
    right. split; [done|]. destruct h.(LiveHandle.close_requested) eqn:CR.
    { exfalso. eapply STEP. by eapply Live.start_wake. }
    split; [|by exists h]. rewrite (present_closes _ _ P).
    destruct h.(LiveHandle.session) eqn:SE; [done|]. destruct (present_torn _ _ P SE) as [T|[T|(j & err & LA)]];
      [by rewrite S in T | congruence | by destruct (D _ _ LA)].
Qed.

(** A job cancelled between its look at the token and the registration is parked all the same, with its child alive:
    the close was asked of a registry that did not have the session, and a second cancel does nothing. *)
Definition some_turn : DelegateTurn.t := DelegateTurn.Mk true "done" None None [].
Definition some_driver : LiveDriver.t := LiveDriver.Mk DelegateAgent.Claude None.
Definition lost : Live.t :=
  Live.Mk Start.Parked [] Canceller.Finished true
    (Some (LiveHandle.record_turn (LiveHandle.new some_driver) some_turn)) 0.

Lemma cancel_lost :
  rtc Live.move (Live.init 0) lost /\ stuck lost /\ Live.cancelled lost = true /\ lost.(Live.closes) = 0 /\
  forall w, Live.request lost w -> w <> lost -> exists h, w.(Live.handle) = Some h /\ h.(LiveHandle.close_requested) = true.
Proof.
  split_and!.
  - eapply rtc_l; [left; apply Live.step_start, (Live.start_first _ some_turn)|].
    eapply rtc_l; [left; apply Live.step_start; by apply Live.start_checked|].
    eapply rtc_l; [right; by apply Live.request_cancel|].
    eapply rtc_l; [left; by apply Live.step_canceller|].
    eapply rtc_l; [left; apply Live.step_start, (Live.start_register _ _ some_driver)|].
    apply rtc_refl.
  - intros w' S. inversion S as [w1 S1|i s w1 L S1|T]; subst; [inversion S1; simplify_eq/= |by destruct i|done].
  - done.
  - done.
  - intros w R N. destruct R as [T|h H]; [done|]. simpl in H. injection H as <-. by eexists.
Qed.

(** A follow-up whose message cannot be written leaves the dead child's session open, and its job parked. *)
Lemma dead_child_parked message : exists w,
  rtc Live.move (Live.init 1) w /\ stuck w /\ w.(Live.start) = Start.Parked /\ w.(Live.closes) = 0 /\
  w.(Live.follow_ups) = [FollowUp.Done (inr (LiveError.Session (SessionError.display (SessionError.Io message))))].
Proof.
  exists (Live.Mk Start.Parked
            [FollowUp.Done (inr (LiveError.Session (SessionError.display (SessionError.Io message))))] Canceller.Idle true
            (Some (LiveHandle.record_turn (LiveHandle.new some_driver) some_turn)) 0).
  split; [|split; [|by split_and!]].
  - eapply rtc_l; [left; apply Live.step_start, (Live.start_first _ some_turn)|].
    eapply rtc_l; [left; apply Live.step_start; by apply Live.start_checked|].
    eapply rtc_l; [left; apply Live.step_start, (Live.start_register _ _ some_driver)|].
    eapply rtc_l; [left; eapply (Live.step_follow _ 0); [done|by apply Live.follow_found]|].
    eapply rtc_l; [left; eapply (Live.step_follow _ 0); [done|by eapply Live.follow_named]|].
    eapply rtc_l; [left; eapply (Live.step_follow _ 0); [done|by eapply Live.follow_lock]|].
    eapply rtc_l; [left; eapply (Live.step_follow _ 0); [done|apply (Live.follow_io _ _ message)]|].
    eapply rtc_l; [left; eapply (Live.step_follow _ 0); [done|by eapply Live.follow_release]|].
    apply rtc_refl.
  - intros w' S. inversion S as [w1 S1|i s w1 L S1|T]; subst; [inversion S1; simplify_eq/= | |done].
    destruct i; [|by destruct i]. injection L as <-. inversion S1.
Qed.

(** A session with one follow-up, closed after it. *)
Definition follow_turn : DelegateTurn.t := DelegateTurn.Mk true "more" None None ["line"].
Definition sealed_world : Live.t :=
  Live.Mk (Start.Sealed [CapturedTurn.of_turn some_turn; CapturedTurn.of_turn follow_turn] true)
    [FollowUp.Done (inl follow_turn)] Canceller.Idle false
    (Some (LiveHandle.Mk DelegateAgent.Claude None None true true [])) 1.

Lemma sealed_reached : rtc Live.move (Live.init 1) sealed_world.
Proof.
  eapply rtc_l; [left; apply Live.step_start, (Live.start_first _ some_turn)|].
  eapply rtc_l; [left; apply Live.step_start; by apply Live.start_checked|].
  eapply rtc_l; [left; apply Live.step_start, (Live.start_register _ _ some_driver)|].
  eapply rtc_l; [left; eapply (Live.step_follow _ 0); [done|by apply Live.follow_found]|].
  eapply rtc_l; [left; eapply (Live.step_follow _ 0); [done|by eapply Live.follow_named]|].
  eapply rtc_l; [left; eapply (Live.step_follow _ 0); [done|by eapply Live.follow_lock]|].
  eapply rtc_l; [left; eapply (Live.step_follow _ 0); [done|apply (Live.follow_turn _ _ follow_turn)]|].
  eapply rtc_l; [right; by eapply Live.request_session_close|].
  eapply rtc_l; [left; apply Live.step_start; by eapply Live.start_wake|].
  eapply rtc_l; [left; eapply (Live.step_follow _ 0); [done|by eapply Live.follow_record]|].
  eapply rtc_l; [left; eapply (Live.step_follow _ 0); [done|by eapply Live.follow_release]|].
  eapply rtc_l; [left; apply Live.step_start; by eapply Live.start_shutdown|].
  eapply rtc_l; [left; apply Live.step_start; by eapply Live.start_deregister|].
  eapply rtc_l; [left; apply Live.step_start; by eapply Live.start_drain|].
  eapply rtc_l; [left; apply Live.step_start; by eapply Live.start_seal|].
  apply rtc_refl.
Qed.

Lemma live_session_sealed_witness :
  sealed_world.(Live.closes) <= 1 /\ exists first rest,
    [CapturedTurn.of_turn some_turn; CapturedTurn.of_turn follow_turn] = first :: rest /\
    rest ≡ₚ omap recorded sealed_world.(Live.follow_ups).
Proof.
  destruct (live_session_sealed 1 sealed_world sealed_reached) as (C & _ & _ & _ & T & _). exact (conj C T).
Defined.

Lemma live_session_ends_witness : all_done lost /\ lost.(Live.start) = Start.Parked.
Proof.
  destruct cancel_lost as (R & S & _). destruct (live_session_ends 0 lost R) as [_ E].
  exact (conj (proj1 (E S)) eq_refl).
Defined.

(** * One turn *)

Section turn.
Context `{SerdeJson, SerdeText} (as_f64 : json -> option f64) (interrupt_id : string).

Definition line_of (round : Round.t) : option string :=
  match round.(Round.got) with Round.Line raw _ _ => Some raw | _ => None end.

(** The lines a turn took off the child's output. *)
Definition lines_of (rounds : list Round.t) : list string := omap line_of rounds.

Definition value_of (raw : string) : option json := from_str (reescape_control_chars raw).

(** The text a line streams. *)
Definition text_of (raw : string) : option string :=
  value ← value_of raw;
  if bool_decide (type_of value = Some "assistant") then assistant_text value else None.

Definition is_result (raw : string) (value : json) : Prop := value_of raw = Some value /\ type_of value = Some "result".

Lemma handle_control_stream s value answer c s' o :
  handle_control_request interrupt_id s value answer c = (s', o) ->
  s'.(DelegateSession.progress) = s.(DelegateSession.progress) /\
  (forall turn, o <> LineOutcome.Done turn).
Proof.
  unfold handle_control_request. case_bool_decide; [|by intros [= <- <-]].
  destruct s.(DelegateSession.proxy) as [p|]; [|by intros [= <- <-]].
  destruct (resolve_ask p value answer c) as [[p' r] i]. destruct i; by intros [= <- <-].
Qed.

Lemma ingest_spec s acc raw answer c s' acc' o :
  ingest_line as_f64 interrupt_id s acc raw answer c = (s', acc', o) ->
  acc'.(TurnAccumulator.raw_lines) = acc.(TurnAccumulator.raw_lines) ++ [raw] /\
  acc'.(TurnAccumulator.last_assistant) = default acc.(TurnAccumulator.last_assistant) (text_of raw) /\
  s'.(DelegateSession.progress) = s.(DelegateSession.progress) ++ option_list (text_of raw) /\
  (forall turn, o = LineOutcome.Done turn ->
     exists value, is_result raw value /\ text_of raw = None /\ turn = finish_turn as_f64 acc' value) /\
  ((exists value, is_result raw value) -> exists turn, o = LineOutcome.Done turn).
Proof.
  unfold ingest_line, text_of, is_result. fold (value_of raw). destruct (value_of raw) as [value|] eqn:V; simpl.
  2: { intros [= <- <- <-]. rewrite app_nil_r. split_and!; [done..|]. by intros (? & ? & _). }
  unfold ingest_value. destruct (type_of value) as [kind|] eqn:T.
  2: { intros [= <- <- <-]. rewrite app_nil_r. split_and!; [done..|]. intros (v & [= <-] & ?). congruence. }
  destruct (String.eqb_spec kind "system") as [->|]; [intros [= <- <- <-]; rewrite app_nil_r; split_and!; [done|done|by case_bool_decide|done|]; intros (v & [= <-] & ?); congruence|].
  destruct (String.eqb_spec kind "assistant") as [->|].
  { simpl. destruct (assistant_text value) as [text|]; intros [= <- <- <-]; simpl; rewrite ?app_nil_r;
      (split_and!; [done|done|done|done|]; intros (v & [= <-] & ?); congruence). }
  rewrite (bool_decide_eq_false_2 (Some kind = Some "assistant")) by congruence.
  destruct (String.eqb_spec kind "control_request") as [->|].
  { destruct (handle_control_request interrupt_id s value answer c) as [s1 o1] eqn:HC. intros [= <- <- <-].
    apply handle_control_stream in HC as [P D]. simpl. rewrite app_nil_r.
    split_and!; [done|done|done|by intros turn ?%D|]. intros (v & [= <-] & ?). congruence. }
  destruct (String.eqb_spec kind "result") as [->|]; intros [= <- <- <-]; simpl; rewrite app_nil_r.
  - split_and!; [done|done|done| |by eexists]. intros turn [= <-]. by exists value.
  - split_and!; [done|done|done|done|]. intros (v & [= <-] & ?). congruence.
Qed.

Definition streamed (rounds : list Round.t) : list string := omap text_of (lines_of rounds).

Lemma lines_line c raw answer c' used :
  lines_of (Round.Mk c (Round.Line raw answer c') :: used) = raw :: lines_of used.
Proof. done. Qed.

Lemma streamed_line c raw answer c' used :
  streamed (Round.Mk c (Round.Line raw answer c') :: used) = option_list (text_of raw) ++ streamed used.
Proof. unfold streamed. rewrite lines_line. simpl. by destruct (text_of raw). Qed.

(** How a turn ends, from what it read. *)
Lemma read_spec deadline s acc rounds s' result left_ :
  read_until_result as_f64 interrupt_id deadline s acc rounds = (s', Some (result, left_)) ->
  exists used, rounds = used ++ left_ /\
    s'.(DelegateSession.progress) = s.(DelegateSession.progress) ++ streamed used /\
    match result with
    | inl turn => exists before raw value,
        lines_of used = before ++ [raw] /\ is_result raw value /\
        Forall (fun l => forall v, ~ is_result l v) before /\
        turn.(DelegateTurn.raw_lines) = acc.(TurnAccumulator.raw_lines) ++ lines_of used /\
        turn.(DelegateTurn.ok) = result_ok value /\
        turn.(DelegateTurn.result) =
          default (default acc.(TurnAccumulator.last_assistant) (last (streamed used))) (get_str "result" value)
    | inr _ => Forall (fun l => forall v, ~ is_result l v) (lines_of used)
    end.
Proof.
  revert s acc. induction rounds as [|round rounds IH]; intros s acc; [done|]. cbn [read_until_result].
  destruct round.(Round.cancelled).
  { intros [= <- <- <-]. exists []. split; [done|]. split; [by rewrite app_nil_r|constructor]. }
  destruct round as [c got]. simpl. destruct got as [raw answer c'|now|].
  - destruct (ingest_line as_f64 interrupt_id s acc raw answer c') as [[s1 acc1] o] eqn:I.
    apply ingest_spec in I as (R & A & P & D & N).
    assert (NR : o <> LineOutcome.Continue /\ (forall turn, o <> LineOutcome.Done turn) \/ o = LineOutcome.Continue ->
                 forall v, ~ is_result raw v).
    { intros C v V. destruct N as [turn ->]; [by exists v|]. destruct C as [[_ C]|C]; [by apply (C turn)|done]. }
    destruct o as [|turn|].
    + intros E. apply IH in E as (used & -> & P' & E). exists (Round.Mk c (Round.Line raw answer c') :: used).
      split; [done|]. rewrite lines_line, streamed_line. split; [by rewrite P', P, <- app_assoc|].
      specialize (NR (or_intror eq_refl)). destruct result as [turn|err]; [|by constructor].
      destruct E as (before & raw' & value & L & V & F & T1 & T2 & T3). exists (raw :: before), raw', value.
      rewrite L. split_and!; [done|done|by constructor|by rewrite T1, R, <- app_assoc, L|done|].
      rewrite T3, A. f_equal. rewrite last_app. destruct (last (streamed used)); [done|]. by destruct (text_of raw).
    + intros [= <- <- <-]. destruct (D _ eq_refl) as (value & V & T & ->).
      exists [Round.Mk c (Round.Line raw answer c')]. split; [done|]. rewrite lines_line, streamed_line, T in *.
      split; [done|]. exists [], raw, value. split_and!; [done|done|constructor|done|done|]. simpl. by rewrite A.
    + intros [= <- <- <-]. exists [Round.Mk c (Round.Line raw answer c')]. split; [done|]. rewrite lines_line, streamed_line.
      split; [by rewrite P, app_nil_r|]. constructor; [|constructor]. apply NR. by left.
  - destruct (deadline <=? now)%N.
    + intros [= <- <- <-]. exists [Round.Mk c (Round.Timeout now)]. split; [done|]. split; [by rewrite app_nil_r|constructor].
    + intros E. apply IH in E as (used & -> & P & E). by exists (Round.Mk c (Round.Timeout now) :: used).
  - intros [= <- <- <-]. exists [Round.Mk c Round.Disconnected]. split; [done|]. split; [by rewrite app_nil_r|constructor].
Qed.

(** * What is sealed *)

(** Turns of one session, one after another on what its child writes. *)
Inductive session_turns : DelegateSession.t -> list Round.t -> list DelegateTurn.t -> list Round.t -> Prop :=
  | turns_end s rounds : session_turns s rounds [] rounds
  | turns_more now s message rounds s' turn left_ turns rest :
      run_turn as_f64 interrupt_id now (inl tt) s message rounds = (s', Some (inl turn, left_)) ->
      session_turns s' left_ turns rest -> session_turns s rounds (turn :: turns) rest.

Definition output_of (e : EventKind.t) : option (u64 * string) :=
  match e with EventKind.Output turn text => Some (turn, text) | _ => None end.

Lemma turns_lines s rounds turns rest :
  session_turns s rounds turns rest ->
  exists used, rounds = used ++ rest /\ concat (map DelegateTurn.raw_lines turns) = lines_of used.
Proof.
  induction 1 as [s rounds|now s message rounds s' turn left_ turns rest R _ (used & -> & E)]; [by exists []|].
  apply read_spec in R as (used0 & -> & _ & before & raw & value & _ & _ & _ & T & _).
  exists (used0 ++ used). split; [by rewrite app_assoc|]. cbn [map concat]. rewrite T, E. unfold lines_of. by rewrite omap_app.
Qed.

Context `{Sha256}.

Lemma tools_no_output agent value turn : omap output_of (parse_tool_events agent value turn) = [].
Proof.
  destruct agent; simpl; [unfold parse_codex_tool_events | unfold parse_claude_tool_events].
  - destruct (_ || _); [|done]. by destruct (codex_item_tool _) as [[[tool title] ok]|].
  - destruct (_ ≫= _) as [blocks|]; [|done]. induction blocks as [|b blocks IH]; [done|]. simpl. rewrite omap_app, IH, app_nil_r.
    unfold claude_block_event. destruct (type_of b) as [kind|]; [|done]. by repeat destruct (_ && _).
Qed.

Lemma line_output agent turn line : omap output_of (line_events agent turn line) = [(turn, line)].
Proof.
  unfold line_events. cbn [omap list_omap output_of]. f_equal. destruct agent as [agent|]; [|done].
  destruct (from_str line) as [value|]; [apply tools_no_output|done].
Qed.

Lemma turn_outputs agent i captured :
  omap output_of (turn_events agent i captured) =
  map (pair (wrap 64 (N.of_nat i))) captured.(CapturedTurn.raw_lines).
Proof.
  unfold turn_events. cbn [omap list_omap output_of]. rewrite !omap_app.
  assert (omap output_of (match captured.(CapturedTurn.usage) with
            | Some usage => [delegate_usage_event (wrap 64 (N.of_nat i)) usage captured.(CapturedTurn.cost_usd)]
            | None => [] end) = []) as -> by (by destruct captured.(CapturedTurn.usage)).
  simpl. rewrite app_nil_r. induction captured.(CapturedTurn.raw_lines) as [|l ls IH]; [done|].
  cbn [flat_map map]. by rewrite omap_app, line_output, IH.
Qed.

Lemma events_outputs agent (turns : list CapturedTurn.t) : forall k,
  omap output_of (concat (imap (fun i => turn_events agent (k + i)) turns)) =
  concat (imap (fun i captured => map (pair (wrap 64 (N.of_nat (k + i)))) captured.(CapturedTurn.raw_lines)) turns).
Proof.
  induction turns as [|c turns IH]; intros k; [done|]. cbn [imap concat]. rewrite omap_app, turn_outputs. f_equal.
  assert (E : forall {B} (f : nat -> CapturedTurn.t -> B) l, imap (f ∘ S) l = imap (fun i => f (S i)) l) by done.
  specialize (IH (S k)). etransitivity; [|etransitivity; [exact IH|]]; f_equal; [f_equal|]; apply imap_ext; intros i x _;
    cbn; by rewrite Nat.add_succ_r.
Qed.

Lemma untagged (turns : list DelegateTurn.t) : forall (tag : nat -> u64),
  map snd (concat (imap (fun i turn => map (pair (tag i)) turn.(DelegateTurn.raw_lines)) turns)) =
  concat (map DelegateTurn.raw_lines turns).
Proof.
  induction turns as [|turn turns IH]; intros tag; [done|]. cbn [imap concat map]. rewrite map_app, map_map. f_equal.
  - cbn. apply map_id.
  - exact (IH (fun i => tag (S i))).
Qed.

(** C15: what is sealed of a session is what its child wrote. The turns of a session, run one after another, take the
    child's lines in order and each once, up to the line that ends the last; and the events the session is sealed
    to have exactly these lines as outputs, in that order and each under its turn's number. *)
Theorem session_tape s rounds turns rest agent task cwd inputs finished :
  session_turns s rounds turns rest ->
  let events := session_events agent task cwd inputs (map CapturedTurn.of_turn turns) finished in
  exists used, rounds = used ++ rest /\
    map snd (omap output_of events) = lines_of used /\
    omap output_of events =
      concat (imap (fun i turn => map (pair (wrap 64 (N.of_nat i))) turn.(DelegateTurn.raw_lines)) turns).
Proof.
  intros T events. destruct (turns_lines _ _ _ _ T) as (used & -> & E). exists used. split; [done|].
  assert (O : omap output_of events =
    concat (imap (fun i turn => map (pair (wrap 64 (N.of_nat i))) turn.(DelegateTurn.raw_lines)) turns)).
  { unfold events, session_events. cbn [omap list_omap output_of]. rewrite omap_app. cbn [omap list_omap output_of].
    rewrite app_nil_r. etransitivity; [apply (events_outputs _ _ 0)|]. by rewrite imap_fmap. }
  split; [|done]. rewrite O, <- E. apply untagged.
Qed.
End turn.

(** * Permissions *)

Section permissions.
Context `{SerdeJson, SerdeText} (as_f64 : json -> option f64) (interrupt_id : string).

(** A line that asks for a tool, with what the operator answers if asked, and the token from then on. *)
Definition request : Type := json * SessionApprovalDecision.t * bool.

Definition asks_tool (value : json) : bool :=
  bool_decide (type_of value = Some "control_request") &&
  bool_decide (get_str "subtype" (request_of value) = Some "can_use_tool").

Definition request_in (round : Round.t) : option request :=
  match round.(Round.got) with
  | Round.Line raw answer cancelled =>
      value ← value_of raw; if asks_tool value then Some (value, answer, cancelled) else None
  | _ => None
  end.
Definition requests (rounds : list Round.t) : list request := omap request_in rounds.

(** The answer that holds for good, if the operator's is one; an answer given to a cancelled turn is none. *)
Definition lasting (tool : string) (r : request) : option bool :=
  let '(value, answer, cancelled) := r in
  if String.eqb (tool_of value) tool && SessionApprovalDecision.remember answer && negb cancelled
  then Some (SessionApprovalDecision.allows answer) else None.

(** What is decided of a tool after the requests [seen]: what was known, else the first lasting answer. *)
Definition standing (known : gmap string bool) (seen : list request) (tool : string) : option bool :=
  or_else (known !! tool) (head (omap (lasting tool) seen)).

(** A request is decided by what stands, and if nothing does by what the operator answers. *)
Definition granted (known : gmap string bool) (seen : list request) (r : request) : bool :=
  default (SessionApprovalDecision.allows r.1.2) (standing known seen (tool_of r.1.1)).

Definition replied (known : gmap string bool) (seen : list request) (r : request) (line : json) : Prop :=
  let '(value, answer, cancelled) := r in
  if granted known seen r then line = allow_response (request_id_of value) (input_of value) (tool_use_id_of value)
  else exists message, line = deny_response (request_id_of value) message cancelled.

(** What is known after a request. *)
Definition known_after (known : gmap string bool) (r : request) : gmap string bool :=
  match known !! tool_of r.1.1, lasting (tool_of r.1.1) r with
  | None, Some allow => <[tool_of r.1.1 := allow]> known
  | _, _ => known
  end.

Lemma standing_after known r seen tool : standing (known_after known r) seen tool = standing known (r :: seen) tool.
Proof.
  unfold standing, known_after. destruct r as [[value answer] c]. simpl. rewrite String.eqb_refl.
  destruct (String.eqb_spec (tool_of value) tool) as [<-|N]; simpl.
  - destruct (known !! tool_of value) as [b|] eqn:K; [by rewrite K|].
    destruct (SessionApprovalDecision.remember answer && negb c); simpl; [by rewrite lookup_insert_eq|by rewrite K].
  - destruct (known !! tool_of value); [done|]. destruct (SessionApprovalDecision.remember answer && negb c); simpl; [|done].
    by rewrite lookup_insert_ne.
Qed.

Lemma replied_after known r seen r' line : replied (known_after known r) seen r' line -> replied known (r :: seen) r' line.
Proof. unfold replied, granted. by rewrite standing_after. Qed.

Lemma resolve_spec p value answer c p' line interrupted :
  resolve_ask p value answer c = (p', line, interrupted) ->
  replied p.(DelegateProxy.decisions) [] (value, answer, c) line /\
  p'.(DelegateProxy.decisions) = known_after p.(DelegateProxy.decisions) (value, answer, c).
Proof.
  unfold resolve_ask, decide_tool, replied, granted, standing, known_after. simpl. rewrite String.eqb_refl. simpl.
  destruct (p.(DelegateProxy.decisions) !! tool_of value) as [[]|] eqn:K; simpl; [by intros [= <- <- <-]|by intros [= <- <- <-]; split; [by eexists|]|].
  destruct (SessionApprovalDecision.allows answer) eqn:A, (SessionApprovalDecision.remember answer && negb c) eqn:R;
    intros [= <- <- <-]; rewrite ?A; simpl; try done; split; try done; by eexists.
Qed.

Lemma line_permission s p acc raw answer c c0 s' acc' o :
  s.(DelegateSession.proxy) = Some p ->
  ingest_line as_f64 interrupt_id s acc raw answer c = (s', acc', o) ->
  match request_in (Round.Mk c0 (Round.Line raw answer c)) with
  | None => s'.(DelegateSession.proxy) = Some p /\ s'.(DelegateSession.written) = s.(DelegateSession.written) /\
            o <> LineOutcome.Interrupted
  | Some r =>
      exists p' line,
        s'.(DelegateSession.proxy) = Some p' /\ p'.(DelegateProxy.decisions) = known_after p.(DelegateProxy.decisions) r /\
        s'.(DelegateSession.written) = s.(DelegateSession.written) ++ [line] ++
          (match o with LineOutcome.Interrupted => [interrupt_frame interrupt_id] | _ => [] end) /\
        replied p.(DelegateProxy.decisions) [] r line /\ (forall turn, o <> LineOutcome.Done turn)
  end.
Proof.
  intros P. unfold ingest_line, request_in. simpl. fold (value_of raw). destruct (value_of raw) as [value|]; simpl.
  2: by intros [= <- <- <-].
  unfold ingest_value, asks_tool. destruct (type_of value) as [kind|] eqn:T; [|by intros [= <- <- <-]].
  destruct (decide (kind = "control_request")) as [->|NC].
  2: { rewrite (bool_decide_eq_false_2 (Some kind = _)) by congruence. simpl.
       destruct (String.eqb kind "system"); [intros [= <- <- <-]; by case_bool_decide|].
       destruct (String.eqb kind "assistant"); [by destruct (assistant_text value); intros [= <- <- <-]|].
       destruct (String.eqb_spec kind "control_request"); [done|].
       destruct (String.eqb kind "result"); by intros [= <- <- <-]. }
  rewrite (bool_decide_eq_true_2 (Some "control_request" = Some "control_request")) by done. simpl. unfold handle_control_request.
  destruct (bool_decide (get_str "subtype" (request_of value) = Some "can_use_tool")); [|by intros [= <- <- <-]].
  rewrite P. destruct (resolve_ask p value answer c) as [[p' line] interrupted] eqn:R. apply resolve_spec in R as [RP K].
  destruct interrupted; intros [= <- <- <-]; exists p', line; split_and!; try done. simpl. by rewrite <- app_assoc.
Qed.

(** C14: a delegated agent uses a tool just when the operator said it may. Whatever a turn of a proxied session
    reads, every request for a tool that it read is answered, once and in order, and nothing else is written but the
    interrupt of a turn that was cancelled. The answer to each is what stands when it is asked: what the session
    remembers of the tool, else the first answer for good that an earlier request of the turn got, and if there is
    none what the operator answers to this one. *)
Theorem permissions_granted deadline s acc rounds s' result left_ p :
  s.(DelegateSession.proxy) = Some p ->
  read_until_result as_f64 interrupt_id deadline s acc rounds = (s', Some (result, left_)) ->
  exists used replies tail, rounds = used ++ left_ /\
    s'.(DelegateSession.written) = s.(DelegateSession.written) ++ replies ++ tail /\
    (tail = [] \/ tail = [interrupt_frame interrupt_id] /\ result = inr SessionError.Cancelled) /\
    length replies = length (requests used) /\
    forall i r line, requests used !! i = Some r -> replies !! i = Some line ->
      replied p.(DelegateProxy.decisions) (take i (requests used)) r line.
Proof.
  revert s acc p. induction rounds as [|[c0 got] rounds IH]; intros s acc p P; [done|]. cbn [read_until_result Round.cancelled Round.got].
  destruct c0.
  { intros [= <- <- <-]. exists [], [], [interrupt_frame interrupt_id]. split_and!; [done|done|by right|done|done]. }
  destruct got as [raw answer c|now|].
  - destruct (ingest_line as_f64 interrupt_id s acc raw answer c) as [[s1 acc1] o] eqn:I.
    apply (line_permission s p) with (c0 := false) in I; [|done]. set (round := Round.Mk false (Round.Line raw answer c)) in *.
    assert (RQ : forall used, requests (round :: used) = option_list (request_in round) ++ requests used).
    { intros used. unfold requests. simpl. by destruct (request_in round). }
    destruct (request_in round) as [r|] eqn:R.
    + destruct I as (p' & line & P1 & K & W1 & RP & ND). destruct o as [|turn|]; [|by destruct (ND turn)|].
      * intros E. apply (IH _ _ p' P1) in E as (used & replies & tail & -> & W & T & L & F).
        exists (round :: used), (line :: replies), tail. rewrite RQ. split_and!; [done| |done|by simpl; rewrite L|].
        { by rewrite W, W1, <- !app_assoc. }
        intros [|i] r' line'; simpl; [by intros [= <-] [= <-]|]. intros L1 L2. apply replied_after. rewrite <- K. by apply F.
      * intros [= <- <- <-]. exists [round], [line], [interrupt_frame interrupt_id]. rewrite RQ. simpl.
        split_and!; [done|done|by right|done|]. by intros [|i] r' line' [= <-] [= <-].
    + destruct I as (P1 & W1 & NI). destruct o as [|turn|]; [|intros [= <- <- <-]|done].
      * intros E. apply (IH _ _ p P1) in E as (used & replies & tail & -> & W & T & L & F).
        exists (round :: used), replies, tail. rewrite RQ. simpl. split_and!; [done|by rewrite W, W1|done|done|done].
      * exists [round], [], []. rewrite RQ. simpl. split_and!; [done|by rewrite W1, app_nil_r|by left|done|done].
  - destruct (deadline <=? now)%N; [intros [= <- <- <-]|intros E].
    + exists [Round.Mk false (Round.Timeout now)], [], []. split_and!; [done|by rewrite app_nil_r|by left|done|done].
    + apply (IH _ _ p P) in E as (used & replies & tail & -> & W & T & F).
      by exists (Round.Mk false (Round.Timeout now) :: used), replies, tail.
  - intros [= <- <- <-]. exists [Round.Mk false Round.Disconnected], [], [].
    split_and!; [done|by rewrite app_nil_r|by left|done|done].
Qed.
End permissions.

(** * Examples *)

Definition no_f64 (j : json) : option f64 := None.

Definition line (j : json) : Round.t := Round.Mk false (Round.Line (to_vec j) SessionApprovalDecision.Deny false).
Definition said (text : string) : json :=
  JObj [("type", JStr "assistant");
        ("message", JObj [("content", JArr [JObj [("type", JStr "text"); ("text", JStr text)]])])].
Definition ended_line (text : string) : json :=
  JObj [("type", JStr "result"); ("subtype", JStr "success"); ("result", JStr text)].
Definition wants (tool : string) : json :=
  JObj [("type", JStr "control_request"); ("request_id", JStr "r");
        ("request", JObj [("subtype", JStr "can_use_tool"); ("tool_name", JStr tool); ("tool_use_id", JStr "t")])].

(** Two turns, the first of two lines. *)
Definition two_turns : list Round.t := [line (said "hi"); line (ended_line "one"); line (ended_line "two")].
Definition turn_one : DelegateTurn.t := DelegateTurn.Mk true "one" None None [to_vec (said "hi"); to_vec (ended_line "one")].
Definition turn_two : DelegateTurn.t := DelegateTurn.Mk true "two" None None [to_vec (ended_line "two")].

Lemma two_turns_run :
  session_turns no_f64 "i" (DelegateSession.spawned None) two_turns [turn_one; turn_two] [].
Proof.
  eapply (turns_more _ _ 0%N _ "go"); [vm_compute; reflexivity|].
  eapply (turns_more _ _ 0%N _ "on"); [vm_compute; reflexivity|]. constructor.
Qed.

Lemma session_tape_witness : exists used, two_turns = used ++ [] /\
  map snd (omap output_of (session_events "claude" "task" "/w" RunInputs.default
    (map CapturedTurn.of_turn [turn_one; turn_two]) true)) = lines_of used.
Proof.
  destruct (session_tape no_f64 "i" _ two_turns _ [] "claude" "task" "/w" RunInputs.default true two_turns_run)
    as (used & E & O & _).
  exact (ex_intro _ used (conj E O)).
Defined.

(** A tool allowed for good, asked for again, and one that is denied. *)
Definition three_asks : list Round.t :=
  [Round.Mk false (Round.Line (to_vec (wants "Bash")) SessionApprovalDecision.AllowAlways false);
   Round.Mk false (Round.Line (to_vec (wants "Bash")) SessionApprovalDecision.Deny false);
   Round.Mk false (Round.Line (to_vec (wants "Edit")) SessionApprovalDecision.Deny false);
   line (ended_line "done")].
Definition proxied : DelegateSession.t := DelegateSession.spawned (delegate_proxy DelegateAgent.Claude).

Definition three_asks_turn : DelegateTurn.t :=
  DelegateTurn.Mk true "done" None None
    [to_vec (wants "Bash"); to_vec (wants "Bash"); to_vec (wants "Edit"); to_vec (ended_line "done")].
Definition three_replies : list json :=
  [allow_response "r" JNull "t"; allow_response "r" JNull "t"; deny_response "r" "denied by the operator" false].
Definition asked_thrice : DelegateSession.t :=
  (read_until_result no_f64 "i" TURN_TIMEOUT proxied TurnAccumulator.default three_asks).1.

Lemma three_asks_read :
  read_until_result no_f64 "i" TURN_TIMEOUT proxied TurnAccumulator.default three_asks =
  (asked_thrice, Some (inl three_asks_turn, [])).
Proof. vm_compute. reflexivity. Qed.

Lemma permissions_granted_witness :
  asked_thrice.(DelegateSession.written) = three_replies /\
  exists used replies tail, three_asks = used ++ [] /\
    asked_thrice.(DelegateSession.written) = [] ++ replies ++ tail /\ length replies = length (requests used).
Proof.
  split; [vm_compute; reflexivity|].
  destruct (permissions_granted no_f64 "i" TURN_TIMEOUT proxied TurnAccumulator.default three_asks asked_thrice
              (inl three_asks_turn) [] (DelegateProxy.for_agent "claude") eq_refl three_asks_read)
    as (used & replies & tail & E & W & _ & L & _).
  exact (ex_intro _ used (ex_intro _ replies (ex_intro _ tail (conj E (conj W L))))).
Defined.

(** A child that writes something at every round outlives the limit of a turn, however late it is. *)
Lemma turn_outlives_timeout deadline s acc rounds :
  Forall (fun round => round = Round.Mk false (Round.Line "." SessionApprovalDecision.Deny false)) rounds ->
  (read_until_result no_f64 "i" deadline s acc rounds).2 = None.
Proof.
  intros F. revert s acc. induction F as [|round rounds -> _ IH]; intros s acc; [done|]. cbn [read_until_result].
  change (ingest_line no_f64 "i" s acc "." SessionApprovalDecision.Deny false) with
    (s, TurnAccumulator.Mk acc.(TurnAccumulator.last_assistant) (acc.(TurnAccumulator.raw_lines) ++ ["."]), LineOutcome.Continue).
  apply IH.
Qed.

(** A scout's session is started as any other is: the daemon's sessions have a proxy, which drops the autonomy. *)
Lemma scout_not_read_only cwd model agent task task' a a' root :
  apply_role DelegateRole.Scout task DelegateAutonomy.Full = (task', a) ->
  start_command cwd a model (delegate_proxy agent) = start_command cwd a' model (delegate_proxy agent) /\
  (start_command cwd a model (delegate_proxy agent) = build_proxied_claude_command cwd model) /\
  (plan_start "claude" task (Some root) None a' DelegateRole.Scout =
   inl (StartPlan.Mk DelegateAgent.Claude root task' DelegateAutonomy.ReadOnly)).
Proof. by intros [= <- <-]. Qed.

(** * The record on disk *)

#[export] Instance delegate_record_wire : Wire DelegateSessionRecord.t.
Proof. wire_null_struct. Qed.

#[export] Instance delegate_stored_spec : StoredSpec DelegateSessionRecord.t.
Proof. split; [apply _|]. intros r. by eexists. Qed.

(** The store of delegates is a map from ids too. *)
Lemma delegate_store_spec `{SerdeJson, SerdeText, !SerdeTextSpec} fates d d' fates' dir (r : DelegateSessionRecord.t) result :
  disk_wf d -> r.(DelegateSessionRecord.schema_version) = DELEGATE_SCHEMA_VERSION ->
  exec fates (DelegateStore.write_record dir r) d = (d', fates', result) ->
  (forall id, id <> r.(DelegateSessionRecord.session_id) ->
     loaded (A:=DelegateSessionRecord.t) d' dir id = loaded d dir id) /\
  loaded d' dir r.(DelegateSessionRecord.session_id) =
    match result with inl _ => inl r | inr _ => loaded d dir r.(DelegateSessionRecord.session_id) end.
Proof. intros W V E. by apply write_record_spec in E as (_ & O & L & _). Qed.

(** A follow-up's update and a close's, each a load and a write: the later write puts back what it loaded before the
    close, and the session that was closed is found orphaned. *)
Definition open_record : DelegateSessionRecord.t :=
  DelegateSessionRecord.begin (wrap 64 1) "s" "claude" "/w" "/w" DelegateAutonomy.Edit DelegateRole.Standard None.
Definition delegates_disk : Disk.t := (exec [] (DelegateStore.write_record "delegates" open_record) Disk.empty).1.1.

Lemma close_update_lost :
  let touching := persist_delegate_update (Some "delegates") "s" (DelegateSessionRecord.touch (wrap 64 3)) in
  let closing := persist_delegate_update (Some "delegates") "s" (DelegateSessionRecord.mark_closed (wrap 64 2)) in
  let pool := Pool.run ((0, Fate.Done) :: repeat (1, Fate.Done) 5 ++ repeat (0, Fate.Done) 4)
                (Pool.Mk delegates_disk [touching; closing]) in
  (pool.(Pool.threads) = [Ret tt; Ret tt]) /\
  loaded pool.(Pool.disk) "delegates" "s" = inl (DelegateSessionRecord.touch (wrap 64 3) open_record) /\
  (DelegateSessionRecord.touch (wrap 64 3) open_record).(DelegateSessionRecord.finished) = false.
Proof. split_and!; vm_compute; reflexivity. Qed.
